(* ===== verification/_CoqProject ===== *)
-Q . S2P
Prelude.v
Core.v
CoreProofs.v
Sha256.v
Wal.v
ClusterBase.v
RaftStore.v
RaftInvariant.v
RaftSafety.v
RaftRuntime.v
RuntimeProofs.v
RuntimeTheorems.v
Placement.v
PlacementProofs.v
Rebalance.v
RebalanceProofs.v
BarrierProofs.v
Distance.v
Float.v
Bitmap.v
Posting.v
Metadata.v
MetadataProofs.v
Persistence.v
PersistenceProofs.v
TopK.v
Index.v
Flat.v
Segment.v
SegmentProofs.v
Filters.v
Instances.v
Shard.v
ShardProofs.v
ShardGenerations.v
Collection.v
CollectionProofs.v
Lexical.v
LexicalProofs.v
BinaryIndex.v
Hybrid.v
HybridProofs.v
NamedSearch.v
StoreTheorems.v
Compaction.v
Column.v
Json.v
SegmentFiles.v
JsonInstances.v
Multisegment.v
SegmentIO.v
ViewProofs.v
MappedViews.v
StorageTheorems.v
MappedIndex.v
Sealed.v
SealedProofs.v
Checkpoint.v
CheckpointProofs.v
Engine.v
EngineState.v
EngineCheckpoint.v
EngineMutations.v
EngineInstances.v
EngineTheorems.v
Hnsw.v
HnswSearch.v
HnswPool.v
HnswProofs.v
HnswPoolSafety.v
HnswIndex.v
HnswQuery.v
HnswGraph.v
HnswInstances.v
Ownership.v
Replication.v
ReplicaNodes.v
ReplicaProtocol.v
ReplicaTheorems.v
ReplicaInstances.v
