(* ===== verification/Prelude.v ===== *)
(** * GideonDB: a verification library

    GideonDB ([src/], Go) is a distributed vector database.  A node keeps
    collections of records; a collection routes each record to one of its
    shards; a shard is a mutable segment over an immutable one, made durable
    by a write-ahead log and, at checkpoints, by immutable segment files.
    Nodes agree on the cluster's metadata through a small Raft store, place
    shards by rendezvous hashing, move them by a rebalance plan and replicate
    each from its leader to the other members of its replica set.  This
    library models that logic as executable definitions translated from the
    source and proves what makes it correct.

    ** Conventions

    A Go function is a function of its receiver's state that returns the new
    state and its results; a struct is a record, an error an [error] value in
    [res A] or an option; a [panic] is the error [Panic].  Machine integers
    are [Z] with [u64], [u32], ... written out where the source can wrap;
    [float32] and [float64] values are their bit patterns, with the arithmetic
    of [Distance.v] and [Float.v] (the standard library's [SpecFloat]); strings are byte strings; Go maps are [gmap]s, and
    code whose result depends on the iteration order of a map sorts first, as
    the source does.  Mutexes disappear: an operation that holds the lock for
    its whole body is one step.  Failures of the operating system are explicit
    arguments (a fault point of [Wal.v], [RaftStore.v] and [Rebalance.v]) or a
    list of outcomes consumed by each call ([SegmentFiles.v]); theorems
    quantify over all of them, which covers crashes between any two calls.

    ** Files

    - [Prelude.v]: errors, results, slices, machine integers, sorting, generic
      lemmas and automation.
    - [Core.v], [CoreProofs.v]: [internal/core] - configurations, records,
      vector fields, queries, bfloat16/float16 rounding.
    - [Wal.v]: [internal/wal/wal.go] at byte level - frames, CRC-32C, recovery
      with repair of a torn tail, append with failing writes, reset.
    - [Sha256.v], [ClusterBase.v], [Placement.v], [PlacementProofs.v]:
      [internal/cluster] identities, views, [placement.go], [replicas.go].
    - [RaftStore.v], [RaftInvariant.v], [RaftSafety.v]: [raft.go] - the durable
      state of the metadata log, its handlers, snapshots and joint consensus.
    - [RaftRuntime.v], [RuntimeProofs.v], [RuntimeTheorems.v]:
      [raft_runtime.go] - campaigns, heartbeats, proposals, voter changes and
      transfers of leadership as programs that interleave at their locks, and
      clusters of nodes that run them.
    - [Rebalance.v], [RebalanceProofs.v], [BarrierProofs.v]: [rebalance*.go] -
      planning, the executor over a transport, the durable write barrier.
    - [Distance.v], [Index.v], [TopK.v], [Flat.v]: [internal/distance] and
      [internal/index/flat] - kernels, the bounded heap, the exact index.
    - [Float.v], [Bitmap.v], [Posting.v], [Metadata.v],
      [MetadataProofs.v], [Filters.v]: [internal/metadata/filter.go] - ordinal
      bitmaps, numeric fields, tokens, filter parsing and evaluation.
    - [Persistence.v], [PersistenceProofs.v]: [metadata/persistence.go].
    - [Segment.v], [SegmentProofs.v]: [internal/segment] - the mutable segment
      over interfaces for its vector, metadata and lexical indexes.
    - [Shard.v], [ShardProofs.v], [ShardGenerations.v]: [internal/shard] - the
      two-level view, checkpoint deltas, generations pinned by readers.
    - [Collection.v], [CollectionProofs.v], [StoreTheorems.v]:
      [internal/collection] - routing, versions, search and merge.
    - [Lexical.v], [LexicalProofs.v]: [segment/lexical.go] - inverted indexes
      for tokens and sparse vectors, BM25; [Hybrid.v], [HybridProofs.v]:
      [SearchHybrid] of segments, shards and collections; [NamedSearch.v]:
      [SearchNamed] of [named.go], MaxSim and reranking.
    - [Hnsw.v], [HnswSearch.v], [HnswProofs.v], [HnswIndex.v],
      [HnswQuery.v], [HnswGraph.v], [HnswInstances.v]:
      [internal/index/hnsw] - the layered graph, its heaps and searches,
      insertion, deletion, batches and rebuilding, and the file of its
      topology; [HnswPool.v], [HnswPoolSafety.v]: the
      goroutines that link a large batch, as workers that interleave their
      locked steps.
    - [Instances.v]: reference implementations of the interfaces.
    - [Compaction.v]: [internal/storage/compaction/policy.go].
    - [Column.v], [Json.v], [SegmentFiles.v], [SegmentIO.v]:
      [internal/storage/segmentfile] - column files, manifests, bundles, and a
      directory with failing calls; [JsonInstances.v] is a reference codec.
    - [Multisegment.v], [ViewProofs.v], [MappedViews.v],
      [StorageTheorems.v]: [internal/engine/multisegment.go] and the mapped
      vectors - views over several segments and their compaction.
    - [MappedIndex.v]: [flat/mapped.go] - scoring through a mapping and the
      exact index over one; [Sealed.v], [SealedProofs.v]: the sealed segments of [segment.go] and [pq.go], their installation in a
      collection, and what they hold.
    - [Checkpoint.v]: [engine.go] - writing a shard's checkpoint, loading a
      shard, replaying its log; [Engine.v]: [engine.go], [idempotency.go] -
      mutations, batches, idempotency keys, replication, scrolling.
    - [CheckpointProofs.v], [EngineState.v], [EngineCheckpoint.v],
      [EngineMutations.v], [EngineTheorems.v]: what the
      files of a shard stand for, and that checkpoints, mutations and opening
      keep it; [EngineInstances.v] runs a small collection.
    - [BinaryIndex.v]: [internal/index/binary] - sign codes,
      the scan by Hamming distance, rescoring.
    - [Ownership.v]: [internal/engine/ownership.go] - which shards a node
      stores, over the collections of an engine.
    - [Replication.v]: [internal/api/rest/replication.go],
      [replication_fanout.go], [replica_repair.go] and the views and fences of
      [server.go] - the requests of replication, as functions of a server's
      state; [ReplicaNodes.v]: what they do to a shard;
      [ReplicaProtocol.v]: a replica set over a network that delays, repeats,
      reorders and loses requests, as a step relation with its invariant;
      [ReplicaTheorems.v], [ReplicaInstances.v].

    ** Interfaces

    Code outside [src/], or a part left out, enters through a class whose laws
    are named hypotheses and which [Instances.v] or [JsonInstances.v]
    implements: [VectorIndex], [MetadataIndex], [LexicalIndex] and
    [IndexBuilders] (the indexes a segment uses), [UnicodeTables] and
    [MathFunctions] (the Unicode tables and trigonometry of the Go library,
    with no law but the ranges used), [SealedBuilders] and [SealedSpec] (the
    indexes of sealed segments, implemented in [EngineInstances.v]),
    [MapOrder] (the order in which Go visits a map: some permutation of its
    entries), [LogExp] (logarithm and exponential, with no law), [Scheduler]
    and [SchedulerSpec] (which complete interleaving of the linking goroutines
    a batch takes; one is given in [HnswInstances.v]),
    [FilterFiles] (the filter files of a view), [Json] and [JsonSpec] ([encoding/json]
    for a type: what is written reads back as [through] of it, spelled out
    per type).

    ** Theorems

    - Store ([StoreTheorems.v], [ShardGenerations.v]): a collection refines a
      keyed map under any history; search over exact indexes returns a best-k
      set of the live matching records; sealed generations are closed exactly
      once and never under a reader; snapshots do not change; merging and
      scoring do not depend on order and path.
    - Ranking ([LexicalProofs.v], [HybridProofs.v], [NamedSearch.v]): text
      search is BM25 over the live records after any history; weighted fusion
      scores a candidate by its record, whichever signal found it; searching a
      named field without an index is exhaustive.
    - Graph ([HnswIndex.v], [HnswQuery.v], [HnswGraph.v]): the HNSW index
      refines a map from ids to vectors and stays a well-formed graph; its
      searches end (their loops, written as relations without fuel, stop in what
      the bounded loops return), answer live allowed vectors with exact scores, and miss
      nothing when they scan or the graph is connected and the bound wide; a
      graph survives its file, and no file loads as an unsafe graph.
    - Log ([Wal.v]): append refines appending to a list of records; any crash
      leaves the old records or the old records and the new one; a changed
      byte of a payload is rejected; reset and reopen.
    - Metadata log ([RaftSafety.v]): the durable state stays recoverable under
      any failing write, up to the 8 MiB that opening reads of a file and with
      no snapshot installed during a joint configuration; committed entries
      are permanent; one vote per term; election safety, also across joint
      configurations; log matching.
    - Metadata group ([RuntimeTheorems.v]): in a cluster whose goroutines,
      messages and crashes interleave freely, one node writes entries in a
      term, and a leader commits what a quorum confirmed to it.  Every write
      of a state file is assumed to succeed there ([RaftSafety.v] shows what a
      failed one costs), and a granted vote to come from the node that was
      asked.
    - Cluster ([PlacementProofs.v], [RebalanceProofs.v], [BarrierProofs.v]):
      nodes with the same view agree on placement; growth moves shards only to
      the new node; a plan executes safely and covers all shards; a frozen
      shard stays frozen until its plan is released; a preparation's journal
      lists only what the mover carried out, reopens up to the same 8 MiB, and
      resumes.
    - Values ([CoreProofs.v]): preparation is idempotent, bfloat16 rounding is
      to nearest, normalization is idempotent.
    - Metadata ([Filters.v], [Bitmap.v]): evaluation selects exactly the
      matching ordinals after any history; parsed filters are well typed; the
      persisted index loads as the index of the view; loops terminate.
    - Storage ([StorageTheorems.v], [MappedViews.v], [Column.v],
      [Compaction.v]): compaction keeps the view whatever fails; mapping a
      view agrees with materializing it; damage to a file is detected;
      cleaning up removes only orphans; compaction plans are bounded.

    - Engine ([EngineTheorems.v]): opening a collection gives back the view of
      each shard with the uncovered entries of its log; a write, a deletion
      and a checkpoint of a [live] collection (every shard linked to its
      files, as it is until a checkpoint fails) are all or nothing across a
      restart, whichever call on a file fails.  These are proved for collections of one plain kind
      ([plain_config]: flat index, no quantization), on machines that map
      files as floats ([native]), for records JSON preserves ([durable]); and
      for checkpoints whose mutations do not cancel out ([net_change],
      [something_left]): the scenarios of [EngineInstances.v] show what happens otherwise.  A failed
      append is assumed to be rolled back ([undone]).

    - Replication ([ReplicaTheorems.v]): replicas at the
      same position of the log hold the same records; what was acknowledged at
      a quorum is on a member of every majority that is still in service; a
      member takes mutations only from the leader of its own view, which is
      one for all members with the same view; repairs back off.  Nodes do not
      crash or restart there.  A server whose storage fails while it
      installs a snapshot leaves the world of [ReplicaProtocol.v], and its
      members keep one placement, epoch and term: moving a shard is the
      business of [Rebalance.v].  Automatic checkpoints are off ([every <= 0]):
      a failed one can fail a commit that the log keeps.
    - Binary index ([BinaryIndex.v]): the index refines a map; a search is
      exact among the codes nearest to the query's.

    The theorems named in the manifest's findings show behaviour that differs
    from the source's comments or intent; each is an evaluated example, or a
    proof that one exists where the state is too large to evaluate.

    ** Bounds and fuel

    The loops that are not structural carry fuel: [recover_loop] the number of
    bytes left (each frame consumes at least its header), the bit loops of
    [Bitmap.v] 64 ([setIDs_loop_terminates]), heaps their size, decimal digits
    twenty for a [uint64], the loops of an HNSW search the number of nodes.
    Each use has a lemma that the fuel suffices.
    The loop that brings a Raft peer up to date ends only with the peer's
    answers: [RuntimeTheorems.v] holds for any fuel, and running out counts as
    no answer.

    ** Not modelled

    DiskANN and product quantization (behind [SealedBuilders], as is
    the HNSW graph there); the engine's catalog of collections, backup and
    restore; the Raft runtime's timers, its transports and the discovery of
    peers; HTTP, gRPC and MCP servers, clients, configuration, embedding and
    reranking providers.  The servers decode requests and encode answers
    around the rest and stay out. *)
From Stdlib Require Import ZArith Lia Ascii String Sorting.Permutation Sorting.Sorted.
From stdpp Require Import base tactics list gmap strings.
Local Open Scope Z_scope.

(** ** Errors and results *)

(** The sentinel errors of [internal/core/types.go]. *)
Inductive sentinel : Set :=
  | ErrNotFound | ErrAlreadyExists | ErrDimensionMismatch | ErrInvalidArgument
  | ErrShardNotOwned | ErrReplicationGap | ErrReplicationConflict
  | ErrReplicationCompacted | ErrIdempotencyConflict.

(** A Go [error] value: a bare sentinel, a sentinel wrapped with [%w], a
    plain [fmt.Errorf], or a failure reported by the operating system.
    [Panic] stands for a Go run-time panic (an index or slice bound out of
    range); theorems show where it cannot occur. *)
Inductive error : Set :=
  | Sentinel (s : sentinel)
  | Wrapf (s : sentinel) (msg : string)
  | Errorf (msg : string)
  | IOError (what : string)
  | Panic (what : string).

(** A Go [(T, error)] pair in which the value is meaningful only when the
    error is nil. *)
Inductive res (A : Type) : Type :=
  | Ok (a : A)
  | Err (e : error).
Arguments Ok {A} a.
Arguments Err {A} e.

Definition res_bind {A B} (c : res A) (k : A → res B) : res B :=
  match c with Ok a => k a | Err e => Err e end.

Definition is_ok {A} (c : res A) : bool :=
  match c with Ok _ => true | Err _ => false end.

Declare Scope gideon_scope.
Delimit Scope gideon_scope with gideon.
Notation "'let!' x := c 'in' k" := (res_bind c (λ x, k))
  (at level 10, x name, k at level 200) : gideon_scope.
Notation "'let!' ' p := c 'in' k" := (res_bind c (λ p, k))
  (at level 10, p strict pattern, k at level 200) : gideon_scope.
Open Scope gideon_scope.

#[global] Instance sentinel_eq_dec : EqDecision sentinel.
Proof. solve_decision. Defined.
#[global] Instance error_eq_dec : EqDecision error.
Proof. solve_decision. Defined.

(** [errors.Is(err, s)] *)
Definition errors_Is (e : error) (s : sentinel) : bool :=
  match e with
  | Sentinel s' | Wrapf s' _ => bool_decide (s = s')
  | _ => false
  end.

(** ** Machine integers *)

Definition two64 : Z := 2 ^ 64.
Definition u64 (z : Z) : Z := z mod two64.
Definition u32 (z : Z) : Z := z mod 2 ^ 32.
Definition u16 (z : Z) : Z := z mod 2 ^ 16.

Lemma u64_small z : 0 ≤ z < two64 → u64 z = z.
Proof. apply Z.mod_small. Qed.

Lemma u64_bounds z : 0 ≤ u64 z < two64.
Proof. apply Z.mod_pos_bound. reflexivity. Qed.

Create HintDb gideon.
Create Rewrite HintDb gideon.
#[export] Hint Rewrite u64_small using (unfold two64; lia) : gideon.

(** Length of a Go slice as an [int]. *)
Definition len {A} (l : list A) : Z := Z.of_nat (length l).

Lemma len_nonneg {A} (l : list A) : 0 ≤ len l.
Proof. unfold len. lia. Qed.

Lemma len_cons {A} (x : A) l : len (x :: l) = 1 + len l.
Proof. unfold len. cbn [length]. lia. Qed.

Lemma len_app {A} (l k : list A) : len (l ++ k) = len l + len k.
Proof. unfold len. rewrite length_app. lia. Qed.

Lemma len_zero {A} (l : list A) : len l = 0 ↔ l = [].
Proof. unfold len. destruct l; simpl; split; intros; try congruence; lia. Qed.

(** Go slice expressions [l[:n]], [l[n:]] and index [l[n]] for a
    non-negative in-range [n]; out of range the source panics. *)
Definition slice_to {A} (l : list A) (n : Z) : list A := take (Z.to_nat n) l.
Definition slice_from {A} (l : list A) (n : Z) : list A := drop (Z.to_nat n) l.
Definition index_at {A} (l : list A) (n : Z) : option A := l !! Z.to_nat n.

Lemma len_slice_to {A} (l : list A) n :
  0 ≤ n ≤ len l → len (slice_to l n) = n.
Proof. unfold len, slice_to. rewrite length_take. lia. Qed.

Lemma len_slice_from {A} (l : list A) n :
  0 ≤ n ≤ len l → len (slice_from l n) = len l - n.
Proof. unfold len, slice_from. rewrite length_drop. lia. Qed.

Lemma slice_to_app {A} (l k : list A) : slice_to (l ++ k) (len l) = l.
Proof. unfold slice_to, len. by rewrite Nat2Z.id, take_app_length. Qed.

Lemma slice_from_app {A} (l k : list A) : slice_from (l ++ k) (len l) = k.
Proof. unfold slice_from, len. by rewrite Nat2Z.id, drop_app_length. Qed.

#[export] Hint Rewrite @slice_to_app @slice_from_app @len_app : gideon.

Lemma index_at_Some {A} (l : list A) n :
  0 ≤ n < len l → ∃ x, index_at l n = Some x.
Proof.
  unfold len, index_at. intros H.
  destruct (lookup_lt_is_Some_2 l (Z.to_nat n)) as [x Hx]; [lia|]. eauto.
Qed.

Ltac gsimpl := autorewrite with gideon in *.

(** Case analysis on every [if] and [match] scrutinee of a hypothesis that
    equates a handler's body with its result. *)
Ltac case_all H :=
  repeat (case_match; simplify_eq/=; try discriminate H).

(** Turns the boolean guards of the source into propositions. *)
Ltac bool_props :=
  repeat match goal with
  | H : (_ && _)%bool = true |- _ => apply andb_true_iff in H as [? ?]
  | H : (_ && _)%bool = false |- _ => apply andb_false_iff in H
  | H : (_ || _)%bool = false |- _ => apply orb_false_iff in H as [? ?]
  | H : (_ || _)%bool = true |- _ => apply orb_true_iff in H
  | H : negb _ = true |- _ => apply negb_true_iff in H
  | H : negb _ = false |- _ => apply negb_false_iff in H
  | H : bool_decide _ = true |- _ => apply bool_decide_eq_true in H
  | H : bool_decide _ = false |- _ => apply bool_decide_eq_false in H
  | H : (_ <? _) = true |- _ => apply Z.ltb_lt in H
  | H : (_ <? _) = false |- _ => apply Z.ltb_ge in H
  | H : (_ <=? _) = true |- _ => apply Z.leb_le in H
  | H : (_ <=? _) = false |- _ => apply Z.leb_gt in H
  | H : (_ =? _) = true |- _ => apply Z.eqb_eq in H
  | H : (_ =? _) = false |- _ => apply Z.eqb_neq in H
  end.

(** ** Strings *)

(** Go's [<] on strings: byte-wise lexicographic order. *)
Definition str_ltb (a b : string) : bool :=
  match String.compare a b with Lt => true | _ => false end.

(** Interface of the strict total orders the source sorts by. *)
Class StrictOrderB {A} (ltb : A → A → bool) : Prop := {
  ltb_irrefl x : ltb x x = false;
  ltb_trans x y z : ltb x y = true → ltb y z = true → ltb x z = true;
  ltb_total x y : ltb x y = false → ltb y x = false → x = y;
}.

Lemma ascii_compare_eq a b : Ascii.compare a b = Eq ↔ a = b.
Proof.
  unfold Ascii.compare. rewrite N.compare_eq_iff. split; [|congruence].
  intros H. rewrite <-(ascii_N_embedding a), <-(ascii_N_embedding b). congruence.
Qed.

Lemma string_compare_eq a b : String.compare a b = Eq ↔ a = b.
Proof.
  revert b. induction a as [|x a IH]; intros [|y b]; simpl; try easy.
  destruct (Ascii.compare x y) eqn:E.
  - apply ascii_compare_eq in E as ->. rewrite IH. split; congruence.
  - split; [easy|]. intros [= -> ->].
    rewrite (proj2 (ascii_compare_eq y y) eq_refl) in E. easy.
  - split; [easy|]. intros [= -> ->].
    rewrite (proj2 (ascii_compare_eq y y) eq_refl) in E. easy.
Qed.

Lemma str_ltb_cons x a y b :
  str_ltb (String x a) (String y b) =
    ((N_of_ascii x <? N_of_ascii y)%N
     || ((N_of_ascii x =? N_of_ascii y)%N && str_ltb a b))%bool.
Proof.
  unfold str_ltb. simpl. unfold Ascii.compare.
  destruct (N.compare_spec (N_of_ascii x) (N_of_ascii y)) as [E|E|E].
  - rewrite E, N.ltb_irrefl, N.eqb_refl. simpl. done.
  - rewrite (proj2 (N.ltb_lt _ _) E). done.
  - rewrite (proj2 (N.ltb_ge _ _)) by lia.
    rewrite (proj2 (N.eqb_neq _ _)) by lia. done.
Qed.

#[global] Instance str_ltb_strict : StrictOrderB str_ltb.
Proof.
  split.
  - intros x. unfold str_ltb. by rewrite (proj2 (string_compare_eq x x) eq_refl).
  - intros x. induction x as [|c x IH]; intros [|d y] [|e z]; try done.
    rewrite !str_ltb_cons. intros H1 H2.
    rewrite orb_true_iff, andb_true_iff, N.ltb_lt, N.eqb_eq in H1, H2 |- *.
    destruct H1 as [H1|[H1 ?]]; [left; destruct H2 as [?|[? _]]; lia|].
    destruct H2 as [H2|[H2 ?]]; [left; lia|].
    right. split; [lia|]. eauto.
  - intros x. induction x as [|c x IH]; intros [|d y]; try done.
    rewrite !str_ltb_cons, !orb_false_iff, !andb_false_iff, !N.ltb_ge, !N.eqb_neq.
    intros [H1 H1'] [H2 H2'].
    assert (N_of_ascii c = N_of_ascii d) as E by lia.
    f_equal.
    + rewrite <-(ascii_N_embedding c), <-(ascii_N_embedding d). congruence.
    + apply IH; [destruct H1'|destruct H2']; congruence || lia.
Qed.

(** Strings without a NUL byte, which separates the parts of keys. *)
Fixpoint no_nul (s : string) : bool :=
  match s with
  | EmptyString => true
  | String c s => negb (Ascii.eqb c Ascii.zero) && no_nul s
  end.

Lemma append_cons c a b : String c a +:+ b = String c (a +:+ b).
Proof. reflexivity. Qed.
Lemma append_nil b : EmptyString +:+ b = b.
Proof. reflexivity. Qed.

Lemma no_nul_app a b : no_nul (a +:+ b) = no_nul a && no_nul b.
Proof. induction a as [|c a IH]; simpl; [done|]. by rewrite IH, andb_assoc. Qed.

(** A NUL separator marks where a prefix without one ends. *)
Lemma nul_prefix a b x y :
  no_nul a = true → no_nul b = true → a +:+ String Ascii.zero x = b +:+ String Ascii.zero y → a = b ∧ x = y.
Proof.
  revert b. induction a as [|c a IH]; intros [|d b] Ha Hb H; rewrite ?append_cons, ?append_nil in H.
  - split; [done|congruence].
  - assert (d = Ascii.zero) as -> by congruence. done.
  - assert (c = Ascii.zero) as -> by congruence. done.
  - simpl in Ha, Hb. apply andb_true_iff in Ha as [_ Ha], Hb as [_ Hb].
    destruct (IH b Ha Hb) as [-> ->]; [congruence|]. split; [congruence|done].
Qed.

(** ** Sorting *)

(** Orders [sort.Slice] is called with: strict, and with incomparability an
    equivalence (elements may tie on their key). *)
Class WeakOrderB {A} (ltb : A → A → bool) : Prop := {
  wltb_irrefl x : ltb x x = false;
  wltb_trans x y z : ltb x y = true → ltb y z = true → ltb x z = true;
  wltb_neg_trans x y z : ltb x y = false → ltb y z = false → ltb x z = false;
}.

#[global] Instance strict_weak {A} (ltb : A → A → bool) :
  StrictOrderB ltb → WeakOrderB ltb.
Proof.
  intros H. split; [apply ltb_irrefl|apply ltb_trans|].
  intros x y z Hxy Hyz. destruct (ltb x z) eqn:Hxz; [|done].
  destruct (ltb y x) eqn:Hyx.
  - rewrite (ltb_trans y x z) in Hyz by done. done.
  - rewrite (ltb_total x y Hxy Hyx) in Hxz. congruence.
Qed.

(** Ordering elements by a key, as [sort.Slice] comparators do. *)
Definition by_key {A K} (ltb : K → K → bool) (f : A → K) (a b : A) : bool :=
  ltb (f a) (f b).

#[global] Instance by_key_weak {A K} (ltb : K → K → bool) (f : A → K) :
  WeakOrderB ltb → WeakOrderB (by_key ltb f).
Proof.
  intros H. unfold by_key. split; intros; eauto using wltb_irrefl, wltb_trans, wltb_neg_trans.
Qed.

Section Sort.
Context {A : Type} (ltb : A → A → bool).

Fixpoint sort_insert (x : A) (l : list A) : list A :=
  match l with
  | [] => [x]
  | y :: l' => if ltb y x then y :: sort_insert x l' else x :: y :: l'
  end.

(** The result of [sort.Slice] and [sort.Strings].  Where elements tie the
    Go order is unspecified; this is the stable choice. *)
Fixpoint sort_slice (l : list A) : list A :=
  match l with
  | [] => []
  | x :: l' => sort_insert x (sort_slice l')
  end.

Definition ordered (l : list A) : Prop :=
  StronglySorted (λ a b, ltb b a = false) l.

Lemma sort_insert_perm x l : sort_insert x l ≡ₚ x :: l.
Proof.
  induction l as [|y l IH]; simpl; [done|].
  destruct (ltb y x); [|done]. rewrite IH. apply Permutation_swap.
Qed.

Lemma sort_slice_perm l : sort_slice l ≡ₚ l.
Proof. induction l as [|x l IH]; simpl; [done|]. by rewrite sort_insert_perm, IH. Qed.

Lemma sort_slice_elem x l : x ∈ sort_slice l ↔ x ∈ l.
Proof. by rewrite sort_slice_perm. Qed.

Lemma length_sort_slice l : length (sort_slice l) = length l.
Proof. by rewrite sort_slice_perm. Qed.

Lemma ordered_sort_id l : ordered l → sort_slice l = l.
Proof.
  induction 1 as [|x l Hl IH Hx]; simpl; [done|]. rewrite IH.
  destruct l as [|y l]; simpl; [done|]. inversion Hx; subst.
  by match goal with H : ltb y x = false |- _ => rewrite H end.
Qed.

Lemma ordered_lookup l i j a b :
  ordered l → (i < j)%nat → l !! i = Some a → l !! j = Some b → ltb b a = false.
Proof.
  intros Hl. revert i j. induction Hl as [|x l Hl IH Hx]; intros i j Hij Hi Hj; [done|].
  destruct j as [|j]; [lia|]. destruct i as [|i]; simpl in *.
  - simplify_eq. rewrite Forall_lookup in Hx. eauto.
  - eapply (IH i j); eauto. lia.
Qed.

Context `{!WeakOrderB ltb}.

Lemma weak_asym x y : ltb x y = true → ltb y x = false.
Proof.
  intros H. destruct (ltb y x) eqn:E; [|done].
  pose proof (wltb_trans x y x H E) as C. by rewrite wltb_irrefl in C.
Qed.

Lemma sort_insert_ordered x l : ordered l → ordered (sort_insert x l).
Proof.
  unfold ordered. induction 1 as [|y l Hl IH Hy]; simpl; [repeat constructor|].
  destruct (ltb y x) eqn:E.
  - constructor; [done|]. rewrite sort_insert_perm.
    constructor; [by apply weak_asym|done].
  - constructor; [by constructor|]. constructor; [done|].
    eapply Forall_impl; [done|]. intros z Hz; simpl in *.
    by eapply wltb_neg_trans.
Qed.

Lemma sort_slice_ordered l : ordered (sort_slice l).
Proof.
  induction l; simpl; [constructor|]. by apply sort_insert_ordered.
Qed.
End Sort.

(** Sorting by a strict total order has one answer, whatever the order the
    elements arrived in (Go map iteration, peer discovery). *)
Lemma ordered_unique {A} (ltb : A → A → bool) `{!StrictOrderB ltb} (l k : list A) :
  ordered ltb l → ordered ltb k → l ≡ₚ k → l = k.
Proof.
  intros Hl. revert k. induction Hl as [|x l Hl IH Hx]; intros k Hk Hp.
  { by apply Permutation_nil_l in Hp. }
  destruct k as [|y k]; [by apply Permutation_nil_r in Hp|].
  inversion Hk as [|?? Hk' Hy]; subst.
  assert (x = y) as ->.
  { apply ltb_total.
    - assert (x ∈ y :: k) as [->|Hin]%elem_of_cons by (rewrite <-Hp; set_solver).
      + apply ltb_irrefl.
      + rewrite Forall_forall in Hy. by apply Hy.
    - assert (y ∈ x :: l) as [->|Hin]%elem_of_cons by (rewrite Hp; set_solver).
      + apply ltb_irrefl.
      + rewrite Forall_forall in Hx. by apply Hx. }
  f_equal. apply IH; [done|]. by apply Permutation.Permutation_cons_inv in Hp.
Qed.

Lemma sort_slice_unique {A} (ltb : A → A → bool) `{!StrictOrderB ltb} (l k : list A) :
  l ≡ₚ k → sort_slice ltb l = sort_slice ltb k.
Proof.
  intros Hp. apply (ordered_unique ltb); auto using sort_slice_ordered, strict_weak.
  by rewrite !sort_slice_perm.
Qed.

(** Sorting commutes with a map that carries the order along. *)
Lemma sort_slice_fmap {A B} (f : A → B) (ltb : A → A → bool) (ltb' : B → B → bool) l :
  (∀ a b, ltb a b = ltb' (f a) (f b)) → f <$> sort_slice ltb l = sort_slice ltb' (f <$> l).
Proof.
  intros H. assert (∀ x k, f <$> sort_insert ltb x k = sort_insert ltb' (f x) (f <$> k)) as Hi.
  { intros x k. induction k as [|y k IH]; [done|]. rewrite fmap_cons. cbn [sort_insert].
    rewrite H. destruct (ltb' (f y) (f x)); [|done]. by rewrite fmap_cons, IH. }
  induction l as [|x l IH]; [done|]. rewrite fmap_cons. cbn [sort_slice]. by rewrite Hi, IH.
Qed.

(** Sorting by a key that no two elements share has one answer. *)
Lemma ordered_unique_key {A K} (ltb : K → K → bool) `{!StrictOrderB ltb} (f : A → K) (l k : list A) :
  NoDup (f <$> l) → ordered (by_key ltb f) l → ordered (by_key ltb f) k → l ≡ₚ k → l = k.
Proof.
  intros Hnd Hl. revert k Hnd. induction Hl as [|x l Hl IH Hx]; intros k Hnd Hk Hp.
  { by apply Permutation_nil_l in Hp. }
  destruct k as [|y k]; [by apply Permutation_nil_r in Hp|].
  inversion Hk as [|?? Hk' Hy]; subst. rewrite fmap_cons, NoDup_cons in Hnd. destruct Hnd as [Hnin Hnd].
  assert (x ∈ y :: k) as Hxk by (rewrite <-Hp; apply list_elem_of_here).
  assert (y ∈ x :: l) as Hyl by (rewrite Hp; apply list_elem_of_here).
  assert (x = y) as ->.
  { apply elem_of_cons in Hyl as [->|Hyl]; [done|]. apply elem_of_cons in Hxk as [->|Hxk]; [done|].
    exfalso. apply Hnin. rewrite Forall_forall in Hx, Hy. unfold by_key in Hx, Hy.
    rewrite (ltb_total (f x) (f y) (Hy x Hxk) (Hx y Hyl)). by apply list_elem_of_fmap_2. }
  f_equal. apply IH; [done|done|]. by apply Permutation.Permutation_cons_inv in Hp.
Qed.

Lemma sort_slice_unique_key {A K} (ltb : K → K → bool) `{!StrictOrderB ltb} (f : A → K) (l k : list A) :
  NoDup (f <$> l) → l ≡ₚ k → sort_slice (by_key ltb f) l = sort_slice (by_key ltb f) k.
Proof.
  intros Hnd Hp. apply (ordered_unique_key ltb f).
  - by rewrite sort_slice_perm.
  - apply sort_slice_ordered, by_key_weak, strict_weak. done.
  - apply sort_slice_ordered, by_key_weak, strict_weak. done.
  - by rewrite !sort_slice_perm.
Qed.

(** The first element of a sorted list is one that none precedes, and under
    a strict total order the only one. *)
Definition first_in {A} (ltb : A → A → bool) (x : A) (l : list A) : Prop :=
  x ∈ l ∧ ∀ y, y ∈ l → ltb y x = false.

Lemma sort_slice_first {A} (ltb : A → A → bool) `{!StrictOrderB ltb} x l :
  first_in ltb x l → head (sort_slice ltb l) = Some x.
Proof.
  intros [Hin Hmin]. pose proof (sort_slice_ordered ltb l) as Ho.
  rewrite <-(sort_slice_elem ltb x l) in Hin.
  assert (∀ y, y ∈ sort_slice ltb l → ltb y x = false) as Hm by (intros y; rewrite sort_slice_elem; auto).
  destruct (sort_slice ltb l) as [|y k]; [by apply not_elem_of_nil in Hin|]. simpl. f_equal.
  inversion Ho as [|?? _ Hy]; subst. apply elem_of_cons in Hin as [->|Hin]; [done|].
  apply (ltb_total y x); [apply Hm, list_elem_of_here|]. rewrite Forall_forall in Hy. by apply Hy.
Qed.

(** ** Binary search *)

(** [sort.Search(n, f)]: the loop of the Go standard library.  [n + 1] rounds
    are enough because the interval shrinks every round. *)
Fixpoint search_loop (fuel i j : nat) (f : nat → bool) : nat :=
  match fuel with
  | O => i
  | S fuel =>
      if (i <? j)%nat then
        let h := ((i + j) / 2)%nat in
        if negb (f h) then search_loop fuel (h + 1) j f
        else search_loop fuel i h f
      else i
  end.

Definition sort_Search (n : nat) (f : nat → bool) : nat := search_loop (S n) 0 n f.

Definition monotone_to (n : nat) (f : nat → bool) : Prop :=
  ∀ i j, (i ≤ j < n)%nat → f i = true → f j = true.

Lemma search_loop_spec fuel n i j f :
  (j - i < fuel)%nat → (i ≤ j ≤ n)%nat → monotone_to n f →
  (∀ k, (k < i)%nat → f k = false) → (∀ k, (j ≤ k < n)%nat → f k = true) →
  let r := search_loop fuel i j f in
  (i ≤ r ≤ j)%nat ∧ (∀ k, (k < r)%nat → f k = false) ∧ (∀ k, (r ≤ k < n)%nat → f k = true).
Proof.
  revert i j. induction fuel as [|fuel IH]; intros i j Hf Hij Hm Hlo Hhi; [lia|].
  cbn [search_loop]. cbv zeta. destruct (i <? j)%nat eqn:E.
  2: { apply Nat.ltb_ge in E. repeat split; auto; try lia. intros; apply Hhi; lia. }
  apply Nat.ltb_lt in E.
  assert (i ≤ (i + j) / 2 < j)%nat as Hh.
  { pose proof (Nat.div_mod_eq (i + j) 2). pose proof (Nat.mod_upper_bound (i + j) 2). lia. }
  set (h := ((i + j) / 2)%nat) in *. clearbody h.
  destruct (f h) eqn:Efh; cbn [negb].
  - assert (∀ k, (h ≤ k < n)%nat → f k = true) as Hhi'.
    { intros k Hk. apply (Hm h k); [lia|done]. }
    pose proof (IH i h ltac:(lia) ltac:(lia) Hm Hlo Hhi') as (Hr&?&?).
    split; [lia|done].
  - assert (∀ k, (k < h + 1)%nat → f k = false) as Hlo'.
    { intros k Hk. destruct (f k) eqn:Efk; [|done].
      rewrite (Hm k h) in Efh; [done|lia|done]. }
    pose proof (IH (h + 1)%nat j ltac:(lia) ltac:(lia) Hm Hlo' Hhi) as (Hr&?&?).
    split; [lia|done].
Qed.

Lemma sort_Search_spec n f :
  monotone_to n f →
  let r := sort_Search n f in
  (r ≤ n)%nat ∧ (∀ k, (k < r)%nat → f k = false) ∧ (∀ k, (r ≤ k < n)%nat → f k = true).
Proof.
  intros Hm.
  pose proof (search_loop_spec (S n) n 0 n f ltac:(lia) ltac:(lia) Hm
    ltac:(lia) ltac:(lia)) as (Hr&?&?).
  split; [unfold sort_Search; lia|done].
Qed.
