(* ===== verification/Core.v ===== *)
(** * Domain types

    [internal/core/types.go] and [internal/core/vectors.go]: collection
    configurations with their defaults and validation, vector validation, the
    half-precision storage formats, named vectors, and query shapes.

    A [float32] is its IEEE 754 bit pattern, an integer in [0, 2^32).
    Comparisons go through [f32_ord], the sign-magnitude reading of the bits,
    which orders the non-NaN values as the hardware does ([+0] and [-0]
    coincide).  A Go map is a [gmap]; where the source iterates over one, the
    order decides only which error is reported first. *)
From Stdlib Require Import ZArith Lia Ascii String.
From stdpp Require Import base tactics list gmap strings.
From S2P Require Import Prelude.
Local Open Scope string_scope.
Local Open Scope Z_scope.
Local Open Scope list_scope.

(** ** Floating-point bit patterns *)

Definition f32_valid (bits : Z) : Prop := 0 ≤ bits < 2 ^ 32.

(** [math.IsNaN] and [math.IsInf(_, 0)] of a float32. *)
Definition f32_is_nan (bits : Z) : bool := 0x7f800000 <? Z.land bits 0x7fffffff.
Definition f32_is_inf (bits : Z) : bool := Z.land bits 0x7fffffff =? 0x7f800000.

Definition f32_ord (bits : Z) : Z :=
  if Z.testbit bits 31 then - Z.land bits 0x7fffffff else Z.land bits 0x7fffffff.

Definition f32_leb (a b : Z) : bool := negb (f32_is_nan a) && negb (f32_is_nan b) && (f32_ord a <=? f32_ord b).
Definition f32_ltb (a b : Z) : bool := negb (f32_is_nan a) && negb (f32_is_nan b) && (f32_ord a <? f32_ord b).
Definition f32_eqb (a b : Z) : bool := negb (f32_is_nan a) && negb (f32_is_nan b) && (f32_ord a =? f32_ord b).

Definition f32_zero : Z := 0.
Definition f32_one : Z := 0x3f800000.
Definition f32_two : Z := 0x40000000.
Definition f32_1_2 : Z := 0x3f99999a.

(** ** Metrics and vectors *)

Definition MetricCosine : string := "cosine".
Definition MetricDot : string := "dot".
Definition MetricL2 : string := "l2".

Definition Metric_Valid (m : string) : bool :=
  String.eqb m MetricCosine || String.eqb m MetricDot || String.eqb m MetricL2.

Definition invalid {A} (msg : string) : res A := Err (Wrapf ErrInvalidArgument msg).

Fixpoint check_finite (msg : string) (values : list Z) : res unit :=
  match values with
  | [] => Ok tt
  | value :: rest =>
      if f32_is_nan value || f32_is_inf value then invalid msg else check_finite msg rest
  end.

Definition ValidateVector (vector : list Z) (dimension : Z) : res unit :=
  if negb (len vector =? dimension) then Err (Sentinel ErrDimensionMismatch)
  else check_finite "vector value must be finite" vector.

(** [for key, value := range m { if err := f(key, value); err != nil { return err } }] *)
Fixpoint for_each {A} (f : string → A → res unit) (entries : list (string * A)) : res unit :=
  match entries with
  | [] => Ok tt
  | (k, v) :: rest => let! _ := f k v in for_each f rest
  end.

Definition ValidateSparseVector (vector : gmap string Z) : res unit :=
  if (size vector =? 0)%nat then invalid "sparse_vector must contain at least one term"
  else if 10000 <? Z.of_nat (size vector) then invalid "sparse_vector cannot exceed 10000 terms"
  else for_each (λ term value,
    if String.eqb term "" then invalid "sparse_vector terms must not be empty"
    else if f32_is_nan value || f32_is_inf value then invalid "sparse_vector value must be finite"
    else Ok tt) (map_to_list vector).

(** ** Collection configuration *)

Record IndexConfig : Set := mkIndex {
  Type_ : string;
  M : Z;
  EFConstruction : Z;
  EFSearch : Z;
  Quantization : string;
  Oversampling : Z;
  PQSubspaces : Z;
  MaxDegree : Z;
  Alpha : Z;
}.

Record VectorField : Set := mkField {
  vf_Dimension : Z;
  vf_Metric : string;
  vf_Index : IndexConfig;
  vf_Datatype : string;
  vf_MultiVector : bool;
}.

Record CollectionConfig : Set := mkConfig {
  Name : string;
  Dimension : Z;
  Metric : string;
  ShardCount : Z;
  Index : IndexConfig;
  Vectorizer : string;
  Vectors : gmap string VectorField;
}.

Definition IndexFlat : string := "flat".
Definition IndexHNSW : string := "hnsw".
Definition IndexDiskANN : string := "diskann".
Definition QuantizationNone : string := "".
Definition QuantizationBinary : string := "binary".
Definition QuantizationPQ : string := "pq".

#[global] Instance index_config_eq_dec : EqDecision IndexConfig.
Proof. solve_decision. Defined.
#[global] Instance vector_field_eq_dec : EqDecision VectorField.
Proof. solve_decision. Defined.
#[global] Instance collection_config_eq_dec : EqDecision CollectionConfig.
Proof. solve_decision. Defined.

(** [if x == 0 { x = d }] *)
Definition default_to (d x : Z) : Z := if x =? 0 then d else x.

(** [for _, width := range []int{8, 4, 2, 1}] *)
Fixpoint pick_subspaces (dimension : Z) (widths : list Z) : Z :=
  match widths with
  | [] => 0
  | width :: rest => if Z.rem dimension width =? 0 then Z.quot dimension width else pick_subspaces dimension rest
  end.

(** The assignments of [CollectionConfig.Normalized], which changes only the
    index: one function per [if] of the source, in its order. *)
Definition default_type (i : IndexConfig) : IndexConfig :=
  if String.eqb (Type_ i) ""
  then mkIndex IndexFlat (M i) (EFConstruction i) (EFSearch i) (Quantization i)
         (Oversampling i) (PQSubspaces i) (MaxDegree i) (Alpha i)
  else i.

Definition default_hnsw (i : IndexConfig) : IndexConfig :=
  if String.eqb (Type_ i) IndexHNSW
  then mkIndex (Type_ i) (default_to 16 (M i)) (default_to 100 (EFConstruction i))
         (default_to 64 (EFSearch i)) (Quantization i) (Oversampling i) (PQSubspaces i)
         (MaxDegree i) (Alpha i)
  else i.

Definition default_diskann (i : IndexConfig) : IndexConfig :=
  if String.eqb (Type_ i) IndexDiskANN
  then mkIndex (Type_ i) (M i) (default_to 128 (EFConstruction i))
         (default_to 100 (EFSearch i)) (Quantization i) (Oversampling i) (PQSubspaces i)
         (default_to 64 (MaxDegree i)) (if f32_eqb (Alpha i) f32_zero then f32_1_2 else Alpha i)
  else i.

Definition default_binary (i : IndexConfig) : IndexConfig :=
  if String.eqb (Quantization i) QuantizationBinary
  then mkIndex (Type_ i) (M i) (EFConstruction i) (EFSearch i) (Quantization i)
         (default_to 4 (Oversampling i)) (PQSubspaces i) (MaxDegree i) (Alpha i)
  else i.

Definition default_pq (dimension : Z) (i : IndexConfig) : IndexConfig :=
  if String.eqb (Quantization i) QuantizationPQ
  then mkIndex (Type_ i) (M i) (EFConstruction i) (EFSearch i) (Quantization i)
         (default_to 8 (Oversampling i))
         (if (PQSubspaces i =? 0) && (0 <? dimension) then pick_subspaces dimension [8; 4; 2; 1]
          else PQSubspaces i)
         (MaxDegree i) (Alpha i)
  else i.

Definition normalize_index (dimension : Z) (i : IndexConfig) : IndexConfig :=
  default_pq dimension (default_binary (default_diskann (default_hnsw (default_type i)))).

Definition Normalized (c : CollectionConfig) : CollectionConfig :=
  mkConfig (Name c) (Dimension c) (Metric c) (ShardCount c) (normalize_index (Dimension c) (Index c))
    (Vectorizer c) (Vectors c).

(** The character classes of the two name patterns. *)
Definition in_range (c lo hi : ascii) : bool :=
  (N_of_ascii lo <=? N_of_ascii c)%N && (N_of_ascii c <=? N_of_ascii hi)%N.
Definition lower_alnum (c : ascii) : bool := in_range c "a" "z" || in_range c "0" "9".
Definition alpha (c : ascii) : bool := in_range c "a" "z" || in_range c "A" "Z".
Definition separator (c : ascii) : bool := Ascii.eqb c "_" || Ascii.eqb c "-".

(** [^first rest{0,63}$] *)
Fixpoint all_chars (f : ascii → bool) (s : string) : bool :=
  match s with
  | EmptyString => true
  | String c s => f c && all_chars f s
  end.

Definition matches_name (first rest : ascii → bool) (s : string) : bool :=
  match s with
  | EmptyString => false
  | String c s => first c && all_chars rest s && (String.length s <=? 63)%nat
  end.

Definition vectorizerName (s : string) : bool :=
  matches_name lower_alnum (λ c, lower_alnum c || separator c) s.
Definition vectorFieldName (s : string) : bool :=
  matches_name alpha (λ c, alpha c || in_range c "0" "9" || separator c) s.

(** The [switch] over the index type. *)
Definition validate_index (i : IndexConfig) : res unit :=
  if String.eqb (Type_ i) IndexFlat then Ok tt
  else if String.eqb (Type_ i) IndexHNSW then
    if (M i <? 2) || (128 <? M i) then invalid "hnsw m must be between 2 and 128"
    else if (EFConstruction i <? M i) || (10000 <? EFConstruction i)
    then invalid "hnsw ef_construction must be between m and 10000"
    else if (EFSearch i <? 1) || (10000 <? EFSearch i)
    then invalid "hnsw ef_search must be between 1 and 10000"
    else Ok tt
  else if String.eqb (Type_ i) IndexDiskANN then
    if negb (M i =? 0) then invalid "diskann uses max_degree, not m"
    else if (MaxDegree i <? 4) || (256 <? MaxDegree i)
    then invalid "diskann max_degree must be between 4 and 256"
    else if negb (f32_leb f32_one (Alpha i) && f32_leb (Alpha i) f32_two)
    then invalid "diskann alpha must be between 1 and 2"
    else if (EFConstruction i <? MaxDegree i) || (10000 <? EFConstruction i)
    then invalid "diskann ef_construction must be between max_degree and 10000"
    else if (EFSearch i <? 1) || (10000 <? EFSearch i)
    then invalid "diskann ef_search must be between 1 and 10000"
    else Ok tt
  else invalid "unsupported index type".

(** The [switch] over the quantization. *)
Definition validate_quantization (dimension : Z) (i : IndexConfig) : res unit :=
  if String.eqb (Quantization i) QuantizationNone then
    if negb (Oversampling i =? 0) then invalid "oversampling requires quantization" else Ok tt
  else if String.eqb (Quantization i) QuantizationBinary then
    if negb (String.eqb (Type_ i) IndexFlat) then invalid "binary quantization requires the flat index"
    else if (Oversampling i <? 1) || (100 <? Oversampling i)
    then invalid "oversampling must be between 1 and 100"
    else Ok tt
  else if String.eqb (Quantization i) QuantizationPQ then
    if negb (String.eqb (Type_ i) IndexFlat) then invalid "pq quantization requires the flat index"
    else if (Oversampling i <? 1) || (100 <? Oversampling i)
    then invalid "oversampling must be between 1 and 100"
    else if (PQSubspaces i <? 1) || (dimension <? PQSubspaces i)
            || negb (Z.rem dimension (PQSubspaces i) =? 0)
    then invalid "pq_subspaces must be positive and divide the dimension"
    else Ok tt
  else invalid "unsupported quantization".

(** [Validate] up to its last line, the call of [validateVectorFields]. *)
Definition validate_shape (c0 : CollectionConfig) : res unit :=
  let c := Normalized c0 in
  let i := Index c in
  if String.eqb (Name c) "" then invalid "collection name is required"
  else if Dimension c <=? 0 then invalid "dimension must be positive"
  else if negb (Metric_Valid (Metric c)) then invalid "unsupported metric"
  else if ShardCount c <=? 0 then invalid "shard_count must be positive"
  else if negb (String.eqb (Vectorizer c) "") && negb (vectorizerName (Vectorizer c))
  then invalid "vectorizer must match"
  else
    let! _ := validate_index i in
    if negb (PQSubspaces i =? 0) && negb (String.eqb (Quantization i) QuantizationPQ)
    then invalid "pq_subspaces requires pq quantization"
    else if negb (String.eqb (Type_ i) IndexDiskANN)
            && (negb (MaxDegree i =? 0) || negb (f32_eqb (Alpha i) f32_zero))
    then invalid "max_degree and alpha require the diskann index"
    else validate_quantization (Dimension c) i.

(** ** Named vector fields *)

Definition DatatypeFloat32 : string := "float32".
Definition DatatypeFloat16 : string := "float16".
Definition DatatypeBFloat16 : string := "bfloat16".
Definition MaxNamedVectorFields : nat := 16.
Definition MaxMultiVectorLength : Z := 1024.
Definition maxVectorFieldsDimension : Z := 65536.

(** [VectorField.Normalized]: the index defaults of a configuration whose
    dimension is the zero value. *)
Definition VectorField_Normalized (f : VectorField) : VectorField :=
  mkField (vf_Dimension f) (vf_Metric f) (normalize_index 0 (vf_Index f))
    (if String.eqb (vf_Datatype f) "" then DatatypeFloat32 else vf_Datatype f) (vf_MultiVector f).

(** The probe declares no named fields, so its [Validate] is [validate_shape]. *)
Definition VectorField_validate (name : string) (f0 : VectorField) : res unit :=
  let f := VectorField_Normalized f0 in
  if negb (vectorFieldName name) then invalid "vector field name must match"
  else if (vf_Dimension f <=? 0) || (maxVectorFieldsDimension <? vf_Dimension f)
  then invalid "vector field dimension must be between 1 and 65536"
  else if negb (Metric_Valid (vf_Metric f)) then invalid "vector field has unsupported metric"
  else if negb (String.eqb (vf_Datatype f) DatatypeFloat32 || String.eqb (vf_Datatype f) DatatypeFloat16
                || String.eqb (vf_Datatype f) DatatypeBFloat16)
  then invalid "vector field has unsupported datatype"
  else if negb (String.eqb (Quantization (vf_Index f)) QuantizationNone)
  then invalid "quantization is only supported on the default vector"
  else validate_shape (mkConfig "field" (vf_Dimension f) (vf_Metric f) 1 (vf_Index f) "" ∅).

Definition validateVectorFields (c : CollectionConfig) : res unit :=
  if (MaxNamedVectorFields <? size (Vectors c))%nat
  then invalid "at most 16 named vector fields are supported"
  else for_each VectorField_validate (map_to_list (Vectors c)).

Definition Validate (c : CollectionConfig) : res unit :=
  let! _ := validate_shape c in validateVectorFields (Normalized c).

Definition lookup_VectorField (c : CollectionConfig) (name : string) : option VectorField :=
  VectorField_Normalized <$> (Vectors c !! name).

Definition VectorFieldNames (c : CollectionConfig) : list string :=
  sort_slice str_ltb (fst <$> map_to_list (Vectors c)).

(** ** Half-precision formats *)

Definition Float32ToBFloat16 (bits : Z) : Z :=
  if 0x7f800000 <? Z.land bits 0x7fffffff
  then Z.lor (u16 (Z.shiftr bits 16)) 0x40
  else u16 (Z.shiftr (u32 (bits + (0x7fff + Z.land (Z.shiftr bits 16) 1))) 16).

Definition BFloat16ToFloat32 (value : Z) : Z := u32 (Z.shiftl value 16).

Definition Float32ToFloat16 (bits : Z) : Z :=
  let sign := Z.land (u16 (Z.shiftr bits 16)) 0x8000 in
  let exponent := Z.land (Z.shiftr bits 23) 0xff - 127 + 15 in
  let mantissa := Z.land bits 0x7fffff in
  if 0x7f800000 <? Z.land bits 0x7fffffff then Z.lor sign 0x7e00
  else if 0x1f <=? exponent then Z.lor sign 0x7c00
  else if exponent <=? 0 then
    if exponent <? -10 then sign
    else
      let mantissa := Z.lor mantissa 0x800000 in
      let shift := 14 - exponent in
      let half := Z.shiftr mantissa shift in
      let remainder := Z.land mantissa (Z.shiftl 1 shift - 1) in
      let midpoint := Z.shiftl 1 (shift - 1) in
      let half := if (midpoint <? remainder) || (remainder =? midpoint) && (Z.land half 1 =? 1)
                  then half + 1 else half in
      Z.lor sign (u16 half)
  else
    let half := Z.lor (Z.shiftl exponent 10) (Z.shiftr mantissa 13) in
    let remainder := Z.land mantissa 0x1fff in
    let half := if (0x1000 <? remainder) || (remainder =? 0x1000) && (Z.land half 1 =? 1)
                then half + 1 else half in
    Z.lor sign (u16 half).

(** [float32(mantissa) / (1 << 24)] for a positive 10-bit mantissa: the
    quotient by a power of two is exact and normal. *)
Definition f32_scaled (mantissa : Z) : Z :=
  let e := Z.log2 mantissa in
  Z.lor (Z.shiftl (e - 24 + 127) 23) (Z.land (Z.shiftl mantissa (23 - e)) 0x7fffff).

(** [-x] flips the sign bit. *)
Definition f32_neg (bits : Z) : Z := Z.lxor bits 0x80000000.

Definition Float16ToFloat32 (value : Z) : Z :=
  let sign := Z.shiftl (Z.land value 0x8000) 16 in
  let exponent := Z.land (Z.shiftr value 10) 0x1f in
  let mantissa := Z.land value 0x3ff in
  if exponent =? 0x1f then Z.lor (Z.lor sign 0x7f800000) (Z.shiftl mantissa 13)
  else if exponent =? 0 then
    if mantissa =? 0 then sign
    else
      let result := f32_scaled mantissa in
      if negb (sign =? 0) then f32_neg result else result
  else Z.lor (Z.lor sign (Z.shiftl (exponent + 127 - 15) 23)) (Z.shiftl mantissa 13).

Definition round_value (datatype : string) (value : Z) : Z :=
  if String.eqb datatype DatatypeFloat16 then Float16ToFloat32 (Float32ToFloat16 value)
  else if String.eqb datatype DatatypeBFloat16 then BFloat16ToFloat32 (Float32ToBFloat16 value)
  else value.

Definition RoundToDatatype (datatype : string) (vector : list Z) : list Z :=
  round_value datatype <$> vector.

(** ** Records *)

Local Set Warnings "-register-all".

(** A metadata value: a decoded JSON value, whose numbers are the bit pattern
    of a [float64], or one of the integers and [float32] values a caller in
    the same process may pass. *)
Inductive any : Set :=
  | Null
  | Bool (b : bool)
  | Number (bits : Z)
  | Float32 (bits : Z)
  | Int_ (n : Z)
  | Text_ (s : string)
  | Array (items : list any)
  | Object (fields : list (string * any)).

Record CoreRecord : Set := mkCoreRecord {
  ID : string;
  Vector : list Z;
  SparseVector : gmap string Z;
  Metadata : gmap string any;
  Payload : gmap string any;
  Timestamp : Z;
  Version : Z;
  Namespace : string;
  Text : string;
  rec_Vectors : gmap string (list Z);
  MultiVectors : gmap string (list (list Z));
}.

Definition set_named (r : CoreRecord) (vectors : gmap string (list Z))
    (multi : gmap string (list (list Z))) : CoreRecord :=
  mkCoreRecord (ID r) (Vector r) (SparseVector r) (Metadata r) (Payload r) (Timestamp r) (Version r)
    (Namespace r) (Text r) vectors multi.

Definition MaxTextBytes : Z := Z.shiftl 1 20.

Definition ValidateText (text : string) : res unit :=
  if MaxTextBytes <? Z.of_nat (String.length text) then invalid "text is too long" else Ok tt.

Fixpoint validate_all (dimension : Z) (vs : list (list Z)) : res unit :=
  match vs with
  | [] => Ok tt
  | vector :: rest => let! _ := ValidateVector vector dimension in validate_all dimension rest
  end.

Definition ValidateMultiVector (vs : list (list Z)) (dimension : Z) : res unit :=
  if len vs =? 0 then invalid "multi-vector must contain at least one vector"
  else if MaxMultiVectorLength <? len vs then invalid "multi-vector is too long"
  else validate_all dimension vs.

(** The body of the loop over [record.Vectors]. *)
Definition prepare_vector (c : CollectionConfig) (name : string) (vector : list Z) : res (list Z) :=
  match lookup_VectorField c name with
  | None => invalid "unknown vector field"
  | Some field =>
      if vf_MultiVector field then invalid "vector field is multi-vector; send it in multi_vectors"
      else
        let! _ := ValidateVector vector (vf_Dimension field) in
        let rounded := RoundToDatatype (vf_Datatype field) vector in
        let! _ := ValidateVector rounded (vf_Dimension field) in
        Ok rounded
  end.

(** [for position, vector := range list] *)
Fixpoint round_all (datatype : string) (dimension : Z) (vs : list (list Z)) : res (list (list Z)) :=
  match vs with
  | [] => Ok []
  | vector :: rest =>
      let rounded := RoundToDatatype datatype vector in
      let! _ := ValidateVector rounded dimension in
      let! others := round_all datatype dimension rest in
      Ok (rounded :: others)
  end.

Definition prepare_multi (c : CollectionConfig) (name : string) (vs : list (list Z))
    : res (list (list Z)) :=
  match lookup_VectorField c name with
  | None => invalid "unknown vector field"
  | Some field =>
      if negb (vf_MultiVector field) then invalid "vector field is single-vector; send it in vectors"
      else
        let! _ := ValidateMultiVector vs (vf_Dimension field) in
        round_all (vf_Datatype field) (vf_Dimension field) vs
  end.

(** A loop that fills a fresh map from the entries of another one. *)
Fixpoint fill_map {A} (f : string → A → res A) (entries : list (string * A)) : res (gmap string A) :=
  match entries with
  | [] => Ok ∅
  | (name, x) :: rest =>
      let! y := f name x in
      let! m := fill_map f rest in
      Ok (<[name := y]> m)
  end.

Definition PrepareNamedVectors (c : CollectionConfig) (record : CoreRecord) : res CoreRecord :=
  if (size (rec_Vectors record) =? 0)%nat && (size (MultiVectors record) =? 0)%nat then Ok record
  else
    let! vectors := fill_map (prepare_vector c) (map_to_list (rec_Vectors record)) in
    let! multi := fill_map (prepare_multi c) (map_to_list (MultiVectors record)) in
    Ok (set_named record vectors multi).

(** ** Queries *)

Definition RRFConstant : Z := 60.
Definition MaxRerankCandidates : Z := 1000.
Definition DefaultRerankCandidates : Z := 50.

(** A nil slice or map is [None]. *)
Record HybridQuery : Set := mkHybrid {
  hq_Dense : option (list Z);
  hq_Sparse : option (gmap string Z);
  hq_Text : string;
  hq_Alpha : Z;
  hq_Fusion : string;
  hq_TopK : Z;
}.

Definition HybridQuery_Validate (q : HybridQuery) (dimension : Z) : res unit :=
  let! _ := match hq_Dense q with Some v => ValidateVector v dimension | None => Ok tt end in
  if match hq_Sparse q with None => String.eqb (hq_Text q) "" | Some _ => false end
  then invalid "hybrid search requires sparse_vector or text"
  else
    let! _ := match hq_Sparse q with Some v => ValidateSparseVector v | None => Ok tt end in
    let! _ := ValidateText (hq_Text q) in
    if f32_ltb (hq_Alpha q) f32_zero || f32_ltb f32_one (hq_Alpha q)
    then invalid "alpha must be between 0 and 1"
    else if hq_TopK q <=? 0 then invalid "top_k must be positive"
    else if String.eqb (hq_Fusion q) "" || String.eqb (hq_Fusion q) "weighted" || String.eqb (hq_Fusion q) "rrf"
    then Ok tt
    else invalid "unsupported fusion".

Record NamedQuery : Set := mkNamedQuery {
  nq_Field : string;
  nq_Vector : option (list Z);
  nq_MultiVector : option (list (list Z));
  nq_TopK : Z;
  nq_EFSearch : Z;
  nq_Candidates : Z;
}.

Definition NamedQuery_Validate (q : NamedQuery) (config : CollectionConfig) : res unit :=
  match lookup_VectorField config (nq_Field q) with
  | None => invalid "unknown vector field"
  | Some field =>
      if nq_TopK q <=? 0 then invalid "top_k must be positive"
      else if (nq_EFSearch q <? 0) || (10000 <? nq_EFSearch q)
      then invalid "ef_search must be between 1 and 10000 when set"
      else if (nq_Candidates q <? 0) || (MaxRerankCandidates <? nq_Candidates q)
      then invalid "candidates must be between 1 and 1000 when set"
      else match nq_Vector q, nq_MultiVector q with
           | Some _, Some _ => invalid "send either vector or multi_vector, not both"
           | None, Some vs =>
               if negb (vf_MultiVector field)
               then invalid "multi_vector queries require a multi-vector field"
               else ValidateMultiVector vs (vf_Dimension field)
           | Some v, None => ValidateVector v (vf_Dimension field)
           | None, None => invalid "named vector search requires vector or multi_vector"
           end
  end.

Definition NamedQuery_CandidateCount (q : NamedQuery) : Z :=
  if 0 <? nq_Candidates q then Z.max (nq_Candidates q) (nq_TopK q)
  else Z.min (Z.max (4 * nq_TopK q) 100) (Z.max MaxRerankCandidates (nq_TopK q)).

Record RerankSpec : Set := mkRerank {
  rs_Type : string;
  rs_Candidates : Z;
  rs_Field : string;
  rs_MultiVector : list (list Z);
  rs_Model : string;
  rs_Query : string;
  rs_Document : string;
}.

Definition RerankSpec_CandidateCount (r : RerankSpec) (window : Z) : Z :=
  if 0 <? rs_Candidates r then Z.max (rs_Candidates r) window
  else Z.max DefaultRerankCandidates window.

(** [s[:len(p)] == p] with something left over, and the rest. *)
Fixpoint cut_prefix (p s : string) : option string :=
  match p, s with
  | EmptyString, _ => Some s
  | String a p', String b s' => if Ascii.eqb a b then cut_prefix p' s' else None
  | String _ _, EmptyString => None
  end.

Definition longer_prefix (p s : string) : option string :=
  match cut_prefix p s with Some EmptyString => None | r => r end.

Definition DocumentSource (r : RerankSpec) : res (string * string) :=
  let document := rs_Document r in
  if String.eqb document "" || String.eqb document "text" then Ok ("text", "")
  else match longer_prefix "payload." document with
  | Some key => Ok ("payload", key)
  | None =>
      match longer_prefix "metadata." document with
      | Some key => Ok ("metadata", key)
      | None => invalid "rerank document must be text, payload.<key> or metadata.<key>"
      end
  end.

Definition RerankSpec_Validate (r : RerankSpec) (config : CollectionConfig) (window : Z) : res unit :=
  if (rs_Candidates r <? 0) || (MaxRerankCandidates <? rs_Candidates r) || (MaxRerankCandidates <? window)
  then invalid "rerank candidates and offset + top_k must not exceed 1000"
  else if String.eqb (rs_Type r) "maxsim" then
    match lookup_VectorField config (rs_Field r) with
    | Some field =>
        if negb (vf_MultiVector field) then invalid "maxsim rerank requires a multi-vector field"
        else ValidateMultiVector (rs_MultiVector r) (vf_Dimension field)
    | None => invalid "maxsim rerank requires a multi-vector field"
    end
  else if String.eqb (rs_Type r) "cross_encoder" then
    if String.eqb (rs_Model r) "" || String.eqb (rs_Query r) ""
    then invalid "cross_encoder rerank requires model and query"
    else if MaxTextBytes <? Z.of_nat (String.length (rs_Query r)) then invalid "rerank query is too long"
    else let! _ := DocumentSource r in Ok tt
  else invalid "unsupported rerank type".
