(* ===== verification/CoreProofs.v ===== *)
(** * Properties of the domain types

    Defaults and validation of collection configurations, the
    half-precision conversions, and the preparation of named vectors. *)
From Stdlib Require Import ZArith Lia Ascii String.
From stdpp Require Import base tactics list gmap strings.
From S2P Require Import Prelude Core.
Local Open Scope string_scope.
Local Open Scope Z_scope.
Local Open Scope list_scope.

(** ** Bit patterns *)

Lemma land_low n a : 0 ≤ n → Z.land a (2 ^ n - 1) = a mod 2 ^ n.
Proof. intros Hn. rewrite <-Z.land_ones by done. f_equal. rewrite Z.ones_equiv. lia. Qed.

Lemma land_1 a : Z.land a 1 = a mod 2.
Proof. apply (land_low 1). lia. Qed.
Lemma land_7fffffff a : Z.land a 0x7fffffff = a mod 2 ^ 31.
Proof. apply (land_low 31). lia. Qed.
Lemma shiftr_div n a : 0 ≤ n → Z.shiftr a n = a / 2 ^ n.
Proof. apply Z.shiftr_div_pow2. Qed.

Lemma lor_disjoint a b n :
  0 ≤ n → 0 ≤ b < 2 ^ n → Z.lor (a * 2 ^ n) b = a * 2 ^ n + b.
Proof.
  intros Hn Hb. assert (Z.land (a * 2 ^ n) b = 0) as H0.
  { apply Z.bits_inj'. intros i Hi. rewrite Z.land_spec, Z.bits_0, <-Z.shiftl_mul_pow2 by done.
    rewrite Z.shiftl_spec by done. destruct (decide (i < n)) as [Hlt|Hge].
    - rewrite Z.testbit_neg_r by lia. done.
    - rewrite <-(Z.mod_small b (2 ^ n)) by done. rewrite Z.mod_pow2_bits_high by lia.
      apply andb_false_r. }
  rewrite <-Z.lxor_lor by done. symmetry. by apply Z.add_nocarry_lxor.
Qed.

(** ** bfloat16 *)

Definition f32_nan_bits (bits : Z) : Prop := f32_is_nan bits = true.

Lemma nan_spec bits : f32_is_nan bits = true ↔ 0x7f800000 < bits mod 2 ^ 31.
Proof. unfold f32_is_nan. rewrite land_7fffffff. apply Z.ltb_lt. Qed.

Lemma bfloat16_bits bits :
  f32_valid bits → f32_is_nan bits = false →
  Float32ToBFloat16 bits = (bits + (0x7fff + bits / 65536 mod 2)) / 65536.
Proof.
  intros Hv Hn. unfold Float32ToBFloat16. unfold f32_is_nan in Hn. rewrite Hn.
  rewrite land_1, !shiftr_div by lia. change (2 ^ 16) with 65536.
  rewrite land_7fffffff in Hn. apply Z.ltb_ge in Hn. unfold f32_valid in Hv.
  assert (0 ≤ bits + (32767 + bits / 65536 mod 2) < 2 ^ 32) as H1 by (Z.div_mod_to_equations; lia).
  unfold u16, u32. rewrite (Z.mod_small _ _ H1).
  rewrite Z.mod_small; [done|]. Z.div_mod_to_equations; lia.
Qed.

Lemma bfloat16_widen h : 0 ≤ h < 65536 → BFloat16ToFloat32 h = h * 65536.
Proof.
  intros H. unfold BFloat16ToFloat32, u32. rewrite Z.shiftl_mul_pow2 by lia.
  rewrite Z.mod_small; lia.
Qed.

Lemma bfloat16_round bits :
  f32_valid bits → f32_is_nan bits = false →
  let h := Float32ToBFloat16 bits in
  0 ≤ h < 65536 ∧ BFloat16ToFloat32 h = h * 65536
  ∧ f32_is_nan (BFloat16ToFloat32 h) = false ∧ f32_valid (BFloat16ToFloat32 h).
Proof.
  intros Hv Hn h. unfold h. rewrite bfloat16_bits by done.
  assert (bits mod 2 ^ 31 ≤ 0x7f800000) as Hm.
  { destruct (decide (0x7f800000 < bits mod 2 ^ 31)) as [E|E]; [|lia].
    apply nan_spec in E. congruence. }
  unfold f32_valid in *.
  assert (0 ≤ (bits + (32767 + bits / 65536 mod 2)) / 65536 < 65536) as Hh
    by (Z.div_mod_to_equations; lia).
  rewrite bfloat16_widen by done. split_and!; try lia.
  apply not_true_is_false. intros E%nan_spec. Z.div_mod_to_equations; lia.
Qed.

Lemma bfloat16_again h :
  0 ≤ h < 65536 → f32_is_nan (BFloat16ToFloat32 h) = false →
  Float32ToBFloat16 (BFloat16ToFloat32 h) = h.
Proof.
  intros Hh Hn. rewrite bfloat16_widen in * by done.
  rewrite bfloat16_bits by (done || (unfold f32_valid; lia)).
  Z.div_mod_to_equations; lia.
Qed.

(** ** float16 *)

(** [f] holds of [z], [z + 1], ..., [z + n - 1]. *)
Fixpoint forall_from (n : nat) (z : Z) (f : Z → bool) : bool :=
  match n with
  | O => true
  | S n => if f z then forall_from n (z + 1) f else false
  end.

Lemma forall_from_spec n z f :
  forall_from n z f = true → ∀ k, z ≤ k < z + Z.of_nat n → f k = true.
Proof.
  revert z. induction n as [|n IH]; intros z H k Hk; [lia|]. cbn [forall_from] in H.
  destruct (f z) eqn:E; [|done]. destruct (decide (k = z)) as [->|]; [done|].
  apply (IH (z + 1)); [done|]. lia.
Qed.

Definition f16_roundtrips (h : Z) : bool :=
  let f := Float16ToFloat32 h in
  (Float32ToFloat16 f =? h) && (0 <=? f) && (f <? 2 ^ 32) && negb (f32_is_nan f).

(** The 31745 finite and infinite magnitudes, with either sign. *)
Lemma float16_again half sign :
  0 ≤ half ≤ 0x7c00 → sign = 0 ∨ sign = 0x8000 → f16_roundtrips (Z.lor sign half) = true.
Proof.
  intros Hh Hs.
  assert (forall_from (Z.to_nat 0x7c01) 0 (λ k, f16_roundtrips (Z.lor 0 k) && f16_roundtrips (Z.lor 0x8000 k))
          = true) as Hall by (vm_compute; reflexivity).
  pose proof (forall_from_spec _ _ _ Hall half ltac:(lia)) as H. apply andb_true_iff in H as [H1 H2].
  by destruct Hs as [->| ->].
Qed.

Lemma land_sign a : 0 ≤ a < 65536 → Z.land a 0x8000 = 0 ∨ Z.land a 0x8000 = 0x8000.
Proof.
  intros Ha.
  assert (forall_from (Z.to_nat 65536) 0 (λ k, (Z.land k 0x8000 =? 0) || (Z.land k 0x8000 =? 0x8000)) = true)
    as Hall by (vm_compute; reflexivity).
  pose proof (forall_from_spec _ _ _ Hall a ltac:(lia)) as H. cbv beta in H. bool_props.
  destruct H as [H|H]; bool_props; auto.
Qed.

(** Rounding up adds at most one. *)
Lemma rounded_bound (b : bool) half n : 0 ≤ half < n → 0 ≤ (if b then half + 1 else half) ≤ n.
Proof. destruct b; lia. Qed.

Lemma float16_shape bits :
  f32_valid bits → f32_is_nan bits = false →
  ∃ sign half, (sign = 0 ∨ sign = 0x8000) ∧ 0 ≤ half ≤ 0x7c00 ∧ Float32ToFloat16 bits = Z.lor sign half.
Proof.
  intros Hv Hn. unfold Float32ToFloat16. unfold f32_is_nan in Hn. rewrite Hn. cbv zeta.
  set (sign := Z.land (u16 (Z.shiftr bits 16)) 32768).
  assert (sign = 0 ∨ sign = 0x8000) as Hs by (apply land_sign, Z.mod_pos_bound; lia).
  clearbody sign. set (field := Z.land (Z.shiftr bits 23) 255).
  assert (0 ≤ field < 256) as Hf.
  { unfold field. rewrite (land_low 8 _) by lia. apply Z.mod_pos_bound. lia. }
  clearbody field. set (mantissa := Z.land bits 8388607).
  assert (0 ≤ mantissa < 2 ^ 23) as Hm.
  { unfold mantissa. rewrite (land_low 23 _) by lia. apply Z.mod_pos_bound. lia. }
  clearbody mantissa. destruct (31 <=? field - 127 + 15) eqn:E1; bool_props.
  { exists sign, 0x7c00. split_and!; (done || lia). }
  destruct (field - 127 + 15 <=? 0) eqn:E2; bool_props.
  - destruct (field - 127 + 15 <? -10) eqn:E3; bool_props.
    { exists sign, 0. split_and!; try done; try lia. by rewrite Z.lor_0_r. }
    set (shift := 14 - (field - 127 + 15)). assert (14 ≤ shift ≤ 24) as Hsh by lia. clearbody shift.
    assert (Z.lor mantissa 8388608 = 2 ^ 23 + mantissa) as ->
      by (rewrite Z.lor_comm; apply (lor_disjoint 1 mantissa 23); lia).
    assert (0 ≤ Z.shiftr (2 ^ 23 + mantissa) shift < 1024) as Hhalf.
    { rewrite shiftr_div by lia. assert (2 ^ 14 ≤ 2 ^ shift) by (apply Z.pow_le_mono_r; lia).
      split; [apply Z.div_pos; lia|]. apply Z.div_lt_upper_bound; lia. }
    eexists sign, _. split; [done|]. split; [|reflexivity].
    unfold u16. set (up := _ || _). clearbody up.
    pose proof (rounded_bound up _ _ Hhalf) as Hr. rewrite Z.mod_small; lia.
  - set (exponent := field - 127 + 15) in *. assert (0 < exponent < 31) as He by lia. clearbody exponent.
    assert (0 ≤ mantissa / 2 ^ 13 < 2 ^ 10) as Hm2.
    { split; [apply Z.div_pos; lia|]. apply Z.div_lt_upper_bound; lia. }
    rewrite !shiftr_div, Z.shiftl_mul_pow2, lor_disjoint by lia.
    assert (0 ≤ exponent * 2 ^ 10 + mantissa / 2 ^ 13 < 0x7c00) as Hhalf by lia.
    eexists sign, _. split; [done|]. split; [|reflexivity].
    unfold u16. set (up := _ || _). clearbody up.
    pose proof (rounded_bound up _ _ Hhalf) as Hr. rewrite Z.mod_small; lia.
Qed.

(** Rounding to a storage format is a projection onto valid bit patterns. *)
Lemma round_value_again datatype bits :
  f32_valid bits → f32_is_nan bits = false →
  let r := round_value datatype bits in
  round_value datatype r = r ∧ f32_valid r ∧ f32_is_nan r = false.
Proof.
  intros Hv Hn. unfold round_value. destruct (String.eqb datatype DatatypeFloat16).
  - destruct (float16_shape bits Hv Hn) as (sign & half & Hs & Hh & ->). cbv zeta.
    pose proof (float16_again half sign Hh Hs) as H. unfold f16_roundtrips in H. bool_props.
    split; [congruence|]. split; [|done]. by unfold f32_valid.
  - destruct (String.eqb datatype DatatypeBFloat16); [|done]. cbv zeta.
    destruct (bfloat16_round bits Hv Hn) as (Hh & _ & Hn' & Hv'). split; [|done].
    by rewrite bfloat16_again.
Qed.

(** ** Named vectors *)

Definition finite (bits : Z) : Prop := f32_is_nan bits = false ∧ f32_is_inf bits = false.

Lemma check_finite_ok msg values : check_finite msg values = Ok tt ↔ Forall finite values.
Proof.
  induction values as [|v values IH]; simpl; [by split|].
  destruct (f32_is_nan v || f32_is_inf v) eqn:E; rewrite Forall_cons; unfold finite at 1.
  - split; [done|]. intros [[H1 H2] _]. by rewrite H1, H2 in E.
  - bool_props. rewrite IH. tauto.
Qed.

Lemma ValidateVector_ok v d : ValidateVector v d = Ok tt ↔ len v = d ∧ Forall finite v.
Proof.
  unfold ValidateVector. destruct (len v =? d) eqn:E; bool_props; simpl.
  - rewrite check_finite_ok. tauto.
  - split; [done|tauto].
Qed.

Lemma res_unit (r : res unit) : r = Ok tt ∨ ∃ e, r = Err e.
Proof. destruct r as [[]|e]; eauto. Qed.

Lemma round_again datatype v :
  Forall f32_valid v → Forall finite v →
  RoundToDatatype datatype (RoundToDatatype datatype v) = RoundToDatatype datatype v
  ∧ Forall f32_valid (RoundToDatatype datatype v).
Proof.
  intros Hv Hf. unfold RoundToDatatype. induction v as [|x v IH]; [done|].
  rewrite Forall_cons in Hv, Hf. destruct Hv as [Hx Hv], Hf as [[Hn _] Hf].
  destruct (round_value_again datatype x Hx Hn) as (E1 & E2 & _).
  destruct (IH Hv Hf) as [IH1 IH2]. rewrite !fmap_cons. split; [by rewrite E1, IH1|].
  by constructor.
Qed.

(** What preparation guarantees of one stored vector. *)
Lemma prepare_vector_again c name x y :
  Forall f32_valid x → prepare_vector c name x = Ok y →
  prepare_vector c name y = Ok y ∧ Forall f32_valid y.
Proof.
  intros Hx. unfold prepare_vector. destruct (lookup_VectorField c name) as [field|]; [|done].
  destruct (vf_MultiVector field); [done|].
  destruct (res_unit (ValidateVector x (vf_Dimension field))) as [E|[e E]]; rewrite E; [|done].
  cbn [res_bind]. set (dt := vf_Datatype field).
  destruct (res_unit (ValidateVector (RoundToDatatype dt x) (vf_Dimension field))) as [E2|[e E2]];
    rewrite E2; [|done]. cbn [res_bind]. intros [= <-].
  apply ValidateVector_ok in E as [_ Hf]. destruct (round_again dt x Hx Hf) as [E3 E4].
  by rewrite E3, E2.
Qed.

Lemma validate_all_ok d vs : validate_all d vs = Ok tt ↔ Forall (λ v, ValidateVector v d = Ok tt) vs.
Proof.
  induction vs as [|v vs IH]; simpl; [by split|]. rewrite Forall_cons, <-IH.
  destruct (res_unit (ValidateVector v d)) as [E|[e E]]; rewrite E; simpl; [tauto|].
  split; [done|]. intros [? _]. done.
Qed.

Lemma round_all_ok dt d vs ws :
  round_all dt d vs = Ok ws → ws = RoundToDatatype dt <$> vs ∧ validate_all d ws = Ok tt.
Proof.
  revert ws. induction vs as [|v vs IH]; intros ws; simpl; [by intros [= <-]|].
  destruct (res_unit (ValidateVector (RoundToDatatype dt v) d)) as [E|[e E]]; rewrite E; simpl; [|done].
  destruct (round_all dt d vs) as [os|]; simpl; [|done]. intros [= <-].
  destruct (IH os eq_refl) as [-> Hv]. split; [done|]. simpl. by rewrite E.
Qed.

Lemma round_all_again dt d vs :
  Forall (λ v, ValidateVector v d = Ok tt ∧ RoundToDatatype dt v = v) vs → round_all dt d vs = Ok vs.
Proof. induction 1 as [|v vs [E1 E2] _ IH]; simpl; [done|]. by rewrite E2, E1, IH. Qed.

Lemma prepare_multi_again c name x y :
  Forall (Forall f32_valid) x → prepare_multi c name x = Ok y →
  prepare_multi c name y = Ok y ∧ Forall (Forall f32_valid) y.
Proof.
  intros Hx. unfold prepare_multi. destruct (lookup_VectorField c name) as [field|]; [|done].
  destruct (negb _); [done|]. unfold ValidateMultiVector.
  destruct (len x =? 0) eqn:E0; [done|]. destruct (MaxMultiVectorLength <? len x) eqn:E1; [done|].
  destruct (res_unit (validate_all (vf_Dimension field) x)) as [E|[e E]]; rewrite E; [|done].
  cbn [res_bind]. set (dt := vf_Datatype field). intros [-> Hv]%round_all_ok.
  assert (len (RoundToDatatype dt <$> x) = len x) as Hl by (unfold len; by rewrite length_fmap).
  rewrite Hl, E0, E1, Hv. cbn [res_bind].
  apply validate_all_ok in E, Hv.
  assert (Forall (λ v, RoundToDatatype dt v = v ∧ Forall f32_valid v) (RoundToDatatype dt <$> x)) as Hr.
  { apply Forall_fmap. rewrite Forall_forall in *. intros v Hin. simpl.
    apply round_again; [by apply Hx|]. by apply (ValidateVector_ok v (vf_Dimension field)), E. }
  split.
  - apply round_all_again. rewrite Forall_forall in *. intros v Hin. split; [by apply Hv|by apply Hr].
  - eapply Forall_impl; [exact Hr|]. simpl. tauto.
Qed.

Lemma fill_map_lookup {A} (f : string → A → res A) l m :
  fill_map f l = Ok m → ∀ k y, m !! k = Some y → ∃ x, (k, x) ∈ l ∧ f k x = Ok y.
Proof.
  revert m. induction l as [|[n x] l IH]; intros m; simpl.
  { intros [= <-] k y. by rewrite lookup_empty. }
  destruct (f n x) as [z|] eqn:Ef; simpl; [|done].
  destruct (fill_map f l) as [m'|] eqn:El; simpl; [|done]. intros [= <-] k y.
  rewrite lookup_insert_Some. intros [[<- <-]|[_ Hk]].
  - exists x. split; [apply list_elem_of_here|done].
  - destruct (IH m' eq_refl k y Hk) as (x' & Hin & Hf). exists x'. split; [by apply list_elem_of_further|done].
Qed.

Lemma fill_map_fixed {A} (f : string → A → res A) l :
  (∀ k x, (k, x) ∈ l → f k x = Ok x) → fill_map f l = Ok (list_to_map l).
Proof.
  induction l as [|[n x] l IH]; intros H; simpl; [done|].
  rewrite H by apply list_elem_of_here. cbn [res_bind].
  rewrite IH; [done|]. intros k y Hin. apply H. by apply list_elem_of_further.
Qed.

(** A map filled by [f] is left alone by a second pass when [f] fixes its
    own results. *)
Lemma fill_map_again {A} (P : A → Prop) (f : string → A → res A) m0 m :
  (∀ k x y, P x → f k x = Ok y → f k y = Ok y ∧ P y) →
  (∀ k x, m0 !! k = Some x → P x) →
  fill_map f (map_to_list m0) = Ok m → fill_map f (map_to_list m) = Ok m.
Proof.
  intros Hf HP Hm. rewrite fill_map_fixed; [by rewrite list_to_map_to_list|].
  intros k y Hin%elem_of_map_to_list. destruct (fill_map_lookup f _ m Hm k y Hin) as (x & Hx & E).
  apply elem_of_map_to_list in Hx. eapply Hf; [|exact E]. eauto.
Qed.

(** Every stored bit pattern of a record is one of a float32. *)
Definition named_valid (r : CoreRecord) : Prop :=
  (∀ k v, rec_Vectors r !! k = Some v → Forall f32_valid v)
  ∧ (∀ k vs, MultiVectors r !! k = Some vs → Forall (Forall f32_valid) vs).

(** ** Defaults *)

Lemma default_to_again d x : d ≠ 0 → default_to d (default_to d x) = default_to d x.
Proof.
  intros Hd. unfold default_to. destruct (x =? 0) eqn:E; [|by rewrite E].
  by rewrite (proj2 (Z.eqb_neq _ _)).
Qed.

Lemma default_alpha_again a :
  let b := if f32_eqb a f32_zero then f32_1_2 else a in
  (if f32_eqb b f32_zero then f32_1_2 else b) = b.
Proof. cbv zeta. destruct (f32_eqb a f32_zero) eqn:E; [done|]. by rewrite E. Qed.

(** Some width always fits: the last one is 1. *)
Lemma pick_subspaces_spec dimension :
  0 < dimension →
  let s := pick_subspaces dimension [8; 4; 2; 1] in
  1 ≤ s ≤ dimension ∧ Z.rem dimension s = 0.
Proof.
  intros Hd. cbn [pick_subspaces].
  assert (∀ w, 0 < w → (Z.rem dimension w =? 0) = true →
    1 ≤ Z.quot dimension w ≤ dimension ∧ Z.rem dimension (Z.quot dimension w) = 0) as Hw.
  { intros w Hw Hr%Z.eqb_eq. pose proof (Z.quot_rem dimension w ltac:(lia)) as E. rewrite Hr, Z.add_0_r in E.
    generalize dependent (Z.quot dimension w). intros q E. assert (0 < q) by nia.
    split; [nia|]. rewrite E. apply Z.rem_mul. lia. }
  destruct (Z.rem dimension 8 =? 0) eqn:E8; [apply Hw; [lia|exact E8]|].
  destruct (Z.rem dimension 4 =? 0) eqn:E4; [apply Hw; [lia|exact E4]|].
  destruct (Z.rem dimension 2 =? 0) eqn:E2; [apply Hw; [lia|exact E2]|].
  destruct (Z.rem dimension 1 =? 0) eqn:E1; [apply Hw; [lia|exact E1]|].
  rewrite Z.rem_1_r in E1. discriminate E1.
Qed.

(** The normalized index, field by field. *)
Lemma normalize_fields dimension t m ec es q ov pq md al :
  let t' := if String.eqb t "" then IndexFlat else t in
  normalize_index dimension (mkIndex t m ec es q ov pq md al)
  = mkIndex t'
      (if String.eqb t' IndexHNSW then default_to 16 m else m)
      (if String.eqb t' IndexHNSW then default_to 100 ec
       else if String.eqb t' IndexDiskANN then default_to 128 ec else ec)
      (if String.eqb t' IndexHNSW then default_to 64 es
       else if String.eqb t' IndexDiskANN then default_to 100 es else es)
      q
      (if String.eqb q QuantizationBinary then default_to 4 ov
       else if String.eqb q QuantizationPQ then default_to 8 ov else ov)
      (if String.eqb q QuantizationPQ
       then if (pq =? 0) && (0 <? dimension) then pick_subspaces dimension [8; 4; 2; 1] else pq
       else pq)
      (if String.eqb t' IndexDiskANN then default_to 64 md else md)
      (if String.eqb t' IndexDiskANN then if f32_eqb al f32_zero then f32_1_2 else al else al).
Proof.
  cbv zeta. unfold normalize_index.
  assert (default_type (mkIndex t m ec es q ov pq md al)
    = mkIndex (if String.eqb t "" then IndexFlat else t) m ec es q ov pq md al) as ->
    by (unfold default_type; cbn [Type_]; by destruct (String.eqb t "")).
  generalize (if String.eqb t "" then IndexFlat else t). intros t'.
  unfold default_hnsw; cbn [Type_]. destruct (String.eqb t' IndexHNSW) eqn:Eh.
  - apply String.eqb_eq in Eh as ->. unfold default_diskann, default_binary. cbn.
    destruct (String.eqb q QuantizationBinary) eqn:Eb; unfold default_pq; cbn.
    + apply String.eqb_eq in Eb as ->. reflexivity.
    + destruct (String.eqb q QuantizationPQ); reflexivity.
  - unfold default_diskann; cbn [Type_]. destruct (String.eqb t' IndexDiskANN);
    unfold default_binary; cbn [Quantization];
    (destruct (String.eqb q QuantizationBinary) eqn:Eb; unfold default_pq; cbn;
      [apply String.eqb_eq in Eb as ->; reflexivity|destruct (String.eqb q QuantizationPQ); reflexivity]).
Qed.

Lemma normalize_again dimension i :
  normalize_index dimension (normalize_index dimension i) = normalize_index dimension i.
Proof.
  destruct i as [t m ec es q ov pq md al]. rewrite !normalize_fields. cbv zeta.
  set (t' := if String.eqb t "" then IndexFlat else t).
  assert ((if String.eqb t' "" then IndexFlat else t') = t') as ->.
  { unfold t'. destruct (String.eqb t "") eqn:E; [done|]. by rewrite E. }
  clearbody t'. f_equal.
  - by destruct (String.eqb t' IndexHNSW); rewrite ?default_to_again.
  - by destruct (String.eqb t' IndexHNSW), (String.eqb t' IndexDiskANN); rewrite ?default_to_again.
  - by destruct (String.eqb t' IndexHNSW), (String.eqb t' IndexDiskANN); rewrite ?default_to_again.
  - by destruct (String.eqb q QuantizationBinary), (String.eqb q QuantizationPQ); rewrite ?default_to_again.
  - destruct (String.eqb q QuantizationPQ); [|done].
    destruct ((pq =? 0) && (0 <? dimension)) eqn:E; [|by rewrite E]. bool_props.
    match goal with H : 0 < dimension |- _ => destruct (pick_subspaces_spec dimension H) as [Hp _] end.
    by rewrite (proj2 (Z.eqb_neq (pick_subspaces _ _) 0)) by lia.
  - by destruct (String.eqb t' IndexDiskANN); rewrite ?default_to_again.
  - destruct (String.eqb t' IndexDiskANN); [apply default_alpha_again|done].
Qed.

(** Defaults are applied once: normalizing a configuration again changes
    nothing, and validation gives the same answer before and after. *)
Theorem normalized_idempotent c :
  Normalized (Normalized c) = Normalized c ∧ Validate (Normalized c) = Validate c.
Proof.
  assert (Normalized (Normalized c) = Normalized c) as E.
  { unfold Normalized. cbn [Name Dimension Metric ShardCount Index Vectorizer Vectors]. f_equal.
    apply normalize_again. }
  split; [done|]. unfold Validate, validate_shape. by rewrite E.
Qed.

(** Preparing a record is idempotent: what [PrepareNamedVectors] accepts and
    rounds to the declared storage formats, it accepts again unchanged, so the
    log, checkpoints and replicas that prepare a stored record again hold
    exactly the stored values. *)
Theorem prepare_idempotent c r r' :
  named_valid r → PrepareNamedVectors c r = Ok r' → PrepareNamedVectors c r' = Ok r'.
Proof.
  intros [Hv Hm] H. unfold PrepareNamedVectors in H.
  destruct (_ && _) eqn:E0 in H.
  { injection H as <-. unfold PrepareNamedVectors. by rewrite E0. }
  destruct (fill_map (prepare_vector c) _) as [vectors|] eqn:E1; [|done].
  destruct (fill_map (prepare_multi c) _) as [multi|] eqn:E2; [|done].
  cbn [res_bind] in H. injection H as <-.
  unfold PrepareNamedVectors. cbn [rec_Vectors MultiVectors set_named].
  rewrite (fill_map_again (Forall f32_valid) _ _ _ (prepare_vector_again c) Hv E1). cbn [res_bind].
  rewrite (fill_map_again (Forall (Forall f32_valid)) _ _ _ (prepare_multi_again c) Hm E2).
  destruct ((size vectors =? 0)%nat && (size multi =? 0)%nat); reflexivity.
Qed.

(** bfloat16 conversion rounds to nearest: for every float32 that is not a
    NaN, no other bfloat16 is closer in the ordering of bit patterns, and a
    tie goes to the even one. *)
Theorem bfloat16_nearest bits h :
  f32_valid bits → f32_is_nan bits = false → 0 ≤ h < 65536 →
  let r := Float32ToBFloat16 bits in
  Z.abs (BFloat16ToFloat32 r - bits) ≤ Z.abs (BFloat16ToFloat32 h - bits)
  ∧ (Z.abs (BFloat16ToFloat32 r - bits) = Z.abs (BFloat16ToFloat32 h - bits) → h = r ∨ Z.even r = true).
Proof.
  intros Hv Hn Hh r. destruct (bfloat16_round bits Hv Hn) as (Hr & E & _). fold r in Hr, E.
  rewrite E, bfloat16_widen by done. unfold r in *. rewrite bfloat16_bits in * by done.
  rewrite Zeven_mod. unfold f32_valid in Hv.
  assert ((bits + (32767 + bits / 65536 mod 2)) / 65536 = h ∨ (bits + (32767 + bits / 65536 mod 2)) / 65536 ≠ h)
    as [Eh|Eh] by lia; [rewrite <-Eh; split; [lia|by left]|].
  split; [Z.div_mod_to_equations; lia|]. intros Htie. right. apply Z.eqb_eq.
  Z.div_mod_to_equations; lia.
Qed.

Lemma bind_unit (r : res unit) : r = Ok tt → (let! _ := r in Ok tt) = Ok tt.
Proof. by intros ->. Qed.

Lemma no_fields_valid c : Vectors c = ∅ → validateVectorFields (Normalized c) = Ok tt.
Proof. intros H. unfold validateVectorFields. cbn [Normalized Vectors]. rewrite H. reflexivity. Qed.

(** The defaults are valid: a configuration with a name, a positive
    dimension and shard count, a known metric and an index type (none, flat,
    hnsw or diskann without quantization; flat with binary or product
    quantization), and every tuning parameter left at zero, validates. *)
Theorem defaults_validate name dimension metric shards vectorizer t q :
  name ≠ "" → 0 < dimension → Metric_Valid metric = true → 0 < shards →
  vectorizer = "" ∨ vectorizerName vectorizer = true →
  (t, q) ∈ [("", ""); (IndexFlat, ""); (IndexHNSW, ""); (IndexDiskANN, "");
            ("", QuantizationBinary); (IndexFlat, QuantizationBinary);
            ("", QuantizationPQ); (IndexFlat, QuantizationPQ)] →
  Validate (mkConfig name dimension metric shards (mkIndex t 0 0 0 q 0 0 0 0) vectorizer ∅) = Ok tt.
Proof.
  intros Hn Hd Hm Hs Hv Htq. unfold Validate. rewrite no_fields_valid by done.
  unfold validate_shape, Normalized. cbn [Name Dimension Metric ShardCount Index Vectorizer Vectors].
  rewrite normalize_fields. cbv zeta.
  rewrite (proj2 (String.eqb_neq _ _)) by done. rewrite (proj2 (Z.leb_gt dimension 0)) by done.
  rewrite Hm, (proj2 (Z.leb_gt shards 0)) by done.
  assert (negb (String.eqb vectorizer "") && negb (vectorizerName vectorizer) = false) as ->
    by (destruct Hv as [->| ->]; [done|apply andb_false_r]).
  destruct (pick_subspaces_spec dimension Hd) as [Hp1 Hp2].
  assert (validate_quantization dimension
    (mkIndex IndexFlat 0 0 0 QuantizationPQ 8 (pick_subspaces dimension [8; 4; 2; 1]) 0 0) = Ok tt) as Hpq.
  { unfold validate_quantization.
    cbn [Type_ Quantization Oversampling PQSubspaces]. simpl String.eqb. cbn [negb].
    rewrite Hp2, (proj2 (Z.ltb_ge (pick_subspaces _ _) 1)), (proj2 (Z.ltb_ge dimension _)) by lia. reflexivity. }
  repeat (apply elem_of_cons in Htq as [[= -> ->]|Htq]; [|]); [reflexivity..| | |by apply not_elem_of_nil in Htq].
  all: simpl String.eqb; cbv iota; rewrite (proj2 (Z.ltb_lt 0 dimension)) by done; cbn [negb andb Z.eqb default_to];
    simpl; rewrite ?andb_false_r; apply bind_unit; exact Hpq.
Qed.

(** A NaN weight passes the range check of a hybrid query. *)
Theorem nan_alpha_accepted :
  HybridQuery_Validate (mkHybrid None None "text" 0x7fc00000 "" 10) 3 = Ok tt.
Proof. vm_compute. reflexivity. Qed.

(** ** Witnesses *)

Definition half_config : CollectionConfig :=
  mkConfig "c" 1 MetricDot 1 (mkIndex "" 0 0 0 "" 0 0 0 0) ""
    {["v" := mkField 1 MetricDot (mkIndex "" 0 0 0 "" 0 0 0 0) DatatypeFloat16 false]}.
Definition half_record (bits : Z) : CoreRecord :=
  mkCoreRecord "r" [f32_one] ∅ ∅ ∅ 0 0 "" "" {["v" := [bits]]} ∅.

(** 1.2 is stored as the float16 nearest to it. *)
Lemma prepare_idempotent_witness :
  PrepareNamedVectors half_config (half_record 0x3f99a000) = Ok (half_record 0x3f99a000).
Proof.
  apply (prepare_idempotent half_config (half_record f32_1_2)).
  - split.
    + intros k v H. cbn [half_record rec_Vectors] in H. apply lookup_singleton_Some in H as [_ <-]. apply Forall_singleton. unfold f32_valid, f32_1_2. lia.
    + intros k v H. cbn [half_record MultiVectors] in H. by rewrite lookup_empty in H.
  - vm_compute. reflexivity.
Defined.

Lemma bfloat16_nearest_witness :
  Float32ToBFloat16 f32_1_2 = 0x3f9a
  ∧ Z.abs (BFloat16ToFloat32 (Float32ToBFloat16 f32_1_2) - f32_1_2) ≤ Z.abs (BFloat16ToFloat32 0x3f99 - f32_1_2).
Proof.
  split; [reflexivity|].
  refine (proj1 (bfloat16_nearest f32_1_2 0x3f99 _ _ _)); [|reflexivity|lia].
  unfold f32_valid, f32_1_2. lia.
Defined.

Lemma defaults_validate_witness :
  Validate (mkConfig "docs" 768 MetricCosine 4 (mkIndex "" 0 0 0 QuantizationPQ 0 0 0 0) "" ∅) = Ok tt.
Proof.
  apply defaults_validate; [done|lia|reflexivity|lia|by left|].
  rewrite !elem_of_cons. tauto.
Defined.
