(* ===== verification/Sha256.v ===== *)
(** * SHA-256

    [crypto/sha256.Sum256] of the Go standard library (FIPS 180-4), which
    placement scores and plan digests are computed with.  Words are integers
    in [0, 2^32); bytes are integers in [0, 255]. *)
From Stdlib Require Import ZArith Lia Ascii String.
From stdpp Require Import base tactics list.
From S2P Require Import Prelude.
Local Open Scope Z_scope.
Local Open Scope list_scope.

Definition rotr (n x : Z) : Z := Z.lor (Z.shiftr x n) (u32 (Z.shiftl x (32 - n))).
Definition ch (x y z : Z) : Z := Z.lxor (Z.land x y) (Z.land (Z.lxor x 0xffffffff) z).
Definition maj (x y z : Z) : Z := Z.lxor (Z.lxor (Z.land x y) (Z.land x z)) (Z.land y z).
Definition bsig0 (x : Z) : Z := Z.lxor (Z.lxor (rotr 2 x) (rotr 13 x)) (rotr 22 x).
Definition bsig1 (x : Z) : Z := Z.lxor (Z.lxor (rotr 6 x) (rotr 11 x)) (rotr 25 x).
Definition ssig0 (x : Z) : Z := Z.lxor (Z.lxor (rotr 7 x) (rotr 18 x)) (Z.shiftr x 3).
Definition ssig1 (x : Z) : Z := Z.lxor (Z.lxor (rotr 17 x) (rotr 19 x)) (Z.shiftr x 10).

(** The constants of the standard are the first 32 bits of the fractional
    parts of the cube roots of the first 64 primes, and of the square roots of
    the first eight; they are computed here rather than listed. *)
Definition is_prime (n : nat) : bool :=
  forallb (λ d, negb (n mod d =? 0)%nat) (seq 2 (n - 2)).

Definition primes (n : nat) : list Z :=
  Z.of_nat <$> take n (List.filter is_prime (seq 2 310)).

(** The integer cube root, bit by bit from bit [n - 1] down. *)
Fixpoint cube_root (n : nat) (x acc : Z) : Z :=
  match n with
  | O => acc
  | S n =>
      let y := acc + 2 ^ Z.of_nat n in
      cube_root n x (if y * y * y <=? x then y else acc)
  end.

Definition round_constants : list Z :=
  Eval vm_compute in (λ p, u32 (cube_root 36 (p * 2 ^ 96) 0)) <$> primes 64.

Definition initial_hash : list Z :=
  Eval vm_compute in (λ p, u32 (Z.sqrt (p * 2 ^ 64))) <$> primes 8.

(** Big-endian encoding of a word in [n] bytes. *)
Fixpoint be_bytes (n : nat) (x : Z) : list Z :=
  match n with
  | O => []
  | S n => (x / 256 ^ Z.of_nat n) mod 256 :: be_bytes n x
  end.

(** The padded message: a one bit, zeros, the bit length in 64 bits. *)
Definition pad (message : list Z) : list Z :=
  let n := len message in
  message ++ 0x80 :: replicate (Z.to_nat ((55 - n) mod 64)) 0 ++ be_bytes 8 (8 * n).

Fixpoint words (bytes : list Z) : list Z :=
  match bytes with
  | a :: b :: c :: d :: rest => ((a * 256 + b) * 256 + c) * 256 + d :: words rest
  | _ => []
  end.

(** The message schedule, kept as its last sixteen words, newest first. *)
Definition next_word (window : list Z) : Z :=
  match window with
  | [_; w2; _; _; _; _; w7; _; _; _; _; _; _; _; w15; w16] =>
      u32 (ssig1 w2 + w7 + ssig0 w15 + w16)
  | _ => 0
  end.

Fixpoint extend (n : nat) (window : list Z) : list Z :=
  match n with
  | O => []
  | S n => let w := next_word window in w :: extend n (w :: take 15 window)
  end.

Definition schedule (block : list Z) : list Z := block ++ extend 48 (rev block).

Definition round (state : list Z) (kw : Z * Z) : list Z :=
  match state with
  | [a; b; c; d; e; f; g; h] =>
      let t1 := h + bsig1 e + ch e f g + fst kw + snd kw in
      let t2 := bsig0 a + maj a b c in
      [u32 (t1 + t2); a; b; c; u32 (d + t1); e; f; g]
  | _ => state
  end.

Definition compress (state block : list Z) : list Z :=
  zip_with (λ x y, u32 (x + y)) state (foldl round state (zip round_constants (schedule block))).

(** One block of sixteen words per round; the number of words bounds the
    number of blocks. *)
Fixpoint blocks (fuel : nat) (state ws : list Z) : list Z :=
  match fuel with
  | O => state
  | S fuel => match ws with
              | [] => state
              | _ => blocks fuel (compress state (take 16 ws)) (drop 16 ws)
              end
  end.

Definition sha256_Sum256 (message : list Z) : list Z :=
  let ws := words (pad message) in
  blocks (length ws) initial_hash ws ≫= be_bytes 4.

(** The bytes of a Go string. *)
Fixpoint string_bytes (s : string) : list Z :=
  match s with
  | EmptyString => []
  | String c s => Z.of_N (N_of_ascii c) :: string_bytes s
  end.

Definition hex_digit (n : Z) : ascii :=
  ascii_of_N (Z.to_N (if n <? 10 then 48 + n else 87 + n)).

(** [hex.EncodeToString] *)
Fixpoint hex_EncodeToString (bytes : list Z) : string :=
  match bytes with
  | [] => EmptyString
  | b :: rest => String (hex_digit (b / 16)) (String (hex_digit (b mod 16)) (hex_EncodeToString rest))
  end.

(** The test vector of FIPS 180-4 for the message "abc". *)
Example sha256_abc :
  hex_EncodeToString (sha256_Sum256 (string_bytes "abc"))
  = "ba7816bf8f01cfea414140de5dae2223b00361a396177a9cb410ff61f20015ad"%string.
Proof. vm_compute. reflexivity. Qed.

(** The two-block test vector. *)
Example sha256_two_blocks :
  hex_EncodeToString (sha256_Sum256 (string_bytes "abcdbcdecdefdefgefghfghighijhijkijkljklmklmnlmnomnopnopq"))
  = "248d6a61d20638b8e5c026930c3e6039a33ce45964ff2167f6ecedd419db06c1"%string.
Proof. vm_compute. reflexivity. Qed.
