(* ===== verification/Wal.v ===== *)
(** * The per-shard write-ahead log

    [internal/wal/wal.go]: the record frame and its checksum, [Append] with
    its rollback, [recoverFile], [OpenWithOptions], [Reset].  The file is its
    content with the seek offset; bytes are integers in [0, 255].  The
    replayed closure is state passing: [apply] takes the caller's state.
    Operating-system failures are arguments of the operations. *)
From Stdlib Require Import ZArith Lia Ascii String.
From stdpp Require Import base tactics list.
From S2P Require Import Prelude.
Local Open Scope string_scope.
Local Open Scope Z_scope.
Local Open Scope list_scope.

(** ** Bytes *)

Definition is_byte (b : Z) : Prop := 0 ≤ b < 256.

(** [binary.LittleEndian.PutUint16/32/64] *)
Fixpoint le_bytes (n : nat) (z : Z) : list Z :=
  match n with
  | O => []
  | S n => z mod 256 :: le_bytes n (z / 256)
  end.

(** [binary.LittleEndian.Uint16/32/64] *)
Fixpoint le_value (l : list Z) : Z :=
  match l with
  | [] => 0
  | b :: l => b + 256 * le_value l
  end.

(** The slice expression [l[a:b]]. *)
Definition sub_slice {A} (l : list A) (a b : Z) : list A := slice_to (slice_from l a) (b - a).

(** [hash/crc32] with the Castagnoli polynomial. *)
Definition castagnoli : Z := 0x82F63B78.

Fixpoint crc_rounds (n : nat) (crc : Z) : Z :=
  match n with
  | O => crc
  | S n => crc_rounds n (if Z.testbit crc 0 then Z.lxor (Z.shiftr crc 1) castagnoli
                         else Z.shiftr crc 1)
  end.

Definition crc_table (i : Z) : Z := crc_rounds 8 i.

Definition crc_byte (crc v : Z) : Z :=
  Z.lxor (crc_table (Z.lxor (Z.land crc 255) v)) (Z.shiftr crc 8).

Definition crc_not (crc : Z) : Z := Z.lxor crc 0xFFFFFFFF.

Definition crc32_Update (crc : Z) (p : list Z) : Z := crc_not (foldl crc_byte (crc_not crc) p).

(** ** Records and frames *)

Definition headerSize : Z := 28.
Definition formatVersion : Z := 1.
Definition maximumPayload : Z := Z.shiftl 64 20.
Definition magic : list Z := [86; 68; 66; 87].

Inductive SyncMode : Set :=
  | SyncAlways
  | SyncAsync
  | OtherSyncMode (name : string).

Definition OperationUpsert : Z := 1.
Definition OperationDelete : Z := 2.
Definition OperationBatchUpsert : Z := 3.

Record WalRecord : Set := mkRecord { LSN : Z; Operation : Z; Payload : list Z }.

Definition valid_operation (operation : Z) : bool :=
  (operation =? OperationUpsert) || (operation =? OperationDelete) || (operation =? OperationBatchUpsert).

(** Bytes 4 to 24 of the header, the part under the checksum. *)
Definition header_body (lsn operation : Z) (payload : list Z) : list Z :=
  le_bytes 2 formatVersion ++ le_bytes 2 0 ++ le_bytes 4 (u32 (len payload)) ++ le_bytes 8 lsn
  ++ [operation; 0; 0; 0].

Definition encodeHeader (lsn operation : Z) (payload : list Z) : list Z :=
  let body := header_body lsn operation payload in
  let checksum := crc32_Update 0 body in
  let checksum := crc32_Update checksum payload in
  magic ++ body ++ le_bytes 4 checksum.

(** ** The file *)

Record File : Set := mkFile { content : list Z; offset : Z }.

Definition Truncate (f : File) (size : Z) : File := mkFile (slice_to (content f) size) (offset f).
Definition SeekTo (f : File) (position : Z) : File := mkFile (content f) position.

(** The bytes of one [Write] land at the offset; past the end of the file
    the gap reads as zeros. *)
Definition WriteAt (f : File) (bytes : list Z) : File :=
  let gap := replicate (Z.to_nat (offset f - len (content f))) 0 in
  mkFile (slice_to (content f) (offset f) ++ gap ++ bytes
          ++ slice_from (content f) (offset f + len bytes))
         (offset f + len bytes).

(** The outcome of one [Write] call: how many bytes were written and whether
    it returned an error. *)
Record WriteOutcome : Set := mkOutcome { written : Z; write_failed : bool }.

(** [for len(buffer) > 0 { ... }] over the outcomes of the calls to come;
    a call after the listed ones writes everything. *)
Fixpoint write_buffer (outcomes : list WriteOutcome) (f : File) (buffer : list Z)
    : File * list WriteOutcome * option error :=
  match buffer with
  | [] => (f, outcomes, None)
  | _ =>
      match outcomes with
      | [] => (WriteAt f buffer, [], None)
      | o :: rest =>
          let f' := WriteAt f (slice_to buffer (written o)) in
          if write_failed o then (f', rest, Some (IOError "write"))
          else if written o =? 0 then (f', rest, Some (IOError "short write"))
          else write_buffer rest f' (slice_from buffer (written o))
      end
  end.

Fixpoint writeTo (outcomes : list WriteOutcome) (f : File) (buffers : list (list Z))
    : File * option error :=
  match buffers with
  | [] => (f, None)
  | buffer :: rest =>
      match write_buffer outcomes f buffer with
      | (f', _, Some e) => (f', Some e)
      | (f', outcomes', None) => writeTo outcomes' f' rest
      end
  end.

(** ** The log *)

Record Log : Set := mkLog { file : File; mode : SyncMode; nextLSN : Z }.

(** What the operating system does during one [Append]. *)
Record AppendFaults : Set := mkAppendFaults {
  seek_fails : bool;
  outcomes : list WriteOutcome;
  sync_fails : bool;
  rollback_truncates : bool;
  rollback_seeks : bool;
}.

Definition no_faults : AppendFaults := mkAppendFaults false [] false true true.

Definition rollbackLocked (faults : AppendFaults) (f : File) (start : Z) : File :=
  let f1 := if rollback_truncates faults then Truncate f start else f in
  if rollback_seeks faults then SeekTo f1 start else f1.

Definition with_file (l : Log) (f : File) : Log := mkLog f (mode l) (nextLSN l).

Definition Append (faults : AppendFaults) (l : Log) (operation : Z) (payload : list Z) : Log * res Z :=
  if negb (valid_operation operation) then (l, Err (Errorf "invalid WAL operation"))
  else if maximumPayload <? len payload then (l, Err (Errorf "WAL payload exceeds limit"))
  else
    let lsn := nextLSN l in
    if seek_fails faults then (l, Err (IOError "seek"))
    else
      let start := offset (file l) in
      let header := encodeHeader lsn operation payload in
      let (f1, failed) := writeTo (outcomes faults) (file l) [header; payload] in
      match failed with
      | Some e => (with_file l (rollbackLocked faults f1 start), Err e)
      | None =>
          if match mode l with SyncAlways => sync_fails faults | _ => false end
          then (with_file l (rollbackLocked faults f1 start), Err (IOError "sync"))
          else (mkLog f1 (mode l) (u64 (nextLSN l + 1)), Ok lsn)
      end.

Definition LastLSN (l : Log) : Z := if nextLSN l =? 0 then 0 else nextLSN l - 1.

(** The failing step of [Reset], if any. *)
Inductive ResetStep : Set := ResetTruncate | ResetSeek | ResetSync.

Definition Reset (fault : option ResetStep) (l : Log) (next : Z) : Log * res unit :=
  if next =? 0 then (l, Err (Errorf "next LSN must be positive"))
  else
    match fault with
    | Some ResetTruncate => (l, Err (IOError "truncate"))
    | Some ResetSeek => (with_file l (Truncate (file l) 0), Err (IOError "seek"))
    | Some ResetSync => (with_file l (SeekTo (Truncate (file l) 0) 0), Err (IOError "sync"))
    | None => (mkLog (SeekTo (Truncate (file l) 0) 0) (mode l) next, Ok tt)
    end.

(** ** Recovery *)

Section Recovery.
Context {St : Type} (apply : St → WalRecord → res St) (replayAfter : Z).

(** [for { ... }] of [recoverFile], on the bytes not read yet.  Every round
    consumes a whole header, so [length + 1] rounds are enough. *)
Fixpoint recover_loop (fuel : nat) (rest : list Z) (lastLSN validBytes : Z) (st : St)
    : res (St * Z * Z) :=
  match fuel with
  | O => Err (Panic "recoverFile: out of fuel")
  | S fuel =>
      if len rest <? headerSize then Ok (st, lastLSN, validBytes)
      else
        let header := slice_to rest headerSize in
        let body := slice_from rest headerSize in
        if negb (bool_decide (slice_to header 4 = magic))
        then Err (Errorf "WAL corruption: invalid magic")
        else if negb (le_value (sub_slice header 4 6) =? formatVersion)
        then Err (Errorf "WAL version is unsupported")
        else if negb (le_value (sub_slice header 6 8) =? 0)
                || negb (le_value (sub_slice header 21 24) =? 0)
        then Err (Errorf "WAL corruption: reserved fields are nonzero")
        else
          let length := le_value (sub_slice header 8 12) in
          if maximumPayload <? length then Err (Errorf "WAL corruption: payload length")
          else
            let lsn := le_value (sub_slice header 12 20) in
            let operation := le_value (sub_slice header 20 21) in
            if negb (valid_operation operation) then Err (Errorf "WAL corruption: operation")
            else if negb (lastLSN =? 0) && negb (lsn =? u64 (lastLSN + 1))
            then Err (Errorf "WAL corruption: non-contiguous LSN")
            else if len body <? length then Ok (st, lastLSN, validBytes)
            else
              let payload := slice_to body length in
              let wantCRC := le_value (sub_slice header 24 28) in
              let checksum := crc32_Update 0 (sub_slice header 4 24) in
              let checksum := crc32_Update checksum payload in
              if negb (checksum =? wantCRC)
              then Err (Errorf "WAL corruption: checksum mismatch")
              else
                let! st' := (if replayAfter <? lsn
                             then apply st (mkRecord lsn operation payload) else Ok st) in
                recover_loop fuel (slice_from body length) lsn (validBytes + headerSize + length) st'
  end.

Definition recoverFile (bytes : list Z) (st : St) : res (St * Z * Z) :=
  recover_loop (S (length bytes)) bytes 0 0 st.

(** The failing step of [OpenWithOptions], if any. *)
Inductive OpenStep : Set :=
  | OpenMkdir | OpenStat | OpenOpen | OpenSyncNew | OpenSyncDirectory | OpenSeekStart | OpenRead
  | OpenInfo | OpenTruncate | OpenSyncTruncated | OpenSeekEnd.

#[local] Instance open_step_eq_dec : EqDecision OpenStep.
Proof. solve_decision. Defined.

Definition fails (fault : option OpenStep) (step : OpenStep) : bool := bool_decide (fault = Some step).

(** [stored] is the content of the file at the path, [None] when there is
    none.  The result carries the content the call leaves on disk. *)
Definition OpenWithOptions (fault : option OpenStep) (stored : option (list Z)) (sync : SyncMode)
    (initialLSN : Z) (st : St) : option (list Z) * res (Log * St) :=
  if match sync with OtherSyncMode _ => true | _ => false end
  then (stored, Err (Errorf "unsupported WAL sync mode"))
  else if fails fault OpenMkdir then (stored, Err (IOError "mkdir"))
  else if fails fault OpenStat then (stored, Err (IOError "stat"))
  else if fails fault OpenOpen then (stored, Err (IOError "open"))
  else
    let bytes := default [] stored in
    let created := match stored with None => true | Some _ => false end in
    if created && fails fault OpenSyncNew then (Some bytes, Err (IOError "sync"))
    else if created && fails fault OpenSyncDirectory then (Some bytes, Err (IOError "sync directory"))
    else
      let initialLSN := if initialLSN =? 0 then 1 else initialLSN in
      if fails fault OpenSeekStart then (Some bytes, Err (IOError "seek"))
      else if fails fault OpenRead then (Some bytes, Err (IOError "read"))
      else match recoverFile bytes st with
      | Err e => (Some bytes, Err e)
      | Ok (st', lastLSN, validBytes) =>
          if fails fault OpenInfo then (Some bytes, Err (IOError "stat"))
          else
            let torn := negb (len bytes =? validBytes) in
            if torn && fails fault OpenTruncate then (Some bytes, Err (IOError "truncate"))
            else
              let kept := if torn then slice_to bytes validBytes else bytes in
              if torn && fails fault OpenSyncTruncated then (Some kept, Err (IOError "sync"))
              else if fails fault OpenSeekEnd then (Some kept, Err (IOError "seek"))
              else
                let next := if lastLSN =? 0 then initialLSN else u64 (lastLSN + 1) in
                (Some kept, Ok (mkLog (mkFile kept (len kept)) sync next, st'))
      end.
End Recovery.

(** ** Encoding *)

Lemma length_le_bytes n z : length (le_bytes n z) = n.
Proof. revert z. induction n as [|n IH]; intros z; simpl; auto. Qed.

Lemma le_bytes_valid n z : Forall is_byte (le_bytes n z).
Proof.
  revert z. induction n as [|n IH]; intros z; simpl; constructor; auto.
  apply Z.mod_pos_bound. lia.
Qed.

Lemma le_value_bytes n z : 0 ≤ z < 256 ^ Z.of_nat n → le_value (le_bytes n z) = z.
Proof.
  revert z. induction n as [|n IH]; intros z Hz; cbn [le_bytes le_value].
  { simpl in Hz. lia. }
  rewrite IH.
  - pose proof (Z.div_mod z 256). lia.
  - rewrite Nat2Z.inj_succ, Z.pow_succ_r in Hz by lia.
    split; [apply Z.div_pos; lia|]. apply Z.div_lt_upper_bound; lia.
Qed.

(** ** Checksum range *)

Lemma lxor_bound n a b : 0 ≤ n → 0 ≤ a < 2 ^ n → 0 ≤ b < 2 ^ n → 0 ≤ Z.lxor a b < 2 ^ n.
Proof.
  intros Hn Ha Hb. assert (0 ≤ Z.lxor a b) as H0 by (apply Z.lxor_nonneg; lia).
  split; [done|]. destruct (decide (Z.lxor a b = 0)) as [->|E]; [lia|].
  apply Z.log2_lt_pow2; [lia|]. pose proof (Z.log2_lxor a b).
  assert (n ≠ 0) as Hn0.
  { intros ->. assert (a = 0 ∧ b = 0) as [-> ->] by lia. done. }
  assert (∀ x, 0 ≤ x < 2 ^ n → Z.log2 x < n) as Hl.
  { intros x Hx. destruct (decide (x = 0)) as [->|]; [simpl; lia|]. apply Z.log2_lt_pow2; lia. }
  pose proof (Hl a Ha). pose proof (Hl b Hb). lia.
Qed.

Lemma shiftr_bound n a : 0 ≤ n → 0 ≤ a < 2 ^ 32 → 0 ≤ Z.shiftr a n < 2 ^ 32.
Proof.
  intros Hn Ha. rewrite Z.shiftr_div_pow2 by done.
  assert (0 < 2 ^ n) by (apply Z.pow_pos_nonneg; lia).
  split; [apply Z.div_pos; lia|]. apply Z.div_lt_upper_bound; nia.
Qed.

Lemma crc_rounds_bound n crc : 0 ≤ crc < 2 ^ 32 → 0 ≤ crc_rounds n crc < 2 ^ 32.
Proof.
  revert crc. induction n as [|n IH]; intros crc H; cbn [crc_rounds]; [done|].
  apply IH. destruct (Z.testbit crc 0); [apply lxor_bound|]; try apply shiftr_bound; try lia.
  unfold castagnoli. lia.
Qed.

Lemma land_255 a : Z.land a 255 = a mod 256.
Proof. apply (Z.land_ones a 8). lia. Qed.

Lemma crc_byte_bound crc v : 0 ≤ crc < 2 ^ 32 → is_byte v → 0 ≤ crc_byte crc v < 2 ^ 32.
Proof.
  intros Hc Hv. unfold crc_byte. apply lxor_bound; [lia| |by apply shiftr_bound].
  apply crc_rounds_bound. rewrite land_255. pose proof (Z.mod_pos_bound crc 256).
  assert (0 ≤ Z.lxor (crc mod 256) v < 2 ^ 8) by (apply lxor_bound; unfold is_byte in Hv; lia). lia.
Qed.

Lemma crc_fold_bound p crc :
  0 ≤ crc < 2 ^ 32 → Forall is_byte p → 0 ≤ foldl crc_byte crc p < 2 ^ 32.
Proof.
  intros Hc Hp. revert crc Hc. induction Hp as [|v p Hv Hp IH]; intros crc Hc; simpl; [done|].
  apply IH. by apply crc_byte_bound.
Qed.

Lemma crc_not_bound crc : 0 ≤ crc < 2 ^ 32 → 0 ≤ crc_not crc < 2 ^ 32.
Proof. intros H. apply lxor_bound; lia. Qed.

Lemma crc32_bound crc p :
  0 ≤ crc < 2 ^ 32 → Forall is_byte p → 0 ≤ crc32_Update crc p < 2 ^ 32.
Proof. intros Hc Hp. apply crc_not_bound, crc_fold_bound; [by apply crc_not_bound|done]. Qed.

(** ** Frames *)

Definition frame (r : WalRecord) : list Z :=
  encodeHeader (LSN r) (Operation r) (Payload r) ++ Payload r.

Definition encode_log (rs : list WalRecord) : list Z := rs ≫= frame.

Lemma encode_log_cons r rs : encode_log (r :: rs) = frame r ++ encode_log rs.
Proof. reflexivity. Qed.

Lemma encode_log_snoc rs r : encode_log (rs ++ [r]) = encode_log rs ++ frame r.
Proof. unfold encode_log. by rewrite bind_app, bind_singleton. Qed.

Record record_ok (r : WalRecord) : Prop := {
  ro_operation : valid_operation (Operation r) = true;
  ro_payload : len (Payload r) ≤ maximumPayload;
  ro_bytes : Forall is_byte (Payload r);
  ro_lsn : 0 < LSN r < two64;
}.

Lemma operation_byte o : valid_operation o = true → is_byte o.
Proof.
  unfold valid_operation, OperationUpsert, OperationDelete, OperationBatchUpsert, is_byte.
  intros H. bool_props. destruct H as [H|H]; bool_props; [destruct H as [H|H]; bool_props|]; lia.
Qed.

Lemma header_body_valid lsn o p : is_byte o → Forall is_byte (header_body lsn o p).
Proof.
  intros Ho. unfold header_body. rewrite !Forall_app.
  split_and!; try apply le_bytes_valid.
  repeat (apply Forall_cons; split); auto; unfold is_byte; lia.
Qed.

Lemma length_encodeHeader lsn o p : length (encodeHeader lsn o p) = 28%nat.
Proof. reflexivity. Qed.

Lemma len_frame r : len (frame r) = headerSize + len (Payload r).
Proof. unfold frame. rewrite len_app. reflexivity. Qed.

Lemma length_frame r : length (frame r) = (28 + length (Payload r))%nat.
Proof. unfold frame. rewrite length_app. reflexivity. Qed.

Lemma payload_length r : record_ok r → le_value (le_bytes 4 (u32 (len (Payload r)))) = len (Payload r).
Proof.
  intros H. pose proof (ro_payload _ H). pose proof (len_nonneg (Payload r)).
  assert (maximumPayload = 67108864) as E by reflexivity.
  unfold u32. rewrite Z.mod_small by lia. apply le_value_bytes. lia.
Qed.

Definition record_checksum (r : WalRecord) : Z :=
  crc32_Update (crc32_Update 0 (header_body (LSN r) (Operation r) (Payload r))) (Payload r).

(** What recovery reads back from the header of a well-formed record. *)
Lemma header_fields r :
  record_ok r → let header := encodeHeader (LSN r) (Operation r) (Payload r) in
  slice_to header 4 = magic
  ∧ le_value (sub_slice header 4 6) = formatVersion
  ∧ le_value (sub_slice header 6 8) = 0
  ∧ le_value (sub_slice header 21 24) = 0
  ∧ le_value (sub_slice header 8 12) = len (Payload r)
  ∧ le_value (sub_slice header 12 20) = LSN r
  ∧ le_value (sub_slice header 20 21) = Operation r
  ∧ sub_slice header 4 24 = header_body (LSN r) (Operation r) (Payload r)
  ∧ le_value (sub_slice header 24 28) = record_checksum r.
Proof.
  intros Hr header. split_and!; try reflexivity.
  - by apply (payload_length r).
  - apply (le_value_bytes 8). destruct (ro_lsn _ Hr). unfold two64 in *. lia.
  - change (Operation r + 256 * 0 = Operation r). lia.
  - apply (le_value_bytes 4). apply (crc32_bound _ _); [apply crc32_bound|apply Hr]; [lia|].
    apply header_body_valid, operation_byte, Hr.
Qed.

(** One round of recovery on a well-formed frame. *)
Section RecoverySteps.
Context {St : Type} (apply : St → WalRecord → res St) (replayAfter : Z).
#[local] Abbreviation recover_loop := (recover_loop apply replayAfter).

Definition replay_one (st : St) (r : WalRecord) : res St :=
  if replayAfter <? LSN r then apply st r else Ok st.

(** The header of [r] followed by [q], a payload of the same length. *)
Lemma recover_header fuel r q rest lastLSN validBytes st :
  record_ok r → lastLSN = 0 ∨ LSN r = u64 (lastLSN + 1) → len q = len (Payload r) →
  recover_loop (S fuel) (encodeHeader (LSN r) (Operation r) (Payload r) ++ q ++ rest) lastLSN validBytes st
  = if negb (crc32_Update (crc32_Update 0 (header_body (LSN r) (Operation r) (Payload r))) q
             =? record_checksum r)
    then Err (Errorf "WAL corruption: checksum mismatch")
    else let! st' := replay_one st (mkRecord (LSN r) (Operation r) q) in
         recover_loop fuel rest (LSN r) (validBytes + headerSize + len (Payload r)) st'.
Proof.
  intros Hr Hl Hq. cbn [Wal.recover_loop].
  pose proof (len_nonneg rest). pose proof (len_nonneg q).
  set (header := encodeHeader (LSN r) (Operation r) (Payload r)).
  assert (len header = headerSize) as Hh by reflexivity.
  rewrite (proj2 (Z.ltb_ge _ _)) by (rewrite !len_app, Hh; lia).
  assert (slice_to (header ++ q ++ rest) headerSize = header) as -> by (by apply take_app_length').
  assert (slice_from (header ++ q ++ rest) headerSize = q ++ rest) as -> by (by apply drop_app_length').
  subst header. destruct (header_fields r Hr) as (-> & -> & -> & -> & -> & -> & -> & -> & ->).
  rewrite bool_decide_true by done. rewrite (proj2 (Z.ltb_ge _ _)) by apply Hr.
  rewrite (ro_operation _ Hr). rewrite <-Hq. rewrite (proj2 (Z.ltb_ge _ _)) by (rewrite len_app; lia).
  rewrite slice_to_app, slice_from_app.
  assert (negb (lastLSN =? 0) && negb (LSN r =? u64 (lastLSN + 1)) = false) as ->.
  { destruct Hl as [->| ->]; [done|]. by rewrite Z.eqb_refl, andb_false_r. }
  done.
Qed.

Lemma recover_frame fuel r rest lastLSN validBytes st :
  record_ok r → lastLSN = 0 ∨ LSN r = u64 (lastLSN + 1) →
  recover_loop (S fuel) (frame r ++ rest) lastLSN validBytes st
  = (let! st' := replay_one st r in
     recover_loop fuel rest (LSN r) (validBytes + headerSize + len (Payload r)) st').
Proof.
  intros Hr Hl. unfold frame. rewrite <-app_assoc, recover_header by done.
  fold (record_checksum r). rewrite Z.eqb_refl. by destruct r.
Qed.

(** The replay of a list of records, as [recoverFile] performs it. *)
Fixpoint replay_records (st : St) (rs : list WalRecord) : res St :=
  match rs with
  | [] => Ok st
  | r :: rs => let! st' := replay_one st r in replay_records st' rs
  end.

Fixpoint last_lsn (d : Z) (rs : list WalRecord) : Z :=
  match rs with
  | [] => d
  | r :: rs => last_lsn (LSN r) rs
  end.

(** Contiguous LSNs after [lastLSN], which is 0 before the first record. *)
Fixpoint contiguous (lastLSN : Z) (rs : list WalRecord) : Prop :=
  match rs with
  | [] => True
  | r :: rs => (lastLSN = 0 ∨ LSN r = u64 (lastLSN + 1)) ∧ contiguous (LSN r) rs
  end.

Lemma recover_frames rs fuel rest lastLSN validBytes st :
  Forall record_ok rs → contiguous lastLSN rs →
  recover_loop (length rs + fuel) (encode_log rs ++ rest) lastLSN validBytes st
  = (let! st' := replay_records st rs in
     recover_loop fuel rest (last_lsn lastLSN rs) (validBytes + len (encode_log rs)) st').
Proof.
  intros Hok. revert lastLSN validBytes st.
  induction Hok as [|r rs Hr Hok IH]; intros lastLSN validBytes st Hc; simpl length.
  { simpl. unfold len. simpl. by rewrite Z.add_0_r. }
  destruct Hc as [Hl Hc]. rewrite encode_log_cons, <-app_assoc. cbn [Nat.add].
  rewrite recover_frame by done. cbn [replay_records last_lsn].
  destruct (replay_one st r) as [st'|]; cbn [res_bind]; [|done].
  rewrite IH by done. rewrite len_app, len_frame.
  destruct (replay_records st' rs); cbn [res_bind]; [|done]. f_equal. lia.
Qed.

(** A strict prefix of a well-formed next frame ends the recovery. *)
Lemma recover_torn fuel r k lastLSN validBytes st :
  record_ok r → lastLSN = 0 ∨ LSN r = u64 (lastLSN + 1) → (k < length (frame r))%nat →
  recover_loop (S fuel) (take k (frame r)) lastLSN validBytes st = Ok (st, lastLSN, validBytes).
Proof.
  intros Hr Hl Hk. cbn [Wal.recover_loop].
  destruct (len (take k (frame r)) <? headerSize) eqn:E; [done|]. bool_props.
  unfold len, headerSize in E. rewrite length_take in E.
  set (header := encodeHeader (LSN r) (Operation r) (Payload r)).
  assert (take k (frame r) = header ++ take (k - 28) (Payload r)) as ->.
  { unfold frame. rewrite take_app. rewrite length_encodeHeader.
    rewrite take_ge by (rewrite length_encodeHeader; lia). done. }
  assert (slice_to (header ++ take (k - 28) (Payload r)) headerSize = header) as ->
    by (by apply take_app_length').
  assert (slice_from (header ++ take (k - 28) (Payload r)) headerSize = take (k - 28) (Payload r)) as ->
    by (by apply drop_app_length').
  subst header. destruct (header_fields r Hr) as (-> & -> & -> & -> & -> & -> & -> & _ & _).
  rewrite bool_decide_true by done. rewrite (proj2 (Z.ltb_ge _ _)) by apply Hr.
  rewrite (ro_operation _ Hr). rewrite length_frame in Hk.
  rewrite (proj2 (Z.ltb_lt (len _) _)) by (unfold len; rewrite length_take; lia).
  destruct (negb (lastLSN =? 0) && negb (LSN r =? u64 (lastLSN + 1))) eqn:Ec; [|done].
  destruct Hl as [Hl|Hl]; rewrite Hl in Ec; [done|]. by rewrite Z.eqb_refl, andb_false_r in Ec.
Qed.
End RecoverySteps.

(** ** The log implements a sequence of records *)

(** A log whose file holds exactly [rs] and is positioned at its end. *)
Record LogInv (l : Log) (rs : list WalRecord) : Prop := {
  li_content : content (file l) = encode_log rs;
  li_offset : offset (file l) = len (content (file l));
  li_records : Forall record_ok rs;
  li_contiguous : contiguous 0 rs;
  li_next : 0 < nextLSN l < two64;
  li_last : rs = [] ∨ last_lsn 0 rs + 1 = nextLSN l;
}.

Lemma WriteAt_end f bytes :
  offset f = len (content f) → WriteAt f bytes = mkFile (content f ++ bytes) (len (content f ++ bytes)).
Proof.
  intros H. unfold WriteAt. rewrite H, Z.sub_diag. simpl. unfold slice_to, slice_from, len at 1.
  rewrite Nat2Z.id, firstn_all, len_app. rewrite drop_ge by (unfold len; lia). by rewrite app_nil_r.
Qed.

(** Without an error, everything was appended; with one, some prefix was. *)
Lemma write_buffer_ok outs f buffer f' outs' e :
  offset f = len (content f) →
  write_buffer outs f buffer = (f', outs', e) →
  ∃ k, f' = mkFile (content f ++ take k buffer) (len (content f ++ take k buffer))
       ∧ (e = None → take k buffer = buffer).
Proof.
  revert f buffer. induction outs as [|o outs IH]; intros f buffer Hf H; destruct buffer as [|b buffer].
  - injection H as <- <- <-. exists 0%nat. simpl. rewrite app_nil_r, <-Hf. by destruct f.
  - injection H as <- <- <-. exists (length (b :: buffer)). rewrite firstn_all. by rewrite WriteAt_end.
  - injection H as <- <- <-. exists 0%nat. simpl. rewrite app_nil_r, <-Hf. by destruct f.
  - cbn [write_buffer] in H. rewrite WriteAt_end in H by done.
    destruct (write_failed o).
    { injection H as <- <- <-. exists (Z.to_nat (written o)). done. }
    destruct (written o =? 0).
    { injection H as <- <- <-. exists (Z.to_nat (written o)). done. }
    apply IH in H as (k & -> & Hk); [|done]. exists (Z.to_nat (written o) + k)%nat. cbn [content].
    rewrite <-app_assoc. unfold slice_to, slice_from in *. rewrite take_take_drop. split; [done|].
    intros E. rewrite <-(take_take_drop (b :: buffer)). rewrite (Hk E). apply take_drop.
Qed.

Lemma writeTo_ok outs f buffers f' e :
  offset f = len (content f) → writeTo outs f buffers = (f', e) →
  ∃ k, f' = mkFile (content f ++ take k (concat buffers)) (len (content f ++ take k (concat buffers)))
       ∧ (e = None → take k (concat buffers) = concat buffers).
Proof.
  revert outs f. induction buffers as [|b bs IH]; intros outs f Hf H; cbn [writeTo] in H.
  { injection H as <- <-. exists 0%nat. simpl. rewrite app_nil_r, <-Hf. by destruct f. }
  destruct (write_buffer outs f b) as [[f1 outs1] e1] eqn:Eb.
  apply write_buffer_ok in Eb as (k & -> & Hk); [|done]. cbn [concat].
  destruct e1 as [e1|].
  - injection H as <- <-. exists (Nat.min k (length b)). rewrite take_app_le by lia.
    rewrite <-take_take, firstn_all2 with (l := b) (n := length b) by lia. done.
  - apply IH in H as (k' & -> & Hk'); [|done]. rewrite (Hk eq_refl) in *. cbn [content].
    exists (length b + k')%nat. rewrite <-app_assoc. rewrite take_app_add. split; [done|].
    intros E. by rewrite (Hk' E).
Qed.

Lemma last_lsn_snoc d rs r : last_lsn d (rs ++ [r]) = LSN r.
Proof. revert d. induction rs; intros d; simpl; auto. Qed.

Lemma contiguous_snoc d rs r :
  contiguous d (rs ++ [r]) ↔ contiguous d rs ∧ (last_lsn d rs = 0 ∨ LSN r = u64 (last_lsn d rs + 1)).
Proof. revert d. induction rs as [|x rs IH]; intros d; simpl; [tauto|]. rewrite IH. tauto. Qed.

Lemma LogInv_next l rs : LogInv l rs → last_lsn 0 rs = 0 ∨ nextLSN l = u64 (last_lsn 0 rs + 1).
Proof.
  intros H. destruct (li_last _ _ H) as [->|E]; [by left|right].
  rewrite E. symmetry. apply u64_small. pose proof (li_next _ _ H). lia.
Qed.

Lemma LogInv_snoc l rs r :
  LogInv l rs → record_ok r → LSN r = nextLSN l → nextLSN l + 1 < two64 →
  LogInv (mkLog (mkFile (encode_log (rs ++ [r])) (len (encode_log (rs ++ [r])))) (mode l)
            (u64 (nextLSN l + 1))) (rs ++ [r]).
Proof.
  intros H Hr Hn Hb. pose proof (LogInv_next _ _ H) as Hl. pose proof (li_next _ _ H).
  split; cbn [content offset file nextLSN]; auto.
  - apply Forall_app. split; [apply H|]. by apply Forall_singleton.
  - apply contiguous_snoc. split; [apply H|]. by rewrite Hn.
  - rewrite u64_small; lia.
  - right. rewrite last_lsn_snoc, Hn, u64_small; lia.
Qed.

Lemma append_result faults l rs operation payload l' result :
  LogInv l rs → nextLSN l + 1 < two64 → Forall is_byte payload →
  Append faults l operation payload = (l', result) →
  match result with
  | Ok lsn => lsn = nextLSN l ∧ LogInv l' (rs ++ [mkRecord lsn operation payload])
  | Err _ => rollback_truncates faults = true → rollback_seeks faults = true → l' = l
  end.
Proof.
  intros H Hb Hp. unfold Append.
  destruct (valid_operation operation) eqn:Eo; [|by intros [= <- <-]]. cbn [negb].
  destruct (maximumPayload <? len payload) eqn:El; [by intros [= <- <-]|]. bool_props.
  destruct (seek_fails faults); [by intros [= <- <-]|]. cbv zeta.
  destruct (writeTo _ _ _) as [f1 failed] eqn:Ew.
  apply writeTo_ok in Ew as (k & -> & Hk); [|apply H].
  set (bytes := concat [encodeHeader (nextLSN l) operation payload; payload]) in *.
  assert (bytes = frame (mkRecord (nextLSN l) operation payload)) as Eb
    by (unfold bytes, frame; cbn [concat]; by rewrite app_nil_r).
  clearbody bytes.
  assert (rollback_truncates faults = true → rollback_seeks faults = true →
    with_file l (rollbackLocked faults (mkFile (content (file l) ++ take k bytes)
      (len (content (file l) ++ take k bytes))) (offset (file l))) = l) as Hroll.
  { intros Ht Hs. unfold rollbackLocked. rewrite Ht, Hs. unfold Truncate, SeekTo, with_file. cbn [content].
    rewrite (li_offset _ _ H). unfold slice_to, len at 1. rewrite Nat2Z.id, take_app_length.
    rewrite <-(li_offset _ _ H). by destruct l as [[] ? ?]. }
  destruct failed as [e|]; [intros [= <- <-]; apply Hroll|].
  destruct (match mode l with SyncAlways => _ | _ => _ end); intros [= <- <-]; [apply Hroll|].
  split; [done|]. rewrite (Hk eq_refl), Eb, (li_content _ _ H), <-encode_log_snoc.
  apply LogInv_snoc; auto. split; auto. apply H.
Qed.

(** The bytes a crash can leave after the last whole record: nothing, or a
    strict prefix of the frame that was being appended. *)
Definition torn_tail (lastLSN : Z) (tail : list Z) : Prop :=
  tail = [] ∨ ∃ r k, record_ok r ∧ (lastLSN = 0 ∨ LSN r = u64 (lastLSN + 1))
                     ∧ (k < length (frame r))%nat ∧ tail = take k (frame r).

Lemma length_encode_log rs : (length rs ≤ length (encode_log rs))%nat.
Proof.
  induction rs as [|r rs IH]; [done|]. rewrite encode_log_cons, length_app, length_frame. simpl. lia.
Qed.

Section Open.
Context {St : Type} (apply : St → WalRecord → res St) (replayAfter : Z).

Lemma recover_log rs tail st :
  Forall record_ok rs → contiguous 0 rs → torn_tail (last_lsn 0 rs) tail →
  recoverFile apply replayAfter (encode_log rs ++ tail) st
  = (let! st' := replay_records apply replayAfter st rs in
     Ok (st', last_lsn 0 rs, len (encode_log rs))).
Proof.
  intros Hok Hc Ht. unfold recoverFile.
  replace (S (length (encode_log rs ++ tail)))
    with (length rs + S (length (encode_log rs ++ tail) - length rs))%nat
    by (rewrite length_app; pose proof (length_encode_log rs); lia).
  rewrite recover_frames by done.
  destruct (replay_records _ _ _ _) as [st'|]; cbn [res_bind]; [|done].
  destruct Ht as [->|(r & k & Hr & Hl & Hk & ->)]; [done|]. by rewrite recover_torn.
Qed.

Lemma open_log rs tail sync initial st st' :
  sync = SyncAlways ∨ sync = SyncAsync → 0 ≤ initial < two64 →
  Forall record_ok rs → contiguous 0 rs → torn_tail (last_lsn 0 rs) tail →
  last_lsn 0 rs + 1 < two64 → replay_records apply replayAfter st rs = Ok st' →
  ∃ l, OpenWithOptions apply replayAfter None (Some (encode_log rs ++ tail)) sync initial st
       = (Some (encode_log rs), Ok (l, st'))
       ∧ LogInv l rs ∧ mode l = sync ∧ (rs = [] → nextLSN l = Z.max 1 initial).
Proof.
  intros Hs Hi Hok Hc Ht Hlast Hrep. unfold OpenWithOptions.
  replace (match sync with OtherSyncMode _ => true | _ => false end) with false
    by (by destruct Hs as [-> | ->]).
  cbv zeta. change (default [] (Some (encode_log rs ++ tail))) with (encode_log rs ++ tail).
  assert (∀ step, fails None step = false) as Hf by reflexivity. rewrite !Hf. cbn [andb].
  rewrite recover_log by done. rewrite Hrep. cbn [res_bind].
  assert ((if negb (len (encode_log rs ++ tail) =? len (encode_log rs))
           then slice_to (encode_log rs ++ tail) (len (encode_log rs))
           else encode_log rs ++ tail) = encode_log rs) as ->.
  { destruct (negb _) eqn:E; bool_props.
    - apply slice_to_app.
    - rewrite len_app in E. assert (len tail = 0) as ->%len_zero by lia. by rewrite app_nil_r. }
  rewrite ?andb_false_r.
  eexists. split; [done|]. split_and!; [|done|].
  - assert (rs = [] ∨ last_lsn 0 rs ≠ 0 ∧ 0 < last_lsn 0 rs) as Hz.
    { destruct rs as [|r rs _] using rev_ind; [by left|right]. rewrite last_lsn_snoc.
      apply Forall_app in Hok as [_ Hr]. rewrite Forall_singleton in Hr. pose proof (ro_lsn _ Hr). lia. }
    split; cbn [file content offset nextLSN]; auto.
    + destruct (last_lsn 0 rs =? 0) eqn:E; bool_props.
      * destruct (initial =? 0) eqn:E2; bool_props; [unfold two64|]; lia.
      * destruct Hz as [->|Hz]; [done|]. rewrite u64_small; lia.
    + destruct Hz as [->|[Hz1 Hz]]; [by left|right].
      rewrite (proj2 (Z.eqb_neq _ _)) by done. rewrite u64_small; lia.
  - intros ->. simpl. destruct (initial =? 0) eqn:E2; bool_props; lia.
Qed.
End Open.

(** ** What the checksum detects *)

Lemma crc_table_top_inj i j :
  is_byte i → is_byte j → Z.shiftr (crc_table i) 24 = Z.shiftr (crc_table j) 24 → i = j.
Proof.
  set (tops := map (λ n, Z.shiftr (crc_table (Z.of_nat n)) 24) (seq 0 256)).
  assert (NoDup tops) as Hnd.
  { apply (bool_decide_eq_true_1 (NoDup tops)). vm_compute. reflexivity. }
  assert (∀ k, is_byte k → tops !! Z.to_nat k = Some (Z.shiftr (crc_table k) 24)) as Hl.
  { intros k Hk. unfold tops, is_byte in *. rewrite list_lookup_fmap, lookup_seq_lt by lia.
    simpl. rewrite Z2Nat.id by lia. done. }
  intros Hi Hj E. pose proof (Hl i Hi) as Hli. pose proof (Hl j Hj) as Hlj. rewrite E in Hli.
  pose proof (NoDup_lookup _ _ _ _ Hnd Hli Hlj). unfold is_byte in *. lia.
Qed.

Lemma lxor_cancel a b c : Z.lxor a b = Z.lxor a c → b = c.
Proof.
  intros H. apply (f_equal (Z.lxor a)) in H.
  by rewrite <-!Z.lxor_assoc, Z.lxor_nilpotent, !Z.lxor_0_l in H.
Qed.

(** The checksum of a byte string determines its last byte from the state
    before, and the state before from its last byte. *)
Lemma crc_byte_inj c c' v v' :
  0 ≤ c < 2 ^ 32 → 0 ≤ c' < 2 ^ 32 → is_byte v → is_byte v' →
  crc_byte c v = crc_byte c' v' →
  Z.lxor (c mod 256) v = Z.lxor (c' mod 256) v' ∧ c / 256 = c' / 256.
Proof.
  intros Hc Hc' Hv Hv' H. unfold crc_byte in H. rewrite !land_255 in H.
  assert (∀ x w, is_byte w → is_byte (Z.lxor (x mod 256) w)) as Hb.
  { intros x w Hw. pose proof (Z.mod_pos_bound x 256). unfold is_byte in *.
    apply (lxor_bound 8); lia. }
  assert (∀ x, 0 ≤ x < 2 ^ 32 → Z.shiftr (Z.shiftr x 8) 24 = 0) as Hz.
  { intros x Hx. rewrite Z.shiftr_shiftr, Z.shiftr_div_pow2 by lia. apply Z.div_small. lia. }
  assert (Z.lxor (c mod 256) v = Z.lxor (c' mod 256) v') as Hi.
  { apply crc_table_top_inj; auto. apply (f_equal (λ x, Z.shiftr x 24)) in H.
    by rewrite !Z.shiftr_lxor, !Hz, !Z.lxor_0_r in H. }
  split; [done|]. rewrite Hi in H. apply lxor_cancel in H.
  by rewrite !Z.shiftr_div_pow2 in H by lia.
Qed.

Lemma crc_byte_state_inj c c' v :
  0 ≤ c < 2 ^ 32 → 0 ≤ c' < 2 ^ 32 → is_byte v → crc_byte c v = crc_byte c' v → c = c'.
Proof.
  intros Hc Hc' Hv H. destruct (crc_byte_inj c c' v v) as [E1 E2]; auto.
  rewrite !(Z.lxor_comm _ v) in E1. apply lxor_cancel in E1.
  pose proof (Z.div_mod c 256). pose proof (Z.div_mod c' 256). lia.
Qed.

Lemma crc_fold_inj p c c' :
  0 ≤ c < 2 ^ 32 → 0 ≤ c' < 2 ^ 32 → Forall is_byte p →
  foldl crc_byte c p = foldl crc_byte c' p → c = c'.
Proof.
  intros Hc Hc' Hp. revert c c' Hc Hc'. induction Hp as [|v p Hv Hp IH]; intros c c' Hc Hc' H; [done|].
  simpl in H. apply IH in H; [|by apply crc_byte_bound..]. by eapply crc_byte_state_inj.
Qed.

Lemma crc_not_inj a b : crc_not a = crc_not b → a = b.
Proof. unfold crc_not. rewrite !(Z.lxor_comm _ 0xFFFFFFFF). apply lxor_cancel. Qed.

Lemma crc32_one_byte crc p v v' q :
  0 ≤ crc < 2 ^ 32 → Forall is_byte p → Forall is_byte q → is_byte v → is_byte v' →
  crc32_Update crc (p ++ v :: q) = crc32_Update crc (p ++ v' :: q) → v = v'.
Proof.
  intros Hc Hp Hq Hv Hv' H. unfold crc32_Update in H. apply crc_not_inj in H.
  rewrite !foldl_app in H. simpl in H.
  assert (0 ≤ foldl crc_byte (crc_not crc) p < 2 ^ 32) as Hb
    by (by apply crc_fold_bound; [apply crc_not_bound|]).
  set (c := foldl crc_byte (crc_not crc) p) in *.
  apply crc_fold_inj in H; [|by apply crc_byte_bound..|done].
  apply crc_byte_inj in H as [E _]; auto. by apply lxor_cancel in E.
Qed.

(** ** Theorems *)

(** C26. [Append] on a log that holds the records [rs]: success returns the next
    LSN and the file then holds [rs] and the new record; any failure (bad
    operation, oversized payload, short write, write or sync error) whose
    rollback the file system carries out leaves the log exactly as it was. *)
Theorem append_refines faults l rs operation payload l' result :
  LogInv l rs → nextLSN l + 1 < two64 → Forall is_byte payload →
  Append faults l operation payload = (l', result) →
  match result with
  | Ok lsn => lsn = nextLSN l ∧ LogInv l' (rs ++ [mkRecord lsn operation payload])
  | Err _ => rollback_truncates faults = true → rollback_seeks faults = true → l' = l
  end.
Proof. apply append_result. Qed.

(** C27. Atomic append across a crash: if the machine stops after any number
    [k] of the bytes of a new record reached the file, reopening succeeds, the
    caller's state is the replay of exactly the whole records (the new one
    counts when [k] covers it), the torn bytes are cut off, and the log
    continues with the right LSN. *)
Theorem crash_atomic_append {St} (apply : St → WalRecord → res St) replayAfter l rs r k st st' initial :
  LogInv l rs → record_ok r → LSN r = nextLSN l → nextLSN l + 1 < two64 → 0 ≤ initial < two64 →
  mode l = SyncAlways ∨ mode l = SyncAsync →
  let rs' := if (k <? length (frame r))%nat then rs else rs ++ [r] in
  replay_records apply replayAfter st rs' = Ok st' →
  ∃ l', OpenWithOptions apply replayAfter None (Some (content (file l) ++ take k (frame r)))
          (mode l) initial st = (Some (encode_log rs'), Ok (l', st'))
        ∧ LogInv l' rs'.
Proof.
  intros H Hr Hn Hb Hi Hm rs' Hrep. rewrite (li_content _ _ H).
  pose proof (LogInv_next _ _ H) as Hnext. rewrite <-Hn in Hnext.
  pose proof (ro_lsn _ Hr). unfold rs' in *. clear rs'.
  destruct (k <? length (frame r))%nat eqn:Ek.
  - apply Nat.ltb_lt in Ek.
    destruct (open_log apply replayAfter rs (take k (frame r)) (mode l) initial st st')
      as (l' & Ho & HI & _); auto; try apply H; eauto.
    + right. exists r, k. auto.
    + destruct (li_last _ _ H) as [->|E]; [simpl; unfold two64|]; lia.
  - apply Nat.ltb_ge in Ek. rewrite take_ge by done. rewrite <-encode_log_snoc.
    destruct (open_log apply replayAfter (rs ++ [r]) [] (mode l) initial st st')
      as (l' & Ho & HI & _); auto; try (rewrite last_lsn_snoc; lia).
    + apply Forall_app. split; [apply H|]. by apply Forall_singleton.
    + apply contiguous_snoc. split; [apply H|done].
    + by left.
    + rewrite app_nil_r in Ho. eauto.
Qed.

(** C29. Corruption of a payload byte is never accepted: a log in which any one
    payload byte of any record differs from what was written is refused by
    recovery, whatever follows, and no further record is replayed. *)
Theorem corrupted_byte_rejected {St} (apply : St → WalRecord → res St) replayAfter
    rs lsn operation p v v' q rest st st' :
  Forall record_ok rs → record_ok (mkRecord lsn operation (p ++ v :: q)) →
  contiguous 0 (rs ++ [mkRecord lsn operation (p ++ v :: q)]) → is_byte v' → v ≠ v' →
  replay_records apply replayAfter st rs = Ok st' →
  recoverFile apply replayAfter
    (encode_log rs ++ encodeHeader lsn operation (p ++ v :: q) ++ (p ++ v' :: q) ++ rest) st
  = Err (Errorf "WAL corruption: checksum mismatch").
Proof.
  intros Hok Hr Hc Hv' Hne Hrep. apply contiguous_snoc in Hc as [Hc Hl].
  unfold recoverFile.
  set (tail := encodeHeader lsn operation (p ++ v :: q) ++ (p ++ v' :: q) ++ rest).
  replace (S (length (encode_log rs ++ tail)))
    with (length rs + S (length (encode_log rs ++ tail) - length rs))%nat
    by (rewrite length_app; pose proof (length_encode_log rs); lia).
  rewrite recover_frames by done. rewrite Hrep. cbn [res_bind]. subst tail.
  set (r := mkRecord lsn operation (p ++ v :: q)) in *.
  assert (len (p ++ v' :: q) = len (Payload r)) as Hlen by (unfold len; simpl; rewrite !length_app; done).
  rewrite (recover_header apply replayAfter _ r) by done.
  pose proof (ro_bytes _ Hr) as Hb. simpl in Hb. rewrite Forall_app, Forall_cons in Hb.
  destruct Hb as (Hp & Hv & Hq).
  rewrite (proj2 (Z.eqb_neq _ _)); [done|]. unfold record_checksum. intros E. apply Hne. symmetry.
  eapply crc32_one_byte; [| | | | |exact E]; auto.
  apply crc32_bound; [lia|]. apply header_body_valid, operation_byte, Hr.
Qed.

(** After a checkpoint: [Reset] empties the log, and reopening it with the
    checkpoint's LSN continues with that LSN and replays nothing. *)
Theorem reset_reopen {St} (apply : St → WalRecord → res St) replayAfter l rs next l' st :
  LogInv l rs → 0 < next < two64 → mode l = SyncAlways ∨ mode l = SyncAsync →
  Reset None l next = (l', Ok tt) →
  LogInv l' [] ∧ nextLSN l' = next
  ∧ OpenWithOptions apply replayAfter None (Some (content (file l'))) (mode l) next st
    = (Some [], Ok (l', st)).
Proof.
  intros H Hn Hm. unfold Reset. rewrite (proj2 (Z.eqb_neq _ _)) by lia. intros [= <-].
  split; [|split; [done|]].
  - split; simpl; auto.
  - simpl. unfold OpenWithOptions.
    replace (match mode l with OtherSyncMode _ => true | _ => false end) with false
      by (by destruct Hm as [-> | ->]).
    simpl. rewrite (proj2 (Z.eqb_neq next 0)) by lia. done.
Qed.

(** A length field corrupted in the middle of the log is taken for a torn
    tail: the file holds two whole records, one byte of the first header is
    changed, and opening succeeds with an empty log. *)
Theorem corrupted_length_truncates :
  let r1 := mkRecord 1 OperationUpsert [7] in
  let r2 := mkRecord 2 OperationUpsert [8] in
  let bytes := frame r1 ++ frame r2 in
  let damaged := <[8%nat := 40]> bytes in
  bytes !! 8%nat = Some 1
  ∧ fst (OpenWithOptions (λ n _, Ok (n + 1)%nat) 0 None (Some bytes) SyncAlways 1 0%nat) = Some bytes
  ∧ OpenWithOptions (λ n _, Ok (n + 1)%nat) 0 None (Some damaged) SyncAlways 1 0%nat
    = (Some [], Ok (mkLog (mkFile [] 0) SyncAlways 1, 0%nat)).
Proof. vm_compute. repeat split; reflexivity. Qed.

(** ** Witnesses *)

Definition empty_log : Log := mkLog (mkFile [] 0) SyncAlways 1.
Definition sample : WalRecord := mkRecord 1 OperationUpsert [7].
Definition count_records (n : nat) (_ : WalRecord) : res nat := Ok (S n).

Lemma empty_log_inv : LogInv empty_log [].
Proof. split; simpl; auto. unfold two64. lia. Qed.

Lemma sample_ok : record_ok sample.
Proof.
  split; simpl; [reflexivity|done|apply Forall_singleton; unfold is_byte; lia|unfold two64; lia].
Qed.

Lemma append_refines_witness :
  (** the write stops after ten bytes of the header *)
  fst (Append (mkAppendFaults false [mkOutcome 10 true] false true true) empty_log OperationUpsert [7])
  = empty_log
  ∧ LogInv (fst (Append no_faults empty_log OperationUpsert [7])) [sample].
Proof.
  assert (Forall is_byte [7]) as Hp by apply sample_ok.
  split.
  - exact (append_refines (mkAppendFaults false [mkOutcome 10 true] false true true) empty_log []
      OperationUpsert [7] _ (Err (IOError "write")) empty_log_inv eq_refl Hp eq_refl eq_refl eq_refl).
  - exact (proj2 (append_refines no_faults empty_log [] OperationUpsert [7] _ (Ok 1)
      empty_log_inv eq_refl Hp eq_refl)).
Defined.

Lemma crash_atomic_append_witness :
  ∃ l', OpenWithOptions count_records 0 None (Some (content (file empty_log) ++ take 20 (frame sample)))
          SyncAlways 1 0%nat = (Some (encode_log []), Ok (l', 0%nat))
        ∧ LogInv l' [].
Proof.
  apply (crash_atomic_append count_records 0 empty_log [] sample 20 0%nat 0%nat 1);
    [apply empty_log_inv|apply sample_ok|reflexivity|reflexivity|unfold two64; lia|by left|reflexivity].
Defined.

Lemma corrupted_byte_rejected_witness :
  recoverFile count_records 0 (encode_log [] ++ encodeHeader 1 OperationUpsert ([] ++ 7 :: [])
    ++ ([] ++ 9 :: []) ++ []) 0%nat = Err (Errorf "WAL corruption: checksum mismatch").
Proof.
  apply (corrupted_byte_rejected count_records 0 [] 1 OperationUpsert [] 7 9 [] [] 0%nat 0%nat);
    [constructor|apply sample_ok|simpl; auto|unfold is_byte; lia|lia|reflexivity].
Defined.

Lemma reset_reopen_witness :
  OpenWithOptions count_records 0 None (Some []) SyncAlways 5 0%nat
  = (Some [], Ok (mkLog (mkFile [] 0) SyncAlways 5, 0%nat)).
Proof.
  apply (reset_reopen count_records 0 empty_log [] 5 (mkLog (mkFile [] 0) SyncAlways 5) 0%nat);
    [apply empty_log_inv|unfold two64; lia|by left|reflexivity].
Defined.
