(* ===== verification/ClusterBase.v ===== *)
(** * Cluster foundations

    The identifiers, digests, fences and protocol negotiation that the
    cluster packages share: [internal/cluster/identity.go], [view.go],
    [fence.go], [protocol.go] and the string-set helpers of [raft.go] and
    [rebalance.go]. *)
From Stdlib Require Import ZArith Lia Ascii String.
From stdpp Require Import base tactics list gmap strings pretty.
From S2P Require Import Prelude Sha256.
Local Open Scope string_scope.
Local Open Scope Z_scope.

(** ** Node identifiers and digests *)

Definition code (c : ascii) : Z := Z.of_N (N_of_ascii c).

(** [encoding/hex]'s digit table. *)
Definition hex_value (c : ascii) : option Z :=
  let n := code c in
  if (48 <=? n) && (n <=? 57) then Some (n - 48)
  else if (97 <=? n) && (n <=? 102) then Some (n - 87)
  else if (65 <=? n) && (n <=? 70) then Some (n - 55)
  else None.

(** [hex.DecodeString]: two digits per byte; odd lengths and other
    characters are errors. *)
Fixpoint hex_DecodeString (s : string) : option (list Z) :=
  match s with
  | EmptyString => Some []
  | String a (String b rest) =>
      match hex_value a, hex_value b, hex_DecodeString rest with
      | Some x, Some y, Some bytes => Some (x * 16 + y :: bytes)
      | _, _, _ => None
      end
  | String _ EmptyString => None
  end.

(** [strings.ToLower] on ASCII text. *)
Definition lower (c : ascii) : ascii :=
  let n := code c in
  if (65 <=? n) && (n <=? 90) then ascii_of_N (Z.to_N (n + 32)) else c.

Fixpoint strings_ToLower (s : string) : string :=
  match s with
  | EmptyString => EmptyString
  | String c rest => String (lower c) (strings_ToLower rest)
  end.

(** The loop that clears [allZero] at the first non-zero byte. *)
Fixpoint all_zero (bytes : list Z) : bool :=
  match bytes with
  | [] => true
  | b :: rest => if negb (b =? 0) then false else all_zero rest
  end.

Definition ValidNodeID (value : string) : bool :=
  match hex_DecodeString value with
  | None => false
  | Some decoded =>
      if negb (len decoded =? 16) || negb (String.eqb value (strings_ToLower value)) then false
      else negb (all_zero decoded)
  end.

Definition digest_char (c : ascii) : bool :=
  let n := code c in
  if (n <? 48) || (57 <? n) then
    if (n <? 97) || (102 <? n) then false else true
  else true.

Fixpoint digest_chars (s : string) : bool :=
  match s with
  | EmptyString => true
  | String c rest => if digest_char c then digest_chars rest else false
  end.

Definition validDigest (value : string) : bool :=
  if negb (Nat.eqb (String.length value) 64) then false else digest_chars value.

(** ** Placement capacity and views *)

Definition MaxPlacementCapacity : Z := 256.

Definition validatePlacementCapacity (capacity : Z) : res unit :=
  if (capacity <? 1) || (MaxPlacementCapacity <? capacity)
  then Err (Errorf "placement capacity must be between 1 and 256")
  else Ok tt.

Record ViewDigests : Set := mkView {
  Membership : string;
  Catalog : string;
  Placement : string;
  CapacityManifest : string;
}.

Record NodeCapacity : Set := mkNodeCapacity {
  nc_NodeID : string;
  nc_Capacity : Z;
}.

#[global] Instance view_eq_dec : EqDecision ViewDigests.
Proof. solve_decision. Defined.
#[global] Instance node_capacity_eq_dec : EqDecision NodeCapacity.
Proof. solve_decision. Defined.

(** [encoding/json] for [[]NodeCapacity]: a node identifier needs no escapes
    and a capacity is a decimal number. *)
Definition quote : string := String (ascii_of_nat 34) EmptyString.

Definition json_marshal_capacity (c : NodeCapacity) : string :=
  "{" +:+ quote +:+ "node_id" +:+ quote +:+ ":" +:+ quote +:+ nc_NodeID c +:+ quote +:+ ","
  +:+ quote +:+ "capacity" +:+ quote +:+ ":" +:+ pretty (Z.to_N (nc_Capacity c)) +:+ "}".

Definition json_Marshal_capacities (cs : list NodeCapacity) : string :=
  "[" +:+ String.concat "," (json_marshal_capacity <$> cs) +:+ "]".

(** Scanner pieces of the decoder below. *)
Fixpoint strip_prefix (p s : string) : option string :=
  match p, s with
  | EmptyString, _ => Some s
  | String a p', String b s' => if Ascii.eqb a b then strip_prefix p' s' else None
  | String _ _, EmptyString => None
  end.

Fixpoint scan_until (stop : ascii) (s : string) : option (string * string) :=
  match s with
  | EmptyString => None
  | String c s' =>
      if Ascii.eqb c stop then Some (EmptyString, s')
      else match scan_until stop s' with
           | Some (a, r) => Some (String c a, r)
           | None => None
           end
  end.

Definition is_digit (c : ascii) : bool := (48 <=? code c) && (code c <=? 57).

Fixpoint scan_number (acc : Z) (s : string) : Z * string :=
  match s with
  | String c s' => if is_digit c then scan_number (acc * 10 + (code c - 48)) s' else (acc, s)
  | EmptyString => (acc, s)
  end.

Definition scan_capacity (s : string) : option (NodeCapacity * string) :=
  match strip_prefix ("{" +:+ quote +:+ "node_id" +:+ quote +:+ ":" +:+ quote) s with
  | None => None
  | Some s1 =>
      match scan_until (ascii_of_nat 34) s1 with
      | None => None
      | Some (id, s2) =>
          match strip_prefix ("," +:+ quote +:+ "capacity" +:+ quote +:+ ":") s2 with
          | None => None
          | Some s3 =>
              let (n, s4) := scan_number 0 s3 in
              match strip_prefix "}" s4 with
              | None => None
              | Some s5 => Some (mkNodeCapacity id n, s5)
              end
          end
      end
  end.

Fixpoint scan_capacities (fuel : nat) (s : string) : option (list NodeCapacity) :=
  match fuel with
  | O => None
  | S fuel =>
      match scan_capacity s with
      | None => None
      | Some (c, s1) =>
          match strip_prefix "," s1 with
          | Some s2 => match scan_capacities fuel s2 with
                       | Some cs => Some (c :: cs)
                       | None => None
                       end
          | None => if String.eqb s1 "]" then Some [c] else None
          end
      end
  end.

(** [json.Unmarshal] into [[]NodeCapacity], restricted to the compact
    encoding: every other spelling is refused later by the comparison with
    the re-encoding, so for [ParseCapacityManifest] the restriction only
    changes which error is reported.  Each element takes at least one
    character, so the text's length bounds the number of rounds. *)
Definition json_Unmarshal_capacities (s : string) : option (list NodeCapacity) :=
  if String.eqb s "[]" then Some []
  else match strip_prefix "[" s with
       | Some s1 => scan_capacities (String.length s1) s1
       | None => None
       end.

(** The loop over decoded capacities with the previous node identifier. *)
Fixpoint capacities_valid (previous : option string) (cs : list NodeCapacity) : bool :=
  match cs with
  | [] => true
  | item :: rest =>
      if negb (ValidNodeID (nc_NodeID item))
         || negb (is_ok (validatePlacementCapacity (nc_Capacity item)))
         || match previous with Some p => negb (str_ltb p (nc_NodeID item)) | None => false end
      then false
      else capacities_valid (Some (nc_NodeID item)) rest
  end.

Definition ParseCapacityManifest (manifest : string) : res (list NodeCapacity) :=
  if String.eqb manifest "" then Ok []
  else if String.eqb manifest "null" then Ok []
  else
    match json_Unmarshal_capacities manifest with
    | None => Err (Errorf "decode capacity manifest")
    | Some capacities =>
        if negb (capacities_valid None capacities) then Err (Errorf "invalid capacity manifest")
        else if negb (String.eqb (json_Marshal_capacities capacities) manifest)
        then Err (Errorf "capacity manifest is not canonical")
        else Ok capacities
    end.

Definition validView (view : ViewDigests) : bool :=
  if negb (validDigest (Membership view)) || negb (validDigest (Catalog view))
     || negb (validDigest (Placement view)) then false
  else is_ok (ParseCapacityManifest (CapacityManifest view)).

(** ** Encoded values

    [encoding/json] for the values the cluster packages marshal, and the
    limit their readers put on a stored file. *)
Module EncodeJson.
(** [fmt.Sprintf("%d", n)] of an unsigned number. *)
Definition decimal (n : Z) : string := pretty (Z.to_N n).

Definition quoted (s : string) : string := quote +:+ s +:+ quote.

(** [encoding/json] string escapes.  Bytes from 0x80 on pass through, which is
    what the encoder does with valid UTF-8 outside U+2028 and U+2029. *)
Definition json_escape (c : ascii) : string :=
  let n := code c in
  let backslash := String (ascii_of_nat 92) in
  if n =? 34 then backslash quote
  else if n =? 92 then backslash (String c EmptyString)
  else if n =? 8 then backslash "b"
  else if n =? 9 then backslash "t"
  else if n =? 10 then backslash "n"
  else if n =? 12 then backslash "f"
  else if n =? 13 then backslash "r"
  else if (n <? 32) || (n =? 38) || (n =? 60) || (n =? 62)
  then backslash ("u00" +:+ String (hex_digit (n / 16)) (String (hex_digit (n mod 16)) EmptyString))
  else String c EmptyString.

Fixpoint json_escapes (s : string) : string :=
  match s with
  | EmptyString => EmptyString
  | String c s => json_escape c +:+ json_escapes s
  end.

Definition json_string (s : string) : string := quoted (json_escapes s).
Definition json_field (name value : string) : string := quoted name +:+ ":" +:+ value.
Definition json_object (fields : list string) : string := "{" +:+ String.concat "," fields +:+ "}".
Definition json_array (items : list string) : string := "[" +:+ String.concat "," items +:+ "]".
(** A nil slice is [null]. *)
Definition json_strings (l : list string) : string :=
  match l with [] => "null" | _ => json_array (json_string <$> l) end.

(** A field tagged [omitempty]. *)
Definition json_string_omitempty (name value : string) : list string :=
  if String.eqb value "" then [] else [json_field name (json_string value)].
Definition json_number_omitempty (name : string) (n : Z) : list string :=
  if n =? 0 then [] else [json_field name (decimal n)].
Definition json_strings_omitempty (name : string) (l : list string) : list string :=
  match l with [] => [] | _ => [json_field name (json_array (json_string <$> l))] end.

(** [io.LimitReader(file, 8<<20)] under the decoder of a stored state, and the
    check that the state is all the file holds.  The file is [payload] and a
    newline, which the limit may cut off; a payload that is cut itself ends
    in the middle of the value and is refused. *)
Definition stateFileLimit : Z := 8 * 2 ^ 20.
Definition within_limit (payload : string) : bool :=
  Z.of_nat (String.length payload) <=? stateFileLimit.
Definition decode_limited {A} (payload : string) (stored : A) : res A :=
  if within_limit payload then Ok stored else Err (Errorf "decode state: unexpected EOF").
End EncodeJson.

(** ** String sets *)

Definition stringSet (values : list string) : gset string := list_to_set values.

(** [containsString]: binary search in a sorted slice. *)
Definition containsString (values : list string) (wanted : string) : bool :=
  let index := sort_Search (length values)
    (λ i, match values !! i with Some v => negb (str_ltb v wanted) | None => false end) in
  (index <? length values)%nat
  && match values !! index with Some v => String.eqb v wanted | None => false end.

Fixpoint equal_elements (l r : list string) : bool :=
  match l, r with
  | a :: l', b :: r' => if negb (String.eqb a b) then false else equal_elements l' r'
  | _, _ => true
  end.

Definition equalStrings (l r : list string) : bool :=
  if negb (len l =? len r) then false else equal_elements l r.

(** ** Request fencing *)

Inductive FenceErrorKind : Set :=
  | FenceClusterMismatch | FenceWrongNode | FenceStaleEpoch | FenceFutureEpoch.

Record FenceError : Set := mkFenceError {
  Kind : FenceErrorKind;
  Expected : string;
  Received : string;
}.

(** [fmt.Sprint] of a [uint64]. *)
Definition fmt_Sprint (n : Z) : string := pretty (Z.to_N n).

(** [None] is the nil error. *)
Definition ValidateFence (clusterID nodeID : string) (epoch : Z)
    (requestClusterID targetNodeID : string) (requestEpoch : Z) : option FenceError :=
  if negb (String.eqb requestClusterID clusterID)
  then Some (mkFenceError FenceClusterMismatch clusterID requestClusterID)
  else if negb (String.eqb targetNodeID nodeID)
  then Some (mkFenceError FenceWrongNode nodeID targetNodeID)
  else if requestEpoch <? epoch
  then Some (mkFenceError FenceStaleEpoch (fmt_Sprint epoch) (fmt_Sprint requestEpoch))
  else if epoch <? requestEpoch
  then Some (mkFenceError FenceFutureEpoch (fmt_Sprint epoch) (fmt_Sprint requestEpoch))
  else None.

(** ** Protocol negotiation *)

Definition MinClusterProtocolVersion : Z := 1.
Definition ClusterProtocolVersion : Z := 2.

Definition NegotiateProtocol (localMin localMax remoteMin remoteMax : Z) : res Z :=
  if (localMin =? 0) || (remoteMin =? 0) || (localMax <? localMin) || (remoteMax <? remoteMin)
  then Err (Errorf "invalid cluster protocol range")
  else
    let minimum := Z.max localMin remoteMin in
    let maximum := Z.min localMax remoteMax in
    if maximum <? minimum then Err (Errorf "cluster protocol ranges do not overlap")
    else Ok maximum.

(** ** Lemmas *)

Lemma string_length_app (s t : string) : String.length (s +:+ t) = (String.length s + String.length t)%nat.
Proof. induction s as [|c s IH]; [done|]. simpl. by rewrite IH. Qed.

Lemma equal_elements_eq l r :
  length l = length r → equal_elements l r = true ↔ l = r.
Proof.
  revert r. induction l as [|a l IH]; intros [|b r]; simpl; try easy. intros [= E].
  destruct (String.eqb_spec a b) as [->|Hne]; simpl; [rewrite IH by done|]; split; congruence.
Qed.

Lemma equalStrings_eq l r : equalStrings l r = true ↔ l = r.
Proof.
  unfold equalStrings. destruct (Z.eqb_spec (len l) (len r)) as [E|E]; simpl.
  - apply equal_elements_eq. unfold len in E. lia.
  - split; [done|]. by intros ->.
Qed.

Lemma equalStrings_refl l : equalStrings l l = true.
Proof. by apply equalStrings_eq. Qed.

Lemma equalStrings_neq l r : equalStrings l r = false ↔ l ≠ r.
Proof. rewrite <-not_true_iff_false, equalStrings_eq. done. Qed.

(** On a sorted slice the binary search decides membership. *)
Lemma containsString_In values wanted :
  ordered str_ltb values → containsString values wanted = true ↔ wanted ∈ values.
Proof.
  intros Hs. unfold containsString.
  set (f := λ i, match values !! i with Some v => negb (str_ltb v wanted) | None => false end).
  assert (monotone_to (length values) f) as Hm.
  { intros i j [Hij Hj] Hi. unfold f in *.
    destruct (values !! i) as [vi|] eqn:Ei; [|done].
    destruct (values !! j) as [vj|] eqn:Ej; [|by apply lookup_ge_None in Ej; lia].
    apply negb_true_iff in Hi. apply negb_true_iff.
    destruct (decide (i = j)) as [->|]; [congruence|].
    eapply wltb_neg_trans; [|done].
    apply (ordered_lookup str_ltb values i j); auto; lia. }
  pose proof (sort_Search_spec _ f Hm) as (Hr & Hlo & Hhi). cbv zeta in Hr, Hlo, Hhi.
  set (r := sort_Search (length values) f) in *. clearbody r.
  rewrite andb_true_iff, Nat.ltb_lt. split.
  - intros [Hlt Heq]. destruct (values !! r) as [v|] eqn:Ev; [|done].
    apply String.eqb_eq in Heq as ->. apply list_elem_of_lookup. eauto.
  - intros [k Hk]%list_elem_of_lookup.
    assert (f k = true) as Hfk.
    { unfold f. rewrite Hk. by rewrite ltb_irrefl. }
    assert (r ≤ k)%nat as Hrk.
    { destruct (decide (r ≤ k)%nat); [done|]. rewrite (Hlo k) in Hfk; [done|lia]. }
    pose proof (lookup_lt_Some _ _ _ Hk) as Hkl.
    split; [lia|].
    destruct (values !! r) as [v|] eqn:Ev; [|by apply lookup_ge_None in Ev; lia].
    apply String.eqb_eq. apply ltb_total.
    + assert (f r = true) as Hfr by (apply Hhi; lia).
      unfold f in Hfr. rewrite Ev in Hfr. by apply negb_true_iff in Hfr.
    + destruct (decide (r = k)) as [->|].
      { assert (v = wanted) as -> by congruence. apply ltb_irrefl. }
      apply (ordered_lookup str_ltb values r k); auto; lia.
Qed.
