(* ===== verification/RaftStore.v ===== *)
(** * The durable metadata Raft store

    [internal/cluster/raft.go]: the persistent Raft state of the metadata
    group, its handlers, the committed-prefix interpreter
    [applyThroughLocked], snapshots, and the validation an opened state must
    pass.  Handlers run under the store's mutex, so each is one atomic step
    on [RaftStore].  Handlers that persist take the first failing file
    operation of [persistLocked], or [None]. *)
From Stdlib Require Import ZArith Lia Ascii String.
From stdpp Require Import base tactics list gmap strings.
From S2P Require Import Prelude ClusterBase.
Local Open Scope string_scope.
Local Open Scope Z_scope.
Import EncodeJson.

(** ** Data *)

Inductive CommandType : Set :=
  | advance_epoch
  | begin_joint_consensus
  | finalize_joint_consensus
  | other_command (name : string).

Record MetadataCommand : Set := mkCommand {
  Type_ : CommandType;
  Epoch : Z;
  MembershipDigest : string;
  CatalogDigest : string;
  PlacementDigest : string;
  cmd_CapacityManifest : string;
  OldVoters : list string;
  NewVoters : list string;
}.

Record RaftEntry : Set := mkEntry { Term : Z; Command : MetadataCommand }.

Record raftPersistentState : Set := mkState {
  Format : Z;
  CurrentTerm : Z;
  VotedFor : string;
  CommitIndex : Z;
  AppliedEpoch : Z;
  SnapshotIndex : Z;
  SnapshotTerm : Z;
  SnapshotEpoch : Z;
  SnapshotView : option ViewDigests;
  Voters : list string;
  JointOldVoters : list string;
  JointNewVoters : list string;
  CommittedView : option ViewDigests;
  Entries : list RaftEntry;
}.

Record RequestVoteRequest : Set := mkVoteRequest {
  rv_Term : Z; rv_CandidateID : string; rv_LastLogIndex : Z; rv_LastLogTerm : Z }.
Record RequestVoteResponse : Set := mkVoteResponse {
  rvr_Term : Z; rvr_VoteGranted : bool }.
Record AppendEntriesRequest : Set := mkAppendRequest {
  ae_Term : Z; ae_LeaderID : string; ae_PrevLogIndex : Z; ae_PrevLogTerm : Z;
  ae_Entries : list RaftEntry; ae_LeaderCommit : Z }.
Record AppendEntriesResponse : Set := mkAppendResponse {
  aer_Term : Z; aer_Success : bool; aer_MatchIndex : Z }.
Record RaftSnapshot : Set := mkSnapshot {
  LastIncludedIndex : Z; LastIncludedTerm : Z; snap_AppliedEpoch : Z;
  snap_Voters : list string; snap_CommittedView : option ViewDigests }.
Record InstallSnapshotRequest : Set := mkInstallRequest {
  is_Term : Z; is_LeaderID : string; is_Snapshot : RaftSnapshot }.
Record InstallSnapshotResponse : Set := mkInstallResponse {
  isr_Term : Z; isr_Success : bool; isr_MatchIndex : Z }.

(** [disk] is the content of [CLUSTER_RAFT.json], absent before the first
    successful rename. *)
Record RaftStore : Set := mkStore {
  nodeID : string;
  state : raftPersistentState;
  disk : option raftPersistentState;
}.

#[global] Instance command_type_eq_dec : EqDecision CommandType.
Proof. solve_decision. Defined.
#[global] Instance command_eq_dec : EqDecision MetadataCommand.
Proof. solve_decision. Defined.
#[global] Instance entry_eq_dec : EqDecision RaftEntry.
Proof. solve_decision. Defined.
#[global] Instance raft_state_eq_dec : EqDecision raftPersistentState.
Proof. solve_decision. Defined.

(** Field assignments of the source. *)
Definition set_term_vote (s : raftPersistentState) (term : Z) (vote : string) :=
  mkState (Format s) term vote (CommitIndex s) (AppliedEpoch s) (SnapshotIndex s)
    (SnapshotTerm s) (SnapshotEpoch s) (SnapshotView s) (Voters s) (JointOldVoters s)
    (JointNewVoters s) (CommittedView s) (Entries s).
Definition set_voters (s : raftPersistentState) (voters : list string) :=
  mkState (Format s) (CurrentTerm s) (VotedFor s) (CommitIndex s) (AppliedEpoch s) (SnapshotIndex s)
    (SnapshotTerm s) (SnapshotEpoch s) (SnapshotView s) voters (JointOldVoters s)
    (JointNewVoters s) (CommittedView s) (Entries s).
Definition set_entries (s : raftPersistentState) (entries : list RaftEntry) :=
  mkState (Format s) (CurrentTerm s) (VotedFor s) (CommitIndex s) (AppliedEpoch s) (SnapshotIndex s)
    (SnapshotTerm s) (SnapshotEpoch s) (SnapshotView s) (Voters s) (JointOldVoters s)
    (JointNewVoters s) (CommittedView s) entries.
Definition set_snapshot_epoch (s : raftPersistentState) (epoch : Z) :=
  mkState (Format s) (CurrentTerm s) (VotedFor s) (CommitIndex s) (AppliedEpoch s) (SnapshotIndex s)
    (SnapshotTerm s) epoch (SnapshotView s) (Voters s) (JointOldVoters s)
    (JointNewVoters s) (CommittedView s) (Entries s).
Definition set_committed_view (s : raftPersistentState) (view : option ViewDigests) :=
  mkState (Format s) (CurrentTerm s) (VotedFor s) (CommitIndex s) (AppliedEpoch s) (SnapshotIndex s)
    (SnapshotTerm s) (SnapshotEpoch s) (SnapshotView s) (Voters s) (JointOldVoters s)
    (JointNewVoters s) view (Entries s).
Definition set_state (r : RaftStore) (s : raftPersistentState) : RaftStore :=
  mkStore (nodeID r) s (disk r).

(** ** Persistence *)

(** The file operations of [persistLocked], in order. *)
Inductive PersistStep : Set :=
  | StepMarshal | StepCreateTemp | StepChmod | StepWrite | StepSync | StepClose
  | StepRename | StepOpenDirectory | StepSyncDirectory.

(** The temporary file replaces the state file at [StepRename]; a failure
    before it leaves the old file, a failure after it reports an error for a
    file that is already replaced. *)
Definition persistLocked (fault : option PersistStep) (r : RaftStore) : RaftStore * option error :=
  let renamed := mkStore (nodeID r) (state r) (Some (state r)) in
  match fault with
  | None => (renamed, None)
  | Some StepOpenDirectory => (renamed, Some (IOError "open directory"))
  | Some StepSyncDirectory => (renamed, Some (IOError "sync directory"))
  | Some StepMarshal => (r, Some (IOError "marshal"))
  | Some StepCreateTemp => (r, Some (IOError "create temporary"))
  | Some StepChmod => (r, Some (IOError "chmod"))
  | Some StepWrite => (r, Some (IOError "write"))
  | Some StepSync => (r, Some (IOError "sync"))
  | Some StepClose => (r, Some (IOError "close"))
  | Some StepRename => (r, Some (IOError "rename"))
  end.

(** [if err := r.persistLocked(); err != nil { return zero, err }; return v, nil] *)
Definition persist_then {A} (fault : option PersistStep) (r : RaftStore) (v : A) : RaftStore * res A :=
  let (r', e) := persistLocked fault r in
  (r', match e with Some e => Err e | None => Ok v end).

(** ** Voter sets *)

Fixpoint check_voters (previous : option string) (voters : list string) : res unit :=
  match voters with
  | [] => Ok tt
  | voter :: rest =>
      if negb (ValidNodeID voter) then Err (Errorf "invalid Raft voter ID")
      else if match previous with Some p => String.eqb voter p | None => false end
      then Err (Errorf "duplicate Raft voter ID")
      else check_voters (Some voter) rest
  end.

Definition normalizeVoterSet (voters : list string) : res (list string) :=
  if len voters =? 0 then Err (Errorf "Raft voter set must not be empty")
  else
    let normalized := sort_slice str_ltb voters in
    let! _ := check_voters None normalized in Ok normalized.

Definition normalizeVoters (voters : list string) (localNodeID : string) : res (list string) :=
  let! normalized := normalizeVoterSet voters in
  if negb (containsString normalized localNodeID)
  then Err (Errorf "Raft voter set excludes local node")
  else Ok normalized.

Definition activeVotersLocked (s : raftPersistentState) : list string :=
  if len (JointOldVoters s) =? 0 then Voters s
  else
    let union := stringSet (JointOldVoters s) ∪ stringSet (JointNewVoters s) in
    sort_slice str_ltb (elements union).

Definition voterMajority (voters : list string) (acknowledgements : gset string) : bool :=
  let count := len (filter (λ v, v ∈ acknowledgements) voters) in
  (0 <? len voters) && (len voters / 2 + 1 <=? count).

Definition voterSetDifference (oldVoters newVoters : list string) : Z :=
  let oldSet := stringSet oldVoters in
  let newSet := stringSet newVoters in
  Z.of_nat (size (oldSet ∖ newSet)) + Z.of_nat (size (newSet ∖ oldSet)).

(** ** Commands and entries *)

Definition commandView (c : MetadataCommand) : ViewDigests :=
  mkView (MembershipDigest c) (CatalogDigest c) (PlacementDigest c) (cmd_CapacityManifest c).

(** [set, err := normalizeVoterSet(v); err == nil && equalStrings(set, v)] *)
Definition canonicalVoters (voters : list string) : bool :=
  match normalizeVoterSet voters with
  | Ok normalized => equalStrings normalized voters
  | Err _ => false
  end.

Definition validateRaftEntry (entry : RaftEntry) : res unit :=
  let command := Command entry in
  if Term entry =? 0 then Err (Errorf "invalid metadata log entry")
  else match Type_ command with
  | advance_epoch =>
      if (Epoch command <? 2) || negb (len (OldVoters command) =? 0)
         || negb (len (NewVoters command) =? 0) || negb (validView (commandView command))
      then Err (Errorf "invalid metadata log entry") else Ok tt
  | begin_joint_consensus =>
      if (Epoch command =? 0) || negb (canonicalVoters (OldVoters command))
         || negb (canonicalVoters (NewVoters command))
         || negb (voterSetDifference (OldVoters command) (NewVoters command) =? 1)
      then Err (Errorf "invalid joint-consensus begin entry") else Ok tt
  | finalize_joint_consensus =>
      if (Epoch command <? 2) || negb (canonicalVoters (OldVoters command))
         || negb (canonicalVoters (NewVoters command))
         || negb (voterSetDifference (OldVoters command) (NewVoters command) =? 1)
         || negb (validView (commandView command))
      then Err (Errorf "invalid joint-consensus finalize entry") else Ok tt
  | other_command _ => Err (Errorf "invalid metadata log entry")
  end.

Definition metadataCommandsEqual (l r : MetadataCommand) : bool :=
  bool_decide (Type_ l = Type_ r) && (Epoch l =? Epoch r)
  && String.eqb (MembershipDigest l) (MembershipDigest r)
  && String.eqb (CatalogDigest l) (CatalogDigest r)
  && String.eqb (PlacementDigest l) (PlacementDigest r)
  && String.eqb (cmd_CapacityManifest l) (cmd_CapacityManifest r)
  && equalStrings (OldVoters l) (OldVoters r) && equalStrings (NewVoters l) (NewVoters r).

(** ** The log *)

Definition lastLogLocked (s : raftPersistentState) : Z * Z :=
  match last (Entries s) with
  | None => (SnapshotIndex s, SnapshotTerm s)
  | Some entry => (u64 (SnapshotIndex s + len (Entries s)), Term entry)
  end.

Definition termAtLocked (s : raftPersistentState) (index : Z) : res Z :=
  if index =? SnapshotIndex s then Ok (SnapshotTerm s)
  else if (index <? SnapshotIndex s) || (u64 (SnapshotIndex s + len (Entries s)) <? index)
  then Err (Errorf "Raft log index is outside retained range")
  else match index_at (Entries s) (index - SnapshotIndex s - 1) with
       | Some entry => Ok (Term entry)
       | None => Err (Panic "termAtLocked")
       end.

(** The local variables of [applyThroughLocked] and of the replay loop. *)
Record Applied : Set := mkApplied {
  ap_epoch : Z;
  ap_view : option ViewDigests;
  ap_voters : list string;
  ap_jointOld : list string;
  ap_jointNew : list string;
}.

(** One round of the [switch] in [applyThroughLocked]. *)
Definition applyCommand (a : Applied) (command : MetadataCommand) : res Applied :=
  match Type_ command with
  | advance_epoch =>
      if negb (len (ap_jointOld a) =? 0) || (u64 (ap_epoch a + 1) <? Epoch command)
         || (Epoch command <? ap_epoch a)
      then Err (Errorf "metadata epoch must advance exactly once")
      else if Epoch command =? u64 (ap_epoch a + 1)
      then Ok (mkApplied (Epoch command) (Some (commandView command)) (ap_voters a)
                 (ap_jointOld a) (ap_jointNew a))
      else if negb (bool_decide (ap_view a = Some (commandView command)))
      then Err (Errorf "duplicate metadata epoch has conflicting view digests")
      else Ok a
  | begin_joint_consensus =>
      let voters := if len (ap_voters a) =? 0 then OldVoters command else ap_voters a in
      if negb (Epoch command =? ap_epoch a) || negb (len (ap_jointOld a) =? 0)
         || negb (equalStrings (OldVoters command) voters)
      then Err (Errorf "invalid joint-consensus begin")
      else Ok (mkApplied (ap_epoch a) (ap_view a) voters (OldVoters command) (NewVoters command))
  | finalize_joint_consensus =>
      if negb (Epoch command =? u64 (ap_epoch a + 1))
         || negb (equalStrings (OldVoters command) (ap_jointOld a))
         || negb (equalStrings (NewVoters command) (ap_jointNew a))
      then Err (Errorf "invalid joint-consensus finalize")
      else Ok (mkApplied (Epoch command) (Some (commandView command)) (NewVoters command) [] [])
  | other_command _ => Err (Errorf "unknown metadata command")
  end.

(** [for commitIndex < target]: [fuel] rounds starting at [commitIndex]. *)
Fixpoint apply_loop (s : raftPersistentState) (fuel : nat) (commitIndex : Z) (a : Applied)
    : res (Z * Applied) :=
  match fuel with
  | O => Ok (commitIndex, a)
  | S fuel =>
      match index_at (Entries s) (commitIndex - SnapshotIndex s) with
      | None => Err (Panic "applyThroughLocked")
      | Some entry =>
          let! a' := applyCommand a (Command entry) in
          apply_loop s fuel (commitIndex + 1) a'
      end
  end.

Definition applied_of (s : raftPersistentState) : Applied :=
  mkApplied (AppliedEpoch s) (CommittedView s) (Voters s) (JointOldVoters s) (JointNewVoters s).

(** The loop runs [target - commitIndex] rounds: it increments by one. *)
Definition applyThroughLocked (s : raftPersistentState) (target : Z) : res raftPersistentState :=
  let! '(commitIndex, a) :=
    apply_loop s (Z.to_nat (target - CommitIndex s)) (CommitIndex s) (applied_of s) in
  Ok (mkState (Format s) (CurrentTerm s) (VotedFor s) commitIndex (ap_epoch a) (SnapshotIndex s)
        (SnapshotTerm s) (SnapshotEpoch s) (SnapshotView s) (ap_voters a) (ap_jointOld a)
        (ap_jointNew a) (ap_view a) (Entries s)).

(** ** Validation of an opened state *)

(** One round of the [switch] in [validateLocked]; an unknown type falls
    through it (such an entry is refused by [validateRaftEntry] first). *)
Definition replayCommand (a : Applied) (command : MetadataCommand) : res Applied :=
  match Type_ command with
  | advance_epoch =>
      if negb (len (ap_jointOld a) =? 0) || (u64 (ap_epoch a + 1) <? Epoch command)
         || (Epoch command <? ap_epoch a)
      then Err (Errorf "invalid committed metadata epoch sequence")
      else if Epoch command =? u64 (ap_epoch a + 1)
      then Ok (mkApplied (Epoch command) (Some (commandView command)) (ap_voters a)
                 (ap_jointOld a) (ap_jointNew a))
      else if negb (bool_decide (ap_view a = Some (commandView command)))
      then Err (Errorf "conflicting committed metadata view")
      else Ok a
  | begin_joint_consensus =>
      if negb (Epoch command =? ap_epoch a) || negb (len (ap_jointOld a) =? 0)
      then Err (Errorf "invalid committed joint-consensus begin")
      else Ok (mkApplied (ap_epoch a) (ap_view a) (OldVoters command) (OldVoters command)
                 (NewVoters command))
  | finalize_joint_consensus =>
      if negb (Epoch command =? u64 (ap_epoch a + 1))
         || negb (equalStrings (OldVoters command) (ap_jointOld a))
         || negb (equalStrings (NewVoters command) (ap_jointNew a))
      then Err (Errorf "invalid committed joint-consensus finalize")
      else Ok (mkApplied (Epoch command) (Some (commandView command)) (NewVoters command) [] [])
  | other_command _ => Ok a
  end.

(** [for index, entry := range r.state.Entries] *)
Fixpoint replay_loop (s : raftPersistentState) (index : Z) (entries : list RaftEntry) (a : Applied)
    : res Applied :=
  match entries with
  | [] => Ok a
  | entry :: rest =>
      let! _ := validateRaftEntry entry in
      let absoluteIndex := u64 (SnapshotIndex s + index + 1) in
      let! a' := (if absoluteIndex <=? CommitIndex s then replayCommand a (Command entry) else Ok a) in
      replay_loop s (index + 1) rest a'
  end.

Definition view_opt_valid (v : option ViewDigests) : bool :=
  match v with Some v => validView v | None => true end.

Definition is_Some_b {A} (o : option A) : bool := match o with Some _ => true | None => false end.

Definition validateLocked (bootstrapEpoch : Z) (s0 : raftPersistentState) : res raftPersistentState :=
  let s := if (SnapshotEpoch s0 =? 0) && (SnapshotIndex s0 =? 0)
           then set_snapshot_epoch s0 bootstrapEpoch else s0 in
  let lastIndex := fst (lastLogLocked s) in
  if negb (Format s =? 1) || (AppliedEpoch s <? bootstrapEpoch) || (CommitIndex s <? SnapshotIndex s)
     || (lastIndex <? CommitIndex s) || (SnapshotEpoch s <? bootstrapEpoch)
  then Err (Errorf "invalid Raft state")
  else if (SnapshotIndex s =? 0) && negb (SnapshotTerm s =? 0)
          || (0 <? SnapshotIndex s) && (SnapshotTerm s =? 0)
  then Err (Errorf "invalid Raft snapshot boundary")
  else if (SnapshotEpoch s =? bootstrapEpoch) && is_Some_b (SnapshotView s)
          || (bootstrapEpoch <? SnapshotEpoch s) && negb (is_Some_b (SnapshotView s))
  then Err (Errorf "invalid Raft snapshot metadata")
  else if negb (view_opt_valid (SnapshotView s))
  then Err (Errorf "invalid Raft snapshot view digests")
  else if negb (len (Voters s) =? 0) && negb (canonicalVoters (Voters s))
  then Err (Errorf "invalid persisted Raft voters")
  else if (negb (len (JointOldVoters s) =? 0) || negb (len (JointNewVoters s) =? 0))
          && (negb (canonicalVoters (JointOldVoters s)) || negb (canonicalVoters (JointNewVoters s))
              || negb (equalStrings (Voters s) (JointOldVoters s)))
  then Err (Errorf "invalid persisted joint voter configuration")
  else
    let! a := replay_loop s 0 (Entries s)
                (mkApplied (SnapshotEpoch s) (SnapshotView s) [] [] []) in
    if negb (ap_epoch a =? AppliedEpoch s)
    then Err (Errorf "applied metadata epoch does not match committed log")
    else if negb (len (ap_voters a) =? 0) && negb (equalStrings (ap_voters a) (Voters s))
            || negb (equalStrings (ap_jointOld a) (JointOldVoters s))
            || negb (equalStrings (ap_jointNew a) (JointNewVoters s))
    then Err (Errorf "persisted voter configuration does not match committed log")
    else match ap_view a, CommittedView s with
         | None, Some _ => Err (Errorf "unexpected committed metadata view")
         | None, None => Ok s
         | Some v, None => Ok (set_committed_view s (Some v))
         | Some v, Some w => if negb (bool_decide (v = w))
                             then Err (Errorf "committed metadata view does not match log")
                             else Ok s
         end.

(** ** The state file

    What [json.Marshal] writes of a state, with the fields and tags of the
    source.  An empty [Entries] is written [[]]; a nil slice, which the model
    does not tell from an empty one, is written [null]. *)
Definition json_view_digests (v : ViewDigests) : string :=
  json_object ([json_field "membership_digest" (json_string (Membership v));
                json_field "catalog_digest" (json_string (Catalog v));
                json_field "placement_digest" (json_string (Placement v))]
    ++ json_string_omitempty "capacity_manifest" (CapacityManifest v))%list.

Definition json_view_omitempty (name : string) (view : option ViewDigests) : list string :=
  match view with None => [] | Some v => [json_field name (json_view_digests v)] end.

Definition command_type_name (t : CommandType) : string :=
  match t with
  | advance_epoch => "advance_epoch"
  | begin_joint_consensus => "begin_joint_consensus"
  | finalize_joint_consensus => "finalize_joint_consensus"
  | other_command name => name
  end.

Definition json_command (c : MetadataCommand) : string :=
  json_object ([json_field "type" (json_string (command_type_name (Type_ c)));
                json_field "epoch" (decimal (Epoch c));
                json_field "membership_digest" (json_string (MembershipDigest c));
                json_field "catalog_digest" (json_string (CatalogDigest c));
                json_field "placement_digest" (json_string (PlacementDigest c))]
    ++ json_string_omitempty "capacity_manifest" (cmd_CapacityManifest c)
    ++ json_strings_omitempty "old_voters" (OldVoters c)
    ++ json_strings_omitempty "new_voters" (NewVoters c))%list.

Definition json_entry (e : RaftEntry) : string :=
  json_object [json_field "term" (decimal (Term e)); json_field "command" (json_command (Command e))].

Definition json_raft_state (s : raftPersistentState) : string :=
  json_object ([json_field "format" (decimal (Format s));
                json_field "current_term" (decimal (CurrentTerm s))]
    ++ json_string_omitempty "voted_for" (VotedFor s)
    ++ [json_field "commit_index" (decimal (CommitIndex s));
        json_field "applied_epoch" (decimal (AppliedEpoch s))]
    ++ json_number_omitempty "snapshot_index" (SnapshotIndex s)
    ++ json_number_omitempty "snapshot_term" (SnapshotTerm s)
    ++ json_number_omitempty "snapshot_epoch" (SnapshotEpoch s)
    ++ json_view_omitempty "snapshot_view" (SnapshotView s)
    ++ json_strings_omitempty "voters" (Voters s)
    ++ json_strings_omitempty "joint_old_voters" (JointOldVoters s)
    ++ json_strings_omitempty "joint_new_voters" (JointNewVoters s)
    ++ json_view_omitempty "committed_view" (CommittedView s)
    ++ [json_field "entries" (json_array (json_entry <$> Entries s))])%list.

(** [file] is the stored state, [None] when the file does not exist.  A
    payload within the read limit decodes to the value that was encoded. *)
Definition OpenRaftStore (fault : option PersistStep) (file : option raftPersistentState)
    (nodeID : string) (bootstrapEpoch : Z) : res RaftStore :=
  if negb (ValidNodeID nodeID) || (bootstrapEpoch =? 0)
  then Err (Errorf "valid node ID and bootstrap epoch are required")
  else match file with
  | None =>
      let s := mkState 1 0 "" 0 bootstrapEpoch 0 0 bootstrapEpoch None [] [] [] None [] in
      let (r, e) := persistLocked fault (mkStore nodeID s None) in
      match e with Some e => Err e | None => Ok r end
  | Some stored =>
      let! decoded := decode_limited (json_raft_state stored) stored in
      let! s := validateLocked bootstrapEpoch decoded in
      Ok (mkStore nodeID s (Some stored))
  end.

(** ** Queries *)

Definition State (r : RaftStore) : Z * Z * Z :=
  (CurrentTerm (state r), CommitIndex (state r), AppliedEpoch (state r)).

Definition LogSnapshot (r : RaftStore) : Z * Z * Z * Z * list RaftEntry :=
  let (lastIndex, lastTerm) := lastLogLocked (state r) in
  (CurrentTerm (state r), CommitIndex (state r), lastIndex, lastTerm, Entries (state r)).

Definition LogBatch (r : RaftStore) (nextIndex limit : Z) : res (Z * Z * Z * Z * list RaftEntry) :=
  let s := state r in
  let lastIndex := fst (lastLogLocked s) in
  if (nextIndex <=? SnapshotIndex s) || (u64 (lastIndex + 1) <? nextIndex) || (limit <? 1) || (1024 <? limit)
  then Err (Errorf "invalid Raft log batch request")
  else
    let prevIndex := nextIndex - 1 in
    let! prevTerm := termAtLocked s prevIndex in
    let start := nextIndex - SnapshotIndex s - 1 in
    let end_ := Z.min (len (Entries s)) (start + limit) in
    Ok (CurrentTerm s, CommitIndex s, prevIndex, prevTerm,
        slice_to (slice_from (Entries s) start) (end_ - start)).

Definition VoterConfiguration (r : RaftStore) : list string * list string * list string :=
  (Voters (state r), JointOldVoters (state r), JointNewVoters (state r)).

Definition ActiveVoters (r : RaftStore) : list string := activeVotersLocked (state r).

Definition HasVoterQuorum (r : RaftStore) (acknowledgements : list string) : bool :=
  let ackSet := stringSet acknowledgements in
  if negb (len (JointOldVoters (state r)) =? 0)
  then voterMajority (JointOldVoters (state r)) ackSet && voterMajority (JointNewVoters (state r)) ackSet
  else voterMajority (Voters (state r)) ackSet.

Definition snapshotLocked (s : raftPersistentState) : RaftSnapshot :=
  mkSnapshot (SnapshotIndex s) (SnapshotTerm s) (SnapshotEpoch s) (Voters s) (SnapshotView s).

Definition Snapshot (r : RaftStore) : option RaftSnapshot :=
  if SnapshotIndex (state r) =? 0 then None else Some (snapshotLocked (state r)).

(** ** Handlers *)

Definition ObserveTerm (fault : option PersistStep) (r : RaftStore) (term : Z) : RaftStore * res unit :=
  let s := state r in
  if term <=? CurrentTerm s then (r, Ok tt)
  else persist_then fault (set_state r (set_term_vote s term "")) tt.

Definition ConfigureVoters (fault : option PersistStep) (r : RaftStore) (voters : list string)
    : RaftStore * res unit :=
  let s := state r in
  match normalizeVoters voters (nodeID r) with
  | Err e => (r, Err e)
  | Ok normalized =>
      if negb (len (Voters s) =? 0) then
        if negb (equalStrings (Voters s) normalized)
        then (r, Err (Errorf "configured voters do not match persisted Raft membership"))
        else (r, Ok tt)
      else persist_then fault (set_state r (set_voters s normalized)) tt
  end.

(** The suffix of the local log that survives an installed snapshot. *)
Definition retainedEntries (s : raftPersistentState) (snapshot : RaftSnapshot) : list RaftEntry :=
  match termAtLocked s (LastIncludedIndex snapshot) with
  | Ok term =>
      if term =? LastIncludedTerm snapshot
      then slice_from (Entries s) (LastIncludedIndex snapshot - SnapshotIndex s)
      else []
  | Err _ => []
  end.

Definition InstallSnapshot (fault : option PersistStep) (r : RaftStore) (request : InstallSnapshotRequest)
    : RaftStore * res InstallSnapshotResponse :=
  let s := state r in
  if negb (ValidNodeID (is_LeaderID request)) || (is_Term request =? 0)
  then (r, Err (Errorf "invalid snapshot request"))
  else if negb (len (Voters s) =? 0) && negb (containsString (Voters s) (is_LeaderID request))
  then (r, Ok (mkInstallResponse (CurrentTerm s) false 0))
  else
    let snapshot := is_Snapshot request in
    let normalized_ok :=
      match normalizeVoters (snap_Voters snapshot) (nodeID r) with
      | Ok normalized => equalStrings normalized (snap_Voters snapshot)
      | Err _ => false
      end in
    if negb normalized_ok || (LastIncludedIndex snapshot =? 0) || (LastIncludedTerm snapshot =? 0)
       || (snap_AppliedEpoch snapshot <? 2)
       || match snap_CommittedView snapshot with Some v => negb (validView v) | None => true end
    then (r, Err (Errorf "invalid Raft snapshot"))
    else if negb (len (Voters s) =? 0) && negb (equalStrings (Voters s) (snap_Voters snapshot))
    then (r, Err (Errorf "snapshot voter set does not match persisted membership"))
    else if is_Term request <? CurrentTerm s
    then (r, Ok (mkInstallResponse (CurrentTerm s) false 0))
    else
      let s1 := if CurrentTerm s <? is_Term request then set_term_vote s (is_Term request) "" else s in
      if LastIncludedIndex snapshot <=? CommitIndex s1
      then persist_then fault (set_state r s1)
             (mkInstallResponse (CurrentTerm s1) true (CommitIndex s1))
      else
        let s2 := mkState (Format s1) (CurrentTerm s1) (VotedFor s1) (LastIncludedIndex snapshot)
          (snap_AppliedEpoch snapshot) (LastIncludedIndex snapshot) (LastIncludedTerm snapshot)
          (snap_AppliedEpoch snapshot) (snap_CommittedView snapshot) (snap_Voters snapshot)
          (JointOldVoters s1) (JointNewVoters s1) (snap_CommittedView snapshot)
          (retainedEntries s1 snapshot) in
        persist_then fault (set_state r s2)
          (mkInstallResponse (CurrentTerm s2) true (LastIncludedIndex snapshot)).

Definition CompactCommitted (fault : option PersistStep) (r : RaftStore) : RaftStore * res unit :=
  let s := state r in
  if negb (len (JointOldVoters s) =? 0)
  then (r, Err (Errorf "cannot compact metadata log during joint consensus"))
  else if CommitIndex s =? SnapshotIndex s then (r, Ok tt)
  else match termAtLocked s (CommitIndex s) with
  | Err e => (r, Err e)
  | Ok term =>
      let remove := CommitIndex s - SnapshotIndex s in
      let s' := mkState (Format s) (CurrentTerm s) (VotedFor s) (CommitIndex s) (AppliedEpoch s)
        (CommitIndex s) term (AppliedEpoch s) (CommittedView s) (Voters s) (JointOldVoters s)
        (JointNewVoters s) (CommittedView s) (slice_from (Entries s) remove) in
      persist_then fault (set_state r s') tt
  end.

Definition BeginElection (fault : option PersistStep) (r : RaftStore) : RaftStore * res RequestVoteRequest :=
  let s := state r in
  if negb (len (Voters s) =? 0) && negb (containsString (activeVotersLocked s) (nodeID r))
  then (r, Err (Errorf "local node is not an active Raft voter"))
  else
    let s' := set_term_vote s (u64 (CurrentTerm s + 1)) (nodeID r) in
    let (lastIndex, lastTerm) := lastLogLocked s' in
    persist_then fault (set_state r s')
      (mkVoteRequest (CurrentTerm s') (nodeID r) lastIndex lastTerm).

Definition RequestVote (fault : option PersistStep) (r : RaftStore) (request : RequestVoteRequest)
    : RaftStore * res RequestVoteResponse :=
  let s := state r in
  if negb (ValidNodeID (rv_CandidateID request)) || (rv_Term request =? 0)
  then (r, Err (Errorf "invalid vote request"))
  else if negb (len (Voters s) =? 0) && negb (containsString (activeVotersLocked s) (rv_CandidateID request))
  then (r, Ok (mkVoteResponse (CurrentTerm s) false))
  else if rv_Term request <? CurrentTerm s
  then (r, Ok (mkVoteResponse (CurrentTerm s) false))
  else
    let newer := CurrentTerm s <? rv_Term request in
    let s1 := if newer then set_term_vote s (rv_Term request) "" else s in
    let (lastIndex, lastTerm) := lastLogLocked s1 in
    let upToDate := (lastTerm <? rv_LastLogTerm request)
      || (rv_LastLogTerm request =? lastTerm) && (lastIndex <=? rv_LastLogIndex request) in
    let granted := upToDate
      && (String.eqb (VotedFor s1) "" || String.eqb (VotedFor s1) (rv_CandidateID request)) in
    let voting := granted && negb (String.eqb (VotedFor s1) (rv_CandidateID request)) in
    let s2 := if voting then set_term_vote s1 (CurrentTerm s1) (rv_CandidateID request) else s1 in
    let changed := newer || voting in
    let response := mkVoteResponse (CurrentTerm s2) granted in
    if changed then persist_then fault (set_state r s2) response
    else (set_state r s2, Ok response).

(** [for offset, entry := range request.Entries]; the state reached so far
    stays in memory when an entry is refused. *)
Fixpoint append_loop (s : raftPersistentState) (prevLogIndex offset : Z) (entries : list RaftEntry)
    : raftPersistentState * option error :=
  match entries with
  | [] => (s, None)
  | entry :: rest =>
      let index := u64 (prevLogIndex + offset + 1) in
      if index <=? SnapshotIndex s then append_loop s prevLogIndex (offset + 1) rest
      else
        let entryOffset := index - SnapshotIndex s - 1 in
        let store s :=
          match validateRaftEntry entry with
          | Err e => (s, Some e)
          | Ok _ => append_loop (set_entries s (Entries s ++ [entry])) prevLogIndex (offset + 1) rest
          end in
        if entryOffset <? len (Entries s) then
          match index_at (Entries s) entryOffset with
          | None => (s, Some (Panic "AppendEntries"))
          | Some existing =>
              if Term existing =? Term entry then append_loop s prevLogIndex (offset + 1) rest
              else if index <=? CommitIndex s
              then (s, Some (Errorf "refusing to overwrite committed entry"))
              else store (set_entries s (slice_to (Entries s) entryOffset))
          end
        else store s
  end.

Definition AppendEntries (fault : option PersistStep) (r : RaftStore) (request : AppendEntriesRequest)
    : RaftStore * res AppendEntriesResponse :=
  let s := state r in
  if negb (ValidNodeID (ae_LeaderID request)) || (ae_Term request =? 0)
  then (r, Err (Errorf "invalid append request"))
  else if negb (len (Voters s) =? 0) && negb (containsString (activeVotersLocked s) (ae_LeaderID request))
  then (r, Ok (mkAppendResponse (CurrentTerm s) false 0))
  else if 1024 <? len (ae_Entries request)
  then (r, Err (Errorf "append request exceeds entry limit"))
  else if ae_Term request <? CurrentTerm s
  then (r, Ok (mkAppendResponse (CurrentTerm s) false 0))
  else
    let s1 := if CurrentTerm s <? ae_Term request then set_term_vote s (ae_Term request) "" else s in
    let lastIndex := fst (lastLogLocked s1) in
    let mismatch :=
      match termAtLocked s1 (ae_PrevLogIndex request) with
      | Err _ => true
      | Ok previousTerm => negb (previousTerm =? ae_PrevLogTerm request)
      end in
    if (ae_PrevLogIndex request <? SnapshotIndex s1) || (lastIndex <? ae_PrevLogIndex request) || mismatch
    then persist_then fault (set_state r s1) (mkAppendResponse (CurrentTerm s1) false 0)
    else
      let (s2, failed) := append_loop s1 (ae_PrevLogIndex request) 0 (ae_Entries request) in
      match failed with
      | Some e => (set_state r s2, Err e)
      | None =>
          let applied :=
            if CommitIndex s2 <? ae_LeaderCommit request
            then applyThroughLocked s2 (Z.min (ae_LeaderCommit request) (fst (lastLogLocked s2)))
            else Ok s2 in
          match applied with
          | Err e => (set_state r s2, Err e)
          | Ok s3 =>
              persist_then fault (set_state r s3)
                (mkAppendResponse (CurrentTerm s3) true
                   (u64 (Z.max (ae_PrevLogIndex request) (SnapshotIndex s3) + len (ae_Entries request))))
          end
      end.

Definition AppendCommand (fault : option PersistStep) (r : RaftStore) (term : Z) (command : MetadataCommand)
    : RaftStore * res Z :=
  let s := state r in
  if (term =? 0) || negb (term =? CurrentTerm s) || negb (String.eqb (VotedFor s) (nodeID r))
  then (r, Err (Errorf "node is not leader for term"))
  else
    let entry := mkEntry term command in
    match validateRaftEntry entry with
    | Err e => (r, Err e)
    | Ok _ =>
        let lastIndex := fst (lastLogLocked s) in
        let repeated :=
          match last (Entries s) with
          | Some l => (Term l =? term) && metadataCommandsEqual (Command l) command
          | None => false
          end in
        if (CommitIndex s <? lastIndex) && repeated then (r, Ok lastIndex)
        else
          let s' := set_entries s (Entries s ++ [entry]) in
          persist_then fault (set_state r s') (fst (lastLogLocked s'))
    end.

(** [term != CurrentTerm || index <= SnapshotIndex || entryErr != nil || entryTerm != term] *)
Definition notCommittable (s : raftPersistentState) (index term : Z) : bool :=
  negb (term =? CurrentTerm s) || (index <=? SnapshotIndex s)
  || match termAtLocked s index with Ok entryTerm => negb (entryTerm =? term) | Err _ => true end.

Definition CommitWithQuorum (fault : option PersistStep) (r : RaftStore)
    (index term acknowledgements voters : Z) : RaftStore * res unit :=
  let s := state r in
  if negb (len (JointOldVoters s) =? 0)
  then (r, Err (Errorf "joint consensus requires voter-identity acknowledgements"))
  else if (voters <? 1) || (acknowledgements <? voters / 2 + 1)
  then (r, Err (Errorf "metadata quorum not reached"))
  else if notCommittable s index term
  then (r, Err (Errorf "entry is not committable in current term"))
  else match applyThroughLocked s index with
       | Err e => (r, Err e)
       | Ok s' => persist_then fault (set_state r s') tt
       end.

Definition CommitWithVoterAcks (fault : option PersistStep) (r : RaftStore)
    (index term : Z) (acknowledgements : list string) : RaftStore * res unit :=
  let s := state r in
  let ackSet := stringSet acknowledgements in
  let joint := negb (len (JointOldVoters s) =? 0) in
  if joint && (negb (voterMajority (JointOldVoters s) ackSet) || negb (voterMajority (JointNewVoters s) ackSet))
  then (r, Err (Errorf "metadata joint quorum not reached"))
  else if negb joint && negb (voterMajority (Voters s) ackSet)
  then (r, Err (Errorf "metadata quorum not reached"))
  else if notCommittable s index term
  then (r, Err (Errorf "entry is not committable in current term"))
  else match applyThroughLocked s index with
       | Err e => (r, Err e)
       | Ok s' => persist_then fault (set_state r s') tt
       end.
