(* ===== verification/RaftInvariant.v ===== *)
(** * Recoverability of the Raft store

    Every state the handlers can produce, and every state that can reach the
    disk, passes the validation that [OpenRaftStore] performs after a crash;
    the committed prefix is never rewritten and the store never indexes its
    log out of range. *)
From Stdlib Require Import ZArith Lia Ascii String.
From stdpp Require Import base tactics list gmap strings.
From S2P Require Import Prelude ClusterBase RaftStore.
Local Open Scope string_scope.
Local Open Scope Z_scope.
Import EncodeJson.

(** ** Voter sets *)

Lemma check_voters_ok previous voters :
  check_voters previous voters = Ok tt →
  Forall (λ v, ValidNodeID v = true) voters.
Proof.
  revert previous. induction voters as [|v voters IH]; intros previous H; simpl in H; [done|].
  destruct (ValidNodeID v) eqn:Ev; simpl in H; [|done].
  case_match; [done|]. constructor; eauto.
Qed.

Lemma check_voters_distinct voters previous :
  ordered str_ltb voters → check_voters previous voters = Ok tt →
  (∀ p, previous = Some p → Forall (λ v, str_ltb v p = false) voters) →
  NoDup voters ∧ (∀ p, previous = Some p → p ∉ voters).
Proof.
  intros Hs. revert previous. induction Hs as [|v voters Hs IH Hv]; intros previous H Hp.
  { split; [constructor|]. set_solver. }
  simpl in H. destruct (ValidNodeID v); simpl in H; [|done].
  destruct (match previous with Some p => _ | None => _ end) eqn:Em; [done|].
  edestruct IH as [Hnd Hni]; [exact H| |].
  { intros p [= <-]. done. }
  split; [constructor; [by apply Hni|done]|].
  intros p ->. specialize (Hp p eq_refl). inversion Hp as [|?? Hvp Hrest]; subst.
  apply String.eqb_neq in Em.
  intros [->|Hin]%elem_of_cons; [done|].
  rewrite Forall_forall in Hv. specialize (Hv p Hin). simpl in Hv.
  by apply Em, ltb_total.
Qed.

Lemma normalizeVoterSet_ok voters normalized :
  normalizeVoterSet voters = Ok normalized →
  normalized ≠ [] ∧ ordered str_ltb normalized ∧ NoDup normalized
  ∧ Forall (λ v, ValidNodeID v = true) normalized ∧ normalized ≡ₚ voters.
Proof.
  unfold normalizeVoterSet. destruct (len voters =? 0) eqn:E; [done|]. bool_props.
  destruct (check_voters None (sort_slice str_ltb voters)) as [[]|] eqn:Hc; simpl; [|done].
  intros [= <-].
  assert (ordered str_ltb (sort_slice str_ltb voters)) as Hs
    by apply sort_slice_ordered, strict_weak, str_ltb_strict.
  destruct (check_voters_distinct _ _ Hs Hc) as [Hnd _]; [done|].
  split_and!; eauto using check_voters_ok, sort_slice_perm.
  intros Hn. apply E. apply len_zero.
  by apply Permutation_nil_r; rewrite <-Hn, sort_slice_perm.
Qed.

Lemma canonicalVoters_ok voters :
  canonicalVoters voters = true →
  voters ≠ [] ∧ ordered str_ltb voters ∧ NoDup voters
  ∧ Forall (λ v, ValidNodeID v = true) voters.
Proof.
  unfold canonicalVoters. destruct (normalizeVoterSet voters) as [n|] eqn:E; [|done].
  intros ->%equalStrings_eq. apply normalizeVoterSet_ok in E. tauto.
Qed.

Lemma normalized_canonical voters normalized :
  normalizeVoterSet voters = Ok normalized → canonicalVoters normalized = true.
Proof.
  intros H. pose proof (normalizeVoterSet_ok _ _ H) as (Hne & Hs & _ & _ & _).
  unfold canonicalVoters, normalizeVoterSet in *.
  rewrite (ordered_sort_id _ normalized Hs).
  destruct (len voters =? 0); [done|].
  destruct (check_voters None (sort_slice str_ltb voters)) eqn:Ec; simpl in H; [|done].
  injection H as <-. rewrite Ec. simpl.
  rewrite (proj2 (Z.eqb_neq _ _)) by (rewrite len_zero; done).
  apply equalStrings_refl.
Qed.

Lemma normalizeVoters_canonical voters local normalized :
  normalizeVoters voters local = Ok normalized → canonicalVoters normalized = true.
Proof.
  unfold normalizeVoters. destruct (normalizeVoterSet voters) as [n|] eqn:E; simpl; [|done].
  case_match; [done|]. intros [= <-]. by eapply normalized_canonical.
Qed.

Lemma canonical_nonempty voters : canonicalVoters voters = true → voters ≠ [].
Proof. intros H%canonicalVoters_ok. tauto. Qed.

(** ** Replaying the committed prefix *)

Fixpoint replay_list (a : Applied) (entries : list RaftEntry) : res Applied :=
  match entries with
  | [] => Ok a
  | e :: rest => let! a' := replayCommand a (Command e) in replay_list a' rest
  end.

Lemma replay_list_app a l k :
  replay_list a (l ++ k) = (let! a' := replay_list a l in replay_list a' k).
Proof.
  revert a. induction l as [|e l IH]; intros a; simpl; [done|].
  destruct (replayCommand a (Command e)); simpl; auto.
Qed.

Definition entry_valid (e : RaftEntry) : Prop := validateRaftEntry e = Ok tt.

(** With every entry valid, the validation loop is the replay of the
    entries up to the commit index. *)
Lemma replay_loop_list s i entries a :
  0 ≤ SnapshotIndex s → 0 ≤ i → SnapshotIndex s + i + len entries < two64 →
  Forall entry_valid entries →
  replay_loop s i entries a
  = replay_list a (take (Z.to_nat (CommitIndex s - SnapshotIndex s - i)) entries).
Proof.
  intros Hs. revert i a. induction entries as [|e entries IH]; intros i a Hi Hf Hv.
  { simpl. by rewrite take_nil. }
  inversion Hv as [|?? He Hrest]; subst. simpl replay_loop. unfold entry_valid in He.
  rewrite He. simpl res_bind.
  assert (len (e :: entries) = 1 + len entries) as Hl by (unfold len; simpl; lia).
  pose proof (len_nonneg entries).
  rewrite u64_small by lia.
  destruct (SnapshotIndex s + i + 1 <=? CommitIndex s) eqn:Ec; bool_props.
  - replace (Z.to_nat (CommitIndex s - SnapshotIndex s - i))
      with (S (Z.to_nat (CommitIndex s - SnapshotIndex s - (i + 1)))) by lia.
    simpl. destruct (replayCommand a (Command e)); simpl; [|done].
    apply IH; auto; lia.
  - replace (Z.to_nat (CommitIndex s - SnapshotIndex s - i)) with 0%nat by lia.
    simpl. rewrite IH by (auto; lia).
    replace (Z.to_nat (CommitIndex s - SnapshotIndex s - (i + 1))) with 0%nat by lia.
    done.
Qed.

(** What [applyCommand] maintains of its local variables. *)
Record AppliedOk (boot : Z) (a : Applied) : Prop := {
  ao_epoch : boot ≤ ap_epoch a < two64;
  ao_view : boot < ap_epoch a ↔ is_Some (ap_view a);
  ao_view_valid : view_opt_valid (ap_view a) = true;
  ao_voters : ap_voters a = [] ∨ canonicalVoters (ap_voters a) = true;
  ao_joint : ap_jointOld a = [] ∧ ap_jointNew a = []
    ∨ canonicalVoters (ap_jointOld a) = true ∧ canonicalVoters (ap_jointNew a) = true
      ∧ ap_voters a = ap_jointOld a;
}.

(** [b] is the validator's view of the interpreter's variables [a]: the
    same, but the voters may not have been seen yet. *)
Definition replays (b a : Applied) : Prop :=
  ap_epoch b = ap_epoch a ∧ ap_view b = ap_view a ∧ ap_jointOld b = ap_jointOld a
  ∧ ap_jointNew b = ap_jointNew a ∧ (ap_voters b = [] ∨ ap_voters b = ap_voters a).

Lemma u64_succ_epoch e c : 0 ≤ e < two64 → 2 ≤ c → c = u64 (e + 1) → c = e + 1 ∧ c < two64.
Proof.
  intros He Hc ->. pose proof (u64_bounds (e + 1)).
  destruct (decide (e + 1 = two64)) as [E|E].
  - exfalso. rewrite E in Hc. unfold u64 in Hc. rewrite Z.mod_same in Hc; [lia|done].
  - rewrite u64_small in * by lia. lia.
Qed.

Lemma applyCommand_ok boot a e a' :
  1 ≤ boot → AppliedOk boot a → entry_valid e → applyCommand a (Command e) = Ok a' →
  AppliedOk boot a' ∧ (∀ b, replays b a → ∃ b', replayCommand b (Command e) = Ok b' ∧ replays b' a').
Proof.
  intros Hboot [He Hvw Hvv Hvo Hj] Hvalid H. unfold entry_valid, validateRaftEntry in Hvalid.
  unfold applyCommand, replayCommand in *.
  destruct (Term e =? 0); [done|].
  destruct (Type_ (Command e)) eqn:Et.
  - destruct (_ || _) eqn:Eg in H; [done|]. destruct (_ || _) eqn:Ev in Hvalid; [done|].
    bool_props.
    destruct (Epoch (Command e) =? u64 (ap_epoch a + 1)) eqn:Ee.
    + injection H as <-. bool_props.
      destruct (u64_succ_epoch (ap_epoch a) (Epoch (Command e))) as [E1 E2]; [lia|lia|done|].
      split.
      * split; simpl; auto; try lia. split; [eauto|lia].
      * intros b (Eb1 & Eb2 & Eb3 & Eb4 & Eb5). rewrite Eb1, Eb3.
        destruct (_ || _) eqn:Eg'.
        { bool_props. repeat (destruct Eg' as [Eg'|Eg']; bool_props); try done; lia. }
        rewrite (proj2 (Z.eqb_eq _ _)) by done. eexists. split; [done|]. by split_and!.
    + destruct (negb _) eqn:Ed in H; [done|]. injection H as <-. bool_props.
      split; [by split|]. intros b (Eb1 & Eb2 & Eb3 & Eb4 & Eb5). rewrite Eb1, Eb2, Eb3.
      destruct (_ || _) eqn:Eg'.
      { bool_props. repeat (destruct Eg' as [Eg'|Eg']; bool_props); try done; lia. }
      rewrite (proj2 (Z.eqb_neq _ _)) by done. rewrite bool_decide_true by done.
      eexists. split; [done|]. by split_and!.
  - destruct (_ || _) eqn:Eg in H; [done|]. destruct (_ || _) eqn:Ev in Hvalid; [done|].
    bool_props. injection H as <-.
    match goal with H : equalStrings _ _ = true |- _ => apply equalStrings_eq in H as Hov end.
    split.
    + split; simpl; auto; try lia.
      right. rewrite <-Hov. done.
    + intros b (Eb1 & Eb2 & Eb3 & Eb4 & Eb5). rewrite Eb1, Eb3.
      rewrite (proj2 (Z.eqb_eq _ _)) by done. simpl.
      rewrite (proj2 (Z.eqb_eq (len (ap_jointOld a)) 0)) by done. simpl.
      eexists. split; [done|]. split_and!; simpl; auto.
  - destruct (_ || _) eqn:Eg in H; [done|]. destruct (_ || _) eqn:Ev in Hvalid; [done|].
    bool_props. injection H as <-.
    destruct (u64_succ_epoch (ap_epoch a) (Epoch (Command e))) as [E1 E2]; [lia|lia|done|].
    split.
    + split; simpl; auto; try lia. split; [eauto|lia].
    + intros b (Eb1 & Eb2 & Eb3 & Eb4 & Eb5). rewrite Eb1, Eb3, Eb4.
      rewrite (proj2 (Z.eqb_eq (Epoch (Command e)) _)) by done.
      repeat match goal with H : equalStrings _ _ = true |- _ => rewrite H; clear H end.
      simpl. eexists. split; [done|]. by split_and!; auto.
  - done.
Qed.

(** ** The invariant *)

Definition snapshot_applied (s : raftPersistentState) : Applied :=
  mkApplied (SnapshotEpoch s) (SnapshotView s) [] [] [].

Definition committed_prefix (s : raftPersistentState) : list RaftEntry :=
  take (Z.to_nat (CommitIndex s - SnapshotIndex s)) (Entries s).

Record Inv (boot : Z) (s : raftPersistentState) : Prop := {
  inv_boot : 1 ≤ boot;
  inv_format : Format s = 1;
  inv_index : 0 ≤ SnapshotIndex s ≤ CommitIndex s;
  inv_commit : CommitIndex s ≤ SnapshotIndex s + len (Entries s) < two64;
  inv_boundary : SnapshotIndex s = 0 ↔ SnapshotTerm s = 0;
  inv_snapshot : AppliedOk boot (snapshot_applied s);
  inv_applied : AppliedOk boot (applied_of s);
  inv_entries : Forall entry_valid (Entries s);
  inv_replay : ∃ b, replay_list (snapshot_applied s) (committed_prefix s) = Ok b
                    ∧ replays b (applied_of s);
}.

Lemma lastLog_index boot s :
  Inv boot s → fst (lastLogLocked s) = SnapshotIndex s + len (Entries s).
Proof.
  intros HI. destruct (inv_commit _ _ HI), (inv_index _ _ HI).
  unfold lastLogLocked. destruct (last (Entries s)) eqn:El; simpl.
  - rewrite u64_small; lia.
  - apply last_None in El as ->. unfold len. simpl. lia.
Qed.

(** A state that satisfies the invariant is accepted on open, unchanged. *)
Lemma Inv_validate boot s : Inv boot s → validateLocked boot s = Ok s.
Proof.
  intros HI. pose proof (lastLog_index _ _ HI) as Hlast.
  destruct HI as [Hb Hf Hi Hc Hbd Hsn Hap He (b & Hrep & Hsame)].
  destruct Hsn as [Hse Hsv Hsvv _ _]. destruct Hap as [Hae Hav Havv Hvo Hj]. simpl in *.
  unfold validateLocked.
  rewrite (proj2 (Z.eqb_neq (SnapshotEpoch s) 0)) by lia. simpl andb. cbv iota.
  destruct (_ || _) eqn:E1.
  { bool_props. repeat (destruct E1 as [E1|E1]; bool_props); try done; lia. }
  destruct (_ || _) eqn:E2 in |- *.
  { apply orb_true_iff in E2 as [E2|E2]; bool_props; exfalso; lia. }
  destruct (_ || _) eqn:E3 in |- *.
  { apply orb_true_iff in E3 as [E3|E3]; bool_props; exfalso.
    - assert (is_Some (SnapshotView s)) as Hx by (destruct (SnapshotView s); [eauto|done]).
      apply Hsv in Hx. lia.
    - assert (boot < SnapshotEpoch s) as [v Hx]%Hsv by lia. by rewrite Hx in *. }
  rewrite Hsvv. simpl negb. cbv iota.
  destruct (_ && _) eqn:E4 in |- *.
  { bool_props. exfalso. destruct Hvo as [Hvo|Hvo]; [|congruence].
    rewrite <-len_zero in Hvo. done. }
  destruct (_ && _) eqn:E5 in |- *.
  { exfalso. apply andb_true_iff in E5 as [E5 E5'].
    destruct Hj as [[Hj1 Hj2]|(Hj1 & Hj2 & Hj3)].
    - rewrite Hj1, Hj2 in E5. done.
    - rewrite Hj1, Hj2, Hj3, equalStrings_refl in E5'. done. }
  rewrite replay_loop_list by (auto; lia). rewrite Z.sub_0_r.
  unfold committed_prefix, snapshot_applied in Hrep. rewrite Hrep. simpl res_bind.
  destruct Hsame as (Eb1 & Eb2 & Eb3 & Eb4 & Eb5). simpl in *.
  rewrite Eb1, Eb2, Eb3, Eb4, Z.eqb_refl, !equalStrings_refl. simpl.
  assert (negb (len (ap_voters b) =? 0) && negb (equalStrings (ap_voters b) (Voters s)) = false) as ->.
  { destruct Eb5 as [->| ->]; [done|]. by rewrite equalStrings_refl, andb_false_r. }
  simpl. destruct (CommittedView s); [|done]. by rewrite bool_decide_true.
Qed.

(** Term and vote are outside the invariant. *)
Lemma Inv_term_vote boot s t v : Inv boot s → Inv boot (set_term_vote s t v).
Proof. by intros [????????]; split. Qed.

Lemma Inv_observe boot s (newer : bool) t :
  Inv boot s → Inv boot (if newer then set_term_vote s t "" else s).
Proof. destruct newer; [apply Inv_term_vote|done]. Qed.

Lemma joint_observe s (newer : bool) t :
  JointOldVoters (if newer then set_term_vote s t "" else s) = JointOldVoters s.
Proof. by destruct newer. Qed.

Lemma apply_loop_ok boot s fuel ci a ci' a' b :
  1 ≤ boot → Forall entry_valid (Entries s) → AppliedOk boot a → replays b a →
  SnapshotIndex s ≤ ci → apply_loop s fuel ci a = Ok (ci', a') →
  ci' = ci + Z.of_nat fuel ∧ AppliedOk boot a'
  ∧ ∃ b', replay_list b (take fuel (drop (Z.to_nat (ci - SnapshotIndex s)) (Entries s))) = Ok b'
          ∧ replays b' a'.
Proof.
  intros Hb Hv. revert ci a b. induction fuel as [|fuel IH]; intros ci a b Ha Hr Hci H; simpl in H.
  { injection H as <- <-. split; [lia|]. split; [done|]. simpl. eauto. }
  unfold index_at in H.
  destruct (Entries s !! Z.to_nat (ci - SnapshotIndex s)) as [e|] eqn:El; [|done].
  destruct (applyCommand a (Command e)) as [a1|] eqn:Ea; simpl in H; [|done].
  assert (entry_valid e) as He by (rewrite Forall_lookup in Hv; eauto).
  destruct (applyCommand_ok boot a e a1) as [Ha1 Hsim]; auto.
  destruct (Hsim b Hr) as (b1 & Hb1 & Hr1).
  destruct (IH (ci + 1) a1 b1) as (-> & Ha' & b' & Hb' & Hr'); auto; try lia.
  split; [lia|]. split; [done|]. exists b'. split; [|done].
  rewrite (drop_S _ _ _ El). simpl. rewrite Hb1. simpl.
  rewrite <-Hb'. repeat f_equal. lia.
Qed.

(** Interpreting further entries keeps the invariant, and the target index
    is reached exactly. *)
Lemma Inv_applyThrough boot s target s' :
  Inv boot s → target ≤ SnapshotIndex s + len (Entries s) →
  applyThroughLocked s target = Ok s' →
  Inv boot s' ∧ CommitIndex s' = Z.max (CommitIndex s) target
  ∧ Entries s' = Entries s ∧ SnapshotIndex s' = SnapshotIndex s.
Proof.
  intros HI Ht H. destruct HI as [Hb Hf Hi Hc Hbd Hsn Hap He (b & Hrep & Hsame)].
  unfold applyThroughLocked in H.
  destruct (apply_loop _ _ _ _) as [[ci a]|] eqn:El; simpl in H; [|done].
  assert (SnapshotIndex s ≤ CommitIndex s) as Hsc by lia.
  destruct (apply_loop_ok boot _ _ _ _ _ _ b Hb He Hap Hsame Hsc El)
    as (-> & Ha & b' & Hb' & Hr').
  injection H as <-. split; [|simpl; split_and!; auto; lia].
  split; simpl; auto; try lia.
  - by destruct a.
  - exists b'. split; [|by destruct a].
    unfold committed_prefix, snapshot_applied in *. simpl in *.
    replace (Z.to_nat (CommitIndex s + Z.of_nat (Z.to_nat (target - CommitIndex s)) - SnapshotIndex s))
      with (Z.to_nat (CommitIndex s - SnapshotIndex s) + Z.to_nat (target - CommitIndex s))%nat by lia.
    rewrite <-take_take_drop, replay_list_app, Hrep. done.
Qed.

(** Within the retained range no handler indexes the log out of bounds. *)
Lemma apply_loop_no_panic s fuel ci a what :
  SnapshotIndex s ≤ ci → ci + Z.of_nat fuel ≤ SnapshotIndex s + len (Entries s) →
  apply_loop s fuel ci a ≠ Err (Panic what).
Proof.
  revert ci a. induction fuel as [|fuel IH]; intros ci a Hci Hf; simpl; [done|].
  destruct (index_at_Some (Entries s) (ci - SnapshotIndex s)) as [e ->]; [lia|].
  destruct (applyCommand a (Command e)) as [a1|er] eqn:Ea; simpl; [apply IH; lia|].
  intros [= ->]. unfold applyCommand in Ea. by case_all Ea.
Qed.

(** ** Appending a leader's entries *)

Lemma Inv_set_entries boot s entries :
  Inv boot s → Forall entry_valid entries →
  take (Z.to_nat (CommitIndex s - SnapshotIndex s)) entries = committed_prefix s →
  CommitIndex s ≤ SnapshotIndex s + len entries < two64 →
  Inv boot (set_entries s entries).
Proof.
  intros [Hb Hf Hi Hc Hbd Hsn Hap He (b & Hrep & Hsame)] Hv Ht Hl.
  split; simpl; auto. exists b. unfold committed_prefix at 1. simpl.
  by rewrite Ht.
Qed.

(** What the loop of [AppendEntries] guarantees of the state it leaves. *)
Record Appended (boot : Z) (s s' : raftPersistentState) (from : Z) : Prop := {
  ap_inv : Inv boot s';
  ap_commit : CommitIndex s' = CommitIndex s;
  ap_snapshot : SnapshotIndex s' = SnapshotIndex s;
  ap_term : CurrentTerm s' = CurrentTerm s ∧ VotedFor s' = VotedFor s;
  ap_committed : committed_prefix s' = committed_prefix s;
  ap_kept : take (Z.to_nat (from - SnapshotIndex s)) (Entries s')
            = take (Z.to_nat (from - SnapshotIndex s)) (Entries s);
}.

Lemma Appended_refl boot s from : Inv boot s → Appended boot s s from.
Proof. by split. Qed.

Lemma Appended_trans boot s s1 s2 from from1 :
  from ≤ from1 → Appended boot s s1 from → Appended boot s1 s2 from1 → Appended boot s s2 from.
Proof.
  intros Hle [I1 C1 S1 [T1 V1] P1 K1] [I2 C2 S2 [T2 V2] P2 K2].
  split; try congruence; [split; congruence|].
  rewrite S1 in K2. rewrite <-K1.
  replace (Z.to_nat (from - SnapshotIndex s))
    with (Z.to_nat (from - SnapshotIndex s) `min` Z.to_nat (from1 - SnapshotIndex s))%nat by lia.
  by rewrite <-!take_take, K2.
Qed.

(** Truncating at [from] and pushing a valid entry. *)
Lemma Appended_store boot s from entry :
  Inv boot s → CommitIndex s ≤ from ≤ SnapshotIndex s + len (Entries s) → from + 1 < two64 →
  entry_valid entry →
  Appended boot s (set_entries s (slice_to (Entries s) (from - SnapshotIndex s) ++ [entry])) from.
Proof.
  intros HI Hf Hf1 He. pose proof (inv_index _ _ HI).
  assert (len (slice_to (Entries s) (from - SnapshotIndex s)) = from - SnapshotIndex s) as Hl
    by (apply len_slice_to; lia).
  assert (∀ n, (n ≤ Z.to_nat (from - SnapshotIndex s))%nat →
    take n (slice_to (Entries s) (from - SnapshotIndex s) ++ [entry]) = take n (Entries s)) as Ht.
  { intros n Hn. rewrite take_app_le by (unfold len in Hl; lia).
    unfold slice_to. rewrite take_take. f_equal. lia. }
  split; simpl; auto.
  - apply Inv_set_entries; auto.
    + apply Forall_app. split; [|repeat constructor; done].
      apply Forall_take, (inv_entries _ _ HI).
    + unfold committed_prefix. apply Ht. lia.
    + rewrite len_app, Hl. unfold len. simpl. lia.
  - unfold committed_prefix. simpl. apply Ht. lia.
Qed.

(** Outcome of the loop over [es] from index [from]: the invariant is kept,
    no index is out of range, and without an error the log holds the request's
    terms at the requested positions. *)
Definition loop_result (boot : Z) (s : raftPersistentState) (from : Z) (es : list RaftEntry)
    (s' : raftPersistentState) (e : option error) : Prop :=
  Appended boot s s' from ∧ (∀ what, e ≠ Some (Panic what))
  ∧ (e = None → from + len es ≤ SnapshotIndex s' + len (Entries s')
     ∧ ∀ k x, es !! k = Some x → ∃ y,
         Entries s' !! (Z.to_nat (from - SnapshotIndex s) + k)%nat = Some y ∧ Term y = Term x).

Lemma loop_result_cons boot s from x es s1 s' e :
  SnapshotIndex s ≤ from → Appended boot s s1 from →
  (∃ y, Entries s1 !! Z.to_nat (from - SnapshotIndex s) = Some y ∧ Term y = Term x) →
  loop_result boot s1 (from + 1) es s' e → loop_result boot s from (x :: es) s' e.
Proof.
  intros Hfrom HA (y & Hy & Hty) (HA' & Hnp & Hres).
  pose proof (ap_snapshot _ _ _ _ HA) as Hs1.
  split; [eapply Appended_trans; [|exact HA|exact HA']; lia|]. split; [done|].
  intros He. destruct (Hres He) as [Hend Hall].
  split; [unfold len in *; simpl in *; lia|].
  intros [|k] z Hz; simpl in Hz.
  - injection Hz as <-. exists y. split; [|done].
    rewrite Nat.add_0_r. pose proof (ap_kept _ _ _ _ HA') as Hk.
    rewrite Hs1 in Hk. apply (f_equal (.!! Z.to_nat (from - SnapshotIndex s))) in Hk.
    rewrite !lookup_take_lt in Hk by lia. by rewrite Hk.
  - destruct (Hall k z Hz) as (w & Hw & Htw). exists w. split; [|done].
    rewrite Hs1 in Hw. rewrite <-Hw. f_equal. lia.
Qed.

(** Refusing an entry after truncating the conflicting suffix. *)
Lemma Appended_truncate boot s from :
  Inv boot s → CommitIndex s ≤ from ≤ SnapshotIndex s + len (Entries s) →
  Appended boot s (set_entries s (slice_to (Entries s) (from - SnapshotIndex s))) from.
Proof.
  intros HI Hf. pose proof (inv_index _ _ HI). pose proof (inv_commit _ _ HI).
  assert (∀ n, (n ≤ Z.to_nat (from - SnapshotIndex s))%nat →
    take n (slice_to (Entries s) (from - SnapshotIndex s)) = take n (Entries s)) as Ht.
  { intros n Hn. unfold slice_to. rewrite take_take. f_equal. lia. }
  split; simpl; auto.
  - apply Inv_set_entries; auto.
    + apply Forall_take, (inv_entries _ _ HI).
    + unfold committed_prefix. apply Ht. lia.
    + rewrite len_slice_to by lia. lia.
  - unfold committed_prefix. simpl. apply Ht. lia.
Qed.

Lemma validate_no_panic x what : validateRaftEntry x ≠ Err (Panic what).
Proof. intros H. unfold validateRaftEntry in H. by case_all H. Qed.

Lemma append_loop_ok boot es s prev off s' e :
  Inv boot s → SnapshotIndex s ≤ prev + off ≤ SnapshotIndex s + len (Entries s) →
  prev + off + len es < two64 → append_loop s prev off es = (s', e) →
  loop_result boot s (prev + off) es s' e.
Proof.
  revert s off. induction es as [|x es IH]; intros s off HI Hr Hf H; cbn [append_loop] in H.
  { injection H as <- <-. split; [by apply Appended_refl|]. split; [done|].
    intros _. split; [unfold len in *; simpl in *; lia|]. intros k x Hk. by rewrite lookup_nil in Hk. }
  pose proof (inv_index _ _ HI) as Hi. pose proof (len_nonneg es).
  assert (len (x :: es) = 1 + len es) as Hlen by (unfold len; simpl; lia).
  rewrite u64_small in H by lia.
  replace (prev + off + 1 - SnapshotIndex s - 1) with (prev + off - SnapshotIndex s) in H by lia.
  destruct (prev + off + 1 <=? SnapshotIndex s) eqn:E1; bool_props; [lia|].
  assert (∀ s1, Appended boot s s1 (prev + off) →
    (∃ y, Entries s1 !! Z.to_nat (prev + off - SnapshotIndex s) = Some y ∧ Term y = Term x) →
    append_loop s1 prev (off + 1) es = (s', e) →
    loop_result boot s (prev + off) (x :: es) s' e) as Hgo.
  { intros s1 HA Hy Hloop. eapply loop_result_cons; [lia|exact HA|exact Hy|].
    destruct Hy as (y & Hy & _). pose proof (lookup_lt_Some _ _ _ Hy) as Hlt.
    pose proof (ap_snapshot _ _ _ _ HA) as Hs1.
    replace (prev + off + 1) with (prev + (off + 1)) by lia.
    apply IH; [apply HA|rewrite Hs1; unfold len; lia|lia|done]. }
  assert (∀ s0, s0 = set_entries s (slice_to (Entries s) (prev + off - SnapshotIndex s)) →
    CommitIndex s ≤ prev + off →
    (match validateRaftEntry x with
     | Ok _ => append_loop (set_entries s0 (Entries s0 ++ [x])) prev (off + 1) es
     | Err er => (s0, Some er)
     end) = (s', e) → loop_result boot s (prev + off) (x :: es) s' e) as Hst.
  { intros s0 -> Hcommit Hloop. destruct (validateRaftEntry x) as [[]|er] eqn:Ev.
    - eapply Hgo; [apply (Appended_store boot s (prev + off) x); auto; lia| |exact Hloop].
      simpl. exists x. split; [|done]. unfold slice_to.
      rewrite lookup_app_r by (rewrite length_take; lia).
      rewrite length_take. replace (_ - _)%nat with 0%nat by (unfold len in *; lia). done.
    - injection Hloop as <- <-. split; [apply Appended_truncate; auto; lia|].
      split; [|done]. intros what [= ->]. by eapply validate_no_panic. }
  destruct (prev + off - SnapshotIndex s <? len (Entries s)) eqn:E2; bool_props.
  - destruct (index_at_Some (Entries s) (prev + off - SnapshotIndex s)) as [y Hy]; [lia|].
    rewrite Hy in H. destruct (Term y =? Term x) eqn:E3; bool_props.
    + eapply (Hgo s); [by apply Appended_refl|eauto|done].
    + destruct (prev + off + 1 <=? CommitIndex s) eqn:E4; bool_props.
      * injection H as <- <-. split; [by apply Appended_refl|]. done.
      * eapply Hst; [done|lia|exact H].
  - eapply (Hst s); [|pose proof (inv_commit _ _ HI); lia|exact H].
    unfold slice_to. rewrite take_ge by (unfold len in *; lia). by destruct s.
Qed.

(** ** Snapshots and compaction *)

Lemma termAt_range boot s i t :
  Inv boot s → termAtLocked s i = Ok t → SnapshotIndex s ≤ i ≤ SnapshotIndex s + len (Entries s).
Proof.
  intros HI. pose proof (inv_index _ _ HI). pose proof (inv_commit _ _ HI).
  pose proof (len_nonneg (Entries s)). unfold termAtLocked. rewrite u64_small by lia.
  destruct (i =? SnapshotIndex s) eqn:E; bool_props; [lia|].
  destruct (_ || _) eqn:E2; [done|]. bool_props. lia.
Qed.

Lemma termAt_no_panic boot s i what :
  Inv boot s → termAtLocked s i ≠ Err (Panic what).
Proof.
  intros HI. pose proof (inv_index _ _ HI). pose proof (inv_commit _ _ HI).
  pose proof (len_nonneg (Entries s)). unfold termAtLocked. rewrite u64_small by lia.
  destruct (i =? SnapshotIndex s) eqn:E; bool_props; [done|].
  destruct (_ || _) eqn:E2; [done|]. bool_props.
  destruct (index_at_Some (Entries s) (i - SnapshotIndex s - 1)) as [y ->]; [lia|done].
Qed.

Lemma valid_term_nonzero e : entry_valid e → Term e ≠ 0.
Proof.
  unfold entry_valid, validateRaftEntry. destruct (Term e =? 0) eqn:E; [done|]. by bool_props.
Qed.

Lemma termAt_nonzero boot s i t :
  Inv boot s → i ≠ SnapshotIndex s → termAtLocked s i = Ok t → t ≠ 0.
Proof.
  intros HI Hi. unfold termAtLocked. rewrite (proj2 (Z.eqb_neq _ _)) by done.
  destruct (_ || _); [done|].
  destruct (index_at (Entries s) _) as [y|] eqn:Ey; [|done]. intros [= <-].
  apply valid_term_nonzero. pose proof (inv_entries _ _ HI) as Hv.
  rewrite Forall_lookup in Hv. eauto.
Qed.

Lemma joint_new_empty boot a : AppliedOk boot a → ap_jointOld a = [] → ap_jointNew a = [].
Proof.
  intros [_ _ _ _ [[_ H]|(H & _)]] E; [done|]. rewrite E in H. by apply canonical_nonempty in H.
Qed.

(** The state of a stable configuration whose log starts at its commit
    index: what both compaction and an installed snapshot produce. *)
Lemma Inv_at_snapshot boot s :
  1 ≤ boot → Format s = 1 → 0 < SnapshotIndex s → SnapshotTerm s ≠ 0 →
  CommitIndex s = SnapshotIndex s → SnapshotIndex s + len (Entries s) < two64 →
  AppliedOk boot (applied_of s) → SnapshotEpoch s = AppliedEpoch s →
  SnapshotView s = CommittedView s → JointOldVoters s = [] →
  Forall entry_valid (Entries s) → Inv boot s.
Proof.
  intros Hb Hf Hs Ht Hc Hfit Ha He Hv Hj Hes.
  pose proof (joint_new_empty _ _ Ha Hj) as Hjn. simpl in Hjn.
  pose proof (len_nonneg (Entries s)).
  split; auto; try lia.
  - destruct Ha as [H1 H2 H3 H4 H5]. split; simpl; rewrite ?He, ?Hv; auto.
  - exists (snapshot_applied s). unfold committed_prefix.
    rewrite Hc, Z.sub_diag. simpl. split; [done|].
    unfold replays, snapshot_applied, applied_of; simpl.
    rewrite He, Hv, Hj, Hjn. by split_and!; auto.
Qed.

Lemma len_retained boot s snapshot :
  Inv boot s → CommitIndex s < LastIncludedIndex snapshot < two64 →
  LastIncludedIndex snapshot + len (retainedEntries s snapshot) < two64.
Proof.
  intros HI Hl. unfold retainedEntries.
  destruct (termAtLocked s (LastIncludedIndex snapshot)) as [t|] eqn:Et.
  - pose proof (termAt_range _ _ _ _ HI Et). pose proof (inv_commit _ _ HI).
    destruct (_ =? _); [|unfold len; simpl; lia].
    rewrite len_slice_from by lia. lia.
  - unfold len; simpl; lia.
Qed.

Lemma retained_valid boot s snapshot :
  Inv boot s → Forall entry_valid (retainedEntries s snapshot).
Proof.
  intros HI. unfold retainedEntries. repeat case_match; try constructor.
  apply Forall_drop, (inv_entries _ _ HI).
Qed.

(** ** Handlers *)

Lemma persist_state {A} fault r (v : A) : state (fst (persist_then fault r v)) = state r.
Proof. by destruct fault as [[]|]. Qed.

Lemma persist_node {A} fault r (v : A) : nodeID (fst (persist_then fault r v)) = nodeID r.
Proof. by destruct fault as [[]|]. Qed.

Lemma persist_disk {A} fault r (v : A) :
  disk (fst (persist_then fault r v)) = disk r
  ∨ disk (fst (persist_then fault r v)) = Some (state r).
Proof. destruct fault as [[]|]; auto. Qed.

#[export] Hint Rewrite @persist_state @persist_node : gideon.

(** A handler invocation, as received by the store. *)
Inductive RaftOp : Set :=
  | OpObserveTerm (term : Z)
  | OpConfigureVoters (voters : list string)
  | OpInstallSnapshot (request : InstallSnapshotRequest)
  | OpCompactCommitted
  | OpBeginElection
  | OpRequestVote (request : RequestVoteRequest)
  | OpAppendEntries (request : AppendEntriesRequest)
  | OpAppendCommand (term : Z) (command : MetadataCommand)
  | OpCommitWithQuorum (index term acknowledgements voters : Z)
  | OpCommitWithVoterAcks (index term : Z) (acknowledgements : list string).

Definition exec (fault : option PersistStep) (r : RaftStore) (op : RaftOp) : RaftStore :=
  match op with
  | OpObserveTerm term => fst (ObserveTerm fault r term)
  | OpConfigureVoters voters => fst (ConfigureVoters fault r voters)
  | OpInstallSnapshot request => fst (InstallSnapshot fault r request)
  | OpCompactCommitted => fst (CompactCommitted fault r)
  | OpBeginElection => fst (BeginElection fault r)
  | OpRequestVote request => fst (RequestVote fault r request)
  | OpAppendEntries request => fst (AppendEntries fault r request)
  | OpAppendCommand term command => fst (AppendCommand fault r term command)
  | OpCommitWithQuorum i t a v => fst (CommitWithQuorum fault r i t a v)
  | OpCommitWithVoterAcks i t acks => fst (CommitWithVoterAcks fault r i t acks)
  end.

(** What the environment keeps: log indexes stay below [2^64], and a snapshot
    carries a later epoch than the bootstrap one and reaches a store that is
    not in the middle of a membership change. *)
Definition op_allowed (boot : Z) (r : RaftStore) (op : RaftOp) : Prop :=
  let s := state r in
  match op with
  | OpInstallSnapshot request =>
      let snapshot := is_Snapshot request in
      JointOldVoters s = [] ∧ 0 ≤ LastIncludedIndex snapshot < two64
      ∧ boot < snap_AppliedEpoch snapshot < two64
  | OpAppendEntries request =>
      0 ≤ ae_PrevLogIndex request ∧ ae_PrevLogIndex request + len (ae_Entries request) < two64
  | OpAppendCommand _ _ => SnapshotIndex s + len (Entries s) + 1 < two64
  | _ => True
  end.

Lemma Inv_ConfigureVoters boot fault r voters :
  Inv boot (state r) → Inv boot (state (fst (ConfigureVoters fault r voters))).
Proof.
  intros HI. unfold ConfigureVoters.
  destruct (normalizeVoters voters (nodeID r)) as [n|] eqn:En; [|done].
  destruct (negb _) eqn:Ev; [by case_match|]. bool_props.
  rewrite persist_state. apply normalizeVoters_canonical in En.
  destruct HI as [Hb Hf Hi Hc Hbd Hsn Hap He (b & Hrep & (E1 & E2 & E3 & E4 & E5))].
  apply len_zero in Ev. destruct Hap as [Ha1 Ha2 Ha3 Ha4 Ha5]. simpl in *.
  split; simpl; auto.
  - split; simpl; auto. left. destruct Ha5 as [?|(H1 & _ & H3)]; [done|].
    rewrite <-H3, Ev in H1. by apply canonical_nonempty in H1.
  - exists b. split; [done|]. split_and!; simpl; auto.
    left. destruct E5; congruence.
Qed.

Lemma Inv_InstallSnapshot boot fault r request :
  Inv boot (state r) → op_allowed boot r (OpInstallSnapshot request) →
  Inv boot (state (fst (InstallSnapshot fault r request))).
Proof.
  intros HI (Hj & Hidx & Hep). unfold InstallSnapshot.
  destruct (_ || _); [done|]. destruct (_ && _); [done|].
  destruct (_ || _) eqn:Eg; [done|]. destruct (_ && _); [done|].
  destruct (is_Term request <? CurrentTerm (state r)); [done|]. cbv zeta.
  set (s1 := if CurrentTerm (state r) <? is_Term request
             then set_term_vote (state r) (is_Term request) "" else state r).
  assert (Inv boot s1) as HI1 by (by apply Inv_observe).
  assert (JointOldVoters s1 = []) as Hj1 by (unfold s1; by rewrite joint_observe).
  clearbody s1. bool_props.
  destruct (normalizeVoters _ _) as [n|] eqn:En; [|done].
  apply normalizeVoters_canonical in En.
  match goal with H : equalStrings n _ = true |- _ => apply equalStrings_eq in H as -> end.
  destruct (snap_CommittedView (is_Snapshot request)) as [v|] eqn:Ev; [|done]. bool_props.
  destruct (LastIncludedIndex (is_Snapshot request) <=? CommitIndex s1) eqn:Ec; bool_props.
  { by rewrite persist_state. }
  rewrite persist_state. simpl. pose proof (inv_index _ _ HI1).
  apply Inv_at_snapshot; simpl; auto; try lia.
  - apply (inv_boot _ _ HI).
  - apply (inv_format _ _ HI1).
  - eapply len_retained; [done|lia].
  - split; simpl; auto; try lia.
    + split; [eauto|lia].
    + left. split; [done|]. by apply (joint_new_empty boot (applied_of s1)); [apply HI1|].
  - by eapply retained_valid.
Qed.

Lemma Inv_CompactCommitted boot fault r :
  Inv boot (state r) → Inv boot (state (fst (CompactCommitted fault r))).
Proof.
  intros HI. unfold CompactCommitted. destruct (negb _) eqn:Ej; [done|]. bool_props.
  destruct (CommitIndex (state r) =? SnapshotIndex (state r)) eqn:Ec; [done|]. bool_props.
  destruct (termAtLocked _ _) as [t|] eqn:Et; [|done]. rewrite persist_state. simpl.
  pose proof (inv_index _ _ HI). pose proof (inv_commit _ _ HI).
  apply Inv_at_snapshot; simpl; auto; try lia.
  - apply (inv_boot _ _ HI).
  - apply (inv_format _ _ HI).
  - by eapply termAt_nonzero.
  - rewrite len_slice_from by lia. lia.
  - destruct (inv_applied _ _ HI). by split.
  - by apply len_zero.
  - apply Forall_drop, (inv_entries _ _ HI).
Qed.

Lemma Inv_AppendEntries boot fault r request :
  Inv boot (state r) → op_allowed boot r (OpAppendEntries request) →
  Inv boot (state (fst (AppendEntries fault r request))).
Proof.
  intros HI [Hp Hfit]. unfold AppendEntries.
  destruct (_ || _); [done|]. destruct (_ && _); [done|].
  destruct (1024 <? _); [done|]. destruct (ae_Term request <? _); [done|]. cbv zeta.
  set (s1 := if CurrentTerm (state r) <? ae_Term request
             then set_term_vote (state r) (ae_Term request) "" else state r).
  assert (Inv boot s1) as HI1 by (by apply Inv_observe).
  clearbody s1. destruct (_ || _) eqn:Eg; [by rewrite persist_state|].
  rewrite (lastLog_index _ _ HI1) in Eg. bool_props.
  destruct (append_loop _ _ _ _) as [s2 e] eqn:El.
  apply (append_loop_ok boot) in El as (HA & _ & _); [|done|lia|lia].
  destruct e as [e|]; [apply HA|].
  destruct (CommitIndex s2 <? ae_LeaderCommit request) eqn:Ecm.
  - destruct (applyThroughLocked _ _) as [s3|] eqn:Ea; [|apply HA].
    rewrite persist_state. eapply Inv_applyThrough; [apply HA| |exact Ea].
    rewrite (lastLog_index _ _ (ap_inv _ _ _ _ HA)). lia.
  - rewrite persist_state. apply HA.
Qed.

Lemma Inv_AppendCommand boot fault r term command :
  Inv boot (state r) → op_allowed boot r (OpAppendCommand term command) →
  Inv boot (state (fst (AppendCommand fault r term command))).
Proof.
  intros HI Hfit. simpl in Hfit. unfold AppendCommand. destruct (_ || _); [done|].
  destruct (validateRaftEntry _) as [[]|] eqn:Ev; [|done].
  destruct (_ && _); [done|]. rewrite persist_state. simpl.
  pose proof (inv_index _ _ HI). pose proof (inv_commit _ _ HI).
  apply Inv_set_entries; auto.
  - apply Forall_app. split; [apply (inv_entries _ _ HI)|]. repeat constructor. done.
  - unfold committed_prefix. rewrite take_app_le by (unfold len in *; lia). done.
  - rewrite len_app. unfold len at 2 4. simpl. lia.
Qed.

Lemma Inv_commit_at boot fault r index term :
  Inv boot (state r) → notCommittable (state r) index term = false →
  Inv boot (state (fst (match applyThroughLocked (state r) index with
    | Err e => (r, Err e)
    | Ok s' => persist_then fault (set_state r s') tt
    end))).
Proof.
  intros HI Hn. unfold notCommittable in Hn. bool_props.
  destruct (termAtLocked (state r) index) as [t|] eqn:Et; [|done].
  pose proof (termAt_range _ _ _ _ HI Et).
  destruct (applyThroughLocked (state r) index) as [s'|] eqn:Ea; [|done].
  rewrite persist_state. simpl. eapply Inv_applyThrough; [exact HI| |exact Ea]. lia.
Qed.

(** Every handler keeps the in-memory invariant, failed writes included. *)
Lemma Inv_exec boot fault r op :
  Inv boot (state r) → op_allowed boot r op → Inv boot (state (exec fault r op)).
Proof.
  intros HI Hop. destruct op; simpl exec.
  - unfold ObserveTerm. case_match; [done|]. rewrite persist_state. by apply Inv_term_vote.
  - by apply Inv_ConfigureVoters.
  - by apply Inv_InstallSnapshot.
  - by apply Inv_CompactCommitted.
  - unfold BeginElection. case_match; [done|]. destruct (lastLogLocked _).
    rewrite persist_state. by apply Inv_term_vote.
  - unfold RequestVote. repeat (case_match; try done);
      rewrite ?persist_state; simpl; repeat apply Inv_term_vote; done.
  - by apply Inv_AppendEntries.
  - by apply Inv_AppendCommand.
  - unfold CommitWithQuorum. destruct (negb _); [done|].
    destruct (_ || _); [done|].
    destruct (notCommittable _ _ _) eqn:En; [done|]. by eapply Inv_commit_at.
  - unfold CommitWithVoterAcks. destruct (_ && _); [done|]. destruct (_ && _); [done|].
    destruct (notCommittable _ _ _) eqn:En; [done|]. by eapply Inv_commit_at.
Qed.

(** A handler writes the file only with the state it leaves in memory. *)
Lemma exec_disk fault r op :
  disk (exec fault r op) = disk r ∨ disk (exec fault r op) = Some (state (exec fault r op)).
Proof.
  destruct op; simpl exec;
    unfold ObserveTerm, ConfigureVoters, InstallSnapshot, CompactCommitted, BeginElection,
      RequestVote, AppendEntries, AppendCommand, CommitWithQuorum, CommitWithVoterAcks;
    repeat (case_match; try (by left));
    rewrite ?persist_state;
    match goal with
    | |- context [persist_then ?f ?x ?v] => destruct (persist_disk f x v) as [Hd|Hd]; rewrite Hd; auto
    end.
Qed.

Lemma exec_node fault r op : nodeID (exec fault r op) = nodeID r.
Proof.
  destruct op; simpl exec;
    unfold ObserveTerm, ConfigureVoters, InstallSnapshot, CompactCommitted, BeginElection,
      RequestVote, AppendEntries, AppendCommand, CommitWithQuorum, CommitWithVoterAcks;
    repeat (case_match; try done); by rewrite ?persist_node.
Qed.

(** ** Executions with failed writes, crashes and restarts *)

Inductive raft_step (boot : Z) : RaftStore → RaftStore → Prop :=
  | step_handler r fault op :
      op_allowed boot r op → raft_step boot r (exec fault r op)
  | step_restart r r' fault :
      OpenRaftStore fault (disk r) (nodeID r) boot = Ok r' → raft_step boot r r'.

Inductive raft_reachable (boot : Z) (node : string) : RaftStore → Prop :=
  | reach_open r :
      OpenRaftStore None None node boot = Ok r → raft_reachable boot node r
  | reach_step r r' :
      raft_reachable boot node r → raft_step boot r r' → raft_reachable boot node r'.

Definition DiskInv (boot : Z) (r : RaftStore) : Prop :=
  Inv boot (state r) ∧ ∃ d, disk r = Some d ∧ Inv boot d.

Lemma Inv_initial boot :
  1 ≤ boot < two64 →
  Inv boot (mkState 1 0 "" 0 boot 0 0 boot None [] [] [] None []).
Proof.
  intros Hb. split; simpl; auto; try lia; try (unfold len, two64; simpl; lia).
  - split; simpl; auto; try lia. split; [lia|]. by intros [? ?].
  - split; simpl; auto; try lia. split; [lia|]. by intros [? ?].
  - eexists. split; [done|]. by split_and!; auto.
Qed.

Lemma DiskInv_open_fresh boot node r :
  0 ≤ boot < two64 → OpenRaftStore None None node boot = Ok r →
  DiskInv boot r ∧ nodeID r = node ∧ ValidNodeID node = true.
Proof.
  intros Hb. unfold OpenRaftStore. destruct (_ || _) eqn:E; [done|]. bool_props.
  simpl. intros [= <-]. simpl.
  assert (Inv boot (mkState 1 0 "" 0 boot 0 0 boot None [] [] [] None [])) by (apply Inv_initial; lia).
  split; [split; eauto|done].
Qed.

(** A state the store wrote is refused only when its encoding does not fit
    into what [OpenRaftStore] reads. *)
Lemma open_DiskInv boot fault r :
  ValidNodeID (nodeID r) = true → DiskInv boot r →
  ∃ d, disk r = Some d ∧ OpenRaftStore fault (disk r) (nodeID r) boot
    = (let! _ := decode_limited (json_raft_state d) d in Ok (mkStore (nodeID r) d (Some d))).
Proof.
  intros Hn (HI & d & Hd & HId). exists d. split; [done|]. rewrite Hd.
  unfold OpenRaftStore. rewrite Hn. pose proof (inv_boot _ _ HId).
  rewrite (proj2 (Z.eqb_neq _ _)) by lia. cbn [negb orb].
  unfold decode_limited. destruct (within_limit _); [|done]. cbn [res_bind]. by rewrite (Inv_validate _ _ HId).
Qed.

Lemma reachable_DiskInv boot node r :
  0 ≤ boot < two64 → raft_reachable boot node r →
  DiskInv boot r ∧ nodeID r = node ∧ ValidNodeID node = true.
Proof.
  intros Hb. induction 1 as [r H|r r' _ (HD & <- & Hv) Hstep]; [by apply DiskInv_open_fresh|].
  destruct Hstep as [r fault op Hop|r r' fault Hopen].
  - rewrite exec_node. split; [|done]. destruct HD as (HI & d & Hd & HId).
    pose proof (Inv_exec boot fault r op HI Hop) as HI'. split; [done|].
    destruct (exec_disk fault r op) as [->| ->]; eauto.
  - destruct (open_DiskInv boot fault r Hv HD) as (d & Hd & Ho). rewrite Ho in Hopen.
    unfold decode_limited in Hopen. destruct (within_limit _); [|done]. injection Hopen as <-. simpl. split; [|done]. destruct HD as (_ & d' & Hd' & HId).
    split; simpl; [|exists d; split; [done|]]; congruence.
Qed.
