(* ===== verification/RaftSafety.v ===== *)
(** * Safety theorems of the Raft store

    Crash recovery, permanence of committed entries, log matching of
    [AppendEntries], quorum intersection, one vote per term across crashes
    and election safety; and behaviours in which the store falls short: a
    vote granted without being durable after a failed write, a stale entry
    committed, and written states that cannot be reopened, after a snapshot
    installed during a membership change or past the 8 MiB that are read. *)
From Stdlib Require Import ZArith Lia Ascii String.
From stdpp Require Import base tactics list gmap strings.
From S2P Require Import Prelude ClusterBase RaftStore RaftInvariant.
Local Open Scope string_scope.
Local Open Scope Z_scope.
Import EncodeJson.

(** ** Terms and votes *)

Lemma append_loop_vote es s prev off s' e :
  append_loop s prev off es = (s', e) → CurrentTerm s' = CurrentTerm s ∧ VotedFor s' = VotedFor s.
Proof.
  revert s off. induction es as [|x es IH]; intros s off H; cbn [append_loop] in H; [by simplify_eq|].
  repeat case_match; simplify_eq; try done;
    try (by apply IH in H); apply IH in H as [-> ->]; done.
Qed.

Lemma applyThrough_vote s target s' :
  applyThroughLocked s target = Ok s' → CurrentTerm s' = CurrentTerm s ∧ VotedFor s' = VotedFor s.
Proof.
  unfold applyThroughLocked. destruct (apply_loop _ _ _ _) as [[ci a]|]; simpl; [|done].
  by intros [= <-].
Qed.

(** Whom a handler may make the store vote for. *)
Definition op_candidate (r : RaftStore) (op : RaftOp) : option string :=
  match op with
  | OpRequestVote request => Some (rv_CandidateID request)
  | OpBeginElection => Some (nodeID r)
  | _ => None
  end.

(** How one handler moves the term and the vote when its write succeeds. *)
Inductive vote_change (candidate : option string) (r r' : RaftStore) : Prop :=
  | vote_kept :
      CurrentTerm (state r') = CurrentTerm (state r) → VotedFor (state r') = VotedFor (state r) →
      disk r' = disk r ∨ disk r' = Some (state r') → vote_change candidate r r'
  | vote_reset :
      CurrentTerm (state r) < CurrentTerm (state r') → VotedFor (state r') = "" →
      disk r' = disk r ∨ disk r' = Some (state r') → vote_change candidate r r'
  | vote_cast :
      CurrentTerm (state r) < CurrentTerm (state r')
      ∨ CurrentTerm (state r') = CurrentTerm (state r) ∧ VotedFor (state r) = "" →
      candidate = Some (VotedFor (state r')) → disk r' = Some (state r') → vote_change candidate r r'.

Lemma observe_term s (t : Z) :
  let s1 := if CurrentTerm s <? t then set_term_vote s t "" else s in
  CurrentTerm s1 = CurrentTerm s ∧ VotedFor s1 = VotedFor s
  ∨ CurrentTerm s < CurrentTerm s1 ∧ VotedFor s1 = "".
Proof. destruct (CurrentTerm s <? t) eqn:E; bool_props; simpl; [right|left]; done. Qed.

(** A change of the term only, persisted or not. *)
Lemma vote_change_observed c r s1 r' :
  CurrentTerm s1 = CurrentTerm (state r) ∧ VotedFor s1 = VotedFor (state r)
  ∨ CurrentTerm (state r) < CurrentTerm s1 ∧ VotedFor s1 = "" →
  CurrentTerm (state r') = CurrentTerm s1 ∧ VotedFor (state r') = VotedFor s1 →
  disk r' = disk r ∨ disk r' = Some (state r') → vote_change c r r'.
Proof.
  intros [[E1 E2]|[E1 E2]] [E3 E4] Hd.
  - apply vote_kept; [congruence..|done].
  - apply vote_reset; [lia|congruence|done].
Qed.

(** Closes a branch in which neither term nor vote moved. *)
Ltac kept := intros Hd; apply vote_kept; [reflexivity|reflexivity|exact Hd].

Lemma exec_vote_change r op :
  (op = OpBeginElection → 0 ≤ CurrentTerm (state r) ∧ CurrentTerm (state r) + 1 < two64) →
  vote_change (op_candidate r op) r (exec None r op).
Proof.
  intros Hterm. generalize (exec_disk None r op).
  destruct op as [t|vs|req| | |req|req|t c|i t a v|i t acks]; simpl exec.
  - unfold ObserveTerm. destruct (t <=? _) eqn:E; [kept|]. bool_props. intros Hd.
    apply vote_reset; [exact E|reflexivity|exact Hd].
  - unfold ConfigureVoters. destruct (normalizeVoters _ _); [|kept].
    destruct (negb _); [destruct (negb _); kept|kept].
  - unfold InstallSnapshot. destruct (_ || _); [kept|]. destruct (_ && _); [kept|].
    destruct (_ || _); [kept|]. destruct (_ && _); [kept|].
    destruct (is_Term req <? _); [kept|]. cbv zeta.
    pose proof (observe_term (state r) (is_Term req)) as Hobs. cbv zeta in Hobs. revert Hobs.
    generalize (if CurrentTerm (state r) <? is_Term req
               then set_term_vote (state r) (is_Term req) "" else state r).
    intros s1 Hobs. destruct (_ <=? _); intros Hd; apply (vote_change_observed _ r s1 _ Hobs);
      first [split; reflexivity|exact Hd].
  - unfold CompactCommitted. destruct (negb _); [kept|]. destruct (_ =? _); [kept|].
    destruct (termAtLocked _ _); kept.
  - unfold BeginElection. destruct (_ && _); [kept|].
    destruct (lastLogLocked _). intros _. apply vote_cast; [|reflexivity|reflexivity]. left. simpl.
    destruct (Hterm eq_refl). rewrite u64_small; lia.
  - unfold RequestVote. destruct (_ || _); [kept|]. destruct (_ && _); [kept|].
    destruct (rv_Term req <? _); [kept|].
    destruct (CurrentTerm (state r) <? rv_Term req) eqn:En; bool_props.
    + destruct (lastLogLocked _). cbv zeta. destruct (_ && negb _); intros Hd.
      * apply vote_cast; [left; exact En|reflexivity|reflexivity].
      * apply vote_reset; [exact En|reflexivity|exact Hd].
    + destruct (lastLogLocked _). cbv zeta. destruct (_ && negb _) eqn:Eg; [|kept].
      bool_props. match goal with H : _ ∨ _ |- _ => destruct H as [Hv|Hv] end; [|congruence].
      apply String.eqb_eq in Hv. intros _. apply vote_cast; [right; split; done|reflexivity|reflexivity].
  - unfold AppendEntries. destruct (_ || _); [kept|]. destruct (_ && _); [kept|].
    destruct (1024 <? _); [kept|]. destruct (ae_Term req <? _); [kept|]. cbv zeta.
    pose proof (observe_term (state r) (ae_Term req)) as Hobs. cbv zeta in Hobs. revert Hobs.
    generalize (if CurrentTerm (state r) <? ae_Term req
               then set_term_vote (state r) (ae_Term req) "" else state r).
    intros s1 Hobs. destruct (_ || _).
    { intros Hd. apply (vote_change_observed _ r s1 _ Hobs); [split; reflexivity|exact Hd]. }
    destruct (append_loop _ _ _ _) as [s2 e] eqn:El. apply append_loop_vote in El.
    destruct e; [intros Hd; apply (vote_change_observed _ r s1 _ Hobs); [exact El|exact Hd]|].
    destruct (_ <? ae_LeaderCommit req); [destruct (applyThroughLocked _ _) as [s3|] eqn:Ea|];
      intros Hd; apply (vote_change_observed _ r s1 _ Hobs); try exact Hd; try exact El.
    apply applyThrough_vote in Ea as [Ea1 Ea2]. simpl. split; [rewrite Ea1|rewrite Ea2]; apply El.
  - unfold AppendCommand. destruct (_ || _); [kept|]. destruct (validateRaftEntry _); [|kept].
    destruct (_ && _); kept.
  - unfold CommitWithQuorum. destruct (negb _); [kept|]. destruct (_ || _); [kept|].
    destruct (notCommittable _ _ _); [kept|]. destruct (applyThroughLocked _ _) as [s3|] eqn:Ea; [|kept].
    apply applyThrough_vote in Ea as [Ea1 Ea2]. intros Hd. apply vote_kept; [exact Ea1|exact Ea2|exact Hd].
  - unfold CommitWithVoterAcks. destruct (_ && _); [kept|]. destruct (_ && _); [kept|].
    destruct (notCommittable _ _ _); [kept|]. destruct (applyThroughLocked _ _) as [s3|] eqn:Ea; [|kept].
    apply applyThrough_vote in Ea as [Ea1 Ea2]. intros Hd. apply vote_kept; [exact Ea1|exact Ea2|exact Hd].
Qed.

(** ** Committed entries *)

(** The entry at an absolute log index, when the log retains it. *)
Definition log_at (s : raftPersistentState) (i : Z) : option RaftEntry :=
  index_at (Entries s) (i - SnapshotIndex s - 1).

(** [s'] holds every committed entry of [s] it has not compacted away. *)
Definition keeps_committed (s s' : raftPersistentState) : Prop :=
  CommitIndex s ≤ CommitIndex s' ∧ SnapshotIndex s ≤ SnapshotIndex s'
  ∧ ∀ i, SnapshotIndex s' < i ≤ CommitIndex s → log_at s' i = log_at s i.

Lemma keeps_same s s' :
  CommitIndex s ≤ CommitIndex s' → SnapshotIndex s' = SnapshotIndex s → Entries s' = Entries s →
  keeps_committed s s'.
Proof. intros Hc Hs He. split; [done|]. split; [lia|]. intros i _. unfold log_at. by rewrite Hs, He. Qed.

Lemma keeps_trans s1 s2 s3 :
  keeps_committed s1 s2 → keeps_committed s2 s3 → keeps_committed s1 s3.
Proof.
  intros (C1 & S1 & L1) (C2 & S2 & L2). split; [lia|]. split; [lia|].
  intros i Hi. rewrite L2 by lia. apply L1. lia.
Qed.

Lemma keeps_observe s (newer : bool) t : keeps_committed s (if newer then set_term_vote s t "" else s).
Proof. destruct newer; by apply keeps_same. Qed.

Lemma keeps_appended boot s s' from : Appended boot s s' from → keeps_committed s s'.
Proof.
  intros [HI HC HS _ HP _]. split; [lia|]. split; [lia|]. intros i Hi. unfold log_at, index_at.
  rewrite HS in *. unfold committed_prefix in HP. rewrite HC, HS in HP.
  apply (f_equal (.!! Z.to_nat (i - SnapshotIndex s - 1))) in HP.
  by rewrite !lookup_take_lt in HP by lia.
Qed.

Lemma keeps_applied boot s target s' :
  Inv boot s → target ≤ SnapshotIndex s + len (Entries s) →
  applyThroughLocked s target = Ok s' → keeps_committed s s'.
Proof.
  intros HI Ht Ha. destruct (Inv_applyThrough boot s target s' HI Ht Ha) as (_ & Hc & He & Hs).
  apply keeps_same; [lia|done..].
Qed.

Lemma keeps_commit_at boot fault r index term :
  Inv boot (state r) → notCommittable (state r) index term = false →
  keeps_committed (state r) (state (fst (match applyThroughLocked (state r) index with
    | Err e => (r, Err e)
    | Ok s' => persist_then fault (set_state r s') tt
    end))).
Proof.
  intros HI Hn. unfold notCommittable in Hn. bool_props.
  destruct (termAtLocked (state r) index) as [t|] eqn:Et; [|done].
  pose proof (termAt_range _ _ _ _ HI Et).
  destruct (applyThroughLocked (state r) index) as [s'|] eqn:Ea; [|by apply keeps_same].
  rewrite persist_state. simpl. eapply keeps_applied; [exact HI| |exact Ea]. lia.
Qed.

Lemma keeps_AppendEntries boot fault r request :
  Inv boot (state r) → op_allowed boot r (OpAppendEntries request) →
  keeps_committed (state r) (state (fst (AppendEntries fault r request))).
Proof.
  intros HI [Hp Hfit]. unfold AppendEntries.
  destruct (_ || _); [by apply keeps_same|]. destruct (_ && _); [by apply keeps_same|].
  destruct (1024 <? _); [by apply keeps_same|].
  destruct (ae_Term request <? _); [by apply keeps_same|]. cbv zeta.
  set (s1 := if CurrentTerm (state r) <? ae_Term request
             then set_term_vote (state r) (ae_Term request) "" else state r).
  assert (Inv boot s1) as HI1 by (by apply Inv_observe).
  assert (keeps_committed (state r) s1) as HK by apply keeps_observe.
  clearbody s1. destruct (_ || _) eqn:Eg; [by rewrite persist_state|].
  rewrite (lastLog_index _ _ HI1) in Eg. bool_props.
  destruct (append_loop _ _ _ _) as [s2 e] eqn:El.
  apply (append_loop_ok boot) in El as (HA & _ & _); [|done|lia|lia].
  pose proof (keeps_trans _ _ _ HK (keeps_appended _ _ _ _ HA)) as HK2.
  destruct e as [e|]; [exact HK2|].
  destruct (CommitIndex s2 <? ae_LeaderCommit request) eqn:Ecm; [|by rewrite persist_state].
  destruct (applyThroughLocked _ _) as [s3|] eqn:Ea; [|exact HK2].
  rewrite persist_state. apply (keeps_trans _ _ _ HK2).
  eapply keeps_applied; [apply HA| |exact Ea].
  rewrite (lastLog_index _ _ (ap_inv _ _ _ _ HA)). lia.
Qed.

Lemma keeps_CompactCommitted boot fault r :
  Inv boot (state r) → keeps_committed (state r) (state (fst (CompactCommitted fault r))).
Proof.
  intros HI. unfold CompactCommitted. destruct (negb _); [by apply keeps_same|].
  destruct (CommitIndex (state r) =? SnapshotIndex (state r)); [by apply keeps_same|].
  destruct (termAtLocked _ _) as [t|]; [|by apply keeps_same].
  rewrite persist_state. pose proof (inv_index _ _ HI).
  split; simpl; [lia|]. split; [lia|]. intros i Hi. lia.
Qed.

Lemma keeps_InstallSnapshot boot fault r request :
  Inv boot (state r) → keeps_committed (state r) (state (fst (InstallSnapshot fault r request))).
Proof.
  intros HI. unfold InstallSnapshot.
  destruct (_ || _); [by apply keeps_same|]. destruct (_ && _); [by apply keeps_same|].
  destruct (_ || _); [by apply keeps_same|]. destruct (_ && _); [by apply keeps_same|].
  destruct (is_Term request <? _); [by apply keeps_same|]. cbv zeta.
  set (s1 := if CurrentTerm (state r) <? is_Term request
             then set_term_vote (state r) (is_Term request) "" else state r).
  assert (keeps_committed (state r) s1) as HK by apply keeps_observe.
  assert (Inv boot s1) as HI1 by (by apply Inv_observe). clearbody s1.
  destruct (_ <=? CommitIndex s1) eqn:Ec; rewrite persist_state; [exact HK|]. bool_props.
  apply (keeps_trans _ _ _ HK). pose proof (inv_index _ _ HI1).
  split; simpl; [lia|]. split; [lia|]. intros i Hi. lia.
Qed.

Lemma keeps_AppendCommand boot fault r term command :
  Inv boot (state r) → keeps_committed (state r) (state (fst (AppendCommand fault r term command))).
Proof.
  intros HI. unfold AppendCommand. destruct (_ || _); [by apply keeps_same|].
  destruct (validateRaftEntry _); [|by apply keeps_same].
  destruct (_ && _); [by apply keeps_same|]. rewrite persist_state.
  pose proof (inv_index _ _ HI). pose proof (inv_commit _ _ HI).
  split; simpl; [lia|]. split; [lia|]. intros i Hi. unfold log_at, index_at. simpl.
  rewrite lookup_app_l; [done|]. unfold len in *. lia.
Qed.

Lemma keeps_exec boot fault r op :
  Inv boot (state r) → op_allowed boot r op → keeps_committed (state r) (state (exec fault r op)).
Proof.
  intros HI Hop. destruct op; simpl exec.
  - unfold ObserveTerm. destruct (_ <=? _); [by apply keeps_same|]. rewrite persist_state.
    by apply keeps_same.
  - unfold ConfigureVoters. destruct (normalizeVoters _ _); [|by apply keeps_same].
    destruct (negb _); [destruct (negb _); by apply keeps_same|]. rewrite persist_state.
    by apply keeps_same.
  - by eapply keeps_InstallSnapshot.
  - by eapply keeps_CompactCommitted.
  - unfold BeginElection. destruct (_ && _); [by apply keeps_same|]. destruct (lastLogLocked _).
    rewrite persist_state. by apply keeps_same.
  - unfold RequestVote. repeat (case_match; try (by apply keeps_same));
      rewrite persist_state; by apply keeps_same.
  - by eapply keeps_AppendEntries.
  - by eapply keeps_AppendCommand.
  - unfold CommitWithQuorum. destruct (negb _); [by apply keeps_same|].
    destruct (_ || _); [by apply keeps_same|].
    destruct (notCommittable _ _ _) eqn:En; [by apply keeps_same|]. by eapply keeps_commit_at.
  - unfold CommitWithVoterAcks. destruct (_ && _); [by apply keeps_same|].
    destruct (_ && _); [by apply keeps_same|].
    destruct (notCommittable _ _ _) eqn:En; [by apply keeps_same|]. by eapply keeps_commit_at.
Qed.

(** ** Quorums *)

Definition count_in (l : list string) (acks : gset string) : Z := len (filter (λ v, v ∈ acks) l).

Lemma count_in_cons v l acks :
  count_in (v :: l) acks = (if bool_decide (v ∈ acks) then 1 else 0) + count_in l acks.
Proof.
  unfold count_in. rewrite filter_cons. unfold len.
  destruct (decide (v ∈ acks)) as [H|H]; [rewrite bool_decide_true by done|rewrite bool_decide_false by done];
    simpl length; lia.
Qed.

Lemma count_in_perm l k acks : l ≡ₚ k → count_in l acks = count_in k acks.
Proof. intros H. unfold count_in, len. by rewrite H. Qed.

Lemma count_in_overlap l acks acks' :
  len l < count_in l acks + count_in l acks' → ∃ v, v ∈ l ∧ v ∈ acks ∧ v ∈ acks'.
Proof.
  induction l as [|v l IH]; [unfold count_in, len; simpl; lia|].
  rewrite !count_in_cons. assert (len (v :: l) = 1 + len l) as -> by (unfold len; simpl; lia).
  destruct (decide (v ∈ acks ∧ v ∈ acks')) as [[H1 H2]|Hn].
  { intros _. exists v. split; [apply elem_of_cons; auto|done]. }
  intros H. destruct IH as (w & Hw & Hws).
  { repeat case_bool_decide; try lia. tauto. }
  exists w. split; [apply elem_of_cons; auto|done].
Qed.

Lemma voterMajority_count voters acks :
  voterMajority voters acks = true → len voters < 2 * count_in voters acks.
Proof.
  unfold voterMajority. fold (count_in voters acks). intros H. bool_props.
  pose proof (Z.div_mod (len voters) 2). pose proof (Z.mod_pos_bound (len voters) 2). lia.
Qed.

Lemma majority_overlap voters acks acks' :
  voterMajority voters acks = true → voterMajority voters acks' = true →
  ∃ v, v ∈ voters ∧ v ∈ acks ∧ v ∈ acks'.
Proof. intros H%voterMajority_count H'%voterMajority_count. apply count_in_overlap. lia. Qed.

(** The voter sets a majority of which a decision needs. *)
Definition quorum_sets (s : raftPersistentState) : list (list string) :=
  if len (JointOldVoters s) =? 0 then [Voters s] else [JointOldVoters s; JointNewVoters s].

Lemma HasVoterQuorum_sets r acks :
  HasVoterQuorum r acks = true →
  ∀ V, V ∈ quorum_sets (state r) → voterMajority V (stringSet acks) = true.
Proof.
  unfold HasVoterQuorum, quorum_sets. destruct (len _ =? 0); simpl; intros H V HV; bool_props.
  - apply list_elem_of_singleton in HV as ->. done.
  - apply elem_of_cons in HV as [->|HV%list_elem_of_singleton]; [done|]. by rewrite HV.
Qed.

Lemma one_server_extends V W :
  NoDup V → NoDup W → voterSetDifference V W = 1 → (∃ x, W ≡ₚ x :: V) ∨ (∃ x, V ≡ₚ x :: W).
Proof.
  intros HV HW H. unfold voterSetDifference, stringSet in H.
  assert (∀ X Y : list string, NoDup X → NoDup Y → size (list_to_set X ∖ list_to_set Y : gset string) = 0%nat →
    size (list_to_set Y ∖ list_to_set X : gset string) = 1%nat → ∃ x, Y ≡ₚ x :: X) as Hext.
  { intros X Y HX HY H0 H1. apply size_empty_inv in H0. apply size_1_elem_of in H1 as [x Hx].
    exists x. apply NoDup_Permutation; [done| |].
    - apply NoDup_cons. split; [|done]. intros Hin. destruct (Hx x) as [_ Hx2].
      rewrite elem_of_singleton, elem_of_difference, !elem_of_list_to_set in Hx2. tauto.
    - intros z. rewrite elem_of_cons. specialize (H0 z). specialize (Hx z).
      rewrite elem_of_difference, !elem_of_list_to_set, elem_of_empty in H0.
      rewrite elem_of_difference, !elem_of_list_to_set, elem_of_singleton in Hx.
      destruct (decide (z ∈ X)), (decide (z ∈ Y)); tauto. }
  destruct (decide (size (list_to_set V ∖ list_to_set W : gset string) = 0%nat)) as [E|E];
    [left|right]; apply Hext; auto; lia.
Qed.

Lemma one_server_overlap V W acks acks' :
  NoDup V → NoDup W → voterSetDifference V W = 1 →
  voterMajority V acks = true → voterMajority W acks' = true →
  ∃ v, v ∈ acks ∧ v ∈ acks'.
Proof.
  intros HV HW Hd Ha Hb. unfold voterMajority in Ha, Hb.
  fold (count_in V acks) in Ha. fold (count_in W acks') in Hb. bool_props.
  assert (∀ a : Z, a / 2 + (a + 1) / 2 = a) as Hhalf.
  { intros a. pose proof (Z.div_mod a 2). pose proof (Z.mod_pos_bound a 2).
    pose proof (Z.div_mod (a + 1) 2). pose proof (Z.mod_pos_bound (a + 1) 2). lia. }
  assert (∀ x (X Y : list string), Y ≡ₚ x :: X → len Y = len X + 1 ∧ ∀ s, count_in X s ≤ count_in Y s) as Hx.
  { intros x X Y HP. split; [unfold len; rewrite HP; simpl; lia|].
    intros s. rewrite (count_in_perm _ _ _ HP), count_in_cons. case_bool_decide; lia. }
  destruct (one_server_extends V W HV HW Hd) as [[x HP]|[x HP]];
    destruct (Hx _ _ _ HP) as [Hl Hc].
  - destruct (count_in_overlap W acks acks') as (v & _ & ?); [|eauto].
    pose proof (Hc acks). pose proof (Hhalf (len V)). rewrite Hl in *. lia.
  - destruct (count_in_overlap V acks acks') as (v & _ & ?); [|eauto].
    pose proof (Hc acks'). pose proof (Hhalf (len W)). rewrite Hl in *. lia.
Qed.

(** ** One vote per term *)

(** The vote a handler reports as granted: to the requesting candidate, or
    to itself when it starts an election. *)
Definition granted_vote (r : RaftStore) (op : RaftOp) : list (Z * string) :=
  match op with
  | OpRequestVote request =>
      match snd (RequestVote None r request) with
      | Ok response => if rvr_VoteGranted response then [(rvr_Term response, rv_CandidateID request)] else []
      | Err _ => []
      end
  | OpBeginElection =>
      match snd (BeginElection None r) with
      | Ok request => [(rv_Term request, rv_CandidateID request)]
      | Err _ => []
      end
  | _ => []
  end.

(** A run of one node in which no file operation fails, with crashes at any
    point between handlers (the in-memory state is lost), and the votes it
    has granted so far.  Terms stay below [2^64]. *)
Inductive vote_run (boot : Z) (node : string) : RaftStore → list (Z * string) → Prop :=
  | run_open r : OpenRaftStore None None node boot = Ok r → vote_run boot node r []
  | run_handler r votes op :
      vote_run boot node r votes → CurrentTerm (state r) + 1 < two64 →
      vote_run boot node (exec None r op) (granted_vote r op ++ votes)
  | run_crash r votes r' :
      vote_run boot node r votes → OpenRaftStore None (disk r) node boot = Ok r' →
      vote_run boot node r' votes.

Record VoteInv (node : string) (r : RaftStore) (votes : list (Z * string)) : Prop := {
  vi_node : nodeID r = node ∧ ValidNodeID node = true;
  vi_disk : ∃ d, disk r = Some d ∧ 0 ≤ CurrentTerm d ≤ CurrentTerm (state r)
    ∧ (CurrentTerm d = CurrentTerm (state r) → VotedFor d = VotedFor (state r))
    ∧ (CurrentTerm d < CurrentTerm (state r) → VotedFor (state r) = "")
    ∧ ∀ t c, (t, c) ∈ votes → c ≠ "" ∧ (t < CurrentTerm d ∨ t = CurrentTerm d ∧ VotedFor d = c);
  vi_unique : ∀ t c c', (t, c) ∈ votes → (t, c') ∈ votes → c = c';
}.

Lemma ValidNodeID_nonempty c : ValidNodeID c = true → c ≠ "".
Proof. by intros H ->. Qed.

Lemma validate_vote boot s s' :
  validateLocked boot s = Ok s' → CurrentTerm s' = CurrentTerm s ∧ VotedFor s' = VotedFor s.
Proof.
  unfold validateLocked. cbv zeta.
  assert (∀ b : bool, let s1 := if b then set_snapshot_epoch s boot else s in
    CurrentTerm s1 = CurrentTerm s ∧ VotedFor s1 = VotedFor s) as Hb by (by intros []).
  specialize (Hb ((SnapshotEpoch s =? 0) && (SnapshotIndex s =? 0))). revert Hb.
  generalize (if (SnapshotEpoch s =? 0) && (SnapshotIndex s =? 0) then set_snapshot_epoch s boot else s).
  cbv zeta. intros s1 Hs1.
  do 3 (destruct (_ || _); [discriminate|]). destruct (negb _); [discriminate|].
  do 2 (destruct (_ && _); [discriminate|]).
  destruct (replay_loop _ _ _ _) as [a|]; simpl; [|discriminate].
  destruct (negb _); [discriminate|]. destruct (_ || _); [discriminate|].
  destruct (ap_view a), (CommittedView s1); [destruct (negb _)| | |]; intros [= <-]; exact Hs1.
Qed.

(** Closes a branch in which no vote is granted. *)
Ltac no_vote := intros Hin; exfalso; exact (proj1 (elem_of_nil _) Hin).

(** A granted vote is on disk when the handler returns. *)
Lemma granted_on_disk node r votes op t c :
  VoteInv node r votes → CurrentTerm (state r) + 1 < two64 → (t, c) ∈ granted_vote r op →
  c ≠ "" ∧ ∃ d, disk (exec None r op) = Some d ∧ CurrentTerm d = t ∧ VotedFor d = c.
Proof.
  intros [[Hn Hvn] (d & Hd & Ht & Heq & Hlt & _) _] Hfit.
  destruct op; simpl granted_vote; simpl exec; try no_vote.
  - unfold BeginElection. destruct (_ && _); [no_vote|].
    destruct (lastLogLocked _). simpl. intros Hin. apply list_elem_of_singleton in Hin as [= -> ->].
    rewrite Hn. split; [by apply ValidNodeID_nonempty|]. eexists. split; [reflexivity|done].
  - unfold RequestVote. destruct (_ || _) eqn:Ev; [no_vote|].
    destruct (_ && _); [no_vote|].
    destruct (rv_Term request <? _); [no_vote|].
    bool_props. match goal with H : ValidNodeID _ = true |- _ => apply ValidNodeID_nonempty in H as Hc end.
    cbv zeta. destruct (CurrentTerm (state r) <? rv_Term request) eqn:En; bool_props.
    + destruct (lastLogLocked _). simpl.
      destruct (_ || _ && _) eqn:Eu; simpl.
      2: { no_vote. }
      destruct (rv_CandidateID request) as [|x y] eqn:Er; [done|]. simpl.
      intros Hin. apply list_elem_of_singleton in Hin as [= -> ->]. split; [done|].
      eexists. split; [reflexivity|done].
    + destruct (lastLogLocked _). simpl.
      destruct ((_ || _ && _) && (_ || _)) eqn:Eu; simpl.
      2: { no_vote. }
      destruct (String.eqb (VotedFor (state r)) (rv_CandidateID request)) eqn:Es; simpl;
        intros Hin; apply list_elem_of_singleton in Hin as [= -> ->]; (split; [done|]).
      * apply String.eqb_eq in Es. exists d. split; [done|].
        destruct (decide (CurrentTerm d = CurrentTerm (state r))) as [E|E].
        { split; [done|]. by rewrite (Heq E). }
        exfalso. apply Hc. rewrite <-Es. apply Hlt. lia.
      * eexists. split; [reflexivity|done].
Qed.

Lemma VoteInv_exec node r votes op :
  VoteInv node r votes → CurrentTerm (state r) + 1 < two64 →
  VoteInv node (exec None r op) (granted_vote r op ++ votes).
Proof.
  intros HV Hfit. pose proof (granted_on_disk node r votes op) as Hg.
  pose proof HV as HV0. destruct HV as [Hn (d & Hd & Ht & Heq & Hlt & Hall) Huniq].
  assert (vote_change (op_candidate r op) r (exec None r op)) as Hch by (apply exec_vote_change; lia).
  assert (∃ d', disk (exec None r op) = Some d' ∧ 0 ≤ CurrentTerm d' ≤ CurrentTerm (state (exec None r op))
    ∧ (CurrentTerm d' = CurrentTerm (state (exec None r op)) → VotedFor d' = VotedFor (state (exec None r op)))
    ∧ (CurrentTerm d' < CurrentTerm (state (exec None r op)) → VotedFor (state (exec None r op)) = "")
    ∧ (CurrentTerm d < CurrentTerm d' ∨ CurrentTerm d = CurrentTerm d' ∧ (VotedFor d = "" ∨ VotedFor d' = VotedFor d)))
    as (d' & Hd' & Ht' & Heq' & Hlt' & Hmono).
  { destruct Hch as [E1 E2 [Hk|Hk]|E1 E2 [Hk|Hk]|E1 _ Hk].
    - exists d. rewrite Hk, E1, E2. split_and!; auto; lia.
    - eexists. split; [exact Hk|]. rewrite E1, E2. split_and!; auto; try lia.
      destruct (decide (CurrentTerm d = CurrentTerm (state r))); [right; split; [done|right; symmetry; auto]|left; lia].
    - exists d. rewrite Hk, E2. split_and!; auto; try lia; intros; exfalso; lia.
    - eexists. split; [exact Hk|]. split_and!; auto; lia.
    - eexists. split; [exact Hk|]. split_and!; auto; try lia.
      destruct E1 as [E1|[E1 E2]]; [left; lia|].
      destruct (decide (CurrentTerm d = CurrentTerm (state r))) as [E|E]; [right|left; lia].
      split; [lia|]. left. rewrite <-E2. auto. }
  assert (∀ t c, (t, c) ∈ granted_vote r op → c ≠ "" ∧ t = CurrentTerm d' ∧ VotedFor d' = c) as Hnew.
  { intros t c Hin. destruct (Hg t c HV0 Hfit Hin) as (Hc & d2 & Hd2 & <- & <-).
    rewrite Hd' in Hd2. by injection Hd2 as <-. }
  assert (∀ t c, (t, c) ∈ votes → c ≠ "" ∧ (t < CurrentTerm d' ∨ t = CurrentTerm d' ∧ VotedFor d' = c)) as Hold.
  { intros t c Hin. destruct (Hall t c Hin) as [Hc Hor]. split; [done|].
    destruct Hmono as [?|[E Hv]]; [left; lia|]. destruct Hor as [?|[-> Hv2]]; [left; lia|].
    right. split; [done|]. destruct Hv; congruence. }
  split; [by rewrite exec_node| |].
  - exists d'. split; [done|]. do 3 (split; [done|]).
    intros t c [(? & ? & ?)%Hnew|Hin]%elem_of_app; auto.
  - intros t c c' [(_ & H1 & H2)%Hnew|Hin]%elem_of_app [(_ & H3 & H4)%Hnew|Hin']%elem_of_app.
    + congruence.
    + destruct (Hold _ _ Hin') as [_ [?|[? ?]]]; [lia|congruence].
    + destruct (Hold _ _ Hin) as [_ [?|[? ?]]]; [lia|congruence].
    + eauto.
Qed.

Lemma VoteInv_open boot node r : OpenRaftStore None None node boot = Ok r → VoteInv node r [].
Proof.
  unfold OpenRaftStore. destruct (_ || _) eqn:E; [done|]. bool_props.
  intros [= <-]. split; [done| |intros t c c'; no_vote].
  simpl. eexists. split; [reflexivity|]. simpl. split_and!; try done; try lia. intros t c. no_vote.
Qed.

Lemma VoteInv_restart boot node r r' votes :
  VoteInv node r votes → OpenRaftStore None (disk r) node boot = Ok r' → VoteInv node r' votes.
Proof.
  intros [[Hn Hvn] (d & Hd & Ht & _ & _ & Hall) Huniq] Ho. rewrite Hd in Ho.
  unfold OpenRaftStore, decode_limited in Ho. destruct (_ || _); [done|]. destruct (within_limit _); [|done].
  cbn [res_bind] in Ho. destruct (validateLocked boot d) as [s|] eqn:Ev; [|done]. injection Ho as <-.
  apply validate_vote in Ev as [E1 E2]. split; [done| |done]. exists d. simpl. rewrite E1, E2.
  split_and!; auto; lia.
Qed.

Lemma vote_run_inv boot node r votes : vote_run boot node r votes → VoteInv node r votes.
Proof.
  induction 1 as [r Ho|r votes op Hr IH Hfit|r votes r' Hr IH Ho];
    [by eapply VoteInv_open|by apply VoteInv_exec|by eapply VoteInv_restart].
Qed.

(** ** The log under term changes and interpretation *)

Lemma log_observe s (newer : bool) t :
  let s1 := if newer then set_term_vote s t "" else s in
  SnapshotIndex s1 = SnapshotIndex s ∧ Entries s1 = Entries s ∧ ∀ i, termAtLocked s1 i = termAtLocked s i.
Proof. by destruct newer. Qed.

Lemma applyThrough_log s target s' :
  applyThroughLocked s target = Ok s' → SnapshotIndex s' = SnapshotIndex s ∧ Entries s' = Entries s.
Proof.
  unfold applyThroughLocked. destruct (apply_loop _ _ _ _) as [[ci a]|]; simpl; [|done].
  by intros [= <-].
Qed.

(** ** Theorems *)

(** C22. Crash recovery: whatever sequence of handler calls, failed file
    operations and restarts a store has gone through, the state file exists
    and [OpenRaftStore] yields exactly the state that was written last, or
    refuses it for the one reason that its encoding exceeds the 8 MiB the
    decoder reads.  The handler calls are those [op_allowed] admits: no
    snapshot is installed during a joint configuration
    ([snapshot_during_joint_unreadable] is that case), an installed snapshot
    carries an epoch past the bootstrap epoch, and log indexes stay below
    [2^64]. *)
Theorem raft_recoverable boot node r fault :
  0 ≤ boot < two64 → raft_reachable boot node r →
  ∃ d, disk r = Some d ∧ OpenRaftStore fault (disk r) node boot
    = if within_limit (json_raft_state d) then Ok (mkStore node d (Some d))
      else Err (Errorf "decode state: unexpected EOF").
Proof.
  intros Hb Hr. destruct (reachable_DiskInv boot node r Hb Hr) as (HD & <- & Hv).
  destruct (open_DiskInv boot fault r Hv HD) as (d & Hd & Ho). exists d. split; [done|].
  rewrite Ho. unfold decode_limited. by destruct (within_limit _).
Qed.

(** C23. Committed entries are permanent: from any reachable store, any
    handler, successful or not, leaves the commit index and the snapshot
    index no smaller, and every committed entry that is still retained is the
    entry that was there.  The handlers are those [op_allowed] admits. *)
Theorem committed_entries_permanent boot node r fault op :
  0 ≤ boot < two64 → raft_reachable boot node r → op_allowed boot r op →
  keeps_committed (state r) (state (exec fault r op)).
Proof.
  intros Hb Hr Hop. destruct (reachable_DiskInv boot node r Hb Hr) as ((HI & _) & _).
  by apply (keeps_exec boot).
Qed.

(** C24. One vote per term: over any run of a node with crashes and no failed
    write, the node grants at most one candidate its vote in each term. *)
Theorem one_vote_per_term boot node r votes t c c' :
  vote_run boot node r votes → (t, c) ∈ votes → (t, c') ∈ votes → c = c'.
Proof. intros Hr%vote_run_inv. apply (vi_unique _ _ _ Hr). Qed.


(** Membership changes move between overlapping quorums: for the two voter
    sets of a joint-consensus entry the store accepts, any majority of the
    old set and any majority of the new set share a voter. *)
Theorem joint_entry_quorums_overlap entry acks acks' :
  validateRaftEntry entry = Ok tt → Type_ (Command entry) ≠ advance_epoch →
  voterMajority (OldVoters (Command entry)) acks = true →
  voterMajority (NewVoters (Command entry)) acks' = true →
  ∃ v, v ∈ acks ∧ v ∈ acks'.
Proof.
  intros Hv Ht Ho Hn. unfold validateRaftEntry in Hv. destruct (Term entry =? 0); [done|].
  destruct (Type_ (Command entry)); try done; destruct (_ || _) eqn:E in Hv; try done; bool_props;
    (eapply one_server_overlap; [| | |exact Ho|exact Hn]; [| |done]; by apply canonicalVoters_ok).
Qed.

(** Log matching: when [AppendEntries] reports success, the entry before
    the batch has the leader's term, the log holds an entry of the leader's
    term at every position of the batch, the log up to the batch is
    untouched, the reported match index is the batch's last index, and the
    whole state is on disk. *)
Theorem append_entries_matches boot r request r' response :
  Inv boot (state r) → op_allowed boot r (OpAppendEntries request) →
  AppendEntries None r request = (r', Ok response) → aer_Success response = true →
  aer_MatchIndex response = ae_PrevLogIndex request + len (ae_Entries request)
  ∧ termAtLocked (state r) (ae_PrevLogIndex request) = Ok (ae_PrevLogTerm request)
  ∧ (∀ k x, ae_Entries request !! k = Some x →
       ∃ y, log_at (state r') (ae_PrevLogIndex request + Z.of_nat k + 1) = Some y ∧ Term y = Term x)
  ∧ (∀ i, SnapshotIndex (state r) < i ≤ ae_PrevLogIndex request → log_at (state r') i = log_at (state r) i)
  ∧ disk r' = Some (state r').
Proof.
  intros HI [Hp Hfit]. unfold AppendEntries.
  destruct (_ || _); [discriminate|]. destruct (_ && _); [by intros [= _ <-]|].
  destruct (1024 <? _); [discriminate|]. destruct (ae_Term request <? _); [by intros [= _ <-]|]. cbv zeta.
  pose proof (Inv_observe boot (state r) (CurrentTerm (state r) <? ae_Term request) (ae_Term request) HI) as HI1.
  pose proof (log_observe (state r) (CurrentTerm (state r) <? ae_Term request) (ae_Term request)) as HL1.
  revert HI1 HL1. generalize (if CurrentTerm (state r) <? ae_Term request
             then set_term_vote (state r) (ae_Term request) "" else state r).
  intros s1 HI1 (HS1 & HE1 & HT1). destruct (_ || _) eqn:Eg; [by intros [= _ <-]|].
  rewrite (lastLog_index _ _ HI1) in Eg. bool_props.
  destruct (append_loop _ _ _ _) as [s2 e] eqn:El.
  apply (append_loop_ok boot) in El as (HA & _ & Hres); [|done|lia|lia].
  destruct e as [e|]; [discriminate|]. destruct (Hres eq_refl) as [_ Hall].
  destruct (termAtLocked s1 _) as [pt|] eqn:Ept; [|done]. bool_props. subst pt.
  destruct (if CommitIndex s2 <? ae_LeaderCommit request then _ else _) as [s3|] eqn:Ea; [|discriminate].
  assert (SnapshotIndex s3 = SnapshotIndex s2 ∧ Entries s3 = Entries s2) as [HS3 HE3].
  { destruct (CommitIndex s2 <? _); [|by injection Ea as <-].
    apply (applyThrough_log _ _ _ Ea). }
  intros [= <- <-] _. simpl. rewrite HS3. pose proof (ap_snapshot _ _ _ _ HA) as HS2.
  pose proof (inv_index _ _ HI1). split_and!.
  - rewrite HS2, Z.max_l, u64_small; [done| |]; pose proof (len_nonneg (ae_Entries request)); lia.
  - by rewrite <-HT1.
  - intros k x Hk. destruct (Hall k x Hk) as (y & Hy & Hty). exists y. split; [|done].
    unfold log_at, index_at. rewrite HS3, HE3, HS2, <-Hy. f_equal. lia.
  - intros i Hi. unfold log_at, index_at. rewrite HS3, HE3, HS2.
    pose proof (ap_kept _ _ _ _ HA) as Hk.
    apply (f_equal (.!! Z.to_nat (i - SnapshotIndex s1 - 1))) in Hk.
    rewrite !lookup_take_lt in Hk by lia. by rewrite Hk, HE1, HS1.
  - done.
Qed.

(** The metadata a node serves is determined by its committed log: two
    states with the same snapshot contents and the same committed entries
    have applied the same epoch and the same view, and are in the same joint
    configuration. *)
Theorem committed_metadata_determined boot s1 s2 :
  Inv boot s1 → Inv boot s2 →
  SnapshotEpoch s1 = SnapshotEpoch s2 → SnapshotView s1 = SnapshotView s2 →
  committed_prefix s1 = committed_prefix s2 →
  AppliedEpoch s1 = AppliedEpoch s2 ∧ CommittedView s1 = CommittedView s2
  ∧ JointOldVoters s1 = JointOldVoters s2 ∧ JointNewVoters s1 = JointNewVoters s2.
Proof.
  intros HI1 HI2 He Hv Hp.
  destruct (inv_replay _ _ HI1) as (b1 & Hb1 & E1 & E2 & E3 & E4 & _).
  destruct (inv_replay _ _ HI2) as (b2 & Hb2 & F1 & F2 & F3 & F4 & _).
  unfold snapshot_applied in *. rewrite He, Hv, Hp, Hb2 in Hb1. injection Hb1 as ->.
  simpl in *. split_and!; congruence.
Qed.

(** Snapshot transfer: a follower that accepts the snapshot of a leader
    whose committed log is compacted ends with the leader's commit index,
    applied epoch, view and voters, durably. *)
Theorem snapshot_transfer boot leader follower term leaderID r' response snapshot :
  Inv boot (state leader) → CommitIndex (state leader) = SnapshotIndex (state leader) →
  CommitIndex (state follower) < CommitIndex (state leader) →
  Snapshot leader = Some snapshot →
  InstallSnapshot None follower (mkInstallRequest term leaderID snapshot) = (r', Ok response) →
  isr_Success response = true →
  isr_MatchIndex response = CommitIndex (state leader)
  ∧ CommitIndex (state r') = CommitIndex (state leader)
  ∧ AppliedEpoch (state r') = AppliedEpoch (state leader)
  ∧ CommittedView (state r') = CommittedView (state leader)
  ∧ Voters (state r') = Voters (state leader) ∧ disk r' = Some (state r').
Proof.
  intros HI Hc Hlt Hsnap. unfold Snapshot in Hsnap. destruct (_ =? 0); [done|].
  injection Hsnap as <-.
  assert (SnapshotEpoch (state leader) = AppliedEpoch (state leader)
    ∧ SnapshotView (state leader) = CommittedView (state leader)) as [He Hv].
  { destruct (inv_replay _ _ HI) as (b & Hb & E1 & E2 & _). unfold committed_prefix in Hb.
    rewrite Hc, Z.sub_diag in Hb. injection Hb as <-. done. }
  unfold InstallSnapshot. simpl.
  destruct (_ || _); [discriminate|]. destruct (_ && _); [by intros [= _ <-]|].
  destruct (_ || _); [discriminate|]. destruct (_ && _); [discriminate|].
  destruct (term <? _); [by intros [= _ <-]|].
  assert (CommitIndex (if CurrentTerm (state follower) <? term
    then set_term_vote (state follower) term "" else state follower) = CommitIndex (state follower)) as Hf
    by (by destruct (_ <? _)).
  rewrite Hf, <-Hc, (proj2 (Z.leb_gt _ _)) by lia.
  intros [= <- <-] _. simpl. by split_and!.
Qed.

(** ** Behaviours that fall short *)

Definition node_a : string := "0000000000000000000000000000000a".
Definition node_b : string := "0000000000000000000000000000000b".
Definition node_c : string := "0000000000000000000000000000000c".
Definition digest_0 : string := "0000000000000000000000000000000000000000000000000000000000000000".
Definition digest_1 : string := "1111111111111111111111111111111111111111111111111111111111111111".

Definition advance (epoch : Z) (digest : string) : MetadataCommand :=
  mkCommand advance_epoch epoch digest digest digest "" [] [].

(** A store of node [node], freshly opened with bootstrap epoch 1. *)
Definition fresh (node : string) : RaftStore :=
  let s := mkState 1 0 "" 0 1 0 0 1 None [] [] [] None [] in mkStore node s (Some s).

Definition restarted (r : RaftStore) : RaftStore :=
  match OpenRaftStore None (disk r) (nodeID r) 1 with Ok r' => r' | Err _ => r end.

(** A vote granted but not durable: the write of the first request fails
    (its error is reported), the candidate asks again and is granted without a
    write, the node crashes, and grants another candidate in the same term. *)
Theorem vote_lost_after_failed_write :
  let ask c := mkVoteRequest 1 c 0 0 in
  let r1 := fst (RequestVote (Some StepWrite) (fresh node_a) (ask node_b)) in
  snd (RequestVote None r1 (ask node_b)) = Ok (mkVoteResponse 1 true)
  ∧ let r2 := restarted (fst (RequestVote None r1 (ask node_b))) in
    snd (RequestVote None r2 (ask node_c)) = Ok (mkVoteResponse 1 true).
Proof. vm_compute. split; reflexivity. Qed.

(** An uncommitted entry the leader does not have is committed: the follower
    holds [epoch 2; epoch 3 with digest 1] from term 1; the leader of term 2
    sends only the first entry with a leader commit of 2 (its own second
    entry carries digest 0).  The follower reports a match up to index 1 and
    commits its own second entry. *)
Theorem stale_entry_committed :
  let first := mkEntry 1 (advance 2 digest_0) in
  let stale := mkEntry 1 (advance 3 digest_1) in
  let follower := fst (AppendEntries None (fresh node_a)
                         (mkAppendRequest 1 node_b 0 0 [first; stale] 0)) in
  let (r', response) := AppendEntries None follower (mkAppendRequest 2 node_c 0 0 [first] 2) in
  response = Ok (mkAppendResponse 2 true 1)
  ∧ CommitIndex (state r') = 2 ∧ log_at (state r') 2 = Some stale
  ∧ CommittedView (state r') = Some (commandView (Command stale)).
Proof. vm_compute. repeat split; reflexivity. Qed.

(** A snapshot installed in the middle of a membership change leaves the
    joint voters behind: the write succeeds, the reported success is final,
    and the file is refused at the next start. *)
Theorem snapshot_during_joint_unreadable :
  let r0 := fst (ConfigureVoters None (fresh node_a) [node_a; node_b]) in
  let begin := mkEntry 1 (mkCommand begin_joint_consensus 1 "" "" "" "" [node_a; node_b]
                            [node_a; node_b; node_c]) in
  let r1 := fst (AppendEntries None r0 (mkAppendRequest 1 node_b 0 0 [begin] 1)) in
  let view := mkView digest_0 digest_0 digest_0 "" in
  let (r2, response) := InstallSnapshot None r1
    (mkInstallRequest 1 node_b (mkSnapshot 9 1 3 [node_a; node_b] (Some view))) in
  response = Ok (mkInstallResponse 1 true 9)
  ∧ OpenRaftStore None (disk r2) node_a 1 = Err (Errorf "persisted voter configuration does not match committed log").
Proof. vm_compute. split; reflexivity. Qed.

(** The write has no limit to match the one of the read: a log of more than
    [2^23] entries is written and acknowledged, and refused at the next
    start. *)
Lemma length_concat_ge sep l :
  Forall (λ s, 1 ≤ String.length s)%nat l → (length l ≤ String.length (String.concat sep l))%nat.
Proof.
  induction 1 as [|s l Hs Hl IH]; [done|]. destruct l as [|s' l]; [simpl; lia|].
  change (String.concat sep (s :: s' :: l)) with (s +:+ sep +:+ String.concat sep (s' :: l)).
  rewrite !string_length_app. cbn [length] in *. lia.
Qed.

Lemma json_object_last l x : (String.length x ≤ String.length (json_object (l ++ [x])%list))%nat.
Proof.
  unfold json_object. rewrite !string_length_app.
  enough (String.length x ≤ String.length (String.concat "," (l ++ [x])%list))%nat by lia.
  induction l as [|y l IH]; [done|]. destruct l as [|z l].
  - simpl. rewrite !string_length_app. lia.
  - change (String.concat "," ((y :: z :: l) ++ [x])%list)
      with (y +:+ "," +:+ String.concat "," ((z :: l) ++ [x])%list).
    rewrite !string_length_app. lia.
Qed.

Lemma json_entries_length s : (length (Entries s) ≤ String.length (json_raft_state s))%nat.
Proof.
  unfold json_raft_state. rewrite !app_assoc. etrans; [|apply json_object_last].
  unfold json_field, json_array. rewrite !string_length_app.
  assert (Forall (λ s, 1 ≤ String.length s)%nat (json_entry <$> Entries s)) as Hf.
  { apply Forall_fmap, Forall_true. intros e. simpl. unfold json_entry, json_object.
    rewrite !string_length_app. simpl. lia. }
  apply (length_concat_ge ",") in Hf. rewrite length_fmap in Hf. lia.
Qed.

Lemma growing_log n :
  Z.of_nat n + 1 < two64 →
  ∃ r, raft_reachable 1 node_a r ∧ nodeID r = node_a ∧ CurrentTerm (state r) = 1
    ∧ VotedFor (state r) = node_a ∧ SnapshotIndex (state r) = 0 ∧ length (Entries (state r)) = n
    ∧ (∀ x, last (Entries (state r)) = Some x → Epoch (Command x) = Z.of_nat n + 1)
    ∧ disk r = Some (state r).
Proof.
  induction n as [|n IH]; intros Hn.
  { exists (exec None (fresh node_a) OpBeginElection). split; [|by vm_compute; repeat split].
    eapply reach_step; [apply (reach_open 1 node_a (fresh node_a)); reflexivity|by apply step_handler]. }
  destruct IH as (r & Hr & Hid & Ht & Hv & Hs & Hl & He & _); [lia|].
  set (command := advance (Z.of_nat n + 2) digest_0).
  assert (AppendCommand None r 1 command = persist_then None
    (set_state r (set_entries (state r) (Entries (state r) ++ [mkEntry 1 command])))
    (fst (lastLogLocked (set_entries (state r) (Entries (state r) ++ [mkEntry 1 command]))))) as Happ.
  { unfold AppendCommand. rewrite Ht, Hv, Hid, String.eqb_refl. cbn [Z.eqb negb orb].
    assert (validateRaftEntry (mkEntry 1 command) = Ok tt) as ->.
    { unfold validateRaftEntry, command, advance. cbn [Term Command Type_ Epoch OldVoters NewVoters Z.eqb].
      rewrite (proj2 (Z.ltb_ge (Z.of_nat n + 2) 2)) by lia. vm_compute. reflexivity. }
    assert (match last (Entries (state r)) with
            | Some l => (Term l =? 1) && metadataCommandsEqual (Command l) command
            | None => false end = false) as ->; [|by rewrite andb_false_r].
    destruct (last (Entries (state r))) as [x|] eqn:El; [|done]. unfold metadataCommandsEqual.
    rewrite (He x eq_refl). unfold command, advance. cbn [Epoch].
    rewrite (proj2 (Z.eqb_neq (Z.of_nat n + 1) (Z.of_nat n + 2))) by lia. by rewrite !andb_false_r. }
  exists (exec None r (OpAppendCommand 1 command)). split.
  - eapply reach_step; [exact Hr|]. apply step_handler. unfold op_allowed, len. rewrite Hs, Hl. lia.
  - unfold exec. rewrite Happ. simpl. split_and!; try done.
    + rewrite length_app, Hl. simpl. lia.
    + intros x. rewrite last_snoc. intros [= <-]. simpl. lia.
Qed.

Theorem oversized_state_refused :
  ∃ r, raft_reachable 1 node_a r ∧ disk r = Some (state r)
  ∧ OpenRaftStore None (disk r) node_a 1 = Err (Errorf "decode state: unexpected EOF").
Proof.
  destruct (growing_log (Z.to_nat (2 ^ 23 + 1))) as (r & Hr & _ & _ & _ & _ & Hl & _ & Hd); [unfold two64; lia|].
  exists r. split; [done|]. split; [done|]. rewrite Hd. unfold OpenRaftStore.
  change (negb (ValidNodeID node_a) || (1 =? 0)) with false. cbn iota. unfold decode_limited, within_limit, stateFileLimit.
  rewrite (proj2 (Z.leb_gt _ _)); [done|]. pose proof (json_entries_length (state r)). lia.
Qed.

(** ** Witnesses *)

Definition vote_for_c (n : string) : RaftOp := OpRequestVote (mkVoteRequest 1 node_c 0 0).
Definition voted (n : string) : RaftStore := exec None (fresh n) (vote_for_c n).
Definition three_voters : RaftStore := fst (ConfigureVoters None (fresh node_a) [node_a; node_b; node_c]).
Definition one_entry : AppendEntriesRequest :=
  mkAppendRequest 1 node_b 0 0 [mkEntry 1 (advance 2 digest_0)] 1.
Definition with_entry : RaftStore := fst (AppendEntries None (fresh node_a) one_entry).
Definition compacted : RaftStore := fst (CompactCommitted None (fst (AppendEntries None three_voters one_entry))).

Definition installed : RaftStore :=
  fst (InstallSnapshot None (fresh node_a)
         (mkInstallRequest 1 node_b (snapshotLocked (state compacted)))).

Lemma fresh_run n : OpenRaftStore None None n 1 = Ok (fresh n) → vote_run 1 n (voted n) [(1, node_c)].
Proof.
  intros H. apply (run_handler 1 n (fresh n) [] (vote_for_c n)); [by apply run_open|reflexivity].
Qed.

Lemma Inv_fresh n : Inv 1 (state (fresh n)).
Proof. apply Inv_initial. unfold two64. lia. Qed.

Lemma Inv_compacted : Inv 1 (state compacted).
Proof.
  apply Inv_CompactCommitted, Inv_AppendEntries.
  - apply Inv_ConfigureVoters, Inv_fresh.
  - split; [simpl; lia|reflexivity].
Qed.

Lemma raft_recoverable_witness :
  OpenRaftStore None (disk (exec (Some StepSync) (fresh node_a) (vote_for_c node_a))) node_a 1
    = Ok (fresh node_a).
Proof.
  destruct (raft_recoverable 1 node_a (exec (Some StepSync) (fresh node_a) (vote_for_c node_a)) None)
    as (d & Hd & ->); [unfold two64; lia| |vm_compute in Hd; injection Hd as <-; vm_compute; reflexivity].
  eapply reach_step; [apply (reach_open 1 node_a (fresh node_a)); reflexivity|].
  apply step_handler. exact I.
Defined.

Lemma committed_entries_permanent_witness :
  keeps_committed (state (fresh node_a)) (state (exec None (fresh node_a) (OpAppendEntries one_entry))).
Proof.
  apply (committed_entries_permanent 1 node_a); [unfold two64; lia| |].
  - apply reach_open. reflexivity.
  - split; [simpl; lia|reflexivity].
Defined.

Lemma one_vote_per_term_witness :
  vote_run 1 node_a (voted node_a) [(1, node_c)] ∧ ∀ c, (1, c) ∈ [(1, node_c)] → node_c = c.
Proof.
  assert (vote_run 1 node_a (voted node_a) [(1, node_c)]) as Hrun by (apply fresh_run; reflexivity). split; [exact Hrun|].
  intros c Hc. exact (one_vote_per_term 1 node_a (voted node_a) [(1, node_c)] 1 node_c c Hrun (list_elem_of_here _ _) Hc).
Defined.


Lemma joint_entry_quorums_overlap_witness :
  ∃ v, v ∈ stringSet [node_a; node_b] ∧ v ∈ stringSet [node_b; node_c].
Proof.
  apply (joint_entry_quorums_overlap
    (mkEntry 1 (mkCommand begin_joint_consensus 1 "" "" "" "" [node_a; node_b] [node_a; node_b; node_c])));
    [reflexivity|discriminate|reflexivity|reflexivity].
Defined.

Lemma append_entries_matches_witness :
  ∃ y, log_at (state with_entry) 1 = Some y ∧ Term y = 1.
Proof.
  assert (Inv 1 (state (fresh node_a))) as HI by apply Inv_fresh.
  destruct (append_entries_matches 1 (fresh node_a) one_entry with_entry (mkAppendResponse 1 true 1))
    as (_ & _ & H & _); [exact HI|split; [simpl; lia|reflexivity]|reflexivity|reflexivity|].
  exact (H 0%nat _ eq_refl).
Defined.

Lemma committed_metadata_determined_witness :
  AppliedEpoch (state compacted) = AppliedEpoch (set_term_vote (state compacted) 7 node_b).
Proof.
  apply (committed_metadata_determined 1); [apply Inv_compacted| |reflexivity..].
  apply Inv_term_vote, Inv_compacted.
Defined.

Lemma snapshot_transfer_witness :
  CommitIndex (state installed) = CommitIndex (state compacted).
Proof.
  assert (InstallSnapshot None (fresh node_a)
    (mkInstallRequest 1 node_b (snapshotLocked (state compacted)))
    = (installed, Ok (mkInstallResponse 1 true 1))) as Hi by (vm_compute; reflexivity).
  assert (Snapshot compacted = Some (snapshotLocked (state compacted))) as Hs by (vm_compute; reflexivity).
  assert (CommitIndex (state compacted) = SnapshotIndex (state compacted)) as Hc by (vm_compute; reflexivity).
  assert (CommitIndex (state (fresh node_a)) < CommitIndex (state compacted)) as Hl by (vm_compute; reflexivity).
  exact (proj1 (proj2 (snapshot_transfer 1 compacted (fresh node_a) 1 node_b installed
    (mkInstallResponse 1 true 1) (snapshotLocked (state compacted)) Inv_compacted Hc Hl Hs Hi eq_refl))).
Defined.
