(* ===== verification/RaftRuntime.v ===== *)
(** * The metadata Raft runtime

    [internal/cluster/raft_runtime.go]: campaigns, heartbeats, proposals,
    changes of the voter set and the transfer of leadership, around the store
    of [RaftStore.v].  These run in goroutines that interleave: each holds the
    runtime's mutex, or the store's, for one short region at a time, and waits
    for peers with no lock held.  An operation is a program ([prog]) over such
    regions; [Par] runs programs side by side and waits for all of them, as
    the fan-outs do, and [Locked] runs one under [campaignMu].  A region may
    read what the world outside gives at that moment ([env]): the first
    failing file operation of a write, the clock, whether the caller's context
    is done, the peers discovery knows, and the answer of the peer that is
    called.

    [past] is not read by the program; the theorems are about it.  The timers
    of [Run], which only decide when a campaign or a heartbeat starts, are left
    out, as is [proposalMu]: the theorems allow proposals to overlap.  Loops
    that wait for a peer to catch up run on [fuel]. *)
From Stdlib Require Import ZArith Lia Ascii String.
From stdpp Require Import base tactics list gmap strings.
From S2P Require Import Prelude ClusterBase RaftStore.
Local Set Warnings "-register-all".
Local Open Scope string_scope.
Local Open Scope Z_scope.
Local Open Scope list_scope.

Module Runtime.

(** ** State *)

Inductive RaftRole : Set := RaftFollower | RaftCandidate | RaftLeader.

Record RaftPeer : Set := mkPeer { NodeID : string; BaseURL : string }.

Record TimeoutNowRequest : Set := mkTimeoutRequest { tn_Term : Z; tn_LeaderID : string }.
Record TimeoutNowResponse : Set := mkTimeoutResponse { tnr_Term : Z; tnr_Accepted : bool }.

(** Nanoseconds. *)
Record RaftRuntimeConfig : Set := mkConfig { ElectionMin : Z; ElectionMax : Z; Heartbeat : Z; SnapshotThreshold : Z }.

(** A request that was sent, and the answer; [None] is an error of the
    transport. *)
Inductive exchange : Set :=
  | Voted (request : RequestVoteRequest) (response : option RequestVoteResponse)
  | Appended (request : AppendEntriesRequest) (response : option AppendEntriesResponse)
  | Installed (request : InstallSnapshotRequest) (response : option InstallSnapshotResponse)
  | Transferred (request : TimeoutNowRequest) (response : option TimeoutNowResponse).

(** Stable voters, and those of a joint configuration. *)
Definition configuration : Set := (list string * list string * list string)%type.

(** The votes the store reported as cast, the elections the node won with
    their votes, the terms in which it appended an entry of its own, the
    entries it committed itself (index, term, acknowledgements), what it heard
    from peers, and the configurations its store has had. *)
Record history : Set := mkHistory {
  granted : list (Z * string);
  won : list (Z * list string);
  created : list Z;
  commits : list (Z * Z * list string);
  heard : list (RaftPeer * exchange);
  configurations : list configuration;
}.

(** [lastQuorum] is [None] for the zero time; [campaigning] says that
    [campaignMu] is held. *)
Record t : Type := mk {
  store : RaftStore;
  role : RaftRole;
  leaderID : string;
  nextIndex : gmap string Z;
  lastQuorum : option Z;
  campaigning : bool;
  past : history;
}.

(** What a region sees of the world. *)
Record env : Set := mkEnv {
  fault : option PersistStep;
  now : Z;
  cancelled : bool;
  discovered : list RaftPeer;
  on_vote : option RequestVoteResponse;
  on_append : option AppendEntriesResponse;
  on_install : option InstallSnapshotResponse;
  on_timeout : option TimeoutNowResponse;
}.

Definition set_past (s : t) (h : history) : t :=
  mk (store s) (role s) (leaderID s) (nextIndex s) (lastQuorum s) (campaigning s) h.
Definition set_store (s : t) (r : RaftStore) : t :=
  let h := past s in
  mk r (role s) (leaderID s) (nextIndex s) (lastQuorum s) (campaigning s)
    (mkHistory (granted h) (won h) (created h) (commits h) (heard h) (VoterConfiguration r :: configurations h)).
Definition set_role (s : t) (r : RaftRole) (leader : string) : t :=
  mk (store s) r leader (nextIndex s) (lastQuorum s) (campaigning s) (past s).
Definition set_next (s : t) (n : gmap string Z) : t :=
  mk (store s) (role s) (leaderID s) n (lastQuorum s) (campaigning s) (past s).
Definition set_quorum (s : t) (q : option Z) : t :=
  mk (store s) (role s) (leaderID s) (nextIndex s) q (campaigning s) (past s).
Definition set_campaigning (s : t) (b : bool) : t :=
  mk (store s) (role s) (leaderID s) (nextIndex s) (lastQuorum s) b (past s).

Definition grant (s : t) (vote : Z * string) : t :=
  let h := past s in
  set_past s (mkHistory (vote :: granted h) (won h) (created h) (commits h) (heard h) (configurations h)).
Definition win (s : t) (term : Z) (votes : list string) : t :=
  let h := past s in
  set_past s (mkHistory (granted h) ((term, votes) :: won h) (created h) (commits h) (heard h) (configurations h)).
Definition create (s : t) (term : Z) : t :=
  let h := past s in
  set_past s (mkHistory (granted h) (won h) (term :: created h) (commits h) (heard h) (configurations h)).
Definition commit (s : t) (index term : Z) (acks : list string) : t :=
  let h := past s in
  set_past s (mkHistory (granted h) (won h) (created h) ((index, term, acks) :: commits h) (heard h) (configurations h)).
Definition hear (s : t) (peer : RaftPeer) (x : exchange) : t :=
  let h := past s in
  set_past s (mkHistory (granted h) (won h) (created h) (commits h) ((peer, x) :: heard h) (configurations h)).

(** ** Programs *)

Inductive prog (A : Type) : Type :=
| Done (a : A)
| Do {X : Set} (f : env → t → t * X) (k : X → prog A)
| Par (ps : list (prog bool)) (k : list bool → prog A)
| Locked (held : bool) (body : prog unit) (k : prog A).
Arguments Done {A} a.
Arguments Do {A X} f k.
Arguments Par {A} ps k.
Arguments Locked {A} held body k.

Fixpoint bind {A B : Type} (p : prog A) (f : A → prog B) : prog B :=
  match p with
  | Done a => f a
  | Do g k => Do g (λ x, bind (k x) f)
  | Par ps k => Par ps (λ l, bind (k l) f)
  | Locked held body k => Locked held body (bind k f)
  end.

(** A region that gives its result. *)
Definition region {X : Set} (f : env → t → t * X) : prog X := Do f Done.

(** An operation of the store, under the store's mutex. *)
Definition on_store {X : Set} (f : option PersistStep → RaftStore → RaftStore * X) : prog X :=
  region (λ e s, let '(r, x) := f (fault e) (store s) in (set_store s r, x)).

Definition reads {X : Set} (f : env → t → X) : prog X := region (λ e s, (s, f e s)).

Notation "'let^' x := p 'in' k" := (bind p (λ x, k)) (at level 10, x name, k at level 200).
Notation "'let^' ' x := p 'in' k" := (bind p (λ x, k)) (at level 10, x strict pattern, k at level 200).

Definition nothing (f : env → t → t) : prog unit := region (λ e s, (f e s, tt)).

(** The results of programs that have all ended. *)
Fixpoint ended (ps : list (prog bool)) : option (list bool) :=
  match ps with
  | [] => Some []
  | Done b :: rest => match ended rest with Some l => Some (b :: l) | None => None end
  | _ => None
  end.

(** One step: a region, a step of one of the programs that run side by side
    ([path] says of which), the join of all of them, taking the mutex when it
    is free, or giving it back. *)
Fixpoint small_step {A : Type} (path : list nat) (e : env) (s : t) (p : prog A) : option (t * prog A) :=
  match p with
  | Done _ => None
  | Do f k => let '(s', x) := f e s in Some (s', k x)
  | Par ps k =>
      match path with
      | [] => match ended ps with Some l => Some (s, k l) | None => None end
      | i :: path =>
          match
            (fix child (ps : list (prog bool)) (i : nat) : option (t * list (prog bool)) :=
               match ps, i with
               | [], _ => None
               | q :: rest, O => match small_step path e s q with Some (s', q') => Some (s', q' :: rest) | None => None end
               | q :: rest, S i => match child rest i with Some (s', rest') => Some (s', q :: rest') | None => None end
               end) ps i
          with
          | Some (s', ps') => Some (s', Par ps' k)
          | None => None
          end
      end
  | Locked false body k => if campaigning s then None else Some (set_campaigning s true, Locked true body k)
  | Locked true (Done _) k => Some (set_campaigning s false, k)
  | Locked true body k =>
      match small_step path e s body with Some (s', body') => Some (s', Locked true body' k) | None => None end
  end.

Section Operations.
Context (nodeID : string) (config : RaftRuntimeConfig).

(** ** Roles *)

Definition isLeader : prog bool := reads (λ _ s, match role s with RaftLeader => true | _ => false end).

(** The role, the leader and the store's term, read under one lock of the
    runtime. *)
Definition Status : prog (RaftRole * string * Z) := reads (λ _ s, (role s, leaderID s, CurrentTerm (state (store s)))).

Definition becomeFollower (leader : string) : prog unit :=
  nothing (λ _ s, set_quorum (set_next (set_role s RaftFollower leader) ∅) None).

Definition expireLeaderWithoutQuorum : prog unit :=
  nothing (λ e s,
    match role s, lastQuorum s with
    | RaftLeader, Some last =>
        if ElectionMin config <=? now e - last then set_quorum (set_next (set_role s RaftFollower "") ∅) None else s
    | _, _ => s
    end).

(** [if r.role == RaftLeader { r.lastQuorum = time.Now() }] *)
Definition touch_quorum : prog unit :=
  nothing (λ e s, match role s with RaftLeader => set_quorum s (Some (now e)) | _ => s end).

Definition observe (term : Z) : prog (res unit) := on_store (λ fault r, ObserveTerm fault r term).

(** ** Peers *)

Definition discover : prog (list RaftPeer) := reads (λ e _, discovered e).

(** The peers by node, or nothing when one is malformed or listed twice. *)
Fixpoint known_peers (seen : gset string) (peers : list RaftPeer) : option (gmap string RaftPeer) :=
  match peers with
  | [] => Some ∅
  | peer :: rest =>
      if negb (ValidNodeID (NodeID peer)) || String.eqb (BaseURL peer) "" then None
      else if bool_decide (NodeID peer ∈ seen) then None
      else
        match known_peers ({[NodeID peer]} ∪ seen) rest with
        | Some m => Some (<[NodeID peer := peer]> m)
        | None => None
        end
  end.

(** The peers of the voters other than this node. *)
Fixpoint voting_peers (known : gmap string RaftPeer) (voters : list string) : option (list RaftPeer) :=
  match voters with
  | [] => Some []
  | voter :: rest =>
      if String.eqb voter nodeID then voting_peers known rest
      else
        match known !! voter, voting_peers known rest with
        | Some peer, Some peers => Some (peer :: peers)
        | _, _ => None
        end
  end.

(** The order in which Go visits the map does not matter: the voters are
    sorted. *)
Definition consensusPeers : prog (option (list RaftPeer)) :=
  let^ peers := discover in
  match known_peers {[nodeID]} peers with
  | None => Done None
  | Some known =>
      let^ active := reads (λ _ s, ActiveVoters (store s)) in
      let^ ready :=
        (if len active =? 0 then
           let^ r := on_store (λ fault r, ConfigureVoters fault r (nodeID :: (map_to_list known).*1)) in
           match r with
           | Err _ => Done None
           | Ok _ => let^ active := reads (λ _ s, ActiveVoters (store s)) in Done (Some active)
           end
         else Done (Some active)) in
      match ready with
      | None => Done None
      | Some active =>
          Done (match voting_peers known active with
                | Some result => Some (sort_slice (λ a b, str_ltb (NodeID a) (NodeID b)) result)
                | None => None
                end)
      end
  end.

Definition peersForVoters (voters : list string) : prog (option (list RaftPeer)) :=
  let^ peers := discover in
  Done (match known_peers {[nodeID]} peers with Some known => voting_peers known voters | None => None end).

(** ** Replication to one peer *)

(** [r.nextIndex[peer.NodeID] = next] *)
Definition advance_next (peer : RaftPeer) (next : Z) : prog unit :=
  nothing (λ _ s, set_next s (<[NodeID peer := next]> (nextIndex s))).

Definition send_append (peer : RaftPeer) (request : AppendEntriesRequest) : prog (option AppendEntriesResponse) :=
  region (λ e s, (hear s peer (Appended request (on_append e)), on_append e)).

Definition send_install (peer : RaftPeer) (request : InstallSnapshotRequest) : prog (option InstallSnapshotResponse) :=
  region (λ e s, (hear s peer (Installed request (on_install e)), on_install e)).

(** A higher term in an answer ends leadership. *)
Definition step_down {A : Type} (term : Z) (a : A) : prog A :=
  let^ _ := observe term in
  let^ _ := becomeFollower "" in
  Done a.

Definition offer_snapshot (peer : RaftPeer) (term target : Z) (snapshot : RaftSnapshot) (again : prog bool) : prog bool :=
  let^ response := send_install peer (mkInstallRequest term nodeID snapshot) in
  match response with
  | None => Done false
  | Some response =>
      if term <? isr_Term response then step_down (isr_Term response) false
      else if negb (isr_Success response) then Done false
      else
        let^ _ := advance_next peer (u64 (isr_MatchIndex response + 1)) in
        if target <=? isr_MatchIndex response then Done true else again
  end.

Definition offer_entries (peer : RaftPeer) (term target next : Z) (again : prog bool) : prog bool :=
  let^ batch := reads (λ _ s, LogBatch (store s) next 128) in
  match batch with
  | Err _ => Done false
  | Ok (currentTerm, commitIndex, prevIndex, prevTerm, entries) =>
      if negb (currentTerm =? term) then Done false
      else
        let^ response := send_append peer (mkAppendRequest term nodeID prevIndex prevTerm entries commitIndex) in
        match response with
        | None => Done false
        | Some response =>
            if term <? aer_Term response then step_down (aer_Term response) false
            else if negb (aer_Success response) then
              if next =? 1 then Done false
              else let^ _ := advance_next peer (next - 1) in again
            else
              let^ _ := advance_next peer (u64 (aer_MatchIndex response + 1)) in
              if target <=? aer_MatchIndex response then Done true else again
        end
  end.

Fixpoint replicatePeer (fuel : nat) (peer : RaftPeer) (term target : Z) : prog bool :=
  match fuel with
  | O => Done false
  | S fuel =>
      let^ cancelled := reads (λ e _, cancelled e) in
      let^ leader := isLeader in
      if cancelled || negb leader then Done false
      else
        let^ next := reads (λ _ s, default 0 (nextIndex s !! NodeID peer)) in
        let next := if next =? 0 then u64 (target + 1) else next in
        let^ snapshot := reads (λ _ s, Snapshot (store s)) in
        match snapshot with
        | Some snapshot =>
            if next <=? LastIncludedIndex snapshot
            then offer_snapshot peer term target snapshot (replicatePeer fuel peer term target)
            else offer_entries peer term target next (replicatePeer fuel peer term target)
        | None => offer_entries peer term target next (replicatePeer fuel peer term target)
        end
  end.

(** This node and the peers that answered. *)
Definition acknowledged (peers : list RaftPeer) (results : list bool) : list string :=
  nodeID :: ((λ x, NodeID x.1) <$> List.filter snd (zip peers results)).

Definition replicateVoters (fuel : nat) (peers : list RaftPeer) (term target : Z) : prog (list string) :=
  Par ((λ peer, replicatePeer fuel peer term target) <$> peers) (λ results, Done (acknowledged peers results)).

(** One peer after the other. *)
Fixpoint replicate_each (fuel : nat) (peers : list RaftPeer) (term target : Z) : prog (list bool) :=
  match peers with
  | [] => Done []
  | peer :: rest =>
      let^ r := replicatePeer fuel peer term target in
      let^ rs := replicate_each fuel rest term target in
      Done (r :: rs)
  end.

Definition broadcastHeartbeat (fuel : nat) : prog unit :=
  let^ '(term, lastIndex) := reads (λ _ s, (CurrentTerm (state (store s)), fst (lastLogLocked (state (store s))))) in
  let^ peers := consensusPeers in
  match peers with
  | None => expireLeaderWithoutQuorum
  | Some peers =>
      let^ results := replicate_each fuel peers term lastIndex in
      let^ quorum := reads (λ _ s, HasVoterQuorum (store s) (acknowledged peers results)) in
      if quorum then touch_quorum else expireLeaderWithoutQuorum
  end.

(** ** Elections *)

Definition ask_vote (peer : RaftPeer) (request : RequestVoteRequest) : prog (option RequestVoteResponse) :=
  region (λ e s, (hear s peer (Voted request (on_vote e)), on_vote e)).

(** The votes, or nothing when a higher term ends the campaign. *)
Fixpoint collect_votes (request : RequestVoteRequest) (peers : list RaftPeer) (votes : list string) : prog (option (list string)) :=
  match peers with
  | [] => Done (Some votes)
  | peer :: rest =>
      let^ response := ask_vote peer request in
      match response with
      | None => collect_votes request rest votes
      | Some response =>
          if rv_Term request <? rvr_Term response then step_down (rvr_Term response) None
          else collect_votes request rest (if rvr_VoteGranted response then votes ++ [NodeID peer] else votes)
      end
  end.

(** The runtime's lock is taken after the store was read. *)
Definition take_office (term : Z) (votes : list string) (lastIndex : Z) (peers : list RaftPeer) : prog bool :=
  region (λ e s,
    match role s with
    | RaftCandidate =>
        (win (set_quorum (set_next (set_role s RaftLeader nodeID)
                (foldl (λ m p, <[NodeID p := u64 (lastIndex + 1)]> m) ∅ peers)) (Some (now e))) term votes, true)
    | _ => (s, false)
    end).

(** [BeginElection]; a success casts the node's vote for itself. *)
Definition begin_election : prog (res RequestVoteRequest) :=
  region (λ e s,
    let '(r, x) := BeginElection (fault e) (store s) in
    let s := set_store s r in
    (match x with Ok request => grant s (rv_Term request, rv_CandidateID request) | Err _ => s end, x)).

(** From the answers to the office. *)
Definition count_votes (fuel : nat) (request : RequestVoteRequest) (peers : list RaftPeer) (votes : list string) : prog unit :=
  let^ quorum := reads (λ _ s, HasVoterQuorum (store s) votes) in
  if negb quorum then Done tt
  else
    let^ '(currentTerm, lastIndex) :=
      reads (λ _ s, (CurrentTerm (state (store s)), fst (lastLogLocked (state (store s))))) in
    if negb (currentTerm =? rv_Term request) then Done tt
    else
      let^ leading := take_office currentTerm votes lastIndex peers in
      if leading then broadcastHeartbeat fuel else Done tt.

(** What runs under [campaignMu]. *)
Definition election (fuel : nat) : prog unit :=
  let^ leader := isLeader in
  if leader then Done tt
  else
    let^ _ := nothing (λ _ s, set_role s RaftCandidate "") in
    let^ request := begin_election in
    match request with
    | Err _ => becomeFollower ""
    | Ok request =>
        let^ peers := consensusPeers in
        match peers with
        | None => becomeFollower ""
        | Some peers =>
            let^ votes := collect_votes request peers [nodeID] in
            match votes with
            | None => Done tt
            | Some votes => count_votes fuel request peers votes
            end
        end
    end.

Definition campaign (fuel : nat) : prog unit := Locked false (election fuel) (Done tt).

(** ** Requests of peers *)

Definition currentTerm : prog Z := reads (λ _ s, CurrentTerm (state (store s))).

(** [store.RequestVote]; a grant is noted. *)
Definition cast_vote (request : RequestVoteRequest) : prog (res RequestVoteResponse) :=
  region (λ e s,
    let '(r, x) := RequestVote (fault e) (store s) request in
    let s := set_store s r in
    (match x with
     | Ok response => if rvr_VoteGranted response then grant s (rvr_Term response, rv_CandidateID request) else s
     | Err _ => s
     end, x)).

Definition HandleVote (request : RequestVoteRequest) : prog (res RequestVoteResponse) :=
  let^ ready := consensusPeers in
  match ready with
  | None => let^ term := currentTerm in Done (Ok (mkVoteResponse term false))
  | Some _ =>
      let^ previousTerm := currentTerm in
      let^ response := cast_vote request in
      match response with
      | Ok _ =>
          let^ _ := (if previousTerm <? rv_Term request then becomeFollower "" else Done tt) in
          Done response
      | Err _ => Done response
      end
  end.

Definition HandleAppend (request : AppendEntriesRequest) : prog (res AppendEntriesResponse) :=
  let^ voters := reads (λ _ s, ActiveVoters (store s)) in
  let^ ready := (if len voters =? 0 then Done true
                 else let^ peers := consensusPeers in Done (match peers with Some _ => true | None => false end)) in
  if negb ready then let^ term := currentTerm in Done (Ok (mkAppendResponse term false 0))
  else
    let^ response := on_store (λ fault r, AppendEntries fault r request) in
    match response with
    | Ok answer =>
        let^ _ := (if ae_Term request =? aer_Term answer then becomeFollower (ae_LeaderID request) else Done tt) in
        Done response
    | Err _ => Done response
    end.

Definition HandleInstall (request : InstallSnapshotRequest) : prog (res InstallSnapshotResponse) :=
  let^ ready := consensusPeers in
  match ready with
  | None => let^ term := currentTerm in Done (Ok (mkInstallResponse term false 0))
  | Some _ =>
      let^ response := on_store (λ fault r, InstallSnapshot fault r request) in
      match response with
      | Ok answer =>
          let^ _ := (if is_Term request =? isr_Term answer then becomeFollower (is_LeaderID request) else Done tt) in
          Done response
      | Err _ => Done response
      end
  end.

(** ** Proposals *)

Definition not_leader {A} : res A := Err (Errorf "not metadata Raft leader").

(** [AppendCommand], noted when it succeeds. *)
Definition append_own (term : Z) (command : MetadataCommand) : prog (res Z) :=
  region (λ e s,
    let '(r, x) := AppendCommand (fault e) (store s) term command in
    let s := set_store s r in
    (match x with Ok _ => create s term | Err _ => s end, x)).

(** [CommitWithVoterAcks], noted when it succeeds. *)
Definition commit_acks (index term : Z) (acks : list string) : prog (res unit) :=
  region (λ e s,
    let '(r, x) := CommitWithVoterAcks (fault e) (store s) index term acks in
    let s := set_store s r in
    (match x with Ok _ => commit s index term acks | Err _ => s end, x)).

Definition Propose (fuel : nat) (command : MetadataCommand) : prog (res Z) :=
  let^ '(role, _, term) := Status in
  match role with
  | RaftLeader =>
      let^ appliedEpoch := reads (λ _ s, AppliedEpoch (state (store s))) in
      if negb (Epoch command =? u64 (appliedEpoch + 1)) then Done (Err (Errorf "metadata epoch must small_step exactly once"))
      else
        let^ index := append_own term command in
        match index with
        | Err e => Done (Err e)
        | Ok index =>
            let^ peers := consensusPeers in
            match peers with
            | None => Done (Err (Errorf "metadata voter identities are not fully discovered"))
            | Some peers =>
                let^ acks := replicateVoters fuel peers term index in
                let^ committed := commit_acks index term acks in
                match committed with
                | Err e => Done (Err e)
                | Ok _ =>
                    let^ _ := touch_quorum in
                    let^ snapshotIndex := reads (λ _ s, match Snapshot (store s) with Some x => LastIncludedIndex x | None => 0 end) in
                    let^ compacted := (if SnapshotThreshold config <=? u64 (index - snapshotIndex)
                                       then on_store (λ fault r, CompactCommitted fault r) else Done (Ok tt)) in
                    match compacted with
                    | Err e => Done (Err e)
                    | Ok _ =>
                        let^ _ := broadcastHeartbeat fuel in
                        Done (Ok (Epoch command))
                    end
                end
            end
        end
  | _ => Done not_leader
  end.

Definition AdvanceView (fuel : nat) (view : ViewDigests) : prog (res Z) :=
  if negb (validView view) then Done (Err (Errorf "valid target view digests are required"))
  else
    let^ epoch := reads (λ _ s, AppliedEpoch (state (store s))) in
    Propose fuel (mkCommand advance_epoch (u64 (epoch + 1)) (Membership view) (Catalog view) (Placement view) (CapacityManifest view) [] []).

(** Entering the joint configuration; the joining voter must have taken the
    entry. *)
Definition begin_joint (fuel : nat) (term epoch : Z) (oldVoters newVoters : list string) (peers : list RaftPeer) : prog (res unit) :=
  let^ index := append_own term (mkCommand begin_joint_consensus epoch "" "" "" "" oldVoters newVoters) in
  match index with
  | Err e => Done (Err e)
  | Ok index =>
      let^ acks := replicateVoters fuel peers term index in
      if negb (forallb (λ voter, containsString oldVoters voter || bool_decide (voter ∈ acks)) newVoters)
      then Done (Err (Errorf "joining voter did not catch up to joint-consensus entry"))
      else
        let^ committed := commit_acks index term acks in
        match committed with
        | Err e => Done (Err e)
        | Ok _ => let^ _ := replicateVoters fuel peers term index in Done (Ok tt)
        end
  end.

Definition finish_joint (fuel : nat) (term epoch : Z) (oldVoters newVoters : list string) (view : ViewDigests) (peers : list RaftPeer)
    : prog (res Z) :=
  let^ index := append_own term (mkCommand finalize_joint_consensus (u64 (epoch + 1)) (Membership view) (Catalog view) (Placement view)
                                   (CapacityManifest view) oldVoters newVoters) in
  match index with
  | Err e => Done (Err e)
  | Ok index =>
      let^ acks := replicateVoters fuel peers term index in
      let^ committed := commit_acks index term acks in
      match committed with
      | Err e => Done (Err e)
      | Ok _ =>
          let^ _ := replicateVoters fuel peers term index in
          let^ _ := (if negb (containsString newVoters nodeID) then becomeFollower "" else Done tt) in
          Done (Ok (u64 (epoch + 1)))
      end
  end.

Definition ChangeVoters (fuel : nat) (newVoters : list string) (view : ViewDigests) : prog (res Z) :=
  let^ '(role, _, term) := Status in
  match role with
  | RaftLeader =>
      if negb (validView view) then Done (Err (Errorf "valid target view digests are required"))
      else
        let^ '(oldVoters, jointOld, jointNew) := reads (λ _ s, VoterConfiguration (store s)) in
        if negb (len jointOld =? 0) || negb (len jointNew =? 0) then Done (Err (Errorf "membership transition already active"))
        else if negb (canonicalVoters newVoters) || negb (voterSetDifference oldVoters newVoters =? 1)
        then Done (Err (Errorf "membership transition must contain one canonical node join or leave"))
        else
          let^ peers := peersForVoters (sort_slice str_ltb (elements (stringSet oldVoters ∪ stringSet newVoters))) in
          match peers with
          | None => Done (Err (Errorf "old and new voter identities must be discoverable"))
          | Some peers =>
              let^ epoch := reads (λ _ s, AppliedEpoch (state (store s))) in
              let^ entered := begin_joint fuel term epoch oldVoters newVoters peers in
              match entered with
              | Err e => Done (Err e)
              | Ok _ => finish_joint fuel term epoch oldVoters newVoters view peers
              end
          end
  | _ => Done not_leader
  end.

(** ** Transfer of leadership *)

Definition send_timeout (peer : RaftPeer) (request : TimeoutNowRequest) : prog (option TimeoutNowResponse) :=
  region (λ e s, (hear s peer (Transferred request (on_timeout e)), on_timeout e)).

Fixpoint transfer_to (fuel : nat) (term lastIndex : Z) (peers : list RaftPeer) : prog (res unit) :=
  match peers with
  | [] => Done (Err (Errorf "no caught-up voter accepted leadership transfer"))
  | peer :: rest =>
      let^ caught := replicatePeer fuel peer term lastIndex in
      if negb caught then transfer_to fuel term lastIndex rest
      else
        let^ response := send_timeout peer (mkTimeoutRequest term nodeID) in
        match response with
        | None => transfer_to fuel term lastIndex rest
        | Some response =>
            let^ _ := (if term <? tnr_Term response then let^ _ := observe (tnr_Term response) in Done tt else Done tt) in
            if tnr_Accepted response then let^ _ := becomeFollower (NodeID peer) in Done (Ok tt)
            else
              let^ '(role, _, _) := Status in
              match role with
              | RaftLeader => transfer_to fuel term lastIndex rest
              | _ => Done (Ok tt)
              end
        end
  end.

(** The HTTP transport supports transfers. *)
Definition TransferLeadership (fuel : nat) : prog (res unit) :=
  let^ '(role, _, term) := Status in
  match role with
  | RaftLeader =>
      let^ peers := consensusPeers in
      match peers with
      | None => Done (Err (Errorf "metadata voter identities are not fully discovered"))
      | Some [] => Done (Ok tt)
      | Some peers =>
          let^ lastIndex := reads (λ _ s, fst (lastLogLocked (state (store s)))) in
          transfer_to fuel term lastIndex peers
      end
  | _ => Done (Ok tt)
  end.

(** The checks before and the answer after the campaign of a transfer. *)
Definition timeout_checks (request : TimeoutNowRequest) : prog (bool * Z) :=
  let^ '(role, leaderID, term) := Status in
  Done (match role with
        | RaftFollower => (tn_Term request =? term) && String.eqb (tn_LeaderID request) leaderID && ValidNodeID (tn_LeaderID request)
        | _ => false
        end, term).

Definition TimeoutNow (fuel : nat) (request : TimeoutNowRequest) : prog (res TimeoutNowResponse) :=
  let^ '(fenced, term) := timeout_checks request in
  if negb fenced then Done (Err (Errorf "leadership transfer is not from the current leader and term"))
  else
    let^ _ := campaign fuel in
    let^ '(role, _, term) := Status in
    Done (Ok (mkTimeoutResponse term (match role with RaftLeader => true | _ => false end))).

(** What [Run] does on a tick of the heartbeat. *)
Definition heartbeat_tick (fuel : nat) : prog unit :=
  let^ leader := isLeader in if leader then broadcastHeartbeat fuel else Done tt.

End Operations.

(** [NewRaftRuntime]; the transport and the peers are parameters of the
    operations. *)
Definition default_to (d x : Z) : Z := if x =? 0 then d else x.

Definition NewRaftRuntime (r : RaftStore) (nodeID : string) (c : RaftRuntimeConfig) : res (t * RaftRuntimeConfig) :=
  if negb (ValidNodeID nodeID) then Err (Errorf "Raft runtime requires store, node, peers, and transport")
  else
    let c := mkConfig (default_to 750000000 (ElectionMin c)) (default_to 1500000000 (ElectionMax c))
               (default_to 200000000 (Heartbeat c)) (default_to 256 (SnapshotThreshold c)) in
    if (ElectionMin c <=? Heartbeat c) || (ElectionMax c <? ElectionMin c) then Err (Errorf "invalid Raft timing configuration")
    else Ok (mk r RaftFollower "" ∅ None false (mkHistory [] [] [] [] [] [VoterConfiguration r]), c).

(** ** Nodes and clusters *)

(** What can be started at a node: by the election timer, by the heartbeat,
    by peers and by the operator. *)
Inductive call : Set :=
  | Campaign | HeartbeatTick
  | VoteCall (request : RequestVoteRequest)
  | AppendCall (request : AppendEntriesRequest)
  | InstallCall (request : InstallSnapshotRequest)
  | TimeoutCall (request : TimeoutNowRequest)
  | ProposeCall (command : MetadataCommand)
  | AdvanceCall (view : ViewDigests)
  | ChangeCall (voters : list string) (view : ViewDigests)
  | TransferCall.

Definition program (nodeID : string) (config : RaftRuntimeConfig) (fuel : nat) (c : call) : prog unit :=
  match c with
  | Campaign => campaign nodeID config fuel
  | HeartbeatTick => heartbeat_tick nodeID config fuel
  | VoteCall request => let^ _ := HandleVote nodeID request in Done tt
  | AppendCall request => let^ _ := HandleAppend nodeID request in Done tt
  | InstallCall request => let^ _ := HandleInstall nodeID request in Done tt
  | TimeoutCall request => let^ _ := TimeoutNow nodeID config fuel request in Done tt
  | ProposeCall command => let^ _ := Propose nodeID config fuel command in Done tt
  | AdvanceCall view => let^ _ := AdvanceView nodeID config fuel view in Done tt
  | ChangeCall voters view => let^ _ := ChangeVoters nodeID fuel voters view in Done tt
  | TransferCall => let^ _ := TransferLeadership nodeID fuel in Done tt
  end.

(** A node asks others for their votes, never itself. *)
Definition foreign (nodeID : string) (c : call) : bool :=
  match c with VoteCall request => negb (String.eqb (rv_CandidateID request) nodeID) | _ => true end.

Record node : Type := mkNode { shared : t; threads : list (prog unit) }.

(** The thread [i] takes a step. *)
Definition run_thread (i : nat) (path : list nat) (e : env) (n : node) : option node :=
  match threads n !! i with
  | Some p =>
      match small_step path e (shared n) p with
      | Some (s', p') => Some (mkNode s' (<[i := p']> (threads n)))
      | None => None
      end
  | None => None
  end.

(** A crash loses the threads and what is in memory; the store is opened
    again from its file. *)
Definition restart (n : node) (r : RaftStore) : node :=
  mkNode (mk r RaftFollower "" ∅ None false (past (set_store (shared n) r))) [].

(** ** Clusters *)

(** Every write of a file succeeds, and terms stay below [2^64]. *)
Definition permits (e : env) (s : t) : Prop := fault e = None ∧ CurrentTerm (state (store s)) + 1 < two64.

(** A vote that reaches a node was cast by the peer it asked.  Anything else
    the network may lose, repeat or make up. *)
Definition truthful (c : gmap string node) (s : t) : Prop :=
  ∀ peer request response,
    (peer, Voted request (Some response)) ∈ heard (past s) → rvr_VoteGranted response = true →
    ∃ n, c !! NodeID peer = Some n ∧ (rv_Term request, rv_CandidateID request) ∈ granted (past (shared n)).

Inductive cluster_step (boot : Z) : gmap string node → gmap string node → Prop :=
  | starts c id n config fuel call :
      c !! id = Some n → foreign id call = true →
      cluster_step boot c (<[id := mkNode (shared n) (threads n ++ [program id config fuel call])]> c)
  | runs c id n i path e n' :
      c !! id = Some n → permits e (shared n) → run_thread i path e n = Some n' → truthful c (shared n') →
      cluster_step boot c (<[id := n']> c)
  | restarts c id n r :
      c !! id = Some n → OpenRaftStore None (disk (store (shared n))) id boot = Ok r →
      cluster_step boot c (<[id := restart n r]> c).

(** Nodes start from empty stores. *)
Definition new_node (boot : Z) (id : string) (n : node) : Prop :=
  ∃ r config s config', OpenRaftStore None None id boot = Ok r ∧ NewRaftRuntime r id config = Ok (s, config')
  ∧ n = mkNode s [].

Inductive cluster_run (boot : Z) : gmap string node → Prop :=
  | run_new c : map_Forall (new_node boot) c → cluster_run boot c
  | run_step c c' : cluster_run boot c → cluster_step boot c c' → cluster_run boot c'.

(** Between [ElectionMin] and [ElectionMax]; [random] is what [rand] gives
    below a bound. *)
Definition electionTimeout (random : Z → Z) (c : RaftRuntimeConfig) : Z :=
  let span := ElectionMax c - ElectionMin c in
  if span =? 0 then ElectionMin c else ElectionMin c + random span.

End Runtime.
