(* ===== verification/RuntimeProofs.v ===== *)
(** * The metadata Raft runtime: programs under any interleaving

    The regions of a node's programs keep an invariant [Inv] and move the
    shared state along [common], whatever thread runs them; the two regions of
    a campaign that start an election and take office move it along [other].
    [safe] says that a program does so from a state that the other threads
    change in the meantime ([rely]); [campaignMu] keeps two campaigns apart.
    Every program of [RaftRuntime.v] is [safe]; steps of the threads of a node
    keep the invariant, and so do crashes and new threads.  [me] is the node
    the section is about. *)
From Stdlib Require Import ZArith Lia Ascii String.
From stdpp Require Import base tactics list gmap strings.
From S2P Require Import Prelude ClusterBase RaftStore RaftInvariant RaftSafety RaftRuntime.
Import Runtime.
Local Set Warnings "-register-all,-notation-for-abbreviation".
Local Open Scope string_scope.
Local Open Scope Z_scope.
Local Open Scope list_scope.

(** Induction that reaches the programs of a [Par]. *)
Fixpoint prog_nested_ind (P : ∀ A : Type, prog A → Prop)
    (HDone : ∀ A a, P A (Done a))
    (HDo : ∀ A (X : Set) f k, (∀ x : X, P A (k x)) → P A (Do f k))
    (HPar : ∀ A ps k, Forall (P bool) ps → (∀ l, P A (k l)) → P A (Par ps k))
    (HLocked : ∀ A held body k, P unit body → P A k → P A (Locked held body k))
    {A : Type} (p : prog A) {struct p} : P A p :=
  match p with
  | Done a => HDone _ a
  | Do f k => HDo _ _ f k (λ x, prog_nested_ind P HDone HDo HPar HLocked (k x))
  | Par ps k =>
      HPar _ ps k
        ((fix all (ps : list (prog bool)) : Forall (P bool) ps :=
            match ps with
            | [] => Forall_nil_2 _
            | q :: ps => Forall_cons_2 _ _ _ (prog_nested_ind P HDone HDo HPar HLocked q) (all ps)
            end) ps)
        (λ l, prog_nested_ind P HDone HDo HPar HLocked (k l))
  | Locked held body k =>
      HLocked _ held body k (prog_nested_ind P HDone HDo HPar HLocked body) (prog_nested_ind P HDone HDo HPar HLocked k)
  end.

(** ** The store under a runtime *)

(** The voter sets a majority of which a decision needs. *)
Definition voter_sets (c : configuration) : list (list string) :=
  let '(voters, jointOld, jointNew) := c in if len jointOld =? 0 then [voters] else [jointOld; jointNew].

Definition quorum (c : configuration) (acks : list string) : Prop :=
  ∀ V, V ∈ voter_sets c → voterMajority V (stringSet acks) = true.

Lemma has_quorum r acks : HasVoterQuorum r acks = true → quorum (VoterConfiguration r) acks.
Proof. intros Hq V HV. by apply (HasVoterQuorum_sets r acks Hq). Qed.

Lemma commit_quorum fault r index term acks r' :
  CommitWithVoterAcks fault r index term acks = (r', Ok tt) → quorum (VoterConfiguration r) acks.
Proof.
  unfold CommitWithVoterAcks. intros Hc. apply has_quorum. unfold HasVoterQuorum.
  destruct (len (JointOldVoters (state r)) =? 0); simpl in *.
  - destruct (voterMajority (Voters (state r)) _); [done|discriminate].
  - destruct (voterMajority (JointOldVoters (state r)) _), (voterMajority (JointNewVoters (state r)) _);
      try discriminate; done.
Qed.

(** How a handler moves the vote of node [me], when it does not cast it for
    [me]. *)
Lemma exec_foreign_vote me r op :
  me ≠ "" → op_candidate r op ≠ Some me → op ≠ OpBeginElection →
  CurrentTerm (state r) ≤ CurrentTerm (state (exec None r op))
  ∧ (VotedFor (state (exec None r op)) = me →
     VotedFor (state r) = me ∧ CurrentTerm (state (exec None r op)) = CurrentTerm (state r)).
Proof.
  intros Hme Hc Hb. destruct (exec_vote_change r op) as [E1 E2 _|E1 E2 _|E1 E2 _]; [done|..].
  - rewrite E1, E2. split; [lia|done].
  - rewrite E2. split; [lia|]. by intros <-.
  - split; [lia|]. intros E. by rewrite E in E2.
Qed.

(** A success of [BeginElection]. *)
Lemma begun r :
  CurrentTerm (state r) + 1 < two64 → 0 ≤ CurrentTerm (state r) →
  exec None r OpBeginElection = r ∧ (∀ request, snd (BeginElection None r) ≠ Ok request)
  ∨ CurrentTerm (state (exec None r OpBeginElection)) = CurrentTerm (state r) + 1
    ∧ ∀ request, snd (BeginElection None r) = Ok request →
      rv_Term request = CurrentTerm (state r) + 1 ∧ rv_CandidateID request = nodeID r.
Proof.
  intros Hf H0. unfold exec, BeginElection. destruct (_ && _); [by left|right].
  destruct (lastLogLocked _). simpl. rewrite u64_small by lia. split; [done|]. by intros request [= <-].
Qed.

(** Appending an own entry needs the term and the vote. *)
Lemma append_own_vote fault r term command r' index :
  AppendCommand fault r term command = (r', Ok index) →
  CurrentTerm (state r) = term ∧ VotedFor (state r) = nodeID r.
Proof.
  unfold AppendCommand. destruct (_ || _) eqn:E; [discriminate|]. intros _. bool_props.
  apply String.eqb_eq in H0 as ->. split; [lia|done].
Qed.

Section Node.
Context (me : string).

Notation term_of s := (CurrentTerm (state (store s))).
Notation vote_of s := (VotedFor (state (store s))).

(** ** The invariant *)

Definition won_term (s : t) (term : Z) : Prop := ∃ votes, (term, votes) ∈ won (past s).

(** The node [v] answered this node's request for its vote with a grant. *)
Definition answered (s : t) (term : Z) (v : string) : Prop :=
  ∃ peer request response,
    (peer, Voted request (Some response)) ∈ heard (past s) ∧ NodeID peer = v
    ∧ rv_Term request = term ∧ rv_CandidateID request = me ∧ rvr_VoteGranted response = true.

(** The node [v] answered that it holds this leader's log up to [index]. *)
Definition confirmed (s : t) (term index : Z) (v : string) : Prop :=
  ∃ peer, NodeID peer = v
  ∧ ((∃ request response, (peer, Appended request (Some response)) ∈ heard (past s)
        ∧ ae_Term request = term ∧ ae_LeaderID request = me
        ∧ aer_Success response = true ∧ index ≤ aer_MatchIndex response)
     ∨ (∃ request response, (peer, Installed request (Some response)) ∈ heard (past s)
        ∧ is_Term request = term ∧ is_LeaderID request = me
        ∧ isr_Success response = true ∧ index ≤ isr_MatchIndex response)).

Definition some_quorum (s : t) (acks : list string) : Prop :=
  ∃ c, c ∈ configurations (past s) ∧ quorum c acks.

Definition elected (s : t) (term : Z) (votes : list string) : Prop :=
  (term, me) ∈ granted (past s) ∧ some_quorum s votes ∧ ∀ v, v ∈ votes → v = me ∨ answered s term v.

Definition committed (s : t) (index term : Z) (acks : list string) : Prop :=
  won_term s term ∧ some_quorum s acks ∧ ∀ v, v ∈ acks → v = me ∨ confirmed s term index v.

Record Inv (s : t) : Prop := {
  inv_votes : VoteInv me (store s) (granted (past s));
  inv_leader : role s = RaftLeader → vote_of s = me → won_term s (term_of s);
  inv_won : ∀ term votes, (term, votes) ∈ won (past s) → elected s term votes;
  inv_created : ∀ term, term ∈ created (past s) → won_term s term;
  inv_commits : ∀ index term acks, (index, term, acks) ∈ commits (past s) → committed s index term acks;
  inv_configuration : VoterConfiguration (store s) ∈ configurations (past s);
}.

(** ** What a step may do *)

Record grows (s s' : t) : Prop := {
  grows_granted : granted (past s) ⊆ granted (past s');
  grows_won : won (past s) ⊆ won (past s');
  grows_heard : heard (past s) ⊆ heard (past s');
  grows_configurations : configurations (past s) ⊆ configurations (past s');
}.

(** No new vote of the node for itself, and no new office. *)
Record common (s s' : t) : Prop := {
  common_grows : grows s s';
  common_term : term_of s ≤ term_of s';
  common_vote : vote_of s' = me → vote_of s = me ∧ term_of s' = term_of s;
  common_role : role s' = RaftLeader → role s = RaftLeader;
}.

(** A new vote of the node for itself comes with a new term. *)
Record other (s s' : t) : Prop := {
  other_grows : grows s s';
  other_term : term_of s ≤ term_of s';
  other_vote : term_of s' = term_of s → vote_of s' = me → vote_of s = me;
}.

#[local] Instance grows_preorder : PreOrder grows.
Proof.
  split; [intros s; by split|]. intros s1 s2 s3 [A1 A2 A3 A4] [B1 B2 B3 B4]. split; by etrans.
Qed.

#[local] Instance common_preorder : PreOrder common.
Proof.
  split; [intros s; split; auto; [reflexivity|lia]|].
  intros s1 s2 s3 [A1 A2 A3 A4] [B1 B2 B3 B4]. split; [by etrans|lia| |auto].
  intros Hv. destruct (B3 Hv) as [Hv2 E2]. destruct (A3 Hv2). split; [done|lia].
Qed.

#[local] Instance other_preorder : PreOrder other.
Proof.
  split; [intros s; split; auto; [reflexivity|lia]|].
  intros s1 s2 s3 [A1 A2 A3] [B1 B2 B3]. split; [by etrans|lia|].
  intros E Hv. apply A3; [lia|]. apply B3; [lia|done].
Qed.

Lemma common_other s s' : common s s' → other s s'.
Proof. intros [H1 H2 H3 H4]. split; [done..|]. intros _ Hv. by destruct (H3 Hv). Qed.

(** Facts that stay true. *)
Definition stable (R : t → t → Prop) (P : t → Prop) : Prop := ∀ s s', R s s' → P s → P s'.

Lemma won_term_grows s s' term : grows s s' → won_term s term → won_term s' term.
Proof. intros Hg [votes Hv]. exists votes. by apply (grows_won _ _ Hg). Qed.

Lemma answered_grows s s' term v : grows s s' → answered s term v → answered s' term v.
Proof.
  intros Hg (peer & q & a & Hin & Hrest). exists peer, q, a. split; [by apply (grows_heard _ _ Hg)|done].
Qed.

Lemma confirmed_grows s s' term index v : grows s s' → confirmed s term index v → confirmed s' term index v.
Proof.
  intros Hg (peer & Hp & [(q & a & Hin & Hrest)|(q & a & Hin & Hrest)]); exists peer; (split; [done|]);
    [left|right]; exists q, a; (split; [by apply (grows_heard _ _ Hg)|done]).
Qed.

Lemma some_quorum_grows s s' acks : grows s s' → some_quorum s acks → some_quorum s' acks.
Proof. intros Hg (c & Hc & Hq). exists c. split; [by apply (grows_configurations _ _ Hg)|done]. Qed.

Lemma elected_grows s s' term votes : grows s s' → elected s term votes → elected s' term votes.
Proof.
  intros Hg (H1 & H2 & H3). split; [by apply (grows_granted _ _ Hg)|].
  split; [by eapply some_quorum_grows|]. intros v Hv. destruct (H3 v Hv); [by left|right].
  by eapply answered_grows.
Qed.

Lemma committed_grows s s' index term acks : grows s s' → committed s index term acks → committed s' index term acks.
Proof.
  intros Hg (H1 & H2 & H3). split; [by eapply won_term_grows|].
  split; [by eapply some_quorum_grows|]. intros v Hv. destruct (H3 v Hv); [by left|right].
  by eapply confirmed_grows.
Qed.

(** In the term [term], or having been in it, the node wrote only what it was
    elected to write. *)
Definition office (term : Z) (s : t) : Prop :=
  term < term_of s ∨ term = term_of s ∧ (vote_of s = me → won_term s term).

Lemma office_stable term : stable other (office term).
Proof.
  intros s s' [Hg Ht Hv] [H|[-> H]]; [left; lia|].
  destruct (decide (term_of s' = term_of s)) as [E|E]; [right|left; lia].
  split; [done|]. intros Hm. apply (won_term_grows s); [done|]. auto.
Qed.

(** The node stands for election in [term], or something newer happened. *)
Definition standing (term : Z) (s : t) : Prop :=
  term ≤ term_of s ∧ (vote_of s = me → term_of s = term) ∧ (term, me) ∈ granted (past s).

Lemma standing_stable term : stable common (standing term).
Proof.
  intros s s' [Hg Ht Hv _] (H1 & H2 & H3). split; [lia|]. split; [|by apply (grows_granted _ _ Hg)].
  intros Hm. destruct (Hv Hm) as [Hm' E]. rewrite E. auto.
Qed.

Definition out_of_office (s : t) : Prop := role s ≠ RaftLeader.

Lemma out_of_office_stable : stable common out_of_office.
Proof. intros s s' [_ _ _ Hr] Hn Hl. by apply Hn, Hr. Qed.

(** ** Regions *)

Lemma Inv_grows s s' :
  Inv s → grows s s' → VoteInv me (store s') (granted (past s')) →
  (role s' = RaftLeader → vote_of s' = me → won_term s' (term_of s')) →
  won (past s') = won (past s) → created (past s') = created (past s) → commits (past s') = commits (past s) →
  VoterConfiguration (store s') ∈ configurations (past s') → Inv s'.
Proof.
  intros [H1 H2 H3 H4 H5 H6] Hg Hv Hl Ew Ec Em Hc. split; [done|done| | | |done].
  - intros term votes. rewrite Ew. intros Hin. eapply elected_grows; [done|]. by apply H3.
  - intros term. rewrite Ec. intros Hin. eapply won_term_grows; [done|]. by apply H4.
  - intros index term acks. rewrite Em. intros Hin. eapply committed_grows; [done|]. by apply H5.
Qed.

Definition step_ok (R : t → t → Prop) (s s' : t) : Prop :=
  Inv s' ∧ R s s' ∧ campaigning s' = campaigning s.

(** The store and the past stay as they are. *)
Lemma step_local s s' :
  Inv s → store s' = store s → past s' = past s → campaigning s' = campaigning s →
  (role s' = RaftLeader → role s = RaftLeader) → step_ok common s s'.
Proof.
  intros HI Es Ep Ec Hr. assert (grows s s') as Hg by (split; by rewrite Ep).
  split; [|split; [|done]].
  - apply (Inv_grows s); rewrite ?Es, ?Ep; try done; try apply HI.
    intros Hl Hv. eapply won_term_grows; [done|]. apply (inv_leader s HI); auto.
  - split; [done|by rewrite Es|by rewrite Es|done].
Qed.

Lemma step_hear s peer x : Inv s → step_ok common s (hear s peer x).
Proof.
  intros HI. assert (grows s (hear s peer x)) as Hg by (split; simpl; set_solver).
  split; [|split; [|done]].
  - apply (Inv_grows s); try done; apply HI.
  - split; [done|simpl; lia|done|done].
Qed.

(** A handler of the store ran, and its vote was noted. *)
Record handled (s : t) (op : RaftOp) (s' : t) : Prop := {
  handled_store : store s' = exec None (store s) op;
  handled_granted : granted (past s') = granted_vote (store s) op ++ granted (past s);
  handled_configurations : configurations (past s') = VoterConfiguration (store s') :: configurations (past s);
  handled_rest : (role s', campaigning s', won (past s'), created (past s'), commits (past s'), heard (past s'))
    = (role s, campaigning s, won (past s), created (past s), commits (past s), heard (past s));
}.

Lemma handled_grows s op s' : handled s op s' → grows s s'.
Proof. intros [_ Hg Hc [= E1 E2 E3 E4 E5 E6]]. split; rewrite ?Hg, ?Hc, ?E3, ?E6; set_solver. Qed.

Lemma handled_votes s op s' :
  Inv s → term_of s + 1 < two64 → handled s op s' → VoteInv me (store s') (granted (past s')).
Proof. intros HI Hf [-> -> _ _]. apply VoteInv_exec; [apply HI|done]. Qed.

Lemma me_nonempty s : Inv s → me ≠ "".
Proof. intros HI. apply ValidNodeID_nonempty, (vi_node _ _ _ (inv_votes s HI)). Qed.

Lemma term_nonnegative s : Inv s → 0 ≤ term_of s.
Proof. intros HI. destruct (vi_disk _ _ _ (inv_votes s HI)) as (d & _ & Ht & _). lia. Qed.

Lemma store_node s : Inv s → nodeID (store s) = me.
Proof. intros HI. apply (vi_node _ _ _ (inv_votes s HI)). Qed.

Lemma step_handled s op s' :
  Inv s → term_of s + 1 < two64 → op ≠ OpBeginElection → op_candidate (store s) op ≠ Some me →
  handled s op s' → step_ok common s s'.
Proof.
  intros HI Hf Hb Hc Hh. pose proof (handled_grows _ _ _ Hh) as Hg.
  pose proof (handled_votes _ _ _ HI Hf Hh) as Hv. destruct Hh as [Es _ Econf [= E1 E2 E3 E4 E5 E6]].
  destruct (exec_foreign_vote me (store s) op) as [Ht Hm]; [by eapply me_nonempty|done|done|].
  rewrite <-Es in Ht, Hm. split; [|split; [|done]].
  - apply (Inv_grows s); auto; [|rewrite Econf; apply list_elem_of_here].
    intros Hl Hvote. destruct (Hm Hvote) as [Hvote' ->]. eapply won_term_grows; [done|].
    apply (inv_leader s HI); [by rewrite <-E1|done].
  - split; [done..|by rewrite E1].
Qed.

(** Own entries and commits are noted on top of a step. *)
Lemma step_create s s' term :
  step_ok common s s' → won_term s' term → step_ok common s (create s' term).
Proof.
  intros (HI & [Hg Ht Hv Hr] & Ec) Hw. assert (grows s' (create s' term)) as Hg' by (split; simpl; set_solver).
  destruct HI as [H1 H2 H3 H4 H5 H6]. split; [|split; [split; [by etrans|done..]|done]].
  split; [done|exact H2|exact H3| |exact H5|done].
  simpl. intros term' [->|Hin]%elem_of_cons; [exact Hw|exact (H4 _ Hin)].
Qed.

Lemma step_commit s s' index term acks :
  step_ok common s s' → committed s' index term acks → step_ok common s (commit s' index term acks).
Proof.
  intros (HI & [Hg Ht Hv Hr] & Ec) Hw. assert (grows s' (commit s' index term acks)) as Hg' by (split; simpl; set_solver).
  destruct HI as [H1 H2 H3 H4 H5 H6]. split; [|split; [split; [by etrans|done..]|done]].
  split; [done|exact H2|exact H3|exact H4| |done].
  simpl. intros i term' acks' [[= -> -> ->]|Hin]%elem_of_cons; [exact Hw|exact (H5 _ _ _ Hin)].
Qed.

(** Starting an election: a new term, voted for by the node itself. *)
Lemma step_begin s s' :
  Inv s → term_of s + 1 < two64 → out_of_office s → handled s OpBeginElection s' →
  step_ok other s s'
  ∧ ∀ request, snd (BeginElection None (store s)) = Ok request →
    standing (rv_Term request) s' ∧ rv_CandidateID request = me.
Proof.
  intros HI Hf Ho Hh. pose proof (handled_grows _ _ _ Hh) as Hg.
  pose proof (handled_votes _ _ _ HI Hf Hh) as Hv. destruct Hh as [Es Egr Econf [= E1 E2 E3 E4 E5 E6]].
  assert (Inv s') as HI'.
  { apply (Inv_grows s); auto; [by rewrite E1|rewrite Econf; apply list_elem_of_here]. }
  destruct (begun (store s) Hf (term_nonnegative s HI)) as [[Er Hn]|[Et Hq]]; rewrite <-Es in *.
  - split; [|intros request Hr; by apply Hn in Hr]. split; [done|]. split; [|done]. split; rewrite ?Er; auto; lia.
  - split; [split; [done|]; split; [|done]; split; [done|lia|intros; lia]|].
    intros request Hr. destruct (Hq request Hr) as [Hq1 Hq2]. rewrite (store_node s HI) in Hq2.
    split; [|done]. rewrite Hq1, <-Et. split; [lia|]. split; [done|].
    rewrite Egr. simpl. rewrite Hr, Et, <-Hq1, Hq2. apply list_elem_of_here.
Qed.

(** Taking office. *)
Lemma step_win s s' term votes :
  Inv s → standing term s → elected s term votes →
  store s' = store s → past s' = past (win s term votes) → campaigning s' = campaigning s → step_ok other s s'.
Proof.
  intros HI (S1 & S2 & S3) He Es Ep Ec. assert (grows s s') as Hg by (split; rewrite Ep; simpl; set_solver).
  destruct HI as [H1 H2 H3 H4 H5 H6]. split; [|split; [|done]].
  - split; rewrite ?Es, ?Ep; simpl.
    + exact H1.
    + intros _ Hm. exists votes. rewrite (S2 Hm), Ep. apply list_elem_of_here.
    + intros term' votes' [[= -> ->]|Hin]%elem_of_cons; eapply elected_grows; eauto.
    + intros term' Hin. eapply won_term_grows; eauto.
    + intros index term' acks Hin. eapply committed_grows; eauto.
    + exact H6.
  - split; [done|rewrite Es; lia|]. by rewrite Es.
Qed.

(** ** Safe programs *)

(** A thread outside the mutex, one of the programs of a [Par], a thread that
    holds the mutex, what it runs under it, and a part of that which leaves
    the office alone. *)
Inductive mode : Set := Free | Part | Owner | Holder | Guest.

(** What the others do meanwhile. *)
Definition rely (m : mode) : t → t → Prop := match m with Free | Part => other | _ => common end.

(** What the program does. *)
Definition guar (m : mode) : t → t → Prop := match m with Holder => other | _ => common end.

#[local] Instance rely_preorder m : PreOrder (rely m).
Proof. destruct m; apply _. Qed.

Lemma rely_other m s s' : rely m s s' → other s s'.
Proof. destruct m; simpl; auto using common_other. Qed.

Lemma common_rely m s s' : common s s' → rely m s s'.
Proof. destruct m; simpl; auto using common_other. Qed.

Lemma common_guar m s s' : common s s' → guar m s s'.
Proof. destruct m; simpl; auto using common_other. Qed.

(** From [s], whatever the others do, each region of [p] is a step the mode
    allows, and [Q] holds when [p] ends. *)
Fixpoint safe {A : Type} (m : mode) (s : t) (p : prog A) (Q : A → t → Prop) {struct p} : Prop :=
  ∀ s1, rely m s s1 → Inv s1 →
  match p with
  | Done a => Q a s1
  | Do f k =>
      ∀ e, permits e s1 → step_ok (guar m) s1 (f e s1).1 ∧ safe m (f e s1).1 (k (f e s1).2) Q
  | Par ps k =>
      ∃ Qs : list (bool → t → Prop),
        (fix all (ps : list (prog bool)) (Qs : list (bool → t → Prop)) : Prop :=
           match ps, Qs with
           | [], [] => True
           | q :: ps, Q :: Qs => safe Part s1 q Q ∧ all ps Qs
           | _, _ => False
           end) ps Qs
        ∧ ∀ l s2, rely m s1 s2 → Inv s2 → Forall2 (λ b (Q : bool → t → Prop), Q b s2) l Qs → safe m s2 (k l) Q
  | Locked held body k =>
      m = (if held then Owner else Free)
      ∧ safe Holder (if held then s1 else set_campaigning s1 true) body (λ _ s2, safe Free (set_campaigning s2 false) k Q)
  end.

(** The programs of a [Par], with what each of them establishes. *)
Definition all_safe (s : t) (ps : list (prog bool)) (Qs : list (bool → t → Prop)) : Prop :=
  Forall2 (safe Part s) ps Qs.

Lemma all_safe_spec s ps Qs :
  (fix all (ps : list (prog bool)) (Qs : list (bool → t → Prop)) : Prop :=
     match ps, Qs with
     | [], [] => True
     | q :: ps, Q :: Qs => safe Part s q Q ∧ all ps Qs
     | _, _ => False
     end) ps Qs ↔ all_safe s ps Qs.
Proof.
  unfold all_safe. revert Qs. induction ps as [|q ps IH]; intros [|R Qs]; split; intros Hs;
    try done; try (by inversion Hs).
  - constructor; [apply Hs|apply IH, Hs].
  - inversion_clear Hs. split; [done|by apply IH].
Qed.

Lemma safe_rely {A : Type} m s s' (p : prog A) Q : rely m s s' → safe m s p Q → safe m s' p Q.
Proof. intros Hr Hs. destruct p; intros s1 Hr1; apply Hs; by etrans. Qed.

Lemma safe_weaken {A : Type} m s (p : prog A) (Q Q' : A → t → Prop) :
  (∀ a s', Q a s' → Q' a s') → safe m s p Q → safe m s p Q'.
Proof.
  revert m s Q Q'. induction p as [A a|A X f k IH|A ps k IH|A held body IHb k IH]; intros m s Q Q' HQ Hs.
  - intros s1 Hr HI. apply HQ. by apply Hs.
  - intros s1 Hr HI e He. destruct (Hs s1 Hr HI e He) as [H1 H2]. split; [done|]. by eapply IH.
  - intros s1 Hr HI. destruct (Hs s1 Hr HI) as (Qs & H1 & H2).
    exists Qs. split; [done|]. intros l s2 Hr2 HI2 Hl. eapply IH; [done|]. by apply H2.
  - intros s1 Hr HI. destruct (Hs s1 Hr HI) as [Hm Hb]. split; [done|].
    eapply IHb; [|exact Hb]. intros u s2 Hk. by eapply IH.
Qed.

Lemma safe_later {A : Type} m s (p : prog A) Q :
  (∀ s1, rely m s s1 → Inv s1 → safe m s1 p Q) → safe m s p Q.
Proof. intros Hs. destruct p; intros s1 Hr HI; apply (Hs s1 Hr HI s1); done. Qed.

Lemma safe_seq {A B : Type} m s (p : prog A) (f : A → prog B) (Q : B → t → Prop) :
  m ≠ Owner → safe m s p (λ a s', safe m s' (f a) Q) → safe m s (bind p f) Q.
Proof.
  intros Hm. revert s. induction p as [A a|A X g k IH|A ps k IH|A held body IHb k IH]; intros s Hs; cbn [bind].
  - by apply safe_later.
  - intros s1 Hr HI e He. destruct (Hs s1 Hr HI e He) as [H1 H2]. split; [done|]. by apply IH.
  - intros s1 Hr HI. destruct (Hs s1 Hr HI) as (Qs & H1 & H2).
    exists Qs. split; [done|]. intros l s2 Hr2 HI2 Hl. apply IH. by apply H2.
  - intros s1 Hr HI. destruct (Hs s1 Hr HI) as [Em Hb]. destruct held; [done|subst m]. split; [done|].
    eapply safe_weaken; [|exact Hb]. intros u s2 Hk. by apply IH.
Qed.

(** A part of a program, run as a guest of the mutex or beside others, with
    facts nobody changes. *)
Lemma safe_frame {A : Type} m m' s (p : prog A) (P : t → Prop) (Q : A → t → Prop) :
  (m = Part ∧ (m' = Part ∨ m' = Free) ∧ stable other P ∨ m = Guest ∧ (m' = Guest ∨ m' = Holder) ∧ stable common P) →
  P s → safe m s p Q → safe m' s p (λ a s', P s' ∧ Q a s').
Proof.
  intros Hm. assert (rely m = rely m' ∧ guar m = common ∧ (∀ s s', rely m s s' → P s → P s') ∧ m ≠ Free ∧ m ≠ Owner)
    as (Er & Eg & HP & Hf & Ho).
  { destruct Hm as [(-> & [-> | ->] & HP)|(-> & [-> | ->] & HP)]; done. }
  clear Hm. revert s P Q HP. induction p as [A a|A X f k IH|A ps k IH|A held body IHb k IH]; intros s P Q HP Hs Hp.
  - intros s1 Hr HI. rewrite <-Er in Hr. split; [by apply (HP s s1)|by apply Hp].
  - intros s1 Hr HI e He. rewrite <-Er in Hr. destruct (Hp s1 Hr HI e He) as [(H1 & H2 & H3) Hk].
    rewrite Eg in H2. split; [split; [done|]; split; [by apply common_guar|done]|].
    apply IH; [done| |done]. apply (HP s1); [by apply common_rely|by apply (HP s s1)].
  - intros s1 Hr HI. rewrite <-Er in Hr. destruct (Hp s1 Hr HI) as (Qs & H1 & H2). exists Qs. split; [done|].
    intros l s2 Hr2 HI2 Hl. rewrite <-Er in Hr2. apply IH; [done| |by apply H2].
    apply (HP s1); [done|by apply (HP s s1)].
  - intros s1 Hr HI. rewrite <-Er in Hr. destruct (Hp s1 Hr HI) as [Hm _]. by destruct held.
Qed.

(** The step of one of the programs of a [Par]. *)
Fixpoint child (path : list nat) (e : env) (s : t) (ps : list (prog bool)) (i : nat) : option (t * list (prog bool)) :=
  match ps, i with
  | [], _ => None
  | q :: rest, O => match small_step path e s q with Some (s', q') => Some (s', q' :: rest) | None => None end
  | q :: rest, S i => match child path e s rest i with Some (s', rest') => Some (s', q :: rest') | None => None end
  end.

Lemma small_step_Par {A : Type} path e s ps (k : list bool → prog A) :
  small_step path e s (Par ps k) =
    match path with
    | [] => match ended ps with Some l => Some (s, k l) | None => None end
    | i :: path => match child path e s ps i with Some (s', ps') => Some (s', Par ps' k) | None => None end
    end.
Proof.
  destruct path as [|i path]; [done|]. cbn [small_step].
  match goal with |- match ?c with _ => _ end = _ => assert (c = child path e s ps i) as ->; [|done] end.
  revert i. induction ps as [|q ps IH]; intros [|i]; try done. cbn [child]. by rewrite <-IH.
Qed.

Lemma all_safe_rely s s' ps Qs : other s s' → all_safe s ps Qs → all_safe s' ps Qs.
Proof. intros Hr Hs. eapply Forall2_impl; [exact Hs|]. intros q Q. by apply safe_rely. Qed.

Lemma ended_safe s ps l Qs :
  Inv s → ended ps = Some l → all_safe s ps Qs → Forall2 (λ b (Q : bool → t → Prop), Q b s) l Qs.
Proof.
  intros HI. revert l Qs. induction ps as [|q ps IH]; intros l Qs Hl Hs.
  - injection Hl as <-. inversion Hs. constructor.
  - destruct q as [b| | |]; try discriminate. simpl in Hl. destruct (ended ps) as [l'|]; [|discriminate].
    injection Hl as <-. destruct Qs as [|Q Qs]; [inversion Hs|]. apply Forall2_cons in Hs as [Hq Hs].
    constructor; [|by apply IH]. apply (Hq s); [reflexivity|done].
Qed.

Lemma child_safe path e s s' ps ps' i Qs :
  Inv s → permits e s →
  Forall (λ q, ∀ Q s' q', safe Part s q Q → small_step path e s q = Some (s', q') →
            step_ok common s s' ∧ safe Part s' q' Q) ps →
  all_safe s ps Qs → child path e s ps i = Some (s', ps') → step_ok common s s' ∧ all_safe s' ps' Qs.
Proof.
  intros HI He Hps. revert i ps' Qs. induction Hps as [|q ps Hq Hps IH]; intros i ps' Qs Hs Hc; [by destruct i|].
  destruct Qs as [|Q Qs]; [inversion Hs|]. apply Forall2_cons in Hs as [Hsq Hss].
  destruct i as [|i]; cbn [child] in Hc.
  - destruct (small_step path e s q) as [[s1 q']|] eqn:Eq; [|discriminate]. injection Hc as <- <-.
    destruct (Hq _ _ _ Hsq eq_refl) as [Hok Hq2]. split; [done|]. constructor; [done|].
    apply (all_safe_rely s); [|done]. apply common_other, Hok.
  - destruct (child path e s ps i) as [[s1 rest]|] eqn:Ei; [|discriminate]. injection Hc as <- <-.
    destruct (IH _ _ _ Hss Ei) as [Hok Hrest]. split; [done|]. constructor; [|done].
    apply (safe_rely _ s); [|done]. apply common_other, Hok.
Qed.

(** One step of a program. *)
Lemma small_step_safe {A : Type} m path e s (p : prog A) Q s' p' :
  (∀ held body k, p ≠ Locked held body k) ∨ m ≠ Free ∧ m ≠ Owner →
  Inv s → permits e s → safe m s p Q → small_step path e s p = Some (s', p') →
  step_ok (guar m) s s' ∧ safe m s' p' Q.
Proof.
  intros Hm HI He. revert m path Q s' p' Hm. induction p as [A a|A X f k IH|A ps k Hps IH|A held body k IHb IH]
    using @prog_nested_ind; intros m path Q s' p' Hm Hs Ha.
  - discriminate.
  - cbn [small_step] in Ha. destruct (Hs s ltac:(reflexivity) HI e He) as [H1 H2].
    destruct (f e s) as [s1 x]. by injection Ha as <- <-.
  - rewrite small_step_Par in Ha. destruct (Hs s ltac:(reflexivity) HI) as (Qs & H1 & H2). apply all_safe_spec in H1.
    destruct path as [|i path].
    + destruct (ended ps) as [l|] eqn:El; [|discriminate]. injection Ha as <- <-.
      split; [split; [done|]; split; [apply common_guar; reflexivity|done]|].
      apply H2; [reflexivity|done|]. by eapply ended_safe.
    + destruct (child path e s ps i) as [[s1 ps']|] eqn:Ei; [|discriminate]. injection Ha as <- <-.
      destruct (child_safe path e s s1 ps ps' i Qs) as [Hok Hps']; auto.
      { eapply Forall_impl; [exact Hps|]. intros q Hq Q' s2 q' Hsq Hqa. apply (Hq Part path); auto. }
      split; [split; [apply Hok|]; split; [apply common_guar, Hok|apply Hok]|].
      intros s2 Hr2 HI2. exists Qs. split; [apply all_safe_spec, (all_safe_rely s1); [by eapply rely_other|done]|].
      intros l s3 Hr3. apply H2. etrans; [apply common_rely, Hok|]. by etrans.
  - destruct Hm as [Hm|[Hf Ho]]; [by destruct (Hm held body k)|].
    destruct (Hs s ltac:(reflexivity) HI) as [Em _]. by destruct held.
Qed.

(** ** Threads and nodes *)

Definition mode_of {A : Type} (p : prog A) : mode := match p with Locked true _ _ => Owner | _ => Free end.

Definition thread_ok (s : t) (p : prog unit) : Prop := safe (mode_of p) s p (λ _ _, True).

Record node_ok (n : node) : Prop := {
  ok_shared : Inv (shared n);
  ok_thread i p : threads n !! i = Some p → thread_ok (shared n) p;
  ok_locked i p : threads n !! i = Some p → mode_of p = Owner → campaigning (shared n) = true;
  ok_exclusive i j p q :
    threads n !! i = Some p → threads n !! j = Some q → mode_of p = Owner → mode_of q = Owner → i = j;
}.

Lemma mode_of_cases {A : Type} (p : prog A) : mode_of p = Owner ∨ mode_of p = Free.
Proof. destruct p as [| | |[] ? ?]; auto. Qed.

Lemma safe_free {A : Type} s (p : prog A) Q : Inv s → safe Free s p Q → mode_of p = Free.
Proof.
  intros HI Hs. destruct p as [| | |held body k]; try done.
  destruct (Hs s ltac:(reflexivity) HI) as [Hm _]. by destruct held.
Qed.

Lemma campaigning_local s b : Inv s → Inv (set_campaigning s b) ∧ common s (set_campaigning s b).
Proof.
  intros HI. destruct (step_local (set_campaigning s (campaigning s)) (set_campaigning s (campaigning s)))
    as (H1 & H2 & _); try done; [by destruct HI; split|]. split; [by destruct H1; split|].
  split; [by split|simpl; lia|done|done].
Qed.

(** What a step of a thread does to the lock. *)
Inductive lock_step (s s' : t) (p p' : prog unit) : Prop :=
  | lock_kept : mode_of p' = mode_of p → campaigning s' = campaigning s → lock_step s s' p p'
  | lock_taken : mode_of p = Free → campaigning s = false → campaigning s' = true → lock_step s s' p p'
  | lock_freed : mode_of p = Owner → mode_of p' = Free → lock_step s s' p p'.

Lemma small_step_held path e s body k s' p' :
  small_step path e s (Locked true body k) = Some (s', p' : prog unit) →
  (∃ a, body = Done a ∧ s' = set_campaigning s false ∧ p' = k)
  ∨ ∃ body', small_step path e s body = Some (s', body') ∧ p' = Locked true body' k.
Proof.
  intros Ha. assert ((∃ a, body = Done a) ∨ small_step path e s (Locked true body k)
    = match small_step path e s body with Some (s', b) => Some (s', Locked true b k) | None => None end) as [[a ->]|E]
    by (destruct body; eauto).
  - left. injection Ha as <- <-. by exists a.
  - right. rewrite E in Ha. destruct (small_step path e s body) as [[s1 body']|]; [|discriminate].
    injection Ha as <- <-. by exists body'.
Qed.

Lemma thread_step path e s (p : prog unit) s' p' :
  Inv s → permits e s → thread_ok s p → small_step path e s p = Some (s', p') →
  Inv s' ∧ (mode_of p = Free → common s s') ∧ other s s' ∧ thread_ok s' p' ∧ lock_step s s' p p'.
Proof.
  intros HI He Hs Ha. unfold thread_ok in *.
  assert ((∀ held body k, p ≠ Locked held body k) → Inv s' ∧ (mode_of p = Free → common s s') ∧ other s s'
    ∧ safe (mode_of p') s' p' (λ _ _, True) ∧ lock_step s s' p p') as Hplain.
  { intros Hp. assert (mode_of p = Free) as Em by (destruct p as [| | |h b k]; try done; by destruct (Hp h b k)).
    rewrite Em in *. destruct (small_step_safe Free path e s p _ s' p' (or_introl Hp) HI He Hs Ha) as [(H1 & H2 & H3) H4].
    pose proof (safe_free s' p' _ H1 H4) as Em'. rewrite Em'. split_and!; try done; [by apply common_other|].
    apply lock_kept; [by rewrite Em'|done]. }
  destruct p as [a|X f k|ps k|held body k]; try (by apply Hplain). clear Hplain.
  destruct held; destruct (Hs s ltac:(reflexivity) HI) as [_ Hb].
  - destruct (small_step_held _ _ _ _ _ _ _ Ha) as [(a & -> & -> & ->)|(body' & Hbody & ->)].
    + specialize (Hb s ltac:(reflexivity) HI). destruct (campaigning_local s false HI) as [H1 H2].
      pose proof (safe_free _ _ _ H1 Hb) as Em. rewrite Em. split_and!; try done. by apply lock_freed.
    + assert (Holder ≠ Free ∧ Holder ≠ Owner) as Hm by done.
      destruct (small_step_safe Holder path e s body _ s' body' (or_intror Hm) HI He Hb Hbody) as [(H1 & H2 & H3) H4].
      split_and!; try done; [|by apply lock_kept]. intros s1 Hr HI1. split; [done|].
      by apply (safe_rely Holder s').
  - cbn [small_step] in Ha. destruct (campaigning s) eqn:Ec; [discriminate|]. injection Ha as <- <-.
    destruct (campaigning_local s true HI) as [H1 H2]. split_and!; try done; [|by apply lock_taken].
    intros s1 Hr HI1. split; [done|]. by apply (safe_rely Holder (set_campaigning s true)).
Qed.

(** The other threads of a node are not disturbed by a step. *)
Lemma undisturbed s s' (p q : prog unit) :
  other s s' → (mode_of p = Free → common s s') → mode_of p ≠ Owner ∨ mode_of q ≠ Owner →
  thread_ok s q → thread_ok s' q.
Proof.
  intros Ho Hc Hm. apply safe_rely. destruct (mode_of_cases q) as [Eq|Eq]; rewrite Eq; [|done].
  apply Hc. destruct (mode_of_cases p) as [Ep|Ep]; [|done]. rewrite Ep, Eq in Hm. by destruct Hm.
Qed.

Lemma node_step i path e n n' :
  node_ok n → permits e (shared n) → run_thread i path e n = Some n' →
  node_ok n' ∧ other (shared n) (shared n').
Proof.
  intros [HI Ht Hl Hx] He Hr. unfold run_thread in Hr.
  destruct (threads n !! i) as [p|] eqn:Ei; [|discriminate].
  destruct (small_step path e (shared n) p) as [[s' p']|] eqn:Ea; [|discriminate]. injection Hr as <-.
  destruct (thread_step _ _ _ _ _ _ HI He (Ht i p Ei) Ea) as (H1 & H2 & H3 & H4 & H5).
  split; [|done]. assert (i < length (threads n))%nat as Hlen by (by eapply lookup_lt_Some).
  assert (∀ j q, threads n !! j = Some q → j ≠ i → mode_of q = Owner → mode_of p ≠ Owner) as Hone.
  { intros j q Hj Hne Hq Hp. by apply Hne, (Hx j i q p). }
  split; simpl; [done|..].
  - intros j q [(-> & -> & _)|[Hne Hj]]%list_lookup_insert_Some; [done|].
    apply (undisturbed (shared n) s' p q); eauto. destruct (mode_of_cases q) as [Eq|Eq]; [|right; by rewrite Eq].
    left. by apply (Hone j q).
  - intros j q [(-> & -> & _)|[Hne Hj]]%list_lookup_insert_Some Hq.
    + destruct H5 as [E1 E2|E1 E2 E3|E1 E2]; [rewrite E2; apply (Hl j p Ei); congruence|done|congruence].
    + pose proof (Hl j q Hj Hq) as Hc. destruct H5 as [E1 E2|E1 E2 E3|E1 E2]; [congruence|congruence|].
      by destruct (Hone j q Hj (not_eq_sym Hne) Hq).
  - assert (∀ j q, threads n !! j = Some q → i ≠ j → mode_of q = Owner → mode_of p' ≠ Owner) as Hone'.
    { intros j q Hj Hne Hq Hp'. pose proof (Hl j q Hj Hq) as Hc.
      destruct H5 as [E1 E2|E1 E2 E3|E1 E2]; [|congruence..].
      apply (Hone j q Hj (not_eq_sym Hne) Hq). congruence. }
    intros j1 j2 q1 q2 [(-> & -> & _)|[Hne1 Hj1]]%list_lookup_insert_Some
      [(<- & -> & _)|[Hne2 Hj2]]%list_lookup_insert_Some Hq1 Hq2; try done.
    + by destruct (Hone' j2 q2 Hj2 Hne2 Hq2).
    + by destruct (Hone' j1 q1 Hj1 Hne1 Hq1).
    + by apply (Hx j1 j2 q1 q2).
Qed.

(** ** Programs that leave the office alone *)

Lemma step_refl m s : Inv s → step_ok (guar m) s s.
Proof. intros HI. split; [done|]. split; [|done]. apply common_guar. reflexivity. Qed.

Lemma step_guar m s s' : step_ok common s s' → step_ok (guar m) s s'.
Proof. intros (H1 & H2 & H3). split; [done|]. split; [|done]. by apply common_guar. Qed.

Definition quiet {A : Type} (p : prog A) : Prop := ∀ m s, m ≠ Owner → safe m s p (λ _ _, True).

Lemma quiet_done {A : Type} (a : A) : quiet (Done a).
Proof. intros m s _ s1 _ _. done. Qed.

Lemma quiet_seq {A B : Type} (p : prog A) (f : A → prog B) :
  quiet p → (∀ a, quiet (f a)) → quiet (bind p f).
Proof.
  intros Hp Hf m s Hm. apply safe_seq; [done|]. eapply safe_weaken; [|by apply Hp].
  intros a s' _. by apply Hf.
Qed.

Lemma quiet_region {X : Set} (f : env → t → t * X) :
  (∀ e s, Inv s → permits e s → step_ok common s (f e s).1) → quiet (region f).
Proof.
  intros Hf m s _ s1 _ HI e He. split; [by apply step_guar, Hf|]. intros s2 _ _. done.
Qed.

Lemma quiet_reads {X : Set} (f : env → t → X) : quiet (reads f).
Proof. apply quiet_region. intros e s HI _. split; [done|]. split; [simpl; reflexivity|done]. Qed.

Lemma quiet_nothing (f : env → t → t) :
  (∀ e s, store (f e s) = store s ∧ past (f e s) = past s ∧ campaigning (f e s) = campaigning s
     ∧ (role (f e s) = RaftLeader → role s = RaftLeader)) → quiet (nothing f).
Proof. intros Hf. apply quiet_region. intros e s HI _. destruct (Hf e s) as (H1 & H2 & H3 & H4). by apply step_local. Qed.

(** An operation of the store that casts no vote. *)
Lemma quiet_store {X : Set} (f : option PersistStep → RaftStore → RaftStore * X) op :
  (∀ r, (f None r).1 = exec None r op) → (∀ r, op_candidate r op = None) → (∀ r, granted_vote r op = []) →
  op ≠ OpBeginElection → quiet (on_store f).
Proof.
  intros Hf Hc Hg Hb. apply quiet_region. intros e s HI [Hfault Hfit]. rewrite Hfault. specialize (Hf (store s)).
  destruct (f None (store s)) as [r x]. simpl in *. subst r.
  apply (step_handled s op); try done; [by rewrite Hc|]. split; try done. by rewrite Hg.
Qed.

(** A quiet part of a program keeps what the others do not change. *)
Lemma safe_quiet {A B : Type} m s (p : prog A) (f : A → prog B) (P : t → Prop) Q :
  m ≠ Owner → quiet p → stable (rely m) P → P s → (∀ a s', P s' → safe m s' (f a) Q) → safe m s (bind p f) Q.
Proof.
  intros Hm Hp HP Hs Hf. apply safe_seq; [done|].
  apply (safe_weaken _ _ _ (λ a s', P s' ∧ True)); [intros a s' [H _]; by apply Hf|].
  apply (safe_frame (match m with Free | Part => Part | _ => Guest end) m); [|done|apply Hp; by destruct m].
  destruct m; auto 10; done.
Qed.

(** A read: what it saw was true at some point of the wait. *)
Lemma safe_reads {A : Type} {X : Set} m s (f : env → t → X) (k : X → prog A) Q :
  (∀ s1 e, rely m s s1 → Inv s1 → safe m s1 (k (f e s1)) Q) → safe m s (bind (reads f) k) Q.
Proof. intros Hk s1 Hr HI e He. split; [by apply step_refl|]. by apply Hk. Qed.

Lemma safe_region {A : Type} {X : Set} m s (f : env → t → t * X) (k : X → prog A) Q :
  (∀ s1 e, rely m s s1 → Inv s1 → permits e s1 →
     step_ok (guar m) s1 (f e s1).1 ∧ safe m (f e s1).1 (k (f e s1).2) Q) →
  safe m s (bind (region f) k) Q.
Proof. intros Hk s1 Hr HI e He. by apply Hk. Qed.

Lemma safe_done {A : Type} m s (a : A) (P : t → Prop) (Q : A → t → Prop) :
  stable (rely m) P → P s → (∀ s', P s' → Q a s') → safe m s (Done a) Q.
Proof. intros HP Hs HQ s1 Hr _. by apply HQ, (HP s s1). Qed.

Lemma stable_and R P P' : stable R P → stable R P' → stable R (λ s, P s ∧ P' s).
Proof. intros H1 H2 s s' Hr [H3 H4]. split; [by apply (H1 s)|by apply (H2 s)]. Qed.

Lemma stable_rely m P : stable other P → stable (rely m) P.
Proof. intros HP s s' Hr. apply HP. by eapply rely_other. Qed.

Lemma heard_stable x : stable other (λ s, x ∈ heard (past s)).
Proof. intros s s' Hr. apply (grows_heard _ _ (other_grows _ _ Hr)). Qed.

Section Operations.
Context (config : RaftRuntimeConfig).

Lemma quiet_isLeader : quiet isLeader.
Proof. apply quiet_reads. Qed.

Lemma quiet_Status : quiet Status.
Proof. apply quiet_reads. Qed.

Lemma quiet_becomeFollower leader : quiet (becomeFollower leader).
Proof. by apply quiet_nothing. Qed.

Lemma quiet_expire : quiet (expireLeaderWithoutQuorum config).
Proof. apply quiet_nothing. intros e s. repeat case_match; split_and!; try done; congruence. Qed.

Lemma quiet_touch : quiet touch_quorum.
Proof. apply quiet_nothing. intros e s. repeat case_match; split_and!; try done; congruence. Qed.

Lemma quiet_observe term : quiet (observe term).
Proof. by apply (quiet_store _ (OpObserveTerm term)). Qed.

Lemma quiet_advance_next peer next : quiet (advance_next peer next).
Proof. by apply quiet_nothing. Qed.

Lemma quiet_consensusPeers : quiet (consensusPeers me).
Proof.
  unfold consensusPeers. apply quiet_seq; [apply quiet_reads|]. intros peers.
  destruct (known_peers _ _) as [known|]; [|apply quiet_done].
  apply quiet_seq; [apply quiet_reads|]. intros active. apply quiet_seq.
  - destruct (_ =? 0); [|apply quiet_done].
    apply quiet_seq; [by apply (quiet_store _ (OpConfigureVoters (me :: (map_to_list known).*1)))|].
    intros [[]|]; [|apply quiet_done]. apply quiet_seq; [apply quiet_reads|]. intros a. apply quiet_done.
  - intros [ready|]; apply quiet_done.
Qed.

Lemma quiet_peersForVoters voters : quiet (peersForVoters me voters).
Proof. apply quiet_seq; [apply quiet_reads|]. intros peers. apply quiet_done. Qed.

(** ** Replication *)

Lemma safe_step_down {A : Type} m s term (a : A) (Q : A → t → Prop) :
  m ≠ Owner → (∀ s', Q a s') → safe m s (step_down term a) Q.
Proof.
  intros Hm HQ. apply (safe_quiet _ _ _ _ (λ _, True)); [done|apply quiet_observe|done..|]. intros _ s1 _.
  apply (safe_quiet _ _ _ _ (λ _, True)); [done|apply quiet_becomeFollower|done..|]. intros _ s2 _.
  by apply (safe_done _ _ _ (λ _, True)).
Qed.

Lemma safe_false m s (Q : bool → t → Prop) : (∀ s', Q false s') → safe m s (Done false) Q.
Proof. intros HQ s1 _ _. apply HQ. Qed.

Definition caught_up (peer : RaftPeer) (term target : Z) (b : bool) (s : t) : Prop :=
  b = true → confirmed s term target (NodeID peer).

Lemma safe_offer_snapshot m s peer term target snapshot again :
  m ≠ Owner → (∀ s, safe m s again (caught_up peer term target)) →
  safe m s (offer_snapshot me peer term target snapshot again) (caught_up peer term target).
Proof.
  intros Hm Hagain. apply safe_region. intros s1 e Hr HI He. cbn [fst snd].
  split; [by apply step_guar, step_hear|]. set (s2 := hear _ _ _).
  assert ((peer, Installed (mkInstallRequest term me snapshot) (on_install e)) ∈ heard (past s2)) as Hh
    by apply list_elem_of_here. clearbody s2.
  destruct (on_install e) as [response|]; [|by apply safe_false].
  destruct (term <? _); [by apply safe_step_down|]. destruct (isr_Success response) eqn:Es; cbn [negb]; [|by apply safe_false].
  eapply safe_quiet; [done|apply quiet_advance_next|apply stable_rely, heard_stable|exact Hh|].
  intros _ s3 Hh3. destruct (target <=? isr_MatchIndex response) eqn:Et; [|done].
  eapply safe_done; [apply stable_rely, heard_stable|exact Hh3|]. intros s4 Hh4 _. exists peer. split; [done|].
  right. eexists _, response. split; [exact Hh4|]. simpl. split_and!; try done. lia.
Qed.

Lemma safe_offer_entries m s peer term target next again :
  m ≠ Owner → (∀ s, safe m s again (caught_up peer term target)) →
  safe m s (offer_entries me peer term target next again) (caught_up peer term target).
Proof.
  intros Hm Hagain. apply safe_reads. intros s0 _ Hr0 HI0.
  destruct (LogBatch _ _ _) as [[[[[currentTerm commitIndex] prevIndex] prevTerm] entries]|]; [|by apply safe_false].
  destruct (negb _); [by apply safe_false|].
  apply safe_region. intros s1 e Hr HI He. cbn [fst snd].
  split; [by apply step_guar, step_hear|]. set (s2 := hear _ _ _).
  assert ((peer, Appended (mkAppendRequest term me prevIndex prevTerm entries commitIndex) (on_append e)) ∈ heard (past s2)) as Hh
    by apply list_elem_of_here. clearbody s2.
  destruct (on_append e) as [response|]; [|by apply safe_false].
  destruct (term <? _); [by apply safe_step_down|]. destruct (aer_Success response) eqn:Es; cbn [negb].
  - eapply safe_quiet; [done|apply quiet_advance_next|apply stable_rely, heard_stable|exact Hh|].
    intros _ s3 Hh3. destruct (target <=? aer_MatchIndex response) eqn:Et; [|done].
    eapply safe_done; [apply stable_rely, heard_stable|exact Hh3|]. intros s4 Hh4 _. exists peer. split; [done|].
    left. eexists _, response. split; [exact Hh4|]. simpl. split_and!; try done. lia.
  - destruct (next =? 1); [by apply safe_false|].
    by apply (safe_quiet _ _ _ _ (λ _, True)); [|apply quiet_advance_next|..].
Qed.

Lemma safe_replicatePeer m s fuel peer term target :
  m ≠ Owner → safe m s (replicatePeer me fuel peer term target) (caught_up peer term target).
Proof.
  intros Hm. revert s. induction fuel as [|fuel IH]; intros s; [by apply safe_false|]. cbn [replicatePeer].
  apply safe_reads. intros s1 e1 _ _. apply safe_reads. intros s2 e2 _ _.
  destruct (_ || _); [by apply safe_false|]. apply safe_reads. intros s3 e3 _ _. apply safe_reads. intros s4 e4 _ _.
  destruct (Snapshot (store s4)) as [snapshot|]; [|by apply safe_offer_entries].
  destruct (_ <=? _); [by apply safe_offer_snapshot|by apply safe_offer_entries].
Qed.

Lemma quiet_replicatePeer fuel peer term target : quiet (replicatePeer me fuel peer term target).
Proof. intros m s Hm. eapply safe_weaken; [|by apply safe_replicatePeer]. done. Qed.

(** What a fan-out gives: every acknowledgement was heard. *)
Definition acks_heard (term target : Z) (acks : list string) (s : t) : Prop :=
  ∀ v, v ∈ acks → v = me ∨ confirmed s term target v.

Lemma acks_heard_stable term target acks : stable other (acks_heard term target acks).
Proof.
  intros s s' Hr Ha v Hv. destruct (Ha v Hv); [by left|right]. eapply confirmed_grows; [|done]. apply Hr.
Qed.

Lemma acknowledged_heard peers results term target s :
  Forall2 (λ b (Q : bool → t → Prop), Q b s) results ((λ peer, caught_up peer term target) <$> peers) →
  acks_heard term target (acknowledged me peers results) s.
Proof.
  intros Hl v Hv. apply elem_of_cons in Hv as [->|Hv]; [by left|right]. revert results Hl Hv.
  induction peers as [|peer peers IH]; intros [|b results] Hl Hv; try done; [by apply elem_of_nil in Hv..|].
  apply Forall2_cons in Hl as [Hb Hl]. destruct b; [|by apply (IH results)].
  apply elem_of_cons in Hv as [->|Hv]; [by apply Hb|by apply (IH results)].
Qed.

Lemma safe_replicateVoters m s fuel peers term target :
  m = Free ∨ m = Part → safe m s (replicateVoters me fuel peers term target) (acks_heard term target).
Proof.
  intros Hm s1 Hr HI. exists ((λ peer, caught_up peer term target) <$> peers). split.
  - apply all_safe_spec. unfold all_safe. apply Forall2_fmap. apply Forall_Forall2_diag, Forall_forall.
    intros peer _. by apply safe_replicatePeer.
  - intros l s2 _ _ Hl s3 Hr3 _. eapply acks_heard_stable; [by eapply rely_other|]. by apply acknowledged_heard.
Qed.

Lemma quiet_replicate_each fuel peers term target : quiet (replicate_each me fuel peers term target).
Proof.
  induction peers as [|peer peers IH]; [apply quiet_done|].
  apply quiet_seq; [apply quiet_replicatePeer|]. intros b. apply quiet_seq; [apply IH|]. intros bs. apply quiet_done.
Qed.

Lemma quiet_broadcastHeartbeat fuel : quiet (broadcastHeartbeat me config fuel).
Proof.
  apply quiet_seq; [apply quiet_reads|]. intros [term lastIndex].
  apply quiet_seq; [apply quiet_consensusPeers|]. intros [peers|]; [|apply quiet_expire].
  apply quiet_seq; [apply quiet_replicate_each|]. intros results. apply quiet_seq; [apply quiet_reads|].
  intros [|]; [apply quiet_touch|apply quiet_expire].
Qed.

(** ** Elections *)

Lemma handled_plain s op r :
  r = exec None (store s) op → granted_vote (store s) op = [] → handled s op (set_store s r).
Proof. intros -> Hg. split; try done. by rewrite Hg. Qed.

Lemma handled_grant s op r vote :
  r = exec None (store s) op → granted_vote (store s) op = [vote] → handled s op (grant (set_store s r) vote).
Proof. intros -> Hg. split; try done. by rewrite Hg. Qed.

Definition votes_heard (term : Z) (votes : list string) (s : t) : Prop :=
  ∀ v, v ∈ votes → v = me ∨ answered s term v.

Lemma votes_heard_stable term votes : stable other (votes_heard term votes).
Proof.
  intros s s' Hr Ha v Hv. destruct (Ha v Hv); [by left|right]. eapply answered_grows; [|done]. apply Hr.
Qed.

Lemma safe_collect_votes m s request peers votes :
  m ≠ Owner → rv_CandidateID request = me → votes_heard (rv_Term request) votes s →
  safe m s (collect_votes request peers votes)
    (λ r s', match r with Some votes => votes_heard (rv_Term request) votes s' | None => True end).
Proof.
  intros Hm Hc. revert s votes. induction peers as [|peer peers IH]; intros s votes Hv; cbn [collect_votes].
  { eapply safe_done; [apply stable_rely, votes_heard_stable|exact Hv|done]. }
  apply safe_region. intros s1 e Hr HI He. cbn [fst snd]. pose proof (step_hear s1 peer (Voted request (on_vote e)) HI) as Hok.
  split; [by apply step_guar|].
  assert (votes_heard (rv_Term request) votes (hear s1 peer (Voted request (on_vote e)))) as Hv2.
  { eapply votes_heard_stable; [apply common_other, Hok|]. eapply votes_heard_stable; [by eapply rely_other|done]. }
  destruct (on_vote e) as [response|]; [|by apply IH].
  destruct (rv_Term request <? _); [by apply safe_step_down|]. apply IH.
  destruct (rvr_VoteGranted response) eqn:Eg; [|done].
  intros v [Hin| ->%list_elem_of_singleton]%elem_of_app; [by apply Hv2|right].
  exists peer, request, response. split; [apply list_elem_of_here|done].
Qed.

(** What a campaign knows before it takes office. *)
Definition chosen (term : Z) (votes : list string) (s : t) : Prop :=
  standing term s ∧ votes_heard term votes s ∧ some_quorum s votes.

Lemma some_quorum_stable votes : stable other (λ s, some_quorum s votes).
Proof. intros s s' Hr. apply some_quorum_grows, Hr. Qed.

Lemma common_stable P : stable other P → stable common P.
Proof. intros HP s s' Hr. by apply HP, common_other. Qed.

Lemma chosen_stable term votes : stable common (chosen term votes).
Proof.
  apply (stable_and _ (standing term)); [apply standing_stable|].
  apply (stable_and _ (votes_heard term votes)); apply common_stable; [apply votes_heard_stable|apply some_quorum_stable].
Qed.

Lemma safe_take_office s term votes lastIndex peers :
  chosen term votes s → safe Holder s (take_office me term votes lastIndex peers) (λ _ _, True).
Proof.
  intros Hc s1 Hr HI e He. destruct (chosen_stable term votes s s1 Hr Hc) as (H1 & H2 & H3).
  unfold take_office. split; [|by intros s2 _ _].
  destruct (role s1); cbn [fst]; try (by apply step_refl).
  apply (step_win s1 _ term votes); try done. split; [apply H1|done].
Qed.

Lemma safe_count_votes s fuel request peers votes :
  standing (rv_Term request) s → votes_heard (rv_Term request) votes s →
  safe Holder s (count_votes me config fuel request peers votes) (λ _ _, True).
Proof.
  intros H1 H2. apply safe_reads. intros s1 e1 Hr1 HI1.
  assert (HasVoterQuorum (store s1) votes = true → chosen (rv_Term request) votes s1) as Hc.
  { intros Hq. split; [by apply (standing_stable _ s)|].
    split; [by apply (votes_heard_stable _ _ s s1); [apply common_other|]|]. exists (VoterConfiguration (store s1)).
    split; [by apply inv_configuration|by apply has_quorum]. }
  destruct (HasVoterQuorum (store s1) votes) eqn:Eq; cbn [negb]; [|by apply quiet_done].
  specialize (Hc eq_refl). apply safe_reads. intros s2 e2 Hr2 HI2. apply (chosen_stable _ _ _ _ Hr2) in Hc.
  destruct (_ =? rv_Term request) eqn:Et; cbn [negb]; [|by apply quiet_done]. apply Z.eqb_eq in Et. rewrite Et.
  apply safe_seq; [done|]. eapply safe_weaken; [|by apply safe_take_office].
  intros [|] s3 _; [by apply quiet_broadcastHeartbeat|by apply quiet_done].
Qed.

Lemma safe_begin_election s :
  out_of_office s →
  safe Holder s begin_election
    (λ r s', match r with Ok request => standing (rv_Term request) s' ∧ rv_CandidateID request = me | Err _ => True end).
Proof.
  intros Ho s1 Hr HI e [Hfault Hfit]. rewrite Hfault. apply (out_of_office_stable s s1 Hr) in Ho.
  pose proof (λ s', step_begin s1 s' HI Hfit Ho) as Hstep.
  destruct (BeginElection None (store s1)) as [r x] eqn:Eb. cbn [snd] in Hstep.
  assert (r = exec None (store s1) OpBeginElection) as Er by (simpl; by rewrite Eb).
  assert (granted_vote (store s1) OpBeginElection
    = match x with Ok request => [(rv_Term request, rv_CandidateID request)] | Err _ => [] end) as Eg
    by (simpl; by rewrite Eb).
  destruct x as [request|err]; cbn [fst snd].
  - destruct (Hstep _ (handled_grant _ _ _ _ Er Eg)) as [Hok Hst]. split; [done|].
    destruct (Hst request eq_refl). eapply safe_done; [apply (standing_stable (rv_Term request))|done|done].
  - destruct (Hstep _ (handled_plain _ _ _ Er Eg)) as [Hok _]. split; [done|]. by intros s2 _ _.
Qed.

Lemma safe_election s fuel : safe Holder s (election me config fuel) (λ _ _, True).
Proof.
  apply safe_reads. intros s1 e1 Hr1 HI1. destruct (match role s1 with RaftLeader => _ | _ => _ end);
    [by apply quiet_done|].
  apply safe_region. intros s2 e2 Hr2 HI2 He2. cbn [fst snd]. split; [apply step_guar; by apply step_local|].
  apply safe_seq; [done|]. eapply safe_weaken; [|by apply safe_begin_election].
  intros [request|] s3 Hs3; [destruct Hs3 as [Hst Hc]|by apply quiet_becomeFollower].
  eapply (safe_quiet _ _ _ _ (standing (rv_Term request))); [done|apply quiet_consensusPeers|apply standing_stable|done|].
  intros [peers|] s4 Hst4; [|by apply quiet_becomeFollower]. apply safe_seq; [done|].
  eapply safe_weaken; [|apply (safe_frame Guest Holder _ _ (standing (rv_Term request))); [|exact Hst4|]].
  2: { right. split_and!; [done|by right|apply standing_stable]. }
  2: { apply safe_collect_votes; [done|done|]. intros v ->%list_elem_of_singleton. by left. }
  intros [votes|] s5 [H1 H2]; [by apply safe_count_votes|by apply quiet_done].
Qed.

Lemma safe_campaign s fuel : safe Free s (campaign me config fuel) (λ _ _, True).
Proof.
  intros s1 Hr HI. split; [done|]. eapply safe_weaken; [|apply safe_election]. intros _ s2 _. by apply quiet_done.
Qed.

(** ** Requests of peers *)

Lemma quiet_cast_vote request : rv_CandidateID request ≠ me → quiet (cast_vote request).
Proof.
  intros Hc. apply quiet_region. intros e s HI [Hfault Hfit]. rewrite Hfault.
  pose proof (step_handled s (OpRequestVote request)) as Hstep.
  destruct (RequestVote None (store s) request) as [r x] eqn:Ev.
  assert (r = exec None (store s) (OpRequestVote request)) as Er by (simpl; by rewrite Ev).
  assert (granted_vote (store s) (OpRequestVote request) = match x with
    | Ok response => if rvr_VoteGranted response then [(rvr_Term response, rv_CandidateID request)] else []
    | Err _ => []
    end) as Eg by (simpl; by rewrite Ev).
  assert (op_candidate (store s) (OpRequestVote request) ≠ Some me) as Hcand by (simpl; congruence).
  destruct x as [response|]; [destruct (rvr_VoteGranted response)|]; cbn [fst]; apply Hstep;
    try done; [by apply handled_grant|by apply handled_plain..].
Qed.

Lemma quiet_HandleVote request : rv_CandidateID request ≠ me → quiet (HandleVote me request).
Proof.
  intros Hc. apply quiet_seq; [apply quiet_consensusPeers|]. intros [_|].
  - apply quiet_seq; [apply quiet_reads|]. intros previous. apply quiet_seq; [by apply quiet_cast_vote|].
    intros [response|]; [|apply quiet_done]. apply quiet_seq; [|intros; apply quiet_done].
    destruct (_ <? _); [apply quiet_becomeFollower|apply quiet_done].
  - apply quiet_seq; [apply quiet_reads|]. intros; apply quiet_done.
Qed.

Lemma quiet_HandleAppend request : quiet (HandleAppend me request).
Proof.
  apply quiet_seq; [apply quiet_reads|]. intros voters. apply quiet_seq.
  { destruct (_ =? 0); [apply quiet_done|]. apply quiet_seq; [apply quiet_consensusPeers|]. intros; apply quiet_done. }
  intros [|]; cbn [negb].
  - apply quiet_seq; [by apply (quiet_store _ (OpAppendEntries request))|].
    intros [response|]; [|apply quiet_done]. apply quiet_seq; [|intros; apply quiet_done].
    destruct (_ =? _); [apply quiet_becomeFollower|apply quiet_done].
  - apply quiet_seq; [apply quiet_reads|]. intros; apply quiet_done.
Qed.

Lemma quiet_HandleInstall request : quiet (HandleInstall me request).
Proof.
  apply quiet_seq; [apply quiet_consensusPeers|]. intros [_|].
  - apply quiet_seq; [by apply (quiet_store _ (OpInstallSnapshot request))|].
    intros [response|]; [|apply quiet_done]. apply quiet_seq; [|intros; apply quiet_done].
    destruct (_ =? _); [apply quiet_becomeFollower|apply quiet_done].
  - apply quiet_seq; [apply quiet_reads|]. intros; apply quiet_done.
Qed.

Lemma quiet_transfer_to fuel term lastIndex peers : quiet (transfer_to me fuel term lastIndex peers).
Proof.
  induction peers as [|peer peers IH]; cbn [transfer_to]; [apply quiet_done|].
  apply quiet_seq; [apply quiet_replicatePeer|]. intros [|]; cbn [negb]; [|done].
  apply quiet_seq; [apply quiet_region; intros e s HI _; by apply step_hear|].
  intros [response|]; [|done]. apply quiet_seq.
  { destruct (_ <? _); [|apply quiet_done]. apply quiet_seq; [apply quiet_observe|]. intros; apply quiet_done. }
  intros _. destruct (tnr_Accepted response).
  - apply quiet_seq; [apply quiet_becomeFollower|]. intros; apply quiet_done.
  - apply quiet_seq; [apply quiet_Status|]. intros [[[| |] _] _]; [apply quiet_done..|done].
Qed.

Lemma quiet_TransferLeadership fuel : quiet (TransferLeadership me fuel).
Proof.
  apply quiet_seq; [apply quiet_Status|]. intros [[[| |] _] term]; [apply quiet_done..|].
  apply quiet_seq; [apply quiet_consensusPeers|]. intros [[|peer peers]|]; [apply quiet_done| |apply quiet_done].
  apply quiet_seq; [apply quiet_reads|]. intros lastIndex. apply quiet_transfer_to.
Qed.

Lemma quiet_heartbeat_tick fuel : quiet (heartbeat_tick me config fuel).
Proof.
  apply quiet_seq; [apply quiet_isLeader|]. intros [|]; [apply quiet_broadcastHeartbeat|apply quiet_done].
Qed.

(** ** Proposals *)

(** A part outside the mutex, with a fact nobody changes. *)
Lemma safe_part {A B : Type} m s (p : prog A) (f : A → prog B) (P : t → Prop) R Q :
  m = Free ∨ m = Part → stable other P → P s → safe Part s p R →
  (∀ a s', P s' → R a s' → safe m s' (f a) Q) → safe m s (bind p f) Q.
Proof.
  intros Hm HP Hs Hp Hf. apply safe_seq; [by destruct Hm as [-> | ->]|].
  eapply safe_weaken; [|apply (safe_frame Part m _ _ P R); [|exact Hs|exact Hp]].
  - intros a s' [H1 H2]. by apply Hf.
  - left. split_and!; [done|tauto|done].
Qed.

Lemma won_term_stable term : stable other (λ s, won_term s term).
Proof. intros s s' Hr. apply won_term_grows, Hr. Qed.

Lemma safe_append_own m s term command :
  office term s →
  safe m s (append_own term command) (λ r s', match r with Ok _ => won_term s' term | Err _ => True end).
Proof.
  intros Ho s1 Hr HI e [Hfault Hfit]. rewrite Hfault. apply (office_stable term s s1) in Ho; [|by eapply rely_other].
  pose proof (append_own_vote None (store s1) term command) as Hvote.
  destruct (AppendCommand None (store s1) term command) as [r x] eqn:Ea.
  assert (r = exec None (store s1) (OpAppendCommand term command)) as Er by (simpl; by rewrite Ea).
  assert (step_ok common s1 (set_store s1 r)) as Hok.
  { apply (step_handled s1 (OpAppendCommand term command)); done. }
  destruct x as [index|err]; cbn [fst snd]; [|split; [by apply step_guar|by intros s2 _ _]].
  destruct (Hvote r index eq_refl) as [Et Em]. rewrite (store_node s1 HI) in Em.
  assert (won_term (set_store s1 r) term) as Hw.
  { apply (won_term_grows s1); [apply Hok|]. destruct Ho as [Ho|[_ Ho]]; [lia|auto]. }
  split; [by apply step_guar, step_create|].
  eapply safe_done; [apply stable_rely, (won_term_stable term)|exact Hw|done].
Qed.

Lemma safe_commit_acks m s index term acks :
  won_term s term → acks_heard term index acks s → safe m s (commit_acks index term acks) (λ _ _, True).
Proof.
  intros Hw Ha s1 Hr HI e [Hfault Hfit]. rewrite Hfault. apply rely_other in Hr.
  apply (won_term_stable term _ _ Hr) in Hw. apply (acks_heard_stable _ _ _ _ _ Hr) in Ha.
  pose proof (commit_quorum None (store s1) index term acks) as Hq.
  destruct (CommitWithVoterAcks None (store s1) index term acks) as [r x] eqn:Ec.
  assert (r = exec None (store s1) (OpCommitWithVoterAcks index term acks)) as Er by (simpl; by rewrite Ec).
  assert (step_ok common s1 (set_store s1 r)) as Hok.
  { apply (step_handled s1 (OpCommitWithVoterAcks index term acks)); done. }
  split; [|by intros s2 _ _]. apply step_guar. destruct x as [[]|err]; cbn [fst]; [|done].
  apply step_commit; [done|]. apply (committed_grows s1); [apply Hok|]. split; [done|]. split; [|done].
  exists (VoterConfiguration (store s1)). split; [by apply inv_configuration|by apply (Hq r)].
Qed.

Lemma leading s1 : Inv s1 → role s1 = RaftLeader → office (term_of s1) s1.
Proof. intros HI Hr. right. split; [done|]. intros Hv. by apply inv_leader. Qed.

Lemma safe_Propose s fuel command : safe Free s (Propose me config fuel command) (λ _ _, True).
Proof.
  apply safe_reads. intros s1 _ _ HI1. destruct (role s1) eqn:Er; [by apply quiet_done..|].
  pose proof (leading s1 HI1 Er) as Ho. set (term := term_of s1) in *. clearbody term.
  apply safe_reads. intros s2 _ Hr2 HI2. destruct (negb _); [by apply quiet_done|].
  apply safe_seq; [done|]. eapply safe_weaken; [|apply safe_append_own, (office_stable term s1); done].
  intros [index|] s3 Hw3; [|by apply quiet_done].
  apply (safe_quiet _ _ _ _ (λ s, won_term s term)); [done|apply quiet_consensusPeers|apply won_term_stable|done|].
  intros [peers|] s4 Hw4; [|by apply quiet_done].
  eapply (safe_part _ _ _ _ (λ s, won_term s term)); [by left|apply won_term_stable|done|apply safe_replicateVoters; by right|].
  intros acks s5 Hw5 Ha5. apply safe_seq; [done|]. eapply safe_weaken; [|by apply safe_commit_acks].
  intros [[]|] s6 _; [|by apply quiet_done].
  assert (∀ {B : Type} (p : prog B), quiet p → safe Free s6 p (λ _ _, True)) as Hquiet by (intros B p Hp; by apply Hp).
  apply Hquiet. apply quiet_seq; [apply quiet_touch|]. intros _. apply quiet_seq; [apply quiet_reads|].
  intros snapshotIndex. apply quiet_seq.
  { destruct (_ <=? _); [by apply (quiet_store _ OpCompactCommitted)|apply quiet_done]. }
  intros [[]|]; [|apply quiet_done]. apply quiet_seq; [apply quiet_broadcastHeartbeat|]. intros; apply quiet_done.
Qed.

Lemma safe_AdvanceView s fuel view : safe Free s (AdvanceView me config fuel view) (λ _ _, True).
Proof.
  unfold AdvanceView. destruct (negb _); [by apply quiet_done|]. apply safe_reads. intros s1 _ _ _. apply safe_Propose.
Qed.

Lemma safe_begin_joint s fuel term epoch oldVoters newVoters peers :
  office term s → safe Part s (begin_joint me fuel term epoch oldVoters newVoters peers) (λ _ _, True).
Proof.
  intros Ho. apply safe_seq; [done|]. eapply safe_weaken; [|by apply safe_append_own].
  intros [index|] s1 Hw1; [|by apply quiet_done].
  eapply (safe_part _ _ _ _ (λ s, won_term s term)); [by right|apply won_term_stable|done|apply safe_replicateVoters; by right|].
  intros acks s2 Hw2 Ha2. destruct (negb _); [by apply quiet_done|].
  apply safe_seq; [done|]. eapply safe_weaken; [|by apply safe_commit_acks].
  intros [[]|] s3 _; [|by apply quiet_done]. apply safe_seq; [done|].
  eapply safe_weaken; [|apply safe_replicateVoters; by right]. intros _ s4 _. by apply quiet_done.
Qed.

Lemma safe_finish_joint s fuel term epoch oldVoters newVoters view peers :
  office term s → safe Free s (finish_joint me fuel term epoch oldVoters newVoters view peers) (λ _ _, True).
Proof.
  intros Ho. apply safe_seq; [done|]. eapply safe_weaken; [|by apply safe_append_own].
  intros [index|] s1 Hw1; [|by apply quiet_done].
  eapply (safe_part _ _ _ _ (λ s, won_term s term)); [by left|apply won_term_stable|done|apply safe_replicateVoters; by right|].
  intros acks s2 Hw2 Ha2. apply safe_seq; [done|]. eapply safe_weaken; [|by apply safe_commit_acks].
  intros [[]|] s3 _; [|by apply quiet_done]. apply safe_seq; [done|].
  eapply safe_weaken; [|apply safe_replicateVoters; by left]. intros _ s4 _.
  apply safe_seq; [done|]. eapply safe_weaken; [intros [] s5 _; by apply quiet_done|].
  destruct (negb _); [by apply quiet_becomeFollower|by apply quiet_done].
Qed.

Lemma safe_ChangeVoters s fuel voters view : safe Free s (ChangeVoters me fuel voters view) (λ _ _, True).
Proof.
  apply safe_reads. intros s1 _ _ HI1. destruct (role s1) eqn:Er; [by apply quiet_done..|].
  pose proof (leading s1 HI1 Er) as Ho. set (term := term_of s1) in *. clearbody term.
  destruct (negb _); [by apply quiet_done|]. apply safe_reads. intros s2 _ Hr2 HI2.
  apply (office_stable term _ _ Hr2) in Ho. destruct (VoterConfiguration (store s2)) as [[oldVoters jointOld] jointNew].
  destruct (_ || _); [by apply quiet_done|]. destruct (_ || _); [by apply quiet_done|].
  apply (safe_quiet _ _ _ _ (office term)); [done|apply quiet_peersForVoters|apply office_stable|done|].
  intros [peers|] s3 Ho3; [|by apply quiet_done]. apply safe_reads. intros s4 _ Hr4 _.
  apply (office_stable term _ _ Hr4) in Ho3.
  eapply (safe_part _ _ _ _ (office term)); [by left|apply office_stable|done|by apply safe_begin_joint|].
  intros [[]|] s5 Ho5 _; [by apply safe_finish_joint|by apply quiet_done].
Qed.

Lemma quiet_timeout_checks request : quiet (timeout_checks request).
Proof. apply (quiet_seq _ _ quiet_Status). intros [[? ?] ?]. apply quiet_done. Qed.

Lemma safe_TimeoutNow s fuel request : safe Free s (TimeoutNow me config fuel request) (λ _ _, True).
Proof.
  apply safe_seq; [done|]. eapply safe_weaken; [|by apply quiet_timeout_checks].
  intros [fenced term] s1 _. destruct (negb _); [by apply quiet_done|].
  apply safe_seq; [done|]. eapply safe_weaken; [|apply safe_campaign]. intros _ s2 _.
  apply (quiet_seq _ _ quiet_Status); [|done]. intros [[? ?] ?]. apply quiet_done.
Qed.

(** Every program of a node is safe. *)
Lemma program_ok s fuel c :
  Inv s → foreign me c = true → mode_of (program me config fuel c) = Free ∧ thread_ok s (program me config fuel c).
Proof.
  intros HI Hc. assert (safe Free s (program me config fuel c) (λ _ _, True)) as Hs.
  { assert (∀ {B : Type} (q : prog B), safe Free s q (λ _ _, True) → safe Free s (bind q (λ _, Done tt)) (λ _ _, True)) as Hb.
    { intros B q Hq. apply safe_seq; [done|]. eapply safe_weaken; [|exact Hq]. intros; by apply quiet_done. }
    destruct c; cbn [program]; try apply Hb.
    - apply safe_campaign.
    - by apply quiet_heartbeat_tick.
    - apply quiet_HandleVote; [|done]. simpl in Hc. by apply negb_true_iff, String.eqb_neq in Hc.
    - by apply quiet_HandleAppend.
    - by apply quiet_HandleInstall.
    - apply safe_TimeoutNow.
    - apply safe_Propose.
    - apply safe_AdvanceView.
    - apply safe_ChangeVoters.
    - by apply quiet_TransferLeadership. }
  split; [by eapply safe_free|]. unfold thread_ok. by rewrite (safe_free s _ _ HI Hs).
Qed.

End Operations.

(** ** New nodes, crashes and new threads *)

Lemma new_node_ok boot n : new_node boot me n → node_ok n.
Proof.
  intros (r & config & s & config' & Ho & Hn & ->). apply VoteInv_open in Ho.
  assert (store s = r ∧ past s = mkHistory [] [] [] [] [] [VoterConfiguration r] ∧ role s = RaftFollower) as (E1 & E2 & E3).
  { unfold NewRaftRuntime in Hn. destruct (negb _); [done|]. destruct (_ || _); [done|]. by injection Hn as <- <-. }
  split; simpl; try done. split; rewrite ?E1, ?E2, ?E3; simpl; try done; try (intros; by match goal with Hin : _ ∈ [] |- _ => apply elem_of_nil in Hin end).
  apply list_elem_of_here.
Qed.

Lemma restart_ok boot n r :
  node_ok n → OpenRaftStore None (disk (store (shared n))) me boot = Ok r →
  node_ok (restart n r) ∧ grows (shared n) (shared (restart n r)).
Proof.
  intros [HI _ _ _] Ho. assert (grows (shared n) (shared (restart n r))) as Hg by (split; simpl; set_solver).
  split; [|done]. split; simpl; try done. apply (Inv_grows (shared n)); simpl; try done; [|apply list_elem_of_here].
  eapply VoteInv_restart; [apply HI|exact Ho].
Qed.

Lemma launch_ok config fuel n c :
  node_ok n → foreign me c = true → node_ok (mkNode (shared n) (threads n ++ [program me config fuel c])).
Proof.
  intros [HI Ht Hl Hx] Hp. destruct (program_ok config (shared n) fuel c HI Hp) as [Hm Hok].
  set (p := program me config fuel c) in *. clearbody p.
  assert (∀ i q, (threads n ++ [p]) !! i = Some q → mode_of q = Owner → threads n !! i = Some q) as Hold.
  { intros i q Hi Hq. apply lookup_app_Some in Hi as [Hi|[_ Hi]]; [done|].
    apply list_lookup_singleton_Some in Hi as [_ <-]. congruence. }
  split; simpl; [done|..].
  - intros i q [Hi|[_ Hi]]%lookup_app_Some; [by eapply Ht|].
    by apply list_lookup_singleton_Some in Hi as [_ <-].
  - intros i q Hi Hq. by apply (Hl i q); [apply Hold|].
  - intros i j q q' Hi Hj Hq Hq'. apply (Hx i j q q'); auto.
Qed.

End Node.
