(* ===== verification/RuntimeTheorems.v ===== *)
(** * The metadata Raft runtime: what clusters do

    In any run of a cluster - nodes crash and restart, messages are lost, late
    or repeated, threads interleave freely, no write fails - at most one node
    writes entries in a term, and a leader commits what a quorum confirmed to
    it.  The runs at the end show both, and a node that acts as the leader of
    a term it voted in for another. *)
From Stdlib Require Import ZArith Lia Ascii String.
From stdpp Require Import base tactics list gmap strings.
From S2P Require Import Prelude ClusterBase RaftStore RaftInvariant RaftSafety RaftRuntime RuntimeProofs.
Import Runtime.
Local Open Scope string_scope.
Local Open Scope Z_scope.
Local Open Scope list_scope.

(** ** Clusters *)

Record cluster_ok (c : gmap string node) : Prop := {
  cluster_nodes id n : c !! id = Some n → node_ok id n;
  cluster_heard id n : c !! id = Some n → truthful c (shared n);
}.

Lemma truthful_grows c id n n' s :
  c !! id = Some n → granted (past (shared n)) ⊆ granted (past (shared n')) → truthful c s → truthful (<[id := n']> c) s.
Proof.
  intros Hn Hg Ht peer request response Hin Hgr. destruct (Ht peer request response Hin Hgr) as (np & Hp & Hv).
  destruct (decide (id = NodeID peer)) as [->|Hne].
  - exists n'. rewrite lookup_insert_eq. split; [done|]. apply Hg. congruence.
  - exists np. by rewrite lookup_insert_ne.
Qed.

(** One node moved. *)
Lemma cluster_ok_insert c id n n' :
  cluster_ok c → c !! id = Some n → node_ok id n' → granted (past (shared n)) ⊆ granted (past (shared n')) →
  truthful c (shared n') → cluster_ok (<[id := n']> c).
Proof.
  intros [Hn Hh] Hid Hok Hg Ht. split.
  - intros j m [[<- <-]|[_ Hj]]%lookup_insert_Some; [done|by apply Hn].
  - intros j m [[<- <-]|[_ Hj]]%lookup_insert_Some; apply (truthful_grows c id n); eauto.
Qed.

Lemma cluster_step_ok boot c c' : cluster_ok c → cluster_step boot c c' → cluster_ok c'.
Proof.
  intros Hc Hs. pose proof (cluster_nodes c Hc) as Hn. pose proof (cluster_heard c Hc) as Hh.
  destruct Hs as [c id n config fuel call Hid Hp|c id n i path e n' Hid He Hr Ht|c id n r Hid Ho].
  - apply (cluster_ok_insert c id n); auto; [apply launch_ok; auto|apply (Hh id n Hid)].
  - destruct (node_step id i path e n n' (Hn id n Hid) He Hr) as [Hok Ho].
    apply (cluster_ok_insert c id n); auto. apply (other_grows _ _ _ Ho).
  - destruct (restart_ok id boot n r (Hn id n Hid) Ho) as [Hok Hg].
    apply (cluster_ok_insert c id n); auto. apply (Hh id n Hid).
Qed.

Lemma cluster_run_ok boot c : cluster_run boot c → cluster_ok c.
Proof.
  induction 1 as [c Hnew|c c' _ IH Hs]; [|by eapply cluster_step_ok]. split.
  - intros id n Hid. apply (new_node_ok id boot), Hnew, Hid.
  - intros id n Hid peer request response Hin.
    destruct (Hnew id n Hid) as (r & config & s & config' & Ho & Hr & ->). simpl in Hin.
    unfold NewRaftRuntime in Hr. destruct (negb _); [done|]. destruct (_ || _); [done|].
    injection Hr as <- <-. by apply elem_of_nil in Hin.
Qed.

(** ** Theorems *)

(** The vote of [v] for the node [id] in [term]. *)
Definition voted_for (c : gmap string node) (id : string) (term : Z) (v : string) : Prop :=
  ∃ n, c !! v = Some n ∧ (term, id) ∈ granted (past (shared n)).

Lemma elected_votes c id n term votes :
  cluster_ok c → c !! id = Some n → elected id (shared n) term votes → ∀ v, v ∈ votes → voted_for c id term v.
Proof.
  intros Hc Hid (Hself & _ & Hv) v Hin. destruct (Hv v Hin) as [->|Ha]; [by exists n|].
  destruct Ha as (peer & request & response & Hh & <- & Et & Ec & Hg). unfold voted_for. rewrite <-Et, <-Ec.
  exact (cluster_heard c Hc id n Hid peer request response Hh Hg).
Qed.

Lemma one_candidate c id1 id2 term v :
  cluster_ok c → voted_for c id1 term v → voted_for c id2 term v → id1 = id2.
Proof.
  intros Hc (n1 & Hn1 & Hv1) (n2 & Hn2 & Hv2). assert (n1 = n2) as -> by congruence.
  apply (vi_unique _ _ _ (inv_votes v _ (ok_shared v n2 (cluster_nodes c Hc v n2 Hn1))) term); done.
Qed.

(** A set of voters both configurations take a majority of; a node without
    voters elects nobody. *)
Definition share_voters (a b : configuration) : Prop :=
  [] ∈ voter_sets a ∨ [] ∈ voter_sets b ∨ ∃ V, V ∈ voter_sets a ∧ V ∈ voter_sets b.

Lemma shared_voter a b acks acks' :
  share_voters a b → quorum a acks → quorum b acks' → ∃ v, v ∈ acks ∧ v ∈ acks'.
Proof.
  intros [Ha|[Hb|(V & Ha & Hb)]] Hqa Hqb; [by specialize (Hqa [] Ha)|by specialize (Hqb [] Hb)|].
  destruct (majority_overlap V (stringSet acks) (stringSet acks')) as (v & _ & H1 & H2); [by apply Hqa|by apply Hqb|].
  exists v. unfold stringSet in *. by rewrite !elem_of_list_to_set in H1, H2.
Qed.

(** C8. One writer per term: in any run of a cluster in which every write of a
    state file succeeds, two nodes that append entries of their own to their
    logs in the same term are the same node, as long as the configurations
    they have had share a set of voters.  The run interleaves the goroutines
    in any way, crashes and restarts nodes at any point and loses, repeats
    and makes up messages, with three limits: terms stay below [2^64], an
    incoming request bears the name of another node, and a granted vote was
    granted by the peer it comes from.  [vote_lost_after_failed_write] shows
    why a failed write is left out: it can take back a vote. *)
Theorem one_writer_per_term boot c id1 id2 n1 n2 term :
  cluster_run boot c → c !! id1 = Some n1 → c !! id2 = Some n2 →
  (∀ a b, a ∈ configurations (past (shared n1)) → b ∈ configurations (past (shared n2)) → share_voters a b) →
  term ∈ created (past (shared n1)) → term ∈ created (past (shared n2)) → id1 = id2.
Proof.
  intros Hc%cluster_run_ok H1 H2 Hshare Hc1 Hc2.
  destruct (ok_shared id1 n1 (cluster_nodes c Hc id1 n1 H1)) as [_ _ Hw1 Hcr1 _ _].
  destruct (ok_shared id2 n2 (cluster_nodes c Hc id2 n2 H2)) as [_ _ Hw2 Hcr2 _ _].
  destruct (Hcr1 term Hc1) as [votes1 Hv1%Hw1], (Hcr2 term Hc2) as [votes2 Hv2%Hw2].
  pose proof Hv1 as (_ & (a & Ha & Hqa) & _). pose proof Hv2 as (_ & (b & Hb & Hqb) & _).
  destruct (shared_voter a b votes1 votes2) as (v & Hin1 & Hin2); auto.
  apply (one_candidate c id1 id2 term v Hc); by eapply elected_votes.
Qed.

(** C9. A leader commits what a quorum confirmed: whatever a node committed
    by itself, it did in a term it was elected in, and every acknowledgement
    it counted is its own or an answer to a request it sent as the leader of
    that term, which confirmed the log up to that entry. *)
Theorem commits_confirmed boot c id n index term acks :
  cluster_run boot c → c !! id = Some n → (index, term, acks) ∈ commits (past (shared n)) →
  (∃ votes, some_quorum (shared n) votes ∧ ∀ v, v ∈ votes → voted_for c id term v)
  ∧ some_quorum (shared n) acks ∧ ∀ v, v ∈ acks → v = id ∨ confirmed id (shared n) term index v.
Proof.
  intros Hc%cluster_run_ok Hid Hin. destruct (ok_shared id n (cluster_nodes c Hc id n Hid)) as [_ _ Hw _ Hco _].
  destruct (Hco index term acks Hin) as ([votes Hv%Hw] & Hq & Ha). split; [|done].
  exists votes. split; [apply Hv|]. by eapply elected_votes.
Qed.

(** ** Runs *)

(** A call, or steps of one thread. *)
Inductive event : Set :=
  | Launch (c : call)
  | Steps (i : nat) (path : list nat) (e : env) (count : nat).

Definition truthfulb (c : gmap string node) (s : t) : bool :=
  forallb (λ x : RaftPeer * exchange,
    match x.2 with
    | Voted request (Some response) =>
        negb (rvr_VoteGranted response)
        || match c !! NodeID x.1 with
           | Some n => bool_decide ((rv_Term request, rv_CandidateID request) ∈ granted (past (shared n)))
           | None => false
           end
    | _ => true
    end) (heard (past s)).

Lemma truthfulb_ok c s : truthfulb c s = true → truthful c s.
Proof.
  unfold truthfulb. intros Hb peer request response Hin Hg. rewrite List.forallb_forall in Hb.
  specialize (Hb _ (proj1 (list_elem_of_In _ _) Hin)). simpl in Hb. rewrite Hg in Hb. simpl in Hb.
  destruct (c !! NodeID peer) as [n|]; [|done]. exists n. split; [done|]. by apply bool_decide_eq_true in Hb.
Qed.

Fixpoint steps (c : gmap string node) (id : string) (i : nat) (path : list nat) (e : env) (count : nat)
    : option (gmap string node) :=
  match count with
  | O => Some c
  | S count =>
      match c !! id with
      | Some n =>
          if match fault e with None => CurrentTerm (state (store (shared n))) + 1 <? two64 | Some _ => false end then
            match run_thread i path e n with
            | Some n' => if truthfulb c (shared n') then steps (<[id := n']> c) id i path e count else None
            | None => None
            end
          else None
      | None => None
      end
  end.

Definition play_event (config : RaftRuntimeConfig) (fuel : nat) (c : gmap string node) (x : string * event)
    : option (gmap string node) :=
  match x.2 with
  | Launch call =>
      match c !! x.1 with
      | Some n =>
          if foreign x.1 call then Some (<[x.1 := mkNode (shared n) (threads n ++ [program x.1 config fuel call])]> c) else None
      | None => None
      end
  | Steps i path e count => steps c x.1 i path e count
  end.

Fixpoint play (config : RaftRuntimeConfig) (fuel : nat) (c : gmap string node) (l : list (string * event))
    : option (gmap string node) :=
  match l with
  | [] => Some c
  | x :: l => match play_event config fuel c x with Some c' => play config fuel c' l | None => None end
  end.

Lemma steps_run boot c id i path e count c' :
  cluster_run boot c → steps c id i path e count = Some c' → cluster_run boot c'.
Proof.
  revert c. induction count as [|count IH]; intros c Hc Hs; cbn [steps] in Hs; [by injection Hs as <-|].
  destruct (c !! id) as [n|] eqn:En; [|discriminate].
  destruct (fault e) eqn:Ef; [discriminate|]. destruct (_ <? two64) eqn:Et; [|discriminate].
  destruct (run_thread i path e n) as [n'|] eqn:Er; [|discriminate].
  destruct (truthfulb c (shared n')) eqn:Eh; [|discriminate].
  apply (IH _) in Hs; [done|]. eapply run_step; [exact Hc|].
  eapply runs; [exact En| |exact Er|by apply truthfulb_ok]. split; [done|]. by apply Z.ltb_lt.
Qed.

Lemma play_run boot config fuel c l c' :
  cluster_run boot c → play config fuel c l = Some c' → cluster_run boot c'.
Proof.
  revert c. induction l as [|[id ev] l IH]; intros c Hc Hp; cbn [play] in Hp; [by injection Hp as <-|].
  destruct (play_event config fuel c (id, ev)) as [c1|] eqn:Ee; [|discriminate]. apply (IH c1); [|done].
  destruct ev as [call|i path e count]; cbn in Ee; [|by eapply steps_run].
  destruct (c !! id) as [n|] eqn:En; [|discriminate]. destruct (foreign id call) eqn:Ef; [|discriminate].
  injection Ee as <-. eapply run_step; [exact Hc|]. by apply starts.
Qed.

(** Three nodes: [node_a] is elected for term 1 with the vote of [node_b] and
    commits an entry with its acknowledgement. *)
Definition defaults : RaftRuntimeConfig := mkConfig 750000000 1500000000 200000000 256.

Definition new_shared (id : string) : t :=
  mk (fresh id) RaftFollower "" ∅ None false (mkHistory [] [] [] [] [] [([], [], [])]).

Definition three_nodes : gmap string node :=
  list_to_map ((λ id, (id, mkNode (new_shared id) [])) <$> [node_a; node_b; node_c]).

Definition peers_of (id : string) : list RaftPeer :=
  (λ p, mkPeer p "http") <$> List.filter (λ p, negb (String.eqb p id)) [node_a; node_b; node_c].

(** No answer, a vote, a success. *)
Definition silent (id : string) : env := mkEnv None 0 false (peers_of id) None None None None.
Definition granting (id : string) (term : Z) : env :=
  mkEnv None 0 false (peers_of id) (Some (mkVoteResponse term true)) None None None.
Definition matching (id : string) (term index : Z) : env :=
  mkEnv None 0 false (peers_of id) None (Some (mkAppendResponse term true index)) None None.

Definition an_election : list (string * event) :=
  [(node_a, Launch Campaign); (node_a, Steps 0 [] (silent node_a) 8);
   (node_b, Launch (VoteCall (mkVoteRequest 1 node_a 0 0))); (node_b, Steps 0 [] (silent node_b) 7);
   (node_a, Steps 0 [] (granting node_a 1) 1); (node_a, Steps 0 [] (silent node_a) 4)].

Definition a_proposal : list (string * event) :=
  [(node_a, Launch (ProposeCall (advance 2 digest_0))); (node_a, Steps 1 [] (silent node_a) 5);
   (node_a, Steps 1 [0%nat] (silent node_a) 5); (node_a, Steps 1 [0%nat] (matching node_a 1 1) 2);
   (node_a, Steps 1 [1%nat] (silent node_a) 6); (node_a, Steps 1 [] (silent node_a) 2)].

Lemma three_nodes_run : cluster_run 1 three_nodes.
Proof.
  apply run_new. intros id n Hn. unfold three_nodes in Hn. apply elem_of_list_to_map_2 in Hn.
  apply list_elem_of_fmap in Hn as (id' & [= -> ->] & Hid). exists (fresh id'), (mkConfig 0 0 0 0), (new_shared id'), defaults.
  repeat (apply elem_of_cons in Hid as [->|Hid]; [split_and!; vm_compute; reflexivity|]). by apply elem_of_nil in Hid.
Qed.

Definition share_votersb (a b : configuration) : bool :=
  bool_decide ([] ∈ voter_sets a) || bool_decide ([] ∈ voter_sets b)
  || existsb (λ V, bool_decide (V ∈ voter_sets b)) (voter_sets a).

Lemma share_votersb_ok a b : share_votersb a b = true → share_voters a b.
Proof.
  unfold share_votersb. intros Hb. apply orb_true_iff in Hb as [[Hb|Hb]%orb_true_iff|Hb].
  - left. by apply bool_decide_eq_true in Hb.
  - right; left. by apply bool_decide_eq_true in Hb.
  - right; right. apply existsb_exists in Hb as (V & HV & Hb). exists V. split; [by apply list_elem_of_In|].
    by apply bool_decide_eq_true in Hb.
Qed.

Definition committed_run : option (gmap string node) := play defaults 5 three_nodes (an_election ++ a_proposal).

Lemma committed_run_checked :
  match committed_run with
  | Some c =>
      match c !! node_a with
      | Some n =>
          bool_decide (1 ∈ created (past (shared n))) && bool_decide ((1, 1, [node_a; node_b]) ∈ commits (past (shared n)))
          && forallb (λ a, forallb (share_votersb a) (configurations (past (shared n)))) (configurations (past (shared n)))
      | None => false
      end
  | None => false
  end = true.
Proof. vm_compute. reflexivity. Qed.

Lemma committed_run_facts :
  ∃ c n, cluster_run 1 c ∧ c !! node_a = Some n ∧ 1 ∈ created (past (shared n))
    ∧ (1, 1, [node_a; node_b]) ∈ commits (past (shared n))
    ∧ ∀ a b, a ∈ configurations (past (shared n)) → b ∈ configurations (past (shared n)) → share_voters a b.
Proof.
  pose proof committed_run_checked as Hc. destruct committed_run as [c|] eqn:Ec; [|discriminate].
  destruct (c !! node_a) as [n|] eqn:En; [|discriminate].
  apply andb_true_iff in Hc as [[H1 H2]%andb_true_iff H3].
  exists c, n. split; [by apply (play_run 1 defaults 5 three_nodes (an_election ++ a_proposal) c three_nodes_run)|].
  split; [done|]. split; [by apply bool_decide_eq_true in H1|]. split; [by apply bool_decide_eq_true in H2|].
  intros a b Ha Hb. apply share_votersb_ok. rewrite List.forallb_forall in H3.
  specialize (H3 a (proj1 (list_elem_of_In _ _) Ha)). rewrite List.forallb_forall in H3.
  apply H3, list_elem_of_In, Hb.
Qed.

Lemma one_writer_per_term_witness :
  ∃ c n, cluster_run 1 c ∧ c !! node_a = Some n ∧ 1 ∈ created (past (shared n)) ∧ node_a = node_a.
Proof.
  destruct committed_run_facts as (c & n & H1 & H2 & H3 & _ & H5). exists c, n. split; [exact H1|].
  split; [exact H2|]. split; [exact H3|]. exact (one_writer_per_term 1 c node_a node_a n n 1 H1 H2 H2 H5 H3 H3).
Defined.

Lemma commits_confirmed_witness :
  ∃ c n, cluster_run 1 c ∧ c !! node_a = Some n ∧ ∃ votes, some_quorum (shared n) votes.
Proof.
  destruct committed_run_facts as (c & n & H1 & H2 & _ & H4 & _). exists c, n. split; [exact H1|].
  split; [exact H2|]. destruct (commits_confirmed 1 c node_a n 1 1 [node_a; node_b] H1 H2 H4) as ((votes & Hq & _) & _).
  by exists votes.
Defined.

(** A leader of a term it never stood for: [node_a] has voted for [node_b] in
    term 2 and has not left its office when the heartbeat starts; the
    heartbeat reads the term of the store and sends entries in term 2. *)
Definition an_usurpation : list (string * event) :=
  [(node_a, Launch (VoteCall (mkVoteRequest 2 node_b 1 1))); (node_a, Steps 2 [] (silent node_a) 4);
   (node_a, Launch HeartbeatTick); (node_a, Steps 3 [] (silent node_a) 10)].

Example leader_of_a_lost_term :
  match play defaults 5 three_nodes (an_election ++ a_proposal ++ an_usurpation) with
  | Some c =>
      match c !! node_a with
      | Some n =>
          let h := past (shared n) in
          (map fst (won h), granted h, head (heard h))
          = ([1], [(2, node_b); (1, node_a)],
             Some (mkPeer node_b "http", Appended (mkAppendRequest 2 node_a 1 1 [] 1) None))
      | None => False
      end
  | None => False
  end.
Proof. vm_compute. reflexivity. Qed.
