(* ===== verification/Placement.v ===== *)
(** * Shard placement

    [internal/cluster/placement.go], [replicas.go] and the digests of
    [view.go]: capacity-weighted rendezvous hashing of shards to nodes,
    replica sets, and the fingerprint of a cluster view. *)
From Stdlib Require Import ZArith Lia Ascii String Sorting.Sorted.
From stdpp Require Import base tactics list gmap strings pretty.
From S2P Require Import Prelude Sha256 ClusterBase Core.
Local Open Scope string_scope.
Local Open Scope Z_scope.
Local Open Scope list_scope.

(** ** Data *)

(** The fields of a discovered peer that placement reads. *)
Record Peer : Set := mkPeer {
  SeedURL : string;
  peer_NodeID : string;
  peer_AdvertiseAddress : string;
  peer_PlacementCapacity : Z;
  peer_Healthy : bool;
}.

Record PlacementNode : Set := mkNode {
  pn_NodeID : string;
  pn_AdvertiseAddress : string;
  pn_Capacity : Z;
  pn_Healthy : bool;
  pn_Local : bool;
}.

Record ShardPlacement : Set := mkShardPlacement {
  sp_Collection : string;
  sp_ShardID : Z;
  sp_NodeID : string;
}.

Record PlacementTable : Set := mkTable {
  pt_Epoch : Z;
  pt_Authoritative : bool;
  pt_Nodes : list PlacementNode;
  pt_Shards : list ShardPlacement;
  pt_NextCursor : string;
}.

Record ShardReplicaPlacement : Set := mkReplicaPlacement {
  srp_Collection : string;
  srp_ShardID : Z;
  LeaderID : string;
  Replicas : list string;
}.

Record ReplicaPlacementTable : Set := mkReplicaTable {
  rpt_Epoch : Z;
  rpt_Authoritative : bool;
  ReplicationFactor : Z;
  rpt_Nodes : list PlacementNode;
  rpt_Shards : list ShardReplicaPlacement;
}.

(** ** Scores *)

(** [bytes.Compare] *)
Fixpoint bytes_Compare (a b : list Z) : comparison :=
  match a, b with
  | [], [] => Eq
  | [], _ => Lt
  | _, [] => Gt
  | x :: a, y :: b => match Z.compare x y with Eq => bytes_Compare a b | c => c end
  end.

Definition bytes_gtb (a b : list Z) : bool :=
  match bytes_Compare a b with Gt => true | _ => false end.

Definition placementScore (collection : string) (shardID : Z) (nodeID : string) : list Z :=
  sha256_Sum256 (string_bytes collection ++ [0] ++ be_bytes 4 shardID ++ string_bytes nodeID).

Definition placementTicketScore (collection : string) (shardID : Z) (nodeID : string) (ticket : Z) : list Z :=
  sha256_Sum256 (string_bytes collection ++ [0] ++ be_bytes 4 shardID ++ string_bytes nodeID
                 ++ be_bytes 4 ticket).

(** [for ticket := uint32(1); ticket < node.Capacity; ticket++] *)
Fixpoint ticket_loop (collection : string) (shardID : Z) (nodeID : string) (rounds : nat) (ticket : Z)
    (best : list Z) : list Z :=
  match rounds with
  | O => best
  | S rounds =>
      let score := placementTicketScore collection shardID nodeID ticket in
      ticket_loop collection shardID nodeID rounds (ticket + 1) (if bytes_gtb score best then score else best)
  end.

Definition placementNodeScore (collection : string) (shardID : Z) (node : PlacementNode) : list Z :=
  ticket_loop collection shardID (pn_NodeID node) (Z.to_nat (pn_Capacity node - 1)) 1
    (placementScore collection shardID (pn_NodeID node)).

(** ** Planning *)

(** [for _, peer := range peers] *)
Fixpoint add_peers (seen : gset string) (peers : list Peer) : res (list PlacementNode) :=
  match peers with
  | [] => Ok []
  | peer :: rest =>
      if String.eqb (peer_NodeID peer) "" then add_peers seen rest
      else if negb (ValidNodeID (peer_NodeID peer)) || String.eqb (peer_AdvertiseAddress peer) ""
      then Err (Errorf "invalid discovered peer")
      else if bool_decide (peer_NodeID peer ∈ seen) then Err (Errorf "duplicate placement node ID")
      else
        let capacity := default_to 1 (peer_PlacementCapacity peer) in
        let! _ := validatePlacementCapacity capacity in
        let! nodes := add_peers ({[peer_NodeID peer]} ∪ seen) rest in
        Ok (mkNode (peer_NodeID peer) (peer_AdvertiseAddress peer) capacity (peer_Healthy peer) false :: nodes)
  end.

(** [for _, node := range nodes[1:]] *)
Fixpoint owner_loop (collection : string) (shardID : Z) (owner : string) (best : list Z)
    (nodes : list PlacementNode) : string :=
  match nodes with
  | [] => owner
  | node :: rest =>
      let score := placementNodeScore collection shardID node in
      if bytes_gtb score best then owner_loop collection shardID (pn_NodeID node) score rest
      else owner_loop collection shardID owner best rest
  end.

(** [owner := nodes[0].NodeID; ...]; the list holds at least the local node. *)
Definition shard_owner (collection : string) (shardID : Z) (nodes : list PlacementNode) : string :=
  match nodes with
  | [] => ""
  | node :: rest =>
      owner_loop collection shardID (pn_NodeID node) (placementNodeScore collection shardID node) rest
  end.

(** [range config.ShardCount] *)
Definition shard_ids (count : Z) : list Z := Z.of_nat <$> seq 0 (Z.to_nat count).

Fixpoint plan_shards (nodes : list PlacementNode) (configs : list CollectionConfig) : res (list ShardPlacement) :=
  match configs with
  | [] => Ok []
  | config :: rest =>
      let! _ := Validate config in
      let! others := plan_shards nodes rest in
      Ok (((λ shardID, mkShardPlacement (Name config) (u32 shardID)
                         (shard_owner (Name config) (u32 shardID) nodes)) <$> shard_ids (ShardCount config))
          ++ others)
  end.

Definition sort_nodes (nodes : list PlacementNode) : list PlacementNode :=
  sort_slice (by_key str_ltb pn_NodeID) nodes.
Definition sort_configs (configs : list CollectionConfig) : list CollectionConfig :=
  sort_slice (by_key str_ltb Name) configs.

Definition PlanPlacementWithCapacity (epoch : Z) (localNodeID localAddress : string) (localCapacity : Z)
    (peers : list Peer) (collections : list CollectionConfig) : res PlacementTable :=
  if (epoch =? 0) || negb (ValidNodeID localNodeID) || String.eqb localAddress ""
  then Err (Errorf "valid epoch, local node ID, and local address are required")
  else
    let! _ := validatePlacementCapacity localCapacity in
    let! others := add_peers {[localNodeID]} peers in
    let nodes := sort_nodes (mkNode localNodeID localAddress localCapacity true true :: others) in
    let! shards := plan_shards nodes (sort_configs collections) in
    Ok (mkTable epoch false nodes shards "").

Definition PlanPlacement (epoch : Z) (localNodeID localAddress : string)
    (peers : list Peer) (collections : list CollectionConfig) : res PlacementTable :=
  PlanPlacementWithCapacity epoch localNodeID localAddress 1 peers collections.

(** A replica candidate: its node and its score. *)
Definition better (a b : string * list Z) : bool :=
  match bytes_Compare (snd a) (snd b) with
  | Eq => str_ltb (fst a) (fst b)
  | Gt => true
  | Lt => false
  end.

Definition candidates (collection : string) (shardID : Z) (nodes : list PlacementNode) : list (string * list Z) :=
  sort_slice better ((λ node, (pn_NodeID node, placementNodeScore collection shardID node)) <$> nodes).

(** [replicas[index] = candidates[index].nodeID] for the first
    [replicationFactor] indexes; the factor is at most the number of nodes. *)
Definition replica_placement (nodes : list PlacementNode) (factor : Z) (collection : string) (shardID : Z)
    : ShardReplicaPlacement :=
  let replicas := take (Z.to_nat factor) (fst <$> candidates collection shardID nodes) in
  mkReplicaPlacement collection shardID (default "" (head replicas)) replicas.

Definition PlanReplicaPlacementWithCapacity (epoch : Z) (localNodeID localAddress : string)
    (localCapacity : Z) (peers : list Peer) (collections : list CollectionConfig) (replicationFactor : Z)
    : res ReplicaPlacementTable :=
  let! base := PlanPlacementWithCapacity epoch localNodeID localAddress localCapacity peers collections in
  if (replicationFactor <? 1) || (len (pt_Nodes base) <? replicationFactor)
  then Err (Errorf "replication factor must be between 1 and the number of nodes")
  else
    Ok (mkReplicaTable epoch false replicationFactor (pt_Nodes base)
          (sort_configs collections ≫= λ config,
             (λ shardID, replica_placement (pt_Nodes base) replicationFactor (Name config) (u32 shardID))
             <$> shard_ids (ShardCount config))).

Definition PlanReplicaPlacement (epoch : Z) (localNodeID localAddress : string)
    (peers : list Peer) (collections : list CollectionConfig) (replicationFactor : Z)
    : res ReplicaPlacementTable :=
  PlanReplicaPlacementWithCapacity epoch localNodeID localAddress 1 peers collections replicationFactor.
