(* ===== verification/PlacementProofs.v ===== *)
(** * Properties of shard placement

    Every node computes the same placement; owners and replicas are members;
    the leader of a replica set is the placement's owner; adding a node or
    raising a capacity moves shards only to that node. *)
From Stdlib Require Import ZArith Lia Ascii String Sorting.Sorted.
From stdpp Require Import base tactics list gmap strings.
From S2P Require Import Prelude Sha256 ClusterBase Core Placement.
Local Open Scope string_scope.
Local Open Scope Z_scope.
Local Open Scope list_scope.

(** ** The order of candidates *)

Lemma bytes_Compare_eq a b : bytes_Compare a b = Eq ↔ a = b.
Proof.
  revert b. induction a as [|x a IH]; intros [|y b]; simpl; try done.
  destruct (Z.compare_spec x y) as [->|H|H]; [rewrite IH|..]; split; try congruence;
    intros [= ? ?]; lia.
Qed.

Lemma bytes_Compare_opp a b : bytes_Compare b a = CompOpp (bytes_Compare a b).
Proof.
  revert b. induction a as [|x a IH]; intros [|y b]; simpl; try done.
  rewrite Z.compare_antisym. destruct (Z.compare x y); simpl; auto.
Qed.

Lemma bytes_Compare_gt_trans a b c :
  bytes_Compare a b = Gt → bytes_Compare b c = Gt → bytes_Compare a c = Gt.
Proof.
  revert b c. induction a as [|x a IH]; intros [|y b] [|z c]; simpl; try done.
  destruct (Z.compare_spec x y) as [->|H|H]; [|done|].
  - destruct (Z.compare_spec y z); try done. apply IH.
  - intros _. destruct (Z.compare_spec y z) as [<-|H'|H']; [|done|].
    + rewrite (proj2 (Z.compare_gt_iff x y)) by lia. done.
    + rewrite (proj2 (Z.compare_gt_iff x z)) by lia. done.
Qed.

#[global] Instance better_strict : StrictOrderB better.
Proof.
  split; unfold better.
  - intros [n s]. simpl. by rewrite (proj2 (bytes_Compare_eq s s)), ltb_irrefl.
  - intros [n1 s1] [n2 s2] [n3 s3]; simpl.
    destruct (bytes_Compare s1 s2) eqn:E1; [apply bytes_Compare_eq in E1 as ->|done|].
    + destruct (bytes_Compare s2 s3); [apply ltb_trans|done..].
    + intros _. destruct (bytes_Compare s2 s3) eqn:E2; [apply bytes_Compare_eq in E2 as <-|done|].
      * by rewrite E1.
      * by rewrite (bytes_Compare_gt_trans _ _ _ E1 E2).
  - intros [n1 s1] [n2 s2]; simpl. rewrite (bytes_Compare_opp s1 s2).
    destruct (bytes_Compare s1 s2) eqn:E; simpl; try done.
    apply bytes_Compare_eq in E as ->. intros H1 H2. f_equal. by apply ltb_total.
Qed.

Definition candidate (collection : string) (shardID : Z) (node : PlacementNode) : string * list Z :=
  (pn_NodeID node, placementNodeScore collection shardID node).

(** Nodes in ascending order of identifier. *)
Definition by_id (nodes : list PlacementNode) : Prop := ordered (by_key str_ltb pn_NodeID) nodes.

(** The scan keeps the best candidate seen so far; on equal scores the
    earlier node, which has the smaller identifier, stays. *)
Lemma owner_loop_first collection shardID nodes owner best :
  by_id nodes → Forall (λ n, str_ltb (pn_NodeID n) owner = false) nodes →
  ∃ score, owner_loop collection shardID owner best nodes = fst score
    ∧ first_in better score ((owner, best) :: (candidate collection shardID <$> nodes)).
Proof.
  intros Ho. revert owner best. induction Ho as [|node nodes Ho IH Hn]; intros owner best Hf; simpl.
  { exists (owner, best). split; [done|]. split; [apply list_elem_of_here|].
    intros y ->%list_elem_of_singleton. apply ltb_irrefl. }
  rewrite Forall_cons in Hf. destruct Hf as [Hown Hf].
  unfold bytes_gtb.
  set (s := placementNodeScore collection shardID node).
  destruct (bytes_Compare s best) eqn:E.
  1,2: destruct (IH owner best Hf) as (sc & -> & Hin & Hmin); exists sc; (split; [done|]);
    split; [apply elem_of_cons in Hin as [->|Hin]; [apply list_elem_of_here|by do 2 apply list_elem_of_further]|].
  1,2: assert (better (owner, best) sc = false) as Hb by (apply Hmin, list_elem_of_here).
  1,2: intros y [->|[->|Hy]%elem_of_cons]%elem_of_cons; [done| |by apply Hmin, list_elem_of_further].
  1,2: apply (wltb_neg_trans _ (owner, best) _); [|done]; unfold better, candidate; simpl; fold s; by rewrite E.
  destruct (IH (pn_NodeID node) s Hn) as (sc & -> & Hin & Hmin). exists sc. split; [done|].
  split; [by apply list_elem_of_further|].
  intros y [->|Hy]%elem_of_cons; [|by apply Hmin].
  apply (wltb_neg_trans _ (pn_NodeID node, s) _); [|apply Hmin, list_elem_of_here].
  unfold better. simpl. by rewrite bytes_Compare_opp, E.
Qed.

(** The owner of a shard is the first candidate of the replica order. *)
Lemma shard_owner_first collection shardID nodes :
  by_id nodes → nodes ≠ [] →
  ∃ score, shard_owner collection shardID nodes = fst score
    ∧ first_in better score (candidate collection shardID <$> nodes).
Proof.
  intros Ho Hne. destruct Ho as [|node rest Ho Hn]; [done|]. cbn [shard_owner]. rewrite fmap_cons.
  apply owner_loop_first; [done|]. exact Hn.
Qed.

Lemma shard_owner_leader collection shardID nodes :
  by_id nodes →
  shard_owner collection shardID nodes = default "" (fst <$> head (candidates collection shardID nodes)).
Proof.
  intros Ho. destruct (decide (nodes = [])) as [->|E]; [done|].
  destruct (shard_owner_first collection shardID nodes Ho) as (sc & -> & Hf); [done|].
  unfold candidates. rewrite (sort_slice_first better sc); [done|exact Hf].
Qed.

(** ** What a plan depends on *)

(** The part of a node that scores read. *)
Definition node_key (n : PlacementNode) : string * Z := (pn_NodeID n, pn_Capacity n).

Lemma score_key collection shardID n n' :
  node_key n = node_key n' → candidate collection shardID n = candidate collection shardID n'.
Proof. unfold candidate, placementNodeScore. by intros [= -> ->]. Qed.

Lemma candidates_key collection shardID (nodes nodes' : list PlacementNode) :
  node_key <$> nodes = node_key <$> nodes' →
  candidate collection shardID <$> nodes = candidate collection shardID <$> nodes'.
Proof.
  revert nodes'. induction nodes as [|n nodes IH]; intros [|n' nodes'] H; try done.
  rewrite !fmap_cons in *. f_equal; [apply score_key|apply IH]; congruence.
Qed.

Lemma by_id_key (nodes nodes' : list PlacementNode) :
  node_key <$> nodes = node_key <$> nodes' → by_id nodes → by_id nodes'.
Proof.
  intros H Ho. revert nodes' H. induction Ho as [|n nodes Ho IH Hn]; intros [|n' nodes'] H; try done; [constructor|].
  rewrite !fmap_cons in H. injection H as H1 H2 H3. constructor; [by apply IH|].
  clear -Hn H1 H3. revert nodes' H3. induction Hn as [|x nodes Hx Hn IH]; intros [|x' nodes'] H3; try done.
  rewrite !fmap_cons in H3. injection H3 as E1 _ E2. constructor; [|by apply IH].
  unfold by_key in *. by rewrite <-E1, <-H1.
Qed.

Lemma owner_key collection shardID (nodes nodes' : list PlacementNode) :
  by_id nodes → node_key <$> nodes = node_key <$> nodes' →
  shard_owner collection shardID nodes = shard_owner collection shardID nodes'.
Proof.
  intros Ho H. rewrite !shard_owner_leader by eauto using by_id_key.
  unfold candidates. f_equal. f_equal. f_equal. f_equal.
  change (candidate collection shardID <$> nodes = candidate collection shardID <$> nodes').
  by apply candidates_key.
Qed.

Lemma plan_shards_key (nodes nodes' : list PlacementNode) configs :
  by_id nodes → node_key <$> nodes = node_key <$> nodes' → plan_shards nodes configs = plan_shards nodes' configs.
Proof.
  intros Ho H. induction configs as [|config configs IH]; [done|]. cbn [plan_shards]. rewrite IH.
  destruct (Validate config); cbn [res_bind]; [|done].
  destruct (plan_shards nodes' configs); cbn [res_bind]; [|done]. do 2 f_equal.
  apply list_fmap_ext. intros i s _. f_equal. by apply owner_key.
Qed.

Lemma sort_nodes_by_id nodes : by_id (sort_nodes nodes).
Proof. apply sort_slice_ordered, by_key_weak, strict_weak, str_ltb_strict. Qed.

Lemma sort_nodes_key (nodes nodes' : list PlacementNode) :
  NoDup (pn_NodeID <$> nodes) → node_key <$> nodes ≡ₚ node_key <$> nodes' →
  node_key <$> sort_nodes nodes = node_key <$> sort_nodes nodes'.
Proof.
  intros Hnd Hp. unfold sort_nodes.
  rewrite !(sort_slice_fmap node_key (by_key str_ltb pn_NodeID) (by_key str_ltb fst)) by done.
  apply sort_slice_unique_key; [apply str_ltb_strict| |done].
  rewrite <-list_fmap_compose. exact Hnd.
Qed.

(** ** Members *)

(** The members a planning call sees: the local node and the peers that
    have introduced themselves, with their effective capacities. *)
Definition members (localNodeID : string) (localCapacity : Z) (peers : list Peer) : list (string * Z) :=
  (localNodeID, localCapacity)
  :: ((λ p, (peer_NodeID p, default_to 1 (peer_PlacementCapacity p)))
      <$> filter (λ p, peer_NodeID p ≠ "") peers).

Lemma add_peers_ok seen peers nodes :
  add_peers seen peers = Ok nodes →
  node_key <$> nodes = ((λ p, (peer_NodeID p, default_to 1 (peer_PlacementCapacity p)))
                        <$> filter (λ p, peer_NodeID p ≠ "") peers)
  ∧ NoDup (pn_NodeID <$> nodes) ∧ Forall (λ n, pn_NodeID n ∉ seen) nodes
  ∧ Forall (λ n, ValidNodeID (pn_NodeID n) = true ∧ 1 ≤ pn_Capacity n ≤ MaxPlacementCapacity) nodes.
Proof.
  revert seen nodes. induction peers as [|p peers IH]; intros seen nodes; cbn [add_peers].
  { intros [= <-]. repeat split; constructor. }
  rewrite filter_cons. destruct (String.eqb (peer_NodeID p) "") eqn:E0.
  { apply String.eqb_eq in E0. rewrite decide_False by tauto. apply IH. }
  apply String.eqb_neq in E0. rewrite decide_True by done.
  destruct (_ || _) eqn:E1; [done|]. destruct (bool_decide _) eqn:E2; [done|]. bool_props.
  unfold validatePlacementCapacity. destruct (_ || _) eqn:E3; [done|]. bool_props. cbn [res_bind].
  destruct (add_peers _ peers) as [others|] eqn:E; [|done]. intros [= <-].
  destruct (IH _ _ E) as (P1 & P2 & P3 & P4). rewrite !fmap_cons, P1. split_and!.
  - done.
  - apply NoDup_cons. split; [|done]. intros Hin%list_elem_of_fmap. destruct Hin as (n & En & Hn).
    rewrite Forall_forall in P3. apply (P3 n Hn). rewrite <-En.
    by apply elem_of_union_l, elem_of_singleton_2.
  - constructor; [done|]. eapply Forall_impl; [exact P3|]. intros x Hx Hin. by apply Hx, elem_of_union_r.
  - constructor; [|done]. simpl. split; [done|lia].
Qed.

(** What a successful plan is made of. *)
Lemma plan_ok epoch local address capacity peers collections table :
  PlanPlacementWithCapacity epoch local address capacity peers collections = Ok table →
  ∃ nodes, pt_Nodes table = sort_nodes nodes ∧ pt_Epoch table = epoch
    ∧ node_key <$> nodes = members local capacity peers
    ∧ NoDup (pn_NodeID <$> nodes) ∧ nodes ≠ []
    ∧ Forall (λ n, ValidNodeID (pn_NodeID n) = true ∧ 1 ≤ pn_Capacity n ≤ MaxPlacementCapacity) nodes
    ∧ plan_shards (pt_Nodes table) (sort_configs collections) = Ok (pt_Shards table).
Proof.
  unfold PlanPlacementWithCapacity. destruct (_ || _) eqn:E0; [done|]. bool_props.
  unfold validatePlacementCapacity at 1. destruct (_ || _) eqn:E1; [done|]. bool_props. cbn [res_bind].
  destruct (add_peers _ peers) as [others|] eqn:Ea; [|done]. cbn [res_bind].
  set (nodes := mkNode local address capacity true true :: others).
  destruct (plan_shards _ _) as [shards|] eqn:Es; [|done]. intros [= <-]. exists nodes.
  destruct (add_peers_ok _ _ _ Ea) as (P1 & P2 & P3 & P4). split_and!; try done.
  - unfold nodes, members. rewrite fmap_cons, P1. done.
  - unfold nodes. rewrite fmap_cons. apply NoDup_cons. split; [|done].
    intros Hin%list_elem_of_fmap. destruct Hin as (n & En & Hn). simpl in En.
    rewrite Forall_forall in P3. apply (P3 n Hn). set_solver.
  - constructor; [|done]. simpl. split; [done|lia].
Qed.

(** ** Replica sets *)

Lemma plan_shards_ok nodes configs shards :
  plan_shards nodes configs = Ok shards →
  shards = configs ≫= λ config,
    (λ s, mkShardPlacement (Name config) (u32 s) (shard_owner (Name config) (u32 s) nodes))
    <$> shard_ids (ShardCount config).
Proof.
  revert shards. induction configs as [|c configs IH]; intros shards; cbn [plan_shards]; [by intros [= <-]|].
  destruct (Validate c); [|done]. cbn [res_bind].
  destruct (plan_shards nodes configs) as [others|]; [|done]. cbn [res_bind]. intros [= <-].
  rewrite bind_cons. by rewrite (IH others eq_refl).
Qed.

Lemma fmap_bind {A B C} (f : B → C) (g : A → list B) (l : list A) :
  f <$> (l ≫= g) = l ≫= λ x, f <$> g x.
Proof. induction l as [|x l IH]; [done|]. by rewrite !bind_cons, fmap_app, IH. Qed.

Lemma candidates_ids collection shardID nodes :
  fst <$> candidates collection shardID nodes ≡ₚ pn_NodeID <$> nodes.
Proof. unfold candidates. rewrite sort_slice_perm, <-list_fmap_compose. done. Qed.

Lemma head_take_fst {A B} (l : list (A * B)) n :
  (1 ≤ n)%nat → head (take n (fst <$> l)) = fst <$> head l.
Proof. intros Hn. destruct n as [|n]; [lia|]. by destruct l. Qed.

(** What the planner guarantees of one replica set. *)
Record replica_set_ok (nodes : list PlacementNode) (factor : Z) (p : ShardReplicaPlacement) : Prop := {
  rs_size : len (Replicas p) = factor;
  rs_distinct : NoDup (Replicas p);
  rs_members : Replicas p ⊆ pn_NodeID <$> nodes;
  rs_leader : head (Replicas p) = Some (LeaderID p);
  rs_owner : LeaderID p = shard_owner (srp_Collection p) (srp_ShardID p) nodes;
}.

Lemma replica_placement_ok nodes factor collection shardID :
  by_id nodes → NoDup (pn_NodeID <$> nodes) → 1 ≤ factor ≤ len nodes →
  replica_set_ok nodes factor (replica_placement nodes factor collection shardID).
Proof.
  intros Ho Hnd Hf. pose proof (candidates_ids collection shardID nodes) as Hp.
  assert (NoDup (fst <$> candidates collection shardID nodes)) as Hnd' by (by rewrite Hp).
  assert (length (fst <$> candidates collection shardID nodes) = length nodes) as Hl
    by (by rewrite Hp, length_fmap).
  unfold len in Hf.
  split; unfold replica_placement; cbn [Replicas LeaderID srp_Collection srp_ShardID].
  - unfold len. rewrite length_take, Hl. lia.
  - eapply sublist_NoDup; [exact Hnd'|]. apply sublist_take.
  - intros x Hx. rewrite <-Hp. eapply elem_of_sublist; [exact Hx|]. apply sublist_take.
  - rewrite head_take_fst by lia.
    destruct (candidates collection shardID nodes) as [|c cs]; [simpl in Hl; lia|done].
  - rewrite head_take_fst by lia. by rewrite shard_owner_leader.
Qed.

(** A plan is the placement of its base, and its sets are well formed. *)
Lemma replica_plan_ok epoch local address cap peers cols factor table :
  PlanReplicaPlacementWithCapacity epoch local address cap peers cols factor = Ok table →
  Forall (replica_set_ok (rpt_Nodes table) factor) (rpt_Shards table)
  ∧ ∃ base, PlanPlacementWithCapacity epoch local address cap peers cols = Ok base
    ∧ (∀ c s, replica_set_ok (pt_Nodes base) factor (replica_placement (pt_Nodes base) factor c s))
    ∧ rpt_Shards table = sort_configs cols ≫= λ config,
        (λ s, replica_placement (pt_Nodes base) factor (Name config) (u32 s)) <$> shard_ids (ShardCount config).
Proof.
  unfold PlanReplicaPlacementWithCapacity.
  destruct (PlanPlacementWithCapacity _ _ _ _ _ _) as [base|] eqn:Eb; [|done]. cbn [res_bind].
  destruct (_ || _) eqn:Ef; [done|]. intros [= <-]. cbn [rpt_Nodes rpt_Shards]. bool_props.
  apply plan_ok in Eb as (nodes & En & _ & _ & Hnd & _ & _ & _).
  assert (by_id (pt_Nodes base)) as Ho by (rewrite En; apply sort_nodes_by_id).
  assert (NoDup (pn_NodeID <$> pt_Nodes base)) as Hnd'
    by (rewrite En; unfold sort_nodes; by rewrite sort_slice_perm).
  assert (∀ c s, replica_set_ok (pt_Nodes base) factor (replica_placement (pt_Nodes base) factor c s)) as Hr
    by (intros c s; apply replica_placement_ok; [done|done|lia]).
  split; [|by exists base]. apply Forall_forall. intros p (config & Hp & _)%list_elem_of_bind.
  apply list_elem_of_fmap in Hp as (s & -> & _). apply Hr.
Qed.

(** Replica sets are well formed and agree with the placement: each shard
    has exactly [replicationFactor] distinct members, led by its first, and
    the leaders are the owners the plain placement assigns, shard by shard. *)
Theorem replicas_refine_placement epoch local address cap peers cols factor table :
  PlanReplicaPlacementWithCapacity epoch local address cap peers cols factor = Ok table →
  Forall (replica_set_ok (rpt_Nodes table) factor) (rpt_Shards table)
  ∧ ∃ base, PlanPlacementWithCapacity epoch local address cap peers cols = Ok base
    ∧ pt_Shards base = (λ p, mkShardPlacement (srp_Collection p) (srp_ShardID p) (LeaderID p))
                       <$> rpt_Shards table.
Proof.
  intros (Hsets & base & Eb & Hr & E)%replica_plan_ok. split; [done|]. exists base. split; [done|].
  apply plan_ok in Eb as (nodes & _ & _ & _ & _ & _ & _ & Hs). apply plan_shards_ok in Hs. rewrite Hs, E. clear Hs.
  rewrite fmap_bind. apply list_bind_ext; [|done]. intros config.
  rewrite <-list_fmap_compose. apply list_fmap_ext. intros i s _. simpl.
  pose proof (rs_owner _ _ _ (Hr (Name config) (u32 s))) as E'. simpl in E'. by rewrite <-E'.
Qed.

(** ** Movement *)

Lemma ticket_loop_add collection shardID id a b ticket best :
  ticket_loop collection shardID id (a + b) ticket best
  = ticket_loop collection shardID id b (ticket + Z.of_nat a) (ticket_loop collection shardID id a ticket best).
Proof.
  revert ticket best. induction a as [|a IH]; intros ticket best; cbn [ticket_loop Nat.add].
  - f_equal. lia.
  - rewrite IH. f_equal. lia.
Qed.

Lemma ticket_loop_ge collection shardID id n ticket best :
  bytes_Compare (ticket_loop collection shardID id n ticket best) best ≠ Lt.
Proof.
  revert ticket best. induction n as [|n IH]; intros ticket best; cbn [ticket_loop].
  { by rewrite (proj2 (bytes_Compare_eq best best)). }
  unfold bytes_gtb. set (score := placementTicketScore collection shardID id ticket).
  destruct (bytes_Compare score best) eqn:E; try apply IH.
  specialize (IH (ticket + 1) score).
  destruct (bytes_Compare (ticket_loop _ _ _ _ _ score) score) eqn:E2; [|done|].
  - apply bytes_Compare_eq in E2. by rewrite E2, E.
  - by rewrite (bytes_Compare_gt_trans _ _ _ E2 E).
Qed.

(** A larger capacity never lowers a node's score. *)
Lemma score_capacity collection shardID n n' :
  pn_NodeID n = pn_NodeID n' → pn_Capacity n ≤ pn_Capacity n' →
  better (candidate collection shardID n) (candidate collection shardID n') = false.
Proof.
  intros Hid Hc. unfold better, candidate, placementNodeScore. cbn [fst snd]. rewrite Hid, ltb_irrefl.
  replace (Z.to_nat (pn_Capacity n' - 1))
    with (Z.to_nat (pn_Capacity n - 1) + (Z.to_nat (pn_Capacity n' - 1) - Z.to_nat (pn_Capacity n - 1)))%nat by lia.
  rewrite ticket_loop_add. set (base := ticket_loop _ _ _ (Z.to_nat (pn_Capacity n - 1)) _ _).
  set (ticket := 1 + Z.of_nat _). set (more := (_ - _)%nat).
  pose proof (ticket_loop_ge collection shardID (pn_NodeID n') more ticket base) as Hge.
  rewrite bytes_Compare_opp. by destruct (bytes_Compare _ _).
Qed.

(** [M'] is [M] with the node [x] added or its capacity raised. *)
Definition grown (x : string) (M M' : list (string * Z)) : Prop :=
  (∀ id cap, id ≠ x → (id, cap) ∈ M ↔ (id, cap) ∈ M')
  ∧ ∀ cap, (x, cap) ∈ M → ∃ cap', cap ≤ cap' ∧ (x, cap') ∈ M'.

Lemma candidate_key (nodes : list PlacementNode) id cap :
  (id, cap) ∈ node_key <$> nodes →
  ∃ n, n ∈ nodes ∧ pn_NodeID n = id ∧ pn_Capacity n = cap.
Proof. intros (n & [= -> ->] & Hn)%list_elem_of_fmap. eauto. Qed.

Lemma grown_owner x nodes nodes' collection shardID :
  by_id nodes → by_id nodes' → nodes ≠ [] → grown x (node_key <$> nodes) (node_key <$> nodes') →
  shard_owner collection shardID nodes' = shard_owner collection shardID nodes
  ∨ shard_owner collection shardID nodes' = x.
Proof.
  intros Ho Ho' Hne [Hsame Hup].
  assert (∀ n, n ∈ nodes → ∃ n', n' ∈ nodes' ∧ pn_NodeID n' = pn_NodeID n
    ∧ better (candidate collection shardID n) (candidate collection shardID n') = false) as Hfwd.
  { intros n Hn. assert (node_key n ∈ node_key <$> nodes) as Hk by (by apply list_elem_of_fmap_2).
    unfold node_key at 1 in Hk. destruct (decide (pn_NodeID n = x)) as [E|E].
    - rewrite E in Hk. destruct (Hup _ Hk) as (cap' & Hle & (n' & Hn' & E1 & E2)%candidate_key).
      exists n'. split; [done|]. split; [congruence|]. apply score_capacity; [congruence|lia].
    - apply (Hsame _ _ E) in Hk. apply candidate_key in Hk as (n' & Hn' & E1 & E2).
      exists n'. split; [done|]. split; [done|]. apply score_capacity; [done|lia]. }
  assert (nodes' ≠ []) as Hne'.
  { destruct nodes as [|n nodes]; [done|]. destruct (Hfwd n (list_elem_of_here _ _)) as (n' & Hn' & _).
    intros ->. by apply not_elem_of_nil in Hn'. }
  destruct (shard_owner_first collection shardID nodes Ho Hne) as (b & -> & Hin & Hmin).
  destruct (shard_owner_first collection shardID nodes' Ho' Hne') as (b' & -> & Hin' & Hmin').
  apply list_elem_of_fmap in Hin as (n & -> & Hn). apply list_elem_of_fmap in Hin' as (n' & -> & Hn').
  destruct (decide (pn_NodeID n' = x)) as [E|E]; [by right|left].
  assert (node_key n' ∈ node_key <$> nodes) as Hk'
    by (unfold node_key at 1; apply (Hsame _ _ E), (list_elem_of_fmap_2 node_key nodes' n'), Hn').
  apply list_elem_of_fmap in Hk' as (m & Em & Hm). apply (score_key collection shardID) in Em.
  destruct (Hfwd n Hn) as (k & Hk & Ek & Hbk).
  rewrite Em. f_equal. apply (ltb_total (ltb := better)).
  - apply Hmin. by apply list_elem_of_fmap_2.
  - rewrite <-Em. apply (wltb_neg_trans _ (candidate collection shardID k) _); [done|].
    apply Hmin'. by apply list_elem_of_fmap_2.
Qed.

(** C30. Every node computes the same placement: two calls that see the same
    members and capacities, from any node's point of view, with peers
    discovered in any order and in any health, and collections listed in any
    order, assign every shard to the same owner. *)
Theorem placement_agreement epoch1 local1 address1 cap1 peers1 cols1 table1
    epoch2 local2 address2 cap2 peers2 cols2 table2 :
  PlanPlacementWithCapacity epoch1 local1 address1 cap1 peers1 cols1 = Ok table1 →
  PlanPlacementWithCapacity epoch2 local2 address2 cap2 peers2 cols2 = Ok table2 →
  members local1 cap1 peers1 ≡ₚ members local2 cap2 peers2 →
  cols1 ≡ₚ cols2 → NoDup (Name <$> cols1) →
  pt_Shards table1 = pt_Shards table2.
Proof.
  intros H1 H2 Hm Hc Hnd.
  apply plan_ok in H1 as (n1 & E1 & _ & K1 & D1 & _ & _ & S1).
  apply plan_ok in H2 as (n2 & E2 & _ & K2 & _ & _ & _ & S2).
  rewrite E1 in S1. rewrite E2 in S2.
  assert (sort_configs cols1 = sort_configs cols2) as Ec
    by (unfold sort_configs; apply sort_slice_unique_key; [apply str_ltb_strict|done|done]).
  rewrite Ec, (plan_shards_key _ (sort_nodes n2)) in S1.
  - congruence.
  - apply sort_nodes_by_id.
  - apply sort_nodes_key; [done|]. by rewrite K1, K2.
Qed.

(** C31. Minimal movement: when one node joins, or one node's capacity is
    raised, and nothing else changes, a shard either keeps its owner or moves
    to that node; no shard moves between the others. *)
Theorem growth_moves_only_to_target x epoch local address cap peers cols table
    epoch' local' address' cap' peers' table' :
  PlanPlacementWithCapacity epoch local address cap peers cols = Ok table →
  PlanPlacementWithCapacity epoch' local' address' cap' peers' cols = Ok table' →
  grown x (members local cap peers) (members local' cap' peers') →
  Forall2 (λ p p', sp_Collection p' = sp_Collection p ∧ sp_ShardID p' = sp_ShardID p
                   ∧ (sp_NodeID p' = sp_NodeID p ∨ sp_NodeID p' = x))
    (pt_Shards table) (pt_Shards table').
Proof.
  intros H1 H2 Hg.
  apply plan_ok in H1 as (n1 & E1 & _ & K1 & _ & Hne & _ & S1).
  apply plan_ok in H2 as (n2 & E2 & _ & K2 & _ & _ & _ & S2).
  rewrite E1 in S1. rewrite E2 in S2. apply plan_shards_ok in S1, S2. rewrite S1, S2.
  assert (∀ c s, shard_owner c s (sort_nodes n2) = shard_owner c s (sort_nodes n1)
    ∨ shard_owner c s (sort_nodes n2) = x) as Ho.
  { intros c s. apply grown_owner; try apply sort_nodes_by_id.
    - intros Hnil. apply Hne. apply Permutation_nil_r. rewrite <-Hnil. unfold sort_nodes.
      by rewrite sort_slice_perm.
    - assert (∀ n (e : string * Z), e ∈ node_key <$> sort_nodes n ↔ e ∈ node_key <$> n) as Hperm
        by (intros n e; unfold sort_nodes; by rewrite sort_slice_perm).
      destruct Hg as [Hg1 Hg2]. rewrite <-K1, <-K2 in *.
      split; [intros id c' Hid; rewrite !Hperm; auto|].
      intros c' Hc'. rewrite Hperm in Hc'. destruct (Hg2 c' Hc') as (c2 & ? & Hc2).
      exists c2. by rewrite Hperm. }
  clear S1 S2. induction (sort_configs cols) as [|config configs IH]; [constructor|]. rewrite !bind_cons.
  apply Forall2_app; [|done]. apply Forall2_fmap. apply Forall_Forall2_diag.
  apply Forall_forall. intros s _. simpl. auto.
Qed.

(** ** Witnesses *)

Definition id_a : string := "0000000000000000000000000000000a".
Definition id_b : string := "0000000000000000000000000000000b".
Definition flat_config (name : string) (shards : Z) : CollectionConfig :=
  mkConfig name 4 MetricDot shards (mkIndex "" 0 0 0 "" 0 0 0 0) "" ∅.
Definition sample_peer (id : string) (cap : Z) (healthy : bool) : Peer := mkPeer "seed" id "addr" cap healthy.
Definition or_empty (t : res PlacementTable) : PlacementTable :=
  match t with Ok t => t | Err _ => mkTable 0 false [] [] "" end.
Definition seen_by_a : res PlacementTable :=
  PlanPlacementWithCapacity 2 id_a "addr" 2 [sample_peer id_b 0 true] [flat_config "x" 2; flat_config "y" 1].
Definition seen_by_b : res PlacementTable :=
  PlanPlacementWithCapacity 7 id_b "addr" 1 [sample_peer id_a 2 false] [flat_config "y" 1; flat_config "x" 2].
Definition seen_alone : res PlacementTable :=
  PlanPlacementWithCapacity 1 id_b "addr" 1 [] [flat_config "x" 2; flat_config "y" 1].
Definition replicas_by_a : res ReplicaPlacementTable :=
  PlanReplicaPlacementWithCapacity 2 id_a "addr" 2 [sample_peer id_b 0 true] [flat_config "x" 2] 2.

Lemma placement_agreement_witness : pt_Shards (or_empty seen_by_a) = pt_Shards (or_empty seen_by_b).
Proof.
  apply (placement_agreement 2 id_a "addr" 2 [sample_peer id_b 0 true] [flat_config "x" 2; flat_config "y" 1] _
    7 id_b "addr" 1 [sample_peer id_a 2 false] [flat_config "y" 1; flat_config "x" 2]);
    [vm_compute; reflexivity|vm_compute; reflexivity|apply Permutation_swap|apply Permutation_swap|].
  apply (bool_decide_unpack _). vm_compute. exact I.
Defined.

Lemma replicas_refine_placement_witness :
  match replicas_by_a with
  | Ok table => Forall (replica_set_ok (rpt_Nodes table) 2) (rpt_Shards table)
  | Err _ => False
  end.
Proof.
  destruct replicas_by_a as [table|] eqn:E; [|vm_compute in E; discriminate E].
  exact (proj1 (replicas_refine_placement 2 id_a "addr" 2 [sample_peer id_b 0 true] [flat_config "x" 2] 2 table E)).
Defined.

Lemma growth_moves_only_to_target_witness :
  Forall2 (λ p p', sp_Collection p' = sp_Collection p ∧ sp_ShardID p' = sp_ShardID p
                   ∧ (sp_NodeID p' = sp_NodeID p ∨ sp_NodeID p' = id_a))
    (pt_Shards (or_empty seen_alone)) (pt_Shards (or_empty seen_by_a)).
Proof.
  apply (growth_moves_only_to_target id_a 1 id_b "addr" 1 [] [flat_config "x" 2; flat_config "y" 1] _
    2 id_a "addr" 2 [sample_peer id_b 0 true]); [vm_compute; reflexivity|vm_compute; reflexivity|].
  split.
  - intros id cap Hid. change (members id_b 1 []) with [(id_b, 1)].
    change (members id_a 2 [sample_peer id_b 0 true]) with [(id_a, 2); (id_b, 1)].
    rewrite !elem_of_cons. split; [tauto|].
    intros [E|?]; [|tauto]. exfalso. apply Hid. congruence.
  - intros cap Hin. change (members id_b 1 []) with [(id_b, 1)] in Hin.
    apply list_elem_of_singleton in Hin. discriminate Hin.
Defined.
