(* ===== verification/Rebalance.v ===== *)
(** * Rebalancing

    [internal/cluster/rebalance.go], [rebalance_barrier.go] and
    [rebalance_execution.go]: the transition plan between two replica
    tables, the durable write barriers of moving shards, and the resumable
    execution of a plan's data-copy actions.  Files are written by the same
    temporary-file-and-rename sequence as the Raft state, with the same fault
    argument. *)
From Stdlib Require Import ZArith Lia Ascii String Sorting.Sorted.
From stdpp Require Import base tactics list gmap strings pretty.
From S2P Require Import Prelude Sha256 ClusterBase Core RaftStore Placement.
Local Open Scope string_scope.
Local Open Scope Z_scope.
Local Open Scope list_scope.
Import EncodeJson.

(** ** Plans *)

Inductive ActionType : Set :=
  | copy_snapshot
  | catch_up_wal
  | transfer_leadership
  | commit_placement
  | remove_replica
  | other_action (name : string).

Record RebalanceAction : Set := mkAction {
  act_ID : string;
  act_Type : ActionType;
  SourceID : string;
  TargetID : string;
  Requires : list string;
}.

Record ShardMovement : Set := mkMovement {
  mv_Collection : string;
  mv_ShardID : Z;
  SourceLeaderID : string;
  TargetLeaderID : string;
  SourceReplicas : list string;
  TargetReplicas : list string;
  Actions : list RebalanceAction;
}.

Record RebalancePlan : Set := mkPlan {
  FromEpoch : Z;
  ToEpoch : Z;
  plan_Authoritative : bool;
  Movements : list ShardMovement;
}.

#[global] Instance action_type_eq_dec : EqDecision ActionType.
Proof. solve_decision. Defined.
#[global] Instance action_eq_dec : EqDecision RebalanceAction.
Proof. solve_decision. Defined.
#[global] Instance movement_eq_dec : EqDecision ShardMovement.
Proof. solve_decision. Defined.
#[global] Instance plan_eq_dec : EqDecision RebalancePlan.
Proof. solve_decision. Defined.

Definition nul : string := String Ascii.zero EmptyString.

Definition shardKey (collection : string) (shardID : Z) : string :=
  collection +:+ nul +:+ decimal shardID.

Fixpoint equalReplicaIDs_loop (l r : list string) : bool :=
  match l, r with
  | a :: l, b :: r => if negb (String.eqb a b) then false else equalReplicaIDs_loop l r
  | _, _ => true
  end.

Definition equalReplicaIDs (l r : list string) : bool :=
  if negb (len l =? len r) then false else equalReplicaIDs_loop l r.

(** [for _, shard := range current.Shards] *)
Fixpoint index_shards (m : gmap string ShardReplicaPlacement) (shards : list ShardReplicaPlacement)
    : res (gmap string ShardReplicaPlacement) :=
  match shards with
  | [] => Ok m
  | shard :: rest =>
      let key := shardKey (srp_Collection shard) (srp_ShardID shard) in
      match m !! key with
      | Some _ => Err (Errorf "current placement contains duplicate shard")
      | None => index_shards (<[key := shard]> m) rest
      end
  end.

(** The order of the plan: collection, then shard. *)
Definition shard_ltb (a b : ShardReplicaPlacement) : bool :=
  str_ltb (srp_Collection a) (srp_Collection b)
  || String.eqb (srp_Collection a) (srp_Collection b) && (srp_ShardID a <? srp_ShardID b).

(** The two actions that bring a new replica up to date. *)
Definition copy_actions (base leader nodeID : string) : list RebalanceAction :=
  [mkAction (base +:+ "copy/" +:+ nodeID) copy_snapshot leader nodeID [];
   mkAction (base +:+ "catch-up/" +:+ nodeID) catch_up_wal leader nodeID [base +:+ "copy/" +:+ nodeID]].

(** The body of the loop over [targets] for a shard that changes. *)
Definition plan_movement (source destination : ShardReplicaPlacement) : ShardMovement :=
  let base := srp_Collection destination +:+ "/" +:+ decimal (srp_ShardID destination) +:+ "/" in
  let currentSet := stringSet (Replicas source) in
  let targetSet := stringSet (Replicas destination) in
  let added := filter (λ nodeID, nodeID ∉ currentSet) (Replicas destination) in
  let caughtUp := (λ nodeID, base +:+ "catch-up/" +:+ nodeID) <$> added in
  let transferID := base +:+ "transfer-leader/" +:+ LeaderID destination in
  let transfers := negb (String.eqb (LeaderID source) (LeaderID destination)) in
  let commitID := base +:+ "commit-placement" in
  let removed := filter (λ nodeID, nodeID ∉ targetSet) (Replicas source) in
  mkMovement (srp_Collection destination) (srp_ShardID destination) (LeaderID source) (LeaderID destination)
    (Replicas source) (Replicas destination)
    ((added ≫= copy_actions base (LeaderID source))
     ++ (if transfers then [mkAction transferID transfer_leadership (LeaderID source) (LeaderID destination) caughtUp]
         else [])
     ++ [mkAction commitID commit_placement "" "" (caughtUp ++ if transfers then [transferID] else [])]
     ++ ((λ nodeID, mkAction (base +:+ "remove/" +:+ nodeID) remove_replica "" nodeID [commitID]) <$> removed)).

Fixpoint plan_targets (current : gmap string ShardReplicaPlacement) (targets : list ShardReplicaPlacement)
    : res (gmap string ShardReplicaPlacement * list ShardMovement) :=
  match targets with
  | [] => Ok (current, [])
  | destination :: rest =>
      let key := shardKey (srp_Collection destination) (srp_ShardID destination) in
      match current !! key with
      | None => Err (Errorf "target contains unknown shard")
      | Some source =>
          let! '(left_over, movements) := plan_targets (delete key current) rest in
          if equalReplicaIDs (Replicas source) (Replicas destination)
             && String.eqb (LeaderID source) (LeaderID destination)
          then Ok (left_over, movements)
          else Ok (left_over, plan_movement source destination :: movements)
      end
  end.

Definition PlanRebalance (current target : ReplicaPlacementTable) : res RebalancePlan :=
  if (rpt_Epoch current =? 0) || (rpt_Epoch target <=? rpt_Epoch current)
  then Err (Errorf "target epoch must be newer than current epoch")
  else if negb (ReplicationFactor current =? ReplicationFactor target)
  then Err (Errorf "replication factor changes require a separate transition")
  else
    let! currentByShard := index_shards ∅ (rpt_Shards current) in
    let targets := sort_slice shard_ltb (rpt_Shards target) in
    let! '(left_over, movements) := plan_targets currentByShard targets in
    if negb (size left_over =? 0)%nat then Err (Errorf "target omits one or more current shards")
    else Ok (mkPlan (rpt_Epoch current) (rpt_Epoch target) false movements).

Definition set_capacity (p : Peer) (capacity : Z) : Peer :=
  mkPeer (SeedURL p) (peer_NodeID p) (peer_AdvertiseAddress p) capacity (peer_Healthy p).

(** [for index := range targetPeers]: the first peer with the target's
    identifier is changed; [None] when there is none. *)
Fixpoint retarget (targetNodeID : string) (targetCapacity : Z) (peers : list Peer) : res (option (list Peer)) :=
  match peers with
  | [] => Ok None
  | p :: rest =>
      if negb (String.eqb (peer_NodeID p) targetNodeID) then
        let! changed := retarget targetNodeID targetCapacity rest in
        Ok (cons p <$> changed)
      else if targetCapacity =? default_to 1 (peer_PlacementCapacity p)
      then Err (Errorf "target capacity must differ from current capacity")
      else Ok (Some (set_capacity p targetCapacity :: rest))
  end.

Definition PlanCapacityRebalance (epoch : Z) (localNodeID localAddress : string) (localCapacity : Z)
    (peers : list Peer) (collections : list CollectionConfig) (replicationFactor : Z)
    (targetNodeID : string) (targetCapacity : Z)
    : res (ReplicaPlacementTable * ReplicaPlacementTable * RebalancePlan) :=
  if negb (ValidNodeID targetNodeID) then Err (Errorf "valid capacity target node ID is required")
  else
    let! _ := validatePlacementCapacity targetCapacity in
    let! current := PlanReplicaPlacementWithCapacity epoch localNodeID localAddress localCapacity
                      peers collections replicationFactor in
    let! '(targetLocalCapacity, targetPeers) :=
      (if String.eqb targetNodeID localNodeID then
         if targetCapacity =? localCapacity
         then Err (Errorf "target capacity must differ from current capacity")
         else Ok (targetCapacity, peers)
       else
         let! changed := retarget targetNodeID targetCapacity peers in
         match changed with
         | Some peers' => Ok (localCapacity, peers')
         | None => Err (Errorf "capacity target node is not a cluster member")
         end) in
    let! target := PlanReplicaPlacementWithCapacity (u64 (epoch + 1)) localNodeID localAddress
                     targetLocalCapacity targetPeers collections replicationFactor in
    let! plan := PlanRebalance current target in
    Ok (current, target, plan).

(** ** Write barriers *)

Record RebalanceWriteBarrier : Set := mkBarrier {
  bar_PlanDigest : string;
  bar_Collection : string;
  bar_ShardID : Z;
  TargetEpoch : Z;
}.

#[global] Instance barrier_eq_dec : EqDecision RebalanceWriteBarrier.
Proof. solve_decision. Defined.

(** [bs_state] is the [Barriers] slice in memory and [bs_disk] the one in the
    file, [None] before the first write; the format number is always 1. *)
Record RebalanceBarrierStore : Set := mkBarrierStore {
  bs_state : list RebalanceWriteBarrier;
  bs_disk : option (list RebalanceWriteBarrier);
}.

Definition barrierKey (collection : string) (shardID : Z) : string :=
  collection +:+ nul +:+ decimal shardID.

Definition barrier_valid (b : RebalanceWriteBarrier) : bool :=
  validDigest (bar_PlanDigest b) && negb (String.eqb (bar_Collection b) "") && negb (TargetEpoch b <? 2).

Fixpoint check_barriers (seen : gset string) (barriers : list RebalanceWriteBarrier) : res unit :=
  match barriers with
  | [] => Ok tt
  | b :: rest =>
      if negb (barrier_valid b) then Err (Errorf "invalid rebalance write barrier")
      else
        let key := barrierKey (bar_Collection b) (bar_ShardID b) in
        if bool_decide (key ∈ seen) then Err (Errorf "duplicate rebalance write barrier")
        else check_barriers ({[key]} ∪ seen) rest
  end.

(** The state file; an empty slice of barriers is never nil. *)
Definition json_barrier (b : RebalanceWriteBarrier) : string :=
  json_object
    [json_field "plan_digest" (json_string (bar_PlanDigest b));
     json_field "collection" (json_string (bar_Collection b));
     json_field "shard_id" (decimal (bar_ShardID b));
     json_field "target_epoch" (decimal (TargetEpoch b))].

Definition json_barrier_state (barriers : list RebalanceWriteBarrier) : string :=
  json_object
    [json_field "format" (decimal 1);
     json_field "barriers" (json_array (json_barrier <$> barriers))].

Definition OpenRebalanceBarrierStore (file : option (list RebalanceWriteBarrier)) : res RebalanceBarrierStore :=
  match file with
  | None => Ok (mkBarrierStore [] None)
  | Some stored =>
      let! barriers := decode_limited (json_barrier_state stored) stored in
      let! _ := check_barriers ∅ barriers in Ok (mkBarrierStore barriers file)
  end.

(** Whether the rename of a faulty write took place, as in [persistLocked]. *)
Definition renamed (fault : option PersistStep) : bool :=
  match fault with
  | None | Some StepOpenDirectory | Some StepSyncDirectory => true
  | _ => false
  end.

Definition written {A} (fault : option PersistStep) (v : A) : res A :=
  match fault with None => Ok v | Some _ => Err (IOError "persist") end.

Definition bs_persistLocked (fault : option PersistStep) (barriers : list RebalanceWriteBarrier)
    (disk : option (list RebalanceWriteBarrier)) : RebalanceBarrierStore * res unit :=
  (mkBarrierStore barriers (if renamed fault then Some barriers else disk), written fault tt).

Definition same_shard (a b : RebalanceWriteBarrier) : bool :=
  String.eqb (bar_Collection a) (bar_Collection b) && (bar_ShardID a =? bar_ShardID b).

Fixpoint find_barrier (collection : string) (shardID : Z) (barriers : list RebalanceWriteBarrier)
    : option RebalanceWriteBarrier :=
  match barriers with
  | [] => None
  | b :: rest =>
      if String.eqb (bar_Collection b) collection && (bar_ShardID b =? shardID) then Some b
      else find_barrier collection shardID rest
  end.

Definition barrier_ltb (a b : RebalanceWriteBarrier) : bool :=
  str_ltb (bar_Collection a) (bar_Collection b)
  || String.eqb (bar_Collection a) (bar_Collection b) && (bar_ShardID a <? bar_ShardID b).

Definition Freeze (fault : option PersistStep) (s : RebalanceBarrierStore) (barrier : RebalanceWriteBarrier)
    : RebalanceBarrierStore * res unit :=
  if negb (barrier_valid barrier) then (s, Err (Errorf "valid rebalance write barrier is required"))
  else match find_barrier (bar_Collection barrier) (bar_ShardID barrier) (bs_state s) with
  | Some existing =>
      if bool_decide (existing = barrier) then (s, Ok tt)
      else (s, Err (Errorf "shard already frozen by a different rebalance plan"))
  | None => bs_persistLocked fault (sort_slice barrier_ltb (bs_state s ++ [barrier])) (bs_disk s)
  end.

Definition IsFrozen (s : RebalanceBarrierStore) (collection : string) (shardID : Z)
    : option RebalanceWriteBarrier :=
  find_barrier collection shardID (bs_state s).

Definition ReleaseCommitted (fault : option PersistStep) (s : RebalanceBarrierStore) (committedEpoch : Z)
    : RebalanceBarrierStore * res unit :=
  bs_persistLocked fault (filter (λ b, committedEpoch < TargetEpoch b) (bs_state s)) (bs_disk s).

Definition ReleasePlan (fault : option PersistStep) (s : RebalanceBarrierStore) (planDigest : string)
    : RebalanceBarrierStore * res unit :=
  if negb (validDigest planDigest) then (s, Err (Errorf "valid rebalance plan digest is required"))
  else bs_persistLocked fault (filter (λ b, bar_PlanDigest b ≠ planDigest) (bs_state s)) (bs_disk s).

(** ** The digest of a plan *)

Definition action_type_name (t : ActionType) : string :=
  match t with
  | copy_snapshot => "copy_snapshot"
  | catch_up_wal => "catch_up_wal"
  | transfer_leadership => "transfer_leadership"
  | commit_placement => "commit_placement"
  | remove_replica => "remove_replica"
  | other_action name => name
  end.

Definition json_action (a : RebalanceAction) : string :=
  json_object ([json_field "id" (json_string (act_ID a));
                json_field "type" (json_string (action_type_name (act_Type a)))]
    ++ json_string_omitempty "source_id" (SourceID a)
    ++ json_string_omitempty "target_id" (TargetID a)
    ++ json_strings_omitempty "requires" (Requires a)).

Definition json_movement (m : ShardMovement) : string :=
  json_object
    [json_field "collection" (json_string (mv_Collection m));
     json_field "shard_id" (decimal (mv_ShardID m));
     json_field "source_leader_id" (json_string (SourceLeaderID m));
     json_field "target_leader_id" (json_string (TargetLeaderID m));
     json_field "source_replicas" (json_strings (SourceReplicas m));
     json_field "target_replicas" (json_strings (TargetReplicas m));
     json_field "actions" (match Actions m with [] => "null" | l => json_array (json_action <$> l) end)].

Definition json_plan (p : RebalancePlan) : string :=
  json_object
    [json_field "from_epoch" (decimal (FromEpoch p));
     json_field "to_epoch" (decimal (ToEpoch p));
     json_field "authoritative" (if plan_Authoritative p then "true" else "false");
     json_field "movements" (json_array (json_movement <$> Movements p))].

(** ** Execution *)

Definition plan_actions (p : RebalancePlan) : list RebalanceAction := Movements p ≫= Actions.

Definition is_data_action (a : RebalanceAction) : bool :=
  bool_decide (act_Type a = copy_snapshot) || bool_decide (act_Type a = catch_up_wal).

(** The first pair of loops of [validateExecutionPlan]. *)
Fixpoint check_actions (all required : gset string) (actions : list RebalanceAction)
    : res (gset string * gset string) :=
  match actions with
  | [] => Ok (all, required)
  | a :: rest =>
      if String.eqb (act_ID a) "" then Err (Errorf "rebalance action ID is required")
      else if bool_decide (act_ID a ∈ all) then Err (Errorf "duplicate rebalance action ID")
      else if is_data_action a then
        if negb (ValidNodeID (SourceID a)) || negb (ValidNodeID (TargetID a))
           || String.eqb (SourceID a) (TargetID a)
        then Err (Errorf "invalid data movement action")
        else check_actions ({[act_ID a]} ∪ all) ({[act_ID a]} ∪ required) rest
      else check_actions ({[act_ID a]} ∪ all) required rest
  end.

Definition known_dependencies (all : gset string) (actions : list RebalanceAction) : bool :=
  forallb (λ a, forallb (λ d, bool_decide (d ∈ all)) (Requires a)) actions.

Definition validateExecutionPlan (plan : RebalancePlan) : res (string * gset string) :=
  if (FromEpoch plan =? 0) || (ToEpoch plan <=? FromEpoch plan) || plan_Authoritative plan
  then Err (Errorf "valid non-authoritative next-epoch rebalance plan is required")
  else
    let! '(all, required) := check_actions ∅ ∅ (plan_actions plan) in
    if negb (known_dependencies all (plan_actions plan))
    then Err (Errorf "rebalance action has unknown dependency")
    else Ok (hex_EncodeToString (sha256_Sum256 (string_bytes (json_plan plan))), required).

Definition RebalancePlanDigest (plan : RebalancePlan) : res string :=
  let! '(digest, _) := validateExecutionPlan plan in Ok digest.

Record RebalancePreparation : Set := mkPreparation {
  prep_Format : Z;
  prep_PlanDigest : string;
  prep_FromEpoch : Z;
  prep_ToEpoch : Z;
  Completed : list string;
  ReadyForCutover : bool;
}.

Definition no_preparation : RebalancePreparation := mkPreparation 0 "" 0 0 [] false.

Definition set_completed (p : RebalancePreparation) (completed : list string) : RebalancePreparation :=
  mkPreparation (prep_Format p) (prep_PlanDigest p) (prep_FromEpoch p) (prep_ToEpoch p) completed
    (ReadyForCutover p).
Definition set_ready (p : RebalancePreparation) (ready : bool) : RebalancePreparation :=
  mkPreparation (prep_Format p) (prep_PlanDigest p) (prep_FromEpoch p) (prep_ToEpoch p) (Completed p) ready.

(** [ex_disk] is the content of the state file, if it exists. *)
Record RebalanceExecutor : Set := mkExecutor {
  ex_state : RebalancePreparation;
  ex_disk : option RebalancePreparation;
}.

Fixpoint check_completed (seen : gset string) (completed : list string) : res unit :=
  match completed with
  | [] => Ok tt
  | actionID :: rest =>
      if String.eqb actionID "" then Err (Errorf "invalid completed rebalance action")
      else if bool_decide (actionID ∈ seen) then Err (Errorf "duplicate completed rebalance action")
      else check_completed ({[actionID]} ∪ seen) rest
  end.

Definition validatePreparation (p : RebalancePreparation) : res unit :=
  if negb (prep_Format p =? 1) || negb (validDigest (prep_PlanDigest p)) || (prep_FromEpoch p =? 0)
     || (prep_ToEpoch p <=? prep_FromEpoch p)
  then Err (Errorf "invalid rebalance state")
  else check_completed ∅ (Completed p).

(** The state file; [Completed] is never nil once a preparation has begun. *)
Definition json_preparation (p : RebalancePreparation) : string :=
  json_object
    [json_field "format" (decimal (prep_Format p));
     json_field "plan_digest" (json_string (prep_PlanDigest p));
     json_field "from_epoch" (decimal (prep_FromEpoch p));
     json_field "to_epoch" (decimal (prep_ToEpoch p));
     json_field "completed" (json_array (json_string <$> Completed p));
     json_field "ready_for_cutover" (if ReadyForCutover p then "true" else "false")].

Definition OpenRebalanceExecutor (file : option RebalancePreparation) : res RebalanceExecutor :=
  match file with
  | None => Ok (mkExecutor no_preparation None)
  | Some stored =>
      let! p := decode_limited (json_preparation stored) stored in
      let! _ := validatePreparation p in Ok (mkExecutor p file)
  end.

Definition Status (e : RebalanceExecutor) : option RebalancePreparation :=
  if prep_Format (ex_state e) =? 0 then None else Some (ex_state e).

Definition Ready (e : RebalanceExecutor) (plan : RebalancePlan) : res bool :=
  let! '(digest, _) := validateExecutionPlan plan in
  Ok ((prep_Format (ex_state e) =? 1) && String.eqb (prep_PlanDigest (ex_state e)) digest
      && ReadyForCutover (ex_state e)).

Definition ex_persistLocked (fault : option PersistStep) (e : RebalanceExecutor) : RebalanceExecutor * res unit :=
  (mkExecutor (ex_state e) (if renamed fault then Some (ex_state e) else ex_disk e), written fault tt).

(** What happens around one data movement: the context is cancelled first,
    the mover fails, or the write of the journal fails. *)
Record MoveOutcome : Set := mkMove {
  cancelled : bool;
  move_fails : bool;
  move_fault : option PersistStep;
}.

(** A call of the mover for an action, and whether it returned nil. *)
Definition MoverCall : Set := RebalanceAction * bool.

(** The loops over movements and actions.  [outcomes] gives what happens to
    the movements attempted, in order; past its end they succeed.  The last
    component lists the calls of the mover. *)
Fixpoint run_actions (outcomes : list MoveOutcome) (e : RebalanceExecutor) (completed : gset string)
    (actions : list RebalanceAction) : RebalanceExecutor * gset string * option error * list MoverCall :=
  match actions with
  | [] => (e, completed, None, [])
  | a :: rest =>
      if negb (is_data_action a) then run_actions outcomes e completed rest
      else if bool_decide (act_ID a ∈ completed) then run_actions outcomes e completed rest
      else if negb (forallb (λ d, bool_decide (d ∈ completed)) (Requires a))
      then (e, completed, Some (Errorf "rebalance action has incomplete dependency"), [])
      else
        let o := default (mkMove false false None) (head outcomes) in
        if cancelled o then (e, completed, Some (IOError "context"), [])
        else if move_fails o then (e, completed, Some (IOError "mover"), [(a, false)])
        else
          let completed' := {[act_ID a]} ∪ completed in
          let e1 := mkExecutor (set_completed (ex_state e) (Completed (ex_state e) ++ [act_ID a])) (ex_disk e) in
          let (e2, r) := ex_persistLocked (move_fault o) e1 in
          match r with
          | Err err => (e2, completed', Some err, [(a, true)])
          | Ok _ =>
              let '(e3, completed'', failed, calls) := run_actions (tail outcomes) e2 completed' rest in
              (e3, completed'', failed, (a, true) :: calls)
          end
  end.

(** [first] and [last] are the faults of the first and the last write. *)
Definition Prepare (first last : option PersistStep) (outcomes : list MoveOutcome) (e : RebalanceExecutor)
    (plan : RebalancePlan) : RebalanceExecutor * res RebalancePreparation * list MoverCall :=
  match validateExecutionPlan plan with
  | Err err => (e, Err err, [])
  | Ok (digest, required) =>
      let started :=
        if prep_Format (ex_state e) =? 0 then
          let e1 := mkExecutor (mkPreparation 1 digest (FromEpoch plan) (ToEpoch plan) [] false) (ex_disk e) in
          let (e2, r) := ex_persistLocked first e1 in
          match r with
          | Err err => (mkExecutor no_preparation (ex_disk e2), Some err)
          | Ok _ => (e2, None)
          end
        else if negb (String.eqb (prep_PlanDigest (ex_state e)) digest)
                || negb (prep_FromEpoch (ex_state e) =? FromEpoch plan)
                || negb (prep_ToEpoch (ex_state e) =? ToEpoch plan)
        then (e, Some (Errorf "a different rebalance plan is already prepared or in progress"))
        else (e, None) in
      match started with
      | (e1, Some err) => (e1, Err err, [])
      | (e1, None) =>
          let '(e2, completed, failed, calls) :=
            run_actions outcomes e1 (stringSet (Completed (ex_state e1))) (plan_actions plan) in
          match failed with
          | Some err => (e2, Err err, calls)
          | None =>
              let ready := bool_decide (required ⊆ completed) in
              let (e3, r) := ex_persistLocked last (mkExecutor (set_ready (ex_state e2) ready) (ex_disk e2)) in
              (e3, (let! _ := r in Ok (ex_state e3)), calls)
          end
      end
  end.

(** [removes] tells whether deleting the state file succeeds. *)
Definition clear_state (removes : bool) (e : RebalanceExecutor) : RebalanceExecutor * res unit :=
  if removes then (mkExecutor no_preparation None, Ok tt) else (e, Err (IOError "remove")).

Definition ResetCommitted (removes : bool) (e : RebalanceExecutor) (committedEpoch : Z)
    : RebalanceExecutor * res unit :=
  if prep_Format (ex_state e) =? 0 then (e, Ok tt)
  else if negb (ReadyForCutover (ex_state e)) || (committedEpoch <? prep_ToEpoch (ex_state e))
  then (e, Err (Errorf "rebalance preparation has not reached committed cutover"))
  else clear_state removes e.

Definition Abort_ (removes : bool) (e : RebalanceExecutor) (plan : RebalancePlan) : RebalanceExecutor * res unit :=
  match validateExecutionPlan plan with
  | Err err => (e, Err err)
  | Ok (digest, _) =>
      if prep_Format (ex_state e) =? 0 then (e, Ok tt)
      else if negb (String.eqb (prep_PlanDigest (ex_state e)) digest)
      then (e, Err (Errorf "active rebalance preparation does not match abort plan"))
      else clear_state removes e
  end.
