(* ===== verification/RebalanceProofs.v ===== *)
(** * Properties of rebalancing

    Plans are executable in order and never drop below the target replicas;
    write barriers hold until their epoch commits; preparation is
    resumable. *)
From Stdlib Require Import ZArith Lia Ascii String Sorting.Sorted.
From stdpp Require Import base tactics list gmap strings pretty.
From S2P Require Import Prelude Sha256 ClusterBase Core RaftStore Placement Rebalance.
Local Open Scope string_scope.
Local Open Scope Z_scope.
Local Open Scope list_scope.
Import EncodeJson.
Local Set Warnings "-clear-no-such-hyp".

(** ** Executing a movement *)

(** What the cluster holds of one shard while a movement is carried out: who
    has a copy, whose copy is up to date, who leads, and whether the target
    placement is committed. *)
Record MoveState : Set := mkMoveState {
  copied : gset string;
  current_ : gset string;
  leader_ : string;
  committed_ : bool;
}.

(** One action, [None] when it would be unsafe: catching up a node without a
    copy, handing leadership to a stale node, committing a placement some
    replica of which is stale, or removing a replica before the commit or one
    the target still needs. *)
Definition exec_action (m : ShardMovement) (s : MoveState) (a : RebalanceAction) : option MoveState :=
  match act_Type a with
  | copy_snapshot => Some (mkMoveState ({[TargetID a]} ∪ copied s) (current_ s) (leader_ s) (committed_ s))
  | catch_up_wal =>
      if bool_decide (TargetID a ∈ copied s)
      then Some (mkMoveState (copied s) ({[TargetID a]} ∪ current_ s) (leader_ s) (committed_ s)) else None
  | transfer_leadership =>
      if bool_decide (TargetID a ∈ current_ s)
      then Some (mkMoveState (copied s) (current_ s) (TargetID a) (committed_ s)) else None
  | commit_placement =>
      if bool_decide (stringSet (TargetReplicas m) ⊆ current_ s) && String.eqb (leader_ s) (TargetLeaderID m)
      then Some (mkMoveState (copied s) (current_ s) (leader_ s) true) else None
  | remove_replica =>
      if committed_ s && bool_decide (TargetID a ∉ stringSet (TargetReplicas m))
         && negb (String.eqb (TargetID a) (leader_ s))
      then Some (mkMoveState (copied s ∖ {[TargetID a]}) (current_ s ∖ {[TargetID a]}) (leader_ s) (committed_ s))
      else None
  | other_action _ => None
  end.

Fixpoint exec_actions (m : ShardMovement) (s : MoveState) (actions : list RebalanceAction) : option MoveState :=
  match actions with
  | [] => Some s
  | a :: rest => match exec_action m s a with Some s' => exec_actions m s' rest | None => None end
  end.

Lemma exec_app m s l k :
  exec_actions m s (l ++ k) = match exec_actions m s l with Some s' => exec_actions m s' k | None => None end.
Proof.
  revert s. induction l as [|a l IH]; intros s; simpl; [done|].
  destruct (exec_action m s a); [apply IH|done].
Qed.

Lemma elem_of_rev {A} (x : A) l : x ∈ rev l ↔ x ∈ l.
Proof. by rewrite !list_elem_of_In, <-in_rev. Qed.

Lemma exec_copies m base leader added s :
  exec_actions m s (added ≫= copy_actions base leader)
  = Some (mkMoveState (list_to_set (rev added) ∪ copied s) (list_to_set (rev added) ∪ current_ s)
            (leader_ s) (committed_ s)).
Proof.
  revert s. induction added as [|n added IH]; intros s.
  { simpl. f_equal. destruct s; simpl. f_equal; by rewrite (left_id_L ∅ (∪)). }
  rewrite bind_cons, exec_app. unfold copy_actions at 1. cbn [exec_actions].
  unfold exec_action. cbn [act_Type TargetID copied current_ leader_ committed_].
  rewrite bool_decide_true by set_solver. rewrite IH. cbn [copied current_ leader_ committed_].
  cbn [rev]. rewrite !list_to_set_app_L. f_equal. f_equal; set_solver.
Qed.

Lemma exec_removals m base commit removed s :
  committed_ s = true → (∀ n, n ∈ removed → (n ∉ stringSet (TargetReplicas m)) ∧ n ≠ leader_ s) →
  exec_actions m s ((λ n, mkAction (base +:+ ("remove/" +:+ n)) remove_replica "" n [commit]) <$> removed)
  = Some (mkMoveState (copied s ∖ list_to_set removed) (current_ s ∖ list_to_set removed) (leader_ s) true).
Proof.
  intros Hc. revert s Hc. induction removed as [|n removed IH]; intros s Hc Hr.
  { simpl. f_equal. destruct s; simpl in *; subst. f_equal; set_solver. }
  rewrite fmap_cons. cbn [exec_actions]. unfold exec_action. cbn [act_Type TargetID]. rewrite Hc.
  destruct (Hr n (list_elem_of_here _ _)) as [Hn1 Hn2].
  rewrite bool_decide_true by done. rewrite (proj2 (String.eqb_neq _ _)) by done. cbn [andb negb].
  rewrite IH; cbn [committed_ leader_ copied current_]; [|done|].
  - f_equal. rewrite list_to_set_cons. f_equal; set_solver.
  - intros k Hk. apply Hr. by apply list_elem_of_further.
Qed.

Definition move_start (m : ShardMovement) : MoveState :=
  mkMoveState (stringSet (SourceReplicas m)) (stringSet (SourceReplicas m)) (SourceLeaderID m) false.
Definition move_goal (m : ShardMovement) : MoveState :=
  mkMoveState (stringSet (TargetReplicas m)) (stringSet (TargetReplicas m)) (TargetLeaderID m) true.

Lemma movement_executes source destination :
  LeaderID destination ∈ Replicas destination →
  let m := plan_movement source destination in exec_actions m (move_start m) (Actions m) = Some (move_goal m).
Proof.
  intros Hlead m. unfold m at 3. unfold plan_movement. cbv zeta. cbn [Actions].
  set (added := filter _ (Replicas destination)). set (removed := filter _ (Replicas source)).
  rewrite exec_app, exec_copies. unfold move_start.
  change (SourceReplicas m) with (Replicas source). change (SourceLeaderID m) with (LeaderID source).
  cbn [copied current_ leader_ committed_].
  set (held := list_to_set (rev added) ∪ stringSet (Replicas source)).
  assert (stringSet (Replicas destination) ⊆ held) as Hheld.
  { intros x Hx. unfold held, stringSet in *. rewrite elem_of_union, !elem_of_list_to_set in *.
    destruct (decide (x ∈ Replicas source)) as [?|Hn]; [by right|left].
    rewrite elem_of_rev. unfold added. apply list_elem_of_filter. split; [|done]. by rewrite elem_of_list_to_set. }
  assert (LeaderID destination ∈ held) as Hl by (by apply Hheld, elem_of_list_to_set).
  assert (held ∖ list_to_set removed = stringSet (Replicas destination)) as Hfinal.
  { apply set_eq. intros x. unfold held, added, removed, stringSet in *.
    rewrite elem_of_difference, elem_of_union, !elem_of_list_to_set, elem_of_rev, !list_elem_of_filter.
    rewrite !elem_of_list_to_set.
    destruct (decide (x ∈ Replicas source)), (decide (x ∈ Replicas destination)); tauto. }
  rewrite exec_app.
  assert (exec_actions m (mkMoveState held held (LeaderID source) false)
    (if negb (String.eqb (LeaderID source) (LeaderID destination))
     then [mkAction ((srp_Collection destination +:+ "/" +:+ decimal (srp_ShardID destination) +:+ "/")
             +:+ "transfer-leader/" +:+ LeaderID destination) transfer_leadership (LeaderID source) (LeaderID destination)
             ((λ n, (srp_Collection destination +:+ "/" +:+ decimal (srp_ShardID destination) +:+ "/")
                +:+ "catch-up/" +:+ n) <$> added)] else [])
    = Some (mkMoveState held held (LeaderID destination) false)) as ->.
  { destruct (String.eqb (LeaderID source) (LeaderID destination)) eqn:E; cbn [negb exec_actions].
    - apply String.eqb_eq in E. by rewrite E.
    - unfold exec_action. cbn [act_Type TargetID copied current_ leader_ committed_].
      by rewrite bool_decide_true. }
  rewrite exec_app. cbn [exec_actions]. unfold exec_action at 1.
  cbn [act_Type TargetID copied current_ leader_ committed_].
  change (TargetReplicas m) with (Replicas destination). change (TargetLeaderID m) with (LeaderID destination).
  rewrite bool_decide_true by done. rewrite String.eqb_refl. cbn [andb].
  rewrite exec_removals; cbn [copied current_ leader_ committed_]; [|done|].
  - unfold move_goal. change (TargetReplicas m) with (Replicas destination). by rewrite !Hfinal.
  - intros n Hn. unfold removed in Hn. apply list_elem_of_filter in Hn as [Hn _].
    change (TargetReplicas m) with (Replicas destination). split; [done|]. intros ->.
    apply Hn. by apply elem_of_list_to_set.
Qed.

(** ** Shard keys *)

Lemma nul_split a b x y :
  no_nul x = true → no_nul y = true → a +:+ nul +:+ x = b +:+ nul +:+ y → a = b ∧ x = y.
Proof.
  intros Hx Hy. revert b. induction a as [|c a IH]; intros [|d b] H;
    rewrite ?append_cons, ?append_nil in H.
  - split; [done|]. unfold nul in H. rewrite !append_cons, !append_nil in H. congruence.
  - unfold nul in H at 1. rewrite append_cons, append_nil in H.
    assert (x = b +:+ nul +:+ y) as E by congruence.
    rewrite E, no_nul_app in Hx. by rewrite andb_false_r in Hx.
  - unfold nul in H at 2. rewrite append_cons, append_nil in H.
    assert (y = a +:+ nul +:+ x) as E by congruence.
    rewrite E, no_nul_app in Hy. by rewrite andb_false_r in Hy.
  - destruct (IH b) as [-> ->]; [congruence|]. split; [|done]. congruence.
Qed.

Lemma pretty_N_no_nul (n : N) : no_nul (pretty n) = true.
Proof.
  assert (∀ x s, no_nul s = true → no_nul (pretty_N_go x s) = true) as Hgo.
  { induction x as [x IH] using (well_founded_induction N.lt_wf_0). intros s Hs.
    destruct (decide (0 < x)%N) as [Hx|Hx].
    - rewrite pretty_N_go_step by done. apply IH; [apply N.div_lt; lia|].
      simpl. rewrite Hs. unfold pretty_N_char. by repeat case_match.
    - assert (x = 0%N) as -> by lia. by rewrite pretty_N_go_0. }
  unfold pretty, pretty_N. case_decide; [done|]. by apply Hgo.
Qed.

Lemma shardKey_inj c i c' i' :
  0 ≤ i → 0 ≤ i' → shardKey c i = shardKey c' i' → c = c' ∧ i = i'.
Proof.
  intros Hi Hi' H. unfold shardKey in H. apply nul_split in H as [-> H]; try apply pretty_N_no_nul.
  split; [done|]. unfold decimal in H. apply (inj pretty) in H. lia.
Qed.

(** ** What a plan covers *)

Lemma equalReplicaIDs_eq l r : equalReplicaIDs l r = true → l = r.
Proof.
  unfold equalReplicaIDs. destruct (len l =? len r) eqn:E; [|done]. bool_props. cbn [negb].
  revert r E. induction l as [|a l IH]; intros [|b r] E; try done; unfold len in E; simpl in E.
  simpl. destruct (String.eqb a b) eqn:Ea; [|done]. apply String.eqb_eq in Ea as ->. simpl. intros H.
  f_equal. apply IH; [unfold len; lia|done].
Qed.

Definition key_of (p : ShardReplicaPlacement) : string := shardKey (srp_Collection p) (srp_ShardID p).

Lemma index_shards_ok m shards m' :
  index_shards m shards = Ok m' →
  ∀ k p, m' !! k = Some p ↔ (m !! k = Some p ∨ p ∈ shards ∧ key_of p = k).
Proof.
  revert m. induction shards as [|s shards IH]; intros m; cbn [index_shards].
  { intros [= <-] k p. split; [by left|]. intros [?|[H _]]; [done|by apply not_elem_of_nil in H]. }
  fold (key_of s). destruct (m !! key_of s) eqn:E; [done|]. intros H k p.
  rewrite (IH _ H k p), lookup_insert_Some, elem_of_cons. split.
  - intros [[[<- <-]|[_ ?]]|[? ?]]; auto.
  - intros [Hk|[[->|?] <-]]; auto. left. right. split; [|done]. intros <-. congruence.
Qed.

Lemma plan_targets_ok current targets left_over movements :
  plan_targets current targets = Ok (left_over, movements) →
  (∀ m, m ∈ movements → ∃ s d, d ∈ targets ∧ m = plan_movement s d)
  ∧ (∀ d, d ∈ targets → ∃ s, current !! key_of d = Some s
       ∧ (Replicas s = Replicas d ∧ LeaderID s = LeaderID d ∨ plan_movement s d ∈ movements))
  ∧ (∀ k s, current !! k = Some s → left_over !! k = None → ∃ d, d ∈ targets ∧ key_of d = k).
Proof.
  revert current left_over movements. induction targets as [|d targets IH]; intros current left_over movements;
    cbn [plan_targets].
  { intros [= <- <-]. split_and!.
    - intros m H. by apply not_elem_of_nil in H.
    - intros d H. by apply not_elem_of_nil in H.
    - congruence. }
  fold (key_of d). destruct (current !! key_of d) as [s|] eqn:Es; [|done].
  destruct (plan_targets (delete (key_of d) current) targets) as [[lo ms]|] eqn:Ep; [|done]. cbn [res_bind].
  destruct (IH _ _ _ Ep) as (IH1 & IH2 & IH3).
  assert (∀ k s', current !! k = Some s' → lo !! k = None → ∃ d', d' ∈ d :: targets ∧ key_of d' = k) as Hcov.
  { intros k s' Hk Hlo. destruct (decide (key_of d = k)) as [<-|Hne].
    - exists d. split; [apply list_elem_of_here|done].
    - destruct (IH3 k s') as (d' & Hd' & E); [by rewrite lookup_delete_ne|done|].
      exists d'. split; [by apply list_elem_of_further|done]. }
  assert (∀ ms' : list ShardMovement, (∀ m, m ∈ ms → m ∈ ms') → ∀ d', d' ∈ targets → ∃ s0, current !! key_of d' = Some s0
    ∧ (Replicas s0 = Replicas d' ∧ LeaderID s0 = LeaderID d' ∨ plan_movement s0 d' ∈ ms')) as Hrest.
  { intros ms' Hms d' Hd'. destruct (IH2 d' Hd') as (s0 & Hs0 & Hor).
    apply lookup_delete_Some in Hs0 as [_ Hs0]. exists s0. split; [done|]. destruct Hor; auto. }
  destruct (_ && _) eqn:Eeq; intros [= <- <-]; (split; [|split; [|exact Hcov]]).
  - intros m Hm. destruct (IH1 m Hm) as (s0 & d0 & Hd0 & ->). eauto using list_elem_of_further.
  - intros d' [->|Hd']%elem_of_cons; [|by apply Hrest]. exists s. split; [done|]. left.
    bool_props. match goal with H : equalReplicaIDs _ _ = true |- _ => apply equalReplicaIDs_eq in H end.
    match goal with H : String.eqb _ _ = true |- _ => apply String.eqb_eq in H end. done.
  - intros m [->|Hm]%elem_of_cons.
    + exists s, d. split; [apply list_elem_of_here|done].
    + destruct (IH1 m Hm) as (s0 & d0 & Hd0 & ->). eauto using list_elem_of_further.
  - intros d' [->|Hd']%elem_of_cons.
    + exists s. split; [done|]. right. apply list_elem_of_here.
    + apply Hrest; [|done]. intros m Hm. by apply list_elem_of_further.
Qed.

Lemma plan_rebalance_ok current target plan :
  PlanRebalance current target = Ok plan →
  (∀ m, m ∈ Movements plan → ∃ s d, d ∈ rpt_Shards target ∧ m = plan_movement s d)
  ∧ (∀ d, d ∈ rpt_Shards target → ∃ s, s ∈ rpt_Shards current ∧ key_of s = key_of d
       ∧ (Replicas s = Replicas d ∧ LeaderID s = LeaderID d ∨ plan_movement s d ∈ Movements plan))
  ∧ (∀ s, s ∈ rpt_Shards current → ∃ d, d ∈ rpt_Shards target ∧ key_of d = key_of s)
  ∧ FromEpoch plan = rpt_Epoch current ∧ ToEpoch plan = rpt_Epoch target.
Proof.
  unfold PlanRebalance. destruct (_ || _); [done|]. destruct (negb _); [done|].
  destruct (index_shards ∅ (rpt_Shards current)) as [m|] eqn:Ei; [|done]. cbn [res_bind].
  destruct (plan_targets m _) as [[lo ms]|] eqn:Et; [|done]. cbn [res_bind].
  destruct (negb _) eqn:El; [done|]. intros [= <-]. cbn [Movements FromEpoch ToEpoch].
  apply negb_false_iff, Nat.eqb_eq, map_size_empty_inv in El as ->.
  pose proof (index_shards_ok _ _ _ Ei) as Hi.
  destruct (plan_targets_ok _ _ _ _ Et) as (H1 & H2 & H3). split_and!; [| | |done|done].
  - intros mv Hmv. destruct (H1 mv Hmv) as (s & d & Hd & ->). rewrite sort_slice_elem in Hd. eauto.
  - intros d Hd. rewrite <-(sort_slice_elem shard_ltb) in Hd. destruct (H2 d Hd) as (s & Hs & Hor).
    apply Hi in Hs as [Hs|[Hs Hk]]; [by rewrite lookup_empty in Hs|]. eauto.
  - intros s Hs. destruct (H3 (key_of s) s) as (d & Hd & E); [apply Hi; auto|apply lookup_empty|].
    rewrite sort_slice_elem in Hd. eauto.
Qed.

(** C32. A plan is safe to carry out in order: for every movement, no action
    precedes what it needs (a copy before catch-up, an up-to-date node before
    leadership, every target replica current before the commit, the commit
    before any removal), and carrying all of them out turns the source
    replicas and leader into exactly the target's. *)
Theorem plan_executes_safely current target plan m :
  PlanRebalance current target = Ok plan →
  (∀ d, d ∈ rpt_Shards target → LeaderID d ∈ Replicas d) →
  m ∈ Movements plan → exec_actions m (move_start m) (Actions m) = Some (move_goal m).
Proof.
  intros Hp Hlead Hm. destruct (plan_rebalance_ok _ _ _ Hp) as (H1 & _).
  destruct (H1 m Hm) as (s & d & Hd & ->). apply movement_executes. auto.
Qed.

(** A plan accounts for every shard: the two tables place the same shards,
    and each one either keeps its replicas and leader or has the movement
    from its current to its target placement in the plan. *)
Theorem plan_covers_all_shards current target plan :
  PlanRebalance current target = Ok plan →
  (∀ p, p ∈ rpt_Shards current ∨ p ∈ rpt_Shards target → 0 ≤ srp_ShardID p) →
  (∀ d, d ∈ rpt_Shards target → ∃ s, s ∈ rpt_Shards current
     ∧ srp_Collection s = srp_Collection d ∧ srp_ShardID s = srp_ShardID d
     ∧ (Replicas s = Replicas d ∧ LeaderID s = LeaderID d ∨ plan_movement s d ∈ Movements plan))
  ∧ (∀ s, s ∈ rpt_Shards current → ∃ d, d ∈ rpt_Shards target
     ∧ srp_Collection d = srp_Collection s ∧ srp_ShardID d = srp_ShardID s).
Proof.
  intros Hp Hid. destruct (plan_rebalance_ok _ _ _ Hp) as (_ & H2 & H3 & _). split.
  - intros d Hd. destruct (H2 d Hd) as (s & Hs & Hk & Hor).
    apply shardKey_inj in Hk as [E1 E2]; auto. exists s. auto.
  - intros s Hs. destruct (H3 s Hs) as (d & Hd & Hk).
    apply shardKey_inj in Hk as [E1 E2]; auto. exists d. auto.
Qed.

(** ** Witnesses *)

Definition rb_a : string := "0000000000000000000000000000000a".
Definition rb_b : string := "0000000000000000000000000000000b".
Definition rb_c : string := "0000000000000000000000000000000c".
Definition table_now : ReplicaPlacementTable :=
  mkReplicaTable 1 false 2 [] [mkReplicaPlacement "docs" 0 rb_a [rb_a; rb_b]].
Definition table_next : ReplicaPlacementTable :=
  mkReplicaTable 2 false 2 [] [mkReplicaPlacement "docs" 0 rb_c [rb_c; rb_b]].
Definition sample_movement : ShardMovement :=
  plan_movement (mkReplicaPlacement "docs" 0 rb_a [rb_a; rb_b]) (mkReplicaPlacement "docs" 0 rb_c [rb_c; rb_b]).
Definition sample_plan : RebalancePlan := mkPlan 1 2 false [sample_movement].

Lemma sample_plan_ok : PlanRebalance table_now table_next = Ok sample_plan.
Proof. vm_compute. reflexivity. Qed.

Lemma plan_executes_safely_witness :
  exec_actions sample_movement (move_start sample_movement) (Actions sample_movement)
  = Some (move_goal sample_movement).
Proof.
  apply (plan_executes_safely table_now table_next sample_plan); [apply sample_plan_ok| |apply list_elem_of_here].
  intros d ->%list_elem_of_singleton. apply list_elem_of_here.
Defined.

Lemma plan_covers_all_shards_witness :
  ∃ d, d ∈ rpt_Shards table_next ∧ srp_Collection d = "docs" ∧ srp_ShardID d = 0.
Proof.
  assert (∀ p, p ∈ rpt_Shards table_now ∨ p ∈ rpt_Shards table_next → 0 ≤ srp_ShardID p) as Hid
    by (intros p [->%list_elem_of_singleton| ->%list_elem_of_singleton]; simpl; lia).
  exact (proj2 (plan_covers_all_shards table_now table_next sample_plan sample_plan_ok Hid)
    (mkReplicaPlacement "docs" 0 rb_a [rb_a; rb_b]) (list_elem_of_here _ _)).
Defined.
