(* ===== verification/BarrierProofs.v ===== *)
(** * Properties of write barriers and of plan preparation

    Barriers survive crashes until their epoch commits or their plan is
    aborted; the preparation journal lists only movements the mover carried
    out, reopens while it fits into what is read of it, and resumes where it
    stopped. *)
From Stdlib Require Import ZArith Lia Ascii String Sorting.Sorted.
From stdpp Require Import base tactics list gmap strings relations.
From S2P Require Import Prelude Sha256 ClusterBase Core RaftStore Placement Rebalance RebalanceProofs.
Local Open Scope string_scope.
Local Open Scope Z_scope.
Local Open Scope list_scope.
Import EncodeJson.
Local Set Warnings "-clear-no-such-hyp".

(** ** Barriers *)

Definition bkey (b : RebalanceWriteBarrier) : string * Z := (bar_Collection b, bar_ShardID b).

Record BarriersOk (l : list RebalanceWriteBarrier) : Prop := {
  bo_valid : Forall (λ b, barrier_valid b = true ∧ 0 ≤ bar_ShardID b) l;
  bo_distinct : NoDup (bkey <$> l);
}.

Lemma check_barriers_ok seen l :
  BarriersOk l → Forall (λ b, barrierKey (bar_Collection b) (bar_ShardID b) ∉ seen) l →
  check_barriers seen l = Ok tt.
Proof.
  revert seen. induction l as [|b l IH]; intros seen [Hv Hd] Hs; [done|].
  rewrite Forall_cons in Hv, Hs. rewrite fmap_cons, NoDup_cons in Hd.
  destruct Hv as [[Hb Hi] Hv], Hs as [Hb2 Hs], Hd as [Hnin Hd]. cbn [check_barriers]. rewrite Hb. cbn [negb].
  rewrite bool_decide_false by done. apply IH; [by split|].
  rewrite Forall_forall in *. intros c Hc Hin. apply elem_of_union in Hin as [Hin|Hin]; [|by apply (Hs c Hc)].
  apply elem_of_singleton, shardKey_inj in Hin as [E1 E2]; [|by apply Hv|done].
  apply Hnin. apply list_elem_of_fmap. exists c. unfold bkey. by rewrite E1, E2.
Qed.

Lemma find_barrier_None c i l :
  find_barrier c i l = None → (c, i) ∉ bkey <$> l.
Proof.
  induction l as [|b l IH]; cbn [find_barrier]; [intros _; apply not_elem_of_nil|].
  destruct (_ && _) eqn:E; [done|]. intros H Hin. rewrite fmap_cons in Hin.
  apply elem_of_cons in Hin as [[= -> ->]|Hin]; [|by apply IH].
  by rewrite String.eqb_refl, Z.eqb_refl in E.
Qed.

Lemma find_barrier_elem b l :
  NoDup (bkey <$> l) → b ∈ l → find_barrier (bar_Collection b) (bar_ShardID b) l = Some b.
Proof.
  induction l as [|x l IH]; intros Hd Hin; [by apply not_elem_of_nil in Hin|].
  rewrite fmap_cons, NoDup_cons in Hd. destruct Hd as [Hnin Hd]. cbn [find_barrier].
  apply elem_of_cons in Hin as [->|Hin]; [by rewrite String.eqb_refl, Z.eqb_refl|].
  destruct (_ && _) eqn:E; [|by apply IH]. exfalso. bool_props.
  match goal with H : String.eqb _ _ = true |- _ => apply String.eqb_eq in H end.
  apply Hnin. apply list_elem_of_fmap. exists b. unfold bkey. split; [congruence|done].
Qed.

Lemma find_barrier_Some c i l b : find_barrier c i l = Some b → b ∈ l ∧ bkey b = (c, i).
Proof.
  induction l as [|x l IH]; cbn [find_barrier]; [done|]. destruct (_ && _) eqn:E.
  - intros [= ->]. bool_props. match goal with H : String.eqb _ _ = true |- _ => apply String.eqb_eq in H end.
    split; [apply list_elem_of_here|]. unfold bkey. congruence.
  - intros H. destruct (IH H). split; [by apply list_elem_of_further|done].
Qed.

Lemma BarriersOk_sub l k : k `sublist_of` l → BarriersOk l → BarriersOk k.
Proof.
  intros Hs [Hv Hd]. split.
  - rewrite Forall_forall in *. intros b Hb. apply Hv. by eapply elem_of_sublist.
  - eapply sublist_NoDup; [exact Hd|]. by apply fmap_sublist.
Qed.

Lemma BarriersOk_add l b :
  BarriersOk l → barrier_valid b = true → 0 ≤ bar_ShardID b →
  find_barrier (bar_Collection b) (bar_ShardID b) l = None →
  BarriersOk (sort_slice barrier_ltb (l ++ [b])).
Proof.
  intros [Hv Hd] Hb Hi Hf. apply find_barrier_None in Hf. split.
  - rewrite sort_slice_perm, Forall_app, Forall_singleton. done.
  - rewrite sort_slice_perm, fmap_app. apply NoDup_app. split; [done|]. split; [|apply NoDup_singleton].
    intros x Hx Hin. apply list_elem_of_singleton in Hin as ->. done.
Qed.

(** Operations on the barrier store, and executions with failed writes and
    restarts. *)
Inductive BarrierOp : Set :=
  | OpFreeze (b : RebalanceWriteBarrier)
  | OpReleaseCommitted (epoch : Z)
  | OpReleasePlan (digest : string).

Definition exec_barrier (fault : option PersistStep) (s : RebalanceBarrierStore) (op : BarrierOp)
    : RebalanceBarrierStore :=
  match op with
  | OpFreeze b => fst (Freeze fault s b)
  | OpReleaseCommitted epoch => fst (ReleaseCommitted fault s epoch)
  | OpReleasePlan digest => fst (ReleasePlan fault s digest)
  end.

Definition barrier_op_ok (op : BarrierOp) : Prop :=
  match op with OpFreeze b => 0 ≤ bar_ShardID b | _ => True end.

(** The operations that end the barrier [b]. *)
Definition releases (b : RebalanceWriteBarrier) (op : BarrierOp) : Prop :=
  match op with
  | OpFreeze _ => False
  | OpReleaseCommitted epoch => TargetEpoch b ≤ epoch
  | OpReleasePlan digest => bar_PlanDigest b = digest
  end.

Definition StoreOk (s : RebalanceBarrierStore) : Prop :=
  BarriersOk (bs_state s) ∧ ∀ d, bs_disk s = Some d → BarriersOk d.

Inductive barrier_step : RebalanceBarrierStore → RebalanceBarrierStore → Prop :=
  | barrier_handler s fault op : barrier_op_ok op → barrier_step s (exec_barrier fault s op)
  | barrier_restart s s' : OpenRebalanceBarrierStore (bs_disk s) = Ok s' → barrier_step s s'.

(** Steps that do not release [b]. *)
Inductive keeping_step (b : RebalanceWriteBarrier) : RebalanceBarrierStore → RebalanceBarrierStore → Prop :=
  | keeping_handler s fault op :
      barrier_op_ok op → ¬ releases b op → keeping_step b s (exec_barrier fault s op)
  | keeping_restart s s' :
      OpenRebalanceBarrierStore (bs_disk s) = Ok s' → keeping_step b s s'.

Lemma persist_ok fault l d :
  BarriersOk l → (∀ x, d = Some x → BarriersOk x) → StoreOk (fst (bs_persistLocked fault l d)).
Proof.
  intros Hl Hd. split; [done|]. simpl. destruct (renamed fault); [|done]. by intros x [= <-].
Qed.

Lemma StoreOk_exec fault s op : StoreOk s → barrier_op_ok op → StoreOk (exec_barrier fault s op).
Proof.
  intros HS Hop. destruct op as [b|epoch|digest]; simpl.
  - unfold Freeze. destruct (negb _) eqn:Ev; [done|]. bool_props.
    destruct (find_barrier _ _ _) eqn:Ef; [by destruct (bool_decide _)|].
    apply persist_ok; [|apply HS]. apply BarriersOk_add; [exact (proj1 HS)|done..].
  - apply persist_ok; [|apply HS]. eapply BarriersOk_sub; [apply sublist_filter|exact (proj1 HS)].
  - unfold ReleasePlan. destruct (negb _); [done|].
    apply persist_ok; [|apply HS]. eapply BarriersOk_sub; [apply sublist_filter|exact (proj1 HS)].
Qed.

Lemma StoreOk_open s : StoreOk s → OpenRebalanceBarrierStore (bs_disk s)
  = match bs_disk s with
    | None => Ok (mkBarrierStore [] None)
    | Some d => if within_limit (json_barrier_state d) then Ok (mkBarrierStore d (Some d))
                else Err (Errorf "decode state: unexpected EOF")
    end.
Proof.
  intros [_ Hd]. unfold OpenRebalanceBarrierStore, decode_limited. destruct (bs_disk s) as [d|]; [|done].
  destruct (within_limit _); [|done]. cbn [res_bind].
  rewrite check_barriers_ok; [done|by apply Hd|apply Forall_true; intros; apply not_elem_of_empty].
Qed.

(** [b] is in force: in memory and in the file. *)
Definition frozen (b : RebalanceWriteBarrier) (s : RebalanceBarrierStore) : Prop :=
  b ∈ bs_state s ∧ ∃ d, bs_disk s = Some d ∧ b ∈ d.

Lemma persist_frozen b fault l s :
  b ∈ l → frozen b s → frozen b (fst (bs_persistLocked fault l (bs_disk s))).
Proof.
  intros Hl (_ & d & Hd & Hin). split; [done|]. simpl. destruct (renamed fault); eauto.
Qed.

Lemma frozen_step b s s' : StoreOk s → frozen b s → keeping_step b s s' → StoreOk s' ∧ frozen b s'.
Proof.
  intros HS HF Hstep. destruct Hstep as [s fault op Hop Hrel|s s' Ho].
  - split; [by apply StoreOk_exec|]. pose proof (proj1 HF) as Hin.
    destruct op as [c|epoch|digest]; simpl in *.
    + unfold Freeze. destruct (negb _); [done|].
      destruct (find_barrier _ _ _); [by destruct (bool_decide _)|].
      apply persist_frozen; [|done]. apply sort_slice_elem, elem_of_app. by left.
    + apply persist_frozen; [|done]. apply list_elem_of_filter. split; [lia|done].
    + unfold ReleasePlan. destruct (negb _); [done|]. apply persist_frozen; [|done].
      apply list_elem_of_filter. done.
  - destruct HF as (_ & d & Hd & Hin). rewrite (StoreOk_open s HS), Hd in Ho.
    destruct (within_limit _); [|done]. injection Ho as <-. pose proof (proj2 HS d Hd) as HB.
    split; [split; [done|by intros x [= <-]]|]. split; [done|]. eexists. by split.
Qed.

Lemma frozen_steps b s s' : rtc (keeping_step b) s s' → StoreOk s → frozen b s → StoreOk s' ∧ frozen b s'.
Proof. induction 1; intros; [done|]. edestruct frozen_step; eauto. Qed.

Lemma freeze_frozen s b s' :
  default [] (bs_disk s) = bs_state s → Freeze None s b = (s', Ok tt) → frozen b s'.
Proof.
  intros Hsync Hfz. unfold Freeze in Hfz. destruct (negb _); [done|].
  destruct (find_barrier _ _ _) as [x|] eqn:Ef.
  - destruct (bool_decide (x = b)) eqn:Ex; [|done]. bool_props. subst x. injection Hfz as <-.
    apply find_barrier_Some in Ef as [Hin _]. split; [done|].
    destruct (bs_disk s) as [d|]; simpl in Hsync; [|rewrite <-Hsync in Hin; by apply not_elem_of_nil in Hin].
    exists d. by rewrite Hsync.
  - injection Hfz as <-. unfold frozen. simpl.
    assert (b ∈ sort_slice barrier_ltb (bs_state s ++ [b])) as Hin
      by (apply sort_slice_elem, elem_of_app; right; apply list_elem_of_here). eauto.
Qed.

(** C33. A write barrier holds: once [Freeze] succeeds on a store whose file is
    up to date, every later execution of freezes, releases of other plans or
    earlier epochs, failed writes and restarts leaves the shard frozen by
    that barrier.  The file then holds the barrier too, and opening it gives
    a store that freezes the shard; it is refused only when its encoding
    exceeds the 8 MiB the decoder reads. *)
Theorem barrier_holds s b s' s'' :
  StoreOk s → default [] (bs_disk s) = bs_state s → 0 ≤ bar_ShardID b →
  Freeze None s b = (s', Ok tt) → rtc (keeping_step b) s' s'' →
  IsFrozen s'' (bar_Collection b) (bar_ShardID b) = Some b
  ∧ ∃ d, bs_disk s'' = Some d
    ∧ OpenRebalanceBarrierStore (bs_disk s'')
      = (if within_limit (json_barrier_state d) then Ok (mkBarrierStore d (Some d))
         else Err (Errorf "decode state: unexpected EOF"))
    ∧ IsFrozen (mkBarrierStore d (Some d)) (bar_Collection b) (bar_ShardID b) = Some b.
Proof.
  intros HS Hsync Hi Hfz Hsteps.
  assert (s' = exec_barrier None s (OpFreeze b)) as Es by (simpl; by rewrite Hfz).
  assert (StoreOk s') as HS' by (rewrite Es; by apply StoreOk_exec).
  destruct (frozen_steps b s' s'' Hsteps HS' (freeze_frozen s b s' Hsync Hfz)) as (HS'' & Hin & d & Hd & Hind).
  split; [apply find_barrier_elem; [exact (bo_distinct _ (proj1 HS''))|done]|].
  exists d. split; [done|]. split; [by rewrite (StoreOk_open s'' HS''), Hd|].
  apply find_barrier_elem; [|done]. apply bo_distinct, (proj2 HS'' d Hd).
Qed.

(** A barrier acknowledged but not durable: the write of the first [Freeze]
    fails, the retry succeeds without a write, and after a restart the shard
    is not frozen. *)
Theorem barrier_lost_after_failed_write :
  let b := mkBarrier "0000000000000000000000000000000000000000000000000000000000000000" "c" 0 2 in
  let s1 := fst (Freeze (Some StepWrite) (mkBarrierStore [] None) b) in
  snd (Freeze None s1 b) = Ok tt
  ∧ match OpenRebalanceBarrierStore (bs_disk (fst (Freeze None s1 b))) with
    | Ok s2 => IsFrozen s2 "c" 0 = None
    | Err _ => False
    end.
Proof. vm_compute. split; reflexivity. Qed.

(** The write has no limit to match the one of the read: a barrier file past
    8 MiB is written and acknowledged, and refused at the next start. *)
Lemma json_escapes_length s : (String.length s ≤ String.length (json_escapes s))%nat.
Proof.
  induction s as [|c s IH]; [done|]. cbn [json_escapes]. rewrite string_length_app.
  enough (1 ≤ String.length (json_escape c))%nat by (simpl; lia).
  unfold json_escape. repeat case_match; simpl; lia.
Qed.

Fixpoint long_name (n : nat) : string :=
  match n with O => EmptyString | S n => String "x" (long_name n) end.

Lemma long_name_length n : String.length (long_name n) = n.
Proof. induction n as [|n IH]; [done|]. simpl. by rewrite IH. Qed.

Theorem oversized_barriers_refused :
  ∃ b s, Freeze None (mkBarrierStore [] None) b = (s, Ok tt)
  ∧ OpenRebalanceBarrierStore (bs_disk s) = Err (Errorf "decode state: unexpected EOF").
Proof.
  set (name := long_name (Z.to_nat (2 ^ 23))). assert (String.length name = Z.to_nat (2 ^ 23)) as Hl by apply long_name_length.
  set (b := mkBarrier "0000000000000000000000000000000000000000000000000000000000000000" name 0 2).
  exists b, (mkBarrierStore [b] (Some [b])). clearbody name. split.
  - unfold Freeze. assert (barrier_valid b = true) as ->; [|done]. unfold barrier_valid, b. cbn [bar_PlanDigest bar_Collection TargetEpoch].
    destruct (String.eqb_spec name "") as [E|]; [rewrite E in Hl; cbn [String.length] in Hl; lia|reflexivity].
  - unfold OpenRebalanceBarrierStore, decode_limited, within_limit, stateFileLimit. cbn [bs_disk].
    rewrite (proj2 (Z.leb_gt _ _)); [done|].
    assert (String.length name < String.length (json_barrier_state [b]))%nat; [|lia].
    pose proof (json_escapes_length name).
    unfold json_barrier_state, json_object, json_array, json_field, json_barrier, json_object, json_field, json_string, quoted, b.
    cbn [fmap list_fmap bar_Collection bar_PlanDigest bar_ShardID TargetEpoch String.concat]. rewrite !string_length_app.
    cbn [String.length]. lia.
Qed.

(** ** Digests *)

Lemma length_be_bytes n x : length (be_bytes n x) = n.
Proof. induction n as [|n IH]; simpl; auto. Qed.

Lemma be_bytes_valid n x : Forall (λ b, 0 ≤ b < 256) (be_bytes n x).
Proof. induction n as [|n IH]; simpl; constructor; auto. apply Z.mod_pos_bound. lia. Qed.

Lemma length_round state kw : length state = 8%nat → length (round state kw) = 8%nat.
Proof.
  intros H. destruct state as [|a [|b [|c [|d [|e [|f [|g [|h [|]]]]]]]]]; simpl in H; try lia. reflexivity.
Qed.

Lemma length_blocks fuel state ws : length state = 8%nat → length (blocks fuel state ws) = 8%nat.
Proof.
  revert state ws. induction fuel as [|fuel IH]; intros state ws H; [done|]. cbn [blocks].
  destruct ws as [|w ws]; [done|]. apply IH. unfold compress. rewrite length_zip_with.
  assert (length (foldl round state (zip round_constants (schedule (take 16 (w :: ws))))) = 8%nat) as E.
  { generalize (zip round_constants (schedule (take 16 (w :: ws)))). intros kws. revert state H.
    induction kws as [|kw kws IH2]; intros state H; [done|]. simpl. by apply IH2, length_round. }
  rewrite E, H. reflexivity.
Qed.

Lemma sha256_shape message :
  length (sha256_Sum256 message) = 32%nat ∧ Forall (λ b, 0 ≤ b < 256) (sha256_Sum256 message).
Proof.
  unfold sha256_Sum256. pose proof (length_blocks (length (words (pad message))) initial_hash
    (words (pad message)) eq_refl) as Hl.
  generalize dependent (blocks (length (words (pad message))) initial_hash (words (pad message))).
  intros state Hl. split.
  - assert (∀ l, length (l ≫= be_bytes 4) = (4 * length l)%nat) as Hb.
    { intros l. induction l as [|x l IH]; [done|]. rewrite bind_cons, length_app, length_be_bytes, IH. simpl. lia. }
    by rewrite Hb, Hl.
  - apply Forall_bind, Forall_true. intros x. apply be_bytes_valid.
Qed.

Lemma hex_digits_ok n : 0 ≤ n < 16 → digest_char (hex_digit n) = true.
Proof.
  intros H. assert (n ∈ [0;1;2;3;4;5;6;7;8;9;10;11;12;13;14;15]) as Hin.
  { assert (n = 0 ∨ n = 1 ∨ n = 2 ∨ n = 3 ∨ n = 4 ∨ n = 5 ∨ n = 6 ∨ n = 7 ∨ n = 8 ∨ n = 9 ∨ n = 10
      ∨ n = 11 ∨ n = 12 ∨ n = 13 ∨ n = 14 ∨ n = 15) by lia.
    rewrite !elem_of_cons. tauto. }
  repeat (apply elem_of_cons in Hin as [->|Hin]; [reflexivity|]). by apply not_elem_of_nil in Hin.
Qed.

Lemma hex_encode_ok bytes :
  Forall (λ b, 0 ≤ b < 256) bytes →
  String.length (hex_EncodeToString bytes) = (2 * length bytes)%nat
  ∧ digest_chars (hex_EncodeToString bytes) = true.
Proof.
  induction 1 as [|b bytes Hb _ [IH1 IH2]]; [done|]. cbn [hex_EncodeToString String.length digest_chars length].
  rewrite IH1, IH2, !hex_digits_ok by (Z.div_mod_to_equations; lia). split; [lia|done].
Qed.

Lemma sha256_digest_valid message : validDigest (hex_EncodeToString (sha256_Sum256 message)) = true.
Proof.
  destruct (sha256_shape message) as [Hl Hv]. destruct (hex_encode_ok _ Hv) as [H1 H2].
  unfold validDigest. rewrite H1, Hl, H2. reflexivity.
Qed.

(** ** Preparation *)

Lemma check_completed_iff seen l :
  check_completed seen l = Ok tt ↔ Forall (λ x, x ≠ "") l ∧ NoDup l ∧ Forall (λ x, x ∉ seen) l.
Proof.
  revert seen. induction l as [|x l IH]; intros seen; cbn [check_completed].
  { split; [|done]. intros _. repeat split; constructor. }
  rewrite !Forall_cons, NoDup_cons. destruct (String.eqb x "") eqn:E0.
  { apply String.eqb_eq in E0. split; [done|]. tauto. }
  apply String.eqb_neq in E0. case_bool_decide as E1; [split; [done|tauto]|].
  rewrite IH. split.
  - intros (H1 & H2 & H3). split_and!; auto.
    + intros Hx. rewrite Forall_forall in H3. apply (H3 x Hx). set_solver.
    + eapply Forall_impl; [exact H3|]. set_solver.
  - intros ([_ H1] & [Hx H2] & [_ H3]). split_and!; auto. rewrite Forall_forall in *.
    intros y Hy. specialize (H3 y Hy). intros [->%elem_of_singleton|?]%elem_of_union; done.
Qed.

Definition journal_ok (p : RebalancePreparation) : Prop := validatePreparation p = Ok tt.

Record ExecutorOk (e : RebalanceExecutor) : Prop := {
  eo_state : ex_state e = no_preparation ∨ journal_ok (ex_state e);
  eo_disk : ∀ d, ex_disk e = Some d → journal_ok d;
}.

(** What [validateExecutionPlan] establishes of an accepted plan. *)
Lemma check_actions_ok all required actions all' required' :
  check_actions all required actions = Ok (all', required') →
  Forall (λ a, act_ID a ≠ "") actions ∧ NoDup (act_ID <$> actions)
  ∧ Forall (λ a, act_ID a ∉ all) actions
  ∧ (∀ x, x ∈ required' ↔ x ∈ required ∨ ∃ a, a ∈ actions ∧ is_data_action a = true ∧ act_ID a = x).
Proof.
  revert all required. induction actions as [|a actions IH]; intros all required; cbn [check_actions].
  { intros [= <- <-]. split_and!; [constructor..|]. intros x. split; [by left|].
    intros [?|(b & H & _)]; [done|by apply not_elem_of_nil in H]. }
  destruct (String.eqb (act_ID a) "") eqn:E0; [done|]. apply String.eqb_neq in E0.
  case_bool_decide as E1; [done|].
  assert (∀ req, check_actions ({[act_ID a]} ∪ all) req actions = Ok (all', required') →
    Forall (λ a, act_ID a ≠ "") (a :: actions) ∧ NoDup (act_ID <$> a :: actions)
    ∧ Forall (λ a, act_ID a ∉ all) (a :: actions)
    ∧ (∀ x, x ∈ required' ↔ x ∈ req ∨ ∃ b, b ∈ actions ∧ is_data_action b = true ∧ act_ID b = x)) as Hnext.
  { intros req H. destruct (IH _ _ H) as (H1 & H2 & H3 & H4). rewrite !Forall_cons, fmap_cons, NoDup_cons.
    rewrite Forall_forall in H3. split_and!; auto.
    - intros (b & Eb & Hb)%list_elem_of_fmap. apply (H3 b Hb). rewrite Eb. set_solver.
    - apply Forall_forall. intros b Hb Hin. apply (H3 b Hb). set_solver. }
  destruct (is_data_action a) eqn:Ed.
  - destruct (_ || _); [done|]. intros (H1 & H2 & H3 & H4)%Hnext. split_and!; auto.
    intros x. rewrite H4, elem_of_union, elem_of_singleton. split.
    + intros [[->|?]|(b & Hb & ?)]; eauto using list_elem_of_here, list_elem_of_further.
    + intros [?|(b & [->|Hb]%elem_of_cons & ? & <-)]; eauto.
  - intros (H1 & H2 & H3 & H4)%Hnext. split_and!; auto.
    intros x. rewrite H4. split.
    + intros [?|(b & Hb & ?)]; eauto using list_elem_of_further.
    + intros [?|(b & [->|Hb]%elem_of_cons & Hd & <-)]; [eauto|congruence|eauto].
Qed.

Lemma plan_accepted plan digest required :
  validateExecutionPlan plan = Ok (digest, required) →
  validDigest digest = true ∧ 0 ≠ FromEpoch plan ∧ FromEpoch plan < ToEpoch plan
  ∧ Forall (λ a, act_ID a ≠ "") (plan_actions plan) ∧ NoDup (act_ID <$> plan_actions plan)
  ∧ (∀ x, x ∈ required ↔ ∃ a, a ∈ plan_actions plan ∧ is_data_action a = true ∧ act_ID a = x).
Proof.
  unfold validateExecutionPlan. destruct (_ || _) eqn:E0; [done|]. bool_props.
  destruct (check_actions ∅ ∅ (plan_actions plan)) as [[all req]|] eqn:Ec; [|done]. cbn [res_bind].
  destruct (negb _); [done|]. intros [= <- <-].
  destruct (check_actions_ok _ _ _ _ _ Ec) as (Q1 & Q2 & _ & Q4). split_and!; auto; try lia.
  - apply sha256_digest_valid.
  - intros x. rewrite Q4. split; [intros [Hx|?]; [by apply not_elem_of_empty in Hx|done]|auto].
Qed.

(** The journal header of a preparation. *)
Definition same_header (p q : RebalancePreparation) : Prop :=
  prep_Format p = prep_Format q ∧ prep_PlanDigest p = prep_PlanDigest q
  ∧ prep_FromEpoch p = prep_FromEpoch q ∧ prep_ToEpoch p = prep_ToEpoch q.

Lemma journal_add p x :
  journal_ok p → x ≠ "" → x ∉ stringSet (Completed p) → journal_ok (set_completed p (Completed p ++ [x])).
Proof.
  unfold journal_ok, validatePreparation. cbn [set_completed prep_Format prep_PlanDigest prep_FromEpoch prep_ToEpoch Completed].
  destruct (_ || _); [done|]. rewrite !check_completed_iff. intros (H1 & H2 & _) Hx Hnin.
  unfold stringSet in Hnin. rewrite elem_of_list_to_set in Hnin. split_and!.
  - apply Forall_app. split; [done|]. by apply Forall_singleton.
  - apply NoDup_app. split; [done|]. split; [|apply NoDup_singleton]. intros y Hy ->%list_elem_of_singleton. done.
  - apply Forall_true. intros y. apply not_elem_of_empty.
Qed.

Lemma journal_ready p b : journal_ok p → journal_ok (set_ready p b).
Proof. done. Qed.

Lemma ex_persist_ok fault p d :
  journal_ok p → (∀ x, d = Some x → journal_ok x) →
  ExecutorOk (fst (ex_persistLocked fault (mkExecutor p d))).
Proof.
  intros Hp Hd. split; simpl; [by right|]. destruct (renamed fault); [|done]. by intros x [= <-].
Qed.

(** The loop keeps the journal valid and in step with the set of completed
    actions, whatever happens; without a failure every data action is done. *)
Lemma run_actions_spec outcomes e completed actions e' completed' failed calls :
  run_actions outcomes e completed actions = (e', completed', failed, calls) →
  journal_ok (ex_state e) → ExecutorOk e → completed = stringSet (Completed (ex_state e)) →
  Forall (λ a, act_ID a ≠ "") actions →
  journal_ok (ex_state e') ∧ ExecutorOk e' ∧ completed' = stringSet (Completed (ex_state e'))
  ∧ same_header (ex_state e') (ex_state e) ∧ completed ⊆ completed'
  ∧ (failed = None → ∀ a, a ∈ actions → is_data_action a = true → act_ID a ∈ completed').
Proof.
  revert outcomes e completed e' completed' failed calls.
  induction actions as [|a actions IH]; intros outcomes e completed e' completed' failed calls; cbn [run_actions].
  { intros [= <- <- <- _] HJ HE HC _. split_and!; try done. intros _ a H. by apply not_elem_of_nil in H. }
  intros H HJ HE HC Hne. rewrite Forall_cons in Hne. destruct Hne as [Ha Hne].
  assert (same_header (ex_state e) (ex_state e)) as Hsame by done.
  destruct (is_data_action a) eqn:Ed; cbn [negb] in H.
  2: { destruct (IH _ _ _ _ _ _ _ H HJ HE HC Hne) as (H1 & H2 & H3 & H4 & H5 & H6). split_and!; auto.
       intros Hf b [->|Hb]%elem_of_cons Hdb; [congruence|auto]. }
  case_bool_decide as Hin.
  { destruct (IH _ _ _ _ _ _ _ H HJ HE HC Hne) as (H1 & H2 & H3 & H4 & H5 & H6). split_and!; auto.
    intros Hf b [->|Hb]%elem_of_cons Hdb; auto. }
  destruct (negb _); [injection H as <- <- <- _; by split_and!|].
  destruct (cancelled _); [injection H as <- <- <- _; by split_and!|].
  destruct (move_fails _); [injection H as <- <- <- _; by split_and!|].
  set (p := set_completed (ex_state e) (Completed (ex_state e) ++ [act_ID a])) in *.
  assert (journal_ok p) as HJp by (apply journal_add; [done|done|by rewrite <-HC]).
  assert (stringSet (Completed p) = {[act_ID a]} ∪ completed) as HCp.
  { unfold p. cbn [set_completed Completed]. rewrite HC. unfold stringSet.
    rewrite list_to_set_app_L, (comm_L (∪)). f_equal. apply (right_id_L ∅ (∪)). }
  assert (same_header p (ex_state e)) as Hhead by (unfold p; done).
  set (o := default (mkMove false false None) (head outcomes)) in *.
  pose proof (ex_persist_ok (move_fault o) p (ex_disk e) HJp (eo_disk _ HE)) as HE2.
  destruct (ex_persistLocked (move_fault o) (mkExecutor p (ex_disk e))) as [e2 r] eqn:Ep.
  assert (ex_state e2 = p) as Est by (injection Ep as <- _; done). simpl in HE2.
  destruct r as [[]|err].
  2: { injection H as <- <- <- _. rewrite Est. split_and!; [done|done|done|done|apply union_subseteq_r|done]. }
  destruct (run_actions (tail outcomes) e2 _ actions) as [[[e3 c3] f3] calls3] eqn:Er.
  injection H as <- <- <- _. rewrite <-Est in HJp, HCp.
  destruct (IH _ _ _ _ _ _ _ Er HJp HE2 (eq_sym HCp) Hne) as (H1 & H2 & H3 & H4 & H5 & H6).
  rewrite Est in H4. split_and!; [done|done|done| | |].
  - destruct H4 as (? & ? & ? & ?), Hhead as (? & ? & ? & ?). split_and!; congruence.
  - etrans; [apply union_subseteq_r|exact H5].
  - intros Hf b [->|Hb]%elem_of_cons Hdb; [|auto]. apply H5. by apply elem_of_union_l, elem_of_singleton_2.
Qed.

Lemma fresh_journal plan digest required :
  validateExecutionPlan plan = Ok (digest, required) →
  journal_ok (mkPreparation 1 digest (FromEpoch plan) (ToEpoch plan) [] false).
Proof.
  intros (Hd & Hf & Ht & _)%plan_accepted. unfold journal_ok, validatePreparation.
  cbn [prep_Format prep_PlanDigest prep_FromEpoch prep_ToEpoch Completed]. rewrite Hd.
  rewrite (proj2 (Z.eqb_neq (FromEpoch plan) 0)), (proj2 (Z.leb_gt _ _)) by lia. done.
Qed.

(** What the loop appends to the journal are identifiers of movements the
    mover was called for and carried out; the file is the one before, or an
    earlier value of the journal. *)
Lemma run_actions_calls outcomes e completed actions e' completed' failed calls :
  run_actions outcomes e completed actions = (e', completed', failed, calls) →
  (∀ x, x ∈ Completed (ex_state e') → x ∈ Completed (ex_state e) ∨ ∃ a, (a, true) ∈ calls ∧ act_ID a = x)
  ∧ (∀ a ok, (a, ok) ∈ calls → a ∈ actions ∧ is_data_action a = true)
  ∧ (∀ x, x ∈ Completed (ex_state e) → x ∈ Completed (ex_state e'))
  ∧ (ex_disk e' = ex_disk e ∨ ∃ d, ex_disk e' = Some d ∧ prep_PlanDigest d = prep_PlanDigest (ex_state e)
       ∧ ∀ x, x ∈ Completed d → x ∈ Completed (ex_state e')).
Proof.
  revert outcomes e completed e' completed' failed calls.
  induction actions as [|a actions IH]; intros outcomes e completed e' completed' failed calls; cbn [run_actions].
  { intros [= <- <- <- <-]. split_and!; auto. intros a ok H. by apply not_elem_of_nil in H. }
  assert (∀ l, (l = [] ∨ l = [(a, false)] ∧ is_data_action a = true) →
    ∀ b ok, (b, ok) ∈ l → b ∈ a :: actions ∧ is_data_action b = true) as Hstop.
  { intros l [-> |[-> Hd]] b ok Hb; [by apply not_elem_of_nil in Hb|].
    apply list_elem_of_singleton in Hb as [= -> ->]. split; [apply list_elem_of_here|done]. }
  destruct (is_data_action a) eqn:Ed; cbn [negb].
  2: { intros (H1 & H2 & H3 & H4)%IH. split_and!; auto. intros b ok Hb. destruct (H2 b ok Hb). eauto using list_elem_of_further. }
  case_bool_decide as Hin.
  { intros (H1 & H2 & H3 & H4)%IH. split_and!; auto. intros b ok Hb. destruct (H2 b ok Hb). eauto using list_elem_of_further. }
  destruct (negb _); [intros [= <- <- <- <-]; split_and!; eauto|].
  destruct (cancelled _); [intros [= <- <- <- <-]; split_and!; eauto|].
  destruct (move_fails _); [intros [= <- <- <- <-]; split_and!; eauto|].
  set (p := set_completed (ex_state e) (Completed (ex_state e) ++ [act_ID a])).
  unfold ex_persistLocked. cbn [ex_state ex_disk].
  set (d := if renamed _ then Some p else ex_disk e).
  assert (d = ex_disk e ∨ d = Some p) as Hd by (unfold d; destruct (renamed _); auto).
  assert (∀ x, x ∈ Completed p → x ∈ Completed (ex_state e) ∨ x = act_ID a) as Hp.
  { intros x [?|H%list_elem_of_singleton]%elem_of_app; auto. }
  assert (∀ x, x ∈ Completed (ex_state e) → x ∈ Completed p) as Hp' by (intros x Hx; apply elem_of_app; by left).
  destruct (written _ tt) as [[]|err].
  2: { intros [= <- <- <- <-]. cbn [ex_state ex_disk]. split_and!; [|intros b ok Hb|done|].
       - intros x [?| ->]%Hp; [by left|]. right. exists a. split; [apply list_elem_of_here|done].
       - apply list_elem_of_singleton in Hb as [= -> ->]. split; [apply list_elem_of_here|done].
       - destruct Hd as [->| ->]; [by left|]. right. by exists p. }
  destruct (run_actions (tail outcomes) _ _ actions) as [[[e3 c3] f3] calls3] eqn:Er.
  intros [= <- <- <- <-]. apply IH in Er as (H1 & H2 & H3 & H4). cbn [ex_state ex_disk] in *. split_and!.
  - intros x [[?| ->]%Hp|(b & Hb & <-)]%H1; [by left| |]; right; eauto using list_elem_of_here, list_elem_of_further.
  - intros b ok [[= -> ->]|Hb]%elem_of_cons; [split; [apply list_elem_of_here|done]|].
    destruct (H2 b ok Hb). eauto using list_elem_of_further.
  - auto.
  - destruct H4 as [->|(d' & -> & H4)]; [|right; by exists d'].
    destruct Hd as [->| ->]; [by left|]. right. exists p. auto.
Qed.

(** ** What the journal claims *)

(** The successful calls of the mover, each with the plan it was made for. *)
Definition Moved : Set := list (RebalancePlan * RebalanceAction).

Definition moved (plan : RebalancePlan) (calls : list MoverCall) : Moved :=
  (λ c, (plan, fst c)) <$> filter (λ c, snd c = true) calls.

(** The mover carried out the data movement [x] of a plan with this digest. *)
Definition carried_out (t : Moved) (digest x : string) : Prop :=
  ∃ plan required a, (plan, a) ∈ t ∧ validateExecutionPlan plan = Ok (digest, required)
    ∧ a ∈ plan_actions plan ∧ is_data_action a = true ∧ act_ID a = x.

Definition journal_true (t : Moved) (p : RebalancePreparation) : Prop :=
  ∀ x, x ∈ Completed p → carried_out t (prep_PlanDigest p) x.

(** A preparation begins with an empty journal when none is in progress:
    what was moved before does not count for it. *)
Definition since_begun (e : RebalanceExecutor) (t : Moved) : Moved :=
  if prep_Format (ex_state e) =? 0 then [] else t.

Definition new_executor : RebalanceExecutor := mkExecutor no_preparation None.

(** Executions of the executor with cancellations, failures and restarts, and
    the movements carried out since the preparation in progress began. *)
Inductive executor_run : RebalanceExecutor → Moved → Prop :=
  | run_new : executor_run new_executor []
  | run_prepare first last outcomes e t plan e' r calls :
      executor_run e t → Prepare first last outcomes e plan = (e', r, calls) →
      executor_run e' (since_begun e t ++ moved plan calls)
  | run_reset removes e t epoch : executor_run e t → executor_run (fst (ResetCommitted removes e epoch)) t
  | run_abort removes e t plan : executor_run e t → executor_run (fst (Abort_ removes e plan)) t
  | run_reopen e t e' : executor_run e t → OpenRebalanceExecutor (ex_disk e) = Ok e' → executor_run e' t.

Record Honest (e : RebalanceExecutor) (t : Moved) : Prop := {
  ho_ok : ExecutorOk e;
  ho_state : journal_true t (ex_state e);
  ho_disk : ∀ d, ex_disk e = Some d → journal_true t d;
  ho_idle : prep_Format (ex_state e) = 0 → ∀ d, ex_disk e = Some d → Completed d = [];
}.

Lemma journal_true_empty t p : Completed p = [] → journal_true t p.
Proof. intros E x Hx. rewrite E in Hx. by apply not_elem_of_nil in Hx. Qed.

Lemma journal_true_app t k p : journal_true t p → journal_true (t ++ k) p.
Proof. intros H x (plan & req & a & Hin & ?)%H. exists plan, req, a. split; [apply elem_of_app; by left|done]. Qed.

Lemma journal_format p : journal_ok p → prep_Format p = 1.
Proof. unfold journal_ok, validatePreparation. destruct (_ || _) eqn:E; [done|]. by bool_props. Qed.

Lemma Honest_idle e t t' : Honest e t → prep_Format (ex_state e) = 0 → Honest e t'.
Proof.
  intros [HE _ _ Hi] H0. split; [done| | |done].
  - destruct (eo_state _ HE) as [->|HJ%journal_format]; [by apply journal_true_empty|lia].
  - intros d Hd. by apply journal_true_empty, (Hi H0).
Qed.

Lemma Honest_since e t : Honest e t → Honest e (since_begun e t).
Proof. intros H. unfold since_begun. destruct (Z.eqb_spec (prep_Format (ex_state e)) 0); [by eapply Honest_idle|done]. Qed.

Lemma ex_open e : ExecutorOk e → OpenRebalanceExecutor (ex_disk e)
  = match ex_disk e with
    | None => Ok new_executor
    | Some d => if within_limit (json_preparation d) then Ok (mkExecutor d (Some d))
                else Err (Errorf "decode state: unexpected EOF")
    end.
Proof.
  intros [_ Hd]. unfold OpenRebalanceExecutor, decode_limited. destruct (ex_disk e) as [p|]; [|done].
  destruct (within_limit _); [|done]. cbn [res_bind]. by rewrite (Hd p eq_refl).
Qed.

Lemma clear_honest removes e t : Honest e t → Honest (fst (clear_state removes e)) t.
Proof.
  intros HE. destruct removes; [|done].
  split; [split; [by left|done]|by apply journal_true_empty|done|done].
Qed.

(** The head of [Prepare]: an idle executor begins an empty journal. *)
Definition begin_preparation (first : option PersistStep) (e : RebalanceExecutor) (plan : RebalancePlan)
    (digest : string) : RebalanceExecutor * option error :=
  if prep_Format (ex_state e) =? 0 then
    let e1 := mkExecutor (mkPreparation 1 digest (FromEpoch plan) (ToEpoch plan) [] false) (ex_disk e) in
    let (e2, r) := ex_persistLocked first e1 in
    match r with
    | Err err => (mkExecutor no_preparation (ex_disk e2), Some err)
    | Ok _ => (e2, None)
    end
  else if negb (String.eqb (prep_PlanDigest (ex_state e)) digest)
          || negb (prep_FromEpoch (ex_state e) =? FromEpoch plan)
          || negb (prep_ToEpoch (ex_state e) =? ToEpoch plan)
  then (e, Some (Errorf "a different rebalance plan is already prepared or in progress"))
  else (e, None).

Lemma begin_honest first e plan digest required t e1 failed :
  Honest e t → validateExecutionPlan plan = Ok (digest, required) →
  begin_preparation first e plan digest = (e1, failed) →
  Honest e1 (since_begun e t)
  ∧ (failed = None → journal_ok (ex_state e1) ∧ prep_PlanDigest (ex_state e1) = digest
       ∧ ∀ x, x ∈ Completed (ex_state e1) → x ∈ Completed (ex_state e)).
Proof.
  intros HE Hv. pose proof (fresh_journal _ _ _ Hv) as HJ. unfold begin_preparation.
  destruct (prep_Format (ex_state e) =? 0) eqn:E0.
  - set (p := mkPreparation 1 digest (FromEpoch plan) (ToEpoch plan) [] false) in *.
    pose proof (ex_persist_ok first p (ex_disk e) HJ (eo_disk _ (ho_ok _ _ HE))) as HE1.
    assert (∀ d, ex_disk (fst (ex_persistLocked first (mkExecutor p (ex_disk e)))) = Some d → Completed d = []) as Hd.
    { simpl. intros d. destruct (renamed first); [by intros [= <-]|]. apply (ho_idle _ _ HE). lia. }
    unfold ex_persistLocked in *. cbn [ex_state ex_disk fst] in *.
    destruct (written first tt) as [[]|err]; intros [= <- <-].
    + split; [|intros _; split_and!; [done..|intros x Hx; by apply not_elem_of_nil in Hx]]. split; [done|by apply journal_true_empty| |done].
      intros d H. apply journal_true_empty, (Hd d H).
    + split; [|done]. split; [|by apply journal_true_empty| |done].
      * split; [by left|apply (eo_disk _ HE1)].
      * intros d H. apply journal_true_empty, (Hd d H).
  - destruct (_ || _) eqn:Eb; intros [= <- <-]; (split; [by apply Honest_since|]); [done|]. intros _. bool_props.
    split; [|split; [by apply String.eqb_eq|done]].
    destruct (eo_state _ (ho_ok _ _ HE)) as [E|]; [by rewrite E in E0|done].
Qed.

(** The loop keeps the journal true, given what the mover carried out. *)
Lemma run_actions_honest outcomes e plan digest required e' completed' failed calls t :
  run_actions outcomes e (stringSet (Completed (ex_state e))) (plan_actions plan) = (e', completed', failed, calls) →
  validateExecutionPlan plan = Ok (digest, required) →
  Honest e t → journal_ok (ex_state e) → prep_PlanDigest (ex_state e) = digest →
  Honest e' (t ++ moved plan calls) ∧ journal_ok (ex_state e') ∧ completed' = stringSet (Completed (ex_state e'))
  ∧ prep_PlanDigest (ex_state e') = digest
  ∧ (failed = None → ∀ a, a ∈ plan_actions plan → is_data_action a = true → act_ID a ∈ completed')
  ∧ (∀ a, a ∈ plan_actions plan → act_ID a ∈ Completed (ex_state e') →
       act_ID a ∈ Completed (ex_state e) ∨ (a, true) ∈ calls).
Proof.
  intros Hrun Hv HE HJ Hdig. destruct (plan_accepted _ _ _ Hv) as (_ & _ & _ & Hne & Hnd & _).
  destruct (run_actions_spec _ _ _ _ _ _ _ _ Hrun HJ (ho_ok _ _ HE) eq_refl Hne) as (HJ' & HE' & HC & (_ & Hd' & _) & _ & Hall).
  destruct (run_actions_calls _ _ _ _ _ _ _ _ Hrun) as (Hnew & Hcalls & _ & Hdisk).
  assert (∀ a, (a, true) ∈ calls → (plan, a) ∈ t ++ moved plan calls) as Hmoved.
  { intros a Ha. apply elem_of_app. right. unfold moved. apply list_elem_of_fmap. exists (a, true).
    split; [done|]. by apply list_elem_of_filter. }
  assert (journal_true (t ++ moved plan calls) (ex_state e')) as Hst.
  { intros x [Hx|(a & Ha & <-)]%Hnew.
    - rewrite Hd'. by apply (journal_true_app _ _ _ (ho_state _ _ HE)).
    - destruct (Hcalls a true Ha). exists plan, required, a. rewrite Hd', Hdig. auto. }
  split_and!; [|done|done|congruence|done|].
  - split; [done|done| |by rewrite (journal_format _ HJ')].
    destruct Hdisk as [->|(d & -> & Hd & Hsub)].
    + intros d Hd. apply journal_true_app, (ho_disk _ _ HE d Hd).
    + intros d' [= <-] x Hx. rewrite Hd, <-Hd'. apply Hst, Hsub, Hx.
  - intros a Ha [Hx|(b & Hb & Eid)]%Hnew; [by left|right]. destruct (Hcalls b true Hb) as [Hin _].
    assert (b = a) as ->; [|done]. apply list_elem_of_lookup in Hin as [i Hi], Ha as [j Hj].
    assert (i = j) as ->; [|congruence].
    eapply (NoDup_lookup _ _ _ (act_ID a)); [exact Hnd|rewrite list_lookup_fmap, Hi; simpl; congruence|by rewrite list_lookup_fmap, Hj].
Qed.

Lemma prepare_spec first last outcomes e t plan e' r calls :
  Honest e t → Prepare first last outcomes e plan = (e', r, calls) →
  Honest e' (since_begun e t ++ moved plan calls)
  ∧ ∀ p, r = Ok p →
      ex_state e' = p ∧ ReadyForCutover p = true ∧ ex_disk e' = Some p
      ∧ (∃ required, validateExecutionPlan plan = Ok (prep_PlanDigest p, required))
      ∧ ∀ a, a ∈ plan_actions plan → is_data_action a = true → act_ID a ∈ Completed p
        ∧ ((a, true) ∈ calls ∨ act_ID a ∈ Completed (ex_state e)).
Proof.
  intros HE. unfold Prepare.
  destruct (validateExecutionPlan plan) as [[digest required]|err] eqn:Ev.
  2: { intros [= <- <- <-]. simpl. rewrite app_nil_r. split; [by apply Honest_since|done]. }
  change (if prep_Format (ex_state e) =? 0 then _ else _) with (begin_preparation first e plan digest).
  destruct (begin_preparation first e plan digest) as [e1 started] eqn:Eb.
  destruct (begin_honest _ _ _ _ _ _ _ _ HE Ev Eb) as [HE1 Hs].
  destruct started as [err1|].
  { intros [= <- <- <-]. simpl. rewrite app_nil_r. split; [done|done]. }
  destruct (Hs eq_refl) as (HJ1 & Hd1 & Hc1).
  destruct (run_actions _ _ _ _) as [[[e2 completed] failed] calls2] eqn:Er.
  destruct (run_actions_honest _ _ _ _ _ _ _ _ _ _ Er Ev HE1 HJ1 Hd1) as (HE2 & HJ2 & HC & Hd2 & Hall & Hwho).
  destruct failed as [err2|]; [by intros [= <- <- <-]|].
  destruct (plan_accepted _ _ _ Ev) as (_ & _ & _ & _ & _ & Hreq).
  rewrite bool_decide_true by (intros x (a & Ha & Hda & <-)%Hreq; by apply Hall).
  assert (∀ a, a ∈ plan_actions plan → is_data_action a = true → act_ID a ∈ Completed (ex_state e2)) as Hin.
  { intros a Ha Hda. rewrite <-(elem_of_list_to_set (C := gset string)).
    fold (stringSet (Completed (ex_state e2))). rewrite <-HC. by apply Hall. }
  pose proof (ex_persist_ok last (set_ready (ex_state e2) true) (ex_disk e2) (journal_ready _ _ HJ2)
    (eo_disk _ (ho_ok _ _ HE2))) as HE3.
  unfold ex_persistLocked in *. cbn [ex_state ex_disk fst] in *. intros [= <- <- <-]. split.
  - split; [exact HE3|exact (ho_state _ _ HE2)| |].
    + simpl. destruct (renamed last); [|apply (ho_disk _ _ HE2)]. intros d [= <-]. exact (ho_state _ _ HE2).
    + simpl. rewrite (journal_format _ HJ2). done.
  - intros p. destruct last; [done|]. cbn [written res_bind renamed]. intros [= <-].
    split_and!; [done..|exists required; by rewrite <-Hd2|]. intros a Ha Hda. split; [by apply Hin|].
    destruct (Hwho a Ha (Hin a Ha Hda)); auto.
Qed.

Lemma run_honest e t : executor_run e t → Honest e t.
Proof.
  induction 1 as [|first last outcomes e t plan e' r calls _ IH Hp|removes e t epoch _ IH|removes e t plan _ IH|e t e' _ IH Ho].
  - split; [split; [by left|done]|by apply journal_true_empty|done|done].
  - by apply (prepare_spec _ _ _ _ _ _ _ _ _ IH Hp).
  - unfold ResetCommitted. destruct (_ =? 0); [done|]. destruct (_ || _); [done|]. by apply clear_honest.
  - unfold Abort_. destruct (validateExecutionPlan plan) as [[d req]|]; [|done].
    destruct (_ =? 0); [done|]. destruct (negb _); [done|]. by apply clear_honest.
  - rewrite (ex_open e (ho_ok _ _ IH)) in Ho. destruct (ex_disk e) as [d|] eqn:Ed.
    + destruct (within_limit _); [|done]. injection Ho as <-. pose proof (eo_disk _ (ho_ok _ _ IH) d Ed) as HJ.
      pose proof (ho_disk _ _ IH d Ed) as Ht.
      split; [split; [by right|by intros x [= <-]]|done|by intros x [= <-]|]. simpl. by rewrite (journal_format _ HJ).
    + injection Ho as <-. split; [split; [by left|done]|by apply journal_true_empty|done|done].
Qed.

(** C34. Preparation is crash-safe and honest.  After any sequence of
    preparations, resets, aborts, cancellations, mover failures, failed
    writes and restarts, and whatever the next [Prepare] returns: every
    movement the journal lists, in memory or in its file, was carried out by a
    successful call of the mover since the preparation began, for a plan
    with the journal's digest; the file reopens as it was written, or is
    refused because its encoding exceeds the 8 MiB the decoder reads.  A
    [Prepare] that reports success is ready for cutover and durable, and
    every data movement of its plan was carried out: by a call it made for
    that very action, or earlier, as its journal already said. *)
Theorem preparation_sound e t first last outcomes plan e' r calls :
  executor_run e t → Prepare first last outcomes e plan = (e', r, calls) →
  journal_true (since_begun e t ++ moved plan calls) (ex_state e')
  ∧ (∀ d, ex_disk e' = Some d → journal_true (since_begun e t ++ moved plan calls) d)
  ∧ OpenRebalanceExecutor (ex_disk e')
    = match ex_disk e' with
      | None => Ok new_executor
      | Some d => if within_limit (json_preparation d) then Ok (mkExecutor d (Some d))
                  else Err (Errorf "decode state: unexpected EOF")
      end
  ∧ ∀ p, r = Ok p →
      ex_state e' = p ∧ ReadyForCutover p = true ∧ ex_disk e' = Some p
      ∧ (∃ required, validateExecutionPlan plan = Ok (prep_PlanDigest p, required))
      ∧ ∀ a, a ∈ plan_actions plan → is_data_action a = true → act_ID a ∈ Completed p
        ∧ ((a, true) ∈ calls ∨ act_ID a ∈ Completed (ex_state e)).
Proof.
  intros Hr Hp. destruct (prepare_spec _ _ _ _ _ _ _ _ _ (run_honest _ _ Hr) Hp) as [HE' Hok].
  split_and!; [apply (ho_state _ _ HE')|apply (ho_disk _ _ HE')|apply ex_open, HE'|exact Hok].
Qed.

(** ** Progress *)

(** Every data action's dependencies are data actions before it, or done. *)
Fixpoint deps_ok (done_ : gset string) (actions : list RebalanceAction) : Prop :=
  match actions with
  | [] => True
  | a :: rest =>
      (is_data_action a = true → Forall (λ d, d ∈ done_) (Requires a))
      ∧ deps_ok (if is_data_action a then {[act_ID a]} ∪ done_ else done_) rest
  end.

Lemma deps_ok_mono s s' actions : s ⊆ s' → deps_ok s actions → deps_ok s' actions.
Proof.
  revert s s'. induction actions as [|a actions IH]; intros s s' Hs; cbn [deps_ok]; [done|].
  intros [H1 H2]. split.
  - intros Hd. eapply Forall_impl; [exact (H1 Hd)|]. intros d. apply Hs.
  - eapply IH; [|exact H2]. destruct (is_data_action a); [by apply union_mono_l|done].
Qed.

Lemma deps_ok_app s l k : deps_ok s l → (∀ s', deps_ok s' k) → deps_ok s (l ++ k).
Proof.
  revert s. induction l as [|a l IH]; intros s; cbn [deps_ok app]; [auto|]. intros [H1 H2] Hk. auto.
Qed.

Lemma deps_ok_other s actions : Forall (λ a, is_data_action a = false) actions → deps_ok s actions.
Proof.
  intros H. revert s. induction H as [|a actions Ha _ IH]; intros s; cbn [deps_ok]; [done|].
  rewrite Ha. split; [done|auto].
Qed.

Lemma movement_deps s source destination : deps_ok s (Actions (plan_movement source destination)).
Proof.
  unfold plan_movement. cbv zeta. cbn [Actions]. apply deps_ok_app.
  - generalize (filter (λ n, n ∉ stringSet (Replicas source)) (Replicas destination)). intros added.
    revert s. induction added as [|n added IH]; intros s; [done|]. rewrite bind_cons.
    apply deps_ok_app; [|exact IH]. cbn. split; [by constructor|]. split; [|done].
    intros _. apply Forall_singleton. by apply elem_of_union_l, elem_of_singleton_2.
  - intros s'. apply deps_ok_other. rewrite !Forall_app. split_and!.
    + destruct (negb _); [by apply Forall_singleton|constructor].
    + by apply Forall_singleton.
    + apply Forall_fmap, Forall_true. done.
Qed.

Lemma plan_deps s plan :
  (∀ m, m ∈ Movements plan → ∃ a b, m = plan_movement a b) → deps_ok s (plan_actions plan).
Proof.
  unfold plan_actions. intros H. revert s. induction (Movements plan) as [|m ms IH]; intros s; [done|].
  rewrite bind_cons. apply deps_ok_app.
  - destruct (H m (list_elem_of_here _ _)) as (a & b & ->). apply movement_deps.
  - apply IH. intros k Hk. apply H. by apply list_elem_of_further.
Qed.

(** Without failures the loop runs to the end, and calls the mover only for
    actions that were not done. *)
Lemma run_actions_progress e completed actions :
  deps_ok completed actions →
  ∃ e' completed' calls, run_actions [] e completed actions = (e', completed', None, calls)
    ∧ ∀ a ok, (a, ok) ∈ calls → ok = true ∧ a ∈ actions ∧ act_ID a ∉ completed.
Proof.
  revert e completed. induction actions as [|a actions IH]; intros e completed; cbn [deps_ok run_actions].
  { intros _. do 3 eexists. split; [done|]. intros a ok H. by apply not_elem_of_nil in H. }
  intros [H1 H2]. destruct (is_data_action a) eqn:Ed; cbn [negb].
  2: { destruct (IH e completed H2) as (e' & c' & calls & -> & Hc). do 3 eexists. split; [done|].
       intros b ok Hb. destruct (Hc b ok Hb) as (? & ? & ?). split_and!; [done|by apply list_elem_of_further|done]. }
  case_bool_decide as Hin.
  { assert (deps_ok completed actions) as H2' by (eapply deps_ok_mono; [|exact H2]; set_solver).
    destruct (IH e completed H2') as (e' & c' & calls & -> & Hc). do 3 eexists. split; [done|].
    intros b ok Hb. destruct (Hc b ok Hb) as (? & ? & ?). split_and!; [done|by apply list_elem_of_further|done]. }
  assert (forallb (λ d, bool_decide (d ∈ completed)) (Requires a) = true) as ->.
  { specialize (H1 eq_refl). apply forallb_forall. intros d Hd. apply bool_decide_eq_true_2.
    rewrite Forall_forall in H1. by apply H1, list_elem_of_In. }
  cbn [negb default head cancelled move_fails move_fault ex_persistLocked written tail].
  destruct (IH (fst (ex_persistLocked None (mkExecutor (set_completed (ex_state e)
    (Completed (ex_state e) ++ [act_ID a])) (ex_disk e)))) ({[act_ID a]} ∪ completed) H2)
    as (e' & c' & calls & Hr & Hc).
  simpl in Hr |- *. rewrite Hr. do 3 eexists. split; [done|].
  intros b ok [[= -> ->]|Hb]%elem_of_cons; [split_and!; [done|apply list_elem_of_here|done]|].
  destruct (Hc b ok Hb) as (? & ? & Hn). split_and!; [done|by apply list_elem_of_further|].
  intros Hin'. apply Hn. by apply elem_of_union_r.
Qed.

(** C35. Preparation resumes: for a plan made by [PlanRebalance] and accepted by
    [validateExecutionPlan], and an executor that is idle or has this plan in
    progress, [Prepare] without failures succeeds, and moves data only for
    actions not already in the journal. *)
Theorem preparation_resumes current target plan digest required e :
  PlanRebalance current target = Ok plan →
  validateExecutionPlan plan = Ok (digest, required) →
  ex_state e = no_preparation
  ∨ prep_Format (ex_state e) = 1 ∧ prep_PlanDigest (ex_state e) = digest
    ∧ prep_FromEpoch (ex_state e) = FromEpoch plan ∧ prep_ToEpoch (ex_state e) = ToEpoch plan →
  ∃ e' p calls, Prepare None None [] e plan = (e', Ok p, calls)
    ∧ ∀ a ok, (a, ok) ∈ calls → ok = true ∧ a ∈ plan_actions plan ∧ act_ID a ∉ Completed (ex_state e).
Proof.
  intros Hplan Hv Hst. destruct (plan_rebalance_ok _ _ _ Hplan) as (Hmv & _).
  assert (∀ s, deps_ok s (plan_actions plan)) as Hdeps.
  { intros s. apply plan_deps. intros m Hm. destruct (Hmv m Hm) as (a & b & _ & ->). eauto. }
  unfold Prepare. rewrite Hv. destruct Hst as [Hst|(H1 & H2 & H3 & H4)].
  - rewrite Hst. cbn [prep_Format no_preparation Z.eqb]. simpl ex_persistLocked. cbv iota beta.
    destruct (run_actions_progress (mkExecutor (mkPreparation 1 digest (FromEpoch plan) (ToEpoch plan) [] false)
      (Some (mkPreparation 1 digest (FromEpoch plan) (ToEpoch plan) [] false))) (stringSet []) _ (Hdeps _))
      as (e' & c' & calls & Hr & Hc).
    simpl in Hr |- *. rewrite Hr. do 3 eexists. split; [done|].
    intros a ok Ha. destruct (Hc a ok Ha) as (? & ? & _). split_and!; [done|done|apply not_elem_of_nil].
  - rewrite H1, H2, H3, H4, String.eqb_refl, !Z.eqb_refl. cbn [Z.eqb negb orb].
    destruct (run_actions_progress e (stringSet (Completed (ex_state e))) _ (Hdeps _))
      as (e' & c' & calls & Hr & Hc).
    rewrite Hr. simpl. do 3 eexists. split; [done|].
    intros a ok Ha. destruct (Hc a ok Ha) as (? & ? & Hn). split_and!; [done|done|]. intros Hin. apply Hn.
    by apply elem_of_list_to_set.
Qed.

(** ** Witnesses *)

Definition sample_barrier : RebalanceWriteBarrier :=
  mkBarrier "0000000000000000000000000000000000000000000000000000000000000000" "docs" 0 2.
Definition frozen_store : RebalanceBarrierStore := mkBarrierStore [sample_barrier] (Some [sample_barrier]).

Lemma barrier_holds_witness :
  IsFrozen (exec_barrier (Some StepWrite) frozen_store (OpReleaseCommitted 1)) "docs" 0 = Some sample_barrier.
Proof.
  refine (proj1 (barrier_holds (mkBarrierStore [] None) sample_barrier frozen_store _ _ _ _ _ _)).
  - split; [split; constructor|done].
  - reflexivity.
  - simpl. lia.
  - reflexivity.
  - apply rtc_once. apply keeping_handler; simpl; [exact I|lia].
Defined.

(** The first attempt stops at a failing call of the mover; the second one
    completes the journal the first one left. *)
Definition interrupted : RebalanceExecutor * res RebalancePreparation * list MoverCall :=
  Prepare None None [mkMove false false None; mkMove false true None] new_executor sample_plan.

Lemma preparation_sound_witness :
  journal_true (moved sample_plan (snd interrupted) ++ moved sample_plan (snd (Prepare None None [] (fst (fst interrupted)) sample_plan)))
    (ex_state (fst (fst (Prepare None None [] (fst (fst interrupted)) sample_plan))))
  ∧ length (snd interrupted) = 2%nat
  ∧ length (Completed (ex_state (fst (fst (Prepare None None [] (fst (fst interrupted)) sample_plan))))) = 2%nat.
Proof.
  split; [|split; vm_compute; reflexivity].
  destruct interrupted as [[e1 r1] calls1] eqn:E1.
  pose proof (run_prepare None None _ new_executor [] sample_plan e1 r1 calls1 run_new E1) as Hrun.
  assert (prep_Format (ex_state e1) = 1) as H1.
  { replace e1 with (fst (fst interrupted)) by (by rewrite E1). vm_compute. reflexivity. }
  cbn [fst snd]. destruct (Prepare None None [] e1 sample_plan) as [[e2 r2] calls2] eqn:E2.
  pose proof (proj1 (preparation_sound e1 _ None None [] sample_plan e2 r2 calls2 Hrun E2)) as H.
  unfold since_begun at 1 in H. rewrite H1 in H. exact H.
Defined.

Definition sample_digest : string :=
  match validateExecutionPlan sample_plan with Ok (d, _) => d | Err _ => "" end.

(** The first copy is in the journal; only the catch-up is left to do. *)
Lemma preparation_resumes_witness :
  ∃ e' p calls,
    Prepare None None [] (fst (fst interrupted)) sample_plan = (e', Ok p, calls).
Proof.
  assert (is_ok (validateExecutionPlan sample_plan) = true) as Hok by (vm_compute; reflexivity).
  destruct (validateExecutionPlan sample_plan) as [[digest required]|] eqn:Ev; [|discriminate Hok].
  destruct (preparation_resumes table_now table_next sample_plan digest required
    (fst (fst interrupted)))
    as (e' & p & calls & H & _); [apply sample_plan_ok|exact Ev| |eauto].
  right. assert (digest = sample_digest) as ->.
  { unfold sample_digest. rewrite Ev. reflexivity. }
  vm_compute. repeat split; reflexivity.
Defined.
