(* ===== verification/Distance.v ===== *)
(** * Similarity scores

    [internal/distance/distance.go] with the portable kernels of
    [kernel_generic.go].  A [float32] is its bit pattern; the arithmetic is
    that of IEEE 754 binary32 with rounding to nearest, ties to even, taken
    from the Standard Library's [SpecFloat].  The square root goes through
    binary64, as [float32(math.Sqrt(float64(x)))] does.  A NaN result is the
    canonical one.  The model does not fuse multiplications and additions;
    the arm64 assembly kernels are not modelled. *)
From Stdlib Require Import ZArith Lia Ascii String Floats.SpecFloat.
From stdpp Require Import base tactics list gmap strings.
From S2P Require Import Prelude Core.
Local Open Scope string_scope.
Local Open Scope Z_scope.
Local Open Scope list_scope.

(** ** Binary32 arithmetic *)

Definition f32_decode (bits : Z) : spec_float :=
  let s := Z.testbit bits 31 in
  let e := Z.land (Z.shiftr bits 23) 0xff in
  let m := Z.land bits 0x7fffff in
  if e =? 0xff then (if m =? 0 then S754_infinity s else S754_nan)
  else if e =? 0 then
    match m with Zpos p => S754_finite s p (-149) | _ => S754_zero s end
  else
    match m + 0x800000 with Zpos p => S754_finite s p (e - 150) | _ => S754_nan end.

Definition sign_bits (s : bool) : Z := if s then 0x80000000 else 0.

Definition f32_encode (x : spec_float) : Z :=
  match x with
  | S754_zero s => sign_bits s
  | S754_infinity s => sign_bits s + 0x7f800000
  | S754_nan => 0x7fc00000
  | S754_finite s m e =>
      sign_bits s + (if Zpos m <? 0x800000 then Zpos m
                     else Z.shiftl (e + 150) 23 + (Zpos m - 0x800000))
  end.

Definition f32_add (a b : Z) : Z := f32_encode (SFadd 24 128 (f32_decode a) (f32_decode b)).
Definition f32_sub (a b : Z) : Z := f32_encode (SFsub 24 128 (f32_decode a) (f32_decode b)).
Definition f32_mul (a b : Z) : Z := f32_encode (SFmul 24 128 (f32_decode a) (f32_decode b)).
Definition f32_div (a b : Z) : Z := f32_encode (SFdiv 24 128 (f32_decode a) (f32_decode b)).

(** [float32(x)] of a [float64] held as a [spec_float]. *)
Definition f32_of_f64 (x : spec_float) : spec_float :=
  match x with S754_finite s m e => binary_round 24 128 s m e | _ => x end.

(** [float32(math.Sqrt(float64(x)))] *)
Definition f32_sqrt (x : Z) : Z := f32_encode (f32_of_f64 (SFsqrt 53 1024 (f32_decode x))).

(** ** Kernels *)

(** The eight accumulators of one pass over blocks of eight elements, and
    the elements the blocks leave. *)
Fixpoint lanes (fuel : nat) (term : Z → Z → Z) (s a b : list Z) : list Z * (list Z * list Z) :=
  match fuel with
  | O => (s, (a, b))
  | S fuel =>
      if (8 <=? length a)%nat then
        lanes fuel term (zip_with f32_add s (zip_with term (take 8 a) (take 8 b))) (drop 8 a) (drop 8 b)
      else (s, (a, b))
  end.

Definition sum_lanes (s : list Z) : Z :=
  match s with
  | [s0; s1; s2; s3; s4; s5; s6; s7] =>
      f32_add (f32_add (f32_add s0 s1) (f32_add s2 s3)) (f32_add (f32_add s4 s5) (f32_add s6 s7))
  | _ => f32_zero
  end.

(** Blocks of eight, then the remaining elements one by one.  [length a]
    rounds are enough since every block consumes eight elements. *)
Definition accumulate (term : Z → Z → Z) (a b : list Z) : Z :=
  match lanes (length a) term (replicate 8 f32_zero) a b with
  | (s, (a', b')) => foldl f32_add (sum_lanes s) (zip_with term a' b')
  end.

Definition dotGeneric (a b : list Z) : Z := accumulate f32_mul a b.

Definition l2_term (x y : Z) : Z := let d := f32_sub x y in f32_mul d d.

Definition l2SquaredGeneric (a b : list Z) : Z := accumulate l2_term a b.

Definition dot : list Z → list Z → Z := dotGeneric.
Definition l2Squared : list Z → list Z → Z := l2SquaredGeneric.

(** ** Scores *)

Definition cosine (a b : list Z) : Z :=
  let product := dot a b in
  let aa := dot a a in
  let bb := dot b b in
  if f32_eqb aa f32_zero || f32_eqb bb f32_zero then f32_zero
  else f32_div product (f32_sqrt (f32_mul aa bb)).

Definition Score (metric : string) (a b : list Z) : res Z :=
  if negb (len a =? len b) then Err (Sentinel ErrDimensionMismatch)
  else if String.eqb metric MetricDot then Ok (dot a b)
  else if String.eqb metric MetricL2 then Ok (f32_neg (l2Squared a b))
  else if String.eqb metric MetricCosine then Ok (cosine a b)
  else invalid "unsupported metric".

Definition SquaredNorm (vector : list Z) : Z := dot vector vector.

Definition cosineProductAndVectorNorm (query vector : list Z) : Z * Z :=
  (dot query vector, dot vector vector).

Definition ScoreWithQuerySquaredNorm (metric : string) (query : list Z) (querySquaredNorm : Z)
    (vector : list Z) : res Z :=
  if negb (len query =? len vector) then Err (Sentinel ErrDimensionMismatch)
  else if negb (String.eqb metric MetricCosine) then Score metric query vector
  else
    let '(product, vectorSquaredNorm) := cosineProductAndVectorNorm query vector in
    if f32_eqb querySquaredNorm f32_zero || f32_eqb vectorSquaredNorm f32_zero then Ok f32_zero
    else Ok (f32_div product (f32_sqrt (f32_mul querySquaredNorm vectorSquaredNorm))).

Definition CosineWithSquaredNorms (query : list Z) (querySquaredNorm : Z) (vector : list Z)
    (vectorSquaredNorm : Z) : Z :=
  if f32_eqb querySquaredNorm f32_zero || f32_eqb vectorSquaredNorm f32_zero then f32_zero
  else f32_div (dot query vector) (f32_sqrt (f32_mul querySquaredNorm vectorSquaredNorm)).

(** ** The scoring paths agree *)

Lemma prepared_score metric query vector :
  ScoreWithQuerySquaredNorm metric query
    (if String.eqb metric MetricCosine then SquaredNorm query else f32_zero) vector
  = Score metric query vector.
Proof.
  unfold ScoreWithQuerySquaredNorm, Score. destruct (negb (len query =? len vector)) eqn:E; [done|].
  destruct (String.eqb_spec metric MetricCosine) as [->|Hne]; simpl.
  - unfold cosine, SquaredNorm. by destruct (f32_eqb _ _ || f32_eqb _ _)%bool.
  - done.
Qed.

Lemma Score_ok metric a b :
  Metric_Valid metric = true → len a = len b → ∃ s, Score metric a b = Ok s.
Proof.
  unfold Metric_Valid, Score. intros Hm ->. rewrite Z.eqb_refl. simpl.
  destruct (String.eqb metric MetricDot); [eauto|]. destruct (String.eqb metric MetricL2); [eauto|].
  destruct (String.eqb metric MetricCosine); [eauto|done].
Qed.

(** The score of two vectors of one length under a valid metric. *)
Definition score_of (metric : string) (a b : list Z) : Z :=
  match Score metric a b with Ok s => s | Err _ => f32_zero end.
