(* ===== verification/Float.v ===== *)
(** * Binary64 numbers and their decimal form

    What the filter and lexical indexes use of Go's [float64], of [strconv]
    and of [encoding/json].  A [float64] is its bit pattern.  Comparisons go
    through [f64_ord]; arithmetic is the Standard Library's [SpecFloat] with
    53 bits.  [FormatFloat] is [strconv.FormatFloat(x, 'g', -1, size)]: the
    shortest decimal that reads back as [x]. *)
From Stdlib Require Import ZArith Lia Ascii String Floats.SpecFloat.
From stdpp Require Import base tactics list strings pretty.
From S2P Require Import Prelude Core Distance.
Local Open Scope string_scope.
Local Open Scope Z_scope.
Local Open Scope list_scope.

Definition f64_is_nan (bits : Z) : bool := 0x7ff0000000000000 <? Z.land bits 0x7fffffffffffffff.
Definition f64_is_inf (bits : Z) : bool := Z.land bits 0x7fffffffffffffff =? 0x7ff0000000000000.

(** The sign-magnitude reading: both zeros are 0. *)
Definition f64_ord (bits : Z) : Z :=
  let magnitude := Z.land bits 0x7fffffffffffffff in
  if Z.testbit bits 63 then - magnitude else magnitude.

Definition f64_ltb (a b : Z) : bool := negb (f64_is_nan a) && negb (f64_is_nan b) && (f64_ord a <? f64_ord b).
Definition f64_leb (a b : Z) : bool := negb (f64_is_nan a) && negb (f64_is_nan b) && (f64_ord a <=? f64_ord b).
Definition f64_eqb (a b : Z) : bool := negb (f64_is_nan a) && negb (f64_is_nan b) && (f64_ord a =? f64_ord b).

Definition f64_decode (bits : Z) : spec_float :=
  let s := Z.testbit bits 63 in
  let e := Z.land (Z.shiftr bits 52) 0x7ff in
  let m := Z.land bits 0xfffffffffffff in
  if e =? 0x7ff then (if m =? 0 then S754_infinity s else S754_nan)
  else if e =? 0 then
    match m with Zpos p => S754_finite s p (-1074) | _ => S754_zero s end
  else
    match m + 0x10000000000000 with Zpos p => S754_finite s p (e - 1075) | _ => S754_nan end.

Definition sign64 (s : bool) : Z := if s then 0x8000000000000000 else 0.

Definition f64_encode (x : spec_float) : Z :=
  match x with
  | S754_zero s => sign64 s
  | S754_infinity s => sign64 s + 0x7ff0000000000000
  | S754_nan => 0x7ff8000000000001
  | S754_finite s m e =>
      sign64 s + (if Zpos m <? 0x10000000000000 then Zpos m
                  else Z.shiftl (e + 1075) 52 + (Zpos m - 0x10000000000000))
  end.

Definition f64_add (a b : Z) : Z := f64_encode (SFadd 53 1024 (f64_decode a) (f64_decode b)).
Definition f64_sub (a b : Z) : Z := f64_encode (SFsub 53 1024 (f64_decode a) (f64_decode b)).
Definition f64_mul (a b : Z) : Z := f64_encode (SFmul 53 1024 (f64_decode a) (f64_decode b)).
Definition f64_div (a b : Z) : Z := f64_encode (SFdiv 53 1024 (f64_decode a) (f64_decode b)).
Definition f64_sqrt (a : Z) : Z := f64_encode (SFsqrt 53 1024 (f64_decode a)).

(** [float64(n)] of an integer. *)
Definition f64_of_int (n : Z) : Z := f64_encode (binary_normalize 53 1024 n 0 false).

(** [float64(x)] of a [float32], which is exact. *)
Definition f64_of_f32 (bits : Z) : Z :=
  f64_encode (match f32_decode bits with S754_finite s m e => binary_round 53 1024 s m e | x => x end).

(** [float32(x)] of a [float64]. *)
Definition f32_of_f64_bits (bits : Z) : Z := f32_encode (f32_of_f64 (f64_decode bits)).

(** ** Shortest decimals *)

(** Compares [a * 2^e] with [d * 10^q]. *)
Definition compare_decimal (a e d q : Z) : comparison :=
  Z.compare (a * 2 ^ Z.max e 0 * 10 ^ Z.max (- q) 0) (d * 10 ^ Z.max q 0 * 2 ^ Z.max (- e) 0).

Definition floor_decimal (a e q : Z) : Z :=
  (a * 2 ^ Z.max e 0 * 10 ^ Z.max (- q) 0) / (10 ^ Z.max q 0 * 2 ^ Z.max (- e) 0).

(** [d * 10^q] reads back as the number [m * 2^e] of [precision] bits: it is
    within half a unit of it, the bounds included when [m] is even. *)
Definition reads_back (precision emin m e d q : Z) : bool :=
  let above :=
    if (m =? 2 ^ (precision - 1)) && (emin <? e) then compare_decimal (4 * m - 1) (e - 2) d q
    else compare_decimal (2 * m - 1) (e - 1) d q in
  let below := compare_decimal (2 * m + 1) (e - 1) d q in
  (match above with Lt => true | Eq => Z.even m | Gt => false end)
  && (match below with Gt => true | Eq => Z.even m | Lt => false end).

(** The decimal point position of [m * 2^e], searched upward. *)
Fixpoint decimal_point (fuel : nat) (m e dp : Z) : Z :=
  match fuel with
  | O => dp
  | S fuel => match compare_decimal m e 1 dp with Lt => dp | _ => decimal_point fuel m e (dp + 1) end
  end.

Fixpoint shortest_from (fuel : nat) (precision emin m e dp digits : Z) : Z * Z :=
  match fuel with
  | O => (floor_decimal m e (dp - digits), dp - digits)
  | S fuel =>
      let q := dp - digits in
      let d := floor_decimal m e q in
      match reads_back precision emin m e d q, reads_back precision emin m e (d + 1) q with
      | true, true =>
          match compare_decimal (2 * m) e (2 * d + 1) q with
          | Lt => (d, q)
          | Eq => if Z.even d then (d, q) else (d + 1, q)
          | Gt => (d + 1, q)
          end
      | true, false => (d, q)
      | false, true => (d + 1, q)
      | false, false => shortest_from fuel precision emin m e dp (digits + 1)
      end
  end.

(** At most 17 digits are needed. *)
Definition shortest (precision emin m e : Z) : Z * Z :=
  let start := ((Z.log2 m + e) * 30103) / 100000 - 1 in
  shortest_from 17 precision emin m e (decimal_point 5 m e start) 1.

Fixpoint strip_zeros (fuel : nat) (d q : Z) : Z * Z :=
  match fuel with
  | O => (d, q)
  | S fuel => if (d mod 10 =? 0) && negb (d =? 0) then strip_zeros fuel (d / 10) (q + 1) else (d, q)
  end.

Definition digits_of (d : Z) : string := pretty (Z.to_N d).

Fixpoint zeros (n : nat) : string := match n with O => "" | S n => String "0" (zeros n) end.

Definition two_digits (s : string) : string := if (String.length s <? 2)%nat then "0" +:+ s else s.

(** The layout of the verb ['g'] with the shortest precision: an exponent
    below -4 or above 5 gives the scientific form. *)
Definition layout (digits : string) (dp : Z) : string :=
  let nd := Z.of_nat (String.length digits) in
  let exponent := dp - 1 in
  if (exponent <? -4) || (6 <=? exponent) then
    match digits with
    | String first rest =>
        String first (if String.eqb rest "" then "" else "." +:+ rest) +:+ "e"
          +:+ (if exponent <? 0 then "-" else "+") +:+ two_digits (digits_of (Z.abs exponent))
    | EmptyString => ""
    end
  else if dp <=? 0 then "0." +:+ zeros (Z.to_nat (- dp)) +:+ digits
  else if nd <=? dp then digits +:+ zeros (Z.to_nat (dp - nd))
  else String.substring 0 (Z.to_nat dp) digits +:+ "." +:+ String.substring (Z.to_nat dp) (String.length digits) digits.

Definition format (precision emin : Z) (x : spec_float) : string :=
  match x with
  | S754_nan => "NaN"
  | S754_infinity s => if s then "-Inf" else "+Inf"
  | S754_zero s => if s then "-0" else "0"
  | S754_finite s m e =>
      let '(d, q) := shortest precision emin (Zpos m) e in
      let '(d, q) := strip_zeros 20 d q in
      let digits := digits_of d in
      (if s then "-" else "") +:+ layout digits (q + Z.of_nat (String.length digits))
  end.

(** [strconv.FormatFloat(x, 'g', -1, 64)] and, of a [float32],
    [strconv.FormatFloat(float64(x), 'g', -1, 32)]. *)
Definition FormatFloat64 (bits : Z) : string := format 53 (-1074) (f64_decode bits).
Definition FormatFloat32 (bits : Z) : string := format 24 (-149) (f32_decode bits).

(** [strconv.FormatInt(n, 10)] *)
Definition FormatInt (n : Z) : string := (if n <? 0 then "-" else "") +:+ digits_of (Z.abs n).

(** [strconv.ParseFloat] of the decimal [d * 10^q]. *)
Definition f64_of_decimal (s : bool) (d q : Z) : Z :=
  match d, 10 ^ Z.max (- q) 0 with
  | Zpos p, Zpos t =>
      let n := Pos.mul p (Z.to_pos (10 ^ Z.max q 0)) in
      f64_encode (SFdiv 53 1024 (S754_finite s n 0) (S754_finite false t 0))
  | _, _ => sign64 s
  end.

(** What a [float32] becomes when it is written as JSON and read back. *)
Definition json_float32 (bits : Z) : Z :=
  match f32_decode bits with
  | S754_finite s m e =>
      let '(d, q) := shortest 24 (-149) (Zpos m) e in f64_of_decimal s d q
  | x => f64_encode x
  end.

Example format_examples :
  (FormatFloat64 <$> [0x3ff0000000000000; 0x3fb999999999999a; 0x412e848000000000; 0x412e847e00000000;
     0xc00921fb54442d18; 0x0000000000000001; 0x7fefffffffffffff; 0x3f1a36e2eb1c432d; 0x4415af1d78b58c40])
  = ["1"; "0.1"; "1e+06"; "999999"; "-3.141592653589793"; "5e-324"; "1.7976931348623157e+308"; "0.0001"; "1e+20"].
Proof. vm_compute. reflexivity. Qed.

Example format32_examples :
  (FormatFloat32 <$> [0x3dcccccd; 0x7f7fffff; 0x00000001]) = ["0.1"; "3.4028235e+38"; "1e-45"].
Proof. vm_compute. reflexivity. Qed.

Example json_float32_examples :
  json_float32 0x3dcccccd = 0x3fb999999999999a ∧ f64_of_f32 0x3dcccccd = 0x3fb99999a0000000.
Proof. vm_compute. done. Qed.

Example int_examples :
  (f64_of_int <$> [1000000; -3; 0; 2 ^ 53 + 1]) = [0x412e848000000000; 0xc008000000000000; 0; 0x4340000000000000]
  ∧ (FormatInt <$> [1000000; -3; 0]) = ["1000000"; "-3"; "0"].
Proof. vm_compute. done. Qed.

(** ** Order *)

Lemma f64_ltb_ord a b :
  f64_is_nan a = false → f64_is_nan b = false → f64_ltb a b = (f64_ord a <? f64_ord b).
Proof. unfold f64_ltb. by intros -> ->. Qed.

Lemma f64_leb_ord a b :
  f64_is_nan a = false → f64_is_nan b = false → f64_leb a b = (f64_ord a <=? f64_ord b).
Proof. unfold f64_leb. by intros -> ->. Qed.

Lemma f64_eqb_ord a b :
  f64_is_nan a = false → f64_is_nan b = false → f64_eqb a b = (f64_ord a =? f64_ord b).
Proof. unfold f64_eqb. by intros -> ->. Qed.

(** ** Words of a text

    [textWords] of [internal/metadata/filter.go] and [Tokenize] of
    [internal/segment/lexical.go] share one splitting: lower-case the text and
    cut it at every rune that is neither a letter nor a digit.  The Unicode
    tables beyond ASCII are an interface; a word is its list of runes. *)

(** Go's [unicode] tables above ASCII. *)
Class UnicodeTables := {
  wide_ToLower : Z → Z;
  wide_IsLetter : Z → bool;
  wide_IsDigit : Z → bool;
}.

Fixpoint string_runes (s : string) : list Z :=
  match s with
  | EmptyString => []
  | String c rest => Z.of_N (N_of_ascii c) :: string_runes rest
  end.

Definition in_range (lo b hi : Z) : bool := (lo <=? b) && (b <=? hi).

Definition rune_error : Z := 0xfffd.

(** The runes a [range] over a string yields: a byte that starts no valid
    UTF-8 sequence counts as the replacement character. *)
Fixpoint runes (bs : list Z) : list Z :=
  match bs with
  | [] => []
  | b0 :: t0 =>
      if b0 <? 0x80 then b0 :: runes t0
      else
        let bad := rune_error :: runes t0 in
        match t0 with
        | [] => bad
        | b1 :: t1 =>
            if in_range 0xc2 b0 0xdf then
              if in_range 0x80 b1 0xbf then (Z.land b0 0x1f * 64 + Z.land b1 0x3f) :: runes t1 else bad
            else
              match t1 with
              | [] => bad
              | b2 :: t2 =>
                  if in_range 0xe0 b0 0xef then
                    if in_range (if b0 =? 0xe0 then 0xa0 else 0x80) b1 (if b0 =? 0xed then 0x9f else 0xbf)
                       && in_range 0x80 b2 0xbf
                    then (Z.land b0 0xf * 4096 + Z.land b1 0x3f * 64 + Z.land b2 0x3f) :: runes t2
                    else bad
                  else
                    match t2 with
                    | [] => bad
                    | b3 :: t3 =>
                        if in_range 0xf0 b0 0xf4
                           && in_range (if b0 =? 0xf0 then 0x90 else 0x80) b1 (if b0 =? 0xf4 then 0x8f else 0xbf)
                           && in_range 0x80 b2 0xbf && in_range 0x80 b3 0xbf
                        then (Z.land b0 0x7 * 262144 + Z.land b1 0x3f * 4096 + Z.land b2 0x3f * 64 + Z.land b3 0x3f)
                               :: runes t3
                        else bad
                    end
              end
        end
  end.

Section Words.
Context `{!UnicodeTables}.

Definition ToLower (r : Z) : Z :=
  if r <? 0x80 then (if in_range 0x41 r 0x5a then r + 0x20 else r) else wide_ToLower r.

Definition IsLetter (r : Z) : bool :=
  if r <? 0x80 then in_range 0x41 r 0x5a || in_range 0x61 r 0x7a else wide_IsLetter r.

Definition IsDigit (r : Z) : bool := if r <? 0x80 then in_range 0x30 r 0x39 else wide_IsDigit r.

Definition separator (r : Z) : bool := negb (IsLetter r) && negb (IsDigit r).

(** [strings.FieldsFunc]; [word] is the field being read, reversed. *)
Fixpoint fields_from (word : list Z) (rs : list Z) : list (list Z) :=
  match rs with
  | [] => match word with [] => [] | _ => [reverse word] end
  | r :: rest =>
      if separator r then
        match word with [] => fields_from [] rest | _ => reverse word :: fields_from [] rest end
      else fields_from (r :: word) rest
  end.

Definition textWords (text : string) : list (list Z) :=
  fields_from [] (ToLower <$> runes (string_runes text)).

(** Every word is non-empty and holds letters and digits only. *)
Lemma fields_from_ok word rs w :
  Forall (λ r, separator r = false) word → w ∈ fields_from word rs →
  w ≠ [] ∧ Forall (λ r, separator r = false) w.
Proof.
  assert (∀ v, Forall (λ r, separator r = false) v → v ≠ [] → w = reverse v →
    w ≠ [] ∧ Forall (λ r, separator r = false) w) as Hrev.
  { intros v Hv Hne ->. split; [|by apply Forall_reverse]. intros E. apply Hne.
    by rewrite <-(reverse_involutive v), E. }
  revert word. induction rs as [|r rs IH]; intros word Hw Hin; cbn [fields_from] in Hin.
  - destruct word; [by apply not_elem_of_nil in Hin|]. apply list_elem_of_singleton in Hin. by eapply Hrev.
  - destruct (separator r) eqn:E.
    + destruct word as [|c word]; [by apply (IH []); [constructor|]|].
      apply elem_of_cons in Hin as [->|Hin]; [by eapply Hrev|]. by apply (IH []); [constructor|].
    + apply (IH (r :: word)); [by constructor|done].
Qed.

End Words.

(** ASCII text only: nothing beyond it is a letter. *)
Definition ascii_tables : UnicodeTables :=
  {| wide_ToLower := λ r, r; wide_IsLetter := λ _, false; wide_IsDigit := λ _, false |}.

Example words_example :
  @textWords ascii_tables "Go-1.22: Vector  DB!" = string_runes <$> ["go"; "1"; "22"; "vector"; "db"].
Proof. vm_compute. reflexivity. Qed.

Example runes_example : runes [0x61; 0xc3; 0xa9; 0xff; 0xe2; 0x82; 0xac; 0xed; 0xa0; 0x80; 0xf0; 0x9f; 0x98; 0x80]
  = [0x61; 0xe9; 0xfffd; 0x20ac; 0xfffd; 0xfffd; 0xfffd; 0x1f600].
Proof. vm_compute. reflexivity. Qed.
