(* ===== verification/Bitmap.v ===== *)
(** * Ordinal bitmaps

    [Set] of [internal/metadata/filter.go]: the words of a dense bitmap and
    the number of its members, kept incrementally by [Add] and [Remove] and
    recounted by the bulk operations.  A nil [*Set] is [None].  [setIDs] is
    the enumeration of [persistence.go]. *)
From Stdlib Require Import ZArith Lia.
From stdpp Require Import base tactics list gmap sorting.
From S2P Require Import Prelude.
Local Open Scope Z_scope.
Local Open Scope list_scope.

Module Bitmap.

Record t : Set := mk { words : list Z; count : Z }.

(** A word of [words], and none past the end. *)
Definition word_at (s : t) (i : Z) : Z := default 0 (words s !! Z.to_nat i).

Definition newSet (maxID : Z) : t := mk (replicate (Z.to_nat (maxID / 64 + 1)) 0) 0.

Definition mask (id : Z) : Z := Z.shiftl 1 (id mod 64).

Definition Add (s : t) (id : Z) : t :=
  let word := id / 64 in
  let ws := if len (words s) <=? word
            then words s ++ replicate (Z.to_nat (word - len (words s) + 1)) 0
            else words s in
  let w := default 0 (ws !! Z.to_nat word) in
  if Z.land w (mask id) =? 0 then mk (<[Z.to_nat word := Z.lor w (mask id)]> ws) (count s + 1)
  else mk ws (count s).

Definition Remove (s : t) (id : Z) : t :=
  if len (words s) <=? id / 64 then s
  else
    let w := word_at s (id / 64) in
    if Z.land w (mask id) =? 0 then s
    else mk (<[Z.to_nat (id / 64) := Z.ldiff w (mask id)]> (words s)) (count s - 1).

Definition Contains (s : t) (id : Z) : bool :=
  (id / 64 <? len (words s)) && negb (Z.land (word_at s (id / 64)) (mask id) =? 0).

Definition Len (s : t) : Z := count s.

(** [bits.OnesCount64] *)
Fixpoint count_bits (n : nat) (w : Z) : Z :=
  match n with O => 0 | S n => Z.b2z (Z.testbit w (Z.of_nat n)) + count_bits n w end.

Definition OnesCount64 (w : Z) : Z := count_bits 64 w.

Definition recount (ws : list Z) : t := mk ws (foldl (λ n w, n + OnesCount64 w) 0 ws).

Definition clone (source : option t) : t := match source with Some s => s | None => newSet 0 end.

(** Word by word; the longer operand's tail is kept. *)
Fixpoint or_words (a b : list Z) : list Z :=
  match a, b with
  | [], _ => b
  | _, [] => a
  | x :: a, y :: b => Z.lor x y :: or_words a b
  end.

Definition union (a b : option t) : t :=
  match b with
  | None => clone a
  | Some b => recount (or_words (words (clone a)) (words b))
  end.

Definition intersect (a b : option t) : t :=
  match a, b with
  | Some a, Some b => recount (zip_with Z.land (words a) (words b))
  | _, _ => newSet 0
  end.

Fixpoint diff_words (a b : list Z) : list Z :=
  match a, b with
  | x :: a, y :: b => Z.ldiff x y :: diff_words a b
  | _, _ => a
  end.

Definition difference (a b : option t) : t :=
  match b with
  | None => clone a
  | Some b => recount (diff_words (words (clone a)) (words b))
  end.

(** [bits.TrailingZeros64] of a word that is not zero. *)
Fixpoint trailing_zeros (fuel : nat) (w : Z) : Z :=
  match fuel with
  | O => 0
  | S fuel => if Z.odd w then 0 else 1 + trailing_zeros fuel (Z.shiftr w 1)
  end.

Definition TrailingZeros64 (w : Z) : Z := trailing_zeros 64 w.

(** The loop over one word: [for value != 0 { ...; value &= value - 1 }]. *)
Fixpoint word_ids (fuel : nat) (base value : Z) : list Z :=
  match fuel with
  | O => []
  | S fuel =>
      if value =? 0 then []
      else base + TrailingZeros64 value :: word_ids fuel base (Z.land value (value - 1))
  end.

Fixpoint ids_from (word : Z) (ws : list Z) : list Z :=
  match ws with
  | [] => []
  | w :: rest => word_ids 64 (word * 64) w ++ ids_from (word + 1) rest
  end.

Definition setIDs (s : t) : list Z := ids_from 0 (words s).

(** ** Meaning *)

(** Members are read through [Contains]; [inv] keeps the words within 64
    bits and the count exact. *)
Definition ones (ws : list Z) : Z := foldl (λ n w, n + OnesCount64 w) 0 ws.

Record inv (s : t) : Prop := mkInv {
  inv_words : Forall (λ w, 0 ≤ w < 2 ^ 64) (words s);
  inv_count : count s = ones (words s);
}.

Lemma id_split id : id = 64 * (id / 64) + id mod 64 ∧ 0 ≤ id mod 64 < 64.
Proof. split; [apply Z.div_mod; lia|apply Z.mod_pos_bound; lia]. Qed.

Lemma mask_bit id b : 0 ≤ b → Z.testbit (mask id) b = (b =? id mod 64).
Proof.
  intros Hb. unfold mask. destruct (id_split id) as [_ Hm]. rewrite Z.shiftl_1_l, Z.pow2_bits_eqb by lia.
  apply Z.eqb_sym.
Qed.

Lemma land_mask w id : (Z.land w (mask id) =? 0) = negb (Z.testbit w (id mod 64)).
Proof.
  destruct (id_split id) as [_ Hm]. destruct (Z.testbit w (id mod 64)) eqn:E; simpl.
  - apply Z.eqb_neq. intros H. assert (Z.testbit (Z.land w (mask id)) (id mod 64) = false) as Hf
      by (rewrite H; apply Z.bits_0).
    rewrite Z.land_spec, E, mask_bit, Z.eqb_refl in Hf by lia. done.
  - apply Z.eqb_eq. apply Z.bits_inj'. intros b Hb. rewrite Z.land_spec, Z.bits_0, mask_bit by done.
    destruct (Z.eqb_spec b (id mod 64)) as [->|_]; [by rewrite E|apply andb_false_r].
Qed.

Lemma word_past s i : len (words s) ≤ i → word_at s i = 0.
Proof. intros H. unfold word_at. by rewrite lookup_ge_None_2 by (unfold len in H; lia). Qed.

Lemma Contains_bit s id : Contains s id = Z.testbit (word_at s (id / 64)) (id mod 64).
Proof.
  unfold Contains. rewrite land_mask, negb_involutive.
  destruct (Z.ltb_spec (id / 64) (len (words s))) as [_|H]; [done|]. by rewrite word_past, Z.bits_0 by done.
Qed.

Lemma Contains_newSet n id : Contains (newSet n) id = false.
Proof.
  rewrite Contains_bit. unfold word_at, newSet. cbn [words].
  destruct (replicate _ 0 !! _) as [w|] eqn:E; [|apply Z.bits_0].
  apply lookup_replicate in E as [-> _]. apply Z.bits_0.
Qed.

(** Bulk operations act on each word. *)
Lemma or_words_at a b i : default 0 (or_words a b !! i) = Z.lor (default 0 (a !! i)) (default 0 (b !! i)).
Proof.
  revert b i. induction a as [|x a IH]; intros [|y b] i; cbn [or_words]; rewrite ?lookup_nil; simpl.
  - done.
  - done.
  - by rewrite Z.lor_0_r.
  - destruct i as [|i]; simpl; [done|apply IH].
Qed.

Lemma diff_words_at a b i : default 0 (diff_words a b !! i) = Z.ldiff (default 0 (a !! i)) (default 0 (b !! i)).
Proof.
  revert b i. induction a as [|x a IH]; intros [|y b] i; cbn [diff_words]; rewrite ?lookup_nil; simpl.
  - done.
  - done.
  - by rewrite Z.ldiff_0_r.
  - destruct i as [|i]; simpl; [done|apply IH].
Qed.

Lemma and_words_at a b i : default 0 (zip_with Z.land a b !! i) = Z.land (default 0 (a !! i)) (default 0 (b !! i)).
Proof.
  rewrite lookup_zip_with. destruct (a !! i), (b !! i); simpl; rewrite ?Z.land_0_r, ?Z.land_0_l; done.
Qed.

Definition has (s : option t) (id : Z) : bool := match s with Some s => Contains s id | None => false end.

Lemma clone_has s id : Contains (clone s) id = has s id.
Proof. destruct s; [done|apply Contains_newSet]. Qed.

Lemma union_has a b id : Contains (union a b) id = has a id || has b id.
Proof.
  destruct b as [b|]; simpl; [|by rewrite clone_has, orb_false_r].
  rewrite <-clone_has. unfold recount. rewrite !Contains_bit. unfold word_at. cbn [words]. by rewrite or_words_at, Z.lor_spec.
Qed.

Lemma intersect_has a b id : Contains (intersect a b) id = has a id && has b id.
Proof.
  destruct a as [a|], b as [b|]; simpl; rewrite ?Contains_newSet, ?andb_false_r; try done.
  unfold recount. rewrite !Contains_bit. unfold word_at. cbn [words]. by rewrite and_words_at, Z.land_spec.
Qed.

Lemma difference_has a b id : Contains (difference a b) id = has a id && negb (has b id).
Proof.
  destruct b as [b|]; simpl; [|by rewrite clone_has, andb_true_r].
  rewrite <-clone_has. unfold recount. destruct (id_split id) as [_ Hm].
  rewrite !Contains_bit. unfold word_at. cbn [words]. by rewrite diff_words_at, Z.ldiff_spec.
Qed.

(** ** Single members *)

Definition grow (ws : list Z) (word : Z) : list Z :=
  if len ws <=? word then ws ++ replicate (Z.to_nat (word - len ws + 1)) 0 else ws.

Lemma grow_at ws word i : default 0 (grow ws word !! i) = default 0 (ws !! i).
Proof.
  unfold grow. destruct (len ws <=? word); [|done].
  destruct (decide (i < length ws)%nat) as [H|H]; [by rewrite lookup_app_l|].
  rewrite lookup_app_r by lia. rewrite (lookup_ge_None_2 ws i) by lia. simpl.
  destruct (replicate _ 0 !! _) as [w|] eqn:E; [|done]. by apply lookup_replicate in E as [-> _].
Qed.

Lemma grow_length ws word : 0 ≤ word → (Z.to_nat word < length (grow ws word))%nat.
Proof.
  intros Hw. unfold grow, len. destruct (Z.leb_spec (Z.of_nat (length ws)) word) as [H|H]; [|lia].
  rewrite length_app, length_replicate. lia.
Qed.

Lemma lookup_default_insert ws i j w :
  (i < length ws)%nat → default 0 (<[i := w]> ws !! j) = if decide (j = i) then w else default 0 (ws !! j).
Proof.
  intros Hi. destruct (decide (j = i)) as [->|Hne].
  - by rewrite list_lookup_insert_eq.
  - by rewrite list_lookup_insert_ne.
Qed.

Lemma Add_unfold s id :
  Add s id =
  let ws := grow (words s) (id / 64) in
  let w := default 0 (ws !! Z.to_nat (id / 64)) in
  if Z.testbit w (id mod 64) then mk ws (count s)
  else mk (<[Z.to_nat (id / 64) := Z.lor w (mask id)]> ws) (count s + 1).
Proof. unfold Add, grow. cbv zeta. rewrite land_mask. by destruct (Z.testbit _ _). Qed.

Lemma Remove_unfold s id :
  Remove s id =
  if Contains s id
  then mk (<[Z.to_nat (id / 64) := Z.ldiff (word_at s (id / 64)) (mask id)]> (words s)) (count s - 1)
  else s.
Proof.
  unfold Remove, Contains. destruct (Z.ltb_spec (id / 64) (len (words s))) as [H|H].
  - rewrite (proj2 (Z.leb_gt _ _)) by lia. simpl. by destruct (_ =? 0).
  - rewrite (proj2 (Z.leb_le _ _)) by lia. done.
Qed.

Lemma same_id i j : 0 ≤ i → 0 ≤ j → Z.to_nat (j / 64) = Z.to_nat (i / 64) → j mod 64 = i mod 64 → j = i.
Proof.
  intros Hi Hj H1 H2. destruct (id_split i) as [Ei _], (id_split j) as [Ej _].
  assert (0 ≤ i / 64) by (apply Z.div_pos; lia). assert (0 ≤ j / 64) by (apply Z.div_pos; lia).
  rewrite Ei, Ej. lia.
Qed.

Lemma Add_has s id j : 0 ≤ id → 0 ≤ j → Contains (Add s id) j = (j =? id) || Contains s j.
Proof.
  intros Hid Hj. assert (0 ≤ id / 64) as Hd by (apply Z.div_pos; lia). rewrite Add_unfold. cbv zeta.
  pose proof (grow_length (words s) (id / 64) Hd) as Hl. rewrite !Contains_bit. unfold word_at.
  rewrite grow_at. destruct (id_split j) as [_ Hm]. destruct (Z.testbit _ (id mod 64)) eqn:E; cbn [words].
  - rewrite grow_at. destruct (Z.eqb_spec j id) as [->|_]; [done|done].
  - rewrite lookup_default_insert by done. destruct (decide _) as [Hw|Hw].
    + rewrite Z.lor_spec, mask_bit by lia. rewrite Hw, orb_comm. f_equal.
      destruct (Z.eqb_spec (j mod 64) (id mod 64)) as [H|H], (Z.eqb_spec j id) as [Hji|Hji]; try done.
      * exfalso. apply Hji. by apply same_id.
      * subst. done.
    + rewrite grow_at. destruct (Z.eqb_spec j id) as [->|_]; [done|done].
Qed.

Lemma Remove_has s id j : 0 ≤ id → 0 ≤ j → Contains (Remove s id) j = negb (j =? id) && Contains s j.
Proof.
  intros Hid Hj. rewrite Remove_unfold. destruct (Contains s id) eqn:Ec.
  - assert (id / 64 < len (words s)) as Hlt.
    { unfold Contains in Ec. apply andb_true_iff in Ec as [H _]. by apply Z.ltb_lt. }
    assert (0 ≤ id / 64) by (apply Z.div_pos; lia). rewrite !Contains_bit. unfold word_at. cbn [words].
    destruct (id_split j) as [_ Hm]. rewrite lookup_default_insert by (unfold len in Hlt; lia).
    destruct (decide _) as [Hw|Hw].
    + rewrite Z.ldiff_spec, mask_bit, Hw by lia. rewrite andb_comm. f_equal. f_equal.
      destruct (Z.eqb_spec (j mod 64) (id mod 64)) as [H'|H'], (Z.eqb_spec j id) as [Hji|Hji]; try done.
      * exfalso. apply Hji. by apply same_id.
      * subst. done.
    + destruct (Z.eqb_spec j id) as [->|_]; [done|done].
  - destruct (Z.eqb_spec j id) as [->|_]; [by rewrite Ec|done].
Qed.

(** ** Counting *)

Lemma foldl_ones ws n : foldl (λ n w, n + OnesCount64 w) n ws = n + ones ws.
Proof.
  revert n. unfold ones. induction ws as [|w ws IH]; intros n; cbn [foldl]; [lia|].
  rewrite (IH (n + _)), (IH (0 + _)). lia.
Qed.

Lemma ones_cons w ws : ones (w :: ws) = OnesCount64 w + ones ws.
Proof. unfold ones at 1. cbn [foldl]. rewrite foldl_ones. lia. Qed.

Lemma ones_app a b : ones (a ++ b) = ones a + ones b.
Proof. unfold ones at 1. by rewrite foldl_app, foldl_ones. Qed.

Lemma ones_insert ws i w :
  (i < length ws)%nat → ones (<[i := w]> ws) = ones ws - OnesCount64 (default 0 (ws !! i)) + OnesCount64 w.
Proof.
  revert i. induction ws as [|x ws IH]; intros i Hi; simpl in Hi; [lia|].
  destruct i as [|i]; simpl; rewrite !ones_cons; [lia|]. rewrite IH by lia. lia.
Qed.

Lemma ones_replicate n : ones (replicate n 0) = 0.
Proof. induction n as [|n IH]; [done|]. simpl. rewrite ones_cons, IH. done. Qed.

Lemma count_bits_ext n v w :
  (∀ b, 0 ≤ b < Z.of_nat n → Z.testbit v b = Z.testbit w b) → count_bits n v = count_bits n w.
Proof.
  induction n as [|n IH]; intros H; [done|]. cbn [count_bits]. rewrite (H (Z.of_nat n)) by lia.
  rewrite IH; [done|]. intros b Hb. apply H. lia.
Qed.

(** One more bit is one more. *)
Lemma count_bits_set n v w i :
  0 ≤ i < Z.of_nat n → Z.testbit v i = false → (∀ b, 0 ≤ b → Z.testbit w b = (b =? i) || Z.testbit v b) →
  count_bits n w = count_bits n v + 1.
Proof.
  intros Hi Hv Hw. induction n as [|n IH]; [lia|]. cbn [count_bits].
  rewrite Hw by lia. destruct (Z.eqb_spec (Z.of_nat n) i) as [E|E].
  - rewrite E, Hv. simpl. rewrite (count_bits_ext n w v); [lia|]. intros b Hb. rewrite Hw by lia.
    by rewrite (proj2 (Z.eqb_neq _ _)) by lia.
  - simpl. rewrite IH by lia. lia.
Qed.

Lemma count_bits_bounds n v : 0 ≤ count_bits n v ≤ Z.of_nat n.
Proof. induction n as [|n IH]; cbn [count_bits]; [lia|]. destruct (Z.testbit v _); simpl; lia. Qed.

Lemma OnesCount64_set w id :
  Z.testbit w (id mod 64) = false → OnesCount64 (Z.lor w (mask id)) = OnesCount64 w + 1.
Proof.
  intros H. destruct (id_split id) as [_ Hm]. apply (count_bits_set 64 _ _ (id mod 64)); [lia|done|].
  intros b Hb. rewrite Z.lor_spec, mask_bit by done. apply orb_comm.
Qed.

Lemma OnesCount64_clear w id :
  Z.testbit w (id mod 64) = true → OnesCount64 (Z.ldiff w (mask id)) = OnesCount64 w - 1.
Proof.
  intros H. destruct (id_split id) as [_ Hm]. unfold OnesCount64.
  rewrite (count_bits_set 64 (Z.ldiff w (mask id)) w (id mod 64)); [lia|lia|..].
  - rewrite Z.ldiff_spec, mask_bit, Z.eqb_refl by lia. apply andb_false_r.
  - intros b Hb. rewrite Z.ldiff_spec, mask_bit by done. destruct (Z.eqb_spec b (id mod 64)) as [->|_]; [done|].
    by rewrite andb_true_r.
Qed.

(** A word of 64 bits, read bit by bit. *)
Lemma word_range w : 0 ≤ w < 2 ^ 64 ↔ 0 ≤ w ∧ ∀ b, 64 ≤ b → Z.testbit w b = false.
Proof.
  split; intros [Hw H]; (split; [done|]).
  - intros b Hb. destruct (Z.eq_dec w 0) as [->|Hne]; [apply Z.bits_0|]. apply Z.bits_above_log2; [done|].
    apply Z.log2_lt_pow2; [lia|]. assert (2 ^ 64 ≤ 2 ^ b) by (apply Z.pow_le_mono_r; lia). lia.
  - destruct (Z.eq_dec w 0) as [->|Hne]; [done|]. destruct (Z.lt_ge_cases w (2 ^ 64)) as [|Hge]; [done|].
    apply Z.log2_le_pow2 in Hge; [|lia]. specialize (H (Z.log2 w) Hge). by rewrite Z.bit_log2 in H by lia.
Qed.

Lemma lor_range a b : 0 ≤ a < 2 ^ 64 → 0 ≤ b < 2 ^ 64 → 0 ≤ Z.lor a b < 2 ^ 64.
Proof.
  rewrite !word_range. intros [Ha Ha'] [Hb Hb']. split; [by apply Z.lor_nonneg|].
  intros i Hi. by rewrite Z.lor_spec, Ha', Hb'.
Qed.

Lemma land_range a b : 0 ≤ a < 2 ^ 64 → 0 ≤ Z.land a b < 2 ^ 64.
Proof.
  rewrite !word_range. intros [Ha Ha']. split; [apply Z.land_nonneg; by left|].
  intros i Hi. by rewrite Z.land_spec, Ha'.
Qed.

Lemma ldiff_range a b : 0 ≤ a < 2 ^ 64 → 0 ≤ Z.ldiff a b < 2 ^ 64.
Proof.
  rewrite !word_range. intros [Ha Ha']. split; [apply Z.ldiff_nonneg; by left|].
  intros i Hi. by rewrite Z.ldiff_spec, Ha'.
Qed.

Lemma mask_range id : 0 ≤ mask id < 2 ^ 64.
Proof.
  apply word_range. destruct (id_split id) as [_ Hm]. split; [apply Z.shiftl_nonneg; lia|].
  intros b Hb. rewrite mask_bit by lia. apply Z.eqb_neq. lia.
Qed.

Lemma word_at_range ws i : Forall (λ w, 0 ≤ w < 2 ^ 64) ws → 0 ≤ default 0 (ws !! i) < 2 ^ 64.
Proof.
  intros H. destruct (ws !! i) as [w|] eqn:E; simpl; [|lia]. rewrite Forall_lookup in H. by apply (H i).
Qed.

(** ** Every operation keeps the count exact *)

Lemma inv_newSet n : inv (newSet n).
Proof. constructor; [apply Forall_replicate; lia|simpl; by rewrite ones_replicate]. Qed.

Lemma inv_clone s : (∀ x, s = Some x → inv x) → inv (clone s).
Proof. intros H. destruct s as [s|]; [by apply H|apply inv_newSet]. Qed.

Lemma inv_recount ws : Forall (λ w, 0 ≤ w < 2 ^ 64) ws → inv (recount ws).
Proof. intros H. by constructor. Qed.

Lemma grow_range ws word : Forall (λ w, 0 ≤ w < 2 ^ 64) ws → Forall (λ w, 0 ≤ w < 2 ^ 64) (grow ws word).
Proof.
  intros H. unfold grow. destruct (_ <=? _); [|done]. apply Forall_app. split; [done|apply Forall_replicate; lia].
Qed.

Lemma grow_ones ws word : ones (grow ws word) = ones ws.
Proof. unfold grow. destruct (_ <=? _); [|done]. rewrite ones_app, ones_replicate. lia. Qed.

Lemma inv_Add s id : 0 ≤ id → inv s → inv (Add s id).
Proof.
  intros Hid [Hw Hc]. rewrite Add_unfold. cbv zeta. pose proof (grow_range _ (id / 64) Hw) as Hg.
  assert (0 ≤ id / 64) as Hd by (apply Z.div_pos; lia). pose proof (grow_length (words s) (id / 64) Hd).
  destruct (Z.testbit _ _) eqn:E; constructor; cbn [words count].
  - done.
  - by rewrite grow_ones.
  - apply Forall_insert; [done|]. apply lor_range; [by apply word_at_range|apply mask_range].
  - rewrite ones_insert, OnesCount64_set, grow_ones by done. lia.
Qed.

Lemma inv_Remove s id : 0 ≤ id → inv s → inv (Remove s id).
Proof.
  intros Hid [Hw Hc]. rewrite Remove_unfold. destruct (Contains s id) eqn:Ec; [|done].
  assert (0 ≤ id / 64) as Hd by (apply Z.div_pos; lia).
  pose proof Ec as Hb. rewrite Contains_bit in Hb. unfold Contains in Ec. apply andb_true_iff in Ec as [Hlt _].
  apply Z.ltb_lt in Hlt. constructor; cbn [words count].
  - apply Forall_insert; [done|]. apply ldiff_range. by apply word_at_range.
  - rewrite ones_insert by (unfold len in Hlt; lia). unfold word_at in Hb |- *. rewrite OnesCount64_clear by done. lia.
Qed.

Lemma inv_union a b : (∀ x, a = Some x → inv x) → (∀ x, b = Some x → inv x) → inv (union a b).
Proof.
  intros Ha Hb. pose proof (inv_words _ (inv_clone a Ha)) as Hc. destruct b as [b|]; [|by apply inv_clone].
  apply inv_recount. pose proof (inv_words _ (Hb b eq_refl)) as Hw. revert Hc Hw.
  generalize (words (clone a)) (words b). intros l. induction l as [|x l IH]; intros [|y k] Hl Hk; simpl; try done.
  inversion Hl; inversion Hk; subst. constructor; [by apply lor_range|by apply IH].
Qed.

Lemma inv_intersect a b : (∀ x, a = Some x → inv x) → inv (intersect a b).
Proof.
  intros Ha. destruct a as [a|], b as [b|]; simpl; try apply inv_newSet. apply inv_recount.
  pose proof (inv_words _ (Ha a eq_refl)) as Hw. generalize (words b). revert Hw. generalize (words a).
  intros l. induction l as [|x l IH]; intros Hl [|y k]; simpl; constructor; inversion Hl; subst;
    [by apply land_range|by apply IH].
Qed.

Lemma inv_difference a b : (∀ x, a = Some x → inv x) → inv (difference a b).
Proof.
  intros Ha. pose proof (inv_words _ (inv_clone a Ha)) as Hc. destruct b as [b|]; [|by apply inv_clone].
  apply inv_recount. generalize (words b). revert Hc. generalize (words (clone a)).
  intros l. induction l as [|x l IH]; intros Hl [|y k]; simpl; try done.
  inversion Hl; subst. constructor; [by apply ldiff_range|by apply IH].
Qed.

(** ** Enumeration *)

Lemma trailing_zeros_spec fuel w :
  0 < w < 2 ^ Z.of_nat fuel →
  let t := trailing_zeros fuel w in
  0 ≤ t < Z.of_nat fuel ∧ ∃ q, 0 ≤ q ∧ w = (2 * q + 1) * 2 ^ t.
Proof.
  revert w. induction fuel as [|fuel IH]; intros w Hw; [simpl in Hw; lia|]. cbn [trailing_zeros].
  destruct (Z.odd w) eqn:E; cbv zeta.
  - split; [lia|]. exists (w / 2). pose proof (Z.div_mod w 2). rewrite Zmod_odd, E in *.
    split; [apply Z.div_pos; lia|]. rewrite Z.pow_0_r. lia.
  - assert (w = 2 * Z.shiftr w 1) as Ew.
    { rewrite Z.shiftr_div_pow2 by lia. change (2 ^ 1) with 2. pose proof (Z.div_mod w 2). rewrite Zmod_odd, E in *. lia. }
    rewrite Nat2Z.inj_succ, Z.pow_succ_r in Hw by lia.
    destruct (IH (Z.shiftr w 1)) as (Ht&q&Hq&E2); [lia|]. cbv zeta in Ht, E2. split; [lia|].
    exists q. split; [done|]. rewrite Z.pow_add_r by lia. change (2 ^ 1) with 2. lia.
Qed.

(** [value &= value - 1] clears the lowest bit and no other. *)
Lemma clear_lowest q t b :
  0 ≤ q → 0 ≤ t → 0 ≤ b →
  let v := (2 * q + 1) * 2 ^ t in
  Z.testbit v t = true ∧ (b < t → Z.testbit v b = false) ∧
  Z.testbit (Z.land v (v - 1)) b = Z.testbit v b && negb (b =? t).
Proof.
  intros Hq Ht Hb v. assert (0 < 2 ^ t) as Hp by (apply Z.pow_pos_nonneg; lia).
  assert (∀ x i, 0 ≤ x → 0 ≤ i → t ≤ i → Z.testbit x i = Z.testbit (x / 2 ^ t) (i - t)) as Hdiv.
  { intros x i Hx Hi Hti. rewrite Z.div_pow2_bits by lia. f_equal. lia. }
  assert (v / 2 ^ t = 2 * q + 1) as E1 by (unfold v; apply Z.div_mul; lia).
  assert ((v - 1) / 2 ^ t = 2 * q) as E2.
  { unfold v. symmetry. apply (Z.div_unique _ _ _ (2 ^ t - 1)); [lia|lia]. }
  assert (0 ≤ v - 1) as Hv by (unfold v; nia).
  assert (∀ i, 0 ≤ i → i < t → Z.testbit v i = false) as Hlow.
  { intros i Hi Hit. unfold v. by rewrite Z.mul_pow2_bits_low. }
  split; [|split; [by apply Hlow|]].
  - rewrite Hdiv, E1, Z.sub_diag by lia. apply Z.testbit_odd_0.
  - rewrite Z.land_spec. destruct (Z.lt_trichotomy b t) as [H|[->|H]].
    + by rewrite Hlow.
    + rewrite Z.eqb_refl. assert (Z.testbit (v - 1) t = false) as ->; [|by rewrite !andb_false_r].
      rewrite Hdiv by lia. rewrite E2, Z.sub_diag. apply Z.testbit_even_0.
    + rewrite (proj2 (Z.eqb_neq b t)) by lia. rewrite andb_true_r. rewrite (Hdiv v b), (Hdiv (v - 1) b) by lia. rewrite E1, E2.
      replace (b - t) with (Z.succ (b - t - 1)) by lia.
      rewrite Z.testbit_odd_succ, Z.testbit_even_succ by lia. apply andb_diag.
Qed.

Definition ascending : list Z → Prop := StronglySorted Z.lt.

(** One round clears the lowest bit of a word, which is where
    [TrailingZeros64] points. *)
Lemma clear_step v :
  0 ≤ v < 2 ^ 64 → v ≠ 0 →
  let t := TrailingZeros64 v in
  0 ≤ t < 64 ∧ (∀ b, 0 ≤ b < t → Z.testbit v b = false) ∧ Z.testbit v t = true ∧
  (∀ b, 0 ≤ b → Z.testbit (Z.land v (v - 1)) b = Z.testbit v b && negb (b =? t)) ∧
  count_bits 64 v = count_bits 64 (Z.land v (v - 1)) + 1.
Proof.
  intros Hv Hne. cbv zeta. destruct (trailing_zeros_spec 64 v ltac:(lia)) as (Ht&q&Hq&Eq). unfold TrailingZeros64.
  set (t := trailing_zeros 64 v) in *. clearbody t.
  assert (∀ b, 0 ≤ b → Z.testbit (Z.land v (v - 1)) b = Z.testbit v b && negb (b =? t)) as Hclear.
  { intros b Hb. rewrite Eq. destruct (clear_lowest q t b) as (_&_&?); done || lia. }
  assert (Z.testbit v t = true) as Hvt by (rewrite Eq; by destruct (clear_lowest q t 0) as [? _]; lia || done).
  split_and!; try lia; try done.
  - intros b Hb. rewrite Eq. destruct (clear_lowest q t b) as (_&Hlow&_); [lia..|]. apply Hlow. lia.
  - apply (count_bits_set 64 _ _ t); [lia| |].
    + rewrite Hclear, Z.eqb_refl by lia. apply andb_false_r.
    + intros b Hb. rewrite Hclear by done. destruct (Z.eqb_spec b t) as [->|]; [done|]. by rewrite andb_true_r.
Qed.

(** The loop ends after one round per bit and lists the bits upward. *)
Lemma word_ids_spec fuel base v :
  0 ≤ v < 2 ^ 64 → count_bits 64 v ≤ Z.of_nat fuel →
  (∀ id, id ∈ word_ids fuel base v ↔ 0 ≤ id - base < 64 ∧ Z.testbit v (id - base) = true) ∧
  len (word_ids fuel base v) = count_bits 64 v ∧ ascending (word_ids fuel base v).
Proof.
  revert v. induction fuel as [|fuel IH]; intros v Hv Hf.
  - pose proof (count_bits_bounds 64 v). assert (count_bits 64 v = 0) as H0 by lia. rewrite H0. cbn [word_ids].
    split; [|split; [done|constructor]]. intros id. split; [intros H1; by apply not_elem_of_nil in H1|].
    intros [Hid Hb]. exfalso. pose proof (OnesCount64_clear v (id - base)) as Hc.
    rewrite Z.mod_small in Hc by lia. pose proof (count_bits_bounds 64 (Z.ldiff v (mask (id - base)))).
    unfold OnesCount64 in Hc. specialize (Hc Hb). lia.
  - cbn [word_ids]. destruct (Z.eqb_spec v 0) as [->|Hne].
    { split; [|split; [done|constructor]]. intros id. rewrite Z.bits_0.
      split; [intros H1; by apply not_elem_of_nil in H1|by intros [_ ?]]. }
    destruct (clear_step v Hv Hne) as (Ht&Hlow&Hvt&Hclear&Hcount). set (t := TrailingZeros64 v) in *. clearbody t.
    destruct (IH (Z.land v (v - 1))) as (Hin&Hlen&Hs); [by apply land_range|lia|]. split; [|split].
    + intros id. rewrite elem_of_cons, Hin. split.
      * intros [->|[Hr Hb]]; [replace (base + t - base) with t by lia; split; [lia|done]|].
        rewrite Hclear in Hb by lia. by apply andb_true_iff in Hb as [? _].
      * intros [Hr Hb]. destruct (Z.eq_dec (id - base) t) as [E|E]; [left; lia|]. right. split; [done|].
        rewrite Hclear, Hb by lia. simpl. apply negb_true_iff. by apply Z.eqb_neq.
    + unfold len in *. cbn [length]. lia.
    + constructor; [done|]. apply Forall_forall. intros id Hid. apply Hin in Hid as [Hr Hb].
      rewrite Hclear in Hb by lia. apply andb_true_iff in Hb as [Hb Hneq].
      apply negb_true_iff, Z.eqb_neq in Hneq. destruct (Z.lt_ge_cases (id - base) t) as [H|H]; [|lia].
      exfalso. rewrite Hlow in Hb by lia. done.
Qed.

(** The same in terms of [OnesCount64]. *)
Lemma OnesCount64_bounds v : 0 ≤ OnesCount64 v ≤ 64.
Proof. exact (count_bits_bounds 64 v). Qed.

Lemma clear_ones v : 0 ≤ v < 2 ^ 64 → v ≠ 0 → OnesCount64 v = OnesCount64 (Z.land v (v - 1)) + 1.
Proof. intros Hv Hne. by destruct (clear_step v Hv Hne) as (_&_&_&_&H). Qed.

Lemma length_word_ids base v : 0 ≤ v < 2 ^ 64 → Z.of_nat (length (word_ids 64 base v)) = OnesCount64 v.
Proof.
  intros Hv. destruct (word_ids_spec 64 base v Hv) as (_&H&_); [exact (proj2 (OnesCount64_bounds v))|].
  unfold OnesCount64. rewrite <-H. unfold len. reflexivity.
Qed.

Lemma zero_ones v : 0 ≤ v < 2 ^ 64 → OnesCount64 v = 0 → v = 0.
Proof.
  intros Hv H. destruct (decide (v = 0)) as [|E]; [done|]. pose proof (clear_ones v Hv E).
  pose proof (OnesCount64_bounds (Z.land v (v - 1))). lia.
Qed.

Lemma ones_zero : OnesCount64 0 = 0.
Proof. reflexivity. Qed.

(** The value after some rounds of the loop. *)
Definition after_rounds (n : nat) (value : Z) : Z := Nat.iter n (λ v, Z.land v (v - 1)) value.

Lemma after_rounds_count n v :
  0 ≤ v < 2 ^ 64 → Z.of_nat n ≤ OnesCount64 v →
  0 ≤ after_rounds n v < 2 ^ 64 ∧ OnesCount64 (after_rounds n v) = OnesCount64 v - Z.of_nat n.
Proof.
  intros Hv. induction n as [|n IH]; intros Hn; [split; [exact Hv|change (after_rounds 0 v) with v; lia]|].
  destruct IH as [Hr Hc]; [lia|]. change (after_rounds (S n) v) with (Z.land (after_rounds n v) (after_rounds n v - 1)).
  destruct (decide (after_rounds n v = 0)) as [E|E]; [rewrite E, ones_zero in Hc; lia|].
  pose proof (clear_ones _ Hr E) as H. split; [by apply land_range|lia].
Qed.

Lemma word_ids_more fuel k base v :
  0 ≤ v < 2 ^ 64 → OnesCount64 v ≤ Z.of_nat fuel → word_ids (fuel + k) base v = word_ids fuel base v.
Proof.
  revert v. induction fuel as [|fuel IH]; intros v Hv Hf.
  - pose proof (OnesCount64_bounds v). assert (v = 0) as -> by (apply zero_ones; [done|lia]). by destruct k.
  - cbn [Nat.add word_ids]. destruct (Z.eqb_spec v 0) as [|Hne]; [done|]. f_equal. apply IH; [by apply land_range|].
    pose proof (clear_ones v Hv Hne). lia.
Qed.

(** The loop of [setIDs] terminates.  Over a 64-bit word it makes exactly as
    many rounds as the word has bits set: the value is zero after that many
    and after none fewer.  So the 64 rounds the model allows are always
    enough, and any number of rounds from the population count on lists the
    same ordinals. *)
Theorem setIDs_loop_terminates base value :
  0 ≤ value < 2 ^ 64 →
  let rounds := Z.to_nat (OnesCount64 value) in
  (rounds ≤ 64)%nat ∧ after_rounds rounds value = 0 ∧ (∀ n, (n < rounds)%nat → after_rounds n value ≠ 0) ∧
  length (word_ids 64 base value) = rounds ∧
  ∀ fuel, (rounds ≤ fuel)%nat → word_ids fuel base value = word_ids 64 base value.
Proof.
  intros Hv. cbv zeta. pose proof (OnesCount64_bounds value) as Hb. set (ones := OnesCount64 value) in *.
  split; [|split; [|split; [|split]]].
  - lia.
  - destruct (after_rounds_count (Z.to_nat ones) value Hv) as [Hr Hc]; [lia|]. apply zero_ones; [done|lia].
  - intros n Hn E. destruct (after_rounds_count n value Hv) as [_ Hc]; [lia|]. rewrite E, ones_zero in Hc. lia.
  - pose proof (length_word_ids base value Hv). lia.
  - intros fuel Hf. assert (∀ n, (Z.to_nat ones ≤ n)%nat → word_ids n base value = word_ids (Z.to_nat ones) base value) as Hm.
    { intros n Hn. replace n with (Z.to_nat ones + (n - Z.to_nat ones))%nat by lia. apply word_ids_more; [done|lia]. }
    rewrite (Hm fuel Hf). symmetry. apply Hm. lia.
Qed.

Lemma setIDs_loop_terminates_witness :
  after_rounds 3 (2 ^ 63 + 5) = 0 ∧ after_rounds 2 (2 ^ 63 + 5) ≠ 0 ∧ word_ids 3 128 (2 ^ 63 + 5) = word_ids 64 128 (2 ^ 63 + 5).
Proof.
  destruct (setIDs_loop_terminates 128 (2 ^ 63 + 5)) as (_&H1&H2&_&H3); [lia|].
  split; [exact H1|]. split; [apply (H2 2%nat); vm_compute; lia|]. apply (H3 3%nat). vm_compute. lia.
Defined.

Lemma ids_from_spec ws word :
  Forall (λ w, 0 ≤ w < 2 ^ 64) ws →
  (∀ id, id ∈ ids_from word ws ↔
     0 ≤ id - word * 64 ∧ Z.testbit (default 0 (ws !! Z.to_nat (id / 64 - word))) (id mod 64) = true) ∧
  len (ids_from word ws) = ones ws ∧ ascending (ids_from word ws).
Proof.
  intros Hw. revert word. induction Hw as [|w ws Hw Hws IH]; intros word; cbn [ids_from].
  { split; [|split; [done|constructor]]. intros id. rewrite lookup_nil. simpl. rewrite Z.bits_0.
    split; [intros H1; by apply not_elem_of_nil in H1|by intros [_ ?]]. }
  destruct (IH (word + 1)) as (Hin&Hlen&Hs).
  destruct (word_ids_spec 64 (word * 64) w Hw) as (Hin1&Hlen1&Hs1); [pose proof (count_bits_bounds 64 w); lia|].
  split; [|split].
  - intros id. rewrite elem_of_app, Hin, Hin1. destruct (id_split id) as [Ei Hm]. split.
    + intros [[Hr Hb]|[Hr Hb]].
      * split; [lia|]. assert (id / 64 = word) as Ed by lia. rewrite Ed, Z.sub_diag. simpl.
        by replace (id mod 64) with (id - word * 64) by lia.
      * split; [lia|]. replace (Z.to_nat (id / 64 - word)) with (S (Z.to_nat (id / 64 - (word + 1)))) by lia. done.
    + intros [Hr Hb]. destruct (Z.eq_dec (id / 64) word) as [Ed|Ed].
      * left. rewrite Ed, Z.sub_diag in Hb. simpl in Hb. replace (id - word * 64) with (id mod 64) by lia. split; [lia|done].
      * right. split; [lia|]. replace (Z.to_nat (id / 64 - word)) with (S (Z.to_nat (id / 64 - (word + 1)))) in Hb by lia. done.
  - rewrite len_app, Hlen, Hlen1, ones_cons. done.
  - apply StronglySorted_app_2; [|done|done]. intros a b Ha Hb. apply Hin1 in Ha as [Ha _]. apply Hin in Hb as [Hb _]. lia.
Qed.

Lemma setIDs_elem s id : inv s → id ∈ setIDs s ↔ 0 ≤ id ∧ Contains s id = true.
Proof.
  intros [Hw _]. unfold setIDs. destruct (ids_from_spec (words s) 0 Hw) as [-> _].
  rewrite Contains_bit. unfold word_at. by rewrite Z.sub_0_r, Z.sub_0_r.
Qed.

Lemma setIDs_len s : inv s → len (setIDs s) = Len s.
Proof. intros [Hw Hc]. unfold setIDs, Len. destruct (ids_from_spec (words s) 0 Hw) as (_&->&_). done. Qed.

Lemma setIDs_ascending s : inv s → ascending (setIDs s).
Proof. intros [Hw _]. by destruct (ids_from_spec (words s) 0 Hw) as (_&_&?). Qed.

End Bitmap.
