(* ===== verification/Posting.v ===== *)
(** * Posting lists and numeric fields

    [posting] of [internal/metadata/filter.go] holds the ordinals with one
    value: one ordinal, a sparse set, or a bitmap once 64 of them share the
    value.  [numericField] is a small log-structured index: a sorted base,
    an unsorted delta and the authoritative current values.  Each is shown to
    stand for a plain set or map through any sequence of operations. *)
From Stdlib Require Import ZArith Lia.
From stdpp Require Import base tactics list gmap sorting.
From S2P Require Import Prelude Core Float Bitmap.
Local Set Warnings "-clear-no-such-hyp".
Local Open Scope Z_scope.
Local Open Scope list_scope.

(** ** Postings *)

Module Posting.

(** A nil [sparse] map is [None]. *)
Record t : Set := mk {
  singleton : Z;
  sparse : option (gset Z);
  dense : option Bitmap.t;
  count : Z;
}.

Definition empty_posting : t := mk 0 None None 0.

Definition Add (p : t) (id : Z) : t :=
  match dense p with
  | Some d =>
      let d' := Bitmap.Add d id in
      mk (singleton p) (sparse p) (Some d') (count p + (Bitmap.Len d' - Bitmap.Len d))
  | None =>
      if count p =? 0 then mk id (sparse p) None 1
      else if count p =? 1 then
        if singleton p =? id then p else mk (singleton p) (Some {[singleton p; id]}) None 2
      else
        let set_ := default ∅ (sparse p) in
        if bool_decide (id ∈ set_) then p
        else
          let set' := {[id]} ∪ set_ in
          let n := count p + 1 in
          if 64 <=? n then mk (singleton p) None (Some (foldl Bitmap.Add (Bitmap.newSet id) (elements set'))) n
          else mk (singleton p) (Some set') None n
  end.

Definition Remove (p : t) (id : Z) : t :=
  if count p =? 0 then p
  else
    match dense p with
    | Some d =>
        let d' := Bitmap.Remove d id in
        mk (singleton p) (sparse p) (Some d') (count p - (Bitmap.Len d - Bitmap.Len d'))
    | None =>
        if count p =? 1 then (if singleton p =? id then mk (singleton p) (sparse p) None 0 else p)
        else
          let set_ := default ∅ (sparse p) in
          let set' := if bool_decide (id ∈ set_) then set_ ∖ {[id]} else set_ in
          let n := if bool_decide (id ∈ set_) then count p - 1 else count p in
          if n =? 1 then mk (default (singleton p) (head (elements set'))) None None n
          else mk (singleton p) (Some set') None n
    end.

(** [Set]: the ordinals as a bitmap; a nil posting has none. *)
Definition Set_ (p : option t) (maxID : Z) : Bitmap.t :=
  match p with
  | None => Bitmap.newSet 0
  | Some p =>
      if count p =? 0 then Bitmap.newSet 0
      else
        match dense p with
        | Some d => Bitmap.clone (Some d)
        | None =>
            if count p =? 1 then Bitmap.Add (Bitmap.newSet maxID) (singleton p)
            else foldl Bitmap.Add (Bitmap.newSet maxID) (elements (default ∅ (sparse p)))
        end
  end.

(** ** What a posting stands for *)

Definition ids (p : t) : gset Z :=
  match dense p with
  | Some d => list_to_set (Bitmap.setIDs d)
  | None => if count p =? 0 then ∅ else if count p =? 1 then {[singleton p]} else default ∅ (sparse p)
  end.

Record inv (p : t) : Prop := mkInv {
  inv_count : count p = Z.of_nat (size (ids p));
  inv_pos : ∀ id, id ∈ ids p → 0 ≤ id;
  inv_dense : ∀ d, dense p = Some d → Bitmap.inv d;
}.

End Posting.

Lemma add_all_has s (l : list Z) id :
  Forall (λ i, 0 ≤ i) l → 0 ≤ id →
  Bitmap.Contains (foldl Bitmap.Add s l) id = bool_decide (id ∈ l) || Bitmap.Contains s id.
Proof.
  intros Hl Hid. revert s. induction Hl as [|i l Hi Hl IH]; intros s; cbn [foldl].
  - rewrite bool_decide_eq_false_2; [done|apply not_elem_of_nil].
  - rewrite IH, Bitmap.Add_has by done. destruct (Z.eqb_spec id i) as [->|Hne].
    + rewrite (bool_decide_eq_true_2 (i ∈ i :: l)) by apply list_elem_of_here. by rewrite orb_true_r.
    + simpl. f_equal. apply bool_decide_ext. rewrite elem_of_cons. naive_solver.
Qed.

Lemma add_all_inv s (l : list Z) : Forall (λ i, 0 ≤ i) l → Bitmap.inv s → Bitmap.inv (foldl Bitmap.Add s l).
Proof.
  intros Hl. revert s. induction Hl as [|i l Hi Hl IH]; intros s Hs; cbn [foldl]; [done|].
  by apply IH, Bitmap.inv_Add.
Qed.

Lemma setIDs_size d : Bitmap.inv d → Z.of_nat (size (list_to_set (Bitmap.setIDs d) : gset Z)) = Bitmap.Len d.
Proof.
  intros Hd. rewrite <-(Bitmap.setIDs_len d Hd). unfold len. rewrite size_list_to_set; [done|].
  pose proof (Bitmap.setIDs_ascending d Hd) as Hs. induction Hs as [|x l Hl IH Hx]; constructor; [|done].
  intros Hin. rewrite Forall_forall in Hx. specialize (Hx x Hin). lia.
Qed.

Module PostingFacts.
Import Posting.

Lemma empty_ok : inv empty_posting ∧ ids empty_posting = ∅.
Proof. split; [|done]. by constructor. Qed.

Lemma dense_ids (d : Bitmap.t) a b c id :
  Bitmap.inv d → id ∈ ids (mk a b (Some d) c) ↔ 0 ≤ id ∧ Bitmap.Contains d id = true.
Proof. intros Hd. unfold ids. cbn [dense]. rewrite elem_of_list_to_set. by apply Bitmap.setIDs_elem. Qed.

Lemma ids_zero p : dense p = None → count p = 0 → ids p = ∅.
Proof. unfold ids. by intros -> ->. Qed.

Lemma ids_one p : dense p = None → count p = 1 → ids p = {[singleton p]}.
Proof. unfold ids. by intros -> ->. Qed.

Lemma ids_many p : dense p = None → count p ≠ 0 → count p ≠ 1 → ids p = default ∅ (sparse p).
Proof. unfold ids. intros -> H0 H1. by rewrite (proj2 (Z.eqb_neq _ _) H0), (proj2 (Z.eqb_neq _ _) H1). Qed.

Lemma elements_pos (X : gset Z) : (∀ id, id ∈ X → 0 ≤ id) → Forall (λ i, 0 ≤ i) (elements X).
Proof. intros H. apply Forall_forall. intros i Hi. apply H. by apply elem_of_elements. Qed.

Lemma Add_ok p id : inv p → 0 ≤ id → inv (Add p id) ∧ ids (Add p id) = {[id]} ∪ ids p.
Proof.
  intros [Hc Hp Hd] Hid. unfold Add. destruct (dense p) as [d|] eqn:Ed.
  - specialize (Hd d eq_refl). assert (Bitmap.inv (Bitmap.Add d id)) as Hd' by (by apply Bitmap.inv_Add).
    assert (ids (mk (singleton p) (sparse p) (Some (Bitmap.Add d id)) (count p + (Bitmap.Len (Bitmap.Add d id) - Bitmap.Len d)))
      = {[id]} ∪ ids p) as Hids.
    { apply set_eq. intros j. rewrite dense_ids, elem_of_union, elem_of_singleton by done.
      unfold ids. rewrite Ed, elem_of_list_to_set, Bitmap.setIDs_elem by done. split.
      - intros [Hj H]. rewrite Bitmap.Add_has in H by done. destruct (Z.eqb_spec j id); [by left|]. by right.
      - intros [->|[Hj H]]; (split; [done|]); rewrite Bitmap.Add_has by done; [by rewrite Z.eqb_refl|].
        by rewrite H, orb_true_r. }
    split; [|done]. constructor.
    + unfold ids in Hc |- *. cbn [count dense]. rewrite Ed in Hc. rewrite setIDs_size in Hc |- * by done. lia.
    + rewrite Hids. intros j [->%elem_of_singleton|Hj]%elem_of_union; [done|by apply Hp].
    + intros d' [= <-]. done.
  - assert (∀ q, ids q = {[id]} ∪ ids p → count q = Z.of_nat (size ({[id]} ∪ ids p)) →
      (∀ d, dense q = Some d → Bitmap.inv d) → inv q ∧ ids q = {[id]} ∪ ids p) as Hmk.
    { intros q Hq Hn Hq'. split; [|done]. constructor; rewrite ?Hq; [done| |done].
      intros j [->%elem_of_singleton|Hj]%elem_of_union; [done|by apply Hp]. }
    destruct (Z.eqb_spec (count p) 0) as [E0|E0].
    { rewrite (ids_zero p Ed E0) in *. apply Hmk; [|cbn [count]|done].
      - unfold ids. simpl. set_solver.
      - by rewrite union_empty_r_L, size_singleton. }
    destruct (Z.eqb_spec (count p) 1) as [E1|E1].
    { rewrite (ids_one p Ed E1) in *. destruct (Z.eqb_spec (singleton p) id) as [<-|Hne].
      - rewrite (union_idemp_L {[singleton p]}) in *. apply Hmk; [by apply ids_one| |].
        + by rewrite E1, size_singleton.
        + rewrite Ed. done.
      - apply Hmk; [|cbn [count]|done].
        + unfold ids. simpl. set_solver.
        + rewrite size_union, !size_singleton by set_solver. done. }
    rewrite (ids_many p Ed E0 E1) in *.
    destruct (bool_decide (id ∈ default ∅ (sparse p))) eqn:Eb; bool_props.
    { rewrite (subseteq_union_1_L {[id]} (default ∅ (sparse p))) in * by set_solver.
      apply Hmk; [by apply ids_many|done|]. rewrite Ed. done. }
    assert (Z.of_nat (size ({[id]} ∪ default ∅ (sparse p))) = count p + 1) as Hn.
    { rewrite size_union, size_singleton by set_solver. lia. }
    assert (∀ j, j ∈ {[id]} ∪ default ∅ (sparse p) → 0 ≤ j) as Hpos.
    { intros j [->%elem_of_singleton|Hj]%elem_of_union; [done|by apply Hp]. }
    destruct (Z.leb_spec 64 (count p + 1)) as [H64|H64].
    + assert (Bitmap.inv (foldl Bitmap.Add (Bitmap.newSet id) (elements ({[id]} ∪ default ∅ (sparse p))))) as Hi.
      { apply add_all_inv; [by apply elements_pos|apply Bitmap.inv_newSet]. }
      apply Hmk; [|cbn [count]; lia|cbn [dense]; by intros d [= <-]].
      apply set_eq. intros j. rewrite dense_ids by done. split.
      * intros [Hj H]. rewrite add_all_has in H by (done || by apply elements_pos).
        rewrite Bitmap.Contains_newSet, orb_false_r in H. bool_props. by apply elem_of_elements.
      * intros H. split; [by apply Hpos|]. rewrite add_all_has by (by apply elements_pos || by apply Hpos).
        rewrite bool_decide_eq_true_2; [done|]. by apply elem_of_elements.
    + apply Hmk; [|cbn [count]; lia|done]. by rewrite ids_many by (cbn [dense count]; done || lia).
Qed.

Lemma Remove_ok p id : inv p → 0 ≤ id → inv (Remove p id) ∧ ids (Remove p id) = ids p ∖ {[id]}.
Proof.
  intros Hi Hid. pose proof Hi as [Hc Hp Hd]. unfold Remove. destruct (Z.eqb_spec (count p) 0) as [E0|E0].
  { split; [done|]. assert (ids p = ∅) as ->; [|set_solver].
    apply leibniz_equiv, size_empty_inv. lia. }
  assert (∀ q, ids q = ids p ∖ {[id]} → count q = Z.of_nat (size (ids p ∖ {[id]})) →
    (∀ d, dense q = Some d → Bitmap.inv d) → inv q ∧ ids q = ids p ∖ {[id]}) as Hmk.
  { intros q Hq Hn Hq'. split; [|done]. constructor; rewrite ?Hq; [done| |done].
    intros j [Hj _]%elem_of_difference. by apply Hp. }
  destruct (dense p) as [d|] eqn:Ed.
  - specialize (Hd d eq_refl). assert (Bitmap.inv (Bitmap.Remove d id)) as Hd' by (by apply Bitmap.inv_Remove).
    assert (ids (mk (singleton p) (sparse p) (Some (Bitmap.Remove d id)) (count p - (Bitmap.Len d - Bitmap.Len (Bitmap.Remove d id))))
      = ids p ∖ {[id]}) as Hids.
    { apply set_eq. intros j. rewrite dense_ids, elem_of_difference, elem_of_singleton by done.
      unfold ids. rewrite Ed, elem_of_list_to_set, Bitmap.setIDs_elem by done. split.
      - intros [Hj H]. rewrite Bitmap.Remove_has in H by done. apply andb_true_iff in H as [H1 H2].
        apply negb_true_iff, Z.eqb_neq in H1. done.
      - intros [[Hj H] Hne]. split; [done|]. rewrite Bitmap.Remove_has, H by done.
        by rewrite (proj2 (Z.eqb_neq _ _)). }
    apply Hmk; [done|rewrite <-Hids|cbn [dense]; by intros d' [= <-]].
    unfold ids in Hc |- *. cbn [count dense]. rewrite Ed in Hc. rewrite setIDs_size in Hc |- * by done. lia.
  - destruct (Z.eqb_spec (count p) 1) as [E1|E1].
    { rewrite (ids_one p Ed E1) in *. destruct (Z.eqb_spec (singleton p) id) as [<-|Hne].
      - rewrite difference_diag_L in *. apply Hmk; done.
      - rewrite (difference_disjoint_L {[singleton p]} {[id]}) in * by set_solver.
        apply Hmk; [by apply ids_one|done|]. rewrite Ed. done. }
    rewrite (ids_many p Ed E0 E1) in *. set (X := default ∅ (sparse p)) in *.
    assert ((if bool_decide (id ∈ X) then X ∖ {[id]} else X) = X ∖ {[id]}) as ->.
    { destruct (bool_decide (id ∈ X)) eqn:E; bool_props; [done|]. by rewrite difference_disjoint_L by set_solver. }
    assert ((if bool_decide (id ∈ X) then count p - 1 else count p) = Z.of_nat (size (X ∖ {[id]}))) as ->.
    { destruct (bool_decide (id ∈ X)) eqn:E; bool_props.
      - rewrite size_difference, size_singleton by set_solver.
        assert (size {[id]} ≤ size X)%nat as Hle by (apply subseteq_size; set_solver). rewrite size_singleton in Hle. lia.
      - by rewrite difference_disjoint_L by set_solver. }
    destruct (Z.eqb_spec (Z.of_nat (size (X ∖ {[id]}))) 1) as [E|E].
    + apply Hmk; [|done|done]. rewrite ids_one by (cbn [dense count]; done || lia). cbn [singleton].
      assert (size (X ∖ {[id]}) = 1%nat) as Hs by lia. apply size_1_elem_of in Hs as [x Hx].
      apply leibniz_equiv in Hx. rewrite Hx, elements_singleton. done.
    + destruct (Z.eqb_spec (Z.of_nat (size (X ∖ {[id]}))) 0) as [E'|E'].
      * apply Hmk; [|done|done]. rewrite ids_zero by (cbn [dense count]; done || lia).
        symmetry. apply leibniz_equiv, size_empty_inv. lia.
      * apply Hmk; [|done|done]. by rewrite ids_many by (cbn [dense count]; done || lia).
Qed.

(** [Set] is the bitmap of the posting's ordinals. *)
Lemma Set_ok p maxID :
  (∀ q, p = Some q → inv q) → Bitmap.inv (Set_ p maxID) ∧
  ∀ id, 0 ≤ id → Bitmap.Contains (Set_ p maxID) id = bool_decide (id ∈ from_option ids ∅ p).
Proof.
  intros Hp. destruct p as [p|]; unfold Set_.
  2: { split; [apply Bitmap.inv_newSet|]. intros id Hid. rewrite Bitmap.Contains_newSet. symmetry.
       apply bool_decide_eq_false. simpl. set_solver. }
  specialize (Hp p eq_refl). pose proof Hp as [Hc Hpos Hd]. simpl.
  assert (∀ s X, (∀ id, id ∈ X → 0 ≤ id) → ids p = X → s = foldl Bitmap.Add (Bitmap.newSet maxID) (elements X) →
    Bitmap.inv s ∧ ∀ id, 0 ≤ id → Bitmap.Contains s id = bool_decide (id ∈ ids p)) as Hmk.
  { intros s X HX -> ->. split; [apply add_all_inv; [by apply elements_pos|apply Bitmap.inv_newSet]|].
    intros id Hid. rewrite add_all_has by (done || by apply elements_pos).
    rewrite Bitmap.Contains_newSet, orb_false_r. apply bool_decide_ext, elem_of_elements. }
  destruct (Z.eqb_spec (count p) 0) as [E0|E0].
  { split; [apply Bitmap.inv_newSet|]. intros id Hid. rewrite Bitmap.Contains_newSet. symmetry.
    apply bool_decide_eq_false. intros Hin. assert (size (ids p) = 0%nat) as Hs by lia.
    apply size_empty_inv in Hs. set_solver. }
  destruct (dense p) as [d|] eqn:Ed.
  - specialize (Hd d eq_refl). split; [done|]. intros id Hid. unfold ids. rewrite Ed. simpl.
    destruct (Bitmap.Contains d id) eqn:E; symmetry; [apply bool_decide_eq_true|apply bool_decide_eq_false];
      rewrite elem_of_list_to_set, Bitmap.setIDs_elem by done; [done|]. rewrite E. by intros [_ ?].
  - destruct (Z.eqb_spec (count p) 1) as [E1|E1].
    + apply (Hmk _ {[singleton p]}); [|by apply ids_one|by rewrite elements_singleton].
      intros id ->%elem_of_singleton. apply Hpos. rewrite ids_one by done. by apply elem_of_singleton.
    + apply (Hmk _ (default ∅ (sparse p))); [|by apply ids_many|done].
      intros id Hin. apply Hpos. by rewrite ids_many.
Qed.

End PostingFacts.

(** ** Numeric fields *)

Module NumericField.

(** An entry is a value, the bits of a [float64], and an ordinal. *)
Record entry : Set := mkEntry { value : Z; id : Z }.

#[global] Instance entry_eq_dec : EqDecision entry.
Proof. solve_decision. Defined.

Record t : Set := mk {
  base : list entry;
  delta : list entry;
  current : gmap Z Z;
  invalidBase : Bitmap.t;
  stale : Z;
}.

Definition new_field : t := mk [] [] ∅ (Bitmap.newSet 0) 0.

Inductive Operator : Set := OpEq | OpNe | OpGT | OpGTE | OpLT | OpLTE | OpIn | OpNotIn | OpExists | OpText.

#[global] Instance Operator_eq_dec : EqDecision Operator.
Proof. solve_decision. Defined.

Definition deltaLimit : Z := 4096.

Definition entry_ltb (a b : entry) : bool :=
  f64_ltb (value a) (value b) || (f64_eqb (value a) (value b) && (id a <? id b)).

Definition mergeIfNeeded (n : t) : t :=
  if (len (delta n) <? deltaLimit) && (stale n <? deltaLimit) then n
  else
    mk (sort_slice entry_ltb ((λ '(i, v), mkEntry v i) <$> map_to_list (current n))) [] (current n)
      (Bitmap.newSet 0) 0.

Definition insert (n : t) (e : entry) : t :=
  mergeIfNeeded (mk (base n) (delta n ++ [e]) (<[id e := value e]> (current n)) (invalidBase n) (stale n)).

Definition remove (n : t) (v i : Z) : t :=
  match current n !! i with
  | Some c =>
      if f64_eqb c v then
        mergeIfNeeded (mk (base n) (delta n) (delete i (current n)) (Bitmap.Add (invalidBase n) i) (stale n + 1))
      else n
  | None => n
  end.

Definition rangeMatches (v : Z) (op : Operator) (target : Z) : bool :=
  match op with
  | OpGT => f64_ltb target v
  | OpGTE => f64_leb target v
  | OpLT => f64_ltb v target
  | OpLTE => f64_leb v target
  | _ => false
  end.

(** The first position of the base whose value satisfies [f]. *)
Definition search (n : t) (f : Z → bool) : nat :=
  sort_Search (length (base n)) (λ p, match base n !! p with Some e => f (value e) | None => false end).

Definition bounds (n : t) (op : Operator) (target : Z) : nat * nat :=
  match op with
  | OpGT => (search n (f64_ltb target), length (base n))
  | OpGTE => (search n (f64_leb target), length (base n))
  | OpLT => (0%nat, search n (f64_leb target))
  | OpLTE => (0%nat, search n (f64_ltb target))
  | _ => (0%nat, length (base n))
  end.

Definition add_base (n : t) (result : Bitmap.t) (e : entry) : Bitmap.t :=
  if Bitmap.Contains (invalidBase n) (id e) then result else Bitmap.Add result (id e).

Definition add_delta (n : t) (op : Operator) (target : Z) (result : Bitmap.t) (e : entry) : Bitmap.t :=
  if match current n !! id e with Some c => f64_eqb c (value e) | None => false end && rangeMatches (value e) op target
  then Bitmap.Add result (id e) else result.

(** [numericRange] over one field, into a bitmap of [size] words. *)
Definition range (n : t) (op : Operator) (target : Z) (size : Z) : Bitmap.t :=
  let '(start, stop) := bounds n op target in
  foldl (add_delta n op target)
    (foldl (add_base n) (Bitmap.newSet size) (drop start (take stop (base n)))) (delta n).

Definition is_range (op : Operator) : bool :=
  match op with OpGT | OpGTE | OpLT | OpLTE => true | _ => false end.

(** A field is a map from ordinals to numbers: every current value is found
    in the base or the delta, and a valid base entry is current. *)
Record inv (n : t) : Prop := mkInv {
  inv_current : ∀ i v, current n !! i = Some v →
    (mkEntry v i ∈ base n ∧ Bitmap.Contains (invalidBase n) i = false) ∨ mkEntry v i ∈ delta n;
  inv_base : ∀ e, e ∈ base n → Bitmap.Contains (invalidBase n) (id e) = false →
    ∃ c, current n !! id e = Some c ∧ f64_eqb c (value e) = true;
  inv_sorted : ordered entry_ltb (base n);
  inv_number : (∀ e, e ∈ base n ++ delta n → f64_is_nan (value e) = false) ∧
               (∀ i v, current n !! i = Some v → f64_is_nan v = false);
  inv_ids : (∀ e, e ∈ base n ++ delta n → 0 ≤ id e) ∧ (∀ i v, current n !! i = Some v → 0 ≤ i);
}.

End NumericField.

Module NumericFacts.
Import NumericField.

Lemma entry_ltb_key a b :
  f64_is_nan (value a) = false → f64_is_nan (value b) = false →
  entry_ltb a b = (f64_ord (value a) <? f64_ord (value b)) ||
                  ((f64_ord (value a) =? f64_ord (value b)) && (id a <? id b)).
Proof. intros Ha Hb. unfold entry_ltb. by rewrite f64_ltb_ord, f64_eqb_ord. Qed.

(** An order with NaN is not a weak order; fields hold none. *)
Lemma sort_entries_ordered l :
  (∀ e, e ∈ l → f64_is_nan (value e) = false) → ordered entry_ltb (sort_slice entry_ltb l).
Proof.
  set (key_ltb := λ a b : entry, (f64_ord (value a) <? f64_ord (value b)) ||
    ((f64_ord (value a) =? f64_ord (value b)) && (id a <? id b))).
  intros Hl. assert (WeakOrderB key_ltb) as Hw.
  { unfold key_ltb. split; intros *;
      rewrite ?orb_true_iff, ?andb_true_iff, ?orb_false_iff, ?andb_false_iff, ?Z.ltb_lt, ?Z.eqb_eq, ?Z.ltb_ge, ?Z.eqb_neq; lia. }
  assert (∀ x k, (∀ e, e ∈ x :: k → f64_is_nan (value e) = false) → sort_insert entry_ltb x k = sort_insert key_ltb x k) as Hins.
  { intros x k. induction k as [|y k IH]; intros Hk; [done|]. cbn [sort_insert].
    rewrite entry_ltb_key by (apply Hk; set_solver). fold (key_ltb y x). destruct (key_ltb y x); [|done].
    f_equal. apply IH. intros e He. apply Hk. set_solver. }
  assert (sort_slice entry_ltb l = sort_slice key_ltb l) as ->.
  { clear Hw. induction l as [|x l IH]; [done|]. cbn [sort_slice]. rewrite IH by (intros e He; apply Hl; set_solver).
    apply Hins. intros e He. apply Hl. rewrite elem_of_cons, sort_slice_elem in He. by rewrite elem_of_cons. }
  pose proof (sort_slice_ordered key_ltb l) as Ho.
  assert (∀ e, e ∈ sort_slice key_ltb l → f64_is_nan (value e) = false) as Hn.
  { intros e. rewrite sort_slice_elem. apply Hl. }
  revert Hn. generalize dependent (sort_slice key_ltb l). intros k Hk. induction Hk as [|x k Hk IH Hx]; intros Hn; [constructor|].
  constructor; [apply IH; intros e He; apply Hn; set_solver|]. rewrite Forall_forall in Hx |- *.
  intros e He. rewrite entry_ltb_key by (apply Hn; set_solver). by apply Hx.
Qed.

Lemma add_base_has n l s j :
  Forall (λ e, 0 ≤ id e) l → 0 ≤ j →
  Bitmap.Contains (foldl (add_base n) s l) j = true ↔
  Bitmap.Contains s j = true ∨ ∃ e, e ∈ l ∧ id e = j ∧ Bitmap.Contains (invalidBase n) j = false.
Proof.
  intros Hl Hj. revert s. induction Hl as [|e l He Hl IH]; intros s; cbn [foldl].
  { split; [by left|]. intros [H|(e&Hin&_)]; [done|by apply not_elem_of_nil in Hin]. }
  rewrite IH. unfold add_base at 1. destruct (Bitmap.Contains (invalidBase n) (id e)) eqn:E.
  - split; [intros [H|(x&Hx&H)]; [by left|right; exists x; split; [by right|done]]|].
    intros [H|(x&[->|Hx]%elem_of_cons&H1&H2)]; [by left|congruence|right; eauto].
  - rewrite Bitmap.Add_has by done. rewrite orb_true_iff, Z.eqb_eq. split.
    + intros [[->|H]|(x&Hx&H)]; [right; exists e; split; [by left|done]|by left|right; exists x; split; [by right|done]].
    + intros [H|(x&[->|Hx]%elem_of_cons&<-&H2)]; [left; by right|left; by left|right; eauto].
Qed.

Lemma add_delta_has n op target l s j :
  Forall (λ e, 0 ≤ id e) l → 0 ≤ j →
  Bitmap.Contains (foldl (add_delta n op target) s l) j = true ↔
  Bitmap.Contains s j = true ∨
  ∃ e c, e ∈ l ∧ id e = j ∧ current n !! j = Some c ∧ f64_eqb c (value e) = true ∧ rangeMatches (value e) op target = true.
Proof.
  intros Hl Hj. revert s. induction Hl as [|e l He Hl IH]; intros s; cbn [foldl].
  { split; [by left|]. intros [H|(e&c&Hin&_)]; [done|by apply not_elem_of_nil in Hin]. }
  rewrite IH. unfold add_delta at 1.
  destruct (current n !! id e) as [c|] eqn:Ec; [destruct (f64_eqb c (value e)) eqn:Ee; [destruct (rangeMatches (value e) op target) eqn:Er|]|];
    cbn [andb]; rewrite ?Bitmap.Add_has, ?orb_true_iff, ?Z.eqb_eq by done.
  { split.
    - intros [[->|H]|(x&d&Hx&H)]; [right; exists e, c; split; [by left|done]|by left|right; exists x, d; split; [by right|done]].
    - intros [H|(x&d&[->|Hx]%elem_of_cons&<-&H2)]; [left; by right|left; by left|right; exists x, d; done]. }
  all: split; [intros [H|(x&d&Hx&H)]; [by left|right; exists x, d; split; [by right|done]]|].
  all: intros [H|(x&d&[->|Hx]%elem_of_cons&<-&H1&H2&H3)]; [by left|congruence|right; exists x, d; done].
Qed.

(** Whether a number satisfies the range depends on its order only. *)
Lemma rangeMatches_eqb a b op target :
  f64_eqb a b = true → rangeMatches a op target = rangeMatches b op target.
Proof.
  unfold f64_eqb. intros H. apply andb_true_iff in H as [H1 H2]. apply andb_true_iff in H1 as [Ha Hb].
  apply Z.eqb_eq in H2. unfold rangeMatches, f64_ltb, f64_leb. by rewrite Ha, Hb, H2.
Qed.

(** The section of the base binary search selects holds exactly the entries
    in the range. *)
Lemma bounds_ok n op target e :
  inv n → is_range op = true → f64_is_nan target = false →
  let '(start, stop) := bounds n op target in
  e ∈ drop start (take stop (base n)) ↔ e ∈ base n ∧ rangeMatches (value e) op target = true.
Proof.
  intros [_ _ Hs [Hn _] _] Hop Ht.
  assert (∀ e, e ∈ base n → f64_is_nan (value e) = false) as Hnan by (intros; apply Hn; set_solver).
  assert (∀ i j a b, (i ≤ j)%nat → base n !! i = Some a → base n !! j = Some b → f64_ord (value a) ≤ f64_ord (value b)) as Hle.
  { intros i j a b Hij Ha Hb. destruct (decide (i = j)) as [->|Hne]; [assert (a = b) as -> by congruence; lia|].
    pose proof (ordered_lookup entry_ltb _ i j a b Hs ltac:(lia) Ha Hb) as H.
    rewrite entry_ltb_key in H by (eapply Hnan, list_elem_of_lookup_2; eauto). apply orb_false_iff in H as [H _].
    by apply Z.ltb_ge. }
  assert (∀ f, (∀ a b, f64_is_nan a = false → f64_is_nan b = false → f64_ord a ≤ f64_ord b → f a = true → f b = true) →
    ∀ i a, base n !! i = Some a → f (value a) = (search n f <=? i)%nat) as Hsearch.
  { intros f Hf i a Hi. unfold search. set (g := λ p, match base n !! p with Some e => f (value e) | None => false end).
    destruct (sort_Search_spec (length (base n)) g) as (Hr&Hlo&Hhi).
    { intros x y Hxy. unfold g. destruct (base n !! x) as [ex|] eqn:Ex; [|done].
      destruct (base n !! y) as [ey|] eqn:Ey; [|apply lookup_ge_None_1 in Ey; lia]. apply Hf.
      - by eapply Hnan, list_elem_of_lookup_2.
      - by eapply Hnan, list_elem_of_lookup_2.
      - eapply (Hle x y); [lia|done|done]. }
    pose proof (lookup_lt_Some _ _ _ Hi) as Hlt.
    assert (g i = f (value a)) as <- by (unfold g; by rewrite Hi).
    destruct (Nat.leb_spec (sort_Search (length (base n)) g) i) as [H|H]; [apply Hhi; lia|by apply Hlo]. }
  assert (∀ f, (∀ a b, f64_is_nan a = false → f64_is_nan b = false → f64_ord a ≤ f64_ord b → f a = true → f b = true) →
    (e ∈ drop (search n f) (take (length (base n)) (base n)) ↔ e ∈ base n ∧ f (value e) = true) ∧
    (e ∈ drop 0 (take (search n f) (base n)) ↔ e ∈ base n ∧ f (value e) = false)) as Hcut.
  { intros f Hf. rewrite take_ge, drop_0 by lia. split; (split; [intros H|intros [H Hm]]).
    - apply list_elem_of_lookup in H as [i Hi]. rewrite lookup_drop in Hi.
      split; [by eapply list_elem_of_lookup_2|]. rewrite (Hsearch f Hf _ _ Hi). apply Nat.leb_le. lia.
    - apply list_elem_of_lookup in H as [i Hi]. rewrite (Hsearch f Hf _ _ Hi) in Hm. apply Nat.leb_le in Hm.
      apply (list_elem_of_lookup_2 _ (i - search n f)). rewrite lookup_drop. rewrite <-Hi. f_equal. lia.
    - apply elem_of_take in H as (i&Hi&Hlt). split; [by eapply list_elem_of_lookup_2|].
      rewrite (Hsearch f Hf _ _ Hi). apply Nat.leb_gt. lia.
    - apply list_elem_of_lookup in H as [i Hi]. rewrite (Hsearch f Hf _ _ Hi) in Hm. apply Nat.leb_gt in Hm.
      apply elem_of_take. exists i. split; [done|lia]. }
  destruct op; try discriminate Hop; cbn [bounds rangeMatches].
  - apply (Hcut (f64_ltb target)). intros a b Ha Hb. rewrite !f64_ltb_ord, !Z.ltb_lt by done. lia.
  - apply (Hcut (f64_leb target)). intros a b Ha Hb. rewrite !f64_leb_ord, !Z.leb_le by done. lia.
  - destruct (Hcut (f64_leb target)) as [_ ->].
    { intros a b Ha Hb. rewrite !f64_leb_ord, !Z.leb_le by done. lia. }
    split; intros [He H]; (split; [done|]); rewrite f64_ltb_ord, f64_leb_ord in * by auto;
      [by apply Z.ltb_lt, Z.leb_gt|by apply Z.leb_gt, Z.ltb_lt].
  - destruct (Hcut (f64_ltb target)) as [_ ->].
    { intros a b Ha Hb. rewrite !f64_ltb_ord, !Z.ltb_lt by done. lia. }
    split; intros [He H]; (split; [done|]); rewrite f64_ltb_ord, f64_leb_ord in * by auto;
      [by apply Z.leb_le, Z.ltb_ge|by apply Z.ltb_ge, Z.leb_le].
Qed.

(** A range query finds exactly the ordinals whose current number matches,
    wherever the merges have left the entries. *)
Lemma range_ok n op target size j :
  inv n → is_range op = true → f64_is_nan target = false → 0 ≤ j →
  Bitmap.Contains (range n op target size) j = true ↔
  ∃ v, current n !! j = Some v ∧ rangeMatches v op target = true.
Proof.
  intros Hi Hop Ht Hj. pose proof (bounds_ok n op target) as Hb. unfold range.
  destruct (bounds n op target) as [start stop]. pose proof Hi as [Hcur Hbase _ [Hnan Hcn] [Hids _]].
  rewrite add_delta_has by (done || (apply Forall_forall; intros e He; apply Hids; set_solver)).
  assert (∀ e, e ∈ drop start (take stop (base n)) → e ∈ base n) as Hsub.
  { intros e He. by apply Hb in He as [? _]. }
  rewrite add_base_has by (done || (apply Forall_forall; intros e He; apply Hids; apply elem_of_app; left; auto)).
  rewrite Bitmap.Contains_newSet. split.
  - intros [[?|(e&He&<-&Hv)]|(e&c&He&<-&Hc&Heq&Hm)]; [done| |].
    + apply Hb in He as [He Hm]; [|done..]. destruct (Hbase e He Hv) as (c&Hc&Heq). exists c. split; [done|].
      by rewrite (rangeMatches_eqb _ _ _ _ Heq).
    + exists c. split; [done|]. by rewrite (rangeMatches_eqb _ _ _ _ Heq).
  - intros (v&Hv&Hm). destruct (Hcur j v Hv) as [[He Hval]|He].
    + left. right. exists (mkEntry v j). split; [|done]. by apply Hb.
    + right. exists (mkEntry v j), v. split; [done|]. split; [done|]. split; [done|]. split; [|done]. cbn [value].
      rewrite f64_eqb_ord by by eapply Hcn. apply Z.eqb_refl.
Qed.

Lemma new_field_ok : inv new_field.
Proof.
  constructor; simpl; try (intros *; rewrite lookup_empty; done).
  - intros e He. by apply not_elem_of_nil in He.
  - constructor.
  - split; [intros e He; by apply not_elem_of_nil in He|]. intros i v. by rewrite lookup_empty.
  - split; [intros e He; by apply not_elem_of_nil in He|]. intros i v. by rewrite lookup_empty.
Qed.

Lemma merge_ok n : inv n → inv (mergeIfNeeded n) ∧ current (mergeIfNeeded n) = current n.
Proof.
  intros Hi. unfold mergeIfNeeded. destruct (_ && _); [done|]. split; [|done].
  destruct Hi as [Hcur Hbase Hs [Hnan Hcn] [Hids Hcid]].
  assert (∀ e, e ∈ (λ '(i, v), mkEntry v i) <$> map_to_list (current n) ↔ current n !! id e = Some (value e)) as Hin.
  { intros e. rewrite list_elem_of_fmap. split.
    - intros ([i v]&->&H%elem_of_map_to_list). done.
    - intros H. exists (id e, value e). split; [by destruct e|by apply elem_of_map_to_list]. }
  constructor; cbn [base delta current invalidBase].
  - intros i v Hv. left. split; [|apply Bitmap.Contains_newSet]. rewrite sort_slice_elem. by apply Hin.
  - intros e He _. rewrite sort_slice_elem in He. apply Hin in He. exists (value e). split; [done|].
    rewrite f64_eqb_ord by by eapply Hcn. apply Z.eqb_refl.
  - apply sort_entries_ordered. intros e He. apply Hin in He. by eapply Hcn.
  - split; [|done]. intros e He. rewrite app_nil_r, sort_slice_elem in He. apply Hin in He. by eapply Hcn.
  - split; [|done]. intros e He. rewrite app_nil_r, sort_slice_elem in He. apply Hin in He. by eapply Hcid.
Qed.

Lemma insert_ok n i v :
  inv n → current n !! i = None →
  f64_is_nan v = false → 0 ≤ i →
  inv (insert n (mkEntry v i)) ∧ current (insert n (mkEntry v i)) = <[i := v]> (current n).
Proof.
  intros [Hcur Hbase Hs [Hnan Hcn] [Hids Hcid]] Hnone Hv Hpos. unfold insert. cbn [id value].
  match goal with |- context [mergeIfNeeded ?m] => assert (inv m) as Hm end; [|by apply (merge_ok _ Hm)].
  constructor; cbn [base delta current invalidBase].
  - intros j w. destruct (decide (j = i)) as [->|Hne].
    + rewrite lookup_insert_eq. intros [= <-]. right. apply elem_of_app. right. by apply list_elem_of_singleton.
    + rewrite lookup_insert_ne by done. intros Hw. destruct (Hcur j w Hw) as [?|He]; [by left|].
      right. apply elem_of_app. by left.
  - intros e He Hinv. destruct (decide (id e = i)) as [Heq|Hne].
    + destruct (Hbase e He Hinv) as (c&Hc&_). congruence.
    + rewrite lookup_insert_ne by done. by apply Hbase.
  - done.
  - split.
    + intros e He. rewrite app_assoc, elem_of_app, list_elem_of_singleton in He.
      destruct He as [He| ->]; [by apply Hnan|done].
    + intros j w. destruct (decide (j = i)) as [->|Hne]; [rewrite lookup_insert_eq; by intros [= <-]|].
      rewrite lookup_insert_ne by done. apply Hcn.
  - split.
    + intros e He. rewrite app_assoc, elem_of_app, list_elem_of_singleton in He.
      destruct He as [He| ->]; [by apply Hids|done].
    + intros j w. destruct (decide (j = i)) as [->|Hne]; [done|].
      rewrite lookup_insert_ne by done. apply Hcid.
Qed.

Lemma remove_missing n v i : current n !! i = None → remove n v i = n.
Proof. unfold remove. by intros ->. Qed.

Lemma remove_ok n v i :
  inv n → current n !! i = Some v → inv (remove n v i) ∧ current (remove n v i) = delete i (current n).
Proof.
  intros [Hcur Hbase Hs [Hnan Hcn] [Hids Hcid]] Hv. pose proof (Hcid i v Hv) as Hpos.
  unfold remove. rewrite Hv, f64_eqb_ord, Z.eqb_refl by by eapply Hcn.
  match goal with |- context [mergeIfNeeded ?m] => assert (inv m) as Hm end; [|by apply (merge_ok _ Hm)].
  constructor; cbn [base delta current invalidBase]; [| |done| |].
  - intros j w [Hne Hw]%lookup_delete_Some. destruct (Hcur j w Hw) as [[He Hval]|He]; [left|by right].
    split; [done|]. rewrite Bitmap.Add_has, Hval by (done || by eapply Hcid).
    by rewrite (proj2 (Z.eqb_neq j i)) by done.
  - intros e He Hval. rewrite Bitmap.Add_has in Hval by (done || (apply Hids; set_solver)).
    apply orb_false_iff in Hval as [Hne Hval]. apply Z.eqb_neq in Hne. rewrite lookup_delete_ne by done. by apply Hbase.
  - split; [done|]. intros j w [_ Hw]%lookup_delete_Some. by eapply Hcn.
  - split; [done|]. intros j w [_ Hw]%lookup_delete_Some. by eapply Hcid.
Qed.

End NumericFacts.
