(* ===== verification/Metadata.v ===== *)
(** * Metadata filters

    [internal/metadata/filter.go]: filter expressions and their parser, the
    values filters compare, and the index of one segment, with the bitmap,
    posting and numeric structures of [Bitmap] and [Posting] under it.  The
    trigonometric functions of Go's [math] are an interface.  Where the
    source ranges over a map the model takes the order of [map_to_list]; the
    order decides only which of several invalid operators an error names. *)
From Stdlib Require Import ZArith Lia Ascii String.
From stdpp Require Import base tactics list gmap strings.
From S2P Require Import Prelude Core Distance Float Bitmap Posting.
Export NumericField (Operator(..)).
Local Set Warnings "-register-all".
Local Open Scope string_scope.
Local Open Scope Z_scope.
Local Open Scope list_scope.

(** Go's [math] on [float64] bits. *)
Class MathFunctions := { math_Sin : Z → Z; math_Cos : Z → Z; math_Asin : Z → Z }.

(** ** Values *)

Definition f64_finite (bits : Z) : bool := negb (f64_is_nan bits) && negb (f64_is_inf bits).

(** [number]: the value as a finite [float64]. *)
Definition number (v : any) : option Z :=
  match v with
  | Number b => if f64_finite b then Some b else None
  | Float32 b => let r := f64_of_f32 b in if f64_finite r then Some r else None
  | Int_ n => let r := f64_of_int n in if f64_finite r then Some r else None
  | _ => None
  end.

Definition validateScalar (v : any) : res unit :=
  match v with
  | Null | Text_ _ | Bool _ | Int_ _ => Ok tt
  | Number _ | Float32 _ =>
      match number v with Some _ => Ok tt | None => invalid "numeric filter values must be finite" end
  | Array _ | Object _ => invalid "filter values must be JSON scalars"
  end.

(** The key of a value's posting; arrays and objects are no scalars and
    have none. *)
Definition canonical (v : any) : string :=
  match v with
  | Null => "n:"
  | Text_ s => "s:" +:+ s
  | Bool b => "b:" +:+ (if b then "true" else "false")
  | Int_ n => "d:" +:+ FormatInt n
  | Float32 b => "d:" +:+ FormatFloat32 b
  | Number b => "d:" +:+ FormatFloat64 b
  | Array _ | Object _ => "?:"
  end.

(** [compare]: values of different kinds do not compare. *)
Definition compare (l r : any) : option comparison :=
  match number l with
  | Some a =>
      match number r with
      | None => None
      | Some b => Some (if f64_ltb a b then Lt else if f64_ltb b a then Gt else Eq)
      end
  | None =>
      match l, r with
      | Text_ a, Text_ b => Some (String.compare a b)
      | _, _ => None
      end
  end.

Section Filters.
Context {UT : UnicodeTables} {MF : MathFunctions}.

Definition containsWords (value : string) (words : list (list Z)) : bool :=
  forallb (λ w, bool_decide (w ∈ textWords value)) words.

(** ** Expressions *)

Record GeoRadius : Set := mkGeo {
  LatField : string; LonField : string; Lat : Z; Lon : Z; Meters : Z;
}.

(** A nil [*Expr] is [None]; it stands for every record. *)
Inductive Expr : Set :=
  | Predicate (Field : string) (Operator_ : Operator) (Value : any)
  | And (Children : list (option Expr))
  | Or (Children : list (option Expr))
  | Not (Child : option Expr)
  | Geo (Value : GeoRadius).

Definition maxTextQueryBytes : Z := 1024.

Definition f64_0 : Z := 0.
Definition f64_90 : Z := 0x4056800000000000.
Definition f64_180 : Z := 0x4066800000000000.
Definition f64_360 : Z := 0x4076800000000000.
Definition f64_2 : Z := 0x4000000000000000.
Definition f64_1 : Z := 0x3ff0000000000000.
Definition f64_neg (bits : Z) : Z := Z.lxor bits 0x8000000000000000.

(** The constants as the compiler rounds them: 6371008.8, its double,
    pi, pi times it, and pi / 180. *)
Definition earthRadiusMeters : Z := 0x41584db033333333.
Definition twoEarthRadii : Z := 0x41684db033333333.
Definition math_Pi : Z := 0x400921fb54442d18.
Definition halfEarth : Z := 0x41731680a7129443.
Definition toRadians : Z := 0x3f91df46a2529d39.

Definition parseOperator (value : string) : res Operator :=
  if String.eqb value "$eq" then Ok OpEq
  else if String.eqb value "$ne" then Ok OpNe
  else if String.eqb value "$gt" then Ok OpGT
  else if String.eqb value "$gte" then Ok OpGTE
  else if String.eqb value "$lt" then Ok OpLT
  else if String.eqb value "$lte" then Ok OpLTE
  else if String.eqb value "$in" then Ok OpIn
  else if String.eqb value "$nin" then Ok OpNotIn
  else if String.eqb value "$exists" then Ok OpExists
  else if String.eqb value "$text" then Ok OpText
  else invalid "unknown field operator".

Fixpoint validate_scalars (items : list any) : res unit :=
  match items with
  | [] => Ok tt
  | item :: rest => let! _ := validateScalar item in validate_scalars rest
  end.

(** What each operator requires of its operand. *)
Definition check_operand (op : Operator) (operand : any) : res unit :=
  match op with
  | OpIn | OpNotIn =>
      match operand with
      | Array (item :: rest) => validate_scalars (item :: rest)
      | _ => invalid "requires a non-empty array"
      end
  | OpExists => match operand with Bool _ => Ok tt | _ => invalid "$exists requires a boolean" end
  | OpText =>
      match operand with
      | Text_ text =>
          if (len (textWords text) =? 0) || (maxTextQueryBytes <? Z.of_nat (String.length text))
          then invalid "$text requires a string of 1 to 1024 bytes with at least one word" else Ok tt
      | _ => invalid "$text requires a string of 1 to 1024 bytes with at least one word"
      end
  | _ => validateScalar operand
  end.

Fixpoint parse_operators (field : string) (operators : list (string * any)) : res (list (option Expr)) :=
  match operators with
  | [] => Ok []
  | (name, operand) :: rest =>
      let! op := parseOperator name in
      let! _ := check_operand op operand in
      let! others := parse_operators field rest in
      Ok (Some (Predicate field op operand) :: others)
  end.

(** One child stands for itself. *)
Definition conjunction (children : list (option Expr)) : option Expr :=
  match children with [child] => child | _ => Some (And children) end.

Definition parseField (field : string) (value : any) : res (option Expr) :=
  match value with
  | Object operators =>
      if len operators =? 0 then invalid "field has no operators"
      else let! children := parse_operators field operators in Ok (conjunction children)
  | _ => let! _ := validateScalar value in Ok (Some (Predicate field OpEq value))
  end.

Definition has_dollar (s : string) : bool := match s with String c _ => Ascii.eqb c "$" | _ => false end.

(** The keys of [$geo_radius], in turn; the flags record which were given. *)
Fixpoint parse_geo (object : list (string * any)) (geo : GeoRadius) (haveLat haveLon haveMeters : bool)
    : res (GeoRadius * (bool * bool * bool)) :=
  match object with
  | [] => Ok (geo, (haveLat, haveLon, haveMeters))
  | (key, raw) :: rest =>
      if String.eqb key "lat_field" || String.eqb key "lon_field" then
        match raw with
        | Text_ name =>
            if String.eqb name "" || has_dollar name then invalid "$geo_radius key must be a field name"
            else if String.eqb key "lat_field"
            then parse_geo rest (mkGeo name (LonField geo) (Lat geo) (Lon geo) (Meters geo)) haveLat haveLon haveMeters
            else parse_geo rest (mkGeo (LatField geo) name (Lat geo) (Lon geo) (Meters geo)) haveLat haveLon haveMeters
        | _ => invalid "$geo_radius key must be a field name"
        end
      else if String.eqb key "lat" || String.eqb key "lon" || String.eqb key "meters" then
        match number raw with
        | None => invalid "$geo_radius key must be a finite number"
        | Some x =>
            if String.eqb key "lat"
            then parse_geo rest (mkGeo (LatField geo) (LonField geo) x (Lon geo) (Meters geo)) true haveLon haveMeters
            else if String.eqb key "lon"
            then parse_geo rest (mkGeo (LatField geo) (LonField geo) (Lat geo) x (Meters geo)) haveLat true haveMeters
            else parse_geo rest (mkGeo (LatField geo) (LonField geo) (Lat geo) (Lon geo) x) haveLat haveLon true
        end
      else invalid "unknown $geo_radius key"
  end.

Definition geo_in_bounds (geo : GeoRadius) : bool :=
  negb (f64_ltb (Lat geo) (f64_neg f64_90) || f64_ltb f64_90 (Lat geo)
        || f64_ltb (Lon geo) (f64_neg f64_180) || f64_ltb f64_180 (Lon geo)
        || f64_leb (Meters geo) f64_0 || f64_ltb halfEarth (Meters geo)).

Definition parseGeoRadius (value : any) : res GeoRadius :=
  match value with
  | Object object =>
      let! r := parse_geo object (mkGeo "lat" "lon" 0 0 0) false false false in
      let '(geo, (haveLat, haveLon, haveMeters)) := r in
      if negb haveLat || negb haveLon || negb haveMeters then invalid "$geo_radius requires lat, lon and meters"
      else if geo_in_bounds geo then Ok geo
      else invalid "$geo_radius needs lat in [-90, 90], lon in [-180, 180] and meters in (0, 20015000]"
  | _ => invalid "$geo_radius requires an object"
  end.

Fixpoint sequence {A} (l : list (res A)) : res (list A) :=
  match l with
  | [] => Ok []
  | r :: rest => let! a := r in let! others := sequence rest in Ok (a :: others)
  end.

Definition key_ltb {A} (a b : string * A) : bool := str_ltb a.1 b.1.

(** [Parse] of a decoded object.  The entries are parsed where they stand
    and put in key order, and the first error in that order is returned, as
    by the loop over the sorted keys. *)
Fixpoint parse_any (raw : any) : res (option Expr) :=
  match raw with
  | Object fields =>
      match fields with
      | [] => Ok None
      | _ =>
          let parsed :=
            List.map (λ kv : string * any,
              match kv with
              | (key, value) =>
                  (key,
                   if String.eqb key "$and" || String.eqb key "$or" then
                     match value with
                     | Array items =>
                         if len items =? 0 then invalid "requires a non-empty array"
                         else
                           let! children :=
                             sequence (List.map (λ item, match item with
                                                         | Object _ => parse_any item
                                                         | _ => invalid "entries must be objects"
                                                         end) items) in
                           Ok (Some (if String.eqb key "$or" then Or children else And children))
                     | _ => invalid "requires a non-empty array"
                     end
                   else if String.eqb key "$geo_radius" then
                     let! geo := parseGeoRadius value in Ok (Some (Geo geo))
                   else if String.eqb key "$not" then
                     match value with
                     | Object _ => let! child := parse_any value in Ok (Some (Not child))
                     | _ => invalid "$not requires an object"
                     end
                   else if has_dollar key || String.eqb key "" then invalid "unknown filter operator"
                   else parseField key value)
              end) fields in
          let! children := sequence (sort_slice key_ltb parsed).*2 in
          Ok (conjunction children)
      end
  | _ => invalid "filter must be an object"
  end.

Definition Parse (raw : list (string * any)) : res (option Expr) := parse_any (Object raw).

(** ** The index *)

Record Index : Set := mkIndex {
  universe : Bitmap.t;
  values : gmap string (gmap Z any);
  postings : gmap string (gmap string Posting.t);
  present : gmap string Bitmap.t;
  numeric : gmap string NumericField.t;
}.

Definition NewIndex : Index := mkIndex (Bitmap.newSet 0) ∅ ∅ ∅ ∅.

Definition insertNumeric (numeric : gmap string NumericField.t) (field : string) (e : NumericField.entry)
    : gmap string NumericField.t :=
  <[field := NumericField.insert (default NumericField.new_field (numeric !! field)) e]> numeric.

Definition deleteNumeric (numeric : gmap string NumericField.t) (field : string) (value id : Z)
    : gmap string NumericField.t :=
  match numeric !! field with
  | Some n => <[field := NumericField.remove n value id]> numeric
  | None => numeric
  end.

(** One field of [Upsert]; a value that is no scalar is not indexed. *)
Definition upsert_field (id : Z) (i : Index) (kv : string * any) : Index :=
  let '(field, value) := kv in
  match validateScalar value with
  | Err _ => i
  | Ok _ =>
      let by_key := default ∅ (postings i !! field) in
      let key := canonical value in
      mkIndex (universe i)
        (<[field := <[id := value]> (default ∅ (values i !! field))]> (values i))
        (<[field := <[key := Posting.Add (default Posting.empty_posting (by_key !! key)) id]> by_key]> (postings i))
        (<[field := Bitmap.Add (default (Bitmap.newSet id) (present i !! field)) id]> (present i))
        (match number value with
         | Some x => insertNumeric (numeric i) field (NumericField.mkEntry x id)
         | None => numeric i
         end)
  end.

(** One field of [Delete]. *)
Definition delete_field (id : Z) (i : Index) (field : string) : Index :=
  match values i !! field ≫= (.!! id) with
  | None => i
  | Some value =>
      mkIndex (universe i)
        (alter (delete id) field (values i))
        (alter (alter (λ p, Posting.Remove p id) (canonical value)) field (postings i))
        (alter (λ s, Bitmap.Remove s id) field (present i))
        (match number value with
         | Some x => deleteNumeric (numeric i) field x id
         | None => numeric i
         end)
  end.

Definition Delete (i : Index) (id : Z) : Index :=
  foldl (delete_field id)
    (mkIndex (Bitmap.Remove (universe i) id) (values i) (postings i) (present i) (numeric i))
    (map_to_list (values i)).*1.

Definition Upsert (i : Index) (id : Z) (metadata : gmap string any) : Index :=
  let i := Delete i id in
  foldl (upsert_field id)
    (mkIndex (Bitmap.Add (universe i) id) (values i) (postings i) (present i) (numeric i))
    (map_to_list metadata).

(** ** Evaluation *)

Definition span (i : Index) : Z := len (Bitmap.words (universe i)) * 64.

Definition postingSet (i : Index) (field : string) (value : any) : Bitmap.t :=
  let maxID := if 0 <? len (Bitmap.words (universe i)) then span i - 1 else 0 in
  Posting.Set_ (postings i !! field ≫= (.!! canonical value)) maxID.

Definition numericRange (i : Index) (field : string) (op : Operator) (target : Z) : Bitmap.t :=
  match numeric i !! field with
  | None => Bitmap.newSet (span i)
  | Some n => NumericField.range n op target (span i)
  end.

Definition order_matches (op : Operator) (c : comparison) : bool :=
  match op, c with
  | OpGT, Gt | OpGTE, (Gt | Eq) | OpLT, Lt | OpLTE, (Lt | Eq) => true
  | _, _ => false
  end.

Definition compares (op : Operator) (value operand : any) : bool :=
  match compare value operand with Some c => order_matches op c | None => false end.

(** The ordinals of a field whose value passes a test. *)
Definition scan_values (i : Index) (field : string) (test : any → bool) : Bitmap.t :=
  foldl (λ s '(id, value), if test value then Bitmap.Add s id else s) (Bitmap.newSet (span i))
    (map_to_list (default ∅ (values i !! field))).

(** A failed type assertion panics; [Parse] builds no such expression. *)
Definition predicate (i : Index) (field : string) (op : Operator) (value : any) : res Bitmap.t :=
  match op with
  | OpExists =>
      match value with
      | Bool b =>
          let existing := Bitmap.clone (present i !! field) in
          Ok (if b then existing else Bitmap.difference (Some (universe i)) (Some existing))
      | _ => Err (Panic "interface conversion")
      end
  | OpEq => Ok (postingSet i field value)
  | OpNe => Ok (Bitmap.difference (present i !! field) (Some (postingSet i field value)))
  | OpText =>
      match value with
      | Text_ text =>
          let words := textWords text in
          Ok (scan_values i field (λ v, match v with Text_ t => containsWords t words | _ => false end))
      | _ => Err (Panic "interface conversion")
      end
  | OpIn | OpNotIn =>
      match value with
      | Array items =>
          let matched := foldl (λ s v, Bitmap.union (Some s) (Some (postingSet i field v)))
                           (Bitmap.newSet (span i)) items in
          Ok (if bool_decide (op = OpNotIn) then Bitmap.difference (present i !! field) (Some matched) else matched)
      | _ => Err (Panic "interface conversion")
      end
  | _ =>
      match number value with
      | Some target => Ok (numericRange i field op target)
      | None => Ok (scan_values i field (λ v, compares op v value))
      end
  end.

Definition haversineMeters (lat1 lon1 lat2 lon2 : Z) : Z :=
  let dLat := f64_mul (f64_sub lat2 lat1) toRadians in
  let dLon := f64_mul (f64_sub lon2 lon1) toRadians in
  let sLat := math_Sin (f64_div dLat f64_2) in
  let sLon := math_Sin (f64_div dLon f64_2) in
  let a := f64_add (f64_mul sLat sLat)
             (f64_mul (f64_mul (f64_mul (math_Cos (f64_mul lat1 toRadians)) (math_Cos (f64_mul lat2 toRadians))) sLon) sLon) in
  let root := f64_sqrt a in
  f64_mul twoEarthRadii (math_Asin (if f64_is_nan root || f64_ltb root f64_1 then root else f64_1)).

(** The bounding box of [geoRadius]: its latitudes, and how longitudes are
    tested.  Near a pole every longitude passes; a box over the antimeridian
    is a union of two ranges. *)
Definition lat_bounds (geo : GeoRadius) : Z * Z :=
  let deltaLat := f64_div (f64_mul (f64_div (Meters geo) earthRadiusMeters) f64_180) math_Pi in
  (f64_sub (Lat geo) deltaLat, f64_add (Lat geo) deltaLat).

Inductive LonBounds : Set :=
  | LonUnchecked
  | LonPresent
  | LonUnion (low high : Z)
  | LonBetween (low high : Z).

Definition lon_bounds (geo : GeoRadius) : LonBounds :=
  let deltaLat := f64_div (f64_mul (f64_div (Meters geo) earthRadiusMeters) f64_180) math_Pi in
  let '(minLat, maxLat) := lat_bounds geo in
  if f64_ltb (f64_neg f64_90) minLat && f64_ltb maxLat f64_90 then
    let deltaLon := f64_div deltaLat (math_Cos (f64_div (f64_mul (Lat geo) math_Pi) f64_180)) in
    let minLon := f64_sub (Lon geo) deltaLon in
    let maxLon := f64_add (Lon geo) deltaLon in
    if f64_leb f64_180 deltaLon then LonPresent
    else if f64_ltb minLon (f64_neg f64_180) then LonUnion (f64_add minLon f64_360) maxLon
    else if f64_ltb f64_180 maxLon then LonUnion minLon (f64_sub maxLon f64_360)
    else LonBetween minLon maxLon
  else LonUnchecked.

Definition within (geo : GeoRadius) (lat lon : option any) : bool :=
  match lat ≫= number, lon ≫= number with
  | Some y, Some x => f64_leb (haversineMeters (Lat geo) (Lon geo) y x) (Meters geo)
  | _, _ => false
  end.

Definition geoRadius (i : Index) (geo : GeoRadius) : Bitmap.t :=
  let '(minLat, maxLat) := lat_bounds geo in
  let candidates := Bitmap.intersect (Some (numericRange i (LatField geo) OpGTE minLat))
                                     (Some (numericRange i (LatField geo) OpLTE maxLat)) in
  let ranges low high := (Some (numericRange i (LonField geo) OpGTE low), Some (numericRange i (LonField geo) OpLTE high)) in
  let candidates :=
    match lon_bounds geo with
    | LonUnchecked => candidates
    | LonPresent => Bitmap.intersect (Some candidates) (Some (Bitmap.clone (present i !! LonField geo)))
    | LonUnion low high =>
        let '(a, b) := ranges low high in Bitmap.intersect (Some candidates) (Some (Bitmap.union a b))
    | LonBetween low high =>
        let '(a, b) := ranges low high in Bitmap.intersect (Some candidates) (Some (Bitmap.intersect a b))
    end in
  foldl (λ s id, if within geo (values i !! LatField geo ≫= (.!! id)) (values i !! LonField geo ≫= (.!! id))
                 then Bitmap.Add s id else s)
    (Bitmap.newSet (span i)) (Bitmap.setIDs candidates).

(** The children of a conjunction or disjunction, folded into [result]; a
    nil child is every record. *)
Definition eval_children (evaluate : Expr → res Bitmap.t) (all : Bitmap.t)
    (combine : option Bitmap.t → option Bitmap.t → Bitmap.t) : Bitmap.t → list (option Expr) → res Bitmap.t :=
  fix go (result : Bitmap.t) (children : list (option Expr)) : res Bitmap.t :=
    match children with
    | [] => Ok result
    | child :: rest =>
        let! s := match child with Some c => evaluate c | None => Ok all end in
        go (combine (Some result) (Some s)) rest
    end.

Fixpoint Evaluate_expr (i : Index) (e : Expr) : res Bitmap.t :=
  let all := Bitmap.clone (Some (universe i)) in
  match e with
  | And children => eval_children (Evaluate_expr i) all Bitmap.intersect all children
  | Or children => eval_children (Evaluate_expr i) all Bitmap.union (Bitmap.newSet (span i)) children
  | Not child =>
      let! s := match child with Some c => Evaluate_expr i c | None => Ok all end in
      Ok (Bitmap.difference (Some (universe i)) (Some s))
  | Predicate field op value => predicate i field op value
  | Geo geo => Ok (geoRadius i geo)
  end.

Definition Evaluate (i : Index) (e : option Expr) : res Bitmap.t :=
  match e with
  | None => Ok (Bitmap.clone (Some (universe i)))
  | Some e => Evaluate_expr i e
  end.

End Filters.
