(* ===== verification/MetadataProofs.v ===== *)
(** * Filters select by their meaning

    What a filter means for one record, and the proof that evaluating it over
    the index, through postings, numeric ranges and bitmaps maintained by any
    history of insertions and deletions, selects exactly the ordinals of the
    records that match. *)
From Stdlib Require Import ZArith Lia Ascii String.
From stdpp Require Import base tactics list gmap strings.
From S2P Require Import Prelude Core Distance Float Bitmap Posting Metadata.
Local Set Warnings "-clear-no-such-hyp".
Local Open Scope string_scope.
Local Open Scope Z_scope.
Local Open Scope list_scope.

Section Meaning.
Context {UT : UnicodeTables} {MF : MathFunctions}.

(** ** Meaning of a filter *)

(** The indexed value of a field: a scalar, or none. *)
Definition scalar (md : gmap string any) (field : string) : option any :=
  match md !! field with
  | Some v => if is_ok (validateScalar v) then Some v else None
  | None => None
  end.

Definition holds_value (v : option any) (test : any → bool) : bool :=
  match v with Some x => test x | None => false end.

Definition same_key (a b : any) : bool := String.eqb (canonical a) (canonical b).

Definition in_range (op : Operator) (target : Z) (v : any) : bool :=
  match number v with Some x => NumericField.rangeMatches x op target | None => false end.

Definition predicate_matches (op : Operator) (value : any) (v : option any) : bool :=
  match op, value with
  | OpExists, Bool b => Bool.eqb b (bool_decide (is_Some v))
  | OpExists, _ => false
  | OpEq, _ => holds_value v (same_key value)
  | OpNe, _ => holds_value v (λ x, negb (same_key value x))
  | OpText, Text_ text =>
      holds_value v (λ x, match x with Text_ t => containsWords t (textWords text) | _ => false end)
  | OpText, _ => false
  | OpIn, Array items => holds_value v (λ x, existsb (λ item, same_key item x) items)
  | OpNotIn, Array items => holds_value v (λ x, negb (existsb (λ item, same_key item x) items))
  | (OpIn | OpNotIn), _ => false
  | _, _ =>
      match number value with
      | Some target => holds_value v (in_range op target)
      | None => holds_value v (λ x, compares op x value)
      end
  end.

Definition lon_matches (b : LonBounds) (v : option any) : bool :=
  match b with
  | LonUnchecked => true
  | LonPresent => bool_decide (is_Some v)
  | LonUnion low high => holds_value v (in_range OpGTE low) || holds_value v (in_range OpLTE high)
  | LonBetween low high => holds_value v (in_range OpGTE low) && holds_value v (in_range OpLTE high)
  end.

Definition geo_matches (geo : GeoRadius) (lat lon : option any) : bool :=
  let '(minLat, maxLat) := lat_bounds geo in
  holds_value lat (in_range OpGTE minLat) && holds_value lat (in_range OpLTE maxLat)
  && lon_matches (lon_bounds geo) lon && within geo lat lon.

Fixpoint matches (e : Expr) (md : gmap string any) : bool :=
  match e with
  | Predicate field op value => predicate_matches op value (scalar md field)
  | And children => forallb (λ c : option Expr, match c with Some c => matches c md | None => true end) children
  | Or children => existsb (λ c : option Expr, match c with Some c => matches c md | None => true end) children
  | Not child => negb (match child with Some c => matches c md | None => true end)
  | Geo geo => geo_matches geo (scalar md (LatField geo)) (scalar md (LonField geo))
  end.

Definition matches_opt (e : option Expr) (md : gmap string any) : bool :=
  match e with Some e => matches e md | None => true end.

(** Induction over an expression and its children. *)
Definition of_child (P : Expr → Prop) (c : option Expr) : Prop := match c with Some c => P c | None => True end.

Lemma Expr_ind' (P : Expr → Prop) :
  (∀ field op value, P (Predicate field op value)) →
  (∀ children, Forall (of_child P) children → P (And children)) →
  (∀ children, Forall (of_child P) children → P (Or children)) →
  (∀ child, of_child P child → P (Not child)) →
  (∀ geo, P (Geo geo)) → ∀ e, P e.
Proof.
  intros Hp Ha Ho Hn Hg. fix IH 1. intros [field op value|children|children|child|geo].
  - apply Hp.
  - apply Ha. induction children as [|[c|] l IHl]; constructor; try done; apply IH.
  - apply Ho. induction children as [|[c|] l IHl]; constructor; try done; apply IH.
  - apply Hn. destruct child as [c|]; [apply IH|done].
  - apply Hg.
Qed.

(** ** Well-typed expressions *)

(** The operand has the type its operator asserts. *)
Definition operand_ok (op : Operator) (value : any) : bool :=
  match op, value with
  | OpExists, Bool _ => true
  | OpText, Text_ _ => true
  | (OpIn | OpNotIn), Array _ => true
  | (OpExists | OpText | OpIn | OpNotIn), _ => false
  | _, _ => true
  end.

(** The numbers of the bounding box are numbers. *)
Definition lon_ok (b : LonBounds) : bool :=
  match b with
  | LonUnion low high | LonBetween low high => negb (f64_is_nan low) && negb (f64_is_nan high)
  | _ => true
  end.

Definition box_ok (geo : GeoRadius) : bool :=
  negb (f64_is_nan (lat_bounds geo).1) && negb (f64_is_nan (lat_bounds geo).2) && lon_ok (lon_bounds geo).

Fixpoint well_typed (e : Expr) : bool :=
  match e with
  | Predicate _ op value => operand_ok op value
  | And children | Or children =>
      forallb (λ c : option Expr, match c with Some c => well_typed c | None => true end) children
  | Not child => match child with Some c => well_typed c | None => true end
  | Geo _ => true
  end.

Fixpoint boxes_ok (e : Expr) : bool :=
  match e with
  | Predicate _ _ _ => true
  | And children | Or children =>
      forallb (λ c : option Expr, match c with Some c => boxes_ok c | None => true end) children
  | Not child => match child with Some c => boxes_ok c | None => true end
  | Geo geo => box_ok geo
  end.

(** ** What the index of one field stands for *)

Definition posting_rep (p : option Posting.t) (sc : gmap Z any) (key : string) : Prop :=
  (∀ q, p = Some q → Posting.inv q) ∧
  ∀ id, id ∈ from_option Posting.ids ∅ p ↔ ∃ v, sc !! id = Some v ∧ canonical v = key.

Record field_rep (i : Index) (field : string) (sc : gmap Z any) : Prop := mkFieldRep {
  fr_values : default ∅ (values i !! field) = sc;
  fr_postings key : posting_rep (postings i !! field ≫= (.!! key)) sc key;
  fr_present : (∀ s, present i !! field = Some s → Bitmap.inv s) ∧
    ∀ id, 0 ≤ id → Bitmap.has (present i !! field) id = bool_decide (is_Some (sc !! id));
  fr_numeric : let n := default NumericField.new_field (numeric i !! field) in
    NumericField.inv n ∧ NumericField.current n = omap number sc;
  fr_ids : ∀ id v, sc !! id = Some v → 0 ≤ id;
}.

(** Only the fields' own entries matter. *)
Lemma field_rep_same i j field sc :
  values i !! field = values j !! field → postings i !! field = postings j !! field →
  present i !! field = present j !! field → numeric i !! field = numeric j !! field →
  field_rep i field sc → field_rep j field sc.
Proof. intros H1 H2 H3 H4 [Hv Hp Hr Hn Hi]. constructor; rewrite <-?H1, <-?H2, <-?H3, <-?H4; done. Qed.

Lemma number_finite v x : number v = Some x → f64_is_nan x = false.
Proof.
  assert (∀ r, (if f64_finite r then Some r else None) = Some x → f64_is_nan x = false) as Hr.
  { intros r Hr. destruct (f64_finite r) eqn:E; [|done]. injection Hr as <-. unfold f64_finite in E. by bool_props. }
  destruct v; try done; apply Hr.
Qed.

Lemma posting_add p (sc : gmap Z any) key k id v :
  posting_rep p sc k → sc !! id = None → 0 ≤ id → canonical v = key →
  posting_rep (if String.eqb k key then Some (Posting.Add (default Posting.empty_posting p) id) else p) (<[id := v]> sc) k.
Proof.
  intros [Hi Hk] Hid Hpos Hv. destruct (String.eqb_spec k key) as [->|Hne].
  - destruct (PostingFacts.Add_ok (default Posting.empty_posting p) id) as [Hi' Hids]; [|done|].
    { destruct p as [q|]; [by apply Hi|apply PostingFacts.empty_ok]. }
    split; [by intros q [= <-]|]. intros j. simpl. rewrite Hids, elem_of_union, elem_of_singleton.
    assert (Posting.ids (default Posting.empty_posting p) = from_option Posting.ids ∅ p) as -> by (by destruct p).
    rewrite Hk. destruct (decide (j = id)) as [->|Hj].
    + rewrite lookup_insert_eq. split; [eauto|by left].
    + rewrite lookup_insert_ne by done. naive_solver.
  - split; [done|]. intros j. rewrite Hk. destruct (decide (j = id)) as [->|Hj].
    + rewrite lookup_insert_eq, Hid. split; [by intros (?&?&?)|]. intros (w&[= <-]&E). congruence.
    + by rewrite lookup_insert_ne.
Qed.

Lemma upsert_field_other id i field v f :
  f ≠ field → let j := upsert_field id i (field, v) in
  values j !! f = values i !! f ∧ postings j !! f = postings i !! f ∧
  present j !! f = present i !! f ∧ numeric j !! f = numeric i !! f.
Proof.
  intros Hne. unfold upsert_field. destruct (validateScalar v); [|done]. cbn [values postings present numeric].
  rewrite !lookup_insert_ne by done. repeat split. destruct (number v); [|done].
  unfold insertNumeric. by rewrite lookup_insert_ne.
Qed.

Definition put_scalar (v : any) (id : Z) (sc : gmap Z any) : gmap Z any :=
  if is_ok (validateScalar v) then <[id := v]> sc else sc.

Lemma upsert_field_ok id i field v sc :
  field_rep i field sc → sc !! id = None → 0 ≤ id →
  field_rep (upsert_field id i (field, v)) field (put_scalar v id sc).
Proof.
  intros [Hv Hp [Hri Hr] [Hni Hnc] Hids] Hnone Hpos. unfold upsert_field, put_scalar.
  destruct (validateScalar v); [|done]. cbn [is_ok].
  constructor; cbn [values postings present numeric].
  - rewrite lookup_insert_eq, Hv. done.
  - intros key. rewrite lookup_insert_eq. cbn [mbind option_bind].
    pose proof (posting_add _ sc (canonical v) key id v (Hp key) Hnone Hpos eq_refl) as H.
    destruct (String.eqb_spec key (canonical v)) as [E|Hne].
    + rewrite E in *. rewrite lookup_insert_eq. destruct (postings i !! field); done.
    + rewrite lookup_insert_ne by done. destruct (postings i !! field); done.
  - rewrite lookup_insert_eq. split.
    + intros s [= <-]. apply Bitmap.inv_Add; [done|].
      destruct (present i !! field) eqn:E; [by apply Hri|apply Bitmap.inv_newSet].
    + intros j Hj. simpl. rewrite Bitmap.Add_has by done.
      assert (Bitmap.Contains (default (Bitmap.newSet id) (present i !! field)) j = Bitmap.has (present i !! field) j) as ->.
      { destruct (present i !! field); [done|]. apply Bitmap.Contains_newSet. }
      rewrite Hr by done. destruct (Z.eqb_spec j id) as [->|Hne].
      * rewrite lookup_insert_eq. done.
      * by rewrite lookup_insert_ne.
  - assert (NumericField.current (default NumericField.new_field (numeric i !! field)) !! id = None) as Hc.
    { rewrite Hnc, lookup_omap, Hnone. done. }
    destruct (number v) as [x|] eqn:Ex.
    + unfold insertNumeric. rewrite lookup_insert_eq.
      destruct (NumericFacts.insert_ok _ id x Hni Hc (number_finite v x Ex) Hpos) as [Hi' Hc'].
      split; [exact Hi'|]. etrans; [exact Hc'|]. rewrite Hnc. symmetry. by apply omap_insert_Some.
    + split; [done|]. rewrite Hnc, omap_insert_None by done. symmetry. apply delete_id. by rewrite lookup_omap, Hnone.
  - intros j w. destruct (decide (j = id)) as [->|Hne]; [done|]. rewrite lookup_insert_ne by done. apply Hids.
Qed.

Lemma posting_remove p (sc : gmap Z any) k id v :
  posting_rep p sc k → sc !! id = Some v → 0 ≤ id →
  posting_rep (if String.eqb k (canonical v) then (λ q, Posting.Remove q id) <$> p else p) (delete id sc) k.
Proof.
  intros [Hi Hk] Hid Hpos.
  assert (∀ j, (∃ w, delete id sc !! j = Some w ∧ canonical w = k) ↔ j ≠ id ∧ ∃ w, sc !! j = Some w ∧ canonical w = k) as Hdel.
  { intros j. setoid_rewrite lookup_delete_Some. naive_solver. }
  destruct (String.eqb_spec k (canonical v)) as [->|Hne].
  - destruct p as [q|]; simpl in *; [|split; [done|]; intros j; rewrite Hdel, <-Hk; set_solver].
    destruct (PostingFacts.Remove_ok q id (Hi q eq_refl) Hpos) as [Hi' Hids].
    split; [by intros ? [= <-]|]. intros j. simpl. rewrite Hids, elem_of_difference, elem_of_singleton, Hk, Hdel. naive_solver.
  - split; [done|]. intros j. rewrite Hdel, Hk. split; [|naive_solver]. intros (w&Hw&Hc). split; [|eauto].
    intros ->. congruence.
Qed.

Lemma delete_field_other id i field f :
  f ≠ field → let j := delete_field id i field in
  values j !! f = values i !! f ∧ postings j !! f = postings i !! f ∧
  present j !! f = present i !! f ∧ numeric j !! f = numeric i !! f.
Proof.
  intros Hne. unfold delete_field. destruct (_ ≫= _) as [v|]; [|done]. cbn [values postings present numeric].
  rewrite !lookup_alter_ne by done. repeat split. destruct (number v); [|done].
  unfold deleteNumeric. destruct (numeric i !! field); [by rewrite lookup_insert_ne|done].
Qed.

Lemma delete_field_ok id i field sc :
  field_rep i field sc → 0 ≤ id → field_rep (delete_field id i field) field (delete id sc).
Proof.
  intros Hrep Hpos. pose proof Hrep as [Hv Hp [Hri Hr] [Hni Hnc] Hids]. unfold delete_field.
  assert (values i !! field ≫= (.!! id) = sc !! id) as Hval.
  { rewrite <-Hv. destruct (values i !! field); [done|]. simpl. by rewrite lookup_empty. }
  rewrite Hval. destruct (sc !! id) as [v|] eqn:Hid; [|by rewrite delete_id].
  constructor; cbn [values postings present numeric].
  - rewrite lookup_alter_eq, <-Hv. destruct (values i !! field); [done|]. simpl. by rewrite delete_empty.
  - intros key. rewrite lookup_alter_eq. pose proof (posting_remove _ sc key id v (Hp key) Hid Hpos) as H.
    destruct (postings i !! field) as [m|]; [|by destruct (String.eqb _ _)]. simpl in *.
    destruct (String.eqb_spec key (canonical v)) as [E|Hne].
    + rewrite E in *. by rewrite lookup_alter_eq.
    + by rewrite lookup_alter_ne.
  - rewrite lookup_alter_eq. split.
    + intros s Hs. destruct (present i !! field) as [s0|]; [|done]. injection Hs as <-. apply Bitmap.inv_Remove; [done|by apply Hri].
    + intros j Hj. specialize (Hr j Hj). destruct (present i !! field) as [s|]; simpl in *.
      * rewrite Bitmap.Remove_has, Hr by done. destruct (Z.eqb_spec j id) as [->|Hne].
        -- by rewrite lookup_delete_eq.
        -- by rewrite lookup_delete_ne.
      * rewrite Hr. apply bool_decide_ext. rewrite <-!not_eq_None_Some. destruct (decide (j = id)) as [->|Hne].
        -- rewrite lookup_delete_eq, Hid in *. symmetry in Hr. apply bool_decide_eq_false in Hr. destruct Hr. eauto.
        -- by rewrite lookup_delete_ne.
  - rewrite omap_delete, <-Hnc. destruct (number v) as [x|] eqn:Ex.
    + assert (NumericField.current (default NumericField.new_field (numeric i !! field)) !! id = Some x) as Hc.
      { rewrite Hnc, lookup_omap, Hid. done. }
      unfold deleteNumeric. destruct (numeric i !! field) as [n|]; simpl in *; [|by rewrite lookup_empty in Hc].
      rewrite lookup_insert_eq. by apply NumericFacts.remove_ok.
    + split; [done|]. rewrite Hnc. symmetry. apply delete_id. by rewrite lookup_omap, Hid.
  - intros j w [_ Hw]%lookup_delete_Some. by eapply Hids.
Qed.

(** ** The whole index *)

Section Fold.
Context {A : Type} (step : Index → A → Index) (fld : A → string) (g : A → gmap Z any → gmap Z any).
Context (P : gmap Z any → Prop).
Context (step_universe : ∀ i a, universe (step i a) = universe i).
Context (step_other : ∀ i a f, f ≠ fld a → values (step i a) !! f = values i !! f ∧
  postings (step i a) !! f = postings i !! f ∧ present (step i a) !! f = present i !! f ∧
  numeric (step i a) !! f = numeric i !! f).
Context (step_own : ∀ i a sc, field_rep i (fld a) sc → P sc → field_rep (step i a) (fld a) (g a sc)).

Lemma step_skip i a f sc : f ≠ fld a → field_rep i f sc → field_rep (step i a) f sc.
Proof. intros Hf Hi. destruct (step_other i a f Hf) as (?&?&?&?). by eapply field_rep_same. Qed.

Lemma fold_skip l i f sc : f ∉ fld <$> l → field_rep i f sc → field_rep (foldl step i l) f sc.
Proof.
  revert i. induction l as [|a l IH]; intros i Hf Hi; cbn [foldl]; [done|].
  rewrite fmap_cons, not_elem_of_cons in Hf. destruct Hf as [Ha Hf]. apply IH; [done|]. by apply step_skip.
Qed.

Lemma fold_universe l i : universe (foldl step i l) = universe i.
Proof. revert i. induction l as [|a l IH]; intros i; cbn [foldl]; [done|]. by rewrite IH. Qed.

(** A step per field changes each field once. *)
Lemma fold_own (l : list A) i (sc : string → gmap Z any) a :
  NoDup (fld <$> l) → (∀ b, b ∈ l → field_rep i (fld b) (sc (fld b)) ∧ P (sc (fld b))) → a ∈ l →
  field_rep (foldl step i l) (fld a) (g a (sc (fld a))).
Proof.
  revert i. induction l as [|b l IH]; intros i Hnd Hrep Ha; cbn [foldl]; [by apply not_elem_of_nil in Ha|].
  rewrite fmap_cons, NoDup_cons in Hnd. destruct Hnd as [Hb Hnd].
  apply elem_of_cons in Ha as [->|Ha].
  - apply fold_skip; [done|]. destruct (Hrep b) as [H1 H2]; [by apply list_elem_of_here|]. by apply step_own.
  - apply IH; [done| |done]. intros c Hc. destruct (Hrep c) as [H1 H2]; [by apply list_elem_of_further|].
    split; [|done]. apply step_skip; [|done]. intros E. apply Hb. rewrite <-E. by apply list_elem_of_fmap_2.
Qed.
End Fold.

(** The index of a map from ordinals to metadata. *)
Definition column (X : gmap Z (gmap string any)) (field : string) : gmap Z any := omap (λ md, scalar md field) X.

Record index_rep (i : Index) (X : gmap Z (gmap string any)) : Prop := mkIndexRep {
  ir_inv : Bitmap.inv (universe i);
  ir_universe id : 0 ≤ id → Bitmap.Contains (universe i) id = bool_decide (is_Some (X !! id));
  ir_fields field : field_rep i field (column X field);
  ir_ids id md : X !! id = Some md → 0 ≤ id;
}.

Lemma empty_field field : field_rep NewIndex field ∅.
Proof.
  constructor; simpl.
  - by rewrite lookup_empty.
  - intros key. rewrite lookup_empty. simpl. split; [done|]. intros id. simpl. setoid_rewrite lookup_empty. set_solver.
  - rewrite lookup_empty. split; [done|]. intros id _. simpl. by rewrite lookup_empty.
  - rewrite lookup_empty. simpl. split; [apply NumericFacts.new_field_ok|]. symmetry. apply omap_empty.
  - intros id v. by rewrite lookup_empty.
Qed.

Lemma NewIndex_ok : index_rep NewIndex ∅.
Proof.
  constructor; simpl.
  - apply Bitmap.inv_newSet.
  - intros id _. rewrite Bitmap.Contains_newSet. by rewrite lookup_empty.
  - intros field. unfold column. rewrite omap_empty. apply empty_field.
  - intros id md. by rewrite lookup_empty.
Qed.

Lemma delete_field_universe id i f : universe (delete_field id i f) = universe i.
Proof. unfold delete_field. by destruct (_ ≫= _). Qed.

Lemma upsert_field_universe id i kv : universe (upsert_field id i kv) = universe i.
Proof. unfold upsert_field. destruct kv as [f v]. by destruct (validateScalar v). Qed.

Lemma index_Delete_ok i X id : index_rep i X → 0 ≤ id → index_rep (Delete i id) (delete id X).
Proof.
  intros [Hu Hc Hf Hi] Hid. unfold Delete.
  set (j := mkIndex (Bitmap.Remove (universe i) id) (values i) (postings i) (present i) (numeric i)).
  assert (∀ f, field_rep j f (column X f)) as Hj by (intros f; by apply (field_rep_same i)).
  constructor.
  - rewrite (fold_universe _ (delete_field_universe id)). by apply Bitmap.inv_Remove.
  - intros n Hn. rewrite (fold_universe _ (delete_field_universe id)). cbn [universe].
    change (universe j) with (Bitmap.Remove (universe i) id). rewrite Bitmap.Remove_has, Hc by done.
    destruct (Z.eqb_spec n id) as [->|Hne]; [by rewrite lookup_delete_eq|by rewrite lookup_delete_ne].
  - intros f. unfold column. rewrite omap_delete. fold (column X f).
    destruct (decide (f ∈ (map_to_list (values i)).*1)) as [Hin|Hnin].
    + rewrite <-(list_fmap_id (map_to_list (values i)).*1) in Hin at 1.
      apply (fold_own (delete_field id) (λ f, f) (λ _ sc, delete id sc) (λ _, True)
        (λ i a f, delete_field_other id i a f) (λ i a sc H _, delete_field_ok id i a sc H Hid)
        _ j (column X) f); [|intros b _; by split|by rewrite list_fmap_id in Hin].
      rewrite list_fmap_id. apply NoDup_fst_map_to_list.
    + assert (column X f = ∅) as E.
      { rewrite <-(fr_values i f _ (Hf f)). destruct (values i !! f) as [m|] eqn:Em; [|done].
        destruct Hnin. apply list_elem_of_fmap. exists (f, m). split; [done|]. by apply elem_of_map_to_list. }
      rewrite E, delete_empty, <-E. apply (fold_skip (delete_field id) (λ f, f) (λ i a f, delete_field_other id i a f)); [|done].
      by rewrite list_fmap_id.
  - intros n md [_ Hn]%lookup_delete_Some. by eapply Hi.
Qed.

Lemma index_Upsert_ok i X id md : index_rep i X → 0 ≤ id → index_rep (Upsert i id md) (<[id := md]> X).
Proof.
  intros Hrep Hid. destruct (index_Delete_ok i X id Hrep Hid) as [Hu Hc Hf Hi]. unfold Upsert.
  set (d := Delete i id) in *. clearbody d.
  set (j := mkIndex (Bitmap.Add (universe d) id) (values d) (postings d) (present d) (numeric d)).
  assert (∀ f, field_rep j f (column (delete id X) f)) as Hj by (intros f; by apply (field_rep_same d)).
  assert (∀ f, column (delete id X) f !! id = None) as Hnone.
  { intros f. unfold column. rewrite lookup_omap, lookup_delete_eq. done. }
  constructor.
  - rewrite (fold_universe _ (upsert_field_universe id)). by apply Bitmap.inv_Add.
  - intros n Hn. rewrite (fold_universe _ (upsert_field_universe id)).
    change (universe j) with (Bitmap.Add (universe d) id). rewrite Bitmap.Add_has, Hc by done.
    destruct (Z.eqb_spec n id) as [->|Hne]; [by rewrite lookup_insert_eq|].
    by rewrite lookup_insert_ne, lookup_delete_ne.
  - intros f. assert (column (<[id := md]> X) f = match scalar md f with Some v => <[id := v]> (column (delete id X) f)
      | None => column (delete id X) f end) as ->.
    { unfold column. rewrite omap_delete. destruct (scalar md f) as [v|] eqn:E.
      - rewrite (omap_insert_Some (λ md, scalar md f) _ _ _ v) by done. by rewrite insert_delete_eq.
      - by rewrite (omap_insert_None (λ md, scalar md f) _ _ _ E). }
    destruct (decide (f ∈ (map_to_list md).*1)) as [Hin|Hnin].
    + apply list_elem_of_fmap in Hin as ([f' v]&Hf'&Hin). simpl in Hf'. subst f'.
      pose proof (fold_own (upsert_field id) fst (λ kv sc, put_scalar kv.2 id sc) (λ sc, sc !! id = None)
        (λ i a g, match a with (x, y) => upsert_field_other id i x y g end)
        (λ i a sc, match a with (x, y) => λ H1 H2, upsert_field_ok id i x y sc H1 H2 Hid end)
        (map_to_list md) j (column (delete id X)) (f, v) (NoDup_fst_map_to_list md)
        (λ b _, conj (Hj _) (Hnone _)) Hin) as H.
      cbn [fst snd] in H. unfold put_scalar in H. apply elem_of_map_to_list in Hin. unfold scalar. rewrite Hin.
      destruct (is_ok (validateScalar v)); done.
    + unfold scalar. destruct (md !! f) as [v|] eqn:E.
      { destruct Hnin. apply list_elem_of_fmap. exists (f, v). split; [done|]. by apply elem_of_map_to_list. }
      apply (fold_skip (upsert_field id) fst (λ i a g, match a with (x, y) => upsert_field_other id i x y g end)); done.
  - intros n m Hn. destruct (decide (n = id)) as [->|Hne]; [done|]. rewrite lookup_insert_ne in Hn by done.
    apply (Hi n m). by rewrite lookup_delete_ne.
Qed.

(** ** Evaluation *)

Section Evaluation.
Context (i : Index) (X : gmap Z (gmap string any)) (Hrep : index_rep i X).

(** A bitmap holds exactly the ordinals of the records that pass a test. *)
Definition selects (s : Bitmap.t) (test : gmap string any → bool) : Prop :=
  Bitmap.inv s ∧ ∀ id, 0 ≤ id → Bitmap.Contains s id = match X !! id with Some md => test md | None => false end.

Definition selects_opt (s : option Bitmap.t) (test : gmap string any → bool) : Prop :=
  (∀ b, s = Some b → Bitmap.inv b) ∧
  ∀ id, 0 ≤ id → Bitmap.has s id = match X !! id with Some md => test md | None => false end.

Lemma selects_some s t : selects s t → selects_opt (Some s) t.
Proof. intros [H1 H2]. split; [by intros b [= <-]|done]. Qed.

Lemma selects_ext s t t' : (∀ md, t md = t' md) → selects s t → selects s t'.
Proof. intros H [H1 H2]. split; [done|]. intros id Hid. rewrite H2 by done. by destruct (X !! id). Qed.

Lemma selects_universe : selects (Bitmap.clone (Some (universe i))) (λ _, true).
Proof.
  split; [apply (ir_inv i X Hrep)|]. intros id Hid. simpl. rewrite (ir_universe i X Hrep) by done.
  by destruct (X !! id).
Qed.

Lemma selects_intersect a b t u : selects_opt a t → selects_opt b u → selects (Bitmap.intersect a b) (λ md, t md && u md).
Proof.
  intros [Ha Ha'] [Hb Hb']. split; [by apply Bitmap.inv_intersect|]. intros id Hid.
  rewrite Bitmap.intersect_has, Ha', Hb' by done. by destruct (X !! id).
Qed.

Lemma selects_union a b t u : selects_opt a t → selects_opt b u → selects (Bitmap.union a b) (λ md, t md || u md).
Proof.
  intros [Ha Ha'] [Hb Hb']. split; [by apply Bitmap.inv_union|]. intros id Hid.
  rewrite Bitmap.union_has, Ha', Hb' by done. by destruct (X !! id).
Qed.

Lemma selects_difference a b t u :
  selects_opt a t → selects_opt b u → selects (Bitmap.difference a b) (λ md, t md && negb (u md)).
Proof.
  intros [Ha Ha'] [Hb Hb']. split; [by apply Bitmap.inv_difference|]. intros id Hid.
  rewrite Bitmap.difference_has, Ha', Hb' by done. by destruct (X !! id).
Qed.

Lemma selects_empty n : selects (Bitmap.newSet n) (λ _, false).
Proof.
  split; [apply Bitmap.inv_newSet|]. intros id Hid. rewrite Bitmap.Contains_newSet. by destruct (X !! id).
Qed.

Lemma column_lookup field id : column X field !! id = X !! id ≫= (λ md, scalar md field).
Proof. unfold column. by rewrite lookup_omap. Qed.

Lemma selects_posting field v :
  selects (postingSet i field v) (λ md, holds_value (scalar md field) (same_key v)).
Proof.
  destruct (fr_postings i field _ (ir_fields i X Hrep field) (canonical v)) as [Hinv Hin].
  destruct (PostingFacts.Set_ok _ (if 0 <? len (Bitmap.words (universe i)) then span i - 1 else 0) Hinv) as [Hs Hc].
  split; [exact Hs|]. intros id Hid. etrans; [by apply Hc|].
  apply eq_true_iff_eq. rewrite bool_decide_eq_true, Hin, column_lookup.
  destruct (X !! id) as [md|]; simpl; [|naive_solver]. destruct (scalar md field) as [w|]; simpl; [|naive_solver].
  unfold same_key. rewrite String.eqb_eq. naive_solver.
Qed.

Lemma selects_present field : selects_opt (present i !! field) (λ md, bool_decide (is_Some (scalar md field))).
Proof.
  destruct (fr_present i field _ (ir_fields i X Hrep field)) as [Hinv Hc]. split; [done|].
  intros id Hid. rewrite Hc, column_lookup by done. by destruct (X !! id).
Qed.

Lemma selects_numeric field op target :
  NumericField.is_range op = true → f64_is_nan target = false →
  selects (numericRange i field op target) (λ md, holds_value (scalar md field) (in_range op target)).
Proof.
  intros Hop Ht. destruct (fr_numeric i field _ (ir_fields i X Hrep field)) as [Hinv Hcur]. unfold numericRange.
  assert (∀ id, (∃ v, NumericField.current (default NumericField.new_field (numeric i !! field)) !! id = Some v ∧
      NumericField.rangeMatches v op target = true) ↔
    match X !! id with Some md => holds_value (scalar md field) (in_range op target) | None => false end = true) as Hiff.
  { intros id. rewrite Hcur, lookup_omap, column_lookup. destruct (X !! id) as [md|]; simpl; [|naive_solver].
    destruct (scalar md field) as [v|]; simpl; [|naive_solver]. unfold in_range.
    destruct (number v); simpl; naive_solver. }
  destruct (numeric i !! field) as [n|]; simpl in *.
  - split.
    + unfold NumericField.range. destruct (NumericField.bounds n op target) as [start stop] eqn:Eb.
      assert (∀ l s, Forall (λ e, 0 ≤ NumericField.id e) l → Bitmap.inv s → Bitmap.inv (foldl (NumericField.add_base n) s l)) as H1.
      { intros l. induction l as [|e l IH]; intros s Hl Hs; [done|]. inversion Hl; subst. cbn [foldl]. apply IH; [done|].
        unfold NumericField.add_base. destruct (Bitmap.Contains _ _); [done|by apply Bitmap.inv_Add]. }
      assert (∀ l s, Forall (λ e, 0 ≤ NumericField.id e) l → Bitmap.inv s → Bitmap.inv (foldl (NumericField.add_delta n op target) s l)) as H2.
      { intros l. induction l as [|e l IH]; intros s Hl Hs; [done|]. inversion Hl; subst. cbn [foldl]. apply IH; [done|].
        unfold NumericField.add_delta. destruct (_ && _); [by apply Bitmap.inv_Add|done]. }
      destruct (NumericField.inv_ids n Hinv) as [Hids _]. apply H2.
      * apply Forall_forall. intros e He. apply Hids. set_solver.
      * apply H1; [|apply Bitmap.inv_newSet]. apply Forall_forall. intros e He. apply Hids. apply elem_of_app. left.
        apply list_elem_of_lookup in He as [k Hk]. rewrite lookup_drop in Hk.
        apply list_elem_of_lookup_2, elem_of_take in Hk as (m&Hm&_).
        by eapply list_elem_of_lookup_2.
    + intros id Hid. apply eq_true_iff_eq. rewrite NumericFacts.range_ok by done. apply Hiff.
  - split; [apply Bitmap.inv_newSet|]. intros id Hid. rewrite Bitmap.Contains_newSet. apply eq_true_iff_eq.
    rewrite <-Hiff. split; [done|]. intros (v&Hv&_). by rewrite lookup_empty in Hv.
Qed.

Lemma selects_scan field test :
  selects (scan_values i field test) (λ md, holds_value (scalar md field) test).
Proof.
  pose proof (ir_fields i X Hrep field) as Hf. unfold scan_values. rewrite (fr_values i field _ Hf).
  assert (∀ (l : list (Z * any)) s, Forall (λ p, 0 ≤ p.1) l → Bitmap.inv s →
    let r := foldl (λ s '(id, value), if test value then Bitmap.Add s id else s) s l in
    Bitmap.inv r ∧ ∀ id, 0 ≤ id → Bitmap.Contains r id = true ↔
      Bitmap.Contains s id = true ∨ ∃ v, (id, v) ∈ l ∧ test v = true) as Hfold.
  { intros l. induction l as [|[n v] l IH]; intros s Hl Hs; cbv zeta; cbn [foldl].
    - split; [done|]. intros id Hid. split; [by left|]. intros [H|(v&Hv&_)]; [done|by apply not_elem_of_nil in Hv].
    - inversion Hl as [|?? Hn Hl']; subst. simpl in Hn.
      assert (Bitmap.inv (if test v then Bitmap.Add s n else s)) as Hs' by (destruct (test v); [by apply Bitmap.inv_Add|done]).
      destruct (IH _ Hl' Hs') as [Hr Hc]. split; [done|]. intros id Hid. rewrite (Hc id Hid).
      setoid_rewrite elem_of_cons. destruct (test v) eqn:Et.
      + rewrite Bitmap.Add_has, orb_true_iff, Z.eqb_eq by done. split.
        * intros [[->|H]|(w&Hw&Hw')]; [right; eauto|by left|right; eauto].
        * intros [H|(w&[[= -> ->]|Hw]&Hw')]; [by left; right|by left; left|right; eauto].
      + split.
        * intros [H|(w&Hw&Hw')]; [by left|right; eauto].
        * intros [H|(w&[[= -> ->]|Hw]&Hw')]; [by left|congruence|right; eauto]. }
  destruct (Hfold (map_to_list (column X field)) (Bitmap.newSet (span i))) as [Hinv Hc].
  { apply Forall_forall. intros [n v] Hin. apply elem_of_map_to_list in Hin. by eapply (fr_ids i field _ Hf). }
  { apply Bitmap.inv_newSet. }
  split; [done|]. intros id Hid. apply eq_true_iff_eq. rewrite Hc, Bitmap.Contains_newSet by done.
  setoid_rewrite elem_of_map_to_list. rewrite column_lookup. destruct (X !! id) as [md|]; simpl; [|naive_solver].
  destruct (scalar md field); simpl; naive_solver.
Qed.

Lemma selects_in field (items : list any) s t :
  selects s t →
  selects (foldl (λ s v, Bitmap.union (Some s) (Some (postingSet i field v))) s items)
    (λ md, t md || holds_value (scalar md field) (λ x, existsb (λ item, same_key item x) items)).
Proof.
  revert s t. induction items as [|v items IH]; intros s t Hs; cbn [foldl].
  - eapply selects_ext; [|exact Hs]. intros md. cbn. destruct (scalar md field); simpl; by rewrite orb_false_r.
  - eapply selects_ext; [|apply IH, selects_union; apply selects_some; [exact Hs|apply selects_posting]].
    intros md. cbn. destruct (scalar md field); simpl; [by rewrite orb_assoc|by rewrite !orb_false_r].
Qed.

Lemma number_not_nan v x : number v = Some x → f64_is_nan x = false.
Proof. apply number_finite. Qed.

Lemma predicate_ok field op value :
  operand_ok op value = true →
  ∃ s, predicate i field op value = Ok s ∧ selects s (λ md, predicate_matches op value (scalar md field)).
Proof.
  assert (∀ op, NumericField.is_range op = true → predicate i field op value =
      match number value with
      | Some target => Ok (numericRange i field op target)
      | None => Ok (scan_values i field (λ v, compares op v value))
      end → (∀ v, predicate_matches op value v = match number value with
      | Some target => holds_value v (in_range op target) | None => holds_value v (λ x, compares op x value) end) →
    ∃ s, predicate i field op value = Ok s ∧ selects s (λ md, predicate_matches op value (scalar md field))) as Hord.
  { intros o Ho -> Hm. destruct (number value) as [target|] eqn:En; eexists; (split; [done|]).
    - eapply selects_ext; [|apply selects_numeric; [exact Ho|by eapply number_not_nan]]. intros md. by rewrite Hm.
    - eapply selects_ext; [|apply selects_scan]. intros md. by rewrite Hm. }
  intros Hop. destruct op; try (by apply Hord; [done|done|intros []; done]).
  - eexists; split; [done|]. apply selects_posting.
  - eexists; split; [done|]. eapply selects_ext; [|apply selects_difference; [apply selects_present|apply selects_some, selects_posting]].
    intros md. cbn. by destruct (scalar md field).
  - destruct value; try discriminate Hop. eexists; split; [done|]. rewrite bool_decide_eq_false_2 by done.
    eapply selects_ext; [|apply selects_in, selects_empty]. intros md. done.
  - destruct value; try discriminate Hop. eexists; split; [done|]. rewrite bool_decide_eq_true_2 by done.
    eapply selects_ext; [|apply selects_difference; [apply selects_present|apply selects_some, selects_in, selects_empty]].
    intros md. cbn. by destruct (scalar md field).
  - destruct value as [|b| | | | | |]; try discriminate Hop. eexists; split; [done|].
    assert (selects (Bitmap.clone (present i !! field)) (λ md, bool_decide (is_Some (scalar md field)))) as Hp.
    { destruct (selects_present field) as [H1 H2]. split; [by apply Bitmap.inv_clone|]. intros id Hid. rewrite Bitmap.clone_has. by apply H2. }
    destruct b.
    + eapply selects_ext; [|exact Hp]. intros md. simpl. by destruct (bool_decide _).
    + eapply selects_ext; [|apply selects_difference; [apply selects_some, selects_universe|apply selects_some, Hp]].
      intros md. simpl. by destruct (bool_decide _).
  - destruct value; try discriminate Hop. eexists; split; [done|]. apply selects_scan.
Qed.

Lemma fold_selected (l : list Z) (test : Z → bool) s :
  Forall (λ id, 0 ≤ id) l → Bitmap.inv s →
  let r := foldl (λ s id, if test id then Bitmap.Add s id else s) s l in
  Bitmap.inv r ∧ ∀ id, 0 ≤ id → Bitmap.Contains r id = true ↔
    Bitmap.Contains s id = true ∨ (id ∈ l ∧ test id = true).
Proof.
  intros Hl. revert s. induction Hl as [|n l Hn Hl IH]; intros s Hs; cbv zeta; cbn [foldl].
  - split; [done|]. intros id _. split; [by left|]. intros [H|[H _]]; [done|by apply not_elem_of_nil in H].
  - assert (Bitmap.inv (if test n then Bitmap.Add s n else s)) as Hs' by (destruct (test n); [by apply Bitmap.inv_Add|done]).
    destruct (IH _ Hs') as [Hr Hc]. split; [done|]. intros id Hid. rewrite (Hc id Hid), elem_of_cons.
    destruct (test n) eqn:Et.
    + rewrite Bitmap.Add_has, orb_true_iff, Z.eqb_eq by done. split.
      * intros [[->|H]|[H1 H2]]; [right; split; [by left|done]|by left|right; split; [by right|done]].
      * intros [H|[[->|H1] H2]]; [by left; right|by left; left|by right].
    + split.
      * intros [H|[H1 H2]]; [by left|right; split; [by right|done]].
      * intros [H|[[->|H1] H2]]; [by left|congruence|by right].
Qed.

Lemma geoRadius_ok geo :
  box_ok geo = true → selects (geoRadius i geo) (λ md, geo_matches geo (scalar md (LatField geo)) (scalar md (LonField geo))).
Proof.
  intros Hb. unfold box_ok in Hb. unfold geoRadius, geo_matches.
  destruct (lat_bounds geo) as [minLat maxLat]. cbn [fst snd] in Hb. bool_props.
  assert (∀ field op target, NumericField.is_range op = true → f64_is_nan target = false →
    selects_opt (Some (numericRange i field op target)) (λ md, holds_value (scalar md field) (in_range op target))) as Hrange
    by (intros; by apply selects_some, selects_numeric).
  set (lat := Bitmap.intersect _ _).
  assert (selects lat (λ md, holds_value (scalar md (LatField geo)) (in_range OpGTE minLat)
    && holds_value (scalar md (LatField geo)) (in_range OpLTE maxLat))) as Hlat
    by (apply selects_intersect; by apply Hrange).
  match goal with |- context [Bitmap.setIDs ?c] => set (candidates := c) end.
  assert (selects candidates (λ md, holds_value (scalar md (LatField geo)) (in_range OpGTE minLat)
    && holds_value (scalar md (LatField geo)) (in_range OpLTE maxLat)
    && lon_matches (lon_bounds geo) (scalar md (LonField geo)))) as [Hci Hcc].
  { subst candidates. destruct (lon_bounds geo) as [| |low high|low high]; cbn [lon_ok lon_matches] in *; bool_props.
    - eapply selects_ext; [|exact Hlat]. intros md. cbn. by rewrite andb_true_r.
    - apply selects_intersect; [by apply selects_some|]. destruct (selects_present (LonField geo)) as [H1' H2'].
      apply selects_some. split; [by apply Bitmap.inv_clone|]. intros id Hid. rewrite Bitmap.clone_has. by apply H2'.
    - apply selects_intersect; [by apply selects_some|]. apply selects_some, selects_union; by apply Hrange.
    - apply selects_intersect; [by apply selects_some|]. apply selects_some, selects_intersect; by apply Hrange. }
  destruct (fold_selected (Bitmap.setIDs candidates)
    (λ id, within geo (values i !! LatField geo ≫= (.!! id)) (values i !! LonField geo ≫= (.!! id)))
    (Bitmap.newSet (span i))) as [Hr Hc].
  { apply Forall_forall. intros id Hid. by apply Bitmap.setIDs_elem in Hid as [? _]. }
  { apply Bitmap.inv_newSet. }
  split; [exact Hr|]. intros id Hid. apply eq_true_iff_eq. etrans; [by apply Hc|].
  rewrite Bitmap.Contains_newSet, Bitmap.setIDs_elem, Hcc by done.
  assert (∀ field, values i !! field ≫= (.!! id) = X !! id ≫= (λ md, scalar md field)) as Hval.
  { intros field. rewrite <-column_lookup, <-(fr_values i field _ (ir_fields i X Hrep field)).
    destruct (values i !! field); [done|]. simpl. by rewrite lookup_empty. }
  rewrite !Hval. destruct (X !! id) as [md|]; cbn [mbind option_bind]; [|by split; [intros [?|[[_ ?] _]]|]].
  rewrite (andb_true_iff _ (within _ _ _)). split; [by intros [?|[[_ ?] ?]]|]. intros [? ?]. by right.
Qed.

Definition evaluates (c : option Expr) : Prop :=
  ∃ s, (match c with Some c => Evaluate_expr i c | None => Ok (Bitmap.clone (Some (universe i))) end) = Ok s ∧
    selects s (matches_opt c).

(** Folding the children's bitmaps folds their tests. *)
Lemma eval_children_ok combine (op : bool → bool → bool) children r t :
  (∀ a b t u, selects a t → selects b u → selects (combine (Some a) (Some b)) (λ md, op (t md) (u md))) →
  Forall evaluates children → selects r t →
  ∃ s, eval_children (Evaluate_expr i) (Bitmap.clone (Some (universe i))) combine r children = Ok s ∧
    selects s (λ md, foldl (λ b c, op b (matches_opt c md)) (t md) children).
Proof.
  intros Hop HF. revert r t. induction HF as [|c children (s&Es&Hs) HF IH]; intros r t Hr; [by exists r|].
  cbn [eval_children foldl]. rewrite Es. cbn [res_bind]. apply (IH _ (λ md, op (t md) (matches_opt c md))). by apply Hop.
Qed.

Lemma foldl_andb (children : list (option Expr)) md b :
  foldl (λ b c, b && matches_opt c md) b children = b && forallb (λ c, matches_opt c md) children.
Proof.
  revert b. induction children as [|c l IH]; intros b; cbn [foldl forallb]; [by rewrite andb_true_r|].
  by rewrite IH, andb_assoc.
Qed.

Lemma foldl_orb (children : list (option Expr)) md b :
  foldl (λ b c, b || matches_opt c md) b children = b || existsb (λ c, matches_opt c md) children.
Proof.
  revert b. induction children as [|c l IH]; intros b; cbn [foldl existsb]; [by rewrite orb_false_r|].
  by rewrite IH, orb_assoc.
Qed.

Lemma evaluates_children (children : list (option Expr)) :
  Forall (of_child (λ e, well_typed e = true → boxes_ok e = true → evaluates (Some e))) children →
  forallb (λ c : option Expr, match c with Some c => well_typed c | None => true end) children = true →
  forallb (λ c : option Expr, match c with Some c => boxes_ok c | None => true end) children = true →
  Forall evaluates children.
Proof.
  intros HF. induction HF as [|c children Hc HF IH]; intros Hw Hb; [constructor|]. cbn [forallb] in Hw, Hb.
  apply andb_true_iff in Hw as [Hw Hw'], Hb as [Hb Hb']. constructor; [|by apply IH].
  destruct c as [c|]; [by apply Hc|]. eexists. split; [done|]. apply selects_universe.
Qed.

Lemma Evaluate_ok e : well_typed e = true → boxes_ok e = true → evaluates (Some e).
Proof.
  induction e as [field op value|children IH|children IH|child IH|geo] using Expr_ind'; intros Hw Hb.
  - by apply predicate_ok.
  - destruct (eval_children_ok Bitmap.intersect andb children _ (λ _, true)
      (λ a b t u Ha Hb, selects_intersect _ _ _ _ (selects_some _ _ Ha) (selects_some _ _ Hb))
      (evaluates_children children IH Hw Hb) selects_universe) as (s&Es&Hs).
    exists s. split; [exact Es|]. eapply selects_ext; [|exact Hs]. intros md. apply foldl_andb.
  - destruct (eval_children_ok Bitmap.union orb children _ (λ _, false)
      (λ a b t u Ha Hb, selects_union _ _ _ _ (selects_some _ _ Ha) (selects_some _ _ Hb))
      (evaluates_children children IH Hw Hb) (selects_empty (span i))) as (s&Es&Hs).
    exists s. split; [exact Es|]. eapply selects_ext; [|exact Hs]. intros md. apply foldl_orb.
  - assert (evaluates child) as (s&Es&Hs).
    { destruct child as [c|]; [by apply IH|]. eexists. split; [done|]. apply selects_universe. }
    eexists. split; [cbn [Evaluate_expr]; cbv zeta; rewrite Es; done|].
    eapply selects_ext; [|apply selects_difference; [apply selects_some, selects_universe|apply selects_some, Hs]]. done.
  - eexists. split; [done|]. by apply geoRadius_ok.
Qed.

End Evaluation.

(** Evaluating a well-typed expression never panics. *)
Lemma eval_children_total (evaluate : Expr → res Bitmap.t) all combine children r :
  Forall (of_child (λ e, ∃ s, evaluate e = Ok s)) children → ∃ s, eval_children evaluate all combine r children = Ok s.
Proof.
  intros HF. revert r. induction HF as [|c children Hc HF IH]; intros r; [by eexists|]. cbn [eval_children].
  destruct c as [c|]; [destruct Hc as [s ->]|]; cbn [res_bind]; apply IH.
Qed.

Lemma Evaluate_total i e : well_typed e = true → ∃ s, Evaluate_expr i e = Ok s.
Proof.
  assert (∀ children : list (option Expr), Forall (of_child (λ e, well_typed e = true → ∃ s, Evaluate_expr i e = Ok s)) children →
    forallb (λ c : option Expr, match c with Some c => well_typed c | None => true end) children = true →
    Forall (of_child (λ e, ∃ s, Evaluate_expr i e = Ok s)) children) as Hch.
  { intros children HF. induction HF as [|c l Hc HF IH]; intros Hw; [constructor|]. cbn [forallb] in Hw.
    apply andb_true_iff in Hw as [Hw Hw']. constructor; [|by apply IH]. destruct c as [c|]; [by apply Hc|done]. }
  induction e as [field op value|children IH|children IH|child IH|geo] using Expr_ind'; intros Hw.
  - cbn [well_typed Evaluate_expr] in *.
    destruct op, value; try discriminate Hw; unfold predicate; try (by eexists); destruct (number _); by eexists.
  - by apply eval_children_total, Hch.
  - by apply eval_children_total, Hch.
  - cbn [Evaluate_expr]. cbv zeta. destruct child as [c|]; [destruct (IH Hw) as [s ->]|]; by eexists.
  - by eexists.
Qed.

(** ** Parsing *)

(** Induction over a value and its parts. *)
Lemma any_ind' (P : any → Prop) :
  P Null → (∀ b, P (Bool b)) → (∀ x, P (Number x)) → (∀ x, P (Float32 x)) → (∀ n, P (Int_ n)) → (∀ s, P (Text_ s)) →
  (∀ items, Forall P items → P (Array items)) →
  (∀ fields : list (string * any), Forall (λ kv, P kv.2) fields → P (Object fields)) → ∀ v, P v.
Proof.
  intros Hn Hb Hx Hf Hi Ht Ha Ho. fix IH 1. intros [|b|x|x|n|s|items|fields];
    [apply Hn|apply Hb|apply Hx|apply Hf|apply Hi|apply Ht| |].
  - apply Ha. induction items as [|v l IHl]; constructor; [apply IH|exact IHl].
  - apply Ho. induction fields as [|[k v] l IHl]; constructor; [apply IH|exact IHl].
Qed.

Definition typed_opt (e : option Expr) : Prop := match e with Some e => well_typed e = true | None => True end.

(** A parser's result: well typed, or an invalid-argument error. *)
Definition parses {A} (typed : A → Prop) (r : res A) : Prop :=
  match r with Ok e => typed e | Err err => errors_Is err ErrInvalidArgument = true end.

Lemma parses_bind {A B} (P : A → Prop) (Q : B → Prop) (r : res A) (k : A → res B) :
  parses P r → (∀ a, P a → parses Q (k a)) → parses Q (let! x := r in k x).
Proof. destruct r as [a|e]; simpl; auto. Qed.

Lemma parses_invalid {A} (P : A → Prop) msg : parses P (invalid msg).
Proof. done. Qed.

Lemma parses_scalar v : parses (λ _, True) (validateScalar v).
Proof.
  destruct v as [|b|x|x|n|t|l|l]; unfold validateScalar; [exact I|exact I| | |exact I|exact I|reflexivity|reflexivity];
    (destruct (number _); [exact I|reflexivity]).
Qed.

Lemma parses_scalars items : parses (λ _, True) (validate_scalars items).
Proof. induction items as [|v items IH]; [done|]. cbn [validate_scalars]. eapply parses_bind; [apply parses_scalar|done]. Qed.

Lemma parses_operand op v : parses (λ _, operand_ok op v = true) (check_operand op v).
Proof.
  assert (∀ o, match o with OpIn | OpNotIn | OpExists | OpText => false | _ => true end = true →
    parses (λ _, operand_ok o v = true) (validateScalar v)) as Hs.
  { intros o Ho. pose proof (parses_scalar v) as H. destruct (validateScalar v); [|done]. by destruct o. }
  assert (∀ items, parses (λ _ : unit, true = true) (validate_scalars items)) as Hi.
  { intros items. pose proof (parses_scalars items) as H. by destruct (validate_scalars items). }
  destruct op; cbn [check_operand]; try (apply Hs; reflexivity);
    destruct v as [|b|x|x|n|t|[|item items]|fields]; try exact eq_refl; try apply Hi.
  destruct (_ || _); exact eq_refl.
Qed.

Lemma parses_operators field ops : parses (Forall typed_opt) (parse_operators field ops).
Proof.
  induction ops as [|[name operand] ops IH]; [by constructor|]. cbn [parse_operators].
  eapply (parses_bind (λ _, True)).
  { unfold parseOperator. repeat match goal with |- context [if ?c then _ else _] => destruct c; [exact I|] end. reflexivity. }
  intros op _. eapply parses_bind; [apply parses_operand|]. intros u Hop.
  eapply parses_bind; [exact IH|]. intros others Ho. by constructor.
Qed.

Lemma typed_and children : Forall typed_opt children → well_typed (And children) = true.
Proof.
  intros H. cbn [well_typed]. induction H as [|c l Hc Hl IH]; [done|]. cbn [forallb]. rewrite IH, andb_true_r. by destruct c.
Qed.

Lemma typed_conjunction children : Forall typed_opt children → typed_opt (conjunction children).
Proof.
  intros H. pose proof (typed_and children H) as Hand. destruct children as [|c [|c' l]]; [done| |exact Hand]. by inversion H.
Qed.

Lemma parses_field field v : parses typed_opt (parseField field v).
Proof.
  assert (parses typed_opt (let! _ := validateScalar v in Ok (Some (Predicate field OpEq v)))) as Hs
    by (eapply parses_bind; [apply parses_scalar|done]).
  destruct v as [|b|x|x|n|t|items|ops]; try exact Hs. cbn [parseField]. destruct (len ops =? 0); [done|].
  eapply parses_bind; [apply parses_operators|]. intros children Hc. by apply typed_conjunction.
Qed.

Lemma parses_geo object geo a b c : parses (λ _, True) (parse_geo object geo a b c).
Proof.
  revert geo a b c. induction object as [|[key raw] object IH]; intros geo a b c; [done|]. cbn [parse_geo].
  destruct (_ || _); [|destruct (_ || _)].
  - destruct raw; try done. destruct (_ || _); [done|]. destruct (String.eqb _ _); apply IH.
  - destruct (number raw); [|done]. destruct (String.eqb _ _); [apply IH|]. destruct (String.eqb _ _); apply IH.
  - done.
Qed.

Lemma parses_sequence {A} (P : A → Prop) (l : list (res A)) : Forall (parses P) l → parses (Forall P) (sequence l).
Proof.
  induction 1 as [|r l Hr Hl IH]; [by constructor|]. cbn [sequence].
  eapply parses_bind; [exact Hr|]. intros a Ha. eapply parses_bind; [exact IH|]. intros others Ho. by constructor.
Qed.

(** What parsing gives for a value standing alone and, of an array, for its
    elements. *)
Definition value_parses (v : any) : Prop :=
  parses typed_opt (parse_any v) ∧
  match v with Array items => Forall (λ item, parses typed_opt (parse_any item)) items | _ => True end.

Lemma parses_any raw : value_parses raw.
Proof.
  induction raw as [| | | | | |items IH|fields IH] using any_ind'; try done.
  { split; [done|]. eapply Forall_impl; [exact IH|]. by intros item [? _]. }
  split; [|done]. cbn [parse_any]. destruct fields as [|kv0 fields0]; [done|].
  generalize dependent (kv0 :: fields0). clear kv0 fields0. intros fields IH. cbv zeta.
  match goal with |- parses _ (let! children := sequence (sort_slice key_ltb ?p).*2 in _) => set (parsed := p) end.
  assert (Forall (λ kr : string * res (option Expr), parses typed_opt kr.2) parsed) as Hp.
  { subst parsed. induction IH as [|[key value] l Hv Hl IHl]; constructor; [|exact IHl]. cbn [snd] in *. clear IHl Hl.
    destruct (_ || _); [|destruct (String.eqb _ _); [|destruct (String.eqb _ _); [|destruct (_ || _); [done|apply parses_field]]]].
    - destruct value as [| | | | | |items|]; try done. destruct (len items =? 0); [done|].
      eapply (parses_bind (Forall typed_opt)).
      + apply parses_sequence. destruct Hv as [_ Hv]. induction Hv as [|item items Hi Hv IHv]; constructor; [|exact IHv].
        destruct item; done || exact Hi.
      + intros children Hc. assert (well_typed (And children) = true) as Hand by by apply typed_and. by destruct (String.eqb _ _).
    - apply (parses_bind (λ _, True)); [|done]. destruct value as [| | | | | | |object]; try done.
      cbn [parseGeoRadius]. eapply (parses_bind (λ _, True)); [apply parses_geo|]. intros [geo [[a b] c]] _.
      destruct (_ || _); [done|]. by destruct (geo_in_bounds geo).
    - destruct value as [| | | | | | |object]; try done. eapply parses_bind; [apply Hv|]. intros [c|]; done. }
  eapply (parses_bind (Forall typed_opt)).
  - apply parses_sequence. rewrite Forall_fmap. rewrite sort_slice_perm. exact Hp.
  - intros children Hc. by apply typed_conjunction.
Qed.

End Meaning.
