(* ===== verification/Persistence.v ===== *)
(** * Persisted metadata indexes

    [internal/metadata/persistence.go]: [MarshalBinary] writes the structures
    of an index in a deterministic order and [LoadBinary] installs them again
    after checking them against each other.  The JSON document is a record of
    the values it holds; what JSON does to a value is [json_value]: integers
    and [float32] values come back as [float64], and invalid UTF-8 is
    replaced.  Loading a written index gives an index of the same metadata
    when JSON leaves its values alone, and fails for some that it changes. *)
From Stdlib Require Import ZArith Lia Ascii String.
From stdpp Require Import base tactics list gmap strings sorting.
From S2P Require Import Prelude Core Distance Float Bitmap Posting Metadata MetadataProofs.
Local Set Warnings "-clear-no-such-hyp".
Local Open Scope string_scope.
Local Open Scope Z_scope.
Local Open Scope list_scope.

(** ** JSON *)

Definition byte_ascii (b : Z) : ascii := ascii_of_N (Z.to_N b).

(** UTF-8 of one rune. *)
Definition encode_rune (r : Z) : list Z :=
  if r <? 0x80 then [r]
  else if r <? 0x800 then [0xc0 + r / 64; 0x80 + r mod 64]
  else if r <? 0x10000 then [0xe0 + r / 4096; 0x80 + r / 64 mod 64; 0x80 + r mod 64]
  else [0xf0 + r / 262144; 0x80 + r / 4096 mod 64; 0x80 + r / 64 mod 64; 0x80 + r mod 64].

Fixpoint bytes_string (bs : list Z) : string :=
  match bs with [] => "" | b :: rest => String (byte_ascii b) (bytes_string rest) end.

(** A string written as JSON and read back. *)
Definition json_string (s : string) : string := bytes_string (concat (encode_rune <$> runes (string_runes s))).

Definition json_value (v : any) : any :=
  match v with
  | Int_ n => Number (f64_of_int n)
  | Float32 b => Number (json_float32 b)
  | Text_ s => Text_ (json_string s)
  | _ => v
  end.

Example json_string_example : json_string "naïve" = "naïve" ∧ json_string (String (byte_ascii 0xff) "a") = bytes_string [0xef; 0xbf; 0xbd; 0x61].
Proof. vm_compute. done. Qed.

(** ** The document *)

Record persistedField : Set := mkField {
  pf_Name : string;
  pf_Values : list (Z * any);
  pf_Postings : list (string * list Z);
  pf_Numbers : list NumericField.entry;
}.

Record persistedIndex : Set := mkPersisted {
  pi_Version : Z;
  pi_RecordCount : Z;
  pi_Fields : list persistedField;
}.

Definition json_field (f : persistedField) : persistedField :=
  mkField (json_string (pf_Name f))
    ((λ '(id, v), (id, json_value v)) <$> pf_Values f)
    ((λ '(key, ids), (json_string key, ids)) <$> pf_Postings f)
    (pf_Numbers f).

(** [json.Marshal] followed by [json.Unmarshal]. *)
Definition json_index (p : persistedIndex) : persistedIndex :=
  mkPersisted (pi_Version p) (pi_RecordCount p) (json_field <$> pi_Fields p).

(** ** Writing *)

Definition marshal_field (i : Index) (recordCount : Z) (field : string) : persistedField :=
  let values := default ∅ (values i !! field) in
  let ids := sort_slice Z.ltb (map_to_list values).*1 in
  let by_key := default ∅ (postings i !! field) in
  let keys := sort_slice str_ltb (map_to_list by_key).*1 in
  mkField field
    (omap (λ id, (λ v, (id, v)) <$> values !! id) ids)
    ((λ key, (key, Bitmap.setIDs (Posting.Set_ (by_key !! key) recordCount))) <$> keys)
    (match numeric i !! field with
     | Some n =>
         sort_slice NumericField.entry_ltb
           ((λ '(id, v), NumericField.mkEntry v id) <$> map_to_list (NumericField.current n))
     | None => []
     end).

Definition MarshalBinary (i : Index) (recordCount : Z) : res persistedIndex :=
  if negb (Bitmap.Len (universe i) =? recordCount) then Err (Errorf "metadata index record count mismatch")
  else
    let fields := sort_slice str_ltb (map_to_list (values i)).*1 in
    Ok (mkPersisted 1 recordCount (marshal_field i recordCount <$> fields)).

(** [MarshalRecords]: the ordinals are the records' positions from 1. *)
Definition MarshalRecords (records : list CoreRecord) : res persistedIndex :=
  MarshalBinary
    (foldl (λ i '(position, record), Upsert i (Z.of_nat position + 1) (Metadata record)) NewIndex
       (imap (λ position record, (position, record)) records))
    (len records).

(** ** Loading *)

Fixpoint load_values (recordCount : Z) (items : list (Z * any)) (values : gmap Z any) (present : Bitmap.t)
    : res (gmap Z any * Bitmap.t) :=
  match items with
  | [] => Ok (values, present)
  | (id, v) :: rest =>
      if (id =? 0) || (recordCount <? id) || negb (is_ok (validateScalar v)) then
        Err (Errorf "metadata index contains invalid value ordinal")
      else
        match values !! id with
        | Some _ => Err (Errorf "metadata index contains duplicate value ordinal")
        | None => load_values recordCount rest (<[id := v]> values) (Bitmap.Add present id)
        end
  end.

Fixpoint load_posting (values : gmap Z any) (key : string) (ids : list Z) (covered : gset Z) (p : Posting.t)
    : res (gset Z * Posting.t) :=
  match ids with
  | [] => Ok (covered, p)
  | id :: rest =>
      match values !! id with
      | None => Err (Errorf "metadata posting does not match value")
      | Some v =>
          if negb (String.eqb (canonical v) key) then Err (Errorf "metadata posting does not match value")
          else if bool_decide (id ∈ covered) then Err (Errorf "metadata ordinal occurs in multiple postings")
          else load_posting values key rest ({[id]} ∪ covered) (Posting.Add p id)
      end
  end.

Fixpoint load_postings (values : gmap Z any) (stored : list (string * list Z)) (covered : gset Z)
    (postings : gmap string Posting.t) : res (gset Z * gmap string Posting.t) :=
  match stored with
  | [] => Ok (covered, postings)
  | (key, ids) :: rest =>
      if String.eqb key "" || bool_decide (is_Some (postings !! key)) then
        Err (Errorf "metadata index contains invalid posting")
      else
        let! r := load_posting values key ids covered Posting.empty_posting in
        let '(covered, p) := r in
        load_postings values rest covered (<[key := p]> postings)
  end.

Fixpoint load_numbers (values : gmap Z any) (items : list NumericField.entry) (n : NumericField.t)
    : res NumericField.t :=
  match items with
  | [] => Ok n
  | e :: rest =>
      match values !! NumericField.id e ≫= number with
      | None => Err (Errorf "metadata numeric index does not match value")
      | Some x =>
          if negb (f64_eqb x (NumericField.value e)) then Err (Errorf "metadata numeric index does not match value")
          else
            match NumericField.current n !! NumericField.id e with
            | Some _ => Err (Errorf "metadata numeric index contains duplicate ordinal")
            | None =>
                load_numbers values rest
                  (NumericField.mk (NumericField.base n ++ [e]) (NumericField.delta n)
                     (<[NumericField.id e := NumericField.value e]> (NumericField.current n))
                     (NumericField.invalidBase n) (NumericField.stale n))
            end
      end
  end.

Definition load_field (recordCount : Z) (i : Index) (field : persistedField) : res Index :=
  let name := pf_Name field in
  if String.eqb name "" then Err (Errorf "metadata index contains empty field")
  else if bool_decide (is_Some (values i !! name)) then Err (Errorf "metadata index contains duplicate field")
  else
    let! r := load_values recordCount (pf_Values field) ∅ (Bitmap.newSet recordCount) in
    let '(vs, pres) := r in
    let! r := load_postings vs (pf_Postings field) ∅ ∅ in
    let '(covered, posts) := r in
    if negb (size covered =? size vs)%nat then Err (Errorf "metadata postings do not cover field values")
    else
      let! nums :=
        load_numbers vs (pf_Numbers field) (NumericField.mk [] [] ∅ (Bitmap.newSet recordCount) 0) in
      let numericValues := len (filter (λ kv : Z * any, is_Some (number kv.2)) (map_to_list vs)) in
      if negb (numericValues =? len (pf_Numbers field)) then
        Err (Errorf "metadata numeric index does not cover numeric values")
      else
        Ok (mkIndex (universe i) (<[name := vs]> (values i)) (<[name := posts]> (postings i))
              (<[name := pres]> (present i))
              (if 0 <? len (pf_Numbers field) then <[name := nums]> (numeric i) else numeric i)).

Fixpoint load_fields (recordCount : Z) (i : Index) (fields : list persistedField) : res Index :=
  match fields with
  | [] => Ok i
  | f :: rest => let! i := load_field recordCount i f in load_fields recordCount i rest
  end.

(** The universe of [1..recordCount]. *)
Definition full_universe (recordCount : Z) : Bitmap.t :=
  foldl (λ s n, Bitmap.Add s (Z.of_nat n)) (Bitmap.newSet 0) (seq 1 (Z.to_nat recordCount)).

Definition LoadBinary (data : persistedIndex) (recordCount : Z) : res Index :=
  if negb (pi_Version data =? 1) || negb (pi_RecordCount data =? recordCount) then
    Err (Errorf "metadata index version or record count mismatch")
  else
    load_fields recordCount (mkIndex (full_universe recordCount) ∅ ∅ ∅ ∅) (pi_Fields data).
