(* ===== verification/PersistenceProofs.v ===== *)
(** * Loading a written metadata index

    The round trip of [MarshalBinary] and [LoadBinary], field by field, and
    the values JSON does not preserve. *)
From Stdlib Require Import ZArith Lia Ascii String.
From stdpp Require Import base tactics list gmap strings sorting.
From S2P Require Import Prelude Core Distance Float Bitmap Posting Metadata MetadataProofs Persistence.
Local Set Warnings "-clear-no-such-hyp".
Local Open Scope string_scope.
Local Open Scope Z_scope.
Local Open Scope list_scope.

(** ** Maps from lists *)

Definition insert_all {K A} `{Countable K} (m : gmap K A) (l : list (K * A)) : gmap K A :=
  foldl (λ m '(k, v), <[k := v]> m) m l.

Lemma insert_all_lookup {K A} `{Countable K} (m : gmap K A) (l : list (K * A)) k v :
  NoDup l.*1 → (∀ k, k ∈ l.*1 → m !! k = None) →
  insert_all m l !! k = Some v ↔ m !! k = Some v ∨ (k, v) ∈ l.
Proof.
  revert m. induction l as [|[k' v'] l IH]; intros m Hnd Hm.
  - unfold insert_all. simpl. split; [by left|]. intros [?|Hin]; [done|by apply not_elem_of_nil in Hin].
  - rewrite fmap_cons, NoDup_cons in Hnd. destruct Hnd as [Hk Hnd].
    change (insert_all m ((k', v') :: l)) with (insert_all (<[k' := v']> m) l). rewrite IH; [|done|].
    + rewrite lookup_insert_Some, elem_of_cons. assert (m !! k' = None) as Hk' by (apply Hm; by left).
      split; [intros [[[<- <-]|[_ ?]]|?]; [right; by left|by left|right; by right]|].
      intros [Hv|[[= <- <-]|?]]; [left; right; split; [congruence|done]|left; by left|by right].
    + intros k2 Hk2. rewrite lookup_insert_ne by (intros ->; done). apply Hm. by right.
Qed.

(** The list of a map's entries, in any order, gives the map back. *)
Lemma insert_all_eq {K A} `{Countable K} (m : gmap K A) (l : list (K * A)) :
  NoDup l.*1 → (∀ k v, (k, v) ∈ l ↔ m !! k = Some v) → insert_all ∅ l = m.
Proof.
  intros Hnd Hl. apply map_eq. intros k. apply option_eq. intros v.
  rewrite insert_all_lookup, Hl by (done || (intros; apply lookup_empty)). rewrite lookup_empty. naive_solver.
Qed.

(** ** Values *)

Lemma load_values_ok n (items : list (Z * any)) vs pres :
  NoDup items.*1 → (∀ id, id ∈ items.*1 → vs !! id = None) →
  (∀ id v, (id, v) ∈ items → 0 < id ≤ n ∧ is_ok (validateScalar v) = true) →
  load_values n items vs pres = Ok (insert_all vs items, foldl (λ s kv, Bitmap.Add s kv.1) pres items).
Proof.
  revert vs pres. induction items as [|[id v] items IH]; intros vs pres Hnd Hvs Hok; [done|]. cbn [load_values].
  rewrite fmap_cons, NoDup_cons in Hnd. destruct Hnd as [Hid Hnd].
  destruct (Hok id v) as [Hr Hs]; [by left|].
  rewrite (proj2 (Z.eqb_neq id 0)), (proj2 (Z.ltb_ge n id)), Hs, (Hvs id) by (lia || by left). cbn [orb negb].
  rewrite IH; [done|done| |].
  - intros k Hk. rewrite lookup_insert_ne by (intros ->; done). apply Hvs. by right.
  - intros k w Hk. apply Hok. by right.
Qed.

(** The stored values of a field are the entries of its column. *)
Lemma stored_values_ok (sc : gmap Z any) :
  let l := omap (λ id, (λ v, (id, v)) <$> sc !! id) (sort_slice Z.ltb (map_to_list sc).*1) in
  NoDup l.*1 ∧ ∀ id v, (id, v) ∈ l ↔ sc !! id = Some v.
Proof.
  cbv zeta. assert (∀ ids, NoDup ids → let l := omap (λ id, (λ v, (id, v)) <$> sc !! id) ids in
    NoDup l.*1 ∧ ∀ id v, (id, v) ∈ l ↔ id ∈ ids ∧ sc !! id = Some v) as H.
  { intros ids Hnd. induction Hnd as [|id ids Hid Hnd [IH1 IH2]]; cbv zeta.
    - split; [constructor|]. intros id v. simpl. split; [intros Hin; by apply not_elem_of_nil in Hin|intros [Hin _]; by apply not_elem_of_nil in Hin].
    - cbn [omap list_omap]. destruct (sc !! id) as [w|] eqn:E; simpl.
      + split.
        * constructor; [|done]. intros Hin. apply list_elem_of_fmap in Hin as ([k v]&Hk&Hin). simpl in Hk. subst k. by apply IH2 in Hin as [? _].
        * intros k v. rewrite !elem_of_cons, IH2. split.
          -- intros [[= -> ->]|[? ?]]; [split; [by left|done]|split; [by right|done]].
          -- intros [[->|?] Hv]; [left; congruence|by right].
      + split; [done|]. intros k v. rewrite elem_of_cons, IH2. split; [intros [? ?]; split; [by right|done]|].
        intros [[->|?] Hv]; [congruence|done]. }
  destruct (H (sort_slice Z.ltb (map_to_list sc).*1)) as [H1 H2].
  { rewrite sort_slice_perm. apply NoDup_fst_map_to_list. }
  split; [done|]. intros id v. rewrite H2, sort_slice_elem. split; [by intros [_ ?]|]. intros Hv. split; [|done].
  apply list_elem_of_fmap. exists (id, v). split; [done|by apply elem_of_map_to_list].
Qed.

Lemma stored_present (items : list (Z * any)) s id :
  (∀ k v, (k, v) ∈ items → 0 < k) → 0 ≤ id → Bitmap.inv s →
  let r := foldl (λ s (kv : Z * any), Bitmap.Add s kv.1) s items in
  Bitmap.inv r ∧ Bitmap.Contains r id = (bool_decide (id ∈ items.*1) || Bitmap.Contains s id).
Proof.
  intros Hpos Hid. revert s. induction items as [|[k v] items IH]; intros s Hs; cbv zeta; cbn [foldl fst].
  - split; [done|]. by rewrite bool_decide_eq_false_2 by (simpl; apply not_elem_of_nil).
  - assert (0 < k) as Hk by (apply (Hpos k v); by left).
    destruct (IH (λ k v H, Hpos k v (list_elem_of_further _ _ _ H)) (Bitmap.Add s k)) as [Hi Hc]; [apply Bitmap.inv_Add; [lia|done]|].
    split; [done|]. rewrite Hc, Bitmap.Add_has by lia. rewrite orb_assoc. f_equal.
    rewrite fmap_cons. destruct (Z.eqb_spec id k) as [->|Hne].
    + rewrite orb_true_r. symmetry. apply bool_decide_eq_true. by left.
    + rewrite orb_false_r. apply bool_decide_ext. rewrite elem_of_cons. naive_solver.
Qed.

(** ** Postings *)

Lemma load_posting_ok sc key ids covered p :
  NoDup ids → (∀ id, id ∈ ids → 0 ≤ id ∧ (id ∉ covered) ∧ (∃ v, sc !! id = Some v ∧ canonical v = key)) → Posting.inv p →
  ∃ q, load_posting sc key ids covered p = Ok (list_to_set ids ∪ covered, q) ∧
    Posting.inv q ∧ Posting.ids q = list_to_set ids ∪ Posting.ids p.
Proof.
  intros Hnd. revert covered p. induction Hnd as [|id ids Hid Hnd IH]; intros covered p Hids Hp.
  - exists p. simpl. rewrite !union_empty_l_L. done.
  - cbn [load_posting]. destruct (Hids id) as (Hpos&Hc&v&Hv&Hk); [by left|]. rewrite Hv, Hk, String.eqb_refl. cbn [negb].
    rewrite bool_decide_eq_false_2 by done.
    destruct (PostingFacts.Add_ok p id Hp Hpos) as [Hp' Hpi].
    destruct (IH ({[id]} ∪ covered) (Posting.Add p id)) as (q&->&Hq&Hqi); [|done|].
    { intros j Hj. destruct (Hids j) as (Hj0&Hj1&Hj2); [by right|]. split; [done|]. split; [|done].
      rewrite not_elem_of_union, not_elem_of_singleton. split; [|done]. intros ->. done. }
    exists q. split; [|split; [done|]].
    + do 2 f_equal. simpl. rewrite (union_comm_L {[id]} (list_to_set ids)). by rewrite union_assoc_L.
    + rewrite Hqi, Hpi. simpl. rewrite (union_comm_L {[id]} (list_to_set ids)). by rewrite union_assoc_L.
Qed.

Lemma load_postings_ok sc (stored : list (string * list Z)) covered posts :
  NoDup stored.*1 → (∀ key, key ∈ stored.*1 → key ≠ "" ∧ posts !! key = None) →
  (∀ key ids, (key, ids) ∈ stored → NoDup ids ∧ ∀ id, id ∈ ids ↔ ∃ v, sc !! id = Some v ∧ canonical v = key) →
  (∀ id v, sc !! id = Some v → 0 ≤ id ∧ (id ∈ covered → canonical v ∉ stored.*1)) →
  ∃ covered' posts', load_postings sc stored covered posts = Ok (covered', posts') ∧
    (∀ id, id ∈ covered' ↔ id ∈ covered ∨ ∃ v, sc !! id = Some v ∧ canonical v ∈ stored.*1) ∧
    (∀ key, key ∉ stored.*1 → posts' !! key = posts !! key) ∧
    (∀ key, key ∈ stored.*1 → posting_rep (posts' !! key) sc key).
Proof.
  revert covered posts. induction stored as [|[key ids] stored IH]; intros covered posts Hnd Hkeys Hids Hcov.
  - exists covered, posts. split; [done|]. split; [|split; [done|]].
    + intros id. split; [by left|]. intros [?|(v&_&Hin)]; [done|by apply not_elem_of_nil in Hin].
    + intros key Hin. by apply not_elem_of_nil in Hin.
  - rewrite fmap_cons in Hnd, Hkeys, Hcov |- *. cbn [fst] in *. apply NoDup_cons in Hnd as [Hkey Hnd].
    destruct (Hkeys key) as [Hne Hnone]; [by left|]. destruct (Hids key ids) as [Hndi Hidk]; [by left|].
    cbn [load_postings]. rewrite (proj2 (String.eqb_neq key "") Hne), Hnone, bool_decide_eq_false_2 by (by intros [? ?]). cbn [orb].
    destruct (load_posting_ok sc key ids covered Posting.empty_posting Hndi) as (q&->&Hq&Hqi).
    { intros id Hid. apply Hidk in Hid as (v&Hv&Hk). destruct (Hcov id v Hv) as [Hpos Hnot]. split; [done|].
      split; [|eauto]. intros Hc. apply (Hnot Hc). rewrite Hk. by left. }
    { apply PostingFacts.empty_ok. }
    cbn [res_bind].
    destruct (IH (list_to_set ids ∪ covered) (<[key := q]> posts) Hnd) as (cov'&posts'&->&Hc'&Hout&Hin).
    { intros k Hk. destruct (Hkeys k) as [? ?]; [by right|]. split; [done|]. rewrite lookup_insert_ne; [done|]. intros ->. done. }
    { intros k js Hin. apply Hids. by right. }
    { intros id v Hv. destruct (Hcov id v Hv) as [Hpos Hnot]. split; [done|]. rewrite elem_of_union, elem_of_list_to_set, Hidk.
      intros [(w&Hw&Hk)|Hc].
      - assert (w = v) as -> by congruence. by rewrite Hk.
      - intros Hs. apply (Hnot Hc). by right. }
    exists cov', posts'. split; [done|]. split; [|split].
    + intros id. rewrite Hc', elem_of_union, elem_of_list_to_set, Hidk. setoid_rewrite elem_of_cons. naive_solver.
    + intros k Hk. rewrite not_elem_of_cons in Hk. destruct Hk as [Hk1 Hk2]. rewrite Hout by done. by rewrite lookup_insert_ne.
    + intros k Hk. destruct (decide (k ∈ stored.*1)) as [Hs|Hs]; [by apply Hin|].
      apply elem_of_cons in Hk as [->|?]; [|done]. rewrite Hout, lookup_insert_eq by done.
      split; [by intros ? [= <-]|]. intros id. simpl. rewrite Hqi, elem_of_union, elem_of_list_to_set, Hidk.
      destruct PostingFacts.empty_ok as [_ ->]. set_solver.
Qed.

(** ** Numbers *)

Definition entry_pair (e : NumericField.entry) : Z * Z := (NumericField.id e, NumericField.value e).

Lemma load_numbers_ok (sc : gmap Z any) items n :
  NoDup (NumericField.id <$> items) →
  (∀ e, e ∈ items → sc !! NumericField.id e ≫= number = Some (NumericField.value e) ∧
     NumericField.current n !! NumericField.id e = None) →
  load_numbers sc items n =
    Ok (NumericField.mk (NumericField.base n ++ items) (NumericField.delta n)
          (insert_all (NumericField.current n) (entry_pair <$> items)) (NumericField.invalidBase n) (NumericField.stale n)).
Proof.
  revert n. induction items as [|e items IH]; intros n Hnd Hok; cbn [load_numbers].
  { rewrite app_nil_r. by destruct n. }
  rewrite fmap_cons, NoDup_cons in Hnd. destruct Hnd as [He Hnd].
  destruct (Hok e) as [Hv Hc]; [by left|]. rewrite Hv.
  assert (f64_is_nan (NumericField.value e) = false) as Hnan.
  { destruct (sc !! NumericField.id e) as [v|]; [|done]. by eapply number_finite. }
  rewrite f64_eqb_ord, Z.eqb_refl, Hc by done. cbn [negb].
  rewrite IH; [|done|].
  - f_equal. cbn [NumericField.base NumericField.delta NumericField.current NumericField.invalidBase NumericField.stale].
    by rewrite <-app_assoc.
  - intros x Hx. destruct (Hok x) as [Hxv Hxc]; [by right|]. split; [done|]. cbn [NumericField.current].
    rewrite lookup_insert_ne; [done|]. intros E. apply He. rewrite E. by apply list_elem_of_fmap_2.
Qed.

(** The numbers of a column, written in order. *)
Definition stored_numbers (numbers : gmap Z Z) : list NumericField.entry :=
  sort_slice NumericField.entry_ltb ((λ '(id, v), NumericField.mkEntry v id) <$> map_to_list numbers).

Lemma stored_numbers_ok (numbers : gmap Z Z) :
  NoDup (NumericField.id <$> stored_numbers numbers) ∧
  (∀ e, e ∈ stored_numbers numbers ↔ numbers !! NumericField.id e = Some (NumericField.value e)) ∧
  len (stored_numbers numbers) = Z.of_nat (size numbers).
Proof.
  unfold stored_numbers. split; [|split].
  - rewrite sort_slice_perm, <-list_fmap_compose.
    rewrite (list_fmap_ext _ fst (map_to_list numbers)) by (by intros k [i v] _). apply NoDup_fst_map_to_list.
  - intros e. rewrite sort_slice_elem, list_elem_of_fmap. split.
    + intros ([i v]&->&H%elem_of_map_to_list). done.
    + intros H. exists (NumericField.id e, NumericField.value e). split; [by destruct e|by apply elem_of_map_to_list].
  - unfold len. rewrite length_sort_slice, length_fmap, length_map_to_list. done.
Qed.

Lemma count_numbers (sc : gmap Z any) :
  len (filter (λ kv : Z * any, is_Some (number kv.2)) (map_to_list sc)) = Z.of_nat (size (omap number sc)).
Proof.
  induction sc as [|id v sc Hid IH] using map_ind; [by rewrite omap_empty|].
  unfold len in *. rewrite map_to_list_insert, filter_cons by done. cbn [snd].
  destruct (number v) as [x|] eqn:E.
  - rewrite decide_True by eauto. rewrite (omap_insert_Some _ _ _ _ x) by done.
    rewrite map_size_insert_None by (by rewrite lookup_omap, Hid). cbn [length]. lia.
  - rewrite decide_False by (by intros [? ?]). rewrite omap_insert_None by done.
    rewrite (delete_id (omap number sc)) by (by rewrite lookup_omap, Hid). done.
Qed.

(** ** One field *)

(** JSON leaves a value and the key of its posting alone. *)
Definition json_stable (v : any) : Prop := json_value v = v ∧ json_string (canonical v) = canonical v.

Definition name_stable (f : string) : Prop := f ≠ "" ∧ json_string f = f.

Record writable (i : Index) : Prop := mkWritable {
  wr_names f : is_Some (values i !! f) → name_stable f;
  wr_keys f key : is_Some (postings i !! f ≫= (.!! key)) → key ≠ "" ∧ json_string key = key;
}.

Lemma json_marshal_field i n f sc :
  writable i → field_rep i f sc → (∀ id v, sc !! id = Some v → json_stable v) → is_Some (values i !! f) →
  json_field (marshal_field i n f) = marshal_field i n f.
Proof.
  intros [Hn Hk] Hf Hs Hv. destruct (Hn f Hv) as [_ Hname]. unfold json_field, marshal_field.
  cbn [pf_Name pf_Values pf_Postings pf_Numbers]. rewrite Hname, (fr_values i f sc Hf).
  f_equal.
  - etrans; [|apply list_fmap_id]. apply list_fmap_ext. intros k [id v] Hin. cbn.
    apply list_elem_of_lookup_2 in Hin. apply stored_values_ok in Hin. by destruct (Hs id v Hin) as [-> _].
  - rewrite <-list_fmap_compose. apply list_fmap_ext. intros k key Hin. cbn. f_equal.
    apply list_elem_of_lookup_2 in Hin. rewrite sort_slice_elem in Hin.
    apply list_elem_of_fmap in Hin as ([key' p]&->&Hin%elem_of_map_to_list). apply (Hk f key').
    destruct (postings i !! f) as [m|]; [eauto|cbn in Hin; by rewrite lookup_empty in Hin].
Qed.

Lemma marshalled_postings i n f sc :
  field_rep i f sc → let stored := pf_Postings (marshal_field i n f) in
  NoDup stored.*1 ∧
  (∀ key, key ∈ stored.*1 ↔ is_Some (postings i !! f ≫= (.!! key))) ∧
  (∀ key ids, (key, ids) ∈ stored → NoDup ids ∧ ∀ id, id ∈ ids ↔ ∃ v, sc !! id = Some v ∧ canonical v = key).
Proof.
  intros Hf. cbv zeta. unfold marshal_field. cbn [pf_Postings].
  assert (∀ key, default ∅ (postings i !! f) !! key = postings i !! f ≫= (.!! key)) as Hby.
  { intros key. destruct (postings i !! f); [done|]. apply lookup_empty. }
  assert (∀ l : list string, ((λ key, (key, Bitmap.setIDs (Posting.Set_ (default ∅ (postings i !! f) !! key) n))) <$> l).*1 = l) as Hfst.
  { intros l. rewrite <-list_fmap_compose. apply list_fmap_id. }
  rewrite Hfst. split; [|split].
  - rewrite sort_slice_perm. apply NoDup_fst_map_to_list.
  - intros key. rewrite sort_slice_elem, list_elem_of_fmap, <-Hby. split.
    + intros ([k p]&->&Hp%elem_of_map_to_list). eauto.
    + intros [p Hp]. exists (key, p). split; [done|by apply elem_of_map_to_list].
  - intros key ids Hin. apply list_elem_of_fmap in Hin as (k&[= -> ->]&_). rewrite Hby.
    destruct (fr_postings i f sc Hf k) as [Hinv Hids]. destruct (PostingFacts.Set_ok _ n Hinv) as [Hs Hc]. split.
    + pose proof (Bitmap.setIDs_ascending _ Hs) as Ha. induction Ha as [|x l Hl IH Hx]; constructor; [|done].
      intros Hin. rewrite Forall_forall in Hx. specialize (Hx x Hin). lia.
    + intros id. rewrite Bitmap.setIDs_elem, <-Hids by done. split.
      * intros [Hid Hb]. rewrite Hc in Hb by done. by bool_props.
      * intros Hin. assert (0 ≤ id) as Hid.
        { apply Hids in Hin as (v&Hv&_). by eapply (fr_ids i f sc Hf). }
        split; [done|]. rewrite Hc by done. by apply bool_decide_eq_true.
Qed.

Lemma loaded_numbers n (numbers : gmap Z Z) :
  (∀ id v, numbers !! id = Some v → 0 ≤ id ∧ f64_is_nan v = false) →
  let f := NumericField.mk (stored_numbers numbers) [] (insert_all ∅ (entry_pair <$> stored_numbers numbers)) (Bitmap.newSet n) 0 in
  NumericField.inv f ∧ NumericField.current f = numbers.
Proof.
  intros Hn. destruct (stored_numbers_ok numbers) as (Hnd&Hin&_). cbv zeta.
  assert (insert_all ∅ (entry_pair <$> stored_numbers numbers) = numbers) as ->.
  { apply insert_all_eq.
    - rewrite <-list_fmap_compose. exact Hnd.
    - intros id v. rewrite list_elem_of_fmap. split.
      + intros (e&[= -> ->]&He). by apply Hin.
      + intros Hv. exists (NumericField.mkEntry v id). split; [done|]. by apply Hin. }
  split; [|done]. constructor; cbn [NumericField.base NumericField.delta NumericField.current NumericField.invalidBase].
  - intros id v Hv. left. split; [by apply Hin|apply Bitmap.Contains_newSet].
  - intros e He _. apply Hin in He. exists (NumericField.value e). split; [done|].
    rewrite f64_eqb_ord by by eapply Hn. apply Z.eqb_refl.
  - apply NumericFacts.sort_entries_ordered. intros e He.
    apply list_elem_of_fmap in He as ([id v]&->&Hv%elem_of_map_to_list). by eapply Hn.
  - split; [|intros id v Hv; by eapply Hn]. intros e He. rewrite app_nil_r in He. apply Hin in He. by eapply Hn.
  - split; [|intros id v Hv; by eapply Hn]. intros e He. rewrite app_nil_r in He. apply Hin in He. by eapply Hn.
Qed.

Lemma load_field_ok i j n f sc :
  field_rep i f sc → (∀ id v, sc !! id = Some v → 0 < id ≤ n ∧ is_ok (validateScalar v) = true) →
  f ≠ "" → values j !! f = None → numeric j !! f = None →
  (∀ key, is_Some (postings i !! f ≫= (.!! key)) → key ≠ "") →
  ∃ j', load_field n j (marshal_field i n f) = Ok j' ∧ field_rep j' f sc ∧ universe j' = universe j ∧
    ∀ g, g ≠ f → values j' !! g = values j !! g ∧ postings j' !! g = postings j !! g ∧
      present j' !! g = present j !! g ∧ numeric j' !! g = numeric j !! g.
Proof.
  intros Hf Hsc Hne Hfresh Hnum Hkeys. unfold load_field. cbn [marshal_field pf_Name].
  rewrite (proj2 (String.eqb_neq f "") Hne), Hfresh, bool_decide_eq_false_2 by (by intros [? ?]).
  cbn [marshal_field pf_Values]. rewrite (fr_values i f sc Hf).
  destruct (stored_values_ok sc) as [Hnd Hin]. set (items := omap _ _) in *.
  rewrite load_values_ok; [|done|intros; apply lookup_empty|intros id v Hv; apply Hin in Hv; auto]. cbn [res_bind].
  rewrite (insert_all_eq sc items Hnd Hin).
  destruct (marshalled_postings i n f sc Hf) as (Hpnd&Hpk&Hpi).
  set (stored := pf_Postings (marshal_field i n f)) in *. change (pf_Postings _) with stored.
  destruct (load_postings_ok sc stored ∅ ∅ Hpnd) as (covered&posts&->&Hcov&Hout&Hposts).
  { intros key Hk. split; [by apply Hkeys, Hpk|apply lookup_empty]. }
  { exact Hpi. }
  { intros id v Hv. split; [|set_solver]. apply Hsc in Hv. lia. }
  cbn [res_bind].
  assert (∀ id v, sc !! id = Some v → canonical v ∈ stored.*1) as Hall.
  { intros id v Hv. apply Hpk. destruct (fr_postings i f sc Hf (canonical v)) as [_ Hids].
    destruct (postings i !! f ≫= (.!! canonical v)) as [p|] eqn:E; [eauto|].
    exfalso. assert (id ∈ (∅ : gset Z)) as H0; [|set_solver]. apply Hids. eauto. }
  assert (covered = dom sc) as ->.
  { apply set_eq. intros id. rewrite Hcov, elem_of_dom. split.
    - intros [?|(v&Hv&_)]; [set_solver|eauto].
    - intros [v Hv]. right. eauto. }
  rewrite size_dom, Nat.eqb_refl. cbn [negb marshal_field pf_Numbers].
  destruct (fr_numeric i f sc Hf) as [_ Hcur].
  assert (match numeric i !! f with Some n0 => sort_slice NumericField.entry_ltb
      ((λ '(id, v), NumericField.mkEntry v id) <$> map_to_list (NumericField.current n0)) | None => [] end
    = stored_numbers (omap number sc)) as ->.
  { destruct (numeric i !! f) as [n0|]; simpl in Hcur; [by rewrite Hcur|]. by rewrite <-Hcur. }
  destruct (stored_numbers_ok (omap number sc)) as (Hsnd&Hsin&Hslen).
  rewrite load_numbers_ok; [|done|].
  2: { intros e He. apply Hsin in He. rewrite lookup_omap in He. split; [done|apply lookup_empty]. }
  cbn [res_bind NumericField.base NumericField.delta NumericField.current NumericField.invalidBase NumericField.stale app].
  rewrite count_numbers, Hslen, Z.eqb_refl. cbn [negb].
  destruct (loaded_numbers n (omap number sc)) as [Hninv Hncur].
  { intros id x Hx. rewrite lookup_omap in Hx. destruct (sc !! id) as [v|] eqn:Ev; [|done]. simpl in Hx.
    split; [apply Hsc in Ev; lia|by eapply number_finite]. }
  eexists. split; [done|]. split; [|split; [done|]].
  - constructor; cbn [values postings present numeric].
    + by rewrite lookup_insert_eq.
    + intros key. rewrite lookup_insert_eq. cbn [mbind option_bind].
      destruct (decide (key ∈ stored.*1)) as [Hk|Hk]; [by apply Hposts|]. rewrite Hout by done. rewrite lookup_empty.
      split; [done|]. intros id. split; [set_solver|]. intros (v&Hv&<-). destruct (Hk (Hall id v Hv)).
    + rewrite lookup_insert_eq. destruct (stored_present items (Bitmap.newSet n) 0) as [Hpi' _]; [|done|apply Bitmap.inv_newSet|].
      { intros k v Hkv. apply Hin, Hsc in Hkv. lia. }
      split; [by intros s [= <-]|]. intros id Hid. cbn [Bitmap.has].
      destruct (stored_present items (Bitmap.newSet n) id) as [_ ->]; [|done|apply Bitmap.inv_newSet|].
      { intros k v Hkv. apply Hin, Hsc in Hkv. lia. }
      rewrite Bitmap.Contains_newSet, orb_false_r. apply bool_decide_ext. rewrite list_elem_of_fmap. split.
      * intros ([k v]&->&Hkv). apply Hin in Hkv. eauto.
      * intros [v Hv]. exists (id, v). split; [done|by apply Hin].
    + destruct (0 <? Z.of_nat (size (omap number sc))) eqn:E.
      * rewrite lookup_insert_eq. done.
      * rewrite Hnum. cbn. split; [apply NumericFacts.new_field_ok|]. symmetry. apply map_size_empty_inv.
        apply Z.ltb_ge in E. lia.
    + intros id v Hv. apply Hsc in Hv. lia.
  - intros g Hg. cbn [values postings present numeric]. rewrite !lookup_insert_ne by done. repeat split.
    destruct (_ <? _); [by rewrite lookup_insert_ne|done].
Qed.

(** ** All fields *)

Lemma load_fields_ok i n (sc : string → gmap Z any) l j :
  NoDup l → (∀ f, f ∈ l → field_rep i f (sc f) ∧ f ≠ "" ∧ values j !! f = None ∧ numeric j !! f = None ∧
    (∀ id v, sc f !! id = Some v → 0 < id ≤ n ∧ is_ok (validateScalar v) = true) ∧
    (∀ key, is_Some (postings i !! f ≫= (.!! key)) → key ≠ "")) →
  ∃ j', load_fields n j (marshal_field i n <$> l) = Ok j' ∧ universe j' = universe j ∧
    (∀ f, f ∈ l → field_rep j' f (sc f)) ∧
    ∀ g, g ∉ l → values j' !! g = values j !! g ∧ postings j' !! g = postings j !! g ∧
      present j' !! g = present j !! g ∧ numeric j' !! g = numeric j !! g.
Proof.
  intros Hnd. revert j. induction Hnd as [|f l Hf Hnd IH]; intros j Hl.
  { exists j. split; [done|]. split; [done|]. split; [intros f Hf; by apply not_elem_of_nil in Hf|done]. }
  destruct (Hl f) as (H1&H2&H3&H4&H5&H6); [by left|]. rewrite fmap_cons. cbn [load_fields].
  destruct (load_field_ok i j n f (sc f) H1 H5 H2 H3 H4 H6) as (j1&->&Hr&Hu&Hother). cbn [res_bind].
  destruct (IH j1) as (j'&->&Hu'&Hin&Hout).
  { intros g Hg. destruct (Hl g) as (?&?&Hv&Hn&?&?); [by right|]. destruct (Hother g) as (->&_&_&->); [by intros ->|]. done. }
  exists j'. split; [done|]. split; [congruence|]. split.
  - intros g [->|Hg]%elem_of_cons; [|by apply Hin]. destruct (Hout f Hf) as (?&?&?&?). by eapply (field_rep_same j1).
  - intros g [Hgf Hg]%not_elem_of_cons. destruct (Hout g Hg) as (->&->&->&->). by apply Hother.
Qed.

Lemma full_universe_ok n :
  0 ≤ n → Bitmap.inv (full_universe n) ∧ ∀ id, 0 ≤ id → Bitmap.Contains (full_universe n) id = bool_decide (1 ≤ id ≤ n).
Proof.
  intros Hn. unfold full_universe.
  assert (foldl (λ s k, Bitmap.Add s (Z.of_nat k)) (Bitmap.newSet 0) (seq 1 (Z.to_nat n)) =
    foldl Bitmap.Add (Bitmap.newSet 0) (Z.of_nat <$> seq 1 (Z.to_nat n))) as ->.
  { generalize (Bitmap.newSet 0) as s. generalize (seq 1 (Z.to_nat n)) as l.
    intros l. induction l as [|k l IH]; intros s; [done|]. rewrite fmap_cons. cbn [foldl]. apply IH. }
  assert (Forall (λ i, 0 ≤ i) (Z.of_nat <$> seq 1 (Z.to_nat n))) as Hpos by (apply Forall_fmap, Forall_forall; intros; simpl; lia).
  split; [apply add_all_inv; [done|apply Bitmap.inv_newSet]|]. intros id Hid.
  rewrite add_all_has, Bitmap.Contains_newSet, orb_false_r by done. apply bool_decide_ext.
  rewrite list_elem_of_fmap. setoid_rewrite elem_of_seq. split; [intros (k&->&?); lia|]. intros H.
  exists (Z.to_nat id). lia.
Qed.

(** A written index loads as an index of the same metadata. *)
Lemma marshal_load i X n :
  index_rep i X → writable i → 0 ≤ n → (∀ id, is_Some (X !! id) ↔ 1 ≤ id ≤ n) →
  (∀ id md f v, X !! id = Some md → scalar md f = Some v → json_stable v) →
  ∃ p j, MarshalBinary i n = Ok p ∧ LoadBinary (json_index p) n = Ok j ∧ index_rep j X.
Proof.
  intros Hrep Hw Hn Hdom Hstable. pose proof Hrep as [Huinv Hu Hfields Hids].
  assert (Bitmap.Len (universe i) = n) as Hlen.
  { rewrite <-(setIDs_size _ Huinv).
    assert ((list_to_set (Bitmap.setIDs (universe i)) : gset Z) = list_to_set (Z.of_nat <$> seq 1 (Z.to_nat n))) as ->.
    { apply set_eq. intros id. rewrite !elem_of_list_to_set, Bitmap.setIDs_elem, list_elem_of_fmap by done.
      setoid_rewrite elem_of_seq. split.
      - intros [Hid Hc]. rewrite Hu in Hc by done. bool_props. apply Hdom in Hc. exists (Z.to_nat id). lia.
      - intros (k&->&Hk). split; [lia|]. rewrite Hu by lia. apply bool_decide_eq_true, Hdom. lia. }
    rewrite size_list_to_set by (apply NoDup_fmap_2; [intros ?? ?; lia|apply NoDup_seq]).
    rewrite length_fmap, length_seq. lia. }
  set (names := sort_slice str_ltb (map_to_list (values i)).*1).
  assert (∀ f, f ∈ names ↔ is_Some (values i !! f)) as Hnames.
  { intros f. unfold names. rewrite sort_slice_elem, list_elem_of_fmap. split.
    - intros ([g m]&->&Hm%elem_of_map_to_list). eauto.
    - intros [m Hm]. exists (f, m). split; [done|by apply elem_of_map_to_list]. }
  assert (∀ f id v, column X f !! id = Some v → 0 < id ≤ n ∧ is_ok (validateScalar v) = true ∧ json_stable v) as Hcol.
  { intros f id v Hv. unfold column in Hv. rewrite lookup_omap in Hv. destruct (X !! id) as [md|] eqn:E; [|done]. simpl in Hv.
    assert (1 ≤ id ≤ n) by (apply Hdom; eauto). split; [lia|]. split; [|by eapply Hstable].
    unfold scalar in Hv. destruct (md !! f); [|done]. destruct (is_ok _) eqn:Eo; [|done]. congruence. }
  assert (MarshalBinary i n = Ok (mkPersisted 1 n (marshal_field i n <$> names))) as Hm.
  { unfold MarshalBinary. by rewrite Hlen, Z.eqb_refl. }
  assert (json_field <$> (marshal_field i n <$> names) = marshal_field i n <$> names) as Hjson.
  { rewrite <-list_fmap_compose. apply list_fmap_ext. intros k f Hf%list_elem_of_lookup_2. cbn.
    apply (json_marshal_field i n f (column X f)); [done|done| |by apply Hnames]. intros id v Hv. by apply Hcol in Hv as (_&_&?). }
  destruct (load_fields_ok i n (column X) names (mkIndex (full_universe n) ∅ ∅ ∅ ∅)) as (j&Hj&Hju&Hin&Hout).
  { unfold names. rewrite sort_slice_perm. apply NoDup_fst_map_to_list. }
  { intros f Hf. split; [done|]. split; [apply Hnames, (wr_names i Hw) in Hf; by destruct Hf|].
    split; [apply lookup_empty|]. split; [apply lookup_empty|]. split.
    - intros id v Hv. apply Hcol in Hv as (?&?&_). done.
    - intros key Hk. by apply (wr_keys i Hw) in Hk as [? _]. }
  exists (mkPersisted 1 n (marshal_field i n <$> names)), j. split; [done|]. split.
  { unfold LoadBinary, json_index. cbn [pi_Version pi_RecordCount pi_Fields]. rewrite !Z.eqb_refl, Hjson. exact Hj. }
  destruct (full_universe_ok n Hn) as [Hfi Hfc]. constructor.
  - by rewrite Hju.
  - intros id Hid. rewrite Hju. cbn [universe]. rewrite Hfc by done. apply bool_decide_ext. by rewrite Hdom.
  - intros f. destruct (decide (f ∈ names)) as [Hf|Hf]; [by apply Hin|].
    destruct (Hout f Hf) as (H1&H2&H3&H4). apply (field_rep_same NewIndex); [by rewrite H1|by rewrite H2|by rewrite H3|by rewrite H4|].
    assert (column X f = ∅) as ->; [|apply empty_field]. rewrite <-(fr_values i f _ (Hfields f)).
    destruct (values i !! f) as [m|] eqn:E; [|done]. destruct Hf. apply Hnames. eauto.
  - exact Hids.
Qed.

(** ** The index of a list of records *)

Lemma writable_new : writable NewIndex.
Proof. split; simpl; intros *; rewrite lookup_empty; by intros [? ?]. Qed.

Lemma writable_delete i id : writable i → writable (Delete i id).
Proof.
  unfold Delete. intros [Hn Hk].
  assert (writable (mkIndex (Bitmap.Remove (universe i) id) (values i) (postings i) (present i) (numeric i))) as Hw by done.
  revert Hw. generalize (mkIndex (Bitmap.Remove (universe i) id) (values i) (postings i) (present i) (numeric i)).
  generalize (map_to_list (values i)).*1. clear Hn Hk i. intros l. induction l as [|f l IH]; intros i Hw; [done|].
  cbn [foldl]. apply IH. unfold delete_field. destruct (_ ≫= _) as [v|]; [|done].
  destruct Hw as [Hn Hk]. split; cbn [values postings].
  - intros g. rewrite lookup_alter_is_Some. apply Hn.
  - intros g key H. apply (Hk g key). destruct (decide (g = f)) as [->|Hne]; [|by rewrite lookup_alter_ne in H].
    rewrite lookup_alter_eq in H. destruct (postings i !! f) as [m|]; [|done]. simpl in *. by rewrite lookup_alter_is_Some in H.
Qed.

Definition md_stable (md : gmap string any) : Prop :=
  ∀ f v, scalar md f = Some v → name_stable f ∧ json_stable v.

Lemma canonical_not_empty v : canonical v ≠ "".
Proof. by destruct v. Qed.

Lemma writable_upsert i id md : writable i → md_stable md → writable (Upsert i id md).
Proof.
  intros Hw Hmd. unfold Upsert. pose proof (writable_delete i id Hw) as Hd. revert Hd. generalize (Delete i id). intros d Hd.
  assert (writable (mkIndex (Bitmap.Add (universe d) id) (values d) (postings d) (present d) (numeric d))) as Hw' by (by destruct Hd).
  revert Hw'. generalize (mkIndex (Bitmap.Add (universe d) id) (values d) (postings d) (present d) (numeric d)).
  assert (∀ f v, (f, v) ∈ map_to_list md → md !! f = Some v) as Hin by (intros f v; by rewrite elem_of_map_to_list).
  revert Hin. generalize (map_to_list md). intros l. induction l as [|[f v] l IH]; intros Hin j Hj; [done|]. cbn [foldl].
  apply IH; [intros g w Hg; apply Hin; by right|]. unfold upsert_field. destruct (validateScalar v) eqn:E; [|done].
  destruct (Hmd f v) as [Hf [_ Hkey]].
  { unfold scalar. rewrite (Hin f v) by by left. by rewrite E. }
  destruct Hj as [Hn Hk]. split; cbn [values postings].
  - intros g. destruct (decide (g = f)) as [->|Hne]; [done|]. rewrite lookup_insert_ne by done. apply Hn.
  - intros g key. destruct (decide (g = f)) as [->|Hne]; [|rewrite lookup_insert_ne by done; apply Hk].
    rewrite lookup_insert_eq. cbn [mbind option_bind]. destruct (decide (key = canonical v)) as [->|Hne].
    + intros _. split; [apply canonical_not_empty|done].
    + rewrite lookup_insert_ne by done. intros H. apply (Hk f key). destruct (postings j !! f); [done|by destruct H].
Qed.

(** The metadata of records by position, from 1. *)
Definition by_position (records : list CoreRecord) : gmap Z (gmap string any) :=
  foldl (λ X '(position, record), <[Z.of_nat position + 1 := Metadata record]> X) ∅
    (imap (λ position record, (position, record)) records).

Lemma by_position_lookup records id :
  by_position records !! id = if decide (1 ≤ id) then Metadata <$> records !! Z.to_nat (id - 1) else None.
Proof.
  unfold by_position. induction records as [|r records IH] using rev_ind.
  { simpl. rewrite lookup_empty. by destruct (decide _). }
  rewrite imap_app, foldl_app. simpl. rewrite Nat.add_0_r. destruct (decide (id = Z.of_nat (length records) + 1)) as [->|Hne].
  - rewrite lookup_insert_eq, decide_True by lia. rewrite list_lookup_middle; [done|lia].
  - rewrite lookup_insert_ne, IH by done. destruct (decide (1 ≤ id)) as [Hid|Hid]; [|done].
    destruct (decide (Z.to_nat (id - 1) < length records)%nat).
    + by rewrite lookup_app_l.
    + rewrite (lookup_ge_None_2 records), lookup_ge_None_2 by (rewrite ?length_app; simpl; lia). done.
Qed.

(** The index [MarshalRecords] builds. *)
Definition records_index (records : list CoreRecord) : Index :=
  foldl (λ i '(position, record), Upsert i (Z.of_nat position + 1) (Metadata record)) NewIndex
    (imap (λ position record, (position, record)) records).

Lemma records_index_ok records :
  Forall (λ r, md_stable (Metadata r)) records →
  index_rep (records_index records) (by_position records) ∧ writable (records_index records).
Proof.
  unfold records_index, by_position. induction records as [|r records IH] using rev_ind; intros Hr.
  { split; [apply NewIndex_ok|apply writable_new]. }
  apply Forall_app in Hr as [Hrs Hr]. rewrite Forall_singleton in Hr. destruct (IH Hrs) as [Hi Hw].
  rewrite imap_app, !foldl_app. simpl. rewrite Nat.add_0_r. split; [by apply index_Upsert_ok; [|lia]|]. apply writable_upsert; [exact Hw|exact Hr].
Qed.

Lemma by_position_dom records id : is_Some (by_position records !! id) ↔ 1 ≤ id ≤ len records.
Proof.
  rewrite by_position_lookup. unfold len. destruct (decide (1 ≤ id)) as [Hid|Hid].
  - rewrite fmap_is_Some, lookup_lt_is_Some. lia.
  - split; [by intros [? ?]|lia].
Qed.

Lemma by_position_stable records id md f v :
  Forall (λ r, md_stable (Metadata r)) records →
  by_position records !! id = Some md → scalar md f = Some v → json_stable v.
Proof.
  intros Hr Hmd Hv. rewrite by_position_lookup in Hmd. destruct (decide _); [|done].
  apply fmap_Some in Hmd as (r&Hl&->). by destruct (Forall_lookup_1 _ _ _ _ Hr Hl f v Hv).
Qed.
