(* ===== verification/TopK.v ===== *)
(** * Bounded heaps

    The size-[k] heap both [internal/index/flat/flat.go] and [mergeTopK] of
    [internal/collection/collection.go] keep: [heap_push] appends and sifts
    up, [heap_fix] sifts a replaced root down, [insertion_sort] puts the
    survivors in order.  The two source files hold the same code at two
    element types; here it is written once over the comparison [better], and
    [Flat.v] and [Collection.v] instantiate it.  The root is the worst
    element kept.  The loops run on fuel bounded by the heap's length, which
    is enough since a sifted position strictly falls or grows.

    [top_k] is what a selection of the best [k] promises; the lemmas show the
    heap keeps that promise and that promises compose when partial
    selections are merged. *)
From Stdlib Require Import ZArith Lia Zify ZifyNat Ascii String Sorting.Permutation Sorting.Sorted.
From stdpp Require Import base tactics list sets sorting.
From S2P Require Import Prelude.
Local Set Warnings "-clear-no-such-hyp".
Local Open Scope list_scope.
Local Open Scope nat_scope.
Local Ltac Zify.zify_post_hook ::= Z.to_euclidean_division_equations.

Section Heap.
Context {A : Type} (better : A → A → bool).

Definition worse (a b : A) : bool := better b a.

(** [h[i], h[j] = h[j], h[i]] *)
Definition swap (h : list A) (i j : nat) : list A :=
  match h !! i, h !! j with
  | Some x, Some y => <[i := y]> (<[j := x]> h)
  | _, _ => h
  end.

Definition parent_of (position : nat) : nat := (position - 1) / 2.

Fixpoint sift_up (fuel : nat) (h : list A) (position : nat) : list A :=
  match fuel with
  | O => h
  | S fuel =>
      if position =? 0 then h
      else
        let parent := parent_of position in
        match h !! position, h !! parent with
        | Some c, Some p =>
            if negb (worse c p) then h else sift_up fuel (swap h position parent) parent
        | _, _ => h
        end
  end.

Definition heap_push (h : list A) (x : A) : list A :=
  sift_up (S (length h)) (h ++ [x]) (length h).

(** The worst child of a position, when it has one. *)
Definition worst_child (h : list A) (position : nat) : option nat :=
  let left_ := position * 2 + 1 in
  if length h <=? left_ then None
  else
    let right_ := left_ + 1 in
    match h !! left_, h !! right_ with
    | Some l, Some r => Some (if worse r l then right_ else left_)
    | _, _ => Some left_
    end.

Fixpoint sift_down (fuel : nat) (h : list A) (position : nat) : list A :=
  match fuel with
  | O => h
  | S fuel =>
      match worst_child h position with
      | None => h
      | Some worst =>
          match h !! worst, h !! position with
          | Some w, Some x =>
              if negb (worse w x) then h else sift_down fuel (swap h position worst) worst
          | _, _ => h
          end
      end
  end.

Definition heap_fix (h : list A) : list A := sift_down (length h) h 0.

(** [for insert > 0 && better(candidate, candidates[insert-1]) { … }] *)
Fixpoint shift_insert (h : list A) (candidate : A) (insert_ : nat) : list A :=
  match insert_ with
  | O => <[0 := candidate]> h
  | S i =>
      match h !! i with
      | Some y => if better candidate y then shift_insert (<[S i := y]> h) candidate i
                  else <[S i := candidate]> h
      | None => h
      end
  end.

Definition insertion_sort (h : list A) : list A :=
  foldl (λ h position, match h !! position with
                       | Some candidate => shift_insert h candidate position
                       | None => h
                       end) h (seq 1 (length h - 1)).

(** One candidate of the scan. *)
Definition heap_offer (k : nat) (h : list A) (candidate : A) : list A :=
  if length h <? k then heap_push h candidate
  else match h !! 0 with
       | Some root => if better candidate root then heap_fix (<[0 := candidate]> h) else h
       | None => h
       end.

Definition heap_select (k : nat) (candidates : list A) : list A :=
  insertion_sort (foldl (heap_offer k) [] candidates).

(** ** What a selection promises *)

Definition top_set (k : nat) (l R : list A) : Prop :=
  length R = Nat.min k (length l) ∧
  ∃ rest, l ≡ₚ R ++ rest ∧ ∀ x y, x ∈ R → y ∈ rest → better y x = false.

Definition top_k (k : nat) (l R : list A) : Prop := ordered better R ∧ top_set k l R.

Definition heap_ok (h : list A) : Prop :=
  ∀ i c p, 0 < i → h !! i = Some c → h !! parent_of i = Some p → better p c = false.

(** ** Permutations *)

Lemma swap_perm h i j : swap h i j ≡ₚ h.
Proof.
  unfold swap. destruct (h !! i) as [x|] eqn:Ei; [|done]. destruct (h !! j) as [y|] eqn:Ej; [|done].
  destruct (decide (i = j)) as [->|Hne].
  { rewrite list_insert_insert_eq. replace y with x by congruence. by rewrite list_insert_id. }
  apply Permutation_insert_swap; done.
Qed.

Lemma lookup_swap h i j n x y :
  h !! i = Some x → h !! j = Some y → i ≠ j →
  swap h i j !! n = if decide (n = i) then Some y else if decide (n = j) then Some x else h !! n.
Proof.
  intros Hi Hj Hne. unfold swap. rewrite Hi, Hj.
  pose proof (lookup_lt_Some _ _ _ Hi). pose proof (lookup_lt_Some _ _ _ Hj).
  destruct (decide (n = i)) as [->|Hni].
  { rewrite list_lookup_insert_eq; [done|]. by rewrite length_insert. }
  rewrite list_lookup_insert_ne by done. destruct (decide (n = j)) as [->|Hnj].
  { by rewrite list_lookup_insert_eq. }
  by rewrite list_lookup_insert_ne.
Qed.

Lemma sift_up_perm fuel h position : sift_up fuel h position ≡ₚ h.
Proof.
  revert h position. induction fuel as [|fuel IH]; intros h position; [done|]. cbn [sift_up].
  destruct (position =? 0); [done|]. cbv zeta.
  destruct (h !! position) as [c|]; [|done]. destruct (h !! parent_of position) as [p|]; [|done].
  destruct (negb _); [done|]. by rewrite IH, swap_perm.
Qed.

Lemma sift_down_perm fuel h position : sift_down fuel h position ≡ₚ h.
Proof.
  revert h position. induction fuel as [|fuel IH]; intros h position; [done|]. cbn [sift_down].
  destruct (worst_child h position) as [w|]; [|done].
  destruct (h !! w) as [c|]; [|done]. destruct (h !! position) as [p|]; [|done].
  destruct (negb _); [done|]. by rewrite IH, swap_perm.
Qed.

Lemma heap_push_perm h x : heap_push h x ≡ₚ x :: h.
Proof. unfold heap_push. rewrite sift_up_perm. by rewrite Permutation_app_comm. Qed.

Lemma heap_fix_perm h : heap_fix h ≡ₚ h.
Proof. apply sift_down_perm. Qed.

(** ** The heap invariant *)

Context `{!WeakOrderB better}.

(** All pairs are in order except the one whose child is at [position];
    that child's own children are in order with its parent. *)
Definition up_ok (h : list A) (position : nat) : Prop :=
  (∀ i c p, 0 < i → i ≠ position → h !! i = Some c → h !! parent_of i = Some p → better p c = false) ∧
  (∀ i c g, 0 < i → parent_of i = position → 0 < position →
    h !! i = Some c → h !! parent_of position = Some g → better g c = false).

Lemma sift_up_ok fuel h position :
  position < fuel → position < length h → up_ok h position → heap_ok (sift_up fuel h position).
Proof.
  revert h position. induction fuel as [|fuel IH]; intros h position Hf Hlt [H1 H2]; [lia|]. cbn [sift_up].
  destruct (Nat.eqb_spec position 0) as [->|Hpos].
  { intros i c p Hi. apply H1; lia. }
  assert (parent_of position < position) as Hq by (unfold parent_of; lia).
  cbv zeta. destruct (lookup_lt_is_Some_2 h position Hlt) as [x Hx]. rewrite Hx.
  destruct (lookup_lt_is_Some_2 h (parent_of position)) as [p Hp]; [lia|]. rewrite Hp.
  unfold worse. destruct (better p x) eqn:E; cbn [negb].
  2: { intros i c p' Hi Hc Hp'. destruct (decide (i = position)) as [->|Hne]; [congruence|eauto]. }
  pose proof (weak_asym better p x E) as E'.
  apply IH; [lia|by rewrite swap_perm; lia|].
  assert (∀ n, swap h position (parent_of position) !! n =
    if decide (n = position) then Some p else if decide (n = parent_of position) then Some x else h !! n) as Hs.
  { intros n. apply lookup_swap; [done|done|lia]. }
  split.
  - intros i c p' Hi Hne. rewrite !Hs. intros Hc Hp'.
    rewrite (decide_False (P := i = parent_of position)) in Hc by done.
    destruct (decide (i = position)) as [->|Hi'].
    { simplify_eq. rewrite decide_False, decide_True in Hp' by lia. congruence. }
    destruct (decide (parent_of i = position)) as [Hpi|Hpi].
    { simplify_eq. apply (H2 i c p'); auto; lia. }
    destruct (decide (parent_of i = parent_of position)) as [Hpp|Hpp].
    { simplify_eq. apply (wltb_neg_trans p' p c); [done|]. apply (H1 i c p); auto. congruence. }
    eauto.
  - intros i c g Hi Hpi Hg0. rewrite !Hs. intros Hc Hg.
    rewrite (decide_False (P := parent_of (parent_of position) = position)) in Hg by (unfold parent_of in *; lia).
    rewrite (decide_False (P := parent_of (parent_of position) = parent_of position)) in Hg by (unfold parent_of in *; lia).
    assert (better g p = false) as Hgp by (apply (H1 (parent_of position) p g); auto; lia).
    destruct (decide (i = position)) as [->|Hi']; [congruence|].
    rewrite decide_False in Hc by (unfold parent_of in *; lia).
    apply (wltb_neg_trans g p c); [done|]. apply (H1 i c p); auto. congruence.
Qed.

Lemma heap_push_ok h x : heap_ok h → heap_ok (heap_push h x).
Proof.
  intros Hh. unfold heap_push. apply sift_up_ok; [lia|rewrite length_app; simpl; lia|].
  split.
  - intros i c p Hi Hne Hc Hp. pose proof (lookup_lt_Some _ _ _ Hc) as Hlt. rewrite length_app in Hlt. simpl in Hlt.
    rewrite lookup_app_l in Hc by lia. rewrite lookup_app_l in Hp by (unfold parent_of; lia). eauto.
  - intros i c g Hi Hpi _ Hc _. pose proof (lookup_lt_Some _ _ _ Hc) as Hlt. rewrite length_app in Hlt. simpl in Hlt.
    unfold parent_of in Hpi. lia.
Qed.

(** All pairs are in order except those whose parent is at [position]; its
    children are in order with its own parent. *)
Definition down_ok (h : list A) (position : nat) : Prop :=
  (∀ i c p, 0 < i → parent_of i ≠ position → h !! i = Some c → h !! parent_of i = Some p → better p c = false) ∧
  (∀ i c g, 0 < i → parent_of i = position → 0 < position →
    h !! i = Some c → h !! parent_of position = Some g → better g c = false).

Lemma worst_child_spec h position :
  match worst_child h position with
  | None => ∀ i, 0 < i → parent_of i = position → h !! i = None
  | Some w => position < w < length h ∧ parent_of w = position ∧
      ∃ c, h !! w = Some c ∧ ∀ i c', 0 < i → parent_of i = position → h !! i = Some c' → better c c' = false
  end.
Proof.
  unfold worst_child. destruct (Nat.leb_spec (length h) (position * 2 + 1)) as [Hle|Hlt].
  { intros i Hi Hp. apply lookup_ge_None_2. unfold parent_of in Hp. lia. }
  destruct (lookup_lt_is_Some_2 h (position * 2 + 1) Hlt) as [l Hl]. rewrite Hl.
  assert (∀ i, 0 < i → parent_of i = position → i = position * 2 + 1 ∨ i = position * 2 + 1 + 1) as Hch.
  { intros i Hi Hp. unfold parent_of in Hp. lia. }
  destruct (h !! (position * 2 + 1 + 1)) as [r|] eqn:Hr.
  - pose proof (lookup_lt_Some _ _ _ Hr). unfold worse. destruct (better l r) eqn:E.
    + split; [lia|]. split; [unfold parent_of; lia|]. exists r. split; [done|].
      intros i c' Hi Hp Hc'. destruct (Hch i Hi Hp) as [->| ->]; simplify_eq; [by apply weak_asym|apply wltb_irrefl].
    + split; [lia|]. split; [unfold parent_of; lia|]. exists l. split; [done|].
      intros i c' Hi Hp Hc'. destruct (Hch i Hi Hp) as [->| ->]; simplify_eq; [apply wltb_irrefl|done].
  - split; [lia|]. split; [unfold parent_of; lia|]. exists l. split; [done|].
    intros i c' Hi Hp Hc'. destruct (Hch i Hi Hp) as [->| ->]; simplify_eq. apply wltb_irrefl.
Qed.

Lemma heap_done h position x w :
  down_ok h position → h !! position = Some x → better x w = false →
  (∀ i c, 0 < i → parent_of i = position → h !! i = Some c → better w c = false) → heap_ok h.
Proof.
  intros [H1 _] Hx Hxw Hw i c p Hi Hc Hp.
  destruct (decide (parent_of i = position)) as [He|Hne]; [|eauto].
  rewrite He, Hx in Hp. injection Hp as <-. apply (wltb_neg_trans x w c); eauto.
Qed.

Lemma sift_down_ok fuel h position :
  length h ≤ position + fuel → position < length h → down_ok h position → heap_ok (sift_down fuel h position).
Proof.
  revert h position. induction fuel as [|fuel IH]; intros h position Hf Hlt [H1 H2]; [lia|]. cbn [sift_down].
  pose proof (worst_child_spec h position) as Hw.
  destruct (worst_child h position) as [w|].
  2: { intros i c p Hi Hc Hp. destruct (decide (parent_of i = position)) as [He|Hne]; [|eauto].
       rewrite (Hw i Hi He) in Hc. done. }
  destruct Hw as ((Hpw&Hwl)&Hpar&cw&Hcw&Hmin). rewrite Hcw.
  destruct (lookup_lt_is_Some_2 h position Hlt) as [x Hx]. rewrite Hx. unfold worse.
  destruct (better x cw) eqn:E; cbn [negb].
  2: { apply (heap_done h position x cw); eauto. by split. }
  pose proof (weak_asym better x cw E) as E'.
  apply IH; [rewrite swap_perm; lia|rewrite swap_perm; lia|].
  assert (∀ n, swap h position w !! n =
    if decide (n = position) then Some cw else if decide (n = w) then Some x else h !! n) as Hs.
  { intros n. apply lookup_swap; [done|done|lia]. }
  split.
  - intros i c p Hi Hne. rewrite !Hs. rewrite (decide_False (P := parent_of i = w)) by done. intros Hc Hp.
    destruct (decide (i = position)) as [->|Hip].
    { rewrite decide_False in Hp by (unfold parent_of in *; lia). simplify_eq.
      apply (H2 w c p); auto; lia. }
    destruct (decide (i = w)) as [->|Hiw].
    { rewrite decide_True in Hp by done. congruence. }
    destruct (decide (parent_of i = position)) as [He|Hne']; [simplify_eq; eauto|eauto].
  - intros i c g Hi Hp Hw0. rewrite !Hs, Hpar. intros Hc Hg. rewrite decide_True in Hg by done. injection Hg as <-.
    rewrite decide_False in Hc by (unfold parent_of in *; lia).
    rewrite decide_False in Hc by (unfold parent_of in *; lia).
    apply (H1 i c cw); auto; [lia|congruence].
Qed.

Lemma heap_fix_ok h x : heap_ok h → heap_ok (heap_fix (<[0 := x]> h)).
Proof.
  intros Hh. destruct h as [|y h]; [done|]. apply sift_down_ok; [lia|simpl; lia|].
  split; [|intros; lia]. intros i c p Hi Hne. rewrite !list_lookup_insert_ne by lia. eauto.
Qed.

(** The root is the worst element. *)
Lemma heap_root h r : heap_ok h → h !! 0 = Some r → ∀ x, x ∈ h → better r x = false.
Proof.
  intros Hh Hr x [i Hi]%list_elem_of_lookup. revert x Hi.
  induction (lt_wf i) as [i _ IH]. intros x Hi.
  destruct (decide (i = 0)) as [->|Hne]; [simplify_eq; apply wltb_irrefl|].
  assert (parent_of i < i) as Hp by (unfold parent_of; lia).
  destruct (lookup_lt_is_Some_2 h (parent_of i)) as [p Hpi].
  { pose proof (lookup_lt_Some _ _ _ Hi). lia. }
  apply (wltb_neg_trans r p x); [by apply (IH (parent_of i))|]. apply (Hh i); [lia|done|done].
Qed.

(** ** The scan keeps the best [k] *)

Definition scan_ok (k : nat) (seen h : list A) : Prop := heap_ok h ∧ top_set k seen h.

Lemma heap_offer_ok k seen h x :
  0 < k → scan_ok k seen h → scan_ok k (x :: seen) (heap_offer k h x).
Proof.
  intros Hk [Hh (Hlen&rest&Hp&Hb)]. unfold heap_offer.
  destruct (Nat.ltb_spec (length h) k) as [Hlt|Hge].
  { split; [by apply heap_push_ok|]. assert (rest = []) as ->.
    { assert (length seen = length h + length rest) as Hl by (rewrite Hp, length_app; done).
      destruct rest; [done|simpl in Hl; lia]. }
    split; [rewrite heap_push_perm; simpl; lia|]. exists [].
    split; [by rewrite heap_push_perm, Hp|]. intros a b _ []%not_elem_of_nil. }
  destruct h as [|r h]; [simpl in *; lia|]. cbn [lookup list_lookup].
  pose proof (heap_root (r :: h) r Hh eq_refl) as Hr.
  assert (length seen = length (r :: h) + length rest) as Hl by (rewrite Hp, length_app; done).
  destruct (better x r) eqn:E.
  - split; [by apply heap_fix_ok|]. split; [rewrite heap_fix_perm; simpl in *; lia|].
    exists (r :: rest). rewrite heap_fix_perm. cbn [insert list_insert].
    split; [rewrite Hp; simpl; constructor; apply Permutation_middle|].
    pose proof (weak_asym better x r E) as E'.
    assert (∀ z, z ∈ rest → better z x = false) as Hz.
    { intros z Hz. destruct (better z x) eqn:E2; [|done].
      rewrite <-(Hb r z) by (set_solver || done). symmetry. by apply (wltb_trans z x r). }
    intros a b Ha Hb'. rewrite heap_fix_perm in Ha.
    apply elem_of_cons in Ha as [->|Ha]; apply elem_of_cons in Hb' as [->|Hb']; auto.
    + apply Hr. set_solver.
    + apply Hb; set_solver.
  - split; [done|]. split; [simpl in *; lia|]. exists (x :: rest).
    split; [by rewrite Hp, Permutation_middle|].
    intros a b Ha Hb'. apply elem_of_cons in Hb' as [->|Hb']; [|by apply Hb].
    apply (wltb_neg_trans x r a); [done|]. by apply Hr.
Qed.

Lemma scan_fold_ok k candidates seen h :
  0 < k → scan_ok k seen h → scan_ok k (rev candidates ++ seen) (foldl (heap_offer k) h candidates).
Proof.
  intros Hk. revert seen h. induction candidates as [|x l IH]; intros seen h Hs; [done|].
  simpl. rewrite <-app_assoc. apply IH. by apply heap_offer_ok.
Qed.

(** ** The insertion sort *)

Lemma ordered_snoc l x : ordered better l → (∀ y, y ∈ l → better x y = false) → ordered better (l ++ [x]).
Proof.
  unfold ordered. induction 1 as [|y l Hl IH Hy]; intros Hx; simpl; [repeat constructor|].
  constructor; [apply IH; set_solver|]. apply Forall_app. split; [done|].
  apply Forall_singleton. set_solver.
Qed.

Lemma ordered_snoc_inv l x : ordered better (l ++ [x]) → ordered better l ∧ ∀ y, y ∈ l → better x y = false.
Proof.
  induction l as [|y l IH]; simpl; intros Ho.
  { split; [constructor|]. intros y []%not_elem_of_nil. }
  inversion Ho as [|?? Ho' Hy]; subst. destruct (IH Ho') as [Hl Hx].
  apply Forall_app in Hy as [Hyl Hyx]. rewrite Forall_singleton in Hyx.
  split; [by constructor|]. intros z [->|Hz]%elem_of_cons; auto.
Qed.

Lemma shift_insert_ok pre suf x c :
  ordered better pre →
  ∃ pre', shift_insert (pre ++ x :: suf) c (length pre) = pre' ++ suf ∧ pre' ≡ₚ c :: pre ∧ ordered better pre'.
Proof.
  revert suf x. induction pre as [|y pre IH] using rev_ind; intros suf x Ho.
  { exists [c]. split; [done|]. split; [done|repeat constructor]. }
  destruct (ordered_snoc_inv _ _ Ho) as [Hop Hy].
  rewrite length_app, Nat.add_1_r. cbn [shift_insert].
  rewrite <-app_assoc. change ([y] ++ x :: suf) with (y :: x :: suf). rewrite list_lookup_middle by done.
  assert (∀ z, <[S (length pre) := z]> (pre ++ y :: x :: suf) = pre ++ y :: z :: suf) as Hins.
  { intros z. rewrite insert_app_r_alt by lia. by replace (S (length pre) - length pre) with 1 by lia. }
  rewrite !Hins. destruct (better c y) eqn:E.
  - destruct (IH (y :: suf) y Hop) as (pre'&Heq&Hp&Ho'). exists (pre' ++ [y]).
    split; [by rewrite Heq, <-app_assoc|]. split; [by rewrite Hp|].
    apply ordered_snoc; [done|]. intros z. rewrite Hp. intros [->|Hz]%elem_of_cons; [by apply weak_asym|auto].
  - exists (pre ++ [y; c]). split; [by rewrite <-app_assoc|].
    split; [rewrite (Permutation_app_comm pre [y; c]); simpl; rewrite Permutation_swap, (Permutation_app_comm pre [y]); done|].
    replace (pre ++ [y; c]) with ((pre ++ [y]) ++ [c]) by (by rewrite <-app_assoc). apply ordered_snoc; [done|].
    intros z [Hz| ->%list_elem_of_singleton]%elem_of_app; [|done]. apply (wltb_neg_trans c y z); auto.
Qed.

Lemma insertion_loop_ok n pre suf :
  ordered better pre → length suf = n →
  let r := foldl (λ h position, match h !! position with
                                | Some candidate => shift_insert h candidate position
                                | None => h
                                end) (pre ++ suf) (seq (length pre) n) in
  r ≡ₚ pre ++ suf ∧ ordered better r.
Proof.
  revert pre suf. induction n as [|n IH]; intros pre suf Ho Hn.
  { destruct suf; [|done]. by rewrite app_nil_r. }
  destruct suf as [|x suf]; [done|]. cbn [seq foldl]. rewrite list_lookup_middle by done.
  destruct (shift_insert_ok pre suf x x Ho) as (pre'&Heq&Hp&Ho'). rewrite Heq.
  injection Hn as Hn. specialize (IH pre' suf Ho' Hn) as IH.
  replace (length pre') with (S (length pre)) in IH by (by rewrite Hp).
  destruct IH as [IHp IHo]. split; [|done]. rewrite IHp, Hp. apply Permutation_middle.
Qed.

Lemma insertion_sort_ok h : insertion_sort h ≡ₚ h ∧ ordered better (insertion_sort h).
Proof.
  unfold insertion_sort. destruct h as [|x h]; [split; [done|constructor]|].
  apply (insertion_loop_ok _ [x] h); [repeat constructor|simpl; lia].
Qed.

(** The heap selection keeps its promise. *)
Lemma heap_select_top_k k l : 0 < k → top_k k l (heap_select k l).
Proof.
  intros Hk. unfold heap_select.
  destruct (scan_fold_ok k l [] [] Hk) as [_ (Hlen&rest&Hp&Hb)].
  { split; [intros i c p _ Hc; by rewrite lookup_nil in Hc|].
    split; [simpl; lia|]. exists []. split; [done|]. intros a b []%not_elem_of_nil. }
  rewrite app_nil_r in Hlen, Hp. rewrite length_rev in Hlen.
  destruct (insertion_sort_ok (foldl (heap_offer k) [] l)) as [Hsp Hso].
  split; [done|]. split; [by rewrite Hsp|]. exists rest. split; [rewrite Hsp, <-Hp; apply Permutation_rev|].
  intros a b. rewrite Hsp. auto.
Qed.

End Heap.

(** ** Selections of selections *)

Lemma length_filter_le {A} (f : A → bool) (l : list A) : length (List.filter f l) ≤ length l.
Proof. induction l as [|x l IH]; simpl; [lia|]. destruct (f x); simpl; lia. Qed.

Lemma length_filter_lt {A} (f : A → bool) (l : list A) x :
  x ∈ l → f x = false → length (List.filter f l) < length l.
Proof.
  induction l as [|y l IH]; intros Hx Hf; [by apply not_elem_of_nil in Hx|]. simpl.
  pose proof (length_filter_le f l). apply elem_of_cons in Hx as [->|Hx]; [rewrite Hf; lia|].
  specialize (IH Hx Hf). destruct (f y); simpl; lia.
Qed.

Lemma filter_all {A} (f : A → bool) (l : list A) : (∀ x, x ∈ l → f x = true) → List.filter f l = l.
Proof.
  induction l as [|x l IH]; intros H; [done|]. simpl. rewrite H by apply list_elem_of_here.
  f_equal. apply IH. intros y Hy. apply H. by apply list_elem_of_further.
Qed.

Lemma filter_none {A} (f : A → bool) (l : list A) : (∀ x, x ∈ l → f x = false) → List.filter f l = [].
Proof.
  induction l as [|x l IH]; intros H; [done|]. simpl. rewrite H by apply list_elem_of_here.
  apply IH. intros y Hy. apply H. by apply list_elem_of_further.
Qed.

Lemma filter_perm {A} (f : A → bool) (l k : list A) : l ≡ₚ k → List.filter f l ≡ₚ List.filter f k.
Proof.
  induction 1 as [|x l k H IH|x y l|l k m H1 IH1 H2 IH2]; simpl.
  - done.
  - destruct (f x); [by constructor|done].
  - destruct (f x), (f y); try done. apply Permutation_swap.
  - by etransitivity.
Qed.

#[global] Instance filter_proper {A} (f : A → bool) :
  Proper (@Permutation A ==> @Permutation A) (List.filter f).
Proof. intros l k. apply filter_perm. Qed.

(** A best-[k] set under a finer order is one under a coarser order. *)
Lemma top_set_coarser {A} (fine coarse : A → A → bool) k l R :
  (∀ x y, coarse y x = true → fine y x = true) → top_set fine k l R → top_set coarse k l R.
Proof.
  intros H (Hl&rest&Hp&Hb). split; [done|]. exists rest. split; [done|]. intros x y Hx Hy.
  destruct (coarse y x) eqn:E; [|done]. apply H in E. rewrite <-E. by apply Hb.
Qed.

Lemma top_set_fmap {A B} (f : A → B) (better : B → B → bool) k (l R : list A) :
  top_set (by_key better f) k l R → top_set better k (f <$> l) (f <$> R).
Proof.
  intros (Hl&rest&Hp&Hb). split; [by rewrite !length_fmap|].
  exists (f <$> rest). split; [by rewrite Hp, fmap_app|].
  intros x y (a&->&Ha)%list_elem_of_fmap (b&->&Hb')%list_elem_of_fmap. by apply Hb.
Qed.

(** Whatever was left out of a part of the input is beaten by what the
    merge keeps: were it not, the [k] survivors of that part would all be
    strictly better than something kept, one too many. *)
Lemma merge_left_out {A} (better : A → A → bool) `{!WeakOrderB better} k l1 (R1 l2 R rest : list A) x y :
  top_set better k l1 R1 → R1 ++ l2 ≡ₚ R ++ rest → length R ≤ k →
  (∀ a b, a ∈ R → b ∈ rest → better b a = false) →
  x ∈ R → y ∈ l1 → (∀ a, a ∈ R1 → better y a = false) → length R1 = k → better y x = false.
Proof.
  intros _ Hp Hk Hb Hx Hy Hy1 HR1. destruct (better y x) eqn:E; [exfalso|done].
  assert (∀ z, z ∈ R1 → better z x = true) as Hz.
  { intros z Hz. destruct (better z x) eqn:E2; [done|].
    rewrite (wltb_neg_trans y z x) in E; [done|auto|done]. }
  pose proof (filter_perm (λ z, better z x) _ _ Hp) as Hf. rewrite !List.filter_app in Hf.
  rewrite (filter_all _ R1 Hz), (filter_none _ rest), app_nil_r in Hf by auto.
  pose proof (length_filter_lt (λ z, better z x) R x Hx (wltb_irrefl x)) as Hlt.
  apply Permutation_length in Hf. rewrite length_app in Hf. lia.
Qed.

Lemma top_set_merge {A} (better : A → A → bool) `{!WeakOrderB better} k (l1 R1 l2 R2 R : list A) :
  top_set better k l1 R1 → top_set better k l2 R2 → top_set better k (R1 ++ R2) R →
  top_set better k (l1 ++ l2) R.
Proof.
  intros H1 H2 (HlR&rest&Hp&Hb). pose proof H1 as (Hl1&rest1&Hp1&Hb1). pose proof H2 as (Hl2&rest2&Hp2&Hb2).
  rewrite length_app in HlR. split; [rewrite length_app; lia|]. exists (rest ++ rest1 ++ rest2). split.
  { rewrite Hp1, Hp2. rewrite !(assoc_L (++)), <-Hp. rewrite <-!(assoc_L (++)).
    apply Permutation_app_head. rewrite !(assoc_L (++)). apply Permutation_app_tail, Permutation_app_comm. }
  assert (length l1 = length R1 + length rest1) as E1 by (by rewrite Hp1, length_app).
  assert (length l2 = length R2 + length rest2) as E2 by (by rewrite Hp2, length_app).
  intros x y Hx [Hy|[Hy|Hy]%elem_of_app]%elem_of_app; [by apply Hb| |].
  - apply (merge_left_out better k l1 R1 R2 R rest); auto; try lia.
    + rewrite Hp1. set_solver.
    + destruct rest1; [by apply not_elem_of_nil in Hy|simpl in *; lia].
  - apply (merge_left_out better k l2 R2 R1 R rest); auto; try lia.
    + by rewrite (Permutation_app_comm R2 R1).
    + rewrite Hp2. set_solver.
    + destruct rest2; [by apply not_elem_of_nil in Hy|simpl in *; lia].
Qed.

#[global] Instance top_set_proper {A} (better : A → A → bool) k :
  Proper (@Permutation A ==> eq ==> iff) (top_set better k).
Proof.
  intros l l' Hl R _ <-. unfold top_set. rewrite Hl.
  split; intros (H&rest&Hp&Hb); (split; [done|]); exists rest; (split; [|done]); by rewrite <-Hp.
Qed.

(** Replacing a part of the input by a selection from it. *)
Lemma top_set_extend {A} (better : A → A → bool) `{!WeakOrderB better} k (l1 R1 l2 R : list A) :
  top_set better k l1 R1 → top_set better k (R1 ++ l2) R → top_set better k (l1 ++ l2) R.
Proof.
  intros H1 (HlR&rest&Hp&Hb). pose proof H1 as (Hl1&rest1&Hp1&Hb1).
  assert (length l1 = length R1 + length rest1) as E1 by (by rewrite Hp1, length_app).
  rewrite length_app in HlR. split; [rewrite length_app; lia|]. exists (rest ++ rest1). split.
  { rewrite (assoc_L (++)), <-Hp, Hp1, <-!(assoc_L (++)). apply Permutation_app_head, Permutation_app_comm. }
  intros x y Hx [Hy|Hy]%elem_of_app; [by apply Hb|].
  apply (merge_left_out better k l1 R1 l2 R rest); auto; try lia.
  - rewrite Hp1. set_solver.
  - destruct rest1; [by apply not_elem_of_nil in Hy|simpl in *; lia].
Qed.

Lemma top_set_concat {A} (better : A → A → bool) `{!WeakOrderB better} k (ls Rs : list (list A)) R :
  Forall2 (top_set better k) ls Rs → top_set better k (concat Rs) R → top_set better k (concat ls) R.
Proof.
  intros HF. cut (∀ pre, top_set better k (concat Rs ++ pre) R → top_set better k (concat ls ++ pre) R).
  { intros H. specialize (H []). by rewrite !app_nil_r in H. }
  induction HF as [|l1 R1 ls Rs H1 HF IH]; intros pre H; [done|]. simpl in *.
  rewrite <-(assoc_L (++)) in H. pose proof (top_set_extend better k _ _ _ _ H1 H) as H2.
  rewrite (Permutation_app_comm l1 (concat ls)), <-(assoc_L (++)). apply IH.
  by rewrite (assoc_L (++)), (Permutation_app_comm (concat Rs) l1), <-(assoc_L (++)).
Qed.

Lemma top_set_nil {A} (better : A → A → bool) k : top_set better k [] [].
Proof. split; [simpl; lia|]. exists []. split; [done|]. intros x y _ []%not_elem_of_nil. Qed.

(** A sorted list cut to its first [k] elements is a selection too. *)
Lemma sort_take_top_k {A} (better : A → A → bool) `{!WeakOrderB better} k (l : list A) :
  top_k better k l (take k (sort_slice better l)).
Proof.
  pose proof (sort_slice_ordered better l) as Ho. pose proof (sort_slice_perm better l) as Hp.
  assert (length (sort_slice better l) = length l) as Hl by (by rewrite Hp).
  rewrite <-(take_drop k (sort_slice better l)) in Ho, Hp.
  split; [|split].
  - unfold ordered in *. eapply StronglySorted_app_1_l. exact Ho.
  - rewrite length_take. lia.
  - exists (drop k (sort_slice better l)). split; [by symmetry|].
    intros x y Hx Hy. exact (StronglySorted_app_1_elem_of _ _ _ x y Ho Hx Hy).
Qed.

(** When no two elements share a key there is one selection: the sorted
    input cut to its first [k] elements. *)
Lemma top_k_unique {A K} (ltb : K → K → bool) `{!StrictOrderB ltb} (f : A → K) k (l R : list A) :
  NoDup (f <$> l) → top_k (by_key ltb f) k l R → R = take k (sort_slice (by_key ltb f) l).
Proof.
  intros Hnd [Ho (Hl&rest&Hp&Hb)].
  assert (WeakOrderB (by_key ltb f)) as HW by (apply by_key_weak, strict_weak; done).
  assert (sort_slice (by_key ltb f) l = R ++ sort_slice (by_key ltb f) rest) as E.
  { apply (ordered_unique_key ltb f).
    - by rewrite sort_slice_perm.
    - by apply sort_slice_ordered.
    - unfold ordered. apply StronglySorted_app_2; [|done|by apply sort_slice_ordered].
      intros x y Hx Hy. apply (Hb x y Hx). by apply (sort_slice_elem (by_key ltb f)).
    - by rewrite !sort_slice_perm. }
  rewrite E. assert (length l = length R + length rest) as Hlen by (by rewrite Hp, length_app).
  destruct (decide (k ≤ length l)) as [Hk|Hk].
  - rewrite take_app_length'; [done|lia].
  - destruct rest; [|simpl in Hlen; lia]. simpl. rewrite app_nil_r, take_ge; [done|lia].
Qed.

(** The heap looks only at pairs of its own elements. *)
Section HeapExt.
Context {A : Type} (b1 b2 : A → A → bool) (P : A → Prop).
Context (agree : ∀ x y, P x → P y → b1 x y = b2 x y).

Local Abbreviation all h := (∀ x, x ∈ h → P x) (only parsing).

Lemma sift_up_ext fuel h position : all h → sift_up b1 fuel h position = sift_up b2 fuel h position.
Proof.
  revert h position. induction fuel as [|fuel IH]; intros h position Hh; [done|]. cbn [sift_up].
  destruct (position =? 0); [done|]. cbv zeta.
  destruct (h !! position) as [c|] eqn:Hc; [|done]. destruct (h !! parent_of position) as [p|] eqn:Hp; [|done].
  unfold worse. rewrite agree by eauto using list_elem_of_lookup_2. destruct (negb _); [done|].
  apply IH. intros x. rewrite swap_perm. auto.
Qed.

Lemma worst_child_ext h position : all h → worst_child b1 h position = worst_child b2 h position.
Proof.
  intros Hh. unfold worst_child. destruct (_ <=? _); [done|].
  destruct (h !! (position * 2 + 1)) as [l|] eqn:Hl; [|done].
  destruct (h !! (position * 2 + 1 + 1)) as [r|] eqn:Hr; [|done].
  unfold worse. by rewrite agree by eauto using list_elem_of_lookup_2.
Qed.

Lemma sift_down_ext fuel h position : all h → sift_down b1 fuel h position = sift_down b2 fuel h position.
Proof.
  revert h position. induction fuel as [|fuel IH]; intros h position Hh; [done|]. cbn [sift_down].
  rewrite worst_child_ext by done. destruct (worst_child b2 h position) as [w|]; [|done].
  destruct (h !! w) as [c|] eqn:Hc; [|done]. destruct (h !! position) as [p|] eqn:Hp; [|done].
  unfold worse. rewrite agree by eauto using list_elem_of_lookup_2. destruct (negb _); [done|].
  apply IH. intros x. rewrite swap_perm. auto.
Qed.

Lemma heap_offer_ext k h x : all (x :: h) → heap_offer b1 k h x = heap_offer b2 k h x.
Proof.
  intros Hh. unfold heap_offer. destruct (_ <? _).
  - apply sift_up_ext. intros y. rewrite Permutation_app_comm. auto.
  - destruct h as [|r h]; [done|]. cbn [lookup list_lookup].
    rewrite agree by (apply Hh; set_solver). destruct (b2 x r); [|done].
    unfold heap_fix. cbn [insert list_insert]. apply sift_down_ext. intros y Hy. apply Hh. set_solver.
Qed.

Lemma heap_offer_elem k h x y : y ∈ heap_offer b2 k h x → y ∈ x :: h.
Proof.
  unfold heap_offer. destruct (_ <? _); [by rewrite heap_push_perm|].
  destruct h as [|r h]; [intros []%not_elem_of_nil|]. cbn [lookup list_lookup].
  destruct (b2 x r); [rewrite heap_fix_perm; cbn [insert list_insert]|]; set_solver.
Qed.

Lemma elem_of_insert (h : list A) n x y : y ∈ <[n := x]> h → y = x ∨ y ∈ h.
Proof.
  intros [i Hi]%list_elem_of_lookup. apply list_lookup_insert_Some in Hi as [(_&->&_)|(_&Hi)]; [by left|].
  right. by apply list_elem_of_lookup_2 in Hi.
Qed.

Lemma shift_insert_elem h c n y : y ∈ shift_insert b2 h c n → y ∈ c :: h.
Proof.
  revert h. induction n as [|n IH]; intros h; cbn [shift_insert].
  { intros [->|?]%elem_of_insert; set_solver. }
  destruct (h !! n) as [z|] eqn:Hz; [|set_solver]. apply list_elem_of_lookup_2 in Hz.
  destruct (b2 c z); [|intros [->|?]%elem_of_insert; set_solver].
  intros [->|[->|?]%elem_of_insert]%IH%elem_of_cons; set_solver.
Qed.

Lemma shift_insert_ext h c n : P c → all h → shift_insert b1 h c n = shift_insert b2 h c n.
Proof.
  intros Hc. revert h. induction n as [|n IH]; intros h Hh; [done|]. cbn [shift_insert].
  destruct (h !! n) as [y|] eqn:Hy; [|done].
  assert (P y) by eauto using list_elem_of_lookup_2.
  rewrite agree by done. destruct (b2 c y); [|done]. apply IH.
  intros x [->|?]%elem_of_insert; auto.
Qed.

Lemma insertion_sort_ext h : all h → insertion_sort b1 h = insertion_sort b2 h.
Proof.
  unfold insertion_sort. generalize (seq 1 (length h - 1)) as l. intros l. revert h.
  induction l as [|n l IH]; intros h Hh; [done|]. simpl.
  destruct (h !! n) as [c|] eqn:Hc; [|auto].
  assert (P c) by eauto using list_elem_of_lookup_2.
  rewrite shift_insert_ext by done. apply IH.
  intros x Hx%shift_insert_elem. set_solver.
Qed.

Lemma scan_ext k l h :
  all (l ++ h) → foldl (heap_offer b1 k) h l = foldl (heap_offer b2 k) h l ∧ all (foldl (heap_offer b2 k) h l).
Proof.
  revert h. induction l as [|x l IH]; intros h Hh; [done|]. simpl.
  rewrite heap_offer_ext by (intros y Hy; apply Hh; set_solver).
  apply IH. intros y [Hy|Hy%heap_offer_elem]%elem_of_app; apply Hh; set_solver.
Qed.

Lemma heap_select_ext k l : all l → heap_select b1 k l = heap_select b2 k l.
Proof.
  intros Hl. unfold heap_select. destruct (scan_ext k l []) as [-> Ha]; [by rewrite app_nil_r|].
  by apply insertion_sort_ext.
Qed.

Lemma ordered_ext (l : list A) : all l → ordered b1 l → ordered b2 l.
Proof.
  intros Hl Ho. revert Hl. induction Ho as [|x l Ho IH Hx]; intros Hl; constructor.
  - apply IH. set_solver.
  - rewrite Forall_forall in Hx |- *. intros y Hy. rewrite <-agree; [by apply Hx|apply Hl; set_solver..].
Qed.

Lemma top_set_ext k (l R : list A) : all l → top_set b1 k l R → top_set b2 k l R.
Proof.
  intros Hl (Hlen&rest&Hp&Hb). split; [done|]. exists rest. split; [done|]. intros x y Hx Hy.
  rewrite <-agree; [by apply Hb|apply Hl; rewrite Hp; set_solver..].
Qed.
End HeapExt.

Lemma sort_slice_ext {A} (b1 b2 : A → A → bool) (l : list A) :
  (∀ x y, x ∈ l → y ∈ l → b1 x y = b2 x y) → sort_slice b1 l = sort_slice b2 l.
Proof.
  assert (∀ x k, (∀ y, y ∈ k → b1 y x = b2 y x) → sort_insert b1 x k = sort_insert b2 x k) as Hins.
  { intros x k. induction k as [|y k IH]; intros H; [done|]. cbn [sort_insert].
    rewrite H by apply list_elem_of_here. destruct (b2 y x); [|done]. f_equal.
    apply IH. intros z Hz. apply H. by apply list_elem_of_further. }
  induction l as [|x l IH]; intros H; [done|]. cbn [sort_slice].
  rewrite IH by (intros; apply H; by apply list_elem_of_further). apply Hins.
  intros y Hy. rewrite sort_slice_elem in Hy. apply H; [by apply list_elem_of_further|apply list_elem_of_here].
Qed.
