(* ===== verification/Index.v ===== *)
(** * The vector index contract

    [internal/index/index.go]: the interface every vector index implements
    and segments are written against.  [VectorIndex] is the operations,
    [VectorIndexSpec] what they promise (an index is a finite map from
    ordinals to vectors), [ExactIndex] what an exhaustive search promises on
    top.  [Flat.v] discharges both. *)
From Stdlib Require Import ZArith Lia Ascii String.
From stdpp Require Import base tactics list gmap strings.
From S2P Require Import Prelude Core Distance TopK.
Local Open Scope string_scope.
Local Open Scope Z_scope.
Local Open Scope list_scope.

Record Candidate : Set := mkCandidate { CandID : Z; CandScore : Z }.

#[global] Instance Candidate_eq_dec : EqDecision Candidate.
Proof. solve_decision. Defined.

Record SearchOptions : Type := mkSearchOptions {
  EFSearch_ : Z;
  Allowed : Z → bool;
  AllowedCount : Z;
}.

Record Config : Set := mkIndexConfig {
  cfg_Dimension : Z;
  cfg_Metric : string;
  cfg_M : Z;
  cfg_EFConstruction : Z;
  cfg_EFSearch : Z;
}.

(** The Go interface; [vi_SearchWithOptions] is present when the index also
    implements [TunableVectorIndex].  A nil [allowed] is [None]. *)
Class VectorIndex (I : Type) := {
  vi_Upsert : I → Z → list Z → res I;
  vi_Delete : I → Z → res I;
  vi_SearchFiltered : I → list Z → Z → option (Z → bool) → res (list Candidate);
  vi_Len : I → Z;
  vi_SearchWithOptions : option (I → list Z → Z → SearchOptions → res (list Candidate));
}.

(** What the operations promise: the index is a map from nonzero ids to
    vectors of one dimension.  [vi_inv] is the invariant of an index that can
    be changed, [vi_readable] what reading one needs; sealed indexes are only
    readable. *)
Class VectorIndexSpec (I : Type) `{VectorIndex I} := {
  vi_inv : I → Prop;
  vi_dimension : I → Z;
  vi_metric : I → string;
  vi_contents : I → gmap Z (list Z);
  vi_readable : I → Prop;
  vi_inv_readable s : vi_inv s → vi_readable s;
  vi_upsert_ok s id v :
    vi_inv s → id ≠ 0 → len v = vi_dimension s →
    ∃ s', vi_Upsert s id v = Ok s' ∧ vi_inv s' ∧ vi_dimension s' = vi_dimension s ∧
          vi_metric s' = vi_metric s ∧ vi_contents s' = <[id := v]> (vi_contents s);
  vi_upsert_mismatch s id v :
    vi_inv s → len v ≠ vi_dimension s → vi_Upsert s id v = Err (Sentinel ErrDimensionMismatch);
  vi_delete_ok s id v :
    vi_inv s → vi_contents s !! id = Some v →
    ∃ s', vi_Delete s id = Ok s' ∧ vi_inv s' ∧ vi_dimension s' = vi_dimension s ∧
          vi_metric s' = vi_metric s ∧ vi_contents s' = delete id (vi_contents s);
  vi_delete_missing s id :
    vi_inv s → vi_contents s !! id = None → vi_Delete s id = Err (Sentinel ErrNotFound);
  vi_len_size s : vi_readable s → vi_Len s = Z.of_nat (size (vi_contents s));
}.

(** ** The order of candidates *)

Definition better (a b : Candidate) : bool :=
  f32_ltb (CandScore b) (CandScore a)
  || (f32_eqb (CandScore a) (CandScore b) && (CandID a <? CandID b)).

(** Higher scores first, ties by the smaller id: a strict total order on the
    keys, which [better] follows wherever no score is NaN. *)
Definition cand_key (c : Candidate) : Z * Z := (f32_ord (CandScore c), CandID c).
Definition cand_key_ltb (a b : Z * Z) : bool := (b.1 <? a.1) || ((a.1 =? b.1) && (a.2 <? b.2)).

#[global] Instance cand_key_strict : StrictOrderB cand_key_ltb.
Proof.
  unfold cand_key_ltb. split.
  - intros [a i]. simpl. rewrite Z.ltb_irrefl, Z.ltb_irrefl, andb_false_r. done.
  - intros [a i] [b j] [c k]; simpl. intros H1 H2. bool_props.
    apply orb_true_iff. destruct H1 as [H1|H1], H2 as [H2|H2]; bool_props;
      [left; apply Z.ltb_lt; lia|left; apply Z.ltb_lt; lia|left; apply Z.ltb_lt; lia|right].
    apply andb_true_iff. split; [apply Z.eqb_eq|apply Z.ltb_lt]; lia.
  - intros [a i] [b j]; simpl. intros H1 H2. bool_props.
    assert (a = b) as -> by lia. rewrite Z.eqb_refl in *. simpl in *.
    repeat match goal with H : _ ∨ _ |- _ => destruct H end; bool_props; try done. f_equal. lia.
Qed.

#[global] Instance cand_key_weak : WeakOrderB (by_key cand_key_ltb cand_key).
Proof. apply by_key_weak, strict_weak, _. Qed.

Definition comparable (score : Z) : Prop := f32_is_nan score = false.

Lemma better_by_key a b :
  comparable (CandScore a) → comparable (CandScore b) → better a b = by_key cand_key_ltb cand_key a b.
Proof.
  unfold comparable, better, by_key, cand_key_ltb, cand_key, f32_ltb, f32_eqb. simpl.
  intros -> ->. simpl. done.
Qed.

(** The candidates an exhaustive scan considers. *)
Definition scored (score : list Z → Z) (allowed : Z → bool) (contents : gmap Z (list Z)) : list Candidate :=
  (λ '(id, v), mkCandidate id (score v)) <$> filter (λ '(id, _), allowed id = true) (map_to_list contents).

Definition allows (allowed : option (Z → bool)) (id : Z) : bool :=
  match allowed with Some f => f id | None => true end.

(** What an exact search adds: among the allowed vectors with comparable
    scores, precisely the best [k], best first. *)
Class ExactIndex (I : Type) `{VectorIndexSpec I} := {
  vi_not_tunable : vi_SearchWithOptions (I := I) = None;
  vi_search_exact s query k allowed :
    vi_readable s → len query = vi_dimension s → 0 < k →
    let candidates := scored (score_of (vi_metric s) query) (allows allowed) (vi_contents s) in
    (∀ c, c ∈ candidates → comparable (CandScore c)) →
    vi_SearchFiltered s query k allowed =
      Ok (take (Z.to_nat k) (sort_slice (by_key cand_key_ltb cand_key) candidates));
}.

Lemma scored_nodup score allowed contents : NoDup (cand_key <$> scored score allowed contents).
Proof.
  unfold scored. rewrite <-list_fmap_compose.
  apply NoDup_fmap_2_strong.
  - intros [i v] [j w] [_ Hi]%list_elem_of_filter [_ Hj]%list_elem_of_filter. simpl. intros [= _ ->].
    apply elem_of_map_to_list in Hi, Hj. congruence.
  - apply NoDup_filter, NoDup_map_to_list.
Qed.

Lemma scored_elem score allowed contents c :
  c ∈ scored score allowed contents ↔
  ∃ v, contents !! CandID c = Some v ∧ allowed (CandID c) = true ∧ CandScore c = score v.
Proof.
  unfold scored. rewrite list_elem_of_fmap. split.
  - intros ([id v]&->&[Ha Hin]%list_elem_of_filter). apply elem_of_map_to_list in Hin. simpl. eauto.
  - intros (v&Hv&Ha&Hs). exists (CandID c, v). destruct c as [id s]; simpl in *. subst.
    split; [done|]. apply list_elem_of_filter. split; [done|]. by apply elem_of_map_to_list.
Qed.

(** The bounded heap over candidates with comparable scores. *)
Lemma select_candidates k (l : list Candidate) :
  (0 < k)%nat → (∀ c, c ∈ l → comparable (CandScore c)) → NoDup (cand_key <$> l) →
  heap_select better k l = take k (sort_slice (by_key cand_key_ltb cand_key) l).
Proof.
  intros Hk Hc Hnd.
  rewrite (heap_select_ext better (by_key cand_key_ltb cand_key) (λ c, comparable (CandScore c))
    (λ x y, better_by_key x y) k l Hc).
  apply (top_k_unique cand_key_ltb cand_key); [done|]. apply heap_select_top_k; [apply _|done].
Qed.
