(* ===== verification/Flat.v ===== *)
(** * The exact index

    [internal/index/flat/flat.go]: vectors stored contiguously, ids mapped to
    ordinals, deleted ordinals reused.  The proofs show it is an instance of
    the index contract: a finite map under [Upsert] and [Delete], and a
    search that returns exactly the best candidates. *)
From Stdlib Require Import ZArith Lia Ascii String.
From stdpp Require Import base tactics list gmap strings.
From S2P Require Import Prelude Core Distance TopK Index.
Local Open Scope string_scope.
Local Open Scope Z_scope.
Local Open Scope list_scope.
Local Set Warnings "-clear-no-such-hyp".

Module Flat.

Record t : Set := mk {
  dimension : Z;
  metric : string;
  vectors : list Z;
  ids : list Z;
  ordinals : gmap Z nat;
  free : list nat;
}.

Definition New (cfg : Config) : res t :=
  if (cfg_Dimension cfg <=? 0) || negb (Metric_Valid (cfg_Metric cfg)) then
    invalid "invalid flat index configuration"
  else Ok (mk (cfg_Dimension cfg) (cfg_Metric cfg) [] [] ∅ []).

(** The slot of an ordinal: where it starts, its elements, and the backing
    array after they are overwritten. *)
Definition start_of (f : t) (ordinal : nat) : nat := ordinal * Z.to_nat (dimension f).

Definition vectorAt (f : t) (ordinal : nat) : list Z :=
  take (Z.to_nat (dimension f)) (drop (start_of f ordinal) (vectors f)).

Definition copy_at (f : t) (ordinal : nat) (vector : list Z) : list Z :=
  take (start_of f ordinal) (vectors f) ++ vector ++
  drop (start_of f ordinal + Z.to_nat (dimension f)) (vectors f).

Definition Upsert (f : t) (id : Z) (vector : list Z) : res t :=
  if negb (len vector =? dimension f) then Err (Sentinel ErrDimensionMismatch)
  else
    match ordinals f !! id with
    | Some ordinal =>
        Ok (mk (dimension f) (metric f) (copy_at f ordinal vector) (ids f) (ordinals f) (free f))
    | None =>
        match last (free f) with
        | Some ordinal =>
            Ok (mk (dimension f) (metric f) (copy_at f ordinal vector) (<[ordinal := id]> (ids f))
                  (<[id := ordinal]> (ordinals f)) (take (length (free f) - 1) (free f)))
        | None =>
            Ok (mk (dimension f) (metric f) (vectors f ++ vector) (ids f ++ [id])
                  (<[id := length (ids f)]> (ordinals f)) (free f))
        end
    end.

Definition Delete (f : t) (id : Z) : res t :=
  match ordinals f !! id with
  | None => Err (Sentinel ErrNotFound)
  | Some ordinal =>
      Ok (mk (dimension f) (metric f) (copy_at f ordinal (replicate (Z.to_nat (dimension f)) 0))
            (<[ordinal := 0]> (ids f)) (delete id (ordinals f)) (free f ++ [ordinal]))
  end.

(** The scan over live ordinals. *)
Fixpoint scan (f : t) (query : list Z) (querySquaredNorm : Z) (k : nat) (allowed : option (Z → bool))
    (entries : list (nat * Z)) (h : list Candidate) : res (list Candidate) :=
  match entries with
  | [] => Ok h
  | (ordinal, id) :: rest =>
      if (id =? 0) || negb (allows allowed id) then scan f query querySquaredNorm k allowed rest h
      else
        let! score := ScoreWithQuerySquaredNorm (metric f) query querySquaredNorm (vectorAt f ordinal) in
        scan f query querySquaredNorm k allowed rest (heap_offer better k h (mkCandidate id score))
  end.

Definition SearchFiltered (f : t) (query : list Z) (k : Z) (allowed : option (Z → bool)) : res (list Candidate) :=
  if negb (len query =? dimension f) then Err (Sentinel ErrDimensionMismatch)
  else if k <=? 0 then invalid "k must be positive"
  else
    let querySquaredNorm := if String.eqb (metric f) MetricCosine then SquaredNorm query else f32_zero in
    let! h := scan f query querySquaredNorm (Z.to_nat k) allowed (imap pair (ids f)) [] in
    Ok (insertion_sort better h).

Definition Len (f : t) : Z := Z.of_nat (size (ordinals f)).

Record Stats_t : Set := mkStats { st_Type : string; st_Vectors : Z; st_VectorBytes : Z }.

Definition Stats (f : t) : Stats_t :=
  mkStats IndexFlat (Z.of_nat (size (ordinals f))) (u64 (len (vectors f) * 4)).

(** ** The representation *)

Definition contents (f : t) : gmap Z (list Z) := vectorAt f <$> ordinals f.

Record inv (f : t) : Prop := mkInv {
  inv_dimension : 0 < dimension f;
  inv_metric : Metric_Valid (metric f) = true;
  inv_length : length (vectors f) = (length (ids f) * Z.to_nat (dimension f))%nat;
  inv_ordinal id o : ordinals f !! id = Some o ↔ ids f !! o = Some id ∧ id ≠ 0;
  inv_free o : o ∈ free f ↔ ids f !! o = Some 0;
  inv_free_nodup : NoDup (free f);
}.

Local Abbreviation score f := (score_of (metric f)) (only parsing).

#[global] Instance flat_index : VectorIndex t := {|
  vi_Upsert := Upsert;
  vi_Delete := Delete;
  vi_SearchFiltered := SearchFiltered;
  vi_Len := Len;
  vi_SearchWithOptions := None;
|}.

(** ** Slots *)

Section Slots.
Context (f : t) (n : nat) (Hlen : length (vectors f) = (n * Z.to_nat (dimension f))%nat).

Lemma length_vectorAt o : (o < n)%nat → length (vectorAt f o) = Z.to_nat (dimension f).
Proof. intros Ho. unfold vectorAt, start_of. rewrite length_take, length_drop. nia. Qed.

Lemma length_copy_at o v : (o < n)%nat → length v = Z.to_nat (dimension f) → length (copy_at f o v) = length (vectors f).
Proof.
  intros Ho Hv. unfold copy_at, start_of. rewrite !length_app, length_take, length_drop. nia.
Qed.

Lemma read_slot vs o : length vs = length (vectors f) →
  ∀ m md i fr, vectorAt (mk (dimension f) m vs i md fr) o = take (Z.to_nat (dimension f)) (drop (o * Z.to_nat (dimension f)) vs).
Proof. done. Qed.

Lemma read_copy o o' v : (o < n)%nat → length v = Z.to_nat (dimension f) → (o' < n)%nat →
  take (Z.to_nat (dimension f)) (drop (o' * Z.to_nat (dimension f)) (copy_at f o v)) =
    if decide (o' = o) then v else vectorAt f o'.
Proof.
  intros Ho Hv Ho'. unfold vectorAt, copy_at, start_of. set (d := Z.to_nat (dimension f)) in *.
  destruct (decide (o' = o)) as [->|Hne].
  - rewrite drop_app_length' by (rewrite length_take; nia). by rewrite take_app_length'.
  - apply list_eq. intros i. destruct (decide (i < d)%nat) as [Hi|Hi].
    2: { rewrite !lookup_take_ge by lia. done. }
    rewrite !lookup_take_lt, !lookup_drop by lia.
    destruct (decide (o' < o)%nat) as [Hlt|Hgt].
    + rewrite lookup_app_l by (rewrite length_take; nia). rewrite lookup_take_lt by nia. done.
    + rewrite lookup_app_r by (rewrite length_take; nia). rewrite length_take, Nat.min_l by nia.
      rewrite lookup_app_r by nia. rewrite lookup_drop. f_equal. nia.
Qed.
End Slots.

(** A state in which the vectors, ids and ordinals of another one have
    changed; the dimension and metric never do. *)
Lemma contents_eq f' (m : gmap Z (list Z)) :
  (∀ id, (vectorAt f' <$> ordinals f' !! id) = m !! id) → contents f' = m.
Proof. intros H. apply map_eq. intros id. unfold contents. by rewrite lookup_fmap. Qed.

Lemma ordinal_lt f id o : inv f → ordinals f !! id = Some o → (o < length (ids f))%nat.
Proof. intros Hi [Ho _]%(inv_ordinal f Hi). by apply lookup_lt_Some in Ho. Qed.

Lemma flat_New_ok cfg :
  0 < cfg_Dimension cfg → Metric_Valid (cfg_Metric cfg) = true →
  ∃ f, New cfg = Ok f ∧ inv f ∧ dimension f = cfg_Dimension cfg ∧ contents f = ∅.
Proof.
  intros Hd Hm. unfold New. rewrite Hm, (proj2 (Z.leb_gt _ _)) by lia. simpl.
  eexists; split; [done|]. split; [|split; [done|apply fmap_empty]].
  constructor; simpl; auto.
  - intros id o. rewrite lookup_empty, lookup_nil. split; [done|intros [? _]; done].
  - intros o. rewrite lookup_nil. split; [intros []%not_elem_of_nil|done].
  - constructor.
Qed.

(** Overwriting a slot in place. *)
Lemma copy_ok f o id v :
  inv f → ordinals f !! id = Some o → length v = Z.to_nat (dimension f) →
  let f' := mk (dimension f) (metric f) (copy_at f o v) (ids f) (ordinals f) (free f) in
  inv f' ∧ contents f' = <[id := v]> (contents f).
Proof.
  intros Hi Hid Hv. pose proof (ordinal_lt f id o Hi Hid) as Ho. pose proof (inv_length f Hi) as Hl.
  pose proof (length_copy_at f _ Hl o v Ho Hv) as Hc. split.
  - destruct Hi. constructor; simpl; auto. by rewrite Hc.
  - apply contents_eq. intros id'. simpl. destruct (ordinals f !! id') as [o'|] eqn:Hid'; simpl.
    + unfold vectorAt at 1, start_of. simpl.
      rewrite (read_copy f _ Hl o o' v Ho Hv) by (by apply (ordinal_lt f id')).
      destruct (decide (o' = o)) as [->|Hne].
      * assert (id' = id) as ->.
        { apply (inv_ordinal f Hi) in Hid as [Hid _]. apply (inv_ordinal f Hi) in Hid' as [Hid' _]. congruence. }
        by rewrite lookup_insert_eq.
      * rewrite lookup_insert_ne by congruence. unfold contents. by rewrite lookup_fmap, Hid'.
    + rewrite lookup_insert_ne by congruence. unfold contents. by rewrite lookup_fmap, Hid'.
Qed.

(** Giving a free slot to a new id. *)
Lemma reuse_ok f o id v rest :
  inv f → free f = rest ++ [o] → ordinals f !! id = None → id ≠ 0 → length v = Z.to_nat (dimension f) →
  let f' := mk (dimension f) (metric f) (copy_at f o v) (<[o := id]> (ids f)) (<[id := o]> (ordinals f)) rest in
  inv f' ∧ contents f' = <[id := v]> (contents f).
Proof.
  intros Hi Hfree Hid Hid0 Hv.
  assert (ids f !! o = Some 0) as Ho0 by (apply (inv_free f Hi); rewrite Hfree; set_solver).
  pose proof (lookup_lt_Some _ _ _ Ho0) as Ho. pose proof (inv_length f Hi) as Hl.
  pose proof (length_copy_at f _ Hl o v Ho Hv) as Hc.
  assert (∀ id' o', ordinals f !! id' = Some o' → o' ≠ o ∧ id' ≠ id) as Hne.
  { intros id' o' H'. split; [|congruence]. intros ->. apply (inv_ordinal f Hi) in H' as [H' ?]. congruence. }
  pose proof (inv_free_nodup f Hi) as Hnd. rewrite Hfree in Hnd.
  apply NoDup_app in Hnd as (Hnd&Hdis&_). split.
  - constructor; simpl; try apply Hi.
    + by rewrite Hc, length_insert.
    + intros id' o'. destruct (decide (id' = id)) as [->|Hne'].
      * rewrite lookup_insert_eq. split; [intros [= <-]; by rewrite list_lookup_insert_eq|].
        intros [H' _]. destruct (decide (o' = o)) as [->|Hoo]; [done|].
        rewrite list_lookup_insert_ne in H' by done.
        rewrite (proj2 (inv_ordinal f Hi id o')) in Hid by done. done.
      * rewrite lookup_insert_ne by done. rewrite (inv_ordinal f Hi).
        destruct (decide (o' = o)) as [->|Hoo]; [|by rewrite list_lookup_insert_ne].
        rewrite list_lookup_insert_eq by done. rewrite Ho0. naive_solver.
    + intros o'. pose proof (inv_free f Hi o') as Hf. rewrite Hfree in Hf.
      destruct (decide (o' = o)) as [->|Hoo].
      * rewrite list_lookup_insert_eq by done. split; [intros Hr; exfalso; apply (Hdis o Hr); set_solver|congruence].
      * rewrite list_lookup_insert_ne by done. rewrite <-Hf. set_solver.
    + done.
  - apply contents_eq. intros id'. simpl. destruct (decide (id' = id)) as [->|Hne'].
    + rewrite !lookup_insert_eq. simpl. unfold vectorAt, start_of. simpl.
      rewrite (read_copy f _ Hl o o v Ho Hv Ho). by rewrite decide_True.
    + rewrite !lookup_insert_ne by done. unfold contents. rewrite lookup_fmap.
      destruct (ordinals f !! id') as [o'|] eqn:Hid'; [|done]. simpl. unfold vectorAt at 1, start_of. simpl.
      rewrite (read_copy f _ Hl o o' v Ho Hv) by (by apply (ordinal_lt f id')).
      rewrite decide_False by (by apply (Hne id' o')). done.
Qed.

(** Appending a slot. *)
Lemma append_ok f id v :
  inv f → ordinals f !! id = None → id ≠ 0 → length v = Z.to_nat (dimension f) →
  let f' := mk (dimension f) (metric f) (vectors f ++ v) (ids f ++ [id])
              (<[id := length (ids f)]> (ordinals f)) (free f) in
  inv f' ∧ contents f' = <[id := v]> (contents f).
Proof.
  intros Hi Hid Hid0 Hv. pose proof (inv_length f Hi) as Hl. split.
  - constructor; simpl; try apply Hi.
    + rewrite !length_app. simpl. nia.
    + intros id' o'. rewrite lookup_app, list_lookup_singleton. destruct (decide (id' = id)) as [->|Hne].
      * rewrite lookup_insert_eq. split.
        { intros [= <-]. rewrite lookup_ge_None_2 by done. by rewrite Nat.sub_diag. }
        intros [H' _]. destruct (ids f !! o') as [x|] eqn:Hx.
        { injection H' as ->. rewrite (proj2 (inv_ordinal f Hi id o')) in Hid by done. done. }
        apply lookup_ge_None_1 in Hx. destruct (o' - length (ids f))%nat eqn:E; [|done].
        f_equal. lia.
      * rewrite lookup_insert_ne by done. rewrite (inv_ordinal f Hi).
        destruct (ids f !! o') as [x|] eqn:Hx; [done|].
        destruct (o' - length (ids f))%nat; naive_solver.
    + intros o'. rewrite (inv_free f Hi), lookup_app, list_lookup_singleton.
      destruct (ids f !! o') as [x|] eqn:Hx; [done|]. destruct (o' - length (ids f))%nat; naive_solver.
  - apply contents_eq. intros id'. simpl. destruct (decide (id' = id)) as [->|Hne].
    + rewrite !lookup_insert_eq. simpl. unfold vectorAt, start_of. simpl. rewrite <-Hl, drop_app_length.
      by rewrite take_ge by lia.
    + rewrite !lookup_insert_ne by done. unfold contents. rewrite lookup_fmap.
      destruct (ordinals f !! id') as [o'|] eqn:Hid'; [|done]. simpl. f_equal.
      pose proof (ordinal_lt f id' o' Hi Hid'). unfold vectorAt, start_of. simpl.
      rewrite drop_app_le by nia. rewrite take_app_le; [done|]. rewrite length_drop. nia.
Qed.

(** Clearing the slot of a deleted id. *)
Lemma slot_clear_ok f id o :
  inv f → ordinals f !! id = Some o →
  let f' := mk (dimension f) (metric f) (copy_at f o (replicate (Z.to_nat (dimension f)) 0))
              (<[o := 0]> (ids f)) (delete id (ordinals f)) (free f ++ [o]) in
  inv f' ∧ contents f' = delete id (contents f).
Proof.
  intros Hi Hid. pose proof (ordinal_lt f id o Hi Hid) as Ho. pose proof (inv_length f Hi) as Hl.
  pose proof (proj1 (inv_ordinal f Hi id o) Hid) as [Hids Hid0].
  assert (length (replicate (Z.to_nat (dimension f)) 0) = Z.to_nat (dimension f)) as Hv by apply length_replicate.
  pose proof (length_copy_at f _ Hl o _ Ho Hv) as Hc.
  assert (o ∉ free f) as Hnf by (intros Hf%(inv_free f Hi); congruence). split.
  - constructor; simpl; try apply Hi.
    + by rewrite Hc, length_insert.
    + intros id' o'. destruct (decide (id' = id)) as [->|Hne].
      * rewrite lookup_delete_eq. split; [done|]. intros [H' _]. destruct (decide (o' = o)) as [->|Hoo].
        { rewrite list_lookup_insert_eq in H' by done. congruence. }
        rewrite list_lookup_insert_ne in H' by done.
        rewrite (proj2 (inv_ordinal f Hi id o')) in Hid by done. congruence.
      * rewrite lookup_delete_ne by done. rewrite (inv_ordinal f Hi).
        destruct (decide (o' = o)) as [->|Hoo]; [|by rewrite list_lookup_insert_ne].
        rewrite list_lookup_insert_eq by done. rewrite Hids. naive_solver.
    + intros o'. rewrite elem_of_app, list_elem_of_singleton, (inv_free f Hi).
      destruct (decide (o' = o)) as [->|Hoo].
      * rewrite list_lookup_insert_eq by done. naive_solver.
      * rewrite list_lookup_insert_ne by done. naive_solver.
    + apply NoDup_app. split; [apply Hi|]. split; [set_solver|apply NoDup_singleton].
  - apply contents_eq. intros id'. simpl. destruct (decide (id' = id)) as [->|Hne].
    + by rewrite !lookup_delete_eq.
    + rewrite !lookup_delete_ne by done. unfold contents. rewrite lookup_fmap.
      destruct (ordinals f !! id') as [o'|] eqn:Hid'; [|done]. simpl. unfold vectorAt at 1, start_of. simpl.
      rewrite (read_copy f _ Hl o o' _ Ho Hv) by (by apply (ordinal_lt f id')).
      rewrite decide_False; [done|]. intros ->.
      apply (inv_ordinal f Hi) in Hid' as [Hid' _]. congruence.
Qed.

(** ** The scan *)

(** The candidates of the live, allowed ordinals, in slot order. *)
Definition live (f : t) (query : list Z) (allowed : option (Z → bool)) : list Candidate :=
  (λ '(o, id), mkCandidate id (score f query (vectorAt f o))) <$>
    filter (λ '(_, id), id ≠ 0 ∧ allows allowed id = true) (imap pair (ids f)).

Lemma elem_of_slots f o id : (o, id) ∈ imap pair (ids f) ↔ ids f !! o = Some id.
Proof.
  rewrite list_elem_of_lookup. setoid_rewrite list_lookup_imap_Some. naive_solver.
Qed.

Lemma live_elem f query allowed c :
  c ∈ live f query allowed ↔
  ∃ o, ids f !! o = Some (CandID c) ∧ CandID c ≠ 0 ∧ allows allowed (CandID c) = true
    ∧ CandScore c = score f query (vectorAt f o).
Proof.
  unfold live. rewrite list_elem_of_fmap. split.
  - intros ([o id]&->&[[Hne Ha] Hin]%list_elem_of_filter). apply elem_of_slots in Hin. simpl. eauto.
  - intros (o&Ho&Hne&Ha&Hs). exists (o, CandID c). destruct c as [id s]; simpl in *. subst s.
    split; [done|]. apply list_elem_of_filter. split; [done|]. by apply elem_of_slots.
Qed.

Lemma live_scored f query allowed :
  inv f → live f query allowed ≡ₚ scored (score f query) (allows allowed) (contents f).
Proof.
  intros Hi. apply NoDup_Permutation.
  - unfold live. apply NoDup_fmap_2_strong.
    + intros [o id] [o' id'] [[Hne _] H1%elem_of_slots]%list_elem_of_filter
        [_ H2%elem_of_slots]%list_elem_of_filter [= -> _].
      assert (o = o') as ->; [|done].
      assert (ordinals f !! id' = Some o) by (by apply (inv_ordinal f Hi)).
      assert (ordinals f !! id' = Some o') by (by apply (inv_ordinal f Hi)). congruence.
    + apply NoDup_filter, NoDup_alt. intros i j [o id].
      rewrite !list_lookup_imap_Some. naive_solver.
  - eapply NoDup_fmap_1, scored_nodup.
  - intros c. rewrite live_elem, scored_elem. unfold contents. setoid_rewrite lookup_fmap_Some. split.
    + intros (o&Ho&Hne&Ha&Hs). exists (vectorAt f o). split; [|done]. exists o. split; [done|].
      by apply (inv_ordinal f Hi).
    + intros (v&(o&<-&Ho)&Ha&Hs). apply (inv_ordinal f Hi) in Ho as [Ho Hne]. eauto.
Qed.

Lemma scan_live f query k allowed entries h :
  (∀ o id, (o, id) ∈ entries → Score (metric f) query (vectorAt f o) = Ok (score f query (vectorAt f o))) →
  scan f query (if String.eqb (metric f) MetricCosine then SquaredNorm query else f32_zero) k allowed entries h =
  Ok (foldl (heap_offer better k) h
       ((λ '(o, id), mkCandidate id (score f query (vectorAt f o))) <$>
          filter (λ '(_, id), id ≠ 0 ∧ allows allowed id = true) entries)).
Proof.
  revert h. induction entries as [|[o id] l IH]; intros h Hs; [done|]. cbn [scan].
  destruct (Z.eqb_spec id 0) as [->|Hne]; cbn [orb].
  { rewrite filter_cons_False by naive_solver. apply IH. intros o' id' H'. apply (Hs o' id'). set_solver. }
  destruct (allows allowed id) eqn:Ha; cbn [negb].
  - rewrite filter_cons_True by done. rewrite prepared_score, (Hs o id) by set_solver. cbn [res_bind].
    rewrite fmap_cons. cbn [foldl]. apply IH. intros o' id' H'. apply (Hs o' id'). set_solver.
  - rewrite filter_cons_False by (rewrite Ha; naive_solver). apply IH. intros o' id' H'. apply (Hs o' id'). set_solver.
Qed.

Lemma vector_score f query o :
  inv f → len query = dimension f → (o < length (ids f))%nat →
  Score (metric f) query (vectorAt f o) = Ok (score f query (vectorAt f o)).
Proof.
  intros Hi Hq Ho. unfold score_of.
  destruct (Score_ok (metric f) query (vectorAt f o) (inv_metric f Hi)) as [s ->]; [|done].
  pose proof (inv_dimension f Hi).
  unfold len in *. rewrite (length_vectorAt f _ (inv_length f Hi) o Ho). lia.
Qed.

Lemma SearchFiltered_exact f query k allowed :
  inv f → len query = dimension f → 0 < k →
  (∀ c, c ∈ scored (score f query) (allows allowed) (contents f) → comparable (CandScore c)) →
  SearchFiltered f query k allowed =
    Ok (take (Z.to_nat k) (sort_slice (by_key cand_key_ltb cand_key)
         (scored (score f query) (allows allowed) (contents f)))).
Proof.
  intros Hi Hq Hk Hc. unfold SearchFiltered. rewrite Hq, Z.eqb_refl, (proj2 (Z.leb_gt _ _)) by lia. simpl.
  rewrite scan_live.
  2: { intros o id H%elem_of_slots. apply vector_score; [done|done|]. by apply lookup_lt_Some in H. }
  simpl. fold (live f query allowed). f_equal.
  pose proof (live_scored f query allowed Hi) as Hp.
  transitivity (heap_select better (Z.to_nat k) (live f query allowed)); [done|].
  rewrite select_candidates; [|lia|intros c; rewrite Hp; apply Hc|rewrite Hp; apply scored_nodup].
  f_equal. apply (sort_slice_unique_key cand_key_ltb cand_key); [|done]. rewrite Hp. apply scored_nodup.
Qed.

(** ** The instances *)

Local Ltac conclude_op H := destruct H as [Hinv Hcont]; eexists; split; [reflexivity|]; repeat (split; [done|]); done.

#[global] Program Instance flat_spec : VectorIndexSpec t := {|
  vi_inv := inv;
  vi_dimension := dimension;
  vi_metric := metric;
  vi_contents := contents;
  vi_readable := inv;
|}.
Next Obligation. done. Qed.
Next Obligation.
  intros f id v Hi Hid Hv. cbn [vi_Upsert flat_index]. unfold Upsert. rewrite Hv, Z.eqb_refl. simpl.
  assert (length v = Z.to_nat (dimension f)) as Hl by (unfold len in Hv; lia).
  destruct (ordinals f !! id) as [o|] eqn:Ho.
  - conclude_op (copy_ok f o id v Hi Ho Hl).
  - destruct (last (free f)) as [o|] eqn:Hlast.
    + apply last_Some in Hlast as [rest Hrest].
      replace (take (length (free f) - 1) (free f)) with rest.
      2: { rewrite Hrest, length_app, take_app_length'; [done|simpl; lia]. }
      conclude_op (reuse_ok f o id v rest Hi Hrest Ho Hid Hl).
    + conclude_op (append_ok f id v Hi Ho Hid Hl).
Qed.
Next Obligation.
  intros f id v _ Hv. cbn [vi_Upsert flat_index]. unfold Upsert. by rewrite (proj2 (Z.eqb_neq _ _)).
Qed.
Next Obligation.
  intros f id v Hi Hv. cbn [vi_Delete flat_index]. unfold Delete, contents in *.
  apply lookup_fmap_Some in Hv as (o&_&Ho). rewrite Ho. conclude_op (slot_clear_ok f id o Hi Ho).
Qed.
Next Obligation.
  intros f id Hi Hv. cbn [vi_Delete flat_index]. unfold Delete, contents in *.
  rewrite lookup_fmap in Hv. destruct (ordinals f !! id); [done|]. done.
Qed.
Next Obligation.
  intros f Hi. cbn [vi_Len flat_index]. unfold Len, contents. by rewrite map_size_fmap.
Qed.

#[global] Instance flat_exact : ExactIndex t.
Proof.
  constructor; [done|]. intros f query k allowed Hi Hq Hk Hc. by apply SearchFiltered_exact.
Qed.

End Flat.
