(* ===== verification/Segment.v ===== *)
(** * Segments

    [internal/segment/segment.go] and [internal/segment/named.go]: the
    mutable unit of a shard.  A segment numbers its records with ordinals and
    keeps, per ordinal, the record, its vector in an index, its metadata in a
    filter index, its terms in a lexical index and its named vectors at their
    storage precision.

    The vector index is used through the contract of [Index.v]; the metadata
    filter index and the lexical index are the interfaces declared here.  A
    mutation returns the segment it leaves behind together with the error, if
    any, since the source does not undo the steps done before an error.
    [cloneRecord] and [cloneMap] copy, and values are copied here by nature.
    An empty vector is Go's nil. *)
From Stdlib Require Import ZArith Lia Ascii String.
From stdpp Require Import base tactics list gmap strings.
From S2P Require Import Prelude Core Distance TopK Index.
Local Open Scope string_scope.
Local Open Scope Z_scope.
Local Open Scope list_scope.

(** [internal/metadata/filter.go] as segments use it. *)
Class MetadataIndex (MI : Type) := {
  Expr : Type;
  meta_New : MI;
  meta_Upsert : MI → Z → gmap string any → MI;
  meta_Delete : MI → Z → MI;
  meta_Evaluate : MI → Expr → gset Z;
}.

(** What a filter index promises: it represents a map from ordinals to
    metadata, and a filter selects the ordinals whose metadata matches. *)
Class MetadataSpec (MI : Type) `{MetadataIndex MI} := {
  meta_rep : MI → gmap Z (gmap string any) → Prop;
  meta_matches : Expr → gmap string any → bool;
  meta_new_ok : meta_rep meta_New ∅;
  meta_upsert_ok m X o md : meta_rep m X → 0 ≤ o → meta_rep (meta_Upsert m o md) (<[o := md]> X);
  meta_delete_ok m X o : meta_rep m X → 0 ≤ o → meta_rep (meta_Delete m o) (delete o X);
  meta_evaluate_ok m X f o :
    meta_rep m X → o ∈ meta_Evaluate m f ↔ ∃ md, X !! o = Some md ∧ meta_matches f md = true;
}.

(** [internal/segment/lexical.go] as mutations use it. *)
Class LexicalIndex (L : Type) := {
  lex_New : L;
  lex_add : L → Z → CoreRecord → L;
  lex_remove : L → Z → CoreRecord → L;
}.

(** The constructors of the index packages; [build_binary] is given the
    collection configuration, the others the index one. *)
Class IndexBuilders (I : Type) := {
  build_binary : CollectionConfig → res I;
  build_flat : Config → res I;
  build_hnsw : Config → res I;
}.

Class IndexBuildersSpec (I : Type) `{VectorIndexSpec I, IndexBuilders I} : Prop := {
  build_binary_ok c i :
    build_binary c = Ok i → vi_inv i ∧ vi_dimension i = Dimension c ∧ vi_metric i = Metric c ∧ vi_contents i = ∅;
  build_flat_ok c i :
    build_flat c = Ok i → vi_inv i ∧ vi_dimension i = cfg_Dimension c ∧ vi_metric i = cfg_Metric c ∧ vi_contents i = ∅;
  build_hnsw_ok c i :
    build_hnsw c = Ok i → vi_inv i ∧ vi_dimension i = cfg_Dimension c ∧ vi_metric i = cfg_Metric c ∧ vi_contents i = ∅;
}.

Record SearchResult : Set := mkResult {
  res_ID : string;
  res_Score : Z;
  res_Metadata : gmap string any;
  res_Payload : gmap string any;
  res_Namespace : string;
  res_Text : string;
}.

(** [namespace + "\x00" + id] *)
Definition key (namespace id : string) : string := namespace +:+ String "000" id.

Definition record_key (r : CoreRecord) : string := key (Namespace r) (ID r).

(** [float32(n)] *)
Definition f32_of_Z (n : Z) : Z :=
  f32_encode (match n with
              | Zpos p => SpecFloat.binary_round 24 128 false p 0
              | Zneg p => SpecFloat.binary_round 24 128 true p 0
              | Z0 => SpecFloat.S754_zero false
              end).

(** [pooled[i] += value] over the positions of the accumulator. *)
Definition add_vector (pooled vector : list Z) : list Z :=
  imap (λ i x, match vector !! i with Some value => f32_add x value | None => x end) pooled.

(** Go panics when a later vector is longer than the first; multi-vectors
    are validated to have one dimension. *)
Definition MeanPool (vs : list (list Z)) : list Z :=
  match vs with
  | [] => []
  | first :: _ =>
      (λ x, f32_div x (f32_of_Z (len vs))) <$>
        foldl add_vector (replicate (length first) f32_zero) vs
  end.

(** By namespace, then id. *)
Definition record_order (r : CoreRecord) : string * string := (Namespace r, ID r).
Definition pair_ltb (a b : string * string) : bool :=
  str_ltb a.1 b.1 || (String.eqb a.1 b.1 && str_ltb a.2 b.2).

#[global] Instance pair_ltb_strict : StrictOrderB pair_ltb.
Proof.
  unfold pair_ltb. split.
  - intros [a i]. simpl. rewrite !(ltb_irrefl (ltb := str_ltb)). by destruct (String.eqb a a).
  - intros [a i] [b j] [c k]; simpl. intros H1 H2. apply orb_true_iff.
    apply orb_true_iff in H1 as [H1|[E1 H1]%andb_true_iff]; apply orb_true_iff in H2 as [H2|[E2 H2]%andb_true_iff].
    + left. by apply (ltb_trans a b c).
    + apply String.eqb_eq in E2 as ->. by left.
    + apply String.eqb_eq in E1 as ->. by left.
    + apply String.eqb_eq in E1 as ->. apply String.eqb_eq in E2 as ->. right.
      rewrite String.eqb_refl. simpl. by apply (ltb_trans i j k).
  - intros [a i] [b j]; simpl. intros [H1 H2]%orb_false_iff [H3 H4]%orb_false_iff.
    rewrite (ltb_total a b H1 H3) in *. rewrite String.eqb_refl in *. simpl in *. f_equal. by apply ltb_total.
Qed.

Module Segment.

(** ** Named vector fields *)

Inductive storedVector : Set :=
  | F32 (values : list Z)
  | U16 (codes : list Z).

Definition encodeVector (datatype : string) (vector : list Z) : storedVector :=
  if String.eqb datatype DatatypeFloat16 then U16 (Float32ToFloat16 <$> vector)
  else if String.eqb datatype DatatypeBFloat16 then U16 (Float32ToBFloat16 <$> vector)
  else F32 vector.

Definition decode (v : storedVector) (datatype : string) : list Z :=
  match v with
  | F32 values => values
  | U16 codes =>
      if String.eqb datatype DatatypeBFloat16 then BFloat16ToFloat32 <$> codes
      else Float16ToFloat32 <$> codes
  end.

Section Segments.
Context {I MI L : Type} `{VectorIndex I, MetadataIndex MI, LexicalIndex L, IndexBuilders I}.

Record namedField : Type := mkNamed {
  nf_config : VectorField;
  nf_index : option I;
  dense : gmap Z storedVector;
  multi : gmap Z (list storedVector);
  pooled : gmap Z storedVector;
}.

Definition hnsw_config (dimension : Z) (metric : string) (i : IndexConfig) : Config :=
  mkIndexConfig dimension metric (M i) (EFConstruction i) (EFSearch i).

Definition newNamedField (config : VectorField) : res namedField :=
  if String.eqb (Type_ (vf_Index config)) IndexHNSW then
    let! idx := build_hnsw (hnsw_config (vf_Dimension config) (vf_Metric config) (vf_Index config)) in
    Ok (mkNamed config (Some idx) ∅ ∅ ∅)
  else Ok (mkNamed config None ∅ ∅ ∅).

Definition field_remove (f : namedField) (ordinal : Z) : namedField :=
  match dense f !! ordinal, multi f !! ordinal with
  | None, None => f
  | _, _ =>
      mkNamed (nf_config f)
        (match nf_index f with
         | Some idx => match vi_Delete idx ordinal with Ok idx' => Some idx' | Err _ => Some idx end
         | None => None
         end)
        (delete ordinal (dense f)) (delete ordinal (multi f)) (delete ordinal (pooled f))
  end.

(** [f.index.Upsert(ordinal, vector)] when the field has an index. *)
Definition field_index (f : namedField) (ordinal : Z) (vector : list Z) : namedField * option error :=
  match nf_index f with
  | None => (f, None)
  | Some idx =>
      match vi_Upsert idx ordinal vector with
      | Ok idx' => (mkNamed (nf_config f) (Some idx') (dense f) (multi f) (pooled f), None)
      | Err e => (f, Some e)
      end
  end.

Definition field_put (f0 : namedField) (ordinal : Z) (vector : option (list Z)) (vs : option (list (list Z)))
    : namedField * option error :=
  let f := field_remove f0 ordinal in
  let datatype := vf_Datatype (nf_config f) in
  if vf_MultiVector (nf_config f) then
    match vs with
    | None => (f, None)
    | Some items =>
        let mean := MeanPool items in
        field_index (mkNamed (nf_config f) (nf_index f) (dense f)
          (<[ordinal := encodeVector datatype <$> items]> (multi f))
          (<[ordinal := F32 mean]> (pooled f))) ordinal mean
    end
  else
    match vector with
    | None => (f, None)
    | Some v =>
        field_index (mkNamed (nf_config f) (nf_index f)
          (<[ordinal := encodeVector datatype v]> (dense f)) (multi f) (pooled f)) ordinal v
    end.

Definition multiVector (f : namedField) (ordinal : Z) : option (list (list Z)) :=
  (λ stored : list storedVector, (λ item, decode item (vf_Datatype (nf_config f))) <$> stored) <$> (multi f !! ordinal).

Definition denseVector (f : namedField) (ordinal : Z) : option (list Z) :=
  (λ stored, decode stored (vf_Datatype (nf_config f))) <$> (dense f !! ordinal).

(** ** The segment *)

Record t : Type := mk {
  index : I;
  nextID : Z;
  records : gmap Z CoreRecord;
  ordinals : gmap string Z;
  metadata : MI;
  readOnly : bool;
  vectorAt : option (Z → res (list Z));
  metric : string;
  lexical : L;
  named : gmap string namedField;
}.

Definition set_named_fields (s : t) (fields : gmap string namedField) : t :=
  mk (index s) (nextID s) (records s) (ordinals s) (metadata s) (readOnly s) (vectorAt s) (metric s) (lexical s) fields.

(** [fmt.Errorf("vector field %q: %w", name, err)] *)
Definition wrap_field (e : error) : error :=
  match e with
  | Sentinel s => Wrapf s "vector field"
  | _ => e
  end.

(** The fields of a collection, in the order of [VectorFieldNames]. *)
Fixpoint build_fields (config : CollectionConfig) (names : list string) : res (gmap string namedField) :=
  match names with
  | [] => Ok ∅
  | name :: rest =>
      match lookup_VectorField config name with
      | None => build_fields config rest
      | Some declared =>
          match newNamedField declared with
          | Err e => Err (wrap_field e)
          | Ok field => let! fields := build_fields config rest in Ok (<[name := field]> fields)
          end
      end
  end.

Fixpoint put_all (entries : list (string * namedField)) (ordinal : Z) (record : CoreRecord)
    (fields : gmap string namedField) : gmap string namedField * option error :=
  match entries with
  | [] => (fields, None)
  | (name, f) :: rest =>
      match field_put f ordinal (rec_Vectors record !! name) (MultiVectors record !! name) with
      | (f', Some e) => (<[name := f']> fields, Some (wrap_field e))
      | (f', None) => put_all rest ordinal record (<[name := f']> fields)
      end
  end.

Definition putNamedLocked (fields : gmap string namedField) (ordinal : Z) (record : CoreRecord)
    : gmap string namedField * option error :=
  put_all (map_to_list fields) ordinal record fields.

Definition removeNamedLocked (fields : gmap string namedField) (ordinal : Z) : gmap string namedField :=
  (λ f, field_remove f ordinal) <$> fields.

(** Named vectors go back onto a record copy, over whatever it has. *)
Definition attachNamedLocked (fields : gmap string namedField) (ordinal : Z) (record : CoreRecord) : CoreRecord :=
  set_named record
    (omap (λ f, denseVector f ordinal) fields ∪ rec_Vectors record)
    (omap (λ f, multiVector f ordinal) fields ∪ MultiVectors record).

Definition New_index (config : CollectionConfig) : res I :=
  if String.eqb (Type_ (Index config)) IndexFlat && String.eqb (Quantization (Index config)) QuantizationBinary then
    build_binary config
  else if String.eqb (Type_ (Index config)) IndexFlat || String.eqb (Type_ (Index config)) IndexDiskANN then
    build_flat (hnsw_config (Dimension config) (Metric config) (Index config))
  else if String.eqb (Type_ (Index config)) IndexHNSW then
    build_hnsw (hnsw_config (Dimension config) (Metric config) (Index config))
  else invalid "unsupported index type".

Definition New (config : CollectionConfig) : res t :=
  let! idx := New_index config in
  let! fields := build_fields config (VectorFieldNames config) in
  Ok (mk idx 1 ∅ ∅ meta_New false None (Metric config) lex_New fields).

Definition Upsert (s : t) (record : CoreRecord) : t * option error :=
  if readOnly s then (s, Some (Errorf "immutable segment cannot be mutated"))
  else if String.eqb (ID record) "" then (s, Some (Wrapf ErrInvalidArgument "record id is required"))
  else
    let k := key (Namespace record) (ID record) in
    let ordinal := match ordinals s !! k with Some o => o | None => nextID s end in
    let next := match ordinals s !! k with Some _ => nextID s | None => u64 (nextID s + 1) end in
    match vi_Upsert (index s) ordinal (Vector record) with
    | Err e =>
        (mk (index s) next (records s) (ordinals s) (metadata s) (readOnly s) (vectorAt s) (metric s)
           (lexical s) (named s), Some e)
    | Ok idx =>
        let lexical1 := match records s !! ordinal with
                        | Some previous => lex_remove (lexical s) ordinal previous
                        | None => lexical s
                        end in
        match putNamedLocked (named s) ordinal record with
        | (fields, Some e) =>
            (mk idx next (records s) (ordinals s) (metadata s) (readOnly s) (vectorAt s) (metric s)
               lexical1 fields, Some e)
        | (fields, None) =>
            (mk idx next (<[ordinal := set_named record ∅ ∅]> (records s)) (<[k := ordinal]> (ordinals s))
               (meta_Upsert (metadata s) ordinal (Metadata record)) (readOnly s) (vectorAt s) (metric s)
               (lex_add lexical1 ordinal record) fields, None)
        end
    end.

(** [record.Vector == nil && s.vectorAt != nil] reads the sealed source. *)
Definition load_vector (s : t) (ordinal : Z) (record : CoreRecord) : res CoreRecord :=
  match Vector record, vectorAt s with
  | [], Some read =>
      let! vector := read (ordinal - 1) in
      Ok (mkCoreRecord (ID record) vector (SparseVector record) (Metadata record) (Payload record)
            (Timestamp record) (Version record) (Namespace record) (Text record) (rec_Vectors record)
            (MultiVectors record))
  | _, _ => Ok record
  end.

Definition Get (s : t) (namespace id : string) : res CoreRecord :=
  match ordinals s !! key namespace id with
  | None => Err (Sentinel ErrNotFound)
  | Some ordinal =>
      match records s !! ordinal with
      | None => Err (Panic "ordinal without record")
      | Some record =>
          let! record := load_vector s ordinal record in
          Ok (attachNamedLocked (named s) ordinal record)
      end
  end.

Definition Delete (s : t) (namespace id : string) : t * option error :=
  if readOnly s then (s, Some (Errorf "immutable segment cannot be mutated"))
  else
    let k := key namespace id in
    match ordinals s !! k with
    | None => (s, Some (Sentinel ErrNotFound))
    | Some ordinal =>
        match vi_Delete (index s) ordinal with
        | Err e => (s, Some e)
        | Ok idx =>
            (mk idx (nextID s) (delete ordinal (records s)) (delete k (ordinals s))
               (meta_Delete (metadata s) ordinal) (readOnly s) (vectorAt s) (metric s)
               (match records s !! ordinal with
                | Some record => lex_remove (lexical s) ordinal record
                | None => lexical s
                end)
               (removeNamedLocked (named s) ordinal), None)
        end
    end.

Definition Has (s : t) (namespace id : string) : bool :=
  bool_decide (is_Some (ordinals s !! key namespace id)).

Definition Keys (s : t) : gset string := dom (ordinals s).

Definition Len (s : t) : Z := vi_Len (index s).

(** An unreadable vector is left out, as the source ignores its error. *)
Definition Records (s : t) : list CoreRecord :=
  sort_slice (by_key pair_ltb record_order)
    ((λ '(_, record),
        let ordinal := default 0 (ordinals s !! key (Namespace record) (ID record)) in
        attachNamedLocked (named s) ordinal
          (match load_vector s ordinal record with Ok r => r | Err _ => record end))
      <$> map_to_list (records s)).

(** ** Search *)

(** The ordinals a search may return. *)
Definition allow (s : t) (namespace : string) (allowed : option (gset Z)) (excluded : gset string) (id : Z) : bool :=
  match allowed with Some set_ => bool_decide (id ∈ set_) | None => true end
  && match records s !! id with
     | None => false
     | Some record =>
         String.eqb (Namespace record) namespace
         && bool_decide (key (Namespace record) (ID record) ∉ excluded)
     end.

Definition result_of (s : t) (c : Candidate) : option SearchResult :=
  (λ record, mkResult (ID record) (CandScore c) (Metadata record) (Payload record) (Namespace record) "")
    <$> records s !! CandID c.

Definition SearchFilteredWithOptions (s : t) (namespace : string) (query : list Z) (k : Z) (filter : option (Expr (MI := MI)))
    (excluded : gset string) (efSearch : Z) : res (list SearchResult) :=
  let allowed := meta_Evaluate (metadata s) <$> filter in
  let! candidates :=
    match vi_SearchWithOptions with
    | Some search =>
        search (index s) query k (mkSearchOptions efSearch (allow s namespace allowed excluded)
          (match allowed with Some set_ => Z.of_nat (size set_) | None => -1 end))
    | None => vi_SearchFiltered (index s) query k (Some (allow s namespace allowed excluded))
    end in
  Ok (take (Z.to_nat k) (omap (result_of s) candidates)).

(** ** Sealed segments *)

Fixpoint upsert_all (s : t) (items : list CoreRecord) : res t :=
  match items with
  | [] => Ok s
  | record :: rest =>
      match Upsert s record with
      | (s', None) => upsert_all s' rest
      | (_, Some e) => Err e
      end
  end.

(** [NewImmutable]: without product quantization the index is the one the
    records were put in. *)
Definition NewImmutable (config : CollectionConfig) (items : list CoreRecord) (metadataIndex : option MI) : res t :=
  let! s0 := New config in
  let! s := upsert_all s0 items in
  Ok (mk (index s) (nextID s) (records s) (ordinals s)
        (match metadataIndex with Some m => m | None => metadata s end) true (vectorAt s) (metric s)
        (lexical s) (named s)).

End Segments.
Arguments t : clear implicits.
Arguments namedField : clear implicits.
End Segment.
