(* ===== verification/SegmentProofs.v ===== *)
(** * Segments refine maps from keys to records

    Under the contracts of its collaborators a mutable segment behaves as a
    finite map from record keys to records: [Upsert] inserts, [Delete]
    deletes, [Get] looks up and returns the record exactly as it was
    prepared, named vectors included, and [Records] lists the map. *)
From Stdlib Require Import ZArith Lia Ascii String.
From stdpp Require Import base tactics list gmap strings.
From S2P Require Import Prelude Core CoreProofs Distance TopK Index Segment.
Local Open Scope string_scope.
Local Open Scope Z_scope.
Local Open Scope list_scope.
Local Set Warnings "-clear-no-such-hyp".
Import Segment.

(** ** Prepared records *)

(** A record as [PrepareUpsert] of a collection lets it through. *)
Definition prepared (config : CollectionConfig) (r : CoreRecord) : Prop :=
  PrepareNamedVectors config r = Ok r ∧ ID r ≠ "" ∧ len (Vector r) = Dimension config.

Lemma fill_map_id {A} (f : string → A → res A) m k x :
  fill_map f (map_to_list m) = Ok m → m !! k = Some x → f k x = Ok x.
Proof.
  intros Hf Hk. destruct (fill_map_lookup f _ m Hf k x Hk) as (y&Hin&E).
  apply elem_of_map_to_list in Hin. congruence.
Qed.

Lemma prepared_fields config r :
  PrepareNamedVectors config r = Ok r →
  (∀ name v, rec_Vectors r !! name = Some v → prepare_vector config name v = Ok v) ∧
  (∀ name vs, MultiVectors r !! name = Some vs → prepare_multi config name vs = Ok vs).
Proof.
  unfold PrepareNamedVectors. destruct (_ && _) eqn:E0.
  { intros _. bool_props. apply Nat.eqb_eq in H, H0. apply map_size_empty_inv in H, H0.
    split; intros name x Hx; [rewrite H in Hx|rewrite H0 in Hx]; by rewrite lookup_empty in Hx. }
  destruct (fill_map (prepare_vector config) _) as [vectors|] eqn:E1; [|done]. cbn [res_bind].
  destruct (fill_map (prepare_multi config) _) as [ms|] eqn:E2; [|done]. cbn [res_bind].
  intros [= Hr]. assert (vectors = rec_Vectors r) as -> by (by rewrite <-Hr).
  assert (ms = MultiVectors r) as -> by (by rewrite <-Hr).
  split; intros name x Hx; by eapply fill_map_id.
Qed.

Lemma decode_encode datatype v : decode (encodeVector datatype v) datatype = RoundToDatatype datatype v.
Proof.
  unfold encodeVector, RoundToDatatype, round_value.
  destruct (String.eqb_spec datatype DatatypeFloat16) as [->|_]; simpl.
  { rewrite <-list_fmap_compose. done. }
  destruct (String.eqb_spec datatype DatatypeBFloat16) as [->|_]; simpl.
  { rewrite <-list_fmap_compose. done. }
  symmetry. apply list_fmap_id.
Qed.

(** What preparation establishes of a stored vector of a declared field. *)
Lemma prepared_vector config name v :
  prepare_vector config name v = Ok v →
  ∃ field, lookup_VectorField config name = Some field ∧ vf_MultiVector field = false ∧
    len v = vf_Dimension field ∧ RoundToDatatype (vf_Datatype field) v = v.
Proof.
  unfold prepare_vector. destruct (lookup_VectorField config name) as [field|]; [|done].
  destruct (vf_MultiVector field) eqn:Em; [done|].
  destruct (res_unit (ValidateVector v (vf_Dimension field))) as [E|[e E]]; rewrite E; [|done]. cbn [res_bind].
  destruct (res_unit (ValidateVector (RoundToDatatype (vf_Datatype field) v) (vf_Dimension field))) as [E2|[e E2]];
    rewrite E2; [|done]. cbn [res_bind]. intros [= Hv]. apply ValidateVector_ok in E as [Hl _]. eauto.
Qed.

Lemma prepared_multi config name vs :
  prepare_multi config name vs = Ok vs →
  ∃ field, lookup_VectorField config name = Some field ∧ vf_MultiVector field = true ∧
    vs ≠ [] ∧ Forall (λ v, len v = vf_Dimension field) vs ∧ RoundToDatatype (vf_Datatype field) <$> vs = vs.
Proof.
  unfold prepare_multi. destruct (lookup_VectorField config name) as [field|]; [|done].
  destruct (vf_MultiVector field) eqn:Em; simpl; [|done]. unfold ValidateMultiVector.
  destruct (len vs =? 0) eqn:E0; [done|]. destruct (MaxMultiVectorLength <? len vs); [done|].
  destruct (res_unit (validate_all (vf_Dimension field) vs)) as [E|[e E]]; rewrite E; [|done].
  cbn [res_bind]. intros Hr. apply round_all_ok in Hr as [Hr _]. exists field.
  split; [done|]. split; [done|]. split; [by intros ->|]. split; [|done].
  apply validate_all_ok in E. eapply Forall_impl; [exact E|]. intros v Hv. by apply ValidateVector_ok in Hv as [? _].
Qed.

Lemma length_add_vector p v : length (add_vector p v) = length p.
Proof. apply length_imap. Qed.

Lemma len_MeanPool vs d : vs ≠ [] → Forall (λ v, len v = d) vs → len (MeanPool vs) = d.
Proof.
  intros Hne Hd. destruct vs as [|v vs]; [done|]. unfold MeanPool, len. rewrite length_fmap.
  assert (∀ l p, length (foldl add_vector p l) = length p) as Hf.
  { induction l as [|x l IH]; intros p; simpl; [done|]. by rewrite IH, length_add_vector. }
  rewrite Hf, length_replicate. by inversion Hd.
Qed.

Section Refinement.
Context {I MI L : Type} `{!VectorIndex I, !VectorIndexSpec I, !MetadataIndex MI, !MetadataSpec MI,
  !LexicalIndex L, !IndexBuilders I, !IndexBuildersSpec I}.
Context (config : CollectionConfig).

(** ** Named fields *)

Definition dense_of (field : VectorField) (name : string) (r : CoreRecord) : option storedVector :=
  if vf_MultiVector field then None else encodeVector (vf_Datatype field) <$> rec_Vectors r !! name.

Definition multi_of (field : VectorField) (name : string) (r : CoreRecord) : option (list storedVector) :=
  if vf_MultiVector field then (λ vs : list (list Z), encodeVector (vf_Datatype field) <$> vs) <$> MultiVectors r !! name else None.

(** A field holds exactly the encoded vectors of the records. *)
Record field_inv (name : string) (f : namedField I) (full : gmap Z CoreRecord) : Prop := mkFieldInv {
  fi_config : lookup_VectorField config name = Some (nf_config f);
  fi_dense : dense f = omap (dense_of (nf_config f) name) full;
  fi_multi : multi f = omap (multi_of (nf_config f) name) full;
  fi_index : match nf_index f with
             | Some idx => vi_inv idx ∧ vi_dimension idx = vf_Dimension (nf_config f)
             | None => True
             end;
}.

Lemma remove_index (idx : I) o :
  vi_inv idx →
  vi_inv (match vi_Delete idx o with Ok idx' => idx' | Err _ => idx end) ∧
  vi_dimension (match vi_Delete idx o with Ok idx' => idx' | Err _ => idx end) = vi_dimension idx.
Proof.
  intros Hi. destruct (vi_contents idx !! o) as [v|] eqn:E.
  - destruct (vi_delete_ok idx o v Hi E) as (idx'&->&?&?&_). done.
  - rewrite (vi_delete_missing idx o Hi E). done.
Qed.

Lemma field_remove_ok name f full o :
  field_inv name f full →
  field_inv name (field_remove f o) (delete o full) ∧ nf_config (field_remove f o) = nf_config f.
Proof.
  intros [Hc Hd Hm Hi]. unfold field_remove.
  destruct (dense f !! o) eqn:Ed; [|destruct (multi f !! o) eqn:Em].
  3: { split; [|done]. constructor; auto.
       - rewrite omap_delete, <-Hd. by rewrite delete_id.
       - rewrite omap_delete, <-Hm. by rewrite delete_id. }
  all: split; [|done]; constructor; simpl; auto;
    [by rewrite omap_delete, <-Hd|by rewrite omap_delete, <-Hm|].
  all: destruct (nf_index f) as [idx|]; [|done]; destruct Hi as [Hv Hdim];
    destruct (remove_index idx o Hv) as [Hv' Hdim']; destruct (vi_Delete idx o); simpl in *; split; congruence.
Qed.

Lemma field_index_ok (f : namedField I) o v :
  match nf_index f with
  | Some idx => vi_inv idx ∧ vi_dimension idx = vf_Dimension (nf_config f)
  | None => True
  end → o ≠ 0 → len v = vf_Dimension (nf_config f) →
  ∃ idx', field_index f o v = (mkNamed (nf_config f) idx' (dense f) (multi f) (pooled f), None) ∧
    match idx' with
    | Some idx => vi_inv idx ∧ vi_dimension idx = vf_Dimension (nf_config f)
    | None => True
    end.
Proof.
  intros Hi Ho Hl. unfold field_index. destruct f as [c [idx|] d m p]; simpl in *; [|eauto].
  destruct Hi as [Hv Hd]. destruct (vi_upsert_ok idx o v Hv Ho) as (idx'&->&?&?&_); [congruence|].
  exists (Some idx'). split; [done|]. split; [done|congruence].
Qed.

Lemma omap_insert_eq {A B} (g : A → option B) (m : gmap Z A) o x :
  omap g (<[o := x]> m) = match g x with Some y => <[o := y]> (omap g m) | None => delete o (omap g m) end.
Proof.
  apply map_eq. intros i. rewrite lookup_omap. destruct (decide (i = o)) as [->|Hne].
  - rewrite lookup_insert_eq. simpl. destruct (g x); [by rewrite lookup_insert_eq|by rewrite lookup_delete_eq].
  - rewrite lookup_insert_ne by done. destruct (g x); [rewrite lookup_insert_ne by done|rewrite lookup_delete_ne by done];
      by rewrite lookup_omap.
Qed.

Lemma omap_overwrite {A B} (g : A → option B) (m : gmap Z A) o x :
  omap g (<[o := x]> m) = match g x with Some y => <[o := y]> (omap g (delete o m)) | None => omap g (delete o m) end.
Proof.
  rewrite <-insert_delete_eq, omap_insert_eq. destruct (g x); [done|].
  rewrite delete_id; [done|]. by rewrite lookup_omap, lookup_delete_eq.
Qed.

Lemma field_put_ok name f full o r :
  field_inv name f full → prepared config r → o ≠ 0 →
  ∃ f', field_put f o (rec_Vectors r !! name) (MultiVectors r !! name) = (f', None) ∧
    field_inv name f' (<[o := r]> full).
Proof.
  intros Hf [Hp _] Ho. destruct (prepared_fields config r Hp) as [Hpv Hpm].
  destruct (field_remove_ok name f full o Hf) as [Hr Hcfg]. unfold field_put. revert Hr.
  generalize (field_remove f o) as g. intros g [Hc Hd Hm Hi].
  pose proof (omap_overwrite (dense_of (nf_config g) name) full o r) as Ed.
  pose proof (omap_overwrite (multi_of (nf_config g) name) full o r) as Em.
  rewrite <-Hd in Ed. rewrite <-Hm in Em. unfold dense_of at 2 in Ed. unfold multi_of at 2 in Em.
  destruct (vf_MultiVector (nf_config g)) eqn:Emv.
  - destruct (MultiVectors r !! name) as [items|] eqn:Ev; simpl in *.
    + destruct (prepared_multi config name items (Hpm name items Ev)) as (field&Hl&_&Hne&Hall&_).
      assert (field = nf_config g) as -> by congruence.
      edestruct (field_index_ok (mkNamed (nf_config g) (nf_index g) (dense g)
        (<[o := encodeVector (vf_Datatype (nf_config g)) <$> items]> (multi g))
        (<[o := F32 (MeanPool items)]> (pooled g))) o (MeanPool items)) as (idx'&->&Hidx); [done|done| |].
      { by apply len_MeanPool. }
      eexists; split; [done|]. constructor; simpl; auto.
    + eexists; split; [done|]. constructor; auto.
  - destruct (rec_Vectors r !! name) as [v|] eqn:Ev; simpl in *.
    + destruct (prepared_vector config name v (Hpv name v Ev)) as (field&Hl&_&Hlen&_).
      assert (field = nf_config g) as -> by congruence.
      edestruct (field_index_ok (mkNamed (nf_config g) (nf_index g)
        (<[o := encodeVector (vf_Datatype (nf_config g)) v]> (dense g)) (multi g) (pooled g)) o v)
        as (idx'&->&Hidx); [done|done|done|].
      eexists; split; [done|]. constructor; simpl; auto.
    + eexists; split; [done|]. constructor; auto.
Qed.

(** ** All the named fields of a segment *)

Definition fields_inv (fields : gmap string (namedField I)) (full : gmap Z CoreRecord) : Prop :=
  dom fields = dom (Vectors config) ∧
  ∀ name f, fields !! name = Some f → field_inv name f full.

Lemma put_all_ok (l : list (string * namedField I)) o r full (acc : gmap string (namedField I)) :
  NoDup l.*1 → prepared config r → o ≠ 0 → (∀ name f, (name, f) ∈ l → field_inv name f full) →
  ∃ acc', put_all l o r acc = (acc', None) ∧
    (∀ name, name ∉ l.*1 → acc' !! name = acc !! name) ∧
    (∀ name, name ∈ l.*1 → ∃ f, acc' !! name = Some f ∧ field_inv name f (<[o := r]> full)).
Proof.
  intros Hnd Hp Ho. revert acc. induction l as [|[name f] l IH]; intros acc Hl.
  { exists acc. split; [done|]. split; [done|]. intros name H. by apply not_elem_of_nil in H. }
  rewrite fmap_cons, NoDup_cons in Hnd. destruct Hnd as [Hnin Hnd]. simpl in Hnin.
  destruct (field_put_ok name f full o r) as (f'&Hput&Hf'); [by apply Hl, list_elem_of_here|done|done|].
  destruct (IH Hnd (<[name := f']> acc)) as (acc'&Hacc&Hout&Hin); [set_solver|].
  exists acc'. split; [cbn [put_all]; by rewrite Hput|]. rewrite fmap_cons. simpl. split.
  - intros n [Hn Hnl]%not_elem_of_cons. rewrite Hout by done. by rewrite lookup_insert_ne.
  - intros n [->|Hn]%elem_of_cons; [|by apply Hin].
    exists f'. split; [|done]. rewrite Hout by done. by rewrite lookup_insert_eq.
Qed.

Lemma putNamedLocked_ok fields full o r :
  fields_inv fields full → prepared config r → o ≠ 0 →
  ∃ fields', putNamedLocked fields o r = (fields', None) ∧ fields_inv fields' (<[o := r]> full).
Proof.
  intros [Hdom Hf] Hp Ho. unfold putNamedLocked.
  assert (∀ name, name ∈ (map_to_list fields).*1 ↔ is_Some (fields !! name)) as Hin.
  { intros name. rewrite list_elem_of_fmap. split.
    - intros ([n f]&->&H%elem_of_map_to_list). simpl. eauto.
    - intros [f H%elem_of_map_to_list]. exists (name, f). done. }
  destruct (put_all_ok (map_to_list fields) o r full fields) as (fields'&->&Hout&Hins); [|done|done| |].
  { apply NoDup_fst_map_to_list. }
  { intros name f H%elem_of_map_to_list. by apply Hf. }
  exists fields'. split; [done|]. split.
  - rewrite <-Hdom. apply set_eq. intros name. rewrite !elem_of_dom.
    destruct (decide (name ∈ (map_to_list fields).*1)) as [H|H].
    + destruct (Hins name H) as (f&->&_). apply Hin in H. split; eauto.
    + by rewrite Hout.
  - intros name f Hname. destruct (decide (name ∈ (map_to_list fields).*1)) as [H|H].
    + destruct (Hins name H) as (f'&Hf'&Hinv). congruence.
    + rewrite Hout in Hname by done. exfalso. apply H, Hin. eauto.
Qed.

Lemma removeNamedLocked_ok fields full o :
  fields_inv fields full → fields_inv (removeNamedLocked fields o) (delete o full).
Proof.
  unfold removeNamedLocked. intros [Hdom Hf]. split; [by rewrite dom_fmap_L|].
  intros name f (f0&<-&H0)%lookup_fmap_Some. by apply field_remove_ok, Hf.
Qed.

(** Reading the fields back gives the record's own named vectors. *)
Lemma attach_ok fields full o r :
  fields_inv fields full → full !! o = Some r → prepared config r →
  attachNamedLocked fields o (set_named r ∅ ∅) = r.
Proof.
  intros [Hdom Hf] Hr [Hp _]. destruct (prepared_fields config r Hp) as [Hpv Hpm].
  assert (∀ name, fields !! name = None → lookup_VectorField config name = None) as Hnone.
  { intros name H. unfold lookup_VectorField. apply not_elem_of_dom in H. rewrite Hdom in H.
    by rewrite (not_elem_of_dom_1 _ _ H). }
  assert (omap (λ f, denseVector f o) fields = rec_Vectors r) as Ed.
  { apply map_eq. intros name. rewrite lookup_omap. destruct (fields !! name) as [f|] eqn:E; simpl.
    - destruct (Hf name f E) as [Hc Hd _ _]. unfold denseVector. rewrite Hd, lookup_omap, Hr. simpl.
      unfold dense_of. destruct (rec_Vectors r !! name) as [v|] eqn:Ev.
      + destruct (prepared_vector config name v (Hpv name v Ev)) as (field&Hl&Hm&_&Hround).
        assert (field = nf_config f) as -> by congruence. rewrite Hm. simpl. by rewrite decode_encode, Hround.
      + by destruct (vf_MultiVector _).
    - symmetry. apply eq_None_not_Some. intros [v Ev].
      destruct (prepared_vector config name v (Hpv name v Ev)) as (field&Hl&_). by rewrite Hnone in Hl. }
  assert (omap (λ f, multiVector f o) fields = MultiVectors r) as Em.
  { apply map_eq. intros name. rewrite lookup_omap. destruct (fields !! name) as [f|] eqn:E; simpl.
    - destruct (Hf name f E) as [Hc _ Hm _]. unfold multiVector. rewrite Hm, lookup_omap, Hr. simpl.
      unfold multi_of. destruct (MultiVectors r !! name) as [vs|] eqn:Ev.
      + destruct (prepared_multi config name vs (Hpm name vs Ev)) as (field&Hl&Hmv&_&_&Hround).
        assert (field = nf_config f) as -> by congruence. rewrite Hmv. simpl. f_equal.
        rewrite <-Hround at 2. rewrite <-list_fmap_compose. apply list_fmap_ext. intros i v _. apply decode_encode.
      + by destruct (vf_MultiVector _).
    - symmetry. apply eq_None_not_Some. intros [v Ev].
      destruct (prepared_multi config name v (Hpm name v Ev)) as (field&Hl&_). by rewrite Hnone in Hl. }
  unfold attachNamedLocked. rewrite Ed, Em. simpl. rewrite !(right_id_L ∅ (∪)). by destruct r.
Qed.

Lemma newNamedField_ok name field f :
  lookup_VectorField config name = Some field → newNamedField field = Ok f → field_inv name f ∅.
Proof.
  intros Hl. unfold newNamedField. destruct (String.eqb _ _).
  - destruct (build_hnsw _) as [idx|] eqn:Eb; [|done]. cbn [res_bind]. intros [= <-].
    destruct (build_hnsw_ok _ _ Eb) as (Hi&Hd&_&_).
    constructor; simpl; [done|by rewrite omap_empty|by rewrite omap_empty|done].
  - intros [= <-]. constructor; simpl; [done|by rewrite omap_empty|by rewrite omap_empty|done].
Qed.

Lemma build_names_ok names fields :
  build_fields config names = Ok fields → (∀ name, name ∈ names → is_Some (lookup_VectorField config name)) →
  (∀ name, name ∈ names ↔ is_Some (fields !! name)) ∧ (∀ name f, fields !! name = Some f → field_inv name f ∅).
Proof.
  revert fields. induction names as [|n names IH]; intros fields; simpl.
  { intros [= <-] _. split; [|intros name f H; by rewrite lookup_empty in H].
    intros name. rewrite lookup_empty. split; [intros H; by apply not_elem_of_nil in H|intros [? ?]; done]. }
  intros Hb Hdecl. destruct (Hdecl n) as [field Hl]; [apply list_elem_of_here|]. rewrite Hl in Hb.
  destruct (newNamedField field) as [f|] eqn:Ef; [|done].
  destruct (build_fields config names) as [rest|]; [|done]. cbn [res_bind] in Hb. injection Hb as <-.
  destruct (IH rest eq_refl) as [Hin Hf]; [intros name H; by apply Hdecl, list_elem_of_further|]. split.
  - intros name. rewrite elem_of_cons, Hin. destruct (decide (name = n)) as [->|Hne].
    + rewrite lookup_insert_eq. naive_solver.
    + rewrite lookup_insert_ne by done. naive_solver.
  - intros name g. rewrite lookup_insert_Some. intros [[<- <-]|[_ Hg]]; [|by apply Hf].
    by apply (newNamedField_ok n field).
Qed.

Lemma build_fields_ok fields : build_fields config (VectorFieldNames config) = Ok fields → fields_inv fields ∅.
Proof.
  intros Hb.
  assert (∀ name, name ∈ VectorFieldNames config ↔ is_Some (Vectors config !! name)) as Hn.
  { intros name. unfold VectorFieldNames. rewrite sort_slice_elem, list_elem_of_fmap. split.
    - intros ([n f]&->&H%elem_of_map_to_list). simpl. eauto.
    - intros [f H%elem_of_map_to_list]. exists (name, f). done. }
  destruct (build_names_ok _ _ Hb) as [Hin Hf].
  { intros name [f H]%Hn. unfold lookup_VectorField. rewrite H. simpl. eauto. }
  split; [|done]. apply set_eq. intros name. rewrite !elem_of_dom, <-Hin. apply Hn.
Qed.

(** ** The segment *)

(** The records by ordinal, as they were put, explain the state. *)
(** A record as a segment keeps it: without named vectors, and without its
    vector when a sealed source has it. *)
Definition drop_vector (r : CoreRecord) : CoreRecord :=
  mkCoreRecord (ID r) [] (SparseVector r) (Metadata r) (Payload r) (Timestamp r) (Version r) (Namespace r) (Text r)
    (rec_Vectors r) (MultiVectors r).

Definition kept (sealed : option (Z → res (list Z))) (r : CoreRecord) : CoreRecord :=
  match sealed with
  | None => set_named r ∅ ∅
  | Some _ => drop_vector (set_named r ∅ ∅)
  end.

Record seg_inv (s : t I MI L) (full : gmap Z CoreRecord) : Prop := mkSegInv {
  si_records : records s = kept (vectorAt s) <$> full;
  si_prepared o r : full !! o = Some r → prepared config r;
  si_ordinals k o : ordinals s !! k = Some o ↔ ∃ r, full !! o = Some r ∧ record_key r = k;
  si_index : vi_readable (index s);
  si_dimension : vi_dimension (index s) = Dimension config;
  si_metric : vi_metric (index s) = Metric config;
  si_contents : vi_contents (index s) = Vector <$> full;
  si_metadata : meta_rep (metadata s) (Metadata <$> full);
  si_vectors read o r : vectorAt s = Some read → full !! o = Some r → read (o - 1) = Ok (Vector r);
  si_mutable : readOnly s = false → vi_inv (index s) ∧ vectorAt s = None;
  si_bounds o r : full !! o = Some r → 0 < o < nextID s;
  si_next : 0 < nextID s;
  si_fields : fields_inv (named s) full;
}.

(** The map from keys to records a segment stands for. *)
Definition view (s : t I MI L) (full : gmap Z CoreRecord) : gmap string CoreRecord :=
  omap (λ o, full !! o) (ordinals s).

Lemma view_lookup s full k r :
  seg_inv s full → view s full !! k = Some r ↔ ∃ o, ordinals s !! k = Some o ∧ full !! o = Some r.
Proof.
  intros _. unfold view. rewrite lookup_omap. destruct (ordinals s !! k) as [o|]; simpl; naive_solver.
Qed.

Lemma view_key s full k r : seg_inv s full → view s full !! k = Some r → record_key r = k.
Proof.
  intros Hi (o&Ho&Hr)%(view_lookup s full k r Hi). apply (si_ordinals s full Hi) in Ho as (r'&Hr'&Hk). congruence.
Qed.

Lemma view_None s full k : seg_inv s full → view s full !! k = None ↔ ordinals s !! k = None.
Proof.
  intros Hi. unfold view. rewrite lookup_omap. destruct (ordinals s !! k) as [o|] eqn:Ho; simpl; [|done].
  apply (si_ordinals s full Hi) in Ho as (r&Hr&_). rewrite Hr. done.
Qed.

Lemma view_dom s full : seg_inv s full → dom (view s full) = dom (ordinals s).
Proof.
  intros Hi. apply set_eq. intros k. rewrite !elem_of_dom, <-!not_eq_None_Some.
  by rewrite (view_None s full k Hi).
Qed.

Lemma ordinal_unique s full o r :
  seg_inv s full → full !! o = Some r → ordinals s !! record_key r = Some o.
Proof. intros Hi Hr. apply (si_ordinals s full Hi). eauto. Qed.

Lemma size_full s full : seg_inv s full → size (view s full) = size full.
Proof.
  intros Hi. assert ((map_to_list (ordinals s)).*2 ≡ₚ (map_to_list full).*1) as Hp.
  { apply NoDup_Permutation.
    - apply NoDup_fmap_2_strong; [|apply NoDup_map_to_list].
      intros [k o] [k' o'] Hk%elem_of_map_to_list Hk'%elem_of_map_to_list. simpl. intros ->.
      apply (si_ordinals s full Hi) in Hk as (r&Hr&<-). apply (si_ordinals s full Hi) in Hk' as (r'&Hr'&<-). congruence.
    - apply NoDup_fst_map_to_list.
    - intros o. rewrite !list_elem_of_fmap. split.
      + intros ([k o']&->&Hk%elem_of_map_to_list). apply (si_ordinals s full Hi) in Hk as (r&Hr&_).
        exists (o', r). split; [done|]. by apply elem_of_map_to_list.
      + intros ([o' r]&->&Hr%elem_of_map_to_list). exists (record_key r, o'). split; [done|].
        apply elem_of_map_to_list, (si_ordinals s full Hi). eauto. }
  rewrite <-!length_map_to_list. apply Permutation_length in Hp. rewrite !length_fmap in Hp.
  rewrite <-Hp. rewrite !length_map_to_list, <-!size_dom. by rewrite view_dom.
Qed.

(** ** Operations *)

Lemma New_ok s : New config = Ok s → seg_inv s ∅ ∧ view s ∅ = ∅ ∧ readOnly s = false.
Proof.
  unfold New. destruct (New_index config) as [idx|] eqn:Ei; [|done]. cbn [res_bind].
  destruct (build_fields config (VectorFieldNames config)) as [fields|] eqn:Ef; [|done]. cbn [res_bind].
  intros [= <-]. split; [|split; [apply omap_empty|done]].
  assert (vi_inv idx ∧ vi_dimension idx = Dimension config ∧ vi_metric idx = Metric config ∧ vi_contents idx = ∅)
    as (H1&H2&H4&H3).
  { unfold New_index in Ei. destruct (_ && _); [by apply build_binary_ok|].
    destruct (_ || _); [by apply (build_flat_ok _ _ Ei)|]. destruct (String.eqb _ _); [by apply (build_hnsw_ok _ _ Ei)|done]. }
  constructor; cbn [records ordinals index nextID metadata vectorAt readOnly named metric].
  - by rewrite fmap_empty.
  - intros o r Hr. by rewrite lookup_empty in Hr.
  - intros k o. rewrite lookup_empty. split; [done|]. intros (r&Hr&_). by rewrite lookup_empty in Hr.
  - by apply vi_inv_readable.
  - done.
  - done.
  - by rewrite fmap_empty.
  - rewrite fmap_empty. apply meta_new_ok.
  - done.
  - done.
  - intros o r Hr. by rewrite lookup_empty in Hr.
  - lia.
  - apply build_fields_ok. done.
Qed.

Lemma Upsert_ok s full r :
  seg_inv s full → readOnly s = false → prepared config r → nextID s + 1 < two64 →
  ∃ s' full', Upsert s r = (s', None) ∧ seg_inv s' full' ∧
    view s' full' = <[record_key r := r]> (view s full) ∧
    readOnly s' = false ∧ nextID s ≤ nextID s' ≤ nextID s + 1 ∧
    (ordinals s !! record_key r = None → full' = <[nextID s := r]> full ∧ nextID s' = nextID s + 1).
Proof.
  intros Hi Hro Hp Hn. pose proof Hp as (Hnamed&HID&Hlen). unfold Upsert. rewrite Hro.
  rewrite (proj2 (String.eqb_neq _ _) HID). cbv zeta. fold (record_key r).
  pose proof (si_next s full Hi) as Hn0.
  rewrite (u64_small (nextID s + 1)) by lia.
  set (o := match ordinals s !! record_key r with Some o => o | None => nextID s end).
  set (n := match ordinals s !! record_key r with Some _ => nextID s | None => nextID s + 1 end).
  assert (ordinals s !! record_key r = None → o = nextID s ∧ n = nextID s + 1) as Hfresh.
  { intros E. subst o n. by rewrite E. }
  assert (0 < o < n ∧ nextID s ≤ n ≤ nextID s + 1 ∧
    ∀ o' r', full !! o' = Some r' → (record_key r' = record_key r ↔ o' = o)) as (Ho&Hnn&Hsame).
  { subst o n. destruct (ordinals s !! record_key r) as [o|] eqn:Ek.
    - pose proof Ek as (r0&Hr0&_)%(si_ordinals s full Hi). pose proof (si_bounds s full Hi o r0 Hr0).
      split; [lia|]. split; [lia|]. intros o' r' Hr'. pose proof (ordinal_unique s full o' r' Hi Hr') as Hu.
      split; [congruence|intros ->]. pose proof Ek as (r1&Hr1&Hk1)%(si_ordinals s full Hi). congruence.
    - split; [lia|]. split; [lia|]. intros o' r' Hr'. pose proof (ordinal_unique s full o' r' Hi Hr') as Hu.
      pose proof (si_bounds s full Hi o' r' Hr'). split; [congruence|lia]. }
  clearbody o n. destruct (si_mutable s full Hi Hro) as [Hvi Hva].
  destruct (vi_upsert_ok (index s) o (Vector r)) as (idx&->&Hidx&Hdim&Hmet&Hcont);
    [done|lia|rewrite (si_dimension s full Hi); done|].
  destruct (putNamedLocked_ok (named s) full o r (si_fields s full Hi) Hp) as (fields&->&Hfields); [lia|].
  eexists _, (<[o := r]> full). split; [done|].
  assert (∀ k o', <[record_key r:=o]> (ordinals s) !! k = Some o' ↔
    ∃ r', <[o:=r]> full !! o' = Some r' ∧ record_key r' = k) as Hord.
  { intros k o'. destruct (decide (k = record_key r)) as [->|Hk].
    - rewrite lookup_insert_eq. split; [intros [= <-]; exists r; by rewrite lookup_insert_eq|].
      intros (r'&Hr'&Hk). destruct (decide (o' = o)) as [->|Hne]; [done|].
      rewrite lookup_insert_ne in Hr' by done. exfalso. by apply Hne, (Hsame o' r' Hr').
    - rewrite lookup_insert_ne by done. rewrite (si_ordinals s full Hi). split.
      + intros (r'&Hr'&<-). exists r'. split; [|done]. rewrite lookup_insert_ne; [done|].
        intros <-. by apply Hk, (Hsame o r' Hr').
      + intros (r'&Hr'&<-). exists r'. split; [|done]. destruct (decide (o' = o)) as [->|Hne].
        * rewrite lookup_insert_eq in Hr'. congruence.
        * by rewrite lookup_insert_ne in Hr'. }
  assert (seg_inv (mk idx n (<[o:=set_named r ∅ ∅]> (records s)) (<[record_key r:=o]> (ordinals s))
    (meta_Upsert (metadata s) o (Metadata r)) false (vectorAt s) (metric s)
    (lex_add match records s !! o with Some previous => lex_remove (lexical s) o previous | None => lexical s end o r)
    fields) (<[o := r]> full)) as Hinv.
  { constructor; simpl; auto; try apply Hi.
    - by rewrite fmap_insert, (si_records s full Hi), Hva.
    - intros o' r'. rewrite lookup_insert_Some. intros [[_ <-]|[_ Hr']]; [done|by apply (si_prepared s full Hi o')].
    - by apply vi_inv_readable.
    - by rewrite Hdim, (si_dimension s full Hi).
    - by rewrite Hmet, (si_metric s full Hi).
    - by rewrite fmap_insert, Hcont, (si_contents s full Hi).
    - rewrite fmap_insert. apply meta_upsert_ok; [apply Hi|lia].
    - by rewrite Hva.
    - intros o' r'. rewrite lookup_insert_Some. intros [[<- _]|[_ Hr']]; [lia|].
      pose proof (si_bounds s full Hi o' r' Hr'). lia.
    - lia. }
  split; [exact Hinv|]. split; [|split; [done|split; [exact Hnn|intros E; by destruct (Hfresh E) as [-> ->]]]].
  apply map_eq. intros k. apply option_eq. intros r'. rewrite (view_lookup _ _ k r' Hinv). simpl.
  rewrite lookup_insert_Some. split.
  - intros (o'&Ho'&Hr'). destruct (decide (k = record_key r)) as [->|Hk].
    + rewrite lookup_insert_eq in Ho'. injection Ho' as <-. rewrite lookup_insert_eq in Hr'. left. split; congruence.
    + right. split; [done|]. rewrite lookup_insert_ne in Ho' by done.
      apply (view_lookup s full k r' Hi). exists o'. split; [done|].
      pose proof Ho' as (r1&Hr1&Hk1)%(si_ordinals s full Hi).
      rewrite lookup_insert_ne in Hr'; [done|]. intros <-. apply Hk. rewrite <-Hk1. by apply (Hsame o r1).
  - intros [[<- <-]|[Hk Hv]].
    + exists o. by rewrite !lookup_insert_eq.
    + apply (view_lookup s full k r' Hi) in Hv as (o'&Ho'&Hr'). exists o'. rewrite lookup_insert_ne by done.
      split; [done|]. rewrite lookup_insert_ne; [done|]. intros <-.
      pose proof Ho' as (r1&Hr1&Hk1)%(si_ordinals s full Hi). apply Hk. rewrite <-Hk1. symmetry. by apply (Hsame o r1).
Qed.

Lemma Delete_ok s full ns id :
  seg_inv s full → readOnly s = false →
  match view s full !! key ns id with
  | Some _ =>
      ∃ s' full', Delete s ns id = (s', None) ∧ seg_inv s' full' ∧
        view s' full' = delete (key ns id) (view s full) ∧ readOnly s' = false ∧ nextID s' = nextID s
  | None => Delete s ns id = (s, Some (Sentinel ErrNotFound))
  end.
Proof.
  intros Hi Hro. unfold Delete. rewrite Hro. cbv zeta. set (k := key ns id).
  destruct (view s full !! k) as [r|] eqn:Hv; [|by rewrite (proj1 (view_None s full k Hi) Hv)].
  apply (view_lookup s full k r Hi) in Hv as (o&Hk&Hr). rewrite Hk.
  assert (record_key r = k) as Hrk by (apply (si_ordinals s full Hi) in Hk as (r'&Hr'&?); congruence).
  destruct (si_mutable s full Hi Hro) as [Hvi Hva].
  destruct (vi_delete_ok (index s) o (Vector r)) as (idx&->&Hidx&Hdim&Hmet&Hcont);
    [done|by rewrite (si_contents s full Hi), lookup_fmap, Hr|].
  eexists _, (delete o full). split; [done|].
  assert (∀ k' o', delete k (ordinals s) !! k' = Some o' ↔ ∃ r', delete o full !! o' = Some r' ∧ record_key r' = k') as Hord.
  { intros k' o'. rewrite lookup_delete_Some, (si_ordinals s full Hi). setoid_rewrite lookup_delete_Some. split.
    - intros [Hne (r'&Hr'&<-)]. exists r'. split; [|done]. split; [|done]. intros <-. congruence.
    - intros (r'&[Hne Hr']&<-). split; [|eauto]. intros E.
      pose proof (ordinal_unique s full o' r' Hi Hr') as Hu. rewrite <-E, Hk in Hu. congruence. }
  match goal with |- seg_inv ?s' _ ∧ _ => assert (seg_inv s' (delete o full)) as Hinv end.
  { constructor; simpl; auto; try apply Hi.
    - by rewrite fmap_delete, (si_records s full Hi).
    - intros o' r' [_ Hr']%lookup_delete_Some. by apply (si_prepared s full Hi o').
    - by apply vi_inv_readable.
    - by rewrite Hdim, (si_dimension s full Hi).
    - by rewrite Hmet, (si_metric s full Hi).
    - by rewrite fmap_delete, Hcont, (si_contents s full Hi).
    - rewrite fmap_delete. apply meta_delete_ok; [apply Hi|]. pose proof (si_bounds s full Hi o r Hr). lia.
    - by rewrite Hva.
    - intros o' r' [_ Hr']%lookup_delete_Some. by apply (si_bounds s full Hi o' r').
    - apply removeNamedLocked_ok, Hi. }
  split; [exact Hinv|]. split; [|done].
  apply map_eq. intros k'. apply option_eq. intros r'. rewrite (view_lookup _ _ k' r' Hinv). simpl.
  rewrite lookup_delete_Some, (view_lookup s full k' r' Hi). setoid_rewrite lookup_delete_Some. split.
  - intros (o'&[Hk' Ho']&_&Hr'). eauto.
  - intros (Hk'&o'&Ho'&Hr'). exists o'. split; [done|]. split; [|done]. intros <-.
    apply Hk'. apply (si_ordinals s full Hi) in Ho' as (r1&Hr1&<-). congruence.
Qed.

(** Loading the vector gives the record back but for its named vectors. *)
Lemma load_ok s full o r :
  seg_inv s full → full !! o = Some r → load_vector s o (kept (vectorAt s) r) = Ok (set_named r ∅ ∅).
Proof.
  intros Hi Hr. pose proof (si_vectors s full Hi) as Hv. unfold load_vector, kept.
  destruct (vectorAt s) as [read|]; [|by destruct (Vector _)]. cbn [drop_vector Vector].
  rewrite (Hv read o r eq_refl Hr). cbn [res_bind]. by destruct r.
Qed.

Lemma kept_fields sealed r :
  ID (kept sealed r) = ID r ∧ Namespace (kept sealed r) = Namespace r ∧ Metadata (kept sealed r) = Metadata r ∧
  Payload (kept sealed r) = Payload r.
Proof. by destruct sealed. Qed.

Lemma Get_ok s full ns id :
  seg_inv s full →
  Get s ns id = match view s full !! key ns id with Some r => Ok r | None => Err (Sentinel ErrNotFound) end.
Proof.
  intros Hi. unfold Get. destruct (view s full !! key ns id) as [r|] eqn:Hv.
  - apply (view_lookup s full _ r Hi) in Hv as (o&Hk&Hr). rewrite Hk.
    rewrite (si_records s full Hi), lookup_fmap, Hr. cbn [fmap option_fmap option_map].
    rewrite (load_ok s full o r Hi Hr). cbn [res_bind].
    f_equal. apply (attach_ok (named s) full o r (si_fields s full Hi) Hr (si_prepared s full Hi o r Hr)).
  - by rewrite (proj1 (view_None s full _ Hi) Hv).
Qed.

Lemma Has_ok s full ns id : seg_inv s full → Has s ns id = bool_decide (is_Some (view s full !! key ns id)).
Proof.
  intros Hi. unfold Has. apply bool_decide_ext. rewrite <-!not_eq_None_Some. by rewrite (view_None s full _ Hi).
Qed.

Lemma Len_ok s full : seg_inv s full → Len s = Z.of_nat (size (view s full)).
Proof.
  intros Hi. unfold Len. rewrite vi_len_size by apply Hi. f_equal.
  by rewrite (size_full s full Hi), (si_contents s full Hi), map_size_fmap.
Qed.

Lemma Keys_ok s full : seg_inv s full → Keys s = dom (view s full).
Proof. intros Hi. unfold Keys. by rewrite (view_dom s full Hi). Qed.

(** ** Listing *)

Lemma full_values s full : seg_inv s full → (map_to_list full).*2 ≡ₚ (map_to_list (view s full)).*2.
Proof.
  intros Hi. apply NoDup_Permutation.
  - apply NoDup_fmap_2_strong; [|apply NoDup_map_to_list].
    intros [o r] [o' r'] Hr%elem_of_map_to_list Hr'%elem_of_map_to_list. simpl. intros ->.
    f_equal. pose proof (ordinal_unique s full o r' Hi Hr). pose proof (ordinal_unique s full o' r' Hi Hr'). congruence.
  - apply NoDup_fmap_2_strong; [|apply NoDup_map_to_list].
    intros [k r] [k' r'] Hr%elem_of_map_to_list Hr'%elem_of_map_to_list. simpl. intros ->.
    by rewrite <-(view_key s full k r' Hi Hr), <-(view_key s full k' r' Hi Hr').
  - intros r. rewrite !list_elem_of_fmap. split.
    + intros ([o r']&->&Hr%elem_of_map_to_list). exists (record_key r', r'). split; [done|].
      apply elem_of_map_to_list, (view_lookup s full _ _ Hi). exists o. split; [|done]. by apply (ordinal_unique s full).
    + intros ([k r']&->&Hr%elem_of_map_to_list). apply (view_lookup s full _ _ Hi) in Hr as (o&_&Hr).
      exists (o, r'). split; [done|]. by apply elem_of_map_to_list.
Qed.

Lemma view_orders s full : seg_inv s full → NoDup (record_order <$> (map_to_list (view s full)).*2).
Proof.
  intros Hi. rewrite <-list_fmap_compose. apply NoDup_fmap_2_strong; [|apply NoDup_map_to_list].
  intros [k r] [k' r'] Hr%elem_of_map_to_list Hr'%elem_of_map_to_list. unfold record_order. simpl. intros [= E1 E2].
  pose proof (view_key s full k r Hi Hr) as <-. pose proof (view_key s full k' r' Hi Hr') as <-.
  assert (record_key r = record_key r') as E by (unfold record_key; congruence).
  rewrite E in *. congruence.
Qed.

Lemma Records_ok s full :
  seg_inv s full → Records s = sort_slice (by_key pair_ltb record_order) (map_to_list (view s full)).*2.
Proof.
  intros Hi. unfold Records. rewrite (si_records s full Hi), map_to_list_fmap, <-list_fmap_compose.
  transitivity (sort_slice (by_key pair_ltb record_order) (map_to_list full).*2).
  - f_equal. apply list_fmap_ext. intros n [o r] Hr. apply list_elem_of_lookup_2, elem_of_map_to_list in Hr. simpl.
    destruct (kept_fields (vectorAt s) r) as (->&->&_). fold (record_key r). rewrite (ordinal_unique s full o r Hi Hr).
    cbn [from_option id]. rewrite (load_ok s full o r Hi Hr).
    apply (attach_ok (named s) full o r (si_fields s full Hi) Hr (si_prepared s full Hi o r Hr)).
  - apply (sort_slice_unique_key pair_ltb record_order).
    + rewrite (full_values s full Hi). by apply view_orders.
    + by apply full_values.
Qed.

(** ** Searching *)

(** What a search may return: the records of the namespace whose metadata
    matches and whose key is not excluded. *)
Definition eligible (namespace : string) (filter : option (Expr (MI := MI))) (excluded : gset string)
    (r : CoreRecord) : bool :=
  String.eqb (Namespace r) namespace
  && match filter with Some f => meta_matches f (Metadata r) | None => true end
  && bool_decide (record_key r ∉ excluded).

Definition result_for (score : list Z → Z) (r : CoreRecord) : SearchResult :=
  mkResult (ID r) (score (Vector r)) (Metadata r) (Payload r) (Namespace r) "".

(** The results an exhaustive search considers. *)
Definition hits (score : list Z → Z) (namespace : string) (filter : option (Expr (MI := MI)))
    (excluded : gset string) (m : gmap string CoreRecord) : list SearchResult :=
  result_for score <$> List.filter (eligible namespace filter excluded) (map_to_list m).*2.

(** Strictly higher score. *)
Definition score_better (a b : SearchResult) : bool := f32_ord (res_Score b) <? f32_ord (res_Score a).

#[export] Instance score_better_weak : WeakOrderB score_better.
Proof.
  unfold score_better. split; intros *; [apply Z.ltb_irrefl|rewrite !Z.ltb_lt; lia|rewrite !Z.ltb_ge; lia].
Qed.

Lemma allow_eligible s full namespace filter excluded o r :
  seg_inv s full → full !! o = Some r →
  allow s namespace (meta_Evaluate (metadata s) <$> filter) excluded o = eligible namespace filter excluded r.
Proof.
  intros Hi Hr. unfold allow, eligible. rewrite (si_records s full Hi), lookup_fmap, Hr. cbn [fmap option_fmap option_map].
  destruct (kept_fields (vectorAt s) r) as (->&->&_&_). fold (record_key r). rewrite !andb_assoc. f_equal. rewrite andb_comm. f_equal.
  destruct filter as [f|]; simpl; [|done].
  destruct (meta_matches f (Metadata r)) eqn:E.
  - apply bool_decide_eq_true, (meta_evaluate_ok _ _ _ _ (si_metadata s full Hi)). exists (Metadata r).
    by rewrite lookup_fmap, Hr.
  - apply bool_decide_eq_false. intros (md&Hmd&Hm)%(meta_evaluate_ok _ _ _ _ (si_metadata s full Hi)).
    rewrite lookup_fmap, Hr in Hmd. simpl in Hmd. congruence.
Qed.

Lemma filter_bool {A} (f : A → bool) (l : list A) :
  base.filter (λ x, f x = true) l = List.filter f l.
Proof.
  induction l as [|x l IH]; [done|]. simpl. destruct (f x) eqn:E.
  - rewrite filter_cons_True by done. by rewrite IH.
  - rewrite filter_cons_False by (rewrite E; done). done.
Qed.

(** The candidates of the index, and the results they become. *)
Lemma scored_hits s full score namespace filter excluded :
  seg_inv s full →
  let candidates := scored score (allow s namespace (meta_Evaluate (metadata s) <$> filter) excluded)
                      (vi_contents (index s)) in
  ∃ g : Candidate → SearchResult,
    (∀ c, c ∈ candidates → result_of s c = Some (g c) ∧ res_Score (g c) = CandScore c) ∧
    g <$> candidates ≡ₚ hits score namespace filter excluded (view s full).
Proof.
  intros Hi. cbv zeta. set (al := allow s namespace (meta_Evaluate (metadata s) <$> filter) excluded).
  exists (λ c, match full !! CandID c with
               | Some r => mkResult (ID r) (CandScore c) (Metadata r) (Payload r) (Namespace r) ""
               | None => mkResult "" (CandScore c) ∅ ∅ "" ""
               end).
  split.
  - intros c (v&Hv&_&_)%scored_elem. rewrite (si_contents s full Hi), lookup_fmap in Hv.
    unfold result_of. rewrite (si_records s full Hi), lookup_fmap.
    destruct (full !! CandID c) as [r|]; [|done]. simpl. by destruct (kept_fields (vectorAt s) r) as (->&->&->&->).
  - unfold scored, hits. rewrite (si_contents s full Hi), map_to_list_fmap.
    rewrite <-(full_values s full Hi).
    assert (∀ l : list (Z * CoreRecord), (∀ o r, (o, r) ∈ l → full !! o = Some r) →
      (λ c, match full !! CandID c with
            | Some r => mkResult (ID r) (CandScore c) (Metadata r) (Payload r) (Namespace r) ""
            | None => mkResult "" (CandScore c) ∅ ∅ "" ""
            end) <$> ((λ '(id, v), mkCandidate id (score v)) <$>
        base.filter (λ '(id, _), al id = true) (prod_map id Vector <$> l))
      = result_for score <$> List.filter (eligible namespace filter excluded) l.*2) as H.
    2: { rewrite H; [done|]. intros o r Hr. by apply elem_of_map_to_list. }
    induction l as [|[o r] l IH]; intros Hl; [done|].
    assert (full !! o = Some r) as Hr by (apply Hl, list_elem_of_here).
    rewrite !fmap_cons. cbn [prod_map fst snd]. simpl List.filter.
    pose proof (allow_eligible s full namespace filter excluded o r Hi Hr) as Ha. fold al in Ha.
    destruct (eligible namespace filter excluded r).
    + rewrite filter_cons_True by done. rewrite !fmap_cons. simpl. rewrite Hr. f_equal.
      apply IH. intros; apply Hl. by apply list_elem_of_further.
    + rewrite filter_cons_False by (simpl; rewrite Ha; done).
      apply IH. intros; apply Hl. by apply list_elem_of_further.
Qed.

Lemma omap_all {A B} (f : A → option B) (g : A → B) (l : list A) :
  (∀ x, x ∈ l → f x = Some (g x)) → omap f l = g <$> l.
Proof.
  induction l as [|x l IH]; intros H; [done|]. cbn. rewrite H by apply list_elem_of_here.
  f_equal. apply IH. intros y Hy. apply H. by apply list_elem_of_further.
Qed.

(** With an exact index a search returns a best-[k] set of the hits. *)
Lemma Search_ok `{!ExactIndex I} s full namespace query k filter excluded efSearch :
  seg_inv s full → len query = Dimension config → 0 < k →
  let all := hits (score_of (Metric config) query) namespace filter excluded (view s full) in
  (∀ r, r ∈ all → comparable (res_Score r)) →
  ∃ R, SearchFilteredWithOptions s namespace query k filter excluded efSearch = Ok R ∧
    top_set score_better (Z.to_nat k) all R.
Proof.
  intros Hi Hq Hk. cbv zeta. intros Hc.
  destruct (scored_hits s full (score_of (Metric config) query) namespace filter excluded Hi) as (g&Hg&Hp).
  unfold SearchFilteredWithOptions. rewrite (vi_not_tunable (I := I)).
  set (al := allow s namespace (meta_Evaluate (metadata s) <$> filter) excluded) in *.
  assert (∀ c, c ∈ scored (score_of (Metric config) query) (allows (Some al)) (vi_contents (index s)) →
    comparable (CandScore c)) as Hcc.
  { intros c Hin. destruct (Hg c Hin) as [_ <-]. apply Hc. rewrite <-Hp. by apply list_elem_of_fmap_2. }
  pose proof (si_metric s full Hi) as Hmet. rewrite <-Hmet in *.
  rewrite (vi_search_exact (index s) query k (Some al)); [|apply Hi|by rewrite (si_dimension s full Hi)|done|done].
  cbn [res_bind]. set (cands := scored (score_of (vi_metric (index s)) query) (allows (Some al)) (vi_contents (index s))) in *.
  assert (∀ c, c ∈ sort_slice (by_key cand_key_ltb cand_key) cands → c ∈ cands) as Hsub.
  { intros c. by rewrite sort_slice_elem. }
  rewrite (omap_all (result_of s) g).
  2: { intros c Hin. apply Hg, Hsub. apply elem_of_take in Hin as (i&Hin&_). by apply list_elem_of_lookup_2 in Hin. }
  eexists; split; [done|].
  rewrite take_ge by (rewrite length_fmap, length_take; lia).
  pose proof (sort_take_top_k (by_key cand_key_ltb cand_key) (Z.to_nat k) cands) as [_ Ht].
  assert (top_set score_better (Z.to_nat k) (g <$> cands)
    (g <$> take (Z.to_nat k) (sort_slice (by_key cand_key_ltb cand_key) cands))) as Hr.
  { apply top_set_fmap.
    apply (top_set_ext (λ a b, f32_ord (CandScore b) <? f32_ord (CandScore a)) _ (λ c, c ∈ cands)); [|done|].
    - intros x y Hx Hy. unfold by_key, score_better.
      destruct (Hg x Hx) as [_ ->]. by destruct (Hg y Hy) as [_ ->].
    - eapply top_set_coarser; [|exact Ht]. intros x y Hxy. unfold by_key, cand_key_ltb, cand_key. simpl. by rewrite Hxy. }
  destruct Hr as (Hl&rest&Hrp&Hb). split; [by rewrite <-Hp|]. exists rest. split; [by rewrite <-Hp|done].
Qed.

End Refinement.
