(* ===== verification/Filters.v ===== *)
(** * Filters: theorems and the interface they discharge

    The metadata index as segments use it: the instance of [MetadataIndex]
    with its laws, and the properties of parsing and evaluation over
    histories of the index. *)
From Stdlib Require Import ZArith Lia Ascii String.
From stdpp Require Import base tactics list gmap strings.
From S2P Require Import Prelude Core Distance Float Bitmap Posting Metadata MetadataProofs Persistence PersistenceProofs TopK Index Segment.
Local Open Scope string_scope.
Local Open Scope Z_scope.
Local Open Scope list_scope.

Section Histories.
Context {UT : UnicodeTables} {MF : MathFunctions}.

(** ** Histories *)

Inductive filter_op : Set :=
  | OpPut (id : Z) (metadata : gmap string any)
  | OpDrop (id : Z).

Definition run_filter_op (i : Metadata.Index) (op : filter_op) : Metadata.Index :=
  match op with OpPut id md => Metadata.Upsert i id md | OpDrop id => Metadata.Delete i id end.

Definition spec_filter_op (X : gmap Z (gmap string any)) (op : filter_op) : gmap Z (gmap string any) :=
  match op with OpPut id md => <[id := md]> X | OpDrop id => delete id X end.

Definition op_natural (op : filter_op) : Prop := match op with OpPut id _ | OpDrop id => 0 ≤ id end.

Lemma filter_run ops i X :
  index_rep i X → Forall op_natural ops → index_rep (foldl run_filter_op i ops) (foldl spec_filter_op X ops).
Proof.
  intros Hi Hops. revert i X Hi. induction Hops as [|op ops Hop Hops IH]; intros i X Hi; [done|].
  cbn [foldl]. apply IH. destruct op; [by apply index_Upsert_ok|by apply index_Delete_ok].
Qed.

Lemma evaluate_ok i X e :
  index_rep i X → match e with Some e => well_typed e && boxes_ok e | None => true end = true → evaluates i X e.
Proof.
  intros Hrep He. destruct e as [e|].
  - apply andb_true_iff in He as [Hw Hb]. by apply Evaluate_ok.
  - eexists. split; [done|]. by apply selects_universe.
Qed.

(** C36. A filter selects by its meaning.  After any history of insertions,
    replacements and deletions, evaluating a well-typed filter succeeds and
    selects exactly the ordinals whose current metadata matches it, whatever
    mix of singletons, sparse sets, bitmaps, merged and unmerged numeric
    entries the history left; the count the set carries is the number of
    ordinals it enumerates. *)
Theorem filter_evaluation_exact ops e :
  Forall op_natural ops → match e with Some e => well_typed e && boxes_ok e | None => true end = true →
  let i := foldl run_filter_op NewIndex ops in
  let X := foldl spec_filter_op ∅ ops in
  ∃ s, Evaluate i e = Ok s ∧
    (∀ id, 0 ≤ id → Bitmap.Contains s id = match X !! id with Some md => matches_opt e md | None => false end) ∧
    (∀ id, id ∈ Bitmap.setIDs s ↔ ∃ md, X !! id = Some md ∧ matches_opt e md = true) ∧
    Bitmap.Len s = len (Bitmap.setIDs s).
Proof.
  intros Hops He. cbv zeta. pose proof (filter_run ops NewIndex ∅ NewIndex_ok Hops) as Hrep.
  set (i := foldl run_filter_op NewIndex ops) in *. set (X := foldl spec_filter_op ∅ ops) in *. clearbody i X.
  destruct (evaluate_ok i X e Hrep He) as (s&Es&[Hinv Hc]).
  exists s. split; [exact Es|]. split; [done|]. split; [|by rewrite Bitmap.setIDs_len].
  intros id. rewrite Bitmap.setIDs_elem by done. split.
  - intros [Hid Hs]. rewrite Hc in Hs by done. destruct (X !! id) as [md|]; [eauto|done].
  - intros (md&Hmd&Hm). pose proof (ir_ids i X Hrep id md Hmd) as Hid. split; [done|]. by rewrite Hc, Hmd.
Qed.

(** C37. Parsing is type safe.  A filter that parses is well typed, so that
    evaluating it over any index never fails a type assertion; a filter that
    does not parse is refused as an invalid argument. *)
Theorem parsed_filters_well_typed raw :
  match Parse raw with
  | Ok e => typed_opt e ∧ ∀ i, ∃ s, Evaluate i e = Ok s
  | Err err => errors_Is err ErrInvalidArgument = true
  end.
Proof.
  destruct (parses_any (Object raw)) as [H _]. unfold Parse. destruct (parse_any (Object raw)) as [e|err]; [|exact H].
  split; [exact H|]. intros i. destruct e as [e|]; [|by eexists]. by apply Evaluate_total.
Qed.

(** A persisted index answers for the records it was written for.  The index
    [MarshalRecords] writes for the records of a view loads from its JSON, and
    every well-typed filter evaluated over the loaded index selects exactly the
    positions of the records that match it - provided JSON leaves the metadata
    values and names alone. *)
Theorem persisted_index_roundtrip records :
  Forall (λ r, md_stable (Core.Metadata r)) records →
  ∃ p j, MarshalRecords records = Ok p ∧ LoadBinary (json_index p) (len records) = Ok j ∧
    ∀ e, match e with Some e => well_typed e && boxes_ok e | None => true end = true →
      ∃ s, Evaluate j e = Ok s ∧ ∀ id, 0 ≤ id →
        Bitmap.Contains s id = match records !! Z.to_nat (id - 1) with
                               | Some r => (1 <=? id) && matches_opt e (Core.Metadata r)
                               | None => false
                               end.
Proof.
  intros Hr. destruct (records_index_ok records Hr) as [Hi Hw].
  destruct (marshal_load _ _ (len records) Hi Hw) as (p&j&Hp&Hj&Hrep).
  { unfold len; lia. }
  { apply by_position_dom. }
  { intros id md f v. by apply by_position_stable. }
  exists p, j. split; [exact Hp|]. split; [exact Hj|]. intros e He.
  destruct (evaluate_ok j _ e Hrep He) as (s&Hs&[_ Hc]). exists s. split; [exact Hs|].
  intros id Hid. rewrite Hc, by_position_lookup by done. destruct (decide (1 ≤ id)) as [H1|H1].
  - rewrite (proj2 (Z.leb_le 1 id)) by done. by destruct (records !! _).
  - rewrite (proj2 (Z.leb_gt 1 id)) by lia. by destruct (records !! _).
Qed.

(** ** The interface of segments *)

(** A well-typed filter whose bounding boxes are numbers. *)
Definition filter : Type := { e : Metadata.Expr | well_typed e && boxes_ok e = true }.

#[export] Instance filter_index : MetadataIndex Metadata.Index := {|
  Segment.Expr := filter;
  meta_New := NewIndex;
  meta_Upsert := Metadata.Upsert;
  meta_Delete := Metadata.Delete;
  meta_Evaluate := λ i f,
    match Evaluate i (Some (`f)) with Ok s => list_to_set (Bitmap.setIDs s) | Err _ => ∅ end;
|}.

#[export] Program Instance filter_spec : MetadataSpec Metadata.Index := {|
  meta_rep := index_rep;
  meta_matches := λ f md, matches (`f) md;
|}.
Next Obligation. apply NewIndex_ok. Qed.
Next Obligation. intros m X o md. apply index_Upsert_ok. Qed.
Next Obligation. intros m X o. apply index_Delete_ok. Qed.
Next Obligation.
  intros m X [e He] o Hrep. simpl. apply andb_true_iff in He as [Hw Hb].
  destruct (Evaluate_ok m X Hrep e Hw Hb) as (s&Es&[Hinv Hc]). simpl in Es. rewrite Es.
  rewrite elem_of_list_to_set, Bitmap.setIDs_elem by done. split.
  - intros [Ho Hs]. rewrite Hc in Hs by done. destruct (X !! o) as [md|]; [eauto|done].
  - intros (md&Hmd&Hm). pose proof (ir_ids m X Hrep o md Hmd). split; [done|]. by rewrite Hc, Hmd.
Qed.

End Histories.

(** ** Witnesses *)

(** A planar stand-in for the trigonometric functions. *)
Definition flat_trigonometry : MathFunctions := {| math_Sin := λ x, x; math_Cos := λ x, x; math_Asin := λ x, x |}.

Definition sample_ops : list filter_op :=
  [OpPut 1 {["kind" := Text_ "note"; "year" := Number (f64_of_int 1999)]};
   OpPut 2 {["kind" := Text_ "memo"; "year" := Number (f64_of_int 2024)]};
   OpPut 1 {["kind" := Text_ "memo"]}; OpDrop 3].

Definition sample_filter : Metadata.Expr :=
  Metadata.And [Some (Metadata.Predicate "kind" OpEq (Text_ "memo"));
    Some (Metadata.Not (Some (Metadata.Predicate "year" OpGT (Number (f64_of_int 2000)))))].

Lemma filter_evaluation_exact_witness :
  ∃ s, @Evaluate ascii_tables flat_trigonometry (foldl run_filter_op NewIndex sample_ops) (Some sample_filter) = Ok s ∧
    Bitmap.Contains s 1 = true ∧ Bitmap.Contains s 2 = false.
Proof.
  destruct (@filter_evaluation_exact ascii_tables flat_trigonometry sample_ops (Some sample_filter)) as (s&Hs&Hc&_).
  - repeat constructor; simpl; lia.
  - vm_compute. reflexivity.
  - exists s. split; [exact Hs|]. split; (rewrite Hc by lia; vm_compute; reflexivity).
Defined.

Definition sample_metadata : gmap string any := {["kind" := Text_ "note"; "year" := Number (f64_of_int 1999)]}.

Definition metadata_record (id : string) (md : gmap string any) : CoreRecord :=
  mkCoreRecord id [0] ∅ md ∅ 0 0 "default" "" ∅ ∅.

Lemma sample_stable : md_stable sample_metadata.
Proof.
  intros f v. unfold scalar, sample_metadata. destruct (decide (f = "kind")) as [->|Hk].
  { intros H. assert (v = Text_ "note") as -> by (vm_compute in H; vm_compute; congruence). split; [split|split]; vm_compute; (reflexivity || discriminate). }
  rewrite lookup_insert_ne by done. destruct (decide (f = "year")) as [->|Hy].
  { intros H. assert (v = Number (f64_of_int 1999)) as -> by (vm_compute in H; vm_compute; congruence).
    split; [split|split]; vm_compute; (reflexivity || discriminate). }
  rewrite lookup_singleton_ne by done. discriminate.
Qed.

Lemma persisted_index_roundtrip_witness :
  ∃ p j, MarshalRecords [metadata_record "a" sample_metadata; metadata_record "b" ∅] = Ok p ∧
    LoadBinary (json_index p) 2 = Ok j ∧
    ∃ s, @Evaluate ascii_tables flat_trigonometry j
      (Some (Metadata.Predicate "year" OpLTE (Number (f64_of_int 1999)))) = Ok s ∧
      Bitmap.Contains s 1 = true ∧ Bitmap.Contains s 2 = false.
Proof.
  destruct (@persisted_index_roundtrip ascii_tables flat_trigonometry
    [metadata_record "a" sample_metadata; metadata_record "b" ∅]) as (p&j&Hp&Hj&He).
  - constructor; [exact sample_stable|]. constructor; [|constructor]. intros f v H. vm_compute in H. discriminate H.
  - exists p, j. split; [exact Hp|]. split; [exact Hj|].
    destruct (He (Some (Metadata.Predicate "year" OpLTE (Number (f64_of_int 1999))))) as (s&Hs&Hc); [vm_compute; reflexivity|].
    exists s. split; [exact Hs|]. split; (rewrite Hc by lia; vm_compute; reflexivity).
Defined.

(** ** Metadata that a checkpoint cannot read back *)

Definition load_failure (records : list CoreRecord) : option error :=
  match MarshalRecords records with
  | Ok p => match LoadBinary (json_index p) (len records) with Ok _ => None | Err e => Some e end
  | Err e => None
  end.

(** An empty metadata key is indexed and written, and refuses to load. *)
Lemma empty_field_breaks_load :
  load_failure [metadata_record "a" {["" := Text_ "x"]}] = Some (Errorf "metadata index contains empty field").
Proof. vm_compute. reflexivity. Qed.

(** An integer is keyed by its digits and loads as the [float64] whose key is
    in scientific notation. *)
Lemma int_metadata_breaks_load :
  load_failure [metadata_record "a" {["count" := Int_ 1000000]}] = Some (Errorf "metadata posting does not match value").
Proof. vm_compute. reflexivity. Qed.
