(* ===== verification/Instances.v ===== *)
(** * Reference instances

    Concrete implementations of the interfaces segments are written against:
    the exact index of [Flat.v] for every index type, a filter index that is
    the map it stands for with equality filters on text fields, and a lexical
    index that keeps nothing.  They show that the interfaces can be
    implemented together, and the examples of the other files run on them. *)
From Stdlib Require Import ZArith Lia Ascii String.
From stdpp Require Import base tactics list gmap strings.
From S2P Require Import Prelude Core Distance TopK Index Flat Segment.
Local Open Scope string_scope.
Local Open Scope Z_scope.
Local Open Scope list_scope.

Module Reference.

Definition filter_index : Type := gmap Z (gmap string any).

(** A field equal to a text. *)
Definition text_filter : Type := string * string.

Definition text_matches (f : text_filter) (md : gmap string any) : bool :=
  match md !! f.1 with Some (Text_ t) => String.eqb t f.2 | _ => false end.

Definition evaluate (m : filter_index) (f : text_filter) : gset Z :=
  dom (base.filter (λ kv, text_matches f kv.2 = true) m).

#[global] Instance metadata_index : MetadataIndex filter_index := {|
  Expr := text_filter;
  meta_New := ∅;
  meta_Upsert := λ m o md, <[o := md]> m;
  meta_Delete := λ m o, delete o m;
  meta_Evaluate := evaluate;
|}.

#[global] Program Instance metadata_spec : MetadataSpec filter_index := {|
  meta_rep := λ m X, m = X;
  meta_matches := text_matches;
|}.
Next Obligation. done. Qed.
Next Obligation. by intros m X o md -> _. Qed.
Next Obligation. by intros m X o -> _. Qed.
Next Obligation.
  intros m X f o <-. change (o ∈ dom (base.filter (λ kv, text_matches f kv.2 = true) (m : gmap Z (gmap string any))) ↔
    ∃ md, (m : gmap Z (gmap string any)) !! o = Some md ∧ text_matches f md = true).
  rewrite elem_of_dom. split.
  - intros [md [H1 H2]%map_lookup_filter_Some]. eauto.
  - intros (md&H1&H2). exists md. by apply map_lookup_filter_Some.
Qed.

#[global] Instance lexical_index : LexicalIndex unit := {|
  lex_New := tt;
  lex_add := λ l _ _, l;
  lex_remove := λ l _ _, l;
|}.

#[global] Instance index_builders : IndexBuilders Flat.t := {|
  build_binary := λ c, Flat.New (mkIndexConfig (Dimension c) (Metric c) 0 0 0);
  build_flat := Flat.New;
  build_hnsw := Flat.New;
|}.

Lemma New_spec cfg i :
  Flat.New cfg = Ok i →
  Flat.inv i ∧ Flat.dimension i = cfg_Dimension cfg ∧ Flat.metric i = cfg_Metric cfg ∧ Flat.contents i = ∅.
Proof.
  intros H. unfold Flat.New in H. destruct (_ || _)%bool eqn:E in H; [done|]. bool_props.
  destruct (Flat.flat_New_ok cfg) as (f&Hf&Hi&Hd&Hc); [done|done|].
  unfold Flat.New in Hf. rewrite (proj2 (Z.leb_gt _ _)), H1 in Hf by done. simpl in Hf.
  assert (i = f) as -> by congruence. injection Hf as <-. done.
Qed.

#[global] Instance index_builders_spec : IndexBuildersSpec Flat.t.
Proof.
  constructor; intros c i H; by apply New_spec in H.
Qed.

(** A collection of two-dimensional vectors under the dot product, with a
    bfloat16 field. *)
Definition sample_index : IndexConfig := mkIndex IndexFlat 0 0 0 QuantizationNone 0 0 0 0.

Definition sample_config (shards : Z) : CollectionConfig :=
  mkConfig "docs" 2 MetricDot shards sample_index ""
    {["image" := mkField 1 MetricDot sample_index DatatypeBFloat16 false]}.

Definition sample_record (namespace id : string) (vector : list Z) : CoreRecord :=
  mkCoreRecord id vector ∅ {["kind" := Text_ "note"]} ∅ 0 0 namespace "" {["image" := [0x3f800001]]} ∅.

End Reference.
