(* ===== verification/Shard.v ===== *)
(** * Shards

    [internal/shard/shard.go]: a mutable segment over the sealed generation
    of the last checkpoint, with tombstones for sealed records deleted since.

    Generations live in a store of their own, since a snapshot keeps the one
    it pinned after the shard has moved to the next.  [closes] counts the
    calls of [Close] on a generation's segment.  A [Snapshot] is its
    generation and whether its [sync.Once] has fired.  The shard lock makes
    each operation one step. *)
From Stdlib Require Import ZArith Lia Ascii String.
From stdpp Require Import base tactics list gmap strings.
From S2P Require Import Prelude Core Distance TopK Index Segment.
Local Open Scope string_scope.
Local Open Scope Z_scope.
Local Open Scope list_scope.

Module Shard.
Section Shards.
Context {I MI L : Type} `{VectorIndex I, MetadataIndex MI, LexicalIndex L, IndexBuilders I}.

Local Abbreviation segment := (Segment.t I MI L).

Record generation : Type := mkGeneration {
  gen_segment : segment;
  readers : Z;
  retired : bool;
  closes : nat;
}.

Record t : Type := mk {
  id : Z;
  config : CollectionConfig;
  active : segment;
  immutable : option Z;
  generations : gmap Z generation;
  nextGen : Z;
  pinned : Z;
  closed : bool;
  tombstones : gset string;
  count : Z;
}.

Record Snapshot : Type := mkSnapshot { snap_generation : Z; once_done : bool }.

Definition New (id : Z) (config : CollectionConfig) : res t :=
  let! active := Segment.New config in
  Ok (mk id config active None ∅ 0 0 false ∅ 0).

(** [s.immutable.segment] *)
Definition base (s : t) : option segment :=
  match immutable s with
  | Some g => gen_segment <$> generations s !! g
  | None => None
  end.

Definition set_records (s : t) (a : segment) (tomb : gset string) (n : Z) : t :=
  mk (id s) (config s) a (immutable s) (generations s) (nextGen s) (pinned s) (closed s) tomb n.

Definition Upsert (s : t) (record : CoreRecord) : t * option error :=
  let k := key (Namespace record) (ID record) in
  let existed := Segment.Has (active s) (Namespace record) (ID record)
    || match base s with
       | Some b => bool_decide (k ∉ tombstones s) && Segment.Has b (Namespace record) (ID record)
       | None => false
       end in
  match Segment.Upsert (active s) record with
  | (a, Some e) => (set_records s a (tombstones s) (count s), Some e)
  | (a, None) =>
      (set_records s a (tombstones s ∖ {[k]}) (if existed then count s else count s + 1), None)
  end.

Definition Get (s : t) (namespace id : string) : res CoreRecord :=
  match Segment.Get (active s) namespace id with
  | Ok record => Ok record
  | Err e =>
      if negb (bool_decide (e = Sentinel ErrNotFound)) then Err e
      else
        match base s with
        | None => Err (Sentinel ErrNotFound)
        | Some b =>
            if bool_decide (key namespace id ∈ tombstones s) then Err (Sentinel ErrNotFound)
            else Segment.Get b namespace id
        end
  end.

(** [err != nil && err != core.ErrNotFound] *)
Definition failure (r : res CoreRecord) : option error :=
  match r with
  | Ok _ => None
  | Err e => if bool_decide (e = Sentinel ErrNotFound) then None else Some e
  end.

Definition Delete (s : t) (namespace id : string) : t * option error :=
  let k := key namespace id in
  let inActive := Segment.Get (active s) namespace id in
  let inBase := match base s with
                | Some b => Segment.Get b namespace id
                | None => Err (Sentinel ErrNotFound)
                end in
  match failure inBase with
  | Some e => (s, Some e)
  | None =>
      match failure inActive with
      | Some e => (s, Some e)
      | None =>
          if negb (is_ok inActive) && (negb (is_ok inBase) || bool_decide (k ∈ tombstones s)) then
            (s, Some (Sentinel ErrNotFound))
          else
            match (if is_ok inActive then Segment.Delete (active s) namespace id else (active s, None)) with
            | (a, Some e) => (set_records s a (tombstones s) (count s), Some e)
            | (a, None) =>
                (set_records s a (if is_ok inBase then {[k]} ∪ tombstones s else tombstones s) (count s - 1), None)
            end
      end
  end.

Definition result_ltb (a b : SearchResult) : bool :=
  f32_ltb (res_Score b) (res_Score a)
  || (f32_eqb (res_Score a) (res_Score b) && str_ltb (res_ID a) (res_ID b)).

Definition SearchFilteredWithEF (s : t) (namespace : string) (vector : list Z) (k : Z)
    (filter : option (Expr (MI := MI))) (efSearch : Z) : res (list SearchResult) :=
  let! results := Segment.SearchFilteredWithOptions (active s) namespace vector k filter ∅ efSearch in
  let! more :=
    match base s with
    | None => Ok []
    | Some b =>
        Segment.SearchFilteredWithOptions b namespace vector k filter
          (Segment.Keys (active s) ∪ tombstones s) efSearch
    end in
  Ok (take (Z.to_nat k) (sort_slice result_ltb (results ++ more))).

(** [merged[recordKey(record.Namespace, record.ID)] = record] in turn. *)
Definition put_records (m : gmap string CoreRecord) (items : list CoreRecord) : gmap string CoreRecord :=
  foldl (λ m r, <[key (Namespace r) (ID r) := r]> m) m items.

Definition Records (s : t) : list CoreRecord :=
  let merged := put_records ∅ (match base s with Some b => Segment.Records b | None => [] end) in
  let merged := foldl (λ m k, delete k m) merged (elements (tombstones s)) in
  let merged := put_records merged (Segment.Records (active s)) in
  sort_slice (by_key pair_ltb record_order) (map_to_list merged).*2.

Definition CheckpointDelta (s : t) : list CoreRecord * list string :=
  (Segment.Records (active s), sort_slice str_ltb (elements (tombstones s))).

Definition Len (s : t) : Z := count s.

(** ** Generations *)

(** [segment.Close()] when the generation has retired and nobody reads it. *)
Definition close_if (b : bool) (g : generation) : generation :=
  if b then mkGeneration (gen_segment g) (readers g) (retired g) (S (closes g)) else g.

Definition retire (g : generation) : generation :=
  close_if (readers g =? 0) (mkGeneration (gen_segment g) (readers g) true (closes g)).

Definition InstallImmutable (s : t) (base : segment) : res t :=
  let! fresh := Segment.New (config s) in
  let next := u64 (nextGen s + 1) in
  let others := match immutable s with
                | Some g => alter retire g (generations s)
                | None => generations s
                end in
  Ok (mk (id s) (config s) fresh (Some next) (<[next := mkGeneration base 0 false 0]> others) next
        (pinned s) (closed s) ∅ (Segment.Len base)).

Definition PinSnapshot (s : t) : res (t * Snapshot) :=
  if closed s then Err (Errorf "shard is closed")
  else
    match immutable s with
    | None => invalid "shard has no checkpoint generation"
    | Some g =>
        Ok (mk (id s) (config s) (active s) (immutable s)
              (alter (λ v, mkGeneration (gen_segment v) (readers v + 1) (retired v) (closes v)) g (generations s))
              (nextGen s) (pinned s + 1) (closed s) (tombstones s) (count s),
            mkSnapshot g false)
    end.

Definition HasPinnedReaders (s : t) : bool := 0 <? pinned s.

Definition release (s : t) (g : Z) : t :=
  match generations s !! g with
  | None => s
  | Some value =>
      if readers value <=? 0 then s
      else
        let n := readers value - 1 in
        mk (id s) (config s) (active s) (immutable s)
          (<[g := close_if (retired value && (n =? 0))
                    (mkGeneration (gen_segment value) n (retired value) (closes value))]> (generations s))
          (nextGen s) (pinned s - 1) (closed s) (tombstones s) (count s)
  end.

(** [r.once.Do(func() { r.shard.release(r.generation) })] *)
Definition Snapshot_Close (s : t) (r : Snapshot) : t * Snapshot :=
  if once_done r then (s, r) else (release s (snap_generation r), mkSnapshot (snap_generation r) true).

Definition Snapshot_Get (s : t) (r : Snapshot) (namespace id : string) : res CoreRecord :=
  match generations s !! snap_generation r with
  | Some g => Segment.Get (gen_segment g) namespace id
  | None => Err (Panic "no generation")
  end.

Definition Snapshot_Records (s : t) (r : Snapshot) : list CoreRecord :=
  match generations s !! snap_generation r with
  | Some g => Segment.Records (gen_segment g)
  | None => []
  end.

Definition Close (s : t) : t :=
  mk (id s) (config s) (active s) (immutable s)
    (match immutable s with Some g => alter retire g (generations s) | None => generations s end)
    (nextGen s) (pinned s) true (tombstones s) (count s).

(** ** Events *)

(** What reaches a shard from its callers and from snapshot holders; the
    snapshots taken so far are kept beside the shard. *)
Inductive event : Type :=
  | EUpsert (record : CoreRecord)
  | EDelete (namespace id : string)
  | EInstall (base : segment)
  | EPin
  | ERelease (n : nat)
  | EClose.

Definition run_event (st : t * list Snapshot) (e : event) : t * list Snapshot :=
  let '(s, pins) := st in
  match e with
  | EUpsert record => ((Upsert s record).1, pins)
  | EDelete namespace id => ((Delete s namespace id).1, pins)
  | EInstall b => match InstallImmutable s b with Ok s' => (s', pins) | Err _ => (s, pins) end
  | EPin => match PinSnapshot s with Ok (s', p) => (s', pins ++ [p]) | Err _ => (s, pins) end
  | ERelease n =>
      match pins !! n with
      | Some p => let '(s', p') := Snapshot_Close s p in (s', <[n := p']> pins)
      | None => (s, pins)
      end
  | EClose => (Close s, pins)
  end.

(** Nothing is installed and the shard is not closed again once closed. *)
Fixpoint orderly (is_closed : bool) (es : list event) : bool :=
  match es with
  | [] => true
  | EInstall _ :: rest => negb is_closed && orderly is_closed rest
  | EClose :: rest => negb is_closed && orderly true rest
  | _ :: rest => orderly is_closed rest
  end.

End Shards.
Arguments t : clear implicits.
Arguments generation : clear implicits.
End Shard.
