(* ===== verification/ShardProofs.v ===== *)
(** * Shards refine maps from keys to records

    The merged view of the mutable segment, the sealed generation and the
    tombstones behaves as one finite map under [Upsert], [Delete], [Get],
    [Records], [Len] and search, and a checkpoint installs a new generation
    without changing it. *)
From Stdlib Require Import ZArith Lia Ascii String.
From stdpp Require Import base tactics list gmap strings.
From S2P Require Import Prelude Core CoreProofs Distance TopK Index Segment SegmentProofs Shard.
Local Open Scope string_scope.
Local Open Scope Z_scope.
Local Open Scope list_scope.
Local Set Warnings "-clear-no-such-hyp".
Import Shard.

(** A map whose entries sit under their own keys, with distinct keys for
    distinct records. *)
Definition keyed (m : gmap string CoreRecord) : Prop := ∀ k r, m !! k = Some r → record_key r = k.

Lemma put_records_lookup (l : list CoreRecord) m k r :
  NoDup (record_key <$> l) →
  (put_records m l !! k = Some r) ↔
  ((r ∈ l ∧ record_key r = k) ∨ ((k ∉ (record_key <$> l)) ∧ m !! k = Some r)).
Proof.
  revert m. induction l as [|x l IH]; intros m Hnd.
  { unfold put_records. simpl. split; [intros H; right; split; [apply not_elem_of_nil|done]|].
    intros [[H _]|[_ H]]; [by apply not_elem_of_nil in H|done]. }
  rewrite fmap_cons, NoDup_cons in Hnd. destruct Hnd as [Hx Hnd].
  unfold put_records in *. simpl. rewrite (IH _ Hnd). fold (record_key x). rewrite lookup_insert_Some. split.
  - intros [[Hr Hk]|[Hk [[<- <-]|[Hne Hm]]]].
    + left. split; [by apply list_elem_of_further|done].
    + left. split; [apply list_elem_of_here|done].
    + right. split; [|done]. intros [Hk'|?]%elem_of_cons; [congruence|done].
  - intros [[[->|Hr]%elem_of_cons Hk]|[Hk Hm]].
    + right. subst k. split; [done|]. by left.
    + by left.
    + apply not_elem_of_cons in Hk as [Hk1 Hk2]. right. split; [done|]. right. done.
Qed.

(** Putting a keyed map's records over another map is their union. *)
Lemma put_records_union m0 m (l : list CoreRecord) :
  keyed m → l ≡ₚ (map_to_list m).*2 → put_records m0 l = m ∪ m0.
Proof.
  intros Hk Hl.
  assert (∀ r, r ∈ l ↔ m !! record_key r = Some r) as Hin.
  { intros r. rewrite Hl, list_elem_of_fmap. split.
    - intros ([k r']&->&H%elem_of_map_to_list). simpl. by rewrite (Hk k r' H).
    - intros H%elem_of_map_to_list. by exists (record_key r, r). }
  assert (NoDup (record_key <$> l)) as Hnd.
  { rewrite Hl, <-list_fmap_compose.
    apply NoDup_fmap_2_strong; [|apply NoDup_map_to_list].
    intros [k r] [k' r'] H%elem_of_map_to_list H'%elem_of_map_to_list. simpl. intros E.
    pose proof (Hk k r H). pose proof (Hk k' r' H'). congruence. }
  apply map_eq. intros k. apply option_eq. intros r.
  rewrite (put_records_lookup l m0 k r Hnd), lookup_union_Some_raw, Hin. split.
  - intros [[H <-]|[Hnk H]]; [by left|]. right. split; [|done].
    apply eq_None_not_Some. intros [r' H']. apply Hnk. rewrite <-(Hk k r' H').
    apply list_elem_of_fmap_2, Hin. by rewrite (Hk k r' H').
  - intros [H|[Hn H]]; [left; by rewrite (Hk k r H)|]. right. split; [|done].
    intros (r'&->&Hr')%list_elem_of_fmap. apply Hin in Hr'. congruence.
Qed.

Lemma delete_all (l : list string) (m : gmap string CoreRecord) k :
  foldl (λ m k, delete k m) m l !! k = if decide (k ∈ l) then None else m !! k.
Proof.
  revert m. induction l as [|x l IH]; intros m; cbn [foldl].
  { rewrite decide_False; [done|apply not_elem_of_nil]. }
  rewrite IH. destruct (decide (k ∈ l)) as [H|H].
  - rewrite decide_True; [done|]. by apply list_elem_of_further.
  - destruct (decide (k = x)) as [->|Hne].
    + rewrite lookup_delete_eq, decide_True; [done|apply list_elem_of_here].
    + rewrite lookup_delete_ne by done. rewrite decide_False; [done|]. by apply not_elem_of_cons.
Qed.

Section Refinement.
Context {I MI L : Type} `{!VectorIndex I, !VectorIndexSpec I, !MetadataIndex MI, !MetadataSpec MI,
  !LexicalIndex L, !IndexBuilders I, !IndexBuildersSpec I}.

Local Abbreviation shard := (Shard.t I MI L).

(** The records a segment stands for, as explained by some numbering. *)
Definition holds (cfg : CollectionConfig) (sg : Segment.t I MI L) (m : gmap string CoreRecord) : Prop :=
  ∃ full, seg_inv cfg sg full ∧ m = view sg full.

Lemma holds_keyed cfg sg m : holds cfg sg m → keyed m.
Proof. intros (full&Hi&->) k r. apply (view_key cfg), Hi. Qed.

Lemma holds_prepared cfg sg m k r : holds cfg sg m → m !! k = Some r → prepared cfg r.
Proof.
  intros (full&Hi&->) (o&_&Hr)%(view_lookup cfg sg full k r Hi). by apply (si_prepared cfg sg full Hi o).
Qed.

Lemma holds_Get cfg sg m ns i :
  holds cfg sg m → Segment.Get sg ns i = match m !! key ns i with Some r => Ok r | None => Err (Sentinel ErrNotFound) end.
Proof. intros (full&Hi&->). by apply (SegmentProofs.Get_ok cfg). Qed.

Lemma holds_Has cfg sg m ns i : holds cfg sg m → Segment.Has sg ns i = bool_decide (is_Some (m !! key ns i)).
Proof. intros (full&Hi&->). by apply (SegmentProofs.Has_ok cfg). Qed.

Lemma holds_Records cfg sg m :
  holds cfg sg m → Segment.Records sg = sort_slice (by_key pair_ltb record_order) (map_to_list m).*2.
Proof. intros (full&Hi&->). by apply (SegmentProofs.Records_ok cfg). Qed.

Lemma holds_Keys cfg sg m : holds cfg sg m → Segment.Keys sg = dom m.
Proof. intros (full&Hi&->). by apply (SegmentProofs.Keys_ok cfg). Qed.

Lemma holds_Len cfg sg m : holds cfg sg m → Segment.Len sg = Z.of_nat (size m).
Proof. intros (full&Hi&->). by apply (SegmentProofs.Len_ok cfg). Qed.

Lemma holds_orders cfg sg m : holds cfg sg m → NoDup (record_order <$> (map_to_list m).*2).
Proof. intros (full&Hi&->). by apply (view_orders cfg). Qed.

(** What the shard holds: the mutable records over the sealed ones that no
    tombstone covers. *)
Definition merged (ma mi : gmap string CoreRecord) (tomb : gset string) : gmap string CoreRecord :=
  ma ∪ base.filter (λ kr, kr.1 ∉ tomb) mi.

Record shard_inv (s : shard) (ma mi : gmap string CoreRecord) : Prop := mkShardInv {
  sh_active : holds (config s) (active s) ma;
  sh_mutable : Segment.readOnly (active s) = false;
  sh_base : match base s with
            | Some b => holds (config s) b mi
            | None => mi = ∅
            end;
  sh_tombstones : tombstones s ⊆ dom mi;
  sh_disjoint : tombstones s ## dom ma;
  sh_count : count s = Z.of_nat (size (merged ma mi (tombstones s)));
}.

Lemma merged_lookup ma mi tomb k :
  merged ma mi tomb !! k =
    match ma !! k with
    | Some r => Some r
    | None => if decide (k ∈ tomb) then None else mi !! k
    end.
Proof.
  unfold merged. destruct (ma !! k) as [r|] eqn:Ea; [by apply lookup_union_Some_l|].
  rewrite lookup_union_r by done. destruct (decide (k ∈ tomb)) as [Ht|Ht].
  - apply map_lookup_filter_None. right. intros r _ Hn. by apply Hn.
  - destruct (mi !! k) as [r|] eqn:Ei.
    + by apply map_lookup_filter_Some.
    + apply map_lookup_filter_None. by left.
Qed.

Lemma shard_New_ok i cfg s :
  New i cfg = Ok s → shard_inv s ∅ ∅ ∧ config s = cfg ∧ Segment.nextID (active s) = 1.
Proof.
  unfold New. destruct (Segment.New cfg) as [a|] eqn:E; [|done]. cbn [res_bind]. intros [= <-].
  destruct (SegmentProofs.New_ok cfg a E) as (Hi&Hv&Hro). split; [|split; [done|]].
  - constructor; simpl.
    + exists ∅. by rewrite Hv.
    + done.
    + done.
    + set_solver.
    + set_solver.
    + unfold merged. rewrite map_filter_empty. by rewrite (left_id_L ∅ (∪)), map_size_empty.
  - simpl. unfold Segment.New in E. destruct (Segment.New_index cfg); [|done]. cbn [res_bind] in E.
    destruct (Segment.build_fields _ _); [|done]. cbn [res_bind] in E. by injection E as <-.
Qed.

(** ** Mutations *)

Lemma set_records_inv s a tomb n ma mi ma' :
  shard_inv s ma mi → holds (config s) a ma' → Segment.readOnly a = false →
  tomb ⊆ dom mi → tomb ## dom ma' → n = Z.of_nat (size (merged ma' mi tomb)) →
  shard_inv (set_records s a tomb n) ma' mi.
Proof. intros Hi Ha Hro Ht Hd Hn. constructor; simpl; auto. apply Hi. Qed.

Lemma holds_Upsert cfg sg m r :
  holds cfg sg m → Segment.readOnly sg = false → prepared cfg r → Segment.nextID sg + 1 < two64 →
  ∃ sg', Segment.Upsert sg r = (sg', None) ∧ holds cfg sg' (<[record_key r := r]> m) ∧
    Segment.readOnly sg' = false ∧ Segment.nextID sg ≤ Segment.nextID sg' ≤ Segment.nextID sg + 1.
Proof.
  intros (full&Hi&->) Hro Hp Hn.
  destruct (SegmentProofs.Upsert_ok cfg sg full r Hi Hro Hp Hn) as (sg'&full'&Hu&Hi'&Hv&Hro'&Hn'&_).
  exists sg'. split; [done|]. split; [|done]. by exists full'.
Qed.

Lemma holds_Delete cfg sg m ns i :
  holds cfg sg m → Segment.readOnly sg = false → is_Some (m !! key ns i) →
  ∃ sg', Segment.Delete sg ns i = (sg', None) ∧ holds cfg sg' (delete (key ns i) m) ∧
    Segment.readOnly sg' = false ∧ Segment.nextID sg' = Segment.nextID sg.
Proof.
  intros (full&Hi&->) Hro [r Hr]. pose proof (SegmentProofs.Delete_ok cfg sg full ns i Hi Hro) as Hd.
  rewrite Hr in Hd. destruct Hd as (sg'&full'&Hd&Hi'&Hv&Hro'&Hn).
  exists sg'. split; [done|]. split; [|done]. by exists full'.
Qed.

(** The sealed side of the shard, absent before the first checkpoint. *)
Lemma base_lookup s ma mi ns i :
  shard_inv s ma mi →
  (match base s with Some b => Segment.Get b ns i | None => Err (Sentinel ErrNotFound) end)
  = match mi !! key ns i with Some r => Ok r | None => Err (Sentinel ErrNotFound) end.
Proof.
  intros Hi. pose proof (sh_base s ma mi Hi) as Hb. destruct (base s) as [b|].
  - by apply (holds_Get (config s)).
  - subst mi. by rewrite lookup_empty.
Qed.

Lemma merged_insert ma mi tomb k r : merged (<[k := r]> ma) mi (tomb ∖ {[k]}) = <[k := r]> (merged ma mi tomb).
Proof.
  apply map_eq. intros k'. rewrite merged_lookup. destruct (decide (k' = k)) as [->|Hne].
  - by rewrite !lookup_insert_eq.
  - rewrite !lookup_insert_ne by done. rewrite merged_lookup. destruct (ma !! k'); [done|].
    destruct (decide (k' ∈ tomb)); [rewrite decide_True by set_solver|rewrite decide_False by set_solver]; done.
Qed.

Lemma shard_Upsert_ok s ma mi r :
  shard_inv s ma mi → prepared (config s) r → Segment.nextID (active s) + 1 < two64 →
  ∃ s', Upsert s r = (s', None) ∧ shard_inv s' (<[record_key r := r]> ma) mi ∧
    merged (<[record_key r := r]> ma) mi (tombstones s') = <[record_key r := r]> (merged ma mi (tombstones s)) ∧
    config s' = config s ∧ Segment.nextID (active s') ≤ Segment.nextID (active s) + 1.
Proof.
  intros Hi Hp Hn. unfold Upsert.
  destruct (holds_Upsert (config s) (active s) ma r) as (a&->&Ha&Hro&Hna);
    [apply Hi|apply Hi|done|done|].
  cbv zeta. fold (record_key r).
  eexists; split; [done|]. simpl. rewrite merged_insert. split; [|split; [done|split; [done|lia]]].
  apply (set_records_inv s _ _ _ ma); auto.
  - pose proof (sh_tombstones s ma mi Hi). set_solver.
  - pose proof (sh_disjoint s ma mi Hi). rewrite dom_insert. set_solver.
  - rewrite merged_insert, (sh_count s ma mi Hi).
    assert ((Segment.Has (active s) (Namespace r) (ID r)
      || match base s with
         | Some b => bool_decide (record_key r ∉ tombstones s) && Segment.Has b (Namespace r) (ID r)
         | None => false
         end)%bool = bool_decide (is_Some (merged ma mi (tombstones s) !! record_key r))) as ->.
    { rewrite (holds_Has (config s) _ ma) by apply Hi. fold (record_key r). rewrite merged_lookup.
      pose proof (sh_base s ma mi Hi) as Hb.
      destruct (ma !! record_key r) as [r'|]; [done|]. cbn [orb bool_decide].
      rewrite (bool_decide_eq_false_2 (is_Some None)) by (by intros []). simpl.
      destruct (base s) as [b|].
      - rewrite (holds_Has (config s) _ mi) by done. fold (record_key r).
        destruct (decide (record_key r ∈ tombstones s)) as [Ht|Ht].
        + rewrite (bool_decide_eq_false_2 (record_key r ∉ tombstones s)) by (intros H; by apply H).
          symmetry. apply bool_decide_eq_false_2. by intros [].
        + by rewrite bool_decide_eq_true_2.
      - subst mi. rewrite lookup_empty. symmetry. apply bool_decide_eq_false_2. destruct (decide _); by intros []. }
    destruct (merged ma mi (tombstones s) !! record_key r) as [r'|] eqn:E.
    + rewrite bool_decide_eq_true_2 by eauto. by rewrite map_size_insert_Some by eauto.
    + rewrite bool_decide_eq_false_2 by (by intros []). rewrite map_size_insert_None by done. lia.
Qed.

Lemma merged_delete ma mi tomb k :
  merged (delete k ma) mi (match mi !! k with Some _ => {[k]} ∪ tomb | None => tomb end)
  = delete k (merged ma mi tomb).
Proof.
  apply map_eq. intros k'. rewrite merged_lookup. destruct (decide (k' = k)) as [->|Hne].
  - rewrite !lookup_delete_eq. destruct (mi !! k) eqn:E; [rewrite decide_True by set_solver; done|].
    by destruct (decide _).
  - rewrite !lookup_delete_ne by done. rewrite merged_lookup. destruct (ma !! k'); [done|].
    destruct (mi !! k); [|done].
    destruct (decide (k' ∈ tomb)); [rewrite decide_True by set_solver|rewrite decide_False by set_solver]; done.
Qed.

Lemma shard_Delete_ok s ma mi ns i :
  shard_inv s ma mi →
  match merged ma mi (tombstones s) !! key ns i with
  | None => Delete s ns i = (s, Some (Sentinel ErrNotFound))
  | Some _ =>
      ∃ s', Delete s ns i = (s', None) ∧ shard_inv s' (delete (key ns i) ma) mi ∧
        merged (delete (key ns i) ma) mi (tombstones s') = delete (key ns i) (merged ma mi (tombstones s)) ∧
        config s' = config s ∧ Segment.nextID (active s') = Segment.nextID (active s)
  end.
Proof.
  intros Hi. unfold Delete. cbv zeta. rewrite (base_lookup s ma mi ns i Hi).
  rewrite (holds_Get (config s) (active s) ma) by apply Hi. set (k := key ns i).
  pose proof (sh_tombstones s ma mi Hi) as Ht. pose proof (sh_disjoint s ma mi Hi) as Hd.
  pose proof (merged_delete ma mi (tombstones s) k) as Hm.
  assert (merged ma mi (tombstones s) !! k =
    match ma !! k with Some r => Some r | None => if decide (k ∈ tombstones s) then None else mi !! k end) as Hmk
    by apply merged_lookup.
  assert (∀ a, holds (config s) a (delete k ma) → Segment.readOnly a = false →
    is_Some (merged ma mi (tombstones s) !! k) →
    shard_inv (set_records s a (match mi !! k with Some _ => {[k]} ∪ tombstones s | None => tombstones s end) (count s - 1))
      (delete k ma) mi) as Hset.
  { intros a Ha Hro [r Hr]. apply (set_records_inv s _ _ _ ma); auto.
    - destruct (mi !! k) eqn:E; [|done]. apply elem_of_dom_2 in E. set_solver.
    - rewrite dom_delete. destruct (mi !! k); set_solver.
    - rewrite Hm, (sh_count s ma mi Hi), map_size_delete_Some by eauto.
      assert (size (merged ma mi (tombstones s)) ≠ 0%nat); [|lia].
      intros E%map_size_empty_inv. rewrite E, lookup_empty in Hr. done. }
  destruct (ma !! k) as [r|] eqn:Ea; simpl.
  - rewrite Hmk in *. destruct (holds_Delete (config s) (active s) ma ns i) as (a&Hda&Ha&Hro&Hn);
      [apply Hi|apply Hi|unfold k in Ea; rewrite Ea; eauto|].
    destruct (mi !! k) as [r'|] eqn:Ei; simpl; rewrite Hda; eexists; (split; [done|]);
      (split; [apply Hset; eauto|done]).
  - rewrite (delete_id ma k Ea) in *.
    destruct (mi !! k) as [r'|] eqn:Ei; simpl.
    + destruct (decide (k ∈ tombstones s)) as [Hk|Hk]; rewrite Hmk.
      * by rewrite bool_decide_eq_true_2.
      * rewrite bool_decide_eq_false_2 by done. eexists; split; [done|]. simpl.
        split; [apply Hset; [apply Hi|apply Hi|rewrite Hmk; eauto]|done].
    + rewrite Hmk. by destruct (decide _).
Qed.

(** ** Reads *)

(** The tombstones a mutation leaves. *)
Lemma Upsert_tombstones (s s' : shard) r e : Upsert s r = (s', e) → tombstones s' ⊆ tombstones s.
Proof. unfold Upsert. cbv zeta. destruct (Segment.Upsert _ _) as [a [e'|]]; intros [= <- _]; simpl; set_solver. Qed.

Lemma Delete_tombstones (s s' : shard) ns i : Delete s ns i = (s', None) → tombstones s' ⊆ {[key ns i]} ∪ tombstones s.
Proof.
  unfold Delete. cbv zeta. destruct (failure _); [done|]. destruct (failure _); [done|]. destruct (_ && _); [done|].
  destruct (if is_ok _ then _ else _) as [a [e|]]; intros [= <-].
  simpl. destruct (is_ok _); set_solver.
Qed.

Lemma shard_Get_ok s ma mi ns i :
  shard_inv s ma mi →
  Get s ns i = match merged ma mi (tombstones s) !! key ns i with
               | Some r => Ok r
               | None => Err (Sentinel ErrNotFound)
               end.
Proof.
  intros Hi. unfold Get. rewrite (holds_Get (config s) (active s) ma) by apply Hi. rewrite merged_lookup.
  pose proof (base_lookup s ma mi ns i Hi) as Hb. destruct (ma !! key ns i); [done|].
  rewrite bool_decide_eq_true_2 by done. simpl. destruct (base s) as [b|].
  - destruct (decide (key ns i ∈ tombstones s)); [by rewrite bool_decide_eq_true_2|].
    by rewrite bool_decide_eq_false_2.
  - destruct (decide _); [done|]. exact Hb.
Qed.

Lemma merged_keyed s ma mi : shard_inv s ma mi → keyed (merged ma mi (tombstones s)).
Proof.
  intros Hi k r. rewrite merged_lookup. destruct (ma !! k) eqn:Ea.
  - intros [= <-]. apply (holds_keyed (config s) (active s) ma (sh_active s ma mi Hi) k _ Ea).
  - destruct (decide _); [done|]. pose proof (sh_base s ma mi Hi) as Hb.
    destruct (base s) as [b|]; [apply (holds_keyed (config s) b mi Hb)|]. subst mi. by rewrite lookup_empty.
Qed.

Lemma shard_Records_ok s ma mi :
  shard_inv s ma mi →
  Records s = sort_slice (by_key pair_ltb record_order) (map_to_list (merged ma mi (tombstones s))).*2.
Proof.
  intros Hi. unfold Records. cbv zeta.
  assert (put_records ∅ (match base s with Some b => Segment.Records b | None => [] end) = mi) as ->.
  { pose proof (sh_base s ma mi Hi) as Hb. destruct (base s) as [b|]; [|by subst mi].
    rewrite (put_records_union ∅ mi); [by rewrite (right_id_L ∅ (∪))|by apply (holds_keyed (config s) b)|].
    rewrite (holds_Records (config s) b mi Hb). apply sort_slice_perm. }
  rewrite (put_records_union _ ma).
  - do 3 f_equal. apply map_eq. intros k. rewrite merged_lookup. destruct (ma !! k) as [r|] eqn:Ea.
    { by apply lookup_union_Some_l. }
    rewrite lookup_union_r by done. rewrite delete_all.
    destruct (decide (k ∈ tombstones s)); [rewrite decide_True by by apply elem_of_elements|
      rewrite decide_False by (by rewrite elem_of_elements)]; done.
  - apply (holds_keyed (config s) (active s)), Hi.
  - rewrite (holds_Records (config s) (active s) ma) by apply Hi. apply sort_slice_perm.
Qed.

Lemma shard_Len_ok s ma mi : shard_inv s ma mi → Len s = Z.of_nat (size (merged ma mi (tombstones s))).
Proof. intros Hi. apply Hi. Qed.

(** ** Checkpoints *)

Lemma upsert_all_ok cfg (items : list CoreRecord) sg m :
  holds cfg sg m → Segment.readOnly sg = false → Forall (prepared cfg) items →
  Segment.nextID sg + len items < two64 →
  ∃ sg', Segment.upsert_all sg items = Ok sg' ∧ holds cfg sg' (put_records m items).
Proof.
  revert sg m. induction items as [|r items IH]; intros sg m Hh Hro Hp Hn; [eauto|].
  inversion Hp as [|?? Hr Hp']; subst. unfold len in Hn. cbn [length] in Hn.
  destruct (holds_Upsert cfg sg m r Hh Hro Hr) as (sg1&Hu&Hh1&Hro1&Hn1); [lia|].
  cbn [Segment.upsert_all]. rewrite Hu. apply IH; [done|done|done|]. unfold len. lia.
Qed.

Lemma holds_seal cfg sg m :
  holds cfg sg m →
  holds cfg (Segment.mk (Segment.index sg) (Segment.nextID sg) (Segment.records sg) (Segment.ordinals sg)
    (Segment.metadata sg) true (Segment.vectorAt sg) (Segment.metric sg) (Segment.lexical sg) (Segment.named sg)) m.
Proof. intros (full&Hi&->). exists full. split; [|done]. destruct Hi. by constructor. Qed.

(** Sealing the records of a map gives a segment that holds the map. *)
Lemma NewImmutable_ok cfg m (items : list CoreRecord) fresh :
  Segment.New (I := I) (MI := MI) (L := L) cfg = Ok fresh → keyed m → items ≡ₚ (map_to_list m).*2 →
  (∀ k r, m !! k = Some r → prepared cfg r) → 1 + len items < two64 →
  ∃ sg, Segment.NewImmutable (I := I) (MI := MI) (L := L) cfg items None = Ok sg ∧ holds cfg sg m.
Proof.
  intros Hf Hk Hl Hp Hn. destruct (SegmentProofs.New_ok cfg fresh Hf) as (Hi&Hv&Hro).
  assert (Segment.nextID fresh = 1) as H1.
  { unfold Segment.New in Hf. destruct (Segment.New_index cfg); [|done]. cbn [res_bind] in Hf.
    destruct (Segment.build_fields _ _); [|done]. cbn [res_bind] in Hf. by injection Hf as <-. }
  destruct (upsert_all_ok cfg items fresh ∅) as (sg&Hu&Hh); [by exists ∅|done| |by rewrite H1|].
  { apply Forall_forall. intros r Hr. rewrite Hl in Hr. apply list_elem_of_fmap in Hr as ([k r']&->&Hr).
    apply elem_of_map_to_list in Hr. by apply (Hp k). }
  rewrite (put_records_union ∅ m items Hk Hl), (right_id_L ∅ (∪)) in Hh.
  eexists. split; [unfold Segment.NewImmutable; rewrite Hf; cbn [res_bind]; rewrite Hu; done|].
  by apply holds_seal.
Qed.

Lemma Install_ok s ma mi b m fresh :
  shard_inv s ma mi → holds (config s) b m → Segment.New (I := I) (MI := MI) (L := L) (config s) = Ok fresh →
  ∃ s', InstallImmutable s b = Ok s' ∧ shard_inv s' ∅ m ∧ merged ∅ m (tombstones s') = m ∧
    config s' = config s ∧ base s' = Some b ∧ tombstones s' = ∅ ∧ Segment.nextID (active s') = 1.
Proof.
  intros Hi Hb Hf. unfold InstallImmutable. rewrite Hf. cbn [res_bind]. cbv zeta.
  eexists; split; [done|].
  assert (merged ∅ m ∅ = m) as Hm.
  { apply map_eq. intros k. rewrite merged_lookup, lookup_empty. by rewrite decide_False by set_solver. }
  destruct (SegmentProofs.New_ok (config s) fresh Hf) as (Hfi&Hv&Hro). split; [|simpl; repeat split].
  - constructor; simpl.
    + exists ∅. by rewrite Hv.
    + done.
    + unfold base. simpl. rewrite lookup_insert_eq. simpl. done.
    + set_solver.
    + set_solver.
    + by rewrite Hm, (holds_Len (config s) b m).
  - done.
  - unfold base. simpl. by rewrite lookup_insert_eq.
  - unfold Segment.New in Hf. destruct (Segment.New_index (config s)); [|done]. cbn [res_bind] in Hf.
    destruct (Segment.build_fields _ _); [|done]. cbn [res_bind] in Hf. by injection Hf as <-.
Qed.

(** ** Search *)

Lemma values_elem (m : gmap string CoreRecord) r : keyed m → r ∈ (map_to_list m).*2 ↔ m !! record_key r = Some r.
Proof.
  intros Hk. rewrite list_elem_of_fmap. split.
  - intros ([k r']&->&H%elem_of_map_to_list). simpl. by rewrite (Hk k r' H).
  - intros H%elem_of_map_to_list. by exists (record_key r, r).
Qed.

Lemma values_nodup (m : gmap string CoreRecord) : keyed m → NoDup (map_to_list m).*2.
Proof.
  intros Hk. apply NoDup_fmap_2_strong; [|apply NoDup_map_to_list].
  intros [k r] [k' r'] H%elem_of_map_to_list H'%elem_of_map_to_list. simpl. intros ->.
  by rewrite <-(Hk k r' H), <-(Hk k' r' H').
Qed.

Lemma filter_elem {A} (f : A → bool) (l : list A) x : x ∈ List.filter f l ↔ x ∈ l ∧ f x = true.
Proof. rewrite <-(filter_bool f), list_elem_of_filter. tauto. Qed.

Lemma filter_nodup {A} (f : A → bool) (l : list A) : NoDup l → NoDup (List.filter f l).
Proof. intros H. rewrite <-(filter_bool f). by apply NoDup_filter. Qed.

Lemma hits_merged score ns filter ma mi tomb :
  keyed ma → keyed mi → keyed (merged ma mi tomb) →
  hits score ns filter ∅ (merged ma mi tomb) ≡ₚ
    hits (MI := MI) score ns filter ∅ ma ++ hits score ns filter (dom ma ∪ tomb) mi.
Proof.
  intros Ha Hi Hm. unfold hits. rewrite <-fmap_app. apply fmap_Permutation. apply NoDup_Permutation.
  - by apply filter_nodup, values_nodup.
  - apply NoDup_app. split; [by apply filter_nodup, values_nodup|]. split; [|by apply filter_nodup, values_nodup].
    intros r [Hr _]%filter_elem [_ He]%filter_elem. apply (values_elem ma r Ha) in Hr.
    unfold eligible in He. bool_props. apply elem_of_dom_2 in Hr. set_solver.
  - intros r. rewrite elem_of_app, !filter_elem, !values_elem by done. rewrite merged_lookup.
    unfold eligible. rewrite !andb_true_iff, !bool_decide_eq_true, elem_of_union, elem_of_dom.
    generalize (match filter with Some f => meta_matches f (Metadata r) | None => true end) as b.
    generalize (String.eqb (Namespace r) ns) as b'. intros b' b.
    assert (record_key r ∉ (∅ : gset string)) as He by set_solver.
    destruct (ma !! record_key r) as [r'|] eqn:Ea.
    { split; [intros [? [? _]]; by left|]. intros [[? [? _]]|(_&_&Hn)]; [done|]. exfalso. apply Hn. eauto. }
    assert (¬ is_Some (@None CoreRecord)) as Hs by (by intros []).
    assert (@None CoreRecord ≠ Some r) by done.
    destruct (decide (record_key r ∈ tomb)); tauto.
Qed.

(** Results best first, ties by the smaller id. *)
Definition result_key (r : SearchResult) : Z * string := (f32_ord (res_Score r), res_ID r).
Definition result_key_ltb (a b : Z * string) : bool := (b.1 <? a.1) || ((a.1 =? b.1) && str_ltb a.2 b.2).

#[export] Instance result_key_strict : StrictOrderB result_key_ltb.
Proof.
  unfold result_key_ltb. split.
  - intros [a i]. simpl. rewrite Z.ltb_irrefl, (ltb_irrefl (ltb := str_ltb)). by destruct (a =? a).
  - intros [a i] [b j] [c k]; simpl. rewrite !orb_true_iff, !andb_true_iff, !Z.ltb_lt, !Z.eqb_eq.
    intros [H1|[-> H1]] [H2|[-> H2]]; [left; lia|by left|by left|right].
    split; [done|]. by apply (ltb_trans i j k).
  - intros [a i] [b j]; simpl. rewrite !orb_false_iff, !andb_false_iff, !Z.ltb_ge, !Z.eqb_neq.
    intros [H1 H2] [H3 H4]. assert (a = b) as -> by lia. f_equal.
    apply ltb_total; [destruct H2|destruct H4]; congruence || lia || done.
Qed.

Definition result_order : SearchResult → SearchResult → bool := by_key result_key_ltb result_key.

#[export] Instance result_order_weak : WeakOrderB result_order.
Proof. apply by_key_weak, strict_weak, _. Qed.

Lemma result_ltb_order a b :
  comparable (res_Score a) → comparable (res_Score b) → result_ltb a b = result_order a b.
Proof.
  unfold comparable, result_ltb, result_order, by_key, result_key_ltb, result_key, f32_ltb, f32_eqb. simpl.
  by intros -> ->.
Qed.

Lemma order_coarser x y : score_better x y = true → result_order x y = true.
Proof. unfold score_better, result_order, by_key, result_key_ltb, result_key. simpl. by intros ->. Qed.

(** The answer of a search: a best-[k] set of all the hits, best first. *)
Definition answers (k : Z) (all R : list SearchResult) : Prop :=
  ordered result_order R ∧ top_set score_better (Z.to_nat k) all R.

Lemma top_set_sub {A} (better : A → A → bool) k (l R : list A) x : top_set better k l R → x ∈ R → x ∈ l.
Proof. intros (_&rest&Hp&_) Hx. rewrite Hp. set_solver. Qed.

Lemma shard_Search_ok `{!ExactIndex I} s ma mi ns query k filter ef :
  shard_inv s ma mi → len query = Dimension (config s) → 0 < k →
  let all := hits (score_of (Metric (config s)) query) ns filter ∅ (merged ma mi (tombstones s)) in
  (∀ r, r ∈ all → comparable (res_Score r)) →
  ∃ R, SearchFilteredWithEF s ns query k filter ef = Ok R ∧ answers k all R.
Proof.
  intros Hi Hq Hk. cbv zeta. intros Hc. unfold SearchFilteredWithEF.
  pose proof (holds_keyed _ _ _ (sh_active s ma mi Hi)) as Hka.
  assert (keyed mi) as Hki.
  { pose proof (sh_base s ma mi Hi) as Hb. destruct (base s); [by apply (holds_keyed _ _ _ Hb)|].
    subst mi. intros k0 r. by rewrite lookup_empty. }
  set (sc := score_of (Metric (config s)) query) in *.
  pose proof (hits_merged sc ns filter ma mi (tombstones s) Hka Hki (merged_keyed s ma mi Hi)) as Hp.
  destruct (sh_active s ma mi Hi) as (fulla&Hia&Ema).
  destruct (SegmentProofs.Search_ok (config s) (active s) fulla ns query k filter ∅ ef Hia Hq Hk) as (R1&->&H1).
  { intros r Hr. rewrite <-Ema in Hr. apply Hc. rewrite Hp. set_solver. }
  cbn [res_bind]. rewrite <-Ema in H1.
  assert (∃ R2, (match base s with
    | Some b => Segment.SearchFilteredWithOptions b ns query k filter (Segment.Keys (active s) ∪ tombstones s) ef
    | None => Ok []
    end) = Ok R2 ∧ top_set score_better (Z.to_nat k) (hits sc ns filter (dom ma ∪ tombstones s) mi) R2) as (R2&->&H2).
  { pose proof (sh_base s ma mi Hi) as Hb. destruct (base s) as [b|].
    - rewrite (holds_Keys (config s) (active s) ma) by apply Hi. destruct Hb as (fulli&Hib&Emi).
      destruct (SegmentProofs.Search_ok (config s) b fulli ns query k filter (dom ma ∪ tombstones s) ef Hib Hq Hk)
        as (R2&HR2&H2); rewrite <-Emi in *; [|by exists R2].
      intros r Hr. apply Hc. rewrite Hp. set_solver.
    - subst mi. exists []. split; [done|]. unfold hits. rewrite map_to_list_empty. apply top_set_nil. }
  cbn [res_bind]. eexists; split; [done|].
  assert (∀ r, r ∈ R1 ++ R2 → comparable (res_Score r)) as Hcr.
  { intros r Hr. apply Hc. rewrite Hp. rewrite elem_of_app in Hr |- *.
    destruct Hr as [Hr|Hr]; [left|right]; by eapply top_set_sub. }
  rewrite (sort_slice_ext result_ltb result_order)
    by (intros x y Hx Hy; apply result_ltb_order; auto).
  destruct (sort_take_top_k result_order (Z.to_nat k) (R1 ++ R2)) as [Ho Ht]. split; [done|].
  assert (top_set score_better (Z.to_nat k) (hits sc ns filter ∅ ma ++ hits sc ns filter (dom ma ∪ tombstones s) mi)
    (take (Z.to_nat k) (sort_slice result_order (R1 ++ R2)))) as (Hl&rest&Hr&Hb).
  { apply (top_set_merge score_better (Z.to_nat k) _ R1 _ R2); [done|done|].
    eapply top_set_coarser; [|exact Ht]. intros x y. apply order_coarser. }
  split; [by rewrite Hp|]. exists rest. split; [by rewrite Hp|done].
Qed.
End Refinement.
