(* ===== verification/ShardGenerations.v ===== *)
(** * Generations outlive their readers

    A sealed generation is closed only after it has been retired and its
    last reader has gone, exactly once, and what a snapshot reads never
    changes, whatever happens to the shard meanwhile. *)
From Stdlib Require Import ZArith Lia Ascii String.
From stdpp Require Import base tactics list gmap strings.
From S2P Require Import Prelude Core Distance TopK Index Flat Segment Instances Shard.
Local Open Scope string_scope.
Local Open Scope Z_scope.
Local Open Scope list_scope.
Local Set Warnings "-clear-no-such-hyp".
Import Shard.

Section Generations.
Context {I MI L : Type} `{!VectorIndex I, !MetadataIndex MI, !LexicalIndex L, !IndexBuilders I}.
Local Abbreviation shard := (Shard.t I MI L).

(** Whether a snapshot holds a generation open. *)
Definition holding (g : Z) (p : Snapshot) : bool := negb (once_done p) && (snap_generation p =? g).

Definition open_on (g : Z) (pins : list Snapshot) : Z := len (List.filter (holding g) pins).

Record gen_inv (s : shard) (pins : list Snapshot) : Prop := mkGenInv {
  gi_range g v : generations s !! g = Some v → 0 < g ≤ nextGen s;
  gi_readers g v : generations s !! g = Some v → readers v = open_on g pins;
  gi_immutable g : immutable s = Some g → ∃ v, generations s !! g = Some v ∧ (retired v = true → closed s = true);
  gi_pins p : p ∈ pins → once_done p = false → is_Some (generations s !! snap_generation p);
  gi_safe g v : generations s !! g = Some v → 0 < readers v → closes v = 0%nat;
  gi_fresh g v : generations s !! g = Some v → retired v = false → closes v = 0%nat;
  gi_next : 0 ≤ nextGen s;
}.

(** Closed exactly when retired and unread, once. *)
Definition closed_once (s : shard) : Prop :=
  ∀ g v, generations s !! g = Some v → closes v = if retired v && (readers v =? 0) then 1%nat else 0%nat.

(** Once the shard is closed, everything is retired; before, everything but
    the current generation. *)
Definition all_retired (s : shard) : Prop :=
  ∀ g v, generations s !! g = Some v → retired v = false → closed s = false ∧ immutable s = Some g.

Lemma open_on_nonneg g pins : 0 ≤ open_on g pins.
Proof. apply len_nonneg. Qed.

Lemma open_on_snoc g pins p : open_on g (pins ++ [p]) = open_on g pins + (if holding g p then 1 else 0).
Proof. unfold open_on. rewrite List.filter_app, len_app. simpl. by destruct (holding g p). Qed.

Lemma open_on_update g pins n p p' :
  pins !! n = Some p →
  open_on g (<[n := p']> pins) = open_on g pins - (if holding g p then 1 else 0) + (if holding g p' then 1 else 0).
Proof.
  intros Hn. unfold open_on. rewrite <-(take_drop_middle pins n p Hn) at 2.
  rewrite (insert_take_drop pins n p') by (by eapply lookup_lt_Some).
  rewrite !List.filter_app, !len_app. cbn [List.filter]. unfold len.
  destruct (holding g p), (holding g p'); simpl; lia.
Qed.

Lemma open_on_elem g pins p : p ∈ pins → holding g p = true → 0 < open_on g pins.
Proof.
  intros Hp Hh. unfold open_on, len. destruct (List.filter (holding g) pins) eqn:E; [|simpl; lia].
  assert (In p (List.filter (holding g) pins)) as H by (apply List.filter_In; split; [by apply list_elem_of_In|done]).
  by rewrite E in H.
Qed.

(** ** Operations that leave generations alone *)

Definition same_generations (s s' : shard) : Prop :=
  generations s' = generations s ∧ immutable s' = immutable s ∧ nextGen s' = nextGen s ∧ closed s' = closed s.

Lemma Upsert_same s r : same_generations s (Upsert s r).1.
Proof. unfold Upsert. cbv zeta. by destruct (Segment.Upsert (active s) r) as [a [e|]]. Qed.

Lemma Delete_same s ns i : same_generations s (Delete s ns i).1.
Proof.
  unfold Delete. cbv zeta. destruct (failure _); [done|]. destruct (failure _); [done|].
  destruct (negb _ && _)%bool; [done|].
  match goal with |- context [match ?x with (_, _) => _ end] => by destruct x as [a [e|]] end.
Qed.

Lemma gen_inv_same s s' pins : same_generations s s' → gen_inv s pins → gen_inv s' pins.
Proof. intros (E1&E2&E3&E4) [H1 H2 H3 H4 H5 H6 H7]. constructor; rewrite ?E1, ?E2, ?E3, ?E4; done. Qed.

Lemma closed_once_same s s' : same_generations s s' → closed_once s → closed_once s'.
Proof. intros (E1&_) H. unfold closed_once. by rewrite E1. Qed.

Lemma all_retired_same s s' : same_generations s s' → all_retired s → all_retired s'.
Proof. intros (E1&E2&_&E4) H. unfold all_retired. by rewrite E1, E2, E4. Qed.

(** ** Retiring *)

Lemma retire_readers (v : generation I MI L) : readers (retire v) = readers v.
Proof. unfold retire, close_if. by destruct (_ =? 0). Qed.

Lemma retire_retired (v : generation I MI L) : retired (retire v) = true.
Proof. unfold retire, close_if. by destruct (_ =? 0). Qed.

Lemma retire_segment (v : generation I MI L) : gen_segment (retire v) = gen_segment v.
Proof. unfold retire, close_if. by destruct (_ =? 0). Qed.

Lemma retire_closes (v : generation I MI L) : closes (retire v) = (closes v + (if (readers v =? 0)%Z then 1 else 0))%nat.
Proof. unfold retire, close_if. destruct (_ =? 0); simpl; lia. Qed.

(** The store after the current generation, if any, has been retired. *)
Definition retire_current (s : shard) : gmap Z (generation I MI L) :=
  match immutable s with Some g => alter retire g (generations s) | None => generations s end.

Lemma retire_current_lookup s g v' :
  retire_current s !! g = Some v' →
  ∃ v, generations s !! g = Some v ∧
    (v' = v ∧ immutable s ≠ Some g ∨ v' = retire v ∧ immutable s = Some g).
Proof.
  unfold retire_current. destruct (immutable s) as [g0|]; [|eauto].
  destruct (decide (g = g0)) as [->|Hne].
  - rewrite lookup_alter_eq. destruct (generations s !! g0) as [v|]; [|done]. simpl. intros [= <-]. eauto.
  - rewrite lookup_alter_ne by done. intros Hv. exists v'. split; [done|]. left. split; [done|congruence].
Qed.

Lemma retire_current_some s g : is_Some (generations s !! g) → is_Some (retire_current s !! g).
Proof.
  unfold retire_current. destruct (immutable s) as [g0|]; [|done]. intros [v Hv].
  destruct (decide (g = g0)) as [->|Hne]; [rewrite lookup_alter_eq, Hv; simpl; eauto|].
  rewrite lookup_alter_ne by done. eauto.
Qed.

Lemma retire_safe s pins g v :
  gen_inv s pins → retire_current s !! g = Some v →
  readers v = open_on g pins ∧ (0 < readers v → closes v = 0%nat) ∧ (retired v = false → closes v = 0%nat).
Proof.
  intros Hi Hv. destruct (retire_current_lookup s g v Hv) as (v0&H0&[[-> _]|[-> _]]).
  - split; [by apply (gi_readers s pins Hi)|]. split; [by apply (gi_safe s pins Hi g)|by apply (gi_fresh s pins Hi g)].
  - rewrite retire_readers, retire_retired, retire_closes.
    split; [by apply (gi_readers s pins Hi)|]. split; [|done].
    intros Hr. rewrite (gi_safe s pins Hi g v0 H0 Hr). by rewrite (proj2 (Z.eqb_neq _ _)) by lia.
Qed.

(** ** Every event keeps the invariant *)

Lemma Install_gen_ok s pins b s' :
  gen_inv s pins → nextGen s + 1 < two64 → InstallImmutable s b = Ok s' →
  gen_inv s' pins ∧ nextGen s' = nextGen s + 1 ∧ (closed s = false → closed_once s → all_retired s →
    closed_once s' ∧ all_retired s' ∧ closed s' = false).
Proof.
  intros Hi Hn. unfold InstallImmutable. destruct (Segment.New (config s)) as [a|]; [|done]. cbn [res_bind]. cbv zeta.
  pose proof (gi_next s pins Hi) as Hn0. rewrite u64_small by lia. fold (retire_current s). intros [= <-].
  assert (retire_current s !! (nextGen s + 1) = None) as Hnone.
  { destruct (retire_current s !! (nextGen s + 1)) as [v|] eqn:E; [|done].
    destruct (retire_current_lookup s _ v E) as (v0&H0&_). pose proof (gi_range s pins Hi _ v0 H0). lia. }
  split; [|split; [done|]].
  - constructor; simpl.
    + intros g v. rewrite lookup_insert_Some. intros [[<- _]|[_ Hv]]; [lia|].
      destruct (retire_current_lookup s g v Hv) as (v0&H0&_). pose proof (gi_range s pins Hi g v0 H0). lia.
    + intros g v. rewrite lookup_insert_Some. intros [[<- <-]|[_ Hv]]; [|by apply (retire_safe s pins g v Hi Hv)].
      simpl. destruct (decide (0 < open_on (nextGen s + 1) pins)) as [Hpos|Hz];
        [|pose proof (open_on_nonneg (nextGen s + 1) pins); lia].
      exfalso. unfold open_on, len in Hpos.
      destruct (List.filter (holding (nextGen s + 1)) pins) as [|p l] eqn:E; [simpl in Hpos; lia|].
      assert (In p (List.filter (holding (nextGen s + 1)) pins)) as Hp by (rewrite E; by left).
      apply List.filter_In in Hp as [Hp Hh]. unfold holding in Hh. bool_props.
      apply list_elem_of_In in Hp. destruct (gi_pins s pins Hi p Hp) as [v Hv]; [done|].
      pose proof (gi_range s pins Hi _ v Hv). lia.
    + intros g [= <-]. rewrite lookup_insert_eq. eexists; split; [done|]. simpl. done.
    + intros p Hp Ho. destruct (decide (nextGen s + 1 = snap_generation p)) as [<-|Hne]; [by rewrite lookup_insert_eq|].
      rewrite lookup_insert_ne by done. by apply retire_current_some, (gi_pins s pins Hi).
    + intros g v. rewrite lookup_insert_Some. intros [[_ <-]|[_ Hv]]; [done|]. by apply (retire_safe s pins g v Hi Hv).
    + intros g v. rewrite lookup_insert_Some. intros [[_ <-]|[_ Hv]]; [done|]. by apply (retire_safe s pins g v Hi Hv).
    + lia.
  - intros Hc Hco Har. split; [|split; [|done]].
    + intros g v. simpl. rewrite lookup_insert_Some. intros [[_ <-]|[_ Hv]]; [done|].
      destruct (retire_current_lookup s g v Hv) as (v0&H0&[[-> _]|[-> Him]]); [by apply (Hco g)|].
      rewrite retire_closes, retire_retired, retire_readers. destruct (gi_immutable s pins Hi g Him) as (v1&H1&Hr1).
      assert (v1 = v0) as -> by congruence. rewrite (gi_fresh s pins Hi g v0 H0); [done|].
      destruct (retired v0); [|done]. rewrite Hr1 in Hc; done.
    + intros g v. simpl. rewrite lookup_insert_Some. intros [[<- <-]|[Hne Hv]]; [done|]. intros Hr.
      destruct (retire_current_lookup s g v Hv) as (v0&H0&[[-> Him]|[-> _]]); [|by rewrite retire_retired in Hr].
      by destruct (Har g v0 H0 Hr).
Qed.

Lemma Close_gen_ok s pins :
  gen_inv s pins → gen_inv (Close s) pins ∧ nextGen (Close s) = nextGen s ∧
    (closed s = false → closed_once s → all_retired s → closed_once (Close s) ∧ all_retired (Close s)).
Proof.
  intros Hi. unfold Close. fold (retire_current s). split; [|split; [done|]].
  - constructor; simpl.
    + intros g v Hv. destruct (retire_current_lookup s g v Hv) as (v0&H0&_). by apply (gi_range s pins Hi g v0).
    + intros g v Hv. by apply (retire_safe s pins g v Hi Hv).
    + intros g Hg. destruct (gi_immutable s pins Hi g Hg) as (v&Hv&_).
      destruct (retire_current_some s g) as [v' Hv']; [eauto|]. eauto.
    + intros p Hp Ho. by apply retire_current_some, (gi_pins s pins Hi).
    + intros g v Hv. by apply (retire_safe s pins g v Hi Hv).
    + intros g v Hv. by apply (retire_safe s pins g v Hi Hv).
    + apply Hi.
  - intros Hc Hco Har. split; intros g v; simpl; intros Hv;
      destruct (retire_current_lookup s g v Hv) as (v0&H0&[[-> Him]|[-> Him]]).
    + by apply (Hco g).
    + rewrite retire_closes, retire_retired, retire_readers. destruct (gi_immutable s pins Hi g Him) as (v1&H1&Hr1).
      assert (v1 = v0) as -> by congruence. rewrite (gi_fresh s pins Hi g v0 H0); [done|].
      destruct (retired v0); [|done]. rewrite Hr1 in Hc; done.
    + intros Hr. by destruct (Har g v0 H0 Hr).
    + by rewrite retire_retired.
Qed.

Lemma Pin_gen_ok s pins s' p :
  gen_inv s pins → PinSnapshot s = Ok (s', p) →
  gen_inv s' (pins ++ [p]) ∧ nextGen s' = nextGen s ∧ closed s' = closed s ∧
    (closed_once s → all_retired s → closed_once s' ∧ all_retired s').
Proof.
  intros Hi. unfold PinSnapshot. destruct (closed s) eqn:Hc; [done|].
  destruct (immutable s) as [g0|] eqn:Him; [|done]. intros [= <- <-].
  destruct (gi_immutable s pins Hi g0 Him) as (v0&H0&Hr0).
  assert (retired v0 = false) as Hret by (destruct (retired v0); [rewrite Hr0 in Hc|]; done).
  pose proof (gi_fresh s pins Hi g0 v0 H0 Hret) as Hcl.
  set (bump := λ v : generation I MI L, mkGeneration (gen_segment v) (readers v + 1) (retired v) (closes v)).
  assert (∀ g v, alter bump g0 (generations s) !! g = Some v →
    (g = g0 ∧ v = bump v0) ∨ (g ≠ g0 ∧ generations s !! g = Some v)) as Hlook.
  { intros g v. destruct (decide (g = g0)) as [->|Hne].
    - rewrite lookup_alter_eq, H0. simpl. intros [= <-]. by left.
    - rewrite lookup_alter_ne by done. by right. }
  split; [|split; [done|split; [done|]]].
  - constructor; simpl.
    + intros g v Hv. destruct (Hlook g v Hv) as [[-> _]|[_ H]]; by eapply (gi_range s pins Hi).
    + intros g v Hv. rewrite open_on_snoc. unfold holding. simpl. destruct (Hlook g v Hv) as [[-> ->]|[Hne H]].
      * rewrite Z.eqb_refl. simpl. by rewrite (gi_readers s pins Hi g0 v0 H0).
      * rewrite (proj2 (Z.eqb_neq _ _)) by done. rewrite (gi_readers s pins Hi g v H). lia.
    + intros g [= <-]. exists (bump v0). rewrite lookup_alter_eq, H0. split; [done|]. simpl. by rewrite Hret.
    + intros p [Hp| ->%list_elem_of_singleton]%elem_of_app Ho; simpl.
      * destruct (gi_pins s pins Hi p Hp Ho) as [v Hv]. destruct (decide (snap_generation p = g0)) as [->|Hne].
        { rewrite lookup_alter_eq, H0. simpl. eauto. } rewrite lookup_alter_ne by done. eauto.
      * rewrite lookup_alter_eq, H0. simpl. eauto.
    + intros g v Hv. destruct (Hlook g v Hv) as [[-> ->]|[_ H]]; [done|by apply (gi_safe s pins Hi g)].
    + intros g v Hv. destruct (Hlook g v Hv) as [[-> ->]|[_ H]]; [done|by apply (gi_fresh s pins Hi g)].
    + apply Hi.
  - intros Hco Har. split; intros g v; simpl; intros Hv; destruct (Hlook g v Hv) as [[-> ->]|[_ H]]; simpl.
    + rewrite Hret. done.
    + by apply (Hco g).
    + done.
    + intros Hr. destruct (Har g v H Hr). split; [done|congruence].
Qed.

Lemma Release_gen_ok s pins n p :
  gen_inv s pins → pins !! n = Some p →
  gen_inv (Snapshot_Close s p).1 (<[n := (Snapshot_Close s p).2]> pins) ∧
  nextGen (Snapshot_Close s p).1 = nextGen s ∧ closed (Snapshot_Close s p).1 = closed s ∧
    (closed_once s → all_retired s → closed_once (Snapshot_Close s p).1 ∧ all_retired (Snapshot_Close s p).1).
Proof.
  intros Hi Hn. unfold Snapshot_Close. destruct (once_done p) eqn:Ho; cbn [fst snd].
  { rewrite list_insert_id by done. by split. }
  pose proof (list_elem_of_lookup_2 pins n p Hn) as Hp. set (g0 := snap_generation p).
  destruct (gi_pins s pins Hi p Hp Ho) as [v0 H0]. fold g0 in H0.
  assert (holding g0 p = true) as Hh by (unfold holding, g0; rewrite Ho, Z.eqb_refl; done).
  pose proof (open_on_elem g0 pins p Hp Hh) as Hpos. rewrite <-(gi_readers s pins Hi g0 v0 H0) in Hpos.
  unfold release. rewrite H0, (proj2 (Z.leb_gt _ _)) by lia. cbv zeta.
  set (v1 := close_if _ _).
  assert (readers v1 = readers v0 - 1 ∧ retired v1 = retired v0 ∧
    closes v1 = (closes v0 + (if retired v0 && (readers v0 - 1 =? 0)%Z then 1 else 0))%nat) as (Er&Et&Ec).
  { unfold v1, close_if. destruct (retired v0 && (readers v0 - 1 =? 0)); simpl; (split; [done|split; [done|lia]]). }
  pose proof (gi_safe s pins Hi g0 v0 H0 Hpos) as Hc0.
  split; [|split; [done|split; [done|]]].
  - constructor; simpl.
    + intros g v. rewrite lookup_insert_Some. intros [[<- _]|[_ Hv]]; by eapply (gi_range s pins Hi).
    + intros g v. rewrite (open_on_update g pins n p _ Hn).
      assert (holding g (mkSnapshot g0 true) = false) as -> by done.
      rewrite lookup_insert_Some. intros [[<- <-]|[Hne Hv]].
      * rewrite Hh, Er, (gi_readers s pins Hi g0 v0 H0). lia.
      * assert (holding g p = false) as ->.
        { unfold holding. fold g0. rewrite (proj2 (Z.eqb_neq _ _)) by done. apply andb_false_r. }
        rewrite (gi_readers s pins Hi g v Hv). lia.
    + intros g Hg. destruct (gi_immutable s pins Hi g Hg) as (v&Hv&Hr). destruct (decide (g0 = g)) as [<-|Hne].
      * rewrite lookup_insert_eq. eexists; split; [done|]. rewrite Et. assert (v = v0) as -> by congruence. done.
      * rewrite lookup_insert_ne by done. eauto.
    + intros q Hq Hoq. assert (is_Some (generations s !! snap_generation q)) as Hs.
      { apply list_elem_of_lookup in Hq as [j Hj]. apply list_lookup_insert_Some in Hj as [(_&<-&_)|(_&Hj)]; [done|].
        apply (gi_pins s pins Hi q); [by eapply list_elem_of_lookup_2|done]. }
      destruct (decide (g0 = snap_generation q)) as [<-|Hne]; [by rewrite lookup_insert_eq|by rewrite lookup_insert_ne].
    + intros g v. rewrite lookup_insert_Some. intros [[<- <-]|[_ Hv]]; [|by apply (gi_safe s pins Hi g)].
      rewrite Er, Ec, Hc0. intros Hr. rewrite (proj2 (Z.eqb_neq _ _)) by lia. by rewrite andb_false_r.
    + intros g v. rewrite lookup_insert_Some. intros [[<- <-]|[_ Hv]]; [|by apply (gi_fresh s pins Hi g)].
      rewrite Et, Ec. intros ->. rewrite Hc0. done.
    + apply Hi.
  - intros Hco Har. split; intros g v; simpl; rewrite lookup_insert_Some; intros [[<- <-]|[_ Hv]].
    + by rewrite Ec, Er, Et, Hc0.
    + by apply (Hco g).
    + rewrite Et. by apply Har.
    + by apply Har.
Qed.

(** ** Histories *)

Lemma event_ok s pins e s' pins' :
  gen_inv s pins → nextGen s + 1 < two64 → run_event (s, pins) e = (s', pins') →
  gen_inv s' pins' ∧ nextGen s ≤ nextGen s' ≤ nextGen s + 1 ∧
  (closed_once s → all_retired s → (∀ rest, orderly (closed s) (e :: rest) = true → orderly (closed s') rest = true ∧
     closed_once s' ∧ all_retired s')).
Proof.
  intros Hi Hn. unfold run_event. destruct e as [r|ns i|b| |n|].
  - intros [= <- <-]. pose proof (Upsert_same s r) as Hs. split; [by eapply gen_inv_same|].
    pose proof Hs as (_&_&->&Hc). split; [lia|]. intros Hco Har rest Hr. rewrite Hc.
    split; [done|]. split; [by eapply closed_once_same|by eapply all_retired_same].
  - intros [= <- <-]. pose proof (Delete_same s ns i) as Hs. split; [by eapply gen_inv_same|].
    pose proof Hs as (_&_&->&Hc). split; [lia|]. intros Hco Har rest Hr. rewrite Hc.
    split; [done|]. split; [by eapply closed_once_same|by eapply all_retired_same].
  - destruct (InstallImmutable s b) as [s1|e] eqn:E; intros [= <- <-].
    + destruct (Install_gen_ok s pins b s1 Hi Hn E) as (Hi'&->&Hx). split; [done|]. split; [lia|].
      intros Hco Har rest Hr. cbn [orderly] in Hr. apply andb_true_iff in Hr as [Hcl Hr]. apply negb_true_iff in Hcl.
      destruct (Hx Hcl Hco Har) as (?&?&->). rewrite Hcl in Hr. done.
    + split; [done|]. split; [lia|]. intros Hco Har rest Hr. cbn [orderly] in Hr.
      apply andb_true_iff in Hr as [_ Hr]. done.
  - destruct (PinSnapshot s) as [[s1 p]|e] eqn:E; intros [= <- <-].
    + destruct (Pin_gen_ok s pins s1 p Hi E) as (Hi'&->&->&Hx). split; [done|]. split; [lia|].
      intros Hco Har rest Hr. destruct (Hx Hco Har). done.
    + split; [done|]. split; [lia|]. intros Hco Har rest Hr. done.
  - destruct (pins !! n) as [p|] eqn:Hp.
    + destruct (Release_gen_ok s pins n p Hi Hp) as (Hi'&Hn'&Hc'&Hx).
      destruct (Snapshot_Close s p) as [s1 p1]. cbn [fst snd] in *. intros [= <- <-].
      split; [done|]. rewrite Hn'. split; [lia|]. intros Hco Har rest Hr. rewrite Hc'.
      destruct (Hx Hco Har). done.
    + intros [= <- <-]. split; [done|]. split; [lia|]. intros Hco Har rest Hr. done.
  - intros [= <- <-]. destruct (Close_gen_ok s pins Hi) as (Hi'&->&Hx). split; [done|]. split; [lia|].
    intros Hco Har rest Hr. cbn [orderly] in Hr. apply andb_true_iff in Hr as [Hcl Hr]. apply negb_true_iff in Hcl.
    destruct (Hx Hcl Hco Har). done.
Qed.

Lemma history_ok (es : list event) s pins s' pins' :
  gen_inv s pins → nextGen s + len es < two64 → foldl run_event (s, pins) es = (s', pins') →
  gen_inv s' pins' ∧ nextGen s' ≤ nextGen s + len es ∧
  (closed_once s → all_retired s → orderly (closed s) es = true → closed_once s' ∧ all_retired s').
Proof.
  revert s pins. induction es as [|e es IH]; intros s pins Hi Hn; cbn [foldl].
  { intros [= <- <-]. split; [done|]. split; [unfold len; simpl; lia|done]. }
  unfold len in Hn. cbn [length] in Hn. destruct (run_event (s, pins) e) as [s1 pins1] eqn:E. intros Hrun.
  destruct (event_ok s pins e s1 pins1 Hi ltac:(lia) E) as (Hi1&Hn1&Hx).
  destruct (IH s1 pins1 Hi1) as (Hi'&Hn'&Hy); [unfold len; lia|done|]. split; [done|].
  split; [unfold len in *; cbn [length]; lia|].
  intros Hco Har Hr. destruct (Hx Hco Har es Hr) as (Hr1&?&?). by apply Hy.
Qed.

Lemma event_segment s pins e s' pins' g v :
  gen_inv s pins → nextGen s + 1 < two64 → run_event (s, pins) e = (s', pins') → generations s !! g = Some v →
  ∃ v', generations s' !! g = Some v' ∧ gen_segment v' = gen_segment v.
Proof.
  intros Hi Hn Hrun Hv. unfold run_event in Hrun. destruct e as [r|ns i|b| |n|].
  - injection Hrun as <- <-. destruct (Upsert_same s r) as (->&_). eauto.
  - injection Hrun as <- <-. destruct (Delete_same s ns i) as (->&_). eauto.
  - unfold InstallImmutable in Hrun. destruct (Segment.New (config s)) as [a|]; cbn [res_bind] in Hrun;
      injection Hrun as <- <-; [|eauto]. cbn [generations].
    pose proof (gi_range s pins Hi g v Hv). pose proof (gi_next s pins Hi).
    rewrite u64_small by lia. rewrite lookup_insert_ne by lia. destruct (immutable s) as [g0|]; [|eauto].
    destruct (decide (g = g0)) as [->|Hne]; [|rewrite lookup_alter_ne by done; eauto].
    rewrite lookup_alter_eq, Hv. simpl. eexists; split; [done|]. apply retire_segment.
  - unfold PinSnapshot in Hrun. destruct (closed s); [injection Hrun as <- <-; eauto|].
    destruct (immutable s) as [g0|]; [|injection Hrun as <- <-; eauto]. injection Hrun as <- <-. cbn [generations].
    destruct (decide (g = g0)) as [->|Hne]; [|rewrite lookup_alter_ne by done; eauto].
    rewrite lookup_alter_eq, Hv. simpl. eauto.
  - destruct (pins !! n) as [p|]; [|injection Hrun as <- <-; eauto]. unfold Snapshot_Close in Hrun.
    destruct (once_done p); injection Hrun as <- <-; [eauto|]. unfold release.
    destruct (generations s !! snap_generation p) as [v0|] eqn:H0; [|eauto].
    destruct (readers v0 <=? 0); [eauto|]. cbn [generations].
    destruct (decide (snap_generation p = g)) as [<-|Hne]; [|rewrite lookup_insert_ne by done; eauto].
    rewrite lookup_insert_eq. eexists; split; [done|]. assert (v = v0) as -> by congruence.
    unfold close_if. by destruct (_ && _)%bool.
  - injection Hrun as <- <-. cbn [Close generations]. destruct (immutable s) as [g0|]; [|eauto].
    destruct (decide (g = g0)) as [->|Hne]; [|rewrite lookup_alter_ne by done; eauto].
    rewrite lookup_alter_eq, Hv. simpl. eexists; split; [done|]. apply retire_segment.
Qed.

Lemma history_segment (es : list event) s pins s' pins' g v :
  gen_inv s pins → nextGen s + len es < two64 → foldl run_event (s, pins) es = (s', pins') →
  generations s !! g = Some v → ∃ v', generations s' !! g = Some v' ∧ gen_segment v' = gen_segment v.
Proof.
  revert s pins v. induction es as [|e es IH]; intros s pins v Hi Hn; cbn [foldl]; [intros [= <- <-]; eauto|].
  unfold len in Hn. cbn [length] in Hn. destruct (run_event (s, pins) e) as [s1 pins1] eqn:E. intros Hrun Hv.
  destruct (event_ok s pins e s1 pins1 Hi ltac:(lia) E) as (Hi1&Hn1&_).
  destruct (event_segment s pins e s1 pins1 g v Hi ltac:(lia) E Hv) as (v1&Hv1&<-).
  apply (IH s1 pins1 v1 Hi1); [unfold len; lia|done|done].
Qed.

Lemma New_gen_ok n cfg (s : shard) :
  New n cfg = Ok s → gen_inv s [] ∧ closed_once s ∧ all_retired s ∧ nextGen s = 0 ∧ closed s = false.
Proof.
  unfold New. destruct (Segment.New cfg) as [a|]; [|done]. cbn [res_bind]. intros [= <-].
  split; [|split; [|split; [|done]]].
  - constructor; simpl; try (intros g v; by rewrite lookup_empty).
    + intros p Hp. by apply not_elem_of_nil in Hp.
    + lia.
  - intros g v. simpl. by rewrite lookup_empty.
  - intros g v. simpl. by rewrite lookup_empty.
Qed.

(** C20. Every sealed generation is closed exactly once, and never under a
    reader.  After any history of a new shard (writes, deletes, checkpoints,
    pinned and released snapshots, closing) a generation some open snapshot
    holds has not been closed; and when nothing was installed and no second
    close came after a close, each generation has been closed exactly once if
    it is retired and unread, and not at all otherwise, the unretired one
    being the current generation of a shard still open. *)
Theorem generation_lifecycle n cfg (s0 s : shard) es pins :
  New n cfg = Ok s0 → len es < two64 → foldl run_event (s0, []) es = (s, pins) →
  ∀ g v, generations s !! g = Some v →
    readers v = open_on g pins ∧
    (0 < open_on g pins → closes v = 0%nat) ∧
    (orderly false es = true →
       closes v = (if retired v && (open_on g pins =? 0) then 1%nat else 0%nat) ∧
       (retired v = false → closed s = false ∧ immutable s = Some g)).
Proof.
  intros Hnew Hlen Hrun g v Hv. destruct (New_gen_ok n cfg s0 Hnew) as (Hi0&Hco&Har&Hn0&Hcl).
  destruct (history_ok es s0 [] s pins Hi0 ltac:(lia) Hrun) as (Hi&_&Ho).
  pose proof (gi_readers s pins Hi g v Hv) as Hr. split; [done|]. split.
  - rewrite <-Hr. by apply (gi_safe s pins Hi g).
  - intros Hord. rewrite Hcl in Ho. destruct (Ho Hco Har Hord) as [Hco' Har'].
    rewrite <-Hr. split; [by apply (Hco' g)|by apply (Har' g)].
Qed.

(** C21. A snapshot is a fixed point in time: what it reads, record by record and
    as a whole, is not changed by any later writes, deletes, checkpoints,
    releases or closing of the shard it was taken from. *)
Theorem snapshot_stable n cfg (s0 s s' : shard) es es' pins pins' m p :
  New n cfg = Ok s0 → len es + len es' < two64 →
  foldl run_event (s0, []) es = (s, pins) → foldl run_event (s, pins) es' = (s', pins') →
  pins !! m = Some p → once_done p = false →
  Snapshot_Records s' p = Snapshot_Records s p ∧
  ∀ ns i, Snapshot_Get s' p ns i = Snapshot_Get s p ns i.
Proof.
  intros Hnew Hlen Hrun Hrun' Hp Ho. destruct (New_gen_ok n cfg s0 Hnew) as (Hi0&_&_&Hn0&_).
  pose proof (len_nonneg es'). pose proof (len_nonneg es).
  destruct (history_ok es s0 [] s pins Hi0 ltac:(lia) Hrun) as (Hi&Hng&_).
  destruct (gi_pins s pins Hi p (list_elem_of_lookup_2 _ _ _ Hp) Ho) as [v Hv].
  destruct (history_segment es' s pins s' pins' _ v Hi ltac:(lia) Hrun' Hv) as (v'&Hv'&Hs).
  unfold Snapshot_Records, Snapshot_Get. by rewrite Hv, Hv', Hs.
Qed.

End Generations.

(** ** Examples *)

Import Instances.Reference.

Local Abbreviation flat_shard := (Shard.t Flat.t filter_index unit).

Definition empty_segment : Segment.t Flat.t filter_index unit :=
  match Segment.New (sample_config 1) with
  | Ok sg => sg
  | Err _ => Segment.mk (Flat.mk 0 "" [] [] ∅ []) 0 ∅ ∅ ∅ false None "" tt ∅
  end.

Definition new_shard : flat_shard :=
  match Shard.New 0 (sample_config 1) with
  | Ok s => s
  | Err _ => Shard.mk 0 (sample_config 1) empty_segment None ∅ 0 0 false ∅ 0
  end.

Lemma new_shard_ok : Shard.New 0 (sample_config 1) = Ok new_shard.
Proof.
  unfold new_shard. destruct (Shard.New 0 (sample_config 1)) as [s|e] eqn:E; [done|].
  assert (is_ok (Shard.New (I := Flat.t) (MI := filter_index) (L := unit) 0 (sample_config 1)) = true) as H
    by (vm_compute; reflexivity). by rewrite E in H.
Qed.

(** A checkpoint, a snapshot of it, and a second checkpoint behind it. *)
Definition pinned_history : list (event (I := Flat.t) (MI := filter_index) (L := unit)) :=
  [EUpsert (sample_record "n" "a" [0x3f800000; 0]); EInstall empty_segment; EPin; EInstall empty_segment].

Definition later_history : list (event (I := Flat.t) (MI := filter_index) (L := unit)) :=
  [EUpsert (sample_record "n" "b" [0x3f800000; 0]); ERelease 0; EClose].

Definition pinned_state : flat_shard * list Snapshot := foldl run_event (new_shard, []) pinned_history.

Definition later_state : flat_shard * list Snapshot := foldl run_event pinned_state later_history.

Lemma generation_lifecycle_witness :
  closes <$> generations later_state.1 !! 1 = Some 1%nat.
Proof.
  destruct (generations later_state.1 !! 1) as [v|] eqn:Hv; [|vm_compute in Hv; discriminate Hv].
  destruct (generation_lifecycle 0 (sample_config 1) new_shard later_state.1 (pinned_history ++ later_history)
    later_state.2 new_shard_ok eq_refl) with (g := 1) (v := v) as (_&_&H); [|exact Hv|].
  - rewrite foldl_app. unfold later_state, pinned_state. by destruct (foldl _ _ later_history).
  - destruct (H eq_refl) as [Hc _].
    assert (match generations later_state.1 !! 1 with Some w => retired w | None => false end = true) as Hr
      by (vm_compute; reflexivity).
    assert (open_on 1 later_state.2 = 0) as Ho by (vm_compute; reflexivity).
    rewrite Hv in Hr. change (Some (closes v) = Some 1%nat). rewrite Hc, Hr, Ho. reflexivity.
Defined.

Lemma snapshot_stable_witness :
  Snapshot_Records later_state.1 (mkSnapshot 1 false) = Snapshot_Records pinned_state.1 (mkSnapshot 1 false).
Proof.
  destruct (snapshot_stable 0 (sample_config 1) new_shard pinned_state.1 later_state.1 pinned_history later_history
    pinned_state.2 later_state.2 0 (mkSnapshot 1 false) new_shard_ok) as [H _]; [reflexivity|..|exact H].
  - apply surjective_pairing.
  - rewrite <-(surjective_pairing pinned_state). apply surjective_pairing.
  - vm_compute. reflexivity.
  - reflexivity.
Defined.
