(* ===== verification/Collection.v ===== *)
(** * Collections

    [internal/collection/collection.go]: records spread over shards by the
    FNV-1a hash of their key, and searches merged across shards by a bounded
    heap.  A shard an index selects is always present, since hashes are
    reduced modulo the number of shards and ids are checked; where the source
    would panic on an empty collection the model reports a panic.  Searches
    of the shards run concurrently in the source, each on its own shard; the
    results are gathered by shard before they are merged, so the model asks
    the shards in order.  [now] is the reading of the clock. *)
From Stdlib Require Import ZArith Lia Ascii String.
From stdpp Require Import base tactics list gmap strings.
From S2P Require Import Prelude Core Sha256 Distance TopK Index Segment Shard.
Local Open Scope string_scope.
Local Open Scope Z_scope.
Local Open Scope list_scope.

(** [hash/fnv.New64a] over a byte string. *)
Definition fnv64a (bytes : list Z) : Z :=
  foldl (λ h b, u64 (Z.lxor h b * 1099511628211)) 14695981039346656037 bytes.

(** ** Merging *)

(** [mergeTopK] compares by score, then by id. *)
Definition worseSearchResult (a b : SearchResult) : bool :=
  f32_ltb (res_Score a) (res_Score b)
  || (f32_eqb (res_Score a) (res_Score b) && str_ltb (res_ID b) (res_ID a)).

Definition betterSearchResult (a b : SearchResult) : bool := worseSearchResult b a.

Definition mergeTopK (perShard : list (list SearchResult)) (k : Z) : list SearchResult :=
  heap_select betterSearchResult (Z.to_nat k) (concat perShard).

Module Collection.
Section Collections.
Context {I MI L : Type} `{VectorIndex I, MetadataIndex MI, LexicalIndex L, IndexBuilders I}.

Local Abbreviation shard := (Shard.t I MI L).

Record t : Type := mk {
  config : CollectionConfig;
  shards : list shard;
  version : Z;
}.

Definition set_shard (c : t) (n : nat) (s : shard) (v : Z) : t := mk (config c) (<[n := s]> (shards c)) v.

Fixpoint new_shards (config : CollectionConfig) (ids : list nat) : res (list shard) :=
  match ids with
  | [] => Ok []
  | i :: rest =>
      let! s := Shard.New (Z.of_nat i) config in
      let! others := new_shards config rest in
      Ok (s :: others)
  end.

Definition New (config : CollectionConfig) : res t :=
  let config := Normalized config in
  let! _ := Validate config in
  let! ss := new_shards config (seq 0 (Z.to_nat (ShardCount config))) in
  Ok (mk config ss 0).

(** ** Routing *)

Definition route_of (shardCount : Z) (k : string) : Z := u32 (fnv64a (string_bytes k) mod shardCount).

Definition RouteShard (c : t) (namespace id : string) : Z := route_of (len (shards c)) (key namespace id).

Definition route (c : t) (namespace id : string) : option shard :=
  shards c !! Z.to_nat (RouteShard c namespace id).

Definition no_shard {A} : res A := Err (Panic "index out of range").

(** ** Mutations *)

Definition validate_record (c : t) (record : CoreRecord) : res unit :=
  let! _ := ValidateVector (Vector record) (Dimension (config c)) in
  let! _ := if (size (SparseVector record) =? 0)%nat then Ok tt else ValidateSparseVector (SparseVector record) in
  ValidateText (Text record).

Definition stamp (r : CoreRecord) (version timestamp : Z) : CoreRecord :=
  mkCoreRecord (ID r) (Vector r) (SparseVector r) (Metadata r) (Payload r) timestamp version
    (Namespace r) (Text r) (rec_Vectors r) (MultiVectors r).

Definition PrepareUpsert (c : t) (record : CoreRecord) (now : Z) : res (t * CoreRecord) :=
  let! _ := validate_record c record in
  if String.eqb (ID record) "" then invalid "record id is required"
  else
    let! record := PrepareNamedVectors (config c) record in
    let v := u64 (version c + 1) in
    Ok (mk (config c) (shards c) v, stamp record v now).

Definition ApplyUpsert (c : t) (record : CoreRecord) : t * option error :=
  match route c (Namespace record) (ID record) with
  | None => (c, Some (Panic "index out of range"))
  | Some s =>
      let '(s', e) := Shard.Upsert s record in
      (set_shard c (Z.to_nat (RouteShard c (Namespace record) (ID record))) s' (version c), e)
  end.

Definition Upsert (c : t) (record : CoreRecord) (now : Z) : t * res CoreRecord :=
  match PrepareUpsert c record now with
  | Err e => (c, Err e)
  | Ok (c1, record) =>
      match ApplyUpsert c1 record with
      | (c2, Some e) => (c2, Err e)
      | (c2, None) => (c2, Ok record)
      end
  end.

(** The compare-and-swap loop: the version never falls. *)
Definition raise_version (current seen : Z) : Z := if seen <=? current then current else seen.

Definition Restore (c : t) (record : CoreRecord) : t * option error :=
  match validate_record c record with
  | Err e => (c, Some e)
  | Ok _ => ApplyUpsert (mk (config c) (shards c) (raise_version (version c) (Version record))) record
  end.

Definition Get (c : t) (namespace id : string) : res CoreRecord :=
  match route c namespace id with
  | None => no_shard
  | Some s => Shard.Get s namespace id
  end.

Definition Delete (c : t) (namespace id : string) : t * option error :=
  match route c namespace id with
  | None => (c, Some (Panic "index out of range"))
  | Some s =>
      let n := Z.to_nat (RouteShard c namespace id) in
      match Shard.Delete s namespace id with
      | (s', Some e) => (set_shard c n s' (version c), Some e)
      | (s', None) => (set_shard c n s' (u64 (version c + 1)), None)
      end
  end.

Definition ApplyDelete : t → string → string → t * option error := Delete.

(** ** Search *)

Fixpoint search_shards (ss : list shard) (namespace : string) (vector : list Z) (k : Z)
    (filter : option (Expr (MI := MI))) (efSearch : Z) : res (list (list SearchResult)) :=
  match ss with
  | [] => Ok []
  | s :: rest =>
      let! results := Shard.SearchFilteredWithEF s namespace vector k filter efSearch in
      let! others := search_shards rest namespace vector k filter efSearch in
      Ok (results :: others)
  end.

Definition check_search (c : t) (vector : list Z) (k efSearch : Z) : res unit :=
  let! _ := ValidateVector vector (Dimension (config c)) in
  if k <=? 0 then invalid "top_k must be positive"
  else if (efSearch <? 0) || (10000 <? efSearch) then
    invalid "ef_search must be between 1 and 10000 when set"
  else Ok tt.

Definition SearchFilteredWithEF (c : t) (namespace : string) (vector : list Z) (k : Z)
    (filter : option (Expr (MI := MI))) (efSearch : Z) : res (list SearchResult) :=
  let! _ := check_search c vector k efSearch in
  match shards c with
  | [s] => Shard.SearchFilteredWithEF s namespace vector k filter efSearch
  | ss =>
      let! perShard := search_shards ss namespace vector k filter efSearch in
      Ok (mergeTopK perShard k)
  end.

Definition SearchShardFilteredWithEF (c : t) (shardID : Z) (namespace : string) (vector : list Z) (k : Z)
    (filter : option (Expr (MI := MI))) (efSearch : Z) : res (list SearchResult) :=
  let! _ := check_search c vector k efSearch in
  match shards c !! Z.to_nat shardID with
  | None => invalid "shard ID out of range"
  | Some s => Shard.SearchFilteredWithEF s namespace vector k filter efSearch
  end.

(** ** Listing and checkpoints *)

Definition Records (c : t) : list CoreRecord := concat (Shard.Records <$> shards c).

Definition ShardRecords (c : t) (shardID : Z) : res (list CoreRecord) :=
  match shards c !! Z.to_nat shardID with
  | None => invalid "shard out of range"
  | Some s => Ok (Shard.Records s)
  end.

Definition ShardCheckpointDelta (c : t) (shardID : Z) : res (list CoreRecord * list string) :=
  match shards c !! Z.to_nat shardID with
  | None => invalid "shard out of range"
  | Some s => Ok (Shard.CheckpointDelta s)
  end.

(** The loop over the installed records: every one must be routed here; the
    version rises to theirs, also when a later one is refused. *)
Fixpoint check_routed (c : t) (shardID : Z) (items : list CoreRecord) (v : Z) : Z * option error :=
  match items with
  | [] => (v, None)
  | record :: rest =>
      if negb (RouteShard c (Namespace record) (ID record) =? shardID) then
        (v, Some (Errorf "snapshot record routed to wrong shard"))
      else check_routed c shardID rest (raise_version v (Version record))
  end.

Definition InstallRecordsShardWithMetadata (c : t) (shardID : Z) (items : list CoreRecord)
    (metadataIndex : option MI) : t * option error :=
  match shards c !! Z.to_nat shardID with
  | None => (c, Some (Wrapf ErrInvalidArgument "shard out of range"))
  | Some s =>
      let '(v, e) := check_routed c shardID items (version c) in
      let c1 := mk (config c) (shards c) v in
      match e with
      | Some e => (c1, Some e)
      | None =>
          match Segment.NewImmutable (config c) items metadataIndex with
          | Err e => (c1, Some e)
          | Ok base =>
              match Shard.InstallImmutable s base with
              | Err e => (c1, Some e)
              | Ok s' => (set_shard c1 (Z.to_nat shardID) s' v, None)
              end
          end
      end
  end.

Definition ReplaceShardRecords (c : t) (shardID : Z) (items : list CoreRecord) : t * option error :=
  InstallRecordsShardWithMetadata c shardID items None.

(** ** Snapshots *)

Record Snapshot : Type := mkSnapshot { snap_config : CollectionConfig; snap_shards : list Shard.Snapshot }.

(** Pins each shard in turn; on an error those pinned so far are released. *)
Fixpoint pin_all (todo done_ : list shard) (pins : list Shard.Snapshot) : list shard * res (list Shard.Snapshot) :=
  match todo with
  | [] => (done_, Ok pins)
  | s :: rest =>
      match Shard.PinSnapshot s with
      | Ok (s', p) => pin_all rest (done_ ++ [s']) (pins ++ [p])
      | Err e => (zip_with (λ s p, (Shard.Snapshot_Close s p).1) done_ pins ++ s :: rest, Err e)
      end
  end.

Definition PinSnapshot (c : t) : t * res Snapshot :=
  match pin_all (shards c) [] [] with
  | (ss, Ok pins) => (mk (config c) ss (version c), Ok (mkSnapshot (config c) pins))
  | (ss, Err e) => (mk (config c) ss (version c), Err e)
  end.

Definition Generations (s : Snapshot) : list Z := Shard.snap_generation <$> snap_shards s.

Definition Snapshot_Close (c : t) (s : Snapshot) : t * Snapshot :=
  let closed := zip_with Shard.Snapshot_Close (shards c) (snap_shards s) in
  (mk (config c) (closed.*1) (version c), mkSnapshot (snap_config s) (closed.*2)).

Definition HasPinnedReaders (c : t) : bool := existsb Shard.HasPinnedReaders (shards c).

Definition ShardHasPinnedReaders (c : t) (shardID : Z) : bool :=
  match shards c !! Z.to_nat shardID with Some s => Shard.HasPinnedReaders s | None => false end.

Definition Close (c : t) : t := mk (config c) (Shard.Close <$> shards c) (version c).

Definition Count (c : t) : Z := foldl (λ n s, n + Shard.Len s) 0 (shards c).

(** ** Histories *)

(** What callers do to a collection: put a record at a clock reading, delete
    a key, or checkpoint a shard (seal its records and install them). *)
Inductive command : Set :=
  | CUpsert (record : CoreRecord) (now : Z)
  | CDelete (namespace id : string)
  | CCheckpoint (shardID : nat).

Definition run_command (c : t) (cmd : command) : t :=
  match cmd with
  | CUpsert record now => (Upsert c record now).1
  | CDelete namespace id => (Delete c namespace id).1
  | CCheckpoint n =>
      match ShardRecords c (Z.of_nat n) with
      | Ok items => (ReplaceShardRecords c (Z.of_nat n) items).1
      | Err _ => c
      end
  end.

End Collections.
Arguments t : clear implicits.
End Collection.
