(* ===== verification/CollectionProofs.v ===== *)
(** * Collections refine one map, and their search is exact

    A collection is one finite map from record keys to records, partitioned
    by the routing hash.  Every command refines the corresponding operation
    on the map, whatever the number of shards and however often shards are
    checkpointed, and a search over an exact index answers with a best-[k]
    set of all the matching records. *)
From Stdlib Require Import ZArith Lia Ascii String.
From stdpp Require Import base tactics list gmap strings.
From S2P Require Import Prelude Core CoreProofs Sha256 Distance TopK Index Segment SegmentProofs Shard ShardProofs Collection.
Local Open Scope string_scope.
Local Open Scope Z_scope.
Local Open Scope list_scope.
Local Set Warnings "-clear-no-such-hyp".
Import Collection.

(** ** Partitions *)

(** The part of a map the routing hash sends to one shard. *)
Definition part (n : Z) (i : nat) (M : gmap string CoreRecord) : gmap string CoreRecord :=
  base.filter (λ kr, Z.to_nat (route_of n kr.1) = i) M.

Lemma part_lookup n i M k :
  part n i M !! k = if decide (Z.to_nat (route_of n k) = i) then M !! k else None.
Proof.
  unfold part. destruct (decide _) as [H|H].
  - destruct (M !! k) as [r|] eqn:E.
    + by apply map_lookup_filter_Some.
    + apply map_lookup_filter_None. by left.
  - apply map_lookup_filter_None. by right.
Qed.

Lemma part_insert n i M k r :
  part n i (<[k := r]> M) = if decide (Z.to_nat (route_of n k) = i) then <[k := r]> (part n i M) else part n i M.
Proof.
  apply map_eq. intros k'. rewrite part_lookup. destruct (decide (k' = k)) as [->|Hne].
  - rewrite lookup_insert_eq. destruct (decide _) as [H|H] eqn:E; [by rewrite lookup_insert_eq|].
    by rewrite part_lookup, E.
  - rewrite lookup_insert_ne by done. rewrite <-part_lookup.
    destruct (decide (Z.to_nat (route_of n k) = i)); [by rewrite lookup_insert_ne|done].
Qed.

Lemma part_delete n i M k :
  part n i (delete k M) = if decide (Z.to_nat (route_of n k) = i) then delete k (part n i M) else part n i M.
Proof.
  apply map_eq. intros k'. rewrite part_lookup. destruct (decide (k' = k)) as [->|Hne].
  - rewrite lookup_delete_eq. destruct (decide _) as [H|H] eqn:E; [by rewrite lookup_delete_eq|].
    by rewrite part_lookup, E.
  - rewrite lookup_delete_ne by done. rewrite <-part_lookup.
    destruct (decide (Z.to_nat (route_of n k) = i)); [by rewrite lookup_delete_ne|done].
Qed.

Lemma part_keyed n i M : keyed M → keyed (part n i M).
Proof. intros H k r. rewrite part_lookup. destruct (decide _); [apply H|done]. Qed.

Lemma route_bound n k : 0 < n < 2 ^ 32 → 0 ≤ route_of n k < n.
Proof.
  intros Hn. unfold route_of, u32. pose proof (Z.mod_pos_bound (fnv64a (string_bytes k)) n). rewrite Z.mod_small; lia.
Qed.

(** The parts of a map, side by side, are the map. *)
Lemma parts_values n M :
  0 < n < 2 ^ 32 → keyed M →
  concat ((λ i, (map_to_list (part n i M)).*2) <$> seq 0 (Z.to_nat n)) ≡ₚ (map_to_list M).*2.
Proof.
  intros Hn Hk. apply NoDup_Permutation; [|by apply values_nodup|].
  - generalize (Z.to_nat n) as m. intros m. generalize 0%nat as b. induction m as [|m IH]; intros b; simpl; [constructor|].
    apply NoDup_app. split; [by apply values_nodup, part_keyed|]. split; [|apply IH].
    intros r Hr Hc. apply values_elem in Hr; [|by apply part_keyed].
    apply list_elem_of_In, in_concat in Hc as (l&Hl&Hr'). apply list_elem_of_In in Hl, Hr'.
    apply list_elem_of_fmap in Hl as (j&->&Hj%elem_of_seq). apply values_elem in Hr'; [|by apply part_keyed].
    rewrite part_lookup in Hr, Hr'. destruct (decide _); [|done]. destruct (decide _); [lia|done].
  - intros r. rewrite values_elem by done. rewrite list_elem_of_In, in_concat. split.
    + intros (l&Hl&Hr). apply list_elem_of_In in Hl, Hr. apply list_elem_of_fmap in Hl as (j&->&_).
      apply values_elem in Hr; [|by apply part_keyed]. rewrite part_lookup in Hr. by destruct (decide _).
    + intros Hr. pose proof (route_bound n (record_key r) Hn) as Hb.
      exists (map_to_list (part n (Z.to_nat (route_of n (record_key r))) M)).*2.
      rewrite <-!list_elem_of_In. split.
      * apply list_elem_of_fmap. eexists; split; [done|]. apply elem_of_seq. lia.
      * apply values_elem; [by apply part_keyed|]. by rewrite part_lookup, decide_True.
Qed.

Section Refinement.
Context {I MI L : Type} `{!VectorIndex I, !VectorIndexSpec I, !MetadataIndex MI, !MetadataSpec MI,
  !LexicalIndex L, !IndexBuilders I, !IndexBuildersSpec I}.

Local Abbreviation collection := (Collection.t I MI L).

Definition shard_holds (s : Shard.t I MI L) (m : gmap string CoreRecord) : Prop :=
  ∃ ma mi, shard_inv s ma mi ∧ m = merged ma mi (Shard.tombstones s).

Record coll_inv (c : collection) (M : gmap string CoreRecord) : Prop := mkCollInv {
  ci_count : 0 < len (shards c) < 2 ^ 32;
  ci_shards i s : shards c !! i = Some s →
    Shard.config s = config c ∧ shard_holds s (part (len (shards c)) i M);
  ci_keyed : keyed M;
  ci_versions k r : M !! k = Some r → Version r ≤ version c;
  ci_fresh : ∃ sg, Segment.New (I := I) (MI := MI) (L := L) (config c) = Ok sg;
}.

(** Room left in the 64-bit counters. *)
Record budget (c : collection) (M : gmap string CoreRecord) (b : Z) : Prop := mkBudget {
  bu_version : 0 ≤ version c ≤ b;
  bu_size : Z.of_nat (size M) ≤ b;
  bu_next i s : shards c !! i = Some s → Segment.nextID (Shard.active s) ≤ 1 + b;
}.

Lemma route_shard c M ns i :
  coll_inv c M → ∃ s, route c ns i = Some s.
Proof.
  intros Hi. unfold route, RouteShard. pose proof (route_bound (len (shards c)) (key ns i) (ci_count c M Hi)).
  apply lookup_lt_is_Some_2. unfold len in *. lia.
Qed.

Lemma update_shard c M M' n s s' m v :
  coll_inv c M → shards c !! n = Some s → Shard.config s' = config c →
  shard_holds s' m → part (len (shards c)) n M' = m →
  (∀ j, j ≠ n → part (len (shards c)) j M' = part (len (shards c)) j M) →
  keyed M' → (∀ k r, M' !! k = Some r → Version r ≤ v) →
  coll_inv (set_shard c n s' v) M'.
Proof.
  intros Hi Hs Hcfg Hm Hn Hj Hk Hv.
  assert (len (shards (set_shard c n s' v)) = len (shards c)) as El by (unfold len; simpl; by rewrite length_insert).
  constructor.
  - rewrite El. apply Hi.
  - intros i s0. rewrite El. simpl. destruct (decide (i = n)) as [->|Hne].
    + rewrite list_lookup_insert_eq by (by eapply lookup_lt_Some). intros [= <-]. by rewrite Hn.
    + rewrite list_lookup_insert_ne by done. intros H0. rewrite Hj by done. by apply (ci_shards c M Hi).
  - done.
  - done.
  - apply Hi.
Qed.

(** ** Upsert *)

Lemma PrepareUpsert_ok (c : collection) r now c1 r' :
  PrepareUpsert c r now = Ok (c1, r') → named_valid r →
  c1 = mk (config c) (shards c) (u64 (version c + 1)) ∧ prepared (config c) r' ∧
  Version r' = u64 (version c + 1) ∧ record_key r' = record_key r.
Proof.
  unfold PrepareUpsert, validate_record.
  destruct (res_unit (ValidateVector (Vector r) (Dimension (config c)))) as [E|[e E]]; rewrite E; [|done].
  cbn [res_bind]. destruct (if (size (SparseVector r) =? 0)%nat then Ok tt else _) as [u|]; [|done]. cbn [res_bind].
  destruct (ValidateText (Text r)) as [u'|]; [|done]. cbn [res_bind].
  destruct (String.eqb_spec (ID r) "") as [|HID]; [done|].
  destruct (PrepareNamedVectors (config c) r) as [r1|] eqn:En; [|done]. cbn [res_bind].
  intros [= <- <-] Hv. pose proof (prepare_idempotent (config c) r r1 Hv En) as Hr1.
  apply ValidateVector_ok in E as [Hl _].
  assert (ID r1 = ID r ∧ Namespace r1 = Namespace r ∧ Vector r1 = Vector r) as (E1&E2&E3).
  { unfold PrepareNamedVectors in En. destruct (_ && _); [by injection En as <-|].
    destruct (fill_map (prepare_vector _) _); [|done]. destruct (fill_map (prepare_multi _) _); [|done].
    cbn [res_bind] in En. by injection En as <-. }
  split; [done|]. split; [|split; [done|]].
  - split; [|split]; simpl; [|by rewrite E1|by rewrite E3].
    clear En. unfold PrepareNamedVectors in *. cbn [stamp rec_Vectors MultiVectors].
    destruct (_ && _)%bool; [done|].
    destruct (fill_map (prepare_vector _) _) as [vs|]; [|done]. cbn [res_bind] in *.
    destruct (fill_map (prepare_multi _) _) as [ms|]; [|done]. cbn [res_bind] in *.
    injection Hr1 as Hr1. f_equal. unfold stamp.
    assert (vs = rec_Vectors r1) as -> by (by rewrite <-Hr1). assert (ms = MultiVectors r1) as -> by (by rewrite <-Hr1).
    done.
  - unfold record_key. simpl. by rewrite E1, E2.
Qed.

(** The shard at [n] and the maps that explain it. *)
Record at_shard (c : collection) (M : gmap string CoreRecord) (n : nat) (s : Shard.t I MI L) (ma mi : gmap string CoreRecord) : Prop := mkAtShard {
  as_shard : shards c !! n = Some s;
  as_inv : shard_inv s ma mi;
  as_map : part (len (shards c)) n M = merged ma mi (Shard.tombstones s);
}.

Lemma at_shard_exists c M n s : coll_inv c M → shards c !! n = Some s → ∃ ma mi, at_shard c M n s ma mi.
Proof. intros Hi Hs. destruct (ci_shards c M Hi n s Hs) as (_&ma&mi&Hsi&Hm). by exists ma, mi. Qed.

Lemma set_shard_len (c : collection) n s v : len (shards (set_shard c n s v)) = len (shards c).
Proof. unfold len, set_shard. cbn [shards]. by rewrite length_insert. Qed.

Lemma shard_upsert_at (c : collection) M b r n s ma mi :
  coll_inv c M → (∀ i s, shards c !! i = Some s → Segment.nextID (Shard.active s) ≤ 1 + b) → b + 3 < two64 →
  prepared (config c) r → Version r ≤ version c → n = Z.to_nat (RouteShard c (Namespace r) (ID r)) → at_shard c M n s ma mi →
  ∃ s', ApplyUpsert c r = (set_shard c n s' (version c), None) ∧ coll_inv (set_shard c n s' (version c)) (<[record_key r := r]> M) ∧
    at_shard (set_shard c n s' (version c)) (<[record_key r := r]> M) n s' (<[record_key r := r]> ma) mi ∧
    Shard.tombstones s' ⊆ Shard.tombstones s ∧
    (∀ i s0, <[n := s']> (shards c) !! i = Some s0 → Segment.nextID (Shard.active s0) ≤ 2 + b).
Proof.
  intros Hi Hb Hlt Hp Hv Hn [Hs Hsi Hm]. unfold ApplyUpsert, route. rewrite <-Hn, Hs.
  destruct (ci_shards c M Hi n s Hs) as (Hcfg&_).
  destruct (shard_Upsert_ok s ma mi r Hsi) as (s'&Hu&Hsi'&Hm'&Hcfg'&Hn'); [by rewrite Hcfg| |].
  { pose proof (Hb n s Hs). lia. }
  rewrite Hu. unfold RouteShard in Hn. fold (record_key r) in Hn.
  assert (part (len (shards c)) n (<[record_key r := r]> M) = merged (<[record_key r := r]> ma) mi (Shard.tombstones s')) as Hpart.
  { rewrite part_insert, decide_True by done. by rewrite Hm. }
  exists s'. split; [done|]. split; [|split; [|split]].
  - eapply (update_shard c M); [done|exact Hs|by rewrite Hcfg', Hcfg|by eexists _, _|done| | |].
    + intros j Hj. rewrite part_insert, decide_False by lia. done.
    + intros k r'. rewrite lookup_insert_Some. intros [[<- <-]|[_ H']]; [done|by apply (ci_keyed c M Hi)].
    + intros k r'. rewrite lookup_insert_Some. intros [[<- <-]|[_ H']]; [done|by apply (ci_versions c M Hi k)].
  - constructor; [|done|by rewrite set_shard_len]. cbn [set_shard shards]. apply list_lookup_insert_eq. by eapply lookup_lt_Some.
  - apply (Upsert_tombstones _ _ _ _ Hu).
  - intros i s0. destruct (decide (i = n)) as [->|Hne].
    + rewrite list_lookup_insert_eq by (by eapply lookup_lt_Some). intros [= <-]. pose proof (Hb n s Hs). lia.
    + rewrite list_lookup_insert_ne by done. intros H0. pose proof (Hb i s0 H0). lia.
Qed.

Lemma shard_upsert (c : collection) M b r :
  coll_inv c M → (∀ i s, shards c !! i = Some s → Segment.nextID (Shard.active s) ≤ 1 + b) → b + 3 < two64 →
  prepared (config c) r → Version r ≤ version c →
  ∃ c', ApplyUpsert c r = (c', None) ∧ coll_inv c' (<[record_key r := r]> M) ∧
    config c' = config c ∧ version c' = version c ∧
    (∀ i s, shards c' !! i = Some s → Segment.nextID (Shard.active s) ≤ 2 + b).
Proof.
  intros Hi Hb Hlt Hp Hv. destruct (route_shard c M (Namespace r) (ID r) Hi) as [s Hs]. unfold route in Hs.
  destruct (at_shard_exists c M _ s Hi Hs) as (ma&mi&Hat).
  destruct (shard_upsert_at c M b r _ s ma mi Hi Hb Hlt Hp Hv eq_refl Hat) as (s'&Hu&Hi'&_&_&Hn). by eexists.
Qed.

Lemma coll_Get_ok c M ns i :
  coll_inv c M →
  Get c ns i = match M !! key ns i with Some r => Ok r | None => Err (Sentinel ErrNotFound) end.
Proof.
  intros Hi. unfold Get. destruct (route_shard c M ns i Hi) as [s Hs]. rewrite Hs. unfold route in Hs.
  destruct (ci_shards c M Hi _ s Hs) as (_&ma&mi&Hsi&Hm).
  rewrite (shard_Get_ok s ma mi ns i Hsi), <-Hm, part_lookup, decide_True by done. done.
Qed.

Lemma shard_delete_at (c : collection) M b ns i n s ma mi :
  coll_inv c M → budget c M b → b + 3 < two64 → n = Z.to_nat (RouteShard c ns i) → at_shard c M n s ma mi →
  match M !! key ns i with
  | None => Delete c ns i = (c, Some (Sentinel ErrNotFound))
  | Some _ =>
      ∃ s', Delete c ns i = (set_shard c n s' (version c + 1), None) ∧
        coll_inv (set_shard c n s' (version c + 1)) (delete (key ns i) M) ∧
        at_shard (set_shard c n s' (version c + 1)) (delete (key ns i) M) n s' (delete (key ns i) ma) mi ∧
        Shard.tombstones s' ⊆ {[key ns i]} ∪ Shard.tombstones s ∧
        (∀ j s0, <[n := s']> (shards c) !! j = Some s0 → Segment.nextID (Shard.active s0) ≤ 1 + b)
  end.
Proof.
  intros Hi Hb Hlt Hn [Hs Hsi Hm]. unfold Delete, route. rewrite <-Hn, Hs.
  destruct (ci_shards c M Hi n s Hs) as (Hcfg&_).
  unfold RouteShard in Hn. pose proof (shard_Delete_ok s ma mi ns i Hsi) as Hd. rewrite <-Hm, part_lookup, decide_True in Hd by done.
  destruct (M !! key ns i) as [r|] eqn:Er.
  2: { rewrite Hd. unfold set_shard. rewrite list_insert_id by done. by destruct c. }
  destruct Hd as (s'&Hdel&Hsi'&Hm'&Hcfg'&Hn'). rewrite Hdel.
  pose proof (bu_version c M b Hb). rewrite (u64_small (version c + 1)) by lia.
  assert (part (len (shards c)) n (delete (key ns i) M) = merged (delete (key ns i) ma) mi (Shard.tombstones s')) as Hpart.
  { rewrite part_delete, decide_True by done. by rewrite Hm'. }
  exists s'. split; [done|]. split; [|split; [|split]].
  - eapply (update_shard c M); [done|exact Hs|by rewrite Hcfg', Hcfg|by eexists _, _|done| | |].
    + intros j Hj. rewrite part_delete, decide_False by lia. done.
    + intros k r' [_ H']%lookup_delete_Some. by apply (ci_keyed c M Hi).
    + intros k r' [_ H']%lookup_delete_Some. pose proof (ci_versions c M Hi k r' H'). lia.
  - constructor; [|done|by rewrite set_shard_len]. cbn [set_shard shards]. apply list_lookup_insert_eq. by eapply lookup_lt_Some.
  - by apply (Delete_tombstones _ _ _ _ Hdel).
  - intros j s0. destruct (decide (j = n)) as [->|Hne].
    + rewrite list_lookup_insert_eq by (by eapply lookup_lt_Some). intros [= <-]. rewrite Hn'. by apply (bu_next c M b Hb n).
    + rewrite list_lookup_insert_ne by done. apply (bu_next c M b Hb j).
Qed.

Lemma shard_delete (c : collection) M b ns i :
  coll_inv c M → budget c M b → b + 3 < two64 →
  match M !! key ns i with
  | None => ∃ c', Delete c ns i = (c', Some (Sentinel ErrNotFound)) ∧ c' = c
  | Some _ =>
      ∃ c', Delete c ns i = (c', None) ∧ coll_inv c' (delete (key ns i) M) ∧
        config c' = config c ∧ version c' = u64 (version c + 1) ∧
        (∀ j s, shards c' !! j = Some s → Segment.nextID (Shard.active s) ≤ 1 + b)
  end.
Proof.
  intros Hi Hb Hlt. destruct (route_shard c M ns i Hi) as [s Hs]. unfold route in Hs.
  destruct (at_shard_exists c M _ s Hi Hs) as (ma&mi&Hat).
  pose proof (shard_delete_at c M b ns i _ s ma mi Hi Hb Hlt eq_refl Hat) as Hd. pose proof (bu_version c M b Hb).
  destruct (M !! key ns i); [|by exists c]. destruct Hd as (s'&Hd&Hi'&_&_&Hn). rewrite (u64_small (version c + 1)) by lia. by eexists.
Qed.

(** ** Checkpoints *)

Lemma check_routed_ok (c : collection) n (items : list CoreRecord) v :
  (∀ r, r ∈ items → RouteShard c (Namespace r) (ID r) = n ∧ Version r ≤ v) → check_routed c n items v = (v, None).
Proof.
  induction items as [|r items IH]; intros H; [done|]. cbn [check_routed].
  destruct (H r) as [-> Hv]; [apply list_elem_of_here|]. rewrite Z.eqb_refl. simpl.
  unfold raise_version. rewrite (proj2 (Z.leb_le _ _) Hv). apply IH.
  intros r' Hr'. apply H. by apply list_elem_of_further.
Qed.

Lemma shard_checkpoint (c : collection) M b n s :
  coll_inv c M → budget c M b → b + 3 < two64 → shards c !! n = Some s →
  ∃ c', ReplaceShardRecords c (Z.of_nat n) (Shard.Records s) = (c', None) ∧ coll_inv c' M ∧
    config c' = config c ∧ version c' = version c ∧
    (∀ j s, shards c' !! j = Some s → Segment.nextID (Shard.active s) ≤ 1 + b).
Proof.
  intros Hi Hb Hlt Hs. unfold ReplaceShardRecords, InstallRecordsShardWithMetadata. rewrite Nat2Z.id, Hs.
  destruct (ci_shards c M Hi n s Hs) as (Hcfg&ma&mi&Hsi&Hm).
  pose proof (ci_count c M Hi) as Hc.
  assert (Shard.Records s ≡ₚ (map_to_list (part (len (shards c)) n M)).*2) as Hp.
  { rewrite (shard_Records_ok s ma mi Hsi), <-Hm. apply sort_slice_perm. }
  pose proof (part_keyed (len (shards c)) n M (ci_keyed c M Hi)) as Hpk.
  rewrite check_routed_ok.
  2: { intros r Hr. rewrite Hp, values_elem in Hr by done. rewrite part_lookup in Hr.
       destruct (decide _) as [Hd|]; [|done]. split; [|by apply (ci_versions c M Hi _ r Hr)].
       unfold RouteShard. fold (record_key r). pose proof (route_bound (len (shards c)) (record_key r) Hc). lia. }
  destruct (ci_fresh c M Hi) as [fresh Hf].
  destruct (NewImmutable_ok (config c) (part (len (shards c)) n M) (Shard.Records s) fresh Hf Hpk Hp) as (sg&Hsg&Hh).
  { intros k r Hr. rewrite Hm, merged_lookup in Hr. rewrite <-Hcfg.
    destruct (ma !! k) as [r'|] eqn:Ea.
    - injection Hr as <-. by apply (holds_prepared _ _ ma k r' (sh_active s ma mi Hsi)).
    - destruct (decide _); [done|]. pose proof (sh_base s ma mi Hsi) as Hbase.
      destruct (Shard.base s) as [bs|]; [by apply (holds_prepared _ bs mi k r Hbase)|].
      subst mi. by rewrite lookup_empty in Hr. }
  { pose proof (map_size_filter (λ kr, Z.to_nat (route_of (len (shards c)) kr.1) = n) M) as Hle.
    pose proof (bu_size c M b Hb). unfold len at 1. rewrite Hp, length_fmap, length_map_to_list.
    unfold part. lia. }
  rewrite Hsg.
  destruct (Install_ok s ma mi sg (part (len (shards c)) n M) fresh Hsi) as (s'&Hinst&Hsi'&Hm'&Hcfg'&_&_&Hn1);
    [by rewrite Hcfg|by rewrite Hcfg|].
  rewrite Hinst. eexists; split; [done|]. split; [|split; [done|split; [done|]]].
  - apply (update_shard c M M n s s' (part (len (shards c)) n M)); auto.
    + by rewrite Hcfg', Hcfg.
    + eexists _, _. by split.
    + apply (ci_keyed c M Hi).
    + apply (ci_versions c M Hi).
  - simpl. intros j s0. destruct (decide (j = n)) as [->|Hne].
    + rewrite list_lookup_insert_eq by (by eapply lookup_lt_Some). intros [= <-]. rewrite Hn1.
      pose proof (bu_version c M b Hb). lia.
    + rewrite list_lookup_insert_ne by done. apply (bu_next c M b Hb j).
Qed.

(** ** The abstract collection *)

(** A version counter and one map; records are prepared by the same rules. *)
Definition spec_command (cfg : CollectionConfig) (st : gmap string CoreRecord * Z) (cmd : command)
    : gmap string CoreRecord * Z :=
  match cmd with
  | CUpsert r now =>
      match PrepareUpsert (I := I) (MI := MI) (L := L) (mk cfg [] st.2) r now with
      | Ok (_, r') => (<[record_key r' := r']> st.1, u64 (st.2 + 1))
      | Err _ => st
      end
  | CDelete ns i => match st.1 !! key ns i with Some _ => (delete (key ns i) st.1, u64 (st.2 + 1)) | None => st end
  | CCheckpoint _ => st
  end.

Definition command_valid (cmd : command) : Prop :=
  match cmd with CUpsert r _ => named_valid r | _ => True end.

Lemma prepare_shards (c : collection) (ss : list (Shard.t I MI L)) r now :
  PrepareUpsert (mk (config c) ss (version c)) r now =
  match PrepareUpsert c r now with Ok (_, r') => Ok (mk (config c) ss (u64 (version c + 1)), r') | Err e => Err e end.
Proof.
  unfold PrepareUpsert, validate_record. cbn [config version shards].
  destruct (ValidateVector _ _); [|done]. cbn [res_bind].
  destruct (if (size (SparseVector r) =? 0)%nat then Ok tt else _); [|done]. cbn [res_bind].
  destruct (ValidateText _); [|done]. cbn [res_bind]. destruct (String.eqb _ _); [done|].
  by destruct (PrepareNamedVectors _ _).
Qed.

Lemma step_ok (c : collection) M b cmd :
  coll_inv c M → budget c M b → b + 3 < two64 → command_valid cmd →
  let st := spec_command (config c) (M, version c) cmd in
  let c' := run_command c cmd in
  coll_inv c' st.1 ∧ version c' = st.2 ∧ config c' = config c ∧ budget c' st.1 (b + 1).
Proof.
  intros Hi Hb Hlt Hcmd. pose proof (bu_version c M b Hb) as Hv. pose proof (bu_size c M b Hb) as Hsz.
  assert (∀ (c' : collection), (∀ j s, shards c' !! j = Some s → Segment.nextID (Shard.active s) ≤ 1 + b) →
    (∀ j s, shards c' !! j = Some s → Segment.nextID (Shard.active s) ≤ 1 + (b + 1))) as Hmore.
  { intros c' H j s Hs. specialize (H j s Hs). lia. }
  assert (budget c M (b + 1)) as Hsame.
  { constructor; [lia|lia|]. apply Hmore, (bu_next c M b Hb). }
  destruct cmd as [r now|ns i|n]; cbn [spec_command run_command fst snd].
  - rewrite (prepare_shards c [] r now). unfold Upsert.
    destruct (PrepareUpsert c r now) as [[c1 r']|e] eqn:Ep; [|done]. cbn [fst snd].
    destruct (PrepareUpsert_ok c r now c1 r' Ep Hcmd) as (->&Hp&Hver&_).
    rewrite (u64_small (version c + 1)) in * by lia.
    destruct (shard_upsert (mk (config c) (shards c) (version c + 1)) M b r')
      as (c'&->&Hi'&Hcfg&Hver'&Hn); [|apply (bu_next c M b Hb)|lia|done|simpl; lia|].
    { constructor; simpl; try apply Hi. intros k r0 H0. pose proof (ci_versions c M Hi k r0 H0). lia. }
    cbn [fst]. split; [done|]. split; [done|]. split; [done|].
    constructor; [rewrite Hver'; simpl; lia| |].
    + destruct (M !! record_key r') eqn:E; [rewrite map_size_insert_Some by eauto|rewrite map_size_insert_None by done]; lia.
    + intros j s Hs. specialize (Hn j s Hs). lia.
  - pose proof (shard_delete c M b ns i Hi Hb Hlt) as Hd. destruct (M !! key ns i) as [r|] eqn:E.
    + destruct Hd as (c'&->&Hi'&Hcfg&Hver&Hn). cbn [fst snd]. split; [done|]. split; [done|]. split; [done|].
      rewrite (u64_small (version c + 1)) in * by lia.
      constructor; [lia| |by apply Hmore]. rewrite map_size_delete_Some by eauto. lia.
    + destruct Hd as (c'&->&->). done.
  - unfold ShardRecords. rewrite Nat2Z.id. destruct (shards c !! n) as [s|] eqn:Hs; [|done].
    destruct (shard_checkpoint c M b n s Hi Hb Hlt Hs) as (c'&->&Hi'&Hcfg&Hver&Hn). cbn [fst].
    split; [done|]. split; [done|]. split; [done|]. constructor; [lia|lia|by apply Hmore].
Qed.

Lemma new_shards_ok cfg (l : list nat) ss :
  new_shards (I := I) (MI := MI) (L := L) cfg l = Ok ss →
  length ss = length l ∧
  ∀ i s, ss !! i = Some s → shard_inv s ∅ ∅ ∧ Shard.config s = cfg ∧ Segment.nextID (Shard.active s) = 1.
Proof.
  revert ss. induction l as [|n l IH]; intros ss; cbn [new_shards].
  { intros [= <-]. split; [done|]. intros i s Hs. by rewrite lookup_nil in Hs. }
  destruct (Shard.New (Z.of_nat n) cfg) as [s0|] eqn:E; [|done]. cbn [res_bind].
  destruct (new_shards cfg l) as [rest|] eqn:E'; [|done]. cbn [res_bind]. intros [= <-].
  destruct (IH rest eq_refl) as [Hl Hr]. split; [simpl; by rewrite Hl|].
  intros [|i] s; simpl; [intros [= <-]; by eapply shard_New_ok|apply Hr].
Qed.

Lemma Validate_shards cfg : Validate (Normalized cfg) = Ok tt → 0 < ShardCount (Normalized cfg).
Proof.
  unfold Validate. destruct (validate_shape (Normalized cfg)) as [u|] eqn:E; [|done]. intros _.
  unfold validate_shape in E. cbv zeta in E.
  destruct (String.eqb (Name _) ""); [done|]. destruct (Dimension _ <=? 0); [done|].
  destruct (negb (Metric_Valid _)); [done|].
  destruct (ShardCount (Normalized (Normalized cfg)) <=? 0) eqn:Es; [done|]. bool_props. exact Es.
Qed.

Lemma coll_New_ok cfg0 (c : collection) :
  New cfg0 = Ok c → ShardCount cfg0 < 2 ^ 32 →
  coll_inv c ∅ ∧ version c = 0 ∧ config c = Normalized cfg0 ∧ budget c ∅ 0.
Proof.
  unfold New. cbv zeta. destruct (Validate (Normalized cfg0)) as [[]|] eqn:Ev; [|done]. cbn [res_bind].
  destruct (new_shards (Normalized cfg0) _) as [ss|] eqn:E; [|done]. cbn [res_bind]. intros [= <-] Hlt.
  pose proof (Validate_shards cfg0 Ev) as Hpos. assert (ShardCount (Normalized cfg0) = ShardCount cfg0) as Esc by done.
  rewrite Esc in *. destruct (new_shards_ok _ _ _ E) as [Hl Hs]. rewrite length_seq in Hl.
  assert (len ss = ShardCount cfg0) as Elen by (unfold len; lia).
  split; [|split; [done|split; [done|]]].
  - constructor; cbn [shards config version].
    + lia.
    + intros i s Hi. destruct (Hs i s Hi) as (Hinv&Hc&_). split; [done|]. exists ∅, ∅. split; [done|].
      apply map_eq. intros k. rewrite part_lookup, merged_lookup, !lookup_empty. by do 2 destruct (decide _).
    + intros k r. by rewrite lookup_empty.
    + intros k r. by rewrite lookup_empty.
    + destruct (Z.to_nat (ShardCount cfg0)) as [|n] eqn:En; [lia|]. cbn [seq new_shards] in E.
      unfold Shard.New in E. destruct (Segment.New (Normalized cfg0)) as [sg|]; [eauto|done].
  - constructor; simpl; [lia|done|]. intros i s Hi. destruct (Hs i s Hi) as (_&_&->). done.
Qed.

(** The whole history: the state stands for the map the specification
    computes. *)
Lemma run_ok (cmds : list command) (c : collection) M b :
  coll_inv c M → budget c M b → b + len cmds + 3 < two64 → Forall command_valid cmds →
  let st := foldl (spec_command (config c)) (M, version c) cmds in
  let c' := foldl run_command c cmds in
  coll_inv c' st.1 ∧ version c' = st.2 ∧ config c' = config c.
Proof.
  revert c M b. induction cmds as [|cmd cmds IH]; intros c M b Hi Hb Hlt Hc; [done|].
  inversion Hc as [|?? Hc1 Hc2]; subst. cbv zeta. cbn [foldl]. unfold len in Hlt. cbn [length] in Hlt.
  destruct (step_ok c M b cmd Hi Hb ltac:(lia) Hc1) as (Hi'&Hv'&Hcfg'&Hb').
  destruct (spec_command (config c) (M, version c) cmd) as [M' v'] eqn:Es. cbn [fst snd] in *.
  rewrite <-Hcfg', <-Hv'. destruct (IH (run_command c cmd) M' (b + 1) Hi' Hb') as (H1&H2&H3); [unfold len; lia|done|].
  split; [done|]. split; [done|congruence].
Qed.

Lemma coll_Records_ok c M : coll_inv c M → Records c ≡ₚ (map_to_list M).*2.
Proof.
  intros Hi. pose proof (ci_count c M Hi) as Hc.
  rewrite <-(parts_values (len (shards c)) M Hc (ci_keyed c M Hi)). unfold Records.
  assert (∀ (l : list (Shard.t I MI L)) b, (∀ i s, l !! i = Some s → shards c !! (b + i)%nat = Some s) →
    concat (Shard.Records <$> l) ≡ₚ concat ((λ i, (map_to_list (part (len (shards c)) i M)).*2) <$> seq b (length l))) as H.
  { induction l as [|s l IH]; intros b Hl; [done|]. cbn. apply Permutation_app.
    - pose proof (Hl 0%nat s eq_refl) as H0. rewrite Nat.add_0_r in H0.
      destruct (ci_shards c M Hi b s H0) as (_&ma&mi&Hsi&->). rewrite (shard_Records_ok s ma mi Hsi). apply sort_slice_perm.
    - apply (IH (S b)). intros i s' Hs. replace (S b + i)%nat with (b + S i)%nat by lia. by apply Hl. }
  unfold len at 2. rewrite Nat2Z.id. apply (H (shards c) 0%nat). done.
Qed.

Lemma coll_Count_ok c M : coll_inv c M → Count c = Z.of_nat (size M).
Proof.
  intros Hi. pose proof (coll_Records_ok c M Hi) as Hr. apply Permutation_length in Hr.
  rewrite length_fmap, length_map_to_list in Hr. rewrite <-Hr. unfold Count, Records.
  assert (∀ (l : list (Shard.t I MI L)) n b, (∀ i s, l !! i = Some s → shards c !! (b + i)%nat = Some s) →
    foldl (λ n s, n + Shard.Len s) n l = n + Z.of_nat (length (concat (Shard.Records <$> l)))) as H.
  { induction l as [|s l IH]; intros n b Hl; [simpl; lia|]. cbn. rewrite (IH _ (S b)).
    - pose proof (Hl 0%nat s eq_refl) as H0. rewrite Nat.add_0_r in H0.
      destruct (ci_shards c M Hi b s H0) as (_&ma&mi&Hsi&_). rewrite (shard_Len_ok s ma mi Hsi), length_app.
      rewrite (shard_Records_ok s ma mi Hsi), length_sort_slice, length_fmap, length_map_to_list. lia.
    - intros i s' Hs. replace (S b + i)%nat with (b + S i)%nat by lia. by apply Hl. }
  by rewrite (H (shards c) 0 0%nat).
Qed.

(** ** Search *)

Lemma filter_concat {A} (f : A → bool) (ls : list (list A)) :
  List.filter f (concat ls) = concat (List.filter f <$> ls).
Proof. induction ls as [|l ls IH]; [done|]. cbn. by rewrite List.filter_app, IH. Qed.

Lemma fmap_concat {A B} (f : A → B) (ls : list (list A)) : f <$> concat ls = concat ((λ l : list A, f <$> l) <$> ls).
Proof. induction ls as [|l ls IH]; [done|]. cbn. by rewrite fmap_app, IH. Qed.

Lemma hits_parts score ns filter n M :
  0 < n < 2 ^ 32 → keyed M →
  hits (MI := MI) score ns filter ∅ M ≡ₚ
    concat ((λ i, hits score ns filter ∅ (part n i M)) <$> seq 0 (Z.to_nat n)).
Proof.
  intros Hn Hk. unfold hits at 1. rewrite <-(parts_values n M Hn Hk).
  rewrite filter_concat, fmap_concat, <-!list_fmap_compose. done.
Qed.

Lemma better_order a b :
  comparable (res_Score a) → comparable (res_Score b) → betterSearchResult a b = result_order a b.
Proof.
  unfold comparable, betterSearchResult, worseSearchResult, result_order, by_key, result_key_ltb, result_key, f32_ltb, f32_eqb.
  simpl. intros -> ->. simpl. by rewrite (Z.eqb_sym (f32_ord (res_Score b))).
Qed.

Lemma mergeTopK_ok (Rs : list (list SearchResult)) k :
  0 < k → (∀ r, r ∈ concat Rs → comparable (res_Score r)) →
  top_k result_order (Z.to_nat k) (concat Rs) (mergeTopK Rs k).
Proof.
  intros Hk Hc. unfold mergeTopK.
  rewrite (heap_select_ext betterSearchResult result_order (λ r, comparable (res_Score r))
    (λ x y, better_order x y) _ _ Hc).
  apply heap_select_top_k; [apply _|lia].
Qed.

Lemma search_shards_ok `{!ExactIndex I} c M ns query k filter ef (ss : list (Shard.t I MI L)) b :
  coll_inv c M → len query = Dimension (config c) → 0 < k →
  (∀ r, r ∈ hits (score_of (Metric (config c)) query) ns filter ∅ M → comparable (res_Score r)) →
  (∀ i s, ss !! i = Some s → shards c !! (b + i)%nat = Some s) →
  ∃ Rs, search_shards ss ns query k filter ef = Ok Rs ∧
    Forall2 (answers k)
      ((λ i, hits (score_of (Metric (config c)) query) ns filter ∅ (part (len (shards c)) i M)) <$> seq b (length ss)) Rs.
Proof.
  intros Hi Hq Hk Hc. revert b. induction ss as [|s ss IH]; intros b Hss; [exists []; by split|].
  pose proof (Hss 0%nat s eq_refl) as H0. rewrite Nat.add_0_r in H0.
  destruct (ci_shards c M Hi b s H0) as (Hcfg&ma&mi&Hsi&Hm).
  destruct (shard_Search_ok s ma mi ns query k filter ef Hsi) as (R&HR&Ha); [by rewrite Hcfg|done| |].
  { rewrite Hcfg, <-Hm. intros r Hr. apply Hc. unfold hits in *.
    apply list_elem_of_fmap in Hr as (rc&->&[Hrc He]%filter_elem). apply list_elem_of_fmap_2, filter_elem. split; [|done].
    pose proof (ci_keyed c M Hi) as Hk'. apply values_elem in Hrc; [|by apply part_keyed].
    apply values_elem; [done|]. rewrite part_lookup in Hrc. by destruct (decide _). }
  destruct (IH (S b)) as (Rs&HRs&HF).
  { intros i s' Hs. replace (S b + i)%nat with (b + S i)%nat by lia. by apply Hss. }
  exists (R :: Rs). cbn [search_shards]. rewrite HR, HRs. cbn [res_bind]. split; [done|].
  cbn. constructor; [|done]. rewrite Hcfg, <-Hm in Ha. done.
Qed.

Lemma coll_Search_ok `{!ExactIndex I} c M ns query k filter ef :
  coll_inv c M → ValidateVector query (Dimension (config c)) = Ok tt → 0 < k → 0 ≤ ef ≤ 10000 →
  let all := hits (score_of (Metric (config c)) query) ns filter ∅ M in
  (∀ r, r ∈ all → comparable (res_Score r)) →
  ∃ R, SearchFilteredWithEF c ns query k filter ef = Ok R ∧ answers k all R.
Proof.
  intros Hi Hq Hk He. cbv zeta. intros Hc. unfold SearchFilteredWithEF, check_search. rewrite Hq. cbn [res_bind].
  apply ValidateVector_ok in Hq as [Hq _].
  rewrite (proj2 (Z.leb_gt k 0)), (proj2 (Z.ltb_ge ef 0)), (proj2 (Z.ltb_ge 10000 ef)) by lia. cbn [orb res_bind].
  pose proof (hits_parts (score_of (Metric (config c)) query) ns filter _ M (ci_count c M Hi) (ci_keyed c M Hi)) as Hp.
  replace (Z.to_nat (len (shards c))) with (length (shards c)) in Hp by (unfold len; lia).
  destruct (search_shards_ok c M ns query k filter ef (shards c) 0 Hi Hq Hk Hc) as (Rs&HRs&HF); [done|].
  pose proof (ci_count c M Hi) as Hcount.
  assert (∀ R, Forall2 (answers k) ((λ i, hits (score_of (Metric (config c)) query) ns filter ∅ (part (len (shards c)) i M))
      <$> seq 0 (length (shards c))) Rs → top_k result_order (Z.to_nat k) (concat Rs) R →
    answers k (hits (score_of (Metric (config c)) query) ns filter ∅ M) R) as Hmerge.
  { intros R HF' [Ho Ht]. split; [done|]. rewrite Hp. apply (top_set_concat score_better (Z.to_nat k) _ Rs).
    - eapply Forall2_impl; [exact HF'|]. by intros l R' [_ ?].
    - eapply top_set_coarser; [|exact Ht]. intros x y. apply order_coarser. }
  assert (∀ r, r ∈ concat Rs → comparable (res_Score r)) as Hcr.
  { intros r Hr. apply Hc. rewrite Hp. clear Hmerge HRs Hp.
    induction HF as [|l R ls Rs [_ Ht] HF IH]; [done|]. simpl in *. apply elem_of_app in Hr as [Hr|Hr]; apply elem_of_app.
    - left. by eapply top_set_sub.
    - right. by apply IH. }
  destruct (shards c) as [|s [|s' ss]] eqn:Ess.
  - unfold len in Hcount. simpl in Hcount. lia.
  - cbn [search_shards] in HRs. destruct (Shard.SearchFilteredWithEF s ns query k filter ef) as [R|]; [|done].
    cbn [res_bind] in HRs. injection HRs as <-. exists R. split; [done|].
    inversion HF as [|? ? ? ? [Ho Ht]]; subst. split; [done|]. rewrite Hp. cbn. by rewrite app_nil_r.
  - rewrite HRs. cbn [res_bind]. eexists; split; [done|]. apply Hmerge; [done|]. by apply mergeTopK_ok.
Qed.
End Refinement.
