(* ===== verification/Lexical.v ===== *)
(** * The lexical index

    [internal/segment/lexical.go]: the inverted indexes a segment keeps over
    the sparse vectors and the texts of its records, and scoring by cosine
    and by BM25.

    A token is the list of its runes.  [range] is the order in which a [range]
    loop visits a map, which Go leaves open; theorems hold for every one. *)
From Stdlib Require Import ZArith Lia Ascii String Sorting.Permutation.
From stdpp Require Import base tactics list gmap strings.
From S2P Require Import Prelude Core Float Distance Segment.
Local Open Scope string_scope.
Local Open Scope Z_scope.
Local Open Scope list_scope.

Class MapOrder := {
  range : ∀ {K} `{Countable K} {A}, gmap K A → list (K * A);
  range_perm : ∀ {K} `{Countable K} {A} (m : gmap K A), range m ≡ₚ map_to_list m;
}.

(** [math.Log] and [math.Exp] *)
Class LogExp := { math_Log : Z → Z; math_Exp : Z → Z }.

(** ** Constants *)

Definition f64_zero : Z := 0.
Definition f64_one : Z := f64_of_int 1.
Definition f64_half : Z := f64_of_decimal false 5 (-1).
Definition bm25K1 : Z := f64_of_decimal false 12 (-1).
Definition bm25K1_plus_1 : Z := f64_of_decimal false 22 (-1).
Definition bm25B : Z := f64_of_decimal false 75 (-2).
Definition one_minus_bm25B : Z := f64_of_decimal false 25 (-2).
Definition bm25Saturation : Z := f32_of_Z 2.

(** [value == 0] *)
Definition f32_is_zero (bits : Z) : bool := f32_eqb bits f32_zero.

Definition square (weight : Z) : Z := f64_mul (f64_of_f32 weight) (f64_of_f32 weight).

(** ** Tokens *)

Definition stopwords : list (list Z) :=
  string_runes <$> ["a"; "an"; "and"; "are"; "as"; "at"; "be"; "by"; "for"; "from"; "in"; "is"; "it"; "of"; "on"; "or";
    "that"; "the"; "this"; "to"; "was"; "with"].

Definition Tokenize `{!UnicodeTables} (text : string) : list (list Z) :=
  List.filter (λ field, negb (bool_decide (field ∈ stopwords))) (textWords text).

(** [frequencies[token]++] *)
Definition count_token (frequencies : gmap (list Z) Z) (token : list Z) : gmap (list Z) Z :=
  <[token := u32 (default 0 (frequencies !! token) + 1)]> frequencies.

Module Lexical.

Record t : Type := mk {
  sparse : gmap string (gmap Z Z);
  sparseNorm : gmap Z Z;
  text : gmap (list Z) (gmap Z Z);
  docLength : gmap Z Z;
  totalTerms : Z;
}.

Definition newLexicalIndex : t := mk ∅ ∅ ∅ ∅ 0.

(** [postings[ordinal] = value] in the postings of [term], made when it has
    none. *)
Definition post {K} `{Countable K} (m : gmap K (gmap Z Z)) (term : K) (ordinal value : Z) : gmap K (gmap Z Z) :=
  <[term := <[ordinal := value]> (default ∅ (m !! term))]> m.

(** The postings of [term] without [ordinal], dropped when they are empty. *)
Definition unpost {K} `{Countable K} (ordinal : Z) (m : gmap K (gmap Z Z)) (term : K) : gmap K (gmap Z Z) :=
  match m !! term with
  | None => m
  | Some postings =>
      let postings := delete ordinal postings in
      if (size postings =? 0)%nat then delete term m else <[term := postings]> m
  end.

Section Operations.
Context `{!UnicodeTables} `{!MapOrder}.

Definition add_weight (ordinal : Z) (state : gmap string (gmap Z Z) * Z) (entry : string * Z) : gmap string (gmap Z Z) * Z :=
  let '(term, weight) := entry in
  let '(sparse, squared) := state in
  if f32_is_zero weight then (sparse, squared)
  else (post sparse term ordinal weight, f64_add squared (square weight)).

Definition add_sparse (l : t) (ordinal : Z) (vector : gmap string Z) : t :=
  if (size vector =? 0)%nat then l
  else
    let '(sparse, squared) := foldl (add_weight ordinal) (sparse l, f64_zero) (range vector) in
    mk sparse (if f64_ltb f64_zero squared then <[ordinal := f64_sqrt squared]> (sparseNorm l) else sparseNorm l)
      (text l) (docLength l) (totalTerms l).

Definition add_text (l : t) (ordinal : Z) (document : string) : t :=
  if String.eqb document "" then l
  else
    let tokens := Tokenize document in
    let frequencies := foldl count_token ∅ tokens in
    let length := u32 (len tokens) in
    if length =? 0 then l
    else
      mk (sparse l) (sparseNorm l)
        (foldl (λ m entry, post m entry.1 ordinal entry.2) (text l) (range frequencies))
        (<[ordinal := length]> (docLength l)) (u64 (totalTerms l + length)).

Definition add (l : t) (ordinal : Z) (record : CoreRecord) : t :=
  add_text (add_sparse l ordinal (SparseVector record)) ordinal (Text record).

Definition remove (l : t) (ordinal : Z) (record : CoreRecord) : t :=
  let sparse := foldl (unpost ordinal) (sparse l) (range (SparseVector record)).*1 in
  let sparseNorm := delete ordinal (sparseNorm l) in
  match docLength l !! ordinal with
  | None => mk sparse sparseNorm (text l) (docLength l) (totalTerms l)
  | Some length =>
      mk sparse sparseNorm (foldl (unpost ordinal) (text l) (Tokenize (Text record)))
        (delete ordinal (docLength l)) (u64 (totalTerms l - length))
  end.

#[local] Instance lexical : LexicalIndex t := {| lex_New := newLexicalIndex; lex_add := add; lex_remove := remove |}.

(** ** Scoring *)

(** [sparseNorm] of [segment.go] *)
Definition norm (vector : gmap string Z) : Z :=
  f64_sqrt (foldl (λ sum entry, f64_add sum (square entry.2)) f64_zero (range vector)).

Definition scored_ltb (a b : Z * Z) : bool :=
  f32_ltb b.2 a.2 || (f32_eqb a.2 b.2 && (a.1 <? b.1)).

Definition topScored (results : list (Z * Z)) (limit : Z) : list (Z * Z) :=
  let results := sort_slice scored_ltb results in
  if (0 <? limit) && (limit <? len results) then take (Z.to_nat limit) results else results.

(** The postings of one query term, accumulated. *)
Definition accumulate_term (l : t) (accumulator : gmap Z Z) (entry : string * Z) : gmap Z Z :=
  let '(term, queryWeight) := entry in
  if f32_is_zero queryWeight then accumulator
  else
    foldl (λ accumulator posting,
        <[posting.1 := f64_add (default f64_zero (accumulator !! posting.1))
            (f64_mul (f64_of_f32 queryWeight) (f64_of_f32 posting.2))]> accumulator)
      accumulator (range (default ∅ (sparse l !! term))).

Definition searchSparse (l : t) (query : gmap string Z) (allow : Z → bool) (limit : Z) : list (Z * Z) :=
  let queryNorm := norm query in
  if f64_eqb queryNorm f64_zero then []
  else
    let accumulator := foldl (accumulate_term l) ∅ (range query) in
    topScored
      (omap (λ '(ordinal, product),
         let norm := default f64_zero (sparseNorm l !! ordinal) in
         if f64_eqb norm f64_zero || negb (allow ordinal) then None
         else Some (ordinal, f32_of_f64_bits (f64_div product (f64_mul queryNorm norm))))
       (range accumulator)) limit.

Context `{!LogExp}.

(** [math.Log(1 + (documents-frequency+0.5)/(frequency+0.5))] *)
Definition idf (documents frequency : Z) : Z :=
  math_Log (f64_add f64_one
    (f64_div (f64_add (f64_sub (f64_of_int documents) (f64_of_int frequency)) f64_half)
       (f64_add (f64_of_int frequency) f64_half))).

(** The terms of a query that some document has, each once. *)
Fixpoint bm25_terms (l : t) (documents : Z) (seen : gset (list Z)) (tokens : list (list Z)) : list (gmap Z Z * Z) :=
  match tokens with
  | [] => []
  | token :: rest =>
      if bool_decide (token ∈ seen) then bm25_terms l documents seen rest
      else
        let seen := {[token]} ∪ seen in
        let postings := default ∅ (text l !! token) in
        if (size postings =? 0)%nat then bm25_terms l documents seen rest
        else (postings, idf documents (Z.of_nat (size postings))) :: bm25_terms l documents seen rest
  end.

(** One term's share of a score. *)
Definition bm25_share (ordinal length averageLength : Z) (score : Z) (term : gmap Z Z * Z) : Z :=
  let '(postings, idf) := term in
  let tf := f64_of_int (default 0 (postings !! ordinal)) in
  if f64_ltb f64_zero tf then
    f64_add score
      (f64_div (f64_mul (f64_mul idf tf) bm25K1_plus_1)
         (f64_add tf (f64_mul bm25K1
            (f64_add one_minus_bm25B (f64_div (f64_mul bm25B (f64_of_int length)) averageLength)))))
  else score.

Definition bm25Scorer (l : t) (query : string) (ordinal : Z) : Z :=
  let documents := Z.of_nat (size (docLength l)) in
  if documents =? 0 then f32_zero
  else
    let averageLength := f64_div (f64_of_int (totalTerms l)) (f64_of_int documents) in
    match docLength l !! ordinal with
    | None => f32_zero
    | Some length =>
        f32_of_f64_bits (foldl (bm25_share ordinal length averageLength) f64_zero (bm25_terms l documents ∅ (Tokenize query)))
    end.

(** The documents that have a token of the query. *)
Definition text_candidates (l : t) (tokens : list (list Z)) : gset Z :=
  foldl (λ candidates token, candidates ∪ dom (default ∅ (text l !! token))) ∅ tokens.

(** The candidates are a Go map too, visited in its order. *)
Definition searchText (l : t) (query : string) (allow : Z → bool) (limit : Z) : list (Z * Z) :=
  topScored
    ((λ ordinal, (ordinal, bm25Scorer l query ordinal)) <$>
       List.filter allow (range (gset_to_gmap tt (text_candidates l (Tokenize query)))).*1) limit.

Definition normalizeBM25 (score : Z) : Z := f32_div score (f32_add score bm25Saturation).

End Operations.
End Lexical.
