(* ===== verification/LexicalProofs.v ===== *)
(** * The lexical index: theorems

    The inverted indexes of a segment are exactly those of its records, and
    scoring through them is scoring the records themselves. *)
From Stdlib Require Import ZArith Lia Ascii String Sorting.Permutation.
From stdpp Require Import base tactics list gmap strings.
From S2P Require Import Prelude Core Float Distance TopK Index Segment SegmentProofs Lexical.
Local Set Warnings "-clear-no-such-hyp".
Local Open Scope string_scope.
Local Open Scope Z_scope.
Local Open Scope list_scope.

(** ** Postings *)

Section Postings.
Context {K : Type} `{Countable K}.
Implicit Types (m : gmap K (gmap Z Z)).

Definition posting m (term : K) : gmap Z Z := default ∅ (m !! term).

(** No term keeps an empty list of postings. *)
Definition tidy m : Prop := ∀ term p, m !! term = Some p → p ≠ ∅.

Lemma posting_post m term o v k : posting (Lexical.post m term o v) k = if decide (k = term) then <[o := v]> (posting m term) else posting m k.
Proof.
  unfold posting, Lexical.post. destruct (decide (k = term)) as [->|Hne]; [by rewrite lookup_insert_eq|by rewrite lookup_insert_ne].
Qed.

Lemma tidy_post m term o v : tidy m → tidy (Lexical.post m term o v).
Proof. intros Hm k p. unfold Lexical.post. intros [[_ <-]|[_ Hp]]%lookup_insert_Some; [by apply insert_non_empty|by eapply Hm]. Qed.

Lemma posting_unpost m term o k : posting (Lexical.unpost o m term) k = if decide (k = term) then delete o (posting m k) else posting m k.
Proof.
  unfold posting, Lexical.unpost. destruct (m !! term) as [p|] eqn:E.
  - destruct (Nat.eqb_spec (size (delete o p)) 0) as [Hs|_].
    + apply map_size_empty_inv in Hs. destruct (decide (k = term)) as [->|Hne]; [by rewrite lookup_delete_eq, E, <-Hs|by rewrite lookup_delete_ne].
    + destruct (decide (k = term)) as [->|Hne]; [by rewrite lookup_insert_eq, E|by rewrite lookup_insert_ne].
  - destruct (decide (k = term)) as [->|Hne]; [|done]. rewrite E. cbn. by rewrite delete_empty.
Qed.

Lemma tidy_unpost m term o : tidy m → tidy (Lexical.unpost o m term).
Proof.
  intros Hm. unfold Lexical.unpost. destruct (m !! term) as [p|] eqn:E; [|done].
  destruct (Nat.eqb_spec (size (delete o p)) 0) as [Hs|Hs]; intros k q.
  - intros [_ Hq]%lookup_delete_Some. by eapply Hm.
  - intros [[_ <-]|[_ Hq]]%lookup_insert_Some; [|by eapply Hm]. intros E'. apply Hs. by rewrite E', map_size_empty.
Qed.

Lemma tidy_posts m (entries : list (K * Z)) o : tidy m → tidy (foldl (λ m entry, Lexical.post m entry.1 o entry.2) m entries).
Proof. revert m. induction entries as [|[k v] l IH]; intros m Hm; [done|]. by apply IH, tidy_post. Qed.

Lemma posting_posts m (entries : list (K * Z)) o k :
  NoDup entries.*1 →
  posting (foldl (λ m entry, Lexical.post m entry.1 o entry.2) m entries) k =
    match (list_to_map entries : gmap K Z) !! k with Some v => <[o := v]> (posting m k) | None => posting m k end.
Proof.
  revert m. induction entries as [|[k' v] l IH]; intros m Hnd; [done|]. cbn [fmap list_fmap] in Hnd. apply NoDup_cons in Hnd as [Hni Hnd].
  cbn [foldl]. rewrite IH by done. cbn [fst snd list_to_map foldr]. rewrite posting_post. cbn [fst snd] in Hni.
  destruct (decide (k = k')) as [->|Hne].
  - apply not_elem_of_list_to_map_1 in Hni as Hn. cbn. rewrite Hn. by rewrite lookup_insert_eq.
  - cbn. by rewrite lookup_insert_ne.
Qed.

Lemma tidy_unposts m (terms : list K) o : tidy m → tidy (foldl (Lexical.unpost o) m terms).
Proof. revert m. induction terms as [|k l IH]; intros m Hm; [done|]. by apply IH, tidy_unpost. Qed.

Lemma posting_unposts m (terms : list K) o k :
  posting (foldl (Lexical.unpost o) m terms) k = if decide (k ∈ terms) then delete o (posting m k) else posting m k.
Proof.
  revert m. induction terms as [|k' l IH]; intros m; cbn [foldl]; [by rewrite decide_False by apply not_elem_of_nil|].
  rewrite IH, posting_unpost. destruct (decide (k = k')) as [->|Hne].
  - rewrite (decide_True (P := k' ∈ k' :: l)) by (by left). destruct (decide (k' ∈ l)); [|done]. apply delete_delete_eq.
  - destruct (decide (k ∈ l)) as [Hin|Hin]; [by rewrite decide_True by (by right)|rewrite decide_False; [done|]].
    intros [?|?]%elem_of_cons; done.
Qed.

Lemma range_map `{!MapOrder} {A} (m : gmap K A) : NoDup (range m).*1 ∧ list_to_map (range m) = m.
Proof.
  assert (NoDup (range m).*1) as Hnd by (rewrite range_perm; apply NoDup_fst_map_to_list). split; [done|].
  etrans; [apply list_to_map_proper; [done|apply range_perm]|]. apply list_to_map_to_list.
Qed.

Lemma range_keys `{!MapOrder} {A} (m : gmap K A) k : k ∈ (range m).*1 ↔ is_Some (m !! k).
Proof.
  rewrite range_perm, list_elem_of_fmap. split.
  - intros ([k' v]&->&Hin%elem_of_map_to_list). by exists v.
  - intros [v Hv]. exists (k, v). split; [done|]. by apply elem_of_map_to_list.
Qed.
End Postings.

(** ** Counting tokens *)

Definition occurrences (token : list Z) (tokens : list (list Z)) : Z := len (filter (token =.) tokens).

Lemma occurrences_cons token x tokens : occurrences token (x :: tokens) = (if decide (token = x) then 1 else 0) + occurrences token tokens.
Proof. unfold occurrences. rewrite filter_cons. destruct (decide (token = x)); [by rewrite len_cons|lia]. Qed.

Lemma occurrences_bound token tokens : 0 ≤ occurrences token tokens ≤ len tokens.
Proof.
  split; [apply len_nonneg|]. unfold occurrences, len. pose proof (length_filter (token =.) tokens) as Hl. lia.
Qed.

Lemma occurrences_elem token tokens : 0 < occurrences token tokens ↔ token ∈ tokens.
Proof.
  induction tokens as [|x l IH]; [split; [done|by intros ?%not_elem_of_nil]|]. rewrite occurrences_cons, elem_of_cons.
  pose proof (occurrences_bound token l). destruct (decide (token = x)); split; intros; [by left|lia|right; apply IH; lia|].
  destruct H0 as [?|?%IH]; [done|lia].
Qed.

Lemma count_tokens (tokens : list (list Z)) (m : gmap (list Z) Z) :
  (∀ token, 0 ≤ default 0 (m !! token) ∧ default 0 (m !! token) + len tokens < 2 ^ 32) →
  ∀ token, foldl count_token m tokens !! token =
    if decide (token ∈ tokens) then Some (default 0 (m !! token) + occurrences token tokens) else m !! token.
Proof.
  revert m. induction tokens as [|x l IH]; intros m Hm token; cbn [foldl]; [by rewrite decide_False by apply not_elem_of_nil|].
  assert (∀ t, len (t :: l : list (list Z)) = 1 + len l) as El by (intros; apply len_cons).
  assert (∀ t, default 0 (count_token m x !! t) = default 0 (m !! t) + (if decide (t = x) then 1 else 0)) as Hc.
  { intros t. unfold count_token. pose proof (Hm t) as Ht. rewrite El in Ht. pose proof (len_nonneg l). destruct (decide (t = x)) as [->|Hne].
    - rewrite lookup_insert_eq. unfold u32, default at 1. simpl. rewrite Z.mod_small; lia.
    - rewrite lookup_insert_ne by done. lia. }
  rewrite IH. 2: { intros t. rewrite Hc. pose proof (Hm t) as Ht. rewrite El in Ht. destruct (decide (t = x)); lia. }
  rewrite Hc, occurrences_cons. destruct (decide (token = x)) as [->|Hne].
  - rewrite (decide_True (P := x ∈ x :: l)) by (by left). destruct (decide (x ∈ l)) as [Hin|Hni]; [f_equal; lia|].
    unfold count_token. rewrite lookup_insert_eq. pose proof (Hm x) as Hx. rewrite El in Hx. pose proof (len_nonneg l).
    assert (occurrences x l = 0) as ->. { pose proof (occurrences_bound x l). destruct (decide (0 < occurrences x l)) as [Hp%occurrences_elem|]; [done|lia]. }
    f_equal. unfold u32. rewrite Z.mod_small; lia.
  - destruct (decide (token ∈ l)) as [Hin|Hni]; [rewrite decide_True by (by right); f_equal; lia|].
    rewrite decide_False by (intros [?|?]%elem_of_cons; done). unfold count_token. by rewrite lookup_insert_ne.
Qed.

(** ** What the index stands for *)

Section Representation.
Context {UT : UnicodeTables} {MO : MapOrder}.

Definition tokens_of (r : CoreRecord) : list (list Z) := Tokenize (Text r).

(** The weights that count. *)
Definition weights (r : CoreRecord) : gmap string Z := base.filter (λ kv, f32_is_zero kv.2 = false) (SparseVector r).

Definition squared_norm (r : CoreRecord) : Z :=
  foldl (λ sum entry, f64_add sum (square entry.2)) f64_zero (base.filter (λ kv, f32_is_zero kv.2 = false) (range (SparseVector r))).

Definition norm_of (r : CoreRecord) : option Z :=
  if f64_ltb f64_zero (squared_norm r) then Some (f64_sqrt (squared_norm r)) else None.

Definition frequency (token : list Z) (r : CoreRecord) : option Z :=
  if decide (token ∈ tokens_of r) then Some (occurrences token (tokens_of r)) else None.

Definition document_length (r : CoreRecord) : option Z :=
  if len (tokens_of r) =? 0 then None else Some (len (tokens_of r)).

(** Token counts fit 32 bits, as the limit on texts ensures. *)
Definition bounded_text (r : CoreRecord) : Prop := len (tokens_of r) < 2 ^ 32.

Definition all_tokens (full : gmap Z CoreRecord) : Z := map_fold (λ _ r n, len (tokens_of r) + n) 0 full.

Record lex_rep (l : Lexical.t) (full : gmap Z CoreRecord) : Prop := mkLexRep {
  lr_sparse term o : posting (Lexical.sparse l) term !! o = full !! o ≫= λ r, weights r !! term;
  lr_sparse_tidy : tidy (Lexical.sparse l);
  lr_norm o : Lexical.sparseNorm l !! o = full !! o ≫= norm_of;
  lr_text token o : posting (Lexical.text l) token !! o = full !! o ≫= frequency token;
  lr_text_tidy : tidy (Lexical.text l);
  lr_length o : Lexical.docLength l !! o = full !! o ≫= document_length;
  lr_total : Lexical.totalTerms l = u64 (all_tokens full);
}.

Lemma length_fields word rs : (length (fields_from word rs) ≤ length rs + match word with [] => 0 | _ => 1 end)%nat.
Proof.
  revert word. induction rs as [|r rs IH]; intros word; cbn [fields_from]; [destruct word; simpl; lia|].
  destruct (separator r).
  - destruct word; simpl; [specialize (IH []); simpl in *; lia|specialize (IH []); simpl in *; lia].
  - specialize (IH (r :: word)). simpl in *. destruct word; lia.
Qed.

Lemma length_runes bs : (length (runes bs) ≤ length bs)%nat.
Proof.
  assert (∀ n bs, (length bs ≤ n)%nat → (length (runes bs) ≤ length bs)%nat) as Hall; [|by eapply Hall].
  induction n as [|n IH]; intros l Hl; [by destruct l; [|simpl in Hl; lia]|].
  destruct l as [|b0 l]; [done|]. cbn [runes].
  repeat case_match; subst; cbn [length] in *; try lia; match goal with |- context [runes ?x] => pose proof (IH x) end; cbn [length] in *; lia.
Qed.

Lemma length_string_runes s : length (string_runes s) = String.length s.
Proof. induction s as [|c s IH]; [done|]. cbn. by rewrite IH. Qed.

Lemma valid_text_bounded r : ValidateText (Text r) = Ok tt → bounded_text r.
Proof.
  unfold ValidateText. destruct (Z.ltb_spec MaxTextBytes (Z.of_nat (String.length (Text r)))) as [|Hl]; [done|]. intros _.
  unfold bounded_text, tokens_of, Tokenize, textWords, len.
  assert (∀ (f : list Z → bool) l, (length (List.filter f l) ≤ length l)%nat) as Hf.
  { intros f l. induction l as [|x l IH]; [done|]. cbn. destruct (f x); cbn; lia. }
  pose proof (Hf (λ field, negb (bool_decide (field ∈ stopwords))) (fields_from [] (ToLower <$> runes (string_runes (Text r))))).
  pose proof (length_fields [] (ToLower <$> runes (string_runes (Text r)))) as H1. rewrite length_fmap in H1.
  pose proof (length_runes (string_runes (Text r))) as H2. rewrite length_string_runes in H2. change MaxTextBytes with (2 ^ 20) in Hl. lia.
Qed.

Lemma lex_rep_new : lex_rep Lexical.newLexicalIndex ∅.
Proof.
  constructor; intros; cbn; unfold posting; rewrite ?lookup_empty; try done; intros k p; by rewrite lookup_empty.
Qed.

Lemma add_weights_split ordinal entries m squared :
  foldl (Lexical.add_weight ordinal) (m, squared) entries =
    (foldl (λ m entry, Lexical.post m entry.1 ordinal entry.2) m (base.filter (λ kv, f32_is_zero kv.2 = false) entries),
     foldl (λ sum entry, f64_add sum (square entry.2)) squared (base.filter (λ kv, f32_is_zero kv.2 = false) entries)).
Proof.
  revert m squared. induction entries as [|[k v] l IH]; intros m squared; [done|]. cbn [foldl Lexical.add_weight]. rewrite filter_cons. cbn [snd].
  destruct (f32_is_zero v); [rewrite decide_False by done; apply IH|rewrite decide_True by done; apply IH].
Qed.

Lemma weights_range r :
  let entries := base.filter (λ kv : string * Z, f32_is_zero kv.2 = false) (range (SparseVector r)) in
  NoDup entries.*1 ∧ list_to_map entries = weights r.
Proof.
  intros entries. destruct (range_map (SparseVector r)) as [Hnd Hm].
  assert (NoDup entries.*1) as Hnd'.
  { unfold entries. clear -Hnd. revert Hnd. induction (range (SparseVector r)) as [|[k v] l IH]; intros Hnd; [constructor|].
    cbn [fmap list_fmap fst] in Hnd. apply NoDup_cons in Hnd as [Hni Hnd]. rewrite filter_cons. destruct (decide _); [|by apply IH].
    cbn [fmap list_fmap fst]. apply NoDup_cons. split; [|by apply IH]. rewrite list_elem_of_fmap. intros ([k' v']&->&[_ Hin]%list_elem_of_filter).
    apply Hni. apply list_elem_of_fmap. by exists (k', v'). }
  split; [done|]. apply map_eq. intros k. apply option_eq. intros v. unfold weights. rewrite map_lookup_filter_Some.
  rewrite <-elem_of_list_to_map by done. unfold entries. rewrite list_elem_of_filter. rewrite <-Hm at 2.
  rewrite <-elem_of_list_to_map by done. cbn. tauto.
Qed.
End Representation.

(** ** Adding and removing records *)

Section Changes.
Context {UT : UnicodeTables} {MO : MapOrder}.

Lemma all_tokens_insert full o r : full !! o = None → all_tokens (<[o := r]> full) = len (tokens_of r) + all_tokens full.
Proof. intros Ho. unfold all_tokens. rewrite map_fold_insert_L; [done|lia|done]. Qed.

Lemma all_tokens_delete full o r : full !! o = Some r → all_tokens full = len (tokens_of r) + all_tokens (delete o full).
Proof. intros Ho. rewrite <-(insert_delete_id full o r) at 1 by done. apply all_tokens_insert, lookup_delete_eq. Qed.

Lemma lookup_posting_other (m : gmap Z Z) o o' v : o' ≠ o → <[o := v]> m !! o' = m !! o'.
Proof. intros. by apply lookup_insert_ne. Qed.

Lemma sparse_empty l o r : size (SparseVector r) = 0%nat → Lexical.add_sparse l o (SparseVector r) = l.
Proof. intros Hs. unfold Lexical.add_sparse. by rewrite Hs. Qed.

Lemma add_sparse_ok l full o r :
  full !! o = None → lex_rep l full →
  let l' := Lexical.add_sparse l o (SparseVector r) in
  (∀ term o', posting (Lexical.sparse l') term !! o' = if decide (o' = o) then weights r !! term else full !! o' ≫= λ r, weights r !! term) ∧
  tidy (Lexical.sparse l') ∧ (∀ o', Lexical.sparseNorm l' !! o' = if decide (o' = o) then norm_of r else full !! o' ≫= norm_of) ∧
  Lexical.text l' = Lexical.text l ∧ Lexical.docLength l' = Lexical.docLength l ∧ Lexical.totalTerms l' = Lexical.totalTerms l.
Proof.
  intros Ho [H1 H2 H3 _ _ _ _]. cbv zeta. unfold Lexical.add_sparse. destruct (Nat.eqb_spec (size (SparseVector r)) 0) as [Hs|_].
  { apply map_size_empty_inv in Hs. split_and!; try done.
    - intros term o'. rewrite H1. destruct (decide (o' = o)) as [->|]; [|done]. rewrite Ho. unfold weights. by rewrite Hs, map_filter_empty, lookup_empty.
    - intros o'. rewrite H3. destruct (decide (o' = o)) as [->|]; [|done]. rewrite Ho. cbn [mbind option_bind]. unfold norm_of, squared_norm. rewrite Hs.
      assert (range (∅ : gmap string Z) = []) as ->; [|done].
      apply Permutation_nil. rewrite <-(map_to_list_empty (M := gmap string) (A := Z)). symmetry. apply range_perm. }
  rewrite add_weights_split. destruct (weights_range r) as [Hnd Hw]. cbn [Lexical.sparse Lexical.sparseNorm Lexical.text Lexical.docLength Lexical.totalTerms].
  split_and!; try done.
  - intros term o'. rewrite posting_posts by done. rewrite Hw. destruct (weights r !! term) as [v|] eqn:E.
    + destruct (decide (o' = o)) as [->|Hne]; [by rewrite lookup_insert_eq|]. rewrite lookup_insert_ne by done. apply H1.
    + destruct (decide (o' = o)) as [->|Hne]; [|apply H1]. by rewrite H1, Ho.
  - by apply tidy_posts.
  - intros o'. unfold norm_of. fold (squared_norm r). destruct (f64_ltb f64_zero (squared_norm r)).
    + destruct (decide (o' = o)) as [->|Hne]; [by rewrite lookup_insert_eq|]. rewrite lookup_insert_ne by done. apply H3.
    + rewrite H3. destruct (decide (o' = o)) as [->|Hne]; [by rewrite Ho|done].
Qed.

Lemma frequencies_ok r : bounded_text r → ∀ token, foldl count_token ∅ (tokens_of r) !! token = frequency token r.
Proof.
  intros Hb token. rewrite count_tokens.
  - unfold frequency. rewrite lookup_empty. cbn [default]. by destruct (decide _).
  - intros t. rewrite lookup_empty. cbn. unfold bounded_text in Hb. lia.
Qed.

Lemma no_tokens r : len (tokens_of r) = 0 → ∀ token, frequency token r = None.
Proof.
  intros Hl token. unfold frequency. apply len_zero in Hl. rewrite Hl. by rewrite decide_False by apply not_elem_of_nil.
Qed.

Lemma empty_text r : Text r = "" → tokens_of r = [].
Proof. unfold tokens_of. by intros ->. Qed.

Lemma lex_add_ok l full o r :
  full !! o = None → bounded_text r → lex_rep l full → lex_rep (Lexical.add l o r) (<[o := r]> full).
Proof.
  intros Ho Hb Hl. destruct (add_sparse_ok l full o r Ho Hl) as (S1&S2&S3&S4&S5&S6). cbv zeta in *. unfold Lexical.add.
  set (l1 := Lexical.add_sparse l o (SparseVector r)) in *. destruct Hl as [H1 H2 H3 H4 H5 H6 H7].
  assert (∀ {A} (f : CoreRecord → option A) o', (<[o := r]> full !! o' ≫= f) = if decide (o' = o) then f r else full !! o' ≫= f) as Hins.
  { intros A f o'. destruct (decide (o' = o)) as [->|Hne]; [by rewrite lookup_insert_eq|by rewrite lookup_insert_ne]. }
  assert (len (tokens_of r) = 0 → lex_rep l1 (<[o := r]> full)) as Hnone.
  { intros Hz. constructor.
    - intros term o'. by rewrite S1, Hins.
    - done.
    - intros o'. by rewrite S3, Hins.
    - intros token o'. rewrite Hins, S4, H4. destruct (decide (o' = o)) as [->|]; [|done]. by rewrite Ho, no_tokens.
    - by rewrite S4.
    - intros o'. rewrite Hins, S5, H6. destruct (decide (o' = o)) as [->|]; [|done]. rewrite Ho. unfold document_length. by rewrite Hz.
    - rewrite S6, H7, all_tokens_insert by done. by rewrite Hz. }
  unfold Lexical.add_text. fold (tokens_of r). destruct (String.eqb_spec (Text r) "") as [Et|Et]; [by apply Hnone; rewrite empty_text|].
  unfold bounded_text in Hb. pose proof (len_nonneg (tokens_of r)). assert (u32 (len (tokens_of r)) = len (tokens_of r)) as -> by (unfold u32; apply Z.mod_small; lia).
  destruct (Z.eqb_spec (len (tokens_of r)) 0) as [Hz|Hz]; [by apply Hnone|].
  destruct (range_map (foldl count_token ∅ (tokens_of r))) as [Hnd Hm].
  constructor; cbn [Lexical.sparse Lexical.sparseNorm Lexical.text Lexical.docLength Lexical.totalTerms]; try done.
  - intros term o'. by rewrite S1, Hins.
  - intros o'. by rewrite S3, Hins.
  - intros token o'. rewrite posting_posts by done. rewrite Hm, frequencies_ok by done. rewrite Hins, S4.
    destruct (frequency token r) as [v|] eqn:E.
    + destruct (decide (o' = o)) as [->|Hne]; [by rewrite lookup_insert_eq|]. rewrite lookup_insert_ne by done. apply H4.
    + destruct (decide (o' = o)) as [->|Hne]; [|apply H4]. by rewrite H4, Ho.
  - apply tidy_posts. by rewrite S4.
  - intros o'. rewrite Hins, S5. destruct (decide (o' = o)) as [->|Hne].
    + rewrite lookup_insert_eq. unfold document_length. by rewrite (proj2 (Z.eqb_neq _ _)).
    + rewrite lookup_insert_ne by done. apply H6.
  - rewrite S6, H7, all_tokens_insert by done. unfold u64. rewrite Zplus_mod_idemp_l. f_equal. lia.
Qed.

Lemma lex_remove_ok l full o r :
  full !! o = Some r → bounded_text r → lex_rep l full → lex_rep (Lexical.remove l o r) (delete o full).
Proof.
  intros Ho Hb [H1 H2 H3 H4 H5 H6 H7].
  assert (∀ {A} (f : CoreRecord → option A) o', (delete o full !! o' ≫= f) = if decide (o' = o) then None else full !! o' ≫= f) as Hdel.
  { intros A f o'. destruct (decide (o' = o)) as [->|Hne]; [by rewrite lookup_delete_eq|by rewrite lookup_delete_ne]. }
  assert (∀ term o', posting (foldl (Lexical.unpost o) (Lexical.sparse l) (range (SparseVector r)).*1) term !! o' =
    delete o full !! o' ≫= λ r, weights r !! term) as Hsp.
  { intros term o'. rewrite posting_unposts, Hdel. destruct (decide (term ∈ _)) as [Hin|Hni].
    - destruct (decide (o' = o)) as [->|Hne]; [by rewrite lookup_delete_eq|]. rewrite lookup_delete_ne by done. apply H1.
    - rewrite H1. destruct (decide (o' = o)) as [->|Hne]; [|done]. rewrite Ho. cbn. unfold weights.
      apply map_lookup_filter_None. left. apply not_elem_of_dom. intros Hd. apply Hni, range_keys. by apply elem_of_dom. }
  assert (∀ o', delete o (Lexical.sparseNorm l) !! o' = delete o full !! o' ≫= norm_of) as Hno.
  { intros o'. rewrite Hdel. destruct (decide (o' = o)) as [->|Hne]; [by rewrite lookup_delete_eq|]. rewrite lookup_delete_ne by done. apply H3. }
  unfold Lexical.remove. rewrite H6, Ho. cbn [mbind option_bind]. fold (tokens_of r). unfold document_length at 1. destruct (Z.eqb_spec (len (tokens_of r)) 0) as [Hz|Hz].
  - constructor; cbn [Lexical.sparse Lexical.sparseNorm Lexical.text Lexical.docLength Lexical.totalTerms]; try done.
    + by apply tidy_unposts.
    + intros token o'. rewrite Hdel, H4. destruct (decide (o' = o)) as [->|Hne]; [|done]. rewrite Ho. cbn. by apply no_tokens.
    + intros o'. rewrite Hdel, H6. destruct (decide (o' = o)) as [->|Hne]; [|done]. rewrite Ho. cbn. unfold document_length. by rewrite Hz.
    + rewrite H7, (all_tokens_delete full o r) by done. by rewrite Hz.
  - constructor; cbn [Lexical.sparse Lexical.sparseNorm Lexical.text Lexical.docLength Lexical.totalTerms]; try done.
    + by apply tidy_unposts.
    + intros token o'. rewrite posting_unposts, Hdel. destruct (decide (token ∈ _)) as [Hin|Hni].
      * destruct (decide (o' = o)) as [->|Hne]; [by rewrite lookup_delete_eq|]. rewrite lookup_delete_ne by done. apply H4.
      * rewrite H4. destruct (decide (o' = o)) as [->|Hne]; [|done]. rewrite Ho. cbn. unfold frequency. by rewrite decide_False.
    + by apply tidy_unposts.
    + intros o'. rewrite Hdel. destruct (decide (o' = o)) as [->|Hne]; [by rewrite lookup_delete_eq|]. rewrite lookup_delete_ne by done. apply H6.
    + rewrite H7, (all_tokens_delete full o r) by done. unfold u64. rewrite Zminus_mod_idemp_l. f_equal. lia.
Qed.
End Changes.

(** ** Sorting scored ordinals *)

Definition scored_key (c : Z * Z) : Z * Z := (f32_ord c.2, c.1).
Definition scored_order : Z * Z → Z * Z → bool := by_key cand_key_ltb scored_key.

Lemma scored_by_key a b : comparable a.2 → comparable b.2 → Lexical.scored_ltb a b = scored_order a b.
Proof.
  unfold comparable, Lexical.scored_ltb, scored_order, by_key, cand_key_ltb, scored_key, f32_ltb, f32_eqb. cbn [fst snd].
  intros -> ->. done.
Qed.

(** The best [limit] of the scored ordinals, the higher score and then the
    smaller ordinal first; all of them when [limit] is not positive. *)
Lemma topScored_ok (results : list (Z * Z)) limit :
  (∀ c, c ∈ results → comparable c.2) → NoDup results.*1 →
  Lexical.topScored results limit = take (if 0 <? limit then Z.to_nat limit else length results) (sort_slice scored_order results) ∧
  NoDup (scored_key <$> results).
Proof.
  intros Hc Hnd. split.
  - unfold Lexical.topScored. rewrite (sort_slice_ext Lexical.scored_ltb scored_order results) by (intros; apply scored_by_key; auto).
    unfold len. rewrite length_sort_slice. destruct (Z.ltb_spec 0 limit), (Z.ltb_spec limit (Z.of_nat (length results))); cbn [andb]; try done;
      rewrite take_ge; rewrite ?length_sort_slice; (done || lia).
  - eapply (NoDup_fmap_1 snd). rewrite <-list_fmap_compose. exact Hnd.
Qed.

Lemma elem_of_kept {A} (f : A → bool) x l : x ∈ List.filter f l ↔ x ∈ l ∧ f x = true.
Proof. by rewrite !list_elem_of_In, filter_In. Qed.

(** ** Text search *)

Section Text.
Context {UT : UnicodeTables} {MO : MapOrder} {LE : LogExp}.

(** BM25 over a set of records: the score of one of them. *)
Definition corpus_size (full : gmap Z CoreRecord) : Z := Z.of_nat (size (omap document_length full)).
Definition holding (token : list Z) (full : gmap Z CoreRecord) : gmap Z Z := omap (frequency token) full.

Fixpoint query_terms (full : gmap Z CoreRecord) (seen : gset (list Z)) (tokens : list (list Z)) : list (list Z) :=
  match tokens with
  | [] => []
  | token :: rest =>
      let others := query_terms full ({[token]} ∪ seen) rest in
      if bool_decide (token ∈ seen) then query_terms full seen rest
      else if (size (holding token full) =? 0)%nat then others else token :: others
  end.

Definition bm25_term (full : gmap Z CoreRecord) (r : CoreRecord) (score : Z) (token : list Z) : Z :=
  let tf := f64_of_int (occurrences token (tokens_of r)) in
  let average := f64_div (f64_of_int (u64 (all_tokens full))) (f64_of_int (corpus_size full)) in
  if f64_ltb f64_zero tf then
    f64_add score
      (f64_div (f64_mul (f64_mul (Lexical.idf (corpus_size full) (Z.of_nat (size (holding token full)))) tf) bm25K1_plus_1)
         (f64_add tf (f64_mul bm25K1
            (f64_add one_minus_bm25B (f64_div (f64_mul bm25B (f64_of_int (len (tokens_of r)))) average)))))
  else score.

Definition bm25_of (full : gmap Z CoreRecord) (query : string) (r : CoreRecord) : Z :=
  if (corpus_size full =? 0) || (len (tokens_of r) =? 0) then f32_zero
  else f32_of_f64_bits (foldl (bm25_term full r) f64_zero (query_terms full ∅ (Tokenize query))).

Context (l : Lexical.t) (full : gmap Z CoreRecord) (Hrep : lex_rep l full).

Lemma posting_holding token : posting (Lexical.text l) token = holding token full.
Proof using Hrep. apply map_eq. intros o. rewrite (lr_text _ _ Hrep). unfold holding. by rewrite lookup_omap. Qed.

Lemma documents_ok : Z.of_nat (size (Lexical.docLength l)) = corpus_size full.
Proof using Hrep.
  unfold corpus_size. do 2 f_equal. apply map_eq. intros o. by rewrite (lr_length _ _ Hrep), lookup_omap.
Qed.

Lemma bm25_terms_ok documents seen tokens :
  Lexical.bm25_terms l documents seen tokens =
    (λ token, (holding token full, Lexical.idf documents (Z.of_nat (size (holding token full))))) <$> query_terms full seen tokens.
Proof using Hrep.
  revert seen. induction tokens as [|token rest IH]; intros seen; [done|]. cbn [Lexical.bm25_terms query_terms].
  destruct (bool_decide _); [apply IH|]. change (default ∅ (Lexical.text l !! token)) with (posting (Lexical.text l) token).
  rewrite posting_holding. destruct (_ =? _)%nat; [apply IH|]. rewrite IH. done.
Qed.

(** Scoring through the index is scoring the record against the others. *)
Lemma bm25Scorer_ok query o r : full !! o = Some r → Lexical.bm25Scorer l query o = bm25_of full query r.
Proof using Hrep.
  intros Ho. unfold Lexical.bm25Scorer, bm25_of. rewrite documents_ok. destruct (corpus_size full =? 0); [done|]. cbn [orb].
  rewrite (lr_length _ _ Hrep), Ho. cbn [mbind option_bind]. unfold document_length at 1. destruct (len (tokens_of r) =? 0); [done|].
  rewrite bm25_terms_ok, (lr_total _ _ Hrep).
  assert (∀ token, default 0 (holding token full !! o) = occurrences token (tokens_of r)) as Hocc.
  { intros token. unfold holding. rewrite lookup_omap, Ho. cbn. unfold frequency. destruct (decide _) as [|Hni]; [done|]. cbn.
    pose proof (occurrences_bound token (tokens_of r)). destruct (decide (0 < occurrences token (tokens_of r))) as [H0%occurrences_elem|]; [done|lia]. }
  f_equal. generalize f64_zero as score. induction (query_terms full ∅ (Tokenize query)) as [|token terms IH]; intros score; [done|].
  rewrite fmap_cons. cbn [foldl]. rewrite IH. f_equal. unfold Lexical.bm25_share, bm25_term. by rewrite Hocc.
Qed.

Lemma text_candidates_ok tokens o :
  o ∈ Lexical.text_candidates l tokens ↔ ∃ r, full !! o = Some r ∧ ∃ token, token ∈ tokens ∧ token ∈ tokens_of r.
Proof using Hrep.
  unfold Lexical.text_candidates.
  assert (∀ acc : gset Z, o ∈ foldl (λ candidates token, candidates ∪ dom (default ∅ (Lexical.text l !! token))) acc tokens ↔
    o ∈ acc ∨ ∃ r, full !! o = Some r ∧ ∃ token, token ∈ tokens ∧ token ∈ tokens_of r) as Hall; [|rewrite Hall; set_solver].
  induction tokens as [|token rest IH]; intros acc; cbn [foldl]; [set_solver|]. rewrite IH, elem_of_union.
  change (default ∅ (Lexical.text l !! token)) with (posting (Lexical.text l) token). rewrite posting_holding, elem_of_dom.
  unfold holding. rewrite lookup_omap. assert (is_Some (full !! o ≫= frequency token) ↔ ∃ r, full !! o = Some r ∧ token ∈ tokens_of r) as ->.
  { unfold frequency. destruct (full !! o) as [r|]; cbn.
    - destruct (decide (token ∈ tokens_of r)); split; [eauto|eauto|by intros []|naive_solver].
    - split; [by intros []|naive_solver]. }
  set_solver.
Qed.

Lemma searchText_ok query (allow : Z → bool) limit :
  ∃ all, NoDup all.*1 ∧ Lexical.searchText l query allow limit = Lexical.topScored all limit ∧
    ∀ o score, (o, score) ∈ all ↔ allow o = true ∧ ∃ r, full !! o = Some r ∧
      (∃ token, token ∈ Tokenize query ∧ token ∈ tokens_of r) ∧ score = bm25_of full query r.
Proof using Hrep.
  eexists. split; [|split; [reflexivity|]].
  - rewrite <-list_fmap_compose. cbn. rewrite list_fmap_id.
    assert (∀ k : list Z, NoDup k → NoDup (List.filter allow k)) as Hf.
    { intros k. induction 1 as [|x k Hx Hk IH]; [constructor|]. cbn. destruct (allow x); [|done]. constructor; [|done].
      by intros [Hin _]%elem_of_kept. }
    apply Hf, range_map.
  - intros o score. rewrite list_elem_of_fmap. split.
    + intros (o'&[= -> ->]&[Hk Ha]%elem_of_kept). split; [done|]. apply range_keys in Hk. rewrite lookup_gset_to_gmap in Hk.
      assert (o' ∈ Lexical.text_candidates l (Tokenize query)) as Hin.
      { destruct (decide (o' ∈ Lexical.text_candidates l (Tokenize query))) as [Hd|Hn]; [exact Hd|]. rewrite option_guard_False in Hk by done. by destruct Hk. }
      apply text_candidates_ok in Hin as (r&Hr&Htok). exists r. split; [done|]. split; [done|]. by apply bm25Scorer_ok.
    + intros (Ha&r&Hr&Htok&->). exists o. split; [by rewrite (bm25Scorer_ok query o r)|]. apply elem_of_kept. split; [|done].
      apply range_keys. rewrite lookup_gset_to_gmap, option_guard_True; [by eexists|]. apply text_candidates_ok. eauto.
Qed.
End Text.

(** ** Sparse search *)

Section Sparse.
Context {UT : UnicodeTables} {MO : MapOrder}.

(** The product of a query and a record, over the terms they share. *)
Definition product_term (r : CoreRecord) (product : Z) (entry : string * Z) : Z :=
  if f32_is_zero entry.2 then product
  else match weights r !! entry.1 with
       | Some weight => f64_add product (f64_mul (f64_of_f32 entry.2) (f64_of_f32 weight))
       | None => product
       end.

Definition shares (r : CoreRecord) (entries : list (string * Z)) : Prop :=
  ∃ term value weight, (term, value) ∈ entries ∧ f32_is_zero value = false ∧ weights r !! term = Some weight.

Definition sparse_score (query : gmap string Z) (r : CoreRecord) (norm : Z) : Z :=
  f32_of_f64_bits (f64_div (foldl (product_term r) f64_zero (range query)) (f64_mul (Lexical.norm query) norm)).

Context (l : Lexical.t) (full : gmap Z CoreRecord) (Hrep : lex_rep l full).

(** One query term reaches every document that has it. *)
Lemma accumulate_postings value (postings : gmap Z Z) entries (acc : gmap Z Z) o :
  NoDup entries.*1 → list_to_map entries = postings →
  let acc' := foldl (λ accumulator posting,
        <[posting.1 := f64_add (default f64_zero (accumulator !! posting.1))
            (f64_mul (f64_of_f32 value) (f64_of_f32 posting.2))]> accumulator) acc entries in
  acc' !! o = match postings !! o with
    | Some weight => Some (f64_add (default f64_zero (acc !! o)) (f64_mul (f64_of_f32 value) (f64_of_f32 weight)))
    | None => acc !! o
    end.
Proof.
  intros Hnd <-. cbv zeta. revert acc. induction entries as [|[o' w] k IH]; intros acc; [done|].
  cbn [fmap list_fmap fst] in Hnd. apply NoDup_cons in Hnd as [Hni Hnd]. cbn [foldl fst snd]. rewrite IH by done. cbn [list_to_map foldr]. cbn.
  destruct (decide (o = o')) as [->|Hne].
  - apply not_elem_of_list_to_map_1 in Hni as Hn. rewrite Hn. by rewrite !lookup_insert_eq.
  - by rewrite !lookup_insert_ne.
Qed.

Lemma accumulate_term_ok acc term value o :
  Lexical.accumulate_term l acc (term, value) !! o =
    if f32_is_zero value then acc !! o
    else match full !! o ≫= λ r, weights r !! term with
         | Some weight => Some (f64_add (default f64_zero (acc !! o)) (f64_mul (f64_of_f32 value) (f64_of_f32 weight)))
         | None => acc !! o
         end.
Proof using Hrep.
  cbn [Lexical.accumulate_term]. destruct (f32_is_zero value); [done|].
  change (default ∅ (Lexical.sparse l !! term)) with (posting (Lexical.sparse l) term).
  destruct (range_map (posting (Lexical.sparse l) term)) as [Hnd Hm].
  rewrite (accumulate_postings value _ _ acc o Hnd Hm). by rewrite (lr_sparse _ _ Hrep).
Qed.

Lemma accumulate_ok entries acc o r :
  full !! o = Some r →
  default f64_zero (foldl (Lexical.accumulate_term l) acc entries !! o) = foldl (product_term r) (default f64_zero (acc !! o)) entries ∧
  (is_Some (foldl (Lexical.accumulate_term l) acc entries !! o) ↔ is_Some (acc !! o) ∨ shares r entries).
Proof using Hrep.
  intros Ho. revert acc. induction entries as [|[term value] k IH]; intros acc; cbn [foldl].
  { split; [done|]. split; [by left|]. intros [?|(?&?&?&Hin&_)]; [done|]. by apply not_elem_of_nil in Hin. }
  destruct (IH (Lexical.accumulate_term l acc (term, value))) as [-> ->]. rewrite accumulate_term_ok, Ho. cbn [mbind option_bind].
  assert (∀ p, product_term r p (term, value) = if f32_is_zero value then p else match weights r !! term with
    | Some weight => f64_add p (f64_mul (f64_of_f32 value) (f64_of_f32 weight)) | None => p end) as Hp by done. rewrite Hp. clear Hp.
  assert (∀ P : Prop, shares r ((term, value) :: k) ↔ (f32_is_zero value = false ∧ is_Some (weights r !! term)) ∨ shares r k) as Hs.
  { intros _. unfold shares. split.
    - intros (t&v&w&[[= -> ->]|Hin]%elem_of_cons&Hz&Hw); [left; split; [done|by exists w]|right; eauto 10].
    - intros [[Hz [w Hw]]|(t&v&w&Hin&Hz&Hw)]; [exists term, value, w; split; [by left|done]|exists t, v, w; split; [by right|done]]. }
  rewrite (Hs True). clear Hs. destruct (f32_is_zero value) eqn:Ez; [split; [done|split; intros; naive_solver]|].
  destruct (weights r !! term) as [w|] eqn:Ew; (split; [done|]); split; intros Hor.
  - right. left. split; [done|by eexists].
  - left. by eexists.
  - destruct Hor; [by left|by right; right].
  - destruct Hor as [?|[[_ []]|?]]; [by left|done|by right].
Qed.

Lemma accumulate_missing entries acc o : full !! o = None → foldl (Lexical.accumulate_term l) acc entries !! o = acc !! o.
Proof using Hrep.
  intros Ho. revert acc. induction entries as [|[term value] k IH]; intros acc; [done|]. cbn [foldl]. rewrite IH, accumulate_term_ok, Ho.
  by destruct (f32_is_zero value).
Qed.

(** Sparse search scores exactly the allowed records that share a term. *)
Lemma searchSparse_ok query (allow : Z → bool) limit :
  f64_eqb (Lexical.norm query) f64_zero = false →
  ∃ all, NoDup all.*1 ∧ Lexical.searchSparse l query allow limit = Lexical.topScored all limit ∧
    ∀ o score, (o, score) ∈ all ↔ allow o = true ∧ ∃ r norm, full !! o = Some r ∧ shares r (range query) ∧
      norm_of r = Some norm ∧ f64_eqb norm f64_zero = false ∧ score = sparse_score query r norm.
Proof using Hrep.
  intros Hq. unfold Lexical.searchSparse. rewrite Hq. eexists. split; [|split; [reflexivity|]].
  - destruct (range_map (foldl (Lexical.accumulate_term l) ∅ (range query))) as [Hnd _]. revert Hnd.
    generalize (range (foldl (Lexical.accumulate_term l) ∅ (range query))) as entries. clear. induction entries as [|[o p] k IH]; intros Hnd; [constructor|].
    cbn [fmap list_fmap fst] in Hnd. apply NoDup_cons in Hnd as [Hni Hnd]. cbn. destruct (_ || _); [by apply IH|].
    cbn. constructor; [|by apply IH]. rewrite list_elem_of_fmap. intros ([o' s]&->&Hin). apply list_elem_of_omap in Hin as ([o2 p2]&Hin&E).
    destruct (_ || _); [done|]. injection E as -> _. apply Hni. apply list_elem_of_fmap. by exists (o', p2).
  - intros o score. rewrite list_elem_of_omap. split.
    + intros ([o' p]&Hin&E). destruct (f64_eqb _ f64_zero || negb (allow o')) eqn:Ec; [done|]. injection E as -> <-. bool_props.
      assert (foldl (Lexical.accumulate_term l) ∅ (range query) !! o = Some p) as Hp.
      { apply elem_of_map_to_list. by rewrite <-range_perm. }
      split; [done|]. destruct (full !! o) as [r|] eqn:Ho; [|by rewrite accumulate_missing in Hp].
      destruct (accumulate_ok (range query) ∅ o r Ho) as [Hv Hs]. rewrite Hp, lookup_empty in *. cbn [default] in Hv.
      exists r. rewrite (lr_norm _ _ Hrep), Ho in *. cbn [mbind option_bind] in *. destruct (norm_of r) as [n|] eqn:En; [|done].
      exists n. split; [done|]. split; [destruct (proj1 Hs ltac:(by eexists)) as [[? ?]|?]; done|]. split; [done|]. split; [done|].
      unfold sparse_score. cbn in Hv. by rewrite <-Hv.
    + intros (Ha&r&n&Ho&Hsh&Hn&Hz&->). destruct (accumulate_ok (range query) ∅ o r Ho) as [Hv Hs].
      destruct (proj2 Hs (or_intror Hsh)) as [p Hp]. exists (o, p). split; [rewrite range_perm; by apply elem_of_map_to_list|].
      rewrite (lr_norm _ _ Hrep), Ho. cbn [mbind option_bind]. rewrite Hn. cbn. rewrite Hz, Ha. cbn. rewrite Hp, lookup_empty in Hv. cbn in Hv.
      unfold sparse_score. by rewrite <-Hv.
Qed.
End Sparse.

(** ** The index of a segment *)

Section Segments.
Context {I MI : Type} `{!VectorIndex I, !VectorIndexSpec I, !MetadataIndex MI, !MetadataSpec MI, !IndexBuilders I, !IndexBuildersSpec I}.
Context {UT : UnicodeTables} {MO : MapOrder}.
Context (config : CollectionConfig).

#[local] Existing Instance Lexical.lexical.
Local Abbreviation segment := (Segment.t I MI Lexical.t).

(** The lexical index is that of the records, whose texts are bounded. *)
Definition lexical_inv (s : segment) : Prop :=
  lex_rep (Segment.lexical s) (Segment.records s) ∧ ∀ o r, Segment.records s !! o = Some r → bounded_text r.

Lemma bounded_insert (m : gmap Z CoreRecord) o r : (∀ o r, m !! o = Some r → bounded_text r) → bounded_text r →
  ∀ o' r', <[o := r]> m !! o' = Some r' → bounded_text r'.
Proof. intros Hm Hr o' r' [[_ <-]|[_ H]]%lookup_insert_Some; [done|by eapply Hm]. Qed.

Lemma upsert_lexical s s' full r :
  seg_inv config s full → lexical_inv s → ValidateText (Text r) = Ok tt → Segment.Upsert s r = (s', None) → lexical_inv s'.
Proof.
  intros Hi [Hl Hb] Ht%valid_text_bounded. unfold Segment.Upsert. destruct (Segment.readOnly s); [done|]. destruct (String.eqb _ _); [done|]. cbv zeta.
  set (o := match Segment.ordinals s !! _ with Some o => o | None => Segment.nextID s end).
  destruct (vi_Upsert _ _ _) as [idx|e]; [|done]. destruct (Segment.putNamedLocked _ _ _) as [fields [e|]]; [done|]. intros [= <-].
  unfold lexical_inv. cbn [Segment.lexical Segment.records]. split; [|by apply bounded_insert].
  assert (∀ l o, Lexical.add l o r = Lexical.add l o (set_named r ∅ ∅)) as Ha by done. rewrite Ha.
  destruct (Segment.records s !! o) as [previous|] eqn:Ep.
  - rewrite <-(insert_delete_eq (Segment.records s) o). apply (lex_add_ok _ _ o (set_named r ∅ ∅)); [apply lookup_delete_eq|done|]. apply lex_remove_ok; [done|by eapply Hb|done].
  - by apply lex_add_ok.
Qed.

Lemma delete_lexical s s' full ns id e :
  seg_inv config s full → lexical_inv s → Segment.Delete s ns id = (s', e) → lexical_inv s'.
Proof.
  intros Hi [Hl Hb]. unfold Segment.Delete. destruct (Segment.readOnly s); [by intros [= <- <-]|]. cbv zeta.
  destruct (Segment.ordinals s !! key ns id) as [o|] eqn:Eo; [|by intros [= <- <-]].
  destruct (vi_Delete _ _) as [idx|e']; [|by intros [= <- <-]]. intros [= <- <-]. unfold lexical_inv. cbn [Segment.lexical Segment.records].
  split; [|intros o' r' [_ H]%lookup_delete_Some; by eapply Hb].
  destruct (Segment.records s !! o) as [r|] eqn:Er; [apply lex_remove_ok; [done|by eapply Hb|done]|]. by rewrite delete_id.
Qed.

(** The segments that insertions and deletions build. *)
Inductive built : segment → Prop :=
| built_new s : Segment.New config = Ok s → built s
| built_upsert s s' r : built s → prepared config r → ValidateText (Text r) = Ok tt → Segment.nextID s + 1 < two64 →
    Segment.Upsert s r = (s', None) → built s'
| built_delete s s' ns id e : built s → Segment.Delete s ns id = (s', e) → built s'.

Lemma built_inv s : built s → lexical_inv s ∧ Segment.readOnly s = false ∧ ∃ full, seg_inv config s full.
Proof.
  induction 1 as [s Hn|s s' r Hs (Hl&Hr&full&Hi) Hp Ht Hnext Hu|s s' ns id e Hs (Hl&Hr&full&Hi) Hd].
  - destruct (New_ok config s Hn) as (Hi&_&Hr). split; [|split; [done|by exists ∅]].
    unfold Segment.New in Hn. destruct (Segment.New_index config); [|done]. cbn [res_bind] in Hn. destruct (Segment.build_fields _ _); [|done]. cbn [res_bind] in Hn.
    injection Hn as <-. split; [apply lex_rep_new|]. intros o r. cbn [Segment.records]. by rewrite lookup_empty.
  - split; [by eapply upsert_lexical|]. destruct (Upsert_ok config s full r Hi Hr Hp Hnext) as (s2&full2&Hu2&Hi2&_&Hr2&_).
    rewrite Hu in Hu2. injection Hu2 as <-. split; [done|]. by exists full2.
  - split; [by eapply delete_lexical|]. pose proof (Delete_ok config s full ns id Hi Hr) as H2. destruct (view s full !! key ns id).
    + destruct H2 as (s2&full2&Hd2&Hi2&_&Hr2&_). rewrite Hd in Hd2. injection Hd2 as <- ->. split; [done|]. by exists full2.
    + rewrite Hd in H2. injection H2 as -> ->. split; [done|]. by exists full.
Qed.

(** C11. Text search is BM25 over the live records: after any history of
    insertions, replacements and deletions, searching the inverted index ranks
    exactly the allowed records that share a token with the query, each with
    the score the records themselves determine: the index never keeps a
    replaced or deleted text, and counts lengths and frequencies right. *)
Theorem text_search_exact {LE : LogExp} s query (allow : Z → bool) limit :
  built s →
  ∃ all, NoDup all.*1 ∧ Lexical.searchText (Segment.lexical s) query allow limit = Lexical.topScored all limit ∧
    ∀ o score, (o, score) ∈ all ↔ allow o = true ∧ ∃ r, Segment.records s !! o = Some r ∧
      (∃ token, token ∈ Tokenize query ∧ token ∈ tokens_of r) ∧ score = bm25_of (Segment.records s) query r.
Proof. intros Hs. apply searchText_ok. apply (built_inv s Hs). Qed.

End Segments.
