(* ===== verification/BinaryIndex.v ===== *)
(** * The binary index

    [internal/index/binary/binary.go]: one sign bit per component, a scan by
    Hamming distance that keeps [oversampling * k] codes in a heap of
    [container/heap] (the sifts of [TopK.v]), and rescoring of those through
    the caller's scorer.  The scan ranges over a Go map, whose order is the
    parameter [MapOrder]; the theorems show the answer does not depend on
    it.  [k * oversampling] is an [int] and can wrap: the scan then reads the
    root of an empty heap. *)
From Stdlib Require Import ZArith Lia Ascii String Sorting.Permutation.
From stdpp Require Import base tactics list gmap strings.
From S2P Require Import Prelude Core Distance Bitmap TopK Index Lexical.
Local Set Warnings "-clear-no-such-hyp".
Local Open Scope string_scope.
Local Open Scope Z_scope.
Local Open Scope list_scope.

Module Binary.

Record t : Type := mk {
  dimension : Z;
  words : nat;
  oversampling : Z;
  codes : gmap Z (list Z);
  score : list Z → Z → res Z;
  vectorBytes : Z;
}.

Definition New (dimension oversampling : Z) (score : option (list Z → Z → res Z)) : res t :=
  if (dimension <=? 0) || (oversampling <? 1) then invalid "invalid binary index configuration"
  else match score with
       | None => invalid "invalid binary index configuration"
       | Some score => Ok (mk dimension (Z.to_nat ((dimension + 63) / 64)) oversampling ∅ score 0)
       end.

(** [value > 0] *)
Definition positive (value : Z) : bool := f32_ltb f32_zero value.

(** [code[position/64] |= 1 << (position % 64)] when the component is
    positive. *)
Definition set_sign (code : list Z) (component : nat * Z) : list Z :=
  let '(position, value) := component in
  if positive value then alter (λ w, Z.lor w (Z.shiftl 1 (Z.of_nat (position mod 64)))) (position / 64)%nat code else code.

Definition Encode (vector : list Z) (words : nat) : list Z := foldl set_sign (replicate words 0) (imap pair vector).

Definition Upsert (b : t) (id : Z) (vector : list Z) : res t :=
  if negb (len vector =? dimension b) then Err (Sentinel ErrDimensionMismatch)
  else
    let bytes := match codes b !! id with Some _ => vectorBytes b | None => u64 (vectorBytes b + u64 (dimension b) * 4) end in
    Ok (mk (dimension b) (words b) (oversampling b) (<[id := Encode vector (words b)]> (codes b)) (score b) bytes).

Definition Delete (b : t) (id : Z) : res t :=
  match codes b !! id with
  | Some _ =>
      Ok (mk (dimension b) (words b) (oversampling b) (delete id (codes b)) (score b) (u64 (vectorBytes b - u64 (dimension b) * 4)))
  | None => Ok b
  end.

Record hammingCandidate : Set := mkHamming { h_id : Z; h_distance : Z }.

(** [Less] of the heap is "farther"; this is its converse. *)
Definition closer (a b : hammingCandidate) : bool :=
  (h_distance a <? h_distance b) || ((h_distance a =? h_distance b) && (h_id a <? h_id b)).

Definition hamming (code queryCode : list Z) : Z :=
  foldl (λ distance '(bits, other), distance + Bitmap.OnesCount64 (Z.lxor bits other)) 0 (zip code queryCode).

(** [int(x)] of a product of two [int]s. *)
Definition wrap_int (x : Z) : Z := let unsigned := u64 x in if 2 ^ 63 <=? unsigned then unsigned - 2 ^ 64 else unsigned.

(** One code of the scan. *)
Definition offer (limit : Z) (nearest : list hammingCandidate) (candidate : hammingCandidate) : res (list hammingCandidate) :=
  if len nearest <? limit then Ok (heap_push closer nearest candidate)
  else match nearest !! 0%nat with
       | None => Err (Panic "index out of range")
       | Some top => Ok (if closer candidate top then heap_fix closer (<[0%nat := candidate]> nearest) else nearest)
       end.

Fixpoint scan (limit : Z) (queryCode : list Z) (allowed : option (Z → bool)) (entries : list (Z * list Z)) (nearest : list hammingCandidate)
    : res (list hammingCandidate) :=
  match entries with
  | [] => Ok nearest
  | (id, code) :: rest =>
      if negb (allows allowed id) then scan limit queryCode allowed rest nearest
      else
        let! nearest := offer limit nearest (mkHamming id (hamming code queryCode)) in
        scan limit queryCode allowed rest nearest
  end.

Fixpoint rescore (score : Z → res Z) (nearest : list hammingCandidate) : res (list Candidate) :=
  match nearest with
  | [] => Ok []
  | candidate :: rest =>
      let! value := score (h_id candidate) in
      let! rest := rescore score rest in
      Ok (mkCandidate (h_id candidate) value :: rest)
  end.

Section Search.
Context `{!MapOrder}.

Definition SearchFiltered (b : t) (query : list Z) (k : Z) (allowed : option (Z → bool)) : res (list Candidate) :=
  if negb (len query =? dimension b) then Err (Sentinel ErrDimensionMismatch)
  else if k <=? 0 then invalid "k must be positive"
  else
    let! nearest := scan (wrap_int (k * oversampling b)) (Encode query (words b)) allowed (range (codes b)) [] in
    let! candidates := rescore (score b query) nearest in
    Ok (take (Z.to_nat k) (sort_slice better candidates)).

Definition Search (b : t) (query : list Z) (k : Z) : res (list Candidate) := SearchFiltered b query k None.
End Search.

Definition Len (b : t) : Z := Z.of_nat (size (codes b)).

Record Stats_t : Set := mkStats { st_Type : string; st_Vectors : Z; st_VectorBytes : Z; st_QuantizedBytes : Z }.

Definition Stats (b : t) : Stats_t :=
  mkStats IndexFlat (Len b) (vectorBytes b) (u64 (u64 (Len b) * u64 (Z.of_nat (words b)) * 8)).

#[export] Instance binary_index `{!MapOrder} : VectorIndex t := {|
  vi_Upsert := Upsert;
  vi_Delete := Delete;
  vi_SearchFiltered := SearchFiltered;
  vi_Len := Len;
  vi_SearchWithOptions := None;
|}.

End Binary.

(** ** The binary index: what it finds

    The Hamming distance of two codes is the number of components whose signs
    differ; a search rescores a nearest set of the allowed vectors under that
    distance, whatever the order of the map, and is exact when the set is all
    of them. *)

Import Binary.

(** *** Counting signs *)

Fixpoint total (f : nat → bool) (n : nat) : Z :=
  match n with O => 0 | S n => Z.b2z (f n) + total f n end.

Lemma total_ext f g n : (∀ i, (i < n)%nat → f i = g i) → total f n = total g n.
Proof. induction n as [|n IH]; intros H; [done|]. cbn [total]. rewrite H, IH by auto with lia. done. Qed.

Lemma total_add f m n : total f (m + n) = total f m + total (λ i, f (m + i)%nat) n.
Proof.
  induction n as [|n IH]; [rewrite Nat.add_0_r; cbn; lia|]. rewrite Nat.add_succ_r. cbn [total]. rewrite IH. lia.
Qed.

Lemma total_none f n : (∀ i, (i < n)%nat → f i = false) → total f n = 0.
Proof. induction n as [|n IH]; intros H; [done|]. cbn [total]. rewrite H, IH by auto with lia. done. Qed.

Lemma count_total n w : Bitmap.count_bits n w = total (λ i, Z.testbit w (Z.of_nat i)) n.
Proof. induction n as [|n IH]; [done|]. cbn [Bitmap.count_bits total]. by rewrite IH. Qed.

(** The sign of a component, as a code stores it. *)
Definition sign_at (v : list Z) (i : nat) : bool := match v !! i with Some x => positive x | None => false end.

(** The components whose signs differ. *)
Definition disagreements (a b : list Z) : Z :=
  len (List.filter (λ '(x, y), xorb (positive x) (positive y)) (zip a b)).

Lemma disagreements_total a b :
  length a = length b → disagreements a b = total (λ i, xorb (sign_at a i) (sign_at b i)) (length a).
Proof.
  revert b. induction a as [|x a IH] using rev_ind; intros b Hl; [done|]. destruct b as [|y b _] using rev_ind; [rewrite length_app in Hl; cbn in Hl; lia|].
  rewrite !length_app in Hl. cbn [length] in Hl. assert (length a = length b) as Hl' by lia.
  unfold disagreements. rewrite zip_with_app by done. rewrite List.filter_app, len_app. fold (disagreements a b). rewrite (IH b Hl').
  rewrite length_app, Nat.add_1_r. cbn [total length]. unfold sign_at at 3 4. rewrite !list_lookup_middle by lia.
  rewrite (total_ext (λ i, xorb (sign_at (a ++ [x]) i) (sign_at (b ++ [y]) i)) (λ i, xorb (sign_at a i) (sign_at b i))).
  - cbn [zip_with List.filter]. destruct (xorb (positive x) (positive y)); unfold len; cbn [length Z.b2z Z.of_nat Pos.of_succ_nat]; lia.
  - intros i Hi. unfold sign_at. by rewrite !lookup_app_l by lia.
Qed.

(** *** Codes *)

(** Bit [i mod 64] of word [i / 64]. *)
Definition code_bit (code : list Z) (i : nat) : bool := Z.testbit (default 0 (code !! (i / 64)%nat)) (Z.of_nat (i mod 64)).

Lemma length_set_sign code c : length (set_sign code c) = length code.
Proof. destruct c as [p v]. unfold set_sign. destruct (positive v); [apply length_alter|done]. Qed.

Lemma set_sign_bit code p v i :
  (p / 64 < length code)%nat → code_bit (set_sign code (p, v)) i = code_bit code i || (bool_decide (i = p) && positive v).
Proof.
  intros Hp. unfold set_sign. destruct (positive v); [|by rewrite andb_false_r, orb_false_r]. rewrite andb_true_r. unfold code_bit.
  destruct (decide ((i / 64) = (p / 64))%nat) as [E|Hne].
  - rewrite E, list_lookup_alter_eq. destruct (lookup_lt_is_Some_2 code _ Hp) as [w Hw]. rewrite Hw. cbn [fmap option_fmap option_map default from_option id].
    rewrite Z.lor_spec. f_equal. rewrite Z.shiftl_spec by lia.
    destruct (bool_decide_reflect (i = p)) as [->|Hi]; [by rewrite Z.sub_diag|].
    assert (i mod 64 ≠ p mod 64)%nat as Hm by (pose proof (Nat.div_mod i 64 ltac:(lia)); pose proof (Nat.div_mod p 64 ltac:(lia)); lia).
    destruct (Z.of_nat (i mod 64) - Z.of_nat (p mod 64)) as [|q|q] eqn:Eq; [lia|by destruct q|done].
  - rewrite list_lookup_alter_ne by done. rewrite bool_decide_eq_false_2 by congruence. by rewrite orb_false_r.
Qed.

Lemma signs_bits v from code i :
  (from + length v ≤ 64 * length code)%nat →
  code_bit (foldl set_sign code (imap (λ j x, ((from + j)%nat, x)) v)) i = code_bit code i || ((from <=? i)%nat && sign_at v (i - from)).
Proof.
  revert from code. induction v as [|x v IH]; intros from code Hl; cbn [imap foldl length] in *; [by rewrite andb_false_r, orb_false_r|].
  assert (imap ((λ j y, ((from + j)%nat, y)) ∘ S) v = imap (λ j y, ((S from + j)%nat, y)) v) as ->.
  { apply imap_ext. intros j y _. cbn. f_equal. lia. }
  rewrite IH by (rewrite length_set_sign; lia). rewrite Nat.add_0_r, set_sign_bit by (apply Nat.Div0.div_lt_upper_bound; lia).
  rewrite <-orb_assoc. f_equal. destruct (bool_decide_reflect (i = from)) as [->|Hne]; cbn [andb].
  - rewrite Nat.leb_refl, Nat.sub_diag, (proj2 (Nat.leb_gt (S from) from)) by lia. cbn. by rewrite orb_false_r.
  - cbn [orb]. destruct (Nat.leb_spec (S from) i).
    + rewrite (proj2 (Nat.leb_le from i)) by lia. replace (i - from)%nat with (S (i - S from)) by lia. done.
    + rewrite (proj2 (Nat.leb_gt from i)) by lia. done.
Qed.

Lemma Encode_bit v words i : (length v ≤ 64 * words)%nat → code_bit (Encode v words) i = sign_at v i.
Proof.
  intros Hl. unfold Encode. change (imap pair v) with (imap (λ j x, ((0 + j)%nat, x)) v). rewrite signs_bits by (rewrite length_replicate; lia).
  rewrite Nat.sub_0_r. cbn [andb]. assert (code_bit (replicate words 0) i = false) as ->; [|done].
  unfold code_bit. destruct (replicate words 0 !! (i / 64)%nat) as [w|] eqn:E; [|apply Z.testbit_0_l]. apply lookup_replicate in E as [-> _]. apply Z.testbit_0_l.
Qed.

Lemma length_Encode v words : length (Encode v words) = words.
Proof.
  unfold Encode. assert (∀ cs code, length (foldl set_sign code cs) = length code) as ->; [|apply length_replicate].
  induction cs as [|c cs IH]; intros code; [done|]. cbn [foldl]. by rewrite IH, length_set_sign.
Qed.

(** *** The Hamming distance *)

Lemma hamming_total code other n :
  length code = length other →
  foldl (λ distance '(bits, o), distance + Bitmap.OnesCount64 (Z.lxor bits o)) n (zip code other)
  = n + total (λ i, xorb (code_bit code i) (code_bit other i)) (64 * length code).
Proof.
  revert other n. induction code as [|w code IH]; intros [|o other] n Hl; [cbn; lia|done|done|]. cbn [zip zip_with foldl length].
  injection Hl as Hl. change (zip_with pair code other) with (zip code other). rewrite (IH other) by done.
  replace (64 * S (length code))%nat with (64 + 64 * length code)%nat by lia. rewrite total_add, Z.add_assoc. f_equal; [f_equal|].
  - unfold Bitmap.OnesCount64. rewrite count_total. apply total_ext. intros i Hi. rewrite Z.lxor_spec. unfold code_bit.
    by rewrite Nat.div_small, Nat.mod_small by done.
  - apply total_ext. intros i Hi. unfold code_bit. replace (64 + i)%nat with (i + 1 * 64)%nat by lia. by rewrite Nat.div_add, Nat.Div0.mod_add, Nat.add_1_r by lia.
Qed.

Lemma hamming_disagreements a b words :
  length a = length b → (length a ≤ 64 * words)%nat → hamming (Encode a words) (Encode b words) = disagreements a b.
Proof.
  intros Hl Hw. unfold hamming. rewrite hamming_total by (by rewrite !length_Encode). rewrite length_Encode, Z.add_0_l, disagreements_total by done.
  rewrite (total_ext _ (λ i, xorb (sign_at a i) (sign_at b i))) by (intros; rewrite !Encode_bit by lia; done).
  replace (64 * words)%nat with (length a + (64 * words - length a))%nat by lia. rewrite total_add.
  rewrite (total_none (λ i, xorb (sign_at a (length a + i)) (sign_at b (length a + i)))); [lia|].
  intros i _. unfold sign_at. by rewrite !lookup_ge_None_2 by lia.
Qed.

(** *** Searching *)

Definition hamming_key (c : hammingCandidate) : Z * Z := (- h_distance c, h_id c).

Lemma closer_by_key a b : closer a b = by_key cand_key_ltb hamming_key a b.
Proof.
  unfold closer, by_key, cand_key_ltb, hamming_key. cbn [fst snd]. f_equal.
  - destruct (Z.ltb_spec (h_distance a) (h_distance b)), (Z.ltb_spec (- h_distance b) (- h_distance a)); lia || done.
  - f_equal. destruct (Z.eqb_spec (h_distance a) (h_distance b)), (Z.eqb_spec (- h_distance a) (- h_distance b)); lia || done.
Qed.

(** What the index holds: the codes of a map from ids to vectors. *)
Record stands_for (b : t) (M : gmap Z (list Z)) : Prop := mkStands {
  sf_codes : codes b = (λ v, Encode v (words b)) <$> M;
  sf_vectors id v : M !! id = Some v → len v = dimension b;
  sf_dimension : 0 < dimension b;
  sf_words : words b = Z.to_nat ((dimension b + 63) / 64);
  sf_oversampling : 1 ≤ oversampling b;
}.

Lemma New_stands dimension oversampling score b : New dimension oversampling score = Ok b → stands_for b ∅.
Proof.
  unfold New. destruct (Z.leb_spec dimension 0), (Z.ltb_spec oversampling 1); cbn [orb]; try done. destruct score as [score|]; [|done]. intros [= <-].
  constructor; cbn; [by rewrite fmap_empty|intros id v; by rewrite lookup_empty|done|done|lia].
Qed.

Lemma Upsert_stands b M id v :
  stands_for b M → len v = dimension b → ∃ b', Upsert b id v = Ok b' ∧ stands_for b' (<[id := v]> M) ∧ score b' = score b ∧ dimension b' = dimension b.
Proof.
  intros [Hc Hv Hd Hw Ho] Hl. unfold Upsert. rewrite (proj2 (Z.eqb_eq _ _) Hl). cbn [negb]. eexists. split; [done|]. split; [|done].
  constructor; cbn; [by rewrite fmap_insert, Hc| |done|done|done]. intros i x [[_ <-]|[_ Hx]]%lookup_insert_Some; [done|by eapply Hv].
Qed.

Lemma Delete_stands b M id : stands_for b M → ∃ b', Delete b id = Ok b' ∧ stands_for b' (delete id M) ∧ score b' = score b ∧ dimension b' = dimension b.
Proof.
  intros Hs. pose proof Hs as [Hc Hv Hd Hw Ho]. unfold Delete. rewrite Hc, lookup_fmap. destruct (M !! id) as [v|] eqn:E; cbn [fmap option_fmap option_map].
  - eexists. split; [done|]. split; [|done]. constructor; cbn; [by rewrite fmap_delete| |done|done|done].
    intros i x [_ Hx]%lookup_delete_Some. by eapply Hv.
  - eexists. split; [done|]. rewrite delete_id by done. done.
Qed.

Section Searching.
Context (b : t) (M : gmap Z (list Z)) (Hb : stands_for b M).
Context (query : list Z) (Hq : len query = dimension b) (allowed : option (Z → bool)).

(** The allowed vectors by the number of signs that differ. *)
Definition ranked (entries : list (Z * list Z)) : list hammingCandidate :=
  (λ '(id, v), mkHamming id (disagreements v query)) <$> List.filter (λ entry, allows allowed entry.1) entries.

Lemma offer_heap limit nearest c : 0 < limit → offer limit nearest c = Ok (heap_offer closer (Z.to_nat limit) nearest c).
Proof.
  intros Hl. unfold offer, heap_offer. destruct (Z.ltb_spec (len nearest) limit), (Nat.ltb_spec (length nearest) (Z.to_nat limit)); unfold len in *; try lia; [done|].
  destruct nearest as [|x xs]; [cbn in *; lia|]. cbn [lookup list_lookup]. by destruct (closer c x).
Qed.

Lemma scan_heap limit entries nearest :
  0 < limit → (∀ id v, (id, v) ∈ entries → M !! id = Some v) →
  scan limit (Encode query (words b)) allowed ((λ '(id, v), (id, Encode v (words b))) <$> entries) nearest
  = Ok (foldl (heap_offer closer (Z.to_nat limit)) nearest (ranked entries)).
Proof.
  intros Hl. revert nearest. induction entries as [|[id v] entries IH]; intros nearest Hin; [done|]. cbn [fmap list_fmap scan].
  unfold ranked. cbn [List.filter fst]. destruct (allows allowed id) eqn:Ea; cbn [negb].
  2: { apply IH. intros i x Hx. apply Hin. by apply list_elem_of_further. }
  cbn [fmap list_fmap foldl]. rewrite offer_heap by done. cbn [res_bind].
  pose proof (Hin id v (list_elem_of_here _ _)) as Hv. pose proof (sf_vectors _ _ Hb id v Hv) as Hlv.
  rewrite (hamming_disagreements v query) by (rewrite ?(sf_words _ _ Hb); unfold len in *; pose proof (Z.mul_div_le (dimension b + 63) 64);
    pose proof (Z.mod_pos_bound (dimension b + 63) 64); pose proof (Z.div_mod (dimension b + 63) 64); lia).
  apply IH. intros i x Hx. apply Hin. by apply list_elem_of_further.
Qed.

Lemma rescore_all (s : Z → Z) score nearest :
  (∀ c, c ∈ nearest → score (h_id c) = Ok (s (h_id c))) →
  rescore score nearest = Ok ((λ c, mkCandidate (h_id c) (s (h_id c))) <$> nearest).
Proof.
  induction nearest as [|c nearest IH]; intros H; [done|]. cbn [rescore fmap list_fmap]. rewrite H by apply list_elem_of_here. cbn [res_bind].
  rewrite IH; [done|]. intros x Hx. apply H. by apply list_elem_of_further.
Qed.

Lemma ranked_perm l k : l ≡ₚ k → ranked l ≡ₚ ranked k.
Proof. intros H. unfold ranked. by rewrite H. Qed.

Lemma ranked_nodup : NoDup (hamming_key <$> ranked (map_to_list M)).
Proof.
  unfold ranked. rewrite <-list_fmap_compose. apply NoDup_fmap_2_strong.
  - intros [i v] [j w] [Hi _]%list_elem_of_In%filter_In [Hj _]%list_elem_of_In%filter_In. cbn. intros [= _ ->].
    apply list_elem_of_In, elem_of_map_to_list in Hi, Hj. congruence.
  - apply NoDup_ListNoDup, List.NoDup_filter, NoDup_ListNoDup, NoDup_map_to_list.
Qed.

Lemma ranked_elem c : c ∈ ranked (map_to_list M) ↔
  ∃ v, M !! h_id c = Some v ∧ allows allowed (h_id c) = true ∧ h_distance c = disagreements v query.
Proof.
  unfold ranked. rewrite list_elem_of_fmap. split.
  - intros ([id v]&->&[Hin Ha]%list_elem_of_In%filter_In). apply list_elem_of_In, elem_of_map_to_list in Hin. cbn in *. eauto.
  - intros (v&Hv&Ha&Hd). exists (h_id c, v). split; [by destruct c; cbn in *; subst|]. apply list_elem_of_In, filter_In.
    split; [by apply list_elem_of_In, elem_of_map_to_list|done].
Qed.

(** The codes nearest to the query: the [n] allowed vectors whose signs
    differ least, smaller ids first among equals. *)
Definition nearest (n : nat) : list hammingCandidate := take n (sort_slice (by_key cand_key_ltb hamming_key) (ranked (map_to_list M))).

Context `{!MapOrder} (k : Z) (Hk : 0 < k) (Hwrap : k * oversampling b < 2 ^ 63).
Context (s : Z → Z) (Hs : ∀ id v, M !! id = Some v → allows allowed id = true → score b query id = Ok (s id)).

Definition rescored (c : hammingCandidate) : Candidate := mkCandidate (h_id c) (s (h_id c)).

Lemma search_nearest :
  ∃ near, near ≡ₚ nearest (Z.to_nat (k * oversampling b)) ∧
    SearchFiltered b query k allowed = Ok (take (Z.to_nat k) (sort_slice better (rescored <$> near))).
Proof.
  unfold SearchFiltered. rewrite (proj2 (Z.eqb_eq _ _) Hq), (proj2 (Z.leb_gt _ _) Hk). cbn [negb].
  pose proof (sf_oversampling _ _ Hb) as Ho. assert (wrap_int (k * oversampling b) = k * oversampling b) as ->.
  { unfold wrap_int. rewrite u64_small by (unfold two64; nia). cbv zeta. by rewrite (proj2 (Z.leb_gt _ _)) by done. }
  pose proof (range_perm (codes b)) as Hperm. rewrite (sf_codes _ _ Hb), map_to_list_fmap in Hperm. rewrite (sf_codes _ _ Hb).
  apply Permutation_map_inv in Hperm as (entries&->&Hp).
  assert (∀ e, prod_map (λ x : Z, x) (λ v, Encode v (words b)) e = (λ '(id, v), (id, Encode v (words b))) e) as Hext by by intros [? ?].
  rewrite (map_ext _ _ Hext). change (map ?f entries) with (f <$> entries). rewrite scan_heap; [|nia|].
  2: { intros id v Hin. rewrite <-Hp in Hin. by apply elem_of_map_to_list in Hin. }
  cbn [res_bind]. set (near := foldl _ [] (ranked entries)).
  assert (near ≡ₚ nearest (Z.to_nat (k * oversampling b))) as Hnear.
  { unfold nearest. rewrite <-(top_k_unique cand_key_ltb hamming_key (Z.to_nat (k * oversampling b)) (ranked (map_to_list M)) (insertion_sort (by_key cand_key_ltb hamming_key) near)).
    - symmetry. apply (insertion_sort_ok (by_key cand_key_ltb hamming_key)).
    - apply ranked_nodup.
    - unfold near. rewrite (proj1 (scan_ext closer (by_key cand_key_ltb hamming_key) (λ _, True) (λ x y _ _, closer_by_key x y) (Z.to_nat (k * oversampling b)) (ranked entries) [] (λ _ _, I))).
      destruct (heap_select_top_k (by_key cand_key_ltb hamming_key) (Z.to_nat (k * oversampling b)) (ranked entries) ltac:(nia)) as [Ho' (Hl&rest&Hr&Hbest)].
      pose proof (ranked_perm _ _ Hp) as Hrp. split; [exact Ho'|]. split; [by rewrite Hrp|]. exists rest. by rewrite Hrp. }
  exists near. split; [done|]. rewrite (rescore_all s); [done|]. intros c Hc. rewrite Hnear in Hc. unfold nearest in Hc.
  apply elem_of_take in Hc as (i&Hc&_). apply list_elem_of_lookup_2, sort_slice_elem, ranked_elem in Hc as (v&Hv&Ha&_). by apply (Hs _ v).
Qed.

Lemma rescored_nodup near : near ≡ₚ nearest (Z.to_nat (k * oversampling b)) → NoDup (cand_key <$> (rescored <$> near)).
Proof.
  intros Hn. apply NoDup_fmap_1 with (f := snd). rewrite <-!list_fmap_compose, Hn.
  assert (NoDup (h_id <$> ranked (map_to_list M))) as Hnd.
  { unfold ranked. rewrite <-list_fmap_compose. apply NoDup_fmap_2_strong.
    - intros [i v] [j w] [Hi _]%list_elem_of_In%filter_In [Hj _]%list_elem_of_In%filter_In. cbn. intros ->.
      apply list_elem_of_In, elem_of_map_to_list in Hi, Hj. congruence.
    - apply NoDup_ListNoDup, List.NoDup_filter, NoDup_ListNoDup, NoDup_map_to_list. }
  unfold nearest. assert (∀ l : list hammingCandidate, (snd ∘ cand_key) ∘ rescored <$> l = h_id <$> l) as E by (intros l; by apply list_fmap_ext).
  rewrite E, fmap_take. eapply sublist_NoDup; [|apply sublist_take]. by rewrite sort_slice_perm.
Qed.
End Searching.

(** The candidates of an exhaustive search, from any scorer. *)
Definition exhaustive (s : Z → Z) (allowed : option (Z → bool)) (M : gmap Z (list Z)) : list Candidate :=
  (λ '(id, _), mkCandidate id (s id)) <$> List.filter (λ entry, allows allowed entry.1) (map_to_list M).

(** C19. A binary search rescores the [k * oversampling] allowed vectors whose
    signs differ from the query's in the fewest components (smaller ids first
    among equals), and answers with the best [k] of them; its answer does not
    depend on the order of the map, and when there are no more allowed vectors
    than that it is the answer of an exhaustive search. *)
Theorem binary_search_exact `{!MapOrder} b M query k allowed (s : Z → Z) :
  stands_for b M → len query = dimension b → 0 < k → k * oversampling b < 2 ^ 63 →
  (∀ id v, M !! id = Some v → allows allowed id = true → score b query id = Ok (s id) ∧ comparable (s id)) →
  SearchFiltered b query k allowed
    = Ok (take (Z.to_nat k) (sort_slice (by_key cand_key_ltb cand_key)
            (rescored s <$> nearest M query allowed (Z.to_nat (k * oversampling b))))) ∧
  (len (exhaustive s allowed M) ≤ k * oversampling b →
   SearchFiltered b query k allowed = Ok (take (Z.to_nat k) (sort_slice (by_key cand_key_ltb cand_key) (exhaustive s allowed M)))).
Proof.
  intros Hb Hq Hk Hwrap Hs. set (limit := Z.to_nat (k * oversampling b)).
  destruct (search_nearest b M Hb query Hq allowed k Hk Hwrap s (λ id v Hv Ha, proj1 (Hs id v Hv Ha))) as (near&Hn&E).
  pose proof (rescored_nodup b M query allowed k s near Hn) as Hnd. fold limit in Hn.
  assert (∀ c, c ∈ near → comparable (s (h_id c))) as Hc.
  { intros c Hin. rewrite Hn in Hin. unfold nearest in Hin. apply elem_of_take in Hin as (i&Hin&_).
    apply list_elem_of_lookup_2, sort_slice_elem, ranked_elem in Hin as (v&Hv&Ha&_). by apply (Hs _ v). }
  assert (sort_slice better (rescored s <$> near) = sort_slice (by_key cand_key_ltb cand_key) (rescored s <$> near)) as Esort.
  { apply sort_slice_ext. intros x y (cx&->&Hx)%list_elem_of_fmap (cy&->&Hy)%list_elem_of_fmap. apply better_by_key; by apply Hc. }
  rewrite E, Esort. split.
  - do 2 f_equal. apply (sort_slice_unique_key cand_key_ltb cand_key); [done|]. by rewrite Hn.
  - intros Hlen. do 2 f_equal. apply (sort_slice_unique_key cand_key_ltb cand_key); [done|]. rewrite Hn. unfold nearest.
    assert (length (ranked query allowed (map_to_list M)) = length (exhaustive s allowed M)) as El by (unfold ranked, exhaustive; by rewrite !length_fmap).
    rewrite take_ge by (rewrite length_sort_slice, El; unfold len in Hlen; lia). rewrite sort_slice_perm. unfold ranked, exhaustive.
    rewrite <-list_fmap_compose. apply Permutation_refl'. apply list_fmap_ext. by intros i [id v] _.
Qed.

(** The index holds the codes of a map: after any insertions,
    replacements and deletions it stands for the map they build. *)
Theorem binary_refines_map b M id v :
  stands_for b M → len v = dimension b →
  (∃ b', Upsert b id v = Ok b' ∧ stands_for b' (<[id := v]> M)) ∧ (∃ b', Delete b id = Ok b' ∧ stands_for b' (delete id M)) ∧
  Len b = Z.of_nat (size M) ∧ ∀ a, len a = dimension b → hamming (Encode a (words b)) (Encode v (words b)) = disagreements a v.
Proof.
  intros Hb Hl. destruct (Upsert_stands b M id v Hb Hl) as (b1&H1&H2&_), (Delete_stands b M id Hb) as (b2&H3&H4&_).
  split; [by exists b1|]. split; [by exists b2|]. split; [unfold Len; by rewrite (sf_codes _ _ Hb), map_size_fmap|].
  intros a Ha. apply hamming_disagreements; [unfold len in *; lia|]. rewrite (sf_words _ _ Hb).
  pose proof (Z.mod_pos_bound (dimension b + 63) 64). pose proof (Z.div_mod (dimension b + 63) 64). unfold len in *. lia.
Qed.

(** *** A small index *)
Module Signs.

(** Entries in the order [map_to_list] has. *)
#[local] Instance listed : MapOrder := {| range := λ K _ _ A m, map_to_list m; range_perm := λ K _ _ A m, Permutation_refl _ |}.

Definition one_x : list Z := [f32_one; f32_zero].
Definition one_y : list Z := [f32_zero; f32_one].
Definition both : list Z := [f32_one; f32_one].
Definition stored : gmap Z (list Z) := {[1 := one_x; 2 := one_y; 3 := both]}.

(** A scorer that knows the vectors. *)
Definition value (id : Z) : Z := score_of MetricDot one_x (default [] (stored !! id)).

Definition index : t := mk 2 1 1 ((λ v, Encode v 1) <$> stored) (λ _ id, Ok (value id)) 24.

Lemma index_stands : stands_for index stored.
Proof.
  constructor; cbn; try done.
  intros id v Hv. unfold stored in Hv. repeat (apply lookup_insert_Some in Hv as [[_ <-]|[_ Hv]]; [reflexivity|]).
  by apply lookup_singleton_Some in Hv as [_ <-].
Qed.

Lemma binary_search_exact_witness :
  SearchFiltered index one_x 2 None
    = Ok (take 2 (sort_slice (by_key cand_key_ltb cand_key) (rescored value <$> nearest stored one_x None 2))).
Proof.
  refine (proj1 (binary_search_exact index stored one_x 2 None value index_stands eq_refl _ _ _)); [lia|cbn; lia|].
  intros id v Hv _. split; [reflexivity|]. unfold value. rewrite Hv. unfold stored in Hv.
  repeat (apply lookup_insert_Some in Hv as [[_ <-]|[_ Hv]]; [reflexivity|]). apply lookup_singleton_Some in Hv as [_ <-]. reflexivity.
Defined.

Example index_finds : match SearchFiltered index one_x 2 None with Ok l => CandID <$> l | Err _ => [] end = [1; 3].
Proof. vm_compute. reflexivity. Qed.

Lemma binary_refines_map_witness :
  ∃ b', Upsert index 4 both = Ok b' ∧ stands_for b' (<[4 := both]> stored).
Proof. exact (proj1 (binary_refines_map index stored 4 both index_stands eq_refl)). Defined.

(** A product that wraps to a negative number leaves no room in the heap, and
    the scan reads its root. *)
Example wrapped_limit :
  SearchFiltered (mk 2 1 3 ((λ v, Encode v 1) <$> stored) (λ _ id, Ok (value id)) 24) one_x (2 ^ 62) None = Err (Panic "index out of range").
Proof. vm_compute. reflexivity. Qed.

End Signs.
