(* ===== verification/Hybrid.v ===== *)
(** * Hybrid search

    [SearchHybrid] of [internal/segment/segment.go], [shard.go] and
    [collection.go]: candidates from the vector index, the sparse index and
    the text index, fused by a weighted sum of exact scores or by reciprocal
    ranks.  The segments here keep the lexical index of [Lexical.v]. *)
From Stdlib Require Import ZArith Lia Ascii String.
From stdpp Require Import base tactics list gmap strings.
From S2P Require Import Prelude Core Float Distance TopK Index Segment Shard Collection Lexical.
Local Open Scope string_scope.
Local Open Scope Z_scope.
Local Open Scope list_scope.

Definition hybridCandidateFloor : Z := 100.
Definition hybridCandidateMultiplier : Z := 4.
Definition FusionRRF : string := "rrf".
Definition f32_two : Z := f32_of_Z 2.

Definition rrf (rank : nat) : Z := f32_div f32_one (f32_of_Z (RRFConstant + Z.of_nat rank + 1)).

(** The record a lookup in a Go map answers with when there is none. *)
Definition zero_record : CoreRecord := mkCoreRecord "" [] ∅ ∅ ∅ 0 0 "" "" ∅ ∅.

Definition normalizeDense `{!LogExp} (metric : string) (score : Z) : Z :=
  if String.eqb metric MetricCosine then f32_div (f32_add score f32_one) f32_two
  else if String.eqb metric MetricL2 then f32_div f32_one (f32_sub f32_one score)
  else f32_of_f64_bits (f64_div f64_one (f64_add f64_one (math_Exp (f64_sub f64_zero (f64_of_f32 score))))).

Definition sparseCosine `{!MapOrder} (query : gmap string Z) (queryNorm : Z) (candidate : gmap string Z) : Z :=
  if f64_eqb queryNorm f64_zero || (size candidate =? 0)%nat then f32_zero
  else
    let '(product, squared) :=
      foldl (λ '(product, squared) entry,
          (f64_add product (f64_mul (f64_of_f32 entry.2) (f64_of_f32 (default f32_zero (query !! entry.1)))),
           f64_add squared (square entry.2)))
        (f64_zero, f64_zero) (range candidate) in
    if f64_eqb squared f64_zero then f32_zero
    else f32_of_f64_bits (f64_div product (f64_mul queryNorm (f64_sqrt squared))).

(** [scores[id] += rrf(rank)] along a list of candidates. *)
Fixpoint add_ranks (rank : nat) (ids : list Z) (scores : gmap Z Z) : gmap Z Z :=
  match ids with
  | [] => scores
  | id :: rest => add_ranks (S rank) rest (<[id := f32_add (default f32_zero (scores !! id)) (rrf rank)]> scores)
  end.

Module Hybrid.
Section Operations.
Context {I MI : Type} `{VectorIndex I, MetadataIndex MI}.
Context {UT : UnicodeTables} {MO : MapOrder} {LE : LogExp}.

Local Abbreviation segment := (Segment.t I MI Lexical.t).
Local Abbreviation shard := (Shard.t I MI Lexical.t).
Local Abbreviation collection := (Collection.t I MI Lexical.t).

(** [vectorFor]: the vector of a sealed segment is read from its source. *)
Definition vectorFor (s : segment) (ordinal : Z) (record : CoreRecord) : res (list Z) :=
  match Vector record, Segment.vectorAt s with
  | [], Some read => read (ordinal - 1)
  | _, _ => Ok (Vector record)
  end.

Definition lexicalSignals (query : HybridQuery) : Z :=
  (match hq_Sparse query with Some _ => 1 | None => 0 end) + (if String.eqb (hq_Text query) "" then 0 else 1).

(** One lexical signal without a dense query is passed through. *)
Definition raw (query : HybridQuery) : bool :=
  match hq_Dense query with Some _ => false | None => lexicalSignals query =? 1 end.

Definition lexical_score (query : HybridQuery) (queryNorm : Z) (record : CoreRecord) (bm25 : Z) : Z :=
  let lexical :=
    match hq_Sparse query with
    | Some vector =>
        let cosine := sparseCosine vector queryNorm (SparseVector record) in
        if raw query then cosine else f32_add f32_zero (f32_div (f32_add cosine f32_one) f32_two)
    | None => f32_zero
    end in
  let lexical :=
    if String.eqb (hq_Text query) "" then lexical
    else if raw query then bm25
    else f32_add lexical (Lexical.normalizeBM25 bm25) in
  if raw query then lexical else f32_div lexical (f32_of_Z (lexicalSignals query)).

Definition fuse (metric : string) (query : HybridQuery) (denseScore lexical : Z) : Z :=
  f32_add (f32_mul (hq_Alpha query) (normalizeDense metric denseScore))
    (f32_mul (f32_sub f32_one (hq_Alpha query)) lexical).

(** The exact score of one candidate; a dense score the index has not given
    is computed. *)
Definition weighted_score (s : segment) (query : HybridQuery) (queryNorm : Z) (denseScores : gmap Z Z) (ordinal : Z) : res Z :=
  let record := default zero_record (Segment.records s !! ordinal) in
  let lexical := lexical_score query queryNorm record (Lexical.bm25Scorer (Segment.lexical s) (hq_Text query) ordinal) in
  match hq_Dense query with
  | None => Ok lexical
  | Some dense =>
      let! denseScore :=
        match denseScores !! ordinal with
        | Some score => Ok score
        | None =>
            let! vector := vectorFor s ordinal record in
            Score (Segment.metric s) dense vector
        end in
      Ok (fuse (Segment.metric s) query denseScore lexical)
  end.

Fixpoint weighted_scores (score : Z → res Z) (ordinals : list Z) (scores : gmap Z Z) : res (gmap Z Z) :=
  match ordinals with
  | [] => Ok scores
  | ordinal :: rest => let! value := score ordinal in weighted_scores score rest (<[ordinal := value]> scores)
  end.

Definition result_for (s : segment) (ordinal score : Z) : SearchResult :=
  let record := default zero_record (Segment.records s !! ordinal) in
  mkResult (ID record) score (Metadata record) (Payload record) (Namespace record) "".

Definition hybrid_limit (query : HybridQuery) : Z := Z.max (hq_TopK query * hybridCandidateMultiplier) hybridCandidateFloor.

Definition fused_scores (s : segment) (query : HybridQuery) (denseList : list Candidate) (sparseList textList : list (Z * Z)) : res (gmap Z Z) :=
  if String.eqb (hq_Fusion query) FusionRRF then
    Ok (add_ranks 0 textList.*1 (add_ranks 0 sparseList.*1 (add_ranks 0 (CandID <$> denseList) ∅)))
  else
    let denseScores := foldl (λ m c, <[CandID c := CandScore c]> m) ∅ denseList in
    let scores : gmap Z Z := foldl (λ m id, <[id := f32_zero]> m) ∅ ((CandID <$> denseList) ++ sparseList.*1 ++ textList.*1) in
    let queryNorm := Lexical.norm (default ∅ (hq_Sparse query)) in
    weighted_scores (weighted_score s query queryNorm denseScores) (range scores).*1 scores.

Definition SearchHybrid (s : segment) (namespace : string) (query : HybridQuery) (filter : option (Expr (MI := MI)))
    (excluded : gset string) : res (list SearchResult) :=
  let allowed := meta_Evaluate (Segment.metadata s) <$> filter in
  let allow := Segment.allow s namespace allowed excluded in
  let limit := hybrid_limit query in
  let! denseList :=
    match hq_Dense query with
    | Some dense => vi_SearchFiltered (Segment.index s) dense limit (Some allow)
    | None => Ok []
    end in
  let sparseList :=
    match hq_Sparse query with Some vector => Lexical.searchSparse (Segment.lexical s) vector allow limit | None => [] end in
  let textList :=
    if String.eqb (hq_Text query) "" then [] else Lexical.searchText (Segment.lexical s) (hq_Text query) allow limit in
  let! scores := fused_scores s query denseList sparseList textList in
  Ok (take (Z.to_nat (hq_TopK query))
        (sort_slice Shard.result_ltb ((λ '(ordinal, score), result_for s ordinal score) <$> range scores))).

Definition SearchSparseHybrid (s : segment) (namespace : string) (dense : option (list Z)) (sparse : option (gmap string Z)) (alpha k : Z)
    (filter : option (Expr (MI := MI))) (excluded : gset string) : res (list SearchResult) :=
  SearchHybrid s namespace (mkHybrid dense sparse "" alpha "" k) filter excluded.

(** ** Shards *)

Definition shard_SearchHybrid (s : shard) (namespace : string) (query : HybridQuery) (filter : option (Expr (MI := MI)))
    : res (list SearchResult) :=
  let! results := SearchHybrid (Shard.active s) namespace query filter ∅ in
  let! more :=
    match Shard.base s with
    | None => Ok []
    | Some b => SearchHybrid b namespace query filter (Segment.Keys (Shard.active s) ∪ Shard.tombstones s)
    end in
  Ok (take (Z.to_nat (hq_TopK query)) (sort_slice Shard.result_ltb (results ++ more))).

Definition shard_SearchSparseHybrid (s : shard) (namespace : string) (dense : option (list Z)) (sparse : option (gmap string Z))
    (alpha k : Z) (filter : option (Expr (MI := MI))) : res (list SearchResult) :=
  shard_SearchHybrid s namespace (mkHybrid dense sparse "" alpha "" k) filter.

(** ** Collections *)

Fixpoint hybrid_shards (ss : list shard) (namespace : string) (query : HybridQuery) (filter : option (Expr (MI := MI)))
    : res (list (list SearchResult)) :=
  match ss with
  | [] => Ok []
  | s :: rest =>
      let! results := shard_SearchHybrid s namespace query filter in
      let! others := hybrid_shards rest namespace query filter in
      Ok (results :: others)
  end.

Definition coll_SearchHybrid (c : collection) (namespace : string) (query : HybridQuery) (filter : option (Expr (MI := MI)))
    : res (list SearchResult) :=
  let! _ := HybridQuery_Validate query (Dimension (Collection.config c)) in
  let! perShard := hybrid_shards (Collection.shards c) namespace query filter in
  Ok (mergeTopK perShard (hq_TopK query)).

Definition SearchShardHybrid (c : collection) (shardID : Z) (namespace : string) (query : HybridQuery) (filter : option (Expr (MI := MI)))
    : res (list SearchResult) :=
  let! _ := HybridQuery_Validate query (Dimension (Collection.config c)) in
  match Collection.shards c !! Z.to_nat shardID with
  | None => invalid "shard ID out of range"
  | Some s => shard_SearchHybrid s namespace query filter
  end.

Definition coll_SearchSparseHybrid (c : collection) (namespace : string) (dense : option (list Z)) (sparse : option (gmap string Z))
    (alpha k : Z) (filter : option (Expr (MI := MI))) : res (list SearchResult) :=
  coll_SearchHybrid c namespace (mkHybrid dense sparse "" alpha "" k) filter.

Definition SearchShardSparseHybrid (c : collection) (shardID : Z) (namespace : string) (dense : option (list Z))
    (sparse : option (gmap string Z)) (alpha k : Z) (filter : option (Expr (MI := MI))) : res (list SearchResult) :=
  SearchShardHybrid c shardID namespace (mkHybrid dense sparse "" alpha "" k) filter.

End Operations.
End Hybrid.
