(* ===== verification/HybridProofs.v ===== *)
(** * Hybrid search: theorems

    Whatever signal a candidate came from, weighted fusion gives it the score
    its record determines; when the candidate lists are not cut short, the
    answer is the best of all the records any signal reaches. *)
From Stdlib Require Import ZArith Lia Ascii String Sorting.Permutation.
From stdpp Require Import base tactics list gmap strings.
From S2P Require Import Prelude Core Float Distance TopK Index Segment SegmentProofs Flat Shard Collection Instances Lexical LexicalProofs Hybrid.
Local Set Warnings "-clear-no-such-hyp".
Local Open Scope string_scope.
Local Open Scope Z_scope.
Local Open Scope list_scope.

(** ** Maps of scores *)

Lemma put_all_lookup {A} (f : Z → A) (ids : list Z) (m : gmap Z A) o :
  foldl (λ m id, <[id := f id]> m) m ids !! o = if decide (o ∈ ids) then Some (f o) else m !! o.
Proof.
  revert m. induction ids as [|id ids IH]; intros m; cbn [foldl]; [by rewrite decide_False by apply not_elem_of_nil|].
  rewrite IH. destruct (decide (o ∈ ids)) as [Hin|Hni]; [by rewrite decide_True by (by right)|].
  destruct (decide (o = id)) as [->|Hne]; [by rewrite lookup_insert_eq, decide_True by (by left)|].
  rewrite lookup_insert_ne by done. rewrite decide_False; [done|]. by intros [?|?]%elem_of_cons.
Qed.

Lemma weighted_scores_ok score (f : Z → Z) ids m :
  (∀ o, o ∈ ids → score o = Ok (f o)) →
  Hybrid.weighted_scores score ids m = Ok (foldl (λ m id, <[id := f id]> m) m ids).
Proof.
  revert m. induction ids as [|id ids IH]; intros m Hs; [done|]. cbn [Hybrid.weighted_scores foldl].
  rewrite Hs by by left. cbn [res_bind]. apply IH. intros o Ho. apply Hs. by right.
Qed.

Lemma dense_scores_lookup (l : list Candidate) (m : gmap Z Z) o :
  foldl (λ m c, <[CandID c := CandScore c]> m) m l !! o = m !! o ∧ o ∉ CandID <$> l ∨
  ∃ c, c ∈ l ∧ CandID c = o ∧ foldl (λ m c, <[CandID c := CandScore c]> m) m l !! o = Some (CandScore c).
Proof.
  revert m. induction l as [|c l IH]; intros m; cbn [foldl]; [left; split; [done|by apply not_elem_of_nil]|].
  destruct (IH (<[CandID c := CandScore c]> m)) as [[-> Hni]|(c'&Hin&Hc&->)]; [|right; exists c'; split_and!; [by right|done|done]].
  destruct (decide (CandID c = o)) as [<-|Hne].
  - right. exists c. split_and!; [by left|done|by rewrite lookup_insert_eq].
  - left. rewrite lookup_insert_ne by done. split; [done|]. rewrite fmap_cons. by intros [?|?]%elem_of_cons.
Qed.

Section HybridSearch.
Context {I MI : Type} `{!VectorIndex I, !VectorIndexSpec I, !ExactIndex I, !MetadataIndex MI, !MetadataSpec MI, !IndexBuilders I, !IndexBuildersSpec I}.
Context {UT : UnicodeTables} {MO : MapOrder} {LE : LogExp}.
Context (config : CollectionConfig).

#[local] Existing Instance Lexical.lexical.
Local Abbreviation segment := (Segment.t I MI Lexical.t).

(** The score a record determines, beside the records [full] of its segment. *)
Definition exact_score (query : HybridQuery) (full : gmap Z CoreRecord) (r : CoreRecord) : Z :=
  let lexical := Hybrid.lexical_score query (Lexical.norm (default ∅ (hq_Sparse query))) r (bm25_of full (hq_Text query) r) in
  match hq_Dense query with
  | None => lexical
  | Some dense => Hybrid.fuse (Metric config) query (score_of (Metric config) dense (Vector r)) lexical
  end.

(** Some signal of the query reaches the record. *)
Definition reached (query : HybridQuery) (r : CoreRecord) : Prop :=
  is_Some (hq_Dense query) ∨
  (∃ vector norm, hq_Sparse query = Some vector ∧ f64_eqb (Lexical.norm vector) f64_zero = false ∧ shares r (range vector) ∧
     norm_of r = Some norm ∧ f64_eqb norm f64_zero = false) ∨
  hq_Text query ≠ "" ∧ ∃ token, token ∈ Tokenize (hq_Text query) ∧ token ∈ tokens_of r.

Definition exact_result (query : HybridQuery) (full : gmap Z CoreRecord) (r : CoreRecord) : SearchResult :=
  mkResult (ID r) (exact_score query full r) (Metadata r) (Payload r) (Namespace r) "".

Lemma built_metric s : built config s → Segment.metric s = Metric config ∧ Segment.vectorAt s = None.
Proof.
  induction 1 as [s Hn|s s' r Hs [IH1 IH2] _ _ _ Hu|s s' ns id e Hs [IH1 IH2] Hd].
  - unfold Segment.New in Hn. destruct (Segment.New_index config); [|done]. cbn [res_bind] in Hn. destruct (Segment.build_fields _ _); [|done].
    cbn [res_bind] in Hn. by injection Hn as <-.
  - unfold Segment.Upsert in Hu. destruct (Segment.readOnly s); [done|]. destruct (String.eqb _ _); [done|]. cbv zeta in Hu.
    destruct (vi_Upsert _ _ _); [|done]. destruct (Segment.putNamedLocked _ _ _) as [? [?|]]; [done|]. by injection Hu as <-.
  - unfold Segment.Delete in Hd. destruct (Segment.readOnly s); [by injection Hd as <- _|]. cbv zeta in Hd.
    destruct (Segment.ordinals s !! _); [|by injection Hd as <- _]. destruct (vi_Delete _ _); by injection Hd as <- _.
Qed.

Context (s : segment) (full : gmap Z CoreRecord).
Context (Hi : seg_inv config s full) (Hl : lexical_inv s) (Hmetric : Segment.metric s = Metric config) (Hheap : Segment.vectorAt s = None).

Lemma records_full : Segment.records s = (λ r, set_named r ∅ ∅) <$> full.
Proof using Hi Hheap. rewrite (si_records _ _ _ Hi), Hheap. done. Qed.

Lemma records_lookup o r : Segment.records s !! o = Some r ↔ ∃ r', full !! o = Some r' ∧ r = set_named r' ∅ ∅.
Proof using Hi Hheap. rewrite records_full, lookup_fmap. destruct (full !! o); naive_solver. Qed.

(** A candidate's score, whether or not the index has given it. *)
Lemma weighted_score_ok query denseScores o r :
  Segment.records s !! o = Some r → Metric_Valid (Metric config) = true →
  (∀ dense, hq_Dense query = Some dense → len dense = Dimension config) →
  (∀ dense score, hq_Dense query = Some dense → denseScores !! o = Some score → score = score_of (Metric config) dense (Vector r)) →
  Hybrid.weighted_score s query (Lexical.norm (default ∅ (hq_Sparse query))) denseScores o = Ok (exact_score query (Segment.records s) r).
Proof using Hi Hl Hmetric Hheap.
  intros Hr Hv Hd Hs. assert (default zero_record (Segment.records s !! o) = r) as Er by (by rewrite Hr).
  unfold Hybrid.weighted_score, exact_score. cbv zeta. rewrite Er.
  rewrite (bm25Scorer_ok _ _ (proj1 Hl) (hq_Text query) o r Hr). destruct (hq_Dense query) as [dense|]; [|done].
  assert ((match denseScores !! o with
     | Some score => Ok score
     | None => let! vector := Hybrid.vectorFor s o r in Score (Segment.metric s) dense vector end) = Ok (score_of (Metric config) dense (Vector r))) as ->.
  { destruct (denseScores !! o) as [score|] eqn:E; [by rewrite (Hs dense score eq_refl eq_refl)|].
    assert (Hybrid.vectorFor s o r = Ok (Vector r)) as -> by (unfold Hybrid.vectorFor; rewrite Hheap; by destruct (Vector r)). cbn [res_bind].
    rewrite Hmetric. apply records_lookup in Hr as (r'&Hr'&->). destruct (si_prepared _ _ _ Hi o r' Hr') as (_&_&Hlen).
    destruct (Score_ok (Metric config) dense (Vector r')) as [sc Hsc]; [done|by rewrite Hlen, Hd|]. unfold score_of. cbn [Vector set_named]. by rewrite Hsc. }
  cbn [res_bind]. by rewrite Hmetric.
Qed.

Definition allowed_ids (namespace : string) (filter : option (Expr (MI := MI))) (excluded : gset string) : gset Z :=
  dom (base.filter (λ kv : Z * CoreRecord,
    Segment.allow s namespace (meta_Evaluate (Segment.metadata s) <$> filter) excluded kv.1 = true) (Segment.records s)).

Context (namespace : string) (query : HybridQuery) (filter : option (Expr (MI := MI))) (excluded : gset string).

Local Abbreviation allow := (Segment.allow s namespace (meta_Evaluate (Segment.metadata s) <$> filter) excluded).
Local Abbreviation allowed := (allowed_ids namespace filter excluded).

Lemma allowed_elem o : o ∈ allowed ↔ allow o = true ∧ is_Some (Segment.records s !! o).
Proof.
  unfold allowed_ids. rewrite elem_of_dom. split.
  - intros [r [Hr Ha]%map_lookup_filter_Some]. split; [done|by exists r].
  - intros [Ha [r Hr]]. exists r. by apply map_lookup_filter_Some.
Qed.

Lemma few_ids (l : list Z) : NoDup l → (∀ o, o ∈ l → o ∈ allowed) → len l ≤ Z.of_nat (size allowed).
Proof.
  intros Hnd Hsub. unfold len. apply Nat2Z.inj_le. rewrite <-(size_list_to_set (C := gset Z) l) by done.
  apply subseteq_size. intros o Ho%elem_of_list_to_set. by apply Hsub.
Qed.

Lemma topScored_elem (all : list (Z * Z)) limit o :
  o ∈ (Lexical.topScored all limit).*1 → o ∈ all.*1.
Proof.
  unfold Lexical.topScored. assert (∀ l : list (Z * Z), l ⊆ sort_slice Lexical.scored_ltb all → l.*1 ⊆ all.*1) as Hsub.
  { intros l Hsub x (y&->&Hy)%list_elem_of_fmap. apply list_elem_of_fmap. exists y. split; [done|]. apply Hsub in Hy. by rewrite sort_slice_elem in Hy. }
  destruct (_ && _); intros Hin; (eapply Hsub; [|exact Hin]); [|done].
  intros x Hx. apply elem_of_take in Hx as (i&Hx&_). by apply list_elem_of_lookup_2 in Hx.
Qed.

Lemma topScored_all (all : list (Z * Z)) limit o : len all ≤ limit → o ∈ all.*1 → o ∈ (Lexical.topScored all limit).*1.
Proof.
  intros Hlen Hin. unfold Lexical.topScored. assert (len (sort_slice Lexical.scored_ltb all) ≤ limit) as Hs by (unfold len; rewrite length_sort_slice; exact Hlen).
  rewrite (proj2 (Z.ltb_ge limit (len (sort_slice Lexical.scored_ltb all))) Hs). rewrite andb_false_r. by rewrite sort_slice_perm.
Qed.

(** The candidates of the vector index. *)
Lemma dense_candidates dense :
  hq_Dense query = Some dense → len dense = Dimension config → 0 < Hybrid.hybrid_limit query →
  (∀ o r, Segment.records s !! o = Some r → comparable (score_of (Metric config) dense (Vector r))) →
  ∃ cs, vi_SearchFiltered (Segment.index s) dense (Hybrid.hybrid_limit query) (Some allow) = Ok cs ∧
    (∀ c, c ∈ cs → CandID c ∈ allowed ∧ ∃ r, Segment.records s !! CandID c = Some r ∧ CandScore c = score_of (Metric config) dense (Vector r)) ∧
    (Z.of_nat (size allowed) ≤ Hybrid.hybrid_limit query → ∀ o, o ∈ allowed → o ∈ CandID <$> cs).
Proof using Hi Hheap ExactIndex0.
  intros Hq Hlen Hlim Hcomp. pose proof (si_metric config s full Hi) as Hmet.
  set (candidates := scored (score_of (Metric config) dense) (allows (Some allow)) (vi_contents (Segment.index s))).
  assert (∀ c, c ∈ candidates → CandID c ∈ allowed ∧ ∃ r, Segment.records s !! CandID c = Some r ∧ CandScore c = score_of (Metric config) dense (Vector r)) as Hc.
  { intros c (v&Hv&Ha&Hs)%scored_elem. rewrite (si_contents config s full Hi), lookup_fmap in Hv.
    destruct (full !! CandID c) as [r|] eqn:Er; [|done]. injection Hv as <-.
    assert (Segment.records s !! CandID c = Some (set_named r ∅ ∅)) as Hr by (apply records_lookup; by exists r).
    split; [apply allowed_elem; by split|]. exists (set_named r ∅ ∅). done. }
  assert (NoDup (CandID <$> candidates)) as Hnd.
  { unfold candidates, scored. rewrite <-list_fmap_compose. apply NoDup_fmap_2_strong; [|apply NoDup_filter, NoDup_map_to_list].
    intros [i v] [j w] [_ H1]%list_elem_of_filter [_ H2]%list_elem_of_filter. cbn. intros ->. apply elem_of_map_to_list in H1, H2. congruence. }
  eexists. split; [|split].
  - rewrite (vi_search_exact (Segment.index s) dense (Hybrid.hybrid_limit query) (Some allow)); [done|apply Hi|by rewrite (si_dimension config s full Hi)|done|].
    intros c Hin. rewrite Hmet in Hin. destruct (Hc c Hin) as (_&r&Hr&->). by apply (Hcomp (CandID c)).
  - intros c Hin. apply Hc. apply elem_of_take in Hin as (i&Hin&_). apply list_elem_of_lookup_2 in Hin. rewrite sort_slice_elem in Hin.
    by rewrite Hmet in Hin.
  - intros Hsmall o Ho. rewrite Hmet. fold candidates. rewrite take_ge.
    + rewrite sort_slice_perm. apply allowed_elem in Ho as [Ha [r Hr]]. pose proof Hr as (r'&Hr'&->)%records_lookup.
      apply list_elem_of_fmap. exists (mkCandidate o (score_of (Metric config) dense (Vector r'))). split; [done|].
      apply scored_elem. exists (Vector r'). cbn. rewrite (si_contents config s full Hi), lookup_fmap, Hr'. done.
    + rewrite length_sort_slice. pose proof (few_ids (CandID <$> candidates) Hnd) as Hf.
      assert (len (CandID <$> candidates) = Z.of_nat (length candidates)) as El by (unfold len; by rewrite length_fmap).
      rewrite El in Hf. apply Nat2Z.inj_le. rewrite Z2Nat.id by lia. etrans; [apply Hf|done].
      intros x (c&->&Hin)%list_elem_of_fmap. by apply Hc.
Qed.

Definition sparse_list : list (Z * Z) :=
  match hq_Sparse query with
  | Some vector => Lexical.searchSparse (Segment.lexical s) vector allow (Hybrid.hybrid_limit query)
  | None => []
  end.

Definition text_list : list (Z * Z) :=
  if String.eqb (hq_Text query) "" then []
  else Lexical.searchText (Segment.lexical s) (hq_Text query) allow (Hybrid.hybrid_limit query).

(** A list of one signal: what it reaches, all of it when nothing is cut. *)
Definition signal (P : CoreRecord → Prop) (ids : list Z) : Prop :=
  (∀ o, o ∈ ids → o ∈ allowed ∧ ∃ r, Segment.records s !! o = Some r ∧ P r) ∧
  (Z.of_nat (size allowed) ≤ Hybrid.hybrid_limit query → ∀ o r, o ∈ allowed → Segment.records s !! o = Some r → P r → o ∈ ids).

Lemma signal_top P (all : list (Z * Z)) :
  NoDup all.*1 → (∀ o, o ∈ all.*1 ↔ allow o = true ∧ ∃ r, Segment.records s !! o = Some r ∧ P r) →
  signal P (Lexical.topScored all (Hybrid.hybrid_limit query)).*1.
Proof.
  intros Hnd Hall. assert (∀ o, o ∈ all.*1 → o ∈ allowed ∧ ∃ r, Segment.records s !! o = Some r ∧ P r) as Hsub.
  { intros o (Ha&r&Hr&Hp)%Hall. split; [apply allowed_elem; split; [done|by exists r]|by exists r]. }
  split.
  - intros o Ho%topScored_elem. by apply Hsub.
  - intros Hsmall o r Ho Hr Hp. apply topScored_all.
    + assert (len all = len all.*1) as -> by (unfold len; by rewrite length_fmap). etrans; [|exact Hsmall].
      apply few_ids; [done|]. intros o' Ho'. by apply Hsub.
    + apply Hall. apply allowed_elem in Ho as [Ha _]. split; [done|by exists r].
Qed.

Definition by_sparse (r : CoreRecord) : Prop :=
  ∃ vector norm, hq_Sparse query = Some vector ∧ f64_eqb (Lexical.norm vector) f64_zero = false ∧ shares r (range vector) ∧
    norm_of r = Some norm ∧ f64_eqb norm f64_zero = false.

Definition by_text (r : CoreRecord) : Prop :=
  hq_Text query ≠ "" ∧ ∃ token, token ∈ Tokenize (hq_Text query) ∧ token ∈ tokens_of r.

Lemma signal_none P : (∀ r, ¬ P r) → signal P [].
Proof. intros Hp. split; [by intros o ?%not_elem_of_nil|]. intros _ o r _ _ H. by apply Hp in H. Qed.

Lemma sparse_signal : signal by_sparse sparse_list.*1.
Proof using Hl.
  unfold sparse_list, by_sparse. destruct (hq_Sparse query) as [vector|]; [|apply signal_none; by intros r (v&n&?&_)].
  destruct (f64_eqb (Lexical.norm vector) f64_zero) eqn:En.
  - unfold Lexical.searchSparse. rewrite En. apply signal_none. intros r (v&n&[= <-]&Hn&_). congruence.
  - destruct (searchSparse_ok _ _ (proj1 Hl) vector allow (Hybrid.hybrid_limit query) En) as (all&Hnd&->&Hall). apply signal_top; [done|].
    intros o. rewrite list_elem_of_fmap. split.
    + intros ([o' sc]&->&(Ha&r&n&Hr&Hs&Hn&Hz&_)%Hall). split; [done|]. exists r. split; [done|]. by exists vector, n.
    + intros (Ha&r&Hr&v&n&[= <-]&_&Hs&Hn&Hz). eexists (o, _). split; [done|]. apply Hall. split; [done|]. by exists r, n.
Qed.

Lemma text_signal : signal by_text text_list.*1.
Proof using Hl.
  unfold text_list, by_text. destruct (String.eqb_spec (hq_Text query) "") as [E|E]; [apply signal_none; by intros r [? _]|].
  destruct (searchText_ok _ _ (proj1 Hl) (hq_Text query) allow (Hybrid.hybrid_limit query)) as (all&Hnd&->&Hall). apply signal_top; [done|].
  intros o. rewrite list_elem_of_fmap. split.
  - intros ([o' sc]&->&(Ha&r&Hr&Htok&_)%Hall). split; [done|]. by exists r.
  - intros (Ha&r&Hr&_&Htok). eexists (o, _). split; [done|]. apply Hall. split; [done|]. by exists r.
Qed.

(** Weighted fusion over the lists of the three signals. *)
Lemma fused_ok (denseList : list Candidate) :
  String.eqb (hq_Fusion query) FusionRRF = false → Metric_Valid (Metric config) = true →
  (∀ dense, hq_Dense query = Some dense → len dense = Dimension config) →
  (∀ c, c ∈ denseList → CandID c ∈ allowed ∧ ∀ dense, hq_Dense query = Some dense →
     ∃ r, Segment.records s !! CandID c = Some r ∧ CandScore c = score_of (Metric config) dense (Vector r)) →
  let ids := (CandID <$> denseList) ++ sparse_list.*1 ++ text_list.*1 in
  ∃ scores, Hybrid.fused_scores s query denseList sparse_list text_list = Ok scores ∧
    ∀ o, scores !! o = if decide (o ∈ ids) then exact_score query (Segment.records s) <$> Segment.records s !! o else None.
Proof using Hi Hl Hmetric Hheap.
  intros Hf Hv Hd Hdense ids. unfold Hybrid.fused_scores. rewrite Hf. cbv zeta. fold ids.
  set (scores := foldl (λ m id, <[id := f32_zero]> m) (∅ : gmap Z Z) ids).
  assert (∀ o, scores !! o = if decide (o ∈ ids) then Some f32_zero else None) as Hsc.
  { intros o. unfold scores. rewrite (put_all_lookup (λ _, f32_zero)). by rewrite lookup_empty. }
  assert (∀ o, o ∈ ids → o ∈ allowed) as Hids.
  { intros o [(c&->&Hc)%list_elem_of_fmap|[Ho|Ho]%elem_of_app]%elem_of_app; [by apply Hdense|by apply sparse_signal|by apply text_signal]. }
  set (f := λ o, default f32_zero (exact_score query (Segment.records s) <$> Segment.records s !! o)).
  rewrite (weighted_scores_ok _ f).
  - eexists. split; [done|]. intros o. rewrite (put_all_lookup f), Hsc. destruct (decide (o ∈ ids)) as [Hin|Hni].
    + rewrite decide_True by (apply range_keys; rewrite Hsc, decide_True; [by eexists|done]). unfold f.
      apply Hids, allowed_elem in Hin as [_ [r ->]]. done.
    + rewrite decide_False; [done|]. intros [x Hx]%range_keys. by rewrite Hsc, decide_False in Hx.
  - intros o [x Hx]%range_keys. rewrite Hsc in Hx. destruct (decide (o ∈ ids)) as [Hin|]; [|done].
    apply Hids, allowed_elem in Hin as [_ [r Hr]]. unfold f. rewrite Hr. cbn [fmap option_fmap option_map default].
    apply weighted_score_ok; try done. intros dense score Hq Hlook.
    destruct (dense_scores_lookup denseList ∅ o) as [[E _]|(c&Hc&Ho&E)]; rewrite E in Hlook; [by rewrite lookup_empty in Hlook|].
    injection Hlook as <-. destruct (Hdense c Hc) as [_ Hr']. destruct (Hr' dense Hq) as (r'&Hr2&->). rewrite Ho in Hr2. congruence.
Qed.

Lemma hybrid_ok :
  String.eqb (hq_Fusion query) FusionRRF = false → Metric_Valid (Metric config) = true → 0 < hq_TopK query →
  (∀ dense, hq_Dense query = Some dense → len dense = Dimension config ∧
     ∀ o r, Segment.records s !! o = Some r → comparable (score_of (Metric config) dense (Vector r))) →
  ∃ found : gmap Z CoreRecord,
    (∀ o r, found !! o = Some r → Segment.records s !! o = Some r ∧ allow o = true ∧ reached query r) ∧
    (Z.of_nat (size allowed) ≤ Hybrid.hybrid_limit query → ∀ o r, Segment.records s !! o = Some r → allow o = true → reached query r → found !! o = Some r) ∧
    ∃ all, all ≡ₚ exact_result query (Segment.records s) <$> (map_to_list found).*2 ∧
      Hybrid.SearchHybrid s namespace query filter excluded = Ok (take (Z.to_nat (hq_TopK query)) (sort_slice Shard.result_ltb all)).
Proof using Hi Hl Hmetric Hheap ExactIndex0.
  intros Hf Hv Hk Hd. assert (0 < Hybrid.hybrid_limit query) as Hlim by (unfold Hybrid.hybrid_limit, hybridCandidateFloor; lia).
  assert (∃ cs, match hq_Dense query with
      | Some dense => vi_SearchFiltered (Segment.index s) dense (Hybrid.hybrid_limit query) (Some allow) | None => Ok [] end = Ok cs ∧
    (∀ c, c ∈ cs → CandID c ∈ allowed ∧ ∀ dense, hq_Dense query = Some dense →
       ∃ r, Segment.records s !! CandID c = Some r ∧ CandScore c = score_of (Metric config) dense (Vector r)) ∧
    signal (λ _, is_Some (hq_Dense query)) (CandID <$> cs)) as (cs&Hcs&Hc&Hdense).
  { destruct (hq_Dense query) as [dense|] eqn:Eq.
    - destruct (Hd dense eq_refl) as [Hlen Hcomp]. destruct (dense_candidates dense Eq Hlen Hlim Hcomp) as (cs&Hcs&Hc&Hall).
      exists cs. split; [done|]. split; [intros c Hin; split; [by apply Hc|]; intros ? [= <-]; by apply Hc|].
      split; [|intros Hsmall o r Ho _ _; by apply Hall]. intros o (c&->&Hin)%list_elem_of_fmap. destruct (Hc c Hin) as (Ho&r&Hr&_).
      split; [done|]. by exists r.
    - exists []. split; [done|]. split; [by intros c ?%not_elem_of_nil|]. apply signal_none. by intros _ []. }
  destruct (fused_ok cs Hf Hv (λ dense Hq, proj1 (Hd dense Hq)) Hc) as (scores&Hsc&Hlook).
  set (ids := (CandID <$> cs) ++ sparse_list.*1 ++ text_list.*1) in *.
  exists (base.filter (λ kv : Z * CoreRecord, kv.1 ∈ ids) (Segment.records s)). split; [|split].
  - intros o r [Hr Hin]%map_lookup_filter_Some. cbn in Hin. split; [done|].
    apply elem_of_app in Hin as [Hin|[Hin|Hin]%elem_of_app].
    + destruct (proj1 Hdense o Hin) as [Ho%allowed_elem (r'&_&Hs)]. split; [apply Ho|by left].
    + destruct (proj1 sparse_signal o Hin) as [Ho%allowed_elem (r'&Hr'&Hs)]. assert (r' = r) as -> by congruence. split; [apply Ho|by right; left].
    + destruct (proj1 text_signal o Hin) as [Ho%allowed_elem (r'&Hr'&Hs)]. assert (r' = r) as -> by congruence. split; [apply Ho|by right; right].
  - intros Hsmall o r Hr Ha Hreach. apply map_lookup_filter_Some. split; [done|]. cbn.
    assert (o ∈ allowed) as Ho by (apply allowed_elem; split; [done|by exists r]).
    apply elem_of_app. destruct Hreach as [Hq|[Hs|Ht]]; [left; by eapply (proj2 Hdense)|right; apply elem_of_app; left; by eapply (proj2 sparse_signal)|
      right; apply elem_of_app; right; by eapply (proj2 text_signal)].
  - eexists. split; [|unfold Hybrid.SearchHybrid; cbv zeta; rewrite Hcs; cbn [res_bind]; fold sparse_list text_list; rewrite Hsc; reflexivity].
    assert (scores = exact_score query (Segment.records s) <$> base.filter (λ kv : Z * CoreRecord, kv.1 ∈ ids) (Segment.records s)) as ->.
    { apply map_eq. intros o. rewrite Hlook, lookup_fmap, map_lookup_filter. destruct (Segment.records s !! o) as [r|]; cbn.
      - destruct (decide (o ∈ ids)); [by rewrite option_guard_True|by rewrite option_guard_False].
      - by destruct (decide _). }
    rewrite range_perm, map_to_list_fmap, <-!list_fmap_compose. apply reflexive_eq, list_fmap_ext.
    intros i [o r] Hin. apply list_elem_of_lookup_2, elem_of_map_to_list, map_lookup_filter_Some in Hin as [Hr _]. cbn.
    unfold Hybrid.result_for, exact_result. by rewrite Hr.
Qed.

End HybridSearch.

(** ** The theorem *)

(** C12. Weighted fusion is exact: whichever signal (vector, sparse or text)
    brought a record up, its score is the weighted sum its own fields
    determine; every answer is an allowed record some signal reaches; and as
    long as the allowed records fit the candidate lists, the answer is the
    best [TopK] of all of them. *)
Theorem hybrid_fusion_exact {I MI : Type} `{!VectorIndex I, !VectorIndexSpec I, !ExactIndex I, !MetadataIndex MI, !MetadataSpec MI,
    !IndexBuilders I, !IndexBuildersSpec I} {UT : UnicodeTables} {MO : MapOrder} {LE : LogExp}
    config (s : Segment.t I MI Lexical.t) namespace query (filter : option (Expr (MI := MI))) excluded :
  built config s → hq_Fusion query ≠ FusionRRF → Metric_Valid (Metric config) = true → 0 < hq_TopK query →
  (∀ dense, hq_Dense query = Some dense → len dense = Dimension config ∧
     ∀ o r, Segment.records s !! o = Some r → comparable (score_of (Metric config) dense (Vector r))) →
  let allow := Segment.allow s namespace (meta_Evaluate (Segment.metadata s) <$> filter) excluded in
  ∃ found : gmap Z CoreRecord,
    (∀ o r, found !! o = Some r → Segment.records s !! o = Some r ∧ allow o = true ∧ reached query r) ∧
    (Z.of_nat (size (allowed_ids s namespace filter excluded)) ≤ Hybrid.hybrid_limit query →
       ∀ o r, Segment.records s !! o = Some r → allow o = true → reached query r → found !! o = Some r) ∧
    ∃ all, all ≡ₚ exact_result config query (Segment.records s) <$> (map_to_list found).*2 ∧
      Hybrid.SearchHybrid s namespace query filter excluded = Ok (take (Z.to_nat (hq_TopK query)) (sort_slice Shard.result_ltb all)).
Proof.
  intros Hs Hf Hv Hk Hd. destruct (built_inv config s Hs) as (Hl&_&full&Hi). destruct (built_metric config s Hs) as [Hm Hheap].
  eapply hybrid_ok; try done. by apply String.eqb_neq.
Qed.

(** ** Witnesses *)

Module Documents.

#[local] Instance ascii : UnicodeTables := ascii_tables.
#[local] Instance listing : MapOrder := {| range := λ _ _ _ _ m, map_to_list m; range_perm := λ _ _ _ _ m, reflexivity _ |}.
#[local] Instance identity : LogExp := {| math_Log := id; math_Exp := id |}.
#[local] Existing Instance Lexical.lexical.

Local Abbreviation segment := (Segment.t Flat.t Reference.filter_index Lexical.t).

Definition cfg : CollectionConfig := Normalized (Reference.sample_config 1).

Definition document (id text : string) (vector : list Z) (sparse : gmap string Z) : CoreRecord :=
  mkCoreRecord id vector sparse ∅ ∅ 1 1 "n" text ∅ ∅.

Definition first : CoreRecord := document "a" "A vector database" [f32_one; f32_zero] {["x" := f32_one]}.
Definition second : CoreRecord := document "b" "The graph of a database" [f32_zero; f32_one] ∅.

Definition docs : res segment :=
  let! s := Segment.New cfg in
  match Segment.Upsert s first with
  | (s, None) => match Segment.Upsert s second with (s, None) => Ok s | (_, Some e) => Err e end
  | (_, Some e) => Err e
  end.

Lemma docs_built : ∃ s, docs = Ok s ∧ built cfg s.
Proof.
  assert (match docs with Ok s => true | Err _ => false end = true) as H by (vm_compute; reflexivity).
  destruct docs as [s|e] eqn:E; [|done]. exists s. split; [done|]. unfold docs in E.
  destruct (Segment.New cfg) as [s0|] eqn:E0; [|done]. cbn [res_bind] in E.
  assert (Segment.nextID s0 = 1) as Hn by (unfold Segment.New in E0; destruct (Segment.New_index cfg); [|done]; cbn [res_bind] in E0;
    destruct (Segment.build_fields _ _); [|done]; cbn [res_bind] in E0; by injection E0 as <-).
  pose proof (built_new cfg s0 E0) as B0. destruct (built_inv cfg s0 B0) as (_&Hr0&full0&Hi0).
  assert (prepared cfg first ∧ prepared cfg second) as [P1 P2] by (split; split_and!; vm_compute; done).
  destruct (Upsert_ok cfg s0 full0 first Hi0 Hr0 P1) as (s1&full1&Hu1&Hi1&_&Hr1&Hn1&_); [rewrite Hn; done|].
  rewrite Hu1 in E. destruct (Upsert_ok cfg s1 full1 second Hi1 Hr1 P2) as (s2&full2&Hu2&_); [unfold two64; lia|].
  rewrite Hu2 in E. injection E as <-.
  eapply (built_upsert cfg s1 s2 second); [|done|vm_compute; reflexivity|unfold two64; lia|done].
  eapply (built_upsert cfg s0 s1 first); [done|done|vm_compute; reflexivity|rewrite Hn; done|done].
Qed.

Lemma text_search_exact_witness :
  ∃ s all, docs = Ok s ∧ Lexical.searchText (Segment.lexical s) "database" (λ _, true) 10 = Lexical.topScored all 10 ∧
    ∀ o, o ∈ all.*1 → is_Some (Segment.records s !! o).
Proof.
  destruct docs_built as (s&Hs&Hb). destruct (text_search_exact cfg s "database" (λ _, true) 10 Hb) as (all&_&Hsearch&Hall).
  exists s, all. split; [done|]. split; [done|]. intros o ([o' score]&->&(_&r&Hr&_)%Hall)%list_elem_of_fmap. by exists r.
Defined.

(** A text and a vector, half each. *)
Definition query : HybridQuery := mkHybrid (Some [f32_one; f32_zero]) None "graph" (f32_div f32_one f32_two) "" 2.

Lemma hybrid_fusion_exact_witness :
  ∃ s R, docs = Ok s ∧ Hybrid.SearchHybrid s "n" query None ∅ = Ok R ∧ (length R ≤ 2)%nat.
Proof.
  destruct docs_built as (s&Hs&Hb). destruct (hybrid_fusion_exact cfg s "n" query None ∅ Hb) as (found&_&_&all&_&Hsearch); [discriminate|vm_compute; reflexivity|reflexivity| |].
  - intros dense [= <-]. split; [reflexivity|]. intros o r Hr.
    assert (match docs with Ok s => forallb (λ r, negb (f32_is_nan (score_of (Metric cfg) [f32_one; f32_zero] (Vector r)))) (map_to_list (Segment.records s)).*2
      | Err _ => false end = true) as H by (vm_compute; reflexivity).
    rewrite Hs, forallb_forall in H. unfold comparable. apply negb_true_iff, H, list_elem_of_In, list_elem_of_fmap.
    exists (o, r). split; [done|]. by apply elem_of_map_to_list.
  - exists s, (take 2 (sort_slice Shard.result_ltb all)). split; [exact Hs|]. split; [exact Hsearch|]. rewrite length_take. lia.
Defined.

End Documents.
