(* ===== verification/NamedSearch.v ===== *)
(** * Search in named vector fields

    [SearchNamed] of [internal/segment/named.go], [shard/named.go] and
    [collection/named.go], and the reranking of [engine/named.go]: one field
    is searched, through its index or by an exact scan, and a multi-vector
    query rescores the candidates by MaxSim. *)
From Stdlib Require Import ZArith Lia Ascii String Sorting.Permutation.
From stdpp Require Import base tactics list gmap strings.
From S2P Require Import Prelude Core Distance Float TopK Index Flat Segment SegmentProofs Instances Shard Collection Lexical.
Local Set Warnings "-clear-no-such-hyp".
Local Open Scope string_scope.
Local Open Scope Z_scope.
Local Open Scope list_scope.

Definition f32_neg_inf : Z := 0xff800000.
Definition f32_nan : Z := 0x7fc00000.

(** Go's [max] on [float32]: NaN wins, and +0 over -0. *)
Definition f32_max (a b : Z) : Z :=
  if f32_is_nan a || f32_is_nan b then f32_nan
  else if f32_ltb a b then b
  else if f32_ltb b a then a
  else Z.land a b.

Fixpoint best_match (metric : string) (q : list Z) (document : list (list Z)) (best : Z) : res Z :=
  match document with
  | [] => Ok best
  | d :: rest => let! value := Score metric q d in best_match metric q rest (f32_max best value)
  end.

(** [core.MaxSim] with [distance.Score] *)
Fixpoint max_sim (metric : string) (query document : list (list Z)) (total : Z) : res Z :=
  match query with
  | [] => Ok total
  | q :: rest =>
      let! best := best_match metric q document f32_neg_inf in
      max_sim metric rest document (if 0 <? len document then f32_add total best else total)
  end.

Definition MaxSim (metric : string) (query document : list (list Z)) : res Z := max_sim metric query document f32_zero.

(** The scan of a field without an index. *)
Fixpoint score_stored (metric datatype : string) (vector : list Z) (allow : Z → bool) (entries : list (Z * Segment.storedVector))
    : res (list Candidate) :=
  match entries with
  | [] => Ok []
  | (ordinal, stored) :: rest =>
      if negb (allow ordinal) then score_stored metric datatype vector allow rest
      else
        let! score := Score metric vector (Segment.decode stored datatype) in
        let! others := score_stored metric datatype vector allow rest in
        Ok (mkCandidate ordinal score :: others)
  end.

Module Named.
Section Operations.
Context {I MI L : Type} `{VectorIndex I, MetadataIndex MI} {MO : MapOrder}.

Local Abbreviation segment := (Segment.t I MI L).
Local Abbreviation shard := (Shard.t I MI L).
Local Abbreviation collection := (Collection.t I MI L).

Definition candidates (f : Segment.namedField I) (vector : list Z) (k efSearch : Z) (allow : Z → bool) : res (list Candidate) :=
  match Segment.nf_index f with
  | Some idx =>
      match vi_SearchWithOptions with
      | Some search => search idx vector k (mkSearchOptions efSearch allow (-1))
      | None => vi_SearchFiltered idx vector k (Some allow)
      end
  | None =>
      let config := Segment.nf_config f in
      let source := if vf_MultiVector config then Segment.pooled f else Segment.dense f in
      let! scored := score_stored (vf_Metric config) (vf_Datatype config) vector allow (range source) in
      Ok (take (Z.to_nat k) (sort_slice better scored))
  end.

(** [false] tells that the record has no token vectors. *)
Definition maxSim (f : Segment.namedField I) (ordinal : Z) (query : list (list Z)) : res (Z * bool) :=
  match Segment.multiVector f ordinal with
  | None => Ok (f32_zero, false)
  | Some document =>
      let! score := MaxSim (vf_Metric (Segment.nf_config f)) query document in
      Ok (score, true)
  end.

Fixpoint rescore (f : Segment.namedField I) (query : list (list Z)) (candidates : list Candidate) : res (list Candidate) :=
  match candidates with
  | [] => Ok []
  | c :: rest =>
      let! '(score, _) := maxSim f (CandID c) query in
      let! others := rescore f query rest in
      Ok (mkCandidate (CandID c) score :: others)
  end.

Definition MultiVector (s : segment) (namespace id fieldName : string) : option (list (list Z)) :=
  match Segment.ordinals s !! Segment.key namespace id, Segment.named s !! fieldName with
  | Some ordinal, Some field => Segment.multiVector field ordinal
  | _, _ => None
  end.

Definition result_for (s : segment) (c : Candidate) : SearchResult :=
  match Segment.records s !! CandID c with
  | Some record => mkResult (ID record) (CandScore c) (Metadata record) (Payload record) (Namespace record) ""
  | None => mkResult "" (CandScore c) ∅ ∅ "" ""
  end.

Definition SearchNamed (s : segment) (namespace : string) (query : NamedQuery) (filter : option (Expr (MI := MI)))
    (excluded : gset string) : res (list SearchResult) :=
  match Segment.named s !! nq_Field query with
  | None => invalid "unknown vector field"
  | Some field =>
      let allow := Segment.allow s namespace (meta_Evaluate (Segment.metadata s) <$> filter) excluded in
      let '(probe, limit) :=
        match nq_MultiVector query with
        | Some tokens => (MeanPool tokens, NamedQuery_CandidateCount query)
        | None => (default [] (nq_Vector query), nq_TopK query)
        end in
      let! found := candidates field probe limit (nq_EFSearch query) allow in
      let! found := match nq_MultiVector query with Some tokens => rescore field tokens found | None => Ok found end in
      Ok (take (Z.to_nat (nq_TopK query)) (sort_slice Shard.result_ltb (result_for s <$> found)))
  end.

(** ** Shards and collections *)

Definition shard_SearchNamed (s : shard) (namespace : string) (query : NamedQuery) (filter : option (Expr (MI := MI)))
    : res (list SearchResult) :=
  let! results := SearchNamed (Shard.active s) namespace query filter ∅ in
  let! more :=
    match Shard.base s with
    | None => Ok []
    | Some b => SearchNamed b namespace query filter (Segment.Keys (Shard.active s) ∪ Shard.tombstones s)
    end in
  Ok (take (Z.to_nat (nq_TopK query)) (sort_slice Shard.result_ltb (results ++ more))).

Fixpoint search_each (ss : list shard) (namespace : string) (query : NamedQuery) (filter : option (Expr (MI := MI)))
    : res (list (list SearchResult)) :=
  match ss with
  | [] => Ok []
  | s :: rest =>
      let! results := shard_SearchNamed s namespace query filter in
      let! others := search_each rest namespace query filter in
      Ok (results :: others)
  end.

Definition coll_SearchNamed (c : collection) (namespace : string) (query : NamedQuery) (filter : option (Expr (MI := MI)))
    : res (list SearchResult) :=
  let! _ := NamedQuery_Validate query (Collection.config c) in
  let! perShard := search_each (Collection.shards c) namespace query filter in
  Ok (mergeTopK perShard (nq_TopK query)).

Definition SearchShardNamed (c : collection) (shardID : Z) (namespace : string) (query : NamedQuery) (filter : option (Expr (MI := MI)))
    : res (list SearchResult) :=
  let! _ := NamedQuery_Validate query (Collection.config c) in
  match Collection.shards c !! Z.to_nat shardID with
  | None => invalid "shard ID out of range"
  | Some s => shard_SearchNamed s namespace query filter
  end.

(** ** Reranking *)

Definition with_score (r : SearchResult) (score : Z) : SearchResult :=
  mkResult (res_ID r) score (res_Metadata r) (res_Payload r) (res_Namespace r) (res_Text r).

Definition with_text (r : SearchResult) (text : string) : SearchResult :=
  mkResult (res_ID r) (res_Score r) (res_Metadata r) (res_Payload r) (res_Namespace r) text.

Fixpoint rerank (c : collection) (metric field : string) (query : list (list Z)) (results : list SearchResult) : res (list SearchResult) :=
  match results with
  | [] => Ok []
  | result :: rest =>
      match Collection.Get c (res_Namespace result) (res_ID result) with
      | Err e => if bool_decide (e = Sentinel ErrNotFound) then rerank c metric field query rest else Err e
      | Ok record =>
          match MultiVectors record !! field with
          | None => rerank c metric field query rest
          | Some document =>
              let! score := MaxSim metric query document in
              let! others := rerank c metric field query rest in
              Ok (with_score result score :: others)
          end
      end
  end.

Definition RerankMaxSim (c : collection) (results : list SearchResult) (field : string) (query : list (list Z)) : res (list SearchResult) :=
  match lookup_VectorField (Collection.config c) field with
  | None => invalid "maxsim rerank requires a multi-vector field"
  | Some declared =>
      if negb (vf_MultiVector declared) then invalid "maxsim rerank requires a multi-vector field"
      else
        let! reranked := rerank c (vf_Metric declared) field query results in
        Ok (sort_slice Shard.result_ltb reranked)
  end.

Fixpoint AttachText (c : collection) (results : list SearchResult) : res (list SearchResult) :=
  match results with
  | [] => Ok []
  | result :: rest =>
      match Collection.Get c (res_Namespace result) (res_ID result) with
      | Err e => if bool_decide (e = Sentinel ErrNotFound) then let! others := AttachText c rest in Ok (result :: others) else Err e
      | Ok record => let! others := AttachText c rest in Ok (with_text result (Text record) :: others)
      end
  end.

End Operations.
End Named.

(** ** Search in named vector fields: theorems

    Searching a field without an index is exhaustive search of the records
    that have a vector there, and rescoring gives each candidate the MaxSim
    of its own token vectors. *)

Lemma map_to_list_omap `{Countable K} {A B} (g : A → option B) (m : gmap K A) :
  map_to_list (omap g m) ≡ₚ omap (λ kv, pair kv.1 <$> g kv.2) (map_to_list m).
Proof.
  apply NoDup_Permutation; [apply NoDup_map_to_list| |].
  - apply (NoDup_fmap_1 fst). pose proof (NoDup_fst_map_to_list m) as Hnd. revert Hnd. generalize (map_to_list m) as l. clear.
    induction l as [|[k a] l IH]; intros Hnd; [constructor|]. cbn [fmap list_fmap fst] in Hnd. apply NoDup_cons in Hnd as [Hni Hnd]. cbn.
    destruct (g a); [|by apply IH]. cbn. constructor; [|by apply IH]. intros ([k' b']&->&Hin)%list_elem_of_fmap.
    apply list_elem_of_omap in Hin as ([k2 a2]&Hin&E). cbn in E. destruct (g a2); [|done]. injection E as <- _.
    apply Hni, list_elem_of_fmap. by exists (k2, a2).
  - intros [k b]. rewrite elem_of_map_to_list, lookup_omap, list_elem_of_omap. split.
    + destruct (m !! k) as [a|] eqn:Ea; [|done]. cbn. intros Hg. exists (k, a). split; [by apply elem_of_map_to_list|]. cbn. by rewrite Hg.
    + intros ([k' a]&Hin%elem_of_map_to_list&E). cbn in E. destruct (g a) eqn:Eg; [|done]. injection E as -> ->. by rewrite Hin.
Qed.

Lemma omap_fmap_all {A B C} (f : A → option B) (g : B → C) (l : list A) : g <$> omap f l = omap (λ x, g <$> f x) l.
Proof. induction l as [|x l IH]; [done|]. cbn. destruct (f x); cbn; by rewrite <-IH. Qed.

Lemma score_stored_ok metric datatype vector (allow : Z → bool) entries :
  Metric_Valid metric = true → Forall (λ e : Z * Segment.storedVector, len vector = len (Segment.decode e.2 datatype)) entries →
  score_stored metric datatype vector allow entries
  = Ok (omap (λ e, if allow e.1 then Some (mkCandidate e.1 (score_of metric vector (Segment.decode e.2 datatype))) else None) entries).
Proof.
  intros Hm Hl. induction Hl as [|[o v] l Hv Hl IH]; [done|]. cbn. destruct (allow o); cbn; [|exact IH].
  destruct (Score_ok metric vector (Segment.decode v datatype)) as [sc Hsc]; [done|done|]. rewrite Hsc, IH. cbn. unfold score_of. by rewrite Hsc.
Qed.

Section Proofs.
Context {I MI L : Type} `{!VectorIndex I, !VectorIndexSpec I, !MetadataIndex MI, !MetadataSpec MI,
  !LexicalIndex L, !IndexBuilders I, !IndexBuildersSpec I} {MO : MapOrder}.
Context (config : CollectionConfig).

Local Abbreviation segment := (Segment.t I MI L).

(** The results an exhaustive search of a field considers: the eligible
    records that have a vector there. *)
Definition field_result (metric name : string) (vector : list Z) (r : CoreRecord) : option SearchResult :=
  (λ v, mkResult (ID r) (score_of metric vector v) (Metadata r) (Payload r) (Namespace r) "") <$> rec_Vectors r !! name.

Definition field_hits (metric name : string) (vector : list Z) (namespace : string) (filter : option (Expr (MI := MI)))
    (excluded : gset string) (m : gmap string CoreRecord) : list SearchResult :=
  omap (field_result metric name vector) (List.filter (eligible namespace filter excluded) (map_to_list m).*2).

Context (s : segment) (full : gmap Z CoreRecord) (Hi : seg_inv config s full).

Lemma stored_vector name f o v :
  Segment.named s !! name = Some f → Segment.dense f !! o = Some v →
  ∃ r vec, full !! o = Some r ∧ rec_Vectors r !! name = Some vec ∧ Segment.decode v (vf_Datatype (Segment.nf_config f)) = vec ∧
    len vec = vf_Dimension (Segment.nf_config f).
Proof using Hi.
  intros Hf Hd. destruct (si_fields _ _ _ Hi) as [_ Hfi]. specialize (Hfi name f Hf). rewrite (fi_dense _ _ _ _ Hfi), lookup_omap in Hd.
  destruct (full !! o) as [r|] eqn:Hr; [|done]. cbn in Hd. unfold dense_of in Hd. destruct (vf_MultiVector _); [done|].
  destruct (rec_Vectors r !! name) as [vec|] eqn:Ev; [|done]. injection Hd as <-. exists r, vec. split; [done|]. split; [done|].
  destruct (si_prepared _ _ _ Hi o r Hr) as (Hvec&_). destruct (prepared_vector config name vec) as (field&Hl&_&Hlen&Hround); [by apply (prepared_fields config r)|].
  pose proof (fi_config _ _ _ _ Hfi) as Hc. rewrite Hl in Hc. injection Hc as ->. split; [|done]. by rewrite decode_encode.
Qed.

(** The scan's candidates, as results, are the hits. *)
Lemma scan_hits name f vector namespace filter excluded :
  Segment.named s !! name = Some f → vf_MultiVector (Segment.nf_config f) = false →
  let metric := vf_Metric (Segment.nf_config f) in
  let allow := Segment.allow s namespace (meta_Evaluate (Segment.metadata s) <$> filter) excluded in
  let scan := omap (λ e, if allow e.1 then Some (mkCandidate e.1 (score_of metric vector (Segment.decode e.2 (vf_Datatype (Segment.nf_config f))))) else None)
                (range (Segment.dense f)) in
  Named.result_for s <$> scan ≡ₚ field_hits metric name vector namespace filter excluded (view s full) ∧
  Forall (λ c, res_Score (Named.result_for s c) = CandScore c) scan ∧ NoDup (CandID <$> scan).
Proof using Hi.
  intros Hf Hm. cbv zeta. set (allow := Segment.allow _ _ _ _). set (dt := vf_Datatype (Segment.nf_config f)). set (metric := vf_Metric _).
  split_and!.
  - unfold field_hits. rewrite <-(full_values config s full Hi). rewrite omap_fmap_all.
    destruct (si_fields _ _ _ Hi) as [_ Hfi]. specialize (Hfi name f Hf).
    trans (omap (λ e : Z * Segment.storedVector, Named.result_for s <$> (if allow e.1 then Some (mkCandidate e.1 (score_of metric vector (Segment.decode e.2 dt))) else None))
      (omap (λ kv, pair kv.1 <$> dense_of (Segment.nf_config f) name kv.2) (map_to_list full))).
    { apply omap_Permutation. rewrite range_perm, (fi_dense _ _ _ _ Hfi). apply map_to_list_omap. }
    assert (∀ l : list (Z * CoreRecord), (∀ o r, (o, r) ∈ l → full !! o = Some r) →
      omap (λ e : Z * Segment.storedVector, Named.result_for s <$> (if allow e.1 then Some (mkCandidate e.1 (score_of metric vector (Segment.decode e.2 dt))) else None))
        (omap (λ kv, pair kv.1 <$> dense_of (Segment.nf_config f) name kv.2) l)
      = omap (field_result metric name vector) (List.filter (eligible namespace filter excluded) l.*2)) as Hgen.
    { induction l as [|[o r] l IH]; intros Hl; [done|]. assert (full !! o = Some r) as Hr by apply Hl, list_elem_of_here.
      specialize (IH (λ o r Hin, Hl o r (list_elem_of_further _ _ _ Hin))).
      pose proof (allow_eligible config s full namespace filter excluded o r Hi Hr) as Ha. fold allow in Ha.
      destruct (si_prepared _ _ _ Hi o r Hr) as (Hvec&_). cbn [fmap list_fmap fst snd List.filter].
      assert (dense_of (Segment.nf_config f) name r = Segment.encodeVector dt <$> rec_Vectors r !! name) as Ed by (unfold dense_of; by rewrite Hm).
      cbn [omap list_omap fst snd]. rewrite Ed.
      destruct (rec_Vectors r !! name) as [vec|] eqn:Ev.
      - cbn [fmap option_fmap option_map omap list_omap fst snd]. rewrite Ha.
        destruct (prepared_vector config name vec) as (field&Hlk&_&Hlen&Hround); [by apply (prepared_fields config r)|].
        rewrite (fi_config _ _ _ _ Hfi) in Hlk. injection Hlk as <-.
        destruct (eligible namespace filter excluded r); [|exact IH]. cbn [omap list_omap fmap option_fmap option_map].
        unfold field_result at 1. rewrite Ev. cbn [fmap option_fmap option_map]. rewrite IH. f_equal.
        unfold Named.result_for. cbn [CandID CandScore]. rewrite (si_records _ _ _ Hi), lookup_fmap, Hr. cbn [fmap option_fmap option_map].
        destruct (kept_fields (Segment.vectorAt s) r) as (->&->&->&->). unfold dt. rewrite decode_encode. by rewrite Hround.
      - cbn [fmap option_fmap option_map]. destruct (eligible namespace filter excluded r); [|exact IH].
        cbn [omap list_omap]. unfold field_result at 1. rewrite Ev. exact IH. }
    rewrite Hgen; [done|]. intros o r. by rewrite elem_of_map_to_list.
  - apply Forall_forall. intros c Hc. unfold Named.result_for. destruct (Segment.records s !! CandID c); reflexivity.
  - assert (NoDup (range (Segment.dense f)).*1) as Hnd by (rewrite range_perm; apply NoDup_fst_map_to_list).
    revert Hnd. generalize (range (Segment.dense f)) as l. clear -I. induction l as [|[o v] l IH]; intros Hnd; [constructor|].
    cbn [fmap list_fmap fst] in Hnd. apply NoDup_cons in Hnd as [Hni Hnd]. cbn. destruct (allow o); [|by apply IH]. cbn. constructor; [|by apply IH].
    intros (c&->&Hin)%list_elem_of_fmap. apply list_elem_of_omap in Hin as ([o2 v2]&Hin&E). cbn in E. destruct (allow o2); [|done]. injection E as <-.
    apply Hni, list_elem_of_fmap. by exists (o2, v2).
Qed.

(** Searching a field that has no index is exhaustive: a single-vector
    query returns a best-[TopK] set of the eligible records that have a vector
    in the field, each with the score of that vector as the record holds it. *)
Theorem named_search_exact f query vector namespace filter excluded :
  Segment.named s !! nq_Field query = Some f → Segment.nf_index f = None → vf_MultiVector (Segment.nf_config f) = false →
  nq_Vector query = Some vector → nq_MultiVector query = None → Metric_Valid (vf_Metric (Segment.nf_config f)) = true →
  len vector = vf_Dimension (Segment.nf_config f) →
  let all := field_hits (vf_Metric (Segment.nf_config f)) (nq_Field query) vector namespace filter excluded (view s full) in
  (∀ r, r ∈ all → comparable (res_Score r)) →
  ∃ R, Named.SearchNamed s namespace query filter excluded = Ok R ∧ top_set score_better (Z.to_nat (nq_TopK query)) all R.
Proof using Hi.
  intros Hf Hx Hm Hv Hmv Hvalid Hlen. cbv zeta. intros Hc. unfold Named.SearchNamed. rewrite Hf, Hmv, Hv. cbn [default].
  unfold Named.candidates. rewrite Hx, Hm.
  destruct (scan_hits (nq_Field query) f vector namespace filter excluded Hf Hm) as (Hp&Hsc&Hnd). set (scan := omap _ _) in *.
  rewrite score_stored_ok.
  2: { done. }
  2: { apply Forall_forall. intros [o v] Hin. rewrite range_perm in Hin. apply elem_of_map_to_list in Hin.
    destruct (stored_vector (nq_Field query) f o v Hf Hin) as (r&vec&_&_&Hd&Hl). cbn. by rewrite Hd, Hl, Hlen. }
  cbn [res_bind]. fold scan. eexists. split; [done|].
  set (cands := take (Z.to_nat (nq_TopK query)) (sort_slice better scan)). set (g := Named.result_for s).
  assert (∀ c, c ∈ scan → comparable (CandScore c)) as Hcc.
  { intros c Hin. rewrite Forall_forall in Hsc. rewrite <-(Hsc c Hin). apply Hc. rewrite <-Hp. by apply list_elem_of_fmap_2. }
  assert (top_set score_better (Z.to_nat (nq_TopK query)) (g <$> scan) (g <$> cands)) as (Hl&rest&Hrp&Hb).
  { apply top_set_fmap. unfold cands. rewrite (sort_slice_ext better (by_key cand_key_ltb cand_key)).
    2: { intros x y Hx' Hy'. apply better_by_key; by apply Hcc. }
    apply (top_set_ext (λ a b, f32_ord (CandScore b) <? f32_ord (CandScore a)) _ (λ c, c ∈ scan)); [|done|].
    - intros x y Hx' Hy'. unfold by_key, score_better, g. rewrite Forall_forall in Hsc. by rewrite !Hsc.
    - eapply top_set_coarser; [|apply (sort_take_top_k (by_key cand_key_ltb cand_key))].
      intros x y Hxy. unfold by_key, cand_key_ltb, cand_key. simpl. by rewrite Hxy. }
  assert (length (sort_slice Shard.result_ltb (g <$> cands)) ≤ Z.to_nat (nq_TopK query))%nat as Hle.
  { rewrite length_sort_slice. unfold g, cands. rewrite length_fmap, length_take. lia. }
  rewrite (take_ge (sort_slice Shard.result_ltb (g <$> cands))) by done.
  split; [rewrite length_sort_slice; fold g in Hp; by rewrite <-Hp|]. exists rest. rewrite sort_slice_perm. split; [by rewrite <-Hp|].
  intros x y Hx' Hy'. apply Hb; [by rewrite sort_slice_elem in Hx'|done].
Qed.
End Proofs.

(** *** Witness *)

Module Fields.

#[local] Instance listing : MapOrder := {| range := λ _ _ _ _ m, map_to_list m; range_perm := λ _ _ _ _ m, reflexivity _ |}.

Local Abbreviation segment := (Segment.t Flat.t Reference.filter_index unit).

Definition base : CollectionConfig := Reference.sample_config 1.
Definition title : VectorField := mkField 2 MetricDot (Core.Index base) "" false.
Definition cfg : CollectionConfig :=
  mkConfig (Name base) (Dimension base) (Metric base) (ShardCount base) (Core.Index base) "" {["title" := title]}.

Definition declared : VectorField := default title (lookup_VectorField cfg "title").

Definition article (id : string) (vector : list Z) : CoreRecord :=
  mkCoreRecord id [f32_one; f32_zero] ∅ ∅ ∅ 1 1 "n" "" {["title" := vector]} ∅.

Definition first : CoreRecord := article "a" [f32_one; f32_zero].
Definition second : CoreRecord := article "b" [f32_zero; f32_one].

Definition articles : res segment :=
  let! s := Segment.New cfg in
  match Segment.Upsert s first with
  | (s, None) => match Segment.Upsert s second with (s, None) => Ok s | (_, Some e) => Err e end
  | (_, Some e) => Err e
  end.

Lemma articles_inv : ∃ s full, articles = Ok s ∧ seg_inv cfg s full.
Proof.
  assert (match articles with Ok s => true | Err _ => false end = true) as H by (vm_compute; reflexivity).
  destruct articles as [s|e] eqn:E; [|done]. unfold articles in E.
  destruct (Segment.New cfg) as [s0|] eqn:E0; [|done]. cbn [res_bind] in E.
  assert (Segment.nextID s0 = 1) as Hn by (unfold Segment.New in E0; destruct (Segment.New_index cfg); [|done]; cbn [res_bind] in E0;
    destruct (Segment.build_fields _ _); [|done]; cbn [res_bind] in E0; by injection E0 as <-).
  destruct (New_ok cfg s0 E0) as (Hi0&_&Hr0).
  assert (prepared cfg first ∧ prepared cfg second) as [P1 P2] by (split; (split_and!; [vm_compute; reflexivity|discriminate|vm_compute; reflexivity])).
  destruct (Upsert_ok cfg s0 ∅ first Hi0 Hr0 P1) as (s1&full1&Hu1&Hi1&_&Hr1&Hn1&_); [rewrite Hn; done|].
  rewrite Hu1 in E. destruct (Upsert_ok cfg s1 full1 second Hi1 Hr1 P2) as (s2&full2&Hu2&Hi2&_); [unfold two64; lia|].
  rewrite Hu2 in E. injection E as <-. exists s2, full2. split; [reflexivity|exact Hi2].
Qed.

Definition query : NamedQuery := mkNamedQuery "title" (Some [f32_one; f32_zero]) None 2 0 0.

Lemma named_search_exact_witness :
  ∃ s full R, articles = Ok s ∧ Named.SearchNamed s "n" query None ∅ = Ok R ∧
    top_set score_better 2 (field_hits MetricDot "title" [f32_one; f32_zero] "n" None ∅ (view s full)) R.
Proof.
  destruct articles_inv as (s&full&Hs&Hi).
  assert (match articles with Ok s => match Segment.named s !! "title" with
    | Some f => match Segment.nf_index f with None => bool_decide (Segment.nf_config f = declared) | _ => false end | None => false end | _ => false end = true) as H
    by (vm_compute; reflexivity).
  rewrite Hs in H. destruct (Segment.named s !! "title") as [f|] eqn:Hf; [|discriminate]. destruct (Segment.nf_index f) eqn:Hx; [discriminate|].
  apply bool_decide_eq_true in H.
  assert (vf_Metric (Segment.nf_config f) = MetricDot ∧ vf_Datatype (Segment.nf_config f) = DatatypeFloat32 ∧ vf_MultiVector (Segment.nf_config f) = false ∧
    vf_Dimension (Segment.nf_config f) = 2) as (Hmetric&Hdt&Hmv&Hdim) by (rewrite H; repeat split; vm_compute; reflexivity).
  destruct (named_search_exact cfg s full Hi f query [f32_one; f32_zero] "n" None ∅ Hf Hx Hmv) as (R&HR&Ht);
    [reflexivity|reflexivity|rewrite Hmetric; reflexivity|rewrite Hdim; reflexivity| |].
  - rewrite Hmetric. intros r (rec&Hin&E)%list_elem_of_omap. change (field_result MetricDot "title" [f32_one; f32_zero] rec = Some r) in E. unfold field_result in E. destruct (rec_Vectors rec !! "title") as [v|] eqn:Ev; [|discriminate]. injection E as <-.
    assert (match articles with Ok s => match Segment.named s !! "title" with
       | Some f => forallb (λ v, negb (f32_is_nan (score_of MetricDot [f32_one; f32_zero] (Segment.decode v DatatypeFloat32)))) (map_to_list (Segment.dense f)).*2
       | None => false end | Err _ => false end = true) as Hall by (vm_compute; reflexivity).
    rewrite Hs, Hf, forallb_forall in Hall. apply list_elem_of_In, filter_In in Hin as [Hin _]. apply list_elem_of_In in Hin.
    rewrite <-(full_values cfg s full Hi) in Hin. apply list_elem_of_fmap in Hin as ([o r']&->&Hr%elem_of_map_to_list).
    destruct (si_fields _ _ _ Hi) as [_ Hfi]. specialize (Hfi _ f Hf).
    assert (Segment.dense f !! o = Some (Segment.encodeVector DatatypeFloat32 v)) as Hd.
    { rewrite (fi_dense _ _ _ _ Hfi), lookup_omap, Hr. cbn [mbind option_bind]. unfold dense_of. rewrite Hmv, Hdt. cbn [snd] in Ev. by rewrite Ev. }
    specialize (Hall (Segment.encodeVector DatatypeFloat32 v)). rewrite decode_encode in Hall. assert (RoundToDatatype DatatypeFloat32 v = v) as Hround by (change ((λ x : Z, x) <$> v = v); apply list_fmap_id). rewrite Hround in Hall. unfold comparable. apply negb_true_iff. cbn [res_Score]. apply Hall.
    apply list_elem_of_In, list_elem_of_fmap. exists (o, Segment.encodeVector DatatypeFloat32 v). split; [done|]. by apply elem_of_map_to_list.
  - exists s, full, R. split; [exact Hs|]. split; [exact HR|]. rewrite Hmetric in Ht. exact Ht.
Defined.
End Fields.
