(* ===== verification/StoreTheorems.v ===== *)
(** * The store's theorems

    The properties of the exact index, of collections and of search, each
    stated over histories of operations starting from a new store, with their
    examples, and what modelling showed about key collisions, scores that
    are not numbers and ties. *)
From Stdlib Require Import ZArith Lia Ascii String.
From stdpp Require Import base tactics list gmap strings.
From S2P Require Import Prelude Core CoreProofs Distance TopK Index Flat Segment Instances SegmentProofs Shard ShardProofs ShardGenerations Collection CollectionProofs.
Local Open Scope string_scope.
Local Open Scope Z_scope.
Local Open Scope list_scope.

(** ** Histories of the exact index *)

Inductive index_op : Set :=
  | OpUpsert (id : Z) (vector : list Z)
  | OpDelete (id : Z).

Definition run_index_op (f : Flat.t) (op : index_op) : Flat.t :=
  match (match op with OpUpsert id v => Flat.Upsert f id v | OpDelete id => Flat.Delete f id end) with
  | Ok f' => f'
  | Err _ => f
  end.

(** The map the index stands for; vectors of another dimension are refused. *)
Definition spec_index_op (dimension : Z) (m : gmap Z (list Z)) (op : index_op) : gmap Z (list Z) :=
  match op with
  | OpUpsert id v => if len v =? dimension then <[id := v]> m else m
  | OpDelete id => delete id m
  end.

Definition op_nonzero (op : index_op) : Prop := match op with OpUpsert id _ => id ≠ 0 | _ => True end.

Lemma index_step f op :
  Flat.inv f → op_nonzero op →
  Flat.inv (run_index_op f op) ∧ Flat.dimension (run_index_op f op) = Flat.dimension f ∧
  Flat.metric (run_index_op f op) = Flat.metric f ∧
  Flat.contents (run_index_op f op) = spec_index_op (Flat.dimension f) (Flat.contents f) op.
Proof.
  intros Hi Hop. destruct op as [id v|id]; unfold run_index_op, spec_index_op.
  - destruct (Z.eqb_spec (len v) (Flat.dimension f)) as [Hl|Hl].
    + destruct (@vi_upsert_ok Flat.t _ Flat.flat_spec f id v Hi Hop Hl) as (f'&E&?&?&?&?).
      change (vi_Upsert f id v) with (Flat.Upsert f id v) in E. by rewrite E.
    + pose proof (@vi_upsert_mismatch Flat.t _ Flat.flat_spec f id v Hi Hl) as E.
      change (vi_Upsert f id v) with (Flat.Upsert f id v) in E. by rewrite E.
  - destruct (Flat.contents f !! id) as [v|] eqn:Ec.
    + destruct (@vi_delete_ok Flat.t _ Flat.flat_spec f id v Hi Ec) as (f'&E&?&?&?&?).
      change (vi_Delete f id) with (Flat.Delete f id) in E. by rewrite E.
    + pose proof (@vi_delete_missing Flat.t _ Flat.flat_spec f id Hi Ec) as E.
      change (vi_Delete f id) with (Flat.Delete f id) in E. rewrite E. by rewrite delete_id.
Qed.

Lemma index_run ops f :
  Flat.inv f → Forall op_nonzero ops →
  let f' := foldl run_index_op f ops in
  Flat.inv f' ∧ Flat.dimension f' = Flat.dimension f ∧ Flat.metric f' = Flat.metric f ∧
  Flat.contents f' = foldl (spec_index_op (Flat.dimension f)) (Flat.contents f) ops.
Proof.
  revert f. induction ops as [|op ops IH]; intros f Hi Hf; [done|]. inversion Hf as [|?? H1 H2]; subst.
  destruct (index_step f op Hi H1) as (Hi'&Hd&Hm&Hc). cbv zeta. cbn [foldl].
  destruct (IH _ Hi' H2) as (?&Hd'&Hm'&Hc'). rewrite Hc', Hd', Hm', Hd, Hm, Hc. done.
Qed.

(** The exact index is a finite map from ids to vectors: after any history
    of insertions, replacements and deletions, slots reused or not, it holds
    exactly the vectors the map operations would leave, and its length is the
    size of that map. *)
Theorem flat_refines_map cfg f ops :
  Flat.New cfg = Ok f → Forall op_nonzero ops →
  let f' := foldl run_index_op f ops in
  let m := foldl (spec_index_op (cfg_Dimension cfg)) ∅ ops in
  Flat.contents f' = m ∧ Flat.Len f' = Z.of_nat (size m).
Proof.
  intros Hn Hops. destruct (Reference.New_spec cfg f Hn) as (Hi&Hd&_&Hc).
  destruct (index_run ops f Hi Hops) as (Hi'&_&_&Hc'). rewrite Hd, Hc in Hc'. cbv zeta. split; [done|].
  pose proof (@vi_len_size Flat.t _ Flat.flat_spec (foldl run_index_op f ops) Hi') as Hl.
  change (Flat.Len (foldl run_index_op f ops) = Z.of_nat (size (Flat.contents (foldl run_index_op f ops)))) in Hl.
  by rewrite Hl, Hc'.
Qed.

(** The exact index is exact: after any history, a search of the right
    dimension returns the best [k] of all the allowed vectors, ordered by
    decreasing score and then by increasing id, whenever the scores are
    comparable. *)
Theorem flat_search_exact cfg f ops query k allowed :
  Flat.New cfg = Ok f → Forall op_nonzero ops → len query = cfg_Dimension cfg → 0 < k →
  let f' := foldl run_index_op f ops in
  let m := foldl (spec_index_op (cfg_Dimension cfg)) ∅ ops in
  let candidates := scored (score_of (cfg_Metric cfg) query) (allows allowed) m in
  (∀ c, c ∈ candidates → comparable (CandScore c)) →
  Flat.SearchFiltered f' query k allowed =
    Ok (take (Z.to_nat k) (sort_slice (by_key cand_key_ltb cand_key) candidates)).
Proof.
  intros Hn Hops Hq Hk. destruct (Reference.New_spec cfg f Hn) as (Hi&Hd&Hm&Hc).
  destruct (index_run ops f Hi Hops) as (Hi'&Hd'&Hm'&Hc'). rewrite Hd, Hc in Hc'. cbv zeta. intros Hcmp.
  rewrite (Flat.SearchFiltered_exact _ query k allowed Hi'); rewrite ?Hm', ?Hm, ?Hc', ?Hd', ?Hd; done.
Qed.

(** ** Scores *)

Lemma SFmul_comm p e x y : SpecFloat.SFmul p e x y = SpecFloat.SFmul p e y x.
Proof. destruct x as [[]|[]| |[] mx ex], y as [[]|[]| |[] my ey]; simpl; try done; by rewrite Pos.mul_comm, Z.add_comm. Qed.

Lemma f32_mul_comm a b : f32_mul a b = f32_mul b a.
Proof. unfold f32_mul. by rewrite SFmul_comm. Qed.

Lemma zip_swap (term : Z → Z → Z) (a b : list Z) :
  (∀ x y, term x y = term y x) → zip_with term a b = zip_with term b a.
Proof. intros H. revert b. induction a as [|x a IH]; intros [|y b]; simpl; [done..|]. by rewrite H, IH. Qed.

Lemma lanes_swap (term : Z → Z → Z) fuel s (a b : list Z) :
  (∀ x y, term x y = term y x) → length a = length b →
  lanes fuel term s b a = (λ '(s, (a, b)), (s, (b, a))) (lanes fuel term s a b).
Proof.
  intros Hc. revert s a b. induction fuel as [|fuel IH]; intros s a b Hl; [done|]. cbn [lanes]. rewrite Hl.
  destruct (8 <=? length b)%nat; [|done].
  rewrite (zip_swap term (take 8 b)) by done. apply IH. rewrite !length_drop. lia.
Qed.

Lemma dot_swap a b : length a = length b → dot a b = dot b a.
Proof.
  intros Hl. unfold dot, dotGeneric, accumulate. rewrite (lanes_swap _ _ _ a b f32_mul_comm Hl), Hl.
  destruct (lanes _ _ _ a b) as [s [a' b']]. by rewrite (zip_swap f32_mul b' a' f32_mul_comm).
Qed.

(** The scoring paths agree bit for bit: scoring with a precomputed query
    norm, and scoring with both norms cached, give what scoring afresh gives,
    and similarity under the dot product and the cosine is symmetric. *)
Theorem scoring_paths_agree metric a b :
  ScoreWithQuerySquaredNorm metric a (if String.eqb metric MetricCosine then SquaredNorm a else f32_zero) b
    = Score metric a b ∧
  (metric = MetricCosine → len a = len b →
     Score metric a b = Ok (CosineWithSquaredNorms a (SquaredNorm a) b (SquaredNorm b))) ∧
  (metric ≠ MetricL2 → Score metric a b = Score metric b a).
Proof.
  split; [apply prepared_score|]. split.
  - intros -> Hl. unfold Score, CosineWithSquaredNorms, SquaredNorm. rewrite Hl, Z.eqb_refl. simpl.
    unfold cosine. by destruct (_ || _)%bool.
  - intros Hm. unfold Score. rewrite (Z.eqb_sym (len b)). destruct (Z.eqb_spec (len a) (len b)) as [Hl|]; [|done]. simpl.
    assert (length a = length b) as Hl' by (unfold len in Hl; lia).
    destruct (String.eqb metric MetricDot); [by rewrite dot_swap|].
    rewrite (proj2 (String.eqb_neq metric MetricL2)) by done. destruct (String.eqb metric MetricCosine); [|done].
    f_equal. unfold cosine. rewrite (dot_swap a b Hl').
    destruct (f32_eqb (dot a a) f32_zero), (f32_eqb (dot b b) f32_zero); simpl; try done. by rewrite f32_mul_comm.
Qed.

(** Merging is deterministic: the merged results depend only on which
    results the shards returned, not on the shards' order or on how results
    are spread over them, as long as no two share their score and id. *)
Theorem merge_deterministic (perShard perShard' : list (list SearchResult)) k :
  0 < k → concat perShard ≡ₚ concat perShard' → NoDup (result_key <$> concat perShard) →
  (∀ r, r ∈ concat perShard → comparable (res_Score r)) →
  mergeTopK perShard k = mergeTopK perShard' k ∧
  mergeTopK perShard k = take (Z.to_nat k) (sort_slice result_order (concat perShard)).
Proof.
  intros Hk Hp Hnd Hc.
  assert (∀ Rs, concat perShard ≡ₚ concat Rs → mergeTopK Rs k = take (Z.to_nat k) (sort_slice result_order (concat Rs))) as H.
  { intros Rs HRs. apply (top_k_unique result_key_ltb result_key); [by rewrite <-HRs|].
    apply mergeTopK_ok; [done|]. intros r. rewrite <-HRs. apply Hc. }
  split; [|by apply H]. rewrite (H perShard), (H perShard') by done. f_equal.
  by apply (sort_slice_unique_key result_key_ltb result_key).
Qed.

(** ** Collections *)

Section Store.
Context {I MI L : Type} `{!VectorIndex I, !VectorIndexSpec I, !MetadataIndex MI, !MetadataSpec MI,
  !LexicalIndex L, !IndexBuilders I, !IndexBuildersSpec I}.

(** C1. A collection is one versioned map.  After any history of upserts,
    deletes and shard checkpoints, [Get] returns exactly the record last put
    under a key and not deleted since, named vectors included, [Count] is the
    number of such records, [Records] lists each of them once, and the
    version is the one a single counter would have reached: neither the
    number of shards nor the checkpoints can be observed. *)
Theorem collection_refines_map cfg (c0 : Collection.t I MI L) cmds :
  Collection.New cfg = Ok c0 → ShardCount cfg < 2 ^ 32 → len cmds + 3 < two64 → Forall command_valid cmds →
  let c := foldl Collection.run_command c0 cmds in
  let st := foldl (spec_command (I := I) (MI := MI) (L := L) (Normalized cfg)) (∅, 0) cmds in
  (∀ ns id, Collection.Get c ns id =
     match st.1 !! key ns id with Some r => Ok r | None => Err (Sentinel ErrNotFound) end) ∧
  Collection.Count c = Z.of_nat (size st.1) ∧
  Collection.Records c ≡ₚ (map_to_list st.1).*2 ∧
  Collection.version c = st.2.
Proof.
  intros Hn Hs Hl Hv. destruct (coll_New_ok cfg c0 Hn Hs) as (Hi&Hver&Hcfg&Hb).
  destruct (run_ok cmds c0 ∅ 0 Hi Hb Hl Hv) as (Hi'&Hv'&_). rewrite Hcfg, Hver in *. cbv zeta.
  split; [intros ns id; by apply coll_Get_ok|]. split; [by apply coll_Count_ok|]. split; [by apply coll_Records_ok|done].
Qed.

(** C10. Search over an exact index is exact end to end.  After any history, a
    valid search returns, best first, a best-[k] set of all the live records
    of the namespace that match the filter, each with its own score: nothing
    is lost in the heaps of the index, in the merge of the mutable and sealed
    records of a shard, or in the merge across shards, provided the scores
    are comparable. *)
Theorem collection_search_exact `{!ExactIndex I} cfg (c0 : Collection.t I MI L) cmds ns query k filter ef :
  Collection.New cfg = Ok c0 → ShardCount cfg < 2 ^ 32 → len cmds + 3 < two64 → Forall command_valid cmds →
  ValidateVector query (Dimension (Normalized cfg)) = Ok tt → 0 < k → 0 ≤ ef ≤ 10000 →
  let c := foldl Collection.run_command c0 cmds in
  let st := foldl (spec_command (I := I) (MI := MI) (L := L) (Normalized cfg)) (∅, 0) cmds in
  let all := hits (score_of (Metric (Normalized cfg)) query) ns filter ∅ st.1 in
  (∀ r, r ∈ all → comparable (res_Score r)) →
  ∃ R, Collection.SearchFilteredWithEF c ns query k filter ef = Ok R ∧ answers k all R.
Proof.
  intros Hn Hs Hl Hv Hq Hk He. destruct (coll_New_ok cfg c0 Hn Hs) as (Hi&Hver&Hcfg&Hb).
  destruct (run_ok cmds c0 ∅ 0 Hi Hb Hl Hv) as (Hi'&Hv'&Hcfg'). rewrite Hcfg, Hver in Hi'. rewrite Hcfg in Hcfg'.
  pose proof (coll_Search_ok _ _ ns query k filter ef Hi') as H. rewrite Hcfg' in H. by apply H.
Qed.
End Store.

(** ** Keys *)

(** Record keys are unambiguous for namespaces without a NUL byte: then two
    records share a key only if they share namespace and id. *)
Theorem key_unambiguous ns ns' id id' :
  no_nul ns = true → no_nul ns' = true → key ns id = key ns' id' → ns = ns' ∧ id = id'.
Proof.
  intros H1 H2 H. by apply nul_prefix.
Qed.

(** ** Examples *)

Import Reference.

Definition f32_1 : Z := 0x3f800000.
Definition f32_3 : Z := 0x40400000.

Definition plane : Config := mkIndexConfig 2 MetricDot 0 0 0.

Definition new_plane : Flat.t :=
  match Flat.New plane with Ok f => f | Err _ => Flat.mk 0 "" [] [] ∅ [] end.

(** An id replaced, one deleted and its slot reused, one vector refused. *)
Definition sample_ops : list index_op :=
  [OpUpsert 7 [f32_1; 0]; OpUpsert 8 [f32_two; 0]; OpUpsert 7 [f32_3; 0]; OpDelete 8; OpUpsert 9 [f32_1; f32_1];
   OpUpsert 5 [f32_1]].

Lemma sample_ops_nonzero : Forall op_nonzero sample_ops.
Proof. repeat constructor; simpl; lia. Qed.

Lemma flat_refines_map_witness :
  Flat.New plane = Ok new_plane ∧
  Flat.contents (foldl run_index_op new_plane sample_ops) = {[7 := [f32_3; 0]; 9 := [f32_1; f32_1]]}.
Proof.
  split; [reflexivity|].
  destruct (flat_refines_map plane new_plane sample_ops eq_refl sample_ops_nonzero) as [-> _]. reflexivity.
Defined.

Lemma sample_comparable :
  ∀ c, c ∈ scored (score_of MetricDot [f32_1; f32_1]) (allows None)
             (foldl (spec_index_op 2) ∅ sample_ops) → comparable (CandScore c).
Proof.
  intros c Hc. apply (proj1 (Forall_forall (λ c, comparable (CandScore c)) _)) with (2 := Hc).
  repeat constructor.
Qed.

Lemma flat_search_exact_witness :
  Flat.SearchFiltered (foldl run_index_op new_plane sample_ops) [f32_1; f32_1] 1 None =
    Ok [mkCandidate 7 f32_3].
Proof.
  pose proof (flat_search_exact plane new_plane sample_ops [f32_1; f32_1] 1 None eq_refl sample_ops_nonzero
    eq_refl eq_refl sample_comparable) as H. rewrite H. vm_compute. reflexivity.
Defined.

Definition hit (id : string) (score : Z) : SearchResult := mkResult id score ∅ ∅ "n" "".

Lemma merge_deterministic_witness :
  mergeTopK [[hit "b" f32_3; hit "c" f32_1]; [hit "a" f32_3]] 2 =
  mergeTopK [[hit "a" f32_3]; [hit "b" f32_3; hit "c" f32_1]] 2.
Proof.
  apply (merge_deterministic [[hit "b" f32_3; hit "c" f32_1]; [hit "a" f32_3]]
    [[hit "a" f32_3]; [hit "b" f32_3; hit "c" f32_1]] 2).
  - reflexivity.
  - symmetry. apply (Permutation_cons_append [hit "b" f32_3; hit "c" f32_1] (hit "a" f32_3)).
  - apply (bool_decide_eq_true_1 _ (Decision0 := NoDup_dec _)). reflexivity.
  - intros r Hr. apply (proj1 (Forall_forall (λ r, comparable (res_Score r)) _)) with (2 := Hr). repeat constructor.
Defined.

Definition new_docs (n : Z) : Collection.t Flat.t filter_index unit :=
  match Collection.New (sample_config n) with
  | Ok c => c
  | Err _ => Collection.mk (sample_config n) [] 0
  end.

(** Upserts, a checkpoint of both shards, and changes over the checkpoint. *)
Definition sample_history : list Collection.command :=
  [Collection.CUpsert (sample_record "n" "a" [f32_1; 0]) 5;
   Collection.CUpsert (sample_record "n" "b" [f32_two; 0]) 6;
   Collection.CCheckpoint 0; Collection.CCheckpoint 1;
   Collection.CUpsert (sample_record "n" "c" [f32_3; f32_1]) 7;
   Collection.CDelete "n" "b"].

Lemma sample_valid ns id v : named_valid (sample_record ns id v).
Proof.
  split; intros k x; simpl.
  - intros [_ <-]%lookup_singleton_Some. repeat constructor; lia.
  - by rewrite lookup_empty.
Qed.

Lemma sample_history_valid : Forall command_valid sample_history.
Proof. repeat constructor; try apply sample_valid. Qed.

Lemma new_docs_ok : Collection.New (sample_config 2) = Ok (new_docs 2).
Proof.
  unfold new_docs. destruct (Collection.New (sample_config 2)) as [c|e] eqn:E; [done|].
  assert (is_ok (Collection.New (I := Flat.t) (MI := filter_index) (L := unit) (sample_config 2)) = true) as H
    by (vm_compute; reflexivity). by rewrite E in H.
Qed.

Lemma collection_refines_map_witness :
  Collection.Count (foldl Collection.run_command (new_docs 2) sample_history) = 2.
Proof.
  destruct (collection_refines_map (sample_config 2) (new_docs 2) sample_history new_docs_ok
    eq_refl eq_refl sample_history_valid) as (_&->&_). vm_compute. reflexivity.
Defined.

Definition sample_state : gmap string CoreRecord :=
  (foldl (spec_command (I := Flat.t) (MI := filter_index) (L := unit) (Normalized (sample_config 2)))
     (∅, 0) sample_history).1.

Lemma all_comparable (l : list SearchResult) :
  forallb (λ r, negb (f32_is_nan (res_Score r))) l = true → ∀ r, r ∈ l → comparable (res_Score r).
Proof.
  rewrite forallb_forall. intros H r Hr. unfold comparable. rewrite <-negb_true_iff. by apply H, list_elem_of_In.
Qed.

Lemma sample_hits_comparable :
  ∀ r, r ∈ hits (score_of MetricDot [f32_1; f32_1]) "n" (None : option text_filter) ∅ sample_state →
       comparable (res_Score r).
Proof. apply all_comparable. vm_compute. reflexivity. Qed.

Lemma collection_search_exact_witness :
  ∃ R, Collection.SearchFilteredWithEF (foldl Collection.run_command (new_docs 2) sample_history)
         "n" [f32_1; f32_1] 1 None 0 = Ok R ∧
       answers 1 (hits (score_of MetricDot [f32_1; f32_1]) "n" (None : option text_filter) ∅ sample_state) R.
Proof.
  apply (collection_search_exact (sample_config 2) (new_docs 2) sample_history "n" [f32_1; f32_1] 1 None 0
    new_docs_ok eq_refl eq_refl sample_history_valid eq_refl eq_refl).
  - split; discriminate.
  - exact sample_hits_comparable.
Defined.

Definition result_ids (r : res (list SearchResult)) : option (list string) :=
  match r with Ok R => Some (res_ID <$> R) | Err _ => None end.

Example sample_search_result :
  result_ids (Collection.SearchFilteredWithEF (foldl Collection.run_command (new_docs 2) sample_history)
    "n" [f32_1; f32_1] 1 None 0) = Some ["c"].
Proof. vm_compute. reflexivity. Qed.

Lemma scoring_paths_agree_witness :
  Score MetricCosine [f32_1; f32_3] [f32_3; f32_1] =
  Ok (CosineWithSquaredNorms [f32_1; f32_3] (SquaredNorm [f32_1; f32_3]) [f32_3; f32_1] (SquaredNorm [f32_3; f32_1])).
Proof.
  destruct (scoring_paths_agree MetricCosine [f32_1; f32_3] [f32_3; f32_1]) as (_&H&_). apply H; reflexivity.
Defined.

(** ** What the model shows *)

(** A record key is the namespace, a NUL byte and the id, and neither part
    is barred from holding that byte: a record of one namespace silently replaces one
    of another, and both names read it. *)
Definition NUL : string := String "000" "".

Definition colliding : list Collection.command :=
  [Collection.CUpsert (sample_record "a" ("b" +:+ NUL +:+ "c") [f32_1; 0]) 5;
   Collection.CUpsert (sample_record ("a" +:+ NUL +:+ "b") "c" [f32_3; 0]) 6].

Theorem record_keys_collide :
  let c := foldl Collection.run_command (new_docs 1) colliding in
  Collection.Count c = 1 ∧
  (match Collection.Get c "a" ("b" +:+ NUL +:+ "c") with Ok r => Some (Namespace r, Vector r) | Err _ => None end)
    = Some ("a" +:+ NUL +:+ "b", [f32_3; 0]).
Proof. vm_compute. done. Qed.

(** Finite vectors can have a score that is not a number, and such a
    candidate is not replaced once it is at the root of the heap: with [k = 1]
    the better vector is lost or found depending on the insertion order. *)
Definition big : Z := 0x7f61b1e6.
Definition minus_big : Z := 0xff61b1e6.

Theorem nan_score_hides_best :
  let search ops := (Flat.SearchFiltered (foldl run_index_op new_plane ops) [big; big] 1 None) in
  let nan := OpUpsert 1 [big; minus_big] in
  let best := OpUpsert 2 [f32_1; 0] in
  (∀ v, v ∈ [[big; big]; [big; minus_big]; [f32_1; 0]] → ValidateVector v 2 = Ok tt) ∧
  search [nan; best] = Ok [mkCandidate 1 0x7fc00000] ∧
  search [best; nan] = Ok [mkCandidate 2 big].
Proof.
  split; [|vm_compute; done].
  intros v Hv. apply (proj1 (Forall_forall (λ v, ValidateVector v 2 = Ok tt) _)) with (2 := Hv). repeat constructor.
Qed.

(** Candidates with equal scores are kept by internal ordinal, so which ids
    a truncated search returns depends on the order of insertion and not on
    the ids. *)
Theorem ties_follow_insertion :
  let docs := λ first second : string,
    foldl Collection.run_command (new_docs 1)
      [Collection.CUpsert (sample_record "n" first [f32_1; 0]) 5;
       Collection.CUpsert (sample_record "n" second [f32_1; 0]) 6] in
  let top := λ c : Collection.t Flat.t filter_index unit,
    result_ids (Collection.SearchFilteredWithEF c "n" [f32_1; 0] 1 None 0) in
  top (docs "a" "b") = Some ["a"] ∧ top (docs "b" "a") = Some ["b"].
Proof. vm_compute. done. Qed.
