(* ===== verification/Compaction.v ===== *)
(** * Compaction policy

    [internal/storage/compaction/policy.go]: which immutable segments of a
    shard are merged.  [Select] looks for the oldest run of [FanIn] segments
    of similar size, and when the shard has reached its segment limit falls
    back to the oldest ones that fit the byte budget.  Sizes are [uint64]
    values with their wrap-around written out. *)
From Stdlib Require Import ZArith Lia Ascii String.
From stdpp Require Import base tactics list.
From S2P Require Import Prelude.
Local Open Scope string_scope.
Local Open Scope Z_scope.
Local Open Scope list_scope.

Module Compaction.

Record Segment : Set := mkSegment { ID : string; MaxLSN : Z; SizeBytes : Z }.

Record Policy : Set := mkPolicy { FanIn : Z; SizeRatio : Z; MaxInputBytes : Z; MaxSegments : Z }.

Record Plan : Set := mkPlan { Inputs : list Segment; InputBytes : Z; Forced : bool }.

Definition DefaultPolicy : Policy := mkPolicy 4 4 (Z.shiftl 64 20) 8.

Definition exceedsRatio (value minimum ratio : Z) : bool :=
  (ratio <? value / minimum) || ((value / minimum =? ratio) && negb (value mod minimum =? 0)).

(** The inner loop: [taken] are the segments from [start] on, [bytes] their
    total. *)
Fixpoint take_run (p : Policy) (minimum : Z) (rest taken : list Segment) (bytes : Z) : option (list Segment * Z) :=
  match rest with
  | [] => None
  | s :: rest =>
      if negb (len taken <? FanIn p) then None
      else if exceedsRatio (SizeBytes s) minimum (SizeRatio p) || (u64 (MaxInputBytes p - bytes) <? SizeBytes s) then None
      else
        let bytes := u64 (bytes + SizeBytes s) in
        if len taken + 1 =? FanIn p then Some (taken ++ [s], bytes)
        else take_run p minimum rest (taken ++ [s]) bytes
  end.

(** The outer loop, over the suffixes of the ordered segments. *)
Fixpoint find_run (p : Policy) (ordered : list Segment) : option (list Segment * Z) :=
  match ordered with
  | [] => None
  | s :: rest =>
      match take_run p (Z.max 1 (SizeBytes s)) ordered [] 0 with
      | Some r => Some r
      | None => find_run p rest
      end
  end.

Fixpoint take_forced (p : Policy) (rest inputs : list Segment) (bytes : Z) : list Segment * Z :=
  match rest with
  | [] => (inputs, bytes)
  | s :: rest =>
      if (len inputs =? FanIn p) || (u64 (MaxInputBytes p - bytes) <? SizeBytes s) then (inputs, bytes)
      else take_forced p rest (inputs ++ [s]) (u64 (bytes + SizeBytes s))
  end.

Definition valid (p : Policy) : bool :=
  negb ((FanIn p <? 2) || (SizeRatio p <? 1) || (MaxInputBytes p =? 0) || (MaxSegments p <? FanIn p)).

Definition Select (p : Policy) (segments : list Segment) : res Plan :=
  if negb (valid p) then Err (Errorf "invalid compaction policy")
  else
    let ordered := sort_slice (by_key Z.ltb MaxLSN) segments in
    match find_run p ordered with
    | Some (inputs, bytes) => Ok (mkPlan inputs bytes false)
    | None =>
        if len ordered <? MaxSegments p then Ok (mkPlan [] 0 false)
        else
          let '(inputs, bytes) := take_forced p ordered [] 0 in
          if len inputs <? 2 then Err (Errorf "segment limit reached without a bounded compaction plan")
          else Ok (mkPlan inputs bytes true)
    end.

(** ** Lemmas *)

Definition total (l : list Segment) : Z := foldr (λ s n, SizeBytes s + n) 0 l.

Lemma total_app l k : total (l ++ k) = total l + total k.
Proof. induction l as [|s l IH]; simpl; lia. Qed.

(** The sizes and the budget are [uint64] values. *)
Definition in_range (p : Policy) (l : list Segment) : Prop :=
  0 ≤ MaxInputBytes p < two64 ∧ Forall (λ s, 0 ≤ SizeBytes s < two64) l.

(** More than [ratio] times [minimum]. *)
Lemma exceedsRatio_spec value minimum ratio :
  0 ≤ value → 0 < minimum → exceedsRatio value minimum ratio = (ratio * minimum <? value).
Proof.
  intros Hv Hm. unfold exceedsRatio. pose proof (Z.div_mod value minimum ltac:(lia)) as E.
  pose proof (Z.mod_pos_bound value minimum Hm) as Hr.
  destruct (Z.ltb_spec ratio (value / minimum)) as [H1|H1]; simpl.
  { symmetry. apply Z.ltb_lt. nia. }
  destruct (Z.eqb_spec (value / minimum) ratio) as [H2|H2]; simpl.
  - subst ratio. destruct (Z.eqb_spec (value mod minimum) 0); simpl; symmetry; [apply Z.ltb_ge|apply Z.ltb_lt]; lia.
  - symmetry. apply Z.ltb_ge. nia.
Qed.

(** The budget subtraction does not wrap, nor does the sum. *)
Lemma fits p bytes s :
  0 ≤ MaxInputBytes p < two64 → 0 ≤ bytes ≤ MaxInputBytes p → 0 ≤ SizeBytes s →
  (u64 (MaxInputBytes p - bytes) <? SizeBytes s) = false →
  u64 (bytes + SizeBytes s) = bytes + SizeBytes s ∧ 0 ≤ bytes + SizeBytes s ≤ MaxInputBytes p.
Proof.
  intros Hm Hb Hs H. rewrite u64_small in H by lia. apply Z.ltb_ge in H. split; [apply u64_small|]; lia.
Qed.

Lemma len_snoc {A} (l : list A) x : len (l ++ [x]) = len l + 1.
Proof. by rewrite len_app. Qed.

Lemma take_run_ok p minimum rest taken bytes r :
  in_range p rest → 0 < minimum → bytes = total taken → 0 ≤ bytes ≤ MaxInputBytes p →
  take_run p minimum rest taken bytes = Some r →
  ∃ run after, rest = run ++ after ∧ run ≠ [] ∧ r.1 = taken ++ run ∧ len r.1 = FanIn p ∧
    r.2 = total r.1 ∧ r.2 ≤ MaxInputBytes p ∧ Forall (λ s, SizeBytes s ≤ SizeRatio p * minimum) run.
Proof.
  revert taken bytes. induction rest as [|s rest IH]; intros taken bytes [Hm Hr] Hmin -> Hb; [done|]. cbn [take_run].
  apply Forall_cons in Hr as [Hs Hr]. destruct (negb _); [done|]. destruct (_ || _) eqn:E; [done|].
  apply orb_false_iff in E as [E1 E2]. rewrite exceedsRatio_spec in E1 by lia. apply Z.ltb_ge in E1.
  destruct (fits p _ s Hm Hb (proj1 Hs) E2) as [-> Hb'].
  assert (total taken + SizeBytes s = total (taken ++ [s])) as Et by (rewrite total_app; simpl; lia).
  destruct (Z.eqb_spec (len taken + 1) (FanIn p)) as [Hf|Hf].
  - intros [= <-]. exists [s], rest. simpl. rewrite len_snoc. split_and!; try done; try lia. by constructor.
  - intros H. destruct (IH (taken ++ [s]) _ (conj Hm Hr) Hmin Et Hb' H) as (run&after&->&_&H1&H2&H3&H4&H5).
    exists (s :: run), after. split_and!; try done; [by rewrite H1, <-app_assoc|by constructor].
Qed.

Lemma find_run_ok p l inputs bytes :
  in_range p l → find_run p l = Some (inputs, bytes) →
  ∃ before after, l = before ++ inputs ++ after ∧ len inputs = FanIn p ∧ bytes = total inputs ∧ bytes ≤ MaxInputBytes p ∧
    ∀ s, s ∈ inputs → ∃ oldest, head inputs = Some oldest ∧ SizeBytes s ≤ SizeRatio p * Z.max 1 (SizeBytes oldest).
Proof.
  induction l as [|s l IH]; intros Hr; [done|]. cbn [find_run]. destruct (take_run _ _ _ _ _) as [r|] eqn:E.
  - intros [= ->]. apply (take_run_ok _ _ _ _ _ _ Hr) in E as (run&after&Hl&Hne&H1&H2&H3&H4&H5); [|lia|done|].
    2: { destruct Hr as [? ?]. simpl. lia. }
    simpl in *. subst run. exists [], after. split_and!; try done. intros x Hx.
    destruct inputs as [|o inputs]; [done|]. exists o. split; [done|].
    assert (o = s) as -> by (simpl in Hl; congruence). rewrite Forall_forall in H5. by apply H5.
  - intros H. destruct Hr as [Hm Hr]. apply Forall_cons in Hr as [_ Hr].
    destruct (IH (conj Hm Hr) H) as (before&after&->&?). by exists (s :: before), after.
Qed.

Lemma take_forced_ok p rest inputs bytes :
  in_range p rest → bytes = total inputs → 0 ≤ bytes ≤ MaxInputBytes p → len inputs ≤ FanIn p →
  let r := take_forced p rest inputs bytes in
  ∃ taken after, rest = taken ++ after ∧ r.1 = inputs ++ taken ∧ len r.1 ≤ FanIn p ∧ r.2 = total r.1 ∧ r.2 ≤ MaxInputBytes p ∧
    (len r.1 = FanIn p ∨ match after with [] => True | s :: _ => MaxInputBytes p < r.2 + SizeBytes s end).
Proof.
  revert inputs bytes. induction rest as [|s rest IH]; intros inputs bytes [Hm Hr] -> Hb Hf; cbv zeta; cbn [take_forced].
  - exists [], []. simpl. split_and!; try done; [by rewrite app_nil_r|lia|by right].
  - apply Forall_cons in Hr as [Hs Hr]. destruct (_ || _) eqn:E.
    + exists [], (s :: rest). simpl. split_and!; try done; [by rewrite app_nil_r|lia|].
      apply orb_true_iff in E as [E|E]; [left; by apply Z.eqb_eq|right].
      rewrite u64_small in E by lia. apply Z.ltb_lt in E. lia.
    + apply orb_false_iff in E as [E1 E2]. apply Z.eqb_neq in E1.
      destruct (fits p _ s Hm Hb (proj1 Hs) E2) as [-> Hb'].
      destruct (IH (inputs ++ [s]) (total inputs + SizeBytes s)) as (taken&after&->&H1&H2&H3&H4&H5);
        [done|rewrite total_app; simpl; lia|lia|rewrite len_snoc; lia|].
      exists (s :: taken), after. split_and!; try done. by rewrite H1, <-app_assoc.
Qed.

(** ** The plan *)

(** A run of consecutive segments, oldest first. *)
Definition run_of (inputs segments : list Segment) : Prop :=
  ∃ before after, sort_slice (by_key Z.ltb MaxLSN) segments = before ++ inputs ++ after.

Lemma in_range_sort p segments : in_range p segments → in_range p (sort_slice (by_key Z.ltb MaxLSN) segments).
Proof. intros [? ?]. split; [done|]. by rewrite sort_slice_perm. Qed.

Lemma Select_run p segments plan :
  in_range p segments → Select p segments = Ok plan → Inputs plan ≠ [] → run_of (Inputs plan) segments.
Proof.
  intros Hr. unfold Select, run_of. destruct (negb (valid p)) eqn:Hv; [done|]. apply negb_false_iff in Hv.
  unfold valid in Hv. bool_props. apply in_range_sort in Hr. revert Hr.
  generalize (sort_slice (by_key Z.ltb MaxLSN) segments). intros l Hl.
  destruct (find_run p l) as [[inputs bytes]|] eqn:E.
  - intros [= <-] _. apply find_run_ok in E as (before&after&->&_); [|done]. by exists before, after.
  - destruct (_ <? _); [by intros [= <-]|].
    assert (0 ≤ MaxInputBytes p < two64) as Hm by apply Hl.
    destruct (take_forced_ok p l [] 0 Hl) as (taken&after&->&G1&_); [done|simpl; lia|unfold len; simpl; lia|].
    destruct (take_forced p (taken ++ after) [] 0) as [inputs bytes]. simpl in G1. subst inputs.
    destruct (_ <? _); [done|]. intros [= <-] _. by exists [], after.
Qed.

(** A plan merges at least two segments, unless there is room for more. *)
Lemma Select_shrinks p segments plan :
  valid p = true → in_range p segments → Select p segments = Ok plan →
  (Inputs plan = [] ∧ len segments < MaxSegments p) ∨ 2 ≤ len (Inputs plan).
Proof.
  intros Hv Hr. pose proof Hv as Hp. unfold valid in Hp. bool_props. unfold Select. rewrite Hv. cbn [negb].
  apply in_range_sort in Hr as Hs. pose proof (length_sort_slice (by_key Z.ltb MaxLSN) segments) as Hl.
  revert Hs Hl. generalize (sort_slice (by_key Z.ltb MaxLSN) segments). intros l Hs Hl.
  destruct (find_run p l) as [[inputs bytes]|] eqn:Ef.
  - intros [= <-]. right. apply find_run_ok in Ef as (before&after&->&G1&->&G2&G3); [|done]. cbn [Inputs]. lia.
  - destruct (Z.ltb_spec (len l) (MaxSegments p)) as [G|G].
    + intros [= <-]. left. split; [done|]. unfold len in *. lia.
    + destruct (take_forced p l [] 0) as [inputs bytes]. destruct (Z.ltb_spec (len inputs) 2); [done|]. intros [= <-]. by right.
Qed.

(** Selection is bounded.  A plan that merges anything merges a run of at
    least two and at most [FanIn] segments that are consecutive in LSN order,
    reports their exact total size, and stays within the byte budget; an
    ordinary plan takes exactly [FanIn] segments none of which is more than
    [SizeRatio] times its oldest, a forced one the oldest segments.  Selection
    fails under a valid policy only at the segment limit, when the two oldest
    segments do not fit the budget together. *)
Theorem select_bounded p segments :
  valid p = true → in_range p segments →
  match Select p segments with
  | Ok plan =>
      (Inputs plan = [] ∧ len segments < MaxSegments p) ∨
      (run_of (Inputs plan) segments ∧ 2 ≤ len (Inputs plan) ≤ FanIn p ∧
       InputBytes plan = total (Inputs plan) ∧ InputBytes plan ≤ MaxInputBytes p ∧
       if Forced plan then
         MaxSegments p ≤ len segments ∧ ∃ after, sort_slice (by_key Z.ltb MaxLSN) segments = Inputs plan ++ after
       else len (Inputs plan) = FanIn p ∧
         ∀ s, s ∈ Inputs plan → ∃ oldest, head (Inputs plan) = Some oldest ∧
           SizeBytes s ≤ SizeRatio p * Z.max 1 (SizeBytes oldest))
  | Err e =>
      MaxSegments p ≤ len segments ∧
      match sort_slice (by_key Z.ltb MaxLSN) segments with
      | a :: b :: _ => MaxInputBytes p < SizeBytes a + SizeBytes b
      | _ => False
      end
  end.
Proof.
  intros Hv Hr. pose proof Hv as Hp. unfold valid in Hp. bool_props.
  unfold Select. rewrite Hv. cbn [negb]. apply in_range_sort in Hr as Hs. pose proof (length_sort_slice (by_key Z.ltb MaxLSN) segments) as Hl.
  unfold run_of. revert Hs Hl. generalize (sort_slice (by_key Z.ltb MaxLSN) segments). intros l Hs Hl.
  assert (len l = len segments) as Hlen by (unfold len; lia).
  destruct (find_run p l) as [[inputs bytes]|] eqn:Ef.
  - right. apply find_run_ok in Ef as (before&after&->&G1&->&G2&G3); [|done]. cbn [Inputs InputBytes Forced].
    split_and!; try done; try lia. by exists before, after.
  - destruct (Z.ltb_spec (len l) (MaxSegments p)) as [G|G]; [left; split; [done|lia]|].
    destruct (take_forced_ok p l [] 0 Hs) as (taken&after&->&G1&G2&G3&G4&G5); [done|destruct Hs; lia|unfold len; simpl; lia|].
    destruct (take_forced p (taken ++ after) [] 0) as [inputs bytes]. simpl in *. subst inputs.
    destruct (Z.ltb_spec (len taken) 2) as [G6|G6].
    + split; [lia|]. destruct G5 as [G5|G5]; [lia|]. destruct Hs as [_ Hs]. rewrite len_app in *.
      destruct after as [|s after]; [unfold len in *; simpl in *; lia|].
      destruct taken as [|a [|b taken]]; [| |unfold len in G6; simpl in G6; lia].
      * simpl in *. destruct after as [|b after]; [unfold len in *; simpl in *; lia|].
        apply Forall_cons in Hs as [_ Hs]. apply Forall_cons in Hs as [? _]. lia.
      * simpl in *. lia.
    + right. cbn [Inputs InputBytes Forced]. split_and!; try done; try lia; [by exists [], after|by exists after].
Qed.

Definition sample_segments : list Segment :=
  (λ n, mkSegment "s" n 1000) <$> [5; 1; 4; 2; 3].

Lemma select_bounded_witness :
  ∃ plan, Select DefaultPolicy sample_segments = Ok plan ∧ InputBytes plan = 4000 ∧ MaxLSN <$> Inputs plan = [1; 2; 3; 4] ∧
    InputBytes plan ≤ MaxInputBytes DefaultPolicy.
Proof.
  pose proof (select_bounded DefaultPolicy sample_segments) as H.
  destruct (Select DefaultPolicy sample_segments) as [plan|] eqn:E; [|vm_compute in E; discriminate].
  exists plan. vm_compute in E. injection E as <-. split; [done|]. split; [done|]. split; [done|].
  destruct H as [[Hn _]|(_&_&_&Hb&_)]; [reflexivity| |discriminate|exact Hb].
  split; [vm_compute; split; [discriminate|done]|]. unfold two64.
  repeat (apply Forall_cons; split; [simpl; lia|]). by apply Forall_nil.
Defined.

End Compaction.
