(* ===== verification/Column.v ===== *)
(** * Column files

    [internal/storage/segmentfile]: the binary framing of the files of a
    checkpoint.  [bundle.go] writes record, vector, filter and tombstone
    columns with a 48-byte header, [segmentfile.go] the older combined
    segments with a 40-byte one; both carry a CRC-32 of the header fields and
    the payload.  Files are byte strings.  A file that is accepted is exactly
    the encoding of what it is read as, and no single damaged byte, missing
    tail or appended byte is accepted. *)
From Stdlib Require Import ZArith Lia Ascii String.
From stdpp Require Import base tactics list.
From S2P Require Import Prelude Wal.
Local Open Scope string_scope.
Local Open Scope Z_scope.
Local Open Scope list_scope.

Module Column.

Definition columnHeaderSize : Z := 48.
Definition recordMagic : list Z := [86; 82; 69; 67].
Definition vectorMagic : list Z := [86; 86; 69; 67].
Definition filterMagic : list Z := [86; 70; 76; 84].
Definition tombstoneMagic : list Z := [86; 84; 77; 66].

(** Versions 1 and 2 of the record column; the others have version 1. *)
Definition recordColumnVersion : Z := 1.
Definition namedRecordColumnVersion : Z := 2.

(** The header up to the checksum, from byte 4. *)
Definition header_fields (columnVersion dimension count maxLSN length : Z) : list Z :=
  le_bytes 2 columnVersion ++ [0; 0] ++ le_bytes 4 dimension ++ [0; 0; 0; 0] ++
  le_bytes 8 count ++ le_bytes 8 maxLSN ++ le_bytes 8 length.

(** [columnChecksum]: the header's bytes 4 to 40 and 44 to 48, then the
    payload. *)
Definition columnChecksum (header payload : list Z) : Z :=
  let value := crc32_Update 0 (sub_slice header 4 40) in
  let value := crc32_Update value (sub_slice header 44 48) in
  crc32_Update value payload.

(** What [writeVersionedColumn] hands to [writeAtomic]. *)
Definition versioned_column (magic : list Z) (columnVersion dimension count maxLSN : Z) (payload : list Z) : list Z :=
  let fields := header_fields columnVersion dimension count maxLSN (len payload) in
  let unsigned := magic ++ fields ++ [0; 0; 0; 0] ++ [0; 0; 0; 0] in
  magic ++ fields ++ le_bytes 4 (columnChecksum unsigned payload) ++ [0; 0; 0; 0] ++ payload.

Definition column (magic : list Z) (dimension count maxLSN : Z) (payload : list Z) : list Z :=
  versioned_column magic 1 dimension count maxLSN payload.

(** [readColumn] on the content of the file. *)
Definition readColumn (content expectedMagic : list Z) (expectedDimension : Z) : res (Z * Z * list Z) :=
  if len content <? columnHeaderSize then Err (IOError "unexpected EOF")
  else
    let header := slice_to content columnHeaderSize in
    if negb (bool_decide (slice_to header 4 = expectedMagic)) then Err (Errorf "invalid column magic")
    else
      let columnVersion := le_value (sub_slice header 4 6) in
      let supported := (columnVersion =? 1)
        || (bool_decide (expectedMagic = recordMagic) && (columnVersion =? namedRecordColumnVersion)) in
      if negb supported || negb (le_value (sub_slice header 6 8) =? 0)
         || negb (le_value (sub_slice header 12 16) =? 0) || negb (le_value (sub_slice header 44 48) =? 0) then
        Err (Errorf "unsupported column version, flags, or reserved fields")
      else if negb (le_value (sub_slice header 8 12) =? expectedDimension) then Err (Errorf "column dimension mismatch")
      else
        let length := le_value (sub_slice header 32 40) in
        if (2 ^ 63 - 1 <? length) || negb (length =? u64 (len content - columnHeaderSize)) then
          Err (Errorf "invalid column payload length")
        else
          let payload := slice_to (slice_from content columnHeaderSize) length in
          if negb (columnChecksum header payload =? le_value (sub_slice header 40 44)) then
            Err (Errorf "column checksum mismatch")
          else Ok (le_value (sub_slice header 16 24), le_value (sub_slice header 24 32), payload).

(** ** Combined segments *)

Definition segmentHeaderSize : Z := 40.
Definition segmentMagic : list Z := [86; 83; 69; 71].
Definition maximumPayload : Z := Z.shiftl 1 34.

Definition checksum (header payload : list Z) : Z :=
  let value := crc32_Update 0 (sub_slice header 4 32) in
  let value := crc32_Update value (sub_slice header 36 40) in
  crc32_Update value payload.

Definition segment_file (recordCount maxLSN : Z) (payload : list Z) : res (list Z) :=
  if maximumPayload <? len payload then Err (Errorf "segment payload exceeds maximum")
  else
    let fields := le_bytes 2 1 ++ [0; 0] ++ le_bytes 8 (len payload) ++ le_bytes 8 recordCount ++ le_bytes 8 maxLSN in
    let unsigned := segmentMagic ++ fields ++ [0; 0; 0; 0] ++ [0; 0; 0; 0] in
    Ok (segmentMagic ++ fields ++ le_bytes 4 (checksum unsigned payload) ++ [0; 0; 0; 0] ++ payload).

Definition read_segment (content : list Z) : res (Z * Z * list Z) :=
  if len content <? segmentHeaderSize then Err (Errorf "read segment header")
  else
    let header := slice_to content segmentHeaderSize in
    if negb (bool_decide (slice_to header 4 = segmentMagic)) then Err (Errorf "invalid segment magic")
    else if negb (le_value (sub_slice header 4 6) =? 1) || negb (le_value (sub_slice header 6 8) =? 0) then
      Err (Errorf "unsupported segment version or flags")
    else
      let length := le_value (sub_slice header 8 16) in
      if maximumPayload <? length then Err (Errorf "segment payload too large")
      else if 2 ^ 63 - 1 <? length then Err (Errorf "segment payload exceeds platform address space")
      else
        let rest := slice_from content segmentHeaderSize in
        if len rest <? length then Err (Errorf "read segment payload")
        else
          let payload := slice_to rest length in
          if length <? len rest then Err (Errorf "segment has trailing bytes")
          else if negb (le_value (sub_slice header 36 40) =? 0) then Err (Errorf "segment reserved field is nonzero")
          else if negb (checksum header payload =? le_value (sub_slice header 32 36)) then
            Err (Errorf "segment checksum mismatch")
          else Ok (le_value (sub_slice header 16 24), le_value (sub_slice header 24 32), payload).

(** ** Fields *)

Lemma le_bytes_value l n : length l = n → Forall is_byte l → le_bytes n (le_value l) = l.
Proof.
  intros <-. induction 1 as [|b l Hb Hl IH]; [done|]. cbn [length le_bytes le_value]. unfold is_byte in Hb.
  rewrite (Z.mul_comm 256), Z.mod_add, Z.mod_small, Z.div_add, Z.div_small by lia. by rewrite Z.add_0_l, IH.
Qed.

Lemma le_value_bound l : Forall is_byte l → 0 ≤ le_value l < 256 ^ len l.
Proof.
  unfold len. induction 1 as [|b l Hb Hl IH]; [simpl; lia|]. cbn [length le_value]. unfold is_byte in Hb.
  rewrite Nat2Z.inj_succ, Z.pow_succ_r by lia. lia.
Qed.

Lemma crc_fuse crc a b : crc32_Update (crc32_Update crc a) b = crc32_Update crc (a ++ b).
Proof.
  unfold crc32_Update. rewrite foldl_app. f_equal. f_equal. unfold crc_not.
  by rewrite Z.lxor_assoc, Z.lxor_nilpotent, Z.lxor_0_r.
Qed.

(** The bytes under the checksum. *)
Definition signed_bytes (fields payload : list Z) : list Z := fields ++ [0; 0; 0; 0] ++ payload.

Lemma length_header_fields v d c l n : length (header_fields v d c l n) = 36%nat.
Proof. reflexivity. Qed.

Lemma sub_app {A} (p q r : list A) a b :
  a = len p → b = len p + len q → sub_slice (p ++ q ++ r) a b = q.
Proof.
  intros -> ->. unfold sub_slice. rewrite slice_from_app.
  replace (len p + len q - len p) with (len q) by lia. apply slice_to_app.
Qed.

Lemma column_shape magic fields crc payload :
  len magic = 4 → len fields = 36 → len crc = 4 →
  let header := magic ++ fields ++ crc ++ [0; 0; 0; 0] in
  slice_to (magic ++ fields ++ crc ++ [0; 0; 0; 0] ++ payload) columnHeaderSize = header ∧
  slice_from (magic ++ fields ++ crc ++ [0; 0; 0; 0] ++ payload) columnHeaderSize = payload ∧
  slice_to header 4 = magic ∧ sub_slice header 40 44 = crc ∧ le_value (sub_slice header 44 48) = 0 ∧
  columnChecksum header payload = crc32_Update 0 (signed_bytes fields payload).
Proof.
  intros Hm Hf Hc. cbv zeta. set (header := magic ++ fields ++ crc ++ [0; 0; 0; 0]).
  assert (magic ++ fields ++ crc ++ [0; 0; 0; 0] ++ payload = header ++ payload) as ->
    by (unfold header; by rewrite <-!app_assoc).
  assert (columnHeaderSize = len header) as -> by (unfold header; rewrite !len_app, Hm, Hf, Hc; reflexivity).
  split; [apply slice_to_app|]. split; [apply slice_from_app|].
  assert (sub_slice header 44 48 = [0; 0; 0; 0]) as Hz.
  { replace header with ((magic ++ fields ++ crc) ++ [0; 0; 0; 0] ++ []) by (unfold header; rewrite <-!app_assoc; reflexivity).
    apply sub_app; rewrite !len_app, Hm, Hf, Hc; reflexivity. }
  split_and!.
  - unfold header. rewrite <-Hm. apply slice_to_app.
  - unfold header. rewrite app_assoc. apply sub_app; rewrite !len_app, Hm, Hf, ?Hc; reflexivity.
  - by rewrite Hz.
  - unfold columnChecksum. rewrite Hz. unfold header. rewrite (sub_app magic fields) by lia.
    rewrite !crc_fuse. unfold signed_bytes. by rewrite ?app_assoc.
Qed.

Record fields_ok (magic : list Z) (columnVersion dimension count maxLSN : Z) (payload : list Z) : Prop := mkFieldsOk {
  fo_magic : len magic = 4;
  fo_magic_bytes : Forall is_byte magic;
  fo_version : columnVersion = 1 ∨ magic = recordMagic ∧ columnVersion = namedRecordColumnVersion;
  fo_dimension : 0 ≤ dimension < 2 ^ 32;
  fo_count : 0 ≤ count < two64;
  fo_lsn : 0 ≤ maxLSN < two64;
  fo_payload : Forall is_byte payload;
  fo_length : len payload < 2 ^ 63;
}.

Lemma magic_ok m : m ∈ [recordMagic; vectorMagic; filterMagic; tombstoneMagic] → len m = 4 ∧ Forall is_byte m.
Proof.
  intros H. repeat (apply elem_of_cons in H as [->|H]; [split; [done|]|]); [..|by apply not_elem_of_nil in H];
    repeat (apply List.Forall_cons; [unfold is_byte; lia|]); apply List.Forall_nil.
Qed.

(** The encoding, split where it is read. *)
Lemma versioned_column_split magic v d c l payload :
  len magic = 4 → versioned_column magic v d c l payload =
  magic ++ header_fields v d c l (len payload) ++
    le_bytes 4 (crc32_Update 0 (signed_bytes (header_fields v d c l (len payload)) payload)) ++ [0; 0; 0; 0] ++ payload.
Proof.
  intros Hm. unfold versioned_column. cbv zeta. do 3 f_equal.
  by destruct (column_shape magic (header_fields v d c l (len payload)) [0; 0; 0; 0] payload)
    as (_&_&_&_&_&->).
Qed.

Lemma header_slices magic v d c l n crc :
  len magic = 4 →
  let header := magic ++ header_fields v d c l n ++ crc ++ [0; 0; 0; 0] in
  sub_slice header 4 6 = le_bytes 2 v ∧ sub_slice header 6 8 = [0; 0] ∧ sub_slice header 8 12 = le_bytes 4 d ∧
  sub_slice header 12 16 = [0; 0; 0; 0] ∧ sub_slice header 16 24 = le_bytes 8 c ∧
  sub_slice header 24 32 = le_bytes 8 l ∧ sub_slice header 32 40 = le_bytes 8 n.
Proof.
  intros Hm. cbv zeta. destruct magic as [|m0 [|m1 [|m2 [|m3 [|m4 magic]]]]]; try (unfold len in Hm; simpl in Hm; lia).
  unfold header_fields. repeat split.
Qed.

Lemma readColumn_encoded magic v d c l payload :
  fields_ok magic v d c l payload → readColumn (versioned_column magic v d c l payload) magic d = Ok (c, l, payload).
Proof.
  intros [Hm Hmb Hv Hd Hc Hl Hp Hn]. pose proof (len_nonneg payload). rewrite versioned_column_split by done.
  set (fields := header_fields v d c l (len payload)). set (crc := crc32_Update 0 (signed_bytes fields payload)).
  destruct (column_shape magic fields (le_bytes 4 crc) payload) as (H1&H2&H3&H4&H5&H6); [done|done|done|].
  unfold readColumn. cbv zeta. rewrite H1, H2, H3, H4, H5.
  destruct (header_slices magic v d c l (len payload) (le_bytes 4 crc) Hm) as (E1&E2&E3&E4&E5&E6&E7). fold fields in E1, E2, E3, E4, E5, E6, E7.
  rewrite E1, E2, E3, E4, E5, E6, E7.
  assert (len (magic ++ fields ++ le_bytes 4 crc ++ [0; 0; 0; 0] ++ payload) = 48 + len payload) as Hlen.
  { rewrite !len_app, Hm. change (len fields) with 36. change (len (le_bytes 4 crc)) with 4. change (len [0; 0; 0; 0]) with 4. lia. }
  rewrite Hlen, (proj2 (Z.ltb_ge _ _)) by (unfold columnHeaderSize; lia). rewrite bool_decide_eq_true_2 by done. cbn [negb].
  rewrite !le_value_bytes by (unfold two64 in *; destruct Hv as [->|[_ ->]]; unfold namedRecordColumnVersion; lia).
  assert ((v =? 1) || (bool_decide (magic = recordMagic) && (v =? namedRecordColumnVersion)) = true) as ->.
  { destruct Hv as [->|[-> ->]]; [done|]. by rewrite bool_decide_eq_true_2 by done. }
  cbn [negb orb le_value]. rewrite !Z.eqb_refl. cbn [negb orb]. rewrite (proj2 (Z.ltb_ge _ _)) by lia.
  replace (48 + len payload - columnHeaderSize) with (len payload) by (unfold columnHeaderSize; lia).
  rewrite u64_small, Z.eqb_refl by (unfold two64; lia). cbn [negb orb].
  assert (slice_to payload (len payload) = payload) as ->.
  { unfold slice_to, len. rewrite Nat2Z.id. apply firstn_all. }
  rewrite H6. fold crc. assert (0 ≤ crc < 2 ^ 32) as Hcrc.
  { apply crc32_bound; [lia|]. unfold signed_bytes, fields, header_fields.
    rewrite !Forall_app. split_and!; try apply le_bytes_valid; try done; repeat constructor; unfold is_byte; lia. }
  rewrite (le_value_bytes 4 crc Hcrc), Z.eqb_refl. cbn [negb].
  rewrite (le_value_bytes 8 c Hc), (le_value_bytes 8 l Hl). reflexivity.
Qed.

Lemma sub_cat {A} (l : list A) a b c : 0 ≤ a ≤ b → b ≤ c → sub_slice l a b ++ sub_slice l b c = sub_slice l a c.
Proof.
  intros H1 H2. unfold sub_slice, slice_to, slice_from.
  replace (Z.to_nat b) with (Z.to_nat a + Z.to_nat (b - a))%nat by lia.
  rewrite <-drop_drop, take_take_drop. f_equal. lia.
Qed.

Lemma sub_header {A} (l : list A) n a b : 0 ≤ a → b ≤ n → sub_slice (slice_to l n) a b = sub_slice l a b.
Proof.
  intros Ha Hb. unfold sub_slice, slice_to, slice_from. rewrite skipn_firstn_comm, take_take. f_equal. lia.
Qed.

Lemma len_sub {A} (l : list A) a b : 0 ≤ a ≤ b → b ≤ len l → length (sub_slice l a b) = Z.to_nat (b - a).
Proof.
  intros H1 H2. unfold sub_slice, slice_to, slice_from, len in *. rewrite length_take, length_drop. lia.
Qed.

Lemma sub_bytes (l : list Z) a b : Forall is_byte l → Forall is_byte (sub_slice l a b).
Proof. intros H. by apply Forall_take, Forall_drop. Qed.

(** Reading a field and writing it gives its bytes back. *)
Lemma field_bytes (l : list Z) a b n :
  Forall is_byte l → 0 ≤ a ≤ b → b ≤ len l → n = Z.to_nat (b - a) → le_bytes n (le_value (sub_slice l a b)) = sub_slice l a b.
Proof. intros Hl H1 H2 ->. apply le_bytes_value; [by apply len_sub|by apply sub_bytes]. Qed.

Lemma zero_field (l : list Z) a b n :
  Forall is_byte l → 0 ≤ a ≤ b → b ≤ len l → n = Z.to_nat (b - a) → le_value (sub_slice l a b) = 0 →
  sub_slice l a b = replicate n 0.
Proof.
  intros Hl H1 H2 Hn H0. rewrite <-(field_bytes l a b n), H0 by done. clear. induction n as [|n IH]; [done|].
  cbn [le_bytes replicate]. by rewrite Zmod_0_l, Zdiv_0_l, IH.
Qed.

(** A file is accepted only as the encoding of what is read from it. *)
Lemma readColumn_sound content magic d c l payload :
  Forall is_byte content → len magic = 4 → readColumn content magic d = Ok (c, l, payload) → len content < two64 →
  ∃ v, content = versioned_column magic v d c l payload.
Proof.
  intros Hb Hm. unfold readColumn. cbv zeta. destruct (Z.ltb_spec (len content) columnHeaderSize) as [|Hlen]; [done|].
  unfold columnHeaderSize in *. change (slice_to (slice_to content 48) 4) with (sub_slice (slice_to content 48) 0 4).
  rewrite !sub_header by lia.
  destruct (bool_decide _) eqn:Em; [|done]. apply bool_decide_eq_true in Em. cbn [negb].
  destruct (_ || _) eqn:Eu; [done|]. bool_props. destruct (negb _) eqn:Ed; [done|]. bool_props.
  destruct (_ || _) eqn:El; [done|]. bool_props. destruct (negb _) eqn:Ec; [done|]. bool_props.
  intros [= <- <- <-] Hmax.
  set (p := slice_from content 48) in *.
  assert (len p = len content - 48) as Lp by (apply len_slice_from; lia).
  rewrite u64_small in H4 by lia.
  assert (slice_to p (le_value (sub_slice content 32 40)) = p) as Ep.
  { rewrite H4, <-Lp. unfold slice_to, len. rewrite Nat2Z.id. apply firstn_all. }
  rewrite Ep in Ec |- *. exists (le_value (sub_slice content 4 6)). rewrite versioned_column_split by done.
  assert (header_fields (le_value (sub_slice content 4 6)) d (le_value (sub_slice content 16 24))
    (le_value (sub_slice content 24 32)) (len p) = sub_slice content 4 40) as ->.
  { unfold header_fields. rewrite Lp, <-H4, <-Ed, !field_bytes by (done || lia).
    change [0; 0; 0; 0] with (replicate 4 0). change [0; 0] with (replicate 2 0).
    rewrite <-(zero_field content 6 8 2), <-(zero_field content 12 16 4) by (done || lia). by rewrite !sub_cat by lia. }
  assert (content = sub_slice content 0 4 ++ sub_slice content 4 40 ++ sub_slice content 40 44 ++ [0; 0; 0; 0] ++ p) as Hsplit.
  { change [0; 0; 0; 0] with (replicate 4 0). rewrite <-(zero_field content 44 48 4) by (done || lia).
    rewrite !app_assoc, !sub_cat by lia. symmetry. apply take_drop. }
  assert (slice_to content 48 = sub_slice content 0 4 ++ sub_slice content 4 40 ++ sub_slice content 40 44 ++ [0; 0; 0; 0]) as Hhead.
  { change [0; 0; 0; 0] with (replicate 4 0). rewrite <-(zero_field content 44 48 4) by (done || lia).
    by rewrite !app_assoc, !sub_cat by lia. }
  assert (∀ a b, 0 ≤ a ≤ b → b ≤ 48 → len (sub_slice content a b) = b - a) as Hs.
  { intros a b ? ?. unfold len. rewrite len_sub by lia. lia. }
  rewrite Hhead, Em in Ec.
  destruct (column_shape magic (sub_slice content 4 40) (sub_slice content 40 44) p) as (_&_&_&_&_&Hcheck); [done|by apply Hs..|].
  rewrite Hcheck in Ec. rewrite Ec, field_bytes by (done || lia). by rewrite <-Em.
Qed.

(** ** Damage *)

(** The bytes a file carries: everything but the checksum. *)
Lemma one_byte_apart {A} (l l' k k' m m' : list A) i v :
  <[i := v]> (l ++ k ++ m) = l' ++ k' ++ m' → length l = length l' → length k = length k' →
  (i < length (l ++ k ++ m))%nat → (l ++ k ++ m) !! i ≠ Some v →
  (k = k' ∧ ∃ p x q, l ++ m = p ++ x :: q ∧ l' ++ m' = p ++ v :: q ∧ x ≠ v) ∨ (k ≠ k' ∧ l ++ m = l' ++ m').
Proof.
  intros E Hl Hk Hi Hv. destruct (lookup_lt_is_Some_2 _ _ Hi) as [x Hx]. rewrite Hx in Hv.
  assert (x ≠ v) as Hxv by congruence. clear Hv.
  destruct (decide (i < length l)%nat) as [H1|H1].
  - left. rewrite insert_app_l in E by done. rewrite lookup_app_l in Hx by done.
    apply app_inj_1 in E as [E1 E2]; [|by rewrite length_insert]. apply app_inj_1 in E2 as [-> ->]; [|done].
    split; [done|]. exists (take i l), x, (drop (S i) l ++ m'). rewrite <-E1, insert_take_drop by done.
    rewrite <-(take_drop_middle l i x Hx) at 1. rewrite <-!app_assoc. done.
  - destruct (decide (i - length l < length k)%nat) as [H2|H2].
    + right. replace i with (length l + (i - length l))%nat in E, Hx by lia.
      rewrite insert_app_r, insert_app_l in E by done.
      rewrite lookup_app_r, lookup_app_l in Hx by lia. replace (length l + (i - length l) - length l)%nat with (i - length l)%nat in Hx by lia.
      apply app_inj_1 in E as [-> E]; [|done]. apply app_inj_1 in E as [E ->]; [|by rewrite length_insert].
      split; [|done]. intros <-. apply Hxv. assert (k !! (i - length l')%nat = Some v) as Hv; [|congruence].
      rewrite <-E at 1. by apply list_lookup_insert_eq.
    + left. rewrite !length_app in Hi. replace i with (length l + (length k + (i - length l - length k)))%nat in E, Hx by lia.
      rewrite !insert_app_r in E. rewrite !lookup_app_r in Hx by lia.
      replace (length l + (length k + (i - length l - length k)) - length l - length k)%nat with (i - length l - length k)%nat in Hx by lia.
      apply app_inj_1 in E as [-> E]; [|done]. apply app_inj_1 in E as [-> <-]; [|done].
      split; [done|]. set (j := (i - length l' - length k')%nat) in *. exists (l' ++ take j m), x, (drop (S j) m).
      rewrite insert_take_drop by (apply lookup_lt_Some in Hx; done). rewrite <-!app_assoc.
      by rewrite (take_drop_middle m j x Hx).
Qed.

Lemma le_bytes_inj n x y : 0 ≤ x < 256 ^ Z.of_nat n → 0 ≤ y < 256 ^ Z.of_nat n → le_bytes n x = le_bytes n y → x = y.
Proof. intros Hx Hy E. rewrite <-(le_value_bytes n x Hx), <-(le_value_bytes n y Hy). congruence. Qed.

Lemma signed_bytes_valid v d c l n payload : Forall is_byte payload → Forall is_byte (signed_bytes (header_fields v d c l n) payload).
Proof.
  intros Hp. unfold signed_bytes, header_fields.
  rewrite !Forall_app. split_and!; try apply le_bytes_valid; try done; repeat constructor; unfold is_byte; lia.
Qed.

Lemma column_bytes magic v d c l payload : fields_ok magic v d c l payload → Forall is_byte (versioned_column magic v d c l payload).
Proof.
  intros H. rewrite versioned_column_split by apply H. pose proof (signed_bytes_valid v d c l (len payload) payload (fo_payload _ _ _ _ _ _ H)) as Hs.
  unfold signed_bytes in Hs. rewrite !Forall_app in *. destruct Hs as (?&?&?). split_and!; try done; [apply H|apply le_bytes_valid].
Qed.

Lemma length_column magic v d c l payload : len magic = 4 → len (versioned_column magic v d c l payload) = 48 + len payload.
Proof.
  intros Hm. rewrite versioned_column_split by done. rewrite !len_app, Hm.
  change (len (header_fields v d c l (len payload))) with 36. change (len (le_bytes 4 _)) with 4. change (len [0; 0; 0; 0]) with 4. lia.
Qed.

(** A column is not a proper prefix of another. *)
Lemma column_prefix magic v d c l payload v' c' l' payload' extra :
  len magic = 4 → len payload < two64 → len payload' < two64 →
  versioned_column magic v d c l payload = versioned_column magic v' d c' l' payload' ++ extra → extra = [].
Proof.
  intros Hm Hp Hp' E. apply len_zero. pose proof (f_equal len E) as El. rewrite len_app, !length_column in El by done.
  rewrite !versioned_column_split in E by done. rewrite <-!app_assoc in E.
  apply app_inv_head in E. apply app_inj_1 in E as [E _]; [|done]. unfold header_fields in E.
  repeat (apply app_inj_1 in E as [_ E]; [|done]). apply le_bytes_inj in E; [lia| |];
    (split; [apply len_nonneg|]); unfold two64 in *; done.
Qed.

(** C39. Damage to a column file is detected.  A column reads back as what was
    written, and reading it fails when any one of its bytes - header, checksum
    or payload - is changed, when its tail is missing, or when anything is
    appended. *)
Theorem column_damage_detected magic v d c l payload :
  fields_ok magic v d c l payload →
  let file := versioned_column magic v d c l payload in
  readColumn file magic d = Ok (c, l, payload) ∧
  (∀ i b, (i < length file)%nat → is_byte b → file !! i ≠ Some b → is_ok (readColumn (<[i := b]> file) magic d) = false) ∧
  (∀ n, (n < length file)%nat → is_ok (readColumn (take n file) magic d) = false) ∧
  (∀ extra, extra ≠ [] → Forall is_byte extra → len extra < 2 ^ 62 → is_ok (readColumn (file ++ extra) magic d) = false).
Proof.
  intros Hf. cbv zeta. pose proof (column_bytes _ _ _ _ _ _ Hf) as Hb. pose proof (fo_magic _ _ _ _ _ _ Hf) as Hm.
  pose proof (length_column magic v d c l payload Hm) as Hlen. pose proof (fo_length _ _ _ _ _ _ Hf) as Hn.
  assert (∀ content r, Forall is_byte content → len content < two64 → readColumn content magic d = Ok r →
    ∃ v', content = versioned_column magic v' d r.1.1 r.1.2 r.2) as Hsound.
  { intros content [[c' l'] p'] Hc Hl H. by apply readColumn_sound in H. }
  split; [by apply readColumn_encoded|]. split_and!.
  - intros i b Hi Hbb Hne. destruct (readColumn _ magic d) as [r|] eqn:E; [exfalso|done].
    apply Hsound in E as [v' E]; [|by apply Forall_insert|unfold len in *; rewrite length_insert; unfold two64; lia].
    destruct r as [[c' l'] p']. simpl in E. pose proof (f_equal len E) as El. rewrite length_column in El by done.
    unfold len in El. rewrite length_insert in El. fold (len (versioned_column magic v d c l payload)) (len p') in El. rewrite Hlen in El.
    assert (Forall is_byte p') as Hp'.
    { assert (Forall is_byte (<[i:=b]> (versioned_column magic v d c l payload))) as Hi' by (by apply Forall_insert).
      rewrite E, versioned_column_split in Hi' by done. rewrite !Forall_app in Hi'. tauto. }
    rewrite !versioned_column_split in * by done. rewrite (app_assoc magic) in *. rewrite (app_assoc magic (header_fields v' _ _ _ _)) in E.
    pose proof (signed_bytes_valid v d c l (len payload) payload (fo_payload _ _ _ _ _ _ Hf)) as Hs.
    pose proof (signed_bytes_valid v' d c' l' (len p') p' Hp') as Hs'.
    apply one_byte_apart in E as [[Ec (q&x&r&E1&E2&Hx)]|[Ec E1]]; [| |by rewrite !length_app|done|done|done].
    + apply le_bytes_inj in Ec; [|by apply crc32_bound..]. unfold signed_bytes in *. rewrite <-app_assoc in E1, E2.
      set (A := header_fields v d c l (len payload) ++ [0; 0; 0; 0] ++ payload) in *.
      set (B := header_fields v' d c' l' (len p') ++ [0; 0; 0; 0] ++ p') in *.
      assert (∃ q0, q = magic ++ q0) as [q0 ->].
      { destruct (Z.le_gt_cases 4 (len q)) as [Hq|Hq].
        - exists (slice_from q 4). assert (magic = slice_to q 4) as -> by (apply (f_equal (λ l, slice_to l 4)) in E1;
            unfold slice_to in *; rewrite take_app_le in E1 by (unfold len in *; lia); rewrite (take_ge magic) in E1 by (unfold len in *; lia);
            rewrite E1; rewrite take_app_le by (unfold len in *; lia); done).
          symmetry. apply take_drop.
        - exfalso. apply Hx. apply (f_equal (λ l, l !! length q)) in E1, E2.
          rewrite lookup_app_l in E1, E2 by (unfold len in *; lia). rewrite list_lookup_middle in E1, E2 by done. congruence. }
      rewrite <-app_assoc in E1, E2. apply app_inv_head in E1, E2. rewrite E1, E2 in *. apply Hx.
      rewrite !Forall_app, !Forall_cons in Hs, Hs'. destruct Hs as (?&?&?), Hs' as (?&?&?).
      by apply (crc32_one_byte 0 q0 x b r).
    + apply Ec. rewrite <-!app_assoc in E1. apply app_inv_head in E1. unfold signed_bytes. by rewrite E1.
  - intros n Hi. destruct (readColumn _ magic d) as [r|] eqn:E; [exfalso|done].
    apply Hsound in E as [v' E]; [|by apply Forall_take|unfold len in *; rewrite length_take; unfold two64; lia].
    destruct r as [[c' l'] p']. simpl in E. pose proof (take_drop n (versioned_column magic v d c l payload)) as Et.
    rewrite E in Et. pose proof (f_equal len Et) as El. rewrite len_app, !length_column in El by done.
    pose proof (len_nonneg (drop n (versioned_column magic v d c l payload))).
    symmetry in Et. apply column_prefix in Et; [|done|unfold two64; lia..].
    apply (f_equal length) in Et. rewrite length_drop in Et. simpl in Et. lia.
  - intros extra Hne He Hl. destruct (readColumn _ magic d) as [r|] eqn:E; [exfalso|done].
    apply Hsound in E as [v' E]; [|by apply Forall_app|rewrite len_app; unfold two64; lia].
    destruct r as [[c' l'] p']. simpl in E. pose proof (f_equal len E) as El. rewrite len_app, !length_column in El by done.
    pose proof (len_nonneg extra).
    symmetry in E. by apply column_prefix in E; [|done|unfold two64; lia..].
Qed.

Lemma column_damage_detected_witness :
  let file := column tombstoneMagic 0 1 7 [91; 93] in
  readColumn file tombstoneMagic 0 = Ok (1, 7, [91; 93]) ∧ is_ok (readColumn (<[26%nat := 1]> file) tombstoneMagic 0) = false.
Proof.
  assert (fields_ok tombstoneMagic 1 0 1 7 [91; 93]) as Hf.
  { constructor; try (unfold two64; lia); try done; try (left; reflexivity);
      repeat (apply List.Forall_cons; [unfold is_byte; lia|]); apply List.Forall_nil. }
  destruct (column_damage_detected _ _ _ _ _ _ Hf) as (H1&H2&_). cbv zeta in *. split; [exact H1|].
  apply H2; [vm_compute; lia|unfold is_byte; lia|vm_compute; discriminate].
Defined.
End Column.
