(* ===== verification/Json.v ===== *)
(** * JSON through encoding/json

    Files and log payloads hold JSON documents.  [Json A] is the interface of
    [encoding/json] for a type: the text [json.Marshal] produces and what
    [json.Unmarshal] reads from a text.  [JsonSpec A through] states what the
    program relies on: a marshalled value is bytes, whose number is an [int],
    and reads back as [through] of it, the value JSON can represent.  [through] is spelled out
    per type below; it changes integers and [float32] values held in an [any]
    to [float64] and replaces invalid UTF-8. *)
From Stdlib Require Import ZArith Lia Ascii String.
From stdpp Require Import base tactics list gmap strings.
From S2P Require Import Prelude Wal Core Float Persistence.
Local Set Warnings "-register-all".
Local Open Scope string_scope.
Local Open Scope Z_scope.
Local Open Scope list_scope.

Class Json (A : Type) := { json_Marshal : A → res (list Z); json_Unmarshal : list Z → res A }.

Class JsonSpec (A : Type) `{!Json A} (through : A → A) : Prop := {
  json_bytes x b : json_Marshal x = Ok b → Forall is_byte b;
  json_length x b : json_Marshal x = Ok b → len b < 2 ^ 63;
  json_roundtrip x b : json_Marshal x = Ok b → json_Unmarshal b = Ok (through x);
}.

(** ** Values *)

Fixpoint json_any (v : any) : any :=
  match v with
  | Int_ n => Number (f64_of_int n)
  | Float32 b => Number (json_float32 b)
  | Text_ s => Text_ (json_string s)
  | Array items => Array (map json_any items)
  | Object fields => Object (map (λ kv, (json_string kv.1, json_any kv.2)) fields)
  | _ => v
  end.

(** A Go map is written in key order and read back key by key. *)
Definition json_map {A} (through : A → A) (m : gmap string A) : gmap string A :=
  foldl (λ r kv, <[json_string kv.1 := through kv.2]> r) ∅
    (sort_slice (λ a b, str_ltb a.1 b.1) (map_to_list m)).

(** ** Records *)

(** [storedRecord]: a record without its vector. *)
Record storedRecord : Set := mkStored {
  st_ID : string;
  st_SparseVector : gmap string Z;
  st_Metadata : gmap string any;
  st_Payload : gmap string any;
  st_Timestamp : Z;
  st_Version : Z;
  st_Namespace : string;
  st_Text : string;
  st_Vectors : gmap string (list Z);
  st_MultiVectors : gmap string (list (list Z));
}.

Definition store_record (r : CoreRecord) : storedRecord :=
  mkStored (ID r) (SparseVector r) (Metadata r) (Payload r) (Timestamp r) (Version r) (Namespace r) (Text r)
    (rec_Vectors r) (MultiVectors r).

(** [storedRecord.record] *)
Definition record (s : storedRecord) (vector : list Z) : CoreRecord :=
  mkCoreRecord (st_ID s) vector (st_SparseVector s) (st_Metadata s) (st_Payload s) (st_Timestamp s) (st_Version s)
    (st_Namespace s) (st_Text s) (st_Vectors s) (st_MultiVectors s).

Definition json_stored (s : storedRecord) : storedRecord :=
  mkStored (json_string (st_ID s)) (json_map id (st_SparseVector s)) (json_map json_any (st_Metadata s))
    (json_map json_any (st_Payload s)) (st_Timestamp s) (st_Version s) (json_string (st_Namespace s))
    (json_string (st_Text s)) (json_map id (st_Vectors s)) (json_map id (st_MultiVectors s)).

Definition json_record (r : CoreRecord) : CoreRecord := record (json_stored (store_record r)) (Vector r).

Lemma record_store r : record (store_record r) (Vector r) = r.
Proof. by destruct r. Qed.

(** A record JSON leaves alone, with a key it leaves alone. *)
Definition stable_record (r : CoreRecord) : Prop :=
  json_stored (store_record r) = store_record r ∧
  json_string (Namespace r +:+ String "000" (ID r)) = Namespace r +:+ String "000" (ID r).

Lemma json_record_stable r : stable_record r → json_record r = r.
Proof. intros [H _]. unfold json_record. rewrite H. apply record_store. Qed.
