(* ===== verification/SegmentFiles.v ===== *)
(** * Segment files of a shard

    [internal/storage/segmentfile] and [internal/engine/multisegment.go]: the
    manifest of a shard's directory, the record, vector, filter and tombstone
    columns it names, writing them atomically, reading them back, merging the
    segments of a view, and compacting them.

    A directory is a map from file names to their bytes.  Every call of the
    operating system consumes one outcome: it succeeds, or it reports a
    failure having changed nothing, or - for [writeAtomic], after the rename -
    having replaced the file.  A crash at any point leaves the directory as
    one of these failures does, since every error makes the caller return. *)
From Stdlib Require Import ZArith Lia Ascii String.
From stdpp Require Import base tactics list gmap strings.
From S2P Require Import Prelude Wal Core Float Distance TopK Index Segment Shard Persistence Json Column Compaction.
Local Open Scope string_scope.
Local Open Scope Z_scope.
Local Open Scope list_scope.

(** ** Input and output *)

Inductive fault : Set := Done | FailedBefore | FailedAfter.

Record disk : Set := mkDisk { files : gmap string (list Z); faults : list fault }.

Definition IO (A : Type) : Type := disk → disk * res A.

Definition io_ret {A} (a : A) : IO A := λ d, (d, Ok a).
Definition io_fail {A} (e : error) : IO A := λ d, (d, Err e).
Definition io_bind {A B} (m : IO A) (k : A → IO B) : IO B :=
  λ d, match m d with (d', Ok a) => k a d' | (d', Err e) => (d', Err e) end.
Definition io_res {A} (r : res A) : IO A := λ d, (d, r).

Notation "'let*' x := m 'in' k" := (io_bind m (λ x, k)) (at level 10, x name, k at level 200) : gideon_scope.
Notation "'let*' ' p := m 'in' k" := (io_bind m (λ p, k)) (at level 10, p strict pattern, k at level 200) : gideon_scope.

Definition next_fault (d : disk) : fault * disk :=
  match faults d with [] => (Done, d) | f :: rest => (f, mkDisk (files d) rest) end.

Definition io_error : error := IOError "input/output error".
Definition not_exist : error := IOError "file does not exist".

(** [errors.Is(err, os.ErrNotExist)] *)
Definition is_not_exist (e : error) : bool := bool_decide (e = not_exist).

(** [os.ReadFile] and [os.Open] followed by reads. *)
Definition readFile (name : string) : IO (list Z) := λ d,
  let '(f, d) := next_fault d in
  match f with
  | Done => (d, match files d !! name with Some content => Ok content | None => Err not_exist end)
  | _ => (d, Err io_error)
  end.

(** The size [os.Stat] reports. *)
Definition statSize (name : string) : IO Z := let* content := readFile name in io_ret (len content).

Definition writeAtomic (name : string) (data : list Z) : IO unit := λ d,
  let '(f, d) := next_fault d in
  match f with
  | Done => (mkDisk (<[name := data]> (files d)) (faults d), Ok tt)
  | FailedBefore => (d, Err io_error)
  | FailedAfter => (mkDisk (<[name := data]> (files d)) (faults d), Err io_error)
  end.

(** [os.Remove], ignoring a file that is not there. *)
Definition removeFile (name : string) : IO unit := λ d,
  let '(f, d) := next_fault d in
  match f with
  | Done => (mkDisk (delete name (files d)) (faults d), Ok tt)
  | _ => (d, Err io_error)
  end.

Definition readDir : IO (list string) := λ d,
  let '(f, d) := next_fault d in
  match f with
  | Done => (d, Ok (sort_slice str_ltb (map_to_list (files d)).*1))
  | _ => (d, Err io_error)
  end.

(** ** Names *)

Fixpoint has_char (c : ascii) (s : string) : bool :=
  match s with EmptyString => false | String x rest => Ascii.eqb x c || has_char c rest end.

Definition HasPrefix (s prefix : string) : bool := String.prefix prefix s.

Fixpoint HasSuffix (s suffix : string) : bool :=
  String.eqb s suffix || match s with EmptyString => false | String _ rest => HasSuffix rest suffix end.

(** [filepath.Ext]: from the last dot of the last element. *)
Fixpoint Ext (s : string) : string :=
  match s with
  | EmptyString => ""
  | String c rest =>
      match Ext rest with
      | EmptyString => if Ascii.eqb c "." && negb (has_char "/" rest) then s else ""
      | e => e
      end
  end.

(** [filepath.Base(value) == value], and not a directory reference. *)
Definition safeBase (value : string) : bool :=
  (negb (String.eqb value "") && (negb (has_char "/" value) || String.eqb value "/"))
  && negb (String.eqb value ".") && negb (String.eqb value "..").

Fixpoint decimal (digits : nat) (n : Z) (rest : string) : string :=
  match digits with
  | O => rest
  | S digits => decimal digits (n / 10) (String (ascii_of_N (48 + Z.to_N (n mod 10))) rest)
  end.

(** [%020d] of a [uint64]. *)
Definition fmt_020d (n : Z) : string := decimal 20 n "".

(** ** Manifests *)

Record SegmentRef : Set := mkRef {
  ref_RecordsFile : string;
  ref_VectorsFile : string;
  ref_GraphFile : string;
  ref_FilterFile : string;
  ref_TombstonesFile : string;
  ref_Dimension : Z;
  ref_MaxLSN : Z;
  ref_RecordCount : Z;
  ref_SizeBytes : Z;
}.

Record Manifest : Set := mkManifest {
  Format : Z;
  SegmentFile : string;
  RecordsFile : string;
  VectorsFile : string;
  GraphFile : string;
  FilterFile : string;
  PQFile : string;
  man_Dimension : Z;
  man_MaxLSN : Z;
  RecordCount : Z;
  Segments : list SegmentRef;
}.

(** A manifest through JSON. *)
Definition json_ref (r : SegmentRef) : SegmentRef :=
  mkRef (json_string (ref_RecordsFile r)) (json_string (ref_VectorsFile r)) (json_string (ref_GraphFile r))
    (json_string (ref_FilterFile r)) (json_string (ref_TombstonesFile r)) (ref_Dimension r) (ref_MaxLSN r)
    (ref_RecordCount r) (ref_SizeBytes r).

Definition json_manifest (m : Manifest) : Manifest :=
  mkManifest (Format m) (json_string (SegmentFile m)) (json_string (RecordsFile m)) (json_string (VectorsFile m))
    (json_string (GraphFile m)) (json_string (FilterFile m)) (json_string (PQFile m)) (man_Dimension m) (man_MaxLSN m)
    (RecordCount m) (json_ref <$> Segments m).

Definition manifest_name : string := "MANIFEST.json".

Definition unsafe (name : string) : bool := negb (String.eqb name "") && negb (safeBase name).

(** The loop over [manifest.Segments]. *)
Fixpoint check_segments (m : Manifest) (segments : list SegmentRef) (position previousLSN : Z) : bool :=
  match segments with
  | [] => true
  | s :: rest =>
      if negb (ref_Dimension s =? man_Dimension m) || String.eqb (ref_RecordsFile s) "" || String.eqb (ref_VectorsFile s) ""
         || negb (safeBase (ref_RecordsFile s)) || negb (safeBase (ref_VectorsFile s)) || unsafe (ref_GraphFile s)
         || unsafe (ref_FilterFile s) || unsafe (ref_TombstonesFile s)
         || ((0 <? position) && (ref_MaxLSN s <=? previousLSN)) || (man_MaxLSN m <? ref_MaxLSN s)
      then false
      else check_segments m rest (position + 1) (ref_MaxLSN s)
  end.

(** The checks of [LoadManifest]. *)
Definition validate_manifest (m : Manifest) : res Manifest :=
  if Format m =? 1 then
    if String.eqb (SegmentFile m) "" || negb (safeBase (SegmentFile m)) then Err (Errorf "invalid legacy segment manifest")
    else Ok m
  else if Format m =? 2 then
    if String.eqb (RecordsFile m) "" || String.eqb (VectorsFile m) "" || (man_Dimension m =? 0)
       || negb (safeBase (RecordsFile m)) || negb (safeBase (VectorsFile m)) || unsafe (GraphFile m)
       || unsafe (FilterFile m) || unsafe (PQFile m)
    then Err (Errorf "invalid column segment manifest")
    else Ok m
  else if Format m =? 3 then
    if (len (Segments m) =? 0) || (16 <? len (Segments m)) || (man_Dimension m =? 0) then
      Err (Errorf "invalid multi-segment manifest")
    else if unsafe (GraphFile m) || unsafe (FilterFile m) || unsafe (PQFile m) then
      Err (Errorf "invalid multi-segment view index")
    else if negb (check_segments m (Segments m) 0 0) then Err (Errorf "invalid multi-segment entry")
    else
      match last (Segments m) with
      | Some s => if ref_MaxLSN s =? man_MaxLSN m then Ok m else Err (Errorf "multi-segment manifest LSN mismatch")
      | None => Err (Panic "index out of range")
      end
  else Err (Errorf "unsupported segment manifest format").

(** The format [SaveManifest] gives a manifest without one. *)
Definition with_format (m : Manifest) : Manifest :=
  mkManifest
    (if Format m =? 0 then
       if negb (String.eqb (RecordsFile m) "") || negb (String.eqb (VectorsFile m) "") then 2 else 1
     else Format m)
    (SegmentFile m) (RecordsFile m) (VectorsFile m) (GraphFile m) (FilterFile m) (PQFile m) (man_Dimension m)
    (man_MaxLSN m) (RecordCount m) (Segments m).

Section Files.
Context `{!Json Manifest, !Json (list storedRecord), !Json (list string), !Json persistedIndex}.

Definition SaveManifest (m : Manifest) : IO unit :=
  let* data := io_res (json_Marshal (with_format m)) in
  writeAtomic manifest_name data.

Definition LoadManifest : IO Manifest :=
  let* data := readFile manifest_name in
  let* m := io_res (json_Unmarshal data) in
  io_res (validate_manifest m).

(** ** Cleaning up *)

Definition orphanCandidate (name : string) : bool :=
  HasPrefix name ".tmp-"
  || (HasPrefix name "segment-"
      && existsb (HasSuffix name)
           [".records"; ".vectors"; ".vseg"; ".graph"; ".diskann"; ".filter"; ".tombstones"; ".pq"]).

Definition named (names : list string) : list string := List.filter (λ name, negb (String.eqb name "")) names.

Definition ref_files (s : SegmentRef) : list string :=
  named [ref_RecordsFile s; ref_VectorsFile s; ref_GraphFile s; ref_FilterFile s; ref_TombstonesFile s].

Definition referenced (m : Manifest) : list string :=
  manifest_name
    :: named [SegmentFile m; RecordsFile m; VectorsFile m; GraphFile m; FilterFile m; PQFile m]
    ++ concat (ref_files <$> Segments m).

Fixpoint remove_orphans (keep : list string) (names : list string) : IO unit :=
  match names with
  | [] => io_ret tt
  | name :: rest =>
      if bool_decide (name ∈ keep) || negb (orphanCandidate name) then remove_orphans keep rest
      else let* _ := removeFile name in remove_orphans keep rest
  end.

Definition CleanupOrphans (m : Manifest) : IO unit :=
  let* entries := readDir in remove_orphans (referenced m) entries.

(** ** Bundles *)

(** [multiply3]: the product, or whether it overflows. *)
Definition multiply3 (a b c : Z) : Z * bool :=
  if negb (a =? 0) && ((two64 - 1) / a <? b) then (0, true)
  else
    let product := u64 (a * b) in
    if negb (product =? 0) && ((two64 - 1) / product <? c) then (0, true)
    else (u64 (product * c), false).

Definition vector_bytes (v : list Z) : list Z := v ≫= le_bytes 4.

Definition read_vector (payload : list Z) (dimension position : nat) : list Z :=
  (λ offset, let start := (position * dimension * 4 + offset * 4)%nat in
     le_value (sub_slice payload (Z.of_nat start) (Z.of_nat start + 4))) <$> seq 0 dimension.

Definition has_named (r : CoreRecord) : bool :=
  (0 <? size (rec_Vectors r))%nat || (0 <? size (MultiVectors r))%nat.

Definition column_manifest (recordsName vectorsName : string) (dimension maxLSN count : Z) : Manifest :=
  mkManifest 2 "" recordsName vectorsName "" "" "" dimension maxLSN count [].

Definition WriteBundle (baseName : string) (records : list CoreRecord) (dimension maxLSN : Z) : IO Manifest :=
  if (dimension <=? 0) || (2 ^ 32 - 1 <? dimension) then io_fail (Errorf "invalid vector dimension")
  else if negb (safeBase baseName) then io_fail (Errorf "unsafe segment base name")
  else
    let '(vectorBytes, overflow) := multiply3 (len records) dimension 4 in
    if overflow || (2 ^ 63 - 1 <? vectorBytes) then io_fail (Errorf "vector column exceeds platform address space")
    else if existsb (λ r, negb (len (Vector r) =? dimension)) records then io_fail (Errorf "record dimension mismatch")
    else
      let stored := store_record <$> records in
      let vectors := records ≫= (λ r, vector_bytes (Vector r)) in
      let recordVersion := if existsb has_named records then Column.namedRecordColumnVersion else Column.recordColumnVersion in
      let* recordPayload := io_res (json_Marshal stored) in
      let recordsName := baseName +:+ ".records" in
      let vectorsName := baseName +:+ ".vectors" in
      let* _ := writeAtomic recordsName
                  (Column.versioned_column Column.recordMagic recordVersion 0 (len records) maxLSN recordPayload) in
      let* _ := writeAtomic vectorsName (Column.column Column.vectorMagic dimension (len records) maxLSN vectors) in
      io_ret (column_manifest recordsName vectorsName dimension maxLSN (len records)).

Definition readColumn (name : string) (magic : list Z) (dimension : Z) : IO (Z * Z * list Z) :=
  let* content := readFile name in io_res (Column.readColumn content magic dimension).

Definition ReadBundle (m : Manifest) : IO (list CoreRecord) :=
  if negb (Format m =? 2) then io_fail (Errorf "manifest is not a column bundle")
  else if 2 ^ 63 - 1 <? man_Dimension m then io_fail (Errorf "vector dimension exceeds platform address space")
  else
    let* '(recordCount, recordLSN, recordPayload) := readColumn (RecordsFile m) Column.recordMagic 0 in
    let* '(vectorCount, vectorLSN, vectorPayload) := readColumn (VectorsFile m) Column.vectorMagic (man_Dimension m) in
    if negb (recordCount =? RecordCount m) || negb (vectorCount =? RecordCount m)
       || negb (recordLSN =? man_MaxLSN m) || negb (vectorLSN =? man_MaxLSN m)
    then io_fail (Errorf "column bundle manifest mismatch")
    else
      let '(expected, overflow) := multiply3 (RecordCount m) (man_Dimension m) 4 in
      if overflow || negb (len vectorPayload =? expected) then io_fail (Errorf "vector column length mismatch")
      else
        let* stored := io_res (json_Unmarshal recordPayload) in
        if negb (len stored =? RecordCount m) then io_fail (Errorf "record column count mismatch")
        else io_ret (imap (λ position item, record item (read_vector vectorPayload (Z.to_nat (man_Dimension m)) position)) stored).

Definition ReadRecordColumn (m : Manifest) : IO (list CoreRecord) :=
  if negb (Format m =? 2) then io_fail (Errorf "manifest is not a column bundle")
  else
    let* '(count, maxLSN, payload) := readColumn (RecordsFile m) Column.recordMagic 0 in
    if negb (count =? RecordCount m) || negb (maxLSN =? man_MaxLSN m) then io_fail (Errorf "record column manifest mismatch")
    else
      let* stored := io_res (json_Unmarshal payload) in
      if negb (len stored =? RecordCount m) then io_fail (Errorf "record column count mismatch")
      else io_ret ((λ item, record item []) <$> stored).

(** ** Filters and tombstones *)

Definition WriteFilter (name : string) (data : list Z) (recordCount maxLSN : Z) : IO unit :=
  if negb (safeBase name) || negb (String.eqb (Ext name) ".filter") then io_fail (Errorf "unsafe filter index file name")
  else writeAtomic name (Column.column Column.filterMagic 0 recordCount maxLSN data).

Definition ReadFilter (m : Manifest) : IO (list Z) :=
  if String.eqb (FilterFile m) "" || negb (safeBase (FilterFile m)) then
    io_fail (Errorf "manifest does not reference a valid filter index file")
  else
    let* '(count, maxLSN, payload) := readColumn (FilterFile m) Column.filterMagic 0 in
    if negb (count =? RecordCount m) || negb (maxLSN =? man_MaxLSN m) then io_fail (Errorf "filter index manifest mismatch")
    else io_ret payload.

Definition WriteTombstones (name : string) (keys : list string) (maxLSN : Z) : IO unit :=
  if negb (safeBase name) || negb (String.eqb (Ext name) ".tombstones") then io_fail (Errorf "unsafe tombstone file name")
  else
    let* payload := io_res (json_Marshal keys) in
    writeAtomic name (Column.column Column.tombstoneMagic 0 (len keys) maxLSN payload).

(** Nonempty, unique and sorted. *)
Fixpoint ascending_keys (keys : list string) : bool :=
  match keys with
  | [] => true
  | key :: rest =>
      negb (String.eqb key "") && match rest with next :: _ => str_ltb key next | [] => true end && ascending_keys rest
  end.

Definition ReadTombstones (name : string) (maxLSN : Z) : IO (list string) :=
  if negb (safeBase name) || negb (String.eqb (Ext name) ".tombstones") then io_fail (Errorf "unsafe tombstone file name")
  else
    let* '(count, storedLSN, payload) := readColumn name Column.tombstoneMagic 0 in
    if negb (storedLSN =? maxLSN) then io_fail (Errorf "tombstone LSN mismatch")
    else
      match json_Unmarshal payload with
      | Err _ => io_fail (Errorf "invalid tombstone payload")
      | Ok keys =>
          if negb (len keys =? count) then io_fail (Errorf "invalid tombstone payload")
          else if negb (ascending_keys keys) then io_fail (Errorf "tombstones must be unique and sorted")
          else io_ret keys
      end.

(** ** Graph and quantization files *)

Definition WriteGraph (name : string) (data : list Z) : IO unit :=
  if negb (safeBase name) || negb (HasSuffix name ".graph") then io_fail (Errorf "unsafe graph file name")
  else writeAtomic name data.

Definition ReadGraph (m : Manifest) : IO (list Z) :=
  if String.eqb (GraphFile m) "" || negb (safeBase (GraphFile m)) then
    io_fail (Errorf "manifest does not reference a valid graph file")
  else readFile (GraphFile m).

Definition WritePQ (name : string) (data : list Z) : IO unit :=
  if negb (safeBase name) || negb (HasSuffix name ".pq") then io_fail (Errorf "unsafe pq file name")
  else writeAtomic name data.

Definition ReadPQ (m : Manifest) : IO (option (list Z)) :=
  if String.eqb (PQFile m) "" || negb (safeBase (PQFile m)) then io_ret None
  else λ d, match readFile (PQFile m) d with (d, Ok data) => (d, Ok (Some data)) | (d, Err _) => (d, Ok None) end.

End Files.
