(* ===== verification/JsonInstances.v ===== *)
(** * Reference codec

    A concrete implementation of [Json] for the types that files hold: the
    [Countable] code of a value, written digit by digit.  It satisfies
    [JsonSpec], so the laws can hold together, and the examples over files
    run on it. *)
From Stdlib Require Import ZArith Lia Ascii String.
From stdpp Require Import base tactics list gmap strings countable.
From S2P Require Import Prelude Wal Core Float Posting Persistence Json Compaction SegmentFiles.
Local Open Scope string_scope.
Local Open Scope Z_scope.
Local Open Scope list_scope.

(** ** Values as codes *)

Definition any_leaf : Set := bool + (Z + (Z + (Z + (string + string)))).

#[global] Instance any_leaf_countable : Countable any_leaf := _.

(** Nodes: 0 null, 1 array, 2 object, 3 one field of an object. *)
Fixpoint any_tree (v : any) : gen_tree any_leaf :=
  match v with
  | Null => GenNode 0 []
  | Bool b => GenLeaf (inl b)
  | Number n => GenLeaf (inr (inl n))
  | Float32 n => GenLeaf (inr (inr (inl n)))
  | Int_ n => GenLeaf (inr (inr (inr (inl n))))
  | Text_ s => GenLeaf (inr (inr (inr (inr (inl s)))))
  | Array items => GenNode 1 (map any_tree items)
  | Object fields =>
      GenNode 2 (map (λ kv, GenNode 3 [GenLeaf (inr (inr (inr (inr (inr kv.1))))); any_tree kv.2]) fields)
  end.

Fixpoint tree_any (t : gen_tree any_leaf) : any :=
  match t with
  | GenLeaf (inl b) => Bool b
  | GenLeaf (inr (inl n)) => Number n
  | GenLeaf (inr (inr (inl n))) => Float32 n
  | GenLeaf (inr (inr (inr (inl n)))) => Int_ n
  | GenLeaf (inr (inr (inr (inr (inl s))))) => Text_ s
  | GenNode 1 items => Array (map tree_any items)
  | GenNode 2 fields =>
      Object (map (λ f, match f with
                        | GenNode 3 [GenLeaf (inr (inr (inr (inr (inr k))))); v] => (k, tree_any v)
                        | _ => ("", Null)
                        end) fields)
  | _ => Null
  end.

Fixpoint tree_any_tree (v : any) : tree_any (any_tree v) = v.
Proof.
  destruct v as [|b|n|n|n|s|items|fields]; try reflexivity.
  - cbn [any_tree tree_any]. f_equal. induction items as [|v items IH]; [reflexivity|].
    cbn [map]. rewrite IH. f_equal. apply tree_any_tree.
  - cbn [any_tree tree_any]. f_equal. induction fields as [|[k v] fields IH]; [reflexivity|].
    cbn [map fst snd]. rewrite IH. f_equal. f_equal. apply tree_any_tree.
Qed.

#[global] Instance any_eq_dec : EqDecision any.
Proof.
  intros v w. destruct (decide (any_tree v = any_tree w)) as [E|E]; [left|right].
  - rewrite <-(tree_any_tree v), <-(tree_any_tree w). by rewrite E.
  - intros ->. by apply E.
Defined.

#[global] Instance any_countable : Countable any := inj_countable' any_tree tree_any tree_any_tree.

#[global] Instance stored_eq_dec : EqDecision storedRecord.
Proof. solve_decision. Defined.

(** The codes of the fields of a value in a row, which stay as long as the
    fields are. *)
Definition in_row (codes : list positive) : positive := encode codes.
Definition of_row (p : positive) : list positive := default [] (decode p).

Lemma of_in_row codes : of_row (in_row codes) = codes.
Proof. unfold of_row, in_row. by rewrite decode_encode. Qed.

Definition stored_code (s : storedRecord) : positive :=
  in_row [encode (st_ID s); encode (st_SparseVector s); encode (st_Metadata s); encode (st_Payload s); encode (st_Timestamp s);
   encode (st_Version s); encode (st_Namespace s); encode (st_Text s); encode (st_Vectors s); encode (st_MultiVectors s)].

Definition stored_of (p : positive) : option storedRecord :=
  match of_row p with
  | [i; sv; md; pl; t; v; ns; tx; vs; ms] =>
      i ← decode i; sv ← decode sv; md ← decode md; pl ← decode pl; t ← decode t;
      v ← decode v; ns ← decode ns; tx ← decode tx; vs ← decode vs; ms ← decode ms;
      Some (mkStored i sv md pl t v ns tx vs ms)
  | _ => None
  end.

Lemma stored_of_code x : stored_of (stored_code x) = Some x.
Proof. unfold stored_of, stored_code. rewrite of_in_row. destruct x. by rewrite !decode_encode. Qed.

#[global] Instance stored_countable : Countable storedRecord := {| encode := stored_code; decode := stored_of; decode_encode := stored_of_code |}.

#[global] Instance ref_eq_dec : EqDecision SegmentRef.
Proof. solve_decision. Defined.

#[global] Program Instance ref_countable : Countable SegmentRef :=
  inj_countable' (λ r, (ref_RecordsFile r, ref_VectorsFile r, ref_GraphFile r, ref_FilterFile r, ref_TombstonesFile r,
                        ref_Dimension r, ref_MaxLSN r, ref_RecordCount r, ref_SizeBytes r))
    (λ '(a, b, c, d, e, f, g, h, i), mkRef a b c d e f g h i) _.
Next Obligation. by intros []. Qed.

#[global] Instance manifest_eq_dec : EqDecision Manifest.
Proof. solve_decision. Defined.

#[global] Program Instance manifest_countable : Countable Manifest :=
  inj_countable' (λ m, (Format m, SegmentFile m, RecordsFile m, VectorsFile m, GraphFile m, FilterFile m, PQFile m,
                        man_Dimension m, man_MaxLSN m, RecordCount m, Segments m))
    (λ '(a, b, c, d, e, f, g, h, i, j, k), mkManifest a b c d e f g h i j k) _.
Next Obligation. by intros []. Qed.

#[global] Program Instance entry_countable : Countable NumericField.entry :=
  inj_countable' (λ e, (NumericField.value e, NumericField.id e)) (λ '(v, i), NumericField.mkEntry v i) _.
Next Obligation. by intros []. Qed.

#[global] Instance field_eq_dec : EqDecision persistedField.
Proof. solve_decision. Defined.

#[global] Program Instance field_countable : Countable persistedField :=
  inj_countable' (λ f, (pf_Name f, pf_Values f, pf_Postings f, pf_Numbers f)) (λ '(a, b, c, d), mkField a b c d) _.
Next Obligation. by intros []. Qed.

#[global] Instance index_eq_dec : EqDecision persistedIndex.
Proof. solve_decision. Defined.

#[global] Program Instance index_countable : Countable persistedIndex :=
  inj_countable' (λ p, (pi_Version p, pi_RecordCount p, pi_Fields p)) (λ '(a, b, c), mkPersisted a b c) _.
Next Obligation. by intros []. Qed.

(** ** Codes as texts *)

Fixpoint pos_digits (p : positive) : list Z :=
  match p with xH => [] | xO p => 0 :: pos_digits p | xI p => 1 :: pos_digits p end.

Fixpoint digits_pos (l : list Z) : positive :=
  match l with [] => xH | x :: l => if x =? 0 then xO (digits_pos l) else xI (digits_pos l) end.

Lemma digits_pos_digits p : digits_pos (pos_digits p) = p.
Proof. induction p as [p IH|p IH|]; cbn; rewrite ?IH; done. Qed.

Lemma pos_digits_bytes p : Forall is_byte (pos_digits p).
Proof. induction p as [p IH|p IH|]; cbn; constructor; try done; unfold is_byte; lia. Qed.

Section Codec.
Context `{Countable A} (through : A → A).

Definition codec_marshal (x : A) : res (list Z) :=
  let b := pos_digits (encode x) in if len b <? 2 ^ 63 then Ok b else Err (Errorf "unsupported value").

Definition codec_unmarshal (b : list Z) : res A :=
  match decode (digits_pos b) with Some x => Ok (through x) | None => Err (Errorf "invalid character") end.

Definition codec : Json A := {| json_Marshal := codec_marshal; json_Unmarshal := codec_unmarshal |}.

Lemma codec_spec : @JsonSpec A codec through.
Proof.
  constructor; intros x b H1; cbn in *; unfold codec_marshal in H1; cbv zeta in H1;
    destruct (Z.ltb_spec (len (pos_digits (encode x))) (2 ^ 63)); try discriminate; injection H1 as <-.
  - apply pos_digits_bytes.
  - done.
  - unfold codec_unmarshal. by rewrite digits_pos_digits, decode_encode.
Qed.
End Codec.

#[global] Instance stored_json : Json (list storedRecord) := codec (fmap json_stored).
#[global] Instance stored_json_spec : JsonSpec (list storedRecord) (fmap json_stored) := codec_spec _.
#[global] Instance keys_json : Json (list string) := codec (fmap json_string).
#[global] Instance keys_json_spec : JsonSpec (list string) (fmap json_string) := codec_spec _.
#[global] Instance index_json : Json persistedIndex := codec json_index.
#[global] Instance index_json_spec : JsonSpec persistedIndex json_index := codec_spec _.
#[global] Instance manifest_json : Json Manifest := codec json_manifest.
#[global] Instance manifest_json_spec : JsonSpec Manifest json_manifest := codec_spec _.
