(* ===== verification/Multisegment.v ===== *)
(** * Views over several segments

    [internal/engine/multisegment.go]: the segments a manifest lists, oldest
    first, merged into one view; writing a new one; replacing a run of them
    by their merge; and where the vectors of a view's records are
    ([composite_mmap.go], [mmap.go]). *)
From Stdlib Require Import ZArith Lia Ascii String.
From stdpp Require Import base tactics list gmap strings.
From S2P Require Import Prelude Wal Core Float Distance TopK Index Segment Shard Persistence Json Column Compaction SegmentFiles.
Local Open Scope string_scope.
Local Open Scope Z_scope.
Local Open Scope list_scope.

(** [VectorLocation] *)
Record VectorLocation : Set := mkLocation { loc_Segment : nat; loc_Ordinal : nat }.

Definition manifestForRef (ref : SegmentRef) : Manifest :=
  mkManifest 2 "" (ref_RecordsFile ref) (ref_VectorsFile ref) (ref_GraphFile ref) (ref_FilterFile ref) ""
    (ref_Dimension ref) (ref_MaxLSN ref) (ref_RecordCount ref) [].

(** The sizes of the named files, as a [uint64]. *)
Fixpoint sum_sizes (names : list string) (total : Z) : IO Z :=
  match names with
  | [] => io_ret total
  | name :: rest =>
      if String.eqb name "" then sum_sizes rest total
      else let* size := statSize name in sum_sizes rest (u64 (total + size))
  end.

Definition with_size (ref : SegmentRef) (size : Z) : SegmentRef :=
  mkRef (ref_RecordsFile ref) (ref_VectorsFile ref) (ref_GraphFile ref) (ref_FilterFile ref) (ref_TombstonesFile ref)
    (ref_Dimension ref) (ref_MaxLSN ref) (ref_RecordCount ref) size.

Definition refFromManifest (m : Manifest) : IO SegmentRef :=
  let ref := mkRef (RecordsFile m) (VectorsFile m) (GraphFile m) (FilterFile m) "" (man_Dimension m) (man_MaxLSN m)
               (RecordCount m) 0 in
  let* size := sum_sizes [ref_RecordsFile ref; ref_VectorsFile ref; ref_GraphFile ref; ref_FilterFile ref] 0 in
  io_ret (with_size ref size).

(** ** Merging *)

(** The merged records, and the keys deleted since. *)
Record merge : Type := mkMerge { live : gmap string CoreRecord; dead : gset string }.

Definition add_record (m : merge) (r : CoreRecord) : merge :=
  mkMerge (<[record_key r := r]> (live m)) (dead m ∖ {[record_key r]}).

Definition add_tombstone (m : merge) (key : string) : merge :=
  mkMerge (delete key (live m)) ({[key]} ∪ dead m).

(** One segment: its records, then its tombstones. *)
Definition add_segment (m : merge) (contents : list CoreRecord * list string) : merge :=
  foldl add_tombstone (foldl add_record m contents.1) contents.2.

Definition sorted_records (m : gmap string CoreRecord) : list CoreRecord :=
  sort_slice (by_key pair_ltb record_order) (map_to_list m).*2.

Section Views.
Context `{!Json Manifest, !Json (list storedRecord), !Json (list string), !Json persistedIndex}.

Definition read_tombstones (ref : SegmentRef) : IO (list string) :=
  if String.eqb (ref_TombstonesFile ref) "" then io_ret []
  else ReadTombstones (ref_TombstonesFile ref) (ref_MaxLSN ref).

Fixpoint merge_refs (m : merge) (refs : list SegmentRef) : IO merge :=
  match refs with
  | [] => io_ret m
  | ref :: rest =>
      let* items := ReadBundle (manifestForRef ref) in
      let* keys := read_tombstones ref in
      merge_refs (add_segment m (items, keys)) rest
  end.

Definition materializeSegments (refs : list SegmentRef) : IO (list CoreRecord * list string) :=
  let* m := merge_refs (mkMerge ∅ ∅) refs in
  io_ret (sorted_records (live m), sort_slice str_ltb (elements (dead m))).

(** The view with the place of every record. *)
Definition select_records (segmentID : nat) (items : list CoreRecord)
    (selected : gmap string (CoreRecord * VectorLocation)) : gmap string (CoreRecord * VectorLocation) :=
  foldl (λ m '(ordinal, r), <[record_key r := (r, mkLocation segmentID ordinal)]> m) selected
    (imap (λ ordinal r, (ordinal, r)) items).

Fixpoint select_refs (segmentID : nat) (selected : gmap string (CoreRecord * VectorLocation)) (refs : list SegmentRef)
    : IO (gmap string (CoreRecord * VectorLocation)) :=
  match refs with
  | [] => io_ret selected
  | ref :: rest =>
      let* items := ReadRecordColumn (manifestForRef ref) in
      let selected := select_records segmentID items selected in
      let* keys := read_tombstones ref in
      select_refs (S segmentID) (foldl (λ m key, delete key m) selected keys) rest
  end.

Definition resolveMappedSegments (refs : list SegmentRef) : IO (list CoreRecord * list VectorLocation) :=
  let* selected := select_refs 0 ∅ refs in
  let values := sort_slice (by_key pair_ltb (λ v, record_order v.1)) (map_to_list selected).*2 in
  io_ret (values.*1, values.*2).

(** ** Writing *)

Definition writeSegmentRef (base : string) (records : list CoreRecord) (tombstones : list string) (dimension maxLSN : Z)
    : IO SegmentRef :=
  let* bundle := WriteBundle base records dimension maxLSN in
  let tombstonesFile := if 0 <? len tombstones then base +:+ ".tombstones" else "" in
  let* _ := if 0 <? len tombstones then WriteTombstones tombstonesFile tombstones maxLSN else io_ret tt in
  let ref := mkRef (RecordsFile bundle) (VectorsFile bundle) "" "" tombstonesFile (man_Dimension bundle) maxLSN
               (len records) 0 in
  let* size := sum_sizes [ref_RecordsFile ref; ref_VectorsFile ref; ref_TombstonesFile ref] 0 in
  io_ret (with_size ref size).

(** ** Compaction *)

Definition compaction_segment (ref : SegmentRef) : Compaction.Segment :=
  Compaction.mkSegment (ref_RecordsFile ref) (ref_MaxLSN ref) (ref_SizeBytes ref).

(** The selected references and the others, with the position of the first
    selected one among the others. *)
Fixpoint split_refs (selected : gset string) (refs inputs remaining : list SegmentRef) (insertAt : option nat)
    : list SegmentRef * list SegmentRef * option nat :=
  match refs with
  | [] => (inputs, remaining, insertAt)
  | ref :: rest =>
      if bool_decide (ref_RecordsFile ref ∈ selected) then
        split_refs selected rest (inputs ++ [ref]) remaining
          (match insertAt with None => Some (length remaining) | Some _ => insertAt end)
      else split_refs selected rest inputs (remaining ++ [ref]) insertAt
  end.

Definition compact_name (maxLSN sequence : Z) : string :=
  "segment-" +:+ fmt_020d maxLSN +:+ "-compact-" +:+ fmt_020d sequence.

Definition compactSegmentRefs (refs : list SegmentRef) (dimension sequence : Z) : IO (list SegmentRef) :=
  let* plan := io_res (Compaction.Select Compaction.DefaultPolicy (compaction_segment <$> refs)) in
  if len (Compaction.Inputs plan) =? 0 then io_ret refs
  else
    let selected := list_to_set (Compaction.ID <$> Compaction.Inputs plan) in
    let '(inputs, remaining, insertAt) := split_refs selected refs [] [] None in
    let* '(records, tombstones) := materializeSegments inputs in
    match last inputs, insertAt with
    | Some newest, Some position =>
        let maxLSN := ref_MaxLSN newest in
        let* merged := writeSegmentRef (compact_name maxLSN sequence) records tombstones dimension maxLSN in
        io_ret (take position remaining ++ merged :: drop position remaining)
    | _, _ => io_fail (Panic "index out of range")
    end.

(** ** Mapped vectors *)

(** A mapped vector column. *)
Record MappedVectors : Type := mkMapped { mv_payload : list Z; mv_dimension : Z; mv_count : Z; mv_maxLSN : Z }.

(** The checks of [OpenMappedVectors] on the mapped bytes. *)
Definition map_vectors (mapped : list Z) (expectedDimension expectedCount expectedLSN : Z) : res MappedVectors :=
  if len mapped <? Column.columnHeaderSize then Err (Errorf "invalid vector column file size")
  else
    let header := slice_to mapped Column.columnHeaderSize in
    if negb (bool_decide (slice_to header 4 = Column.vectorMagic)) then Err (Errorf "invalid vector column magic")
    else if negb (le_value (sub_slice header 4 6) =? 1) || negb (le_value (sub_slice header 6 8) =? 0)
            || negb (le_value (sub_slice header 12 16) =? 0) || negb (le_value (sub_slice header 44 48) =? 0) then
      Err (Errorf "unsupported vector column version, flags, or reserved fields")
    else
      let dimension := le_value (sub_slice header 8 12) in
      let count := le_value (sub_slice header 16 24) in
      let maxLSN := le_value (sub_slice header 24 32) in
      let length := le_value (sub_slice header 32 40) in
      if negb (dimension =? expectedDimension) || negb (count =? expectedCount) || negb (maxLSN =? expectedLSN) then
        Err (Errorf "mapped vector column manifest mismatch")
      else
        let '(expectedLength, overflow) := multiply3 count dimension 4 in
        if overflow || negb (length =? expectedLength) || negb (length =? u64 (len mapped - Column.columnHeaderSize)) then
          Err (Errorf "mapped vector column length mismatch")
        else
          let payload := slice_from mapped Column.columnHeaderSize in
          if negb (Column.columnChecksum header payload =? le_value (sub_slice header 40 44)) then
            Err (Errorf "mapped vector column checksum mismatch")
          else Ok (mkMapped payload dimension count maxLSN).

Definition OpenMappedVectors (name : string) (dimension count maxLSN : Z) : IO MappedVectors :=
  let* mapped := readFile name in io_res (map_vectors mapped dimension count maxLSN).

(** [VectorCopy] of an open mapping. *)
Definition VectorCopy (m : MappedVectors) (ordinal : Z) : res (list Z) :=
  if (ordinal <? 0) || (mv_count m <=? ordinal) then Err (Wrapf ErrInvalidArgument "vector ordinal out of range")
  else Ok (read_vector (mv_payload m) (Z.to_nat (mv_dimension m)) (Z.to_nat ordinal)).

Record CompositeMappedVectors : Type := mkComposite {
  cm_sources : list MappedVectors;
  cm_locations : list VectorLocation;
  cm_dimension : Z;
}.

Fixpoint open_sources (dimension : Z) (refs : list SegmentRef) : IO (list MappedVectors) :=
  match refs with
  | [] => io_ret []
  | ref :: rest =>
      if negb (ref_Dimension ref =? dimension) then io_fail (Errorf "composite vector dimension mismatch")
      else
        let* source := OpenMappedVectors (ref_VectorsFile ref) (ref_Dimension ref) (ref_RecordCount ref) (ref_MaxLSN ref) in
        let* sources := open_sources dimension rest in
        io_ret (source :: sources)
  end.

Definition location_ok (sources : list MappedVectors) (l : VectorLocation) : bool :=
  match sources !! loc_Segment l with
  | Some source => Z.of_nat (loc_Ordinal l) <? mv_count source
  | None => false
  end.

Definition OpenCompositeMappedVectors (refs : list SegmentRef) (locations : list VectorLocation) : IO CompositeMappedVectors :=
  match refs with
  | [] => io_fail (Errorf "composite mapping requires at least one segment")
  | first :: _ =>
      let* sources := open_sources (ref_Dimension first) refs in
      if forallb (location_ok sources) locations then io_ret (mkComposite sources locations (ref_Dimension first))
      else io_fail (Errorf "invalid composite vector location")
  end.

Definition Composite_VectorCopy (m : CompositeMappedVectors) (ordinal : Z) : res (list Z) :=
  if (ordinal <? 0) || (len (cm_locations m) <=? ordinal) then
    Err (Wrapf ErrInvalidArgument "composite vector ordinal out of range")
  else
    match cm_locations m !! Z.to_nat ordinal with
    | None => Err (Panic "index out of range")
    | Some l =>
        match cm_sources m !! loc_Segment l with
        | None => Err (Panic "index out of range")
        | Some source => VectorCopy source (Z.of_nat (loc_Ordinal l))
        end
    end.

End Views.
