(* ===== verification/SegmentIO.v ===== *)
(** * Segments read back

    What [WriteBundle], [WriteTombstones] and [writeSegmentRef] leave on disk
    is read back as it was given, by [ReadBundle], by [ReadRecordColumn] with
    the mapped vector column, and by [ReadTombstones]. *)
From Stdlib Require Import ZArith Lia Ascii String Sorting.Sorted.
From stdpp Require Import base tactics list gmap strings.
From S2P Require Import Prelude Wal Core Distance Float Persistence TopK Index Segment Shard Compaction Column Json SegmentFiles Multisegment.
Local Set Warnings "-clear-no-such-hyp".
Local Open Scope string_scope.
Local Open Scope Z_scope.
Local Open Scope list_scope.

(** ** Reading and writing files

    What the operations on a shard's directory may touch, and that what was
    written reads back.  [reader names m] says that [m] changes no file, reads
    only the files [names], and that a success does not depend on the
    outcomes of the operating system; [writer names m] that [m] changes no
    other file. *)

(** The run in which every call succeeds. *)
Definition quiet {A} (F : gmap string (list Z)) (m : IO A) : res A := (m (mkDisk F [])).2.

Definition agree (names : list string) (F G : gmap string (list Z)) : Prop := ∀ n, n ∈ names → F !! n = G !! n.

Record reader {A} (names : list string) (m : IO A) : Prop := mkReader {
  rd_files d : files (m d).1 = files d;
  rd_quiet F : (m (mkDisk F [])).1 = mkDisk F [];
  rd_sound d a : (m d).2 = Ok a → quiet (files d) m = Ok a;
  rd_local F G : agree names F G → quiet F m = quiet G m;
}.

Definition writer {A} (names : list string) (m : IO A) : Prop :=
  ∀ d n, n ∉ names → files (m d).1 !! n = files d !! n.

Create HintDb files.

Lemma reader_ret {A} names (a : A) : reader names (io_ret a).
Proof. by split. Qed.
Lemma reader_fail {A} names e : reader names (io_fail (A := A) e).
Proof. by split. Qed.
Lemma reader_res {A} names (r : res A) : reader names (io_res r).
Proof. by split. Qed.

Lemma reader_bind {A B} names (m : IO A) (k : A → IO B) :
  reader names m → (∀ a, reader names (k a)) → reader names (io_bind m k).
Proof.
  intros [F1 Q1 S1 L1] Hk. split; unfold quiet, io_bind.
  - intros d. specialize (F1 d). destruct (m d) as [d' [a|e]]; [|done]. simpl in F1. by rewrite (rd_files _ _ (Hk a) d').
  - intros F. specialize (Q1 F). destruct (m (mkDisk F [])) as [d' [a|e]]; simpl in Q1; [|done]. rewrite Q1. apply Hk.
  - intros d b. specialize (F1 d). specialize (S1 d). specialize (Q1 (files d)). unfold quiet in S1.
    destruct (m d) as [d' [a|e]]; [|done]. intros Hb. specialize (S1 a eq_refl).
    destruct (m (mkDisk (files d) [])) as [d0 r0]. simpl in *. subst d0 r0. rewrite <-F1. by apply (rd_sound _ _ (Hk a) d').
  - intros F G HFG. specialize (L1 F G HFG). pose proof (Q1 F) as QF. pose proof (Q1 G) as QG. unfold quiet in L1.
    destruct (m (mkDisk F [])) as [d0 r0], (m (mkDisk G [])) as [d1 r1]. simpl in *. subst d0 d1 r1.
    destruct r0 as [a|e]; [|done]. by apply (rd_local _ _ (Hk a)).
Qed.

Lemma reader_file names name : name ∈ names → reader names (readFile name).
Proof.
  intros Hn. split; unfold quiet, readFile, next_fault.
  - intros [F [|[] fs]]; done.
  - done.
  - intros [F [|[] fs]] a; simpl; try done.
  - intros F G H. simpl. by rewrite (H name Hn).
Qed.

Lemma reader_weaken {A} names names' (m : IO A) : reader names m → (∀ n, n ∈ names → n ∈ names') → reader names' m.
Proof. intros [H1 H2 H3 H4] Hn. split; try done. intros F G H. apply H4. intros n Hin. auto. Qed.

#[export] Hint Resolve reader_ret reader_fail reader_res reader_bind reader_file : files.
#[export] Hint Resolve list_elem_of_here list_elem_of_further : files.

(** Follows the structure of a reading operation. *)
Ltac solve_reader :=
  repeat first
    [ progress intros
    | apply reader_bind
    | match goal with
      | |- reader _ (match ?x with _ => _ end) => destruct x
      | |- reader _ (let '(_, _) := ?x in _) => destruct x
      end
    | solve [eauto with files] ].

Section Files.
Context `{!Json Manifest, !Json (list storedRecord), !Json (list string), !Json persistedIndex}.

Lemma reader_column names name magic dimension : name ∈ names → reader names (readColumn name magic dimension).
Proof. intros Hn. unfold readColumn. solve_reader. Qed.
#[local] Hint Resolve reader_column : files.

Lemma reader_manifest names : manifest_name ∈ names → reader names LoadManifest.
Proof. intros Hn. unfold LoadManifest. solve_reader. Qed.

Lemma reader_bundle names m : RecordsFile m ∈ names → VectorsFile m ∈ names → reader names (ReadBundle m).
Proof. intros H1 H2. unfold ReadBundle. solve_reader. Qed.

Lemma reader_records names m : RecordsFile m ∈ names → reader names (ReadRecordColumn m).
Proof. intros H1. unfold ReadRecordColumn. solve_reader. Qed.

Lemma reader_filter names m : FilterFile m ∈ names → reader names (ReadFilter m).
Proof. intros H1. unfold ReadFilter. solve_reader. Qed.

Lemma reader_keys names name maxLSN : name ∈ names → reader names (ReadTombstones name maxLSN).
Proof. intros H1. unfold ReadTombstones. solve_reader. Qed.

Lemma reader_size names l total : (∀ n, n ∈ named l → n ∈ names) → reader names (sum_sizes l total).
Proof.
  revert total. induction l as [|n l IH]; intros total Hn; cbn [sum_sizes]; [apply reader_ret|].
  unfold named in Hn. cbn [List.filter] in Hn. destruct (String.eqb n ""); cbn [negb] in Hn; [by apply IH|].
  apply reader_bind; [|intros size; apply IH; intros n' Hn'; apply Hn; by right].
  unfold statSize. apply reader_bind; [apply reader_file, Hn; by left|intros c; apply reader_ret].
Qed.

(** *** Writers *)

Lemma writer_bind {A B} names (m : IO A) (k : A → IO B) :
  writer names m → (∀ a, writer names (k a)) → writer names (io_bind m k).
Proof.
  intros Hm Hk d n Hn. unfold io_bind. specialize (Hm d n Hn). destruct (m d) as [d' [a|e]]; [|done].
  simpl in Hm. by rewrite (Hk a d' n Hn).
Qed.

Lemma writer_reader {A} names names' (m : IO A) : reader names m → writer names' m.
Proof. intros H d n _. by rewrite (rd_files _ _ H d). Qed.

Lemma writer_ret {A} names (a : A) : writer names (io_ret a).
Proof. done. Qed.
Lemma writer_fail {A} names e : writer names (io_fail (A := A) e).
Proof. done. Qed.
Lemma writer_res {A} names (r : res A) : writer names (io_res r).
Proof. done. Qed.

Lemma writer_file names name data : name ∈ names → writer names (writeAtomic name data).
Proof.
  intros Hn [F fs] n Hne. assert (n ≠ name) by (intros ->; done).
  unfold writeAtomic, next_fault. destruct fs as [|[] fs]; simpl; by rewrite ?lookup_insert_ne.
Qed.

#[local] Hint Resolve writer_ret writer_fail writer_res writer_file : files.

Ltac solve_writer :=
  repeat first
    [ progress intros
    | apply writer_bind
    | match goal with
      | |- writer _ (match ?x with _ => _ end) => destruct x
      | |- writer _ (let '(_, _) := ?x in _) => destruct x
      end
    | solve [eauto with files] ].

Definition bundle_files (base : string) : list string := [base +:+ ".records"; base +:+ ".vectors"].

Lemma writer_bundle names base records dimension maxLSN :
  (∀ n, n ∈ bundle_files base → n ∈ names) → writer names (WriteBundle base records dimension maxLSN).
Proof.
  intros Hn. assert (base +:+ ".records" ∈ names) by (apply Hn; by left).
  assert (base +:+ ".vectors" ∈ names) by (apply Hn; right; by left).
  unfold WriteBundle. solve_writer.
Qed.

Lemma writer_tombstones names name keys maxLSN : name ∈ names → writer names (WriteTombstones name keys maxLSN).
Proof. intros Hn. unfold WriteTombstones. solve_writer. Qed.

Definition segment_files (base : string) : list string := bundle_files base ++ [base +:+ ".tombstones"].

Lemma writer_segment names base records tombstones dimension maxLSN :
  (∀ n, n ∈ segment_files base → n ∈ names) → writer names (writeSegmentRef base records tombstones dimension maxLSN).
Proof.
  intros Hn. unfold writeSegmentRef. apply writer_bind; [apply writer_bundle; intros n Hb; apply Hn; by apply elem_of_app; left|].
  intros bundle. apply writer_bind.
  - destruct (0 <? len tombstones); [|apply writer_ret]. apply writer_tombstones, Hn. apply elem_of_app. right. by left.
  - intros _. apply writer_bind; [|intros; apply writer_ret]. eapply writer_reader, reader_size. done.
Qed.

(** *** Names

    The digits of a [%020d] number are its own: two names built from numbers
    below [10 ^ 20] are equal only if the numbers and what follows are. *)

Lemma str_app_assoc (a b c : string) : (a +:+ b) +:+ c = a +:+ b +:+ c.
Proof. induction a as [|x a IH]; [done|]. exact (f_equal (String x) IH). Qed.

Lemma digit_inj a b : 0 ≤ a < 10 → 0 ≤ b < 10 → ascii_of_N (48 + Z.to_N a) = ascii_of_N (48 + Z.to_N b) → a = b.
Proof.
  intros Ha Hb H. apply (f_equal N_of_ascii) in H. rewrite !N_ascii_embedding in H by lia. lia.
Qed.

Lemma decimal_inj digits n m s t :
  0 ≤ n < 10 ^ Z.of_nat digits → 0 ≤ m < 10 ^ Z.of_nat digits → decimal digits n s = decimal digits m t → n = m ∧ s = t.
Proof.
  revert n m s t. induction digits as [|digits IH]; intros n m s t Hn Hm H.
  { simpl in *. split; [lia|done]. }
  rewrite Nat2Z.inj_succ, Z.pow_succ_r in Hn, Hm by lia. cbn [decimal] in H.
  assert (∀ x, 0 ≤ x < 10 * 10 ^ Z.of_nat digits → 0 ≤ x / 10 < 10 ^ Z.of_nat digits) as Hdiv.
  { intros x Hx. split; [apply Z.div_pos; lia|]. apply Z.div_lt_upper_bound; lia. }
  apply IH in H as [Hq H]; [|by apply Hdiv..]. injection H as Hd Hs.
  apply digit_inj in Hd; [|apply Z.mod_pos_bound; lia..]. split; [|done].
  rewrite (Z.div_mod n 10), (Z.div_mod m 10), Hq, Hd by lia. done.
Qed.

Lemma decimal_app digits n s t : decimal digits n s +:+ t = decimal digits n (s +:+ t).
Proof. revert n s. induction digits as [|digits IH]; intros n s; [done|]. cbn [decimal]. by rewrite IH. Qed.

(** The digits are twenty whatever the number. *)
Lemma decimal_rest digits n m s t : decimal digits n s = decimal digits m t → s = t.
Proof.
  revert n m s t. induction digits as [|digits IH]; intros n m s t H; [done|]. cbn [decimal] in H. apply IH in H. by injection H.
Qed.

Lemma fmt_rest n m s t : fmt_020d n +:+ s = fmt_020d m +:+ t → s = t.
Proof. unfold fmt_020d. rewrite !decimal_app. apply decimal_rest. Qed.

Lemma fmt_inj n m s t : 0 ≤ n < two64 → 0 ≤ m < two64 → fmt_020d n +:+ s = fmt_020d m +:+ t → n = m ∧ s = t.
Proof.
  intros Hn Hm. unfold fmt_020d. rewrite !decimal_app. assert (two64 < 10 ^ Z.of_nat 20) by (vm_compute; done).
  apply decimal_inj; lia.
Qed.

(** A successful write put the bytes there. *)
Lemma write_ok name data d d' : writeAtomic name data d = (d', Ok tt) → files d' = <[name := data]> (files d).
Proof. unfold writeAtomic, next_fault. destruct d as [F [|[] fs]]; simpl; by intros [= <-]. Qed.

Lemma bind_ok {A B} (m : IO A) (k : A → IO B) d d' b :
  io_bind m k d = (d', Ok b) → ∃ d1 a, m d = (d1, Ok a) ∧ k a d1 = (d', Ok b).
Proof. unfold io_bind. destruct (m d) as [d1 [a|e]]; [eauto|done]. Qed.

Lemma res_ok {A} (r : res A) d d' a : io_res r d = (d', Ok a) → r = Ok a ∧ d' = d.
Proof. unfold io_res. by intros [= -> ->]. Qed.

Lemma quiet_bind {A B} names F (m : IO A) (k : A → IO B) a :
  reader names m → quiet F m = Ok a → quiet F (io_bind m k) = quiet F (k a).
Proof.
  intros Hr Ha. unfold quiet, io_bind in *. pose proof (rd_quiet _ _ Hr F) as Hq.
  destruct (m (mkDisk F [])) as [d r]. simpl in *. by subst.
Qed.

Lemma quiet_read F name data : F !! name = Some data → quiet F (readFile name) = Ok data.
Proof. intros H. unfold quiet, readFile. simpl. by rewrite H. Qed.

Lemma quiet_column F name magic dimension content r :
  F !! name = Some content → Column.readColumn content magic dimension = Ok r → quiet F (readColumn name magic dimension) = Ok r.
Proof.
  intros HF Hr. unfold readColumn.
  rewrite (quiet_bind [name] F _ _ content (reader_file _ _ (list_elem_of_here _ _)) (quiet_read F name content HF)).
  by rewrite Hr.
Qed.

Lemma quiet_res {A B} F (r : res A) (k : A → IO B) a : r = Ok a → quiet F (io_bind (io_res r) k) = quiet F (k a).
Proof. by intros ->. Qed.

End Files.

(** Runs the first operation of a quiet execution, by its result [H]. *)
Ltac quiet_step H :=
  first
    [ erewrite quiet_res; [|exact H]
    | erewrite (quiet_bind [_]); [|solve [eauto with files]|exact H] ]; cbv beta iota.

#[export] Hint Resolve reader_column reader_bundle reader_records reader_filter reader_keys : files.

(** ** Vectors *)

Definition bits_ok (r : CoreRecord) : Prop := Forall (λ x, 0 ≤ x < 2 ^ 32) (Vector r).

Lemma length_vector_bytes v : length (vector_bytes v) = (4 * length v)%nat.
Proof. unfold vector_bytes. induction v as [|x v IH]; [done|]. rewrite bind_cons, length_app, IH. simpl. lia. Qed.

Lemma vector_bytes_valid v : Forall is_byte (vector_bytes v).
Proof. unfold vector_bytes. induction v as [|x v IH]; [apply List.Forall_nil|]. rewrite bind_cons. apply Forall_app. split; [apply le_bytes_valid|done]. Qed.

(** Reading at an offset that is the length of what comes before. *)
Lemma read_offset pre v post offset x :
  0 ≤ x < 2 ^ 32 → v !! offset = Some x →
  le_value (sub_slice (pre ++ vector_bytes v ++ post) (Z.of_nat (length pre + offset * 4)) (Z.of_nat (length pre + offset * 4) + 4)) = x.
Proof.
  intros Hx Hv. rewrite <-(take_drop_middle v offset x Hv). unfold vector_bytes.
  rewrite bind_app, bind_cons, <-!app_assoc, app_assoc.
  pose proof (length_vector_bytes (take offset v)) as Hl. unfold vector_bytes in Hl.
  rewrite length_take in Hl. apply lookup_lt_Some in Hv.
  rewrite Column.sub_app; [apply le_value_bytes; lia| |].
  - unfold len. rewrite length_app. lia.
  - unfold len. rewrite length_app. change (length (le_bytes 4 x)) with 4%nat. lia.
Qed.

Lemma read_vector_at (records : list CoreRecord) dimension position r :
  Forall (λ r, length (Vector r) = dimension ∧ bits_ok r) records → records !! position = Some r →
  read_vector (records ≫= (λ r, vector_bytes (Vector r))) dimension position = Vector r.
Proof.
  intros Hr Hp. pose proof (Forall_lookup_1 _ _ _ _ Hr Hp) as [Hlen Hbits].
  assert (length (take position records ≫= (λ r, vector_bytes (Vector r))) = position * dimension * 4)%nat as Hpre.
  { assert (length (take position records) = position) as Ht by (rewrite length_take; apply lookup_lt_Some in Hp; lia).
    assert (Forall (λ r, length (Vector r) = dimension ∧ bits_ok r) (take position records)) as Hf by (by apply Forall_take).
    rewrite <-Ht at 2. clear Ht Hp. induction Hf as [|r0 l [H0 _] Hl IH]; [done|].
    rewrite bind_cons, length_app, length_vector_bytes, IH, H0. simpl. lia. }
  rewrite <-(take_drop_middle records position r Hp). rewrite bind_app, bind_cons.
  apply list_eq. intros offset. unfold read_vector. rewrite list_lookup_fmap.
  destruct (decide (offset < dimension)%nat) as [Ho|Ho].
  - rewrite lookup_seq_lt by done. simpl. destruct (lookup_lt_is_Some_2 (Vector r) offset) as [x Hx]; [lia|].
    rewrite Hx. f_equal. rewrite <-Hpre. apply read_offset; [|done]. by apply (Forall_lookup_1 _ _ _ _ Hbits Hx).
  - rewrite lookup_seq_ge, lookup_ge_None_2 by lia. done.
Qed.

Lemma length_vectors (records : list CoreRecord) dimension :
  Forall (λ r, length (Vector r) = dimension ∧ bits_ok r) records →
  length (records ≫= (λ r, vector_bytes (Vector r))) = (length records * dimension * 4)%nat.
Proof.
  induction 1 as [|r l [H0 _] Hl IH]; [done|]. rewrite bind_cons, length_app, length_vector_bytes, IH, H0. simpl. lia.
Qed.

Lemma multiply3_ok a b c :
  0 ≤ a → 0 ≤ b → 0 < c → a * b * c < two64 → multiply3 a b c = (a * b * c, false).
Proof.
  intros Ha Hb Hc H. unfold multiply3. assert (0 ≤ a * b) by nia. assert (a * b < two64) by nia.
  assert (negb (a =? 0) && ((two64 - 1) / a <? b) = false) as ->.
  { destruct (Z.eqb_spec a 0); [done|]. simpl. apply Z.ltb_ge. apply Z.div_le_lower_bound; lia. }
  rewrite u64_small by lia. cbv zeta.
  assert (negb (a * b =? 0) && ((two64 - 1) / (a * b) <? c) = false) as ->.
  { destruct (Z.eqb_spec (a * b) 0); [done|]. simpl. apply Z.ltb_ge. apply Z.div_le_lower_bound; lia. }
  by rewrite u64_small by nia.
Qed.

Lemma multiply3_sound a b c p : 0 ≤ a → 0 ≤ b → 0 ≤ c → multiply3 a b c = (p, false) → p = a * b * c ∧ a * b * c < two64.
Proof.
  intros Ha Hb Hc. unfold multiply3. destruct (negb (a =? 0) && _) eqn:E1; [done|]. cbv zeta.
  assert (a * b < two64) as Hab.
  { destruct (Z.eqb_spec a 0) as [->|Hn]; [unfold two64; lia|]. simpl in E1. apply Z.ltb_ge in E1.
    pose proof (Z.mul_div_le (two64 - 1) a). nia. }
  rewrite u64_small by nia. destruct (negb (a * b =? 0) && _) eqn:E2; [done|]. intros [= <-].
  assert (a * b * c < two64) as Habc.
  { destruct (Z.eqb_spec (a * b) 0) as [->|Hn]; [unfold two64; lia|]. simpl in E2. apply Z.ltb_ge in E2.
    pose proof (Z.mul_div_le (two64 - 1) (a * b)). nia. }
  rewrite u64_small by nia. done.
Qed.

(** Mapping a column checks what reading it checks. *)
Lemma map_encoded dimension count maxLSN payload :
  Column.fields_ok Column.vectorMagic 1 dimension count maxLSN payload → len payload = count * dimension * 4 →
  count * dimension * 4 < two64 →
  map_vectors (Column.column Column.vectorMagic dimension count maxLSN payload) dimension count maxLSN
  = Ok (mkMapped payload dimension count maxLSN).
Proof.
  intros Hf Hl Hm. pose proof Hf as [Hm4 Hmb _ Hd Hc Hs Hp Hn]. unfold Column.column, map_vectors.
  rewrite Column.versioned_column_split by done.
  set (fields := Column.header_fields 1 dimension count maxLSN (len payload)).
  set (crc := crc32_Update 0 (Column.signed_bytes fields payload)).
  destruct (Column.column_shape Column.vectorMagic fields (le_bytes 4 crc) payload) as (H1&H2&H3&H4&H5&H6); [done|done|done|].
  cbv zeta in *. rewrite H1, H2, H3, H4, H5, H6.
  destruct (Column.header_slices Column.vectorMagic 1 dimension count maxLSN (len payload) (le_bytes 4 crc) Hm4)
    as (E1&E2&E3&E4&E5&E6&E7). fold fields in E1, E2, E3, E4, E5, E6, E7. rewrite E1, E2, E3, E4, E5, E6, E7.
  pose proof (Column.length_column Column.vectorMagic 1 dimension count maxLSN payload Hm4) as Hlen.
  rewrite Column.versioned_column_split in Hlen by done. fold fields crc in Hlen. rewrite Hlen.
  pose proof (len_nonneg payload).
  rewrite (le_value_bytes 4 dimension), (le_value_bytes 8 count), (le_value_bytes 8 maxLSN), (le_value_bytes 8 (len payload))
    by (unfold two64 in *; lia).
  rewrite (proj2 (Z.ltb_ge _ _)) by (unfold Column.columnHeaderSize; lia). rewrite bool_decide_eq_true_2 by done. cbn [negb].
  change (le_value (le_bytes 2 1)) with 1. rewrite !Z.eqb_refl. cbn [negb orb Z.eqb le_value].
  rewrite multiply3_ok by lia. rewrite Hl, Z.eqb_refl. cbn [negb orb].
  replace (48 + count * dimension * 4 - Column.columnHeaderSize) with (count * dimension * 4) by (unfold Column.columnHeaderSize; lia).
  rewrite u64_small, Z.eqb_refl by lia. cbn [negb].
  rewrite (le_value_bytes 4 crc), Z.eqb_refl; [done|]. apply crc32_bound; [lia|]. by apply Column.signed_bytes_valid.
Qed.

Section Files.
Context `{!Json Manifest, !Json (list storedRecord), !Json (list string), !Json persistedIndex}.
Context `{!JsonSpec (list storedRecord) (fmap json_stored), !JsonSpec (list string) (fmap json_string)}.

(** ** Bundles *)

Record bundle_at (F : gmap string (list Z)) (m : Manifest) (records : list CoreRecord) : Prop := mkBundleAt {
  ba_read : quiet F (ReadBundle m) = Ok records;
  ba_column : quiet F (ReadRecordColumn m) = Ok ((λ r, record (store_record r) []) <$> records);
  ba_vectors : ∃ mv, quiet F (OpenMappedVectors (VectorsFile m) (man_Dimension m) (RecordCount m) (man_MaxLSN m)) = Ok mv ∧
    mv_count mv = len records ∧ ∀ position r, records !! position = Some r → VectorCopy mv (Z.of_nat position) = Ok (Vector r);
}.

Lemma WriteBundle_ok base records dimension maxLSN d d' m :
  WriteBundle base records dimension maxLSN d = (d', Ok m) → Forall stable_record records → Forall bits_ok records →
  0 ≤ maxLSN < two64 →
  m = column_manifest (base +:+ ".records") (base +:+ ".vectors") dimension maxLSN (len records) ∧
  0 < dimension < 2 ^ 32 ∧
  ∃ rb vb, files d' = <[base +:+ ".vectors" := vb]> (<[base +:+ ".records" := rb]> (files d)) ∧
    ∀ F m', F !! (base +:+ ".records") = Some rb → F !! (base +:+ ".vectors") = Some vb →
      Format m' = 2 → RecordsFile m' = base +:+ ".records" → VectorsFile m' = base +:+ ".vectors" →
      man_Dimension m' = dimension → man_MaxLSN m' = maxLSN → RecordCount m' = len records →
      bundle_at F m' records.
Proof.
  unfold WriteBundle. intros H Hst Hbits Hlsn.
  destruct (_ || _) eqn:Ed in H; [done|]. apply orb_false_iff in Ed as [Ed1 Ed2].
  apply Z.leb_gt in Ed1. apply Z.ltb_ge in Ed2. destruct (negb (safeBase base)) in H; [done|].
  destruct (multiply3 _ _ _) as [vectorBytes overflow] eqn:Em. destruct (overflow || _) eqn:Eo in H; [done|].
  apply orb_false_iff in Eo as [-> Eo]. apply Z.ltb_ge in Eo. pose proof (len_nonneg records) as Hn.
  apply multiply3_sound in Em as [-> Hm]; [|lia..].
  destruct (existsb _ records) eqn:El in H; [done|].
  assert (Forall (λ r, length (Vector r) = Z.to_nat dimension ∧ bits_ok r) records) as Hr.
  { apply Forall_forall. intros r Hin. split; [|by apply (proj1 (Forall_forall _ _) Hbits)].
    destruct (Z.eqb_spec (len (Vector r)) dimension) as [E|E]; [unfold len in E; lia|]. exfalso.
    apply not_true_iff_false in El. apply El. apply existsb_exists. exists r. split; [by apply list_elem_of_In|].
    by rewrite (proj2 (Z.eqb_neq _ _)). }
  apply bind_ok in H as (d1&payload&H1&H). apply res_ok in H1 as [Hpay ->].
  apply bind_ok in H as (d2&[]&H1&H). apply write_ok in H1.
  apply bind_ok in H as (d3&[]&H2&H). apply write_ok in H2. injection H as <- <-.
  split; [done|]. split; [lia|].
  set (version := if existsb has_named records then _ else _) in *.
  set (rb := Column.versioned_column _ _ _ _ _ _) in *. set (vectors := records ≫= _) in *.
  set (vb := Column.column _ _ _ _ _) in *. exists rb, vb. split; [by rewrite H2, H1|].
  intros F m' Frb Fvb E1 E2 E3 E4 E5 E6.
  assert (len vectors = len records * dimension * 4) as Hlv.
  { unfold len. unfold vectors. rewrite (length_vectors _ _ Hr). unfold len in *. nia. }
  assert (len records < 2 ^ 63) as Hcount by nia.
  assert (Column.readColumn rb Column.recordMagic 0 = Ok (len records, maxLSN, payload)) as Rr.
  { destruct (Column.magic_ok Column.recordMagic) as [Hm4 Hmb]; [by left|].
    apply Column.readColumn_encoded. constructor; try done.
    - unfold version. destruct (existsb has_named records); [by right|by left].
    - unfold two64. lia.
    - by apply (json_bytes _ _ Hpay).
    - by apply (json_length _ _ Hpay). }
  assert (Column.fields_ok Column.vectorMagic 1 dimension (len records) maxLSN vectors) as Hfo.
  { destruct (Column.magic_ok Column.vectorMagic) as [Hm4 Hmb]; [right; by left|]. constructor; try done.
    - by left.
    - lia.
    - unfold two64. lia.
    - unfold vectors. apply Forall_bind. apply Forall_forall. intros r _. apply vector_bytes_valid.
    - lia. }
  pose proof (Column.readColumn_encoded _ _ _ _ _ _ Hfo) as Rv. change (Column.versioned_column _ _ _ _ _ _) with vb in Rv.
  assert (json_Unmarshal payload = Ok (store_record <$> records)) as Hun.
  { rewrite (json_roundtrip _ _ Hpay). f_equal. rewrite <-list_fmap_compose. apply list_fmap_ext.
    intros i r Hi. simpl. apply (Forall_lookup_1 _ _ _ _ Hst Hi). }
  assert (len (store_record <$> records) = len records) as Hls by (unfold len; by rewrite length_fmap).
  constructor.
  - unfold ReadBundle. rewrite E1, E4, E2, E3. cbn [negb Z.eqb Pos.eqb]. rewrite (proj2 (Z.ltb_ge _ _)) by lia.
    quiet_step (quiet_column F _ _ 0 rb _ Frb Rr). quiet_step (quiet_column F _ _ dimension vb _ Fvb Rv). rewrite E5, E6.
    rewrite !Z.eqb_refl. cbn [negb orb]. rewrite multiply3_ok, <-Hlv, Z.eqb_refl by lia. cbn [negb orb].
    quiet_step Hun. rewrite Hls, Z.eqb_refl. cbn [negb]. unfold quiet, io_ret. simpl. f_equal. apply list_eq. intros i.
    rewrite list_lookup_imap, list_lookup_fmap. destruct (records !! i) as [r|] eqn:Hi; [|done]. simpl. f_equal.
    unfold vectors. rewrite (read_vector_at records _ i r Hr Hi). apply record_store.
  - unfold ReadRecordColumn. rewrite E1, E2. cbn [negb Z.eqb Pos.eqb].
    quiet_step (quiet_column F _ _ 0 rb _ Frb Rr). rewrite E5, E6, !Z.eqb_refl. cbn [negb orb].
    quiet_step Hun. rewrite Hls, Z.eqb_refl. cbn [negb]. unfold quiet, io_ret. simpl. f_equal. by rewrite <-list_fmap_compose.
  - exists (mkMapped vectors dimension (len records) maxLSN). rewrite E3, E4, E5, E6. split; [|split; [done|]].
    + unfold OpenMappedVectors. quiet_step (quiet_read F _ vb Fvb). by apply map_encoded.
    + intros position r Hp. unfold VectorCopy. cbn [mv_count mv_payload mv_dimension]. pose proof (lookup_lt_Some _ _ _ Hp).
      rewrite (proj2 (Z.ltb_ge _ _)), (proj2 (Z.leb_gt _ _)) by (unfold len; lia). cbn [orb].
      rewrite Nat2Z.id. unfold vectors. by rewrite (read_vector_at records _ position r Hr Hp).
Qed.

(** ** Tombstones *)

(** Keys the tombstone file can hold. *)
Definition stable_key (k : string) : Prop := k ≠ "" ∧ json_string k = k.

Lemma ascending_sorted keys : StronglySorted (λ a b, str_ltb a b = true) keys → (∀ k, k ∈ keys → k ≠ "") → ascending_keys keys = true.
Proof.
  induction 1 as [|k keys Hs IH Hk]; intros Hne; [done|]. cbn [ascending_keys].
  rewrite (proj2 (String.eqb_neq k "")) by (apply Hne; by left). rewrite IH by (intros k' Hk'; apply Hne; by right).
  destruct keys as [|next keys]; [done|]. apply Forall_cons in Hk as [-> _]. done.
Qed.

Lemma sorted_strict (l : list string) : NoDup l → ordered str_ltb l → StronglySorted (λ a b, str_ltb a b = true) l.
Proof.
  intros Hnd. induction 1 as [|k l Hl IH Hk]; [constructor|]. apply NoDup_cons in Hnd as [Hni Hnd]. constructor; [by apply IH|].
  apply Forall_forall. intros x Hx. rewrite Forall_forall in Hk. specialize (Hk x Hx).
  destruct (str_ltb k x) eqn:E; [done|]. exfalso. apply Hni. by rewrite (ltb_total k x E Hk).
Qed.

Lemma tombstones_ok (dead : gset string) :
  (∀ k, k ∈ dead → stable_key k) →
  let keys := sort_slice str_ltb (elements dead) in
  ascending_keys keys = true ∧ json_string <$> keys = keys ∧ ∀ k, k ∈ keys ↔ k ∈ dead.
Proof.
  intros Hs. cbv zeta. assert (∀ k, k ∈ sort_slice str_ltb (elements dead) ↔ k ∈ dead) as Hin.
  { intros k. by rewrite sort_slice_elem, elem_of_elements. }
  split_and!; [|..|done].
  - apply ascending_sorted.
    + apply sorted_strict; [rewrite sort_slice_perm; apply NoDup_elements|]. apply (sort_slice_ordered str_ltb).
    + intros k Hk. by apply Hs, Hin.
  - rewrite <-(list_fmap_id (sort_slice _ _)) at 2. apply list_fmap_ext. intros i k Hk. simpl.
    apply Hs, Hin. by apply list_elem_of_lookup_2 in Hk.
Qed.

Lemma WriteTombstones_ok name keys maxLSN d d' :
  WriteTombstones name keys maxLSN d = (d', Ok tt) → ascending_keys keys = true → json_string <$> keys = keys →
  0 ≤ maxLSN < two64 → len keys < two64 →
  ∃ tb, files d' = <[name := tb]> (files d) ∧
    ∀ F, F !! name = Some tb → quiet F (ReadTombstones name maxLSN) = Ok keys.
Proof.
  unfold WriteTombstones. intros H Hasc Hst Hlsn Hlen. destruct (_ || _) eqn:Es in H; [done|].
  apply bind_ok in H as (d1&payload&H1&H). apply res_ok in H1 as [Hpay ->]. apply write_ok in H.
  eexists. split; [exact H|]. intros F HF. unfold ReadTombstones. rewrite Es.
  assert (Column.readColumn (Column.column Column.tombstoneMagic 0 (len keys) maxLSN payload) Column.tombstoneMagic 0
    = Ok (len keys, maxLSN, payload)) as Hr.
  { destruct (Column.magic_ok Column.tombstoneMagic) as [Hm4 Hmb]; [right; right; right; by left|].
    apply Column.readColumn_encoded. constructor; try done; [by left|split; [apply len_nonneg|done]| |].
    - by apply (json_bytes _ _ Hpay).
    - by apply (json_length _ _ Hpay). }
  quiet_step (quiet_column F _ _ 0 _ _ HF Hr). rewrite Z.eqb_refl. cbn [negb].
  rewrite (json_roundtrip _ _ Hpay), Hst, Z.eqb_refl, Hasc. done.
Qed.

(** ** Segments *)

(** What a segment's files hold. *)
Definition contents_io (ref : SegmentRef) : IO (list CoreRecord * list string) :=
  let* items := ReadBundle (manifestForRef ref) in
  let* keys := read_tombstones ref in
  io_ret (items, keys).

Definition ref_names (ref : SegmentRef) : list string :=
  [ref_RecordsFile ref; ref_VectorsFile ref; ref_TombstonesFile ref].

Lemma reader_tombstones ref : reader (ref_names ref) (read_tombstones ref).
Proof.
  unfold read_tombstones. destruct (String.eqb _ _); [apply reader_ret|]. apply reader_keys. right. right. by left.
Qed.

Lemma reader_ref ref : reader (ref_names ref) (ReadBundle (manifestForRef ref)).
Proof. apply reader_bundle; [by left|right; by left]. Qed.
#[local] Hint Resolve reader_tombstones reader_ref : files.

Lemma reader_contents ref : reader (ref_names ref) (contents_io ref).
Proof. unfold contents_io. solve_reader. Qed.

Record ref_holds (F : gmap string (list Z)) (ref : SegmentRef) (c : list CoreRecord * list string) : Prop := mkHolds {
  rh_bundle : bundle_at F (manifestForRef ref) c.1;
  rh_keys : quiet F (read_tombstones ref) = Ok c.2;
}.

Lemma bundle_agree F G m records :
  bundle_at F m records → agree [RecordsFile m; VectorsFile m] F G → bundle_at G m records.
Proof.
  intros [H1 H2 H3] HFG. assert (∀ n, n ∈ [RecordsFile m] → F !! n = G !! n) as H1' by (intros n Hn; apply HFG; set_solver).
  constructor.
  - rewrite <-H1. symmetry. eapply rd_local; [|exact HFG]. apply reader_bundle; [by left|right; by left].
  - rewrite <-H2. symmetry. eapply rd_local; [|exact H1']. apply reader_records. by left.
  - destruct H3 as (mv&H3&H4). exists mv. split; [|done]. rewrite <-H3. symmetry.
    eapply (rd_local [VectorsFile m]); [|intros n Hn; apply HFG; set_solver].
    unfold OpenMappedVectors. apply reader_bind; [apply reader_file; by left|intros; apply reader_res].
Qed.

Lemma holds_agree F G ref c : ref_holds F ref c → agree (ref_names ref) F G → ref_holds G ref c.
Proof.
  intros [H1 H2] HFG. constructor.
  - eapply bundle_agree; [done|]. intros n Hn. apply HFG. unfold ref_names. simpl in Hn. set_solver.
  - rewrite <-H2. symmetry. eapply rd_local; [apply reader_tombstones|done].
Qed.

Lemma append_suffix_inj (base s t : string) : base +:+ s = base +:+ t → s = t.
Proof. induction base as [|c base IH]; [done|]. intros H. apply IH. by injection H. Qed.

Lemma writeSegmentRef_ok base records (dead : gset string) dimension maxLSN d d' ref :
  let tombstones := sort_slice str_ltb (elements dead) in
  writeSegmentRef base records tombstones dimension maxLSN d = (d', Ok ref) →
  Forall stable_record records → Forall bits_ok records → (∀ k : string, k ∈ dead → stable_key k) →
  0 ≤ maxLSN < two64 → Z.of_nat (size dead) < two64 →
  ref_holds (files d') ref (records, tombstones) ∧ ref_RecordsFile ref = base +:+ ".records" ∧
  ref_VectorsFile ref = base +:+ ".vectors" ∧
  ref_TombstonesFile ref = (if 0 <? len tombstones then base +:+ ".tombstones" else "") ∧ ref_GraphFile ref = "" ∧ ref_FilterFile ref = "" ∧
  ref_MaxLSN ref = maxLSN ∧ ref_Dimension ref = dimension ∧ 0 < dimension < 2 ^ 32.
Proof.
  cbv zeta. set (tombstones := sort_slice str_ltb (elements dead)). unfold writeSegmentRef. intros H Hst Hbits Hdead Hlsn Hsize.
  destruct (tombstones_ok dead Hdead) as (Hasc&Hjs&_). fold tombstones in Hasc, Hjs.
  assert (len tombstones < two64) as Hlt.
  { unfold len, tombstones. rewrite length_sort_slice. exact Hsize. }
  apply bind_ok in H as (d1&m&H1&H). apply WriteBundle_ok in H1 as (->&Hd&rb&vb&F1&Hread); [|done..].
  apply bind_ok in H as (d2&[]&H2&H). apply bind_ok in H as (d3&total&H3&H). injection H as <- <-.
  assert (files d3 = files d2) as F3.
  { pose proof (rd_files _ _ (reader_size (named [base +:+ ".records"; base +:+ ".vectors"; if 0 <? len tombstones then base +:+ ".tombstones" else ""]) _ 0 (λ n H, H)) d2) as Hr.
    unfold column_manifest in H3. cbn [RecordsFile VectorsFile ref_RecordsFile ref_VectorsFile ref_TombstonesFile] in H3. rewrite H3 in Hr. exact Hr. }
  assert (∀ s t, s ≠ t → base +:+ s ≠ base +:+ t) as Hne by (intros s t Hst' E; by apply Hst', (append_suffix_inj base)).
  rewrite F3. cbn [with_size column_manifest RecordsFile VectorsFile man_Dimension].
  split; [|done]. destruct (0 <? len tombstones) eqn:Et.
  - apply WriteTombstones_ok in H2 as (tb&F2&Htomb); [|done..].
    constructor; cbn [fst snd].
    + apply Hread; try done; rewrite F2, F1, lookup_insert_ne by (by apply Hne).
      * rewrite lookup_insert_ne by (by apply Hne). apply lookup_insert_eq.
      * apply lookup_insert_eq.
    + unfold read_tombstones. cbn [with_size ref_TombstonesFile ref_MaxLSN].
      destruct (String.eqb_spec (base +:+ ".tombstones") "") as [E|_]; [destruct base; discriminate E|].
      apply Htomb. by rewrite F2, lookup_insert_eq.
  - injection H2 as <-. assert (tombstones = []) as ->.
    { apply len_zero. apply Z.ltb_ge in Et. pose proof (len_nonneg tombstones). lia. }
    constructor; cbn [fst snd]; [|done].
    apply Hread; try done; rewrite F1.
    + rewrite lookup_insert_ne by (by apply Hne). apply lookup_insert_eq.
    + apply lookup_insert_eq.
Qed.

End Files.
