(* ===== verification/ViewProofs.v ===== *)
(** * Views over several segments: theorems

    The view a list of segments stands for, oldest first; merging computes
    it, and compaction keeps it whatever fails. *)
From Stdlib Require Import ZArith Lia Ascii String Sorting.Sorted.
From stdpp Require Import base tactics list gmap strings.
From S2P Require Import Prelude Wal Core Float Distance TopK Index Segment Shard ShardProofs Persistence Json Column Compaction SegmentFiles Multisegment SegmentIO.
Local Set Warnings "-clear-no-such-hyp".
Local Open Scope string_scope.
Local Open Scope Z_scope.
Local Open Scope list_scope.

(** ** Views *)

(** One segment over what is below it. *)
Definition apply_segment (M : gmap string CoreRecord) (c : list CoreRecord * list string) : gmap string CoreRecord :=
  foldl (λ M k, delete k M) (Shard.put_records M c.1) c.2.

Definition view_over (M : gmap string CoreRecord) (cs : list (list CoreRecord * list string)) : gmap string CoreRecord :=
  foldl apply_segment M cs.

Definition view_of : list (list CoreRecord * list string) → gmap string CoreRecord := view_over ∅.

Lemma keyed_empty : keyed ∅.
Proof. intros k r. by rewrite lookup_empty. Qed.

Lemma keyed_put m (l : list CoreRecord) : keyed m → keyed (Shard.put_records m l).
Proof.
  revert m. induction l as [|r l IH]; intros m Hm; [done|]. cbn [Shard.put_records foldl]. apply IH.
  intros k r' [[<- <-]|[_ H]]%lookup_insert_Some; [done|by apply Hm].
Qed.

Lemma keyed_deletes m (l : list string) : keyed m → keyed (foldl (λ m k, delete k m) m l).
Proof. intros Hm k r. rewrite delete_all. destruct (decide _); [done|apply Hm]. Qed.

Lemma keyed_apply M c : keyed M → keyed (apply_segment M c).
Proof. intros HM. by apply keyed_deletes, keyed_put. Qed.

Lemma keyed_view cs M : keyed M → keyed (view_over M cs).
Proof. revert M. induction cs as [|c cs IH]; intros M HM; [done|]. by apply IH, keyed_apply. Qed.

Record merge_ok (m : merge) : Prop := mkMergeOk {
  mo_keyed : keyed (live m);
  mo_disjoint k : k ∈ dead m → live m !! k = None;
}.

Definition over (m : merge) (M : gmap string CoreRecord) : gmap string CoreRecord := merged (live m) M (dead m).

Lemma add_record_ok m r M :
  merge_ok m → merge_ok (add_record m r) ∧ over (add_record m r) M = <[record_key r := r]> (over m M).
Proof.
  intros [Hk Hd]. unfold add_record, over. cbn [live dead]. split; [constructor; cbn [live dead]|].
  - intros k r' [[<- <-]|[_ H]]%lookup_insert_Some; [done|by apply Hk].
  - intros k. rewrite elem_of_difference, elem_of_singleton. intros [Hin Hne]. rewrite lookup_insert_ne by done. by apply Hd.
  - apply map_eq. intros k. rewrite merged_lookup. destruct (decide (k = record_key r)) as [->|Hne].
    + by rewrite !lookup_insert_eq.
    + rewrite !lookup_insert_ne, merged_lookup by done. destruct (live m !! k); [done|].
      destruct (decide (k ∈ dead m)); [rewrite decide_True by set_solver; done|rewrite decide_False by set_solver; done].
Qed.

Lemma add_tombstone_ok m key M :
  merge_ok m → merge_ok (add_tombstone m key) ∧ over (add_tombstone m key) M = delete key (over m M).
Proof.
  intros [Hk Hd]. unfold add_tombstone, over. cbn [live dead]. split; [constructor; cbn [live dead]|].
  - intros k r' [_ H]%lookup_delete_Some. by apply Hk.
  - intros k. rewrite elem_of_union, elem_of_singleton. intros [->|Hin]; [apply lookup_delete_eq|].
    destruct (decide (k = key)) as [->|Hne]; [apply lookup_delete_eq|rewrite lookup_delete_ne by done; by apply Hd].
  - apply map_eq. intros k. rewrite merged_lookup. destruct (decide (k = key)) as [->|Hne].
    + rewrite !lookup_delete_eq. by rewrite decide_True by set_solver.
    + rewrite !lookup_delete_ne, merged_lookup by done. destruct (live m !! k); [done|].
      destruct (decide (k ∈ dead m)); [rewrite decide_True by set_solver; done|rewrite decide_False by set_solver; done].
Qed.

Lemma add_segment_ok m c M :
  merge_ok m → merge_ok (add_segment m c) ∧ over (add_segment m c) M = apply_segment (over m M) c.
Proof.
  destruct c as [items keys]. unfold add_segment, apply_segment. cbn [fst snd].
  revert m. induction items as [|r items IH]; intros m Hm.
  - cbn [foldl Shard.put_records]. revert m Hm. induction keys as [|k keys IHk]; intros m Hm; [done|]. cbn [foldl].
    destruct (add_tombstone_ok m k M Hm) as [Hm' HM]. rewrite <-HM. by apply IHk.
  - destruct (add_record_ok m r M Hm) as [Hm' HM].
    change (foldl add_record m (r :: items)) with (foldl add_record (add_record m r) items).
    change (Shard.put_records (over m M) (r :: items)) with (Shard.put_records (<[record_key r := r]> (over m M)) items).
    rewrite <-HM. by apply IH.
Qed.

Lemma empty_merge_ok : merge_ok (mkMerge ∅ ∅).
Proof. constructor; [apply keyed_empty|]. intros k. simpl. set_solver. Qed.

Lemma over_empty M : over (mkMerge ∅ ∅) M = M.
Proof. apply map_eq. intros k. unfold over. rewrite merged_lookup. cbn [live dead]. by rewrite lookup_empty, decide_False by set_solver. Qed.

Lemma add_segments_ok cs m M :
  merge_ok m → merge_ok (foldl add_segment m cs) ∧ over (foldl add_segment m cs) M = view_over (over m M) cs.
Proof.
  revert m. induction cs as [|c cs IH]; intros m Hm; [done|]. cbn [foldl view_over].
  destruct (add_segment_ok m c M Hm) as [Hm' HM]. unfold view_over. cbn [foldl]. rewrite <-HM. by apply IH.
Qed.

Lemma put_sorted m M : keyed m → Shard.put_records M (sorted_records m) = m ∪ M.
Proof. intros Hk. apply put_records_union; [done|]. apply sort_slice_perm. Qed.

(** The merge, written as one segment, has its effect. *)
Lemma merge_segment m M :
  merge_ok m → apply_segment M (sorted_records (live m), sort_slice str_ltb (elements (dead m))) = over m M.
Proof.
  intros [Hk Hd]. unfold apply_segment. cbn [fst snd]. rewrite put_sorted by done. apply map_eq. intros k.
  rewrite delete_all. unfold over. rewrite merged_lookup.
  destruct (decide (k ∈ dead m)) as [Hin|Hni].
  - rewrite decide_True by (by rewrite sort_slice_elem, elem_of_elements). by rewrite Hd.
  - rewrite decide_False by (by rewrite sort_slice_elem, elem_of_elements).
    destruct (live m !! k) eqn:E; [by apply lookup_union_Some_l|]. by rewrite lookup_union_r.
Qed.

(** What a merge does to every map determines it. *)
Lemma merge_determined m m' :
  merge_ok m → merge_ok m' → (∀ M, over m M = over m' M) → m = m'.
Proof.
  intros [_ Hd] [_ Hd'] H. assert (live m = live m') as El.
  { specialize (H ∅). unfold over in H. apply map_eq. intros k. apply (f_equal (lookup k)) in H.
    rewrite !merged_lookup, lookup_empty in H. destruct (live m !! k), (live m' !! k); try done; by repeat case_decide. }
  assert (dead m = dead m') as Ed; [|destruct m, m'; simpl in *; congruence].
  apply set_eq. intros k.
  destruct (live m !! k) eqn:E; [split; intros Hk; [rewrite Hd in E|rewrite El, Hd' in E]; done|].
  specialize (H {[k := mkCoreRecord "" [] ∅ ∅ ∅ 0 0 "" "" ∅ ∅]}). apply (f_equal (lookup k)) in H. unfold over in H.
  rewrite !merged_lookup, <-El, E, lookup_singleton_eq in H. by repeat case_decide.
Qed.

(** Records and keys that files preserve. *)
Definition durable (r : CoreRecord) : Prop := stable_record r ∧ bits_ok r.

Definition contents_ok (c : list CoreRecord * list string) : Prop := Forall durable c.1 ∧ Forall stable_key c.2.

Definition merge_durable (m : merge) : Prop :=
  (∀ k r, live m !! k = Some r → durable r) ∧ (∀ k, k ∈ dead m → stable_key k).

Lemma add_segment_durable m c : merge_durable m → contents_ok c → merge_durable (add_segment m c).
Proof.
  destruct c as [items keys]. intros Hm [Hi Hk]. unfold add_segment. cbn [fst snd] in *.
  assert (merge_durable (foldl add_record m items)) as Hm1.
  { clear Hk. revert m Hm. induction Hi as [|r items Hr Hi IH]; intros m [H1 H2]; [done|]. cbn [foldl]. apply IH.
    split; cbn [add_record live dead]; [|set_solver]. intros k r' [[<- <-]|[_ H]]%lookup_insert_Some; [done|by eapply H1]. }
  revert Hm1. generalize (foldl add_record m items). induction Hk as [|k keys Hk Hks IH]; intros m1 [H1 H2]; [done|]. cbn [foldl].
  apply IH. split; cbn [add_tombstone live dead]; [|set_solver]. intros k' r' [_ H]%lookup_delete_Some. by eapply H1.
Qed.

Lemma add_segments_durable m cs : merge_durable m → Forall contents_ok cs → merge_durable (foldl add_segment m cs).
Proof. intros Hm H. revert m Hm. induction H as [|c cs Hc Hcs IH]; intros m Hm; [done|]. cbn [foldl]. by apply IH, add_segment_durable. Qed.

Lemma empty_durable : merge_durable (mkMerge ∅ ∅).
Proof. split; simpl; [intros k r; by rewrite lookup_empty|set_solver]. Qed.

(** How many tombstones the segments hold. *)
Definition tombstone_count (cs : list (list CoreRecord * list string)) : nat := length (concat cs.*2).

Lemma add_segment_dead m c : (size (dead (add_segment m c)) ≤ size (dead m) + length c.2)%nat.
Proof.
  destruct c as [items keys]. unfold add_segment. cbn [fst snd].
  assert (size (dead (foldl add_record m items)) ≤ size (dead m))%nat as H1.
  { revert m. induction items as [|r items IH]; intros m; [done|]. cbn [foldl]. etrans; [apply IH|]. cbn [add_record dead].
    apply subseteq_size. set_solver. }
  revert H1. generalize (foldl add_record m items). intros m1 H1. etrans; [|apply Nat.add_le_mono_r, H1]. clear H1.
  revert m1. induction keys as [|k keys IH]; intros m1; cbn [foldl length]; [lia|]. etrans; [apply IH|]. cbn [add_tombstone dead].
  assert (size ({[k]} ∪ dead m1) ≤ S (size (dead m1)))%nat; [|lia].
  rewrite size_union_alt, size_singleton. cbn. apply le_n_S. apply subseteq_size. set_solver.
Qed.

Lemma add_segments_dead m cs : (size (dead (foldl add_segment m cs)) ≤ size (dead m) + tombstone_count cs)%nat.
Proof.
  unfold tombstone_count. revert m. induction cs as [|c cs IH]; intros m; cbn [foldl]; [lia|]. rewrite fmap_cons. cbn [concat].
  rewrite length_app. pose proof (IH (add_segment m c)). pose proof (add_segment_dead m c). lia.
Qed.

Section Files.
Context `{!Json Manifest, !Json (list storedRecord), !Json (list string), !Json persistedIndex}.
Context `{!JsonSpec (list storedRecord) (fmap json_stored), !JsonSpec (list string) (fmap json_string)}.

(** ** Reading a view *)

Definition all_names (refs : list SegmentRef) : list string := concat (ref_names <$> refs).

Definition holds_all (F : gmap string (list Z)) (refs : list SegmentRef) (cs : list (list CoreRecord * list string)) : Prop :=
  Forall2 (ref_holds F) refs cs.

Lemma all_names_cons ref refs n : n ∈ all_names (ref :: refs) ↔ n ∈ ref_names ref ∨ n ∈ all_names refs.
Proof. unfold all_names. rewrite fmap_cons. cbn [concat]. apply elem_of_app. Qed.

Lemma holds_all_agree F G refs cs : holds_all F refs cs → agree (all_names refs) F G → holds_all G refs cs.
Proof.
  induction 1 as [|ref c refs cs Hc Hcs IH]; intros H; constructor.
  - eapply holds_agree; [done|]. intros n Hn. apply H. rewrite all_names_cons. by left.
  - apply IH. intros n Hn. apply H. rewrite all_names_cons. by right.
Qed.

Lemma reader_merge m refs : reader (all_names refs) (merge_refs m refs).
Proof.
  revert m. induction refs as [|ref refs IH]; intros m; cbn [merge_refs]; [apply reader_ret|].
  assert (∀ n, n ∈ ref_names ref → n ∈ all_names (ref :: refs)) as H1 by (intros n Hn; rewrite all_names_cons; by left).
  assert (∀ n, n ∈ all_names refs → n ∈ all_names (ref :: refs)) as H2 by (intros n Hn; rewrite all_names_cons; by right).
  apply reader_bind; [eapply reader_weaken; [apply reader_ref|done]|]. intros items.
  apply reader_bind; [eapply reader_weaken; [apply reader_tombstones|done]|]. intros keys.
  eapply reader_weaken; [apply IH|done].
Qed.

Lemma reader_materialize refs : reader (all_names refs) (materializeSegments refs).
Proof. unfold materializeSegments. apply reader_bind; [apply reader_merge|]. intros m. apply reader_ret. Qed.

Lemma quiet_merge F refs cs m : holds_all F refs cs → quiet F (merge_refs m refs) = Ok (foldl add_segment m cs).
Proof.
  intros H. revert m. induction H as [|ref [items keys] refs cs [Hb Hk] Hcs IH]; intros m; [done|]. cbn [merge_refs foldl].
  rewrite (quiet_bind _ F _ _ _ (reader_ref ref) (ba_read _ _ _ Hb)).
  rewrite (quiet_bind _ F _ _ _ (reader_tombstones ref) Hk). apply IH.
Qed.

Lemma quiet_materialize F refs cs :
  holds_all F refs cs →
  let m := foldl add_segment (mkMerge ∅ ∅) cs in
  quiet F (materializeSegments refs) = Ok (sorted_records (live m), sort_slice str_ltb (elements (dead m))).
Proof.
  intros H. cbv zeta. unfold materializeSegments.
  by rewrite (quiet_bind _ F _ _ _ (reader_merge _ refs) (quiet_merge F refs cs _ H)).
Qed.

(** What merging returns, whatever the outcomes of the reads. *)
Lemma materialize_ok refs cs d d' r :
  holds_all (files d) refs cs → materializeSegments refs d = (d', Ok r) →
  files d' = files d ∧ ∃ m, merge_ok m ∧ (∀ M, over m M = view_over M cs) ∧ m = foldl add_segment (mkMerge ∅ ∅) cs ∧
    r = (sorted_records (live m), sort_slice str_ltb (elements (dead m))).
Proof.
  intros H Hr. pose proof (reader_materialize refs) as Hread. split; [by rewrite <-(rd_files _ _ Hread d), Hr|].
  exists (foldl add_segment (mkMerge ∅ ∅) cs). pose proof (add_segments_ok cs (mkMerge ∅ ∅)) as Hm. split_and!; [| |done|].
  - by apply (Hm ∅), empty_merge_ok.
  - intros M. destruct (Hm M empty_merge_ok) as [_ ->]. by rewrite over_empty.
  - pose proof (rd_sound _ _ Hread d r) as Hs. rewrite Hr, (quiet_materialize _ _ _ H) in Hs. specialize (Hs eq_refl). congruence.
Qed.

(** ** Compaction *)

(** References as a manifest lists them: by increasing LSN, each with files of
    its own. *)
Record refs_ok (refs : list SegmentRef) : Prop := mkRefsOk {
  ro_sorted : StronglySorted (λ a b, ref_MaxLSN a < ref_MaxLSN b) refs;
  ro_names : NoDup (ref_RecordsFile <$> refs);
  ro_range : Forall (λ ref, 0 ≤ ref_MaxLSN ref < two64 ∧ 0 ≤ ref_SizeBytes ref < two64) refs;
}.

Lemma refs_ordered refs :
  StronglySorted (λ a b, ref_MaxLSN a < ref_MaxLSN b) refs →
  sort_slice (by_key Z.ltb Compaction.MaxLSN) (compaction_segment <$> refs) = compaction_segment <$> refs.
Proof.
  intros H. apply ordered_sort_id. induction H as [|ref refs Hs IH Hf]; [constructor|]. rewrite fmap_cons. constructor; [done|].
  apply Forall_fmap. eapply Forall_impl; [exact Hf|]. intros x Hx. unfold by_key. simpl in *. apply Z.ltb_ge. lia.
Qed.

(** The split of a run from the rest. *)
Lemma split_skip sel l rest inputs remaining at_ :
  (∀ ref, ref ∈ l → ref_RecordsFile ref ∉ sel) →
  split_refs sel (l ++ rest) inputs remaining at_ = split_refs sel rest inputs (remaining ++ l) at_.
Proof.
  revert remaining. induction l as [|ref l IH]; intros remaining H; [by rewrite app_nil_r|]. cbn [app split_refs].
  rewrite bool_decide_eq_false_2 by (apply H; by left). rewrite IH by (intros x Hx; apply H; by right). by rewrite <-app_assoc.
Qed.

Lemma split_take sel l rest inputs remaining n :
  (∀ ref, ref ∈ l → ref_RecordsFile ref ∈ sel) →
  split_refs sel (l ++ rest) inputs remaining (Some n) = split_refs sel rest (inputs ++ l) remaining (Some n).
Proof.
  revert inputs. induction l as [|ref l IH]; intros inputs H; [by rewrite app_nil_r|]. cbn [app split_refs].
  rewrite bool_decide_eq_true_2 by (apply H; by left). rewrite IH by (intros x Hx; apply H; by right). by rewrite <-app_assoc.
Qed.

Lemma split_run (before inputs after : list SegmentRef) :
  NoDup (ref_RecordsFile <$> (before ++ inputs ++ after)) → inputs ≠ [] →
  split_refs (list_to_set (ref_RecordsFile <$> inputs)) (before ++ inputs ++ after) [] [] None
  = (inputs, before ++ after, Some (length before)).
Proof.
  intros Hnd Hne. rewrite !fmap_app in Hnd. apply NoDup_app in Hnd as (H1&H2&H3). apply NoDup_app in H3 as (H4&H5&H6).
  set (sel := list_to_set _ : gset string).
  assert (∀ n, n ∈ sel ↔ n ∈ ref_RecordsFile <$> inputs) as Hsel by (intros n; apply elem_of_list_to_set).
  rewrite split_skip.
  2: { intros ref Hr Hs. apply Hsel in Hs. apply (H2 (ref_RecordsFile ref)); [by apply list_elem_of_fmap_2|]. apply elem_of_app. by left. }
  destruct inputs as [|first inputs]; [done|]. cbn [app split_refs].
  rewrite bool_decide_eq_true_2 by (apply Hsel; by left). rewrite split_take.
  2: { intros ref Hr. apply Hsel. right. by apply list_elem_of_fmap_2. }
  rewrite <-(app_nil_r after) at 1. rewrite split_skip; [done|].
  intros ref Hr Hs. apply Hsel in Hs. apply (H5 _ Hs). by apply list_elem_of_fmap_2.
Qed.

Lemma sorted_app_lt {A} (R : A → A → Prop) l k : StronglySorted R (l ++ k) → StronglySorted R l ∧ StronglySorted R k ∧ ∀ x y, x ∈ l → y ∈ k → R x y.
Proof.
  induction l as [|a l IH]; intros H; [split_and!; [constructor|done|intros x y Hx; by apply not_elem_of_nil in Hx]|].
  apply StronglySorted_inv in H as [H1 H2]. destruct (IH H1) as (H3&H4&H5). apply Forall_app in H2 as [H6 H7].
  split_and!; [by constructor|done|]. intros x y [->|Hx]%elem_of_cons Hy; [by apply (proj1 (Forall_forall _ _) H7)|by apply H5].
Qed.

Lemma sorted_app_join {A} (R : A → A → Prop) l k :
  StronglySorted R l → StronglySorted R k → (∀ x y, x ∈ l → y ∈ k → R x y) → StronglySorted R (l ++ k).
Proof.
  induction 1 as [|a l Hl IH Ha]; intros Hk H; [done|]. cbn [app]. constructor.
  - apply IH; [done|]. intros x y Hx Hy. apply H; [by right|done].
  - apply Forall_app. split; [done|]. apply Forall_forall. intros y Hy. apply H; [by left|done].
Qed.

(** Replacing a run by one segment with the newest LSN of the run. *)
Lemma refs_replace (before inputs after : list SegmentRef) newest merged :
  refs_ok (before ++ inputs ++ after) → last inputs = Some newest → ref_MaxLSN merged = ref_MaxLSN newest →
  0 ≤ ref_SizeBytes merged < two64 → (ref_RecordsFile merged ∉ ref_RecordsFile <$> (before ++ inputs ++ after)) →
  refs_ok (before ++ merged :: after).
Proof.
  intros [Hs Hn Hr] Hl Hm Hsz Hfresh. apply last_Some in Hl as [front ->].
  apply sorted_app_lt in Hs as (S1&S2&S3). apply sorted_app_lt in S2 as (_&S4&S5).
  rewrite !Forall_app in Hr. destruct Hr as (R1&[_ R2]&R3). rewrite Forall_singleton in R2.
  assert (newest ∈ front ++ [newest]) as Hin by (apply elem_of_app; right; by left).
  constructor.
  - apply sorted_app_join; [done| |].
    + constructor; [done|]. apply Forall_forall. intros y Hy. rewrite Hm. by apply S5.
    + intros x y Hx [->|Hy]%elem_of_cons; [rewrite Hm; apply S3; [done|]; apply elem_of_app; by left|].
      apply S3; [done|]. apply elem_of_app. by right.
  - rewrite !fmap_app in Hn, Hfresh. rewrite !fmap_app, fmap_cons. rewrite !not_elem_of_app in Hfresh. destruct Hfresh as (F1&_&F3).
    apply NoDup_app in Hn as (N1&N2&N3). apply NoDup_app in N3 as (_&_&N4).
    apply NoDup_app. split_and!; [done| |by constructor].
    intros x Hx. rewrite not_elem_of_cons. split; [by intros ->|]. intros Ha. apply (N2 x Hx). apply elem_of_app. by right.
  - apply Forall_app. split; [done|]. constructor; [|done]. split; [rewrite Hm; by apply R2|done].
Qed.

Lemma sum_sizes_range l total d d' n : 0 ≤ total < two64 → sum_sizes l total d = (d', Ok n) → 0 ≤ n < two64.
Proof.
  revert total d. induction l as [|x l IH]; intros total d Ht; cbn [sum_sizes]; [by intros [= _ <-]|].
  destruct (String.eqb x ""); [by apply IH|]. intros H. apply bind_ok in H as (d1&size&_&H).
  eapply IH; [|exact H]. apply u64_bounds.
Qed.

Lemma writeSegmentRef_range base records tombstones dimension maxLSN d d' ref :
  writeSegmentRef base records tombstones dimension maxLSN d = (d', Ok ref) → 0 ≤ ref_SizeBytes ref < two64.
Proof.
  unfold writeSegmentRef. intros H. apply bind_ok in H as (d1&m&_&H). apply bind_ok in H as (d2&[]&_&H).
  apply bind_ok in H as (d3&n&Hn&H). injection H as _ <-. cbn [with_size ref_SizeBytes]. eapply sum_sizes_range; [|exact Hn]. unfold two64. lia.
Qed.

(** The run a plan selects, among the references. *)
Lemma selected_run refs plan :
  refs_ok refs → Compaction.Select Compaction.DefaultPolicy (compaction_segment <$> refs) = Ok plan →
  Compaction.Inputs plan ≠ [] →
  ∃ before inputs after, refs = before ++ inputs ++ after ∧ inputs ≠ [] ∧
    Compaction.ID <$> Compaction.Inputs plan = ref_RecordsFile <$> inputs.
Proof.
  intros [Hs _ Hr] Hp Hne. apply Compaction.Select_run in Hp as (b&a&E); [|split; [unfold two64; vm_compute; done|]|done].
  2: { apply Forall_fmap. eapply Forall_impl; [exact Hr|]. by intros ref [_ ?]. }
  rewrite refs_ordered in E by done.
  apply fmap_app_inv in E as (before&rest&->&E&->). symmetry in E. apply fmap_app_inv in E as (inputs&after&Ei&->&->).
  exists before, inputs, after. split; [done|]. rewrite Ei. split; [by intros ->|]. by rewrite <-list_fmap_compose.
Qed.

Lemma selected_length refs plan :
  refs_ok refs → Compaction.Select Compaction.DefaultPolicy (compaction_segment <$> refs) = Ok plan →
  (Compaction.Inputs plan = [] ∧ (length refs < 8)%nat) ∨ 2 ≤ len (Compaction.Inputs plan).
Proof.
  intros [_ _ Hr] Hp. destruct (Compaction.Select_shrinks Compaction.DefaultPolicy (compaction_segment <$> refs) plan) as [[H1 H2]|H]; [done| |done| |by right].
  - split; [unfold two64; vm_compute; done|]. apply Forall_fmap. eapply Forall_impl; [exact Hr|]. by intros ref [_ ?].
  - left. split; [done|]. unfold len in H2. rewrite length_fmap in H2. change (Compaction.MaxSegments Compaction.DefaultPolicy) with 8 in H2. lia.
Qed.

Record segments_ok (F : gmap string (list Z)) (refs : list SegmentRef) (cs : list (list CoreRecord * list string)) : Prop := mkSegmentsOk {
  so_refs : refs_ok refs;
  so_holds : holds_all F refs cs;
  so_contents : Forall contents_ok cs;
  so_count : Z.of_nat (tombstone_count cs) < two64;
}.

(** A reference to files of its own, as [writeSegmentRef] returns it. *)
Record new_ref (base : string) (dimension : Z) (ref : SegmentRef) : Prop := mkNewRef {
  nr_records : ref_RecordsFile ref = base +:+ ".records";
  nr_vectors : ref_VectorsFile ref = base +:+ ".vectors";
  nr_tombstones : ref_TombstonesFile ref = "" ∨ ref_TombstonesFile ref = base +:+ ".tombstones";
  nr_graph : ref_GraphFile ref = "";
  nr_filter : ref_FilterFile ref = "";
  nr_dimension : ref_Dimension ref = dimension;
  nr_positive : 0 < dimension < 2 ^ 32;
}.

Lemma new_ref_names base dimension ref n :
  new_ref base dimension ref → n ∈ ref_names ref → n = "" ∨ n ∈ segment_files base.
Proof.
  intros [H1 H2 H3 _ _ _ _]. unfold ref_names, segment_files, bundle_files. rewrite H1, H2. simpl.
  destruct H3 as [-> | ->]; set_solver.
Qed.

Lemma tombstone_count_app cs cs' : tombstone_count (cs ++ cs') = (tombstone_count cs + tombstone_count cs')%nat.
Proof. unfold tombstone_count. by rewrite fmap_app, concat_app, length_app. Qed.

(** A merge written out is a segment that files preserve. *)
Lemma merge_contents cs :
  Forall contents_ok cs → let m := foldl add_segment (mkMerge ∅ ∅) cs in
  contents_ok (sorted_records (live m), sort_slice str_ltb (elements (dead m))) ∧
  (length (sort_slice str_ltb (elements (dead m))) ≤ tombstone_count cs)%nat.
Proof.
  intros H. cbv zeta. destruct (add_segments_durable (mkMerge ∅ ∅) cs empty_durable H) as [H1 H2]. split; [split; cbn [fst snd]|].
  - apply Forall_forall. intros r Hr. unfold sorted_records in Hr. rewrite sort_slice_elem in Hr.
    apply list_elem_of_fmap in Hr as ([k r']&->&Hr%elem_of_map_to_list). by eapply H1.
  - apply Forall_forall. intros k. rewrite sort_slice_elem, elem_of_elements. apply H2.
  - rewrite length_sort_slice. pose proof (add_segments_dead (mkMerge ∅ ∅) cs) as Hd. cbn [dead] in Hd. rewrite size_empty in Hd. exact Hd.
Qed.

Lemma holds_write F G refs cs (names : list string) :
  holds_all F refs cs → (∀ n, n ∉ names → G !! n = F !! n) → (∀ n, n ∈ names → n ∉ all_names refs) → holds_all G refs cs.
Proof.
  intros H Hw Hfresh. apply (holds_all_agree F); [done|]. intros n Hn. symmetry. apply Hw. intros Hin. by apply (Hfresh n Hin).
Qed.

Lemma compact_ok d refs cs dimension sequence d' r :
  segments_ok (files d) refs cs →
  (∀ lsn n, n ∈ segment_files (compact_name lsn sequence) → n ∉ all_names refs) →
  compactSegmentRefs refs dimension sequence d = (d', r) →
  agree (all_names refs) (files d) (files d') ∧
  (∀ n, (∀ lsn, n ∉ segment_files (compact_name lsn sequence)) → files d' !! n = files d !! n) ∧
  match r with
  | Ok refs' => ∃ cs', segments_ok (files d') refs' cs' ∧ (∀ M, view_over M cs' = view_over M cs) ∧
      ref_MaxLSN <$> last refs' = ref_MaxLSN <$> last refs ∧
      (length refs' ≤ length refs ∧ (length refs' < length refs ∨ length refs' < 8) ∧ tombstone_count cs' ≤ tombstone_count cs)%nat ∧
      ∀ ref, ref ∈ refs' → ref ∈ refs ∨ ∃ lsn, new_ref (compact_name lsn sequence) dimension ref
  | Err _ => True
  end.
Proof.
  intros Hok Hfresh. unfold compactSegmentRefs.
  destruct (Compaction.Select _ _) as [plan|e] eqn:Ep.
  2: { unfold io_bind, io_res. intros [= <- <-]. done. }
  unfold io_bind at 1, io_res. destruct (Z.eqb_spec (len (Compaction.Inputs plan)) 0) as [E0|E0].
  { intros [= <- <-]. split; [done|]. split; [done|]. exists cs. split; [done|]. split; [done|]. split; [done|].
    split; [|intros ref Hr; by left]. split; [done|]. split; [|done]. right.
    destruct (selected_length refs plan (so_refs _ _ _ Hok) Ep) as [[_ Hl]|Hl]; lia. }
  assert (2 ≤ len (Compaction.Inputs plan)) as Hlen2.
  { destruct (selected_length refs plan (so_refs _ _ _ Hok) Ep) as [[E _]|Hl]; [|done]. exfalso. apply E0. by rewrite E. }
  assert (Compaction.Inputs plan ≠ []) as Hne by (intros E; apply E0; by rewrite E).
  destruct (selected_run refs plan (so_refs _ _ _ Hok) Ep Hne) as (before&inputs&after&->&Hin&Eid). rewrite Eid.
  rewrite split_run by (done || apply Hok).
  destruct Hok as [Hrefs Hholds Hcon Hcount].
  apply Forall2_app_inv_l in Hholds as (cb&rest&Hb&Hholds&->). apply Forall2_app_inv_l in Hholds as (ci&ca&Hi&Ha&->).
  rewrite !Forall_app in Hcon. destruct Hcon as (Cb&Ci&Ca). rewrite !tombstone_count_app in Hcount.
  unfold io_bind at 1. destruct (materializeSegments inputs d) as [d1 [[records tombstones]|e]] eqn:Em.
  2: { intros [= <- <-]. pose proof (rd_files _ _ (reader_materialize inputs) d) as Hf. rewrite Em in Hf. simpl in Hf. by rewrite Hf. }
  destruct (materialize_ok inputs ci d d1 (records, tombstones) Hi Em) as (Hf1&m&Hm&Hover&Edef&[= -> ->]).
  destruct (last inputs) as [newest|] eqn:El; [|by apply last_None in El].
  set (name := compact_name (ref_MaxLSN newest) sequence) in *.
  assert (∀ n, n ∈ segment_files name → n ∉ all_names (before ++ inputs ++ after)) as Hf by (intros n; apply Hfresh).
  intros Hrun. unfold io_bind in Hrun.
  pose proof (writer_segment (segment_files name) name (sorted_records (live m)) (sort_slice str_ltb (elements (dead m))) dimension
    (ref_MaxLSN newest) (λ n H, H) d1) as Hw. rewrite Hf1 in Hw.
  destruct (writeSegmentRef _ _ _ _ _ d1) as [d2 [merged|e]] eqn:Ew; simpl in Hw.
  2: { injection Hrun as <- <-. split; [|split; [|done]].
    - intros n Hn. symmetry. apply Hw. intros Hin'. by apply (Hf n Hin').
    - intros n Hn. apply Hw. apply Hn. }
  injection Hrun as <- <-. split; [|split].
  { intros n Hn. symmetry. apply Hw. intros Hin'. by apply (Hf n Hin'). }
  { intros n Hn. apply Hw. apply Hn. }
  pose proof (merge_contents ci Ci) as Hmc. rewrite <-Edef in Hmc. destruct Hmc as [Hmc Hml].
  pose proof (ro_range _ Hrefs) as Hrange. rewrite !Forall_app in Hrange. destruct Hrange as (_&Hri&_).
  assert (newest ∈ inputs) as Hnewest by (apply last_Some in El as [front ->]; apply elem_of_app; right; by left).
  rewrite Forall_forall in Hri. destruct (Hri newest Hnewest) as [Hlsn _].
  apply writeSegmentRef_ok in Ew as Hs; [|apply (Forall_impl _ _ _ (proj1 Hmc)); by intros x [? ?]|apply (Forall_impl _ _ _ (proj1 Hmc)); by intros x [? ?]| |done|].
  2: { intros k Hk. destruct Hmc as [_ Hmc]. rewrite Forall_forall in Hmc. apply Hmc. simpl. by rewrite sort_slice_elem, elem_of_elements. }
  2: { rewrite length_sort_slice in Hml. unfold size, set_size in *. simpl in *. lia. }
  destruct Hs as (Hmh&N1&N2&N3&N4&N5&N6&N7&N8).
  set (c := (sorted_records (live m), sort_slice str_ltb (elements (dead m)))) in *.
  exists (cb ++ c :: ca).
  rewrite take_app_length, drop_app_length.
  assert (∀ l, (∀ n, n ∈ all_names l → n ∈ all_names (before ++ inputs ++ after)) →
    ∀ n, n ∈ segment_files name → n ∉ all_names l) as Hsub by (intros l Hl n Hn Hin'; by apply (Hf n Hn), Hl).
  assert (∀ n l k, n ∈ all_names (l ++ k) ↔ n ∈ all_names l ∨ n ∈ all_names k) as Happ.
  { intros n l k. unfold all_names. by rewrite fmap_app, concat_app, elem_of_app. }
  split_and!.
  - constructor.
    + eapply refs_replace; [done..| |].
      * by eapply writeSegmentRef_range.
      * rewrite N1. intros Hin'. apply (Hf (name +:+ ".records")); [by left|].
        apply list_elem_of_fmap in Hin' as (ref&Er&Hr). unfold all_names. rewrite Er.
        apply list_elem_of_In, in_concat. exists (ref_names ref). split; [|by left].
        apply list_elem_of_In. by apply list_elem_of_fmap_2.
    + apply Forall2_app; [|constructor; [done|]].
      * eapply holds_write; [exact Hb|exact Hw|]. apply Hsub. intros n Hn. apply Happ. by left.
      * eapply holds_write; [exact Ha|exact Hw|]. apply Hsub. intros n Hn. rewrite !Happ. by right; right.
    + apply Forall_app. split; [done|]. by constructor.
    + rewrite tombstone_count_app. unfold tombstone_count at 2. rewrite fmap_cons. cbn [concat]. rewrite length_app.
      fold (tombstone_count ca). unfold c. cbn [snd]. lia.
  - intros M. unfold view_over. rewrite !foldl_app. cbn [foldl]. f_equal. unfold c. rewrite merge_segment by done. apply Hover.
  - destruct after as [|a after]; [|rewrite !last_app, !last_cons; by destruct (last after)].
    rewrite !last_app, last_nil, El. simpl. by rewrite N6.
  - rewrite !length_app. simpl. apply (f_equal length) in Eid. rewrite !length_fmap in Eid. unfold len in Hlen2. lia.
  - rewrite !length_app. simpl. apply (f_equal length) in Eid. rewrite !length_fmap in Eid. unfold len in Hlen2. lia.
  - rewrite !tombstone_count_app. unfold tombstone_count at 2. rewrite fmap_cons. cbn [concat]. rewrite length_app.
    fold (tombstone_count ca). unfold c. cbn [snd]. lia.
  - intros ref [Hr|[->|Hr]%elem_of_cons]%elem_of_app; [left; rewrite !elem_of_app; by left| |left; rewrite !elem_of_app; by right; right].
    right. exists (ref_MaxLSN newest). constructor; try done. rewrite N3. destruct (_ <? _); [by right|by left].
Qed.

(** Two views with the same effect load as the same records and tombstones. *)
Lemma materialize_same F G refs refs' cs cs' :
  holds_all F refs cs → holds_all G refs' cs' → (∀ M, view_over M cs = view_over M cs') →
  quiet F (materializeSegments refs) = quiet G (materializeSegments refs').
Proof.
  intros H H' Heq. rewrite (quiet_materialize _ _ _ H), (quiet_materialize _ _ _ H'). cbv zeta.
  assert (foldl add_segment (mkMerge ∅ ∅) cs = foldl add_segment (mkMerge ∅ ∅) cs') as ->; [|done].
  apply merge_determined; [apply (add_segments_ok cs _ ∅), empty_merge_ok|apply (add_segments_ok cs' _ ∅), empty_merge_ok|].
  intros M. destruct (add_segments_ok cs _ M empty_merge_ok) as [_ ->]. destruct (add_segments_ok cs' _ M empty_merge_ok) as [_ ->].
  by rewrite over_empty.
Qed.

Lemma names_of_records refs name : name ∈ ref_RecordsFile <$> refs → name ∈ all_names refs.
Proof.
  intros (ref&->&Hr)%list_elem_of_fmap. unfold all_names. apply list_elem_of_In, in_concat. exists (ref_names ref).
  split; [|by left]. by apply list_elem_of_In, list_elem_of_fmap_2.
Qed.

Lemma segments_none F : segments_ok F [] [].
Proof. constructor; [constructor; constructor|constructor|constructor|done]. Qed.

(** Writing one more segment, newer than the others, with names of its own. *)
Lemma append_segment_ok d refs cs base records (gone : gset string) dimension maxLSN d' ref :
  let tombstones := sort_slice str_ltb (elements gone) in
  segments_ok (files d) refs cs → (∀ n, n ∈ segment_files base → n ∉ all_names refs) →
  writeSegmentRef base records tombstones dimension maxLSN d = (d', Ok ref) →
  Forall durable records → (∀ k : string, k ∈ gone → stable_key k) → 0 ≤ maxLSN < two64 →
  Forall (λ ref, ref_MaxLSN ref < maxLSN) refs → Z.of_nat (tombstone_count cs) + Z.of_nat (size gone) < two64 →
  segments_ok (files d') (refs ++ [ref]) (cs ++ [(records, tombstones)]) ∧ new_ref base dimension ref ∧ ref_MaxLSN ref = maxLSN.
Proof.
  cbv zeta. set (tombstones := sort_slice str_ltb (elements gone)). intros [Ho Hh Hc Hn] Hfresh Hw Hd Hg Hlsn Hlt Hcount.
  assert (∀ k, k ∈ tombstones ↔ k ∈ gone) as Hk by (intros k; unfold tombstones; by rewrite sort_slice_elem, elem_of_elements).
  pose proof (writeSegmentRef_range _ _ _ _ _ _ _ _ Hw) as Hsz.
  pose proof (writer_segment (segment_files base) base records tombstones dimension maxLSN (λ n H, H) d) as Hwr. rewrite Hw in Hwr. simpl in Hwr.
  pose proof Hw as Hs. apply writeSegmentRef_ok in Hs; [|apply (Forall_impl _ _ _ Hd); by intros x [? ?]
    |apply (Forall_impl _ _ _ Hd); by intros x [? ?]|done|done|lia].
  destruct Hs as (Hmh&N1&N2&N3&N4&N5&N6&N7&N8). split; [|split; [|done]].
  - constructor.
    + destruct Ho as [S1 S2 S3]. constructor.
      * apply sorted_app_join; [done|by constructor; [constructor|constructor]|].
        intros x y Hx ->%list_elem_of_singleton. rewrite N6. by apply (proj1 (Forall_forall _ _) Hlt).
      * rewrite fmap_app. apply NoDup_app. split; [done|]. split; [|apply NoDup_singleton].
        intros x Hx Hy. apply list_elem_of_singleton in Hy as ->. rewrite N1 in Hx. apply (Hfresh (base +:+ ".records")); [by left|].
        by apply names_of_records.
      * apply Forall_app. split; [done|]. apply Forall_singleton. by rewrite N6.
    + apply Forall2_app; [|by constructor]. by eapply holds_write.
    + apply Forall_app. split; [done|]. apply Forall_singleton. split; [done|]. simpl. apply Forall_forall. intros k Hin. by apply Hg, Hk.
    + rewrite tombstone_count_app. unfold tombstone_count at 2. simpl. rewrite app_nil_r. unfold tombstones. rewrite length_sort_slice.
      unfold size, set_size in Hcount. simpl in Hcount. lia.
  - constructor; try done. rewrite N3. destruct (_ <? _); [by right|by left].
Qed.

End Files.
