(* ===== verification/MappedViews.v ===== *)
(** * Mapped views

    The two ways a view is loaded agree: [materializeSegments], which reads
    records with their vectors, and [resolveMappedSegments], which reads the
    records alone and leaves the vectors in the mapped columns of the segments
    the locations point into. *)
From Stdlib Require Import ZArith Lia Ascii String.
From stdpp Require Import base tactics list gmap strings.
From S2P Require Import Prelude Wal Core Float Distance TopK Index Segment Shard ShardProofs Persistence Json Column Compaction SegmentFiles Multisegment SegmentIO ViewProofs.
Local Set Warnings "-clear-no-such-hyp".
Local Open Scope string_scope.
Local Open Scope Z_scope.
Local Open Scope list_scope.

(** A record whose vector is elsewhere. *)
Definition strip (r : CoreRecord) : CoreRecord := record (store_record r) [].

Lemma strip_key r : record_key (strip r) = record_key r.
Proof. done. Qed.

Lemma strip_order r : record_order (strip r) = record_order r.
Proof. done. Qed.

(** The record a location points at. *)
Definition located (cs : list (list CoreRecord * list string)) (l : VectorLocation) : option CoreRecord :=
  cs !! loc_Segment l ≫= λ c, c.1 !! loc_Ordinal l.

Record selection_ok (cs : list (list CoreRecord * list string)) (M : gmap string CoreRecord)
    (selected : gmap string (CoreRecord * VectorLocation)) : Prop := mkSelectionOk {
  sl_dom k : is_Some (selected !! k) ↔ is_Some (M !! k);
  sl_value k v : selected !! k = Some v → ∃ r, M !! k = Some r ∧ v.1 = strip r ∧ located cs v.2 = Some r;
}.

Lemma selection_insert cs M selected r l :
  selection_ok cs M selected → located cs l = Some r →
  selection_ok cs (<[record_key r := r]> M) (<[record_key r := (strip r, l)]> selected).
Proof.
  intros [Hd Hv] Hl. constructor.
  - intros k. destruct (decide (k = record_key r)) as [->|Hne]; [by rewrite !lookup_insert_eq|by rewrite !lookup_insert_ne].
  - intros k v. destruct (decide (k = record_key r)) as [->|Hne].
    + rewrite !lookup_insert_eq. intros [= <-]. eauto.
    + rewrite !lookup_insert_ne by done. apply Hv.
Qed.

Lemma selection_delete cs M selected k :
  selection_ok cs M selected → selection_ok cs (delete k M) (delete k selected).
Proof.
  intros [Hd Hv]. constructor.
  - intros k'. destruct (decide (k' = k)) as [->|Hne]; [by rewrite !lookup_delete_eq|by rewrite !lookup_delete_ne].
  - intros k' v [Hne H]%lookup_delete_Some. rewrite lookup_delete_ne by done. by apply Hv.
Qed.

Lemma selection_records cs M selected segmentID (items : list CoreRecord) keys :
  selection_ok cs M selected → cs !! segmentID = Some (items, keys) →
  selection_ok cs (apply_segment M (items, keys))
    (foldl (λ m key, delete key m) (select_records segmentID (strip <$> items) selected) keys).
Proof.
  intros Hs Hc. unfold apply_segment. cbn [fst snd].
  assert (selection_ok cs (Shard.put_records M items) (select_records segmentID (strip <$> items) selected)) as H.
  { unfold select_records. assert (∀ l pre m sel, items = pre ++ l → selection_ok cs m sel →
      selection_ok cs (Shard.put_records m l)
        (foldl (λ m '(ordinal, r), <[record_key r := (r, mkLocation segmentID ordinal)]> m) sel
           (imap (λ ordinal r, ((length pre + ordinal)%nat, r)) (strip <$> l)))) as Hl.
    { induction l as [|r l IH]; intros pre m sel Hi Hm; [done|]. rewrite fmap_cons. cbn [imap foldl].
      change (Shard.put_records m (r :: l)) with (Shard.put_records (<[record_key r := r]> m) l).
      rewrite Nat.add_0_r. specialize (IH (pre ++ [r]) (<[record_key r := r]> m) (<[record_key r := (strip r, mkLocation segmentID (length pre))]> sel)).
      erewrite imap_ext; [apply IH|].
      - by rewrite <-app_assoc.
      - apply selection_insert; [done|]. unfold located. cbn [loc_Segment loc_Ordinal]. rewrite Hc. simpl. rewrite Hi. by apply list_lookup_middle.
      - intros i x _. simpl. f_equal. rewrite length_app. simpl. lia. }
    specialize (Hl items [] M selected eq_refl Hs). simpl in Hl. exact Hl. }
  revert H. generalize (Shard.put_records M items), (select_records segmentID (strip <$> items) selected). clear.
  induction keys as [|k keys IH]; intros m sel H; [done|]. cbn [foldl]. apply IH. by apply selection_delete.
Qed.

Section Files.
Context `{!Json Manifest, !Json (list storedRecord), !Json (list string), !Json persistedIndex}.
Context `{!JsonSpec (list storedRecord) (fmap json_stored), !JsonSpec (list string) (fmap json_string)}.

Lemma reader_select n selected refs : reader (all_names refs) (select_refs n selected refs).
Proof.
  revert n selected. induction refs as [|ref refs IH]; intros n selected; cbn [select_refs]; [apply reader_ret|].
  assert (∀ x, x ∈ ref_names ref → x ∈ all_names (ref :: refs)) as H1 by (intros x Hx; rewrite all_names_cons; by left).
  apply reader_bind.
  { apply reader_records. apply H1. by left. }
  intros items. apply reader_bind; [eapply reader_weaken; [apply reader_tombstones|done]|]. intros keys.
  eapply reader_weaken; [apply IH|]. intros x Hx. rewrite all_names_cons. by right.
Qed.

Lemma quiet_select F refs cs all pre M selected :
  holds_all F refs cs → all = pre ++ cs → selection_ok all M selected →
  ∃ selected', quiet F (select_refs (length pre) selected refs) = Ok selected' ∧ selection_ok all (view_over M cs) selected'.
Proof.
  intros H. revert pre M selected. induction H as [|ref [items keys] refs cs [Hb Hk] Hcs IH]; intros pre M selected Hall Hsel.
  { exists selected. done. }
  cbn [select_refs].
  rewrite (quiet_bind _ F _ _ _ (reader_records [RecordsFile (manifestForRef ref)] _ (list_elem_of_here _ _)) (ba_column _ _ _ Hb)).
  rewrite (quiet_bind _ F _ _ _ (reader_tombstones ref) Hk). cbn [fst snd].
  destruct (IH (pre ++ [(items, keys)]) (apply_segment M (items, keys))
    (foldl (λ m key, delete key m) (select_records (length pre) (strip <$> items) selected) keys)) as (s'&Hq&Hs').
  - by rewrite <-app_assoc.
  - apply selection_records; [done|]. rewrite Hall. by apply list_lookup_middle.
  - rewrite length_app, Nat.add_1_r in Hq. exists s'. split; [exact Hq|exact Hs'].
Qed.

(** The selected records, in the order of the view. *)
Lemma selection_sorted cs M selected :
  keyed M → selection_ok cs M selected →
  let values := sort_slice (by_key pair_ltb (λ v, record_order v.1)) (map_to_list selected).*2 in
  values.*1 = strip <$> sorted_records M ∧
  Forall2 (λ r l, located cs l = Some r) (sorted_records M) values.*2.
Proof.
  intros HM [Hd Hv]. cbv zeta. set (vs := (map_to_list selected).*2).
  (* pair every selected entry with the record it stands for *)
  assert (∃ ps : list (CoreRecord * VectorLocation), (λ p, (strip p.1, p.2)) <$> ps = vs ∧
    Forall (λ p, located cs p.2 = Some p.1) ps ∧ ps.*1 ≡ₚ (map_to_list M).*2) as (ps&E1&E2&E3).
  { exists (omap (λ k, selected !! k ≫= λ v, M !! k ≫= λ r, Some (r, v.2)) (map_to_list selected).*1).
    assert (∀ l, (∀ k v, (k, v) ∈ l → selected !! k = Some v) →
      (λ p, (strip p.1, p.2)) <$> omap (λ k, selected !! k ≫= λ v, M !! k ≫= λ r, Some (r, v.2)) l.*1 = l.*2 ∧
      Forall (λ p, located cs p.2 = Some p.1) (omap (λ k, selected !! k ≫= λ v, M !! k ≫= λ r, Some (r, v.2)) l.*1) ∧
      (omap (λ k, selected !! k ≫= λ v, M !! k ≫= λ r, Some (r, v.2)) l.*1).*1 = omap (λ k, M !! k) l.*1) as Hl.
    { induction l as [|[k v] l IH]; intros Hin; [done|]. destruct IH as (I1&I2&I3); [intros k' v' H; apply Hin; by right|].
      specialize (Hin k v ltac:(by left)). destruct (Hv k v Hin) as (r&Hr&Hs&Hloc).
      rewrite !fmap_cons. cbn [fst snd omap list_omap]. rewrite Hin. cbn [mbind option_bind]. rewrite Hr. cbn [mbind option_bind].
      rewrite !fmap_cons, I1, I3. cbn [fst snd]. split; [by destruct v; simpl in *; subst|]. split; [by constructor|done]. }
    destruct (Hl (map_to_list selected)) as (H1&H2&H3); [intros k v; apply elem_of_map_to_list|].
    split; [exact H1|]. split; [exact H2|]. rewrite H3.
    assert ((map_to_list selected).*1 ≡ₚ (map_to_list M).*1) as Hp.
    { apply NoDup_Permutation; [apply NoDup_fst_map_to_list..|]. intros k. rewrite !list_elem_of_fmap.
      split; intros ([k' x]&->&Hx%elem_of_map_to_list); simpl.
      - destruct (proj1 (Hd k')) as [r Hr]; [eauto|]. exists (k', r). split; [done|by apply elem_of_map_to_list].
      - destruct (proj2 (Hd k')) as [v Hv']; [eauto|]. exists (k', v). split; [done|by apply elem_of_map_to_list]. }
    rewrite Hp. clear -HM.
    assert (∀ l, (∀ k r, (k, r) ∈ l → M !! k = Some r) → omap (λ k, M !! k) l.*1 = l.*2) as Hl; [|rewrite Hl; [done|intros k r; apply elem_of_map_to_list]].
    induction l as [|[k r] l IH]; intros Hin; [done|]. rewrite !fmap_cons. cbn [fst snd omap list_omap].
    rewrite (Hin k r) by by left. f_equal. apply IH. intros k' r' H. apply Hin. by right. }
  set (sorted := sort_slice (by_key pair_ltb (λ p : CoreRecord * VectorLocation, record_order p.1)) ps).
  assert (sort_slice (by_key pair_ltb (λ v : CoreRecord * VectorLocation, record_order v.1)) vs
    = (λ p, (strip p.1, p.2)) <$> sorted) as ->.
  { rewrite <-E1. symmetry. apply sort_slice_fmap. intros [a la] [b lb]. done. }
  assert (sorted.*1 = sorted_records M) as E4.
  { unfold sorted_records, sorted. rewrite (sort_slice_fmap fst _ (by_key pair_ltb record_order)) by done.
    apply (sort_slice_unique_key pair_ltb record_order); [|done]. rewrite E3. apply NoDup_fmap_2_strong; [|by apply values_nodup].
    intros r r' Hr Hr' E. apply values_elem in Hr; [|done]. apply values_elem in Hr'; [|done].
    assert (record_key r = record_key r') as Ek by (unfold record_order in E; injection E as E5 E6; unfold record_key; congruence). congruence. }
  split.
  - rewrite <-E4, <-!list_fmap_compose. done.
  - rewrite <-E4, <-list_fmap_compose. assert (Forall (λ p, located cs p.2 = Some p.1) sorted) as Hs.
    { unfold sorted. by rewrite sort_slice_perm. }
    clear -Hs. induction Hs as [|p l Hp Hl IH]; rewrite ?fmap_cons; constructor; done.
Qed.

Lemma quiet_resolve F refs cs :
  holds_all F refs cs →
  ∃ locations, quiet F (resolveMappedSegments refs) = Ok (strip <$> sorted_records (view_of cs), locations) ∧
    Forall2 (λ r l, located cs l = Some r) (sorted_records (view_of cs)) locations.
Proof.
  intros H. destruct (quiet_select F refs cs cs [] ∅ ∅ H eq_refl) as (selected&Hq&Hs).
  { constructor; [intros k; by rewrite !lookup_empty|]. intros k v. by rewrite lookup_empty. }
  destruct (selection_sorted cs (view_of cs) selected (keyed_view cs ∅ keyed_empty) Hs) as [E1 E2].
  eexists. split; [|exact E2]. unfold resolveMappedSegments. simpl in Hq.
  rewrite (quiet_bind _ F _ _ _ (reader_select 0 ∅ refs) Hq). unfold quiet, io_ret. simpl. by rewrite E1.
Qed.

(** ** The mapped vectors *)

Definition source_ok (mv : MappedVectors) (c : list CoreRecord * list string) : Prop :=
  mv_count mv = len c.1 ∧ ∀ position r, c.1 !! position = Some r → VectorCopy mv (Z.of_nat position) = Ok (Vector r).

Lemma reader_open name dimension count maxLSN : reader [name] (OpenMappedVectors name dimension count maxLSN).
Proof. unfold OpenMappedVectors. apply reader_bind; [apply reader_file; by left|intros; apply reader_res]. Qed.

Lemma reader_sources dimension refs : reader (all_names refs) (open_sources dimension refs).
Proof.
  induction refs as [|ref refs IH]; cbn [open_sources]; [apply reader_ret|]. destruct (negb _); [apply reader_fail|].
  apply reader_bind; [eapply reader_weaken; [apply reader_open|]|].
  - intros n Hn. apply list_elem_of_singleton in Hn as ->. rewrite all_names_cons. left. right. by left.
  - intros source. apply reader_bind; [|intros; apply reader_ret]. eapply reader_weaken; [exact IH|].
    intros n Hn. rewrite all_names_cons. by right.
Qed.

Lemma quiet_sources F refs cs dimension :
  holds_all F refs cs → Forall (λ ref, ref_Dimension ref = dimension) refs →
  ∃ sources, quiet F (open_sources dimension refs) = Ok sources ∧ Forall2 source_ok sources cs.
Proof.
  induction 1 as [|ref c refs cs [Hb _] Hcs IH]; intros Hd; [exists []; by split; [|constructor]|].
  apply Forall_cons in Hd as [Hd Hds]. destruct (IH Hds) as (sources&Hq&Hs). cbn [open_sources]. rewrite Hd, Z.eqb_refl. cbn [negb].
  destruct (ba_vectors _ _ _ Hb) as (mv&Hmv&Hcount&Hcopy). exists (mv :: sources). split; [|constructor; [by split|done]].
  cbn [manifestForRef VectorsFile man_Dimension RecordCount man_MaxLSN] in Hmv.
  rewrite Hd in Hmv. rewrite (quiet_bind _ F _ _ _ (reader_open _ _ _ _) Hmv).
  by rewrite (quiet_bind _ F _ _ _ (reader_sources dimension refs) Hq).
Qed.

(** Every mapping has the dimension it was opened with. *)
Lemma sources_dimension F dimension refs sources :
  quiet F (open_sources dimension refs) = Ok sources → Forall (λ mv, mv_dimension mv = dimension) sources.
Proof.
  revert sources. induction refs as [|ref refs IH]; intros sources; cbn [open_sources].
  { unfold quiet, io_ret. intros [= <-]. constructor. }
  destruct (Z.eqb_spec (ref_Dimension ref) dimension) as [Hd|]; [|done]. cbn [negb].
  destruct (quiet F (OpenMappedVectors (ref_VectorsFile ref) (ref_Dimension ref) (ref_RecordCount ref) (ref_MaxLSN ref))) as [mv|e] eqn:E.
  2: { unfold quiet, io_bind in *. destruct (OpenMappedVectors _ _ _ _ _) as [d r]. simpl in E. by subst r. }
  rewrite (quiet_bind _ F _ _ _ (reader_open _ _ _ _) E).
  destruct (quiet F (open_sources dimension refs)) as [rest|e] eqn:Er.
  2: { unfold quiet, io_bind in *. destruct (open_sources _ _ _) as [d r]. simpl in Er. by subst r. }
  rewrite (quiet_bind _ F _ _ _ (reader_sources dimension refs) Er). unfold quiet, io_ret. intros [= <-]. constructor; [|by apply IH].
  unfold OpenMappedVectors in E. unfold quiet, io_bind, readFile, next_fault in E. simpl in E.
  destruct (F !! _) as [bytes|]; [|done]. unfold io_res, map_vectors in E. simpl in E.
  repeat (case_match; [done|]). destruct (multiply3 _ _ _) as [el ov]. repeat (case_match; [done|]). injection E as <-. cbn [mv_dimension].
  bool_props. congruence.
Qed.

Lemma located_source cs sources l r :
  Forall2 source_ok sources cs → located cs l = Some r →
  ∃ mv c, sources !! loc_Segment l = Some mv ∧ source_ok mv c ∧ c.1 !! loc_Ordinal l = Some r.
Proof.
  intros H Hl. unfold located in Hl. destruct (cs !! loc_Segment l) as [c|] eqn:Ec; [|done]. simpl in Hl.
  destruct (Forall2_lookup_r _ _ _ _ _ H Ec) as (mv&Hmv&Hok). eauto.
Qed.

(** A view's records, read by location and mapped. *)
Record mapped_view (vectors : CompositeMappedVectors) (dimension : Z) (records : list CoreRecord) : Prop := mkMappedView {
  mw_len : len (cm_locations vectors) = len records;
  mw_dimension : cm_dimension vectors = dimension;
  mw_sources : Forall (λ mv, mv_dimension mv = dimension) (cm_sources vectors);
  mw_copy position r : records !! position = Some r → Composite_VectorCopy vectors (Z.of_nat position) = Ok (Vector r);
}.

Lemma quiet_mapped F refs cs dimension :
  holds_all F refs cs → Forall (λ ref, ref_Dimension ref = dimension) refs → refs ≠ [] →
  ∃ locations vectors,
    quiet F (resolveMappedSegments refs) = Ok (strip <$> sorted_records (view_of cs), locations) ∧
    quiet F (OpenCompositeMappedVectors refs locations) = Ok vectors ∧
    mapped_view vectors dimension (sorted_records (view_of cs)).
Proof.
  intros H Hd Hne. destruct (quiet_resolve F refs cs H) as (locations&Hr&Hloc).
  destruct (quiet_sources F refs cs dimension H Hd) as (sources&Hs&Hsrc).
  destruct refs as [|first refs]; [done|].
  assert (ref_Dimension first = dimension) as Hfirst by (by apply Forall_cons in Hd as [? _]).
  exists locations, (mkComposite sources locations (ref_Dimension first)). split; [exact Hr|]. split; [|constructor].
  - cbn [OpenCompositeMappedVectors]. rewrite Hfirst, (quiet_bind _ F _ _ _ (reader_sources dimension _) Hs).
    rewrite (proj2 (forallb_forall _ _)); [done|]. intros l Hl%list_elem_of_In.
    apply list_elem_of_lookup in Hl as [i Hl]. destruct (Forall2_lookup_r _ _ _ _ _ Hloc Hl) as (r&_&Hat).
    destruct (located_source cs sources l r Hsrc Hat) as (mv&c&Hmv&[Hcount _]&Hr').
    unfold location_ok. rewrite Hmv, Hcount. apply lookup_lt_Some in Hr'. unfold len. apply Z.ltb_lt. lia.
  - cbn [cm_locations]. unfold len. f_equal. symmetry. by eapply Forall2_length.
  - done.
  - by apply (sources_dimension F dimension (first :: refs)).
  - intros position r Hp. destruct (Forall2_lookup_l _ _ _ _ _ Hloc Hp) as (l&Hl&Hat).
    destruct (located_source cs sources l r Hsrc Hat) as (mv&c&Hmv&[_ Hcopy]&Hr').
    unfold Composite_VectorCopy. cbn [cm_locations cm_sources]. pose proof (lookup_lt_Some _ _ _ Hl).
    rewrite (proj2 (Z.ltb_ge _ _)), (proj2 (Z.leb_gt _ _)) by (unfold len; lia). cbn [orb]. rewrite Nat2Z.id, Hl, Hmv. by apply Hcopy.
Qed.

(** The live records of a merge from nothing are the view. *)
Lemma live_view cs : live (foldl add_segment (mkMerge ∅ ∅) cs) = view_of cs.
Proof.
  destruct (add_segments_ok cs (mkMerge ∅ ∅) ∅ empty_merge_ok) as [_ Hv]. rewrite over_empty in Hv.
  unfold view_of. rewrite <-Hv. apply map_eq. intros k. unfold over. rewrite merged_lookup, lookup_empty.
  destruct (live _ !! k); [done|]. by destruct (decide _).
Qed.

(** Loading agrees both ways.  From the same files, [resolveMappedSegments]
    gives the records [materializeSegments] gives, without their vectors, and
    mapping the segments' columns at the locations it reports always succeeds
    and reads back, for every record, exactly its vector. *)
Theorem mapped_view_agrees F refs cs dimension :
  holds_all F refs cs → Forall (λ ref, ref_Dimension ref = dimension) refs → refs ≠ [] →
  ∃ records tombstones locations vectors,
    quiet F (materializeSegments refs) = Ok (records, tombstones) ∧
    quiet F (resolveMappedSegments refs) = Ok (strip <$> records, locations) ∧
    quiet F (OpenCompositeMappedVectors refs locations) = Ok vectors ∧
    len (cm_locations vectors) = len records ∧
    ∀ position r, records !! position = Some r → Composite_VectorCopy vectors (Z.of_nat position) = Ok (Vector r).
Proof.
  intros H Hd Hne. pose proof (quiet_materialize F refs cs H) as Hm. cbv zeta in Hm. rewrite live_view in Hm.
  destruct (quiet_mapped F refs cs dimension H Hd Hne) as (locations&vectors&Hr&Ho&[Hl _ _ Hc]).
  by exists (sorted_records (view_of cs)), (sort_slice str_ltb (elements (dead (foldl add_segment (mkMerge ∅ ∅) cs)))), locations, vectors.
Qed.
End Files.
