(* ===== verification/StorageTheorems.v ===== *)
(** * Segment storage: theorems

    Compaction keeps the view of a shard's segments whatever fails, and
    examples of it and of mapped views on files written with the reference
    codec of [JsonInstances.v]. *)
From Stdlib Require Import ZArith Lia Ascii String Sorting.Sorted.
From stdpp Require Import base tactics list gmap strings.
From S2P Require Import Prelude Wal Core Float Distance TopK Index Segment Shard ShardProofs Persistence Json Column Compaction SegmentFiles JsonInstances Multisegment SegmentIO ViewProofs MappedViews.
Local Set Warnings "-clear-no-such-hyp".
Local Open Scope string_scope.
Local Open Scope Z_scope.
Local Open Scope list_scope.

Section Files.
Context `{!Json Manifest, !Json (list storedRecord), !Json (list string), !Json persistedIndex}.
Context `{!JsonSpec (list storedRecord) (fmap json_stored), !JsonSpec (list string) (fmap json_string)}.

(** C38. Compaction keeps the view, whatever fails.  The directory [d] holds the
    segments [refs] and any sequence of outcomes for the calls of the
    operating system; the files compaction writes have names of their own.
    Afterwards, and whether or not it succeeded, the old segments still load
    as they did; and if it did, the segments it returns load as the same
    records and tombstones, are a valid list of references with the same
    newest LSN, and are not more. *)
Theorem compaction_preserves_view d refs cs dimension sequence d' r :
  segments_ok (files d) refs cs →
  (∀ lsn n, n ∈ segment_files (compact_name lsn sequence) → n ∉ all_names refs) →
  compactSegmentRefs refs dimension sequence d = (d', r) →
  quiet (files d') (materializeSegments refs) = quiet (files d) (materializeSegments refs) ∧
  match r with
  | Ok refs' =>
      quiet (files d') (materializeSegments refs') = quiet (files d) (materializeSegments refs) ∧
      refs_ok refs' ∧ (ref_MaxLSN <$> last refs') = (ref_MaxLSN <$> last refs) ∧ (length refs' ≤ length refs)%nat
  | Err _ => True
  end.
Proof.
  intros Hok Hfresh Hrun. pose proof (compact_ok d refs cs dimension sequence d' r Hok Hfresh Hrun) as (Ha&_&Hr).
  pose proof (so_holds _ _ _ Hok) as Hh. split.
  - by apply (materialize_same _ _ _ _ cs cs); [eapply holds_all_agree| |].
  - destruct r as [refs'|e]; [|done]. destruct Hr as (cs'&[R1 R2 _ _]&Hv&Hl&Hn&_).
    split; [by apply (materialize_same _ _ _ _ cs' cs)|]. by destruct Hn as [Hn _].
Qed.
End Files.

(** ** Cleaning up *)

(** The names a manifest mentions. *)
Definition mentions (m : Manifest) (name : string) : Prop :=
  name = "MANIFEST.json" ∨
  name ≠ "" ∧ (name = SegmentFile m ∨ name = RecordsFile m ∨ name = VectorsFile m ∨ name = GraphFile m ∨ name = FilterFile m ∨
    name = PQFile m ∨ ∃ s, s ∈ Segments m ∧ (name = ref_RecordsFile s ∨ name = ref_VectorsFile s ∨ name = ref_GraphFile s ∨
      name = ref_FilterFile s ∨ name = ref_TombstonesFile s)).

Lemma elem_of_named name names : name ∈ named names ↔ name ≠ "" ∧ name ∈ names.
Proof.
  unfold named. rewrite !list_elem_of_In, filter_In, negb_true_iff, String.eqb_neq. tauto.
Qed.

Lemma referenced_mentions m name : name ∈ referenced m ↔ mentions m name.
Proof.
  unfold referenced, mentions. rewrite elem_of_cons, elem_of_app, elem_of_named.
  assert (name ∈ concat (ref_files <$> Segments m) ↔
    name ≠ "" ∧ ∃ s, s ∈ Segments m ∧ (name = ref_RecordsFile s ∨ name = ref_VectorsFile s ∨ name = ref_GraphFile s ∨
      name = ref_FilterFile s ∨ name = ref_TombstonesFile s)) as ->.
  - rewrite list_elem_of_In, in_concat. split.
    + intros (l&Hl%list_elem_of_In&Hn%list_elem_of_In). apply list_elem_of_fmap in Hl as (s&->&Hs).
      unfold ref_files in Hn. apply elem_of_named in Hn as [Hne Hn]. split; [done|]. exists s. split; [done|].
      set_unfold. tauto.
    + intros (Hne&s&Hs&Hn). exists (ref_files s). split; apply list_elem_of_In; [by apply list_elem_of_fmap_2|].
      unfold ref_files. apply elem_of_named. split; [done|]. set_unfold. tauto.
  - set_unfold. tauto.
Qed.

Definition orphan (m : Manifest) (name : string) : Prop := name ∉ referenced m ∧ orphanCandidate name = true.

Lemma remove_file_ok name d d' r :
  removeFile name d = (d', r) →
  (∀ n, n ≠ name → files d' !! n = files d !! n) ∧ (files d' !! name = None ∨ files d' !! name = files d !! name) ∧
  match r with Ok _ => files d' !! name = None | Err _ => True end.
Proof.
  unfold removeFile, next_fault. destruct d as [F [|[] fs]]; simpl; intros [= <- <-]; cbn [files];
    split_and!; try (intros n Hn; by rewrite lookup_delete_ne); try (left; apply lookup_delete_eq); try apply lookup_delete_eq;
    by try right.
Qed.

Lemma remove_orphans_ok m names d d' r :
  remove_orphans (referenced m) names d = (d', r) →
  (∀ n, ¬ orphan m n → files d' !! n = files d !! n) ∧ (∀ n, files d' !! n = None ∨ files d' !! n = files d !! n) ∧
  match r with Ok _ => ∀ n, n ∈ names → orphan m n → files d' !! n = None | Err _ => True end.
Proof.
  revert d. induction names as [|name names IH]; intros d; cbn [remove_orphans].
  { intros [= <- <-]. split_and!; [done|by right|]. intros n Hn. by apply not_elem_of_nil in Hn. }
  destruct (bool_decide (name ∈ referenced m) || negb (orphanCandidate name)) eqn:E.
  - intros H. destruct (IH d H) as (I1&I2&I3). split_and!; [done..|]. destruct r; [|done].
    intros n [->|Hn]%elem_of_cons Ho; [|by apply I3]. destruct Ho as [H1 H2]. rewrite H2, bool_decide_eq_false_2 in E by done. done.
  - apply orb_false_iff in E as [E1%bool_decide_eq_false E2%negb_false_iff]. intros H. unfold io_bind in H.
    destruct (removeFile name d) as [d1 [[]|e]] eqn:Hr; apply remove_file_ok in Hr as (R1&R2&R3).
    + destruct (IH d1 H) as (I1&I2&I3). split_and!.
      * intros n Hn. rewrite I1 by done. apply R1. intros ->. by apply Hn.
      * intros n. destruct (decide (n = name)) as [->|Hne]; [|rewrite <-(R1 n Hne); apply I2].
        destruct (I2 name) as [?|?]; [by left|left; congruence].
      * destruct r; [|done]. intros n [->|Hn]%elem_of_cons Ho; [|by apply I3]. destruct (I2 name); congruence.
    + injection H as <- <-. split_and!; [|intros n|done].
      * intros n Hn. apply R1. intros ->. by apply Hn.
      * destruct (decide (n = name)) as [->|Hne]; [done|right; by apply R1].
Qed.

(** What is read before anything is removed. *)
Lemma cleanup_names m d d' r :
  CleanupOrphans m d = (d', r) →
  (files d' = files d ∧ is_ok r = false) ∨
  ∃ d1, files d1 = files d ∧ remove_orphans (referenced m) (sort_slice str_ltb (map_to_list (files d)).*1) d1 = (d', r).
Proof.
  unfold CleanupOrphans, io_bind, readDir, next_fault. destruct d as [F [|[] fs]]; cbn [files faults]; intros H.
  - right. by exists (mkDisk F []).
  - right. by exists (mkDisk F fs).
  - left. by injection H as <- <-.
  - left. by injection H as <- <-.
Qed.

Lemma cleanup_kept m d d' r n :
  CleanupOrphans m d = (d', r) → mentions m n ∨ orphanCandidate n = false → files d' !! n = files d !! n.
Proof.
  intros [[-> _]|(d1&Ef&H)]%cleanup_names Hn; [done|]. apply remove_orphans_ok in H as (R1&_). rewrite <-Ef. apply R1.
  intros [H1 H2]. destruct Hn as [Hn%referenced_mentions|Hn]; [done|congruence].
Qed.

(** C40. Cleaning up removes the orphans and nothing else, whatever fails.  Every
    file the manifest mentions, and every file whose name is not one the
    program gives to segment files, keeps its bytes; no file changes its
    contents; and when cleaning up succeeds, no orphan is left. *)
Theorem cleanup_removes_only_orphans m d d' r :
  CleanupOrphans m d = (d', r) →
  (∀ n, mentions m n ∨ orphanCandidate n = false → files d' !! n = files d !! n) ∧
  (∀ n, files d' !! n = None ∨ files d' !! n = files d !! n) ∧
  match r with Ok _ => ∀ n, ¬ mentions m n → orphanCandidate n = true → files d' !! n = None | Err _ => True end.
Proof.
  intros H. split; [intros n; by apply (cleanup_kept _ _ _ _ _ H)|].
  destruct (cleanup_names _ _ _ _ H) as [[Ef Er]|(d1&Ef&Hr)]; [split; [right; by rewrite Ef|by destruct r]|].
  apply remove_orphans_ok in Hr as (R1&R2&R3). rewrite Ef in *. split; [done|].
  destruct r; [|done]. intros n H1 H2. rewrite <-referenced_mentions in H1.
  destruct (decide (n ∈ sort_slice str_ltb (map_to_list (files d)).*1)) as [Hin|Hni]; [by apply R3|].
  destruct (R2 n) as [?|Hr]; [done|]. rewrite Hr. apply eq_None_not_Some. intros [b Hb]. apply Hni.
  rewrite sort_slice_elem. apply list_elem_of_fmap. exists (n, b). split; [done|]. by apply elem_of_map_to_list.
Qed.

(** The files of a view are not among them: a checkpoint's [view-...] files
    stay when a later checkpoint replaces them. *)
Lemma view_files_kept m d d' r rest :
  CleanupOrphans m d = (d', r) → files d' !! ("view-" +:+ rest) = files d !! ("view-" +:+ rest).
Proof. intros H. apply (cleanup_kept _ _ _ _ _ H). by right. Qed.

(** ** Examples *)

Definition note (id : string) (x : Z) : CoreRecord := mkCoreRecord id [x; 0] ∅ ∅ ∅ 0 1 "n" "" ∅ ∅.

Lemma note_durable id x :
  json_string id = id → json_string ("n" +:+ String "000" id) = "n" +:+ String "000" id → 0 ≤ x < 2 ^ 32 → durable (note id x).
Proof.
  intros H1 H2 H3. split; [split; [|done]|].
  - unfold json_stored, store_record, note. simpl. rewrite H1. done.
  - repeat constructor; simpl; lia.
Qed.

(** Four segments: two inserts, an update that deletes the second, an insert. *)
Definition sample_contents : list (list CoreRecord * gset string) :=
  [([note "a" 1065353216], ∅); ([note "b" 0], ∅); ([note "a" 0], {["n" +:+ String "000" "b"]}); ([note "c" 1065353216], ∅)].

Definition sample_base (lsn : Z) : string := "segment-" +:+ fmt_020d lsn +:+ "-delta".

Definition written (c : list CoreRecord * gset string) : list CoreRecord * list string :=
  (c.1, sort_slice str_ltb (elements c.2)).

Fixpoint write_samples (lsn : Z) (cs : list (list CoreRecord * gset string)) : IO (list SegmentRef) :=
  match cs with
  | [] => io_ret []
  | c :: cs =>
      let* ref := writeSegmentRef (sample_base lsn) c.1 (sort_slice str_ltb (elements c.2)) 2 lsn in
      let* refs := write_samples (lsn + 1) cs in
      io_ret (ref :: refs)
  end.

Definition sample_disk : disk := (write_samples 1 sample_contents (mkDisk ∅ [])).1.
Definition sample_refs : list SegmentRef :=
  match (write_samples 1 sample_contents (mkDisk ∅ [])).2 with Ok refs => refs | Err _ => [] end.

Lemma sample_names lsn n : n ∈ segment_files (sample_base lsn) → ∃ s, n = "segment-" +:+ fmt_020d lsn +:+ "-delta" +:+ s.
Proof.
  unfold sample_base, segment_files, bundle_files. rewrite !str_app_assoc. simpl. set_solver.
Qed.

Definition numbered (lsn : Z) (n : string) : Prop := n = "" ∨ ∃ k s, 0 ≤ k < lsn ∧ n = "segment-" +:+ fmt_020d k +:+ s.

Definition sample_ok (c : list CoreRecord * gset string) : Prop :=
  Forall durable c.1 ∧ (∀ k : string, k ∈ c.2 → stable_key k) ∧ (size c.2 < 10)%nat.

Lemma numbered_fresh lsn n : 0 ≤ lsn < two64 → numbered lsn n → n ∉ segment_files (sample_base lsn).
Proof.
  intros Hl Hn Hin. apply sample_names in Hin as [s ->]. destruct Hn as [?|(k&t&Hk&E)]; [done|].
  apply (append_suffix_inj "segment-") in E. apply fmt_inj in E as [E _]; lia.
Qed.

Lemma write_samples_ok cs lsn d refs0 cs0 d' refs :
  segments_ok (files d) refs0 cs0 → (∀ n, n ∈ all_names refs0 → numbered lsn n) →
  Forall (λ ref, ref_MaxLSN ref < lsn) refs0 → write_samples lsn cs d = (d', Ok refs) →
  Forall sample_ok cs → 0 ≤ lsn → lsn + len cs < two64 → Z.of_nat (tombstone_count cs0) + 10 * len cs < two64 →
  segments_ok (files d') (refs0 ++ refs) (cs0 ++ (written <$> cs)) ∧
  (∀ n, n ∈ all_names (refs0 ++ refs) → numbered (lsn + len cs) n) ∧
  Forall (λ ref, ref_Dimension ref = 2) refs.
Proof.
  revert lsn d refs0 cs0 refs. induction cs as [|c cs IH]; intros lsn d refs0 cs0 refs Hok Hn Hlt Hw Hcs H0 Hb Hc.
  { injection Hw as <- <-. rewrite !app_nil_r. split_and!; [done| |constructor]. by rewrite Z.add_0_r. }
  rewrite len_cons in Hb, Hc. apply Forall_cons in Hcs as [(S1&S2&S3) Hcs]. cbn [write_samples] in Hw. pose proof (len_nonneg cs).
  apply bind_ok in Hw as (d1&ref&H1&Hw). apply bind_ok in Hw as (d2&refs'&H2&Hw). injection Hw as <- <-.
  apply (append_segment_ok _ refs0 cs0) in H1 as (Hok1&Hnew&Hlsn); [|done| |done|done|lia|done|lia].
  2: { intros n Hin Hin'. eapply numbered_fresh, Hin; [lia|by apply Hn]. }
  destruct (IH (lsn + 1) d1 (refs0 ++ [ref]) (cs0 ++ [written c]) refs') as (R1&R2&R3); try done; try lia.
  - intros n. unfold all_names. rewrite fmap_app, concat_app, elem_of_app. intros [Hin|Hin].
    + destruct (Hn n Hin) as [->|(k&s&Hk&->)]; [by left|]. right. exists k, s. split; [lia|done].
    + assert (n ∈ ref_names ref) as Hin' by (by simpl in Hin).
      apply (new_ref_names _ _ _ _ Hnew) in Hin' as [->|Hin']; [by left|].
      apply sample_names in Hin' as [s ->]. right. eexists lsn, _. split; [lia|done].
  - apply Forall_app. split; [|apply Forall_singleton; lia]. eapply Forall_impl; [exact Hlt|]. simpl. lia.
  - rewrite tombstone_count_app. unfold tombstone_count at 2, written. simpl. rewrite app_nil_r, length_sort_slice.
    unfold size, set_size in S3. simpl in S3. lia.
  - rewrite len_cons, fmap_cons. rewrite <-!app_assoc in R1. rewrite <-!app_assoc in R2. cbn [app] in *. split; [exact R1|].
    split; [by replace (lsn + (1 + len cs)) with (lsn + 1 + len cs) by lia|].
    constructor; [apply Hnew|done].
Qed.

Lemma sample_plain id x :
  json_string id = id → json_string ("n" +:+ String "000" id) = "n" +:+ String "000" id → 0 ≤ x < 2 ^ 32 →
  sample_ok ([note id x], ∅).
Proof.
  intros H1 H2 H3. split; [by apply Forall_singleton, note_durable|]. cbn [snd]. split; [set_solver|]. rewrite size_empty. lia.
Qed.

Lemma sample_contents_ok : Forall sample_ok sample_contents.
Proof.
  unfold sample_contents. apply List.Forall_cons; [by apply sample_plain|].
  apply List.Forall_cons; [by apply sample_plain|]. apply List.Forall_cons; [|apply List.Forall_cons; [by apply sample_plain|apply List.Forall_nil]].
  split; [by apply Forall_singleton, note_durable|]. cbn [snd]. split.
  - intros k ->%elem_of_singleton. by split.
  - rewrite size_singleton. lia.
Qed.

Lemma sample_segments :
  segments_ok (files sample_disk) sample_refs (written <$> sample_contents) ∧
  (∀ n, n ∈ all_names sample_refs → numbered 5 n) ∧ Forall (λ ref, ref_Dimension ref = 2) sample_refs.
Proof.
  apply (write_samples_ok sample_contents 1 (mkDisk ∅ []) [] []).
  - apply segments_none.
  - intros n Hn. by apply not_elem_of_nil in Hn.
  - constructor.
  - unfold sample_disk, sample_refs.
    destruct (write_samples 1 sample_contents (mkDisk ∅ [])) as [d [refs|e]] eqn:E; [done|].
    assert (is_ok (write_samples 1 sample_contents (mkDisk ∅ [])).2 = true) as H by (vm_compute; reflexivity).
    rewrite E in H. discriminate H.
  - apply sample_contents_ok.
  - lia.
  - vm_compute. reflexivity.
  - vm_compute. reflexivity.
Qed.

Lemma compact_fresh lsn k sequence n :
  n ∈ segment_files (sample_base k) → n ∉ segment_files (compact_name lsn sequence).
Proof.
  intros [s ->]%sample_names Hin. unfold compact_name, segment_files, bundle_files in Hin.
  rewrite !str_app_assoc in Hin. cbn [app] in Hin.
  rewrite !elem_of_cons in Hin.
  repeat match goal with H : _ ∨ _ |- _ => destruct H as [H|H] end;
    [..|by apply not_elem_of_nil in Hin];
    match goal with H : _ = _ |- _ => apply (append_suffix_inj "segment-"), fmt_rest in H; discriminate H end.
Qed.

Lemma sample_names_delta n : n ∈ all_names sample_refs → n = "" ∨ ∃ k, n ∈ segment_files (sample_base k).
Proof.
  intros Hn. assert (forallb (λ n, String.eqb n "" || existsb (λ k, bool_decide (n ∈ segment_files (sample_base k))) [1; 2; 3; 4])
    (all_names sample_refs) = true) as H by (vm_compute; reflexivity).
  rewrite forallb_forall in H. apply list_elem_of_In, H, orb_true_iff in Hn as [->%String.eqb_eq|Hn]; [by left|].
  apply existsb_exists in Hn as (k&_&Hk%bool_decide_eq_true). right. by exists k.
Qed.

Lemma sample_fresh sequence lsn n : n ∈ segment_files (compact_name lsn sequence) → n ∉ all_names sample_refs.
Proof.
  intros Hn Hin. destruct (sample_names_delta n Hin) as [->|[k Hk]]; [|exact (compact_fresh lsn k sequence n Hk Hn)].
  unfold compact_name, segment_files, bundle_files in Hn. rewrite !str_app_assoc in Hn. cbn [app] in Hn. rewrite !elem_of_cons in Hn.
  destruct Hn as [Hn|[Hn|[Hn|Hn]]]; [discriminate Hn..|]. by apply not_elem_of_nil in Hn.
Qed.

Lemma compaction_preserves_view_witness :
  ∃ d' refs', compactSegmentRefs sample_refs 2 7 sample_disk = (d', Ok refs') ∧ length refs' = 1%nat ∧
    quiet (files d') (materializeSegments refs') = Ok ([note "a" 0; note "c" 1065353216], ["n" +:+ String "000" "b"]).
Proof.
  destruct (compactSegmentRefs sample_refs 2 7 sample_disk) as [d' r] eqn:E.
  destruct (compaction_preserves_view sample_disk sample_refs (written <$> sample_contents) 2 7 d' r) as [_ H].
  - exact (proj1 sample_segments).
  - exact (sample_fresh 7).
  - exact E.
  - assert (match (compactSegmentRefs sample_refs 2 7 sample_disk).2 with Ok l => length l | Err _ => 0%nat end = 1%nat) as Hl
      by (vm_compute; reflexivity).
    rewrite E in Hl. cbn [snd] in Hl. destruct r as [refs'|e]; [|discriminate Hl]. exists d', refs'.
    split; [reflexivity|]. split; [exact Hl|]. rewrite (proj1 H). vm_compute. reflexivity.
Defined.

Lemma mapped_view_agrees_witness :
  ∃ records locations vectors,
    quiet (files sample_disk) (resolveMappedSegments sample_refs) = Ok (strip <$> records, locations) ∧
    records = [note "a" 0; note "c" 1065353216] ∧
    quiet (files sample_disk) (OpenCompositeMappedVectors sample_refs locations) = Ok vectors ∧
    Composite_VectorCopy vectors 1 = Ok [1065353216; 0].
Proof.
  destruct (mapped_view_agrees (files sample_disk) sample_refs (written <$> sample_contents) 2)
    as (records&tombstones&locations&vectors&H1&H2&H3&H4&H5).
  - exact (so_holds _ _ _ (proj1 sample_segments)).
  - exact (proj2 (proj2 sample_segments)).
  - intros H. assert (length sample_refs = 4%nat) as Hl by (vm_compute; reflexivity). rewrite H in Hl. discriminate Hl.
  - exists records, locations, vectors.
    assert (records = [note "a" 0; note "c" 1065353216]) as Hr.
    { assert (quiet (files sample_disk) (materializeSegments sample_refs) = Ok ([note "a" 0; note "c" 1065353216], ["n" +:+ String "000" "b"]))
        as H by (vm_compute; reflexivity).
      rewrite H in H1. injection H1 as <- _. reflexivity. }
    split; [exact H2|]. split; [exact Hr|]. split; [exact H3|]. rewrite Hr in H5. exact (H5 1%nat (note "c" 1065353216) eq_refl).
Defined.

Definition cleaned_manifest : Manifest :=
  mkManifest 3 "" "" "" "" "view-2.filter" "" 2 4 2 sample_refs.

(** A failure in the middle: the fourth removal is refused. *)
Lemma cleanup_removes_only_orphans_witness :
  ∃ d' r, CleanupOrphans cleaned_manifest
      (mkDisk (<["segment-9.records" := [1]]> (<[".tmp-x" := [2]]> (<["notes.txt" := [3]]> (files sample_disk)))) [Done; Done; FailedBefore]) = (d', r) ∧
    files d' !! "notes.txt" = Some [3] ∧ r = Err io_error.
Proof.
  set (d := mkDisk _ _).
  destruct (CleanupOrphans cleaned_manifest d) as [d' r] eqn:E.
  destruct (cleanup_removes_only_orphans cleaned_manifest d d' r E) as (H1&_&_).
  exists d', r. split; [reflexivity|]. split.
  - rewrite (H1 "notes.txt") by (right; vm_compute; reflexivity). vm_compute. reflexivity.
  - assert ((CleanupOrphans cleaned_manifest d).2 = Err io_error) as H by (vm_compute; reflexivity). rewrite E in H. exact H.
Defined.
