(* ===== verification/MappedIndex.v ===== *)
(** * Mapped exact indexes

    [internal/index/flat/mapped.go]: an exact index over vectors that stay in
    a mapped file, and scoring through the mapping
    ([segmentfile/mmap.go], [composite_mmap.go]).  A source is a record of the
    operations of [MappedSource]; a mapping is open for as long as the model
    reads it, so [BeginRead] succeeds ([generation_lifecycle] shows that a
    generation is not closed under a reader).  [native] says whether the
    platform lets the payload be viewed as [float32] values; elsewhere scores
    are accumulated one element after the other.

    An index is a heap index of [Flat.v] or a mapped one. *)
From Stdlib Require Import ZArith Lia Ascii String.
From stdpp Require Import base tactics list gmap strings.
From S2P Require Import Prelude Wal Core Float Distance TopK Index Segment Flat Shard Persistence Json Column Compaction SegmentFiles Multisegment.
Local Set Warnings "-clear-no-such-hyp".
Local Open Scope string_scope.
Local Open Scope Z_scope.
Local Open Scope list_scope.

(** [MappedSource] *)
Record MappedSource : Type := mkSource {
  ms_Len : Z;
  ms_Dimension : Z;
  ms_VectorCopy : Z → res (list Z);
  ms_Score : string → list Z → Z → res Z;
  ms_ScorePrepared : string → list Z → Z → Z → res Z;
}.

(** ** Scoring through a mapping *)

Definition prepared_norm (metric : string) (query : list Z) : Z :=
  if String.eqb metric MetricCosine then SquaredNorm query else f32_zero.

(** The loop over a payload that is not viewed as floats: the three
    accumulators. *)
Fixpoint accumulate_elements (metric : string) (query vector : list Z) (product bb squared : Z) : res (Z * Z * Z) :=
  match query, vector with
  | queryValue :: query, value :: vector =>
      if String.eqb metric MetricDot then
        accumulate_elements metric query vector (f32_add product (f32_mul queryValue value)) bb squared
      else if String.eqb metric MetricL2 then
        let difference := f32_sub queryValue value in
        accumulate_elements metric query vector product bb (f32_add squared (f32_mul difference difference))
      else if String.eqb metric MetricCosine then
        accumulate_elements metric query vector (f32_add product (f32_mul queryValue value))
          (f32_add bb (f32_mul value value)) squared
      else invalid "unsupported metric"
  | _, _ => Ok (product, bb, squared)
  end.

Definition score_elements (metric : string) (query : list Z) (querySquaredNorm : Z) (vector : list Z) : res Z :=
  let! '(product, bb, squared) := accumulate_elements metric query vector f32_zero f32_zero f32_zero in
  if String.eqb metric MetricDot then Ok product
  else if String.eqb metric MetricL2 then Ok (f32_neg squared)
  else if f32_eqb querySquaredNorm f32_zero || f32_eqb bb f32_zero then Ok f32_zero
  else Ok (f32_div product (f32_sqrt (f32_mul querySquaredNorm bb))).

Definition ScoreAcquiredPrepared (native : bool) (m : MappedVectors) (metric : string) (query : list Z)
    (querySquaredNorm ordinal : Z) : res Z :=
  if negb (len query =? mv_dimension m) then Err (Sentinel ErrDimensionMismatch)
  else if (ordinal <? 0) || (mv_count m <=? ordinal) then Err (Wrapf ErrInvalidArgument "vector ordinal out of range")
  else
    let vector := read_vector (mv_payload m) (Z.to_nat (mv_dimension m)) (Z.to_nat ordinal) in
    if native then ScoreWithQuerySquaredNorm metric query querySquaredNorm vector
    else score_elements metric query querySquaredNorm vector.

Definition ScoreAcquired (native : bool) (m : MappedVectors) (metric : string) (query : list Z) (ordinal : Z) : res Z :=
  ScoreAcquiredPrepared native m metric query (prepared_norm metric query) ordinal.

(** The mapping a location of a composite is in. *)
Definition composite_at {A} (m : CompositeMappedVectors) (ordinal : Z) (read : MappedVectors → Z → res A) : res A :=
  if (ordinal <? 0) || (len (cm_locations m) <=? ordinal) then
    Err (Wrapf ErrInvalidArgument "composite vector ordinal out of range")
  else
    match cm_locations m !! Z.to_nat ordinal with
    | None => Err (Panic "index out of range")
    | Some l =>
        match cm_sources m !! loc_Segment l with
        | None => Err (Panic "index out of range")
        | Some source => read source (Z.of_nat (loc_Ordinal l))
        end
    end.

Definition Composite_ScoreAcquired (native : bool) (m : CompositeMappedVectors) (metric : string) (query : list Z)
    (ordinal : Z) : res Z :=
  composite_at m ordinal (λ source o, ScoreAcquired native source metric query o).

Definition Composite_ScoreAcquiredPrepared (native : bool) (m : CompositeMappedVectors) (metric : string) (query : list Z)
    (querySquaredNorm ordinal : Z) : res Z :=
  composite_at m ordinal (λ source o, ScoreAcquiredPrepared native source metric query querySquaredNorm o).

(** The two implementations of [MappedSource]. *)
Definition mapped_source (native : bool) (m : MappedVectors) : MappedSource :=
  mkSource (mv_count m) (mv_dimension m) (VectorCopy m) (ScoreAcquired native m) (ScoreAcquiredPrepared native m).

Definition composite_source (native : bool) (m : CompositeMappedVectors) : MappedSource :=
  mkSource (len (cm_locations m)) (cm_dimension m) (Composite_VectorCopy m) (Composite_ScoreAcquired native m)
    (Composite_ScoreAcquiredPrepared native m).

(** A source over some vectors of one dimension. *)
Record source_over (source : MappedSource) (dimension : Z) (vectors : list (list Z)) : Prop := mkSourceOver {
  so_len : ms_Len source = len vectors;
  so_dimension : ms_Dimension source = dimension;
  so_copy i v : vectors !! i = Some v → ms_VectorCopy source (Z.of_nat i) = Ok v;
  so_prepared metric query norm i v :
    vectors !! i = Some v → len query = dimension →
    ms_ScorePrepared source metric query norm (Z.of_nat i) = ScoreWithQuerySquaredNorm metric query norm v;
  so_lengths : Forall (λ v, len v = dimension) vectors;
}.

(** ** The index *)

Module Mapped.

Record t : Type := mk { source : MappedSource; metric : string; ids : list Z }.

(** The loop over the ids: none is zero, none occurs twice. *)
Fixpoint check_ids (seen : gset Z) (ids : list Z) : res unit :=
  match ids with
  | [] => Ok tt
  | id :: rest =>
      if id =? 0 then invalid "mapped index IDs must be nonzero"
      else if bool_decide (id ∈ seen) then invalid "duplicate mapped index ID"
      else check_ids ({[id]} ∪ seen) rest
  end.

Definition NewMapped (source : MappedSource) (metric : string) (ids : list Z) : res t :=
  if negb (Metric_Valid metric) || (ms_Dimension source <=? 0) || negb (ms_Len source =? len ids) then
    invalid "invalid mapped index configuration"
  else
    let! _ := check_ids ∅ ids in
    Ok (mk source metric ids).

Definition immutable : error := Errorf "mapped index is immutable".

Fixpoint scan (m : t) (query : list Z) (querySquaredNorm : Z) (k : nat) (allowed : option (Z → bool))
    (entries : list (nat * Z)) (h : list Candidate) : res (list Candidate) :=
  match entries with
  | [] => Ok h
  | (ordinal, id) :: rest =>
      if negb (allows allowed id) then scan m query querySquaredNorm k allowed rest h
      else
        let! score := ms_ScorePrepared (source m) (metric m) query querySquaredNorm (Z.of_nat ordinal) in
        scan m query querySquaredNorm k allowed rest (heap_offer better k h (mkCandidate id score))
  end.

Definition SearchFiltered (m : t) (query : list Z) (k : Z) (allowed : option (Z → bool)) : res (list Candidate) :=
  if negb (len query =? ms_Dimension (source m)) then Err (Sentinel ErrDimensionMismatch)
  else if k <=? 0 then invalid "k must be positive"
  else
    let! h := scan m query (prepared_norm (metric m) query) (Z.to_nat k) allowed (imap pair (ids m)) [] in
    Ok (insertion_sort better h).

Definition Len (m : t) : Z := len (ids m).

(** ** Meaning *)

(** The vectors the source has, as far as it can be read. *)
Definition vectors (m : t) : list (list Z) :=
  (λ i, match ms_VectorCopy (source m) (Z.of_nat i) with Ok v => v | Err _ => [] end) <$> seq 0 (length (ids m)).

Definition contents (m : t) : gmap Z (list Z) := list_to_map (zip (ids m) (vectors m)).

Record readable (m : t) : Prop := mkReadable {
  re_metric : Metric_Valid (metric m) = true;
  re_nodup : NoDup (ids m);
  re_source : source_over (source m) (ms_Dimension (source m)) (vectors m);
}.

Lemma mapped_length m : length (vectors m) = length (ids m).
Proof. unfold vectors. by rewrite length_fmap, length_seq. Qed.

Lemma contents_lookup m id v :
  NoDup (ids m) → contents m !! id = Some v ↔ ∃ o, ids m !! o = Some id ∧ vectors m !! o = Some v.
Proof.
  intros Hnd. unfold contents. rewrite <-elem_of_list_to_map.
  2: { rewrite fst_zip; [done|]. by rewrite mapped_length. }
  rewrite list_elem_of_lookup. split.
  - intros [o Ho]. exists o. apply lookup_zip_with_Some in Ho as (x&y&[= -> ->]&?&?). done.
  - intros (o&H1&H2). exists o. apply lookup_zip_with_Some. eauto.
Qed.

(** The candidates a scan offers, in the order of the column. *)
Definition live (m : t) (query : list Z) (allowed : option (Z → bool)) : list Candidate :=
  (λ '(o, id), mkCandidate id (score_of (metric m) query (default [] (vectors m !! o)))) <$>
    filter (λ '(_, id), allows allowed id = true) (imap pair (ids m)).

Lemma elem_of_ids m o id : (o, id) ∈ imap pair (ids m) ↔ ids m !! o = Some id.
Proof. rewrite list_elem_of_lookup. setoid_rewrite list_lookup_imap_Some. naive_solver. Qed.

Lemma mapped_elem m query allowed c :
  c ∈ live m query allowed ↔
  ∃ o, ids m !! o = Some (CandID c) ∧ allows allowed (CandID c) = true ∧
    CandScore c = score_of (metric m) query (default [] (vectors m !! o)).
Proof.
  unfold live. rewrite list_elem_of_fmap. split.
  - intros ([o id]&->&[Ha Hin]%list_elem_of_filter). apply elem_of_ids in Hin. simpl. eauto.
  - intros (o&Ho&Ha&Hs). exists (o, CandID c). destruct c as [id s]; simpl in *. subst s.
    split; [done|]. apply list_elem_of_filter. split; [done|]. by apply elem_of_ids.
Qed.

Lemma vectors_lookup m o id : ids m !! o = Some id → ∃ v, vectors m !! o = Some v.
Proof. intros H%lookup_lt_Some. apply lookup_lt_is_Some_2. by rewrite mapped_length. Qed.

Lemma mapped_scored m query allowed :
  readable m → live m query allowed ≡ₚ scored (score_of (metric m) query) (allows allowed) (contents m).
Proof.
  intros Hr. pose proof (re_nodup m Hr) as Hnd. apply NoDup_Permutation.
  - unfold live. apply NoDup_fmap_2_strong.
    + intros [o id] [o' id'] [_ H1%elem_of_ids]%list_elem_of_filter [_ H2%elem_of_ids]%list_elem_of_filter [= -> _].
      f_equal. by eapply NoDup_lookup.
    + apply NoDup_filter, NoDup_alt. intros i j [o id]. rewrite !list_lookup_imap_Some. naive_solver.
  - eapply NoDup_fmap_1, scored_nodup.
  - intros c. rewrite mapped_elem, scored_elem. setoid_rewrite (contents_lookup m _ _ Hnd). split.
    + intros (o&Ho&Ha&Hs). destruct (vectors_lookup m o _ Ho) as [v Hv]. rewrite Hv in Hs. simpl in Hs. eauto 6.
    + intros (v&(o&Ho&Hv)&Ha&Hs). exists o. rewrite Hv. done.
Qed.

Lemma mapped_score m query o id :
  readable m → len query = ms_Dimension (source m) → ids m !! o = Some id →
  ms_ScorePrepared (source m) (metric m) query (prepared_norm (metric m) query) (Z.of_nat o)
  = Ok (score_of (metric m) query (default [] (vectors m !! o))).
Proof.
  intros [Hm _ Hs] Hq Ho. destruct (vectors_lookup m o _ Ho) as [v Hv]. rewrite Hv. simpl.
  rewrite (so_prepared _ _ _ Hs _ _ _ _ _ Hv Hq). unfold prepared_norm. rewrite prepared_score. unfold score_of.
  pose proof (Forall_lookup_1 _ _ _ _ (so_lengths _ _ _ Hs) Hv) as Hl. simpl in Hl.
  destruct (Score_ok (metric m) query v Hm) as [s ->]; [congruence|done].
Qed.

Lemma mapped_scan m query k allowed entries h :
  readable m → len query = ms_Dimension (source m) → (∀ o id, (o, id) ∈ entries → ids m !! o = Some id) →
  scan m query (prepared_norm (metric m) query) k allowed entries h =
  Ok (foldl (heap_offer better k) h
       ((λ '(o, id), mkCandidate id (score_of (metric m) query (default [] (vectors m !! o)))) <$>
          filter (λ '(_, id), allows allowed id = true) entries)).
Proof.
  intros Hr Hq. revert h. induction entries as [|[o id] l IH]; intros h Hs; [done|]. cbn [scan].
  assert (∀ o id, (o, id) ∈ l → ids m !! o = Some id) as Hl by (intros o' id' H'; apply Hs; by right).
  destruct (allows allowed id) eqn:Ha; cbn [negb].
  - rewrite filter_cons_True by done. rewrite (mapped_score m query o id Hr Hq) by (apply Hs; by left). cbn [res_bind].
    rewrite fmap_cons. cbn [foldl]. by apply IH.
  - rewrite filter_cons_False by (rewrite Ha; naive_solver). by apply IH.
Qed.

Lemma mapped_search_exact m query k allowed :
  readable m → len query = ms_Dimension (source m) → 0 < k →
  (∀ c, c ∈ scored (score_of (metric m) query) (allows allowed) (contents m) → comparable (CandScore c)) →
  SearchFiltered m query k allowed =
    Ok (take (Z.to_nat k) (sort_slice (by_key cand_key_ltb cand_key)
         (scored (score_of (metric m) query) (allows allowed) (contents m)))).
Proof.
  intros Hr Hq Hk Hc. unfold SearchFiltered. rewrite Hq, Z.eqb_refl, (proj2 (Z.leb_gt _ _)) by lia. cbn [negb].
  rewrite mapped_scan; [|done|done|by intros o id H%elem_of_ids]. cbn [res_bind]. fold (live m query allowed). f_equal.
  pose proof (mapped_scored m query allowed Hr) as Hp.
  transitivity (heap_select better (Z.to_nat k) (live m query allowed)); [done|].
  rewrite select_candidates; [|lia|intros c; rewrite Hp; apply Hc|rewrite Hp; apply scored_nodup].
  f_equal. apply (sort_slice_unique_key cand_key_ltb cand_key); [|done]. rewrite Hp. apply scored_nodup.
Qed.

Lemma Len_contents m : readable m → Len m = Z.of_nat (size (contents m)).
Proof.
  intros Hr. unfold Len, contents. rewrite <-length_map_to_list, map_to_list_to_map.
  - rewrite length_zip_with, mapped_length. unfold len. lia.
  - rewrite fst_zip by (by rewrite mapped_length). apply Hr.
Qed.

Lemma check_ids_ok seen (l : list Z) :
  NoDup l → (∀ id, id ∈ l → id ≠ 0 ∧ id ∉ seen) → check_ids seen l = Ok tt.
Proof.
  revert seen. induction l as [|id l IH]; intros seen Hnd Hl; [done|]. apply NoDup_cons in Hnd as [Hni Hnd]. cbn [check_ids].
  destruct (Hl id) as [H0 Hs]; [by left|]. rewrite (proj2 (Z.eqb_neq _ _) H0), bool_decide_eq_false_2 by done.
  apply IH; [done|]. intros id' Hid. destruct (Hl id') as [H0' Hs']; [by right|]. split; [done|].
  rewrite elem_of_union, elem_of_singleton. intros [->|?]; done.
Qed.

End Mapped.
