(* ===== verification/Sealed.v ===== *)
(** * Sealed segments

    The constructors of [internal/segment/segment.go] and [pq.go] for the
    immutable generations of a shard, and their installation
    ([internal/collection/collection.go]): over mapped vectors, from an HNSW
    graph, from a DiskANN file, and from records with product quantization.

    The index packages these constructors call beyond [flat] are the
    interface [SealedBuilders]; [SealedSpec] states that an index built for a
    list of vectors holds them under the ordinals [1, 2, ...].  A segment that
    keeps its vectors in a file has no vectors in its records. *)
From Stdlib Require Import ZArith Lia Ascii String.
From stdpp Require Import base tactics list gmap strings.
From S2P Require Import Prelude Wal Core Sha256 Float Distance TopK Index Segment Shard Collection Persistence Json Column Compaction SegmentFiles Multisegment MappedIndex.
Local Set Warnings "-clear-no-such-hyp".
Local Open Scope string_scope.
Local Open Scope Z_scope.
Local Open Scope list_scope.

(** [pq.MinTrainingVectors] *)
Definition MinTrainingVectors : Z := 1024.

(** The index packages: [flat.NewMapped]; [binary.New] over a mapping, empty;
    the index of [buildPQIndex] for the vectors read one by one, which reuses
    persisted data that matches; [pq.Train], [EncodeAll] and [pq.Marshal];
    [hnsw.Build] and [MarshalGraph]; [hnsw.LoadGraph]; [diskann.BuildGraph]
    and the bytes [diskann.WriteFile] writes; [diskann.Open] on such bytes,
    with its [VectorCopy]. *)
Class SealedBuilders (I : Type) := {
  build_mapped : MappedSource → string → list Z → res I;
  build_binary_mapped : CollectionConfig → MappedSource → res I;
  build_pq : CollectionConfig → Z → list (list Z) → (list Z → Z → res Z) → option (list Z) → res I;
  train_pq : CollectionConfig → Z → list (list Z) → res (list Z);
  build_graph : Config → list Z → list (list Z) → res (list Z);
  load_graph : Config → list Z → list (list Z) → list Z → res I;
  build_diskann : CollectionConfig → list (list Z) → Z → res (list Z);
  open_diskann : list Z → string → Z → Z → Z → Z → res (I * (Z → res (list Z)));
}.

(** [position + 1] for every position *)
Definition ordinals_of {A} (items : list A) : list Z := imap (λ position _, Z.of_nat position + 1) items.

Definition UsesPQ (config : CollectionConfig) (count : Z) : bool :=
  String.eqb (Type_ (Index config)) IndexFlat && String.eqb (Quantization (Index config)) QuantizationPQ
  && (MinTrainingVectors <=? count).

(** FNV-1a over the keys, each followed by 0xff: [pqFingerprint] and
    [DiskANNTag]. *)
Definition layout_digest (items : list CoreRecord) : Z :=
  fnv64a (items ≫= (λ r, string_bytes (record_key r) ++ [255])).

(** The [int] loop reading every vector. *)
Fixpoint read_all (read : Z → res (list Z)) (positions : list nat) : res (list (list Z)) :=
  match positions with
  | [] => Ok []
  | position :: rest =>
      let! vector := read (Z.of_nat position) in
      let! vectors := read_all read rest in
      Ok (vector :: vectors)
  end.

(** [record.Vector = nil] *)
Definition without_vector (r : CoreRecord) : CoreRecord :=
  mkCoreRecord (ID r) [] (SparseVector r) (Metadata r) (Payload r) (Timestamp r) (Version r) (Namespace r) (Text r)
    (rec_Vectors r) (MultiVectors r).

Module Sealed.
Section Segments.
Context {I MI L : Type} `{VectorIndex I, MetadataIndex MI, LexicalIndex L, IndexBuilders I, SealedBuilders I}.

Local Abbreviation segment := (Segment.t I MI L).

(** ** Placing records *)

Record placed : Type := mkPlaced {
  pl_records : gmap Z CoreRecord;
  pl_ordinals : gmap string Z;
  pl_metadata : MI;
  pl_lexical : L;
}.

(** One round of the loop; [keep] is what is stored of a record, [loaded]
    whether the metadata index was given. *)
Definition place (keep : CoreRecord → CoreRecord) (loaded : bool) (p : placed) (entry : nat * CoreRecord) : placed :=
  let '(position, record) := entry in
  let ordinal := Z.of_nat position + 1 in
  let record := keep record in
  mkPlaced (<[ordinal := record]> (pl_records p)) (<[record_key record := ordinal]> (pl_ordinals p))
    (if loaded then pl_metadata p else meta_Upsert (pl_metadata p) ordinal (Metadata record))
    (lex_add (pl_lexical p) ordinal record).

Definition place_all (keep : CoreRecord → CoreRecord) (metadataIndex : option MI) (items : list CoreRecord) : placed :=
  foldl (place keep (match metadataIndex with Some _ => true | None => false end))
    (mkPlaced ∅ ∅ (match metadataIndex with Some m => m | None => meta_New end) lex_New) (imap pair items).

(** ** Named vectors *)

Fixpoint name_records (entries : list (Z * CoreRecord)) (fields : gmap string (Segment.namedField I))
    (recs : gmap Z CoreRecord) : res (gmap string (Segment.namedField I) * gmap Z CoreRecord) :=
  match entries with
  | [] => Ok (fields, recs)
  | (ordinal, record) :: rest =>
      match Segment.putNamedLocked fields ordinal record with
      | (_, Some e) => Err e
      | (fields, None) => name_records rest fields (<[ordinal := set_named record ∅ ∅]> recs)
      end
  end.

Definition initNamed (config : CollectionConfig) (recs : gmap Z CoreRecord)
    : res (gmap string (Segment.namedField I) * gmap Z CoreRecord) :=
  if (size (Vectors config) =? 0)%nat then Ok (∅, recs)
  else
    let! fields := Segment.build_fields config (VectorFieldNames config) in
    name_records (map_to_list recs) fields recs.

(** ** Constructors *)

Fixpoint upsert_vectors (idx : I) (source : MappedSource) (ids : list Z) (position : Z) : res I :=
  match ids with
  | [] => Ok idx
  | id :: rest =>
      let! vector := ms_VectorCopy source position in
      let! idx := vi_Upsert idx id vector in
      upsert_vectors idx source rest (position + 1)
  end.

(** [buildPQIndex]: the vectors are read only if the persisted data does not
    serve, but reading them has no effect. *)
Definition buildPQIndex (config : CollectionConfig) (items : list CoreRecord) (vectorAt : Z → res (list Z))
    (score : list Z → Z → res Z) (persisted : option (list Z)) : res I :=
  let! vectors := read_all vectorAt (seq 0 (length items)) in
  build_pq config (layout_digest items) vectors score persisted.

Definition mapped_index (config : CollectionConfig) (items : list CoreRecord) (source : MappedSource)
    (pqData : option (list Z)) : res I :=
  let ids := ordinals_of items in
  if String.eqb (Quantization (Index config)) QuantizationBinary then
    let! quantized := build_binary_mapped config source in
    upsert_vectors quantized source ids 0
  else if UsesPQ config (len items) then
    buildPQIndex config items (ms_VectorCopy source) (λ query id, ms_Score source (Metric config) query (id - 1)) pqData
  else build_mapped source (Metric config) ids.

Definition NewMappedWithPQ (config : CollectionConfig) (items : list CoreRecord) (source : MappedSource)
    (metadataIndex : option MI) (pqData : option (list Z)) : res segment :=
  if negb (ms_Dimension source =? Dimension config) then invalid "mapped source dimension mismatch"
  else
    let! idx := mapped_index config items source pqData in
    let p := place_all without_vector metadataIndex items in
    let! '(fields, recs) := initNamed config (pl_records p) in
    Ok (Segment.mk idx (u64 (len items + 1)) recs (pl_ordinals p) (pl_metadata p) true (Some (ms_VectorCopy source))
          (Metric config) (pl_lexical p) fields).

Definition indexConfig (config : CollectionConfig) : Config :=
  Segment.hnsw_config (Dimension config) (Metric config) (Index config).

Definition BuildHNSWGraph (config : CollectionConfig) (items : list CoreRecord) : res (list Z) :=
  build_graph (indexConfig config) (ordinals_of items) (Vector <$> items).

Definition NewHNSWFromGraphWithMetadata (config : CollectionConfig) (items : list CoreRecord) (graph : list Z)
    (metadataIndex : option MI) : res segment :=
  let! idx := load_graph (indexConfig config) (ordinals_of items) (Vector <$> items) graph in
  let p := place_all id metadataIndex items in
  let! '(fields, recs) := initNamed config (pl_records p) in
  Ok (Segment.mk idx (u64 (len items + 1)) recs (pl_ordinals p) (pl_metadata p) true None
        (Metric config) (pl_lexical p) fields).

Definition BuildDiskANN (config : CollectionConfig) (items : list CoreRecord) : res (list Z) :=
  build_diskann config (Vector <$> items) (layout_digest items).

(** The named fields are not created. *)
Definition NewDiskANNWithMetadata (config : CollectionConfig) (items : list CoreRecord) (file : list Z)
    (metadataIndex : option MI) : res segment :=
  let! '(idx, read) := open_diskann file (Metric config) (Dimension config) (len items) (layout_digest items)
                         (EFSearch (Index config)) in
  let p := place_all without_vector metadataIndex items in
  Ok (Segment.mk idx (u64 (len items + 1)) (pl_records p) (pl_ordinals p) (pl_metadata p) true (Some read)
        (Metric config) (pl_lexical p) ∅).

Definition BuildPQ (config : CollectionConfig) (items : list CoreRecord) : res (option (list Z)) :=
  if negb (UsesPQ config (len items)) then Ok None
  else let! data := train_pq config (layout_digest items) (Vector <$> items) in Ok (Some data).

(** The scorer reads the segment's own records. *)
Definition NewImmutableWithPQ (config : CollectionConfig) (items : list CoreRecord) (metadataIndex : option MI)
    (pqData : option (list Z)) : res segment :=
  let! s0 := Segment.New config in
  let! s := Segment.upsert_all s0 items in
  let! idx :=
    if UsesPQ config (len items) && (Z.of_nat (size (Segment.records s)) =? len items) then
      buildPQIndex config items
        (λ position, match items !! Z.to_nat position with Some r => Ok (Vector r) | None => Err (Panic "index out of range") end)
        (λ query id, Score (Metric config) query (match Segment.records s !! id with Some r => Vector r | None => [] end)) pqData
    else Ok (Segment.index s) in
  Ok (Segment.mk idx (Segment.nextID s) (Segment.records s) (Segment.ordinals s)
        (match metadataIndex with Some m => m | None => Segment.metadata s end) true (Segment.vectorAt s) (Segment.metric s)
        (Segment.lexical s) (Segment.named s)).

(** ** Installation *)

Local Abbreviation collection := (Collection.t I MI L).

(** What the installations share: the records must be routed to the shard,
    the version rises, the base is built and installed. *)
Definition install (c : collection) (shardID : Z) (items : list CoreRecord) (misrouted : string)
    (build : CollectionConfig → res segment) : collection * option error :=
  match Collection.shards c !! Z.to_nat shardID with
  | None => (c, Some (Wrapf ErrInvalidArgument "shard out of range"))
  | Some s =>
      let '(v, e) := Collection.check_routed c shardID items (Collection.version c) in
      let c1 := Collection.mk (Collection.config c) (Collection.shards c) v in
      match e with
      | Some _ => (c1, Some (Errorf misrouted))
      | None =>
          match build (Collection.config c) with
          | Err e => (c1, Some e)
          | Ok base =>
              match Shard.InstallImmutable s base with
              | Err e => (c1, Some e)
              | Ok s' => (Collection.set_shard c1 (Z.to_nat shardID) s' v, None)
              end
          end
      end
  end.

Definition InstallRecordsShardWithPQ (c : collection) (shardID : Z) (items : list CoreRecord) (metadataIndex : option MI)
    (pqData : option (list Z)) : collection * option error :=
  install c shardID items "snapshot record routed to wrong shard" (λ config, NewImmutableWithPQ config items metadataIndex pqData).

Definition InstallMappedShardWithPQ (c : collection) (shardID : Z) (items : list CoreRecord) (source : MappedSource)
    (metadataIndex : option MI) (pqData : option (list Z)) : collection * option error :=
  if negb (String.eqb (Type_ (Index (Collection.config c))) IndexFlat) then
    (c, Some (Wrapf ErrInvalidArgument "mapped checkpoints require a flat index"))
  else install c shardID items "mapped segment record routed to wrong shard"
    (λ config, NewMappedWithPQ config items source metadataIndex pqData).

Definition InstallHNSWShardWithMetadata (c : collection) (shardID : Z) (items : list CoreRecord) (graph : list Z)
    (metadataIndex : option MI) : collection * option error :=
  if negb (String.eqb (Type_ (Index (Collection.config c))) IndexHNSW) then
    (c, Some (Wrapf ErrInvalidArgument "graph checkpoints require an hnsw index"))
  else install c shardID items "hnsw segment record routed to wrong shard"
    (λ config, NewHNSWFromGraphWithMetadata config items graph metadataIndex).

Definition InstallDiskANNShardWithMetadata (c : collection) (shardID : Z) (items : list CoreRecord) (file : list Z)
    (metadataIndex : option MI) : collection * option error :=
  if negb (String.eqb (Type_ (Index (Collection.config c))) IndexDiskANN) then
    (c, Some (Wrapf ErrInvalidArgument "diskann checkpoints require a diskann index"))
  else install c shardID items "diskann segment record routed to wrong shard"
    (λ config, NewDiskANNWithMetadata config items file metadataIndex).

End Segments.
End Sealed.
