(* ===== verification/SealedProofs.v ===== *)
(** * Sealed segments: theorems

    Whatever it is built from, a sealed segment stands for the records it was
    given: the same map from keys to records as the mutable segment they came
    from, read through the file that has the vectors when the records do not
    carry them. *)
From Stdlib Require Import ZArith Lia Ascii String.
From stdpp Require Import base tactics list gmap strings.
From S2P Require Import Prelude Wal Core CoreProofs Float Distance TopK Index Segment SegmentProofs Shard ShardProofs Collection CollectionProofs Persistence Json Column Compaction SegmentFiles Multisegment MappedIndex Sealed.
Local Set Warnings "-clear-no-such-hyp".
Local Open Scope string_scope.
Local Open Scope Z_scope.
Local Open Scope list_scope.

(** The vectors under the ordinals [1, 2, ...]. *)
Definition numbered {A} (items : list A) : gmap Z A := list_to_map (zip (ordinals_of items) items).

Lemma ordinals_lookup {A} (items : list A) position : (ordinals_of items) !! position = (λ _, Z.of_nat position + 1) <$> items !! position.
Proof. unfold ordinals_of. by rewrite list_lookup_imap. Qed.

Lemma length_ordinals {A} (items : list A) : length (ordinals_of items) = length items.
Proof. unfold ordinals_of. apply length_imap. Qed.

Lemma ordinals_NoDup {A} (items : list A) : NoDup (ordinals_of items).
Proof. apply NoDup_alt. intros i j x. rewrite !ordinals_lookup. intros (?&_&->)%fmap_Some (?&_&?)%fmap_Some. lia. Qed.

Lemma ordinals_positive {A} (items : list A) id : id ∈ ordinals_of items → 0 < id.
Proof. intros [i Hi]%list_elem_of_lookup. rewrite ordinals_lookup in Hi. apply fmap_Some in Hi as (?&_&->). lia. Qed.

Lemma numbered_lookup {A} (items : list A) o x :
  numbered items !! o = Some x ↔ 1 ≤ o ∧ items !! Z.to_nat (o - 1) = Some x.
Proof.
  unfold numbered. rewrite <-elem_of_list_to_map by (rewrite fst_zip; [apply ordinals_NoDup|by rewrite length_ordinals]).
  rewrite list_elem_of_lookup. split.
  - intros [i Hi]. apply lookup_zip_with_Some in Hi as (a&b&[= -> ->]&Ha&Hb). rewrite ordinals_lookup, Hb in Ha.
    injection Ha as <-. split; [lia|]. by replace (Z.to_nat (Z.of_nat i + 1 - 1)) with i by lia.
  - intros [Ho Hx]. exists (Z.to_nat (o - 1)). apply lookup_zip_with_Some. exists o, x. split; [done|]. split; [|done].
    rewrite ordinals_lookup, Hx. simpl. f_equal. lia.
Qed.

Lemma numbered_position {A} (items : list A) position x :
  items !! position = Some x → numbered items !! (Z.of_nat position + 1) = Some x.
Proof. intros H. apply numbered_lookup. split; [lia|]. by replace (Z.to_nat _) with position by lia. Qed.

Lemma numbered_fmap {A B} (f : A → B) (items : list A) : numbered (f <$> items) = f <$> numbered items.
Proof.
  apply map_eq. intros o. apply option_eq. intros y. rewrite lookup_fmap, fmap_Some, numbered_lookup, list_lookup_fmap, fmap_Some.
  setoid_rewrite numbered_lookup. naive_solver.
Qed.

Lemma numbered_snoc {A} (items : list A) x : numbered (items ++ [x]) = <[len items + 1 := x]> (numbered items).
Proof.
  apply map_eq. intros o. apply option_eq. intros y. rewrite lookup_insert_Some, !numbered_lookup. unfold len. split.
  - intros [Ho Hy]. apply lookup_app_Some in Hy as [Hy|[Hl Hy]].
    + right. split; [apply lookup_lt_Some in Hy; lia|done].
    + apply list_lookup_singleton_Some in Hy as [E ->]. left. split; [lia|done].
  - intros [[<- <-]|[Hne [Ho Hy]]].
    + split; [lia|]. apply lookup_app_Some. right. split; [lia|]. apply list_lookup_singleton_Some. split; [lia|done].
    + split; [done|]. apply lookup_app_Some. by left.
Qed.

Section Spec.
Context {I : Type} `{!VectorIndex I, !VectorIndexSpec I}.

(** A readable index over the vectors, under the ordinals [1, 2, ...]. *)
Record index_over (i : I) (dimension : Z) (metric : string) (vectors : list (list Z)) : Prop := mkIndexOver {
  io_readable : vi_readable i;
  io_dimension : vi_dimension i = dimension;
  io_metric : vi_metric i = metric;
  io_contents : vi_contents i = numbered vectors;
}.
End Spec.

(** What the index packages promise to the constructors: an index built or
    loaded for some vectors is over them, and [flat.NewMapped] succeeds over a
    readable source. *)
Class SealedSpec (I : Type) `{!VectorIndex I, !VectorIndexSpec I, !SealedBuilders I} : Prop := {
  build_mapped_ok source metric vectors :
    source_over source (ms_Dimension source) vectors → Metric_Valid metric = true → 0 < ms_Dimension source →
    ∃ i, build_mapped source metric (ordinals_of vectors) = Ok i ∧ index_over i (ms_Dimension source) metric vectors;
  build_binary_mapped_ok c source i :
    build_binary_mapped c source = Ok i →
    vi_inv i ∧ vi_dimension i = Dimension c ∧ vi_metric i = Metric c ∧ vi_contents i = ∅;
  build_pq_ok c digest vectors score persisted i :
    build_pq c digest vectors score persisted = Ok i → Forall (λ v, len v = Dimension c) vectors →
    index_over i (Dimension c) (Metric c) vectors;
  load_graph_ok cfg vectors graph i :
    load_graph cfg (ordinals_of vectors) vectors graph = Ok i → Forall (λ v, len v = cfg_Dimension cfg) vectors →
    index_over i (cfg_Dimension cfg) (cfg_Metric cfg) vectors;
  open_diskann_ok c vectors tag file ef i read :
    build_diskann c vectors tag = Ok file → open_diskann file (Metric c) (Dimension c) (len vectors) tag ef = Ok (i, read) →
    index_over i (Dimension c) (Metric c) vectors ∧ ∀ position v, vectors !! position = Some v → read (Z.of_nat position) = Ok v;
}.

(** [flat.NewMapped] over a readable source. *)
Lemma NewMapped_ok source metric vectors :
  source_over source (ms_Dimension source) vectors → Metric_Valid metric = true → 0 < ms_Dimension source →
  ∃ m, Mapped.NewMapped source metric (ordinals_of vectors) = Ok m ∧ Mapped.readable m ∧ Mapped.source m = source ∧
    Mapped.metric m = metric ∧ Mapped.contents m = numbered vectors.
Proof.
  intros Hs Hm Hd. unfold Mapped.NewMapped. rewrite Hm, (proj2 (Z.leb_gt _ _)) by lia. cbn [negb orb].
  rewrite (so_len _ _ _ Hs). unfold len at 1 2. rewrite length_ordinals, Z.eqb_refl. cbn [negb].
  rewrite Mapped.check_ids_ok; [|apply ordinals_NoDup|].
  2: { intros id Hid%ordinals_positive. split; [lia|set_solver]. }
  cbn [res_bind]. eexists. split; [done|].
  assert (Mapped.vectors (Mapped.mk source metric (ordinals_of vectors)) = vectors) as Ev.
  { apply list_eq. intros i. unfold Mapped.vectors. cbn [Mapped.ids Mapped.source]. rewrite length_ordinals, list_lookup_fmap.
    destruct (vectors !! i) as [v|] eqn:Ei.
    - rewrite lookup_seq_lt by (by eapply lookup_lt_Some). cbn [fmap option_fmap option_map Nat.add].
      by rewrite (so_copy _ _ _ Hs i v Ei).
    - rewrite lookup_seq_ge by (by apply lookup_ge_None_1). done. }
  split; [|split; [done|split; [done|]]].
  - constructor; cbn [Mapped.metric Mapped.ids Mapped.source]; [done|apply ordinals_NoDup|by rewrite Ev].
  - unfold Mapped.contents, numbered. by rewrite Ev.
Qed.

Section Segments.
Context {I MI L : Type} `{!VectorIndex I, !VectorIndexSpec I, !MetadataIndex MI, !MetadataSpec MI,
  !LexicalIndex L, !IndexBuilders I, !IndexBuildersSpec I, !SealedBuilders I, !SealedSpec I}.
Context (config : CollectionConfig).

(** ** Placing records *)

Lemma imap_snoc {A} (items : list A) x : imap pair (items ++ [x]) = imap pair items ++ [(length items, x)].
Proof. rewrite imap_app. simpl. by rewrite Nat.add_0_r. Qed.

Record placed_ok (keep : CoreRecord → CoreRecord) (p : Sealed.placed (MI := MI) (L := L)) (items : list CoreRecord) : Prop := mkPlacedOk {
  pk_records : Sealed.pl_records p = keep <$> numbered items;
  pk_ordinals k o : Sealed.pl_ordinals p !! k = Some o ↔ ∃ r, numbered items !! o = Some r ∧ record_key r = k;
  pk_metadata : meta_rep (Sealed.pl_metadata p) (Metadata <$> numbered items);
}.

Definition keeps (keep : CoreRecord → CoreRecord) : Prop := ∀ r, record_key (keep r) = record_key r ∧ Metadata (keep r) = Metadata r.

Lemma place_all_ok keep metadataIndex items :
  keeps keep → NoDup (record_key <$> items) →
  match metadataIndex with Some m => meta_rep m (Metadata <$> numbered items) | None => True end →
  placed_ok keep (Sealed.place_all keep metadataIndex items) items.
Proof.
  intros Hkeep Hnd Hm. unfold Sealed.place_all.
  set (loaded := match metadataIndex with Some _ => true | None => false end).
  set (start := Sealed.mkPlaced _ _ _ _).
  assert (∀ items, NoDup (record_key <$> items) → let p := foldl (Sealed.place keep loaded) start (imap pair items) in
    Sealed.pl_records p = keep <$> numbered items ∧
    (∀ k o, Sealed.pl_ordinals p !! k = Some o ↔ ∃ r, numbered items !! o = Some r ∧ record_key r = k) ∧
    (if loaded then Sealed.pl_metadata p = Sealed.pl_metadata start else meta_rep (Sealed.pl_metadata p) (Metadata <$> numbered items))) as H.
  { clear Hnd Hm items. intros items. induction items as [|r items IH] using rev_ind; intros Hnd; cbv zeta.
    - change (numbered []) with (∅ : gmap Z CoreRecord). rewrite !fmap_empty. cbn [imap foldl]. split_and!; [done| |].
      + intros k o. rewrite lookup_empty. split; [done|]. by intros (r&Hr&_).
      + unfold loaded. destruct metadataIndex; [done|]. apply meta_new_ok.
    - rewrite fmap_app in Hnd. apply NoDup_app in Hnd as (Hnd&Hfresh&_). destruct (IH Hnd) as (I1&I2&I3).
      destruct (Hkeep r) as [Hk Hmd]. rewrite imap_snoc, foldl_app. cbn [foldl]. set (p := foldl _ _ _) in *.
      unfold Sealed.place at 1 2 3 4. cbn [Sealed.pl_records Sealed.pl_ordinals Sealed.pl_metadata].
      rewrite numbered_snoc, !fmap_insert, Hk, Hmd, I1. unfold len. split_and!; [done| |].
      + intros k o. rewrite lookup_insert_Some, I2. setoid_rewrite lookup_insert_Some. split.
        * intros [[<- <-]|[Hne (r'&Hr'&<-)]]; [exists r; split; [by left|done]|]. exists r'. split; [|done]. right. split; [|done].
          apply numbered_lookup in Hr' as [Ho Hr']. apply lookup_lt_Some in Hr'. lia.
        * intros (r'&[[<- <-]|[Hne Hr']]&<-); [by left|]. right. split; [|eauto].
          apply numbered_lookup in Hr' as [_ Hr']. apply list_elem_of_lookup_2 in Hr'. intros E.
          apply (Hfresh (record_key r')); [by apply list_elem_of_fmap_2|]. rewrite <-E. by left.
      + destruct loaded; [done|]. apply meta_upsert_ok; [done|lia]. }
  destruct (H items Hnd) as (H1&H2&H3). constructor; [done..|]. subst loaded start. destruct metadataIndex; cbn in H3 |- *; [by rewrite H3|done].
Qed.

(** ** Named vectors *)

Lemma put_all_fields (l : list (string * Segment.namedField I)) o r r' fields :
  rec_Vectors r = rec_Vectors r' → MultiVectors r = MultiVectors r' →
  Segment.put_all l o r fields = Segment.put_all l o r' fields.
Proof.
  intros H1 H2. revert fields. induction l as [|[name f] l IH]; intros fields; [done|]. cbn [Segment.put_all].
  rewrite H1, H2. destruct (Segment.field_put f o _ _) as [f' [e|]]; [done|apply IH].
Qed.

Lemma putNamed_fields fields o r r' :
  rec_Vectors r = rec_Vectors r' → MultiVectors r = MultiVectors r' →
  Segment.putNamedLocked (I := I) fields o r = Segment.putNamedLocked fields o r'.
Proof. apply put_all_fields. Qed.

(** What [keep] must leave of a record for its named vectors. *)
Definition keeps_named (keep : CoreRecord → CoreRecord) : Prop :=
  ∀ r, rec_Vectors (keep r) = rec_Vectors r ∧ MultiVectors (keep r) = MultiVectors r.

(** Entries put one after the other. *)
Definition put_entries {A B} (f : A → B) (m : gmap Z B) (l : list (Z * A)) : gmap Z B := foldl (λ m p, <[p.1 := f p.2]> m) m l.

Lemma put_entries_ne {A B} (f : A → B) (m : gmap Z B) l k : k ∉ l.*1 → put_entries f m l !! k = m !! k.
Proof.
  revert m. induction l as [|[k' x] l IH]; intros m Hk; [done|]. rewrite fmap_cons in Hk. apply not_elem_of_cons in Hk as [Hne Hk].
  unfold put_entries in *. cbn [foldl fst snd]. rewrite IH by done. by rewrite lookup_insert_ne.
Qed.

Lemma put_entries_all {A B} (f : A → B) (m : gmap Z B) (full : gmap Z A) :
  (∀ o, is_Some (m !! o) → is_Some (full !! o)) → put_entries f m (map_to_list full) = f <$> full.
Proof.
  intros Hm. assert (∀ l (m : gmap Z B) k x, NoDup l.*1 → (k, x) ∈ l → put_entries f m l !! k = Some (f x)) as H.
  { clear. induction l as [|[k' y] l IH]; intros m k x Hnd Hin; [by apply not_elem_of_nil in Hin|].
    rewrite fmap_cons in Hnd. apply NoDup_cons in Hnd as [Hni Hnd]. unfold put_entries. cbn [foldl fst snd].
    apply elem_of_cons in Hin as [[= -> ->]|Hin]; [|by apply IH]. change (put_entries f (<[k':=f y]> m) l !! k' = Some (f y)).
    rewrite put_entries_ne by done. apply lookup_insert_eq. }
  apply map_eq. intros o. rewrite lookup_fmap. destruct (full !! o) as [x|] eqn:E.
  - apply H; [apply NoDup_fst_map_to_list|by apply elem_of_map_to_list].
  - rewrite put_entries_ne.
    + apply eq_None_not_Some. intros Ho. apply Hm in Ho. rewrite E in Ho. by destruct Ho.
    + intros ([o' x]&->&Hx%elem_of_map_to_list)%list_elem_of_fmap. simpl in E. congruence.
Qed.

Lemma name_records_ok keep (l : list (Z * CoreRecord)) fields recs full0 :
  keeps_named keep → (∀ o r, (o, r) ∈ l → prepared config r ∧ o ≠ 0) → fields_inv config fields full0 →
  ∃ fields', Sealed.name_records (prod_map id keep <$> l) fields recs
      = Ok (fields', put_entries (λ r, set_named (keep r) ∅ ∅) recs l) ∧
    fields_inv config fields' (put_entries id full0 l).
Proof.
  intros Hkeep. revert fields recs full0. induction l as [|[o r] l IH]; intros fields recs full0 Hl Hf; [by exists fields|].
  rewrite fmap_cons. cbn [prod_map id fst snd Sealed.name_records]. destruct (Hl o r) as [Hp Ho]; [by left|].
  destruct (Hkeep r) as [Hv Hm]. rewrite (putNamed_fields fields o (keep r) r) by done.
  destruct (putNamedLocked_ok config fields full0 o r Hf Hp Ho) as (fields1&->&Hf1).
  apply IH; [|done]. intros o' r' H. apply Hl. by right.
Qed.

(** Without declared fields a prepared record has no named vectors. *)
Lemma no_fields r : Vectors config = ∅ → prepared config r → rec_Vectors r = ∅ ∧ MultiVectors r = ∅.
Proof.
  intros Hv [Hp _]. destruct (prepared_fields config r Hp) as [H1 H2].
  split; apply map_eq; intros name; rewrite lookup_empty; apply eq_None_not_Some; intros [x Hx].
  - apply H1, prepared_vector in Hx as (field&Hl&_). unfold lookup_VectorField in Hl. by rewrite Hv, lookup_empty in Hl.
  - apply H2, prepared_multi in Hx as (field&Hl&_). unfold lookup_VectorField in Hl. by rewrite Hv, lookup_empty in Hl.
Qed.

Lemma fields_none full : Vectors config = ∅ → fields_inv (I := I) config ∅ full.
Proof. intros Hv. split; [by rewrite Hv|]. intros name f H. by rewrite lookup_empty in H. Qed.

Lemma initNamed_ok keep (full : gmap Z CoreRecord) fields recs :
  keeps_named keep → (∀ o r, full !! o = Some r → prepared config r ∧ o ≠ 0) →
  Sealed.initNamed config (keep <$> full) = Ok (fields, recs) →
  fields_inv (I := I) config fields full ∧ recs = (λ r, set_named (keep r) ∅ ∅) <$> full.
Proof.
  intros Hkeep Hfull. unfold Sealed.initNamed. destruct (Nat.eqb_spec (size (Vectors config)) 0) as [E|E].
  - apply map_size_empty_inv in E. intros [= <- <-]. split; [by apply fields_none|]. apply map_eq. intros o. rewrite !lookup_fmap.
    destruct (full !! o) as [r|] eqn:Er; [|done]. simpl. f_equal. destruct (Hfull o r Er) as [Hp _].
    destruct (no_fields r E Hp) as [Hv Hm]. destruct (Hkeep r) as [Kv Km].
    rewrite Hv in Kv. rewrite Hm in Km. unfold set_named. destruct (keep r). simpl in *. by subst.
  - destruct (Segment.build_fields config (VectorFieldNames config)) as [fields0|] eqn:Ef; [|done]. cbn [res_bind].
    pose proof (build_fields_ok config fields0 Ef) as H0. intros Hn. rewrite map_to_list_fmap in Hn.
    destruct (name_records_ok keep (map_to_list full) fields0 (keep <$> full) ∅ Hkeep) as (fields'&Hr&Hf); [|done|].
    { intros o r Hr%elem_of_map_to_list. by apply Hfull. }
    assert (prod_map id keep <$> map_to_list full = (λ p : Z * CoreRecord, (p.1, keep p.2)) <$> map_to_list full) as Hpm.
    { apply list_fmap_ext. by intros ? [? ?]. }
    rewrite <-?Hpm in Hn. rewrite Hr in Hn. injection Hn as <- <-. split.
    + rewrite put_entries_all, map_fmap_id in Hf; [done|]. intros o Ho. rewrite lookup_empty in Ho. by destruct Ho.
    + apply put_entries_all. intros o Ho. by rewrite lookup_fmap, fmap_is_Some in Ho.
Qed.
(** ** Sealed segments hold their records *)

Lemma sealed_inv idx recs ords md sealed lex fields (items : list CoreRecord) :
  index_over idx (Dimension config) (Metric config) (Vector <$> items) → Forall (prepared config) items →
  len items + 1 < two64 → recs = kept sealed <$> numbered items →
  (∀ k o, ords !! k = Some o ↔ ∃ r, numbered items !! o = Some r ∧ record_key r = k) →
  meta_rep md (Metadata <$> numbered items) → fields_inv config fields (numbered items) →
  (∀ read position r, sealed = Some read → items !! position = Some r → read (Z.of_nat position) = Ok (Vector r)) →
  seg_inv config (Segment.mk (MI := MI) (L := L) idx (u64 (len items + 1)) recs ords md true sealed (Metric config) lex fields) (numbered items).
Proof.
  intros [H1 H2 H3 H4] Hp Hn Hr Ho Hm Hf Hv. pose proof (len_nonneg items).
  constructor; cbn [Segment.records Segment.ordinals Segment.index Segment.nextID Segment.metadata Segment.vectorAt
    Segment.readOnly Segment.named Segment.metric]; try done.
  - intros o r [_ Hr']%numbered_lookup. by eapply Forall_lookup_1 in Hr'.
  - by rewrite H4, numbered_fmap.
  - intros read o r -> [Hpos Hr']%numbered_lookup. rewrite <-(Hv read _ r eq_refl Hr'). f_equal. lia.
  - intros o r [Hpos Hr']%numbered_lookup. rewrite u64_small by lia. apply lookup_lt_Some in Hr'. unfold len. lia.
  - rewrite u64_small by lia. lia.
Qed.

Lemma sealed_view (items : list CoreRecord) (sg : Segment.t I MI L) :
  seg_inv config sg (numbered items) → NoDup (record_key <$> items) → view sg (numbered items) = Shard.put_records ∅ items.
Proof.
  intros Hi Hnd. apply map_eq. intros k. apply option_eq. intros r. rewrite (view_lookup config sg _ k r Hi), (put_records_lookup items ∅ k r Hnd).
  rewrite lookup_empty. split.
  - intros (o&Hk&Hr). apply (si_ordinals config sg _ Hi) in Hk as (r'&Hr'&<-). rewrite Hr in Hr'. injection Hr' as <-. left.
    split; [|done]. apply numbered_lookup in Hr as [_ Hr]. by apply list_elem_of_lookup_2 in Hr.
  - intros [[Hr <-]|[_ ?]]; [|done]. apply list_elem_of_lookup in Hr as [position Hr]. apply numbered_position in Hr.
    exists (Z.of_nat position + 1). split; [|done]. apply (si_ordinals config sg _ Hi). eauto.
Qed.

Definition metadata_of (metadataIndex : option MI) (items : list CoreRecord) : Prop :=
  match metadataIndex with Some m => meta_rep m (Metadata <$> numbered items) | None => True end.

(** Records read without their vectors, as a record column has them. *)
Definition stripped (g : CoreRecord → CoreRecord) : Prop :=
  ∀ r, without_vector (g r) = without_vector r ∧ record_key (g r) = record_key r ∧ Metadata (g r) = Metadata r.

Lemma place_stripped g metadataIndex items :
  stripped g → NoDup (record_key <$> items) → metadata_of metadataIndex items →
  let p := Sealed.place_all (L := L) without_vector metadataIndex (g <$> items) in
  Sealed.pl_records p = without_vector <$> numbered items ∧
  (∀ k o, Sealed.pl_ordinals p !! k = Some o ↔ ∃ r, numbered items !! o = Some r ∧ record_key r = k) ∧
  meta_rep (Sealed.pl_metadata p) (Metadata <$> numbered items).
Proof.
  intros Hg Hnd Hm. cbv zeta.
  assert (Metadata <$> numbered (g <$> items) = Metadata <$> numbered items) as Emd.
  { rewrite numbered_fmap, <-map_fmap_compose. apply map_fmap_ext. intros o r _. by destruct (Hg r) as (_&_&?). }
  destruct (place_all_ok without_vector metadataIndex (g <$> items)) as [P1 P2 P3]; [done| | |].
  - rewrite <-list_fmap_compose. erewrite list_fmap_ext; [exact Hnd|]. intros i r _. by destruct (Hg r) as (_&?&_).
  - unfold metadata_of in Hm. destruct metadataIndex; [by rewrite Emd|done].
  - split_and!.
    + rewrite P1, numbered_fmap, <-map_fmap_compose. apply map_fmap_ext. intros o r _. by destruct (Hg r) as (?&_&_).
    + intros k o. rewrite P2, numbered_fmap. setoid_rewrite lookup_fmap_Some. split.
      * intros (r&(r'&<-&Hr')&<-). exists r'. split; [done|]. by destruct (Hg r') as (_&->&_).
      * intros (r&Hr&<-). exists (g r). split; [by exists r|]. by destruct (Hg r) as (_&->&_).
    + by rewrite <-Emd.
Qed.

Lemma numbered_prepared items : Forall (prepared config) items → ∀ o r, numbered items !! o = Some r → prepared config r ∧ o ≠ 0.
Proof. intros Hp o r [Ho Hr]%numbered_lookup. split; [by eapply Forall_lookup_1 in Hr|lia]. Qed.

(** Binary codes are added one by one. *)
Lemma upsert_vectors_ok idx source vs done_ idx' :
  vi_inv idx → vi_dimension idx = Dimension config → vi_metric idx = Metric config → vi_contents idx = numbered done_ →
  Forall (λ v, len v = Dimension config) (done_ ++ vs) →
  (∀ i v, (done_ ++ vs) !! i = Some v → ms_VectorCopy source (Z.of_nat i) = Ok v) →
  Sealed.upsert_vectors idx source (imap (λ i _, Z.of_nat (length done_ + i) + 1) vs) (len done_) = Ok idx' →
  index_over idx' (Dimension config) (Metric config) (done_ ++ vs).
Proof.
  revert idx done_. induction vs as [|v vs IH]; intros idx done_ Hi Hd Hm Hc Hl Hs.
  { intros [= <-]. rewrite app_nil_r. by constructor; [apply vi_inv_readable|..]. }
  cbn [imap Sealed.upsert_vectors]. unfold len at 1.
  rewrite (Hs (length done_) v) by (rewrite lookup_app_r, Nat.sub_diag; [done|lia]). cbn [res_bind].
  rewrite Nat.add_0_r. apply Forall_app in Hl as [Hl1 Hl2]. apply Forall_cons in Hl2 as [Hlv Hl2].
  destruct (vi_upsert_ok idx (Z.of_nat (length done_) + 1) v Hi) as (idx1&->&Hi1&Hd1&Hm1&Hc1); [lia|congruence|]. cbn [res_bind].
  intros Hu. replace (done_ ++ v :: vs) with ((done_ ++ [v]) ++ vs) in * by (by rewrite <-app_assoc).
  apply (IH idx1 (done_ ++ [v])); [done|congruence|congruence| | |done|].
  - rewrite Hc1, Hc, numbered_snoc. done.
  - rewrite !Forall_app. by rewrite Forall_singleton.
  - rewrite len_app. change (len [v]) with 1. rewrite <-Hu. f_equal. apply imap_ext. intros i x _. rewrite length_app. simpl. lia.
Qed.

(** Reading every vector of a readable source. *)
Lemma read_all_ok read (vectors : list (list Z)) n :
  length vectors = n → (∀ position v, vectors !! position = Some v → read (Z.of_nat position) = Ok v) →
  read_all read (seq 0 n) = Ok vectors.
Proof.
  intros <-. assert (∀ vs n, (∀ position v, vs !! position = Some v → read (Z.of_nat (n + position)) = Ok v) →
    read_all read (seq n (length vs)) = Ok vs) as H.
  { clear. induction vs as [|v vs IH]; intros n Hv; [done|]. cbn [length seq read_all].
    pose proof (Hv 0%nat v eq_refl) as H0. rewrite Nat.add_0_r in H0. rewrite H0. cbn [res_bind].
    rewrite (IH (S n)); [done|]. intros position v' Hv'. rewrite <-(Hv (S position) v' Hv'). f_equal. lia. }
  exact (H vectors 0%nat).
Qed.

Lemma mapped_index_ok g (items : list CoreRecord) source pqData idx :
  source_over source (Dimension config) (Vector <$> items) →
  Metric_Valid (Metric config) = true → 0 < Dimension config →
  Sealed.mapped_index config (g <$> items) source pqData = Ok idx →
  index_over idx (Dimension config) (Metric config) (Vector <$> items).
Proof.
  intros Hs Hm Hd. unfold Sealed.mapped_index.
  assert (∀ B (f : CoreRecord → B), ordinals_of (f <$> items) = ordinals_of items) as Eo.
  { intros B f. unfold ordinals_of. apply imap_fmap. }
  destruct (String.eqb _ _).
  - destruct (build_binary_mapped config source) as [q|] eqn:Eb; [|done]. cbn [res_bind]. intros Hu.
    destruct (build_binary_mapped_ok config source q Eb) as (Hi&Hdi&Hme&Hc).
    pose proof (upsert_vectors_ok q source (Vector <$> items) [] idx Hi Hdi Hme Hc) as H. cbn [app] in H.
    apply H; [apply Hs|apply Hs|]. rewrite Eo in Hu. rewrite <-Hu. f_equal. unfold ordinals_of. by rewrite imap_fmap.
  - destruct (UsesPQ _ _).
    + unfold Sealed.buildPQIndex. rewrite length_fmap.
      rewrite (read_all_ok _ (Vector <$> items)); [|apply length_fmap|apply Hs].
      cbn [res_bind]. intros Hb. eapply build_pq_ok; [exact Hb|apply Hs].
    + rewrite Eo. pose proof (so_dimension _ _ _ Hs) as Ed.
      destruct (build_mapped_ok source (Metric config) (Vector <$> items)) as (i&Hb&Hi); [by rewrite Ed|done|by rewrite Ed|].
      rewrite Eo in Hb. rewrite Hb. intros [= <-]. by rewrite Ed in Hi.
Qed.

(** ** The constructors *)

Lemma sealed_holds idx recs ords md sealed lex fields (items : list CoreRecord) :
  NoDup (record_key <$> items) → Forall (prepared config) items → len items + 1 < two64 →
  index_over idx (Dimension config) (Metric config) (Vector <$> items) →
  recs = kept sealed <$> numbered items →
  (∀ k o, ords !! k = Some o ↔ ∃ r, numbered items !! o = Some r ∧ record_key r = k) →
  meta_rep md (Metadata <$> numbered items) → fields_inv config fields (numbered items) →
  (∀ read position r, sealed = Some read → items !! position = Some r → read (Z.of_nat position) = Ok (Vector r)) →
  holds config (Segment.mk (MI := MI) (L := L) idx (u64 (len items + 1)) recs ords md true sealed (Metric config) lex fields)
    (Shard.put_records ∅ items).
Proof.
  intros Hnd Hp Hn Hx Hr Ho Hm Hf Hv. exists (numbered items).
  pose proof (sealed_inv idx recs ords md sealed lex fields items Hx Hp Hn Hr Ho Hm Hf Hv) as Hi.
  split; [exact Hi|]. symmetry. by apply sealed_view.
Qed.

Lemma prepared_lengths items : Forall (prepared config) items → Forall (λ v, len v = Dimension config) (Vector <$> items).
Proof. intros H. apply Forall_fmap. eapply Forall_impl; [exact H|]. intros r (_&_&Hr). exact Hr. Qed.

Lemma stripped_items g (items : list CoreRecord) {B} (f : CoreRecord → B) : (∀ r, f (g r) = f r) → f <$> (g <$> items) = f <$> items.
Proof. intros H. rewrite <-list_fmap_compose. apply list_fmap_ext. intros i r _. apply H. Qed.

Lemma without_named r : set_named (without_vector r) ∅ ∅ = kept (Some (λ _, Ok [])) r.
Proof. by destruct r. Qed.

Lemma stripped_id : stripped id.
Proof. done. Qed.

Lemma NewMapped_holds g items source metadataIndex pqData sg :
  stripped g → NoDup (record_key <$> items) → Forall (prepared config) items → len items + 1 < two64 →
  metadata_of metadataIndex items → Metric_Valid (Metric config) = true → 0 < Dimension config →
  source_over source (Dimension config) (Vector <$> items) →
  Sealed.NewMappedWithPQ config (g <$> items) source metadataIndex pqData = Ok sg →
  holds (L := L) config sg (Shard.put_records ∅ items).
Proof.
  intros Hg Hnd Hp Hn Hm Hv Hd Hs. unfold Sealed.NewMappedWithPQ. rewrite (so_dimension _ _ _ Hs), Z.eqb_refl. cbn [negb].
  destruct (Sealed.mapped_index _ _ _ _) as [idx|] eqn:Ei; [|done]. cbn [res_bind]. cbv zeta.
  destruct (place_stripped g metadataIndex items Hg Hnd Hm) as (P1&P2&P3). rewrite P1.
  destruct (Sealed.initNamed config _) as [[fields recs]|] eqn:En; [|done]. cbn [res_bind]. intros [= <-].
  destruct (initNamed_ok without_vector (numbered items) fields recs) as [Hf ->]; [done|by apply numbered_prepared|done|].
  unfold len at 1. rewrite length_fmap. fold (len items). apply sealed_holds; try done.
  - by eapply mapped_index_ok.
  - intros read position r [= <-] Hr. apply Hs. by rewrite list_lookup_fmap, Hr.
Qed.

(** Records with their vectors. *)
Lemma NewHNSW_holds items graph metadataIndex sg :
  NoDup (record_key <$> items) → Forall (prepared config) items → len items + 1 < two64 → metadata_of metadataIndex items →
  Sealed.NewHNSWFromGraphWithMetadata config items graph metadataIndex = Ok sg →
  holds (L := L) config sg (Shard.put_records ∅ items).
Proof.
  intros Hnd Hp Hn Hm. unfold Sealed.NewHNSWFromGraphWithMetadata.
  destruct (load_graph _ _ _ _) as [idx|] eqn:Ei; [|done]. cbn [res_bind]. cbv zeta.
  destruct (place_all_ok id metadataIndex items) as [P1 P2 P3]; [done|done|exact Hm|]. rewrite P1.
  destruct (Sealed.initNamed config _) as [[fields recs]|] eqn:En; [|done]. cbn [res_bind]. intros [= <-].
  destruct (initNamed_ok id (numbered items) fields recs) as [Hf ->]; [done|by apply numbered_prepared|done|].
  apply sealed_holds; try done. replace (ordinals_of items) with (ordinals_of (Vector <$> items)) in Ei by apply imap_fmap.
  apply (load_graph_ok _ _ _ _ Ei). by apply prepared_lengths.
Qed.

Lemma layout_digest_stripped g items : stripped g → layout_digest (g <$> items) = layout_digest items.
Proof.
  intros Hg. unfold layout_digest. f_equal. induction items as [|r l IH]; [done|]. rewrite fmap_cons. cbn [mbind list_bind].
  destruct (Hg r) as (_&->&_). f_equal. exact IH.
Qed.

(** The named vectors are not rebuilt: without declared fields there are
    none. *)
Lemma NewDiskANN_holds g items file metadataIndex sg :
  stripped g → NoDup (record_key <$> items) → Forall (prepared config) items → len items + 1 < two64 →
  metadata_of metadataIndex items → Vectors config = ∅ →
  Sealed.BuildDiskANN config items = Ok file →
  Sealed.NewDiskANNWithMetadata config (g <$> items) file metadataIndex = Ok sg →
  holds (L := L) config sg (Shard.put_records ∅ items).
Proof.
  intros Hg Hnd Hp Hn Hm Hv. unfold Sealed.BuildDiskANN, Sealed.NewDiskANNWithMetadata. intros Hb.
  destruct (open_diskann _ _ _ _ _ _) as [[idx read]|] eqn:Eo; [|done]. cbn [res_bind]. cbv zeta.
  destruct (place_stripped g metadataIndex items Hg Hnd Hm) as (P1&P2&P3). rewrite P1. intros [= <-].
  rewrite (layout_digest_stripped g items Hg) in Eo. unfold len in Eo |- * at 1. rewrite length_fmap in Eo |- *.
  replace (length items) with (length (Vector <$> items)) in Eo by apply length_fmap. fold (len (Vector <$> items)) in Eo.
  destruct (open_diskann_ok config _ _ file _ idx read Hb Eo) as [Hi Hread]. fold (len items).
  apply sealed_holds; try done.
  - apply map_fmap_ext. intros o r Hr. destruct (numbered_prepared items Hp o r Hr) as [Hpr _].
    destruct (no_fields r Hv Hpr) as [H1 H2]. destruct r. simpl in *. by subst.
  - by apply fields_none.
  - intros read' position r [= <-] Hr. apply Hread. by rewrite list_lookup_fmap, Hr.
Qed.

Lemma New_nextID (sg : Segment.t I MI L) : Segment.New config = Ok sg → Segment.nextID sg = 1.
Proof.
  unfold Segment.New. destruct (Segment.New_index config); [|done]. cbn [res_bind].
  destruct (Segment.build_fields _ _); [|done]. cbn [res_bind]. by intros [= <-].
Qed.

(** Upserts of distinct keys into a fresh segment number the records in their
    order. *)
Lemma upsert_all_numbered (items : list CoreRecord) sg done_ :
  seg_inv config sg (numbered done_) → Segment.readOnly sg = false → Segment.nextID sg = len done_ + 1 →
  NoDup (record_key <$> done_ ++ items) → Forall (prepared config) items → len (done_ ++ items) + 1 < two64 →
  ∃ sg', Segment.upsert_all sg items = Ok sg' ∧ seg_inv config sg' (numbered (done_ ++ items)) ∧ Segment.readOnly sg' = false.
Proof.
  revert sg done_. induction items as [|r items IH]; intros sg done_ Hi Hro Hn Hnd Hp Hl.
  { rewrite app_nil_r. eauto. }
  apply Forall_cons in Hp as [Hr Hp]. rewrite len_app, len_cons in Hl. pose proof (len_nonneg items).
  assert (Segment.ordinals sg !! record_key r = None) as Hfresh.
  { apply eq_None_not_Some. intros [o (r'&[_ Hr']%numbered_lookup&Hk)%(si_ordinals config sg _ Hi)].
    rewrite fmap_app in Hnd. apply NoDup_app in Hnd as (_&Hx&_). apply (Hx (record_key r')).
    - apply list_elem_of_fmap_2. by apply list_elem_of_lookup_2 in Hr'.
    - rewrite Hk. left. }
  destruct (SegmentProofs.Upsert_ok config sg (numbered done_) r Hi Hro Hr) as (sg1&full1&Hu&Hi1&_&Hro1&_&Hf); [lia|].
  destruct (Hf Hfresh) as [-> Hn1]. cbn [Segment.upsert_all]. rewrite Hu.
  rewrite Hn, <-numbered_snoc in Hi1. replace (done_ ++ r :: items) with ((done_ ++ [r]) ++ items) in * by (by rewrite <-app_assoc).
  apply IH; try done.
  - rewrite Hn1, Hn, len_app. done.
  - rewrite !len_app. change (len [r]) with 1. lia.
Qed.

Lemma NewImmutable_holds items metadataIndex pqData sg :
  NoDup (record_key <$> items) → Forall (prepared config) items → len items + 1 < two64 → metadata_of metadataIndex items →
  Sealed.NewImmutableWithPQ config items metadataIndex pqData = Ok sg → holds (L := L) config sg (Shard.put_records ∅ items).
Proof.
  intros Hnd Hp Hn Hm. unfold Sealed.NewImmutableWithPQ.
  destruct (Segment.New config) as [s0|] eqn:E0; [|done]. cbn [res_bind].
  destruct (SegmentProofs.New_ok config s0 E0) as (Hi0&_&Hro0).
  destruct (upsert_all_numbered items s0 []) as (s&->&Hi&Hro); [done|done|by apply New_nextID in E0|done|done|done|].
  cbn [res_bind app] in Hi |- *. destruct (si_mutable config s _ Hi Hro) as [Hvi Hva].
  pose proof (si_contents config s _ Hi) as Hc. pose proof (prepared_lengths items Hp) as Hlen.
  match goal with |- context [res_bind ?X _] => destruct X as [idx|] eqn:Ei; [|done] end. cbn [res_bind]. intros [= <-].
  assert (index_over idx (Dimension config) (Metric config) (Vector <$> items)) as Hx.
  { destruct (_ && _).
    - unfold Sealed.buildPQIndex in Ei. rewrite (read_all_ok _ (Vector <$> items)) in Ei.
      + cbn [res_bind] in Ei. by eapply build_pq_ok.
      + apply length_fmap.
      + intros position v Hv. rewrite Nat2Z.id. rewrite list_lookup_fmap in Hv. by destruct (items !! position); simplify_eq/=.
    - injection Ei as <-. constructor; [by apply vi_inv_readable|apply Hi|apply Hi|]. by rewrite Hc, numbered_fmap. }
  exists (numbered items). split.
  - destruct Hx, Hi. constructor; cbn [Segment.records Segment.ordinals Segment.index Segment.nextID Segment.metadata
      Segment.vectorAt Segment.readOnly Segment.named Segment.metric]; try done.
    + by rewrite io_contents0, numbered_fmap.
    + destruct metadataIndex; done.
  - symmetry. rewrite <-(sealed_view items s Hi Hnd). done.
Qed.
End Segments.
