(* ===== verification/Checkpoint.v ===== *)
(** * Checkpoints and loading of shards

    [internal/engine/engine.go] ([checkpointShardLocked], [loadSegments],
    [openCollectionLogs]) and [multisegment.go] ([buildViewPQ]): how the
    shards of one collection are written to segment files, loaded back, and
    brought up to date from their write-ahead logs.

    The maps of the engine that are keyed by the collection's name and indexed
    by shard are one [store] per shard here, beside the collection.  A store
    has the shard's segment directory and its log; [None] is the nil log of a
    shard this node does not own.  The engine's lock is held throughout every
    operation, so each is one step of a state and error monad. *)
From Stdlib Require Import ZArith Lia Ascii String.
From stdpp Require Import base tactics list gmap strings.
From S2P Require Import Prelude Wal Core Sha256 Float Distance TopK Index Segment Shard Collection Persistence Json Column Compaction SegmentFiles Multisegment MappedIndex Sealed.
Local Open Scope string_scope.
Local Open Scope Z_scope.
Local Open Scope list_scope.

(** What the metadata package promises to the engine: the bytes of a filter
    file for the records of a view ([metadata.MarshalRecords]) and the index
    they load as ([metadata.LoadBinary]). *)
Class FilterFiles (MI : Type) := {
  MarshalRecords : list CoreRecord → res (list Z);
  LoadBinary : list Z → Z → res MI;
}.

Record walMutation : Set := mkMutation {
  mut_Record : option CoreRecord;
  mut_Records : list CoreRecord;
  mut_Namespace : string;
  mut_ID : string;
}.

Definition json_mutation (m : walMutation) : walMutation :=
  mkMutation (json_record <$> mut_Record m) (json_record <$> mut_Records m) (json_string (mut_Namespace m)) (json_string (mut_ID m)).

(** An entry of the ledger of idempotency keys. *)
Record idempotencyEntry : Set := mkEntry {
  ent_Key : string;
  ent_Digest : string;
  ent_Records : list CoreRecord;
  ent_Completed : bool;
  ent_Sequence : Z;
}.

(** A shard's place on disk and what the engine keeps in memory about it. *)
Record store : Set := mkStore {
  directory : disk;
  log : option Log;
  checkpointLSN : Z;
  mutations : Z;
  walDigests : gmap Z (list Z);
  ledger : disk;
  idempotency : gmap string idempotencyEntry;
}.

(** The outcomes of the calls on a shard's log: of one [Append], and of the
    [Sync] and the [Reset] of a checkpoint. *)
Record log_faults : Set := mkLogFaults {
  append_faults : AppendFaults;
  sync_failed : bool;
  reset_fault : option ResetStep;
}.

Definition quiet_log : log_faults := mkLogFaults no_faults false None.

(** [segment-%020d-delta] and the names of a checkpoint's view files. *)
Definition delta_name (maxLSN : Z) : string := "segment-" +:+ fmt_020d maxLSN +:+ "-delta".
Definition view_name (maxLSN : Z) (extension : string) : string := "view-" +:+ fmt_020d maxLSN +:+ extension.
Definition diskann_name (maxLSN : Z) : string := "segment-" +:+ fmt_020d maxLSN +:+ "-view.diskann".

Module Engine.
Section Shards.
Context {I MI L : Type} `{VectorIndex I, MetadataIndex MI, LexicalIndex L, IndexBuilders I, SealedBuilders I, FilterFiles MI}.
Context `{!Json Manifest, !Json (list storedRecord), !Json (list string), !Json persistedIndex}.
Context `{!Json walMutation, !Json (list CoreRecord)}.
Context (native : bool).

Local Abbreviation collection := (Collection.t I MI L).

(** ** A collection and its stores *)

Record t : Type := mk { coll : collection; stores : list store }.

Definition M (A : Type) : Type := t → t * res A.

Definition ret {A} (a : A) : M A := λ s, (s, Ok a).
Definition fail {A} (e : error) : M A := λ s, (s, Err e).
Definition bind {A B} (m : M A) (k : A → M B) : M B :=
  λ s, match m s with (s', Ok a) => k a s' | (s', Err e) => (s', Err e) end.
Definition lift {A} (r : res A) : M A := λ s, (s, r).

Notation "'let+' x := m 'in' k" := (bind m (λ x, k)) (at level 10, x name, k at level 200).
Notation "'let+' ' p := m 'in' k" := (bind m (λ p, k)) (at level 10, p strict pattern, k at level 200).

Definition on_coll (f : collection → collection * option error) : M unit := λ s,
  match f (coll s) with
  | (c, None) => (mk c (stores s), Ok tt)
  | (c, Some e) => (mk c (stores s), Err e)
  end.

Definition ask {A} (f : collection → A) : M A := λ s, (s, Ok (f (coll s))).

Definition on_store {A} (shardID : Z) (f : store → store * res A) : M A := λ s,
  match stores s !! Z.to_nat shardID with
  | None => (s, Err (Panic "index out of range"))
  | Some st => let '(st', r) := f st in (mk (coll s) (<[Z.to_nat shardID := st']> (stores s)), r)
  end.

Definition get_store (shardID : Z) : M store := on_store shardID (λ st, (st, Ok st)).

Definition on_directory {A} (shardID : Z) (m : IO A) : M A :=
  on_store shardID (λ st,
    let '(d, r) := m (directory st) in
    (mkStore d (log st) (checkpointLSN st) (mutations st) (walDigests st) (ledger st) (idempotency st), r)).

(** A method call on the log; on a nil log it panics. *)
Definition on_log {A} (shardID : Z) (f : Log → Log * res A) : M A :=
  on_store shardID (λ st,
    match log st with
    | None => (st, Err (Panic "nil pointer dereference"))
    | Some l =>
        let '(l', r) := f l in
        (mkStore (directory st) (Some l') (checkpointLSN st) (mutations st) (walDigests st) (ledger st) (idempotency st), r)
    end).

Definition set_checkpoint (shardID lsn : Z) : M unit :=
  on_store shardID (λ st,
    (mkStore (directory st) (log st) lsn 0 (walDigests st) (ledger st) (idempotency st), Ok tt)).

Definition set_digests (shardID : Z) (digests : gmap Z (list Z)) : M unit :=
  on_store shardID (λ st,
    (mkStore (directory st) (log st) (checkpointLSN st) (mutations st) digests (ledger st) (idempotency st), Ok tt)).

(** [errors.Is(err, os.ErrNotExist)] on the manifest. *)
Definition load_manifest (shardID : Z) : M (option Manifest) := λ s,
  match on_directory shardID LoadManifest s with
  | (s', Ok m) => (s', Ok (Some m))
  | (s', Err e) => if is_not_exist e then (s', Ok None) else (s', Err e)
  end.

(** ** Writing a checkpoint *)

(** The vectors of the live records, in the order the view is loaded in. *)
Fixpoint order_vectors (vectors : gmap string (list Z)) (ordered : list CoreRecord) : res (list CoreRecord) :=
  match ordered with
  | [] => Ok []
  | r :: rest =>
      match vectors !! record_key r with
      | None => Err (Errorf "multi-segment view record missing from live records")
      | Some v =>
          let! rest := order_vectors vectors rest in
          Ok (mkCoreRecord (ID r) v (SparseVector r) (Metadata r) (Payload r) (Timestamp r) (Version r) (Namespace r) (Text r)
                (rec_Vectors r) (MultiVectors r) :: rest)
      end
  end.

Definition buildViewPQ (config : CollectionConfig) (refs : list SegmentRef) (records : list CoreRecord)
    : IO (option (list Z)) :=
  let* '(ordered, _) := resolveMappedSegments refs in
  let vectors := foldl (λ m r, <[record_key r := Vector r]> m) ∅ records in
  let* ordered := io_res (order_vectors vectors ordered) in
  io_res (Sealed.BuildPQ config ordered).

Definition writeDiskANN (config : CollectionConfig) (name : string) (records : list CoreRecord) (current : string)
    : IO string :=
  if negb (String.eqb (Type_ (Index config)) IndexDiskANN) || (len records =? 0) then io_ret current
  else
    let* file := io_res (Sealed.BuildDiskANN config records) in
    let* _ := writeAtomic name file in
    io_ret name.

Definition is_type (config : CollectionConfig) (type : string) : bool := String.eqb (Type_ (Index config)) type.

(** The references a checkpoint starts from, and what it adds to them. *)
Definition checkpoint_base (old : option Manifest) (records delta : list CoreRecord) (tombstones : list string)
    : IO (list SegmentRef * list CoreRecord * list string) :=
  match old with
  | None => io_ret ([], delta, tombstones)
  | Some m =>
      if Format m =? 1 then io_ret ([], records, [])
      else if Format m =? 2 then let* ref := refFromManifest m in io_ret ([ref], delta, tombstones)
      else io_ret (Segments m, delta, tombstones)
  end.

Definition no_base (old : option Manifest) : bool :=
  match old with None => true | Some m => Format m =? 1 end.

(** The files of a checkpoint, up to the manifest; with the manifest, the
    filter's bytes, the graph's bytes and the quantized vectors. *)
Definition write_view (config : CollectionConfig) (maxLSN : Z) (refs : list SegmentRef) (records : list CoreRecord)
    : IO (Manifest * list Z * list Z * option (list Z)) :=
  let dimension := Dimension config in
  let count := len records in
  let* filterData := io_res (MarshalRecords records) in
  let filterFile := view_name maxLSN ".filter" in
  let* _ := WriteFilter filterFile filterData count maxLSN in
  let* '(graphFile, graphData) :=
    if is_type config IndexHNSW then
      let* graph := io_res (Sealed.BuildHNSWGraph config records) in
      let name := view_name maxLSN ".graph" in
      let* _ := WriteGraph name graph in
      io_ret (name, graph)
    else io_ret ("", []) in
  let* '(pqFile, pqData) :=
    if UsesPQ config count then
      let* data := buildViewPQ config refs records in
      let name := view_name maxLSN ".pq" in
      let* _ := WritePQ name (default [] data) in
      io_ret (name, data)
    else io_ret ("", None) in
  let* graphFile := writeDiskANN config (diskann_name maxLSN) records graphFile in
  let m := mkManifest 3 "" "" "" graphFile filterFile pqFile (u32 dimension) maxLSN count refs in
  let* _ := SaveManifest m in
  io_ret (m, filterData, graphData, pqData).

(** Everything a checkpoint writes: the change since the last one, the
    compaction it allows, and the view. *)
Definition write_checkpoint (config : CollectionConfig) (maxLSN : Z) (old : option Manifest) (records delta : list CoreRecord)
    (tombstones : list string) : IO (Manifest * list Z * list Z * option (list Z)) :=
  let* '(refs, delta, tombstones) := checkpoint_base old records delta tombstones in
  let writeDelta := no_base old || negb (len delta =? 0) || negb (len tombstones =? 0) in
  let* refs :=
    if writeDelta then
      let* ref := writeSegmentRef (delta_name maxLSN) delta tombstones (Dimension config) maxLSN in
      io_ret (refs ++ [ref])
    else io_ret refs in
  let* refs := compactSegmentRefs refs (Dimension config) maxLSN in
  write_view config maxLSN refs records.

(** Installing what was written. *)
Definition install_view (shardID : Z) (m : Manifest) (records : list CoreRecord) (metadataIndex : MI) (graphData : list Z)
    (pqData : option (list Z)) : M unit :=
  let+ config := ask Collection.config in
  if is_type config IndexHNSW then
    on_coll (λ c, Sealed.InstallHNSWShardWithMetadata c shardID records graphData (Some metadataIndex))
  else if is_type config IndexDiskANN && negb (String.eqb (GraphFile m) "") then
    let+ file := on_directory shardID (readFile (GraphFile m)) in
    on_coll (λ c, Sealed.InstallDiskANNShardWithMetadata c shardID records file (Some metadataIndex))
  else if is_type config IndexDiskANN then
    on_coll (λ c, Sealed.InstallRecordsShardWithPQ c shardID records (Some metadataIndex) None)
  else
    let+ '(baseRecords, locations) := on_directory shardID (resolveMappedSegments (Segments m)) in
    let+ mapped := on_directory shardID (OpenCompositeMappedVectors (Segments m) locations) in
    on_coll (λ c, Sealed.InstallMappedShardWithPQ c shardID baseRecords (composite_source native mapped) (Some metadataIndex) pqData).

Definition checkpointShardLocked (faults : log_faults) (shardID : Z) : M unit :=
  let+ st := get_store shardID in
  match log st with
  | None => fail (Sentinel ErrShardNotOwned)
  | Some l =>
      if sync_failed faults then fail (IOError "sync")
      else
        let maxLSN := LastLSN l in
        if maxLSN <? checkpointLSN st then fail (Errorf "WAL LSN regressed below checkpoint")
        else
          let+ change := ask (λ c, Collection.ShardCheckpointDelta c shardID) in
          let+ '(delta, tombstones) := lift change in
          let+ old := load_manifest shardID in
          if match old with
             | Some m => (Format m =? 3) && (maxLSN =? man_MaxLSN m) && (len delta =? 0) && (len tombstones =? 0)
             | None => false
             end
          then ret tt
          else
            let+ records := ask (λ c, Collection.ShardRecords c shardID) in
            let+ records := lift records in
            let+ config := ask Collection.config in
            let+ '(m, filterData, graphData, pqData) :=
              on_directory shardID (write_checkpoint config maxLSN old records delta tombstones) in
            let+ _ := on_log shardID (λ l, Reset (reset_fault faults) l (u64 (maxLSN + 1))) in
            let+ _ := set_digests shardID ∅ in
            let+ metadataIndex := lift (LoadBinary filterData (RecordCount m)) in
            let+ _ := install_view shardID m records metadataIndex graphData pqData in
            let+ _ := set_checkpoint shardID maxLSN in
            let+ pinned := ask (λ c, Collection.ShardHasPinnedReaders c shardID) in
            if pinned then ret tt else on_directory shardID (CleanupOrphans m)
  end.

(** ** Loading a shard *)

Fixpoint restore_routed (shardID : Z) (records : list CoreRecord) : M unit :=
  match records with
  | [] => ret tt
  | r :: rest =>
      let+ routed := ask (λ c, Collection.RouteShard c (Namespace r) (ID r)) in
      if negb (routed =? shardID) then fail (Errorf "segment record routed to wrong shard")
      else
        let+ _ := on_coll (λ c, Collection.Restore c r) in
        restore_routed shardID rest
  end.

(** The records of a catalog from before segments existed. *)
Fixpoint restore_legacy (shardID : Z) (records : list CoreRecord) : M unit :=
  match records with
  | [] => ret tt
  | r :: rest =>
      let+ routed := ask (λ c, Collection.RouteShard c (Namespace r) (ID r)) in
      let+ _ := if routed =? shardID then on_coll (λ c, Collection.Restore c r) else ret tt in
      restore_legacy shardID rest
  end.

(** No record of the list is routed elsewhere, or here. *)
Definition all_routed (shardID : Z) (records : list CoreRecord) : M bool :=
  ask (λ c, forallb (λ r, Collection.RouteShard c (Namespace r) (ID r) =? shardID) records).
Definition some_routed (shardID : Z) (records : list CoreRecord) : M bool :=
  ask (λ c, existsb (λ r, Collection.RouteShard c (Namespace r) (ID r) =? shardID) records).

Definition load_filter (shardID : Z) (m : Manifest) : M (option MI) :=
  if String.eqb (FilterFile m) "" then ret None
  else
    let+ payload := on_directory shardID (ReadFilter m) in
    let+ index := lift (LoadBinary payload (RecordCount m)) in
    ret (Some index).

Definition install_mapped (shardID : Z) (m : Manifest) (records : list CoreRecord) (source : MappedSource)
    (metadataIndex : option MI) : M unit :=
  let+ pqData := on_directory shardID (ReadPQ m) in
  on_coll (λ c, Sealed.InstallMappedShardWithPQ c shardID records source metadataIndex pqData).

Definition install_diskann (shardID : Z) (m : Manifest) (records : list CoreRecord) (metadataIndex : option MI) : M unit :=
  let+ file := on_directory shardID (readFile (GraphFile m)) in
  on_coll (λ c, Sealed.InstallDiskANNShardWithMetadata c shardID records file metadataIndex).

Definition install_graph (shardID : Z) (m : Manifest) (records : list CoreRecord) (metadataIndex : option MI) : M unit :=
  let+ graph := on_directory shardID (ReadGraph m) in
  on_coll (λ c, Sealed.InstallHNSWShardWithMetadata c shardID records graph metadataIndex).

(** A manifest of the current format. *)
Definition load_view (config : CollectionConfig) (shardID : Z) (m : Manifest) : M unit :=
  let diskANN := is_type config IndexDiskANN && negb (String.eqb (GraphFile m) "") in
  let+ '(records, locations) :=
    if is_type config IndexFlat || diskANN then on_directory shardID (resolveMappedSegments (Segments m))
    else
      let+ '(records, _) := on_directory shardID (materializeSegments (Segments m)) in
      ret (records, []) in
  if negb (len records =? RecordCount m) then fail (Errorf "multi-segment live record count mismatch")
  else
    let+ metadataIndex := load_filter shardID m in
    let+ routed := all_routed shardID records in
    if negb routed then fail (Errorf "multi-segment record routed to wrong shard")
    else if is_type config IndexFlat then
      let+ mapped := on_directory shardID (OpenCompositeMappedVectors (Segments m) locations) in
      install_mapped shardID m records (composite_source native mapped) metadataIndex
    else if is_type config IndexHNSW && negb (String.eqb (GraphFile m) "") then install_graph shardID m records metadataIndex
    else if diskANN then install_diskann shardID m records metadataIndex
    else on_coll (λ c, Sealed.InstallRecordsShardWithPQ c shardID records metadataIndex None).

(** [segmentfile.Read] of a combined segment, whose payload is JSON. *)
Definition read_combined (name : string) : IO (Z * Z * list CoreRecord) :=
  let* content := readFile name in
  let* '(count, maxLSN, payload) := io_res (Column.read_segment content) in
  let* records := io_res (json_Unmarshal payload) in
  io_ret (count, maxLSN, records).

(** The older formats return the records that are not installed. *)
Definition load_combined (shardID : Z) (m : Manifest) : M (list CoreRecord) :=
  let+ '(count, maxLSN, records) := on_directory shardID (read_combined (SegmentFile m)) in
  if negb (count =? len records) || negb (count =? RecordCount m) || negb (maxLSN =? man_MaxLSN m) then
    fail (Errorf "legacy segment manifest mismatch")
  else ret records.

Definition load_columns (config : CollectionConfig) (shardID : Z) (m : Manifest) : M (list CoreRecord) :=
  if negb (man_Dimension m =? u32 (Dimension config)) then fail (Errorf "segment dimension mismatch")
  else if is_type config IndexFlat then
    let+ records := on_directory shardID (ReadRecordColumn m) in
    let+ metadataIndex := load_filter shardID m in
    let+ mapped := on_directory shardID (OpenMappedVectors (VectorsFile m) (man_Dimension m) (RecordCount m) (man_MaxLSN m)) in
    let+ _ := install_mapped shardID m records (mapped_source native mapped) metadataIndex in
    ret []
  else
    let+ records := on_directory shardID (ReadBundle m) in
    let+ metadataIndex := load_filter shardID m in
    if negb (String.eqb (GraphFile m) "") && is_type config IndexDiskANN then
      let+ _ := install_diskann shardID m records metadataIndex in ret []
    else if negb (String.eqb (GraphFile m) "") then
      let+ _ := install_graph shardID m records metadataIndex in ret []
    else ret records.

(** One round of the loop of [loadSegments]. *)
Definition load_shard (owned : bool) (legacy : list CoreRecord) (shardID : Z) : M unit :=
  if negb owned then
    let+ entries := on_directory shardID readDir in
    if negb (len entries =? 0) then fail (Errorf "unowned shard still contains segment data")
    else
      let+ routed := some_routed shardID legacy in
      if routed then fail (Errorf "unowned shard still contains legacy data") else ret tt
  else
    let+ config := ask Collection.config in
    let+ manifest := load_manifest shardID in
    match manifest with
    | None => restore_legacy shardID legacy
    | Some m =>
        let+ records :=
          if Format m =? 3 then let+ _ := load_view config shardID m in ret []
          else if Format m =? 1 then load_combined shardID m
          else load_columns config shardID m in
        let+ _ := restore_routed shardID records in
        let+ _ := on_directory shardID (CleanupOrphans m) in
        set_checkpoint shardID (man_MaxLSN m)
    end.

Fixpoint for_shards (f : Z → M unit) (ids : list nat) : M unit :=
  match ids with
  | [] => ret tt
  | i :: rest => let+ _ := f (Z.of_nat i) in for_shards f rest
  end.

Definition loadSegments (owned : Z → bool) (legacy : list CoreRecord) : M unit := λ s,
  for_shards (λ shardID, load_shard (owned shardID) legacy shardID) (seq 0 (length (stores s))) s.

(** ** Replaying a log *)

Definition found (e : option error) : option error :=
  match e with Some e' => if bool_decide (e' = Sentinel ErrNotFound) then None else e | None => None end.

Fixpoint replay_batch (c : collection) (shardID : Z) (records : list CoreRecord) : res collection :=
  match records with
  | [] => Ok c
  | item :: rest =>
      if negb (Collection.RouteShard c (Namespace item) (ID item) =? shardID) then
        Err (Errorf "batch record routed to wrong shard")
      else
        match Collection.Restore c item with
        | (c, None) => replay_batch c shardID rest
        | (_, Some e) => Err e
        end
  end.

(** The function given to [wal.OpenWithOptions]. *)
Definition replay (shardID : Z) (st : collection * gmap Z (list Z)) (r : WalRecord) : res (collection * gmap Z (list Z)) :=
  let '(c, digests) := st in
  let digests := <[LSN r := sha256_Sum256 (Wal.Payload r)]> digests in
  let! mutation := json_Unmarshal (A := walMutation) (Wal.Payload r) in
  let! c :=
    if Operation r =? OperationUpsert then
      match mut_Record mutation with
      | Some record =>
          if negb (Collection.RouteShard c (Namespace record) (ID record) =? shardID) then
            Err (Errorf "upsert routed to wrong shard")
          else match Collection.Restore c record with (c, None) => Ok c | (_, Some e) => Err e end
      | None => Err (Errorf "upsert routed to wrong shard")
      end
    else if Operation r =? OperationDelete then
      if String.eqb (mut_ID mutation) ""
         || negb (Collection.RouteShard c (mut_Namespace mutation) (mut_ID mutation) =? shardID) then
        Err (Errorf "delete routed to wrong shard")
      else
        match Collection.ApplyDelete c (mut_Namespace mutation) (mut_ID mutation) with
        | (c, e) => match found e with None => Ok c | Some e => Err e end
        end
    else if Operation r =? OperationBatchUpsert then
      if (len (mut_Records mutation) =? 0) || (10000 <? len (mut_Records mutation)) then Err (Errorf "invalid batch WAL payload")
      else replay_batch c shardID (mut_Records mutation)
    else Err (Errorf "unknown operation") in
  Ok (c, digests).

(** The log's file, and the failing step of opening it; [None] is a file that
    does not exist. *)
Definition open_log (owned : bool) (sync : SyncMode) (fault : option OpenStep) (stored : option (list Z)) (shardID : Z)
    : M unit :=
  if negb owned then
    match stored with
    | Some bytes => if negb (len bytes =? 0) then fail (Errorf "unowned shard still contains WAL data") else ret tt
    | None => ret tt
    end
  else
    let+ st := get_store shardID in
    let checkpoint := checkpointLSN st in
    λ s,
      match OpenWithOptions (replay shardID) checkpoint fault stored sync (u64 (checkpoint + 1)) (coll s, walDigests st) with
      | (_, Err e) => (s, Err e)
      | (_, Ok (l, (c, digests))) =>
          on_store shardID (λ st,
            (mkStore (directory st) (Some l) (checkpointLSN st) (mutations st) digests (ledger st) (idempotency st), Ok tt))
            (mk c (stores s))
      end.

Definition openCollectionLogs (owned : Z → bool) (sync : SyncMode) (fault : Z → option OpenStep) (stored : Z → option (list Z))
    : M unit := λ s,
  for_shards (λ shardID, open_log (owned shardID) sync (fault shardID) (stored shardID) shardID) (seq 0 (length (stores s))) s.

End Shards.
Arguments t : clear implicits.
End Engine.
