(* ===== verification/CheckpointProofs.v ===== *)
(** * Checkpoints: the files

    A directory either has no manifest or holds a view: segments that load, a
    filter that loads as the index of the view, and a manifest that names
    them.  Whatever fails while a checkpoint is written, the directory holds
    the view it held or the new one. *)
From Stdlib Require Import ZArith Lia Ascii String Sorting.Sorted.
From stdpp Require Import base tactics list gmap strings.
From S2P Require Import Prelude Wal Core CoreProofs Distance Float Persistence TopK Index Segment SegmentProofs Shard ShardProofs Collection Compaction Column Json SegmentFiles Multisegment SegmentIO ViewProofs MappedViews MappedIndex Sealed SealedProofs Checkpoint.
Local Set Warnings "-clear-no-such-hyp".
Local Open Scope string_scope.
Local Open Scope Z_scope.
Local Open Scope list_scope.

(** ** Names of segment files

    The names [checkpointShardLocked] and [compactSegmentRefs] give their
    files: they are plain file names, JSON leaves them alone, and files of
    different checkpoints have different names. *)

(** *** Plain strings *)

(** A character of a file name: below 128, and not a separator. *)
Definition plain_char (c : ascii) : bool := (Z.of_N (N_of_ascii c) <? 128) && negb (Ascii.eqb c "/").

Fixpoint plain (s : string) : bool :=
  match s with EmptyString => true | String c rest => plain_char c && plain rest end.

Lemma plain_app s t : plain (s +:+ t) = plain s && plain t.
Proof. induction s as [|c s IH]; [done|]. rewrite append_cons. cbn [plain]. by rewrite IH, andb_assoc. Qed.

Lemma plain_digit d : 0 ≤ d < 10 → plain_char (ascii_of_N (48 + Z.to_N d)) = true.
Proof.
  intros Hd. assert (d = 0 ∨ d = 1 ∨ d = 2 ∨ d = 3 ∨ d = 4 ∨ d = 5 ∨ d = 6 ∨ d = 7 ∨ d = 8 ∨ d = 9) as H by lia.
  repeat (destruct H as [-> | H]; [reflexivity|]). by subst.
Qed.

Lemma plain_decimal digits n rest : plain (decimal digits n rest) = plain rest.
Proof.
  revert n rest. induction digits as [|digits IH]; intros n rest; [done|]. cbn [decimal]. rewrite IH. cbn [plain].
  by rewrite plain_digit by (apply Z.mod_pos_bound; lia).
Qed.

Lemma plain_fmt n : plain (fmt_020d n) = true.
Proof. unfold fmt_020d. by rewrite plain_decimal. Qed.

(** JSON leaves plain strings alone. *)
Lemma byte_ascii_of c : byte_ascii (Z.of_N (N_of_ascii c)) = c.
Proof. unfold byte_ascii. by rewrite N2Z.id, ascii_N_embedding. Qed.

Lemma json_plain s : plain s = true → json_string s = s.
Proof.
  unfold json_string. induction s as [|c s IH]; [done|]. cbn [plain]. intros [Hc Hs]%andb_true_iff.
  unfold plain_char in Hc. apply andb_true_iff in Hc as [Hc _]. apply Z.ltb_lt in Hc.
  cbn [string_runes runes]. rewrite (proj2 (Z.ltb_lt _ 0x80)) by lia. cbn [fmap list_fmap concat].
  unfold encode_rune at 1. rewrite (proj2 (Z.ltb_lt _ 0x80)) by lia. cbn [app bytes_string]. by rewrite byte_ascii_of, IH.
Qed.

Lemma plain_no_slash s : plain s = true → has_char "/" s = false.
Proof.
  induction s as [|c s IH]; [done|]. cbn [plain has_char]. intros [Hc Hs]%andb_true_iff. unfold plain_char in Hc.
  apply andb_true_iff in Hc as [_ Hc]. rewrite (negb_true_iff (Ascii.eqb c "/")) in Hc. by rewrite Hc, IH.
Qed.

(** A plain name of at least three characters is safe. *)
Lemma safe_plain s : plain s = true → (2 < String.length s)%nat → safeBase s = true.
Proof.
  intros Hp Hl. unfold safeBase. rewrite (plain_no_slash s Hp).
  destruct s as [|a [|b [|c s]]]; simpl in Hl; try lia. cbn [String.eqb negb orb andb].
  by destruct (Ascii.eqb a "."), (Ascii.eqb b ".").
Qed.

Lemma Ext_app s t : Ext t ≠ "" → Ext (s +:+ t) = Ext t.
Proof.
  intros Ht. induction s as [|c s IH]; [done|]. rewrite append_cons. cbn [Ext]. rewrite IH. by destruct (Ext t).
Qed.

Lemma length_append (s t : string) : String.length (s +:+ t) = (String.length s + String.length t)%nat.
Proof. induction s as [|c s IH]; [done|]. rewrite append_cons. cbn [String.length]. lia. Qed.

(** *** The names of checkpoints *)

Definition plain_name (s : string) : Prop := plain s = true ∧ (2 < String.length s)%nat.

Lemma plain_delta lsn s : plain s = true → plain_name (delta_name lsn +:+ s).
Proof.
  intros Hs. split.
  - unfold delta_name. by rewrite !plain_app, plain_fmt, Hs.
  - unfold delta_name. rewrite !length_append. simpl. lia.
Qed.

Lemma plain_compact lsn sequence s : plain s = true → plain_name (compact_name lsn sequence +:+ s).
Proof.
  intros Hs. split.
  - unfold compact_name. by rewrite !plain_app, !plain_fmt, Hs.
  - unfold compact_name. rewrite !length_append. simpl. lia.
Qed.

Lemma plain_view lsn s : plain s = true → plain_name (view_name lsn s).
Proof.
  intros Hs. split.
  - unfold view_name. by rewrite !plain_app, plain_fmt, Hs.
  - unfold view_name. rewrite !length_append. simpl. lia.
Qed.

Lemma name_safe s : plain_name s → safeBase s = true.
Proof. intros [? ?]. by apply safe_plain. Qed.

Lemma name_json s : plain_name s → json_string s = s.
Proof. intros [? _]. by apply json_plain. Qed.

Lemma name_nonempty s : plain_name s → s ≠ "".
Proof. intros [_ H] ->. simpl in H. lia. Qed.

Lemma delta_inj a b s t : 0 ≤ a < two64 → 0 ≤ b < two64 → delta_name a +:+ s = delta_name b +:+ t → a = b.
Proof.
  intros Ha Hb H. unfold delta_name in H. rewrite !str_app_assoc in H. apply append_suffix_inj in H.
  by apply fmt_inj in H as [-> _].
Qed.

Lemma view_inj a b s t : 0 ≤ a < two64 → 0 ≤ b < two64 → view_name a s = view_name b t → a = b.
Proof. intros Ha Hb H. unfold view_name in H. apply append_suffix_inj in H. by apply fmt_inj in H as [-> _]. Qed.

Lemma compact_inj a b c d s t :
  0 ≤ b < two64 → 0 ≤ d < two64 → compact_name a b +:+ s = compact_name c d +:+ t → b = d.
Proof.
  intros Hb Hd H. unfold compact_name in H. rewrite !str_app_assoc in H. apply append_suffix_inj, fmt_rest, append_suffix_inj in H.
  by apply fmt_inj in H as [-> _].
Qed.

Lemma delta_compact a c d s t : delta_name a +:+ s ≠ compact_name c d +:+ t.
Proof.
  intros H. unfold delta_name, compact_name in H. rewrite !str_app_assoc in H. apply append_suffix_inj, fmt_rest in H. discriminate H.
Qed.

Lemma segment_file_suffix base n : n ∈ segment_files base → ∃ s, n = base +:+ s ∧ plain s = true ∧ s ≠ "".
Proof. unfold segment_files, bundle_files. simpl. rewrite !elem_of_cons, elem_of_nil. intros H. naive_solver. Qed.

(** Segment files are neither the manifest nor view files. *)
Lemma segment_not_manifest s : ("segment-" +:+ s) ≠ manifest_name.
Proof. discriminate. Qed.

Lemma view_not_manifest lsn s : view_name lsn s ≠ manifest_name.
Proof. discriminate. Qed.

Lemma delta_segment lsn s : ∃ t, delta_name lsn +:+ s = "segment-" +:+ t.
Proof. unfold delta_name. rewrite !str_app_assoc. eauto. Qed.

Lemma compact_segment lsn sequence s : ∃ t, compact_name lsn sequence +:+ s = "segment-" +:+ t.
Proof. unfold compact_name. rewrite !str_app_assoc. eauto. Qed.

Lemma view_not_segment lsn s t : view_name lsn s ≠ "segment-" +:+ t.
Proof. discriminate. Qed.

(** What the filter files promise: bytes that a column can hold, and for
    records whose metadata survives them the index of the records. *)
Class FilterFilesSpec (MI : Type) `{!MetadataIndex MI, !MetadataSpec MI, !FilterFiles MI} := {
  filter_stable : CoreRecord → Prop;
  filter_bytes records data : MarshalRecords records = Ok data → Forall is_byte data ∧ len data < 2 ^ 63;
  filter_load records data :
    MarshalRecords records = Ok data → Forall filter_stable records →
    ∃ i, LoadBinary data (len records) = Ok i ∧ meta_rep i (Metadata <$> numbered records);
}.

Section Files.
Context {MI : Type} `{!MetadataIndex MI, !MetadataSpec MI, !FilterFiles MI, !FilterFilesSpec MI}.
Context `{!Json Manifest, !Json (list storedRecord), !Json (list string), !Json persistedIndex}.
Context `{!JsonSpec Manifest json_manifest, !JsonSpec (list storedRecord) (fmap json_stored), !JsonSpec (list string) (fmap json_string)}.
Context (config : CollectionConfig).

(** ** Views *)

(** A reference to files of a checkpoint whose LSN is at most [bound]. *)
Definition named_ref (dimension bound : Z) (ref : SegmentRef) : Prop :=
  new_ref (delta_name (ref_MaxLSN ref)) dimension ref ∨
  ∃ lsn sequence, 0 ≤ sequence ≤ bound ∧ new_ref (compact_name lsn sequence) dimension ref.

Definition view_manifest (refs : list SegmentRef) (maxLSN count : Z) : Manifest :=
  mkManifest 3 "" "" "" "" (view_name maxLSN ".filter") "" (u32 (Dimension config)) maxLSN count refs.

Record view_ok (F : gmap string (list Z)) (refs : list SegmentRef) (maxLSN : Z) (cs : list (list CoreRecord * list string)) : Prop := mkViewOk {
  vo_segments : segments_ok F refs cs;
  vo_named : Forall (named_ref (Dimension config) maxLSN) refs;
  vo_last : ref_MaxLSN <$> last refs = Some maxLSN;
  vo_length : (length refs ≤ 8)%nat;
  vo_range : 0 ≤ maxLSN < two64;
  vo_load : quiet F LoadManifest = Ok (view_manifest refs maxLSN (Z.of_nat (size (view_of cs))));
  vo_filter : ∃ data i,
    quiet F (ReadFilter (view_manifest refs maxLSN (Z.of_nat (size (view_of cs))))) = Ok data ∧
    LoadBinary data (Z.of_nat (size (view_of cs))) = Ok i ∧ meta_rep i (Metadata <$> numbered (sorted_records (view_of cs)));
  vo_tombstones : Z.of_nat (tombstone_count cs) ≤ maxLSN;
}.

(** What a shard's directory holds. *)
Definition disk_view (F : gmap string (list Z)) (base : gmap string CoreRecord) (lsn : Z) : Prop :=
  (F !! manifest_name = None ∧ base = ∅ ∧ lsn = 0) ∨
  ∃ refs cs, view_ok F refs lsn cs ∧ base = view_of cs.

(** The names a view depends on. *)
Definition view_names (refs : list SegmentRef) (maxLSN : Z) : list string :=
  manifest_name :: view_name maxLSN ".filter" :: all_names refs.

Lemma view_agree F G refs maxLSN cs : view_ok F refs maxLSN cs → agree (view_names refs maxLSN) F G → view_ok G refs maxLSN cs.
Proof.
  intros [[S1 S2 S3 S4] H2 H3 H4 H5 H6 (data&i&H7&H8&H9) H10] HFG. constructor; try done.
  - constructor; try done. eapply holds_all_agree; [done|]. intros n Hn. apply HFG. by right; right.
  - rewrite <-H6. symmetry. eapply rd_local; [apply reader_manifest; by left|]. intros n Hn%list_elem_of_singleton. subst n. apply HFG. by left.
  - exists data, i. split; [|done]. rewrite <-H7. symmetry. eapply (rd_local [view_name maxLSN ".filter"]); [apply reader_filter; by left|].
    intros n Hn%list_elem_of_singleton. subst n. apply HFG. right. by left.
Qed.

(** ** Names *)

Lemma named_plain dimension bound ref :
  named_ref dimension bound ref →
  plain_name (ref_RecordsFile ref) ∧ plain_name (ref_VectorsFile ref) ∧
  (ref_TombstonesFile ref = "" ∨ plain_name (ref_TombstonesFile ref)) ∧ ref_GraphFile ref = "" ∧ ref_FilterFile ref = "" ∧
  ref_Dimension ref = dimension.
Proof.
  intros [[-> -> Ht -> -> ? _]|(lsn&sequence&_&[-> -> Ht -> -> ? _])].
  - split_and!; try by apply plain_delta. destruct Ht as [-> | ->]; [by left|right; by apply plain_delta]. all: done.
  - split_and!; try by apply plain_compact. destruct Ht as [-> | ->]; [by left|right; by apply plain_compact]. all: done.
Qed.

Lemma named_mono dimension a b ref : a ≤ b → named_ref dimension a ref → named_ref dimension b ref.
Proof. intros Hab [?|(lsn&sequence&?&?)]; [by left|right; exists lsn, sequence; split; [lia|done]]. Qed.

(** Files of a later checkpoint are not among those of the references. *)
Lemma all_names_elem refs n : n ∈ all_names refs ↔ ∃ ref, ref ∈ refs ∧ n ∈ ref_names ref.
Proof.
  unfold all_names. rewrite list_elem_of_In, in_concat. split.
  - intros (l&Hl%list_elem_of_In&Hn%list_elem_of_In). apply list_elem_of_fmap in Hl as (ref&->&Hr). eauto.
  - intros (ref&Hr&Hn). exists (ref_names ref). split; apply list_elem_of_In; [by apply list_elem_of_fmap_2|done].
Qed.

Lemma named_file dimension bound ref n :
  named_ref dimension bound ref → n ∈ ref_names ref →
  n = "" ∨ (∃ s, n = delta_name (ref_MaxLSN ref) +:+ s) ∨ ∃ lsn sequence s, 0 ≤ sequence ≤ bound ∧ n = compact_name lsn sequence +:+ s.
Proof.
  intros [H|(lsn&sequence&Hs&H)] Hn; apply (new_ref_names _ _ _ _ H) in Hn as [->|(s&->&_)%segment_file_suffix]; eauto 9.
Qed.

Lemma delta_fresh refs dimension bound maxLSN n :
  Forall (named_ref dimension bound) refs → Forall (λ ref, 0 ≤ ref_MaxLSN ref < maxLSN) refs → maxLSN < two64 →
  n ∈ segment_files (delta_name maxLSN) → n ∉ all_names refs.
Proof.
  intros Hnamed Hlt Hmax (s&->&Hp&_)%segment_file_suffix (ref&Hr&Hn)%all_names_elem. rewrite Forall_forall in Hnamed, Hlt.
  specialize (Hlt ref Hr). simpl in Hlt. apply (named_file _ _ _ _ (Hnamed ref Hr)) in Hn as [E|[(t&E)|(lsn&sequence&t&_&E)]].
  - destruct (plain_delta maxLSN s Hp) as [_ Hl]. rewrite E in Hl. simpl in Hl. lia.
  - apply delta_inj in E; lia.
  - by apply delta_compact in E.
Qed.

Lemma compact_name_fresh refs dimension bound sequence lsn n :
  Forall (named_ref dimension bound) refs → bound < sequence → 0 ≤ sequence < two64 →
  n ∈ segment_files (compact_name lsn sequence) → n ∉ all_names refs.
Proof.
  intros Hnamed Hlt Hmax (s&->&Hp&_)%segment_file_suffix (ref&Hr&Hn)%all_names_elem. rewrite Forall_forall in Hnamed.
  apply (named_file _ _ _ _ (Hnamed ref Hr)) in Hn as [E|[(t&E)|(lsn'&sequence'&t&Hs&E)]].
  - destruct (plain_compact lsn sequence s Hp) as [_ Hl]. rewrite E in Hl. simpl in Hl. lia.
  - symmetry in E. by apply delta_compact in E.
  - apply compact_inj in E; lia.
Qed.

(** ** Manifests of views *)

Lemma json_named dimension bound ref : named_ref dimension bound ref → json_ref ref = ref.
Proof.
  intros H. destruct (named_plain _ _ _ H) as (Hr&Hv&Ht&Hg&Hf&_). unfold json_ref.
  rewrite (name_json _ Hr), (name_json _ Hv), Hg, Hf. destruct ref as [a b c e f g h i j]. cbn [ref_TombstonesFile ref_GraphFile ref_FilterFile] in *. subst c e.
  destruct Ht as [-> | Ht]; [done|]. by rewrite (name_json _ Ht).
Qed.

Lemma json_view refs maxLSN count bound :
  Forall (named_ref (Dimension config) bound) refs → json_manifest (view_manifest refs maxLSN count) = view_manifest refs maxLSN count.
Proof.
  intros H. unfold json_manifest, view_manifest. cbn [Format SegmentFile RecordsFile VectorsFile GraphFile FilterFile PQFile man_Dimension man_MaxLSN RecordCount Segments].
  rewrite (name_json _ (plain_view maxLSN ".filter" eq_refl)). f_equal.
  rewrite <-(list_fmap_id refs) at 2. apply list_fmap_ext. intros i ref Hi. apply (json_named (Dimension config) bound).
  by apply (Forall_lookup_1 _ _ _ _ H Hi).
Qed.

Lemma unsafe_plain s : s = "" ∨ plain_name s → unsafe s = false.
Proof. intros [-> | H]; [done|]. unfold unsafe. by rewrite (name_safe s H), andb_false_r. Qed.

Lemma checked_segments m refs bound position previous :
  man_Dimension m = Dimension config → Forall (named_ref (Dimension config) bound) refs →
  StronglySorted (λ a b, ref_MaxLSN a < ref_MaxLSN b) refs →
  Forall (λ ref, ref_MaxLSN ref ≤ man_MaxLSN m ∧ (0 < position → previous < ref_MaxLSN ref)) refs → 0 ≤ position →
  check_segments m refs position previous = true.
Proof.
  intros Hd Hn Hs. revert position previous Hn. induction Hs as [|ref refs Hs IH Hf]; intros position previous Hn Hb Hpos; [done|].
  apply Forall_cons in Hn as [Hr Hn]. apply Forall_cons in Hb as [[Hle Hgt] Hb]. cbn [check_segments].
  destruct (named_plain _ _ _ Hr) as (P1&P2&P3&P4&P5&P6).
  rewrite P6, Hd, Z.eqb_refl, (proj2 (String.eqb_neq _ _) (name_nonempty _ P1)), (proj2 (String.eqb_neq _ _) (name_nonempty _ P2)).
  rewrite (name_safe _ P1), (name_safe _ P2), P4, P5, (unsafe_plain _ P3). cbn [negb orb unsafe String.eqb andb].
  rewrite (proj2 (Z.ltb_ge _ _) Hle), orb_false_r.
  assert ((0 <? position) && (ref_MaxLSN ref <=? previous) = false) as ->.
  { destruct (Z.ltb_spec 0 position); [|done]. apply Z.leb_gt. lia. }
  apply IH; [done| |lia]. rewrite Forall_forall in Hb, Hf. apply Forall_forall. intros x Hx. specialize (Hb x Hx). specialize (Hf x Hx).
  simpl in *. lia.
Qed.

Lemma view_validates refs maxLSN count :
  refs_ok refs → Forall (named_ref (Dimension config) maxLSN) refs → ref_MaxLSN <$> last refs = Some maxLSN →
  (length refs ≤ 8)%nat → 0 < Dimension config < 2 ^ 32 →
  validate_manifest (view_manifest refs maxLSN count) = Ok (view_manifest refs maxLSN count).
Proof.
  intros [Hs _ _] Hn Hl Hlen Hd. assert (u32 (Dimension config) = Dimension config) as Eu by (unfold u32; apply Z.mod_small; lia).
  unfold validate_manifest. cbn [view_manifest Format Segments man_Dimension GraphFile FilterFile PQFile man_MaxLSN Z.eqb Pos.eqb].
  rewrite Eu. destruct refs as [|r0 rest] eqn:E; [done|]. rewrite <-E in *.
  assert (len refs ≠ 0) by (rewrite E; unfold len; simpl; lia).
  rewrite (proj2 (Z.eqb_neq (len refs) 0)), (proj2 (Z.ltb_ge 16 (len refs))), (proj2 (Z.eqb_neq (Dimension config) 0)) by (done || unfold len; lia).
  cbn [orb]. rewrite (unsafe_plain _ (or_intror (plain_view maxLSN ".filter" eq_refl))). cbn [unsafe String.eqb negb andb orb].
  destruct (last refs) as [newest|] eqn:El; [|done]. injection Hl as Hl.
  rewrite checked_segments with (bound := maxLSN); [|done..| |lia].
  - cbn [negb]. by rewrite Hl, Z.eqb_refl.
  - apply Forall_forall. intros x Hx. split; [|lia]. cbn [view_manifest man_MaxLSN].
    apply last_Some in El as [front ->]. apply elem_of_app in Hx as [Hx|Hx].
    + apply sorted_app_lt in Hs as (_&_&Hs). specialize (Hs x newest Hx (list_elem_of_here _ _)). simpl in Hs. lia.
    + apply list_elem_of_singleton in Hx as ->. lia.
Qed.

(** ** Writing the view *)

Definition view_files (maxLSN : Z) : list string := [view_name maxLSN ".filter"; manifest_name].

(** The configuration of a collection whose shards are sealed over mapped
    vectors, without codes of their own. *)
Record plain_config : Prop := mkPlainConfig {
  pc_flat : Type_ (Index config) = IndexFlat;
  pc_quantization : Quantization (Index config) = "";
  pc_dimension : 0 < Dimension config < 2 ^ 32;
  pc_metric : Metric_Valid (Metric config) = true;
}.

Lemma plain_types : plain_config → Engine.is_type config IndexFlat = true ∧ Engine.is_type config IndexHNSW = false ∧ Engine.is_type config IndexDiskANN = false.
Proof. intros [Hf _ _ _]. unfold Engine.is_type. by rewrite Hf. Qed.

Lemma plain_pq count : plain_config → UsesPQ config count = false.
Proof. intros [Hf Hq _ _]. unfold UsesPQ. by rewrite Hf, Hq. Qed.

Lemma write_step name data d :
  (∃ d', writeAtomic name data d = (d', Ok tt) ∧ files d' = <[name := data]> (files d)) ∨
  (∃ d' e, writeAtomic name data d = (d', Err e) ∧ (files d' = files d ∨ files d' = <[name := data]> (files d))).
Proof. unfold writeAtomic, next_fault. destruct d as [F [|[] fs]]; simpl; eauto 7. Qed.

Lemma filter_step maxLSN data count d :
  WriteFilter (view_name maxLSN ".filter") data count maxLSN d
  = writeAtomic (view_name maxLSN ".filter") (Column.column Column.filterMagic 0 count maxLSN data) d.
Proof.
  unfold WriteFilter. rewrite (name_safe _ (plain_view maxLSN ".filter" eq_refl)).
  assert (Ext (view_name maxLSN ".filter") = ".filter") as ->; [|done].
  unfold view_name. rewrite <-str_app_assoc. rewrite Ext_app; done.
Qed.

Lemma filter_read F refs maxLSN data count :
  F !! view_name maxLSN ".filter" = Some (Column.column Column.filterMagic 0 count maxLSN data) →
  Forall is_byte data → len data < 2 ^ 63 → 0 ≤ count < two64 → 0 ≤ maxLSN < two64 →
  quiet F (ReadFilter (view_manifest refs maxLSN count)) = Ok data.
Proof.
  intros HF Hb Hl Hc Hm. unfold ReadFilter. cbn [view_manifest FilterFile RecordCount man_MaxLSN].
  rewrite (proj2 (String.eqb_neq _ _) (name_nonempty _ (plain_view maxLSN ".filter" eq_refl))).
  rewrite (name_safe _ (plain_view maxLSN ".filter" eq_refl)). cbn [negb orb].
  destruct (Column.magic_ok Column.filterMagic) as [Hm4 Hmb]; [right; right; by left|].
  assert (Column.readColumn (Column.column Column.filterMagic 0 count maxLSN data) Column.filterMagic 0 = Ok (count, maxLSN, data)) as Hr.
  { apply Column.readColumn_encoded. by constructor; [..|left| | | | |]. }
  rewrite (quiet_bind [view_name maxLSN ".filter"] F _ _ (count, maxLSN, data)); [|apply reader_column; by left|by eapply quiet_column].
  cbv beta iota. by rewrite !Z.eqb_refl.
Qed.

Lemma manifest_load F refs maxLSN count data :
  json_Marshal (with_format (view_manifest refs maxLSN count)) = Ok data → F !! manifest_name = Some data →
  refs_ok refs → Forall (named_ref (Dimension config) maxLSN) refs → ref_MaxLSN <$> last refs = Some maxLSN →
  (length refs ≤ 8)%nat → 0 < Dimension config < 2 ^ 32 →
  quiet F LoadManifest = Ok (view_manifest refs maxLSN count).
Proof.
  intros Hd HF Ho Hn Hl Hlen Hdim. unfold LoadManifest.
  rewrite (quiet_bind [manifest_name] F _ _ data); [|apply reader_file; by left|by apply quiet_read].
  rewrite (quiet_res F _ _ (view_manifest refs maxLSN count)).
  - unfold quiet, io_res. cbn [snd]. by apply view_validates.
  - rewrite (json_roundtrip _ _ Hd). change (with_format (view_manifest refs maxLSN count)) with (view_manifest refs maxLSN count).
    f_equal. by apply (json_view _ _ _ maxLSN).
Qed.

Context {I : Type} `{!SealedBuilders I}.

Lemma len_sorted m : len (sorted_records m) = Z.of_nat (size m).
Proof. unfold len, sorted_records. by rewrite length_sort_slice, length_fmap, length_map_to_list. Qed.

(** What is written before the manifest is not part of an older view. *)
Lemma write_view_ok d d' refs cs maxLSN r :
  plain_config → segments_ok (files d) refs cs → Forall (named_ref (Dimension config) maxLSN) refs →
  ref_MaxLSN <$> last refs = Some maxLSN → (length refs ≤ 8)%nat → 0 ≤ maxLSN < two64 →
  Z.of_nat (tombstone_count cs) ≤ maxLSN → Z.of_nat (size (view_of cs)) < two64 →
  Forall filter_stable (sorted_records (view_of cs)) →
  Engine.write_view (I := I) config maxLSN refs (sorted_records (view_of cs)) d = (d', r) →
  (∀ n, n ∉ view_files maxLSN → files d' !! n = files d !! n) ∧
  match r with
  | Ok (m, filterData, graphData, pqData) =>
      view_ok (files d') refs maxLSN cs ∧ m = view_manifest refs maxLSN (Z.of_nat (size (view_of cs))) ∧
      MarshalRecords (sorted_records (view_of cs)) = Ok filterData ∧ graphData = [] ∧ pqData = None
  | Err _ => files d' !! manifest_name = files d !! manifest_name ∨ view_ok (files d') refs maxLSN cs
  end.
Proof.
  intros Hp Hs Hn Hl Hlen Hm Ht Hsz Hst. pose proof (plain_types Hp) as (_&Eh&Ed). pose proof (pc_dimension Hp) as Hdim.
  unfold Engine.write_view, Engine.writeDiskANN. rewrite len_sorted, (plain_pq _ Hp), Eh.
  change (String.eqb (Type_ (Index config)) IndexDiskANN) with (Engine.is_type config IndexDiskANN). rewrite Ed. cbn [negb orb].
  set (count := Z.of_nat (size (view_of cs))) in *.
  unfold io_bind, io_res, io_ret. destruct (MarshalRecords _) as [data|e] eqn:Ef; [|intros [= <- <-]; split; [done|by left]].
  destruct (filter_bytes _ _ Ef) as [Hb Hlb].
  destruct (filter_load _ _ Ef Hst) as (i&Hi&Hrep). rewrite len_sorted in Hi. fold count in Hi.
  rewrite filter_step. set (filter_name := view_name maxLSN ".filter") in *. set (content := Column.column _ _ _ _ _).
  assert (∀ x, x ∉ view_files maxLSN → x ≠ filter_name ∧ x ≠ manifest_name) as Hnot.
  { intros x Hx. unfold view_files in Hx. apply not_elem_of_cons in Hx as [? Hx]. by apply not_elem_of_cons in Hx as [? _]. }
  destruct (write_step filter_name content d) as [(d1&->&F1)|(d1&e&->&F1)].
  2: { intros [= <- <-]. split.
       - intros x [Hx _]%Hnot. destruct F1 as [->| ->]; by rewrite ?lookup_insert_ne.
       - left. destruct F1 as [->| ->]; [done|]. rewrite lookup_insert_ne; [done|]. apply view_not_manifest. }
  change (mkManifest 3 "" "" "" "" filter_name "" (u32 (Dimension config)) maxLSN count refs) with (view_manifest refs maxLSN count).
  unfold SaveManifest, io_bind, io_res. destruct (json_Marshal _) as [bytes|e] eqn:Ej.
  2: { intros [= <- <-]. rewrite F1. split; [intros x [Hx _]%Hnot; by rewrite lookup_insert_ne|left; rewrite lookup_insert_ne; [done|apply view_not_manifest]]. }
  assert (∀ F, F = <[manifest_name := bytes]> (files d1) → (∀ n, n ∉ view_files maxLSN → F !! n = files d !! n) ∧ view_ok F refs maxLSN cs) as Hdone.
  { intros F ->. rewrite F1. split; [intros x [Hx Hx']%Hnot; by rewrite !lookup_insert_ne|].
    assert (agree (all_names refs) (files d) (<[manifest_name:=bytes]> (<[filter_name:=content]> (files d)))) as Hag.
    { intros x (ref&Hr&Hx)%all_names_elem. rewrite Forall_forall in Hn. apply (named_file _ _ _ _ (Hn ref Hr)) in Hx.
      rewrite !lookup_insert_ne; [done|..]; intros <-.
      - destruct Hx as [E|[(t&E)|(lsn&sequence&t&_&E)]]; [done|by destruct (delta_segment (ref_MaxLSN ref) t) as [? E']; rewrite E' in E|
          by destruct (compact_segment lsn sequence t) as [? E']; rewrite E' in E].
      - destruct Hx as [E|[(t&E)|(lsn&sequence&t&_&E)]]; [done|by destruct (delta_segment (ref_MaxLSN ref) t) as [? E']; rewrite E' in E|
          by destruct (compact_segment lsn sequence t) as [? E']; rewrite E' in E]. }
    destruct Hs as [S1 S2 S3 S4]. constructor; try done.
    - constructor; try done. by eapply holds_all_agree.
    - apply (manifest_load _ _ _ _ bytes); try done. apply lookup_insert_eq.
    - exists data, i. split; [|done]. apply filter_read; try done; [|unfold two64 in *; lia].
      rewrite lookup_insert_ne by (intros E; by apply (view_not_manifest maxLSN ".filter")). apply lookup_insert_eq. }
  destruct (write_step manifest_name bytes d1) as [(d2&->&F2)|(d2&e&->&F2)].
  - intros [= <- <-]. destruct (Hdone _ F2) as [H1 H2]. split; [done|]. done.
  - intros [= <- <-]. destruct F2 as [F2|F2].
    + rewrite F2, F1. split; [intros x [Hx _]%Hnot; by rewrite lookup_insert_ne|left; rewrite lookup_insert_ne; [done|apply view_not_manifest]].
    + destruct (Hdone _ F2) as [H1 H2]. split; [done|by right].
Qed.

(** ** Adding a segment, compacting, and writing the view *)

(** The change since the last checkpoint, and what it may hold. *)
Record change_ok (ma base : gmap string CoreRecord) (tomb : gset string) (room : Z) : Prop := mkChangeOk {
  cg_keyed : keyed ma;
  cg_disjoint : tomb ## dom ma;
  cg_durable k r : ma !! k = Some r → durable r;
  cg_stable k : k ∈ tomb → stable_key k;
  cg_filters k r : merged ma base tomb !! k = Some r → filter_stable r;
  cg_size : Z.of_nat (size (merged ma base tomb)) < two64;
  cg_room : Z.of_nat (size tomb) ≤ room;
}.

Definition write_delta (refs0 : list SegmentRef) (maxLSN : Z) (ma : gmap string CoreRecord) (tomb : gset string) : IO (list SegmentRef) :=
  let* ref := writeSegmentRef (delta_name maxLSN) (sorted_records ma) (sort_slice str_ltb (elements tomb)) (Dimension config) maxLSN in
  io_ret (refs0 ++ [ref]).

Definition write_from (refs0 : list SegmentRef) (maxLSN : Z) (m ma : gmap string CoreRecord) (tomb : gset string)
    : IO (Manifest * list Z * list Z * option (list Z)) :=
  let* refs := write_delta refs0 maxLSN ma tomb in
  let* refs := compactSegmentRefs refs (Dimension config) maxLSN in
  Engine.write_view (I := I) config maxLSN refs (sorted_records m).

(** Names a checkpoint at [maxLSN] may write. *)
Definition fresh_name (maxLSN : Z) (n : string) : Prop :=
  (n ∉ segment_files (delta_name maxLSN)) ∧ (∀ lsn, n ∉ segment_files (compact_name lsn maxLSN)) ∧ (n ∉ view_files maxLSN).

Lemma applied_change ma base tomb room :
  change_ok ma base tomb room → apply_segment base (sorted_records ma, sort_slice str_ltb (elements tomb)) = merged ma base tomb.
Proof.
  intros Hc. apply (merge_segment (mkMerge ma tomb) base). constructor; cbn [live dead].
  - by apply (cg_keyed _ _ _ _ Hc).
  - intros k Hk. apply not_elem_of_dom. intros Hin. by apply (cg_disjoint _ _ _ _ Hc k).
Qed.

Lemma sorted_elem m r : keyed m → r ∈ sorted_records m ↔ m !! record_key r = Some r.
Proof. intros Hm. unfold sorted_records. rewrite sort_slice_elem. by apply values_elem. Qed.

Lemma keyed_merged ma base tomb : keyed ma → keyed base → keyed (merged ma base tomb).
Proof. intros H1 H2 k r. rewrite merged_lookup. destruct (ma !! k) eqn:E; [intros [= <-]; by apply H1|]. case_decide; [done|apply H2]. Qed.

Lemma write_from_ok d d' refs0 cs0 maxLSN ma tomb room r :
  plain_config → segments_ok (files d) refs0 cs0 → Forall (named_ref (Dimension config) (maxLSN - 1)) refs0 →
  Forall (λ ref, 0 ≤ ref_MaxLSN ref < maxLSN) refs0 → (length refs0 ≤ 8)%nat → 0 ≤ maxLSN < two64 →
  change_ok ma (view_of cs0) tomb room → Z.of_nat (tombstone_count cs0) + room ≤ maxLSN →
  write_from refs0 maxLSN (merged ma (view_of cs0) tomb) ma tomb d = (d', r) →
  (∀ n, fresh_name maxLSN n ∨ n ∈ all_names refs0 → files d' !! n = files d !! n) ∧
  match r with
  | Ok (m, filterData, graphData, pqData) => ∃ refs cs,
      view_ok (files d') refs maxLSN cs ∧ view_of cs = merged ma (view_of cs0) tomb ∧
      m = view_manifest refs maxLSN (Z.of_nat (size (view_of cs))) ∧
      MarshalRecords (sorted_records (view_of cs)) = Ok filterData ∧ graphData = [] ∧ pqData = None
  | Err _ => files d' !! manifest_name = files d !! manifest_name ∨
      ∃ refs cs, view_ok (files d') refs maxLSN cs ∧ view_of cs = merged ma (view_of cs0) tomb
  end.
Proof.
  intros Hp Hs Hn Hlt Hlen Hm Hc Hroom. set (M := merged ma (view_of cs0) tomb).
  assert (keyed M) as HkM by (apply keyed_merged; [by apply (cg_keyed _ _ _ _ Hc)|apply keyed_view, keyed_empty]).
  assert (∀ n, n ∈ segment_files (delta_name maxLSN) → n ∉ all_names refs0) as Hd0.
  { intros n. apply (delta_fresh refs0 (Dimension config) (maxLSN - 1)); [done|done|lia]. }
  assert (∀ n t, n = "segment-" +:+ t → n ∉ view_files maxLSN) as Hv0.
  { intros n t -> Hin. unfold view_files in Hin. apply elem_of_cons in Hin as [E|E%list_elem_of_singleton]; [|done].
    symmetry in E. by apply view_not_segment in E. }
  assert (∀ n, n ∈ all_names refs0 → n ∉ view_files maxLSN) as Hv1.
  { intros n (ref&Hr&Hin)%all_names_elem. rewrite Forall_forall in Hn. apply (named_file _ _ _ _ (Hn ref Hr)) in Hin as [->|[(t&->)|(l&q&t&_&->)]].
    - intros [E|E%list_elem_of_singleton]%elem_of_cons; done.
    - destruct (delta_segment (ref_MaxLSN ref) t) as [? E]. by eapply Hv0.
    - destruct (compact_segment l q t) as [? E]. by eapply Hv0. }
  unfold write_from, write_delta. intros Hrun. unfold io_bind at 1 in Hrun. unfold io_bind at 1 in Hrun.
  pose proof (writer_segment (segment_files (delta_name maxLSN)) (delta_name maxLSN) (sorted_records ma)
    (sort_slice str_ltb (elements tomb)) (Dimension config) maxLSN (λ n H, H) d) as Hw.
  destruct (writeSegmentRef _ _ _ _ _ d) as [d1 [ref|e]] eqn:Ew; simpl in Hw.
  2: { injection Hrun as <- <-. split.
       - intros n [(Hf&_&_)|Hf]; apply Hw; [done|]. intros Hin. by apply (Hd0 n Hin).
       - left. apply Hw. intros (s&E&_)%segment_file_suffix. unfold delta_name in E. discriminate E. }
  change (io_ret (refs0 ++ [ref]) d1) with (d1, @Ok (list SegmentRef) (refs0 ++ [ref])) in Hrun. cbv iota beta in Hrun.
  pose proof (cg_keyed _ _ _ _ Hc) as Hka.
  destruct (append_segment_ok d refs0 cs0 (delta_name maxLSN) (sorted_records ma) tomb (Dimension config) maxLSN d1 ref Hs Hd0 Ew)
    as (Hs1&Hnew&Hlsn).
  { apply Forall_forall. intros x Hx. apply sorted_elem in Hx; [|done]. by apply (cg_durable _ _ _ _ Hc _ _ Hx). }
  { apply (cg_stable _ _ _ _ Hc). }
  { done. }
  { eapply Forall_impl; [exact Hlt|]. simpl. lia. }
  { pose proof (cg_room _ _ _ _ Hc). unfold two64 in *. lia. }
  set (c := (sorted_records ma, sort_slice str_ltb (elements tomb))) in *.
  assert (view_of (cs0 ++ [c]) = M) as EM.
  { unfold view_of, view_over. rewrite foldl_app. cbn [foldl]. apply (applied_change _ _ _ _ Hc). }
  assert (Forall (named_ref (Dimension config) (maxLSN - 1)) (refs0 ++ [ref])) as Hn1.
  { apply Forall_app. split; [done|]. apply Forall_singleton. left. by rewrite Hlsn. }
  unfold io_bind at 1 in Hrun.
  destruct (compactSegmentRefs (refs0 ++ [ref]) (Dimension config) maxLSN d1) as [d2 rc] eqn:Ec.
  destruct (compact_ok d1 (refs0 ++ [ref]) (cs0 ++ [c]) (Dimension config) maxLSN d2 rc Hs1) as (Hag&Hoth&Hok); [|exact Ec|].
  { intros l n. apply (compact_name_fresh _ (Dimension config) (maxLSN - 1)); [done|lia|done]. }
  assert (∀ n, n ∈ all_names refs0 → n ∈ all_names (refs0 ++ [ref])) as Hsub.
  { intros n (x&Hx&Hin)%all_names_elem. apply all_names_elem. exists x. split; [|done]. apply elem_of_app. by left. }
  assert (∀ n, fresh_name maxLSN n ∨ n ∈ all_names refs0 → files d2 !! n = files d !! n) as Hkeep.
  { intros n [(Hf1&Hf2&Hf3)|Hf].
    - rewrite (Hoth n Hf2). by apply Hw.
    - rewrite <-(Hag n (Hsub n Hf)). apply Hw. intros Hin. by apply (Hd0 n Hin). }
  assert (files d2 !! manifest_name = files d !! manifest_name) as Hman.
  { rewrite Hoth.
    - apply Hw. intros (s&E&_)%segment_file_suffix. unfold delta_name in E. discriminate E.
    - intros l (s&E&_)%segment_file_suffix. unfold compact_name in E. discriminate E. }
  destruct rc as [refs|e]; [|injection Hrun as <- <-; split; [done|by left]].
  destruct Hok as (cs&Hs2&Hview&Hlast&(Hl1&Hl2&Ht)&Hrefs).
  assert (view_of cs = M) as EV by (unfold view_of; by rewrite Hview).
  rewrite <-EV in Hrun.
  destruct (write_view_ok d2 d' refs cs maxLSN r Hp Hs2) as [Hfiles Hres]; try done.
  - apply Forall_forall. intros x Hx. destruct (Hrefs x Hx) as [Hin|(l&Hx')].
    + rewrite Forall_forall in Hn1. apply (named_mono _ (maxLSN - 1)); [lia|by apply Hn1].
    + right. exists l, maxLSN. split; [lia|done].
  - rewrite Hlast, last_snoc. simpl. by rewrite Hlsn.
  - rewrite length_app in Hl1, Hl2. simpl in Hl1, Hl2. lia.
  - etrans; [apply Nat2Z.inj_le, Ht|]. rewrite tombstone_count_app. unfold tombstone_count at 2. cbn. rewrite app_nil_r.
    unfold c. cbn [snd]. rewrite length_sort_slice. pose proof (cg_room _ _ _ _ Hc) as Hr. unfold size, set_size in Hr. simpl in Hr. lia.
  - rewrite EV. apply (cg_size _ _ _ _ Hc).
  - rewrite EV. apply Forall_forall. intros x Hx. apply sorted_elem in Hx; [|done]. by apply (cg_filters _ _ _ _ Hc _ _ Hx).
  - split.
    + intros n Hor. rewrite Hfiles; [by apply Hkeep|]. destruct Hor as [(_&_&?)|?]; [done|by apply Hv1].
    + destruct r as [[[[m fd] gd] pq]|e].
      * destruct Hres as (H1&H2&H3&H4&H5). exists refs, cs. done.
      * destruct Hres as [H|H]; [left; by rewrite H|right]. by exists refs, cs.
Qed.

(** ** Checkpoints *)

(** The manifest a checkpoint starts from. *)
Definition manifest_of (F : gmap string (list Z)) (old : option Manifest) : Prop :=
  match old with None => F !! manifest_name = None | Some m => quiet F LoadManifest = Ok m end.

(** Something changed since the last checkpoint, and the log moved on. *)
Definition progress (old : option Manifest) (ma : gmap string CoreRecord) (tomb : gset string) (lsn maxLSN : Z) : Prop :=
  old = None ∨ (lsn < maxLSN ∧ (ma ≠ ∅ ∨ tomb ≠ ∅)).

Lemma no_manifest F : F !! manifest_name = None → quiet F LoadManifest = Err not_exist.
Proof. intros H. unfold LoadManifest, quiet, io_bind, readFile. simpl. by rewrite H. Qed.

Lemma len_sorted_zero m : (len (sorted_records m) =? 0) = bool_decide (m = ∅).
Proof.
  rewrite len_sorted. destruct (decide (m = ∅)) as [->|Hne].
  - by rewrite map_size_empty, bool_decide_eq_true_2.
  - rewrite bool_decide_eq_false_2 by done. apply Z.eqb_neq. pose proof (map_size_non_empty_iff m) as H. apply H in Hne. lia.
Qed.

Lemma len_keys_zero (tomb : gset string) : (len (sort_slice str_ltb (elements tomb)) =? 0) = bool_decide (tomb = ∅).
Proof.
  unfold len. rewrite length_sort_slice. change (length (elements tomb)) with (size tomb). destruct (decide (tomb = ∅)) as [->|Hne].
  - by rewrite size_empty, bool_decide_eq_true_2.
  - rewrite bool_decide_eq_false_2 by done. apply Z.eqb_neq. intros E. apply Hne. apply leibniz_equiv, size_empty_inv. lia.
Qed.

(** What a checkpoint starts from is a list of segments with the view. *)
Lemma checkpoint_start F old base lsn maxLSN ma tomb room :
  disk_view F base lsn → manifest_of F old → progress old ma tomb lsn maxLSN → change_ok ma base tomb room → 0 ≤ maxLSN →
  ∃ refs0 cs0, segments_ok F refs0 cs0 ∧ base = view_of cs0 ∧ Forall (named_ref (Dimension config) (maxLSN - 1)) refs0 ∧
    Forall (λ ref, 0 ≤ ref_MaxLSN ref < maxLSN) refs0 ∧ (length refs0 ≤ 8)%nat ∧ Z.of_nat (tombstone_count cs0) ≤ lsn ∧
    (∀ d, files d = F → Engine.write_checkpoint (I := I) config maxLSN old (sorted_records (merged ma base tomb)) (sorted_records ma)
       (sort_slice str_ltb (elements tomb)) d = write_from refs0 maxLSN (merged ma base tomb) ma tomb d) ∧
    (refs0 = [] ∧ old = None ∨ lsn < maxLSN ∧ view_ok F refs0 lsn cs0).
Proof.
  intros [(HF&->&->)|(refs&cs&Hv&->)] Hold Hprog Hc Hm.
  - exists [], []. assert (old = None) as ->.
    { destruct old as [m|]; [|done]. simpl in Hold. by rewrite no_manifest in Hold. }
    split_and!; try done; [apply segments_none|simpl; lia|by left].
  - destruct old as [m|]; simpl in Hold.
    2: { exfalso. pose proof (vo_load _ _ _ _ Hv) as Hl. by rewrite (no_manifest F Hold) in Hl. }
    rewrite (vo_load _ _ _ _ Hv) in Hold. injection Hold as <-. destruct Hprog as [?|[Hlt Hne]]; [done|].
    pose proof (vo_segments _ _ _ _ Hv) as Hs. pose proof (vo_last _ _ _ _ Hv) as Hlast.
    exists refs, cs. split_and!; try done.
    + eapply Forall_impl; [apply (vo_named _ _ _ _ Hv)|]. intros x. apply named_mono. lia.
    + destruct (so_refs _ _ _ Hs) as [Hsort _ Hrange]. rewrite Forall_forall in Hrange. apply Forall_forall. intros x Hx.
      destruct (Hrange x Hx) as [[H0 _] _]. split; [done|]. destruct (last refs) as [newest|] eqn:El; [|done]. injection Hlast as Hlast.
      apply last_Some in El as [front ->]. apply elem_of_app in Hx as [Hx|Hx].
      * apply sorted_app_lt in Hsort as (_&_&Hsort). specialize (Hsort x newest Hx (list_elem_of_here _ _)). simpl in Hsort. lia.
      * apply list_elem_of_singleton in Hx as ->. lia.
    + apply (vo_length _ _ _ _ Hv).
    + apply (vo_tombstones _ _ _ _ Hv).
    + intros d _. unfold Engine.write_checkpoint, Engine.checkpoint_base, write_from, write_delta. unfold view_manifest.
      cbn [Format Z.eqb Pos.eqb Segments Engine.no_base orb].
      unfold io_bind at 1, io_ret at 1. cbn [fst snd]. rewrite len_sorted_zero, len_keys_zero.
      destruct (decide (ma = ∅)) as [Ea|Ea].
      * rewrite (bool_decide_eq_true_2 (ma = ∅)), (bool_decide_eq_false_2 (tomb = ∅)) by (done || by destruct Hne). done.
      * rewrite (bool_decide_eq_false_2 (ma = ∅)) by done. done.
    + right. done.
Qed.

Lemma write_checkpoint_ok d d' old base lsn maxLSN ma tomb r :
  plain_config → disk_view (files d) base lsn → manifest_of (files d) old → progress old ma tomb lsn maxLSN →
  change_ok ma base tomb (maxLSN - lsn) → 0 ≤ maxLSN < two64 →
  Engine.write_checkpoint (I := I) config maxLSN old (sorted_records (merged ma base tomb)) (sorted_records ma)
    (sort_slice str_ltb (elements tomb)) d = (d', r) →
  match r with
  | Ok (m, filterData, graphData, pqData) => ∃ refs cs,
      view_ok (files d') refs maxLSN cs ∧ view_of cs = merged ma base tomb ∧
      m = view_manifest refs maxLSN (Z.of_nat (size (view_of cs))) ∧
      MarshalRecords (sorted_records (view_of cs)) = Ok filterData ∧ graphData = [] ∧ pqData = None
  | Err _ => disk_view (files d') base lsn ∨ disk_view (files d') (merged ma base tomb) maxLSN
  end.
Proof.
  intros Hp Hd Hold Hprog Hc Hm.
  destruct (checkpoint_start _ old base lsn maxLSN ma tomb _ Hd Hold Hprog Hc ltac:(lia)) as (refs0&cs0&Hs&->&Hn&Hlt&Hlen&Ht&Heq&Hcase).
  rewrite Heq by done. intros Hrun.
  destruct (write_from_ok d d' refs0 cs0 maxLSN ma tomb _ r Hp Hs Hn Hlt Hlen Hm Hc ltac:(lia) Hrun) as [Hkeep Hres].
  destruct r as [[[[m fd] gd] pq]|e]; [done|].
  destruct Hres as [Hman|(refs&cs&Hv&E)]; [left|right; right; by exists refs, cs].
  destruct Hcase as [[-> ->]|[Hlsn Hv]].
  - left. simpl in Hold. destruct Hd as [(_&E&->)|(refs&cs&Hv&_)]; [by rewrite Hman|].
    pose proof (vo_load _ _ _ _ Hv) as Hl. by rewrite (no_manifest _ Hold) in Hl.
  - right. exists refs0, cs0. split; [|done]. eapply view_agree; [exact Hv|].
    intros n Hin. symmetry. unfold view_names in Hin. apply elem_of_cons in Hin as [->|Hin]; [done|].
    apply elem_of_cons in Hin as [->|Hin]; apply Hkeep; [left|by right].
    pose proof (vo_range _ _ _ _ Hv) as Hr. split; [|split].
    + intros (s&E&_)%segment_file_suffix. destruct (delta_segment maxLSN s) as [t E']. rewrite E' in E. by apply view_not_segment in E.
    + intros l (s&E&_)%segment_file_suffix. destruct (compact_segment l maxLSN s) as [t E']. rewrite E' in E. by apply view_not_segment in E.
    + unfold view_files. intros [E|E%list_elem_of_singleton]%elem_of_cons; [|by apply view_not_manifest in E].
      apply view_inj in E; lia.
Qed.

End Files.
