(* ===== verification/Engine.v ===== *)
(** * The engine

    [internal/engine/engine.go], [idempotency.go] and [ownership.go]: the
    operations on one collection.  A mutation is appended to its shard's log
    before it is applied in memory, and every [checkpointEvery] mutations of a
    shard write a checkpoint; leaders commit batches under idempotency keys
    and replicas apply them at exact log positions.

    The operations extend the state of [Checkpoint.v].  [owned] tells which
    shards this node owns, [now] and [clock] are readings of the clock, and
    the [log_faults] are the outcomes of the calls on a shard's log.  The text
    of wrapped errors is left out, and so are copies of records, which are
    values. *)
From Stdlib Require Import ZArith Lia Ascii String.
From stdpp Require Import base tactics list gmap strings.
From S2P Require Import Prelude Wal Core Sha256 Float Distance TopK Index Segment Shard Collection Persistence Json Column Compaction SegmentFiles Multisegment MappedIndex Sealed Checkpoint.
Local Open Scope string_scope.
Local Open Scope Z_scope.
Local Open Scope list_scope.

Record idempotencyLedger : Set := mkLedger { led_Format : Z; led_Entries : list idempotencyEntry }.

Definition idempotencyFormat : Z := 1.

(** [^[A-Za-z0-9][A-Za-z0-9._:-]{0,127}$] *)
Definition alphanumeric (c : ascii) : bool :=
  let n := N_of_ascii c in
  ((48 <=? n) && (n <=? 57) || (65 <=? n) && (n <=? 90) || (97 <=? n) && (n <=? 122))%N.

Fixpoint all_chars (f : ascii → bool) (s : string) : bool :=
  match s with EmptyString => true | String c rest => f c && all_chars f rest end.

Definition validIdempotencyKey (key : string) : bool :=
  match key with
  | EmptyString => false
  | String c rest =>
      alphanumeric c && all_chars (λ c, alphanumeric c || existsb (Ascii.eqb c) ["."; "_"; ":"; "-"]%char) rest
      && (String.length rest <=? 127)%nat
  end.

Definition validateIdempotencyKey (key : string) : res unit :=
  if validIdempotencyKey key then Ok tt else invalid "Idempotency-Key must be 1-128 characters".

Definition ledger_name : string := "ledger.json".

Definition of_records (records : list CoreRecord) : walMutation := mkMutation None records "" "".
Definition of_key (namespace id : string) : walMutation := mkMutation None [] namespace id.

Notation "'let+' x := m 'in' k" := (Engine.bind m (λ x, k)) (at level 10, x name, k at level 200).
Notation "'let+' ' p := m 'in' k" := (Engine.bind m (λ p, k)) (at level 10, p strict pattern, k at level 200).

Module Store.
Import Engine.
Section Operations.
Context {I MI L : Type} `{VectorIndex I, MetadataIndex MI, LexicalIndex L, IndexBuilders I, SealedBuilders I, FilterFiles MI}.
Context `{!Json Manifest, !Json (list storedRecord), !Json (list string), !Json persistedIndex}.
Context `{!Json walMutation, !Json (list CoreRecord), !Json idempotencyLedger}.
Context (native : bool) (owned : Z → bool) (checkpointEvery : Z).

Local Abbreviation state := (Engine.t I MI L).
Local Abbreviation M := (Engine.M (I := I) (MI := MI) (L := L)).

(** ** Steps *)

Definition prepare (record : CoreRecord) (now : Z) : M CoreRecord := λ s,
  match Collection.PrepareUpsert (coll s) record now with
  | Err e => (s, Err e)
  | Ok (c, r) => (Engine.mk c (stores s), Ok r)
  end.

Fixpoint prepare_all (clock : nat → Z) (position : nat) (records : list CoreRecord) : M (list CoreRecord) :=
  match records with
  | [] => ret []
  | r :: rest =>
      let+ stored := prepare r (clock position) in
      let+ others := prepare_all clock (S position) rest in
      ret (stored :: others)
  end.

Definition append (faults : log_faults) (shardID operation : Z) (payload : list Z) : M Z :=
  on_log shardID (λ l, Append (append_faults faults) l operation payload).

Fixpoint apply_all (records : list CoreRecord) : M unit :=
  match records with
  | [] => ret tt
  | r :: rest => let+ _ := on_coll (λ c, Collection.ApplyUpsert c r) in apply_all rest
  end.

Fixpoint restore_all (records : list CoreRecord) : M unit :=
  match records with
  | [] => ret tt
  | r :: rest => let+ _ := on_coll (λ c, Collection.Restore c r) in restore_all rest
  end.

Definition count_mutations (shardID n : Z) : M Z :=
  on_store shardID (λ st,
    let m := u64 (mutations st + n) in
    (mkStore (directory st) (log st) (checkpointLSN st) m (walDigests st) (ledger st) (idempotency st), Ok m)).

(** The mutations are counted; enough of them write a checkpoint. *)
Definition after (faults : log_faults) (shardID n : Z) : M unit :=
  let+ m := count_mutations shardID n in
  if (0 <? checkpointEvery) && (checkpointEvery <=? m) then checkpointShardLocked native faults shardID else ret tt.

Definition afterMutationLocked (faults : log_faults) (shardID : Z) : M unit := after faults shardID 1.

(** ** Mutations of one record *)

Definition Upsert (faults : log_faults) (record : CoreRecord) (now : Z) : M CoreRecord :=
  let+ stored := prepare record now in
  let+ payload := lift (json_Marshal (mkMutation (Some stored) [] "" "")) in
  let+ shardID := ask (λ c, Collection.RouteShard c (Namespace stored) (ID stored)) in
  if negb (owned shardID) then fail (Sentinel ErrShardNotOwned)
  else
    let+ _ := append faults shardID OperationUpsert payload in
    let+ _ := on_coll (λ c, Collection.ApplyUpsert c stored) in
    let+ _ := afterMutationLocked faults shardID in
    ret stored.

Definition Get (namespace id : string) : M CoreRecord :=
  let+ shardID := ask (λ c, Collection.RouteShard c namespace id) in
  if negb (owned shardID) then fail (Sentinel ErrShardNotOwned)
  else
    let+ r := ask (λ c, Collection.Get c namespace id) in
    lift r.

(** What a deletion commits. *)
Definition delete_from (faults : log_faults) (shardID : Z) (namespace id : string) (payload : list Z) : M Z :=
  let+ sequence := append faults shardID OperationDelete payload in
  let+ _ := on_coll (λ c, Collection.ApplyDelete c namespace id) in
  let+ _ := afterMutationLocked faults shardID in
  ret sequence.

Definition check_present (namespace id : string) : M unit :=
  let+ r := ask (λ c, Collection.Get c namespace id) in
  let+ _ := lift r in
  ret tt.

Definition Delete (faults : log_faults) (namespace id : string) : M unit :=
  let+ _ := check_present namespace id in
  let+ payload := lift (json_Marshal (of_key namespace id)) in
  let+ shardID := ask (λ c, Collection.RouteShard c namespace id) in
  if negb (owned shardID) then fail (Sentinel ErrShardNotOwned)
  else
    let+ _ := delete_from faults shardID namespace id payload in
    ret tt.

Definition DeleteShardWithSequence (faults : log_faults) (shardID : Z) (namespace id : string) : M Z :=
  if String.eqb id "" then lift (invalid "record id is required")
  else
    let+ count := ask (λ c, ShardCount (Collection.config c)) in
    let+ routed := ask (λ c, Collection.RouteShard c namespace id) in
    if (count <=? shardID) || negb (routed =? shardID) then lift (invalid "delete does not route to shard")
    else if negb (owned shardID) then fail (Sentinel ErrShardNotOwned)
    else
      let+ _ := check_present namespace id in
      let+ payload := lift (json_Marshal (of_key namespace id)) in
      delete_from faults shardID namespace id payload.

(** ** Batches *)

Definition check_batch (records : list CoreRecord) : res unit :=
  if (len records =? 0) || (10000 <? len records) then invalid "batch size must be between 1 and 10000" else Ok tt.

(** One shard's group of a batch. *)
Definition commit_group (faults : Z → log_faults) (prepared : list CoreRecord) (shardID : Z) : M unit :=
  let+ group := ask (λ c, List.filter (λ r, Collection.RouteShard c (Namespace r) (ID r) =? shardID) prepared) in
  let+ payload := lift (json_Marshal (of_records group)) in
  let+ _ := append (faults shardID) shardID OperationBatchUpsert payload in
  let+ _ := apply_all group in
  after (faults shardID) shardID (len group).

Fixpoint commit_groups (faults : Z → log_faults) (prepared : list CoreRecord) (shardIDs : list Z) : M unit :=
  match shardIDs with
  | [] => ret tt
  | shardID :: rest =>
      let+ _ := commit_group faults prepared shardID in
      commit_groups faults prepared rest
  end.

Definition BatchUpsert (faults : Z → log_faults) (records : list CoreRecord) (clock : nat → Z) : M (list CoreRecord) :=
  let+ _ := lift (check_batch records) in
  let+ prepared := prepare_all clock 0 records in
  let+ routes := ask (λ c, (λ r, Collection.RouteShard c (Namespace r) (ID r)) <$> prepared) in
  let shardIDs := sort_slice Z.ltb (elements (list_to_set routes : gset Z)) in
  if existsb (λ shardID, negb (owned shardID)) shardIDs then fail (Sentinel ErrShardNotOwned)
  else
    let+ _ := commit_groups faults prepared shardIDs in
    ret prepared.

(** ** Idempotent batches *)

Definition idempotencyDigest (records : list CoreRecord) : res string :=
  let! payload := json_Marshal records in
  Ok (hex_EncodeToString (sha256_Sum256 payload)).

Definition set_entry (shardID : Z) (key : string) (entry : option idempotencyEntry) : M unit :=
  on_store shardID (λ st,
    (mkStore (directory st) (log st) (checkpointLSN st) (mutations st) (walDigests st) (ledger st)
       (match entry with Some e => <[key := e]> (idempotency st) | None => delete key (idempotency st) end), Ok tt)).

Definition on_ledger {A} (shardID : Z) (m : IO A) : M A :=
  on_store shardID (λ st,
    let '(d, r) := m (ledger st) in
    (mkStore (directory st) (log st) (checkpointLSN st) (mutations st) (walDigests st) d (idempotency st), r)).

(** The entries are written in the order of a map. *)
Definition persistIdempotencyLocked (shardID : Z) : M unit :=
  let+ st := get_store shardID in
  let+ payload := lift (json_Marshal (mkLedger idempotencyFormat (map_to_list (idempotency st)).*2)) in
  on_ledger shardID (writeAtomic ledger_name payload).

Definition commitReservedBatchLocked (faults : log_faults) (shardID : Z) (key : string) (entry : idempotencyEntry)
    : M (list CoreRecord * Z) :=
  let+ payload := lift (json_Marshal (of_records (ent_Records entry))) in
  let+ sequence := append faults shardID OperationBatchUpsert payload in
  let+ _ := restore_all (ent_Records entry) in
  let+ _ := set_entry shardID key (Some (mkEntry (ent_Key entry) (ent_Digest entry) (ent_Records entry) true sequence)) in
  let+ _ := persistIdempotencyLocked shardID in
  let+ _ := after faults shardID (len (ent_Records entry)) in
  ret (ent_Records entry, sequence).

(** The checks on the records of a batch for one shard. *)
Definition check_routed_record (c : Collection.t I MI L) (shardID : Z) (r : CoreRecord) : res unit :=
  if String.eqb (ID r) "" || negb (Collection.RouteShard c (Namespace r) (ID r) =? shardID) then
    invalid "record does not route to shard"
  else Collection.validate_record c r.

Fixpoint check_each (check : CoreRecord → res unit) (records : list CoreRecord) : res unit :=
  match records with
  | [] => Ok tt
  | r :: rest => let! _ := check r in check_each check rest
  end.

Definition check_shard (shardID : Z) : M unit :=
  if negb (owned shardID) then fail (Sentinel ErrShardNotOwned)
  else
    let+ count := ask (λ c, ShardCount (Collection.config c)) in
    if count <=? shardID then lift (invalid "shard ID out of range") else ret tt.

(** A batch under a new key is reserved in the ledger before it is
    committed. *)
Definition reserve (shardID : Z) (key : string) (entry : idempotencyEntry) : M unit :=
  let+ _ := set_entry shardID key (Some entry) in
  λ s,
    match persistIdempotencyLocked shardID s with
    | (s', Ok tt) => (s', Ok tt)
    | (s', Err e) =>
        match set_entry shardID key None s' with
        | (s'', _) => (s'', Err e)
        end
    end.

Definition BatchUpsertShardIdempotent (faults : log_faults) (shardID : Z) (records : list CoreRecord) (key : string)
    (clock : nat → Z) : M (list CoreRecord * Z) :=
  let+ _ := lift (check_batch records) in
  let+ _ := check_shard shardID in
  let+ requestDigest := lift (idempotencyDigest records) in
  let+ _ := if String.eqb key "" then ret tt else lift (validateIdempotencyKey key) in
  let+ st := get_store shardID in
  match (if String.eqb key "" then None else idempotency st !! key) with
  | Some retained =>
      if negb (String.eqb (ent_Digest retained) requestDigest) then fail (Sentinel ErrIdempotencyConflict)
      else if ent_Completed retained then ret (ent_Records retained, ent_Sequence retained)
      else commitReservedBatchLocked faults shardID key retained
  | None =>
      let+ checked := ask (λ c, check_each (check_routed_record c shardID) records) in
      let+ _ := lift checked in
      let+ prepared := prepare_all clock 0 records in
      if negb (String.eqb key "") then
        let entry := mkEntry key requestDigest prepared false 0 in
        let+ _ := reserve shardID key entry in
        commitReservedBatchLocked faults shardID key entry
      else
        let+ payload := lift (json_Marshal (of_records prepared)) in
        let+ sequence := append faults shardID OperationBatchUpsert payload in
        let+ _ := apply_all prepared in
        let+ _ := after faults shardID (len prepared) in
        ret (prepared, sequence)
  end.

Definition BatchUpsertShardWithSequence (faults : log_faults) (shardID : Z) (records : list CoreRecord) (clock : nat → Z)
    : M (list CoreRecord * Z) :=
  BatchUpsertShardIdempotent faults shardID records "" clock.

(** ** Replication *)

(** A record as a leader prepared it. *)
Definition check_replica_record (c : Collection.t I MI L) (shardID : Z) (r : CoreRecord) : res unit :=
  if String.eqb (ID r) "" || (Version r =? 0) || (Timestamp r =? 0)
     || negb (Collection.RouteShard c (Namespace r) (ID r) =? shardID) then
    invalid "invalid prepared replica record"
  else Collection.validate_record c r.

(** What is left to do for a mutation at a log position: nothing when the log
    has it already, and it must be the next one otherwise. *)
Definition replica_position (st : store) (l : Log) (sequence : Z) (digest : list Z) : res bool :=
  let last := LastLSN l in
  if sequence <=? last then
    match walDigests st !! sequence with
    | None => Err (Sentinel ErrReplicationCompacted)
    | Some retained => if bool_decide (retained = digest) then Ok false else Err (Sentinel ErrReplicationConflict)
    end
  else if negb (sequence =? u64 (last + 1)) then Err (Wrapf ErrReplicationGap "unexpected sequence")
  else Ok true.

Definition get_log (shardID : Z) : M Log := on_log shardID (λ l, (l, Ok l)).

(** The digest of a mutation is kept and it counts. *)
Definition retain (shardID sequence : Z) (digest : list Z) (n : Z) : M unit :=
  on_store shardID (λ st,
    (mkStore (directory st) (log st) (checkpointLSN st) (u64 (mutations st + n)) (<[sequence := digest]> (walDigests st))
       (ledger st) (idempotency st), Ok tt)).

(** A mutation appended at an exact position and applied. *)
Definition replicate (faults : log_faults) (shardID sequence operation : Z) (payload : list Z) (n : Z) (apply : M unit) : M unit :=
  let digest := sha256_Sum256 payload in
  let+ l := get_log shardID in
  let+ st := get_store shardID in
  let+ todo := lift (replica_position st l sequence digest) in
  if negb todo then ret tt
  else
    let+ lsn := append faults shardID operation payload in
    if negb (lsn =? sequence) then fail (Errorf "replica WAL assigned unexpected sequence")
    else
      let+ _ := apply in
      retain shardID sequence digest n.

Definition ApplyReplicaBatch (faults : log_faults) (shardID sequence : Z) (records : list CoreRecord) : M unit :=
  if (sequence =? 0) || (len records =? 0) || (10000 <? len records) then lift (invalid "invalid replica batch")
  else
    let+ _ := check_shard shardID in
    let+ checked := ask (λ c, check_each (check_replica_record c shardID) records) in
    let+ _ := lift checked in
    let+ payload := lift (json_Marshal (of_records records)) in
    replicate faults shardID sequence OperationBatchUpsert payload (len records) (restore_all records).

(** [c.ApplyDelete], where a missing record is no error. *)
Definition delete_if_present (namespace id : string) : M unit :=
  on_coll (λ c, let '(c, e) := Collection.ApplyDelete c namespace id in (c, found e)).

Definition ApplyReplicaDelete (faults : log_faults) (shardID sequence : Z) (namespace id : string) : M unit :=
  if (sequence =? 0) || String.eqb id "" then lift (invalid "invalid replica delete")
  else if negb (owned shardID) then fail (Sentinel ErrShardNotOwned)
  else
    let+ count := ask (λ c, ShardCount (Collection.config c)) in
    let+ routed := ask (λ c, Collection.RouteShard c namespace id) in
    if (count <=? shardID) || negb (routed =? shardID) then lift (invalid "delete does not route to shard")
    else
      let+ payload := lift (json_Marshal (of_key namespace id)) in
      replicate faults shardID sequence OperationDelete payload 1 (delete_if_present namespace id).

Definition ReplicaSequence (shardID : Z) : M Z :=
  let+ _ := check_shard shardID in
  let+ l := get_log shardID in
  ret (LastLSN l).

Definition ExportReplicaSnapshot (shardID : Z) : M (Z * list CoreRecord) :=
  let+ _ := check_shard shardID in
  let+ records := ask (λ c, Collection.ShardRecords c shardID) in
  let+ l := get_log shardID in
  let+ records := lift records in
  ret (LastLSN l, records).

(** The records of a snapshot: prepared, routed here, one per key. *)
Fixpoint check_snapshot (c : Collection.t I MI L) (shardID : Z) (seen : gset string) (records : list CoreRecord) : res unit :=
  match records with
  | [] => Ok tt
  | r :: rest =>
      if String.eqb (ID r) "" || (Version r =? 0) || (Timestamp r =? 0)
         || negb (Collection.RouteShard c (Namespace r) (ID r) =? shardID) then
        invalid "invalid snapshot record"
      else if bool_decide (record_key r ∈ seen) then invalid "duplicate snapshot record"
      else
        let! _ := Collection.validate_record c r in
        check_snapshot c shardID ({[record_key r]} ∪ seen) rest
  end.

(** The files of a replica's snapshot, up to the manifest. *)
Definition write_snapshot (config : CollectionConfig) (sequence : Z) (records : list CoreRecord)
    : IO (Manifest * list Z * option (list Z)) :=
  let base := "segment-" +:+ fmt_020d sequence in
  let* m := WriteBundle base records (Dimension config) sequence in
  let* filterData := io_res (MarshalRecords records) in
  let filterFile := base +:+ ".filter" in
  let* _ := WriteFilter filterFile filterData (RecordCount m) (man_MaxLSN m) in
  let* graphFile :=
    if is_type config IndexHNSW then
      let* graph := io_res (Sealed.BuildHNSWGraph config records) in
      let* _ := WriteGraph (base +:+ ".graph") graph in
      io_ret (base +:+ ".graph")
    else io_ret (GraphFile m) in
  let* pqData := io_res (Sealed.BuildPQ config records) in
  let* pqFile :=
    match pqData with
    | Some data => let* _ := WritePQ (base +:+ ".pq") data in io_ret (base +:+ ".pq")
    | None => io_ret (PQFile m)
    end in
  let* graphFile := writeDiskANN config (base +:+ ".diskann") records graphFile in
  let m := mkManifest (Format m) (SegmentFile m) (RecordsFile m) (VectorsFile m) graphFile filterFile pqFile (man_Dimension m)
             (man_MaxLSN m) (RecordCount m) (Segments m) in
  let* _ := SaveManifest m in
  io_ret (m, filterData, pqData).

Definition InstallReplicaSnapshot (faults : log_faults) (shardID sequence : Z) (records : list CoreRecord) : M unit :=
  if sequence =? 0 then lift (invalid "snapshot sequence must be positive")
  else
    let+ _ := check_shard shardID in
    let+ l := get_log shardID in
    if sequence <? LastLSN l then fail (Wrapf ErrReplicationConflict "snapshot sequence is older than local WAL")
    else
      let+ checked := ask (λ c, check_snapshot c shardID ∅ records) in
      let+ _ := lift checked in
      let+ config := ask Collection.config in
      let+ _ := load_manifest shardID in
      let+ '(m, filterData, pqData) := on_directory shardID (write_snapshot config sequence records) in
      let+ _ := on_log shardID (λ l, Reset (reset_fault faults) l (u64 (sequence + 1))) in
      let+ _ :=
        if is_type config IndexDiskANN && negb (String.eqb (GraphFile m) "") then
          let+ metadataIndex := lift (LoadBinary filterData (RecordCount m)) in
          install_diskann shardID m records (Some metadataIndex)
        else on_coll (λ c, Sealed.InstallRecordsShardWithPQ c shardID records None pqData) in
      let+ _ := set_checkpoint shardID sequence in
      let+ _ := set_digests shardID ∅ in
      let+ pinned := ask (λ c, Collection.ShardHasPinnedReaders c shardID) in
      if pinned then ret tt else on_directory shardID (CleanupOrphans m).

(** ** Listing *)

(** The loop over the sorted records. *)
Fixpoint page_loop (routed : CoreRecord → bool) (namespace afterNamespace afterID : string) (limit : Z)
    (records page : list CoreRecord) : list CoreRecord * bool :=
  match records with
  | [] => (page, false)
  | r :: rest =>
      if negb (routed r) then page_loop routed namespace afterNamespace afterID limit rest page
      else if negb (String.eqb namespace "") && negb (String.eqb (Namespace r) namespace) then
        page_loop routed namespace afterNamespace afterID limit rest page
      else if str_ltb (Namespace r) afterNamespace
              || (String.eqb (Namespace r) afterNamespace && negb (str_ltb afterID (ID r))) then
        page_loop routed namespace afterNamespace afterID limit rest page
      else if len page =? limit then (page, true)
      else page_loop routed namespace afterNamespace afterID limit rest (page ++ [r])
  end.

Definition scroll (shardID : option Z) (namespace afterNamespace afterID : string) (limit : Z)
    : M (list CoreRecord * bool) :=
  if (limit <? 1) || (200 <? limit) then lift (invalid "limit must be between 1 and 200")
  else
    ask (λ c,
      let records := sort_slice (by_key pair_ltb record_order) (Collection.Records c) in
      let routed := λ r, match shardID with Some n => Collection.RouteShard c (Namespace r) (ID r) =? n | None => true end in
      page_loop routed namespace afterNamespace afterID limit records []).

Definition Scroll (namespace afterNamespace afterID : string) (limit : Z) : M (list CoreRecord * bool) :=
  scroll None namespace afterNamespace afterID limit.

Definition ScrollShard (shardID : Z) (namespace afterNamespace afterID : string) (limit : Z) : M (list CoreRecord * bool) :=
  scroll (Some shardID) namespace afterNamespace afterID limit.

Definition Checkpoint (faults : Z → log_faults) : M unit := λ s,
  for_shards (λ shardID, if owned shardID then checkpointShardLocked native (faults shardID) shardID else ret tt)
    (seq 0 (Z.to_nat (ShardCount (Collection.config (coll s))))) s.

(** ** Opening *)

(** The entries of a ledger file, each under its key. *)
Fixpoint ledger_entries (entries : list idempotencyEntry) (m : gmap string idempotencyEntry)
    : res (gmap string idempotencyEntry) :=
  match entries with
  | [] => Ok m
  | e :: rest =>
      if negb (validIdempotencyKey (ent_Key e)) || String.eqb (ent_Digest e) "" || (len (ent_Records e) =? 0) then
        Err (Errorf "decode idempotency ledger: invalid entry")
      else ledger_entries rest (<[ent_Key e := e]> m)
  end.

Definition read_ledger : IO (gmap string idempotencyEntry) := λ d,
  match readFile ledger_name d with
  | (d, Err e) => if is_not_exist e then (d, Ok ∅) else (d, Err e)
  | (d, Ok data) =>
      (d, match json_Unmarshal data with
          | Err e => Err (Errorf "decode idempotency ledger: invalid format")
          | Ok l =>
              if negb (led_Format l =? idempotencyFormat) then Err (Errorf "decode idempotency ledger: invalid format")
              else ledger_entries (led_Entries l) ∅
          end)
  end.

(** One round of [initializeIdempotency]. *)
Definition initialize_ledger (shardID : Z) : M unit :=
  let+ entries := on_ledger shardID read_ledger in
  on_store shardID (λ st,
    (mkStore (directory st) (log st) (checkpointLSN st) (mutations st) (walDigests st) (ledger st) entries, Ok tt)).

Definition initializeIdempotency : M unit := λ s, for_shards initialize_ledger (seq 0 (length (stores s))) s.

(** The stores of a collection that is being opened. *)
Definition new_store (disks : disk * disk) : store := mkStore disks.1 None 0 0 ∅ disks.2 ∅.

(** What [OpenWithOptions] does for one catalog entry; [logs] are the files of
    the logs and [disks] the segment and ledger directories. *)
Definition openCollection (sync : SyncMode) (fault : Z → option OpenStep) (logs : Z → option (list Z))
    (disks : list (disk * disk)) (config : CollectionConfig) (legacy : list CoreRecord) : res state :=
  let! c := Collection.New config in
  let open :=
    let+ _ := initializeIdempotency in
    let+ _ := loadSegments native owned legacy in
    openCollectionLogs owned sync fault logs in
  match open (Engine.mk c (new_store <$> disks)) with
  | (s, Ok _) => Ok s
  | (_, Err e) => Err e
  end.

End Operations.
End Store.
