(* ===== verification/EngineState.v ===== *)
(** * The state of an engine

    What a shard's files stand for: the view of its segments with the entries
    of its log applied.  [recoverable] says so of the files alone, [linked]
    relates them to the shard in memory.  The engine's operations are reasoned
    about with postconditions for success and for failure, on the state seen
    from one shard. *)
From Stdlib Require Import ZArith Lia Ascii String.
From stdpp Require Import base tactics list gmap strings.
From S2P Require Import Prelude Wal Core CoreProofs Sha256 Distance Float Persistence TopK Index Segment SegmentProofs Shard ShardProofs Collection CollectionProofs Compaction Column Json SegmentFiles Multisegment SegmentIO ViewProofs MappedViews MappedIndex Sealed SealedProofs Checkpoint CheckpointProofs.
Local Set Warnings "-clear-no-such-hyp".
Local Open Scope string_scope.
Local Open Scope Z_scope.
Local Open Scope list_scope.

(** ** Shards sealed over mapped views

    A view's records without their vectors, together with the mapping of its
    segments, make a sealed segment that stands for the view: a checkpoint
    and a load both install such a segment. *)

(** Floats are read in place: the mapping is little endian and aligned. *)
Lemma composite_over vectors dimension (records : list CoreRecord) :
  mapped_view vectors dimension records → Forall (λ r, len (Vector r) = dimension) records →
  source_over (composite_source true vectors) dimension (Vector <$> records).
Proof.
  intros [Hl Hd Hs Hc] Hlen. constructor; cbn [composite_source ms_Len ms_Dimension ms_VectorCopy ms_ScorePrepared].
  - rewrite Hl. unfold len. by rewrite length_fmap.
  - done.
  - intros i v Hv. rewrite list_lookup_fmap in Hv. destruct (records !! i) as [r|] eqn:Hr; [|done]. injection Hv as <-. by apply Hc.
  - intros metric query norm i v Hv Hq. rewrite list_lookup_fmap in Hv. destruct (records !! i) as [r|] eqn:Hr; [|done].
    injection Hv as <-. specialize (Hc i r Hr). unfold Composite_VectorCopy in Hc. unfold Composite_ScoreAcquiredPrepared, composite_at.
    destruct (_ || _); [done|]. destruct (cm_locations vectors !! _) as [l|]; [|done].
    destruct (cm_sources vectors !! loc_Segment l) as [mv|] eqn:Em; [|done].
    pose proof (Forall_lookup_1 _ _ _ _ Hs Em) as Hdim. simpl in Hdim.
    unfold VectorCopy in Hc. unfold ScoreAcquiredPrepared. rewrite Hdim, Hq, Z.eqb_refl. cbn [negb].
    destruct (_ || _); [done|]. injection Hc as Hc. by rewrite <-Hdim, Hc.
  - by apply Forall_fmap.
Qed.

Lemma strip_stripped : stripped strip.
Proof. intros r. by destruct r. Qed.

Section Segments.
Context {I MI L : Type} `{!VectorIndex I, !VectorIndexSpec I, !MetadataIndex MI, !MetadataSpec MI,
  !LexicalIndex L, !IndexBuilders I, !IndexBuildersSpec I, !SealedBuilders I, !SealedSpec I}.
Context (config : CollectionConfig).

(** Named vectors are placed as in a mutable segment of the collection. *)
Lemma initNamed_exists keep (full : gmap Z CoreRecord) sg :
  Segment.New (I := I) (MI := MI) (L := L) config = Ok sg → keeps_named keep → (∀ o r, full !! o = Some r → prepared config r ∧ o ≠ 0) →
  ∃ fields recs, Sealed.initNamed (I := I) config (keep <$> full) = Ok (fields, recs).
Proof.
  intros Hnew Hkeep Hfull. unfold Sealed.initNamed. destruct (_ =? 0)%nat; [eauto|].
  unfold Segment.New in Hnew. destruct (Segment.New_index config); [|done]. cbn [res_bind] in Hnew.
  destruct (Segment.build_fields config (VectorFieldNames config)) as [fields0|] eqn:Ef; [|done]. cbn [res_bind].
  pose proof (build_fields_ok config fields0 Ef) as H0. rewrite map_to_list_fmap.
  destruct (name_records_ok config keep (map_to_list full) fields0 (keep <$> full) ∅ Hkeep) as (fields'&Hr&_); [|done|].
  { intros o r Hr%elem_of_map_to_list. by apply Hfull. }
  rewrite Hr. eauto.
Qed.

(** Sealing a mapped view succeeds. *)
Lemma NewMapped_exists (items : list CoreRecord) source i sg :
  plain_config config → Segment.New (I := I) (MI := MI) (L := L) config = Ok sg →
  NoDup (record_key <$> items) → Forall (prepared config) items → meta_rep i (Metadata <$> numbered items) →
  source_over source (Dimension config) (Vector <$> items) →
  ∃ base, Sealed.NewMappedWithPQ (L := L) config (strip <$> items) source (Some i) None = Ok base.
Proof.
  intros Hp Hnew Hnd Hpr Hm Hs. pose proof (pc_dimension config Hp) as Hd. unfold Sealed.NewMappedWithPQ.
  rewrite (so_dimension _ _ _ Hs), Z.eqb_refl. cbn [negb]. unfold Sealed.mapped_index.
  rewrite (pc_quantization config Hp), (plain_pq config _ Hp). change (String.eqb "" QuantizationBinary) with false. cbv iota.
  assert (ordinals_of (strip <$> items) = ordinals_of (Vector <$> items)) as ->.
  { unfold ordinals_of. by rewrite !imap_fmap. }
  destruct (build_mapped_ok source (Metric config) (Vector <$> items)) as (idx&->&_); rewrite ?(so_dimension _ _ _ Hs);
    [done|by apply (pc_metric config)|lia|]. cbn [res_bind]. cbv zeta.
  destruct (place_stripped (L := L) strip (Some i) items strip_stripped Hnd Hm) as (P1&_&_). rewrite P1.
  destruct (initNamed_exists without_vector (numbered items) sg Hnew) as (fields&recs&->); [done|by apply numbered_prepared|].
  cbn [res_bind]. eauto.
Qed.

End Segments.

(** *** Installing a sealed segment *)

Section Install.
Context {I MI L : Type} `{!VectorIndex I, !VectorIndexSpec I, !MetadataIndex MI, !MetadataSpec MI,
  !LexicalIndex L, !IndexBuilders I, !IndexBuildersSpec I, !SealedBuilders I, !SealedSpec I}.

(** The version after the records of a list. *)
Definition raised (v : Z) (items : list CoreRecord) : Z := foldl (λ v r, Collection.raise_version v (Version r)) v items.

Lemma raised_ge v items : v ≤ raised v items.
Proof.
  revert v. induction items as [|r items IH]; intros v; [done|]. cbn [raised foldl]. etrans; [|apply IH].
  unfold Collection.raise_version. destruct (Z.leb_spec (Version r) v); lia.
Qed.

Lemma raised_elem v items r : r ∈ items → Version r ≤ raised v items.
Proof.
  revert v. induction items as [|x items IH]; intros v; [by intros ?%not_elem_of_nil|]. cbn [raised foldl].
  intros [->|Hr]%elem_of_cons; [|by apply IH]. etrans; [|apply raised_ge].
  unfold Collection.raise_version. destruct (Z.leb_spec (Version x) v); lia.
Qed.

Lemma raised_le v items b : v ≤ b → (∀ r, r ∈ items → Version r ≤ b) → raised v items ≤ b.
Proof.
  revert v. induction items as [|x items IH]; intros v Hv H; [done|]. cbn [raised foldl]. apply IH.
  - unfold Collection.raise_version. specialize (H x ltac:(left)). destruct (Z.leb_spec (Version x) v); lia.
  - intros r Hr. apply H. by right.
Qed.

Lemma raised_strip v items : raised v (strip <$> items) = raised v items.
Proof. revert v. induction items as [|r items IH]; intros v; [done|]. rewrite fmap_cons. apply IH. Qed.

Lemma check_routed_raised (c : Collection.t I MI L) n items v :
  (∀ r, r ∈ items → Collection.RouteShard c (Namespace r) (ID r) = n) → Collection.check_routed c n items v = (raised v items, None).
Proof.
  revert v. induction items as [|r items IH]; intros v H; [done|]. cbn [Collection.check_routed].
  rewrite (H r) by left. rewrite Z.eqb_refl. cbn [negb]. apply IH. intros r' Hr'. apply H. by right.
Qed.

(** The shard a segment has just been installed in. *)
Record installed (s s' : Shard.t I MI L) (m : gmap string CoreRecord) : Prop := mkInstalled {
  in_inv : shard_inv s' ∅ m;
  in_config : Shard.config s' = Shard.config s;
  in_tombstones : Shard.tombstones s' = ∅;
  in_next : Segment.nextID (Shard.active s') = 1;
}.

Lemma install_ok (c : Collection.t I MI L) M M' b n s items misrouted build sg m :
  coll_inv c M → budget c M b → Collection.shards c !! n = Some s →
  (∀ r, r ∈ items → Collection.RouteShard c (Namespace r) (ID r) = Z.of_nat n) →
  build (Collection.config c) = Ok sg → holds (Collection.config c) sg m →
  part (len (Collection.shards c)) n M' = m →
  (∀ j, j ≠ n → part (len (Collection.shards c)) j M' = part (len (Collection.shards c)) j M) →
  keyed M' → (∀ k r, M' !! k = Some r → Version r ≤ raised (Collection.version c) items) →
  Z.of_nat (size M') ≤ b → (∀ r, r ∈ items → Version r ≤ b) →
  ∃ c' s', Sealed.install c (Z.of_nat n) items misrouted build = (c', None) ∧ coll_inv c' M' ∧ budget c' M' b ∧
    Collection.config c' = Collection.config c ∧ Collection.shards c' = <[n := s']> (Collection.shards c) ∧
    Collection.version c' = raised (Collection.version c) items ∧ installed s s' m.
Proof.
  intros Hi Hb Hs Hr Hbuild Hh Hm Hj Hk Hv Hsz Hvb. unfold Sealed.install. rewrite Nat2Z.id, Hs.
  destruct (ci_shards c M Hi n s Hs) as (Hcfg&ma&mi&Hsi&_). destruct (ci_fresh c M Hi) as [fresh Hf].
  rewrite check_routed_raised by done. rewrite Hbuild.
  destruct (Install_ok s ma mi sg m fresh Hsi) as (s'&->&Hsi'&Hm'&Hcfg'&_&Ht&Hn1); [by rewrite Hcfg|by rewrite Hcfg|].
  eexists _, s'. split; [done|]. split; [|split; [|split; [done|split; [done|split; [done|]]]]].
  - apply (update_shard (Collection.mk (Collection.config c) (Collection.shards c) (raised (Collection.version c) items)) M M' n s s' m); try done.
    + destruct Hi as [Q1 Q2 Q3 Q4 Q5]. constructor; cbn [Collection.shards Collection.config Collection.version]; try done.
      intros k r Hk'. etrans; [by apply (Q4 k)|]. apply raised_ge.
    + cbn [Collection.config]. by rewrite Hcfg', Hcfg.
    + exists ∅, m. by rewrite Ht in Hm' |- *.
  - destruct Hb as [B1 B2 B3]. constructor; unfold Collection.set_shard; cbn [Collection.version Collection.shards]; [|done|].
    + split; [|apply raised_le; [lia|done]]. pose proof (raised_ge (Collection.version c) items). lia.
    + intros j s0. destruct (decide (j = n)) as [->|Hne].
      * rewrite list_lookup_insert_eq by (by eapply lookup_lt_Some). intros [= <-]. rewrite Hn1. lia.
      * rewrite list_lookup_insert_ne by done. apply B3.
  - done.
Qed.

(** Installing the mapped view of some records; routing looks at the keys
    alone. *)
Lemma install_mapped_ok (c : Collection.t I MI L) M M' b n s (items : list CoreRecord) source i m :
  coll_inv c M → budget c M b → b + 2 < two64 → Collection.shards c !! n = Some s → plain_config (Collection.config c) →
  keyed m → items = sorted_records m → (∀ k r, m !! k = Some r → prepared (Collection.config c) r) →
  meta_rep i (Metadata <$> numbered items) → source_over source (Dimension (Collection.config c)) (Vector <$> items) →
  part (len (Collection.shards c)) n M' = m →
  (∀ j, j ≠ n → part (len (Collection.shards c)) j M' = part (len (Collection.shards c)) j M) →
  keyed M' → (∀ k r, M' !! k = Some r → Version r ≤ b ∧ Version r ≤ raised (Collection.version c) items) →
  Z.of_nat (size M') ≤ b →
  ∃ c' s', Sealed.InstallMappedShardWithPQ c (Z.of_nat n) (strip <$> items) source (Some i) None = (c', None) ∧
    coll_inv c' M' ∧ budget c' M' b ∧
    Collection.config c' = Collection.config c ∧ Collection.shards c' = <[n := s']> (Collection.shards c) ∧
    Collection.version c' = raised (Collection.version c) items ∧ installed s s' m.
Proof.
  intros Hi Hb Hlt Hs Hp Hk -> Hpr Hrep Hsrc Hm Hj HkM Hv Hsz. set (cfg := Collection.config c) in *.
  assert (∀ r, r ∈ sorted_records m ↔ m !! record_key r = Some r) as Hin by (intros r; by apply sorted_elem).
  assert (raised (Collection.version c) (strip <$> sorted_records m) = raised (Collection.version c) (sorted_records m)) as Er
    by apply raised_strip.
  assert (Forall (prepared cfg) (sorted_records m)) as Hall.
  { apply Forall_forall. intros r Hr%Hin. by eapply Hpr. }
  assert (NoDup (record_key <$> sorted_records m)) as Hnd.
  { unfold sorted_records. rewrite sort_slice_perm, <-list_fmap_compose. apply NoDup_fmap_2_strong; [|apply NoDup_map_to_list].
    intros [k r] [k' r'] H%elem_of_map_to_list H'%elem_of_map_to_list. simpl. intros E.
    pose proof (Hk k r H). pose proof (Hk k' r' H'). congruence. }
  assert (∀ r, m !! record_key r = Some r → M' !! record_key r = Some r ∧ Collection.RouteShard c (Namespace r) (ID r) = Z.of_nat n) as Hrt.
  { intros r Hr. rewrite <-Hm, part_lookup in Hr. destruct (decide _) as [Hd|]; [|done]. split; [done|]. unfold Collection.RouteShard.
    fold (record_key r). pose proof (route_bound (len (Collection.shards c)) (record_key r) (ci_count c M Hi)). lia. }
  assert (len (sorted_records m) ≤ b) as Hlen.
  { rewrite len_sorted. etrans; [|exact Hsz]. apply inj_le. rewrite <-Hm. apply map_size_filter. }
  destruct (ci_fresh c M Hi) as [fresh Hf].
  destruct (NewMapped_exists cfg (sorted_records m) source i fresh Hp Hf Hnd Hall Hrep Hsrc) as [sg Hsg].
  assert (holds cfg sg m) as Hh.
  { assert (Shard.put_records ∅ (sorted_records m) = m) as Em by (by rewrite put_sorted, (right_id_L ∅ (∪))).
    pose proof (NewMapped_holds cfg strip (sorted_records m) source (Some i) None sg strip_stripped Hnd Hall) as Hx.
    rewrite Em in Hx. apply Hx; [lia|exact Hrep|by apply (pc_metric cfg)|pose proof (pc_dimension cfg Hp); lia|done|done]. }
  unfold Sealed.InstallMappedShardWithPQ. fold cfg. rewrite (pc_flat cfg Hp). change (negb (String.eqb IndexFlat IndexFlat)) with false. cbv iota.
  assert (∀ r, r ∈ strip <$> sorted_records m → ∃ x, r = strip x ∧ m !! record_key x = Some x) as Hst.
  { intros r (x&->&Hx%Hin)%list_elem_of_fmap. eauto. }
  rewrite <-Er. apply (install_ok c M M' b n s _ _ _ sg m); try done.
  - intros r (x&->&Hx)%Hst. by apply (Hrt x).
  - intros k r Hr. rewrite Er. by apply (Hv k r Hr).
  - intros r (x&->&Hx)%Hst. apply Hrt in Hx as [Hx _]. by apply (Hv _ x Hx).
Qed.

End Install.

(** ** Postconditions *)

Section Calculus.
Context {I MI L : Type}.

Local Abbreviation state := (Engine.t I MI L).
Local Abbreviation M := (Engine.M (I := I) (MI := MI) (L := L)).

Definition post {A} (m : M A) (s : state) (Q : A → state → Prop) (E : state → Prop) : Prop :=
  match m s with (s', Ok a) => Q a s' | (s', Err _) => E s' end.

Lemma post_bind {A B} (m : M A) (k : A → M B) s Q E :
  post m s (λ a s', post (k a) s' Q E) E → post (Engine.bind m k) s Q E.
Proof. unfold post, Engine.bind. by destruct (m s) as [s' [a|e]]. Qed.

Lemma post_ret {A} (a : A) s (Q : A → state → Prop) E : Q a s → post (Engine.ret a) s Q E.
Proof. done. Qed.

Lemma post_fail {A} e s (Q : A → state → Prop) (E : state → Prop) : E s → post (Engine.fail e) s Q E.
Proof. done. Qed.

Lemma post_ask {A} (f : Collection.t I MI L → A) s (Q : A → state → Prop) E : Q (f (Engine.coll s)) s → post (Engine.ask f) s Q E.
Proof. done. Qed.

Lemma post_lift {A} (r : res A) s (Q : A → state → Prop) (E : state → Prop) :
  match r with Ok a => Q a s | Err _ => E s end → post (Engine.lift r) s Q E.
Proof. unfold post, Engine.lift. by destruct r. Qed.

Lemma post_mono {A} (m : M A) s (Q Q' : A → state → Prop) (E E' : state → Prop) :
  post m s Q E → (∀ a s', Q a s' → Q' a s') → (∀ s', E s' → E' s') → post m s Q' E'.
Proof. unfold post. destruct (m s) as [s' [a|e]]; auto. Qed.

(** The state seen from shard [i]. *)
Definition focus (i : nat) (ss : list store) (c : Collection.t I MI L) (st : store) : state := Engine.mk c (<[i := st]> ss).

Lemma focus_same i s st : Engine.stores s !! i = Some st → s = focus i (Engine.stores s) (Engine.coll s) st.
Proof. intros H. unfold focus. rewrite list_insert_id by done. by destruct s. Qed.

Lemma on_store_focus {A} i ss c st (f : store → store * res A) :
  (i < length ss)%nat → Engine.on_store (Z.of_nat i) f (focus i ss c st) = let '(st', r) := f st in (focus i ss c st', r).
Proof.
  intros Hi. unfold Engine.on_store, focus. cbn [Engine.stores Engine.coll]. rewrite Nat2Z.id, list_lookup_insert_eq by done.
  destruct (f st) as [st' r]. by rewrite list_insert_insert_eq.
Qed.

Lemma post_store {A} i ss c st (f : store → store * res A) (Q : A → state → Prop) (E : state → Prop) :
  (i < length ss)%nat →
  (match f st with (st', Ok a) => Q a (focus i ss c st') | (st', Err _) => E (focus i ss c st') end) →
  post (Engine.on_store (Z.of_nat i) f) (focus i ss c st) Q E.
Proof. intros Hi H. unfold post. rewrite on_store_focus by done. by destruct (f st) as [st' [a|e]]. Qed.

Definition with_directory (st : store) (d : disk) : store :=
  mkStore d (log st) (checkpointLSN st) (mutations st) (walDigests st) (ledger st) (idempotency st).

Definition with_log (st : store) (l : Log) : store :=
  mkStore (directory st) (Some l) (checkpointLSN st) (mutations st) (walDigests st) (ledger st) (idempotency st).

Lemma post_get i ss c st (Q : store → state → Prop) (E : state → Prop) :
  (i < length ss)%nat → Q st (focus i ss c st) → post (Engine.get_store (Z.of_nat i)) (focus i ss c st) Q E.
Proof. intros Hi H. by apply post_store. Qed.

Lemma post_directory {A} i ss c st (m : IO A) (Q : A → state → Prop) (E : state → Prop) :
  (i < length ss)%nat →
  (match m (directory st) with
   | (d, Ok a) => Q a (focus i ss c (with_directory st d)) | (d, Err _) => E (focus i ss c (with_directory st d)) end) →
  post (Engine.on_directory (Z.of_nat i) m) (focus i ss c st) Q E.
Proof. intros Hi H. apply post_store; [done|]. unfold with_directory in H. by destruct (m (directory st)) as [d [a|e]]. Qed.

Lemma post_log {A} i ss c st l (f : Log → Log * res A) (Q : A → state → Prop) (E : state → Prop) :
  (i < length ss)%nat → log st = Some l →
  (match f l with (l', Ok a) => Q a (focus i ss c (with_log st l')) | (l', Err _) => E (focus i ss c (with_log st l')) end) →
  post (Engine.on_log (Z.of_nat i) f) (focus i ss c st) Q E.
Proof. intros Hi Hl H. apply post_store; [done|]. rewrite Hl. unfold with_log in H. by destruct (f l) as [l' [a|e]]. Qed.

Lemma post_coll i ss c st f (Q : unit → state → Prop) (E : state → Prop) :
  (match f c with (c', None) => Q tt (focus i ss c' st) | (c', Some _) => E (focus i ss c' st) end) →
  post (Engine.on_coll f) (focus i ss c st) Q E.
Proof. intros H. unfold post, Engine.on_coll, focus. cbn [Engine.coll Engine.stores]. by destruct (f c) as [c' [e|]]. Qed.

End Calculus.

(** ** Entries of a log *)

Section Entries.
Context {MI : Type} `{!MetadataIndex MI, !MetadataSpec MI, !FilterFiles MI, !FilterFilesSpec MI}.
Context `{!Json walMutation}.
Context (config : CollectionConfig) (shardCount : Z).

Definition valid_record (r : CoreRecord) : Prop :=
  Collection.validate_record (I := unit) (MI := unit) (L := unit) (Collection.mk config [] 0) r = Ok tt.

(** A record the collection accepts and every file preserves. *)
Record storable (r : CoreRecord) : Prop := mkStorable {
  sr_prepared : prepared config r;
  sr_valid : valid_record r;
  sr_durable : durable r;
  sr_filter : filter_stable r;
}.

Definition routed (i : nat) (k : string) : Prop := Z.to_nat (Collection.route_of shardCount k) = i.

Record item_ok (i : nat) (bound : Z) (r : CoreRecord) : Prop := mkItemOk {
  im_storable : storable r;
  im_routed : routed i (record_key r);
  im_version : Version r ≤ bound;
}.

(** The records of a shard. *)
Record shard_map (i : nat) (bound : Z) (m : gmap string CoreRecord) : Prop := mkShardMap {
  sm_keyed : keyed m;
  sm_items k r : m !! k = Some r → item_ok i bound r;
}.

(** What an entry does to the records of its shard. *)
Definition apply_mutation (operation : Z) (mutation : walMutation) (m : gmap string CoreRecord) : gmap string CoreRecord :=
  if operation =? OperationUpsert then
    match mut_Record mutation with Some r => <[record_key r := r]> m | None => m end
  else if operation =? OperationDelete then delete (key (mut_Namespace mutation) (mut_ID mutation)) m
  else Shard.put_records m (mut_Records mutation).

Definition effect (r : WalRecord) (m : gmap string CoreRecord) : gmap string CoreRecord :=
  match json_Unmarshal (Wal.Payload r) with Ok mutation => apply_mutation (Operation r) mutation m | Err _ => m end.

Definition replayed (lsn : Z) (m : gmap string CoreRecord) (rs : list WalRecord) : gmap string CoreRecord :=
  foldl (λ m r, if lsn <? LSN r then effect r m else m) m rs.

(** The entries the engine writes. *)
Inductive mutation_ok (i : nat) (bound : Z) : Z → walMutation → Prop :=
| upsert_ok mu r : mut_Record mu = Some r → item_ok i bound r → mutation_ok i bound OperationUpsert mu
| delete_ok mu : mut_ID mu ≠ "" → routed i (key (mut_Namespace mu) (mut_ID mu)) → mutation_ok i bound OperationDelete mu
| batch_ok mu : 0 < len (mut_Records mu) ≤ 10000 → Forall (item_ok i bound) (mut_Records mu) → mutation_ok i bound OperationBatchUpsert mu.

Definition entry_ok (i : nat) (bound : Z) (r : WalRecord) : Prop :=
  ∃ mu, json_Unmarshal (Wal.Payload r) = Ok mu ∧ mutation_ok i bound (Operation r) mu.

Lemma shard_map_empty i bound : shard_map i bound ∅.
Proof. constructor; [apply keyed_empty|]. intros k r. by rewrite lookup_empty. Qed.

Lemma shard_map_insert i bound r m : item_ok i bound r → shard_map i bound m → shard_map i bound (<[record_key r := r]> m).
Proof.
  intros Hr [Hk Hi]. constructor; intros k r'.
  - intros [[<- <-]|[_ H]]%lookup_insert_Some; [done|by apply Hk].
  - intros [[_ <-]|[_ H]]%lookup_insert_Some; [done|by eapply Hi].
Qed.

Lemma shard_map_delete i bound k m : shard_map i bound m → shard_map i bound (delete k m).
Proof.
  intros [Hk Hi]. constructor; intros k' r' [_ H]%lookup_delete_Some; [by apply Hk|by eapply Hi].
Qed.

Lemma shard_map_put i bound l m : Forall (item_ok i bound) l → shard_map i bound m → shard_map i bound (Shard.put_records m l).
Proof.
  intros Hl. revert m. induction Hl as [|r l Hr Hl IH]; intros m Hm; [done|]. apply IH. by apply shard_map_insert.
Qed.

Lemma effect_map i bound r m : entry_ok i bound r → shard_map i bound m → shard_map i bound (effect r m).
Proof.
  intros (mu&Hu&Ho) Hm. unfold effect, apply_mutation. rewrite Hu. destruct Ho as [mu r' Hr Hi|mu _ _|mu _ Hl]; cbn [Z.eqb Pos.eqb OperationUpsert OperationDelete OperationBatchUpsert].
  - rewrite Hr. by apply shard_map_insert.
  - by apply shard_map_delete.
  - by apply shard_map_put.
Qed.

Lemma replayed_map i bound lsn m rs : Forall (entry_ok i bound) rs → shard_map i bound m → shard_map i bound (replayed lsn m rs).
Proof.
  intros Hr. revert m. induction Hr as [|r rs Hr Hrs IH]; intros m Hm; [done|]. cbn [replayed foldl]. apply IH.
  destruct (_ <? _); [by apply effect_map|done].
Qed.

Lemma replayed_snoc lsn m rs r : replayed lsn m (rs ++ [r]) = if lsn <? LSN r then effect r (replayed lsn m rs) else replayed lsn m rs.
Proof. unfold replayed. by rewrite foldl_app. Qed.

(** Entries a checkpoint covers are skipped. *)
Lemma replayed_skip lsn m rs : Forall (λ r, LSN r ≤ lsn) rs → replayed lsn m rs = m.
Proof.
  intros H. revert m. induction H as [|r rs Hr Hrs IH]; intros m; [done|]. cbn [replayed foldl].
  rewrite (proj2 (Z.ltb_ge _ _)) by done. apply IH.
Qed.

Lemma entry_mono i a b r : a ≤ b → entry_ok i a r → entry_ok i b r.
Proof.
  intros Hab (mu&Hu&Ho). exists mu. split; [done|].
  assert (∀ r, item_ok i a r → item_ok i b r) as Hi by (intros x [? ? ?]; constructor; [done..|lia]).
  destruct Ho; [by eapply upsert_ok; eauto|by apply delete_ok|apply batch_ok; [done|]]. by eapply Forall_impl; [|exact Hi].
Qed.

Lemma shard_map_mono i a b m : a ≤ b → shard_map i a m → shard_map i b m.
Proof. intros Hab [Hk Hi]. constructor; [done|]. intros k r H. destruct (Hi k r H). constructor; [done..|lia]. Qed.

End Entries.

(** ** Log positions *)

Lemma contiguous_bound d rs :
  Forall record_ok rs → contiguous d rs → 0 ≤ d < two64 →
  d ≤ last_lsn d rs < two64 ∧ Forall (λ r, LSN r ≤ last_lsn d rs) rs.
Proof.
  intros Hok. revert d. induction Hok as [|r rs Hr Hrs IH]; intros d Hc Hd; [cbn [last_lsn]; split; [lia|constructor]|].
  destruct Hc as [Hl Hc]. cbn [last_lsn]. pose proof (ro_lsn _ Hr) as Hb.
  destruct (IH (LSN r) Hc ltac:(lia)) as [H1 H2].
  assert (d < LSN r) as Hlt.
  { destruct Hl as [->|Hl]; [lia|]. destruct (decide (d + 1 < two64)); [rewrite u64_small in Hl; lia|].
    assert (d + 1 = two64) as Ed by lia. rewrite Ed in Hl. change (u64 two64) with 0 in Hl. lia. }
  split; [lia|]. constructor; [lia|done].
Qed.

(** How many entries are replayed. *)
Definition replays (lsn : Z) (rs : list WalRecord) : Z := len (List.filter (λ r, lsn <? LSN r) rs).

Lemma replays_bound d lsn rs :
  Forall record_ok rs → contiguous d rs → 0 ≤ d < two64 → replays lsn rs ≤ Z.max 0 (last_lsn d rs - Z.max lsn d).
Proof.
  intros Hok. revert d. induction Hok as [|r rs Hr Hrs IH]; intros d Hc Hd; [unfold replays, len; simpl; lia|].
  destruct Hc as [Hl Hc]. cbn [last_lsn]. pose proof (ro_lsn _ Hr) as Hb. specialize (IH (LSN r) Hc ltac:(lia)).
  destruct (contiguous_bound (LSN r) rs Hrs Hc ltac:(lia)) as [Hlast _].
  assert (d < LSN r) as Hlt.
  { destruct Hl as [->|Hl]; [lia|]. destruct (decide (d + 1 < two64)); [rewrite u64_small in Hl; lia|].
    assert (d + 1 = two64) as Ed by lia. rewrite Ed in Hl. change (u64 two64) with 0 in Hl. lia. }
  unfold replays in *. cbn [List.filter]. destruct (Z.ltb_spec lsn (LSN r)).
  - rewrite len_cons. lia.
  - lia.
Qed.

Lemma log_bound l rs : LogInv l rs → rs ≠ [] → Forall (λ r, LSN r ≤ LastLSN l) rs ∧ LastLSN l = last_lsn 0 rs.
Proof.
  intros [_ _ Hok Hc Hn Hl] Hne. destruct Hl as [?|Hl]; [done|].
  destruct (contiguous_bound 0 rs Hok Hc) as [H1 H2]; [unfold two64; lia|].
  assert (LastLSN l = last_lsn 0 rs) as E by (unfold LastLSN; destruct (Z.eqb_spec (nextLSN l) 0); lia). by rewrite E.
Qed.

Lemma last_position l rs : LogInv l rs → LastLSN l = nextLSN l - 1 ∧ 0 ≤ LastLSN l < two64.
Proof. intros [_ _ _ _ Hn _]. unfold LastLSN. destruct (Z.eqb_spec (nextLSN l) 0); lia. Qed.

(** ** Durable shards *)

Section Durable.
Context {I MI L : Type} `{!VectorIndex I, !VectorIndexSpec I, !MetadataIndex MI, !MetadataSpec MI,
  !LexicalIndex L, !IndexBuilders I, !IndexBuildersSpec I, !SealedBuilders I, !SealedSpec I, !FilterFiles MI, !FilterFilesSpec MI}.
Context `{!Json Manifest, !Json (list storedRecord), !Json (list string), !Json persistedIndex, !Json walMutation}.
Context `{!JsonSpec Manifest json_manifest, !JsonSpec (list storedRecord) (fmap json_stored), !JsonSpec (list string) (fmap json_string)}.

Local Abbreviation collection := (Collection.t I MI L).

(** How many records the entries of a log hold. *)
Definition work (r : WalRecord) : Z :=
  match json_Unmarshal (Wal.Payload r) with
  | Ok mu => if Operation r =? OperationBatchUpsert then len (mut_Records mu) else 1
  | Err _ => 1
  end.

Lemma work_nonneg r : 0 ≤ work r.
Proof. unfold work. destruct (json_Unmarshal _); [|lia]. destruct (_ =? _); [apply len_nonneg|lia]. Qed.

Definition total_work (rs : list WalRecord) : Z := foldr (λ r n, work r + n) 0 rs.

Lemma total_work_nonneg rs : 0 ≤ total_work rs.
Proof. induction rs as [|r rs IH]; cbn [total_work foldr]; [lia|]. pose proof (work_nonneg r). unfold total_work in *. lia. Qed.

Lemma total_work_snoc rs r : total_work (rs ++ [r]) = total_work rs + work r.
Proof. unfold total_work. induction rs as [|x rs IH]; cbn [app foldr]; [lia|]. rewrite IH. lia. Qed.

(** The files of shard [i]: a view [base] that covers the log up to [lsn], and
    the entries [rs] of the log, standing for the records [m]. *)
Record durable_shard (cfg : CollectionConfig) (n : Z) (i : nat) (bound : Z) (F : gmap string (list Z)) (rs : list WalRecord)
    (base : gmap string CoreRecord) (lsn : Z) (m : gmap string CoreRecord) : Prop := mkDurable {
  du_view : disk_view cfg F base lsn;
  du_base : shard_map cfg n i bound base;
  du_records : Forall record_ok rs;
  du_contiguous : contiguous 0 rs;
  du_last : last_lsn 0 rs + 1 < two64;
  du_entries : Forall (entry_ok cfg n i bound) rs;
  du_position : rs = [] ∨ lsn ≤ last_lsn 0 rs;
  du_lsn : 0 ≤ lsn ∧ lsn + 1 < two64;
  du_map : m = replayed lsn base rs;
  du_size : Z.of_nat (size base) ≤ bound;
  du_work : total_work rs ≤ bound;
}.

Definition recoverable (cfg : CollectionConfig) (n : Z) (i : nat) (bound : Z) (F : gmap string (list Z)) (rs : list WalRecord)
    (m : gmap string CoreRecord) : Prop := ∃ base lsn, durable_shard cfg n i bound F rs base lsn m.

Definition sync_mode (l : Log) : Prop := mode l = SyncAlways ∨ mode l = SyncAsync.

(** Shard [i] in memory, its store and its files: the records [ma] changed
    since the checkpoint over the sealed ones. *)
Record link (c : collection) (i : nat) (bound : Z) (st : store) (m : gmap string CoreRecord) (sh : Shard.t I MI L)
    (ma base : gmap string CoreRecord) (rs : list WalRecord) (l : Log) : Prop := mkLink {
  lk_shard : Collection.shards c !! i = Some sh;
  lk_config : Shard.config sh = Collection.config c;
  lk_inv : shard_inv sh ma base;
  lk_map : m = merged ma base (Shard.tombstones sh);
  lk_open : log st = Some l;
  lk_log : LogInv l rs;
  lk_mode : sync_mode l;
  lk_durable : durable_shard (Collection.config c) (len (Collection.shards c)) i bound (files (directory st)) rs base (checkpointLSN st) m;
  lk_position : checkpointLSN st ≤ LastLSN l;
  lk_tombstones : Z.of_nat (size (Shard.tombstones sh)) ≤ LastLSN l - checkpointLSN st;
  lk_quiet : LastLSN l = checkpointLSN st → ma = ∅;
}.

Definition linked (c : collection) (i : nat) (bound : Z) (st : store) (m : gmap string CoreRecord) : Prop :=
  ∃ sh ma base rs l, link c i bound st m sh ma base rs l.

Lemma durable_map cfg n i bound F rs base lsn m : durable_shard cfg n i bound F rs base lsn m → shard_map cfg n i bound m.
Proof. intros [_ Hb _ _ _ He _ _ -> _ _]. by apply replayed_map. Qed.

Lemma durable_agree cfg n i bound F G rs base lsn m :
  durable_shard cfg n i bound F rs base lsn m → disk_view cfg G base lsn → durable_shard cfg n i bound G rs base lsn m.
Proof. intros [H1 H2 H3 H4 H5 H6 H7 H8 H9 H10 H11] HG. by constructor. Qed.

(** What a linked shard has changed may be written. *)
Lemma linked_change (cfg : CollectionConfig) n i bound F rs (sh : Shard.t I MI L) ma base lsn room :
  shard_inv sh ma base → durable_shard cfg n i bound F rs base lsn (merged ma base (Shard.tombstones sh)) →
  Z.of_nat (size (merged ma base (Shard.tombstones sh))) < two64 → Z.of_nat (size (Shard.tombstones sh)) ≤ room →
  change_ok ma base (Shard.tombstones sh) room.
Proof.
  intros Hi Hd Hsz Hroom. pose proof (durable_map _ _ _ _ _ _ _ _ _ Hd) as [Hk Hm].
  assert (∀ k r, ma !! k = Some r → merged ma base (Shard.tombstones sh) !! k = Some r) as Hma.
  { intros k r Hr. by rewrite merged_lookup, Hr. }
  constructor; try done.
  - eapply holds_keyed, (sh_active _ _ _ Hi).
  - apply (sh_disjoint _ _ _ Hi).
  - intros k r Hr%Hma. apply (sr_durable _ _ (im_storable _ _ _ _ _ (Hm k r Hr))).
  - intros k Hin. pose proof (sh_tombstones _ _ _ Hi k Hin) as [r Hr]%elem_of_dom.
    destruct (du_base _ _ _ _ _ _ _ _ _ Hd) as [Hbk Hb].
    destruct (sr_durable _ _ (im_storable _ _ _ _ _ (Hb k r Hr))) as [[_ Hs] _]. rewrite <-(Hbk k r Hr).
    split; [|done]. unfold record_key, key. destruct (Namespace r); discriminate.
  - intros k r Hr. apply (sr_filter _ _ (im_storable _ _ _ _ _ (Hm k r Hr))).
Qed.

End Durable.
