(* ===== verification/EngineCheckpoint.v ===== *)
(** * Checkpoints are crash safe

    Whatever fails during [checkpointShardLocked], the records in memory stay
    what they were and the shard's files recover to them; when it succeeds the
    sealed generation, the view on disk and the empty log agree.  The second
    part is about replaying a log. *)
From Stdlib Require Import ZArith Lia Ascii String.
From stdpp Require Import base tactics list gmap strings.
From S2P Require Import Prelude Wal Core CoreProofs Sha256 Distance Float Persistence TopK Index Segment SegmentProofs Shard ShardProofs Collection CollectionProofs Compaction Column Json SegmentFiles Multisegment SegmentIO ViewProofs MappedViews StorageTheorems MappedIndex Sealed SealedProofs Checkpoint CheckpointProofs EngineState.
Local Set Warnings "-clear-no-such-hyp".
Local Open Scope string_scope.
Local Open Scope Z_scope.
Local Open Scope list_scope.

Section Checkpoint.
Context {I MI L : Type} `{!VectorIndex I, !VectorIndexSpec I, !MetadataIndex MI, !MetadataSpec MI,
  !LexicalIndex L, !IndexBuilders I, !IndexBuildersSpec I, !SealedBuilders I, !SealedSpec I, !FilterFiles MI, !FilterFilesSpec MI}.
Context `{!Json Manifest, !Json (list storedRecord), !Json (list string), !Json persistedIndex, !Json walMutation}.
Context `{!JsonSpec Manifest json_manifest, !JsonSpec (list storedRecord) (fmap json_stored), !JsonSpec (list string) (fmap json_string)}.

Local Abbreviation collection := (Collection.t I MI L).
Local Abbreviation state := (Engine.t I MI L).

(** ** Reading the manifest *)

Lemma load_step d :
  files (LoadManifest d).1 = files d ∧
  ((LoadManifest d).2 = Err io_error ∨ (LoadManifest d).2 = quiet (files d) LoadManifest).
Proof.
  split; [apply (rd_files [manifest_name]), reader_manifest; by left|].
  unfold quiet, LoadManifest, io_bind, readFile, next_fault. destruct d as [F [|[] fs]]; cbn [faults files fst snd]; try (by left); right;
    destruct (F !! manifest_name) as [data|]; try done; cbn [fst snd]; unfold io_res; by destruct (json_Unmarshal data).
Qed.

(** [cfg] is the configuration of the collection throughout. *)
Context (cfg : CollectionConfig) (Hcfg : plain_config cfg).

Lemma post_load i ss (c : collection) st base lsn (Q : option Manifest → state → Prop) (E : state → Prop) :
  (i < length ss)%nat → disk_view cfg (files (directory st)) base lsn →
  (∀ d, files d = files (directory st) → E (focus i ss c (with_directory st d))) →
  (∀ d old, files d = files (directory st) → manifest_of (files (directory st)) old → Q old (focus i ss c (with_directory st d))) →
  post (Engine.load_manifest (Z.of_nat i)) (focus i ss c st) Q E.
Proof.
  intros Hi Hv HE HQ. unfold post, Engine.load_manifest.
  destruct (load_step (directory st)) as [Hf Hr].
  assert (Engine.on_directory (Z.of_nat i) LoadManifest (focus i ss c st)
    = (focus i ss c (with_directory st (LoadManifest (directory st)).1), (LoadManifest (directory st)).2)) as ->.
  { unfold Engine.on_directory. rewrite on_store_focus by done. by destruct (LoadManifest (directory st)). }
  destruct Hr as [-> | ->]; [by apply HE|].
  destruct Hv as [(Hn&_)|(refs&cs&Hv&_)].
  - rewrite (no_manifest _ Hn). change (is_not_exist not_exist) with true. cbv iota. by apply HQ.
  - rewrite (vo_load _ _ _ _ _ Hv). apply HQ; [done|]. simpl. apply (vo_load _ _ _ _ _ Hv).
Qed.

(** ** Views stay *)

Lemma view_keep F G refs maxLSN cs : view_ok cfg F refs maxLSN cs → (∀ n, n ∈ view_names refs maxLSN → G !! n = F !! n) → view_ok cfg G refs maxLSN cs.
Proof. intros Hv H. eapply view_agree; [exact Hv|]. intros n Hn. symmetry. by apply H. Qed.

(** Cleaning up keeps the files of the view. *)
Lemma cleanup_view d d' r refs maxLSN cs count :
  view_ok cfg (files d) refs maxLSN cs → CleanupOrphans (view_manifest cfg refs maxLSN count) d = (d', r) → view_ok cfg (files d') refs maxLSN cs.
Proof.
  intros Hv Hc. eapply view_keep; [exact Hv|]. intros n Hn. apply (cleanup_kept _ _ _ _ _ Hc).
  unfold view_names in Hn. apply elem_of_cons in Hn as [->|Hn]; [left; by left|].
  apply elem_of_cons in Hn as [->|Hn]; [right; done|]. apply all_names_elem in Hn as (ref&Hr&Hn).
  destruct (decide (n = "")) as [->|Hne]; [by right|]. left. right. split; [done|]. right; right; right; right; right; right.
  exists ref. split; [done|]. unfold ref_names in Hn. set_unfold. naive_solver.
Qed.

(** ** What a checkpoint leaves *)

(** The collection as it is, with the shard at [i] replaced. *)
Record same_but (c c' : collection) (i : nat) : Prop := mkSameBut {
  sb_config : Collection.config c' = Collection.config c;
  sb_version : Collection.version c' = Collection.version c;
  sb_shards : ∃ s, Collection.shards c' = <[i := s]> (Collection.shards c);
}.

Lemma same_but_refl (c : collection) i s : Collection.shards c !! i = Some s → same_but c c i.
Proof. intros H. constructor; [done..|]. exists s. by rewrite list_insert_id. Qed.

Lemma same_but_len (c c' : collection) i : same_but c c' i → len (Collection.shards c') = len (Collection.shards c).
Proof. intros [_ _ [s ->]]. unfold len. by rewrite length_insert. Qed.

(** The result of a checkpoint of shard [i] of [c], whose records are [M]. *)
Definition settled (i : nat) (ss : list store) (bound b : Z) (c : collection) (M : gmap string CoreRecord) (s' : state) : Prop :=
  ∃ c' st', s' = focus i ss c' st' ∧ coll_inv c' M ∧ budget c' M b ∧ same_but c c' i ∧
    linked c' i bound st' (part (len (Collection.shards c)) i M).

Definition survives (i : nat) (ss : list store) (bound b : Z) (c : collection) (M : gmap string CoreRecord) (s' : state) : Prop :=
  ∃ c' st' rs l', s' = focus i ss c' st' ∧ coll_inv c' M ∧ budget c' M b ∧ same_but c c' i ∧
    log st' = Some l' ∧ content (file l') = encode_log rs ∧
    recoverable cfg (len (Collection.shards c)) i bound (files (directory st')) rs (part (len (Collection.shards c)) i M).

(** A linked shard survives as long as its files and its log are untouched. *)
Lemma linked_survives i ss bound b (c : collection) M st :
  Collection.config c = cfg → coll_inv c M → budget c M b → linked c i bound st (part (len (Collection.shards c)) i M) →
  survives i ss bound b c M (focus i ss c st).
Proof.
  intros Hc Hi Hb (sh&ma&base&rs&l&Hl). exists c, st, rs, l. split_and!; try done.
  - eapply same_but_refl, (lk_shard _ _ _ _ _ _ _ _ _ _ Hl).
  - apply (lk_open _ _ _ _ _ _ _ _ _ _ Hl).
  - apply (li_content _ _ (lk_log _ _ _ _ _ _ _ _ _ _ Hl)).
  - exists base, (checkpointLSN st). rewrite <-Hc. apply (lk_durable _ _ _ _ _ _ _ _ _ _ Hl).
Qed.

Lemma linked_directory (c : collection) i bound st m d :
  files d = files (directory st) → linked c i bound st m → linked c i bound (with_directory st d) m.
Proof.
  intros Hd (sh&ma&base&rs&l&[H1 H2 H3 H4 H5 H6 H7 H8 H9 H10 H11]). exists sh, ma, base, rs, l.
  constructor; try done. cbn [with_directory directory checkpointLSN]. by rewrite Hd.
Qed.

(** The view a checkpoint has written recovers, whatever is left of the log. *)
Lemma written_recovers n i bound F base lsn rs rs' refs cs maxLSN m :
  durable_shard cfg n i bound F rs base lsn m → Forall (λ r, LSN r ≤ maxLSN) rs → rs = [] ∨ maxLSN = last_lsn 0 rs →
  maxLSN + 1 < two64 → rs' = rs ∨ rs' = [] → Z.of_nat (size m) ≤ bound →
  ∀ G, view_ok cfg G refs maxLSN cs → view_of cs = m → durable_shard cfg n i bound G rs' m maxLSN m.
Proof.
  intros Hd Hle Hlast Hmax Hrs' Hsize G Hv Hm. pose proof (durable_map _ _ _ _ _ _ _ _ _ Hd) as Hsm.
  pose proof (vo_range _ _ _ _ _ Hv) as Hr.
  constructor; [right; exists refs, cs; by rewrite Hm|done|..].
  - destruct Hrs' as [-> | ->]; [apply Hd|constructor].
  - destruct Hrs' as [-> | ->]; [apply Hd|done].
  - destruct Hrs' as [-> | ->]; [apply Hd|cbn [last_lsn]; unfold two64; lia].
  - destruct Hrs' as [-> | ->]; [apply Hd|constructor].
  - destruct Hrs' as [-> | ->]; [|by left]. destruct Hlast as [?|Hlast]; [by left|right; lia].
  - lia.
  - destruct Hrs' as [-> | ->]; [|done]. symmetry. by apply replayed_skip.
  - done.
  - destruct Hrs' as [-> | ->]; [apply Hd|]. cbn [total_work foldr]. lia.
Qed.

(** ** Installing what was written *)

Lemma reader_resolve refs : reader (all_names refs) (resolveMappedSegments refs).
Proof. unfold resolveMappedSegments. apply reader_bind; [apply reader_select|intros; apply reader_ret]. Qed.

Lemma reader_composite refs locations : reader (all_names refs) (OpenCompositeMappedVectors refs locations).
Proof.
  destruct refs as [|first refs]; [apply reader_fail|]. cbn [OpenCompositeMappedVectors].
  apply reader_bind; [apply reader_sources|]. intros sources. destruct (forallb _ _); [apply reader_ret|apply reader_fail].
Qed.

(** A read either fails or reads what the files hold. *)
Lemma post_reader {A} i ss (c : collection) st names (m : IO A) a (Q : A → state → Prop) (E : state → Prop) :
  (i < length ss)%nat → reader names m → quiet (files (directory st)) m = Ok a →
  (∀ d, files d = files (directory st) → E (focus i ss c (with_directory st d))) →
  (∀ d, files d = files (directory st) → Q a (focus i ss c (with_directory st d))) →
  post (Engine.on_directory (Z.of_nat i) m) (focus i ss c st) Q E.
Proof.
  intros Hi Hr Hq HE HQ. apply post_directory; [done|]. pose proof (rd_files _ _ Hr (directory st)) as Hf.
  pose proof (rd_sound _ _ Hr (directory st)) as Hs. destruct (m (directory st)) as [d [a'|e]]; cbn [fst snd] in *; [|by apply HE].
  specialize (Hs a' eq_refl). rewrite Hq in Hs. injection Hs as <-. by apply HQ.
Qed.

Lemma view_dimension F refs maxLSN cs : view_ok cfg F refs maxLSN cs → Forall (λ ref, ref_Dimension ref = Dimension cfg) refs ∧ refs ≠ [].
Proof.
  intros Hv. split.
  - eapply Forall_impl; [apply (vo_named _ _ _ _ _ Hv)|]. intros ref Hr. by destruct (named_plain _ _ _ Hr) as (_&_&_&_&_&?).
  - intros ->. pose proof (vo_last _ _ _ _ _ Hv). done.
Qed.

(** A collection whose shard [i] holds the view. *)
Lemma install_view_ok i ss (c : collection) M b st sh refs maxLSN cs idx (Q : unit → state → Prop) (E : state → Prop) :
  (i < length ss)%nat → Collection.config c = cfg → coll_inv c M → budget c M b → b + 2 < two64 → Collection.shards c !! i = Some sh →
  (∀ k r, part (len (Collection.shards c)) i M !! k = Some r → prepared cfg r) →
  view_ok cfg (files (directory st)) refs maxLSN cs → view_of cs = part (len (Collection.shards c)) i M →
  meta_rep idx (Metadata <$> numbered (sorted_records (view_of cs))) →
  (∀ d, files d = files (directory st) → E (focus i ss c (with_directory st d))) →
  (∀ d c' s', files d = files (directory st) → coll_inv c' M → budget c' M b → same_but c c' i →
     Collection.shards c' !! i = Some s' → installed sh s' (view_of cs) → Q tt (focus i ss c' (with_directory st d))) →
  post (Engine.install_view true (Z.of_nat i) (view_manifest cfg refs maxLSN (Z.of_nat (size (view_of cs)))) (sorted_records (view_of cs)) idx [] None)
    (focus i ss c st) Q E.
Proof.
  intros Hi Hc Hinv Hb Hlt Hs Hpr Hv Hview Hrep HE HQ. destruct (plain_types _ Hcfg) as (_&Eh&Ed).
  unfold Engine.install_view. apply post_bind, post_ask. cbn [focus Engine.coll]. rewrite Hc, Eh, Ed. cbn [andb]. cbv iota.
  destruct (view_dimension _ _ _ _ Hv) as [Hdim Hne]. destruct (vo_segments _ _ _ _ _ Hv) as [_ Hh _ _].
  destruct (quiet_mapped _ _ _ _ Hh Hdim Hne) as (locations&vectors&Hr&Ho&Hmap).
  apply post_bind. apply (post_reader _ _ _ _ (all_names refs) _ _ _ _ Hi (reader_resolve refs) Hr); [done|].
  intros d1 F1. apply post_bind. cbn [view_manifest Segments].
  apply (post_reader i ss c (with_directory st d1) (all_names refs) _ vectors _ _ Hi (reader_composite refs locations)).
  { cbn [with_directory directory]. by rewrite F1. }
  { intros d2 F2. apply HE. cbn [with_directory directory] in F2. congruence. }
  intros d2 F2. cbn [with_directory directory] in F2. apply post_coll.
  assert (Forall (prepared cfg) (sorted_records (view_of cs))) as Hpf.
  { apply Forall_forall. intros r Hr'. apply sorted_elem in Hr'; [|apply keyed_view, keyed_empty]. eapply Hpr. by rewrite <-Hview. }
  assert (raised (Collection.version c) (sorted_records (view_of cs)) = Collection.version c) as Er.
  { apply Z.le_antisymm; [|apply raised_ge]. apply raised_le; [done|]. intros r Hr'.
    apply sorted_elem in Hr'; [|apply keyed_view, keyed_empty]. rewrite Hview, part_lookup in Hr'.
    destruct (decide _); [|done]. by apply (ci_versions c M Hinv (record_key r)). }
  destruct (install_mapped_ok c M M b i sh (sorted_records (view_of cs)) (composite_source true vectors) idx (view_of cs) Hinv Hb Hlt Hs)
    as (c'&s'&Hin&Hinv'&Hb'&Hcfg'&Hsh'&Hver'&Hinst); try done.
  - by rewrite Hc.
  - apply keyed_view, keyed_empty.
  - intros k r Hkr. rewrite Hc. apply (Hpr k). by rewrite <-Hview.
  - rewrite Hc. apply composite_over; [done|]. eapply Forall_impl; [exact Hpf|]. by intros r (_&_&?).
  - by apply (ci_keyed c M).
  - intros k r Hkr. rewrite Er. pose proof (ci_versions c M Hinv k r Hkr). pose proof (bu_version c M b Hb). lia.
  - by apply (bu_size c M).
  - rewrite Hin. apply (HQ _ _ s'); try done; [congruence| |].
    + constructor; [done|by rewrite Hver'|by exists s'].
    + rewrite Hsh', list_lookup_insert_eq; [done|]. by eapply lookup_lt_Some.
Qed.

Definition finish (i : nat) (maxLSN : Z) (m : Manifest) (records : list CoreRecord) (filterData graphData : list Z) (pqData : option (list Z))
    : Engine.M (I := I) (MI := MI) (L := L) unit :=
  Engine.bind (Engine.set_digests (Z.of_nat i) ∅) (λ _,
  Engine.bind (Engine.lift (LoadBinary filterData (RecordCount m))) (λ metadataIndex,
  Engine.bind (Engine.install_view true (Z.of_nat i) m records metadataIndex graphData pqData) (λ _,
  Engine.bind (Engine.set_checkpoint (Z.of_nat i) maxLSN) (λ _,
  Engine.bind (Engine.ask (λ c, Collection.ShardHasPinnedReaders c (Z.of_nat i))) (λ pinned,
  if pinned then Engine.ret tt else Engine.on_directory (Z.of_nat i) (CleanupOrphans m)))))).

Lemma part_size n i M : (size (part n i M) ≤ size M)%nat.
Proof. apply map_subseteq_size, map_filter_subseteq. Qed.

(** After the log is reset, the files alone recover; installing the view links
    the shard to them again. *)
Lemma finish_ok i ss (c : collection) M b bound st l sh refs maxLSN cs filterData :
  (i < length ss)%nat → Collection.config c = cfg → coll_inv c M → budget c M b → b + 2 < two64 → b ≤ bound → Collection.shards c !! i = Some sh →
  let mp := part (len (Collection.shards c)) i M in
  shard_map cfg (len (Collection.shards c)) i bound mp →
  log st = Some l → LogInv l [] → sync_mode l → nextLSN l = maxLSN + 1 →
  view_ok cfg (files (directory st)) refs maxLSN cs → view_of cs = mp → maxLSN + 1 < two64 →
  MarshalRecords (sorted_records (view_of cs)) = Ok filterData →
  post (finish i maxLSN (view_manifest cfg refs maxLSN (Z.of_nat (size (view_of cs)))) (sorted_records (view_of cs)) filterData [] None)
    (focus i ss c st) (λ _, settled i ss bound b c M) (survives i ss bound b c M).
Proof.
  intros Hi Hc Hinv Hb Hlt Hbound Hs mp Hmp Hlog Hl Hmode Hnext Hv Hview Hmax Hmar.
  assert (Z.of_nat (size mp) ≤ bound) as Hsize by (pose proof (part_size (len (Collection.shards c)) i M); pose proof (bu_size _ _ _ Hb); unfold mp; lia).
  assert (∀ d, view_ok cfg (files d) refs maxLSN cs → durable_shard cfg (len (Collection.shards c)) i bound (files d) [] mp maxLSN mp) as Hdur.
  { intros d Hv'. pose proof (vo_range _ _ _ _ _ Hv') as Hr. constructor; [right; exists refs, cs; by rewrite Hview|done|..]; try done; try constructor; try (cbn [total_work foldr]; lia); done. }
  assert (∀ st', log st' = Some l → view_ok cfg (files (directory st')) refs maxLSN cs → survives i ss bound b c M (focus i ss c st')) as HE.
  { intros st' Hl' Hv'. exists c, st', [], l. split_and!; try done; [by eapply same_but_refl|apply Hl|]. exists mp, maxLSN. by apply Hdur. }
  unfold finish. apply post_bind. unfold Engine.set_digests. apply post_store; [done|].
  set (st1 := mkStore _ _ _ _ _ _ _). apply post_bind, post_lift. cbn [view_manifest RecordCount].
  assert (Forall filter_stable (sorted_records (view_of cs))) as Hfs.
  { apply Forall_forall. intros r Hr. apply sorted_elem in Hr; [|apply keyed_view, keyed_empty]. rewrite Hview in Hr.
    apply (sr_filter _ _ (im_storable _ _ _ _ _ (sm_items _ _ _ _ _ Hmp _ _ Hr))). }
  destruct (filter_load _ _ Hmar Hfs) as (idx&Hidx&Hrep). rewrite len_sorted in Hidx. rewrite Hidx.
  apply post_bind. apply (install_view_ok i ss c M b st1 sh refs maxLSN cs idx _ _ Hi Hc Hinv Hb Hlt Hs); try done.
  { intros k r Hr. apply (sr_prepared _ _ (im_storable _ _ _ _ _ (sm_items _ _ _ _ _ Hmp _ _ Hr))). }
  { intros d Hd. apply HE; [done|]. cbn [with_directory directory]. rewrite Hd. exact Hv. }
  intros d c' s' Hd Hinv' Hb' Hsame Hs' [I1 I2 I3 I4]. cbn [directory] in Hd.
  apply post_bind. unfold Engine.set_checkpoint. apply post_store; [done|]. cbn [with_directory directory log walDigests ledger idempotency].
  set (st2 := mkStore _ _ _ _ _ _ _).
  assert (∀ d', view_ok cfg (files d') refs maxLSN cs → linked c' i bound (with_directory st2 d') mp) as Hlk.
  { intros d' Hv'. pose proof (last_position l [] Hl) as [Elast _].
    exists s', ∅, mp, [], l. constructor; unfold st2; cbn [with_directory directory log checkpointLSN]; try done.
    - rewrite I2, (sb_config _ _ _ Hsame). destruct (ci_shards c M Hinv i sh Hs) as [? _]. done.
    - by rewrite <-Hview.
    - rewrite I3. apply map_eq. intros k. rewrite merged_lookup, lookup_empty. by rewrite decide_False by set_solver.
    - rewrite (sb_config _ _ _ Hsame), Hc, (same_but_len _ _ _ Hsame). by apply Hdur.
    - lia.
    - rewrite I3, size_empty. lia. }
  assert (∀ d', view_ok cfg (files d') refs maxLSN cs → settled i ss bound b c M (focus i ss c' (with_directory st2 d'))) as HQ.
  { intros d' Hv'. exists c', (with_directory st2 d'). split_and!; try done. by apply Hlk. }
  assert (∀ d', view_ok cfg (files d') refs maxLSN cs → survives i ss bound b c M (focus i ss c' (with_directory st2 d'))) as HE2.
  { intros d' Hv'. exists c', (with_directory st2 d'), [], l. split_and!; try done; [apply Hl|]. exists mp, maxLSN. by apply Hdur. }
  apply post_bind, post_ask. destruct (Collection.ShardHasPinnedReaders _ _).
  - apply post_ret. apply (HQ d). by rewrite Hd.
  - apply post_directory; [done|]. destruct (CleanupOrphans _ _) as [d' r] eqn:Ecl.
    assert (view_ok cfg (files d) refs maxLSN cs) as Hvd by (by rewrite Hd).
    pose proof (cleanup_view _ d' r refs maxLSN cs _ Hvd Ecl) as Hv'.
    destruct r; [by apply HQ|by apply HE2].
Qed.

(** ** The theorem *)

(** What [Reset] leaves of the log. *)
Lemma reset_cases fault l rs next :
  LogInv l rs → 0 < next < two64 →
  match Reset fault l next with
  | (l', Ok _) => LogInv l' [] ∧ nextLSN l' = next ∧ mode l' = mode l
  | (l', Err _) => content (file l') = encode_log rs ∨ content (file l') = encode_log []
  end.
Proof.
  intros Hl Hn. unfold Reset. rewrite (proj2 (Z.eqb_neq _ _)) by lia. destruct fault as [[]|]; cbn.
  - left. apply Hl.
  - by right.
  - by right.
  - split; [|done]. by split; cbn; auto.
Qed.

(** The mutations since the last checkpoint do not cancel out. *)
Definition net_change (c : collection) (i : nat) (st : store) : Prop :=
  Collection.ShardCheckpointDelta c (Z.of_nat i) = Ok ([], []) → LastLSN <$> log st = Some (checkpointLSN st).

Lemma sorted_nil m : sorted_records m = [] → m = ∅.
Proof.
  intros H. pose proof (len_sorted_zero m) as E. rewrite H in E. change (len [] =? 0) with true in E. symmetry in E. by apply bool_decide_eq_true in E.
Qed.

Lemma keys_nil (tomb : gset string) : sort_slice str_ltb (elements tomb) = [] → tomb = ∅.
Proof.
  intros H. pose proof (len_keys_zero tomb) as E. rewrite H in E. change (len [] =? 0) with true in E. symmetry in E. by apply bool_decide_eq_true in E.
Qed.

(** Either nothing is to be done, or the checkpoint makes progress. *)
Lemma checkpoint_due (sh : Shard.t I MI L) ma base (old : option Manifest) lsn maxLSN :
  shard_inv sh ma base → lsn ≤ maxLSN → Z.of_nat (size (Shard.tombstones sh)) ≤ maxLSN - lsn → (maxLSN = lsn → ma = ∅) →
  (ma = ∅ → Shard.tombstones sh = ∅ → maxLSN = lsn) →
  (∀ m, old = Some m → Format m = 3 ∧ man_MaxLSN m = lsn) →
  let delta := (Segment.Records (Shard.active sh), sort_slice str_ltb (elements (Shard.tombstones sh))) in
  (match old with Some m => (Format m =? 3) && (maxLSN =? man_MaxLSN m) && (len delta.1 =? 0) && (len delta.2 =? 0) | None => false end = false) →
  progress old ma (Shard.tombstones sh) lsn maxLSN.
Proof.
  intros Hi Hle Htomb Hq Hn Hold. cbv zeta. rewrite (holds_Records _ _ _ (sh_active _ _ _ Hi)). change (sort_slice _ (map_to_list ma).*2) with (sorted_records ma).
  cbn [fst snd]. rewrite len_sorted_zero, len_keys_zero. destruct old as [m|]; [|by left]. intros E. right.
  destruct (Hold m eq_refl) as [E1 E2]. rewrite E1, E2 in E.
  destruct (decide (ma = ∅)) as [Ea|Ea], (decide (Shard.tombstones sh = ∅)) as [Et|Et].
  - rewrite (Hn Ea Et), !Z.eqb_refl, !bool_decide_eq_true_2 in E by done. done.
  - split; [|by right]. destruct (decide (maxLSN = lsn)) as [->|]; [|lia]. exfalso. apply Et.
    apply leibniz_equiv, size_empty_inv. lia.
  - split; [|by left]. destruct (decide (maxLSN = lsn)); [|lia]. naive_solver.
  - split; [|by left]. destruct (decide (maxLSN = lsn)); [|lia]. naive_solver.
Qed.

Lemma old_manifest F base lsn m :
  disk_view cfg F base lsn → quiet F LoadManifest = Ok m → Format m = 3 ∧ man_MaxLSN m = lsn.
Proof.
  intros [(Hn&_)|(refs&cs&Hv&_)] Hm; [by rewrite (no_manifest F Hn) in Hm|].
  rewrite (vo_load _ _ _ _ _ Hv) in Hm. by injection Hm as <-.
Qed.

Lemma checkpoint_ok faults i ss (c : collection) M b bound st :
  (i < length ss)%nat → Collection.config c = cfg → coll_inv c M → budget c M b → b + 2 < two64 → b ≤ bound →
  linked c i bound st (part (len (Collection.shards c)) i M) → net_change c i st →
  post (Engine.checkpointShardLocked true faults (Z.of_nat i)) (focus i ss c st)
    (λ _, settled i ss bound b c M) (survives i ss bound b c M).
Proof.
  intros Hi Hc Hinv Hb Hlt Hbound Hlk Hnet. pose proof Hlk as (sh&ma&base&rs&l&[Hs Hscfg Hsi Hmp Hlog Hl Hmode Hdur Hpos Htomb Hq]).
  set (mp := part (len (Collection.shards c)) i M) in *. rewrite Hc in Hdur.
  destruct (last_position l rs Hl) as [Elast Hrange].
  assert (∀ d, files d = files (directory st) → survives i ss bound b c M (focus i ss c (with_directory st d))) as HE.
  { intros d Hd. apply linked_survives; try done. by apply linked_directory. }
  unfold Engine.checkpointShardLocked. apply post_bind, post_get; [done|]. rewrite Hlog.
  destruct (sync_failed faults); [apply post_fail, linked_survives; done|]. cbv zeta.
  rewrite (proj2 (Z.ltb_ge _ _)) by done. apply post_bind, post_ask. apply post_bind, post_lift. cbn [focus Engine.coll].
  unfold net_change in Hnet. unfold Collection.ShardCheckpointDelta in *. rewrite Nat2Z.id, Hs in *. unfold Shard.CheckpointDelta in *.
  assert (Segment.Records (Shard.active sh) = sorted_records ma) as Edelta by apply (holds_Records _ _ _ (sh_active _ _ _ Hsi)).
  apply post_bind. apply (post_load _ _ _ _ base (checkpointLSN st)); [done|apply Hdur|done|].
  intros d1 old Hd1 Hold.
  destruct (match old with Some m => _ | None => false end) eqn:Edue.
  { apply post_ret. exists c, (with_directory st d1). split_and!; try done; [by eapply same_but_refl|by apply linked_directory]. }
  apply checkpoint_due with (ma := ma) (base := base) (lsn := checkpointLSN st) in Edue as Hprog; try done.
  2: { intros Ea Et. rewrite Hlog in Hnet. specialize (Hnet ltac:(rewrite Edelta, Ea, Et; done)). by injection Hnet. }
  2: { intros m ->. apply (old_manifest (files (directory st)) base); [apply Hdur|exact Hold]. }
  apply post_bind, post_ask. cbn [focus Engine.coll]. unfold Collection.ShardRecords. rewrite Nat2Z.id, Hs.
  apply post_bind, post_lift. apply post_bind, post_ask. cbn [focus Engine.coll].
  rewrite (shard_Records_ok sh ma base Hsi), <-Hmp. change (sort_slice _ (map_to_list mp).*2) with (sorted_records mp). rewrite Edelta, Hc.
  assert (Z.of_nat (size mp) < two64) as Hsz.
  { pose proof (bu_size c M b Hb). pose proof (map_size_filter (λ kr, Z.to_nat (Collection.route_of (len (Collection.shards c)) kr.1) = i) M) as Hle.
    unfold mp, part. lia. }
  assert (change_ok ma base (Shard.tombstones sh) (LastLSN l - checkpointLSN st)) as Hchange.
  { eapply linked_change; [done|by rewrite <-Hmp|by rewrite <-Hmp|done]. }
  apply post_bind, post_directory; [done|]. cbn [with_directory directory].
  destruct (Engine.write_checkpoint cfg (LastLSN l) old (sorted_records mp) (sorted_records ma) _ d1) as [d2 r] eqn:Ew.
  rewrite Hmp in Ew. apply (write_checkpoint_ok cfg d1 d2 old base (checkpointLSN st)) in Ew; [|done|..]; try done.
  2: { rewrite Hd1. apply Hdur. }
  2: { by rewrite Hd1. }
  assert (LastLSN l + 1 < two64) as Hmax by (pose proof (li_next _ _ Hl); lia).
  assert (rs = [] ∨ LastLSN l = last_lsn 0 rs) as Hlastrs.
  { destruct (decide (rs = [])) as [?|Hne]; [by left|right]. by destruct (log_bound l rs Hl Hne). }
  assert (Forall (λ r, LSN r ≤ LastLSN l) rs) as Hle.
  { destruct (decide (rs = [])) as [->|Hne]; [constructor|]. by destruct (log_bound l rs Hl Hne). }
  assert (Z.of_nat (size mp) ≤ bound) as Hsize by (pose proof (part_size (len (Collection.shards c)) i M); pose proof (bu_size _ _ _ Hb); unfold mp; lia).
  assert (∀ rs' G refs cs, rs' = rs ∨ rs' = [] → view_ok cfg G refs (LastLSN l) cs → view_of cs = mp →
    recoverable cfg (len (Collection.shards c)) i bound G rs' mp) as Hrec.
  { intros rs' G refs cs Hrs' Hv Hm. exists mp, (LastLSN l). by eapply written_recovers. }
  destruct r as [[[[m fd] gd] pq]|e].
  2: { exists c, (with_directory (with_directory st d1) d2), rs, l. split_and!; try done; [by eapply same_but_refl|apply Hl|].
       cbn [with_directory directory]. destruct Ew as [Hv|[(Hno&Em&E0)|(refs&cs&Hv&Hm)]].
       - exists base, (checkpointLSN st). by eapply durable_agree.
       - exists mp, (LastLSN l). assert (disk_view cfg (files d2) mp (LastLSN l)) as Hv by (left; by rewrite Hmp).
         pose proof (durable_map _ _ _ _ _ _ _ _ _ Hdur). destruct Hdur. constructor; try done; [by destruct Hlastrs as [?|E]; [left|right; lia]|lia|].
         symmetry. by apply replayed_skip.
       - apply (Hrec rs _ refs cs); [by left|done|by rewrite Hmp]. }
  destruct Ew as (refs&cs&Hv&Hm&->&Hmar&->&->). rewrite <-Hmp in Hm. cbv beta iota.
  apply post_bind, (post_log _ _ _ _ l); [done|done|]. rewrite u64_small by lia.
  pose proof (reset_cases (reset_fault faults) l rs (LastLSN l + 1) Hl ltac:(lia)) as Hreset.
  destruct (Reset (reset_fault faults) l (LastLSN l + 1)) as [l1 [u|e]].
  2: { assert (∃ rs', (rs' = rs ∨ rs' = []) ∧ content (file l1) = encode_log rs') as (rs'&Hor&Hcont) by (destruct Hreset; eauto).
       exists c, (with_log (with_directory (with_directory st d1) d2) l1), rs', l1. split_and!; try done; [by eapply same_but_refl|].
       by apply (Hrec _ _ refs cs). }
  destruct Hreset as (Hl1&Hn1&Hmode1).
  assert (sorted_records mp = sorted_records (view_of cs)) as -> by (by rewrite Hm).
  apply (finish_ok i ss c M b bound (with_log (with_directory (with_directory st d1) d2) l1) l1 sh refs (LastLSN l) cs fd); try done.
  - by eapply durable_map.
  - unfold sync_mode. by rewrite Hmode1.
Qed.

End Checkpoint.

(** ** Replaying a log

    [openCollectionLogs] applies the entries of a shard's log to the
    collection the segments were loaded into.  Every entry the engine writes
    is accepted and has the effect of its mutation on the shard it is routed
    to, and on no other. *)

Section Replay.
Context {I MI L : Type} `{!VectorIndex I, !VectorIndexSpec I, !MetadataIndex MI, !MetadataSpec MI,
  !LexicalIndex L, !IndexBuilders I, !IndexBuildersSpec I, !SealedBuilders I, !SealedSpec I, !FilterFiles MI, !FilterFilesSpec MI}.
Context `{!Json walMutation}.

Local Abbreviation collection := (Collection.t I MI L).

(** *** One shard moves *)

(** From [c], which holds [M], to [c'], which holds [M'], by changes of shard
    [i] over the same sealed records. *)
Record advanced (c c' : collection) (M M' : gmap string CoreRecord) (b' : Z) (i : nat) (s' : Shard.t I MI L)
    (ma' base : gmap string CoreRecord) : Prop := mkAdvanced {
  ad_inv : coll_inv c' M';
  ad_budget : budget c' M' b';
  ad_config : Collection.config c' = Collection.config c;
  ad_shards : ∃ s, Collection.shards c' = <[i := s]> (Collection.shards c);
  ad_others j : j ≠ i → part (len (Collection.shards c)) j M' = part (len (Collection.shards c)) j M;
  ad_at : at_shard c' M' i s' ma' base;
}.

Lemma advanced_len c c' M M' b' i s' ma' base :
  advanced c c' M M' b' i s' ma' base → len (Collection.shards c') = len (Collection.shards c).
Proof. intros H. destruct (ad_shards _ _ _ _ _ _ _ _ _ H) as [s ->]. unfold len. by rewrite length_insert. Qed.

Lemma advanced_refl c M b i s ma base : coll_inv c M → budget c M b → at_shard c M i s ma base → advanced c c M M b i s ma base.
Proof. intros Hi Hb Ha. constructor; try done. exists s. rewrite list_insert_id; [done|]. apply Ha. Qed.

Lemma advanced_trans c c1 c2 M M1 M2 b1 b2 i s1 s2 ma1 ma2 base :
  advanced c c1 M M1 b1 i s1 ma1 base → advanced c1 c2 M1 M2 b2 i s2 ma2 base → advanced c c2 M M2 b2 i s2 ma2 base.
Proof.
  intros H1 H2. pose proof (advanced_len _ _ _ _ _ _ _ _ _ H1) as El. destruct H1 as [_ _ E1 [x1 S1] O1 _], H2 as [I2 B2 E2 [x2 S2] O2 A2].
  constructor; try done; [congruence| |].
  - exists x2. rewrite S2, S1. by rewrite list_insert_insert_eq.
  - intros j Hj. rewrite <-(O1 j Hj). rewrite <-El. by apply O2.
Qed.

Lemma budget_mono (c : collection) M a b : a ≤ b → budget c M a → budget c M b.
Proof. intros Hab [B1 B2 B3]. constructor; [lia|lia|]. intros i s Hs. specialize (B3 i s Hs). lia. Qed.

Lemma routed_part n i k M : routed n i k → part n i M !! k = M !! k.
Proof. intros Hr. rewrite part_lookup. by rewrite decide_True. Qed.

(** A record of the shard is written. *)
Lemma apply_upsert_ok (c : collection) M b i s ma base r :
  coll_inv c M → budget c M b → b + 3 < two64 → at_shard c M i s ma base → prepared (Collection.config c) r →
  Version r ≤ Collection.version c → routed (len (Collection.shards c)) i (record_key r) →
  ∃ c' s', Collection.ApplyUpsert c r = (c', None) ∧
    advanced c c' M (<[record_key r := r]> M) (b + 1) i s' (<[record_key r := r]> ma) base ∧
    Shard.tombstones s' ⊆ Shard.tombstones s.
Proof.
  intros Hi Hb Hlt Hat Hp Hv Hr.
  destruct (shard_upsert_at c M b r i s ma base Hi) as (s'&Hu&Hi'&Hat'&Ht&Hn); [apply Hb|done|done|done|by symmetry|done|].
  eexists _, s'. split; [exact Hu|]. split; [|done]. pose proof (bu_version c M b Hb). constructor; try done.
  - constructor; cbn [Collection.set_shard Collection.version Collection.shards]; [lia| |].
    + destruct (M !! record_key r) eqn:E; [rewrite map_size_insert_Some by eauto|rewrite map_size_insert_None by done];
        pose proof (bu_size c M b Hb); lia.
    + intros j s0 Hs0. specialize (Hn j s0 Hs0). lia.
  - by exists s'.
  - intros j Hj. rewrite part_insert, decide_False; [done|]. intros E. apply Hj. unfold routed in Hr. congruence.
Qed.

(** A record of the shard is restored. *)
Lemma restore_ok (c : collection) M b i s ma base bound r :
  coll_inv c M → budget c M b → b + 3 < two64 → at_shard c M i s ma base →
  item_ok (Collection.config c) (len (Collection.shards c)) i bound r → Version r ≤ b →
  ∃ c' s', Collection.Restore c r = (c', None) ∧
    advanced c c' M (<[record_key r := r]> M) (b + 1) i s' (<[record_key r := r]> ma) base ∧
    Shard.tombstones s' ⊆ Shard.tombstones s.
Proof.
  intros Hi Hb Hlt Hat [Hst Hr Hv] Hvb. pose proof (sr_valid _ _ Hst) as Hvalid. unfold valid_record in Hvalid.
  unfold Collection.Restore. change (Collection.validate_record c r) with
    (Collection.validate_record (I := unit) (MI := unit) (L := unit) (Collection.mk (Collection.config c) [] 0) r). rewrite Hvalid.
  set (v := Collection.raise_version (Collection.version c) (Version r)).
  pose proof (bu_version c M b Hb) as Hver.
  assert (Collection.version c ≤ v ∧ Version r ≤ v ∧ v ≤ b) as (V1&V2&V3).
  { unfold v, Collection.raise_version. destruct (Z.leb_spec (Version r) (Collection.version c)); lia. }
  set (c1 := Collection.mk (Collection.config c) (Collection.shards c) v).
  assert (coll_inv c1 M) as Hi1.
  { destruct Hi as [Q1 Q2 Q3 Q4 Q5]. constructor; try done. intros k r' Hk. cbn [c1 Collection.version]. specialize (Q4 k r' Hk). lia. }
  destruct (apply_upsert_ok c1 M b i s ma base r Hi1) as (c'&s'&Hu&Ha&Ht); [|done|by destruct Hat|apply Hst|done|done|].
  { destruct Hb as [B1 B2 B3]. constructor; [cbn [c1 Collection.version]; lia|done|done]. }
  exists c', s'. split; [exact Hu|]. split; [|done]. by destruct Ha.
Qed.

(** A key of the shard is deleted; a missing one is left. *)
Lemma remove_key_ok (c : collection) M b i s ma base ns id :
  coll_inv c M → budget c M b → b + 3 < two64 → at_shard c M i s ma base → routed (len (Collection.shards c)) i (key ns id) →
  ∃ c' s' ma' e, Collection.ApplyDelete c ns id = (c', e) ∧ Engine.found e = None ∧ (is_Some (M !! key ns id) → e = None) ∧
    advanced c c' M (delete (key ns id) M) (b + 1) i s' ma' base ∧
    (Shard.tombstones s' ⊆ {[key ns id]} ∪ Shard.tombstones s).
Proof.
  intros Hi Hb Hlt Hat Hr.
  pose proof (shard_delete_at c M b ns id i s ma base Hi Hb Hlt (eq_sym Hr) Hat) as Hd. unfold Collection.ApplyDelete.
  destruct (M !! key ns id) as [r|] eqn:E.
  - destruct Hd as (s'&Hd&Hi'&Hat'&Ht&Hn). eexists _, s', _, None. split; [exact Hd|]. split; [done|]. split; [done|]. split; [|done].
    pose proof (bu_version c M b Hb). constructor; try done.
    + constructor; cbn [Collection.set_shard Collection.version Collection.shards]; [lia| |].
      * rewrite map_size_delete_Some by eauto. pose proof (bu_size c M b Hb). lia.
      * intros j s0 Hs0. specialize (Hn j s0 Hs0). lia.
    + by exists s'.
    + intros j Hj. rewrite part_delete, decide_False; [done|]. intros E'. apply Hj. unfold routed in Hr. congruence.
  - exists c, s, ma, (Some (Sentinel ErrNotFound)). split; [exact Hd|]. split; [done|]. split; [by intros []|]. split; [|set_solver].
    rewrite (delete_id M) by done. apply (advanced_refl _ _ (b + 1)); [done|by eapply budget_mono; [|exact Hb]; lia|done].
Qed.

(** *** Entries *)

Lemma len_shards_route (c : collection) M i k : coll_inv c M → routed (len (Collection.shards c)) i k → Collection.route_of (len (Collection.shards c)) k = Z.of_nat i.
Proof. intros Hi Hr. unfold routed in Hr. pose proof (route_bound (len (Collection.shards c)) k (ci_count c M Hi)). lia. Qed.

Lemma put_batch_ok (items : list CoreRecord) (c : collection) M b i s ma base bound :
  coll_inv c M → budget c M b → b + len items + 3 < two64 → at_shard c M i s ma base →
  Forall (item_ok (Collection.config c) (len (Collection.shards c)) i bound) items → bound ≤ b →
  ∃ c' s' ma', Engine.replay_batch c (Z.of_nat i) items = Ok c' ∧
    advanced c c' M (Shard.put_records M items) (b + len items) i s' ma' base ∧ Shard.tombstones s' ⊆ Shard.tombstones s.
Proof.
  revert c M b s ma. induction items as [|r items IH]; intros c M b s ma Hi Hb Hlt Hat Hok Hbound; cbn [Engine.replay_batch].
  { exists c, s, ma. split; [done|]. split; [|done]. apply advanced_refl; [done|by eapply budget_mono; [|exact Hb]; unfold len; simpl; lia|done]. }
  apply Forall_cons in Hok as [Hr Hok]. rewrite len_cons in *. pose proof (len_nonneg items).
  unfold Collection.RouteShard. fold (record_key r).
  rewrite (len_shards_route c M i) by (done || by destruct Hr). rewrite Z.eqb_refl. cbn [negb].
  destruct (restore_ok c M b i s ma base bound r Hi Hb ltac:(lia) Hat Hr) as (c1&s1&->&Ha&Ht); [destruct Hr; lia|].
  pose proof (advanced_len _ _ _ _ _ _ _ _ _ Ha) as El. pose proof (ad_config _ _ _ _ _ _ _ _ _ Ha) as Ec.
  destruct (IH c1 (<[record_key r := r]> M) (b + 1) s1 (<[record_key r := r]> ma)) as (c2&s2&ma2&Hr2&Ha2&Ht2); try apply Ha; [lia|by rewrite Ec, El|lia|].
  exists c2, s2, ma2. split; [exact Hr2|]. split; [|set_solver].
  eapply advanced_trans; [exact Ha|]. replace (b + (1 + len items)) with (b + 1 + len items) by lia. exact Ha2.
Qed.

Lemma replay_ok (c : collection) digests M b i s ma base bound r :
  coll_inv c M → budget c M b → b + work r + 3 < two64 → at_shard c M i s ma base →
  entry_ok (Collection.config c) (len (Collection.shards c)) i bound r → bound ≤ b →
  ∃ c' digests' s' ma', Engine.replay (Z.of_nat i) (c, digests) r = Ok (c', digests') ∧
    advanced c c' M (effect r M) (b + work r) i s' ma' base ∧
    (size (Shard.tombstones s') ≤ S (size (Shard.tombstones s)))%nat.
Proof.
  intros Hi Hb Hlt Hat (mu&Hu&Ho) Hbound. unfold Engine.replay, effect, apply_mutation, work in *. rewrite Hu in *. cbn [res_bind].
  destruct Ho as [mu r' Hr Hok|mu Hid Hr|mu Hn Hok].
  - change (OperationUpsert =? OperationUpsert) with true. change (OperationUpsert =? OperationBatchUpsert) with false in *. cbv iota in *.
    rewrite Hr. unfold Collection.RouteShard. fold (record_key r').
    rewrite (len_shards_route c M i) by (done || by destruct Hok). rewrite Z.eqb_refl. cbn [negb].
    destruct (restore_ok c M b i s ma base bound r' Hi Hb ltac:(lia) Hat Hok) as (c1&s1&->&Ha&Ht); [destruct Hok; lia|]. cbn [res_bind].
    eexists _, _, s1, _. split; [done|]. split; [exact Ha|]. apply subseteq_size in Ht. lia.
  - change (OperationDelete =? OperationUpsert) with false. change (OperationDelete =? OperationDelete) with true.
    change (OperationDelete =? OperationBatchUpsert) with false in *. cbv iota in *.
    rewrite (proj2 (String.eqb_neq _ _) Hid). unfold Collection.RouteShard.
    rewrite (len_shards_route c M i) by done. rewrite Z.eqb_refl. cbn [negb orb].
    destruct (remove_key_ok c M b i s ma base _ _ Hi Hb ltac:(lia) Hat Hr) as (c1&s1&ma1&e&->&->&_&Ha&Ht). cbn [res_bind].
    eexists _, _, s1, ma1. split; [done|]. split; [exact Ha|]. apply subseteq_size in Ht.
    etrans; [exact Ht|]. rewrite size_union_alt, size_singleton. cbn. apply le_n_S, subseteq_size. set_solver.
  - change (OperationBatchUpsert =? OperationUpsert) with false. change (OperationBatchUpsert =? OperationDelete) with false.
    change (OperationBatchUpsert =? OperationBatchUpsert) with true in *. cbv iota in *.
    rewrite (proj2 (Z.eqb_neq _ _)), (proj2 (Z.ltb_ge _ _)) by lia. cbn [orb].
    destruct (put_batch_ok (mut_Records mu) c M b i s ma base bound Hi Hb Hlt Hat Hok Hbound) as (c1&s1&ma1&->&Ha&Ht). cbn [res_bind].
    eexists _, _, s1, ma1. split; [done|]. split; [exact Ha|]. apply subseteq_size in Ht. lia.
Qed.

(** *** Logs *)

Lemma replay_records_ok lsn (rs : list WalRecord) (c : collection) digests M b i s ma base bound :
  coll_inv c M → budget c M b → b + total_work rs + 3 < two64 → at_shard c M i s ma base →
  Forall (entry_ok (Collection.config c) (len (Collection.shards c)) i bound) rs → bound ≤ b →
  ∃ c' digests' s' ma', replay_records (Engine.replay (Z.of_nat i)) lsn (c, digests) rs = Ok (c', digests') ∧
    advanced c c' M (replayed lsn M rs) (b + total_work rs) i s' ma' base ∧
    Z.of_nat (size (Shard.tombstones s')) ≤ Z.of_nat (size (Shard.tombstones s)) + replays lsn rs ∧
    (replays lsn rs = 0 → ma' = ma).
Proof.
  revert c digests M b s ma. induction rs as [|r rs IH]; intros c digests M b s ma Hi Hb Hlt Hat Hok Hbound; cbn [replay_records].
  { exists c, digests, s, ma. split; [done|]. split; [|split; [unfold replays, len; simpl; lia|done]].
    apply advanced_refl; [done|by eapply budget_mono; [|exact Hb]; cbn; lia|done]. }
  apply Forall_cons in Hok as [Hr Hok]. change (total_work (r :: rs)) with (work r + total_work rs) in *.
  pose proof (total_work_nonneg rs). pose proof (work_nonneg r). unfold replay_one.
  assert (replays lsn (r :: rs) = (if lsn <? LSN r then 1 else 0) + replays lsn rs) as Er.
  { unfold replays. cbn [List.filter]. destruct (lsn <? LSN r); [by rewrite len_cons|lia]. }
  cbn [replayed foldl]. rewrite Er. pose proof (len_nonneg (List.filter (λ r, lsn <? LSN r) rs)) as Hnn. fold (replays lsn rs) in Hnn.
  destruct (lsn <? LSN r).
  - destruct (replay_ok c digests M b i s ma base bound r Hi Hb ltac:(lia) Hat Hr Hbound) as (c1&dg1&s1&ma1&->&Ha&Ht). cbn [res_bind].
    pose proof (advanced_len _ _ _ _ _ _ _ _ _ Ha) as El. pose proof (ad_config _ _ _ _ _ _ _ _ _ Ha) as Ec.
    destruct (IH c1 dg1 (effect r M) (b + work r) s1 ma1) as (c2&dg2&s2&ma2&Hr2&Ha2&Ht2&_); try apply Ha; [lia|by rewrite Ec, El|lia|].
    exists c2, dg2, s2, ma2. split; [exact Hr2|]. split; [|split; [lia|lia]].
    eapply advanced_trans; [exact Ha|]. by rewrite Z.add_assoc.
  - cbn [res_bind]. destruct (IH c digests M b s ma) as (c2&dg2&s2&ma2&Hr2&Ha2&Ht2&Hz2); try done; [lia|].
    exists c2, dg2, s2, ma2. split; [exact Hr2|]. split; [|split; [lia|intros E; apply Hz2; lia]].
    destruct Ha2. constructor; try done. eapply budget_mono; [|done]. lia.
Qed.

(** What an entry does to the shard's part of the map. *)
Lemma part_effect n i bound cfg r M : entry_ok cfg n i bound r → part n i (effect r M) = effect r (part n i M).
Proof.
  intros (mu&Hu&Ho). unfold effect, apply_mutation. rewrite Hu. destruct Ho as [mu r' Hr Hok|mu _ Hr|mu _ Hok];
    cbn [Z.eqb Pos.eqb OperationUpsert OperationDelete OperationBatchUpsert].
  - rewrite Hr, part_insert, decide_True; [done|]. apply Hok.
  - by rewrite part_delete, decide_True.
  - clear Hu. revert M. induction Hok as [|x l Hx Hl IH]; intros M; [done|].
    change (Shard.put_records M (x :: l)) with (Shard.put_records (<[record_key x := x]> M) l).
    change (Shard.put_records (part n i M) (x :: l)) with (Shard.put_records (<[record_key x := x]> (part n i M)) l).
    rewrite IH, part_insert, decide_True; [done|]. apply Hx.
Qed.

Lemma part_replayed n i bound cfg lsn rs M :
  Forall (entry_ok cfg n i bound) rs → part n i (replayed lsn M rs) = replayed lsn (part n i M) rs.
Proof.
  intros H. revert M. induction H as [|r rs Hr Hrs IH]; intros M; [done|]. cbn [replayed foldl]. unfold replayed in IH. rewrite IH.
  destruct (_ <? _); [|done]. by rewrite (part_effect n i bound cfg).
Qed.

End Replay.
