(* ===== verification/EngineMutations.v ===== *)
(** * Durability of the engine's mutations

    A collection that is [live] has every shard linked to its files.  An
    operation that succeeds leaves it live with its effect; one that fails
    leaves the collection with or without the effect, and every shard's files
    standing for what is in memory.  The first part is about opening. *)
From Stdlib Require Import ZArith Lia Ascii String.
From stdpp Require Import base tactics list gmap strings.
From S2P Require Import Prelude Wal Core CoreProofs Sha256 Distance Float Persistence TopK Index Segment SegmentProofs Shard ShardProofs Collection CollectionProofs Compaction Column Json SegmentFiles Multisegment SegmentIO ViewProofs MappedViews StorageTheorems MappedIndex Sealed SealedProofs Checkpoint CheckpointProofs Engine EngineState EngineCheckpoint.
Local Set Warnings "-clear-no-such-hyp".
Local Open Scope string_scope.
Local Open Scope Z_scope.
Local Open Scope list_scope.

(** ** Recovery

    Opening a collection on the files of its shards, whole or torn by a crash,
    gives back every shard's records: the view its manifest names, with the
    entries of its log that the view does not cover applied. *)

(** *** Disks that do not fail *)

Lemma quiet_run {A} names F (m : IO A) : reader names m → m (mkDisk F []) = (mkDisk F [], quiet F m).
Proof. intros Hr. unfold quiet. rewrite <-(rd_quiet _ _ Hr F) at 2. by destruct (m (mkDisk F [])). Qed.

Lemma quiet_remove keep names F : ∃ G, remove_orphans keep names (mkDisk F []) = (mkDisk G [], Ok tt).
Proof.
  revert F. induction names as [|n names IH]; intros F; cbn [remove_orphans]; [by exists F|].
  destruct (_ || _); [apply IH|]. unfold io_bind, removeFile, next_fault. cbn [faults files]. apply IH.
Qed.

Lemma quiet_cleanup m F : ∃ G, CleanupOrphans m (mkDisk F []) = (mkDisk G [], Ok tt).
Proof. unfold CleanupOrphans, io_bind at 1, readDir, next_fault. cbn [faults files]. apply quiet_remove. Qed.

Section Loops.
Context {I MI L : Type}.

(** The rule of the loops over shards. *)
Lemma post_for (f : Z → Engine.M (I := I) (MI := MI) (L := L) unit) (P : nat → Engine.t I MI L → Prop) (E : Engine.t I MI L → Prop) n s :
  (∀ k s, (k < n)%nat → P k s → post (f (Z.of_nat k)) s (λ _, P (S k)) E) → P 0%nat s →
  post (Engine.for_shards f (seq 0 n)) s (λ _, P n) E.
Proof.
  intros Hstep. assert (∀ len k s, (k + len = n)%nat → P k s → post (Engine.for_shards f (seq k len)) s (λ _, P n) E) as H.
  { induction len as [|len IH]; intros k s0 Hk HP; cbn [seq Engine.for_shards].
    - apply post_ret. assert (k + 0 = k)%nat as E' by lia. rewrite E' in Hk. by rewrite <-Hk.
    - apply post_bind. eapply post_mono; [apply Hstep; [lia|exact HP]| |done]. intros [] s' HP'. apply IH; [lia|done]. }
  by apply H.
Qed.
End Loops.

Section Recovery.
Context {I MI L : Type} `{!VectorIndex I, !VectorIndexSpec I, !MetadataIndex MI, !MetadataSpec MI,
  !LexicalIndex L, !IndexBuilders I, !IndexBuildersSpec I, !SealedBuilders I, !SealedSpec I, !FilterFiles MI, !FilterFilesSpec MI}.
Context `{!Json Manifest, !Json (list storedRecord), !Json (list string), !Json persistedIndex, !Json walMutation, !Json (list CoreRecord), !Json idempotencyLedger}.
Context `{!JsonSpec Manifest json_manifest, !JsonSpec (list storedRecord) (fmap json_stored), !JsonSpec (list string) (fmap json_string)}.
Context (cfg : CollectionConfig) (Hcfg : plain_config cfg).

Local Abbreviation collection := (Collection.t I MI L).
Local Abbreviation state := (Engine.t I MI L).

Definition no_failure : state → Prop := λ _, False.

(** *** Loading one shard *)

Lemma post_quiet {A} i ss (c : collection) st F names (m : IO A) a (Q : A → state → Prop) E :
  (i < length ss)%nat → directory st = mkDisk F [] → reader names m → quiet F m = Ok a →
  Q a (focus i ss c st) → post (Engine.on_directory (Z.of_nat i) m) (focus i ss c st) Q E.
Proof.
  intros Hi Hd Hr Hq HQ. apply post_directory; [done|]. rewrite Hd, (quiet_run names F m Hr), Hq.
  unfold with_directory. rewrite <-Hd. by destruct st.
Qed.

Lemma routed_all (c : collection) M i m (items : list CoreRecord) :
  coll_inv c M → (∀ k r, m !! k = Some r → routed (len (Collection.shards c)) i (record_key r)) → keyed m → items = strip <$> sorted_records m →
  forallb (λ r, Collection.RouteShard c (Namespace r) (ID r) =? Z.of_nat i) items = true.
Proof.
  intros Hi Hr Hk ->. apply forallb_forall. intros r Hin%list_elem_of_In. apply list_elem_of_fmap in Hin as (x&->&Hx).
  apply sorted_elem in Hx; [|done]. apply Z.eqb_eq. unfold Collection.RouteShard. apply (len_shards_route c M); [done|]. by apply (Hr (record_key x) x).
Qed.

(** The union of the maps of two shards. *)
Lemma part_union n i j bound base M :
  shard_map cfg n i bound base → part n i M = ∅ → part n j (base ∪ M) = if decide (j = i) then base else part n j M.
Proof.
  intros [Hk Hi] Hempty. apply map_eq. intros k.
  assert (∀ r, base !! k = Some r → routed n i k) as Hr.
  { intros r Hr. rewrite <-(Hk k r Hr). apply (im_routed _ _ _ _ _ (Hi k r Hr)). }
  rewrite part_lookup. unfold routed in Hr. destruct (decide (j = i)) as [->|Hne].
  - destruct (decide _) as [Hd|Hd].
    + destruct (base !! k) eqn:E; [by apply lookup_union_Some_l|]. rewrite lookup_union_r by done.
      apply (f_equal (lookup k)) in Hempty. by rewrite part_lookup, decide_True, lookup_empty in Hempty.
    + destruct (base !! k) eqn:E; [|done]. exfalso. by eapply Hd, Hr.
  - rewrite part_lookup. destruct (decide _) as [Hd|Hd]; [|done].
    rewrite lookup_union_r; [done|]. destruct (base !! k) eqn:E; [|done]. exfalso. apply Hne. rewrite <-Hd. by eapply Hr.
Qed.

Lemma size_union_le (m M : gmap string CoreRecord) : (size (m ∪ M) ≤ size m + size M)%nat.
Proof.
  rewrite <-!(size_dom (D := gset string)), dom_union_L, size_union_alt. apply Nat.add_le_mono_l, subseteq_size. set_solver.
Qed.

(** A shard that has been loaded and whose log is closed. *)
Record loaded (c : collection) (M : gmap string CoreRecord) (i : nat) (st : store) (F : gmap string (list Z))
    (base : gmap string CoreRecord) (lsn : Z) : Prop := mkLoaded {
  ld_shard : ∃ s, at_shard c M i s ∅ base ∧ Shard.tombstones s = ∅;
  ld_directory : ∃ G, directory st = mkDisk G [] ∧ disk_view cfg G base lsn;
  ld_checkpoint : checkpointLSN st = lsn;
  ld_log : log st = None;
}.

Lemma load_shard_ok i ss (c : collection) M b bound s0 st F base lsn (Q : unit → state → Prop) :
  (i < length ss)%nat → Collection.config c = cfg → coll_inv c M → budget c M b → b + 2 < two64 →
  at_shard c M i s0 ∅ ∅ → Shard.tombstones s0 = ∅ →
  directory st = mkDisk F [] → checkpointLSN st = 0 → log st = None → disk_view cfg F base lsn →
  shard_map cfg (len (Collection.shards c)) i bound base → bound ≤ b → Z.of_nat (size M) + Z.of_nat (size base) ≤ b →
  (∀ c' s' st', advanced c c' M (base ∪ M) b i s' ∅ base → Shard.tombstones s' = ∅ → loaded c' (base ∪ M) i st' F base lsn →
     Q tt (focus i ss c' st')) →
  post (Engine.load_shard true true [] (Z.of_nat i)) (focus i ss c st) Q no_failure.
Proof.
  intros Hi Hc Hinv Hb Hlt Hat Ht Hd Hck Hlog Hview Hbase Hbound Hsz HQ.
  assert (part (len (Collection.shards c)) i M = ∅) as Hempty.
  { rewrite (as_map _ _ _ _ _ _ Hat), Ht. apply map_eq. intros k. rewrite merged_lookup, !lookup_empty. by destruct (decide _). }
  unfold Engine.load_shard. cbn [negb]. apply post_bind, post_ask. cbn [focus Engine.coll]. rewrite Hc. apply post_bind.
  assert (Engine.load_manifest (Z.of_nat i) (focus i ss c st) = (focus i ss c st,
    match quiet F LoadManifest with Ok m => Ok (Some m) | Err e => if is_not_exist e then Ok None else Err e end)) as Hload.
  { unfold Engine.load_manifest, Engine.on_directory. rewrite on_store_focus by done.
    rewrite Hd, (quiet_run [manifest_name] F LoadManifest) by (apply reader_manifest; by left). rewrite <-Hd.
    destruct st. cbn. destruct (quiet F LoadManifest); [done|]. by destruct (is_not_exist e). }
  unfold post at 1. rewrite Hload. destruct Hview as [(Hn&->&->)|(refs&cs&Hv&->)].
  - rewrite (no_manifest F Hn). change (is_not_exist not_exist) with true. cbv iota. cbn [Engine.restore_legacy]. apply post_ret.
    assert ((∅ : gmap string CoreRecord) ∪ M = M) as EM by (by rewrite (left_id_L ∅ (∪))).
    apply (HQ c s0 st); rewrite ?EM; [by apply advanced_refl|done|]. constructor; [by exists s0| |done|done].
    exists F. split; [done|]. by left.
  - rewrite (vo_load _ _ _ _ _ Hv). cbv iota. change (Format (view_manifest cfg refs lsn (Z.of_nat (size (view_of cs)))) =? 3) with true. cbv iota.
    apply post_bind, post_bind. destruct (plain_types _ Hcfg) as (Ef&Eh&Ed).
    destruct (view_dimension _ _ _ _ _ Hv) as [Hdim Hne]. destruct (vo_segments _ _ _ _ _ Hv) as [_ Hh _ _].
    destruct (quiet_mapped _ _ _ _ Hh Hdim Hne) as (locations&vectors&Hr&Ho&Hmap).
    unfold Engine.load_view. rewrite Ef. cbn [orb]. cbv iota. apply post_bind.
    eapply (post_quiet _ _ _ _ F); [done|done|apply (reader_resolve refs)|exact Hr|].
    assert (len (strip <$> sorted_records (view_of cs)) = Z.of_nat (size (view_of cs))) as Elen.
    { unfold len at 1. rewrite length_fmap. fold (len (sorted_records (view_of cs))). apply len_sorted. }
    cbv beta iota. cbn [view_manifest RecordCount Segments]. rewrite Elen, Z.eqb_refl. cbn [negb].
    apply post_bind. unfold Engine.load_filter. cbn [view_manifest FilterFile].
    rewrite (proj2 (String.eqb_neq _ _) (name_nonempty _ (plain_view lsn ".filter" eq_refl))). apply post_bind.
    destruct (vo_filter _ _ _ _ _ Hv) as (data&idx&Hrf&Hlb&Hrep).
    eapply (post_quiet _ _ _ _ F); [done|done|apply (reader_filter [view_name lsn ".filter"]); by left|exact Hrf|].
    apply post_bind, post_lift. cbn [view_manifest RecordCount]. rewrite Hlb. apply post_ret. apply post_bind. unfold Engine.all_routed. apply post_ask. cbn [focus Engine.coll].
    destruct Hbase as [Hbk Hbi] eqn:Eb; clear Eb. pose proof (mkShardMap _ _ _ _ _ Hbk Hbi) as Hbase'.
    rewrite (routed_all c M i (view_of cs)); [|done|intros k r Hkr; apply (Hbi k r Hkr)|done|done]. cbn [negb].
    apply post_bind. eapply (post_quiet _ _ _ _ F); [done|done|apply (reader_composite refs locations)|exact Ho|].
    unfold Engine.install_mapped. apply post_bind.
    eapply (post_quiet _ _ _ _ F _ _ None); [done|done|apply (reader_ret [] None)|done|].
    apply post_coll.
    assert (Forall (prepared cfg) (sorted_records (view_of cs))) as Hpf.
    { apply Forall_forall. intros r Hr'. apply sorted_elem in Hr'; [|done]. apply (sr_prepared _ _ (im_storable _ _ _ _ _ (Hbi _ _ Hr'))). }
    destruct (install_mapped_ok c M (view_of cs ∪ M) b i s0 (sorted_records (view_of cs)) (composite_source true vectors) idx (view_of cs)
      Hinv Hb Hlt) as (c'&s'&Hin&Hinv'&Hb'&Hcfg'&Hsh'&_&Hinst); try done.
    + apply Hat.
    + by rewrite Hc.
    + intros k r Hkr. rewrite Hc. apply (sr_prepared _ _ (im_storable _ _ _ _ _ (Hbi _ _ Hkr))).
    + rewrite Hc. apply composite_over; [done|]. eapply Forall_impl; [exact Hpf|]. by intros r (_&_&?).
    + rewrite (part_union _ i _ bound) by done. by rewrite decide_True.
    + intros j Hj. rewrite (part_union _ i _ bound) by done. by rewrite decide_False.
    + intros k r [Hkr|[_ Hkr]]%lookup_union_Some_raw; [by apply Hbk|by apply (ci_keyed c M)].
    + intros k r [Hkr|[_ Hkr]]%lookup_union_Some_raw.
      * pose proof (im_version _ _ _ _ _ (Hbi k r Hkr)). split; [lia|]. apply raised_elem, sorted_elem; [done|]. by rewrite (Hbk k r Hkr).
      * pose proof (ci_versions c M Hinv k r Hkr). pose proof (bu_version c M b Hb).
        pose proof (raised_ge (Collection.version c) (sorted_records (view_of cs))). lia.
    + pose proof (size_union_le (view_of cs) M). lia.
    + rewrite Hin. cbv iota. apply post_ret. apply post_bind. cbn [Engine.restore_routed]. apply post_ret.
      destruct Hinst as [I1 I2 I3 I4]. assert (part (len (Collection.shards c)) i (view_of cs ∪ M) = view_of cs) as Epart.
      { rewrite (part_union _ i _ bound) by done. by rewrite decide_True. }
      assert (at_shard c' (view_of cs ∪ M) i s' ∅ (view_of cs)) as Hat'.
      { constructor; [rewrite Hsh'; apply list_lookup_insert_eq; by eapply lookup_lt_Some, Hat|done|].
        rewrite Hsh'. unfold len. rewrite length_insert. fold (len (Collection.shards c)). rewrite Epart, I3.
        apply map_eq. intros k. rewrite merged_lookup, lookup_empty. by rewrite decide_False by set_solver. }
      apply post_bind, post_directory; [done|]. rewrite Hd.
      destruct (quiet_cleanup (view_manifest cfg refs lsn (Z.of_nat (size (view_of cs)))) F) as [G HG]. rewrite HG.
      unfold Engine.set_checkpoint. apply post_store; [done|]. cbn [man_MaxLSN]. apply (HQ c' s').
      * constructor; try done; [by exists s'|]. intros j Hj. rewrite (part_union _ i _ bound) by done. by rewrite decide_False.
      * done.
      * constructor; try done; [by exists s'|]. exists G. split; [done|]. right. exists refs, cs. split; [|done].
        by apply (cleanup_view cfg Hcfg (mkDisk F []) (mkDisk G []) (Ok tt) refs lsn cs (Z.of_nat (size (view_of cs))) Hv).
Qed.

(** *** Loading every shard *)

(** What shard [i] finds: its files, its log, and what they stand for. *)
Record image : Type := mkImage {
  im_files : gmap string (list Z);
  im_entries : list WalRecord;
  im_base : gmap string CoreRecord;
  im_lsn : Z;
  im_map : gmap string CoreRecord;
}.

Definition image_ok (n : Z) (bound : Z) (i : nat) (g : image) : Prop :=
  durable_shard cfg n i bound (im_files g) (im_entries g) (im_base g) (im_lsn g) (im_map g).

(** A shard that has not been loaded. *)
Record fresh (c : collection) (M : gmap string CoreRecord) (i : nat) (st : store) (F : gmap string (list Z)) : Prop := mkFresh {
  fr_shard : ∃ s, at_shard c M i s ∅ ∅ ∧ Shard.tombstones s = ∅;
  fr_directory : directory st = mkDisk F [];
  fr_checkpoint : checkpointLSN st = 0;
  fr_log : log st = None;
}.

(** The first [k] shards are loaded. *)
Record loading (images : list image) (b bound : Z) (k : nat) (s : state) : Prop := mkLoading {
  lo_map : ∃ M, coll_inv (Engine.coll s) M ∧ budget (Engine.coll s) M b ∧ Z.of_nat (size M) ≤ Z.of_nat k * bound ∧
    ∀ j g, images !! j = Some g → ∃ st, Engine.stores s !! j = Some st ∧
      if decide (j < k)%nat then loaded (Engine.coll s) M j st (im_files g) (im_base g) (im_lsn g) else fresh (Engine.coll s) M j st (im_files g);
  lo_config : Collection.config (Engine.coll s) = cfg;
  lo_shards : length (Collection.shards (Engine.coll s)) = length images;
  lo_stores : length (Engine.stores s) = length images;
}.

Lemma at_other (c c' : collection) M M' b i j s s' ma ma' base base' :
  advanced c c' M M' b i s' ma' base' → j ≠ i → at_shard c M j s ma base → at_shard c' M' j s ma base.
Proof.
  intros Ha Hne [H1 H2 H3]. pose proof (advanced_len _ _ _ _ _ _ _ _ _ Ha) as El. constructor; [|done|].
  - destruct (ad_shards _ _ _ _ _ _ _ _ _ Ha) as [x ->]. by rewrite list_lookup_insert_ne.
  - rewrite El, <-H3. by apply (ad_others _ _ _ _ _ _ _ _ _ Ha).
Qed.

Lemma loading_step images b bound k s :
  loading images b bound k s → (k < length images)%nat → b + 2 < two64 → bound ≤ b → Z.of_nat (length images) * bound ≤ b →
  (∀ j g, images !! j = Some g → image_ok (Z.of_nat (length images)) bound j g) →
  post (Engine.load_shard true true [] (Z.of_nat k)) s (λ _, loading images b bound (S k)) no_failure.
Proof.
  intros [(M&Hinv&Hb&Hsz&Hst) Hc Hsh Hss] Hk Hlt Hbound Htotal Him.
  destruct (lookup_lt_is_Some_2 images k Hk) as [g Hg]. pose proof (Him k g Hg) as Hok. pose proof (du_size _ _ _ _ _ _ _ _ _ Hok) as Hgs.
  destruct (Hst k g Hg) as (st&Hstk&Hf). rewrite decide_False in Hf by lia. destruct Hf as [(s0&Hat&Ht) Hd Hck Hlog].
  rewrite (focus_same k s st Hstk). assert (k < length (Engine.stores s))%nat as Hk' by lia.
  assert (len (Collection.shards (Engine.coll s)) = Z.of_nat (length images)) as En by (unfold len; lia).
  eapply (load_shard_ok k (Engine.stores s) (Engine.coll s) M b bound s0 st (im_files g) (im_base g) (im_lsn g)); try done.
  - apply (du_view _ _ _ _ _ _ _ _ _ Hok).
  - rewrite En. apply (du_base _ _ _ _ _ _ _ _ _ Hok).
  - nia.
  - intros c' s' st' Ha Ht' Hl. pose proof (ad_config _ _ _ _ _ _ _ _ _ Ha) as Ec. pose proof (advanced_len _ _ _ _ _ _ _ _ _ Ha) as El.
    constructor; unfold focus; cbn [Engine.coll Engine.stores]; [|by rewrite Ec| |by rewrite length_insert].
    + exists (im_base g ∪ M). split; [apply Ha|]. split; [apply Ha|]. split; [pose proof (size_union_le (im_base g) M); lia|].
      intros j g' Hg'. destruct (decide (j = k)) as [->|Hne].
      * exists st'. assert (g' = g) as -> by congruence. rewrite list_lookup_insert_eq, decide_True by lia. done.
      * rewrite list_lookup_insert_ne by done. destruct (Hst j g' Hg') as (stj&Hstj&Hor). exists stj. split; [done|].
        destruct (decide (j < k)%nat), (decide (j < S k)%nat); try lia; destruct Hor as [(sj&Hatj&Htj) Hx1 Hx2 Hx3]; constructor; try done;
          exists sj; (split; [|done]); by eapply at_other.
    + unfold len in El. lia.
Qed.

(** *** Opening the logs *)

(** The stored bytes of a log: its entries, with the start of one more that
    a crash cut short, or no file at all. *)
Definition stored_as (bytes : option (list Z)) (rs : list WalRecord) : Prop :=
  (bytes = None ∧ rs = []) ∨ ∃ tail, bytes = Some (encode_log rs ++ tail) ∧ torn_tail (last_lsn 0 rs) tail.

Lemma open_stored {St} (apply : St → WalRecord → res St) replayAfter bytes rs sync initial st st' :
  stored_as bytes rs → sync = SyncAlways ∨ sync = SyncAsync → 0 ≤ initial < two64 → Forall record_ok rs → contiguous 0 rs →
  last_lsn 0 rs + 1 < two64 → replay_records apply replayAfter st rs = Ok st' →
  ∃ l, OpenWithOptions apply replayAfter None bytes sync initial st = (Some (encode_log rs), Ok (l, st')) ∧
    LogInv l rs ∧ mode l = sync ∧ (rs = [] → nextLSN l = Z.max 1 initial).
Proof.
  intros [[-> ->]|(tail&->&Ht)] Hs Hi Hok Hc Hl Hr.
  - destruct (open_log apply replayAfter [] [] sync initial st st') as (l&Ho&H); try done; [by left|]. exists l. split; [|done]. rewrite <-Ho. by destruct Hs as [-> | ->].
  - by apply open_log.
Qed.

(** The log of a loaded shard is opened. *)
Lemma open_log_ok i ss (c : collection) M b bound st F G base lsn rs m bytes sync (Q : unit → state → Prop) :
  (i < length ss)%nat → Collection.config c = cfg → coll_inv c M → budget c M b → b + total_work rs + 3 < two64 → bound ≤ b →
  loaded c M i st F base lsn → durable_shard cfg (len (Collection.shards c)) i bound G rs base lsn m → stored_as bytes rs →
  sync = SyncAlways ∨ sync = SyncAsync →
  (∀ c' st' M' s' ma', advanced c c' M M' (b + total_work rs) i s' ma' base → part (len (Collection.shards c)) i M' = m →
     linked c' i bound st' m → Q tt (focus i ss c' st')) →
  post (Engine.open_log true sync None bytes (Z.of_nat i)) (focus i ss c st) Q no_failure.
Proof.
  intros Hi Hc Hinv Hb Hlt Hbound [(s0&Hat&Ht) (F'&Hd&Hv) Hck Hlog] Hdur Hbytes Hsync HQ.
  pose proof (du_lsn _ _ _ _ _ _ _ _ _ Hdur) as Hlsn. pose proof (du_last _ _ _ _ _ _ _ _ _ Hdur) as Hlast.
  unfold Engine.open_log. cbn [negb]. apply post_bind, post_get; [done|]. cbv zeta. rewrite Hck.
  pose proof (du_entries _ _ _ _ _ _ _ _ _ Hdur) as He. rewrite <-Hc in He.
  destruct (replay_records_ok lsn rs c (walDigests st) M b i s0 ∅ base bound Hinv Hb Hlt Hat He Hbound)
    as (c'&dg&s'&ma'&Hrep&Ha&Htomb&Hquiet).
  destruct (open_stored (Engine.replay (Z.of_nat i)) lsn bytes rs sync (u64 (lsn + 1)) (c, walDigests st) (c', dg) Hbytes Hsync) as (l&Ho&Hl&Hmode&Hnext);
    [rewrite u64_small; lia|apply Hdur..|done|exact Hrep|].
  unfold post. cbn [focus Engine.coll Engine.stores]. rewrite Ho.
  pose proof (on_store_focus i ss c' st (λ st, (mkStore (directory st) (Some l) (checkpointLSN st) (mutations st) dg (ledger st) (idempotency st), Ok tt)) Hi) as Hon.
  unfold focus in Hon at 1. rewrite Hon. apply (HQ c' _ (replayed lsn M rs) s' ma' Ha).
  - rewrite (part_replayed _ i bound cfg) by apply Hdur. rewrite (as_map _ _ _ _ _ _ Hat), Ht, (du_map _ _ _ _ _ _ _ _ _ Hdur).
    f_equal. apply map_eq. intros k. rewrite merged_lookup, lookup_empty. by rewrite decide_False by set_solver.
  - pose proof (ad_at _ _ _ _ _ _ _ _ _ Ha) as [A1 A2 A3]. pose proof (advanced_len _ _ _ _ _ _ _ _ _ Ha) as El.
    pose proof (ad_config _ _ _ _ _ _ _ _ _ Ha) as Ec.
    assert (m = merged ma' base (Shard.tombstones s')) as Em.
    { rewrite <-A3, El, (part_replayed _ i bound cfg) by apply Hdur. rewrite (as_map _ _ _ _ _ _ Hat), Ht, (du_map _ _ _ _ _ _ _ _ _ Hdur).
      f_equal. apply map_eq. intros k. rewrite merged_lookup, lookup_empty. by rewrite decide_False by set_solver. }
    assert (LastLSN l = lsn ∧ rs = [] ∨ rs ≠ [] ∧ LastLSN l = last_lsn 0 rs) as Hpos.
    { destruct (decide (rs = [])) as [->|Hne]; [left|right; by destruct (log_bound l rs Hl Hne)].
      split; [|done]. destruct (last_position l [] Hl) as [-> _]. rewrite Hnext by done. rewrite u64_small; lia. }
    assert (lsn ≤ LastLSN l ∧ replays lsn rs ≤ LastLSN l - lsn) as [Hle Hcount].
    { pose proof (replays_bound 0 lsn rs) as Hr. destruct Hpos as [[-> ->]|[Hne ->]]; [split; [lia|unfold replays, len; simpl; lia]|].
      destruct (du_position _ _ _ _ _ _ _ _ _ Hdur) as [?|Hp]; [done|]. split; [done|].
      etrans; [apply Hr; [apply Hdur..|unfold two64; lia]|]. lia. }
    exists s', ma', base, rs, l. constructor; cbn [directory log checkpointLSN]; try done.
    + destruct (ci_shards c' _ (ad_inv _ _ _ _ _ _ _ _ _ Ha) i s' A1) as [? _]. done.
    + unfold sync_mode. by rewrite Hmode.
    + rewrite Ec, Hc, El, Hck. eapply durable_agree; [exact Hdur|]. by rewrite Hd.
    + by rewrite Hck.
    + rewrite Hck. rewrite Ht, size_empty in Htomb. lia.
    + rewrite Hck. intros E. apply Hquiet. pose proof (len_nonneg (List.filter (λ r, lsn <? LSN r) rs)). unfold replays in *. lia.
Qed.

(** The logs of the first [k] shards are open. *)
Record opening (images : list image) (b bound : Z) (k : nat) (s : state) : Prop := mkOpening {
  op_map : ∃ M, coll_inv (Engine.coll s) M ∧ budget (Engine.coll s) M (b + Z.of_nat k * bound) ∧
    ∀ j g, images !! j = Some g → ∃ st, Engine.stores s !! j = Some st ∧
      if decide (j < k)%nat then linked (Engine.coll s) j bound st (im_map g) ∧ part (Z.of_nat (length images)) j M = im_map g
      else loaded (Engine.coll s) M j st (im_files g) (im_base g) (im_lsn g);
  op_config : Collection.config (Engine.coll s) = cfg;
  op_shards : length (Collection.shards (Engine.coll s)) = length images;
  op_stores : length (Engine.stores s) = length images;
}.

Lemma linked_other (c c' : collection) M M' b i j bound st m s' ma' base' :
  advanced c c' M M' b i s' ma' base' → j ≠ i → linked c j bound st m → linked c' j bound st m.
Proof.
  intros Ha Hne (sh&ma&base&rs&l&[H1 H2 H3 H4 H5 H6 H7 H8 H9 H10 H11]).
  pose proof (advanced_len _ _ _ _ _ _ _ _ _ Ha) as El. pose proof (ad_config _ _ _ _ _ _ _ _ _ Ha) as Ec.
  exists sh, ma, base, rs, l. constructor; rewrite ?El, ?Ec; try done.
  destruct (ad_shards _ _ _ _ _ _ _ _ _ Ha) as [x ->]. by rewrite list_lookup_insert_ne.
Qed.

Lemma opening_step images b bound (bytes : Z → option (list Z)) sync k s :
  opening images b bound k s → (k < length images)%nat → 0 ≤ b → 0 ≤ bound → bound ≤ b →
  b + Z.of_nat (length images) * bound + 3 < two64 → sync = SyncAlways ∨ sync = SyncAsync →
  (∀ j g, images !! j = Some g → image_ok (Z.of_nat (length images)) bound j g ∧
     stored_as (bytes (Z.of_nat j)) (im_entries g)) →
  post (Engine.open_log true sync None (bytes (Z.of_nat k)) (Z.of_nat k)) s (λ _, opening images b bound (S k)) no_failure.
Proof.
  intros [(M&Hinv&Hb&Hst) Hc Hsh Hss] Hk Hb0 Hw Hbound Hlt Hsync Him.
  destruct (lookup_lt_is_Some_2 images k Hk) as [g Hg]. destruct (Him k g Hg) as (Hok&Hbytes). pose proof (du_work _ _ _ _ _ _ _ _ _ Hok) as Hwork.
  destruct (Hst k g Hg) as (st&Hstk&Hf). rewrite decide_False in Hf by lia.
  rewrite (focus_same k s st Hstk). assert (k < length (Engine.stores s))%nat as Hk' by lia.
  assert (len (Collection.shards (Engine.coll s)) = Z.of_nat (length images)) as En by (unfold len; lia).
  pose proof (total_work_nonneg (im_entries g)) as Hw0.
  eapply (open_log_ok k (Engine.stores s) (Engine.coll s) M (b + Z.of_nat k * bound) bound st); try done.
  - nia.
  - nia.
  - rewrite En. exact Hok.
  - intros c' st' M' s' ma' Ha Hpart Hl. pose proof (ad_config _ _ _ _ _ _ _ _ _ Ha) as Ec. pose proof (advanced_len _ _ _ _ _ _ _ _ _ Ha) as El.
    constructor; unfold focus; cbn [Engine.coll Engine.stores]; [|by rewrite Ec| |by rewrite length_insert].
    + exists M'. split; [apply Ha|]. split; [eapply budget_mono; [|apply Ha]; lia|].
      intros j g' Hg'. destruct (decide (j = k)) as [->|Hne].
      * exists st'. assert (g' = g) as -> by congruence. rewrite list_lookup_insert_eq, decide_True by lia. rewrite <-En. done.
      * rewrite list_lookup_insert_ne by done. destruct (Hst j g' Hg') as (stj&Hstj&Hor). exists stj. split; [done|].
        destruct (decide (j < k)%nat), (decide (j < S k)%nat); try lia.
        -- destruct Hor as [Hl' Hp]. split; [by eapply linked_other|]. rewrite <-Hp, <-En. by apply (ad_others _ _ _ _ _ _ _ _ _ Ha).
        -- destruct Hor as [(sj&Hatj&Htj) Hx1 Hx2 Hx3]. constructor; try done. exists sj. split; [by eapply at_other|done].
    + unfold len in El. lia.
Qed.

(** *** Opening a collection *)

Definition readable_ledger (d : disk) : Prop := ∃ d' entries, Store.read_ledger d = (d', Ok entries).

(** The directories of shard [j] hold its files and a ledger. *)
Definition disk_of (images : list image) (disks : list (disk * disk)) : Prop :=
  length disks = length images ∧
  ∀ j g d, images !! j = Some g → disks !! j = Some d → d.1 = mkDisk (im_files g) [] ∧ readable_ledger d.2.

(** The ledgers of the first [k] shards are read. *)
Definition unread (images : list image) (disks : list (disk * disk)) (c : collection) (k : nat) (s : state) : Prop :=
  Engine.coll s = c ∧ length (Engine.stores s) = length images ∧
  ∀ j g d, images !! j = Some g → disks !! j = Some d → ∃ st, Engine.stores s !! j = Some st ∧
    directory st = mkDisk (im_files g) [] ∧ checkpointLSN st = 0 ∧ log st = None ∧ ((k ≤ j)%nat → ledger st = d.2).

Lemma unread_step images disks c k s :
  disk_of images disks → unread images disks c k s → (k < length images)%nat →
  post (Store.initialize_ledger (Z.of_nat k)) s (λ _, unread images disks c (S k)) no_failure.
Proof.
  intros [El Hd] (Ec&Es&Hst) Hk. destruct (lookup_lt_is_Some_2 images k Hk) as [g Hg].
  destruct (lookup_lt_is_Some_2 disks k ltac:(lia)) as [d Hdk]. destruct (Hst k g d Hg Hdk) as (st&Hstk&Hdir&Hck&Hlog&Hled).
  rewrite (focus_same k s st Hstk). assert (k < length (Engine.stores s))%nat as Hk' by lia.
  destruct (Hd k g d Hg Hdk) as [_ (d'&entries&Hread)].
  unfold Store.initialize_ledger, Store.on_ledger. apply post_bind, post_store; [done|]. rewrite Hled, Hread by lia.
  apply post_store; [done|]. split; [done|]. unfold focus. cbn [Engine.coll Engine.stores]. split; [by rewrite length_insert|].
  intros j g' dj Hg' Hdj. destruct (decide (j = k)) as [->|Hne].
  - rewrite list_lookup_insert_eq by done. eexists. split; [done|]. cbn [directory checkpointLSN log].
    assert (g' = g) as -> by congruence. split_and!; [done..|lia].
  - rewrite list_lookup_insert_ne by done. destruct (Hst j g' dj Hg' Hdj) as (stj&H1&H2&H3&H4&H5). exists stj. split_and!; try done.
    intros Hj. apply H5. lia.
Qed.

Lemma part_empty n i : part n i ∅ = ∅.
Proof. apply map_eq. intros k. rewrite part_lookup, lookup_empty. by destruct (decide _). Qed.

Lemma coll_New_fresh cfg0 (c : collection) i sh :
  Collection.New cfg0 = Ok c → Collection.shards c !! i = Some sh → at_shard c ∅ i sh ∅ ∅ ∧ Shard.tombstones sh = ∅.
Proof.
  unfold Collection.New. cbv zeta. destruct (Validate (Normalized cfg0)) as [[]|] eqn:Ev; [|done]. cbn [res_bind].
  destruct (Collection.new_shards (Normalized cfg0) _) as [ss|] eqn:E; [|done]. cbn [res_bind]. intros [= <-] Hsh.
  cbn [Collection.shards] in *. destruct (new_shards_ok _ _ _ E) as [_ Hs]. destruct (Hs i sh Hsh) as (Hinv&_&_).
  assert (Shard.tombstones sh = ∅) as Ht.
  { pose proof (sh_tombstones _ _ _ Hinv) as H. apply set_eq. intros x. split; [|set_solver]. intros Hx%H. by rewrite dom_empty_L in Hx. }
  split; [|done]. constructor; [done..|]. rewrite Ht. cbn [Collection.shards]. rewrite part_empty. apply map_eq. intros k.
  rewrite merged_lookup, !lookup_empty. by destruct (decide _).
Qed.

Lemma post_shards (f : Z → Engine.M (I := I) (MI := MI) (L := L) unit) s Q E :
  post (Engine.for_shards f (seq 0 (length (Engine.stores s)))) s Q E →
  post (λ s, Engine.for_shards f (seq 0 (length (Engine.stores s))) s) s Q E.
Proof. done. Qed.

(** Opening succeeds, and every shard holds what its files stand for. *)
Lemma openCollection_ok cfg0 (c0 : collection) images disks (bytes : Z → option (list Z)) sync bound :
  Normalized cfg0 = cfg → Collection.New cfg0 = Ok c0 → ShardCount cfg0 < 2 ^ 32 →
  Z.of_nat (length images) = len (Collection.shards c0) → disk_of images disks →
  2 * (Z.of_nat (length images) * bound) + 3 < two64 → sync = SyncAlways ∨ sync = SyncAsync →
  (∀ j g, images !! j = Some g → image_ok (Z.of_nat (length images)) bound j g ∧ stored_as (bytes (Z.of_nat j)) (im_entries g)) →
  ∃ s, Store.openCollection true (λ _, true) sync (λ _, None) bytes disks cfg0 [] = Ok s ∧
    opening images (Z.of_nat (length images) * bound) bound (length images) s.
Proof.
  intros Hn Hnew Hcount Hlen Hdisk Hlt Hsync Him.
  destruct (coll_New_ok cfg0 c0 Hnew Hcount) as (Hinv0&_&Hc0&Hb0). rewrite Hn in Hc0.
  pose proof (ci_count c0 ∅ Hinv0) as Hpos. assert (length (Collection.shards c0) = length images) as En by (unfold len in *; lia).
  assert (0 < Z.of_nat (length images)) as Hpos' by lia.
  assert (0 ≤ bound) as Hs0.
  { destruct (lookup_lt_is_Some_2 images 0 ltac:(lia)) as [g Hg]. destruct (Him 0%nat g Hg) as (Hg'&_).
    pose proof (du_size _ _ _ _ _ _ _ _ _ Hg'). lia. }
  set (b := Z.of_nat (length images) * bound) in *. assert (bound ≤ b) as Hbound by nia.
  assert (b + 2 < two64) as Hlt2 by nia. assert (0 ≤ b) as Hbpos by nia.
  unfold Store.openCollection. rewrite Hnew. cbn [res_bind].
  match goal with |- context [match ?m ?s with _ => _ end] => enough (post m s (λ _, opening images b bound (length images)) no_failure) as H end.
  { unfold post in H. destruct (Engine.bind _ _ _) as [s' [a|e]]; [by exists s'|done]. }
  destruct Hdisk as [Hdl Hdd]. pose proof (conj Hdl Hdd) as Hdisk. apply post_bind. unfold Store.initializeIdempotency. apply post_shards. cbn [Engine.stores]. rewrite length_fmap, Hdl.
  eapply post_mono; [eapply (post_for _ (unread images disks c0) no_failure)|intros [] s (Ec&Es&Hst)|done].
  { intros k s Hk HP. by apply unread_step. }
  { split; [done|]. cbn [Engine.stores]. split; [by rewrite length_fmap|]. intros j g d Hg Hd. rewrite list_lookup_fmap, Hd.
    eexists. split; [done|]. cbn. destruct (Hdd j g d Hg Hd) as [-> _]. done. }
  apply post_bind. unfold Engine.loadSegments. apply (post_shards (λ shardID, Engine.load_shard true true [] shardID)). rewrite Es.
  eapply post_mono; [eapply (post_for _ (loading images b bound) no_failure)|intros [] s' Hload|done].
  { intros k s' Hk HP. apply loading_step; try done. intros j g Hg. apply (Him j g Hg). }
  { constructor; [|by rewrite Ec..|done]. exists ∅. rewrite Ec. split; [done|]. split; [eapply budget_mono; [|exact Hb0]; done|].
    split; [rewrite map_size_empty; lia|]. intros j g Hg. pose proof (lookup_lt_Some _ _ _ Hg) as Hj.
    destruct (lookup_lt_is_Some_2 disks j ltac:(lia)) as [d Hd]. destruct (Hst j g d Hg Hd) as (st&Hs&H1&H2&H3&_). exists st. split; [done|].
    rewrite decide_False by lia. constructor; try done. destruct (lookup_lt_is_Some_2 (Collection.shards c0) j ltac:(lia)) as [sh Hsh].
    exists sh. by apply (coll_New_fresh cfg0). }
  unfold Engine.openCollectionLogs. apply (post_shards (λ shardID, Engine.open_log true sync None (bytes shardID) shardID)). rewrite (lo_stores _ _ _ _ _ Hload).
  apply (post_for _ (opening images b bound) no_failure).
  { intros k s2 Hk HP. apply opening_step; try done. lia. }
  destruct Hload as [(M&Hinv&Hb&_&Hst') L1 L2 L3]. constructor; try done. exists M. split; [done|]. split; [eapply budget_mono; [|exact Hb]; lia|].
  intros j g Hg. destruct (Hst' j g Hg) as (st&H1&H2). exists st. split; [done|]. pose proof (lookup_lt_Some _ _ _ Hg) as Hj.
  rewrite decide_True in H2 by done. by rewrite decide_False by lia.
Qed.

End Recovery.

Lemma Append_mode faults l operation payload : mode (Append faults l operation payload).1 = mode l.
Proof.
  unfold Append. destruct (negb _); [done|]. destruct (_ <? _); [done|]. destruct (seek_fails _); [done|]. cbv zeta.
  destruct (writeTo _ _ _) as [f [e|]]; [done|]. by destruct (match mode l with SyncAlways => _ | _ => _ end).
Qed.

(** Prepared records are accepted again. *)
Lemma prepare_valid {I MI L : Type} (c c1 : Collection.t I MI L) r now r' :
  Collection.PrepareUpsert c r now = Ok (c1, r') → Collection.validate_record c r' = Ok tt.
Proof.
  unfold Collection.PrepareUpsert. destruct (Collection.validate_record c r) as [[]|] eqn:Ev; [|done]. cbn [res_bind].
  destruct (String.eqb (ID r) ""); [done|]. destruct (PrepareNamedVectors (Collection.config c) r) as [r1|] eqn:En; [|done].
  cbn [res_bind]. intros [= _ <-]. rewrite <-Ev. unfold Collection.validate_record, Collection.stamp. cbn [Vector SparseVector Text].
  assert (Vector r1 = Vector r ∧ SparseVector r1 = SparseVector r ∧ Text r1 = Text r) as (->&->&->); [|done].
  unfold PrepareNamedVectors in En. destruct (_ && _); [by injection En as <-|].
  destruct (fill_map (prepare_vector _) _); [|done]. destruct (fill_map (prepare_multi _) _); [|done].
  cbn [res_bind] in En. by injection En as <-.
Qed.

Section Mutations.
Context {I MI L : Type} `{!VectorIndex I, !VectorIndexSpec I, !MetadataIndex MI, !MetadataSpec MI,
  !LexicalIndex L, !IndexBuilders I, !IndexBuildersSpec I, !SealedBuilders I, !SealedSpec I, !FilterFiles MI, !FilterFilesSpec MI}.
Context `{!Json Manifest, !Json (list storedRecord), !Json (list string), !Json persistedIndex, !Json walMutation, !Json (list CoreRecord), !Json idempotencyLedger}.
Context `{!JsonSpec Manifest json_manifest, !JsonSpec (list storedRecord) (fmap json_stored), !JsonSpec (list string) (fmap json_string), !JsonSpec walMutation json_mutation}.
Context (cfg : CollectionConfig) (Hcfg : plain_config cfg).

Local Abbreviation collection := (Collection.t I MI L).
Local Abbreviation state := (Engine.t I MI L).

(** ** Collections whose shards are linked to their files *)

Record live (b : Z) (s : state) (M : gmap string CoreRecord) : Prop := mkLive {
  lv_inv : coll_inv (Engine.coll s) M;
  lv_budget : budget (Engine.coll s) M b;
  lv_config : Collection.config (Engine.coll s) = cfg;
  lv_stores : length (Engine.stores s) = length (Collection.shards (Engine.coll s));
  lv_count : len (Collection.shards (Engine.coll s)) = ShardCount cfg;
  lv_linked j st : Engine.stores s !! j = Some st → linked (Engine.coll s) j b st (part (len (Collection.shards (Engine.coll s))) j M);
}.

(** Every shard's files stand for its records. *)
Record kept (b : Z) (s : state) (M : gmap string CoreRecord) : Prop := mkKept {
  kp_inv : coll_inv (Engine.coll s) M;
  kp_budget : budget (Engine.coll s) M b;
  kp_config : Collection.config (Engine.coll s) = cfg;
  kp_stores : length (Engine.stores s) = length (Collection.shards (Engine.coll s));
  kp_count : len (Collection.shards (Engine.coll s)) = ShardCount cfg;
  kp_files j st : Engine.stores s !! j = Some st → ∃ l rs, log st = Some l ∧ content (file l) = encode_log rs ∧
    recoverable cfg (len (Collection.shards (Engine.coll s))) j b (files (directory st)) rs (part (len (Collection.shards (Engine.coll s))) j M);
}.

Lemma durable_mono n i a b F rs base lsn m : a ≤ b → durable_shard cfg n i a F rs base lsn m → durable_shard cfg n i b F rs base lsn m.
Proof.
  intros Hab [H1 H2 H3 H4 H5 H6 H7 H8 H9 H10 H11]. constructor; try done; [by eapply shard_map_mono| |lia|lia].
  eapply Forall_impl; [exact H6|]. intros r. by apply entry_mono.
Qed.

Lemma linked_mono (c : collection) i a b st m : Collection.config c = cfg → a ≤ b → linked c i a st m → linked c i b st m.
Proof.
  intros Hc Hab (sh&ma&base&rs&l&[H1 H2 H3 H4 H5 H6 H7 H8 H9 H10 H11]). exists sh, ma, base, rs, l. constructor; try done.
  rewrite Hc in *. by eapply durable_mono.
Qed.

Lemma linked_kept (c : collection) i b st m :
  Collection.config c = cfg → linked c i b st m → ∃ l rs, log st = Some l ∧ content (file l) = encode_log rs ∧
    recoverable cfg (len (Collection.shards c)) i b (files (directory st)) rs m.
Proof.
  intros Hc (sh&ma&base&rs&l&[H1 H2 H3 H4 H5 H6 H7 H8 H9 H10 H11]). exists l, rs. split; [done|]. split; [apply H6|].
  rewrite Hc in H8. by exists base, (checkpointLSN st).
Qed.

Lemma live_mono a b s M : a ≤ b → live a s M → live b s M.
Proof.
  intros Hab [H1 H2 H3 H4 H0 H5]. constructor; [done|by eapply budget_mono|done|done|done|]. intros j st Hj. eapply linked_mono; [done|exact Hab|auto].
Qed.

Lemma live_kept a b s M : a ≤ b → live a s M → kept b s M.
Proof.
  intros Hab Hl. destruct (live_mono a b s M Hab Hl) as [H1 H2 H3 H4 H0 H5]. constructor; try done. intros j st Hj. by apply linked_kept, H5.
Qed.

(** A link depends on the configuration and on the shard. *)
Lemma linked_shape (c c' : collection) j b st m :
  Collection.config c' = Collection.config c → len (Collection.shards c') = len (Collection.shards c) →
  Collection.shards c' !! j = Collection.shards c !! j → linked c j b st m → linked c' j b st m.
Proof.
  intros Ec El Es (sh&ma&base&rs&l&[H1 H2 H3 H4 H5 H6 H7 H8 H9 H10 H11]). exists sh, ma, base, rs, l.
  constructor; rewrite ?Ec, ?El, ?Es; done.
Qed.

(** A change of shard [i] that leaves it linked leaves the collection live. *)
Lemma live_change a b s M i (c' : collection) M' st' s' ma' base' :
  live a s M → a ≤ b → (i < length (Engine.stores s))%nat → advanced (Engine.coll s) c' M M' b i s' ma' base' →
  linked c' i b st' (part (len (Collection.shards (Engine.coll s))) i M') → live b (focus i (Engine.stores s) c' st') M'.
Proof.
  intros [H1 H2 H3 H4 H0 H5] Hab Hi Ha Hl. pose proof (advanced_len _ _ _ _ _ _ _ _ _ Ha) as El.
  pose proof (ad_config _ _ _ _ _ _ _ _ _ Ha) as Ec. destruct (ad_shards _ _ _ _ _ _ _ _ _ Ha) as [x Ex].
  constructor; unfold focus; cbn [Engine.coll Engine.stores]; try apply Ha; [by rewrite Ec| |by rewrite El|].
  - rewrite length_insert, H4. unfold len in El. lia.
  - intros j st Hj. rewrite El. destruct (decide (j = i)) as [->|Hne].
    + rewrite list_lookup_insert_eq in Hj by done. by injection Hj as <-.
    + rewrite list_lookup_insert_ne in Hj by done. rewrite (ad_others _ _ _ _ _ _ _ _ _ Ha) by done.
      eapply linked_shape; [exact Ec|exact El|by rewrite Ex, list_lookup_insert_ne|]. eapply linked_mono; [done|exact Hab|auto].
Qed.

(** ** Appending an entry *)

Lemma post_append faults i ss (c : collection) st l rs operation payload (Q : Z → state → Prop) (E : state → Prop) :
  (i < length ss)%nat → log st = Some l → LogInv l rs → nextLSN l + 1 < two64 → Forall is_byte payload →
  rollback_truncates (append_faults faults) = true → rollback_seeks (append_faults faults) = true →
  (∀ l', LogInv l' (rs ++ [mkRecord (nextLSN l) operation payload]) → mode l' = mode l → Q (nextLSN l) (focus i ss c (with_log st l'))) →
  E (focus i ss c st) →
  post (Store.append faults (Z.of_nat i) operation payload) (focus i ss c st) Q E.
Proof.
  intros Hi Hlog Hl Hroom Hp Ht Hs HQ HE. unfold Store.append. apply (post_log _ _ _ _ l); [done..|].
  pose proof (Append_mode (append_faults faults) l operation payload) as Hm.
  destruct (Append (append_faults faults) l operation payload) as [l' r] eqn:Ea.
  pose proof (append_result _ _ _ _ _ _ _ Hl Hroom Hp Ea) as Hr. destruct r as [lsn|e].
  - destruct Hr as [-> Hl']. by apply HQ.
  - rewrite (Hr Ht Hs). unfold with_log. rewrite <-Hlog. by destruct st.
Qed.

(** The entry appended and its effect applied, the shard is linked again. *)
Lemma linked_append (c c' : collection) M M' i b b' st sh ma base rs l l' operation payload s' ma' :
  Collection.config c = cfg → link c i b st (part (len (Collection.shards c)) i M) sh ma base rs l → b + work (Wal.mkRecord (nextLSN l) operation payload) ≤ b' →
  LogInv l' (rs ++ [mkRecord (nextLSN l) operation payload]) → mode l' = mode l → nextLSN l + 1 < two64 →
  entry_ok cfg (len (Collection.shards c)) i b' (mkRecord (nextLSN l) operation payload) →
  advanced c c' M M' b' i s' ma' base →
  part (len (Collection.shards c)) i M' = effect (mkRecord (nextLSN l) operation payload) (part (len (Collection.shards c)) i M) →
  Z.of_nat (size (Shard.tombstones s')) ≤ Z.of_nat (size (Shard.tombstones sh)) + 1 →
  linked c' i b' (with_log st l') (part (len (Collection.shards c)) i M').
Proof.
  intros Hc [H1 H2 H3 H4 H5 H6 H7 H8 H9 H10 H11] Hwork Hl' Hm Hroom He Ha Heff Ht.
  pose proof (work_nonneg (Wal.mkRecord (nextLSN l) operation payload)). assert (b ≤ b') as Hb by lia. pose proof (du_work _ _ _ _ _ _ _ _ _ H8) as Hw.
  pose proof (advanced_len _ _ _ _ _ _ _ _ _ Ha) as El. pose proof (ad_config _ _ _ _ _ _ _ _ _ Ha) as Ec.
  destruct (last_position l rs H6) as [Elast _]. pose proof (li_next _ _ H6) as Hn.
  rewrite Hc in H8. pose proof (durable_mono _ _ _ _ _ _ _ _ _ Hb H8) as [D1 D2 D3 D4 D5 D6 D7 D8 D9 D10 D11].
  assert (LastLSN l' = nextLSN l) as Elast'.
  { destruct (last_position l' _ Hl') as [-> _]. destruct (li_last _ _ Hl') as [Hnil|E]; [by destruct rs|]. rewrite last_lsn_snoc in E. cbn [LSN] in E. lia. }
  pose proof (ad_at _ _ _ _ _ _ _ _ _ Ha) as [A1 A2 A3].
  exists s', ma', base, (rs ++ [mkRecord (nextLSN l) operation payload]), l'. constructor; cbn [with_log log directory checkpointLSN]; try done.
  - destruct (ci_shards c' _ (ad_inv _ _ _ _ _ _ _ _ _ Ha) i s' A1) as [? _]. done.
  - by rewrite <-A3, El.
  - unfold sync_mode. by rewrite Hm.
  - rewrite Ec, Hc, El. constructor; try done; try apply Hl'.
    + rewrite last_lsn_snoc. cbn [LSN]. lia.
    + apply Forall_app. split; [done|by apply Forall_singleton].
    + right. rewrite last_lsn_snoc. cbn [LSN]. lia.
    + rewrite Heff, replayed_snoc. cbn [LSN]. rewrite (proj2 (Z.ltb_lt _ _)) by lia. by rewrite <-D9.
    + rewrite total_work_snoc. lia.
  - lia.
  - lia.
  - lia.
Qed.

(** ** Counting mutations *)

Lemma at_shard_change (c : collection) M i s ma base st : at_shard c M i s ma base → ma ≠ ∅ → net_change c i st.
Proof.
  intros [H1 H2 _] Hne. unfold net_change, Collection.ShardCheckpointDelta. rewrite Nat2Z.id, H1.
  unfold Shard.CheckpointDelta. rewrite (holds_Records _ _ _ (sh_active _ _ _ H2)). intros [= Hnil _]. by apply sorted_nil in Hnil.
Qed.

Lemma linked_store (c : collection) i b st st' m :
  directory st' = directory st → log st' = log st → checkpointLSN st' = checkpointLSN st → linked c i b st m → linked c i b st' m.
Proof.
  intros E1 E2 E3 (sh&ma&base&rs&l&[H1 H2 H3 H4 H5 H6 H7 H8 H9 H10 H11]). exists sh, ma, base, rs, l.
  constructor; rewrite ?E1, ?E2, ?E3; done.
Qed.

(** A live collection with shard [i] linked, or kept, to another store. *)
Lemma live_replace b s M i (c' : collection) st' :
  live b s M → (i < length (Engine.stores s))%nat → coll_inv c' M → budget c' M b → same_but (Engine.coll s) c' i →
  linked c' i b st' (part (len (Collection.shards (Engine.coll s))) i M) → live b (focus i (Engine.stores s) c' st') M.
Proof.
  intros [H1 H2 H3 H4 H0 H5] Hi Hc' Hb' Hsb Hl. pose proof (same_but_len _ _ _ Hsb) as El. destruct Hsb as [Ec _ [x Ex]].
  constructor; unfold focus; cbn [Engine.coll Engine.stores]; try done; [by rewrite Ec| |by rewrite El|].
  - rewrite length_insert, H4. unfold len in El. lia.
  - intros j st Hj. rewrite El. destruct (decide (j = i)) as [->|Hne].
    + rewrite list_lookup_insert_eq in Hj by done. by injection Hj as <-.
    + rewrite list_lookup_insert_ne in Hj by done. eapply linked_shape; [exact Ec|exact El|by rewrite Ex, list_lookup_insert_ne|auto].
Qed.

Lemma kept_replace b s M i (c' : collection) st' rs l :
  live b s M → (i < length (Engine.stores s))%nat → coll_inv c' M → budget c' M b → same_but (Engine.coll s) c' i →
  log st' = Some l → content (file l) = encode_log rs →
  recoverable cfg (len (Collection.shards (Engine.coll s))) i b (files (directory st')) rs (part (len (Collection.shards (Engine.coll s))) i M) →
  kept b (focus i (Engine.stores s) c' st') M.
Proof.
  intros [H1 H2 H3 H4 H0 H5] Hi Hc' Hb' Hsb Hl Hrs Hrec. pose proof (same_but_len _ _ _ Hsb) as El. destruct Hsb as [Ec _ [x Ex]].
  constructor; unfold focus; cbn [Engine.coll Engine.stores]; try done; [by rewrite Ec| |by rewrite El|].
  - rewrite length_insert, H4. unfold len in El. lia.
  - intros j st Hj. rewrite El. destruct (decide (j = i)) as [->|Hne].
    + rewrite list_lookup_insert_eq in Hj by done. injection Hj as <-. by exists l, rs.
    + rewrite list_lookup_insert_ne in Hj by done. by apply linked_kept, H5.
Qed.

(** Counting mutations, and the checkpoint they may be due for. *)
Lemma after_ok every faults i n s M b :
  live b s M → (i < length (Engine.stores s))%nat → b + 2 < two64 →
  (∀ st, net_change (Engine.coll s) i st) ∨ every ≤ 0 →
  post (Store.after true every faults (Z.of_nat i) n) s (λ _ s', live b s' M) (λ s', 0 < every ∧ kept b s' M).
Proof.
  intros Hl Hi Hlt Hnet. pose proof Hl as [H1 H2 H3 H4 H0 H5].
  destruct (lookup_lt_is_Some_2 _ _ Hi) as [st Hst]. rewrite (focus_same i s st Hst) at 1. unfold Store.after, Store.count_mutations.
  apply post_bind, post_store; [done|].
  set (st1 := mkStore _ _ _ _ _ _ _). assert (linked (Engine.coll s) i b st1 (part (len (Collection.shards (Engine.coll s))) i M)) as Hlk.
  { eapply linked_store; [..|apply H5, Hst]; done. }
  assert (same_but (Engine.coll s) (Engine.coll s) i) as Hsame.
  { destruct Hlk as (sh&?&?&?&?&Hk). eapply same_but_refl, (lk_shard _ _ _ _ _ _ _ _ _ _ Hk). }
  assert (live b (focus i (Engine.stores s) (Engine.coll s) st1) M) as Hl1 by (by apply live_replace).
  destruct (0 <? every) eqn:Ee; cbn [andb]; [|by apply post_ret]. destruct (_ <=? _); [|by apply post_ret].
  bool_props. destruct Hnet as [Hnet|?]; [|lia].
  eapply post_mono; [apply (checkpoint_ok cfg Hcfg faults i _ _ M b b); try done; apply Hnet| |].
  - intros [] s' (c'&st'&->&G1&G2&G3&G4). by apply live_replace.
  - intros s' (c'&st'&rs&l&->&G1&G2&G3&G4&G5&G6). split; [done|]. by eapply kept_replace.
Qed.

(** ** Mutations *)

(** A failed append is undone. *)
Definition undone (faults : log_faults) : Prop :=
  rollback_truncates (append_faults faults) = true ∧ rollback_seeks (append_faults faults) = true.

(** Every log has room for another entry. *)
Definition log_room (s : state) : Prop := ∀ j st l, Engine.stores s !! j = Some st → log st = Some l → nextLSN l + 1 < two64.

Lemma live_at b s M k :
  live b s M → ∃ i st sh ma base rs l, Collection.route_of (len (Collection.shards (Engine.coll s))) k = Z.of_nat i ∧
    routed (len (Collection.shards (Engine.coll s))) i k ∧ (i < length (Engine.stores s))%nat ∧ Engine.stores s !! i = Some st ∧
    link (Engine.coll s) i b st (part (len (Collection.shards (Engine.coll s))) i M) sh ma base rs l ∧ at_shard (Engine.coll s) M i sh ma base.
Proof.
  intros [H1 H2 H3 H4 H0 H5]. pose proof (route_bound (len (Collection.shards (Engine.coll s))) k (ci_count _ _ H1)) as Hr.
  set (i := Z.to_nat (Collection.route_of (len (Collection.shards (Engine.coll s))) k)).
  assert (i < length (Engine.stores s))%nat as Hi by (rewrite H4; unfold i, len in *; lia).
  destruct (lookup_lt_is_Some_2 _ _ Hi) as [st Hst]. destruct (H5 i st Hst) as (sh&ma&base&rs&l&Hk).
  exists i, st, sh, ma, base, rs, l. split_and!; try done; [lia|]. destruct Hk. by constructor.
Qed.

(** The next version is taken. *)
Lemma live_version b s M :
  live b s M → b + 1 < two64 →
  live (b + 1) (Engine.mk (Collection.mk (Collection.config (Engine.coll s)) (Collection.shards (Engine.coll s))
    (u64 (Collection.version (Engine.coll s) + 1))) (Engine.stores s)) M.
Proof.
  intros Hl Hlt. destruct (live_mono b (b + 1) s M ltac:(lia) Hl) as [H1 H2 H3 H4 H0 H5]. pose proof (bu_version _ _ _ (lv_budget _ _ _ Hl)) as Hv.
  rewrite u64_small by lia. constructor; cbn [Engine.coll Engine.stores]; try done.
  - destruct H1 as [Q1 Q2 Q3 Q4 Q5]. constructor; try done. intros k r Hk. cbn [Collection.version]. specialize (Q4 k r Hk). lia.
  - destruct H2 as [B1 B2 B3]. constructor; cbn [Collection.version Collection.shards]; [lia|lia|done].
  - intros j st Hj. by eapply linked_shape, H5.
Qed.

(** The mutation [Upsert] logs. *)
Lemma upsert_entry n i bound stored payload lsn :
  storable cfg stored → routed n i (record_key stored) → Version stored ≤ bound →
  json_Marshal (mkMutation (Some stored) [] "" "") = Ok payload →
  let r := Wal.mkRecord lsn OperationUpsert payload in
  entry_ok cfg n i bound r ∧ work r = 1 ∧ ∀ m, effect r m = <[record_key stored := stored]> m.
Proof.
  intros Hs Hr Hv Hm r. pose proof (json_roundtrip _ _ Hm) as Hu. pose proof (json_record_stable stored (proj1 (sr_durable _ _ Hs))) as Ej.
  split.
  - eexists. split; [exact Hu|]. eapply upsert_ok; [unfold json_mutation; cbn [mut_Record]; by rewrite fmap_Some_1 with (x := stored) || reflexivity|].
    rewrite Ej. by constructor.
  - split; [unfold work; cbn [r Wal.Payload Operation]; by rewrite Hu|]. intros m. unfold effect. cbn [r Wal.Payload Operation]. rewrite Hu. unfold apply_mutation. cbn [Z.eqb Pos.eqb OperationUpsert]. simpl. by rewrite Ej.
Qed.

Lemma engine_upsert_ok every faults record now s M b :
  live b s M → b + 5 < two64 → named_valid record → undone faults → log_room s →
  (∀ c1 stored, Collection.PrepareUpsert (Engine.coll s) record now = Ok (c1, stored) → durable stored ∧ filter_stable stored) →
  post (Store.Upsert true (λ _, true) every faults record now) s
    (λ stored s', record_key stored = record_key record ∧ live (b + 2) s' (<[record_key record := stored]> M))
    (λ s', live (b + 2) s' M ∨ 0 < every ∧ ∃ stored, record_key stored = record_key record ∧ kept (b + 2) s' (<[record_key record := stored]> M)).
Proof.
  intros Hl Hlt Hnamed [Hu1 Hu2] Hroom Hdur. unfold Store.Upsert. apply post_bind. unfold post at 1, Store.prepare.
  destruct (Collection.PrepareUpsert (Engine.coll s) record now) as [[c1 stored]|e] eqn:Ep.
  2: { left. eapply live_mono; [|exact Hl]. lia. }
  destruct (Hdur _ _ eq_refl) as [Hd Hf]. destruct (PrepareUpsert_ok _ _ _ _ _ Ep Hnamed) as (->&Hp&Hver&Ekey).
  pose proof (prepare_valid _ _ _ _ _ Ep) as Hvalid.
  pose proof (live_version b s M Hl ltac:(lia)) as Hl1. pose proof (bu_version _ _ _ (lv_budget _ _ _ Hl)) as Hvb.
  rewrite u64_small in Hver by lia. set (s1 := Engine.mk _ _) in *.
  assert (live (b + 2) s1 M) as HE by (eapply live_mono; [|exact Hl1]; lia).
  apply post_bind, post_lift. destruct (json_Marshal _) as [payload|e] eqn:Em; [|by left]. apply post_bind, post_ask.
  destruct (live_at (b + 1) s1 M (record_key stored) Hl1) as (i&st&sh&ma&base&rs&l&Eroute&Hr&Hi&Hst&Hk&Hat).
  unfold Collection.RouteShard. change (key (Namespace stored) (ID stored)) with (record_key stored). rewrite Eroute. cbn [negb].
  apply post_bind. rewrite (focus_same i s1 st Hst).
  assert (storable cfg stored) as Hs by (constructor; [by rewrite <-(lv_config _ _ _ Hl)| |done|done];
    unfold valid_record; rewrite <-(lv_config _ _ _ Hl); exact Hvalid).
  apply (post_append faults i (Engine.stores s1) (Engine.coll s1) st l rs); try done.
  { apply Hk. } { apply Hk. } { by eapply Hroom, Hk. } { by eapply json_bytes. }
  2: { left. by rewrite <-(focus_same i s1 st Hst). }
  intros l' Hl' Hmode. apply post_bind.
  destruct (apply_upsert_ok (Engine.coll s1) M (b + 1) i sh ma base stored) as (c'&s'&Happ&Ha&Htomb); try done; [apply Hl1|apply Hl1|lia|cbn; rewrite Hver; rewrite u64_small; lia|].
  apply post_coll. rewrite Happ. apply post_bind.
  destruct (upsert_entry (len (Collection.shards (Engine.coll s1))) i (b + 2) stored payload (nextLSN l) Hs Hr ltac:(lia) Em) as (Hentry&Hwork&Heff).
  assert (Z.of_nat (size (Shard.tombstones s')) ≤ Z.of_nat (size (Shard.tombstones sh)) + 1) as Hts by (pose proof (subseteq_size _ _ Htomb); lia).
  replace (b + 1 + 1) with (b + 2) in Ha by lia.
  assert (part (len (Collection.shards (Engine.coll s1))) i (<[record_key stored := stored]> M) =
    effect (Wal.mkRecord (nextLSN l) OperationUpsert payload) (part (len (Collection.shards (Engine.coll s1))) i M)) as Epart.
  { by rewrite Heff, part_insert, decide_True. }
  assert (b + 1 + work (Wal.mkRecord (nextLSN l) OperationUpsert payload) ≤ b + 2) as Hw by (rewrite Hwork; lia).
  pose proof (linked_append _ _ _ _ _ (b + 1) (b + 2) _ _ _ _ _ _ _ _ _ _ _ (lv_config _ _ _ Hl1) Hk Hw Hl' Hmode (Hroom _ _ _ Hst (lk_open _ _ _ _ _ _ _ _ _ _ Hk)) Hentry Ha Epart Hts) as Hlk.
  pose proof (live_change (b + 1) (b + 2) s1 M i c' _ _ _ _ _ Hl1 ltac:(lia) Hi Ha Hlk) as Hl2.
  unfold Store.afterMutationLocked. eapply post_mono; [apply (after_ok every faults i 1 _ _ (b + 2) Hl2)| |].
  - unfold focus. cbn [Engine.stores]. by rewrite length_insert.
  - lia.
  - left. intros st'. cbn [focus Engine.coll]. eapply at_shard_change; [apply Ha|]. by apply insert_non_empty.
  - intros [] s2 Hl3. apply post_ret. split; [done|]. by rewrite <-Ekey.
  - intros s2 [He Hk2]. right. split; [done|]. exists stored. split; [done|]. by rewrite <-Ekey.
Qed.

(** The mutation [Delete] logs. *)
Lemma delete_entry n i bound ns id payload lsn :
  id ≠ "" → json_string ns = ns → json_string id = id → routed n i (key ns id) →
  json_Marshal (of_key ns id) = Ok payload →
  let r := Wal.mkRecord lsn OperationDelete payload in
  entry_ok cfg n i bound r ∧ work r = 1 ∧ ∀ m, effect r m = delete (key ns id) m.
Proof.
  intros Hne Hns Hid Hr Hm r. pose proof (json_roundtrip _ _ Hm) as Hu. split.
  - eexists. split; [exact Hu|]. apply delete_ok; unfold json_mutation, of_key; cbn [mut_ID mut_Namespace]; rewrite ?Hns, ?Hid; done.
  - split; [unfold work; cbn [r Wal.Payload Operation]; by rewrite Hu|]. intros m. unfold effect. cbn [r Wal.Payload Operation]. rewrite Hu. unfold apply_mutation. cbn [Z.eqb Pos.eqb OperationUpsert OperationDelete].
    unfold json_mutation, of_key. cbn [mut_ID mut_Namespace]. by rewrite Hns, Hid.
Qed.

(** A deletion after which the shard differs from its last checkpoint. *)
Definition something_left (s : state) (ns id : string) : Prop :=
  Collection.ShardCheckpointDelta (Collection.ApplyDelete (Engine.coll s) ns id).1 (Collection.RouteShard (Engine.coll s) ns id) ≠ Ok ([], []).

Lemma engine_delete_ok every faults ns id s M b :
  live b s M → b + 5 < two64 → undone faults → log_room s → id ≠ "" → json_string ns = ns → json_string id = id →
  every ≤ 0 ∨ something_left s ns id →
  post (Store.Delete true (λ _, true) every faults ns id) s
    (λ _ s', is_Some (M !! key ns id) ∧ live (b + 2) s' (delete (key ns id) M))
    (λ s', live (b + 2) s' M ∨ 0 < every ∧ kept (b + 2) s' (delete (key ns id) M)).
Proof.
  intros Hl Hlt [Hu1 Hu2] Hroom Hne Hns Hid Hev. assert (live (b + 2) s M) as HE by (eapply live_mono; [|exact Hl]; lia).
  unfold Store.Delete. apply post_bind. unfold Store.check_present. apply post_bind, post_ask.
  rewrite (coll_Get_ok _ M) by apply Hl. apply post_bind, post_lift. destruct (M !! key ns id) as [r|] eqn:EM; [|by left]. apply post_ret.
  apply post_bind, post_lift. destruct (json_Marshal _) as [payload|e] eqn:Em; [|by left]. apply post_bind, post_ask.
  destruct (live_at b s M (key ns id) Hl) as (i&st&sh&ma&base&rs&l&Eroute&Hr&Hi&Hst&Hk&Hat).
  unfold Collection.RouteShard. rewrite Eroute. cbn [negb]. apply post_bind. unfold Store.delete_from. apply post_bind. rewrite (focus_same i s st Hst).
  apply (post_append faults i (Engine.stores s) (Engine.coll s) st l rs); try done.
  { apply Hk. } { apply Hk. } { by eapply Hroom, Hk. } { by eapply json_bytes. }
  2: { left. by rewrite <-(focus_same i s st Hst). }
  intros l' Hl' Hmode. apply post_bind.
  destruct (remove_key_ok (Engine.coll s) M b i sh ma base ns id) as (c'&s'&ma'&e&Happ&_&He&Ha&Htomb); try done; [apply Hl|apply Hl|lia|].
  apply post_coll. rewrite Happ, He by (by rewrite EM). apply post_bind.
  destruct (delete_entry (len (Collection.shards (Engine.coll s))) i (b + 1) ns id payload (nextLSN l) Hne Hns Hid Hr Em) as (Hentry&Hwork&Heff).
  assert (Z.of_nat (size (Shard.tombstones s')) ≤ Z.of_nat (size (Shard.tombstones sh)) + 1) as Hts.
  { pose proof (subseteq_size _ _ Htomb). pose proof (size_union_alt {[key ns id]} (Shard.tombstones sh)).
    pose proof (subseteq_size (Shard.tombstones sh ∖ {[key ns id]}) (Shard.tombstones sh) ltac:(set_solver)). rewrite size_singleton in *. lia. }
  assert (part (len (Collection.shards (Engine.coll s))) i (delete (key ns id) M) =
    effect (Wal.mkRecord (nextLSN l) OperationDelete payload) (part (len (Collection.shards (Engine.coll s))) i M)) as Epart.
  { by rewrite Heff, part_delete, decide_True. }
  assert (b + work (Wal.mkRecord (nextLSN l) OperationDelete payload) ≤ b + 1) as Hw by (rewrite Hwork; lia).
  pose proof (linked_append _ _ _ _ _ b (b + 1) _ _ _ _ _ _ _ _ _ _ _ (lv_config _ _ _ Hl) Hk Hw Hl' Hmode (Hroom _ _ _ Hst (lk_open _ _ _ _ _ _ _ _ _ _ Hk)) Hentry Ha Epart Hts) as Hlk.
  pose proof (live_change b (b + 1) s M i c' _ _ _ _ _ Hl ltac:(lia) Hi Ha Hlk) as Hl2.
  apply (live_mono _ (b + 2)) in Hl2; [|lia].
  unfold Store.afterMutationLocked. eapply post_mono; [apply (after_ok every faults i 1 _ _ (b + 2) Hl2)| |].
  - unfold focus. cbn [Engine.stores]. by rewrite length_insert.
  - lia.
  - destruct Hev as [?|Hev]; [by right|left]. intros st' E. destruct Hev. unfold Collection.RouteShard. rewrite Eroute, Happ. exact E.
  - intros [] s2 Hl3. by do 2 apply post_ret.
  - intros s2 Hk2. by right.
Qed.

End Mutations.
