(* ===== verification/EngineInstances.v ===== *)
(** * Reference instances for the engine

    Filter files over the JSON of [metadata/persistence.go], a codec for the
    values the engine writes, and a small collection that runs on them and on
    the exact indexes of the first part. *)
From Stdlib Require Import ZArith Lia Ascii String.
From stdpp Require Import base tactics list gmap strings countable.
From S2P Require Import Prelude Wal Core Distance Float Persistence TopK Index Flat Segment Instances Shard Collection Compaction Json SegmentFiles JsonInstances Multisegment MappedIndex Sealed SealedProofs Checkpoint CheckpointProofs Engine.
Local Set Warnings "-clear-no-such-hyp".
Local Open Scope string_scope.
Local Open Scope Z_scope.
Local Open Scope list_scope.

(** ** Sealed segments: a reference implementation of the index packages

    What a collection with a flat index runs on: [Flat.t] on the heap and
    [Mapped.t] over a mapping are one type of index.  The packages that are
    interfaces of the model are given by exact indexes: quantization, graphs
    and DiskANN files keep the vectors themselves. *)

Module ExactIndexes.

(** The values of [index.Index] a flat collection has. *)
Inductive t : Type := Heap (f : Flat.t) | Mmap (m : Mapped.t).

#[global] Instance exact_index : VectorIndex t := {|
  vi_Upsert := λ i id v, match i with Heap f => let! f' := Flat.Upsert f id v in Ok (Heap f') | Mmap _ => Err Mapped.immutable end;
  vi_Delete := λ i id, match i with Heap f => let! f' := Flat.Delete f id in Ok (Heap f') | Mmap _ => Err Mapped.immutable end;
  vi_SearchFiltered := λ i query k allowed,
    match i with Heap f => Flat.SearchFiltered f query k allowed | Mmap m => Mapped.SearchFiltered m query k allowed end;
  vi_Len := λ i, match i with Heap f => Flat.Len f | Mmap m => Mapped.Len m end;
  vi_SearchWithOptions := None;
|}.

(** A mapped index can be read and never changed. *)
Definition inv (i : t) : Prop := match i with Heap f => Flat.inv f | Mmap _ => False end.
Definition readable (i : t) : Prop := match i with Heap f => Flat.inv f | Mmap m => Mapped.readable m end.
Definition dimension (i : t) : Z := match i with Heap f => Flat.dimension f | Mmap m => ms_Dimension (Mapped.source m) end.
Definition metric (i : t) : string := match i with Heap f => Flat.metric f | Mmap m => Mapped.metric m end.
Definition contents (i : t) : gmap Z (list Z) := match i with Heap f => Flat.contents f | Mmap m => Mapped.contents m end.

#[global] Program Instance exact_spec : VectorIndexSpec t := {|
  vi_inv := inv;
  vi_dimension := dimension;
  vi_metric := metric;
  vi_contents := contents;
  vi_readable := readable;
|}.
Next Obligation. by intros [f|m]. Qed.
Next Obligation.
  intros [f|m] id v Hi Hid Hv; [|done]. destruct (vi_upsert_ok (VectorIndexSpec := Flat.flat_spec) f id v Hi Hid Hv) as (f'&Hu&?).
  exists (Heap f'). split; [|done]. cbn [vi_Upsert exact_index]. change (Flat.Upsert f id v) with (vi_Upsert f id v). by rewrite Hu.
Qed.
Next Obligation.
  intros [f|m] id v Hi Hv; [|done]. cbn [vi_Upsert exact_index].
  pose proof (vi_upsert_mismatch (VectorIndexSpec := Flat.flat_spec) f id v Hi Hv) as H. cbn [vi_Upsert Flat.flat_index] in H. by rewrite H.
Qed.
Next Obligation.
  intros [f|m] id v Hi Hv; [|done]. destruct (vi_delete_ok (VectorIndexSpec := Flat.flat_spec) f id v Hi Hv) as (f'&Hu&?).
  exists (Heap f'). split; [|done]. cbn [vi_Delete exact_index]. change (Flat.Delete f id) with (vi_Delete f id). by rewrite Hu.
Qed.
Next Obligation.
  intros [f|m] id Hi Hv; [|done]. cbn [vi_Delete exact_index].
  pose proof (vi_delete_missing (VectorIndexSpec := Flat.flat_spec) f id Hi Hv) as H. cbn [vi_Delete Flat.flat_index] in H. by rewrite H.
Qed.
Next Obligation. intros [f|m] Hr; [by apply (vi_len_size (VectorIndexSpec := Flat.flat_spec) f)|by apply Mapped.Len_contents]. Qed.

#[global] Instance exact_exact : ExactIndex t.
Proof.
  constructor; [done|]. intros [f|m] query k allowed Hr Hq Hk candidates Hc; subst candidates.
  - exact (vi_search_exact (ExactIndex := Flat.flat_exact) f query k allowed Hr Hq Hk Hc).
  - by apply Mapped.mapped_search_exact.
Qed.

Definition heap (r : res Flat.t) : res t := let! f := r in Ok (Heap f).

#[global] Instance exact_builders : IndexBuilders t := {|
  build_binary := λ c, heap (Flat.New (mkIndexConfig (Dimension c) (Metric c) 0 0 0));
  build_flat := λ c, heap (Flat.New c);
  build_hnsw := λ c, heap (Flat.New c);
|}.

Lemma heap_spec cfg i :
  heap (Flat.New cfg) = Ok i →
  vi_inv i ∧ vi_dimension i = cfg_Dimension cfg ∧ vi_metric i = cfg_Metric cfg ∧ vi_contents i = ∅.
Proof.
  unfold heap. destruct (Flat.New cfg) as [f|] eqn:E; [|done]. cbn [res_bind]. intros [= <-].
  by apply Reference.New_spec in E.
Qed.

#[global] Instance exact_builders_spec : IndexBuildersSpec t.
Proof. constructor; intros c i H; by apply heap_spec in H. Qed.

(** *** The vectors under the ordinals [1, 2, ...] *)

Definition list_source (dimension : Z) (vectors : list (list Z)) : MappedSource :=
  mkSource (len vectors) dimension
    (λ i, match vectors !! Z.to_nat i with Some v => Ok v | None => Err (Panic "index out of range") end)
    (λ metric query i, Err (Panic "")) (λ metric query norm i, Err (Panic "")).

Definition index_of (c : Config) (vectors : list (list Z)) : res t :=
  let! i := heap (Flat.New c) in
  Sealed.upsert_vectors i (list_source (cfg_Dimension c) vectors) (ordinals_of vectors) 0.

Definition exact_config (c : CollectionConfig) : Config := mkIndexConfig (Dimension c) (Metric c) 0 0 0.

(** A DiskANN file is its tag and its vectors in a row. *)
Fixpoint rows (dimension count : nat) (words : list Z) : list (list Z) :=
  match count with
  | O => []
  | S n => take dimension words :: rows dimension n (drop dimension words)
  end.

#[global] Instance exact_sealed : SealedBuilders t := {|
  build_mapped := λ source metric ids, let! m := Mapped.NewMapped source metric ids in Ok (Mmap m);
  build_binary_mapped := λ c source, heap (Flat.New (exact_config c));
  build_pq := λ c digest vectors score persisted, index_of (exact_config c) vectors;
  train_pq := λ c digest vectors, Ok [];
  build_graph := λ c ids vectors, Ok [];
  load_graph := λ c ids vectors graph, index_of c vectors;
  build_diskann := λ c vectors tag,
    if forallb (λ v, len v =? Dimension c) vectors then Ok (tag :: concat vectors) else invalid "diskann vectors";
  open_diskann := λ file metric dimension count tag ef,
    match file with
    | tag' :: words =>
        if negb (tag' =? tag) then invalid "diskann tag"
        else
          let vectors := rows (Z.to_nat dimension) (Z.to_nat count) words in
          let! i := index_of (mkIndexConfig dimension metric 0 0 0) vectors in
          Ok (i, ms_VectorCopy (list_source dimension vectors))
    | [] => invalid "diskann file"
    end;
|}.

Lemma list_source_copy d vectors i v : vectors !! i = Some v → ms_VectorCopy (list_source d vectors) (Z.of_nat i) = Ok v.
Proof. intros Hv. cbn [ms_VectorCopy list_source]. by rewrite Nat2Z.id, Hv. Qed.

Lemma index_of_ok c vectors i :
  Forall (λ v, len v = cfg_Dimension c) vectors → index_of c vectors = Ok i →
  index_over i (cfg_Dimension c) (cfg_Metric c) vectors.
Proof.
  intros Hl. unfold index_of. destruct (heap (Flat.New c)) as [i0|] eqn:E; [|done]. cbn [res_bind]. intros Hu.
  apply heap_spec in E as (H1&H2&H3&H4).
  pose proof (upsert_vectors_ok (I := t) (mkConfig "" (cfg_Dimension c) (cfg_Metric c) 0 (mkIndex "" 0 0 0 "" 0 0 0 0) "" ∅) i0
    (list_source (cfg_Dimension c) vectors) vectors [] i) as H. cbn [app Dimension Metric] in H.
  apply H; [done|done|done|by rewrite H4|done|by apply list_source_copy|exact Hu].
Qed.

Lemma rows_concat dimension (vectors : list (list Z)) :
  Forall (λ v, length v = dimension) vectors → rows dimension (length vectors) (concat vectors) = vectors.
Proof.
  induction 1 as [|v vectors Hv _ IH]; [done|]. cbn [length rows concat].
  rewrite take_app_length' by done. rewrite drop_app_length' by done. by rewrite IH.
Qed.

#[global] Instance exact_sealed_spec : SealedSpec t.
Proof.
  constructor.
  - intros source metric vectors Hs Hm Hd. destruct (NewMapped_ok source metric vectors) as (m&Hn&Hr&<-&Hmm&Hc); [done..|].
    exists (Mmap m). cbn [build_mapped exact_sealed]. rewrite Hn. split; [done|]. by constructor.
  - intros c source i H. cbn [build_binary_mapped exact_sealed] in H. by apply heap_spec in H.
  - intros c digest vectors score persisted i H Hl. by apply (index_of_ok (exact_config c)).
  - intros cfg vectors graph i H Hl. by apply index_of_ok.
  - intros c vectors tag file ef i read. cbn [build_diskann open_diskann exact_sealed].
    destruct (forallb _ vectors) eqn:Ef; [|done]. intros [= <-]. rewrite Z.eqb_refl. cbn [negb].
    assert (Forall (λ v : list Z, len v = Dimension c) vectors) as Hl.
    { apply List.Forall_forall. intros v Hv. rewrite forallb_forall in Ef. by apply Z.eqb_eq, Ef. }
    assert (rows (Z.to_nat (Dimension c)) (Z.to_nat (len vectors)) (concat vectors) = vectors) as ->.
    { unfold len. rewrite Nat2Z.id. apply rows_concat. eapply List.Forall_impl; [|exact Hl]. unfold len. intros v Hv. simpl in Hv. lia. }
    destruct (index_of _ vectors) as [i'|] eqn:Ei; [|done]. cbn [res_bind]. intros H. injection H as <- <-. split.
    + by apply (index_of_ok (mkIndexConfig (Dimension c) (Metric c) 0 0 0)).
    + intros position v Hv. by apply (list_source_copy (Dimension c)).
Qed.

End ExactIndexes.

#[global] Instance record_eq_dec : EqDecision CoreRecord.
Proof. solve_decision. Defined.

Definition record_code (r : CoreRecord) : positive :=
  in_row [encode (store_record r); encode (Vector r)].

Definition record_of (p : positive) : option CoreRecord := match of_row p with [s; v] => s ← decode s; v ← decode v; Some (record s v) | _ => None end.

Lemma record_of_code x : record_of (record_code x) = Some x.
Proof. unfold record_of, record_code. rewrite of_in_row. rewrite !decode_encode. cbn. by rewrite record_store. Qed.

#[global] Instance record_countable : Countable CoreRecord := {| encode := record_code; decode := record_of; decode_encode := record_of_code |}.

#[global] Instance mutation_eq_dec : EqDecision walMutation.
Proof. solve_decision. Defined.

Definition mutation_code (m : walMutation) : positive :=
  in_row [encode (mut_Record m); encode (mut_Records m); encode (mut_Namespace m); encode (mut_ID m)].

Definition mutation_of (p : positive) : option walMutation :=
  match of_row p with
  | [r; rs; ns; i] => r ← decode r; rs ← decode rs; ns ← decode ns; i ← decode i; Some (mkMutation r rs ns i)
  | _ => None
  end.

Lemma mutation_of_code x : mutation_of (mutation_code x) = Some x.
Proof. unfold mutation_of, mutation_code. rewrite of_in_row. destruct x. by rewrite !decode_encode. Qed.

#[global] Instance mutation_countable : Countable walMutation := {| encode := mutation_code; decode := mutation_of; decode_encode := mutation_of_code |}.

#[global] Instance idem_eq_dec : EqDecision idempotencyEntry.
Proof. solve_decision. Defined.

#[global] Program Instance idem_countable : Countable idempotencyEntry :=
  inj_countable' (λ e, (ent_Key e, ent_Digest e, ent_Records e, ent_Completed e, ent_Sequence e))
    (λ '(a, b, c, d, e), mkEntry a b c d e) _.
Next Obligation. by intros []. Qed.

#[global] Instance ledger_eq_dec : EqDecision idempotencyLedger.
Proof. solve_decision. Defined.

#[global] Program Instance ledger_countable : Countable idempotencyLedger :=
  inj_countable' (λ e, (led_Format e, led_Entries e)) (λ '(a, b), mkLedger a b) _.
Next Obligation. by intros []. Qed.

#[global] Instance mutation_json : Json walMutation := codec json_mutation.
#[global] Instance mutation_json_spec : JsonSpec walMutation json_mutation := codec_spec _.
#[global] Instance records_json : Json (list CoreRecord) := codec (fmap json_record).
#[global] Instance ledger_json : Json idempotencyLedger := codec id.

(** Filter files of the reference filter index. *)
#[global] Instance sample_filters : FilterFiles Reference.filter_index := {|
  MarshalRecords := λ records, codec_marshal (Metadata <$> records);
  LoadBinary := λ data count, let! mds := codec_unmarshal id data in
    if negb (len mds =? count) then Err (Errorf "filter count") else
    Ok (list_to_map (zip (ordinals_of mds) mds));
|}.

#[global] Program Instance sample_filters_spec : FilterFilesSpec Reference.filter_index := {| filter_stable := λ _, True |}.
Next Obligation.
  intros records data. cbn [MarshalRecords sample_filters]. unfold codec_marshal. cbv zeta.
  destruct (Z.ltb_spec (len (pos_digits (encode (Metadata <$> records)))) (2 ^ 63)); [|discriminate]. intros [= <-].
  split; [apply pos_digits_bytes|done].
Qed.
Next Obligation.
  intros records data. cbn [MarshalRecords LoadBinary sample_filters]. unfold codec_marshal, codec_unmarshal. cbv zeta.
  destruct (_ <? _); [|discriminate]. intros [= <-] _. rewrite digits_pos_digits, decode_encode. cbn [res_bind].
  rewrite (proj2 (Z.eqb_eq _ _)) by (unfold len; f_equal; apply length_map). cbn [negb]. eexists. split; [done|]. cbn. exact (numbered_fmap Metadata records).
Qed.

(** ** A running collection *)

Module Scenario.

(** One shard, one dimension, the exact index. *)
Definition config : CollectionConfig := mkConfig "docs" 1 MetricDot 1 Reference.sample_index "" ∅.

Definition item (id : string) (value : Z) : CoreRecord := mkCoreRecord id [value] ∅ ∅ ∅ 0 0 "" "" ∅ ∅.

Definition state : Type := Engine.t ExactIndexes.t Reference.filter_index unit.

(** Opening on a segment directory and a log file. *)
Definition open (F : gmap string (list Z)) (wal : option (list Z)) : res state :=
  Store.openCollection true (λ _, true) SyncAlways (λ _, None) (λ _, wal) [(mkDisk F [], mkDisk ∅ [])] config [].

Inductive command : Set :=
| Put (id : string) (value : Z)
| Remove (id : string)
| Checkpoint (faults : log_faults).

Definition execute (c : command) (s : state) : state * res unit :=
  match c with
  | Put id value =>
      let '(s, r) := Store.Upsert true (λ _, true) 0 quiet_log (item id value) 7 s in
      (s, let! _ := r in Ok tt)
  | Remove id => Store.Delete true (λ _, true) 0 quiet_log "" id s
  | Checkpoint faults => Store.Checkpoint true (λ _, true) (λ _, faults) s
  end.

Fixpoint run (commands : list command) (s : state) : state * list (res unit) :=
  match commands with
  | [] => (s, [])
  | c :: rest => let '(s, r) := execute c s in let '(s, rs) := run rest s in (s, r :: rs)
  end.

Definition keys (s : state) : list string := ID <$> Collection.Records (Engine.coll s).

(** What the commands answer, the records in memory afterwards, and what
    opening the files they leave gives. *)
Definition history (commands : list command) : res (list (res unit) * list string * res (list string)) :=
  let! s := open ∅ None in
  let '(s, answers) := run commands s in
  match Engine.stores s with
  | [st] =>
      match log st with
      | Some l => Ok (answers, keys s, let! s' := open (files (directory st)) (Some (content (file l))) in Ok (keys s'))
      | None => Err (Panic "no log")
      end
  | _ => Err (Panic "no store")
  end.

Definition one : Z := 1065353216.

(** The reset of the log fails after the manifest is saved. *)
Definition reset_fails : log_faults := mkLogFaults no_faults false (Some ResetTruncate).

(** Writes survive a checkpoint and reopening. *)
Example checkpoint_kept :
  history [Put "a" one; Checkpoint quiet_log] = Ok ([Ok tt; Ok tt], ["a"], Ok ["a"]).
Proof. vm_compute. reflexivity. Qed.

(** A record written and deleted between two checkpoints leaves a manifest
    whose LSN is not its last segment's, which no later start accepts. *)
Theorem net_empty_checkpoint_unreadable :
  history [Put "a" one; Checkpoint quiet_log; Put "b" one; Remove "b"; Checkpoint quiet_log]
  = Ok ([Ok tt; Ok tt; Ok tt; Ok tt; Ok tt], ["a"], Err (Errorf "multi-segment manifest LSN mismatch")).
Proof. vm_compute. reflexivity. Qed.

(** After a checkpoint whose reset of the log failed, the next one lists two
    segments of one LSN, which no later start accepts. *)
Theorem repeated_checkpoint_unreadable :
  history [Put "a" one; Checkpoint reset_fails; Checkpoint quiet_log]
  = Ok ([Ok tt; Err (IOError "truncate"); Ok tt], ["a"], Err (Errorf "invalid multi-segment entry")).
Proof. vm_compute. reflexivity. Qed.

(** After a checkpoint whose reset of the log failed, a deletion leaves no
    tombstone: the next checkpoint brings the record back in memory, and
    writes a manifest whose count no later start accepts. *)
Theorem failed_reset_resurrects :
  history [Put "a" one; Checkpoint quiet_log; Put "b" one; Checkpoint reset_fails; Remove "b"; Put "c" one; Checkpoint quiet_log]
  = Ok ([Ok tt; Ok tt; Ok tt; Err (IOError "truncate"); Ok tt; Ok tt; Ok tt], ["a"; "b"; "c"],
        Err (Errorf "multi-segment live record count mismatch")).
Proof. vm_compute. reflexivity. Qed.

End Scenario.
