(* ===== verification/EngineTheorems.v ===== *)
(** * Crash safety of the engine

    Whatever fails during a mutation or a checkpoint of a [live] collection,
    opening the files it leaves gives back the records the collection answers
    with. *)
From Stdlib Require Import ZArith Lia Ascii String.
From stdpp Require Import base tactics list gmap strings.
From S2P Require Import Prelude Wal Core CoreProofs Sha256 Float Distance TopK Index Segment SegmentProofs Shard ShardProofs Collection CollectionProofs Persistence Json Column Compaction SegmentFiles Multisegment SegmentIO ViewProofs MappedViews MappedIndex Sealed SealedProofs Checkpoint Engine CheckpointProofs EngineState EngineCheckpoint EngineMutations Flat Instances JsonInstances EngineInstances.
Local Set Warnings "-clear-no-such-hyp".
Local Open Scope string_scope.
Local Open Scope Z_scope.
Local Open Scope list_scope.

Lemma part_ext n M1 M2 : 0 < n < 2 ^ 32 → (∀ j, (j < Z.to_nat n)%nat → part n j M1 = part n j M2) → M1 = M2.
Proof.
  intros Hn H. apply map_eq. intros k. pose proof (route_bound n k Hn).
  specialize (H (Z.to_nat (Collection.route_of n k)) ltac:(lia)). apply (f_equal (lookup k)) in H.
  rewrite !part_lookup, !decide_True in H by done. done.
Qed.

(** The files [s] leaves behind: each shard's segment directory, a readable
    ledger beside it, and its log. *)
Definition left_by {I MI L : Type} `{!Json idempotencyLedger} (s : Engine.t I MI L) (disks : list (disk * disk)) (bytes : Z → option (list Z)) : Prop :=
  length disks = length (Engine.stores s) ∧
  ∀ j st, Engine.stores s !! j = Some st →
    (∃ lg, disks !! j = Some (mkDisk (files (directory st)) [], lg) ∧ readable_ledger lg) ∧
    ∃ l, log st = Some l ∧ bytes (Z.of_nat j) = Some (content (file l)).

(** The answer to [Get] when the records are [M]. *)
Definition answer (M : gmap string CoreRecord) (ns id : string) : res CoreRecord :=
  match M !! key ns id with Some r => Ok r | None => Err (Sentinel ErrNotFound) end.

Section Safety.
Context {I MI L : Type} `{!VectorIndex I, !VectorIndexSpec I, !MetadataIndex MI, !MetadataSpec MI,
  !LexicalIndex L, !IndexBuilders I, !IndexBuildersSpec I, !SealedBuilders I, !SealedSpec I, !FilterFiles MI, !FilterFilesSpec MI}.
Context `{!Json Manifest, !Json (list storedRecord), !Json (list string), !Json persistedIndex, !Json walMutation, !Json (list CoreRecord), !Json idempotencyLedger}.
Context `{!JsonSpec Manifest json_manifest, !JsonSpec (list storedRecord) (fmap json_stored), !JsonSpec (list string) (fmap json_string), !JsonSpec walMutation json_mutation}.
Context (cfg : CollectionConfig) (Hcfg : plain_config cfg).

Local Abbreviation collection := (Collection.t I MI L).
Local Abbreviation state := (Engine.t I MI L).

(** What opening the images of the shards gives. *)
Lemma open_images cfg0 (c0 : collection) images disks bytes sync bound :
  Normalized cfg0 = cfg → Collection.New cfg0 = Ok c0 → ShardCount cfg0 < 2 ^ 32 → Z.of_nat (length images) = ShardCount cfg →
  disk_of images disks → 2 * (ShardCount cfg * bound) + 3 < two64 → sync = SyncAlways ∨ sync = SyncAsync →
  (∀ j g, images !! j = Some g → image_ok cfg (ShardCount cfg) bound j g ∧ stored_as (bytes (Z.of_nat j)) (im_entries g)) →
  ∃ s M, Store.openCollection (I := I) (MI := MI) (L := L) true (λ _, true) sync (λ _, None) bytes disks cfg0 [] = Ok s ∧
    live cfg (2 * (ShardCount cfg * bound)) s M ∧ ∀ j g, images !! j = Some g → part (ShardCount cfg) j M = im_map g.
Proof.
  intros Hn Hnew Hcount Hlen Hdisk Hlt Hsync Him. rewrite <-Hlen in *.
  assert (Z.of_nat (length images) = len (Collection.shards c0)) as Hc0.
  { rewrite Hlen, <-Hn. change (ShardCount (Normalized cfg0)) with (ShardCount cfg0). unfold Collection.New in Hnew. cbv zeta in Hnew.
    destruct (Validate _) as [[]|] eqn:Ev; [|done]. cbn [res_bind] in Hnew.
    destruct (Collection.new_shards _ _) as [ss|] eqn:E; [|done]. cbn [res_bind] in Hnew. injection Hnew as <-. cbn [Collection.shards].
    destruct (new_shards_ok _ _ _ E) as [Hl _]. rewrite length_seq in Hl. pose proof (Validate_shards cfg0 Ev) as Hp.
    change (ShardCount (Normalized cfg0)) with (ShardCount cfg0) in *. unfold len. lia. }
  destruct (openCollection_ok cfg Hcfg cfg0 c0 images disks bytes sync bound Hn Hnew Hcount Hc0 Hdisk Hlt Hsync Him)
    as (s&Ho&[(M&Hinv&Hb&Hst) Q1 Q2 Q3]).
  exists s, M. split; [done|]. pose proof (ci_count _ _ Hinv) as Hpos.
  assert (len (Collection.shards (Engine.coll s)) = Z.of_nat (length images)) as El by (unfold len; lia).
  assert (∀ j g, images !! j = Some g → part (Z.of_nat (length images)) j M = im_map g) as Hparts.
  { intros j g Hg. destruct (Hst j g Hg) as (st&_&Hor). rewrite decide_True in Hor by (by eapply lookup_lt_Some). apply Hor. }
  split; [|done]. constructor; try done.
  - eapply budget_mono; [|exact Hb]. lia.
  - lia.
  - congruence.
  - intros j st Hj. destruct (lookup_lt_is_Some_2 images j) as [g Hg]; [rewrite <-Q3; by eapply lookup_lt_Some|].
    destruct (Hst j g Hg) as (st'&Hst'&Hor). rewrite decide_True in Hor by (by eapply lookup_lt_Some). destruct Hor as [Hl _].
    assert (st' = st) as -> by congruence. rewrite El, (Hparts j g Hg). eapply linked_mono; [done| |exact Hl].
    destruct (Him j g Hg) as [Hok _]. pose proof (du_size _ _ _ _ _ _ _ _ _ Hok). nia.
Qed.

(** The files of a kept collection are images of its shards. *)
Lemma kept_images b s M disks bytes :
  kept cfg b s M → left_by s disks bytes →
  ∃ images, Z.of_nat (length images) = ShardCount cfg ∧ disk_of images disks ∧
    ∀ j g, images !! j = Some g → image_ok cfg (ShardCount cfg) b j g ∧ stored_as (bytes (Z.of_nat j)) (im_entries g) ∧
      im_map g = part (ShardCount cfg) j M.
Proof.
  intros [K1 K2 K3 K4 K0 K5] [El Hd]. rewrite K0 in K5.
  assert (∃ images, Forall2 (λ (x : nat * store) g, im_files g = files (directory x.2) ∧ image_ok cfg (ShardCount cfg) b x.1 g ∧
    stored_as (bytes (Z.of_nat x.1)) (im_entries g) ∧ im_map g = part (ShardCount cfg) x.1 M) (imap pair (Engine.stores s)) images) as [images Him].
  { assert (∀ l : list (nat * store), (∀ x, x ∈ l → Engine.stores s !! x.1 = Some x.2) →
      ∃ images, Forall2 (λ (x : nat * store) g, im_files g = files (directory x.2) ∧ image_ok cfg (ShardCount cfg) b x.1 g ∧
        stored_as (bytes (Z.of_nat x.1)) (im_entries g) ∧ im_map g = part (ShardCount cfg) x.1 M) l images) as H.
    { induction l as [|[j st] l IH]; intros Hl; [by exists []|]. destruct IH as [images IH]; [intros x Hx; apply Hl; by right|].
      pose proof (Hl (j, st) ltac:(by left)) as Hj. cbn [fst snd] in Hj. destruct (K5 j st Hj) as (l0&rs&Hlog&Hcont&base&lsn&Hdur).
      destruct (Hd j st Hj) as [_ (l1&Hl1&Hb)]. assert (l1 = l0) as -> by congruence.
      exists (mkImage (files (directory st)) rs base lsn (part (ShardCount cfg) j M) :: images). constructor; [|done].
      split; [done|]. split; [exact Hdur|]. split; [|done]. right. exists []. cbn [im_entries fst]. rewrite app_nil_r, Hb, Hcont. split; [done|by left]. }
    apply H. intros [j st] Hx. apply list_elem_of_lookup in Hx as [k Hk]. rewrite list_lookup_imap in Hk.
    destruct (Engine.stores s !! k) eqn:E; [|done]. cbn in Hk. injection Hk as <- <-. exact E. }
  pose proof (Forall2_length _ _ _ Him) as Hlen. rewrite length_imap in Hlen. exists images.
  assert (∀ j g, images !! j = Some g → ∃ st, Engine.stores s !! j = Some st ∧ im_files g = files (directory st) ∧ image_ok cfg (ShardCount cfg) b j g ∧
    stored_as (bytes (Z.of_nat j)) (im_entries g) ∧ im_map g = part (ShardCount cfg) j M) as Hall.
  { intros j g Hg. destruct (Forall2_lookup_r _ _ _ _ _ Him Hg) as ([k st]&Hk&H). rewrite list_lookup_imap in Hk.
    destruct (Engine.stores s !! j) as [st'|] eqn:E; [|done]. cbn in Hk. injection Hk as <- <-. by exists st'. }
  split; [rewrite <-K0; unfold len; lia|]. split.
  - split; [lia|]. intros j g d Hg Hdj. destruct (Hall j g Hg) as (st&Hst&Hf&_). destruct (Hd j st Hst) as [(lg&Hlg&Hread) _].
    rewrite Hlg in Hdj. injection Hdj as <-. cbn [fst snd]. by rewrite Hf.
  - intros j g Hg. destruct (Hall j g Hg) as (st&_&_&H). done.
Qed.

(** Opening what a kept collection leaves gives its records. *)
Lemma kept_reopens b s M cfg0 (c0 : collection) disks bytes sync :
  kept cfg b s M → left_by s disks bytes → Normalized cfg0 = cfg → Collection.New cfg0 = Ok c0 → ShardCount cfg0 < 2 ^ 32 →
  2 * (ShardCount cfg * b) + 3 < two64 → sync = SyncAlways ∨ sync = SyncAsync →
  ∃ s', Store.openCollection (I := I) (MI := MI) (L := L) true (λ _, true) sync (λ _, None) bytes disks cfg0 [] = Ok s' ∧
    live cfg (2 * (ShardCount cfg * b)) s' M.
Proof.
  intros Hk Hleft Hn Hnew Hcount Hlt Hsync. destruct (kept_images b s M disks bytes Hk Hleft) as (images&Hlen&Hdisk&Him).
  destruct (open_images cfg0 c0 images disks bytes sync b) as (s'&M'&Ho&Hl&Hp); try done.
  { intros j g Hg. destruct (Him j g Hg) as (H1&H2&_). done. }
  exists s'. split; [done|]. assert (M' = M) as <-; [|done].
  pose proof (ci_count _ _ (kp_inv _ _ _ _ Hk)) as Hpos. rewrite (kp_count _ _ _ _ Hk) in Hpos. apply (part_ext (ShardCount cfg)); [done|].
  intros j Hj. destruct (lookup_lt_is_Some_2 images j ltac:(lia)) as [g Hg]. rewrite (Hp j g Hg). by destruct (Him j g Hg) as (_&_&->).
Qed.

Lemma kept_answers b s M ns id : kept cfg b s M → Collection.Get (Engine.coll s) ns id = answer M ns id.
Proof. intros Hk. apply coll_Get_ok, Hk. Qed.

Lemma live_answers b s M ns id : live cfg b s M → Collection.Get (Engine.coll s) ns id = answer M ns id.
Proof. intros Hk. apply coll_Get_ok, Hk. Qed.

(** Everything [s] leaves behind opens, with the records [M] and nothing
    else. *)
Definition reopens (cfg0 : CollectionConfig) (sync : SyncMode) (s : state) (M : gmap string CoreRecord) : Prop :=
  ∀ disks bytes, left_by s disks bytes →
    ∃ s', Store.openCollection (I := I) (MI := MI) (L := L) true (λ _, true) sync (λ _, None) bytes disks cfg0 [] = Ok s' ∧
      ∀ ns id, Collection.Get (Engine.coll s') ns id = answer M ns id.

Lemma kept_safe b s M cfg0 (c0 : collection) sync :
  kept cfg b s M → Normalized cfg0 = cfg → Collection.New cfg0 = Ok c0 → ShardCount cfg0 < 2 ^ 32 →
  2 * (ShardCount cfg * b) + 3 < two64 → sync = SyncAlways ∨ sync = SyncAsync →
  (∀ ns id, Collection.Get (Engine.coll s) ns id = answer M ns id) ∧ reopens cfg0 sync s M.
Proof.
  intros Hk Hn Hnew Hcount Hlt Hsync. split; [intros ns id; by eapply kept_answers|]. intros disks bytes Hleft.
  destruct (kept_reopens b s M cfg0 c0 disks bytes sync Hk Hleft Hn Hnew Hcount Hlt Hsync) as (s'&Ho&Hl). exists s'. split; [done|].
  intros ns id. by eapply live_answers.
Qed.

End Safety.

(** ** The theorems *)

Section Theorems.
Context {I MI L : Type} `{!VectorIndex I, !VectorIndexSpec I, !MetadataIndex MI, !MetadataSpec MI,
  !LexicalIndex L, !IndexBuilders I, !IndexBuildersSpec I, !SealedBuilders I, !SealedSpec I, !FilterFiles MI, !FilterFilesSpec MI}.
Context `{!Json Manifest, !Json (list storedRecord), !Json (list string), !Json persistedIndex, !Json walMutation, !Json (list CoreRecord), !Json idempotencyLedger}.
Context `{!JsonSpec Manifest json_manifest, !JsonSpec (list storedRecord) (fmap json_stored), !JsonSpec (list string) (fmap json_string), !JsonSpec walMutation json_mutation}.
Context (cfg0 : CollectionConfig) (c0 : Collection.t I MI L) (sync : SyncMode).
Context (Hcfg : plain_config (Normalized cfg0)) (Hnew : Collection.New cfg0 = Ok c0) (Hcount : ShardCount cfg0 < 2 ^ 32)
  (Hsync : sync = SyncAlways ∨ sync = SyncAsync).

Local Abbreviation state := (Engine.t I MI L).

Lemma count_positive : 0 < ShardCount cfg0.
Proof.
  clear Hcfg Hcount Hsync. unfold Collection.New in Hnew. cbv zeta in Hnew. destruct (Validate (Normalized cfg0)) as [[]|] eqn:E; [|done].
  apply (Validate_shards cfg0 E).
Qed.

(** C2. Recovery: whatever the shards' directories and logs hold of what the
    engine writes -- a view that covers the log up to some LSN, whole entries
    after or before it, and the torn start of one more -- opening the
    collection succeeds, [Get] answers from the view with the uncovered
    entries applied in order, and every shard is linked to its files. *)
Theorem open_recovers images disks bytes bound :
  Z.of_nat (length images) = ShardCount cfg0 → disk_of images disks → 2 * (ShardCount cfg0 * bound) + 3 < two64 →
  (∀ j g, images !! j = Some g →
     image_ok (Normalized cfg0) (ShardCount cfg0) bound j g ∧ stored_as (bytes (Z.of_nat j)) (im_entries g)) →
  ∃ s M, Store.openCollection (I := I) (MI := MI) (L := L) true (λ _, true) sync (λ _, None) bytes disks cfg0 [] = Ok s ∧
    live (Normalized cfg0) (2 * (ShardCount cfg0 * bound)) s M ∧
    ∀ j g ns id, images !! j = Some g → routed (ShardCount cfg0) j (key ns id) →
      Collection.Get (Engine.coll s) ns id = answer (replayed (im_lsn g) (im_base g) (im_entries g)) ns id.
Proof.
  intros Hlen Hdisk Hlt Him.
  destruct (open_images (Normalized cfg0) Hcfg cfg0 c0 images disks bytes sync bound) as (s&M&Ho&Hl&Hp); try done.
  exists s, M. split; [done|]. split; [done|]. intros j g ns id Hg Hr. rewrite (live_answers _ _ s M) by done.
  destruct (Him j g Hg) as [Hok _]. unfold answer. rewrite <-(du_map _ _ _ _ _ _ _ _ _ Hok), <-(Hp j g Hg). by rewrite routed_part.
Qed.

(** C3. A write is all or nothing: start from a collection every shard of
    which is linked to its files ([live]: as it is after opening, and as every
    write, deletion and checkpoint that succeeds leaves it; not after a
    checkpoint that has failed), and let any of the calls on the log, on the
    segment directory or on the manifest fail, save those that roll a failed
    append back ([undone]).  Then [Get] answers with the record, or (only
    when the write failed) as before, and the files left behind open to
    exactly these answers.  A write that succeeds is found again; one that
    fails without a checkpoint leaves no trace. *)
Theorem upsert_crash_safe every faults record now s M b s' r :
  live (Normalized cfg0) b s M → 2 * (ShardCount cfg0 * (b + 5)) < two64 → named_valid record → undone faults → log_room s →
  (∀ c1 stored, Collection.PrepareUpsert (Engine.coll s) record now = Ok (c1, stored) → durable stored ∧ filter_stable stored) →
  Store.Upsert true (λ _, true) every faults record now s = (s', r) →
  ∃ M', (∀ ns id, Collection.Get (Engine.coll s') ns id = answer M' ns id) ∧ reopens cfg0 sync s' M' ∧
    match r with
    | Ok stored => M' = <[record_key record := stored]> M ∧ live (Normalized cfg0) (b + 2) s' M'
    | Err _ => M' = M ∧ live (Normalized cfg0) (b + 2) s' M ∨
        0 < every ∧ ∃ stored, record_key stored = record_key record ∧ M' = <[record_key record := stored]> M
    end.
Proof.
  intros Hl Hlt Hnamed Hund Hroom Hdur E. pose proof count_positive as Hp. pose proof (bu_version _ _ _ (lv_budget _ _ _ _ Hl)) as Hb.
  pose proof (engine_upsert_ok (Normalized cfg0) Hcfg every faults record now s M b Hl ltac:(nia) Hnamed Hund Hroom Hdur) as H.
  assert (∀ M', kept (Normalized cfg0) (b + 2) s' M' →
    (∀ ns id, Collection.Get (Engine.coll s') ns id = answer M' ns id) ∧ reopens cfg0 sync s' M') as Hsafe.
  { intros M' Hk. eapply (kept_safe (Normalized cfg0) Hcfg (b + 2)); try done. change (ShardCount (Normalized cfg0)) with (ShardCount cfg0). nia. }
  assert (∀ M', live (Normalized cfg0) (b + 2) s' M' → kept (Normalized cfg0) (b + 2) s' M') as Hlk by (intros M' H'; by eapply live_kept).
  unfold post in H. rewrite E in H. destruct r as [stored|e].
  - destruct H as [_ Hl']. eexists. by destruct (Hsafe _ (Hlk _ Hl')).
  - destruct H as [Hl'|(He&stored&Ek&Hk)]; [exists M; destruct (Hsafe _ (Hlk _ Hl')); auto|]. eexists. destruct (Hsafe _ Hk) as [H1 H2].
    split; [exact H1|]. split; [exact H2|]. right. split; [done|]. by exists stored.
Qed.

(** C28. A deletion is all or nothing: start from a [live] collection and let
    any call fail, save those that roll a failed append back ([undone]);
    automatic checkpoints may be off, or on when the deletion leaves something
    to checkpoint ([something_left]; [net_empty_checkpoint_unreadable] is the
    other case).  Then [Get] answers without the record, or (only when the
    deletion failed) as before, and the files left behind open to exactly
    these answers.  A deletion that succeeds stays deleted; one that fails
    without a checkpoint leaves no trace. *)
Theorem delete_crash_safe every faults ns id s M b s' r :
  live (Normalized cfg0) b s M → 2 * (ShardCount cfg0 * (b + 5)) < two64 → undone faults → log_room s →
  id ≠ "" → json_string ns = ns → json_string id = id → every ≤ 0 ∨ something_left s ns id →
  Store.Delete true (λ _, true) every faults ns id s = (s', r) →
  ∃ M', (∀ ns id, Collection.Get (Engine.coll s') ns id = answer M' ns id) ∧ reopens cfg0 sync s' M' ∧
    match r with
    | Ok _ => M' = delete (key ns id) M ∧ live (Normalized cfg0) (b + 2) s' M'
    | Err _ => M' = M ∧ live (Normalized cfg0) (b + 2) s' M ∨ 0 < every ∧ M' = delete (key ns id) M
    end.
Proof.
  intros Hl Hlt Hund Hroom Hne Hns Hid Hev E. pose proof count_positive as Hp. pose proof (bu_version _ _ _ (lv_budget _ _ _ _ Hl)) as Hb.
  pose proof (engine_delete_ok (Normalized cfg0) Hcfg every faults ns id s M b Hl ltac:(nia) Hund Hroom Hne Hns Hid Hev) as H.
  assert (∀ M', kept (Normalized cfg0) (b + 2) s' M' →
    (∀ ns id, Collection.Get (Engine.coll s') ns id = answer M' ns id) ∧ reopens cfg0 sync s' M') as Hsafe.
  { intros M' Hk. eapply (kept_safe (Normalized cfg0) Hcfg (b + 2)); try done. change (ShardCount (Normalized cfg0)) with (ShardCount cfg0). nia. }
  assert (∀ M', live (Normalized cfg0) (b + 2) s' M' → kept (Normalized cfg0) (b + 2) s' M') as Hlk by (intros M' H'; by eapply live_kept).
  unfold post in H. rewrite E in H. destruct r as [x|e].
  - destruct H as [_ Hl']. eexists. by destruct (Hsafe _ (Hlk _ Hl')).
  - destruct H as [Hl'|[He Hk]]; [exists M; destruct (Hsafe _ (Hlk _ Hl')); auto|]. eexists. destruct (Hsafe _ Hk) as [H1 H2].
    split; [exact H1|]. split; [exact H2|]. by right.
Qed.

(** C4. A checkpoint changes no answer: of a [live] collection whose mutations
    since the last checkpoint do not cancel out ([net_change]), whichever step
    of it fails -- the sync of the log, any write, sync or rename of a segment
    file or of the manifest, the reset of the log, a removal -- [Get] answers
    as before, and so does the collection opened from the files the
    checkpoint leaves; one that succeeds leaves the collection [live].
    [net_empty_checkpoint_unreadable], [repeated_checkpoint_unreadable] and
    [failed_reset_resurrects] are what the two conditions leave out: changes
    that cancel out, and a second checkpoint after one that failed. *)
Theorem checkpoint_crash_safe faults i s M b s' r :
  live (Normalized cfg0) b s M → 2 * (ShardCount cfg0 * (b + 5)) < two64 → (i < length (Engine.stores s))%nat →
  (∀ st, Engine.stores s !! i = Some st → net_change (Engine.coll s) i st) →
  Engine.checkpointShardLocked true faults (Z.of_nat i) s = (s', r) →
  (∀ ns id, Collection.Get (Engine.coll s') ns id = Collection.Get (Engine.coll s) ns id) ∧ reopens cfg0 sync s' M ∧
  (r = Ok tt → live (Normalized cfg0) b s' M).
Proof.
  intros Hl Hlt Hi Hnet E. pose proof count_positive as Hp. pose proof (bu_version _ _ _ (lv_budget _ _ _ _ Hl)) as Hb.
  destruct (lookup_lt_is_Some_2 _ _ Hi) as [st Hst].
  pose proof (checkpoint_ok (Normalized cfg0) Hcfg faults i (Engine.stores s) (Engine.coll s) M b b st Hi (lv_config _ _ _ _ Hl) (lv_inv _ _ _ _ Hl)
    (lv_budget _ _ _ _ Hl) ltac:(nia) ltac:(lia) (lv_linked _ _ _ _ Hl i st Hst) (Hnet st Hst)) as H.
  rewrite <-(focus_same i s st Hst) in H. unfold post in H. rewrite E in H.
  assert (kept (Normalized cfg0) b s' M ∧ (r = Ok tt → live (Normalized cfg0) b s' M)) as [Hk Hr].
  { destruct r as [[]|e].
    - destruct H as (c'&st'&->&G1&G2&G3&G4). assert (live (Normalized cfg0) b (focus i (Engine.stores s) c' st') M) as Hl' by (by apply live_replace).
      split; [by eapply live_kept|done].
    - destruct H as (c'&st'&rs&l&->&G1&G2&G3&G4&G5&G6). split; [by eapply kept_replace|done]. }
  destruct (kept_safe (Normalized cfg0) Hcfg b s' M cfg0 c0 sync Hk) as [Hget Hre]; try done.
  { change (ShardCount (Normalized cfg0)) with (ShardCount cfg0). nia. }
  split; [|done]. intros ns id. by rewrite Hget, (live_answers (Normalized cfg0) b s M).
Qed.

End Theorems.

(** ** Witnesses *)

Module Witnesses.
Import Scenario.

Definition cfg : CollectionConfig := Normalized config.

Lemma plain : plain_config cfg.
Proof. constructor; vm_compute; done. Qed.

Lemma new_exists : ∃ c, Collection.New (I := ExactIndexes.t) (MI := Reference.filter_index) (L := unit) config = Ok c.
Proof. eexists. vm_compute. reflexivity. Qed.

(** An image of a shard without files. *)
Definition blank : image := mkImage ∅ [] ∅ 0 ∅.

Lemma blank_ok i : image_ok cfg 1 0 i blank.
Proof.
  constructor; cbn [blank im_files im_entries im_base im_lsn im_map]; try done; try (constructor; done); try apply shard_map_empty; try by left.
Qed.

Lemma ledger_readable : readable_ledger (mkDisk ∅ []).
Proof. exists (mkDisk ∅ []), ∅. vm_compute. reflexivity. Qed.

Lemma single_disk g : disk_of [g] [(mkDisk (im_files g) [], mkDisk ∅ [])].
Proof.
  split; [done|]. intros [|j] g' d; [|done]. intros [= <-] [= <-]. split; [done|apply ledger_readable].
Qed.

Lemma opened : ∃ s, open ∅ None = Ok s ∧ live cfg 0 s ∅.
Proof.
  destruct new_exists as [c Hc].
  destruct (open_images cfg plain config c [blank] [(mkDisk ∅ [], mkDisk ∅ [])] (λ _, None) SyncAlways 0) as (s&M&Ho&Hl&Hp); [done|exact Hc|done|done|apply (single_disk blank)|done|by left|..].
  - intros [|j] g; [|done]. intros [= <-]. split; [apply blank_ok|by left].
  - exists s. split; [done|]. specialize (Hp 0%nat blank eq_refl). assert (M = ∅) as ->; [|done].
    apply (part_ext 1); [done|]. intros j Hj. assert (j = 0%nat) as -> by lia. rewrite part_empty. exact Hp.
Qed.

Definition a_stored : CoreRecord := Collection.stamp (item "a" one) 1 7.

Lemma a_durable : durable a_stored ∧ filter_stable a_stored.
Proof. split; [|done]. split; [split; vm_compute; reflexivity|]. apply Forall_singleton. cbn. unfold one. lia. Qed.

Lemma a_named : named_valid (item "a" one).
Proof. split; intros k v; cbn [item rec_Vectors MultiVectors]; by rewrite lookup_empty. Qed.


(** The record ["a"] written to the empty collection. *)
Definition write (every : Z) (faults : log_faults) (s : Scenario.state) : Scenario.state * res CoreRecord :=
  Store.Upsert true (λ _, true) every faults (item "a" one) 7 s.

Lemma empty_room s : open ∅ None = Ok s → log_room s.
Proof.
  intros Ho j st l Hst Hl. vm_compute in Ho. injection Ho as <-. destruct j as [|j]; [|by destruct j].
  injection Hst as <-. injection Hl as <-. vm_compute. reflexivity.
Qed.

Lemma empty_prepares s c1 stored :
  open ∅ None = Ok s → Collection.PrepareUpsert (Engine.coll s) (item "a" one) 7 = Ok (c1, stored) → durable stored ∧ filter_stable stored.
Proof.
  intros Ho Hp. assert (stored = a_stored) as ->; [|apply a_durable]. vm_compute in Ho. injection Ho as <-.
  assert (snd <$> Some (c1, stored) = Some stored) as E by done. vm_compute in Hp. injection Hp as _ <-. vm_compute. reflexivity.
Qed.

Lemma quiet_undone faults : append_faults faults = no_faults → undone faults.
Proof. unfold undone. by intros ->. Qed.

Lemma written_every every : every = 0 ∨ every = 1 →
  ∃ s s', open ∅ None = Ok s ∧ write every quiet_log s = (s', Ok a_stored) ∧ live cfg 2 s' {[key "" "a" := a_stored]}.
Proof.
  intros Hev. destruct opened as (s&Ho&Hl). exists s. destruct (write every quiet_log s) as [s' r] eqn:E. exists s'. split; [done|].
  assert (r = Ok a_stored) as ->.
  { assert (Ho' := Ho). vm_compute in Ho'. injection Ho' as <-. change r with (s', r).2. rewrite <-E. destruct Hev as [->| ->]; vm_compute; reflexivity. }
  split; [done|]. pose proof (engine_upsert_ok cfg plain every quiet_log (item "a" one) 7 s ∅ 0 Hl eq_refl a_named (quiet_undone quiet_log eq_refl) (empty_room s Ho)
    (λ c1 stored, empty_prepares s c1 stored Ho)) as H.
  unfold post in H. unfold write in E. rewrite E in H. destruct H as [_ H]. change (record_key (item "a" one)) with (key "" "a") in H. by rewrite insert_empty in H.
Qed.

Lemma written : ∃ s s', open ∅ None = Ok s ∧ write 0 quiet_log s = (s', Ok a_stored) ∧ live cfg 2 s' {[key "" "a" := a_stored]}.
Proof. apply written_every. by left. Qed.

(** The reset of the log fails: the write answers an error, and is found. *)
Lemma upsert_crash_safe_witness :
  ∃ s s', open ∅ None = Ok s ∧ write 1 reset_fails s = (s', Err (IOError "truncate")) ∧
    ∃ M', reopens config SyncAlways s' M' ∧ ∀ ns id, Collection.Get (Engine.coll s') ns id = answer M' ns id.
Proof.
  destruct opened as (s&Ho&Hl). destruct new_exists as [c Hc]. exists s. destruct (write 1 reset_fails s) as [s' r] eqn:E. exists s'. split; [done|].
  destruct (upsert_crash_safe config c SyncAlways plain Hc eq_refl (or_introl eq_refl) 1 reset_fails (item "a" one) 7 s ∅ 0 s' r Hl eq_refl a_named
    (quiet_undone reset_fails eq_refl) (empty_room s Ho) (λ c1 stored, empty_prepares s c1 stored Ho) E) as (M'&Hget&Hre&_).
  split; [|by exists M']. f_equal. vm_compute in Ho. injection Ho as <-. change r with (s', r).2. rewrite <-E. vm_compute. reflexivity.
Defined.

(** [log_room] and [net_change], computed. *)
Definition room_of (s : Scenario.state) : bool :=
  forallb (λ st, match log st with Some l => nextLSN l + 1 <? two64 | None => true end) (Engine.stores s).

Lemma room_of_ok s : room_of s = true → log_room s.
Proof.
  unfold room_of. intros H j st l Hst Hl. rewrite forallb_forall in H. apply list_elem_of_lookup_2, list_elem_of_In in Hst.
  specialize (H st Hst). rewrite Hl in H. lia.
Qed.

Definition changed (s : Scenario.state) : bool :=
  match Collection.ShardCheckpointDelta (Engine.coll s) 0 with Ok ([], []) => false | _ => true end.

Lemma changed_ok s st : changed s = true → net_change (Engine.coll s) 0 st.
Proof. unfold changed, net_change. change (Z.of_nat 0) with 0. intros H E. by rewrite E in H. Qed.

Definition left_of (s : Scenario.state) (ns id : string) : bool :=
  match Collection.ShardCheckpointDelta (Collection.ApplyDelete (Engine.coll s) ns id).1 (Collection.RouteShard (Engine.coll s) ns id) with
  | Ok ([], []) => false
  | _ => true
  end.

Lemma left_of_ok s ns id : left_of s ns id = true → something_left s ns id.
Proof. unfold left_of, something_left. by destruct (Collection.ShardCheckpointDelta _ _) as [[[] []]|]. Qed.

Lemma written_state every s s' (f : Scenario.state → bool) :
  open ∅ None = Ok s → write every quiet_log s = (s', Ok a_stored) →
  match open ∅ None with Ok s => f (write every quiet_log s).1 | Err _ => false end = true → f s' = true.
Proof. intros Ho Hw. by rewrite Ho, Hw. Qed.

Lemma written_room s s' : open ∅ None = Ok s → write 0 quiet_log s = (s', Ok a_stored) → log_room s'.
Proof. intros Ho Hw. apply room_of_ok, (written_state _ s s' _ Ho Hw). vm_compute. reflexivity. Qed.

(** The error a computation on the written state ends with. *)
Definition fails {A} (e : error) (r : res A) : bool := match r with Err e' => bool_decide (e = e') | Ok _ => false end.

Lemma fails_ok {A} e (r : res A) : fails e r = true → r = Err e.
Proof. destruct r; [done|]. by intros ->%bool_decide_eq_true_1. Qed.

(** The record was written and checkpointed; the deletion is logged, and the
    checkpoint it is due for fails to reset the log: an error, and the record
    is gone, also after a restart. *)
Lemma delete_crash_safe_witness :
  ∃ s s' s'', open ∅ None = Ok s ∧ write 1 quiet_log s = (s', Ok a_stored) ∧
    Store.Delete true (λ _, true) 1 reset_fails "" "a" s' = (s'', Err (IOError "truncate")) ∧
    ∃ M', reopens config SyncAlways s'' M' ∧ ∀ ns id, Collection.Get (Engine.coll s'') ns id = answer M' ns id.
Proof.
  destruct (written_every 1) as (s&s'&Ho&Hw&Hl); [by right|]. destruct new_exists as [c Hc]. exists s, s'.
  destruct (Store.Delete true (λ _, true) 1 reset_fails "" "a" s') as [s'' r] eqn:E. exists s''. split; [done|]. split; [done|].
  assert (log_room s') as Hroom by (apply room_of_ok, (written_state _ s s' _ Ho Hw); vm_compute; reflexivity).
  assert (something_left s' "" "a") as Hleft.
  { apply left_of_ok, (written_state _ s s' (λ s', left_of s' "" "a") Ho Hw). vm_compute. reflexivity. }
  destruct (delete_crash_safe config c SyncAlways plain Hc eq_refl (or_introl eq_refl) 1 reset_fails "" "a" s' {[key "" "a" := a_stored]} 2 s'' r Hl eq_refl
    (quiet_undone reset_fails eq_refl) Hroom ltac:(done) eq_refl eq_refl (or_intror Hleft) E) as (M'&Hget&Hre&_).
  split; [|by exists M']. f_equal. change r with (s'', r).2. rewrite <-E. apply fails_ok.
  apply (written_state _ s s' (λ s', fails _ (Store.Delete true (λ _, true) 1 reset_fails "" "a" s').2) Ho Hw). vm_compute. reflexivity.
Defined.

(** The checkpoint saves its manifest and fails to reset the log. *)
Lemma checkpoint_crash_safe_witness :
  ∃ s s' s'', open ∅ None = Ok s ∧ write 0 quiet_log s = (s', Ok a_stored) ∧
    Engine.checkpointShardLocked true reset_fails 0 s' = (s'', Err (IOError "truncate")) ∧ reopens config SyncAlways s'' {[key "" "a" := a_stored]}.
Proof.
  destruct written as (s&s'&Ho&Hw&Hl). destruct new_exists as [c Hc]. exists s, s'.
  destruct (Engine.checkpointShardLocked true reset_fails 0 s') as [s'' r] eqn:E. exists s''. split; [done|]. split; [done|].
  assert (0 < length (Engine.stores s'))%nat as Hlen by (rewrite (lv_stores _ _ _ _ Hl); pose proof (lv_count _ _ _ _ Hl) as Hn;
    unfold len in Hn; change (ShardCount cfg) with 1 in Hn; lia).
  destruct (checkpoint_crash_safe config c SyncAlways plain Hc eq_refl (or_introl eq_refl) reset_fails 0 s' {[key "" "a" := a_stored]} 2 s'' r Hl eq_refl Hlen)
    as (_&Hre&_); [|exact E|].
  - intros st _. apply changed_ok, (written_state _ s s' _ Ho Hw). vm_compute. reflexivity.
  - split; [|done]. f_equal. change r with (s'', r).2. rewrite <-E. apply fails_ok.
    apply (written_state _ s s' (λ s', fails _ (Engine.checkpointShardLocked true reset_fails 0 s').2) Ho Hw). vm_compute. reflexivity.
Defined.

(** A log with one entry, and the start of a second, beside an empty
    directory. *)
Lemma entry_exists : ∃ payload, json_Marshal (mkMutation (Some a_stored) [] "" "") = Ok payload ∧ len payload ≤ maximumPayload.
Proof.
  assert (match json_Marshal (mkMutation (Some a_stored) [] "" "") with Ok p => len p <=? maximumPayload | Err _ => false end = true) as H by (vm_compute; reflexivity).
  destruct (json_Marshal _) as [p|]; [|done]. exists p. split; [done|lia].
Qed.

Definition logged (payload : list Z) : image :=
  mkImage ∅ [Wal.mkRecord 1 OperationUpsert payload] ∅ 0 {[key "" "a" := a_stored]}.

Lemma a_storable : storable cfg a_stored.
Proof. destruct a_durable as [Hd Hf]. constructor; [split_and!; vm_compute; done|vm_compute; reflexivity|done|done]. Qed.

Lemma entry_record lsn payload :
  json_Marshal (mkMutation (Some a_stored) [] "" "") = Ok payload → len payload ≤ maximumPayload → 0 < lsn < 3 →
  record_ok (Wal.mkRecord lsn OperationUpsert payload).
Proof. intros Hm Hl Hs. constructor; [done|exact Hl|by eapply json_bytes|cbn; unfold two64; lia]. Qed.

Lemma logged_ok payload :
  json_Marshal (mkMutation (Some a_stored) [] "" "") = Ok payload → len payload ≤ maximumPayload → image_ok cfg 1 1 0 (logged payload).
Proof.
  intros Hm Hl.
  assert (routed 1 0 (record_key a_stored)) as Hr by (vm_compute; reflexivity). assert (Version a_stored ≤ 1) as Hv by (vm_compute; discriminate).
  destruct (upsert_entry cfg 1 0 1 a_stored payload 1 a_storable Hr Hv Hm) as (He&Hw&Heff).
  unfold image_ok, logged. cbn [im_files im_entries im_base im_lsn im_map]. constructor.
  - by left.
  - apply shard_map_empty.
  - apply Forall_singleton. by apply entry_record.
  - split; [by left|done].
  - cbn [last_lsn LSN]. unfold two64. lia.
  - by apply Forall_singleton.
  - right. cbn [last_lsn LSN]. lia.
  - unfold two64. lia.
  - unfold replayed. cbn [foldl LSN]. rewrite Heff. by rewrite insert_empty.
  - rewrite map_size_empty. lia.
  - unfold total_work. cbn [foldr]. lia.
Qed.

Lemma open_recovers_witness :
  ∃ payload s, json_Marshal (mkMutation (Some a_stored) [] "" "") = Ok payload ∧
    open ∅ (Some (encode_log [Wal.mkRecord 1 OperationUpsert payload] ++ take 5 (frame (Wal.mkRecord 2 OperationUpsert payload)))) = Ok s ∧
    Collection.Get (Engine.coll s) "" "a" = Ok a_stored ∧ Collection.Get (Engine.coll s) "" "b" = Err (Sentinel ErrNotFound).
Proof.
  destruct entry_exists as (payload&Hm&Hl). exists payload. destruct new_exists as [c Hc].
  destruct (open_recovers config c SyncAlways plain Hc eq_refl (or_introl eq_refl) [logged payload] [(mkDisk ∅ [], mkDisk ∅ [])]
    (λ _, Some (encode_log [Wal.mkRecord 1 OperationUpsert payload] ++ take 5 (frame (Wal.mkRecord 2 OperationUpsert payload)))) 1)
    as (s&M&Ho&_&Hg); [done|apply (single_disk (logged payload))|done| |].
  - intros [|j] g; [|done]. intros [= <-]. split; [by apply logged_ok|]. right. eexists. split; [done|]. right.
    exists (Wal.mkRecord 2 OperationUpsert payload), 5%nat. split; [by apply entry_record|]. split; [by right|]. split; [rewrite length_frame; lia|done].
  - exists s. split; [done|]. split; [exact Ho|].
    assert (replayed 0 ∅ [Wal.mkRecord 1 OperationUpsert payload] = {[key "" "a" := a_stored]}) as Er by (symmetry; apply (logged_ok payload Hm Hl)).
    split; (rewrite (Hg 0%nat (logged payload)); [|done|vm_compute; reflexivity]); unfold answer; cbn [logged im_lsn im_base im_entries]; rewrite Er.
    + by rewrite lookup_singleton_eq.
    + rewrite lookup_singleton_ne; [done|]. vm_compute. discriminate.
Defined.

End Witnesses.
