(* ===== verification/Hnsw.v ===== *)
(** * The HNSW index

    [internal/index/hnsw/hnsw.go], [build.go] and [graph.go]: the graph,
    greedy descent, layer search over two heaps, neighbour selection,
    insertion, deletion, rebuilding, batches, and the persisted topology.

    Ordinals, layers and levels are [nat] (a level is minus the logarithm of
    a number of at most 1, over a logarithm of at least 2), and the entry -1
    is [None].  Reading out of range, where Go panics, gives a default;
    [HnswProofs.v] and [HnswGraph.v] show that no graph built or loaded has a
    link, an entry or a mark out of range.  The loops of [greedy] and
    [explore] carry fuel, which those files show is enough.

    A batch of [parallelBuildThreshold] vectors or more is linked by several
    goroutines and depends on their schedule; the class [Scheduler] is that
    dependence, and [link_next] the body each of them runs. *)
From Stdlib Require Import ZArith Lia Ascii String.
From stdpp Require Import base tactics list gmap strings.
From S2P Require Import Prelude Wal Core Distance Float TopK Index Lexical.
Local Open Scope string_scope.
Local Open Scope Z_scope.
Local Open Scope list_scope.

Record scored : Set := mkScored { s_ordinal : nat; s_score : Z }.

#[global] Instance scored_eq_dec : EqDecision scored.
Proof. solve_decision. Defined.

(** [a >= b] *)
Definition f32_geb (a b : Z) : bool := f32_ltb b a || f32_eqb a b.

(** ** The two heaps

    [maxPush], [maxPop] and [minPush], [minPop], [minFixRoot] are the same
    code over two comparisons: [settled], which stops a sift, and [above],
    which chooses a child.  They differ on NaN. *)
Module ScoredHeap.
Section Heap.
Context (settled above : scored → scored → bool).

Fixpoint lift (fuel : nat) (h : list scored) (position : nat) : list scored :=
  match fuel with
  | O => h
  | S fuel =>
      if (position =? 0)%nat then h
      else
        let parent := parent_of position in
        match h !! parent, h !! position with
        | Some p, Some c => if settled p c then h else lift fuel (swap h parent position) parent
        | _, _ => h
        end
  end.

Definition push (h : list scored) (value : scored) : list scored := lift (S (length h)) (h ++ [value]) (length h).

Definition child_of (h : list scored) (position : nat) : option nat :=
  let left_ := (position * 2 + 1)%nat in
  match h !! left_ with
  | None => None
  | Some l =>
      match h !! S left_ with
      | Some r => Some (if above r l then S left_ else left_)
      | None => Some left_
      end
  end.

Fixpoint sink (fuel : nat) (h : list scored) (position : nat) : list scored :=
  match fuel with
  | O => h
  | S fuel =>
      match child_of h position with
      | None => h
      | Some child =>
          match h !! position, h !! child with
          | Some x, Some c => if settled x c then h else sink fuel (swap h position child) child
          | _, _ => h
          end
      end
  end.

Definition pop (h : list scored) : option (scored * list scored) :=
  match h with
  | [] => None
  | result :: _ =>
      let last := (length h - 1)%nat in
      let moved := match h !! last with Some y => <[0%nat := y]> h | None => h end in
      Some (result, sink last (take last moved) 0)
  end.

Definition fixRoot (h : list scored) : list scored := sink (length h) h 0.

End Heap.
End ScoredHeap.

Definition max_settled (a b : scored) : bool := f32_geb (s_score a) (s_score b).
Definition max_above (a b : scored) : bool := f32_ltb (s_score b) (s_score a).
Definition maxPush : list scored → scored → list scored := ScoredHeap.push max_settled.
Definition maxPop : list scored → option (scored * list scored) := ScoredHeap.pop max_settled max_above.

Definition min_settled (a b : scored) : bool := f32_geb (s_score b) (s_score a).
Definition min_above (a b : scored) : bool := f32_ltb (s_score a) (s_score b).
Definition minPush : list scored → scored → list scored := ScoredHeap.push min_settled.
Definition minPop : list scored → option (scored * list scored) := ScoredHeap.pop min_settled min_above.
Definition minFixRoot : list scored → list scored := ScoredHeap.fixRoot min_settled min_above.

(** ** Visited marks *)

(** An inserter's marks carry the generation of their search; a query keeps
    a set. *)
Inductive marks : Type :=
| Marks (visitedMarks : list Z) (generation : Z)
| Visited (visited : gset nat).

Definition is_visited (seen : marks) (ordinal : nat) : bool :=
  match seen with
  | Marks visitedMarks generation => match visitedMarks !! ordinal with Some mark => mark =? generation | None => false end
  | Visited visited => bool_decide (ordinal ∈ visited)
  end.

Definition visit (seen : marks) (ordinal : nat) : marks :=
  match seen with
  | Marks visitedMarks generation => Marks (<[ordinal := generation]> visitedMarks) generation
  | Visited visited => Visited ({[ordinal]} ∪ visited)
  end.

Record scratch : Set := mkScratch { visited : list Z; generation : Z }.

Definition next (s : scratch) : scratch :=
  let generation := u32 (generation s + 1) in
  if generation =? 0 then mkScratch (replicate (length (visited s)) 0) 1 else mkScratch (visited s) generation.

(** ** Searching one layer of a graph *)

Section Search.
Context (ident : nat → Z) (score : nat → Z) (links : nat → list nat).

(** Best first: the higher score, then the smaller id. *)
Definition ranks_before (a b : scored) : bool :=
  f32_ltb (s_score b) (s_score a)
  || (f32_eqb (s_score a) (s_score b) && (ident (s_ordinal a) <? ident (s_ordinal b))).

Definition greedy_step (state : nat * Z * bool) (neighbor : nat) : nat * Z * bool :=
  let '(current, currentScore, changed) := state in
  let value := score neighbor in
  if f32_ltb currentScore value || (f32_eqb value currentScore && (ident neighbor <? ident current))
  then (neighbor, value, true)
  else (current, currentScore, changed).

Fixpoint greedy_from (fuel : nat) (current : nat) (currentScore : Z) : nat :=
  match fuel with
  | O => current
  | S fuel =>
      let '(next, nextScore, changed) := foldl greedy_step (current, currentScore, false) (links current) in
      if changed then greedy_from fuel next nextScore else next
  end.

Record search_state : Type := mkSearch { frontier : list scored; best : list scored; seen : marks }.

Context (ef : nat) (excluded : option nat) (accept : nat → bool).

Definition enter (state : search_state) (entry : nat) : search_state :=
  if bool_decide (excluded = Some entry) then state
  else
    let value := mkScored entry (score entry) in
    mkSearch (maxPush (frontier state) value)
      (if accept entry then minPush (best state) value else best state)
      (visit (seen state) entry).

(** [score < best[0].score] *)
Definition below_worst (value : scored) (best : list scored) : bool :=
  match best !! 0%nat with Some worst => f32_ltb (s_score value) (s_score worst) | None => false end.

Definition above_worst (value : scored) (best : list scored) : bool :=
  match best !! 0%nat with Some worst => f32_ltb (s_score worst) (s_score value) | None => false end.

Definition keep (best : list scored) (value : scored) : list scored :=
  let best := minPush best value in
  if (ef <? length best)%nat then match minPop best with Some (_, best) => best | None => best end else best.

Definition look_at (state : search_state) (neighbor : nat) : search_state :=
  if bool_decide (excluded = Some neighbor) || is_visited (seen state) neighbor then state
  else
    let marked := visit (seen state) neighbor in
    let value := mkScored neighbor (score neighbor) in
    if (length (best state) <? ef)%nat || above_worst value (best state) then
      mkSearch (maxPush (frontier state) value)
        (if accept neighbor then keep (best state) value else best state) marked
    else mkSearch (frontier state) (best state) marked.

Fixpoint explore (fuel : nat) (state : search_state) : search_state :=
  match fuel with
  | O => state
  | S fuel =>
      match maxPop (frontier state) with
      | None => state
      | Some (candidate, rest) =>
          let state := mkSearch rest (best state) (seen state) in
          if (ef <=? length (best state))%nat && below_worst candidate (best state) then state
          else explore fuel (foldl look_at state (links (s_ordinal candidate)))
      end
  end.

(** The candidates found, best first, and the marks left. *)
Definition search_layer (fuel : nat) (entries : list nat) (start : marks) : list scored * marks :=
  let state := explore fuel (foldl enter (mkSearch [] [] start) entries) in
  (sort_slice ranks_before (best state), seen state).
End Search.

(** ** Neighbour selection *)

Fixpoint select_diverse (between : nat → nat → Z) (deleted : nat → bool) (limit : nat) (candidates : list scored)
    (result pruned : list nat) : list nat * list nat :=
  match candidates with
  | [] => (result, pruned)
  | candidate :: rest =>
      if (length result =? limit)%nat then (result, pruned)
      else if deleted (s_ordinal candidate) then select_diverse between deleted limit rest result pruned
      else if existsb (λ kept, f32_ltb (s_score candidate) (between (s_ordinal candidate) kept)) result
      then select_diverse between deleted limit rest result (pruned ++ [s_ordinal candidate])
      else select_diverse between deleted limit rest (result ++ [s_ordinal candidate]) pruned
  end.

(** The diverse candidates, then the closest of the others. *)
Definition select_neighbors (between : nat → nat → Z) (deleted : nat → bool) (candidates : list scored) (limit : nat) : list nat :=
  let '(result, pruned) := select_diverse between deleted limit candidates [] [] in
  result ++ take (limit - length result) pruned.

(** ** The index *)

Definition parallelBuildThreshold : nat := 2048.

(** [int(x)] of a [float64] that is not negative. *)
Definition f64_to_nat (bits : Z) : nat :=
  match SpecFloat.SFcompare (f64_decode bits) (SpecFloat.S754_zero false), f64_decode bits with
  | Some Gt, SpecFloat.S754_finite false mantissa exponent =>
      Z.to_nat (if exponent <? 0 then Z.shiftr (Zpos mantissa) (- exponent) else Z.shiftl (Zpos mantissa) exponent)
  | _, _ => 0%nat
  end.

(** The bits a level is drawn from. *)
Definition mix (id : Z) : Z :=
  let x := u64 (id + 0x9e3779b97f4a7c15) in
  let x := u64 (Z.lxor x (Z.shiftr x 30) * 0xbf58476d1ce4e5b9) in
  let x := u64 (Z.lxor x (Z.shiftr x 27) * 0x94d049bb133111eb) in
  Z.lxor x (Z.shiftr x 31).

Definition deterministicLevel `{!LogExp} (id m : Z) : nat :=
  let uniform := f64_div (f64_add (f64_of_int (Z.shiftr (mix id) 11)) f64_half) (f64_of_int (2 ^ 53)) in
  Nat.min (f64_to_nat (f64_div (f64_sub f64_zero (math_Log uniform)) (math_Log (f64_of_int m)))) 32.

Record Stats : Set := mkStats {
  Type_ : string;
  Vectors_ : Z;
  VectorBytes : Z;
  GraphBytes : Z;
  GraphEdges : Z;
  Deleted : Z;
  MaximumLevel : Z;
}.

Module Hnsw.

Record node : Set := mkNode { n_id : Z; n_level : nat; n_deleted : bool; n_neighbors : list (list nat) }.

Record t : Set := mk {
  dimension : Z;
  metric : string;
  m : Z;
  efConstruction : Z;
  efSearch : Z;
  vectors : list Z;
  squaredNorms : list Z;
  nodes : list node;
  packed : option (list (list nat) * list nat);
  immutableGraph : bool;
  ordinals : gmap Z nat;
  entry : option nat;
  maxLevel : nat;
  live : Z;
  construction : scratch;
}.

Definition invalid_config (cfg : Config) : bool :=
  (cfg_Dimension cfg <=? 0) || negb (Metric_Valid (cfg_Metric cfg)) || (cfg_M cfg <? 2)
  || (cfg_EFConstruction cfg <? cfg_M cfg) || (cfg_EFSearch cfg <? 1).

(** No entry; [maxLevel] is then -1 in the source, and not read. *)
Definition New (cfg : Config) : res t :=
  if invalid_config cfg then invalid "invalid hnsw configuration"
  else Ok (mk (cfg_Dimension cfg) (cfg_Metric cfg) (cfg_M cfg) (cfg_EFConstruction cfg) (cfg_EFSearch cfg)
             [] [] [] None false ∅ None 0 0 (mkScratch [] 0)).

Definition set_nodes (h : t) (nodes : list node) : t :=
  mk (dimension h) (metric h) (m h) (efConstruction h) (efSearch h) (vectors h) (squaredNorms h) nodes (packed h)
    (immutableGraph h) (ordinals h) (entry h) (maxLevel h) (live h) (construction h).

Definition set_entry (h : t) (ordinal level : nat) : t :=
  mk (dimension h) (metric h) (m h) (efConstruction h) (efSearch h) (vectors h) (squaredNorms h) (nodes h) (packed h)
    (immutableGraph h) (ordinals h) (Some ordinal) level (live h) (construction h).

Definition set_construction (h : t) (s : scratch) : t :=
  mk (dimension h) (metric h) (m h) (efConstruction h) (efSearch h) (vectors h) (squaredNorms h) (nodes h) (packed h)
    (immutableGraph h) (ordinals h) (entry h) (maxLevel h) (live h) s.

Definition set_vectors (h : t) (vectors : list Z) : t :=
  mk (dimension h) (metric h) (m h) (efConstruction h) (efSearch h) vectors (squaredNorms h) (nodes h) (packed h)
    (immutableGraph h) (ordinals h) (entry h) (maxLevel h) (live h) (construction h).

Definition vectorAt (h : t) (ordinal : nat) : list Z :=
  let width := Z.to_nat (dimension h) in take width (drop (ordinal * width) (vectors h)).

(** [copy(h.vectorAt(ordinal), vector)] *)
Definition copy_at (h : t) (ordinal : nat) (vector : list Z) : t :=
  let start := (ordinal * Z.to_nat (dimension h))%nat in
  set_vectors h (take start (vectors h) ++ vector ++ drop (start + length vector) (vectors h)).

Definition node_at (h : t) (ordinal : nat) : node := default (mkNode 0 0 false []) (nodes h !! ordinal).
Definition norm_at (h : t) (ordinal : nat) : Z := default f32_zero (squaredNorms h !! ordinal).
Definition id_at (h : t) (ordinal : nat) : Z := n_id (node_at h ordinal).
Definition deleted_at (h : t) (ordinal : nat) : bool := n_deleted (node_at h ordinal).

Definition querySquaredNorm (h : t) (query : list Z) : Z :=
  if String.eqb (metric h) MetricCosine then SquaredNorm query else f32_zero.

Definition scoreLocked (h : t) (query : list Z) (querySquaredNorm : Z) (ordinal : nat) : Z :=
  if String.eqb (metric h) MetricCosine then CosineWithSquaredNorms query querySquaredNorm (vectorAt h ordinal) (norm_at h ordinal)
  else match ScoreWithQuerySquaredNorm (metric h) query querySquaredNorm (vectorAt h ordinal) with Ok score => score | Err _ => f32_zero end.

Definition neighborsAt (h : t) (layer ordinal : nat) : list nat :=
  if (n_level (node_at h ordinal) <? layer)%nat then []
  else match packed h with
       | Some (offsets, neighbors) =>
           let row := default [] (offsets !! ordinal) in
           let from := default 0%nat (row !! layer) in
           take (default 0%nat (row !! S layer) - from) (drop from neighbors)
       | None => default [] (n_neighbors (node_at h ordinal) !! layer)
       end.

(** Fuel for the loops over the graph: every node, and one round more. *)
Definition fuel (h : t) : nat := S (length (nodes h)).

Definition greedyLocked (h : t) (query : list Z) (norm : Z) (entry layer : nat) : nat :=
  let score := scoreLocked h query norm in
  greedy_from (id_at h) score (neighborsAt h layer) (fuel h) entry (score entry).

Definition searchLayerLocked (h : t) (query : list Z) (norm : Z) (entries : list nat) (ef : Z) (layer : nat)
    (excluded : option nat) (accept : nat → bool) (start : marks) : list scored * marks :=
  search_layer (id_at h) (scoreLocked h query norm) (neighborsAt h layer) (Z.to_nat ef) excluded accept (fuel h) entries start.

Definition maxNeighbors (h : t) (layer : nat) : Z := match layer with O => 2 * m h | S _ => m h end.

Definition selectNeighborsLocked (h : t) (candidates : list scored) (limit : Z) : list nat :=
  select_neighbors (λ candidate kept, scoreLocked h (vectorAt h candidate) (norm_at h candidate) kept) (deleted_at h)
    candidates (Z.to_nat limit).

(** [h.nodes[ordinal].neighbors[layer] = f(h.nodes[ordinal].neighbors[layer])] *)
Definition change_links (h : t) (ordinal layer : nat) (f : list nat → list nat) : t :=
  set_nodes h (alter (λ n, mkNode (n_id n) (n_level n) (n_deleted n) (alter f layer (n_neighbors n))) ordinal (nodes h)).

Definition links_at (h : t) (ordinal layer : nat) : list nat := default [] (n_neighbors (node_at h ordinal) !! layer).

Definition pruneLocked (h : t) (ordinal layer : nat) : t :=
  let neighbors := links_at h ordinal layer in
  let limit := maxNeighbors h layer in
  if len neighbors <=? limit then h
  else
    let query := vectorAt h ordinal in
    let norm := norm_at h ordinal in
    let scored := sort_slice (ranks_before (id_at h)) ((λ neighbor, mkScored neighbor (scoreLocked h query norm neighbor)) <$> neighbors) in
    change_links h ordinal layer (λ _, selectNeighborsLocked h scored limit).

(** [append] to a list of links, and cut it. *)
Definition link (layer : nat) (h : t) (ordinal : nat) (added : list nat) : t :=
  pruneLocked (change_links h ordinal layer (λ neighbors, neighbors ++ added)) ordinal layer.

(** [for layer := high; layer >= low; layer--] *)
Definition layers (high : nat) (low : nat) : list nat := rev (seq low (S high - low)).

(** One layer of [connectLocked]. *)
Definition connect_layer (ordinal : nat) (state : t * scratch * nat) (layer : nat) : t * scratch * nat :=
  let '(h, s, entry) := state in
  let s := next s in
  let '(candidates, seen) :=
    searchLayerLocked h (vectorAt h ordinal) (norm_at h ordinal) [entry] (efConstruction h) layer (Some ordinal) (λ _, true)
      (Marks (visited s) (generation s)) in
  let s := match seen with Marks visited _ => mkScratch visited (generation s) | Visited _ => s end in
  let selected := selectNeighborsLocked h candidates (m h) in
  let h := link layer h ordinal selected in
  let h := foldl (λ h neighbor, link layer h neighbor [ordinal]) h selected in
  (h, s, match candidates with candidate :: _ => s_ordinal candidate | [] => entry end).

Definition connectLocked (h : t) (ordinal entry maxLevel : nat) (s : scratch) : t * scratch :=
  let vector := vectorAt h ordinal in
  let norm := norm_at h ordinal in
  let level := n_level (node_at h ordinal) in
  let entry := foldl (λ entry layer, greedyLocked h vector norm entry layer) entry (layers maxLevel (S level)) in
  let '(h, s, _) := foldl (connect_layer ordinal) (h, s, entry) (layers (Nat.min level maxLevel) 0) in
  (h, s).

Section Operations.
Context `{!LogExp}.

Definition appendNodeLocked (h : t) (id : Z) (vector : list Z) : t :=
  let level := deterministicLevel id (m h) in
  mk (dimension h) (metric h) (m h) (efConstruction h) (efSearch h) (vectors h ++ vector)
    (squaredNorms h ++ [querySquaredNorm h vector]) (nodes h ++ [mkNode id level false (replicate (S level) [])]) (packed h)
    (immutableGraph h) (<[id := length (nodes h)]> (ordinals h)) (entry h) (maxLevel h) (live h + 1)
    (mkScratch (visited (construction h) ++ [0]) (generation (construction h))).

(** Raise the entry to a node of a higher level. *)
Definition raise_entry (h : t) (ordinal : nat) : t :=
  let level := n_level (node_at h ordinal) in
  if (maxLevel h <? level)%nat then set_entry h ordinal level else h.

Definition insertLocked (h : t) (id : Z) (vector : list Z) : t :=
  let ordinal := length (nodes h) in
  let h := appendNodeLocked h id vector in
  match entry h with
  | None => set_entry h ordinal (n_level (node_at h ordinal))
  | Some entry =>
      let '(h, s) := connectLocked h ordinal entry (maxLevel h) (construction h) in
      raise_entry (set_construction h s) ordinal
  end.

(** What a goroutine of a parallel build does with one node. *)
Definition link_next (state : t * scratch) (ordinal : nat) : t * scratch :=
  let '(h, s) := state in
  match entry h with
  | None => (h, s)
  | Some entry =>
      let '(h, s) := connectLocked h ordinal entry (maxLevel h) s in
      (raise_entry h ordinal, s)
  end.
End Operations.

(** The number of processors, and the graph that the goroutines of a batch
    leave, given the first node to link and the number of workers: some
    complete run of the pool of [HnswPool.v]. *)
Class Scheduler := {
  GOMAXPROCS : Z;
  link_parallel : t → nat → Z → t;
}.

Section Builds.
Context `{!LogExp, !Scheduler}.

Definition connectParallelLocked (h : t) (first : nat) (workers : Z) : t :=
  let count := length (nodes h) in
  if (count <=? first)%nat then h
  else
    let '(h, first) :=
      match entry h with
      | None => (set_entry h first (n_level (node_at h first)), S first)
      | Some _ => (h, first)
      end in
    link_parallel h first workers.

(** The state before a build: the settings are kept. *)
Definition emptied (h : t) : t :=
  mk (dimension h) (metric h) (m h) (efConstruction h) (efSearch h) [] [] [] (packed h) (immutableGraph h) ∅ None 0 0 (mkScratch [] 0).

Definition effective_workers (workers : Z) : Z := if workers <=? 0 then GOMAXPROCS else workers.

Definition buildLocked (h : t) (items : list (Z * list Z)) (workers : Z) : t :=
  let workers := effective_workers workers in
  if (workers <=? 1) || (length items <? parallelBuildThreshold)%nat then
    foldl (λ h item, insertLocked h item.1 item.2) (emptied h) items
  else
    connectParallelLocked (foldl (λ h item, appendNodeLocked h item.1 item.2) (emptied h) items) 0 workers.

(** The live nodes with their vectors, in order. *)
Definition live_items (h : t) : list (Z * list Z) :=
  omap (λ '(ordinal, n), if n_deleted n then None else Some (n_id n, vectorAt h ordinal)) (imap pair (nodes h)).

Definition rebuildLocked (h : t) : t := buildLocked h (live_items h) 0.

Definition Upsert (h : t) (id : Z) (vector : list Z) : res t :=
  if negb (len vector =? dimension h) then Err (Sentinel ErrDimensionMismatch)
  else if immutableGraph h then invalid "persisted hnsw graph is immutable"
  else match ordinals h !! id with
       | Some ordinal => Ok (rebuildLocked (copy_at h ordinal vector))
       | None => Ok (insertLocked h id vector)
       end.

Definition mark_deleted (h : t) (ordinal : nat) : list node :=
  alter (λ n, mkNode (n_id n) (n_level n) true (n_neighbors n)) ordinal (nodes h).

Definition Delete (h : t) (id : Z) : res t :=
  if immutableGraph h then invalid "persisted hnsw graph is immutable"
  else match ordinals h !! id with
       | None => Err (Sentinel ErrNotFound)
       | Some ordinal =>
           Ok (mk (dimension h) (metric h) (m h) (efConstruction h) (efSearch h) (vectors h) (squaredNorms h)
                 (mark_deleted h ordinal) (packed h) (immutableGraph h) (delete id (ordinals h)) (entry h) (maxLevel h)
                 (live h - 1) (construction h))
       end.

Fixpoint check_batch (dimension : Z) (items : list (Z * list Z)) (seen : gset Z) : res unit :=
  match items with
  | [] => Ok tt
  | (id, vector) :: rest =>
      if negb (len vector =? dimension) then Err (Sentinel ErrDimensionMismatch)
      else if bool_decide (id ∈ seen) then invalid "duplicate id"
      else check_batch dimension rest ({[id]} ∪ seen)
  end.

Definition Build (cfg : Config) (ids : list Z) (vectors : list (list Z)) (workers : Z) : res t :=
  if negb (len ids =? len vectors) then invalid "ids and vectors differ in length"
  else
    let! h := New cfg in
    let! _ := check_batch (dimension h) (zip ids vectors) ∅ in
    Ok (buildLocked h (zip ids vectors) workers).

(** One vector of a batch: a known id is overwritten, for a rebuild at the end. *)
Definition batch_step (insert_ : t → Z → list Z → t) (state : t * bool) (item : Z * list Z) : t * bool :=
  let '(h, updated) := state in
  match ordinals h !! item.1 with
  | Some ordinal => (copy_at h ordinal item.2, true)
  | None => (insert_ h item.1 item.2, updated)
  end.

Definition UpsertBatch (h : t) (ids : list Z) (vectors : list (list Z)) (workers : Z) : res t :=
  if negb (len ids =? len vectors) then invalid "ids and vectors differ in length"
  else if negb (forallb (λ vector, len vector =? dimension h) vectors) then Err (Sentinel ErrDimensionMismatch)
  else
    let workers := effective_workers workers in
    if immutableGraph h then invalid "persisted hnsw graph is immutable"
    else if (workers <=? 1) || (length ids <? parallelBuildThreshold)%nat then
      let '(h, updated) := foldl (batch_step insertLocked) (h, false) (zip ids vectors) in
      Ok (if updated then rebuildLocked h else h)
    else
      let first := length (nodes h) in
      let '(h, updated) := foldl (batch_step appendNodeLocked) (h, false) (zip ids vectors) in
      Ok (if updated then rebuildLocked h else connectParallelLocked h first workers).

End Builds.

(** ** Searching *)

(** The entry of the base layer: a greedy descent from the top. *)
Definition descend (h : t) (query : list Z) (norm : Z) (entry : nat) : nat :=
  foldl (λ entry layer, greedyLocked h query norm entry layer) entry (layers (maxLevel h) 1).

Definition allows_id (allowed : option (Z → bool)) (id : Z) : bool :=
  match allowed with Some f => f id | None => true end.

Definition accepts (h : t) (allowed : option (Z → bool)) (ordinal : nat) : bool :=
  negb (deleted_at h ordinal) && allows_id allowed (id_at h ordinal).

(** One node of the exact scan. *)
Definition offer (h : t) (query : list Z) (norm : Z) (k : nat) (allowed : Z → bool) (best : list scored) (ordinal : nat) : list scored :=
  if deleted_at h ordinal || negb (allowed (id_at h ordinal)) then best
  else
    let candidate := mkScored ordinal (scoreLocked h query norm ordinal) in
    if (length best <? k)%nat then minPush best candidate
    else match best !! 0%nat with
         | Some worst =>
             if f32_ltb (s_score worst) (s_score candidate)
                || (f32_eqb (s_score candidate) (s_score worst) && (id_at h ordinal <? id_at h (s_ordinal worst)))
             then minFixRoot (<[0%nat := candidate]> best)
             else best
         | None => best
         end.

Definition candidate_of (h : t) (c : scored) : Candidate := mkCandidate (id_at h (s_ordinal c)) (s_score c).

Definition exactFilteredLocked (h : t) (query : list Z) (norm : Z) (k : nat) (allowed : Z → bool) : list Candidate :=
  candidate_of h <$> sort_slice (ranks_before (id_at h)) (foldl (offer h query norm k allowed) [] (seq 0 (length (nodes h)))).

(** [SearchWithOptions], with a nil [Allowed] as [None]. *)
Definition search (h : t) (query : list Z) (k efSearch_ : Z) (allowed : option (Z → bool)) (allowedCount : Z) : res (list Candidate) :=
  if negb (len query =? dimension h) then Err (Sentinel ErrDimensionMismatch)
  else if k <=? 0 then invalid "k must be positive"
  else if (efSearch_ <? 0) || (10000 <? efSearch_) then invalid "ef_search must be between 1 and 10000 when set"
  else
    match entry h with
    | None => Ok []
    | Some entry =>
        if live h =? 0 then Ok []
        else
          let norm := querySquaredNorm h query in
          let ef := Z.max k (if efSearch_ =? 0 then efSearch h else efSearch_) in
          match allowed with
          | Some f =>
              if (0 <=? allowedCount) && (allowedCount <=? Z.max ef (k * 4))
              then Ok (exactFilteredLocked h query norm (Z.to_nat k) f)
              else
                let found := searchLayerLocked h query norm [descend h query norm entry] ef 0 None (accepts h allowed) (Visited ∅) in
                Ok (candidate_of h <$> take (Z.to_nat k) (List.filter (λ c, negb (deleted_at h (s_ordinal c))) found.1))
          | None =>
              let found := searchLayerLocked h query norm [descend h query norm entry] ef 0 None (accepts h allowed) (Visited ∅) in
              Ok (candidate_of h <$> take (Z.to_nat k) (List.filter (λ c, negb (deleted_at h (s_ordinal c))) found.1))
          end
    end.

Definition SearchWithOptions (h : t) (query : list Z) (k : Z) (options : SearchOptions) : res (list Candidate) :=
  search h query k (EFSearch_ options) (Some (Allowed options)) (AllowedCount options).

Definition Search (h : t) (query : list Z) (k : Z) : res (list Candidate) := search h query k 0 None (-1).

Definition SearchFiltered (h : t) (query : list Z) (k : Z) (allowed : option (Z → bool)) : res (list Candidate) :=
  search h query k 0 allowed (-1).

Definition Len (h : t) : Z := live h.

(** The width of a machine word, in bytes. *)
Definition word : Z := 8.

Definition HnswStats (h : t) : Stats :=
  let '(edges, graphBytes) :=
    match packed h with
    | Some (offsets, neighbors) =>
        (len neighbors, (len neighbors + foldr (λ row total, len row + total) 0 offsets) * word)
    | None =>
        let edges := foldr (λ n total, foldr (λ l total, len l + total) 0 (n_neighbors n) + total) 0 (nodes h) in
        (edges, edges * word)
    end in
  mkStats IndexHNSW (live h) (len (vectors h) * 4) graphBytes edges (len (nodes h) - live h)
    (match entry h with Some _ => Z.of_nat (maxLevel h) | None => -1 end).

#[export] Instance hnsw_index `{!LogExp, !Scheduler} : VectorIndex t := {|
  vi_Upsert := Upsert;
  vi_Delete := Delete;
  vi_SearchFiltered := SearchFiltered;
  vi_Len := Len;
  vi_SearchWithOptions := Some SearchWithOptions;
|}.

(** ** The persisted topology *)

Definition graphHeaderSize : Z := 64.
Definition graphVersion : Z := 2.
Definition graphMagic : list Z := [71; 72; 83; 87].

Definition metricCode (metric : string) : Z :=
  if String.eqb metric MetricCosine then 1
  else if String.eqb metric MetricDot then 2
  else if String.eqb metric MetricL2 then 3
  else 255.

Definition maxLoadedNeighbors (version : Z) (layer : nat) (m : Z) : Z :=
  if (2 <=? version) && (layer =? 0)%nat then 2 * m else m.

Definition graphChecksum (data : list Z) : Z :=
  let value := crc32_Update 0 (sub_slice data 4 56) in
  let value := crc32_Update value (sub_slice data 60 64) in
  crc32_Update value (slice_from data graphHeaderSize).

(** The lists of one node, from the base layer to its level. *)
Definition node_links (h : t) (ordinal : nat) : list (list nat) :=
  (λ layer, neighborsAt h layer ordinal) <$> seq 0 (S (n_level (node_at h ordinal))).

Definition encode_links (neighbors : list nat) : list Z :=
  le_bytes 4 (u32 (len neighbors)) ++ (neighbors ≫= λ neighbor, le_bytes 4 (u32 (Z.of_nat neighbor))).

Definition encode_node (h : t) (ordinal : nat) : list Z :=
  let item := node_at h ordinal in
  le_bytes 8 (n_id item) ++ le_bytes 4 (u32 (Z.of_nat (n_level item))) ++ le_bytes 4 (if n_deleted item then 1 else 0)
    ++ (node_links h ordinal ≫= encode_links).

Definition graph_header (h : t) (payloadSize checksum : Z) : list Z :=
  graphMagic ++ le_bytes 2 graphVersion ++ [0; 0] ++ le_bytes 4 (u32 (dimension h)) ++ le_bytes 4 (u32 (m h))
    ++ le_bytes 4 (u32 (efConstruction h)) ++ le_bytes 4 (u32 (efSearch h)) ++ le_bytes 8 (len (nodes h))
    ++ le_bytes 8 (u64 (match entry h with Some entry => Z.of_nat entry | None => -1 end))
    ++ le_bytes 4 (u32 (match entry h with Some _ => Z.of_nat (maxLevel h) | None => -1 end))
    ++ [metricCode (metric h); 0; 0; 0] ++ le_bytes 8 payloadSize ++ le_bytes 4 checksum ++ [0; 0; 0; 0].

Definition max_int : Z := 2 ^ 63 - 1.

Definition MarshalGraph (h : t) : res (list Z) :=
  let payload := seq 0 (length (nodes h)) ≫= encode_node h in
  if max_int - graphHeaderSize <? len payload then Err (Errorf "hnsw graph exceeds platform address space")
  else Ok (graph_header h (len payload) (graphChecksum (graph_header h (len payload) 0 ++ payload)) ++ payload).

(** An unsigned little-endian field at the front of the bytes left. *)
Definition read_le (n : nat) (data : list Z) : option (Z * list Z) :=
  if (n <=? length data)%nat then Some (le_value (take n data), drop n data) else None.

Fixpoint read_neighbors (n : nat) (count : nat) (ordinal : nat) (data : list Z) : res (list nat * list Z) :=
  match n with
  | O => Ok ([], data)
  | S n =>
      match read_le 4 data with
      | None => Err (Panic "slice bounds out of range")
      | Some (neighbor, data) =>
          if (Z.of_nat count <=? neighbor) || (neighbor =? Z.of_nat ordinal) then Err (Errorf "invalid hnsw neighbor ordinal")
          else
            let! '(rest, data) := read_neighbors n count ordinal data in
            Ok (Z.to_nat neighbor :: rest, data)
      end
  end.

(** The layers of a node from [layer] on: their offsets in the packed lists,
    the packed lists, and the bytes left. *)
Fixpoint read_layers (n layer : nat) (version m : Z) (count ordinal : nat) (packedNeighbors : list nat) (data : list Z)
    : res (list nat * list nat * list Z) :=
  match n with
  | O => Ok ([length packedNeighbors], packedNeighbors, data)
  | S n =>
      match read_le 4 data with
      | None => Err (Errorf "truncated hnsw graph layer")
      | Some (neighborCount, data) =>
          if (maxLoadedNeighbors version layer m <? neighborCount) || (len data / 4 <? neighborCount)
          then Err (Errorf "invalid hnsw neighbor count")
          else
            let! '(neighbors, data) := read_neighbors (Z.to_nat neighborCount) count ordinal data in
            let! '(offsets, packedNeighbors', data) :=
              read_layers n (S layer) version m count ordinal (packedNeighbors ++ neighbors) data in
            Ok (length packedNeighbors :: offsets, packedNeighbors', data)
      end
  end.

(** One node, added to the index under construction. *)
Definition load_node (version : Z) (count : nat) (cfg : Config) (ids : list Z) (vectors_ : list (list Z))
    (h : t) (ordinal : nat) (data : list Z) : res (t * list Z) :=
  match read_le 8 data with
  | None => Err (Errorf "truncated hnsw graph node")
  | Some (id, data) =>
      match read_le 4 data with
      | None => Err (Errorf "truncated hnsw graph node")
      | Some (level, data) =>
          match read_le 4 data with
          | None => Err (Errorf "truncated hnsw graph node")
          | Some (flags, data) =>
              let vector := default [] (vectors_ !! ordinal) in
              if negb (id =? default 0 (ids !! ordinal)) || (32 <? level) || (1 <? flags) || negb (len vector =? cfg_Dimension cfg)
              then Err (Errorf "invalid hnsw graph node")
              else
                let '(packedOffsets, packedNeighbors) := default ([], []) (packed h) in
                let! '(offsets, packedNeighbors, data) :=
                  read_layers (S (Z.to_nat level)) 0 version (cfg_M cfg) count ordinal packedNeighbors data in
                let deleted := flags =? 1 in
                Ok (mk (dimension h) (metric h) (m h) (efConstruction h) (efSearch h) (vectors h ++ vector)
                      (squaredNorms h ++ [querySquaredNorm h vector]) (nodes h ++ [mkNode id (Z.to_nat level) deleted []])
                      (Some (packedOffsets ++ [offsets], packedNeighbors)) (immutableGraph h)
                      (if deleted then ordinals h else <[id := ordinal]> (ordinals h)) (entry h) (maxLevel h)
                      (if deleted then live h else live h + 1) (construction h), data)
          end
      end
  end.

Fixpoint load_nodes (n : nat) (version : Z) (count : nat) (cfg : Config) (ids : list Z) (vectors_ : list (list Z))
    (h : t) (ordinal : nat) (data : list Z) : res (t * list Z) :=
  match n with
  | O => Ok (h, data)
  | S n =>
      let! '(h, data) := load_node version count cfg ids vectors_ h ordinal data in
      load_nodes n version count cfg ids vectors_ h (S ordinal) data
  end.

(** [int(int64(x))] and [int(int32(x))] *)
Definition signed (width x : Z) : Z := if 2 ^ (width - 1) <=? x then x - 2 ^ width else x.

Definition field (data : list Z) (from to : Z) : Z := le_value (sub_slice data from to).

(** The checks on the header, in their order. *)
Definition check_header (cfg : Config) (ids : list Z) (vectors_ : list (list Z)) (data : list Z) : res unit :=
  if (len data <? graphHeaderSize) || negb (bool_decide (sub_slice data 0 4 = graphMagic)) then Err (Errorf "invalid hnsw graph magic")
  else
    let version := field data 4 6 in
    if (negb (version =? 1) && negb (version =? graphVersion)) || negb (field data 6 8 =? 0) || negb (field data 60 64 =? 0)
    then Err (Errorf "unsupported hnsw graph version or reserved fields")
    else
      let count := field data 24 32 in
      if (max_int <? count) || negb (field data 48 56 =? len data - graphHeaderSize) || negb (count =? len ids)
         || negb (len ids =? len vectors_)
      then Err (Errorf "hnsw graph length or record count mismatch")
      else if negb (field data 8 12 =? u32 (cfg_Dimension cfg)) || negb (field data 12 16 =? u32 (cfg_M cfg))
              || negb (field data 16 20 =? u32 (cfg_EFConstruction cfg)) || negb (field data 20 24 =? u32 (cfg_EFSearch cfg))
              || negb (field data 44 45 =? metricCode (cfg_Metric cfg))
      then Err (Errorf "hnsw graph configuration mismatch")
      else if negb (graphChecksum data =? field data 56 60) then Err (Errorf "hnsw graph checksum mismatch")
      else Ok tt.

(** The entry point a header names, checked against the nodes. *)
Definition check_entry (h : t) (data : list Z) : res t :=
  let count := length (nodes h) in
  let entry := signed 64 (field data 32 40) in
  let maxLevel := signed 32 (field data 40 44) in
  if (count =? 0)%nat then
    if negb (entry =? -1) || negb (maxLevel =? -1) then Err (Errorf "invalid hnsw graph entry point") else Ok h
  else if (entry <? 0) || (Z.of_nat count <=? entry) then Err (Errorf "invalid hnsw graph entry point")
  else if negb (maxLevel =? Z.of_nat (n_level (node_at h (Z.to_nat entry)))) then Err (Errorf "invalid hnsw graph entry point")
  else Ok (set_entry h (Z.to_nat entry) (Z.to_nat maxLevel)).

(** The empty index a graph is loaded into. *)
Definition loading (h : t) (count : nat) : t :=
  mk (dimension h) (metric h) (m h) (efConstruction h) (efSearch h) [] [] [] (Some ([], [])) true ∅ None 0 0
    (mkScratch (replicate count 0) 0).

Definition LoadGraph (cfg : Config) (ids : list Z) (vectors_ : list (list Z)) (data : list Z) : res t :=
  let! _ := check_header cfg ids vectors_ data in
  let count := length ids in
  let! h := New cfg in
  let! '(h, rest) := load_nodes count (field data 4 6) count cfg ids vectors_ (loading h count) 0 (slice_from data graphHeaderSize) in
  if negb (len rest =? 0) then Err (Errorf "hnsw graph has trailing payload") else check_entry h data.

End Hnsw.
