(* ===== verification/HnswSearch.v ===== *)
(** * The HNSW index: heaps and layer search

    The heaps keep their elements; greedy descent stops at a local best; a
    layer search returns distinct accepted nodes with their scores, best
    first, no more than asked, and all of those reachable when the bound does
    not bite.  The fuel of both loops is enough. *)
From Stdlib Require Import ZArith Lia Ascii String Sorting.Permutation.
From stdpp Require Import base tactics relations list gmap strings.
From S2P Require Import Prelude Wal Core Distance Float TopK Index Lexical Hnsw.
Local Set Warnings "-clear-no-such-hyp".
Local Open Scope string_scope.
Local Open Scope Z_scope.
Local Open Scope list_scope.

(** ** Heaps *)

Section Heaps.
Context (settled above : scored → scored → bool).

Lemma lift_perm fuel h position : ScoredHeap.lift settled fuel h position ≡ₚ h.
Proof.
  revert h position. induction fuel as [|fuel IH]; intros h position; [done|]. cbn [ScoredHeap.lift]. cbv zeta.
  destruct (position =? 0)%nat; [done|]. destruct (h !! parent_of position); [|done]. destruct (h !! position); [|done].
  destruct (settled _ _); [done|]. by rewrite IH, swap_perm.
Qed.

Lemma push_perm h x : ScoredHeap.push settled h x ≡ₚ x :: h.
Proof. unfold ScoredHeap.push. rewrite lift_perm. by rewrite Permutation_app_comm. Qed.

Lemma sink_perm fuel h position : ScoredHeap.sink settled above fuel h position ≡ₚ h.
Proof.
  revert h position. induction fuel as [|fuel IH]; intros h position; [done|]. cbn [ScoredHeap.sink].
  destruct (ScoredHeap.child_of above h position) as [child|]; [|done]. destruct (h !! position); [|done]. destruct (h !! child); [|done].
  destruct (settled _ _); [done|]. by rewrite IH, swap_perm.
Qed.

Lemma pop_perm h x rest : ScoredHeap.pop settled above h = Some (x, rest) → x :: rest ≡ₚ h.
Proof.
  unfold ScoredHeap.pop. destruct h as [|r h]; [done|]. cbv zeta.
  replace (length (r :: h) - 1)%nat with (length h) by (cbn [length]; lia). intros [= -> <-]. rewrite sink_perm. constructor. destruct h as [|y h _] using rev_ind; [done|].
  rewrite length_app. cbn [length]. rewrite Nat.add_1_r.
  assert ((x :: h ++ [y]) !! S (length h) = Some y) as -> by (change ((h ++ [y]) !! length h = Some y); by rewrite list_lookup_middle).
  change (<[0%nat := y]> (x :: h ++ [y])) with (y :: h ++ [y]).
  rewrite firstn_cons, take_app_length. by rewrite Permutation_app_comm.
Qed.

Lemma pop_None h : ScoredHeap.pop settled above h = None ↔ h = [].
Proof. by destruct h. Qed.
End Heaps.

(** ** Marks *)

Definition marks_ok (n : nat) (s : marks) : Prop :=
  match s with Marks visitedMarks _ => length visitedMarks = n | Visited _ => True end.

Lemma visit_ok n s o : marks_ok n s → marks_ok n (visit s o).
Proof. destruct s; cbn; [by rewrite length_insert|done]. Qed.

Lemma visited_visit n s o o' : marks_ok n s → (o < n)%nat →
  is_visited (visit s o) o' = bool_decide (o' = o) || is_visited s o'.
Proof.
  intros Hs Ho. destruct s as [marks generation|visited]; cbn in *.
  - destruct (decide (o' = o)) as [->|Hne].
    + rewrite list_lookup_insert_eq by lia. rewrite bool_decide_eq_true_2 by done. apply Z.eqb_refl.
    + rewrite list_lookup_insert_ne by done. by rewrite bool_decide_eq_false_2.
  - apply Bool.eq_iff_eq_true. rewrite orb_true_iff, !bool_decide_eq_true. set_solver.
Qed.

Definition fresh (s : marks) : Prop := ∀ o, is_visited s o = false.

(** A search's marks are below the next generation. *)
Definition scratch_ok (n : nat) (s : scratch) : Prop :=
  length (visited s) = n ∧ 0 ≤ generation s < 2 ^ 32 ∧ ∀ o mark, visited s !! o = Some mark → 0 ≤ mark ≤ generation s.

(** Starting a search forgets every mark, also when the counter wraps. *)
Lemma next_fresh n s : scratch_ok n s → scratch_ok n (next s) ∧ fresh (Marks (visited (next s)) (generation (next s))).
Proof.
  intros (Hl&Hg&Hm). unfold next. destruct (Z.eqb_spec (u32 (generation s + 1)) 0) as [E|E].
  - assert (∀ o mark, replicate (length (visited s)) 0 !! o = Some mark → mark = 0) as Hz
      by (intros o mark [-> _]%lookup_replicate; done).
    split; [split; [by cbn; rewrite length_replicate|split; [cbn; lia|intros o mark ->%Hz; cbn; lia]]|].
    intros o. cbn. destruct (replicate _ _ !! o) as [mark|] eqn:Ho; [|done]. by apply Hz in Ho as ->.
  - assert (u32 (generation s + 1) = generation s + 1) as Hu.
    { unfold u32 in *. destruct (decide (generation s + 1 = 2 ^ 32)) as [Ew|]; [by rewrite Ew in E|]. apply Z.mod_small. lia. }
    rewrite Hu in *. split; [split; [done|split; [cbn|]]|].
    + unfold u32 in Hu. pose proof (Z.mod_pos_bound (generation s + 1) (2 ^ 32) ltac:(lia)). lia.
    + intros o mark Ho%Hm. cbn. lia.
    + intros o. cbn. destruct (visited s !! o) as [mark|] eqn:Ho; [|done]. apply Hm in Ho. apply Z.eqb_neq. lia.
Qed.

Lemma visit_scratch n vs g o : scratch_ok n (mkScratch vs g) → scratch_ok n (mkScratch (<[o := g]> vs) g).
Proof.
  intros (Hl&Hg&Hm). split; [by cbn in *; rewrite length_insert|]. split; [done|]. intros o' mark. cbn in *.
  rewrite list_lookup_insert_Some. intros [(->&->&_)|[_ H%Hm]]; [lia|done].
Qed.

(** ** Graphs *)

Section Search.
Context (ident : nat → Z) (score : nat → Z) (links : nat → list nat).

(** Ordinals reached from [start]. *)
Definition reached (start : nat) : nat → Prop := rtc (λ a b, b ∈ links a) start.

(** A closed set of ordinals below [n]: links do not lead out of it. *)
Record closed (n : nat) (P : nat → Prop) : Prop := mkClosed {
  closed_bound o : P o → (o < n)%nat;
  closed_links o o' : P o → o' ∈ links o → P o';
}.

Lemma reached_closed n P start o : closed n P → P start → reached start o → P o.
Proof. intros Hc Hs Hr. induction Hr; [done|]. eapply IHHr, closed_links; eauto. Qed.

(** *** Greedy descent *)

Definition improves (o current : nat) : bool :=
  f32_ltb (score current) (score o) || (f32_eqb (score o) (score current) && (ident o <? ident current)).

Lemma improves_irrefl o : improves o o = false.
Proof.
  unfold improves, f32_ltb, f32_eqb. destruct (f32_is_nan (score o)); cbn; [done|]. rewrite Z.ltb_irrefl, Z.ltb_irrefl. by rewrite andb_false_r.
Qed.

Lemma improves_trans a b c : improves a b = true → improves b c = true → improves a c = true.
Proof.
  unfold improves, f32_ltb, f32_eqb.
  destruct (f32_is_nan (score a)), (f32_is_nan (score b)), (f32_is_nan (score c)); cbn; try done.
  rewrite !orb_true_iff, !andb_true_iff, !Z.ltb_lt, !Z.eqb_eq. lia.
Qed.

(** What one pass over a list of links leaves. *)
Lemma greedy_pass ls current changed :
  ∃ next changed', foldl (greedy_step ident score) (current, score current, changed) ls = (next, score next, changed') ∧
    ((next = current ∧ changed' = changed ∧ ∀ o, o ∈ ls → improves o current = false) ∨
     (next ∈ ls ∧ changed' = true ∧ improves next current = true)).
Proof.
  revert current changed. induction ls as [|o ls IH]; intros current changed; cbn [foldl].
  { exists current, changed. split; [done|]. left. split; [done|]. split; [done|]. intros o Ho. by apply not_elem_of_nil in Ho. }
  cbn [greedy_step]. fold (improves o current). destruct (improves o current) eqn:E.
  - destruct (IH o true) as (next&changed'&Hf&Hcase). exists next, changed'. split; [done|]. right.
    destruct Hcase as [(->&->&_)|(Hin&->&Hi)]; (split; [set_solver|]); split; [done|done|done|]. by eapply improves_trans.
  - destruct (IH current changed) as (next&changed'&Hf&Hcase). exists next, changed'. split; [done|].
    destruct Hcase as [(->&->&Hall)|(Hin&->&Hi)]; [left|right; split; [set_solver|done]].
    split; [done|]. split; [done|]. intros o' [->|Ho']%elem_of_cons; [done|by apply Hall].
Qed.

(** The nodes better than [current], which a step of the descent depletes. *)
Definition room (n current : nat) : nat := length (List.filter (λ o, improves o current) (seq 0 n)).

Lemma room_lt n next current : (next < n)%nat → improves next current = true → (room n next < room n current)%nat.
Proof.
  intros Hn Hi. unfold room.
  assert (List.filter (λ o, improves o next) (seq 0 n) = List.filter (λ o, improves o next) (List.filter (λ o, improves o current) (seq 0 n))) as ->.
  { generalize (seq 0 n) as l. induction l as [|o l IH]; [done|]. cbn. destruct (improves o current) eqn:E; cbn; [by rewrite IH|].
    destruct (improves o next) eqn:E2; [|done]. by rewrite (improves_trans o next current) in E. }
  apply (length_filter_lt _ _ next); [|apply improves_irrefl]. apply list_elem_of_In, filter_In. split; [|done]. apply in_seq. lia.
Qed.

(** The descent ends, within its fuel, at a node it can reach that no link
    of it improves. *)
Lemma greedy_ok n P fuel start current :
  closed n P → P current → reached start current → (room n current < fuel)%nat →
  let last := greedy_from ident score links fuel current (score current) in
  P last ∧ reached start last ∧ ∀ o, o ∈ links last → improves o last = false.
Proof.
  intros Hc. revert current. induction fuel as [|fuel IH]; intros current Hp Hr Hf; [lia|]. cbn [greedy_from].
  destruct (greedy_pass (links current) current false) as (next&changed&->&[(->&->&Hall)|(Hin&->&Hi)]); [done|].
  assert (P next) as Hpn by by eapply closed_links. apply IH; [done| |].
  - by eapply rtc_r.
  - pose proof (room_lt n next current (closed_bound _ _ Hc _ Hpn) Hi). lia.
Qed.

(** The loop of [greedyLocked] without a bound on its rounds: it ends at
    [last].  A loop that goes on for ever has no derivation. *)
Inductive greedy_ends (current : nat) (currentScore : Z) : nat → Prop :=
  | greedy_stops last lastScore :
      foldl (greedy_step ident score) (current, currentScore, false) (links current) = (last, lastScore, false) →
      greedy_ends current currentScore last
  | greedy_continues next nextScore last :
      foldl (greedy_step ident score) (current, currentScore, false) (links current) = (next, nextScore, true) →
      greedy_ends next nextScore last → greedy_ends current currentScore last.

(** The loop ends, at the node the bounded loop returns. *)
Lemma greedy_terminates n P fuel current :
  closed n P → P current → (room n current < fuel)%nat →
  greedy_ends current (score current) (greedy_from ident score links fuel current (score current)).
Proof.
  intros Hc. revert current. induction fuel as [|fuel IH]; intros current Hp Hf; [lia|]. cbn [greedy_from].
  destruct (greedy_pass (links current) current false) as (next&changed&E&Hcase). rewrite E.
  destruct Hcase as [(->&->&_)|(Hin&->&Hi)]; [by eapply greedy_stops|].
  assert (P next) as Hpn by by eapply closed_links. eapply greedy_continues; [exact E|]. apply IH; [done|].
  pose proof (room_lt n next current (closed_bound _ _ Hc _ Hpn) Hi). lia.
Qed.

Lemma room_le n current : (room n current ≤ n)%nat.
Proof. unfold room. etrans; [apply length_filter_le|]. by rewrite length_seq. Qed.
(** *** Layer search *)

Context (n : nat) (P : nat → Prop) (Hclosed : closed n P).
Context (ef : nat) (excluded : option nat) (accept : nat → bool).

Local Abbreviation look_at := (look_at score ef excluded accept).
Local Abbreviation enter := (enter score excluded accept).

(** A scored node of the search. *)
Definition noted (s : marks) (c : scored) : Prop :=
  P (s_ordinal c) ∧ is_visited s (s_ordinal c) = true ∧ s_score c = score (s_ordinal c).

Record searching (st : search_state) : Prop := mkSearching {
  sg_marks : marks_ok n (seen st);
  sg_frontier c : c ∈ frontier st → noted (seen st) c;
  sg_best c : c ∈ best st → noted (seen st) c ∧ accept (s_ordinal c) = true ∧ excluded ≠ Some (s_ordinal c);
  sg_nodup : NoDup (s_ordinal <$> best st);
  sg_length : (length (best st) ≤ ef)%nat;
}.

Definition unvisited (s : marks) : nat := length (List.filter (λ o, negb (is_visited s o)) (seq 0 n)).

(** Rounds left, at most. *)
Definition pending (st : search_state) : nat := length (frontier st) + unvisited (seen st).

Lemma noted_visit s o c : marks_ok n s → P o → noted s c → noted (visit s o) c.
Proof.
  intros Hm Ho (Hp&Hv&Hs). split; [done|]. split; [|done]. rewrite (visited_visit n) by (done || by apply (closed_bound _ _ Hclosed)).
  rewrite Hv. apply orb_true_r.
Qed.

Lemma noted_new s o : marks_ok n s → P o → noted (visit s o) (mkScored o (score o)).
Proof.
  intros Hm Ho. split; [done|]. split; [|done]. cbn. rewrite (visited_visit n) by (done || by apply (closed_bound _ _ Hclosed)).
  by rewrite bool_decide_eq_true_2.
Qed.

Lemma unvisited_visit s o : marks_ok n s → (o < n)%nat → is_visited s o = false → (unvisited (visit s o) < unvisited s)%nat.
Proof.
  intros Hm Ho Hv. unfold unvisited.
  assert (List.filter (λ o', negb (is_visited (visit s o) o')) (seq 0 n)
    = List.filter (λ o', negb (bool_decide (o' = o))) (List.filter (λ o', negb (is_visited s o')) (seq 0 n))) as ->.
  { generalize (seq 0 n) as l. induction l as [|o' l IH]; [done|]. cbn. rewrite (visited_visit n) by done.
    destruct (is_visited s o'); cbn; rewrite ?orb_true_r, ?orb_false_r; cbn; [done|]. rewrite IH. by destruct (bool_decide (o' = o)). }
  apply (length_filter_lt _ _ o); [|by rewrite bool_decide_eq_true_2]. apply list_elem_of_In, filter_In. rewrite Hv. split; [|done]. apply in_seq. lia.
Qed.

Lemma keep_ok bests value :
  (length bests ≤ ef)%nat → (∀ c, c ∈ keep ef bests value → c = value ∨ c ∈ bests) ∧ (length (keep ef bests value) ≤ ef ∨ ef = 0)%nat ∧
  (NoDup (s_ordinal <$> value :: bests) → NoDup (s_ordinal <$> keep ef bests value)) ∧
  ((length bests < ef)%nat → keep ef bests value ≡ₚ value :: bests).
Proof.
  intros Hl. unfold keep. cbv zeta. pose proof (push_perm min_settled bests value) as Hp. fold (minPush bests value) in Hp.
  pose proof (Permutation_length Hp) as Hlen. cbn [length] in Hlen.
  destruct (Nat.ltb_spec ef (length (minPush bests value))) as [Hlt|Hge].
  - destruct (minPop (minPush bests value)) as [[x rest]|] eqn:Epop.
    + pose proof (pop_perm _ _ _ _ _ Epop) as Hpop. pose proof (Permutation_length Hpop) as Hlen2. cbn [length] in Hlen2.
      rewrite Hp in Hpop. split; [|split; [lia|split; [|lia]]].
      * intros c Hc. apply elem_of_cons. rewrite <-Hpop. by apply list_elem_of_further.
      * intros Hnd. rewrite <-Hpop in Hnd. cbn [fmap list_fmap] in Hnd. by apply NoDup_cons in Hnd as [_ ?].
    + apply (pop_None min_settled min_above) in Epop. rewrite Epop in Hlen. done.
  - split; [|split; [lia|split; [|done]]].
    + intros c Hc. rewrite Hp in Hc. by apply elem_of_cons in Hc.
    + intros Hnd. by rewrite Hp.
Qed.
Context (Hef : (0 < ef)%nat).

Lemma max_push_elem h x c : c ∈ maxPush h x ↔ c = x ∨ c ∈ h.
Proof. unfold maxPush. by rewrite push_perm, elem_of_cons. Qed.

Lemma length_max_push h x : length (maxPush h x) = S (length h).
Proof. unfold maxPush. by rewrite push_perm. Qed.

(** Marking a node keeps what is known of the others. *)
Lemma searching_visit st o :
  searching st → P o → searching (mkSearch (frontier st) (best st) (visit (seen st) o)).
Proof.
  intros Hs Ho. pose proof (sg_marks _ Hs) as Hm. constructor; cbn [frontier best seen]; [by apply visit_ok| | |apply Hs|apply Hs].
  - intros c Hc%(sg_frontier _ Hs). by apply noted_visit.
  - intros c Hc. destruct (sg_best _ Hs c Hc) as (?&?&?). split; [by apply noted_visit|done].
Qed.

(** Adding the marked node to the frontier and, if accepted, to the best. *)
Lemma searching_add st o bests :
  searching st → P o → is_visited (seen st) o = false → excluded ≠ Some o →
  (length bests ≤ ef)%nat → (∀ c, c ∈ bests → c = mkScored o (score o) ∧ accept o = true ∨ c ∈ best st) → NoDup (s_ordinal <$> bests) →
  searching (mkSearch (maxPush (frontier st) (mkScored o (score o))) bests (visit (seen st) o)).
Proof.
  intros Hs Ho Hv Hx Hl Hb Hnd. pose proof (sg_marks _ Hs) as Hm. constructor; cbn [frontier best seen]; [by apply visit_ok| | |done|done].
  - intros c [->|Hc%(sg_frontier _ Hs)]%max_push_elem; [by apply noted_new|by apply noted_visit].
  - intros c [[-> Ha]|Hc]%Hb; [split; [by apply noted_new|done]|]. destruct (sg_best _ Hs c Hc) as (?&?&?). split; [by apply noted_visit|done].
Qed.

(** Nothing marked is new. *)
Lemma new_nodup st o : searching st → is_visited (seen st) o = false → NoDup (s_ordinal <$> mkScored o (score o) :: best st).
Proof.
  intros Hs Hv. cbn [fmap list_fmap]. apply NoDup_cons. split; [|apply Hs]. intros (c&E&Hc)%list_elem_of_fmap.
  destruct (sg_best _ Hs c Hc) as ((_&Hvc&_)&_). cbn in E. rewrite <-E in Hvc. congruence.
Qed.

Lemma look_at_ok st o :
  searching st → P o → searching (look_at st o) ∧ (pending (look_at st o) ≤ pending st)%nat ∧
  (∀ o', is_visited (seen st) o' = true → is_visited (seen (look_at st o)) o' = true) ∧
  (excluded ≠ Some o → is_visited (seen (look_at st o)) o = true).
Proof.
  intros Hs Ho. pose proof (sg_marks _ Hs) as Hm. pose proof (closed_bound _ _ Hclosed _ Ho) as Hb.
  assert (∀ o', is_visited (visit (seen st) o) o' = bool_decide (o' = o) || is_visited (seen st) o') as Hvisit by (intros; by apply (visited_visit n)).
  unfold look_at. destruct (bool_decide_reflect (excluded = Some o)) as [Hx|Hx]; cbn [orb]; [done|].
  destruct (is_visited (seen st) o) eqn:Hv; [done|]. cbv zeta. pose proof (unvisited_visit _ _ Hm Hb Hv) as Hless.
  destruct ((length (best st) <? ef)%nat || _).
  - split; [|split; [unfold pending; cbn [frontier seen]; rewrite length_max_push; lia|cbn [seen]; split; intros; rewrite Hvisit]].
    + apply searching_add; [done..| | |].
      * destruct (accept o); [|apply Hs]. destruct (keep_ok (best st) (mkScored o (score o)) (sg_length _ Hs)) as (_&[?|?]&_); lia.
      * intros c Hc. destruct (accept o); [|by right]. destruct (keep_ok (best st) (mkScored o (score o)) (sg_length _ Hs)) as (Hk&_).
        destruct (Hk c Hc); [by left|by right].
      * destruct (accept o); [|apply Hs]. destruct (keep_ok (best st) (mkScored o (score o)) (sg_length _ Hs)) as (_&_&Hk&_). apply Hk, new_nodup; done.
    + rewrite H. apply orb_true_r.
    + by rewrite bool_decide_eq_true_2.
  - split; [by apply searching_visit|]. split; [unfold pending; cbn [frontier seen]; lia|]. cbn [seen]. split; intros; rewrite Hvisit.
    + rewrite H. apply orb_true_r.
    + by rewrite bool_decide_eq_true_2.
Qed.

Lemma look_all_ok ls st :
  searching st → (∀ o, o ∈ ls → P o) → searching (foldl look_at st ls) ∧ (pending (foldl look_at st ls) ≤ pending st)%nat ∧
  (∀ o', is_visited (seen st) o' = true → is_visited (seen (foldl look_at st ls)) o' = true) ∧
  (∀ o, o ∈ ls → excluded ≠ Some o → is_visited (seen (foldl look_at st ls)) o = true).
Proof.
  revert st. induction ls as [|o ls IH]; intros st Hs Hp; cbn [foldl].
  { split; [done|]. split; [done|]. split; [done|]. intros o Ho. by apply not_elem_of_nil in Ho. }
  destruct (look_at_ok st o Hs (Hp o (list_elem_of_here _ _))) as (Hs1&Hle&Hmono&Hvis).
  destruct (IH (look_at st o) Hs1) as (Hs2&Hle2&Hmono2&Hvis2); [intros; apply Hp; by apply list_elem_of_further|].
  split; [done|]. split; [lia|]. split; [by intros o' Ho'; apply Hmono2, Hmono|].
  intros o' [->|Ho']%elem_of_cons Hx; [by apply Hmono2, Hvis|by apply Hvis2].
Qed.

(** Taking the best of the frontier. *)
Lemma searching_pop st c rest :
  searching st → maxPop (frontier st) = Some (c, rest) →
  let st1 := mkSearch rest (best st) (seen st) in
  searching st1 ∧ P (s_ordinal c) ∧ c :: rest ≡ₚ frontier st ∧ pending st = S (pending st1).
Proof.
  intros Hs Epop. pose proof (pop_perm _ _ _ _ _ Epop) as Hperm. pose proof (Permutation_length Hperm) as Hlen. cbn [length] in Hlen.
  assert (c ∈ frontier st) as Hcin by (rewrite <-Hperm; apply list_elem_of_here). pose proof (sg_frontier _ Hs c Hcin) as (Hpc&_&_).
  cbv zeta. split; [|split; [done|split; [done|unfold pending; cbn [frontier seen]; lia]]].
  constructor; cbn [frontier best seen]; try apply Hs. intros c' Hc'. apply Hs. rewrite <-Hperm. by apply list_elem_of_further.
Qed.

(** A search starts from one node. *)
Lemma search_start entry start :
  P entry → excluded ≠ Some entry → marks_ok n start → fresh start →
  let st := enter (mkSearch [] [] start) entry in
  searching st ∧ (pending st < S n)%nat ∧ s_ordinal <$> frontier st = [entry] ∧
  best st = (if accept entry then [mkScored entry (score entry)] else []) ∧ seen st = visit start entry.
Proof.
  intros Hp Hx Hm Hfresh. unfold enter. rewrite bool_decide_eq_false_2 by done. cbv zeta. cbn [frontier best seen].
  pose proof (closed_bound _ _ Hclosed _ Hp) as Hb. set (value := mkScored entry (score entry)).
  assert ((if accept entry then minPush [] value else []) = if accept entry then [value] else []) as -> by (by destruct (accept entry)).
  assert (searching (mkSearch [] [] start)) as H0.
  { constructor; cbn [frontier best seen]; [done|intros c Hc; by apply not_elem_of_nil in Hc..|constructor|cbn; lia]. }
  split; [|split; [|done]].
  - apply (searching_add (mkSearch [] [] start)); [done|done|apply Hfresh|done| | |].
    + destruct (accept entry); cbn; lia.
    + intros c. destruct (accept entry); [intros ->%list_elem_of_singleton; by left|intros Hc; by apply not_elem_of_nil in Hc].
    + destruct (accept entry); [apply NoDup_singleton|constructor].
  - unfold pending. cbn [frontier seen]. rewrite length_max_push. cbn [length].
    pose proof (unvisited_visit start entry Hm Hb (Hfresh entry)) as Hu. unfold unvisited at 2 in Hu.
    pose proof (length_filter_le (λ o, negb (is_visited start o)) (seq 0 n)) as Hle. rewrite length_seq in Hle. lia.
Qed.

(** *** Searches that are not cut short *)

(** The frontier holds every marked node whose links are not all marked. *)
Definition expanded (skip : nat → Prop) (st : search_state) : Prop :=
  ∀ o, P o → is_visited (seen st) o = true → skip o ∨ o ∈ s_ordinal <$> frontier st ∨ ∀ o', o' ∈ links o → is_visited (seen st) o' = true.

(** The accepted marked nodes are kept. *)
Definition collected (st : search_state) : Prop :=
  ∀ o, P o → is_visited (seen st) o = true → accept o = true → o ∈ s_ordinal <$> best st.

Lemma best_full st o : searching st → (n ≤ length (best st))%nat → (o < n)%nat → o ∈ s_ordinal <$> best st.
Proof.
  intros Hs Hl Ho. assert (s_ordinal <$> best st ⊆+ seq 0 n) as Hsub.
  { apply NoDup_submseteq; [apply Hs|]. intros x (c&->&Hc)%list_elem_of_fmap. apply elem_of_seq.
    destruct (sg_best _ Hs c Hc) as ((Hp&_)&_). pose proof (closed_bound _ _ Hclosed _ Hp). lia. }
  apply submseteq_length_Permutation in Hsub; [|rewrite length_fmap, length_seq; lia].
  rewrite Hsub. apply elem_of_seq. lia.
Qed.

Section Exhaustive.
Context (Hall : (n ≤ ef)%nat) (Hno : excluded = None).

Lemma look_at_more st o :
  searching st → P o → collected st →
  collected (look_at st o) ∧ (∀ o', o' ∈ s_ordinal <$> frontier st → o' ∈ s_ordinal <$> frontier (look_at st o)) ∧
  (∀ o', is_visited (seen (look_at st o)) o' = true → is_visited (seen st) o' = true ∨ o' ∈ s_ordinal <$> frontier (look_at st o)).
Proof.
  intros Hs Ho Hc. pose proof (sg_marks _ Hs) as Hm. pose proof (closed_bound _ _ Hclosed _ Ho) as Hb.
  assert (∀ o', is_visited (visit (seen st) o) o' = bool_decide (o' = o) || is_visited (seen st) o') as Hvisit by (intros; by apply (visited_visit n)).
  unfold look_at. rewrite Hno. rewrite bool_decide_eq_false_2 by done. cbn [orb].
  destruct (is_visited (seen st) o) eqn:Hv; [split; [done|split; [done|by left]]|]. cbv zeta.
  assert (length (best st) < ef)%nat as Hroom.
  { destruct (decide (n ≤ length (best st))%nat) as [Hle|]; [|lia].
    destruct (proj1 (list_elem_of_fmap _ _ _) (best_full st o Hs Hle Hb)) as (c&->&Hin). destruct (sg_best _ Hs c Hin) as ((_&Hvc&_)&_). congruence. }
  rewrite (proj2 (Nat.ltb_lt _ _)) by done. cbn [orb]. split; [|split]; cbn [frontier best seen].
  - intros o' Hp' Hv' Ha. cbn [best seen] in *. rewrite Hvisit in Hv'. apply orb_true_iff in Hv' as [->%bool_decide_eq_true|Hv'].
    + rewrite Ha. destruct (keep_ok (best st) (mkScored o (score o)) (sg_length _ Hs)) as (_&_&_&Hk). rewrite (Hk Hroom). apply list_elem_of_here.
    + specialize (Hc o' Hp' Hv' Ha). destruct (accept o); [|done].
      destruct (keep_ok (best st) (mkScored o (score o)) (sg_length _ Hs)) as (_&_&_&Hk). rewrite (Hk Hroom). by apply list_elem_of_further.
  - intros o' (c&->&Hin)%list_elem_of_fmap. apply list_elem_of_fmap_2, max_push_elem. by right.
  - intros o' Hv'. rewrite Hvisit in Hv'. apply orb_true_iff in Hv' as [->%bool_decide_eq_true|Hv']; [|by left].
    right. apply list_elem_of_fmap. exists (mkScored o (score o)). split; [done|]. apply max_push_elem. by left.
Qed.

Lemma look_all_more ls st skip :
  searching st → (∀ o, o ∈ ls → P o) → collected st → expanded skip st →
  collected (foldl look_at st ls) ∧ expanded skip (foldl look_at st ls).
Proof.
  revert st. induction ls as [|o ls IH]; intros st Hs Hp Hc He; cbn [foldl]; [done|].
  pose proof (Hp o (list_elem_of_here _ _)) as Ho. destruct (look_at_ok st o Hs Ho) as (Hs1&_&Hmono&_).
  destruct (look_at_more st o Hs Ho Hc) as (Hc1&Hfr&Hnew). apply IH; [done|intros; apply Hp; by apply list_elem_of_further|done|].
  intros o' Hp' [Hv|Hin]%Hnew; [|by right; left]. destruct (He o' Hp' Hv) as [?|[?|Hl]]; [by left|right; left; by apply Hfr|].
  right. right. intros. by apply Hmono, Hl.
Qed.
End Exhaustive.

(** The loop ends within its fuel, keeps the invariant, and when the bound is
    at least the number of nodes it has all the accepted nodes of [P] that
    the marked ones lead to. *)
Lemma explore_ok fuel st :
  searching st → (pending st < fuel)%nat →
  let last := explore score links ef excluded accept fuel st in
  searching last ∧
  ((n ≤ ef)%nat → excluded = None → collected st → expanded (λ _, False) st →
   ∀ start o, P start → is_visited (seen st) start = true → reached start o → accept o = true → o ∈ s_ordinal <$> best last).
Proof.
  revert st. induction fuel as [|fuel IH]; intros st Hs Hf; [lia|]. cbn [explore].
  destruct (maxPop (frontier st)) as [[c rest]|] eqn:Epop.
  2: { split; [done|]. intros Hall Hno Hc He start o Hp Hv Hr Ha. apply pop_None in Epop.
    assert (P o ∧ is_visited (seen st) o = true) as [Hpo Hvo].
    { induction Hr as [|x y z Hxy _ IHr]; [done|]. apply IHr; [by eapply closed_links| |done].
      destruct (He x Hp Hv) as [[]|[Hin|Hl]]; [rewrite Epop in Hin; by apply not_elem_of_nil in Hin|by apply Hl]. }
    by apply Hc. }
  destruct (searching_pop st c rest Hs Epop) as (Hs1&Hpc&Hperm&Hpend). set (st1 := mkSearch rest (best st) (seen st)) in *. cbv zeta. fold st1.
  destruct (((ef <=? length (best st1))%nat && below_worst c (best st1))) eqn:Estop.
  - split; [done|]. intros Hall Hno Hc He start o Hp Hv Hr Ha. apply andb_true_iff in Estop as [Hle%Nat.leb_le _].
    apply (best_full st1); [done|lia|]. apply (closed_bound _ _ Hclosed). by eapply reached_closed.
  - destruct (look_all_ok (links (s_ordinal c)) st1 Hs1) as (Hs2&Hle&Hmono&Hvis); [intros; by eapply closed_links|].
    destruct (IH (foldl look_at st1 (links (s_ordinal c))) Hs2) as (Hlast&Hcomplete).
    { lia. }
    split; [exact Hlast|]. intros Hall Hno Hc He start o Hp Hv Hr Ha.
    assert (expanded (λ o', o' = s_ordinal c) st1) as He1.
    { intros o' Hp' Hv'. destruct (He o' Hp' Hv') as [[]|[Hin|Hl]]; [|by right; right].
      apply list_elem_of_fmap in Hin as (c'&->&Hin). rewrite <-Hperm in Hin. apply elem_of_cons in Hin as [->|Hin]; [by left|].
      right. left. by apply list_elem_of_fmap_2. }
    destruct (look_all_more Hall Hno (links (s_ordinal c)) st1 (λ o', o' = s_ordinal c) Hs1) as (Hc2&He2); [intros; by apply (closed_links _ _ Hclosed (s_ordinal c))|done|done|].
    apply (Hcomplete Hall Hno Hc2) with start; [|done|by apply Hmono|done|done].
    intros o' Hp' Hv'. destruct (He2 o' Hp' Hv') as [->|?]; [|by right]. right. right. intros o2 Ho2. apply Hvis; [done|by rewrite Hno].
Qed.

(** The loop of [searchLayerLocked] without a bound on its rounds: it ends in
    the state [last]. *)
Inductive explore_ends (st : search_state) : search_state → Prop :=
  | explore_empty : maxPop (frontier st) = None → explore_ends st st
  | explore_cut candidate rest :
      maxPop (frontier st) = Some (candidate, rest) →
      (ef <=? length (best st))%nat && below_worst candidate (best st) = true →
      explore_ends st (mkSearch rest (best st) (seen st))
  | explore_continues candidate rest last :
      maxPop (frontier st) = Some (candidate, rest) →
      (ef <=? length (best st))%nat && below_worst candidate (best st) = false →
      explore_ends (foldl look_at (mkSearch rest (best st) (seen st)) (links (s_ordinal candidate))) last →
      explore_ends st last.

(** The loop ends, in the state the bounded loop returns. *)
Lemma explore_terminates fuel st :
  searching st → (pending st < fuel)%nat → explore_ends st (explore score links ef excluded accept fuel st).
Proof.
  revert st. induction fuel as [|fuel IH]; intros st Hs Hf; [lia|]. cbn [explore].
  destruct (maxPop (frontier st)) as [[c rest]|] eqn:Epop; [|by apply explore_empty]. cbv zeta. cbn [best].
  destruct (_ && _) eqn:Estop; [by eapply explore_cut|]. eapply explore_continues; [exact Epop|exact Estop|].
  destruct (searching_pop st c rest Hs Epop) as (Hs1&Hpc&_&Hpend).
  destruct (look_all_ok (links (s_ordinal c)) _ Hs1) as (Hs2&Hle&_); [intros; by eapply closed_links|]. apply IH; [done|lia].
Qed.

(** A search from one node of [P] over fresh marks. *)
Lemma search_layer_ok entry start :
  P entry → excluded ≠ Some entry → marks_ok n start → fresh start →
  let '(found, left_) := search_layer ident score links ef excluded accept (S n) [entry] start in
  NoDup (s_ordinal <$> found) ∧ (length found ≤ ef)%nat ∧
  (∀ c, c ∈ found → P (s_ordinal c) ∧ accept (s_ordinal c) = true ∧ excluded ≠ Some (s_ordinal c) ∧ s_score c = score (s_ordinal c)) ∧
  marks_ok n left_ ∧
  ((n ≤ ef)%nat → excluded = None → ∀ o, reached entry o → accept o = true → o ∈ s_ordinal <$> found).
Proof.
  intros Hp Hx Hm Hfresh. unfold search_layer. cbn [foldl]. pose proof (closed_bound _ _ Hclosed _ Hp) as Hb.
  destruct (search_start entry start Hp Hx Hm Hfresh) as (Hs&Hpend&Efr&Ebest&Eseen). set (st := enter (mkSearch [] [] start) entry) in *.
  destruct (explore_ok (S n) st Hs Hpend) as (Hlast&Hcomplete). set (last := explore _ _ _ _ _ _ _) in *.
  assert (∀ x, x ∈ s_ordinal <$> sort_slice (ranks_before ident) (best last) ↔ x ∈ s_ordinal <$> best last) as Hin by (intros; by rewrite sort_slice_perm).
  split; [rewrite sort_slice_perm; apply Hlast|]. split; [rewrite length_sort_slice; apply Hlast|]. split; [|split; [apply Hlast|]].
  - intros c Hc. rewrite sort_slice_elem in Hc. destruct (sg_best _ Hlast c Hc) as ((?&?&?)&?&?). done.
  - intros Hall Hno o Hr Ha. apply Hin. apply (Hcomplete Hall Hno) with entry; [| |done| |done|done].
    + intros o' Hp' Hv' Ha'. rewrite Eseen, (visited_visit n) in Hv' by done. apply orb_true_iff in Hv' as [->%bool_decide_eq_true|Hv'].
      * rewrite Ebest, Ha'. apply list_elem_of_here.
      * by rewrite Hfresh in Hv'.
    + intros o' Hp' Hv'. rewrite Eseen, (visited_visit n) in Hv' by done. apply orb_true_iff in Hv' as [->%bool_decide_eq_true|Hv'].
      * right. left. rewrite Efr. apply list_elem_of_here.
      * by rewrite Hfresh in Hv'.
    + rewrite Eseen, (visited_visit n) by done. by rewrite bool_decide_eq_true_2.
Qed.
End Search.

(** What marking keeps, a search keeps of its marks. *)
Lemma look_all_marks score ef excluded accept (Q : marks → Prop) ls st :
  (∀ s o, Q s → Q (visit s o)) → Q (seen st) → Q (seen (foldl (look_at score ef excluded accept) st ls)).
Proof.
  intros HQ. revert st. induction ls as [|o ls IH]; intros st H; [done|]. cbn [foldl]. apply IH. unfold look_at.
  destruct (_ || _); [done|]. destruct (_ || _); by apply HQ.
Qed.

Lemma search_layer_marks ident score links ef excluded accept fuel entries start (Q : marks → Prop) :
  (∀ s o, Q s → Q (visit s o)) → Q start → Q (search_layer ident score links ef excluded accept fuel entries start).2.
Proof.
  intros HQ Hs. unfold search_layer. cbn [snd].
  assert (∀ fuel st, Q (seen st) → Q (seen (explore score links ef excluded accept fuel st))) as Hexp.
  { clear fuel. induction fuel as [|fuel IH]; intros st H; [done|]. cbn. destruct (maxPop _) as [[c rest]|]; [|done].
    destruct (_ && _); [done|]. by apply IH, look_all_marks. }
  apply Hexp. revert Hs. generalize (@nil scored) at 2 as bs. generalize (@nil scored) as fs. revert start. induction entries as [|e es IH]; intros start fs bs H; [done|].
  cbn [foldl]. unfold enter at 2. destruct (bool_decide _); [by apply IH|]. cbn [frontier best seen]. by apply IH, HQ.
Qed.

(** ** Neighbour selection *)

Lemma select_diverse_ok between deleted limit candidates result pruned :
  (length result ≤ limit)%nat →
  let '(result', pruned') := select_diverse between deleted limit candidates result pruned in
  (length result' ≤ limit)%nat ∧
  ∃ kept, result' ++ pruned' ≡ₚ result ++ pruned ++ kept ∧
    kept ⊆+ (s_ordinal <$> List.filter (λ c, negb (deleted (s_ordinal c))) candidates) ∧
    ((length result' < limit)%nat → kept ≡ₚ (s_ordinal <$> List.filter (λ c, negb (deleted (s_ordinal c))) candidates)).
Proof.
  revert result pruned. induction candidates as [|c cs IH]; intros result pruned Hl; cbn [select_diverse].
  { split; [done|]. exists []. cbn. rewrite app_nil_r. done. }
  destruct (Nat.eqb_spec (length result) limit) as [E|E].
  { split; [done|]. exists []. rewrite app_nil_r. split; [done|]. split; [apply submseteq_nil_l|lia]. }
  cbn [List.filter]. destruct (deleted (s_ordinal c)); cbn [negb]; [by apply IH|].
  destruct (existsb _ _).
  - specialize (IH result (pruned ++ [s_ordinal c]) Hl). destruct (select_diverse _ _ _ _ _ _) as [r' p']. destruct IH as (Hl'&kept&Hp&Hsub&Hfull).
    split; [done|]. exists (s_ordinal c :: kept). rewrite <-app_assoc in Hp. split; [done|]. rewrite fmap_cons. split; [by apply submseteq_skip|].
    intros H. by rewrite (Hfull H).
  - specialize (IH (result ++ [s_ordinal c]) pruned). destruct (select_diverse _ _ _ _ _ _) as [r' p'].
    destruct IH as (Hl'&kept&Hp&Hsub&Hfull); [rewrite length_app; cbn; lia|].
    split; [done|]. exists (s_ordinal c :: kept). split; [rewrite Hp, <-app_assoc; cbn; by rewrite Permutation_middle|]. rewrite fmap_cons. split; [by apply submseteq_skip|].
    intros H. by rewrite (Hfull H).
Qed.

(** Distinct live candidates, as many as there are up to the limit. *)
Lemma select_neighbors_ok between deleted candidates limit :
  let live := s_ordinal <$> List.filter (λ c, negb (deleted (s_ordinal c))) candidates in
  let selected := select_neighbors between deleted candidates limit in
  selected ⊆+ live ∧ length selected = Nat.min limit (length live).
Proof.
  cbv zeta. unfold select_neighbors. pose proof (select_diverse_ok between deleted limit candidates [] [] (Nat.le_0_l _)) as H.
  destruct (select_diverse _ _ _ _ _ _) as [result pruned]. destruct H as (Hl&kept&Hp&Hsub&Hfull). cbn [app] in Hp.
  assert (result ++ take (limit - length result) pruned ⊆+ result ++ pruned) as Htake by (apply submseteq_skips_l, submseteq_take).
  split; [etrans; [exact Htake|by rewrite Hp]|]. rewrite length_app, length_take.
  pose proof (submseteq_length _ _ Hsub) as Hle. pose proof (Permutation_length Hp) as Hlen. rewrite length_app in Hlen.
  destruct (decide (length result < limit)%nat) as [Hlt|]; [|lia]. rewrite <-(Permutation_length (Hfull Hlt)). lia.
Qed.
