(* ===== verification/HnswPool.v ===== *)
(** * The HNSW index: linking by several goroutines

    [connectParallelLocked] of [internal/index/hnsw/build.go] starts workers
    that share the graph, a counter of the nodes taken and the mutex of the
    entry.  While they run, a list of links is read and written under its
    node's lock only, so a read of one list and an append with its pruning are
    the atomic steps of [connectLocked]; everything between two of them is
    computed from what was read and from vectors, norms, ids, levels and flags,
    which no worker writes.  [connect_steps] is [connectLocked] as a program
    over those two steps, and a [pool] is the state the workers share, with
    one step of one worker as [step_worker]; an interleaving is a list of
    picks. *)
From Stdlib Require Import ZArith Lia Ascii String.
From stdpp Require Import base tactics list gmap strings.
From S2P Require Import Prelude Core Distance TopK Index Lexical Hnsw.
Import Hnsw.
Local Open Scope string_scope.
Local Open Scope Z_scope.
Local Open Scope list_scope.

Module Pool.

(** ** Programs over the locked lists *)

(** [Links] is [linksAt], [Link] an append with its pruning, and [Spin] a
    loop whose fuel ran out. *)
Inductive prog (A : Type) : Type :=
| Done (a : A)
| Spin
| Links (layer ordinal : nat) (k : list nat → prog A)
| Link (layer ordinal : nat) (added : list nat) (k : prog A).
Arguments Done {A} a.
Arguments Spin {A}.
Arguments Links {A} layer ordinal k.
Arguments Link {A} layer ordinal added k.

Fixpoint bind {A B} (p : prog A) (f : A → prog B) : prog B :=
  match p with
  | Done a => f a
  | Spin => Spin
  | Links layer ordinal k => Links layer ordinal (λ ls, bind (k ls) f)
  | Link layer ordinal added k => Link layer ordinal added (bind k f)
  end.

Section Steps.
Context (ident : nat → Z) (score : nat → Z) (layer : nat).

Fixpoint greedy_steps (fuel : nat) (current : nat) (currentScore : Z) : prog nat :=
  match fuel with
  | O => Spin
  | S fuel =>
      Links layer current (λ neighbors,
        let '(next, nextScore, changed) := foldl (greedy_step ident score) (current, currentScore, false) neighbors in
        if changed then greedy_steps fuel next nextScore else Done next)
  end.

Context (ef : nat) (excluded : option nat) (accept : nat → bool).

Fixpoint explore_steps (fuel : nat) (state : search_state) : prog search_state :=
  match fuel with
  | O => Spin
  | S fuel =>
      match maxPop (frontier state) with
      | None => Done state
      | Some (candidate, rest) =>
          let state := mkSearch rest (best state) (seen state) in
          if (ef <=? length (best state))%nat && below_worst candidate (best state) then Done state
          else Links layer (s_ordinal candidate) (λ neighbors, explore_steps fuel (foldl (look_at score ef excluded accept) state neighbors))
      end
  end.

Definition search_steps (fuel : nat) (entries : list nat) (start : marks) : prog (list scored * marks) :=
  bind (explore_steps fuel (foldl (enter score excluded accept) (mkSearch [] [] start) entries)) (λ state,
    Done (sort_slice (ranks_before ident) (best state), seen state)).
End Steps.

(** Nodes, vectors and levels are those of [h], whose links are not read. *)
Section Connect.
Context (h : t) (ordinal : nat).

Definition descend_steps (layers : list nat) (entry : nat) : prog nat :=
  foldl (λ p layer, bind p (λ entry,
    let score := scoreLocked h (vectorAt h ordinal) (norm_at h ordinal) in
    greedy_steps (id_at h) score layer (fuel h) entry (score entry))) (Done entry) layers.

Definition link_back (layer : nat) (selected : list nat) {A} (k : prog A) : prog A :=
  foldr (λ neighbor p, Link layer neighbor [ordinal] p) k selected.

Definition connect_layer_steps (state : scratch * nat) (layer : nat) : prog (scratch * nat) :=
  let '(s, entry) := state in
  let s := next s in
  bind (search_steps (id_at h) (scoreLocked h (vectorAt h ordinal) (norm_at h ordinal)) layer (Z.to_nat (efConstruction h)) (Some ordinal)
          (λ _, true) (fuel h) [entry] (Marks (visited s) (generation s))) (λ '(candidates, seen),
    let s := match seen with Marks visited _ => mkScratch visited (generation s) | Visited _ => s end in
    let selected := selectNeighborsLocked h candidates (m h) in
    Link layer ordinal selected (link_back layer selected
      (Done (s, match candidates with candidate :: _ => s_ordinal candidate | [] => entry end)))).

Definition connect_steps (entry maxLevel : nat) (s : scratch) : prog scratch :=
  let level := n_level (node_at h ordinal) in
  bind (descend_steps (layers maxLevel (S level)) entry) (λ entry,
  bind (foldl (λ p layer, bind p (λ state, connect_layer_steps state layer)) (Done (s, entry)) (layers (Nat.min level maxLevel) 0)) (λ state,
    Done state.1)).
End Connect.

(** ** The workers *)

(** A worker is free, waits for the entry with the node it took, links that
    node (holding the entry's mutex when it raises the top), or has returned. *)
Inductive phase : Type :=
| Free
| Waiting (ordinal : nat)
| Linking (ordinal : nat) (raises : bool) (p : prog scratch)
| Finished.

Record pool : Type := mkPool {
  graph : t;
  next_node : nat;
  entryMu : option nat;
  workers : list (phase * scratch);
}.

Definition with_phase (p : pool) (w : nat) (ph : phase) : pool :=
  mkPool (graph p) (next_node p) (entryMu p) (alter (λ x, (ph, x.2)) w (workers p)).

(** One step of worker [w]; a worker that waits for a mutex stays. *)
Definition step_worker (p : pool) (w : nat) : pool :=
  let h := graph p in
  match workers p !! w with
  | None => p
  | Some (Finished, _) => p
  | Some (Free, _) =>
      let taken := mkPool h (S (next_node p)) (entryMu p) (workers p) in
      if (length (nodes h) <=? next_node p)%nat then with_phase taken w Finished else with_phase taken w (Waiting (next_node p))
  | Some (Waiting ordinal, s) =>
      match entryMu p, entry h with
      | None, Some entry =>
          let raises := (maxLevel h <? n_level (node_at h ordinal))%nat in
          with_phase (mkPool h (next_node p) (if raises then Some w else None) (workers p)) w
            (Linking ordinal raises (connect_steps h ordinal entry (maxLevel h) s))
      | _, _ => p
      end
  | Some (Linking ordinal raises prg, _) =>
      match prg with
      | Spin => p
      | Links layer node k => with_phase p w (Linking ordinal raises (k (neighborsAt h layer node)))
      | Link layer node added k =>
          with_phase (mkPool (link layer h node added) (next_node p) (entryMu p) (workers p)) w (Linking ordinal raises k)
      | Done s =>
          let h := if raises then set_entry h ordinal (n_level (node_at h ordinal)) else h in
          mkPool h (next_node p) (if raises then None else entryMu p) (alter (λ _, (Free, s)) w (workers p))
      end
  end.

Definition run (p : pool) (picks : list nat) : pool := foldl step_worker p picks.

Definition start (h : t) (first : nat) (workers_ : Z) : pool :=
  let count := length (nodes h) in
  mkPool h first None (replicate (Z.to_nat (Z.min workers_ (Z.of_nat (count - first)))) (Free, mkScratch (replicate count 0) 0)).

(** [wg.Wait] returns. *)
Definition all_finished (p : pool) : bool := forallb (λ x, match x.1 with Finished => true | _ => false end) (workers p).

End Pool.
