(* ===== verification/HnswProofs.v ===== *)
(** * The HNSW index: its invariant, and connecting a node

    The invariant of a graph that can be changed (storage aligned with the
    nodes, links in range, on their layers and within the degree bounds, an
    entry on the top layer, marks below their generation) is kept by every
    operation, and the index stands for the map from live ids to vectors. *)
From Stdlib Require Import ZArith Lia Ascii String Sorting.Permutation.
From stdpp Require Import base tactics relations list gmap strings.
From S2P Require Import Prelude Wal Core Distance Float TopK Index Lexical Hnsw HnswSearch.
Import Hnsw.
Local Set Warnings "-clear-no-such-hyp".
Local Open Scope string_scope.
Local Open Scope Z_scope.
Local Open Scope list_scope.

Lemma lookup_alter_list {A} (f : A → A) i (l : list A) j y :
  alter f i l !! j = Some y → (j = i ∧ ∃ x, l !! i = Some x ∧ y = f x) ∨ (j ≠ i ∧ l !! j = Some y).
Proof.
  destruct (decide (j = i)) as [->|Hne]; [rewrite list_lookup_alter_eq|rewrite list_lookup_alter_ne by done; by right].
  destruct (l !! i) as [x|]; [|done]. intros [= <-]. left. eauto.
Qed.

(** ** What linking leaves alone *)

Definition bare (n : node) : node := mkNode (n_id n) (n_level n) (n_deleted n) [].

(** An index without its links and marks. *)
Definition strip (h : t) : t := set_construction (set_nodes h (bare <$> nodes h)) (mkScratch [] 0).

Definition count (h : t) : nat := length (nodes h).

Lemma strip_nodes h h' : strip h = strip h' → bare <$> nodes h = bare <$> nodes h'.
Proof. apply (f_equal nodes). Qed.

Lemma strip_lookup h h' o : strip h = strip h' → bare <$> nodes h !! o = bare <$> nodes h' !! o.
Proof. intros H%strip_nodes. by rewrite <-!list_lookup_fmap, H. Qed.

Lemma strip_count h h' : strip h = strip h' → count h = count h'.
Proof. intros H%strip_nodes%(f_equal length). by rewrite !length_fmap in H. Qed.

Lemma strip_node h h' o : strip h = strip h' → bare (node_at h o) = bare (node_at h' o).
Proof. intros H%(strip_lookup _ _ o). unfold node_at. destruct (nodes h !! o), (nodes h' !! o); cbn in *; congruence. Qed.

Lemma strip_level h h' o : strip h = strip h' → n_level (node_at h o) = n_level (node_at h' o).
Proof. intros H%(strip_node _ _ o). by apply (f_equal n_level) in H. Qed.

Lemma strip_id h h' o : strip h = strip h' → id_at h o = id_at h' o.
Proof. intros H%(strip_node _ _ o). by apply (f_equal n_id) in H. Qed.

Lemma strip_deleted h h' o : strip h = strip h' → deleted_at h o = deleted_at h' o.
Proof. intros H%(strip_node _ _ o). by apply (f_equal n_deleted) in H. Qed.

Lemma strip_vector h h' o : strip h = strip h' → vectorAt h o = vectorAt h' o.
Proof. intros H. unfold vectorAt. pose proof (f_equal dimension H). pose proof (f_equal vectors H). cbn in *. congruence. Qed.

Lemma strip_set_construction h s : strip (set_construction h s) = strip h.
Proof. done. Qed.

Lemma strip_change_links h o layer f : strip (change_links h o layer f) = strip h.
Proof.
  unfold strip, change_links. f_equal. unfold set_nodes. cbn. f_equal. apply list_eq. intros i. rewrite !list_lookup_fmap.
  destruct (decide (i = o)) as [->|Hne]; [rewrite list_lookup_alter_eq|by rewrite list_lookup_alter_ne]. by destruct (nodes h !! o).
Qed.

(** ** The invariants *)

(** Storage aligned with the nodes. *)
Record stored (h : t) : Prop := mkStored {
  st_config : 0 < dimension h ∧ Metric_Valid (metric h) = true ∧ 2 ≤ m h ∧ m h ≤ efConstruction h ∧ 1 ≤ efSearch h;
  st_vectors : length (vectors h) = (count h * Z.to_nat (dimension h))%nat;
  st_norms : length (squaredNorms h) = count h;
  st_ordinals id o : ordinals h !! id = Some o ↔ ∃ n, nodes h !! o = Some n ∧ n_deleted n = false ∧ n_id n = id;
  st_live : live h = Z.of_nat (size (ordinals h));
}.

(** The cached norms are those of the vectors. *)
Definition norms_ok (h : t) : Prop := ∀ o, (o < count h)%nat → norm_at h o = querySquaredNorm h (vectorAt h o).

(** A node whose level reaches a layer. *)
Definition at_layer (h : t) (layer o : nat) : Prop := ∃ n, nodes h !! o = Some n ∧ (layer ≤ n_level n)%nat.

(** A list of links of one node on one layer. *)
Record list_ok (h : t) (o layer : nat) (l : list nat) : Prop := mkListOk {
  lo_bound : len l ≤ maxNeighbors h layer;
  lo_links o' : o' ∈ l → o' ≠ o ∧ at_layer h layer o';
}.

Record links_ok (h : t) : Prop := mkLinksOk {
  lk_packed : packed h = None;
  lk_layers o n : nodes h !! o = Some n → length (n_neighbors n) = S (n_level n);
  lk_lists o n layer l : nodes h !! o = Some n → n_neighbors n !! layer = Some l → list_ok h o layer l;
}.

Definition entry_ok (h : t) : Prop :=
  match entry h with
  | None => nodes h = []
  | Some e => ∃ n, nodes h !! e = Some n ∧ n_level n = maxLevel h
  end.

(** An index that can be changed; during a batch its norms can be stale. *)
Record linked (h : t) : Prop := mkLinked {
  iv_stored : stored h;
  iv_links : links_ok h;
  iv_entry : entry_ok h;
  iv_marks : scratch_ok (count h) (construction h);
  iv_mutable : immutableGraph h = false;
}.

Definition inv (h : t) : Prop := linked h ∧ norms_ok h.

Definition contents (h : t) : gmap Z (list Z) := vectorAt h <$> ordinals h.

Lemma strip_at_layer h h' layer o : strip h = strip h' → at_layer h layer o → at_layer h' layer o.
Proof.
  intros Hs (n&Hn&Hl). pose proof (strip_lookup h h' o Hs) as H. rewrite Hn in H. cbn in H.
  destruct (nodes h' !! o) as [n'|] eqn:Hn'; [|done]. injection H as _ El _. exists n'. split; [done|]. by rewrite <-El.
Qed.

Lemma strip_stored h h' : strip h = strip h' → stored h → stored h'.
Proof.
  intros Hs [Hc Hv Hn Ho Hl]. pose proof (strip_count _ _ Hs) as Ec.
  pose proof (f_equal dimension Hs) as E1. pose proof (f_equal metric Hs) as E2. pose proof (f_equal m Hs) as E3.
  pose proof (f_equal efConstruction Hs) as E4. pose proof (f_equal efSearch Hs) as E5. pose proof (f_equal vectors Hs) as E6.
  pose proof (f_equal squaredNorms Hs) as E7. pose proof (f_equal ordinals Hs) as E8. pose proof (f_equal live Hs) as E9. cbn in *.
  constructor.
  - by rewrite <-E1, <-E2, <-E3, <-E4, <-E5.
  - by rewrite <-E6, <-Ec, <-E1.
  - by rewrite <-E7, <-Ec.
  - intros id o. rewrite <-E8, Ho. pose proof (strip_lookup h h' o Hs) as H. split; intros (n&Hn'&Hd&Hid); rewrite Hn' in H; cbn in H.
    + destruct (nodes h' !! o) as [n'|]; [|done]. injection H as Eid _ Edel. exists n'. split_and!; congruence.
    + destruct (nodes h !! o) as [n'|]; [|done]. injection H as Eid _ Edel. exists n'. split_and!; congruence.
  - by rewrite <-E9, <-E8.
Qed.

Lemma strip_norms h h' : strip h = strip h' → norms_ok h → norms_ok h'.
Proof.
  intros Hs Hn o Ho. rewrite <-(strip_count _ _ Hs) in Ho. specialize (Hn o Ho). unfold norm_at, querySquaredNorm in *.
  pose proof (f_equal metric Hs) as E1. pose proof (f_equal squaredNorms Hs) as E2. cbn in E1, E2. by rewrite <-E1, <-E2, <-(strip_vector h h' o Hs).
Qed.

Lemma at_layer_bound h layer o : at_layer h layer o → (o < count h)%nat.
Proof. intros (n&Hn&_). by apply lookup_lt_Some in Hn. Qed.

Lemma at_layer_level h layer o : at_layer h layer o → (layer ≤ n_level (node_at h o))%nat.
Proof. intros (n&Hn&Hl). unfold node_at. by rewrite Hn. Qed.

Lemma at_layer_weaken h layer layer' o : (layer' ≤ layer)%nat → at_layer h layer o → at_layer h layer' o.
Proof. intros Hle (n&Hn&Hl). exists n. split; [done|lia]. Qed.

(** Links stay on their layer. *)
Lemma layer_closed h layer : links_ok h → closed (neighborsAt h layer) (count h) (at_layer h layer).
Proof.
  intros Hk. constructor; [intros o; by apply at_layer_bound|]. intros o o' (n&Hn&Hl) Hin. unfold neighborsAt, node_at in Hin. rewrite Hn in Hin. cbn [default from_option id] in Hin.
  rewrite (lk_packed _ Hk), (proj2 (Nat.ltb_ge (n_level n) layer)) in Hin by lia.
  destruct (n_neighbors n !! layer) as [l|] eqn:El; cbn in Hin; [|by apply not_elem_of_nil in Hin].
  by apply (lo_links _ _ _ _ (lk_lists _ Hk o n layer l Hn El)).
Qed.

(** ** Linking *)

(** Replacing one list by a good one. *)
Lemma change_links_ok h o layer l : links_ok h → list_ok h o layer l → links_ok (change_links h o layer (λ _, l)).
Proof.
  intros Hk Hl. pose proof (strip_change_links h o layer (λ _, l)) as Hs. symmetry in Hs.
  assert (∀ o' layer' l', list_ok h o' layer' l' → list_ok (change_links h o layer (λ _, l)) o' layer' l') as Hkeep.
  { intros o' layer' l' [Hb Hin]. split; [done|]. intros x Hx. destruct (Hin x Hx). split; [done|]. by eapply strip_at_layer. }
  constructor; [apply Hk| |].
  - intros o' n. unfold change_links. cbn [set_nodes nodes]. intros Hn. apply lookup_alter_list in Hn as [(->&n'&Hn'&->)|[_ Hn]]; [|by apply Hk in Hn].
    cbn [n_neighbors n_level]. rewrite length_alter. by apply Hk in Hn'.
  - intros o' n layer' l' Hn Hl'. apply Hkeep. unfold change_links in Hn. cbn [set_nodes nodes] in Hn.
    apply lookup_alter_list in Hn as [(->&n'&Hn'&->)|[_ Hn]]; [|by eapply (lk_lists _ Hk)].
    cbn [n_neighbors] in Hl'. apply lookup_alter_list in Hl' as [(->&x&_&->)|[_ Hl']]; [done|by eapply (lk_lists _ Hk)].
Qed.

Lemma alter_const {A} (f : A → A) i (l : list A) x : l !! i = Some x → alter f i l = alter (λ _, f x) i l.
Proof.
  intros Hx. apply list_eq. intros j. destruct (decide (j = i)) as [->|Hne]; [by rewrite !list_lookup_alter_eq, Hx|by rewrite !list_lookup_alter_ne].
Qed.

Lemma alter_twice {A} (f g : A → A) i (l : list A) : alter f i (alter g i l) = alter (λ x, f (g x)) i l.
Proof.
  apply list_eq. intros j. destruct (decide (j = i)) as [->|Hne].
  - rewrite !list_lookup_alter_eq. by destruct (l !! i).
  - by rewrite !list_lookup_alter_ne.
Qed.

Lemma change_links_const h o n layer l f :
  nodes h !! o = Some n → n_neighbors n !! layer = Some l → change_links h o layer f = change_links h o layer (λ _, f l).
Proof.
  intros Hn Hl. unfold change_links. f_equal. rewrite (alter_const _ o _ n Hn). symmetry. rewrite (alter_const _ o _ n Hn).
  by rewrite (alter_const f layer _ l Hl).
Qed.

Lemma change_links_twice h o layer f l : change_links (change_links h o layer f) o layer (λ _, l) = change_links h o layer (λ _, l).
Proof.
  unfold change_links, set_nodes. cbn. f_equal. rewrite alter_twice. apply list_eq. intros j.
  destruct (decide (j = o)) as [->|Hne]; [rewrite !list_lookup_alter_eq|by rewrite !list_lookup_alter_ne].
  destruct (nodes h !! o) as [n|]; [|done]. cbn. by rewrite alter_twice.
Qed.

Lemma links_at_change h o n layer l f :
  nodes h !! o = Some n → n_neighbors n !! layer = Some l → links_at (change_links h o layer f) o layer = f l.
Proof.
  intros Hn Hl. unfold links_at, node_at, change_links. cbn [set_nodes nodes]. rewrite list_lookup_alter_eq, Hn.
  cbn [fmap option_fmap option_map default from_option id n_neighbors]. by rewrite list_lookup_alter_eq, Hl.
Qed.

(** The neighbours selected are among the candidates, within the limit. *)
Lemma selected_ok h candidates limit o :
  o ∈ selectNeighborsLocked h candidates limit → o ∈ s_ordinal <$> candidates.
Proof.
  unfold selectNeighborsLocked. set (between := λ _ _, _).
  destruct (select_neighbors_ok between (deleted_at h) candidates (Z.to_nat limit)) as [Hsub _]. intros Hin.
  apply (elem_of_submseteq _ _ _ Hin) in Hsub. clear Hin. rename Hsub into Hin. apply list_elem_of_fmap in Hin as (c&->&Hc). apply list_elem_of_fmap_2.
  apply list_elem_of_In, filter_In in Hc as [Hc _]. by apply list_elem_of_In.
Qed.

Lemma selected_len h candidates limit : 0 ≤ limit → len (selectNeighborsLocked h candidates limit) ≤ limit.
Proof.
  intros Hl. unfold selectNeighborsLocked. set (between := λ _ _, _).
  destruct (select_neighbors_ok between (deleted_at h) candidates (Z.to_nat limit)) as [_ Hlen]. unfold len. rewrite Hlen. lia.
Qed.

(** Appending links and pruning leaves one list, good and within bounds. *)
Lemma link_ok layer h o added :
  2 ≤ m h → links_ok h → at_layer h layer o → (∀ x, x ∈ added → x ≠ o ∧ at_layer h layer x) →
  links_ok (link layer h o added) ∧ strip (link layer h o added) = strip h.
Proof.
  intros Hm Hk (n&Hn&Hlevel) Hadded.
  destruct (n_neighbors n !! layer) as [l|] eqn:El.
  2: { apply lookup_ge_None in El. rewrite (lk_layers _ Hk o n Hn) in El. lia. }
  pose proof (lk_lists _ Hk o n layer l Hn El) as Hl.
  assert (∀ l', (∀ x, x ∈ l' → x ∈ l ++ added) → len l' ≤ maxNeighbors h layer → list_ok h o layer l') as Hgood.
  { intros l' Hin Hlen. constructor; [done|]. intros x [Hx|Hx]%Hin%elem_of_app; [by apply (lo_links _ _ _ _ Hl)|by apply Hadded]. }
  unfold link, pruneLocked. rewrite (change_links_const h o n layer l (λ neighbors, neighbors ++ added) Hn El), (links_at_change h o n layer l) by done.
  assert (maxNeighbors (change_links h o layer (λ _, l ++ added)) layer = maxNeighbors h layer) as -> by done. cbv zeta.
  destruct (Z.leb_spec (len (l ++ added)) (maxNeighbors h layer)) as [Hle|Hgt].
  - split; [|apply strip_change_links]. apply change_links_ok; [done|]. by apply Hgood.
  - rewrite change_links_twice. split; [|apply strip_change_links]. apply change_links_ok; [done|]. apply Hgood.
    + intros x Hx%selected_ok. rewrite sort_slice_perm, <-list_fmap_compose in Hx. by apply list_elem_of_fmap in Hx as (y&->&Hx).
    + apply selected_len. unfold maxNeighbors. destruct layer; lia.
Qed.

Lemma links_all_ok layer o ls h :
  2 ≤ m h → links_ok h → at_layer h layer o → (∀ x, x ∈ ls → x ≠ o ∧ at_layer h layer x) →
  links_ok (foldl (λ h x, link layer h x [o]) h ls) ∧ strip (foldl (λ h x, link layer h x [o]) h ls) = strip h.
Proof.
  revert h. induction ls as [|x ls IH]; intros h Hm Hk Ho Hls; cbn [foldl]; [done|].
  destruct (Hls x (list_elem_of_here _ _)) as [Hne Hx].
  destruct (link_ok layer h x [o] Hm Hk Hx) as [Hk1 Hs1]; [intros y ->%list_elem_of_singleton; done|].
  symmetry in Hs1. destruct (IH (link layer h x [o])) as [Hk2 Hs2]; [| |by eapply strip_at_layer| |].
  - pose proof (f_equal m Hs1) as E. cbn in E. by rewrite <-E.
  - done.
  - intros y Hy. destruct (Hls y (list_elem_of_further _ _ _ Hy)). split; [done|]. by eapply strip_at_layer.
  - split; [done|]. by rewrite Hs2, Hs1.
Qed.

(** ** Connecting a node *)

Lemma rev_seq_S lo k : rev (seq lo (S k)) = (lo + k)%nat :: rev (seq lo k).
Proof. by rewrite seq_S, rev_unit. Qed.

Lemma greedyLocked_layer h query norm e layer :
  links_ok h → at_layer h layer e → at_layer h layer (greedyLocked h query norm e layer).
Proof.
  intros Hk He. unfold greedyLocked. pose proof (layer_closed h layer Hk) as Hc.
  destruct (greedy_ok (id_at h) (scoreLocked h query norm) (neighborsAt h layer) (count h) (at_layer h layer) (fuel h) e e Hc He) as [Hp _].
  - apply rtc_refl.
  - unfold fuel. pose proof (room_le (id_at h) (scoreLocked h query norm) (count h) e). unfold count in *. lia.
  - exact Hp.
Qed.

(** The greedy descent through the layers above [lo]. *)
Lemma descend_layers h query norm lo k e :
  links_ok h → ((0 < k)%nat → at_layer h (lo + k - 1) e) →
  let e' := foldl (λ e layer, greedyLocked h query norm e layer) e (rev (seq lo k)) in
  ((0 < k)%nat → at_layer h lo e') ∧ (k = 0%nat → e' = e).
Proof.
  intros Hk. revert e. induction k as [|k IH]; intros e He; cbv zeta; [split; [lia|done]|].
  rewrite rev_seq_S. cbn [foldl]. pose proof (greedyLocked_layer h query norm e (lo + k)%nat Hk) as Hg.
  replace (lo + S k - 1)%nat with (lo + k)%nat in He by lia. specialize (Hg (He ltac:(lia))).
  destruct (IH (greedyLocked h query norm e (lo + k)%nat)) as [H1 H2].
  { intros. eapply at_layer_weaken; [|exact Hg]. lia. }
  split; [|lia]. intros _. destruct k as [|k]; [|apply H1; lia]. rewrite (H2 eq_refl). eapply at_layer_weaken; [|exact Hg]. lia.
Qed.

(** Everything known while a node is being connected. *)
Definition connecting (h0 h : t) (s : scratch) : Prop :=
  strip h = strip h0 ∧ links_ok h ∧ scratch_ok (count h) s.

Lemma connect_layer_ok h0 h s ordinal e layer :
  stored h0 → connecting h0 h s → at_layer h layer ordinal → at_layer h layer e → e ≠ ordinal →
  let '(h', s', e') := connect_layer ordinal (h, s, e) layer in
  connecting h0 h' s' ∧ at_layer h' layer e' ∧ e' ≠ ordinal.
Proof.
  intros Hst (Hs&Hk&Hm) Ho He Hne. assert (stored h) as Hst' by (by eapply strip_stored; [symmetry|]).
  destruct (st_config _ Hst') as (_&_&Hm2&Hmef&_). unfold connect_layer. cbv zeta.
  destruct (next_fresh _ _ Hm) as [Hnext Hfresh].
  pose proof (layer_closed h layer Hk) as Hc.
  unfold searchLayerLocked.
  pose proof (search_layer_ok (id_at h) (scoreLocked h (vectorAt h ordinal) (norm_at h ordinal)) (neighborsAt h layer) (count h) (at_layer h layer) Hc
    (Z.to_nat (efConstruction h)) (Some ordinal) (λ _, true) ltac:(lia) e (Marks (visited (next s)) (generation (next s)))
    He ltac:(congruence) (proj1 Hnext) Hfresh) as Hsearch.
  pose proof (search_layer_marks (id_at h) (scoreLocked h (vectorAt h ordinal) (norm_at h ordinal)) (neighborsAt h layer)
    (Z.to_nat (efConstruction h)) (Some ordinal) (λ _, true) (fuel h) [e] (Marks (visited (next s)) (generation (next s)))
    (λ seen, ∃ vs, seen = Marks vs (generation (next s)) ∧ scratch_ok (count h) (mkScratch vs (generation (next s))))) as Hmarks.
  fold (fuel h) in Hsearch. change (S (count h)) with (fuel h) in Hsearch.
  destruct (search_layer _ _ _ _ _ _ _ _ _) as [candidates seen]. destruct Hsearch as (_&_&Hcand&_&_). cbn [snd] in Hmarks.
  destruct Hmarks as (vs&->&Hscratch).
  { intros sn o (vs&->&Hok). exists (<[o := generation (next s)]> vs). split; [done|]. by apply visit_scratch. }
  { exists (visited (next s)). split; [done|]. by destruct (next s). }
  set (selected := selectNeighborsLocked h candidates (m h)).
  assert (∀ x, x ∈ selected → x ≠ ordinal ∧ at_layer h layer x) as Hsel.
  { intros x (c&->&Hin)%selected_ok%list_elem_of_fmap. destruct (Hcand c Hin) as (?&_&Hx&_). split; [congruence|done]. }
  destruct (link_ok layer h ordinal selected Hm2 Hk Ho Hsel) as [Hk1 Hs1]. symmetry in Hs1.
  destruct (links_all_ok layer ordinal selected (link layer h ordinal selected)) as [Hk2 Hs2].
  { pose proof (f_equal m Hs1) as E. cbn in E. by rewrite <-E. }
  { done. }
  { by eapply strip_at_layer. }
  { intros x Hx. destruct (Hsel x Hx). split; [done|]. by eapply strip_at_layer. }
  rewrite <-Hs1 in Hs2. set (h2 := foldl _ _ selected) in *. split; [split; [by rewrite Hs2|split; [done|by rewrite (strip_count _ _ Hs2)]]|].
  symmetry in Hs2. destruct candidates as [|c cs]; [split; [by eapply strip_at_layer|done]|].
  destruct (Hcand c (list_elem_of_here _ _)) as (Hcl&_&Hx&_). split; [by eapply strip_at_layer|congruence].
Qed.

Lemma connect_layers_ok h0 h s ordinal e k :
  stored h0 → connecting h0 h s → ((0 < k)%nat → at_layer h (k - 1) ordinal ∧ at_layer h (k - 1) e) → e ≠ ordinal →
  let '(h', s', _) := foldl (connect_layer ordinal) (h, s, e) (rev (seq 0 k)) in connecting h0 h' s'.
Proof.
  intros Hst. revert h s e. induction k as [|k IH]; intros h s e Hc Hl Hne; [done|].
  rewrite rev_seq_S. cbn [foldl]. rewrite Nat.add_0_l. destruct (Hl ltac:(lia)) as [Ho He]. rewrite Nat.sub_succ, Nat.sub_0_r in Ho, He.
  pose proof (connect_layer_ok h0 h s ordinal e k Hst Hc Ho He Hne) as H.
  destruct (connect_layer ordinal (h, s, e) k) as [[h' s'] e']. destruct H as (Hc'&He'&Hne').
  apply IH; [done| |done]. intros _. split; [|eapply at_layer_weaken; [|exact He']; lia].
  eapply at_layer_weaken; [|eapply strip_at_layer; [|exact Ho]]; [lia|]. destruct Hc as [-> _]. by destruct Hc' as [-> _].
Qed.

(** Connecting a node keeps everything but links and marks. *)
Lemma connectLocked_ok h ordinal e s :
  stored h → links_ok h → scratch_ok (count h) s → (ordinal < count h)%nat → at_layer h (maxLevel h) e → e ≠ ordinal →
  let '(h', s') := connectLocked h ordinal e (maxLevel h) s in connecting h h' s'.
Proof.
  intros Hst Hk Hm Ho He Hne. unfold connectLocked. cbv zeta. set (level := n_level (node_at h ordinal)).
  set (e1 := foldl _ e (layers (maxLevel h) (S level))).
  assert (at_layer h level ordinal) as Hol.
  { apply lookup_lt_is_Some in Ho as [n Hn]. exists n. split; [done|]. unfold level, node_at. by rewrite Hn. }
  assert (at_layer h (Nat.min level (maxLevel h)) e1 ∧ e1 ≠ ordinal) as [He1 Hne1].
  { unfold e1, layers. replace (S (maxLevel h) - S level)%nat with (maxLevel h - level)%nat by lia.
    destruct (descend_layers h (vectorAt h ordinal) (norm_at h ordinal) (S level) (maxLevel h - level) e Hk) as [H1 H2].
    { intros. eapply at_layer_weaken; [|exact He]. lia. }
    destruct (decide (maxLevel h - level = 0)%nat) as [E|E].
    - rewrite (H2 E). split; [|done]. eapply at_layer_weaken; [|exact He]. lia.
    - specialize (H1 ltac:(lia)). split; [eapply at_layer_weaken; [|exact H1]; lia|]. intros Eo. rewrite Eo in H1.
      apply at_layer_level in H1. fold level in H1. lia. }
  unfold layers. rewrite Nat.sub_0_r.
  pose proof (connect_layers_ok h h s ordinal e1 (S (Nat.min level (maxLevel h))) Hst) as H.
  destruct (foldl (connect_layer ordinal) _ _) as [[h' s'] e']. apply H; [done| |done]. intros _. rewrite Nat.sub_succ, Nat.sub_0_r. split; [|done].
  eapply at_layer_weaken; [|exact Hol]. lia.
Qed.

(** ** The entry *)

Definition with_top (h : t) (e : option nat) (level : nat) : t :=
  mk (dimension h) (metric h) (m h) (efConstruction h) (efSearch h) (vectors h) (squaredNorms h) (nodes h) (packed h)
    (immutableGraph h) (ordinals h) e level (live h) (construction h).

(** An index without its links, marks and entry. *)
Definition core (h : t) : t := strip (with_top h None 0).

Definition settings (h : t) : Z * string * (Z * Z * Z) := (dimension h, metric h, (m h, efConstruction h, efSearch h)).

Lemma strip_core h h' : strip h = strip h' → core h = core h'.
Proof. apply (f_equal (λ h, with_top h None 0)). Qed.

Lemma core_strip h h' : core h = core h' → strip (with_top h (entry h') (maxLevel h')) = strip h'.
Proof. apply (f_equal (λ h, with_top h (entry h') (maxLevel h'))). Qed.

Lemma stored_with_top h e level : stored (with_top h e level) ↔ stored h.
Proof. by split; intros []; constructor. Qed.

Lemma core_stored h h' : core h = core h' → stored h → stored h'.
Proof. intros Hc%core_strip Hs. eapply strip_stored; [exact Hc|]. by apply stored_with_top. Qed.

Lemma core_norms h h' : core h = core h' → norms_ok h → norms_ok h'.
Proof. intros Hc%core_strip Hs. eapply strip_norms; [exact Hc|]. exact Hs. Qed.

Lemma core_count h h' : core h = core h' → count h = count h'.
Proof. intros H%core_strip%strip_count. exact H. Qed.

Lemma core_contents h h' : core h = core h' → contents h = contents h' ∧ settings h = settings h'.
Proof.
  intros H. pose proof (f_equal dimension H) as E1. pose proof (f_equal vectors H) as E2. pose proof (f_equal ordinals H) as E3.
  pose proof (f_equal settings H) as E4. cbn in E1, E2, E3. split; [|exact E4]. unfold contents, vectorAt. by rewrite E1, E2, E3.
Qed.

Lemma core_mutable h h' : core h = core h' → immutableGraph h = immutableGraph h'.
Proof. intros H. exact (f_equal immutableGraph H). Qed.

(** Links depend on the nodes and the degree only. *)
Lemma links_ok_same h h' : nodes h = nodes h' → packed h = packed h' → m h = m h' → links_ok h → links_ok h'.
Proof.
  intros En Ep Em [Hp Hl Hk]. constructor; [by rewrite <-Ep|by rewrite <-En|]. intros o n layer l Hn El. rewrite <-En in Hn.
  destruct (Hk o n layer l Hn El) as [Hb Hin]. constructor; [by unfold maxNeighbors in *; rewrite <-Em|].
  intros x [Hx Hat]%Hin. split; [done|]. unfold at_layer in *. by rewrite <-En.
Qed.

Lemma links_ok_with_top h e level : links_ok h → links_ok (with_top h e level).
Proof. by apply links_ok_same. Qed.

Lemma set_entry_top h o level : set_entry h o level = with_top h (Some o) level.
Proof. done. Qed.

(** Raising the entry to a node keeps it on the top layer. *)
Lemma raise_entry_ok h ordinal :
  (ordinal < count h)%nat → links_ok h → entry_ok h → entry h ≠ None →
  core (raise_entry h ordinal) = core h ∧ links_ok (raise_entry h ordinal) ∧ entry_ok (raise_entry h ordinal) ∧ entry (raise_entry h ordinal) ≠ None.
Proof.
  intros Ho Hk He Hne. unfold raise_entry. destruct (_ <? _)%nat; [|done]. rewrite set_entry_top. split; [done|].
  split; [by apply links_ok_with_top|]. split; [|done]. unfold entry_ok. cbn [with_top entry nodes maxLevel].
  apply lookup_lt_is_Some in Ho as [n Hn]. exists n. split; [done|]. unfold node_at. by rewrite Hn.
Qed.

(** The index's own marks are not touched by linking. *)
Lemma link_construction layer h o added : construction (link layer h o added) = construction h.
Proof. unfold link, pruneLocked. cbv zeta. by destruct (_ <=? _). Qed.

Lemma links_construction layer ordinal ls h : construction (foldl (λ h x, link layer h x [ordinal]) h ls) = construction h.
Proof. revert h. induction ls as [|x ls IH]; intros h; [done|]. cbn [foldl]. by rewrite IH, link_construction. Qed.

Lemma connect_layer_construction ordinal state layer : construction (connect_layer ordinal state layer).1.1 = construction state.1.1.
Proof.
  destruct state as [[h s] e]. unfold connect_layer. destruct (searchLayerLocked _ _ _ _ _ _ _ _ _) as [cs seen]. cbn [fst].
  by rewrite links_construction, link_construction.
Qed.

Lemma connect_construction h ordinal e level s : construction (connectLocked h ordinal e level s).1 = construction h.
Proof.
  unfold connectLocked. cbv zeta. generalize (layers (Nat.min (n_level (node_at h ordinal)) level) 0) as ls.
  generalize (foldl (λ e layer, greedyLocked h (vectorAt h ordinal) (norm_at h ordinal) e layer) e (layers level (S (n_level (node_at h ordinal))))) as e1.
  intros e1 ls. assert (∀ state, construction (foldl (connect_layer ordinal) state ls).1.1 = construction state.1.1) as Hfold.
  { induction ls as [|layer ls IH]; intros state; [done|]. cbn [foldl]. by rewrite IH, connect_layer_construction. }
  specialize (Hfold (h, s, e1)). by destruct (foldl _ _ ls) as [[h' s'] e'].
Qed.

(** What a goroutine of a parallel build does with a node, run on its own. *)
Lemma link_next_ok h s ordinal e :
  stored h → links_ok h → entry_ok h → scratch_ok (count h) s → (ordinal < count h)%nat → entry h = Some e → e ≠ ordinal →
  let '(h', s') := link_next (h, s) ordinal in
  core h' = core h ∧ links_ok h' ∧ entry_ok h' ∧ scratch_ok (count h') s' ∧ construction h' = construction h ∧
  (entry h' = Some e ∨ entry h' = Some ordinal).
Proof.
  intros Hst Hk He Hm Ho Ee Hne. unfold link_next. rewrite Ee. unfold entry_ok in He. rewrite Ee in He.
  assert (at_layer h (maxLevel h) e) as Hl by (destruct He as (n&Hn&El); exists n; split; [done|lia]).
  pose proof (connectLocked_ok h ordinal e s Hst Hk Hm Ho Hl Hne) as H.
  pose proof (connect_construction h ordinal e (maxLevel h) s) as Hcons.
  destruct (connectLocked h ordinal e (maxLevel h) s) as [h' s']. cbn [fst] in Hcons. destruct H as (Hs&Hk'&Hm').
  assert (entry h' = Some e) as Ee' by (pose proof (f_equal entry Hs) as E; cbn in E; congruence).
  assert (entry_ok h') as He'.
  { unfold entry_ok. rewrite Ee'. destruct He as (n&Hn&El). pose proof (strip_lookup h' h e Hs) as Hx. rewrite Hn in Hx. cbn in Hx.
    destruct (nodes h' !! e) as [n'|]; [|done]. exists n'. split; [done|]. injection Hx as _ Elev _.
    pose proof (f_equal maxLevel Hs) as E. cbn in E. congruence. }
  pose proof (strip_count _ _ Hs) as Ec.
  destruct (raise_entry_ok h' ordinal) as (Hcore&Hk2&He2&Hne2); [by rewrite Ec|done|done|by rewrite Ee'|].
  split; [rewrite Hcore; by apply strip_core|]. split; [done|]. split; [done|].
  split; [by rewrite (core_count _ _ Hcore)|]. split; [unfold raise_entry; by destruct (_ <? _)%nat|].
  unfold raise_entry. destruct (_ <? _)%nat; [by right|by left].
Qed.
