(* ===== verification/HnswPoolSafety.v ===== *)
(** * The HNSW index: what every interleaving keeps

    A pool of workers stays well formed whichever worker steps, from every
    state some picks let all workers return, and the graph that is left has
    the nodes, vectors and levels it started with, good links and an entry on
    its top layer. *)
From Stdlib Require Import ZArith Lia Ascii String Sorting.Permutation FunctionalExtensionality.
From stdpp Require Import base tactics relations list gmap strings.
From S2P Require Import Prelude Wal Core Distance Float TopK Index Lexical Hnsw HnswSearch HnswPool HnswProofs.


(** ** The HNSW index: every interleaving of the linking goroutines

    The programs of the workers only read and write lists they may, and end,
    whatever they read; so every interleaving keeps the graph well formed and
    can be completed, and a worker alone does what [connectLocked] does. *)

Import Hnsw Pool.
Local Set Warnings "-clear-no-such-hyp".
Local Open Scope string_scope.
Local Open Scope Z_scope.
Local Open Scope list_scope.

(** *** Programs that are safe and end *)

(** On nodes whose levels are those of [h], [p] links nodes to other nodes of
    their layer, and ends with [Q], whatever lists of the layer it reads. *)
Inductive safe (h : t) {A} (Q : A → Prop) : prog A → Prop :=
| safe_Done a : Q a → safe h Q (Done a)
| safe_Links layer o k :
    at_layer h layer o → (∀ ls, (∀ x, x ∈ ls → at_layer h layer x) → safe h Q (k ls)) → safe h Q (Links layer o k)
| safe_Link layer o added k :
    at_layer h layer o → (∀ x, x ∈ added → x ≠ o ∧ at_layer h layer x) → safe h Q k → safe h Q (Link layer o added k).

Lemma safe_bind h {A B} (Q : A → Prop) (R : B → Prop) p f :
  safe h Q p → (∀ a, Q a → safe h R (f a)) → safe h R (bind p f).
Proof. intros Hp Hf. induction Hp; cbn [bind]; [by apply Hf|by constructor|by constructor]. Qed.

Lemma safe_mono h {A} (Q R : A → Prop) p : safe h Q p → (∀ a, Q a → R a) → safe h R p.
Proof. intros Hp HQ. induction Hp; constructor; auto. Qed.

Lemma safe_same h h' {A} (Q : A → Prop) p :
  (∀ layer o, at_layer h layer o ↔ at_layer h' layer o) → safe h Q p → safe h' Q p.
Proof.
  intros Hl Hp. induction Hp; [by constructor|constructor; [by apply Hl|]|constructor; [by apply Hl| |done]].
  - intros ls Hls. apply H1. intros x Hx. by apply Hl, Hls.
  - intros x Hx. destruct (H0 x Hx). split; [done|by apply Hl].
Qed.

Section Safe.
Context (h : t).

(** Replies stay on the layer, whatever they are. *)
Lemma layer_bounded layer : closed (λ _, []) (count h) (at_layer h layer).
Proof. constructor; [intros o Ho; by eapply at_layer_bound|intros o o' _ Hin; by apply not_elem_of_nil in Hin]. Qed.

Lemma greedy_steps_safe ident score layer fuel current :
  at_layer h layer current → (room ident score (count h) current < fuel)%nat →
  safe h (at_layer h layer) (greedy_steps ident score layer fuel current (score current)).
Proof.
  revert current. induction fuel as [|fuel IH]; intros current Hc Hf; [lia|]. cbn [greedy_steps]. constructor; [done|]. intros ls Hls.
  destruct (greedy_pass ident score (λ _, []) ls current false) as (next&changed&->&[(->&->&_)|(Hin&->&Hi)]); [by constructor|].
  apply IH; [by apply Hls|]. pose proof (room_lt ident score (λ _, []) (count h) next current (at_layer_bound _ _ _ (Hls _ Hin)) Hi). lia.
Qed.

Lemma explore_steps_safe score layer ef excluded accept (Qm : marks → Prop) fuel st :
  (0 < ef)%nat → (∀ s o, Qm s → Qm (visit s o)) →
  searching score (count h) (at_layer h layer) ef excluded accept st → (pending (count h) st < fuel)%nat → Qm (seen st) →
  safe h (λ st', searching score (count h) (at_layer h layer) ef excluded accept st' ∧ Qm (seen st'))
    (explore_steps score layer ef excluded accept fuel st).
Proof.
  intros Hef HQ. pose proof (layer_bounded layer) as Hc. revert st. induction fuel as [|fuel IH]; intros st Hs Hf Hm; [lia|]. cbn [explore_steps].
  destruct (maxPop (frontier st)) as [[c rest]|] eqn:Epop; [|by constructor].
  destruct (searching_pop (λ _, 0) score (count h) (at_layer h layer) ef excluded accept Hef st c rest Hs Epop) as (Hs1&Hpc&_&Hp1). cbv zeta.
  set (st1 := mkSearch rest (best st) (seen st)) in *. destruct (_ && _); [by constructor|]. constructor; [done|]. intros ls Hls.
  destruct (look_all_ok (λ _, 0) score (λ _, []) (count h) (at_layer h layer) Hc ef excluded accept Hef ls st1 Hs1 Hls) as (Hs2&Hle&_).
  apply IH; [done|lia|]. by apply look_all_marks.
Qed.

Lemma search_steps_safe ident score layer ef excluded accept (Qm : marks → Prop) entry start :
  (0 < ef)%nat → (∀ s o, Qm s → Qm (visit s o)) →
  at_layer h layer entry → excluded ≠ Some entry → marks_ok (count h) start → fresh start → Qm start →
  safe h (λ found, (∀ c, c ∈ found.1 → at_layer h layer (s_ordinal c) ∧ excluded ≠ Some (s_ordinal c)) ∧ Qm found.2)
    (search_steps ident score layer ef excluded accept (fuel h) [entry] start).
Proof.
  intros Hef HQ Hp Hx Hm Hfresh Hstart. unfold search_steps. cbn [foldl].
  destruct (search_start (λ _, 0) score (λ _, []) (count h) (at_layer h layer) (layer_bounded layer) ef excluded accept Hef entry start Hp Hx Hm Hfresh)
    as (Hs&Hpend&_&_&Eseen).
  eapply safe_bind; [apply (explore_steps_safe _ _ _ _ _ Qm); [done|done|exact Hs|exact Hpend|rewrite Eseen; by apply HQ]|].
  intros st [Hst Hq]. constructor. split; [|done]. cbn [fst]. intros c Hc. rewrite sort_slice_elem in Hc.
  destruct (sg_best _ _ _ _ _ _ _ Hst c Hc) as ((Hpc&_)&_&Hxc). done.
Qed.

Context (Hst : stored h) (ordinal : nat).

Lemma link_back_safe layer selected {A} (Q : A → Prop) k :
  (∀ x, x ∈ selected → x ≠ ordinal ∧ at_layer h layer x) → at_layer h layer ordinal → safe h Q k → safe h Q (link_back ordinal layer selected k).
Proof.
  intros Hsel Ho Hk. induction selected as [|x ls IH]; [done|]. unfold link_back. cbn [foldr].
  destruct (Hsel x (list_elem_of_here _ _)) as [Hne Hx]. constructor; [done|by intros y ->%list_elem_of_singleton|].
  apply IH. intros y Hy. apply Hsel. by apply list_elem_of_further.
Qed.

Lemma connect_layer_steps_safe s entry layer :
  scratch_ok (count h) s → at_layer h layer ordinal → at_layer h layer entry → entry ≠ ordinal →
  safe h (λ state, scratch_ok (count h) state.1 ∧ at_layer h layer state.2 ∧ state.2 ≠ ordinal) (connect_layer_steps h ordinal (s, entry) layer).
Proof.
  intros Hm Ho He Hne. destruct (st_config _ Hst) as (_&_&Hm2&Hmef&_). unfold connect_layer_steps. cbv zeta. destruct (next_fresh _ _ Hm) as [Hnext Hfresh].
  eapply safe_bind.
  { apply (search_steps_safe _ _ _ _ _ _ (λ seen, ∃ vs, seen = Marks vs (generation (next s)) ∧ scratch_ok (count h) (mkScratch vs (generation (next s)))));
      [lia| |done|congruence|apply Hnext|done|].
    - intros sn o (vs&->&Hok). exists (<[o := generation (next s)]> vs). split; [done|]. by apply visit_scratch.
    - exists (visited (next s)). split; [done|]. by destruct (next s). }
  intros [candidates seen] [Hcand (vs&E&Hscratch)]. cbn [fst snd] in *. subst seen.
  assert (∀ x, x ∈ selectNeighborsLocked h candidates (m h) → x ≠ ordinal ∧ at_layer h layer x) as Hsel.
  { intros x (c&->&Hin)%selected_ok%list_elem_of_fmap. destruct (Hcand c Hin). split; [congruence|done]. }
  constructor; [done|done|]. apply link_back_safe; [done|done|]. constructor. cbn [fst snd]. split; [done|].
  destruct candidates as [|c cs]; [done|]. destruct (Hcand c (list_elem_of_here _ _)). split; [done|congruence].
Qed.

Lemma descend_steps_safe query_score lo k p :
  safe h (at_layer h (lo + k)) p →
  safe h (at_layer h lo) (foldl (λ p layer, bind p (λ entry, greedy_steps (id_at h) query_score layer (fuel h) entry (query_score entry))) p (rev (seq lo (S k)))).
Proof.
  revert p. induction k as [|k IH]; intros p Hp; rewrite rev_seq_S; cbn [foldl]; set (p' := bind p _).
  all: assert (safe h (at_layer h (lo + _)) p') as Hp' by
    (apply (safe_bind h _ _ _ _ Hp); intros e He; apply greedy_steps_safe; [done|]; unfold fuel;
     pose proof (room_le (id_at h) query_score (count h) e); unfold count in *; lia).
  - cbn. by rewrite Nat.add_0_r in Hp'.
  - apply IH. eapply safe_mono; [exact Hp'|]. intros e He. eapply at_layer_weaken; [|exact He]. lia.
Qed.

Lemma connect_layers_steps_safe k p :
  ((0 < k)%nat → at_layer h (k - 1) ordinal) →
  safe h (λ state, scratch_ok (count h) state.1 ∧ ((0 < k)%nat → at_layer h (k - 1) state.2) ∧ state.2 ≠ ordinal) p →
  safe h (λ state, scratch_ok (count h) state.1) (foldl (λ p layer, bind p (λ state, connect_layer_steps h ordinal state layer)) p (rev (seq 0 k))).
Proof.
  revert p. induction k as [|k IH]; intros p Ho Hp; [eapply safe_mono; [exact Hp|by intros a [? _]]|].
  rewrite rev_seq_S. cbn [foldl]. rewrite Nat.add_0_l. specialize (Ho ltac:(lia)). rewrite Nat.sub_succ, Nat.sub_0_r in Ho. apply IH.
  - intros _. eapply at_layer_weaken; [|exact Ho]. lia.
  - eapply safe_bind; [exact Hp|]. intros [s e] (Hs&He&Hne). cbn [fst snd] in *. specialize (He ltac:(lia)). rewrite Nat.sub_succ, Nat.sub_0_r in He.
    eapply safe_mono; [by apply connect_layer_steps_safe|]. intros [s' e'] (Hs'&He'&Hne'). cbn [fst snd] in *. split; [done|]. split; [|done].
    intros _. eapply at_layer_weaken; [|exact He']. lia.
Qed.

(** A worker's program is safe, and leaves its marks usable. *)
Lemma connect_steps_safe entry level s :
  scratch_ok (count h) s → (ordinal < count h)%nat → at_layer h level entry → entry ≠ ordinal →
  safe h (scratch_ok (count h)) (connect_steps h ordinal entry level s).
Proof.
  intros Hm Ho He Hne. unfold connect_steps. cbv zeta. set (own := n_level (node_at h ordinal)).
  assert (at_layer h own ordinal) as Hol.
  { apply lookup_lt_is_Some in Ho as [n Hn]. exists n. split; [done|]. unfold own, node_at. by rewrite Hn. }
  apply (safe_bind h (λ e, at_layer h (Nat.min own level) e ∧ e ≠ ordinal)).
  - unfold descend_steps, layers. replace (S level - S own)%nat with (level - own)%nat by lia. destruct (level - own)%nat as [|k] eqn:Ek.
    + cbn. constructor. split; [|done]. eapply at_layer_weaken; [|exact He]. lia.
    + eapply safe_mono; [apply descend_steps_safe; constructor; eapply at_layer_weaken; [|exact He]; lia|].
      intros e He'. split; [eapply at_layer_weaken; [|exact He']; lia|]. intros ->. apply at_layer_level in He'. fold own in He'. lia.
  - intros e [He' Hne']. apply (safe_bind h (λ state : scratch * nat, scratch_ok (count h) state.1)); [|intros st Hs'; by apply safe_Done]. unfold layers. rewrite Nat.sub_0_r. apply connect_layers_steps_safe.
    + intros _. rewrite Nat.sub_succ, Nat.sub_0_r. eapply at_layer_weaken; [|exact Hol]. lia.
    + constructor. cbn [fst snd]. split; [done|]. split; [|done]. intros _. by rewrite Nat.sub_succ, Nat.sub_0_r.
Qed.
End Safe.

(** *** A program run alone *)

Inductive runs {A} : t → prog A → t → A → Prop :=
| runs_Done h a : runs h (Done a) h a
| runs_Links h layer o k h' a : runs h (k (neighborsAt h layer o)) h' a → runs h (Links layer o k) h' a
| runs_Link h layer o added k h' a : runs (link layer h o added) k h' a → runs h (Link layer o added k) h' a.

Lemma runs_Links_inv {A} h layer o (k : list nat → prog A) h' a : runs h (Links layer o k) h' a → runs h (k (neighborsAt h layer o)) h' a.
Proof. by inversion 1. Qed.

Lemma runs_Link_inv {A} h layer o added (k : prog A) h' a : runs h (Link layer o added k) h' a → runs (link layer h o added) k h' a.
Proof. by inversion 1. Qed.

Lemma runs_Done_inv {A} h (a : A) h' a' : runs h (Done a) h' a' → h' = h ∧ a' = a.
Proof. by inversion 1. Qed.

Lemma runs_bind {A B} h (p : prog A) (f : A → prog B) h2 b :
  runs h (bind p f) h2 b → ∃ h1 a, runs h p h1 a ∧ runs h1 (f a) h2 b.
Proof.
  revert h. induction p as [a| |layer o k IH|layer o added k IH]; intros h Hr; cbn [bind] in Hr.
  - exists h, a. split; [constructor|done].
  - inversion Hr.
  - apply runs_Links_inv in Hr. destruct (IH _ _ Hr) as (h1&a&?&?). exists h1, a. split; [by constructor|done].
  - apply runs_Link_inv in Hr. destruct (IH _ Hr) as (h1&a&?&?). exists h1, a. split; [by constructor|done].
Qed.

Lemma greedy_runs ident score layer fuel current value h h' o :
  runs h (greedy_steps ident score layer fuel current value) h' o → h' = h ∧ o = greedy_from ident score (neighborsAt h layer) fuel current value.
Proof.
  revert current value. induction fuel as [|fuel IH]; intros current value Hr; cbn [greedy_steps greedy_from] in *; [inversion Hr|].
  apply runs_Links_inv in Hr. destruct (foldl _ _ _) as [[next nextScore] changed]. destruct changed; [by apply IH|by apply runs_Done_inv in Hr].
Qed.

Lemma explore_runs score layer ef excluded accept fuel st h h' st' :
  runs h (explore_steps score layer ef excluded accept fuel st) h' st' → h' = h ∧ st' = explore score (neighborsAt h layer) ef excluded accept fuel st.
Proof.
  revert st. induction fuel as [|fuel IH]; intros st Hr; cbn [explore_steps explore] in *; [inversion Hr|].
  destruct (maxPop (frontier st)) as [[c rest]|]; [|by apply runs_Done_inv in Hr]. cbv zeta in *.
  destruct (_ && _); [by apply runs_Done_inv in Hr|]. apply runs_Links_inv in Hr. by apply IH.
Qed.

Lemma search_runs ident score layer ef excluded accept fuel entries start h h' found :
  runs h (search_steps ident score layer ef excluded accept fuel entries start) h' found →
  h' = h ∧ found = search_layer ident score (neighborsAt h layer) ef excluded accept fuel entries start.
Proof. unfold search_steps. intros Hr. apply runs_bind in Hr as (h1&st&Hr1&Hr2). by apply explore_runs in Hr1 as [-> ->]; apply runs_Done_inv in Hr2 as [-> ->]. Qed.

(** What a program computes from is what linking leaves alone. *)
Lemma strip_fixed h h0 :
  strip h = strip h0 →
  id_at h = id_at h0 ∧ scoreLocked h = scoreLocked h0 ∧ deleted_at h = deleted_at h0 ∧ vectorAt h = vectorAt h0 ∧ norm_at h = norm_at h0 ∧
  fuel h = fuel h0 ∧ efConstruction h = efConstruction h0 ∧ m h = m h0.
Proof.
  intros Hs. pose proof (f_equal metric Hs) as Em. pose proof (f_equal squaredNorms Hs) as En. pose proof (f_equal efConstruction Hs) as Ee.
  pose proof (f_equal m Hs) as Emm. cbn in Em, En, Ee, Emm.
  assert (vectorAt h = vectorAt h0) as Ev by (apply functional_extensionality; intros o; by apply strip_vector).
  assert (norm_at h = norm_at h0) as Enorm by (unfold norm_at; by rewrite En).
  split_and!; try done.
  - apply functional_extensionality. intros o. by apply strip_id.
  - do 3 (apply functional_extensionality; intros ?). unfold scoreLocked. by rewrite Em, Ev, Enorm.
  - apply functional_extensionality. intros o. by apply strip_deleted.
  - unfold fuel. f_equal. by apply strip_count.
Qed.

Lemma strip_link layer h o added : strip (link layer h o added) = strip h.
Proof. unfold link, pruneLocked. cbv zeta. destruct (_ <=? _); by rewrite !strip_change_links. Qed.

Lemma link_back_runs ordinal layer selected {A} (k : prog A) h h' a :
  runs h (link_back ordinal layer selected k) h' a → runs (foldl (λ h x, link layer h x [ordinal]) h selected) k h' a.
Proof.
  revert h. induction selected as [|x ls IH]; intros h Hr; [done|]. unfold link_back in Hr. cbn [foldr] in Hr. apply runs_Link_inv in Hr. by apply IH.
Qed.

Lemma connect_layer_runs h0 h ordinal s entry layer h' st :
  strip h = strip h0 → runs h (connect_layer_steps h0 ordinal (s, entry) layer) h' st →
  connect_layer ordinal (h, s, entry) layer = (h', st.1, st.2) ∧ strip h' = strip h0.
Proof.
  intros Hs. destruct (strip_fixed h h0 Hs) as (Ei&Esc&Ed&Ev&En&Ef&Eefc&Em). unfold connect_layer_steps. cbv zeta. intros Hr.
  apply runs_bind in Hr as (h1&[candidates seen]&Hr1&Hr2). apply search_runs in Hr1 as [-> E].
  apply runs_Link_inv, link_back_runs, runs_Done_inv in Hr2 as [-> ->].
  unfold connect_layer. cbv zeta. unfold searchLayerLocked. rewrite Ei, Esc, Ev, En, Ef, Eefc, <-E.
  unfold selectNeighborsLocked. rewrite Esc, Ed, Ev, En, Em. split; [done|].
  generalize (select_neighbors (λ candidate kept, scoreLocked h0 (vectorAt h0 candidate) (norm_at h0 candidate) kept) (deleted_at h0) candidates (Z.to_nat (m h0))) as selected.
  intros selected. assert (∀ ls h, strip (foldl (λ h x, link layer h x [ordinal]) h ls) = strip h) as Hfold.
  { induction ls as [|x ls IH]; intros g; [done|]. cbn [foldl]. by rewrite IH, strip_link. }
  by rewrite Hfold, strip_link.
Qed.

Lemma connect_layers_runs h0 ordinal ls p h h' st :
  runs h (foldl (λ p layer, bind p (λ state, connect_layer_steps h0 ordinal state layer)) p ls) h' st →
  ∃ h1 st1, runs h p h1 st1 ∧ (strip h1 = strip h0 → foldl (connect_layer ordinal) (h1, st1.1, st1.2) ls = (h', st.1, st.2)).
Proof.
  revert p. induction ls as [|layer ls IH]; intros p Hr; cbn [foldl] in *; [by exists h', st|].
  destruct (IH _ Hr) as (h1&st1&Hr1&E). apply runs_bind in Hr1 as (h2&[s e]&Hr2&Hr3). exists h2, (s, e). split; [done|]. intros Hs.
  destruct (connect_layer_runs h0 h2 ordinal s e layer h1 st1 Hs Hr3) as [E2 Hs1]. cbn [fst snd]. rewrite E2. by apply E.
Qed.

Lemma descend_runs h ordinal ls p h' o :
  runs h (foldl (λ p layer, bind p (λ entry, greedy_steps (id_at h) (scoreLocked h (vectorAt h ordinal) (norm_at h ordinal)) layer (fuel h) entry
    (scoreLocked h (vectorAt h ordinal) (norm_at h ordinal) entry))) p ls) h' o →
  ∃ o1, (∃ h1, runs h p h1 o1 ∧ (h1 = h → h' = h ∧ o = foldl (λ entry layer, greedyLocked h (vectorAt h ordinal) (norm_at h ordinal) entry layer) o1 ls)).
Proof.
  revert p. induction ls as [|layer ls IH]; intros p Hr; cbn [foldl] in *; [exists o, h'; done|].
  destruct (IH _ Hr) as (o1&h1&Hr1&E). apply runs_bind in Hr1 as (h2&o2&Hr2&Hr3). exists o2, h2. split; [done|]. intros ->.
  apply greedy_runs in Hr3 as [-> ->]. by apply E.
Qed.

(** A worker that is alone does what the serial insertion does. *)
Lemma connect_runs h ordinal entry level s h' s' :
  runs h (connect_steps h ordinal entry level s) h' s' → connectLocked h ordinal entry level s = (h', s').
Proof.
  unfold connect_steps, descend_steps. cbv zeta. intros Hr. apply runs_bind in Hr as (h1&e&Hr1&Hr2).
  apply descend_runs in Hr1 as (o1&h2&Hr1&E1). apply runs_Done_inv in Hr1 as [-> ->]. destruct (E1 eq_refl) as [-> ->].
  apply runs_bind in Hr2 as (h2&[s2 e2]&Hr2&Hr3). apply runs_Done_inv in Hr3 as [-> ->].
  apply connect_layers_runs in Hr2 as (h3&st3&Hr2&E2). apply runs_Done_inv in Hr2 as [-> ->]. cbn [fst snd] in *.
  unfold connectLocked. cbv zeta. by rewrite (E2 eq_refl).
Qed.

Import Hnsw Pool.
Local Set Warnings "-clear-no-such-hyp".
Local Open Scope string_scope.
Local Open Scope Z_scope.
Local Open Scope list_scope.

(** ** Well-formed pools *)

(** The node a worker has taken and not finished. *)
Definition taken (ph : phase) : option nat :=
  match ph with Waiting o | Linking o _ _ => Some o | Free | Finished => None end.

Definition worker_ok (h : t) (next : nat) (holder : option nat) (w : nat) (ph : phase) (s : scratch) : Prop :=
  (∀ o, taken ph = Some o → (o < next)%nat ∧ (o < count h)%nat) ∧
  match ph with
  | Free => scratch_ok (count h) s
  | Waiting o => scratch_ok (count h) s ∧ entry h ≠ Some o
  | Linking o raises prg => safe h (scratch_ok (count h)) prg ∧ (raises = true → holder = Some w)
  | Finished => True
  end.

Record pool_ok (h0 : t) (p : pool) : Prop := mkPoolOk {
  po_core : core (graph p) = core h0;
  po_links : links_ok (graph p);
  po_entry : entry_ok (graph p);
  po_construction : construction (graph p) = construction h0;
  po_low : ∃ e, entry (graph p) = Some e ∧ (e < next_node p)%nat;
  po_workers w ph s : workers p !! w = Some (ph, s) → worker_ok (graph p) (next_node p) (entryMu p) w ph s;
  po_distinct w1 ph1 s1 w2 ph2 s2 o :
    workers p !! w1 = Some (ph1, s1) → workers p !! w2 = Some (ph2, s2) → taken ph1 = Some o → taken ph2 = Some o → w1 = w2;
  po_holder w : entryMu p = Some w → ∃ o prg s, workers p !! w = Some (Linking o true prg, s);
}.

Lemma core_at_layer h h' layer o : core h = core h' → at_layer h layer o ↔ at_layer h' layer o.
Proof.
  assert (∀ h h', core h = core h' → at_layer h layer o → at_layer h' layer o) as Hgo.
  { intros g g' Hc%core_strip Ha. eapply strip_at_layer; [exact Hc|]. exact Ha. }
  intros Hc. split; by apply Hgo.
Qed.

Lemma core_safe h h' {A} (Q : A → Prop) p : core h = core h' → safe h Q p → safe h' Q p.
Proof. intros Hc. apply safe_same. intros. by apply core_at_layer. Qed.

(** A worker that does not step keeps what it has. *)
Lemma worker_ok_mono h h' next next' holder holder' w ph s :
  core h' = core h → (next ≤ next')%nat → (entry h' = entry h ∨ entry h' ≠ taken ph) → (holder = Some w → holder' = Some w) →
  worker_ok h next holder w ph s → worker_ok h' next' holder' w ph s.
Proof.
  intros Hc Hn He Hh [Ht Hw]. pose proof (core_count _ _ Hc) as Ec. split.
  - intros o Ho. destruct (Ht o Ho). rewrite Ec. lia.
  - destruct ph as [|o|o raises prg|]; cbn [taken] in *; rewrite ?Ec; try done.
    + destruct Hw as [Hs Hne]. split; [done|]. destruct He as [->|?]; done.
    + destruct Hw as [Hs Hr]. split; [by apply (core_safe h)|auto].
Qed.

Lemma alter_insert {A} (f : A → A) (l : list A) i x : l !! i = Some x → alter f i l = <[i := f x]> l.
Proof.
  intros Hx. apply list_eq. intros j. destruct (decide (j = i)) as [->|Hne].
  - rewrite list_lookup_alter_eq, Hx, list_lookup_insert_eq; [done|by apply lookup_lt_Some in Hx].
  - by rewrite list_lookup_alter_ne, list_lookup_insert_ne.
Qed.

(** Replacing the state of one worker. *)
Lemma pool_update h0 p w ph s h' next' holder' ph' s' :
  pool_ok h0 p → workers p !! w = Some (ph, s) →
  core h' = core (graph p) → links_ok h' → entry_ok h' → construction h' = construction (graph p) →
  (entry h' = entry (graph p) ∨ ∃ o, entry h' = Some o ∧ taken ph = Some o) →
  (next_node p ≤ next')%nat →
  (∀ w', w' ≠ w → entryMu p = Some w' ↔ holder' = Some w') →
  (∀ o, taken ph' = Some o → taken ph = Some o ∨ o = next_node p) →
  worker_ok h' next' holder' w ph' s' →
  (holder' = Some w → ∃ o prg, ph' = Linking o true prg) →
  pool_ok h0 (mkPool h' next' holder' (<[w := (ph', s')]> (workers p))).
Proof.
  intros [Hcore Hlinks Hentry Hcons (e&Ee&Hlow) Hworkers Hdistinct Hholder] Hw Hc Hl He Hcn Hcase Hn Hmu Htaken Hok Hh.
  pose proof (lookup_lt_Some _ _ _ Hw) as Hlt.
  assert (∀ w' ph2 s2 o, w' ≠ w → workers p !! w' = Some (ph2, s2) → taken ph2 = Some o → taken ph' ≠ Some o) as Hother.
  { intros w' ph2 s2 o Hne Hw' Ho Ho'. destruct (Htaken o Ho') as [Hsame| ->].
    - apply Hne. by eapply (Hdistinct w' ph2 s2 w ph s).
    - destruct (Hworkers w' ph2 s2 Hw') as [Hb _]. destruct (Hb _ Ho). lia. }
  constructor; cbn [graph next_node entryMu workers].
  - by rewrite Hc.
  - done.
  - done.
  - by rewrite Hcn.
  - destruct Hcase as [->|(o&->&Ho)]; [exists e; split; [done|lia]|]. exists o. split; [done|].
    destruct (Hworkers w ph s Hw) as [Hb _]. destruct (Hb o Ho). lia.
  - intros w' ph2 s2 Hw2. apply list_lookup_insert_Some in Hw2 as [(<-&[= <- <-]&_)|[Hne Hw2]]; [done|].
    eapply worker_ok_mono; [exact Hc|exact Hn| | |by apply Hworkers].
    + destruct Hcase as [->|(o&->&Ho)]; [by left|right]. intros Ht. symmetry in Ht. apply Hne. symmetry. by eapply (Hdistinct w' ph2 s2 w ph s).
    + intros Hmu'. by apply Hmu.
  - intros w1 ph1 s1 w2 ph2 s2 o H1 H2 Ho1 Ho2.
    apply list_lookup_insert_Some in H1 as [(<-&[= <- <-]&_)|[Hne1 H1]]; apply list_lookup_insert_Some in H2 as [(<-&[= <- <-]&_)|[Hne2 H2]]; [done| | |].
    + exfalso. by apply (Hother w2 ph2 s2 o (not_eq_sym Hne2) H2 Ho2).
    + exfalso. by apply (Hother w1 ph1 s1 o (not_eq_sym Hne1) H1 Ho1).
    + by eapply Hdistinct.
  - intros w' Hmu'. destruct (decide (w' = w)) as [->|Hne].
    + destruct (Hh Hmu') as (o&prg&->). exists o, prg, s'. by rewrite list_lookup_insert_eq.
    + apply Hmu in Hmu'; [|done]. destruct (Hholder w' Hmu') as (o&prg&s2&Hw'). exists o, prg, s2. by rewrite list_lookup_insert_ne.
Qed.

Lemma with_phase_insert h next holder ws w ph s ph' :
  ws !! w = Some (ph, s) → with_phase (mkPool h next holder ws) w ph' = mkPool h next holder (<[w := (ph', s)]> ws).
Proof. intros Hw. unfold with_phase. cbn [graph next_node entryMu workers]. by rewrite (alter_insert _ _ _ _ Hw). Qed.

(** Raising the entry, as a worker that holds it does. *)
Lemma set_entry_ok h o :
  (o < count h)%nat → links_ok h →
  let h' := set_entry h o (n_level (node_at h o)) in core h' = core h ∧ links_ok h' ∧ entry_ok h' ∧ construction h' = construction h.
Proof.
  intros Ho Hl. cbv zeta. rewrite set_entry_top. split; [done|]. split; [by apply links_ok_with_top|]. split; [|done].
  unfold entry_ok. cbn [with_top entry nodes maxLevel]. apply lookup_lt_is_Some in Ho as [n Hn]. exists n. split; [done|]. unfold node_at. by rewrite Hn.
Qed.

Lemma entry_ok_same h h' : strip h' = strip h → entry_ok h → entry_ok h'.
Proof.
  intros Hs He. pose proof (f_equal entry Hs) as Ee. pose proof (f_equal maxLevel Hs) as El. pose proof (strip_nodes _ _ Hs) as En. cbn in Ee, El.
  unfold entry_ok in *. rewrite Ee. destruct (entry h) as [e|].
  - destruct He as (n&Hn&Hlev). pose proof (strip_lookup h' h e Hs) as Hx. rewrite Hn in Hx. cbn in Hx. destruct (nodes h' !! e) as [n'|]; [|done].
    exists n'. split; [done|]. injection Hx as _ Elev _. by rewrite Elev, El.
  - rewrite He in En. by apply fmap_nil_inv in En.
Qed.

(** Any step of any worker keeps the pool well formed. *)
Lemma pool_step_ok h0 p w : stored h0 → pool_ok h0 p → pool_ok h0 (step_worker p w).
Proof.
  intros Hst Hp. unfold step_worker. destruct (workers p !! w) as [[ph s]|] eqn:Hw; [|done].
  assert (stored (graph p)) as Hstp by (eapply core_stored; [symmetry; apply Hp|done]).
  destruct (po_workers _ _ Hp w ph s Hw) as [Htaken Hok]. pose proof (po_holder _ _ Hp w) as Hholder.
  assert (graph p = graph p) as Hg by done. destruct ph as [|o|o raises prg|]; [| | |done].
  - cbv zeta. assert (entryMu p ≠ Some w) as Hmu by (intros E; destruct (Hholder E) as (o&prg&s'&E'); congruence).
    destruct (Nat.leb_spec (length (nodes (graph p))) (next_node p)) as [Hle|Hgt]; rewrite (with_phase_insert _ _ _ _ _ _ _ _ Hw);
      eapply (pool_update h0 p w Free s); try done; try apply Hp; try by left.
    + lia.
    + lia.
    + intros o [= <-]. by right.
    + split; [|split; [done|]].
      * intros o [= <-]. unfold count. lia.
      * destruct (po_low _ _ Hp) as (e&->&Hlow). intros [= ->]. lia.
  - destruct (entryMu p) as [holder|] eqn:Emu; [done|]. destruct (entry (graph p)) as [e|] eqn:Ee; [|done]. destruct Hok as [Hs Hne].
    destruct (Htaken o eq_refl) as [Hnext Hcount]. cbv zeta. rewrite (with_phase_insert _ _ _ _ _ _ _ _ Hw).
    eapply (pool_update h0 p w (Waiting o) s); try done; try apply Hp; try by left.
    + intros w' Hw'. rewrite Emu. split; [done|]. destruct (_ <? _)%nat; [intros [= ->]; done|done].
    + split; [done|]. split; [|intros ->; done]. apply connect_steps_safe; [done|done|done| |congruence].
      pose proof (po_entry _ _ Hp) as He. unfold entry_ok in He. rewrite Ee in He. destruct He as (n&Hn&Hlev). exists n. split; [done|lia].
    + destruct (_ <? _)%nat; [|done]. intros _. eauto.
  - destruct Hok as [Hsafe Hr]. destruct (Htaken o eq_refl) as [Hnext Hcount]. inversion Hsafe as [s' Hs'|layer x k Hx Hk|layer x added k Hx Hadd Hk]; subst prg.
    + cbv zeta. rewrite (alter_insert _ _ _ _ Hw). destruct raises.
      * destruct (set_entry_ok (graph p) o Hcount (po_links _ _ Hp)) as (H1&H2&H3&H4).
        eapply (pool_update h0 p w (Linking o true (Done s')) s); try done.
        -- right. exists o. done.
        -- intros w' Hne. rewrite (Hr eq_refl). split; [congruence|done].
      * eapply (pool_update h0 p w (Linking o false (Done s')) s); try done; try apply Hp; try by left.
        intros E. destruct (Hholder E) as (o2&prg&s2&E2). congruence.
    + destruct p as [g next holder ws]. cbn [graph next_node entryMu workers] in *. rewrite (with_phase_insert _ _ _ _ _ _ _ _ Hw).
      eapply (pool_update h0 (mkPool g next holder ws) w (Linking o raises (Links layer x k)) s);
        [exact Hp|exact Hw|done|apply Hp|apply Hp|done|by left|done|done|by left| |].
      * split; [done|]. split; [|done]. apply Hk. intros y Hy. by apply (closed_links _ _ _ (layer_closed g layer (po_links _ _ Hp)) x).
      * intros E. destruct (Hholder E) as (o2&prg&s2&E2). rewrite E2 in Hw. injection Hw as _ -> _ _. eauto.
    + rewrite (with_phase_insert _ _ _ _ _ _ _ _ Hw).
      assert (2 ≤ m (graph p)) as Hm by (destruct (st_config _ Hstp) as (_&_&?&_); done).
      destruct (link_ok layer (graph p) x added Hm (po_links _ _ Hp) Hx Hadd) as [Hl Hs].
      eapply (pool_update h0 p w (Linking o raises (Link layer x added k)) s); try done; try by left.
      * by apply strip_core.
      * eapply entry_ok_same; [exact Hs|apply Hp].
      * by rewrite link_construction.
      * left. pose proof (f_equal entry Hs) as E. exact E.
      * split; [intros o' Ho'; rewrite (strip_count _ _ Hs); by apply Htaken|]. split; [|done]. rewrite (strip_count _ _ Hs).
        apply (core_safe (graph p)); [symmetry; by apply strip_core|done].
      * intros E. destruct (Hholder E) as (o2&prg&s2&E2). rewrite E2 in Hw. injection Hw as _ -> _ _. eauto.
Qed.

Lemma pool_run_ok h0 p picks : stored h0 → pool_ok h0 p → pool_ok h0 (run p picks).
Proof. intros Hst. revert p. induction picks as [|w picks IH]; intros p Hp; [done|]. cbn. by apply IH, pool_step_ok. Qed.

Lemma run_app p picks picks' : run p (picks ++ picks') = run (run p picks) picks'.
Proof. apply foldl_app. Qed.

Lemma start_scratch h : scratch_ok (count h) (mkScratch (replicate (length (nodes h)) 0) 0).
Proof. split; [apply length_replicate|]. split; [cbn; lia|]. intros o mark [-> _]%lookup_replicate. cbn. lia. Qed.

Lemma start_ok h first workers_ e :
  links_ok h → entry_ok h → entry h = Some e → (e < first)%nat → pool_ok h (start h first workers_).
Proof.
  intros Hl He Ee Hlt. constructor; cbn [start graph next_node entryMu workers]; try done; [by exists e| |].
  - intros w ph s [[= -> ->] _]%lookup_replicate. split; [done|]. apply start_scratch.
  - intros w1 ph1 s1 w2 ph2 s2 o [[= -> ->] _]%lookup_replicate _ Ho. done.
Qed.

(** ** Completing an interleaving *)

Section Completing.
Context (h0 : t) (Hst : stored h0).

(** A worker that links gets to the end of its program, which it runs as if
    it were alone when no other worker steps. *)
Lemma linking_ends w o r h (prg : prog scratch) s p :
  safe h (scratch_ok (count h)) prg → pool_ok h0 p → core (graph p) = core h → workers p !! w = Some (Linking o r prg, s) →
  ∃ k h' s', runs (graph p) prg h' s' ∧
    run p (replicate k w) = mkPool (if r then set_entry h' o (n_level (node_at h' o)) else h') (next_node p) (if r then None else entryMu p)
                              (<[w := (Free, s')]> (workers p)).
Proof.
  intros Hsafe. revert p. induction Hsafe as [s' Hs'|layer x k Hx Hk IH|layer x added k Hx Hadd Hk IH]; intros p Hp Hc Hw.
  - exists 1%nat, (graph p), s'. split; [constructor|]. cbn [replicate]. unfold run. cbn [foldl]. unfold step_worker. rewrite Hw. cbv zeta.
    by rewrite (alter_insert _ _ _ _ Hw).
  - pose proof (pool_step_ok h0 p w Hst Hp) as Hp1. unfold step_worker in Hp1. rewrite Hw in Hp1. unfold with_phase in Hp1. rewrite (alter_insert _ _ _ _ Hw) in Hp1.
    cbn [snd] in Hp1. destruct (IH (neighborsAt (graph p) layer x)) with (p := mkPool (graph p) (next_node p) (entryMu p) (<[w := (Linking o r (k (neighborsAt (graph p) layer x)), s)]> (workers p)))
      as (n&h'&s'&Hr&E); [|done|done|by apply list_lookup_insert_eq, (lookup_lt_Some _ _ _ Hw)|].
    { intros y Hy. apply (core_at_layer _ _ _ _ Hc). apply (closed_links _ _ _ (layer_closed (graph p) layer (po_links _ _ Hp)) x); [|done].
      by apply (core_at_layer _ _ _ _ Hc). }
    exists (S n), h', s'. split; [by constructor|]. cbn [replicate]. unfold run. cbn [foldl]. fold (run (step_worker p w) (replicate n w)).
    unfold step_worker. rewrite Hw. unfold with_phase. rewrite (alter_insert _ _ _ _ Hw). cbn [snd]. rewrite E. cbn [graph next_node entryMu workers].
    by rewrite list_insert_insert_eq.
  - pose proof (pool_step_ok h0 p w Hst Hp) as Hp1. unfold step_worker in Hp1. rewrite Hw in Hp1. rewrite (with_phase_insert _ _ _ _ _ _ _ _ Hw) in Hp1.
    destruct (IH (mkPool (link layer (graph p) x added) (next_node p) (entryMu p) (<[w := (Linking o r k, s)]> (workers p))))
      as (n&h'&s'&Hr&E); [done| |by apply list_lookup_insert_eq, (lookup_lt_Some _ _ _ Hw)|].
    { cbn [graph]. rewrite <-Hc. apply strip_core, strip_link. }
    exists (S n), h', s'. split; [by constructor|]. cbn [replicate]. unfold run. cbn [foldl]. fold (run (step_worker p w) (replicate n w)).
    unfold step_worker. rewrite Hw. rewrite (with_phase_insert _ _ _ _ _ _ _ _ Hw), E. cbn [graph next_node entryMu workers]. by rewrite list_insert_insert_eq.
Qed.

(** A free worker that steps alone takes and links every node left, one after
    the other, and returns. *)
Lemma free_ends w s p :
  pool_ok h0 p → workers p !! w = Some (Free, s) → entryMu p = None →
  ∃ k next, (count (graph p) ≤ next)%nat ∧ run p (replicate k w) =
    let '(h', s') := foldl link_next (graph p, s) (seq (next_node p) (count (graph p) - next_node p)) in
    mkPool h' next None (<[w := (Finished, s')]> (workers p)).
Proof.
  remember (count (graph p) - next_node p)%nat as left_ eqn:El. revert p s El. induction left_ as [|left_ IH]; intros p s El Hp Hw Hmu.
  { exists 1%nat, (S (next_node p)). split; [lia|]. cbn [replicate seq foldl]. unfold run. cbn [foldl]. unfold step_worker. rewrite Hw. cbv zeta.
    rewrite (proj2 (Nat.leb_le _ _)) by (unfold count in *; lia). by rewrite (with_phase_insert _ _ _ _ _ _ _ _ Hw), Hmu. }
  pose proof (lookup_lt_Some _ _ _ Hw) as Hlt. set (o := next_node p) in *.
  set (p1 := mkPool (graph p) (S o) None (<[w := (Waiting o, s)]> (workers p))).
  assert (step_worker p w = p1) as E1.
  { unfold step_worker. rewrite Hw. cbv zeta. fold o. rewrite (proj2 (Nat.leb_gt _ _)) by (unfold count in *; lia). by rewrite (with_phase_insert _ _ _ _ _ _ _ _ Hw), Hmu. }
  assert (pool_ok h0 p1) as Hp1 by (rewrite <-E1; by apply pool_step_ok).
  assert (workers p1 !! w = Some (Waiting o, s)) as Hw1 by by apply list_lookup_insert_eq.
  destruct (po_low _ _ Hp1) as (e&Ee&_). change (graph p1) with (graph p) in Ee.
  set (raises := (maxLevel (graph p) <? n_level (node_at (graph p) o))%nat). set (prg := connect_steps (graph p) o e (maxLevel (graph p)) s).
  set (p2 := mkPool (graph p) (S o) (if raises then Some w else None) (<[w := (Linking o raises prg, s)]> (workers p))).
  assert (step_worker p1 w = p2) as E2.
  { unfold step_worker. rewrite Hw1. change (entryMu p1) with (@None nat). change (graph p1) with (graph p). rewrite Ee. cbv zeta. fold raises prg.
    rewrite (with_phase_insert _ _ _ _ _ _ _ _ Hw1). unfold p1, p2. cbn [next_node workers]. by rewrite list_insert_insert_eq. }
  assert (pool_ok h0 p2) as Hp2 by (rewrite <-E2; by apply pool_step_ok).
  assert (workers p2 !! w = Some (Linking o raises prg, s)) as Hw2 by by apply list_lookup_insert_eq.
  destruct (po_workers _ _ Hp2 w _ s Hw2) as [Ht [Hsafe _]]. destruct (Ht o eq_refl) as [_ Hcount].
  destruct (linking_ends w o raises (graph p2) prg s p2 Hsafe Hp2 eq_refl Hw2) as (k&h'&s'&Hr&E3).
  change (graph p2) with (graph p) in *. pose proof (connect_runs _ _ _ _ _ _ _ Hr) as Hconnect.
  destruct (po_workers _ _ Hp1 w _ s Hw1) as [_ [Hs Hne]]. change (graph p1) with (graph p) in *.
  pose proof (po_entry _ _ Hp) as He. unfold entry_ok in He. rewrite Ee in He. destruct He as (n&Hn&Hlev).
  pose proof (connectLocked_ok (graph p) o e s ltac:(eapply core_stored; [symmetry; apply (po_core _ _ Hp)|exact Hst]) (po_links _ _ Hp) Hs Hcount
    ltac:(exists n; split; [done|lia]) ltac:(congruence)) as Hconn.
  rewrite Hconnect in Hconn. destruct Hconn as [Hstrip _].
  assert (link_next (graph p, s) o = (if raises then set_entry h' o (n_level (node_at h' o)) else h', s')) as Enext.
  { unfold link_next. rewrite Ee, Hconnect. unfold raise_entry. pose proof (f_equal maxLevel Hstrip) as Em. cbn in Em. by rewrite Em, (strip_level _ _ o Hstrip). }
  set (h1 := if raises then set_entry h' o (n_level (node_at h' o)) else h') in *.
  set (p3 := mkPool h1 (S o) None (<[w := (Free, s')]> (workers p))).
  assert (run p (replicate (2 + k) w) = p3) as E4.
  { cbn [Nat.add replicate]. unfold run. cbn [foldl]. rewrite E1, E2. fold (run p2 (replicate k w)). rewrite E3. unfold p3, p2. cbn [next_node entryMu workers].
    rewrite list_insert_insert_eq. by destruct raises. }
  assert (pool_ok h0 p3) as Hp3 by (rewrite <-E4; by apply pool_run_ok).
  assert (count h1 = count (graph p)) as Ec.
  { rewrite <-(strip_count _ _ Hstrip). unfold h1. by destruct raises. }
  destruct (IH p3 s') as (k'&next&Hnext&E5); [unfold p3; cbn [graph next_node]; rewrite Ec; lia|done|by apply list_lookup_insert_eq|done|].
  exists (2 + k + k')%nat, next. split; [unfold p3 in Hnext; cbn [graph] in Hnext; lia|]. rewrite replicate_add, run_app, E4, E5. cbn [seq foldl]. rewrite Enext.
  change (graph p3) with h1. change (next_node p3) with (S o). destruct (foldl link_next (h1, s') (seq (S o) left_)) as [h2 s2].
  unfold p3. cbn [workers]. by rewrite list_insert_insert_eq.
Qed.

(** When no node is left, the workers that are free return. *)
Lemma rest_ends k p :
  pool_ok h0 p → entryMu p = None → (count (graph p) ≤ next_node p)%nat →
  (∀ w ph s, workers p !! w = Some (ph, s) → ph = Finished ∨ ph = Free ∧ (w < k)%nat) →
  ∃ picks, all_finished (run p picks) = true ∧ graph (run p picks) = graph p.
Proof.
  revert p. induction k as [|k IH]; intros p Hp Hmu Hle Hws.
  { exists []. split; [|done]. apply forallb_forall. intros [ph s] Hin. apply list_elem_of_In, list_elem_of_lookup in Hin as [w Hw].
    destruct (Hws w ph s Hw) as [->|[_ ?]]; [done|lia]. }
  destruct (workers p !! k) as [[ph s]|] eqn:Hw; [|apply IH; [done|done|done|]].
  2: { intros w ph s Hw'. destruct (Hws w ph s Hw') as [?|[? ?]]; [by left|right]. split; [done|]. assert (w ≠ k) by congruence. lia. }
  destruct (Hws k ph s Hw) as [->|[-> _]].
  { apply IH; [done|done|done|]. intros w ph s' Hw'. destruct (Hws w ph s' Hw') as [?|[-> ?]]; [by left|right]. split; [done|]. assert (w ≠ k) by congruence. lia. }
  destruct (free_ends k s p Hp Hw Hmu) as (n&next&Hnext&E). replace (count (graph p) - next_node p)%nat with 0%nat in E by lia. cbn [seq foldl] in E.
  pose proof (pool_run_ok h0 p (replicate n k) Hst Hp) as Hp1.
  destruct (IH (run p (replicate n k))) as (picks&H1&H2); [done|by rewrite E|by rewrite E| |].
  - rewrite E. cbn [workers]. intros w ph s' [(<-&[= <- <-]&_)|[Hne Hw']]%list_lookup_insert_Some; [by left|].
    destruct (Hws w ph s' Hw') as [?|[-> ?]]; [by left|right]. split; [done|lia].
  - exists (replicate n k ++ picks). rewrite run_app. split; [done|]. by rewrite H2, E.
Qed.

(** A worker that no other keeps from the entry's mutex returns when it steps
    alone. *)
Lemma worker_ends w p :
  pool_ok h0 p → (w < length (workers p))%nat → (entryMu p = None ∨ entryMu p = Some w) →
  ∃ picks s, entryMu (run p picks) = None ∧ workers (run p picks) !! w = Some (Finished, s) ∧
    length (workers (run p picks)) = length (workers p) ∧ ∀ w', w' ≠ w → workers (run p picks) !! w' = workers p !! w'.
Proof.
  intros Hp Hlt Hmu. apply lookup_lt_is_Some in Hlt as [[ph s] Hw].
  assert (∀ p1 s1, pool_ok h0 p1 → workers p1 !! w = Some (Free, s1) → entryMu p1 = None →
    ∃ picks s2, entryMu (run p1 picks) = None ∧ workers (run p1 picks) !! w = Some (Finished, s2) ∧
      length (workers (run p1 picks)) = length (workers p1) ∧ ∀ w', w' ≠ w → workers (run p1 picks) !! w' = workers p1 !! w') as Hfree.
  { intros p1 s1 Hp1 Hw1 Hmu1. destruct (free_ends w s1 p1 Hp1 Hw1 Hmu1) as (k&next&_&E). destruct (foldl link_next _ _) as [h' s'].
    exists (replicate k w), s'. rewrite E. cbn [entryMu workers]. split; [done|]. split; [apply list_lookup_insert_eq; by apply lookup_lt_Some in Hw1|].
    split; [apply length_insert|]. intros w' Hne. by apply list_lookup_insert_ne. }
  assert (∀ o r prg s1 p1, pool_ok h0 p1 → workers p1 !! w = Some (Linking o r prg, s1) → (r = false → entryMu p1 = None) →
    ∃ picks s2, entryMu (run p1 picks) = None ∧ workers (run p1 picks) !! w = Some (Finished, s2) ∧
      length (workers (run p1 picks)) = length (workers p1) ∧ ∀ w', w' ≠ w → workers (run p1 picks) !! w' = workers p1 !! w') as Hlinking.
  { intros o r prg s1 p1 Hp1 Hw1 Hmu1. destruct (po_workers _ _ Hp1 w _ _ Hw1) as [_ [Hsafe _]].
    destruct (linking_ends w o r (graph p1) prg s1 p1 Hsafe Hp1 eq_refl Hw1) as (k&h'&s'&_&E).
    pose proof (pool_run_ok h0 p1 (replicate k w) Hst Hp1) as Hp2. pose proof (lookup_lt_Some _ _ _ Hw1) as Hlt.
    destruct (Hfree (run p1 (replicate k w)) s') as (picks&s2&H1&H2&H3&H4); [done|rewrite E; by apply list_lookup_insert_eq|rewrite E; destruct r; [done|by apply Hmu1]|].
    exists (replicate k w ++ picks), s2. rewrite run_app. split; [done|]. split; [done|]. split; [rewrite H3, E; apply length_insert|].
    intros w' Hne. rewrite H4, E by done. by apply list_lookup_insert_ne. }
  destruct (po_workers _ _ Hp w ph s Hw) as [_ Hok]. destruct ph as [|o|o r prg|].
  - destruct Hmu as [Hmu|Hmu]; [by apply (Hfree p s)|]. destruct (po_holder _ _ Hp w Hmu) as (o&prg&s'&E). congruence.
  - destruct Hmu as [Hmu|Hmu]; [|destruct (po_holder _ _ Hp w Hmu) as (o'&prg&s'&E); congruence].
    destruct (po_low _ _ Hp) as (e&Ee&_). pose proof (pool_step_ok h0 p w Hst Hp) as Hp1.
    set (raises := (maxLevel (graph p) <? n_level (node_at (graph p) o))%nat).
    assert (step_worker p w = mkPool (graph p) (next_node p) (if raises then Some w else None)
      (<[w := (Linking o raises (connect_steps (graph p) o e (maxLevel (graph p)) s), s)]> (workers p))) as E.
    { unfold step_worker. rewrite Hw, Hmu, Ee. cbv zeta. by rewrite (with_phase_insert _ _ _ _ _ _ _ _ Hw). }
    rewrite E in Hp1. pose proof (lookup_lt_Some _ _ _ Hw) as Hlt.
    destruct (Hlinking o raises (connect_steps (graph p) o e (maxLevel (graph p)) s) s _ Hp1) as (picks&s2&H1&H2&H3&H4); [by apply list_lookup_insert_eq|intros Hr; cbn [entryMu]; by rewrite Hr|].
    exists (w :: picks), s2. unfold run in *. cbn [foldl]. rewrite E. split; [done|]. split; [done|]. split; [rewrite H3; apply length_insert|].
    intros w' Hne. rewrite H4 by done. by apply list_lookup_insert_ne.
  - apply (Hlinking o r prg s p Hp Hw). intros ->. destruct Hmu as [Hmu|Hmu]; [done|]. destruct (po_holder _ _ Hp w Hmu) as (o'&prg'&s'&E). congruence.
  - exists [], s. cbn. split; [|done]. destruct Hmu as [Hmu|Hmu]; [done|]. destruct (po_holder _ _ Hp w Hmu) as (o'&prg'&s'&E). congruence.
Qed.

(** Whatever has happened, all workers can still return. *)
Lemma pool_ends p : pool_ok h0 p → ∃ picks, all_finished (run p picks) = true.
Proof.
  intros Hp.
  assert (∃ picks, entryMu (run p picks) = None) as (first&Hmu).
  { destruct (entryMu p) as [w|] eqn:E; [|by exists []]. destruct (po_holder _ _ Hp w E) as (o&prg&s&Hw).
    destruct (worker_ends w p Hp (lookup_lt_Some _ _ _ Hw) (or_intror E)) as (picks&s'&H&_). by exists picks. }
  assert (∀ k, (k ≤ length (workers (run p first)))%nat → ∃ picks, entryMu (run p picks) = None ∧ length (workers (run p picks)) = length (workers (run p first)) ∧
    ∀ w, (w < k)%nat → ∃ s, workers (run p picks) !! w = Some (Finished, s)) as Hall.
  { induction k as [|k IH]; intros Hk; [exists first; split; [done|split; [done|lia]]|].
    destruct IH as (picks&Hmu'&Hlen&Hfin); [lia|]. pose proof (pool_run_ok h0 p picks Hst Hp) as Hp'.
    destruct (worker_ends k (run p picks) Hp' ltac:(lia) (or_introl Hmu')) as (more&s&H1&H2&H3&H4).
    exists (picks ++ more). rewrite run_app. split; [done|]. split; [congruence|]. intros w Hw. destruct (decide (w = k)) as [->|Hne]; [by exists s|].
    destruct (Hfin w ltac:(lia)) as (s'&Hw'). exists s'. by rewrite H4. }
  destruct (Hall _ (le_n _)) as (picks&_&Hlen&Hfin). exists picks. apply forallb_forall. intros [ph s] Hin. cbn [fst].
  apply list_elem_of_In, list_elem_of_lookup in Hin as [w Hw]. pose proof (lookup_lt_Some _ _ _ Hw) as Hlt.
  destruct (Hfin w ltac:(lia)) as (s'&Hw'). rewrite Hw in Hw'. by injection Hw' as -> _.
Qed.
End Completing.

(** C14. Linking by several goroutines is safe under every interleaving: each
    state reached has the nodes, vectors and levels of the start, links within
    bounds and layers, and an entry on the top layer; no worker is stuck in a
    loop; and from each state reached some steps let every worker return. *)
Theorem parallel_linking_safe h first workers_ e picks :
  stored h → links_ok h → entry_ok h → entry h = Some e → (e < first)%nat →
  let p := run (start h first workers_) picks in
  core (graph p) = core h ∧ links_ok (graph p) ∧ entry_ok (graph p) ∧
  (∀ w o raises s, workers p !! w ≠ Some (Linking o raises Spin, s)) ∧
  ∃ more, all_finished (run p more) = true.
Proof.
  intros Hst Hl He Ee Hlt. cbv zeta. pose proof (pool_run_ok h _ picks Hst (start_ok h first workers_ e Hl He Ee Hlt)) as Hp.
  set (p := run (start h first workers_) picks) in *. split; [apply Hp|]. split; [apply Hp|]. split; [apply Hp|]. split; [|by apply (pool_ends h)].
  intros w o raises s Hw. destruct (po_workers _ _ Hp w _ _ Hw) as [_ [Hsafe _]]. inversion Hsafe.
Qed.
