(* ===== verification/HnswIndex.v ===== *)
(** * The HNSW index: the operations refine a map

    Upserts, deletions and batches act on an index as on the map from ids to
    vectors, with the same errors; the index therefore implements the vector
    index interface segments are written against. *)
From Stdlib Require Import ZArith Lia Ascii String Sorting.Permutation.
From stdpp Require Import base tactics relations list gmap strings.
From S2P Require Import Prelude Wal Core Distance Float TopK Index Lexical Hnsw HnswSearch HnswPool HnswProofs HnswPoolSafety.


(** ** The HNSW index: insertion, batches and rebuilding

    Inserting a node, copying a vector, building from a list of vectors,
    serially or by several goroutines, and rebuilding keep the invariant and
    act on the contents as on a map. *)

Import Hnsw Pool.
Local Set Warnings "-clear-no-such-hyp".
Local Open Scope string_scope.
Local Open Scope Z_scope.
Local Open Scope list_scope.

(** *** Insertion *)

Lemma chunk_app (width o : nat) (vs v : list Z) :
  ((o + 1) * width ≤ length vs)%nat → take width (drop (o * width) (vs ++ v)) = take width (drop (o * width) vs).
Proof. intros H. rewrite drop_app_le by lia. rewrite take_app_le; [done|]. rewrite length_drop. lia. Qed.

Lemma chunk_last (width n : nat) (vs v : list Z) :
  length vs = (n * width)%nat → length v = width → take width (drop (n * width) (vs ++ v)) = v.
Proof. intros <- <-. by rewrite drop_app_length, take_ge. Qed.

Section Operations.
Context {LE : LogExp}.

(** A known id is not inserted again. *)
Lemma append_node_ok h id v :
  stored h → links_ok h → scratch_ok (count h) (construction h) → len v = dimension h → ordinals h !! id = None →
  let h' := appendNodeLocked h id v in
  stored h' ∧ links_ok h' ∧ scratch_ok (count h') (construction h') ∧ count h' = S (count h) ∧
  contents h' = <[id := v]> (contents h) ∧ settings h' = settings h ∧ entry h' = entry h ∧ maxLevel h' = maxLevel h ∧
  (∀ o n, nodes h !! o = Some n → nodes h' !! o = Some n) ∧ immutableGraph h' = immutableGraph h ∧ (norms_ok h → norms_ok h').
Proof.
  intros Hst Hk Hm Hv Hnew. cbv zeta. destruct (st_config _ Hst) as (Hd&Hmet&Hm2&_). pose proof (st_vectors _ Hst) as Hlen.
  set (h' := appendNodeLocked h id v).
  assert (count h' = S (count h)) as Ec by (unfold count, h'; cbn; rewrite length_app; cbn; lia).
  assert (length v = Z.to_nat (dimension h)) as Hv' by (unfold len in Hv; lia).
  assert (∀ o, (o < count h)%nat → vectorAt h' o = vectorAt h o) as Hold.
  { intros o Ho. unfold vectorAt, h'. cbn. apply chunk_app. rewrite Hlen. apply Nat.mul_le_mono_r. lia. }
  assert (vectorAt h' (count h) = v) as Hlast by (unfold vectorAt, h'; cbn; by apply chunk_last).
  assert (∀ o n, nodes h !! o = Some n → nodes h' !! o = Some n) as Hnodes.
  { intros o n Hn. unfold h'. cbn. rewrite lookup_app_l; [done|]. by apply lookup_lt_Some in Hn. }
  assert (∀ o n, nodes h' !! o = Some n → nodes h !! o = Some n ∨ o = count h ∧ n = mkNode id (deterministicLevel id (m h)) false (replicate (S (deterministicLevel id (m h))) [])) as Hinv.
  { intros o n. unfold h'. cbn. rewrite lookup_app_Some. intros [?|[Hge Hn]]; [by left|right].
    apply list_lookup_singleton_Some in Hn as [Hz <-]. split; [unfold count; lia|done]. }
  assert (nodes h' !! count h = Some (mkNode id (deterministicLevel id (m h)) false (replicate (S (deterministicLevel id (m h))) []))) as Hnode.
  { unfold h', count. cbn. by rewrite list_lookup_middle. }
  split_and!; try done.
  - constructor.
    + apply Hst.
    + rewrite Ec. unfold h'. cbn. rewrite length_app, Hlen, Hv'. lia.
    + rewrite Ec. unfold h'. cbn. rewrite length_app, (st_norms _ Hst). cbn. lia.
    + intros i o. change (ordinals h' !! i) with (<[id := count h]> (ordinals h) !! i). rewrite lookup_insert_Some. split.
      * intros [[<- <-]|[Hne Ho]]; [eexists; split; [exact Hnode|done]|]. apply (st_ordinals _ Hst) in Ho as (n&Hn&?). eauto.
      * intros (n&Hn&Hdel&Hid). destruct (Hinv o n Hn) as [Hn'|[-> ->]]; [|left; by cbn in Hid].
        assert (ordinals h !! i = Some o) as Ho by (apply (st_ordinals _ Hst); eauto). right. split; [congruence|done].
    + change (live h') with (live h + 1). change (ordinals h') with (<[id := count h]> (ordinals h)).
      rewrite map_size_insert_None by done. rewrite (st_live _ Hst). lia.
  - assert (∀ layer o, at_layer h layer o → at_layer h' layer o) as Hat by (intros layer o (n&Hn&Hl); exists n; eauto).
    constructor; [apply Hk| |].
    + intros o n Hn. destruct (Hinv o n Hn) as [Hn'|[-> ->]]; [by apply Hk in Hn'|]. cbn [n_neighbors n_level]. by rewrite length_replicate.
    + intros o n layer l Hn Hl. destruct (Hinv o n Hn) as [Hn'|[-> ->]].
      * destruct (lk_lists _ Hk o n layer l Hn' Hl) as [Hb Hin]. constructor; [done|]. intros x [? ?]%Hin. eauto.
      * cbn [n_neighbors] in Hl. apply lookup_replicate in Hl as [-> _]. constructor; [|intros x Hx; by apply not_elem_of_nil in Hx].
        unfold maxNeighbors. change (m h') with (m h). destruct layer; unfold len; cbn [length Z.of_nat]; lia.
  - destruct Hm as (Hl&Hg&Hmk). rewrite Ec. split; [unfold h'; cbn; rewrite length_app, Hl; cbn; lia|]. split; [done|].
    intros o mark. unfold h'. cbn. rewrite lookup_app_Some. intros [?|[_ Hx]]; [by apply (Hmk o)|]. apply list_lookup_singleton_Some in Hx as [_ <-]. lia.
  - unfold contents. change (ordinals h') with (<[id := count h]> (ordinals h)). rewrite fmap_insert, Hlast. f_equal. apply map_fmap_ext.
    intros i o Ho. apply Hold. apply (st_ordinals _ Hst) in Ho as (n&Hn&_). by apply lookup_lt_Some in Hn.
  - intros Hnorm o Ho. rewrite Ec in Ho. unfold norm_at. unfold h' at 1. cbn [appendNodeLocked squaredNorms].
    change (querySquaredNorm h' (vectorAt h' o)) with (querySquaredNorm h (vectorAt h' o)). destruct (decide (o = count h)) as [->|Hne].
    + rewrite Hlast. rewrite <-(st_norms _ Hst). by rewrite list_lookup_middle.
    + rewrite lookup_app_l by (rewrite (st_norms _ Hst); lia). rewrite Hold by lia. apply Hnorm. lia.
Qed.

Lemma entry_node h e : entry_ok h → entry h = Some e → (e < count h)%nat.
Proof. unfold entry_ok. intros H E. rewrite E in H. destruct H as (n&Hn&_). by apply lookup_lt_Some in Hn. Qed.

Lemma insertLocked_ok h id v :
  linked h → len v = dimension h → ordinals h !! id = None →
  linked (insertLocked h id v) ∧ (norms_ok h → norms_ok (insertLocked h id v)) ∧ contents (insertLocked h id v) = <[id := v]> (contents h) ∧ settings (insertLocked h id v) = settings h ∧
  dom (ordinals (insertLocked h id v)) = {[id]} ∪ dom (ordinals h).
Proof.
  intros [Hst Hk He Hm Hi] Hv Hnew.
  destruct (append_node_ok h id v Hst Hk Hm Hv Hnew) as (Hst1&Hk1&Hm1&Ec&Hcont&Hset&Ee&El&Hnodes&Himm&Hnorm). unfold insertLocked. set (h1 := appendNodeLocked h id v) in *.
  assert (dom (ordinals h1) = {[id]} ∪ dom (ordinals h)) as Hdom by (unfold h1; cbn; apply dom_insert_L).
  assert ((length (nodes h) < count h1)%nat) as Hlt by (rewrite Ec; unfold count; lia).
  change (length (nodes h)) with (count h) in *. destruct (entry h1) as [e|] eqn:Ee1.
  - assert (e < count h)%nat as Hlt' by (eapply entry_node; [done|congruence]).
    assert (entry_ok h1) as He1.
    { unfold entry_ok in *. rewrite Ee1. rewrite <-Ee in He. destruct He as (n&Hn&E). exists n. split; [by apply Hnodes|congruence]. }
    pose proof (link_next_ok h1 (construction h1) (count h) e Hst1 Hk1 He1 Hm1 Hlt Ee1 ltac:(lia)) as H. unfold link_next in H. rewrite Ee1 in H.
    destruct (connectLocked h1 (count h) e (maxLevel h1) (construction h1)) as [h2 s2]. destruct H as (Hc&Hk2&He2&Hm2&_&_).
    assert (raise_entry (set_construction h2 s2) (count h) = set_construction (raise_entry h2 (count h)) s2) as ->.
    { unfold raise_entry. change (node_at (set_construction h2 s2) (count h)) with (node_at h2 (count h)). cbn [maxLevel set_construction]. by destruct (_ <? _)%nat. }
    set (h3 := raise_entry h2 (count h)) in *. assert (core (set_construction h3 s2) = core h1) as Hc' by exact Hc.
    destruct (core_contents _ _ Hc') as [E1 E2]. split; [|rewrite E1, E2; split_and!; [|done|done|]].
    + constructor; [by eapply core_stored; [symmetry|]|by apply (links_ok_same h3)|exact He2|exact Hm2|].
      rewrite (core_mutable _ _ Hc'). by rewrite Himm.
    + intros Hn. eapply core_norms; [symmetry; exact Hc'|by apply Hnorm].
    + pose proof (f_equal ordinals Hc') as E. cbn [core strip set_construction set_nodes with_top ordinals] in *. by rewrite E.
  - rewrite set_entry_top. assert (core (with_top h1 (Some (count h)) (n_level (node_at h1 (count h)))) = core h1) as Hc' by done.
    destruct (core_contents _ _ Hc') as [E1 E2]. split; [|rewrite E1, E2; split_and!; [intros Hn; eapply core_norms; [symmetry; exact Hc'|by apply Hnorm]|done..]].
    constructor; [by apply stored_with_top|by apply links_ok_with_top| |exact Hm1|by rewrite <-Hi].
    unfold entry_ok. cbn [with_top entry nodes maxLevel]. apply lookup_lt_is_Some in Hlt as [n Hn]. exists n. split; [done|]. unfold node_at. by rewrite Hn.
Qed.

(** Inserting fresh ids one after the other. *)
Lemma insert_all_ok (items : list (Z * list Z)) h :
  linked h → NoDup items.*1 → (∀ id v, (id, v) ∈ items → len v = dimension h ∧ ordinals h !! id = None) →
  let h' := foldl (λ h item, insertLocked h item.1 item.2) h items in
  linked h' ∧ (norms_ok h → norms_ok h') ∧ contents h' = list_to_map items ∪ contents h ∧ settings h' = settings h.
Proof.
  revert h. induction items as [|[id v] items IH]; intros h Hi Hnd Hall; cbn [foldl fst snd].
  { cbv zeta. split; [done|]. split; [done|]. split; [|done]. cbn [list_to_map foldr]. by rewrite (left_id_L (∅ : gmap Z (list Z)) (∪)). }
  cbn [fmap list_fmap fst] in Hnd. apply NoDup_cons in Hnd as [Hni Hnd]. destruct (Hall id v (list_elem_of_here _ _)) as [Hv Hnew].
  destruct (insertLocked_ok h id v Hi Hv Hnew) as (Hi1&Hn1&Hc1&Hs1&Hd1).
  destruct (IH (insertLocked h id v) Hi1 Hnd) as (Hi2&Hn2&Hc2&Hs2).
  { intros id' v' Hin. destruct (Hall id' v' (list_elem_of_further _ _ _ Hin)) as [Hv' Hn']. split.
    - pose proof (f_equal (λ s, s.1.1) Hs1) as E. cbn in E. by rewrite E.
    - apply not_elem_of_dom. rewrite Hd1. apply not_elem_of_dom in Hn'. assert (id' ≠ id); [|set_solver].
      intros ->. apply Hni. apply list_elem_of_fmap. by exists (id, v'). }
  split; [done|]. split; [by intros; apply Hn2, Hn1|]. split; [|by rewrite Hs2]. rewrite Hc2, Hc1, list_to_map_cons. rewrite <-insert_union_l.
  rewrite insert_union_r; [done|]. by apply not_elem_of_list_to_map_1.
Qed.
End Operations.

(** *** Overwriting a vector *)

Lemma chunk_copy (width n o o' : nat) (vs v : list Z) :
  length vs = (n * width)%nat → length v = width → (o < n)%nat → (o' < n)%nat →
  take width (drop (o' * width) (take (o * width) vs ++ v ++ drop (o * width + length v) vs))
  = if decide (o' = o) then v else take width (drop (o' * width) vs).
Proof.
  intros Hl Hv Ho Ho'. rewrite Hv. destruct (decide (o' = o)) as [->|Hne].
  - rewrite drop_app_length' by (rewrite length_take; nia). by rewrite take_app_length'.
  - apply list_eq. intros i. destruct (decide (i < width)%nat) as [Hi|Hi]; [|by rewrite !lookup_take_ge by lia].
    rewrite !lookup_take_lt, !lookup_drop by lia. destruct (decide (o' < o)%nat) as [Hlt|Hgt].
    + rewrite lookup_app_l by (rewrite length_take; nia). rewrite lookup_take_lt by nia. done.
    + rewrite lookup_app_r by (rewrite length_take; nia). rewrite length_take, Nat.min_l by nia.
      rewrite lookup_app_r by nia. rewrite lookup_drop. f_equal. nia.
Qed.

(** The ids and vectors of an index, whatever its links and norms. *)
Record filed (h : t) : Prop := mkFiled {
  fl_vectors : length (vectors h) = (count h * Z.to_nat (dimension h))%nat;
  fl_ordinals id o : ordinals h !! id = Some o ↔ ∃ n, nodes h !! o = Some n ∧ n_deleted n = false ∧ n_id n = id;
}.

Lemma stored_filed h : stored h → filed h.
Proof. intros Hs. constructor; apply Hs. Qed.

Lemma filed_lt h id o : filed h → ordinals h !! id = Some o → (o < count h)%nat.
Proof. intros Hf (n&Hn&_)%(fl_ordinals _ Hf). by apply lookup_lt_Some in Hn. Qed.

Lemma len_vectorAt h o : filed h → 0 ≤ dimension h → (o < count h)%nat → len (vectorAt h o) = dimension h.
Proof.
  intros Hf Hd Ho. pose proof (fl_vectors _ Hf) as Hl. unfold len, vectorAt. rewrite length_take, length_drop. nia.
Qed.

Lemma copy_at_ok h id o v :
  filed h → len v = dimension h → ordinals h !! id = Some o →
  filed (copy_at h o v) ∧ contents (copy_at h o v) = <[id := v]> (contents h).
Proof.
  intros Hf Hv Ho. pose proof (filed_lt _ _ _ Hf Ho) as Hlt. pose proof (fl_vectors _ Hf) as Hl.
  assert (length v = Z.to_nat (dimension h)) as Hv' by (unfold len in Hv; lia). split.
  - constructor; [|apply Hf]. change (count (copy_at h o v)) with (count h). cbn [copy_at set_vectors dimension vectors].
    rewrite !length_app, length_take, length_drop. nia.
  - apply map_eq. intros i. unfold contents. change (ordinals (copy_at h o v)) with (ordinals h). rewrite lookup_fmap.
    destruct (decide (i = id)) as [->|Hne].
    + rewrite Ho, lookup_insert_eq. cbn [fmap option_fmap option_map]. f_equal. unfold vectorAt. cbn [copy_at set_vectors dimension vectors].
      rewrite (chunk_copy (Z.to_nat (dimension h)) (count h) o o) by done. by rewrite decide_True.
    + rewrite lookup_insert_ne, lookup_fmap by done. destruct (ordinals h !! i) as [o'|] eqn:Ho'; [|done]. cbn [fmap option_fmap option_map]. f_equal.
      unfold vectorAt. cbn [copy_at set_vectors dimension vectors].
      rewrite (chunk_copy (Z.to_nat (dimension h)) (count h) o o' (vectors h) v) by (done || by eapply filed_lt). rewrite decide_False; [done|].
      intros ->. apply (fl_ordinals _ Hf) in Ho as (n&Hn&_&Hid), Ho' as (n'&Hn'&_&Hid'). congruence.
Qed.

(** The live nodes list the contents. *)
Lemma live_items_elem h id v :
  filed h → (id, v) ∈ live_items h ↔ contents h !! id = Some v.
Proof.
  intros Hf. unfold live_items, contents. rewrite list_elem_of_omap, lookup_fmap. split.
  - intros ([o n]&Hin&E). apply elem_of_lookup_imap in Hin as (o'&n'&[= -> ->]&Hn). destruct (n_deleted n') eqn:Hd; [done|]. injection E as <- <-.
    rewrite (proj2 (fl_ordinals _ Hf (n_id n') o')); [done|]. eauto.
  - destruct (ordinals h !! id) as [o|] eqn:Ho; [|done]. intros [= <-]. apply (fl_ordinals _ Hf) in Ho as (n&Hn&Hd&<-).
    exists (o, n). split; [apply elem_of_lookup_imap; eauto|]. by rewrite Hd.
Qed.

Lemma live_items_ok h :
  filed h → 0 ≤ dimension h →
  NoDup (live_items h).*1 ∧ list_to_map (live_items h) = contents h ∧ ∀ id v, (id, v) ∈ live_items h → len v = dimension h.
Proof.
  intros Hf Hd. assert (NoDup (live_items h).*1) as Hnd.
  { unfold live_items.
    assert (∀ ns k, (∀ i n, ns !! i = Some n → n_deleted n = false → ordinals h !! n_id n = Some (k + i)%nat) →
      NoDup (omap (λ '(ordinal, n), if n_deleted n then None else Some (n_id n, vectorAt h ordinal)) (imap (λ i n, (k + i, n)%nat) ns)).*1) as Hgen.
    { induction ns as [|n ns IH]; intros k Hk; [constructor|].
      assert (NoDup (omap (λ '(ordinal, n), if n_deleted n then None else Some (n_id n, vectorAt h ordinal)) (imap (λ i n, (S k + i, n)%nat) ns)).*1) as Hrest.
      { apply IH. intros i n' Hn' Hdel. rewrite (Hk (S i) n' Hn' Hdel). f_equal. lia. }
      assert (imap (λ i n, ((k + i)%nat, n)) (n :: ns) = (k, n) :: imap (λ i n, ((S k + i)%nat, n)) ns) as ->.
      { cbn [imap]. f_equal; [f_equal; lia|]. apply imap_ext. intros i x _. cbn. f_equal. lia. }
      cbn [omap list_omap]. destruct (n_deleted n) eqn:Hdel; [done|]. cbn [fmap list_fmap fst]. apply NoDup_cons. split; [|done].
      intros ([i v]&E&Hin)%list_elem_of_fmap. cbn in E. apply list_elem_of_omap in Hin as ([o n']&Hin&E').
      apply elem_of_lookup_imap in Hin as (i'&n2&[= -> ->]&Hn2). destruct (n_deleted n2) eqn:Hdel2; [done|]. injection E' as <- _.
      pose proof (Hk 0%nat n eq_refl Hdel) as H1. pose proof (Hk (S i') n2 Hn2 Hdel2) as H2. rewrite E, H2 in H1. injection H1 as H1. lia. }
    apply (Hgen (nodes h) 0%nat). intros i n Hn Hdel. apply (fl_ordinals _ Hf). eauto. }
  split; [done|]. split.
  - apply map_eq. intros id. destruct (contents h !! id) as [v|] eqn:Hc.
    + apply elem_of_list_to_map_1; [done|]. by apply live_items_elem.
    + apply not_elem_of_list_to_map_1. intros ([i v]&->&Hin)%list_elem_of_fmap. apply live_items_elem in Hin; [|done]. cbn in Hc. congruence.
  - intros id v Hin%live_items_elem; [|done]. unfold contents in Hin. rewrite lookup_fmap in Hin.
    destruct (ordinals h !! id) as [o|] eqn:Ho; [|done]. injection Hin as <-. apply len_vectorAt; [done|done|]. by eapply filed_lt.
Qed.

(** *** Building *)

(** The scheduler lets every goroutine return: what a batch leaves is a
    complete run of its pool. *)
Class SchedulerSpec `{!Scheduler} := {
  link_parallel_runs h first workers e :
    stored h → links_ok h → entry_ok h → entry h = Some e → (e < first)%nat →
    ∃ picks, all_finished (run (start h first workers) picks) = true ∧ link_parallel h first workers = graph (run (start h first workers) picks);
}.

Section Builds.
Context {LE : LogExp} {SC : Scheduler} {SS : SchedulerSpec}.

Lemma core_inv h h' :
  core h' = core h → stored h → links_ok h' → entry_ok h' → construction h' = construction h → scratch_ok (count h) (construction h) →
  immutableGraph h = false → linked h' ∧ (norms_ok h → norms_ok h') ∧ contents h' = contents h ∧ settings h' = settings h.
Proof.
  intros Hc Hst Hk He Hcons Hm Hi. split; [|split; [by apply core_norms|by apply core_contents]]. constructor.
  - by eapply core_stored; [symmetry|].
  - done.
  - done.
  - by rewrite Hcons, (core_count _ _ Hc).
  - by rewrite (core_mutable _ _ Hc).
Qed.

Lemma link_parallel_ok h first workers e :
  stored h → links_ok h → entry_ok h → entry h = Some e → (e < first)%nat →
  let h' := link_parallel h first workers in core h' = core h ∧ links_ok h' ∧ entry_ok h' ∧ construction h' = construction h.
Proof.
  intros Hst Hl He Ee Hlt. destruct (link_parallel_runs h first workers e Hst Hl He Ee Hlt) as (picks&_&->).
  pose proof (pool_run_ok h _ picks Hst (start_ok h first workers e Hl He Ee Hlt)) as [? ? ? ? _ _ _ _]. done.
Qed.

Lemma connectParallel_ok h first workers :
  stored h → links_ok h → scratch_ok (count h) (construction h) → immutableGraph h = false →
  (entry h = None ∧ first = 0%nat ∨ entry_ok h ∧ ∃ e, entry h = Some e ∧ (e < first)%nat) →
  let h' := connectParallelLocked h first workers in linked h' ∧ (norms_ok h → norms_ok h') ∧ contents h' = contents h ∧ settings h' = settings h.
Proof.
  intros Hst Hk Hm Hi Hentry. unfold connectParallelLocked. change (length (nodes h)) with (count h).
  destruct (Nat.leb_spec (count h) first) as [Hle|Hlt].
  { assert (entry_ok h) as He.
    { destruct Hentry as [[E ->]|[He _]]; [|done]. unfold entry_ok. rewrite E. apply nil_length_inv. unfold count in Hle. lia. }
    cbv zeta. split; [by constructor|done]. }
  set (p := match entry h with None => _ | Some _ => _ end).
  assert (∃ h1 first1 e, p = (h1, first1) ∧ core h1 = core h ∧ links_ok h1 ∧ entry_ok h1 ∧ construction h1 = construction h ∧
    entry h1 = Some e ∧ (e < first1)%nat) as (h1&first1&e&->&Hc&Hk1&He1&Hcons&Ee&Hlt1).
  { unfold p. destruct Hentry as [[E ->]|[He (e&E&Hlt1)]]; rewrite E.
    - rewrite set_entry_top. eexists _, _, _. split; [done|]. split; [done|]. split; [by apply links_ok_with_top|].
      split; [|split; [done|split; [done|lia]]]. unfold entry_ok. cbn [with_top entry nodes maxLevel].
      apply lookup_lt_is_Some in Hlt as [n Hn]. exists n. split; [done|]. unfold node_at. by rewrite Hn.
    - eexists _, _, _. split; [done|]. split_and!; done. }
  assert (stored h1) as Hst1 by (by eapply core_stored; [symmetry|]).
  destruct (link_parallel_ok h1 first1 workers e Hst1 Hk1 He1 Ee Hlt1) as (Hc2&Hk2&He2&Hcons2).
  cbv zeta. apply core_inv; [by rewrite Hc2|done|done|done|by rewrite Hcons2|done|done].
Qed.

Lemma append_all_ok (items : list (Z * list Z)) h :
  stored h → links_ok h → scratch_ok (count h) (construction h) → NoDup items.*1 →
  (∀ id v, (id, v) ∈ items → len v = dimension h ∧ ordinals h !! id = None) →
  let h' := foldl (λ h item, appendNodeLocked h item.1 item.2) h items in
  stored h' ∧ links_ok h' ∧ scratch_ok (count h') (construction h') ∧ contents h' = list_to_map items ∪ contents h ∧ settings h' = settings h ∧
  entry h' = entry h ∧ maxLevel h' = maxLevel h ∧ (∀ o n, nodes h !! o = Some n → nodes h' !! o = Some n) ∧ immutableGraph h' = immutableGraph h ∧ (norms_ok h → norms_ok h').
Proof.
  revert h. induction items as [|[id v] items IH]; intros h Hst Hk Hm Hnd Hall; cbn [foldl fst snd].
  { cbv zeta. split_and!; try done. cbn [list_to_map foldr]. by rewrite (left_id_L (∅ : gmap Z (list Z)) (∪)). }
  cbn [fmap list_fmap fst] in Hnd. apply NoDup_cons in Hnd as [Hni Hnd]. destruct (Hall id v (list_elem_of_here _ _)) as [Hv Hnew].
  destruct (append_node_ok h id v Hst Hk Hm Hv Hnew) as (Hst1&Hk1&Hm1&_&Hc1&Hs1&Ee1&El1&Hn1&Hi1&Hnorm1).
  destruct (IH (appendNodeLocked h id v) Hst1 Hk1 Hm1 Hnd) as (Hst2&Hk2&Hm2&Hc2&Hs2&Ee2&El2&Hn2&Hi2&Hnorm2).
  { intros id' v' Hin. destruct (Hall id' v' (list_elem_of_further _ _ _ Hin)) as [Hv' Hn']. split; [done|].
    change (<[id := length (nodes h)]> (ordinals h) !! id' = None). rewrite lookup_insert_ne; [done|].
    intros ->. apply Hni. apply list_elem_of_fmap. by exists (id', v'). }
  cbv zeta. split_and!; try done; try (etrans; [eassumption|done]); [|by intros; apply Hn2, Hn1|by intros; apply Hnorm2, Hnorm1].
  rewrite Hc2, Hc1, list_to_map_cons. rewrite <-insert_union_l. rewrite insert_union_r; [done|]. by apply not_elem_of_list_to_map_1.
Qed.

Lemma emptied_inv h :
  (0 < dimension h ∧ Metric_Valid (metric h) = true ∧ 2 ≤ m h ∧ m h ≤ efConstruction h ∧ 1 ≤ efSearch h) → packed h = None → immutableGraph h = false →
  linked (emptied h) ∧ norms_ok (emptied h) ∧ contents (emptied h) = ∅ ∧ settings (emptied h) = settings h.
Proof.
  intros Hc Hp Hi. split; [|split; [intros o Ho; unfold count in Ho; cbn in Ho; lia|split; [apply fmap_empty|done]]].
  constructor; [| |done|split; [done|split; [cbn; lia|intros o mark Ho; done]]|done].
  - constructor; [done|done|done| |done].
    intros id o. cbn. rewrite lookup_empty. split; [done|]. by intros (n&?&_).
  - constructor; [done|by intros o n Ho|by intros o n layer l Ho].
Qed.

Lemma buildLocked_ok h (items : list (Z * list Z)) workers :
  (0 < dimension h ∧ Metric_Valid (metric h) = true ∧ 2 ≤ m h ∧ m h ≤ efConstruction h ∧ 1 ≤ efSearch h) → packed h = None → immutableGraph h = false →
  NoDup items.*1 → (∀ id v, (id, v) ∈ items → len v = dimension h) →
  let h' := buildLocked h items workers in linked h' ∧ norms_ok h' ∧ contents h' = list_to_map items ∧ settings h' = settings h.
Proof.
  intros Hc Hp Hi Hnd Hall. destruct (emptied_inv h Hc Hp Hi) as (Hie&Hne&Hce&Hse). cbv zeta. unfold buildLocked. cbv zeta.
  assert (∀ id v, (id, v) ∈ items → len v = dimension (emptied h) ∧ ordinals (emptied h) !! id = None) as Hall' by (intros id v Hin; split; [by eapply Hall|apply lookup_empty]).
  destruct (_ || _).
  - destruct (insert_all_ok items (emptied h) Hie Hnd Hall') as (H1&Hn1&H2&H3).
    split; [done|]. split; [by apply Hn1|]. split; [|by rewrite H3]. by rewrite H2, Hce, (right_id_L ∅ (∪)).
  - destruct (append_all_ok items (emptied h) (iv_stored _ Hie) (iv_links _ Hie) (iv_marks _ Hie) Hnd Hall') as (H1&H2&H3&H4&H5&H6&_&_&H7&Hn7).
    destruct (connectParallel_ok (foldl (λ h item, appendNodeLocked h item.1 item.2) (emptied h) items) 0 (effective_workers workers) H1 H2 H3) as (H8&Hn8&H9&H10).
    + by rewrite H7.
    + left. by rewrite H6.
    + split; [done|]. split; [by apply Hn8, Hn7|]. split; [by rewrite H9, H4, Hce, (right_id_L ∅ (∪))|by rewrite H10, H5].
Qed.

(** Rebuilding from whatever the ids and vectors are. *)
Lemma rebuild_ok h :
  (0 < dimension h ∧ Metric_Valid (metric h) = true ∧ 2 ≤ m h ∧ m h ≤ efConstruction h ∧ 1 ≤ efSearch h) → packed h = None → immutableGraph h = false →
  filed h → inv (rebuildLocked h) ∧ contents (rebuildLocked h) = contents h ∧ settings (rebuildLocked h) = settings h.
Proof.
  intros Hc Hp Hi Hf. destruct (live_items_ok h Hf ltac:(lia)) as (Hnd&Hmap&Hlen).
  destruct (buildLocked_ok h (live_items h) 0 Hc Hp Hi Hnd Hlen) as (H1&Hn&H2&H3). by rewrite Hmap in H2.
Qed.
End Builds.

Import Hnsw.
Local Set Warnings "-clear-no-such-hyp".
Local Open Scope string_scope.
Local Open Scope Z_scope.
Local Open Scope list_scope.

Section Index.
Context {LE : LogExp} {SC : Scheduler} {SS : SchedulerSpec}.

Lemma settings_dimension h h' : settings h = settings h' → dimension h = dimension h'.
Proof. apply (f_equal (λ s, s.1.1)). Qed.

Lemma New_inv cfg h : New cfg = Ok h → inv h ∧ contents h = ∅ ∧ dimension h = cfg_Dimension cfg ∧ metric h = cfg_Metric cfg.
Proof.
  unfold New. destruct (invalid_config cfg) eqn:E; [done|]. intros [= <-]. unfold invalid_config in E.
  repeat (apply orb_false_iff in E as [E ?]). bool_props.
  match goal with |- inv ?x ∧ _ => destruct (emptied_inv x) as (Hl&Hn&Hc&_); [cbn; split_and!; (done || lia)|done|done|] end.
  split; [by split|done].
Qed.

Lemma copy_linked h id o v :
  linked h → len v = dimension h → ordinals h !! id = Some o →
  linked (copy_at h o v) ∧ contents (copy_at h o v) = <[id := v]> (contents h).
Proof.
  intros [Hst Hk He Hm Hi] Hv Ho. destruct (copy_at_ok h id o v (stored_filed _ Hst) Hv Ho) as [Hf Hc]. split; [|done].
  destruct Hst as [A B C D E]. constructor; [|by apply (links_ok_same h)|done|done|done].
  constructor; [done|apply Hf|done|done|done].
Qed.

(** Rebuilding an index whose norms can be stale. *)
Lemma rebuild_linked h : linked h → inv (rebuildLocked h) ∧ contents (rebuildLocked h) = contents h ∧ settings (rebuildLocked h) = settings h.
Proof.
  intros Hl. apply rebuild_ok; [apply Hl|apply Hl|apply Hl|]. by apply stored_filed, Hl.
Qed.

Lemma graph_Upsert_ok h id v :
  inv h → len v = dimension h →
  ∃ h', Upsert h id v = Ok h' ∧ inv h' ∧ contents h' = <[id := v]> (contents h) ∧ settings h' = settings h.
Proof.
  intros [Hl Hn] Hv. unfold Upsert. rewrite (proj2 (Z.eqb_eq _ _) Hv), (iv_mutable _ Hl). cbn [negb].
  destruct (ordinals h !! id) as [o|] eqn:Ho; (eexists; split; [done|]).
  - destruct (copy_linked h id o v Hl Hv Ho) as [Hl1 Hc1]. destruct (rebuild_linked _ Hl1) as (Hi&Hc&Hs). by rewrite Hc, Hs.
  - destruct (insertLocked_ok h id v Hl Hv Ho) as (Hl1&Hn1&Hc&Hs&_). split; [split; [done|by apply Hn1]|done].
Qed.

Lemma Upsert_mismatch h id v : len v ≠ dimension h → Upsert h id v = Err (Sentinel ErrDimensionMismatch).
Proof. intros Hv. unfold Upsert. by rewrite (proj2 (Z.eqb_neq _ _) Hv). Qed.

Lemma contents_None h id : contents h !! id = None ↔ ordinals h !! id = None.
Proof. unfold contents. rewrite lookup_fmap. by destruct (ordinals h !! id). Qed.

Lemma graph_Delete_ok h id v :
  inv h → contents h !! id = Some v →
  ∃ h', Delete h id = Ok h' ∧ inv h' ∧ contents h' = delete id (contents h) ∧ settings h' = settings h.
Proof.
  intros [[Hst Hk He Hm Hi] Hn] Hv. unfold Delete. rewrite Hi. unfold contents in Hv. rewrite lookup_fmap in Hv.
  destruct (ordinals h !! id) as [o|] eqn:Ho; [|done]. clear Hv. eexists. split; [done|].
  set (h' := mk _ _ _ _ _ _ _ _ _ _ _ _ _ _ _).
  assert (∀ i, nodes h' !! i = (if decide (i = o) then (λ n, mkNode (n_id n) (n_level n) true (n_neighbors n)) <$> nodes h !! i else nodes h !! i)) as Hnodes.
  { intros i. unfold h'. cbn [nodes]. unfold mark_deleted. destruct (decide (i = o)) as [->|Hne]; [by rewrite list_lookup_alter_eq|by rewrite list_lookup_alter_ne]. }
  assert (count h' = count h) as Ec by (unfold count, h'; cbn [nodes]; unfold mark_deleted; by rewrite length_alter).
  assert (∀ layer i, at_layer h layer i → at_layer h' layer i) as Hat.
  { intros layer i (n&Hni&Hl). unfold at_layer. rewrite Hnodes, Hni. destruct (decide (i = o)); eexists; split; done. }
  pose proof Ho as (no&Hno&Hdo&Hido)%(st_ordinals _ Hst).
  split; [split; [constructor; [| | |by rewrite Ec|done]|]|split; [|done]].
  - constructor; [apply Hst|by rewrite Ec; apply Hst|by rewrite Ec; apply Hst| |].
    + intros i j. change (ordinals h') with (delete id (ordinals h)). rewrite Hnodes, lookup_delete_Some, (st_ordinals _ Hst). destruct (decide (j = o)) as [->|Hne].
      * split; [intros (Hne&n&Hnn&_&Hid)|intros (n&E&Hd&_)]; [congruence|]. rewrite Hno in E. by injection E as <-.
      * split; [intros (_&?); done|]. intros (n&Hnn&Hd&Hid). split; [|eauto].
        assert (ordinals h !! i = Some j) as Hj by (apply (st_ordinals _ Hst); eauto). congruence.
    + change (live h') with (live h - 1). change (ordinals h') with (delete id (ordinals h)). rewrite (st_live _ Hst), map_size_delete_Some by (by eexists).
      assert (size (ordinals h) ≠ 0%nat); [|lia]. intros Hz. apply map_size_empty_inv in Hz. by rewrite Hz, lookup_empty in Ho.
  - constructor; [apply Hk| |].
    + intros i n. rewrite Hnodes. destruct (decide (i = o)) as [->|Hne]; [|apply Hk]. rewrite Hno. intros [= <-]. by apply Hk in Hno.
    + intros i n layer l Hnn El. assert (∃ n', nodes h !! i = Some n' ∧ n_neighbors n' !! layer = Some l) as (n'&Hn'&El').
      { rewrite Hnodes in Hnn. destruct (decide (i = o)) as [->|Hne]; [|eauto]. rewrite Hno in Hnn. injection Hnn as <-. eauto. }
      destruct (lk_lists _ Hk i n' layer l Hn' El') as [Hb Hin]. constructor; [done|]. intros x [? ?]%Hin. split; [done|by apply Hat].
  - unfold entry_ok in *. change (entry h') with (entry h). destruct (entry h) as [e|].
    + destruct He as (n&Hne&E). rewrite Hnodes, Hne. destruct (decide (e = o)); eexists; split; done.
    + unfold h'. cbn [nodes]. unfold mark_deleted. by rewrite He.
  - intros i Hlt. rewrite Ec in Hlt. by apply Hn.
  - unfold contents. change (ordinals h') with (delete id (ordinals h)). by rewrite fmap_delete.
Qed.

Lemma Delete_missing h id : inv h → contents h !! id = None → Delete h id = Err (Sentinel ErrNotFound).
Proof. intros [Hl _] Hc%contents_None. unfold Delete. by rewrite (iv_mutable _ Hl), Hc. Qed.

(** ** Batches *)

Definition put_all (items : list (Z * list Z)) (M : gmap Z (list Z)) : gmap Z (list Z) := foldl (λ M item, <[item.1 := item.2]> M) M items.

Lemma batch_serial (items : list (Z * list Z)) h updated :
  linked h → (updated = false → norms_ok h) → (∀ id v, (id, v) ∈ items → len v = dimension h) →
  let '(h', updated') := foldl (batch_step insertLocked) (h, updated) items in
  linked h' ∧ (updated' = false → norms_ok h') ∧ contents h' = put_all items (contents h) ∧ settings h' = settings h.
Proof.
  revert h updated. induction items as [|[id v] items IH]; intros h updated Hl Hn Hall; cbn [foldl]; [done|].
  pose proof (Hall id v (list_elem_of_here _ _)) as Hv. cbn [batch_step fst snd].
  destruct (ordinals h !! id) as [o|] eqn:Ho.
  - destruct (copy_linked h id o v Hl Hv Ho) as [Hl1 Hc1]. specialize (IH (copy_at h o v) true Hl1).
    destruct (foldl _ _ items) as [h' updated']. destruct IH as (?&?&Hc&Hs); [done|intros i w Hin; apply (Hall i w); by apply list_elem_of_further|].
    rewrite Hc1 in Hc. done.
  - destruct (insertLocked_ok h id v Hl Hv Ho) as (Hl1&Hn1&Hc1&Hs1&_). specialize (IH (insertLocked h id v) updated Hl1).
    destruct (foldl _ _ items) as [h' updated']. destruct IH as (?&?&Hc&Hs).
    { intros E. by apply Hn1, Hn. }
    { intros i w Hin. rewrite (settings_dimension _ _ Hs1). apply (Hall i w). by apply list_elem_of_further. }
    rewrite Hc1 in Hc. by rewrite Hs1 in Hs.
Qed.

(** While vectors are appended for a parallel build the entry waits. *)
Record appended (h0 h : t) : Prop := mkAppended {
  ap_stored : stored h;
  ap_links : links_ok h;
  ap_marks : scratch_ok (count h) (construction h);
  ap_mutable : immutableGraph h = false;
  ap_settings : settings h = settings h0;
  ap_entry : entry h = entry h0;
  ap_level : maxLevel h = maxLevel h0;
  ap_nodes o n : nodes h0 !! o = Some n → nodes h !! o = Some n;
}.

Lemma batch_parallel (items : list (Z * list Z)) h0 h updated :
  appended h0 h → (updated = false → norms_ok h) → (∀ id v, (id, v) ∈ items → len v = dimension h) →
  let '(h', updated') := foldl (batch_step appendNodeLocked) (h, updated) items in
  appended h0 h' ∧ (updated' = false → norms_ok h') ∧ contents h' = put_all items (contents h).
Proof.
  revert h updated. induction items as [|[id v] items IH]; intros h updated Ha Hn Hall; cbn [foldl]; [done|].
  pose proof (Hall id v (list_elem_of_here _ _)) as Hv. cbn [batch_step fst snd]. destruct Ha as [Hst Hk Hm Hi Hs He Hle Hnodes].
  destruct (ordinals h !! id) as [o|] eqn:Ho.
  - destruct (copy_at_ok h id o v (stored_filed _ Hst) Hv Ho) as [Hf Hc1]. specialize (IH (copy_at h o v) true).
    destruct (foldl _ _ items) as [h' updated']. destruct IH as (?&?&Hc); [|done|intros i w Hin; apply (Hall i w); by apply list_elem_of_further|by rewrite Hc1 in Hc].
    destruct Hst as [A B C D E]. constructor; [constructor; [done|apply Hf|done|done|done]|by apply (links_ok_same h)|done|done|done|done|done|done].
  - destruct (append_node_ok h id v Hst Hk Hm Hv Ho) as (Hst1&Hk1&Hm1&_&Hc1&Hs1&Ee1&El1&Hn1&Hi1&Hnorm1). specialize (IH (appendNodeLocked h id v) updated).
    destruct (foldl _ _ items) as [h' updated']. destruct IH as (?&?&Hc); [| | |by rewrite Hc1 in Hc].
    + constructor; [done|done|done|by rewrite Hi1|by rewrite Hs1|by rewrite Ee1|by rewrite El1|by intros; apply Hn1, Hnodes].
    + intros E. by apply Hnorm1, Hn.
    + intros i w Hin. rewrite (settings_dimension _ _ Hs1). apply (Hall i w). by apply list_elem_of_further.
Qed.

(** A batch overwrites and inserts its vectors in order. *)
Lemma UpsertBatch_ok h ids vs workers :
  inv h → len ids = len vs → Forall (λ v, len v = dimension h) vs →
  ∃ h', UpsertBatch h ids vs workers = Ok h' ∧ inv h' ∧ contents h' = put_all (zip ids vs) (contents h) ∧ settings h' = settings h.
Proof.
  intros [Hl Hn] Hlen Hvs. unfold UpsertBatch. rewrite (proj2 (Z.eqb_eq _ _) Hlen). cbn [negb].
  assert (forallb (λ v, len v =? dimension h) vs = true) as ->.
  { apply forallb_forall. intros v Hv. apply Z.eqb_eq. rewrite Forall_forall in Hvs. apply Hvs. by apply list_elem_of_In. }
  cbn [negb]. rewrite (iv_mutable _ Hl).
  assert (∀ id v, (id, v) ∈ zip ids vs → len v = dimension h) as Hall.
  { intros id v Hin. rewrite Forall_forall in Hvs. apply Hvs. by apply elem_of_zip_r in Hin. }
  destruct (_ || _).
  - pose proof (batch_serial (zip ids vs) h false Hl (λ _, Hn) Hall) as H.
    destruct (foldl _ _ _) as [h' updated]. destruct H as (Hl'&Hn'&Hc'&Hs'). eexists. split; [done|].
    destruct updated; [|split; [split; [done|by apply Hn']|done]]. destruct (rebuild_linked _ Hl') as (?&E1&E2). by rewrite E1, E2.
  - pose proof (batch_parallel (zip ids vs) h h false) as H.
    destruct (foldl _ _ _) as [h' updated]. destruct H as (Ha&Hn'&Hc'); [destruct Hl; by constructor|done|done|].
    destruct Ha as [Hst Hk Hm Hi Hs He Hle Hnodes]. eexists. split; [done|]. destruct updated.
    + destruct (rebuild_ok h') as (?&E1&E2); [apply Hst|apply Hk|done|by apply stored_filed|]. by rewrite E1, E2.
    + destruct (connectParallel_ok h' (length (nodes h)) (effective_workers workers) Hst Hk Hm Hi) as (Hl2&Hn2&Hc2&Hs2).
      { pose proof (iv_entry _ Hl) as Hentry. unfold entry_ok in *. destruct (entry h) as [e|] eqn:Ee.
        - right. rewrite He. destruct Hentry as (n&Hne&Eq). split; [exists n; split; [by apply Hnodes|by rewrite Hle]|].
          exists e. split; [done|]. by apply lookup_lt_Some in Hne.
        - left. rewrite He, Hentry. done. }
      split; [split; [done|by apply Hn2, Hn']|]. by rewrite Hc2, Hs2.
Qed.

(** ** What a search needs *)

(** An index that can be searched: one that can be changed, or a persisted
    graph. *)
Record readable (h : t) : Prop := mkReadable {
  rd_stored : stored h;
  rd_norms : norms_ok h;
  rd_links layer : closed (neighborsAt h layer) (count h) (λ o, (o < count h)%nat);
  rd_entry : match entry h with None => nodes h = [] | Some e => (e < count h)%nat end;
}.

Lemma inv_readable h : inv h → readable h.
Proof.
  intros [[Hst Hk He _ _] Hn]. constructor; [done|done| |].
  - intros layer. constructor; [done|]. intros o o' Ho Hin. destruct (layer_closed h layer Hk) as [Hb Hc]. apply Hb, (Hc o); [|done].
    apply lookup_lt_is_Some in Ho as [n Hnn]. exists n. split; [done|]. unfold neighborsAt, node_at in Hin. rewrite Hnn in Hin. cbn [default from_option id] in Hin.
    destruct (Nat.ltb_spec (n_level n) layer); [by apply not_elem_of_nil in Hin|done].
  - unfold entry_ok in He. destruct (entry h) as [e|]; [|done]. destruct He as (n&Hnn&_). by apply lookup_lt_Some in Hnn.
Qed.

(** The index behind the interface of segments. *)
#[export] Program Instance hnsw_spec : VectorIndexSpec t := {|
  vi_inv := inv;
  vi_dimension := dimension;
  vi_metric := metric;
  vi_contents := contents;
  vi_readable := readable;
|}.
Next Obligation. intros h. apply inv_readable. Qed.
Next Obligation.
  intros h id v Hi _ Hv. destruct (graph_Upsert_ok h id v Hi Hv) as (h'&E&Hi'&Hc&Hs). exists h'. split_and!; [done|done| |by apply (f_equal (λ s, s.1.2)) in Hs|done].
  by apply settings_dimension.
Qed.
Next Obligation. intros h id v _. apply Upsert_mismatch. Qed.
Next Obligation.
  intros h id v Hi Hv. destruct (graph_Delete_ok h id v Hi Hv) as (h'&E&Hi'&Hc&Hs). exists h'. split_and!; [done|done| |by apply (f_equal (λ s, s.1.2)) in Hs|done].
  by apply settings_dimension.
Qed.
Next Obligation. intros h id. apply Delete_missing. Qed.
Next Obligation. intros h Hr. unfold Len, contents. cbn. rewrite map_size_fmap. apply Hr. Qed.

(** ** Histories *)

Inductive change : Type :=
| Put (id : Z) (vector : list Z)
| Drop (id : Z)
| PutBatch (ids : list Z) (vectors : list (list Z)) (workers : Z).

Definition perform (h : t) (c : change) : res t :=
  match c with
  | Put id vector => Upsert h id vector
  | Drop id => Delete h id
  | PutBatch ids vectors workers => UpsertBatch h ids vectors workers
  end.

(** The same changes of a map from ids to vectors of one dimension. *)
Definition expected (d : Z) (M : gmap Z (list Z)) (c : change) : res (gmap Z (list Z)) :=
  match c with
  | Put id vector => if len vector =? d then Ok (<[id := vector]> M) else Err (Sentinel ErrDimensionMismatch)
  | Drop id => match M !! id with Some _ => Ok (delete id M) | None => Err (Sentinel ErrNotFound) end
  | PutBatch ids vectors _ =>
      if negb (len ids =? len vectors) then invalid "ids and vectors differ in length"
      else if forallb (λ vector, len vector =? d) vectors then Ok (put_all (zip ids vectors) M)
      else Err (Sentinel ErrDimensionMismatch)
  end.

(** A change that fails leaves the state; the answers are kept. *)
Definition history {S} (run : S → change → res S) (s : S) (cs : list change) : S * list (option error) :=
  foldl (λ state c, match run state.1 c with
                    | Ok s => (s, state.2 ++ [None])
                    | Err e => (state.1, state.2 ++ [Some e])
                    end) (s, []) cs.

(** C13. The graph refines a map: whatever upserts, deletions and batches an
    index goes through, serial or by several goroutines, it answers each one
    as the map from ids to vectors does, errors included; its contents are
    that map, and its graph is well formed: storage, norms and ordinals agree
    with the nodes, and every link stays on its layer, within the degree
    bound, and off its own node. *)
Theorem hnsw_refines_map cfg h0 (cs : list change) :
  New cfg = Ok h0 →
  let '(h, answers) := history perform h0 cs in
  inv h ∧ history (expected (cfg_Dimension cfg)) ∅ cs = (contents h, answers).
Proof.
  intros Hnew. destruct (New_inv cfg h0 Hnew) as (Hi&Hc&Hd&_). unfold history.
  assert (∀ h0 answers, inv h0 → dimension h0 = cfg_Dimension cfg →
    let '(h, answers') := foldl (λ state c, match perform state.1 c with Ok s => (s, state.2 ++ [None]) | Err e => (state.1, state.2 ++ [Some e]) end) (h0, answers) cs in
    inv h ∧ foldl (λ state c, match expected (cfg_Dimension cfg) state.1 c with Ok s => (s, state.2 ++ [None]) | Err e => (state.1, state.2 ++ [Some e]) end)
      (contents h0, answers) cs = (contents h, answers')) as Hgen.
  2: { specialize (Hgen h0 [] Hi Hd). by rewrite Hc in Hgen. }
  clear h0 Hnew Hi Hc Hd.
  induction cs as [|c cs IH]; intros h answers Hi Hd; cbn [foldl]; [done|].
  assert (match perform h c, expected (cfg_Dimension cfg) (contents h) c with
          | Ok h', Ok M => inv h' ∧ contents h' = M ∧ dimension h' = dimension h
          | Err e, Err e' => e = e'
          | _, _ => False
          end) as Hstep.
  { destruct c as [id v|id|ids vs workers]; cbn [perform expected].
    - rewrite <-Hd. destruct (Z.eqb_spec (len v) (dimension h)) as [E|E].
      + destruct (graph_Upsert_ok h id v Hi E) as (h'&->&?&?&?%settings_dimension). done.
      + by rewrite Upsert_mismatch.
    - destruct (contents h !! id) as [v|] eqn:E.
      + destruct (graph_Delete_ok h id v Hi E) as (h'&->&?&?&?%settings_dimension). done.
      + by rewrite Delete_missing.
    - destruct (Z.eqb_spec (len ids) (len vs)) as [E|E]; cbn [negb]; [|unfold UpsertBatch; by rewrite (proj2 (Z.eqb_neq _ _) E)].
      rewrite <-Hd. destruct (forallb _ vs) eqn:Ev.
      + destruct (UpsertBatch_ok h ids vs workers Hi E) as (h'&->&?&?&?%settings_dimension); [|done].
        apply Forall_forall. intros v Hv. rewrite forallb_forall in Ev. apply Z.eqb_eq, Ev. by apply list_elem_of_In.
      + unfold UpsertBatch. rewrite (proj2 (Z.eqb_eq _ _) E). cbn [negb]. by rewrite Ev. }
  cbn [fst snd]. destruct (perform h c) as [h'|e], (expected (cfg_Dimension cfg) (contents h) c) as [M|e']; try done.
  - destruct Hstep as (Hi'&<-&Hd'). apply IH; [done|congruence].
  - subst e'. by apply IH.
Qed.
End Index.
