(* ===== verification/HnswQuery.v ===== *)
(** * The HNSW index: searching

    What a search returns: distinct live allowed vectors with their exact
    scores, best first; that its loops end; and when it misses nothing: filters narrow enough for
    the exact scan, and graphs small enough for the candidate bound. *)
From Stdlib Require Import ZArith Lia Ascii String Sorting.Permutation.
From stdpp Require Import base tactics relations list gmap strings.
From S2P Require Import Prelude Wal Core Distance Float TopK Index Lexical Hnsw HnswSearch HnswProofs HnswIndex.
Import Hnsw.
Local Set Warnings "-clear-no-such-hyp".
Local Open Scope string_scope.
Local Open Scope Z_scope.
Local Open Scope list_scope.

(** ** The bounded heap of the exact scan *)

(** A higher score. *)
Definition higher (a b : scored) : bool := f32_ord (s_score b) <? f32_ord (s_score a).

#[export] Instance higher_weak : WeakOrderB higher.
Proof. unfold higher. split; intros *; [apply Z.ltb_irrefl|rewrite !Z.ltb_lt; lia|rewrite !Z.ltb_ge; lia]. Qed.

Definition rated (h : list scored) : Prop := ∀ c, c ∈ h → comparable (s_score c).

Lemma settled_higher p c : comparable (s_score p) → comparable (s_score c) → min_settled p c = negb (higher p c).
Proof.
  unfold comparable, min_settled, f32_geb, f32_ltb, f32_eqb, higher. intros -> ->. cbn.
  apply Bool.eq_iff_eq_true. rewrite orb_true_iff, negb_true_iff, Z.ltb_lt, Z.eqb_eq, Z.ltb_ge. lia.
Qed.

Lemma above_higher r l : comparable (s_score r) → comparable (s_score l) → min_above r l = higher l r.
Proof. unfold comparable, min_above, f32_ltb, higher. by intros -> ->. Qed.

Lemma swap_comm {A} (h : list A) i j : swap h i j = swap h j i.
Proof.
  unfold swap. destruct (h !! i) as [x|] eqn:Ei, (h !! j) as [y|] eqn:Ej; try done.
  destruct (decide (i = j)) as [->|Hne]; [congruence|]. by rewrite list_insert_insert_ne.
Qed.

Lemma rated_swap h i j : rated h → rated (swap h i j).
Proof. intros Hr c. rewrite swap_perm. apply Hr. Qed.

Lemma rated_lookup h i c : rated h → h !! i = Some c → comparable (s_score c).
Proof. intros Hr Hi. apply Hr. by apply list_elem_of_lookup_2 in Hi. Qed.

Lemma lift_sift fuel h position : rated h → ScoredHeap.lift min_settled fuel h position = sift_up higher fuel h position.
Proof.
  revert h position. induction fuel as [|fuel IH]; intros h position Hr; [done|]. cbn [ScoredHeap.lift sift_up]. cbv zeta.
  destruct (position =? 0)%nat; [done|]. destruct (h !! position) as [c|] eqn:Ec, (h !! parent_of position) as [p|] eqn:Ep; try done.
  rewrite (settled_higher p c) by (by eapply rated_lookup). unfold worse. destruct (negb (higher p c)); [done|]. rewrite swap_comm. by apply IH, rated_swap.
Qed.

Lemma sink_sift fuel h position : rated h → ScoredHeap.sink min_settled min_above fuel h position = sift_down higher fuel h position.
Proof.
  revert h position. induction fuel as [|fuel IH]; intros h position Hr; [done|]. cbn [ScoredHeap.sink sift_down].
  assert (ScoredHeap.child_of min_above h position = worst_child higher h position) as ->.
  { unfold ScoredHeap.child_of, worst_child. cbv zeta. replace (position * 2 + 1 + 1)%nat with (S (position * 2 + 1)) by lia.
    destruct (h !! (position * 2 + 1)%nat) as [l|] eqn:El.
    - apply lookup_lt_Some in El as Hlt. rewrite (proj2 (Nat.leb_gt _ _)) by done.
      destruct (h !! S (position * 2 + 1)) as [r|] eqn:Er; [|done]. unfold worse. rewrite above_higher by (by eapply rated_lookup). done.
    - apply lookup_ge_None in El. by rewrite (proj2 (Nat.leb_le _ _)). }
  destruct (worst_child higher h position) as [child|]; [|done].
  destruct (h !! child) as [w|] eqn:Ew, (h !! position) as [x|] eqn:Ex; try done.
  rewrite (settled_higher x w) by (by eapply rated_lookup). unfold worse. destruct (negb (higher x w)); [done|]. by apply IH, rated_swap.
Qed.

Lemma minPush_heap h x : rated (x :: h) → minPush h x = heap_push higher h x.
Proof. intros Hr. apply lift_sift. intros c Hc. apply Hr. by rewrite <-Permutation_cons_append in Hc. Qed.

Lemma minFixRoot_heap h : rated h → minFixRoot h = heap_fix higher h.
Proof. apply sink_sift. Qed.

(** Replacing the root of a full heap by something not worse. *)
Lemma heap_replace_ok {A} (better : A → A → bool) `{!WeakOrderB better} k seen r (h : list A) x :
  scan_ok better k seen (r :: h) → (k ≤ length (r :: h))%nat → better r x = false → scan_ok better k (x :: seen) (heap_fix better (x :: h)).
Proof.
  intros [Hh (Hlen&rest&Hp&Hb)] Hk Hx. pose proof (heap_root better (r :: h) r Hh eq_refl) as Hr.
  assert (length seen = length (r :: h) + length rest)%nat as Hl by (rewrite Hp, length_app; done).
  split; [by apply (heap_fix_ok better (r :: h) x)|]. split; [rewrite heap_fix_perm; cbn in *; lia|].
  exists (r :: rest). rewrite heap_fix_perm. split; [rewrite Hp; cbn; constructor; apply Permutation_middle|].
  intros a b Ha Hb'. rewrite heap_fix_perm in Ha. apply elem_of_cons in Ha as [->|Ha]; apply elem_of_cons in Hb' as [->|Hb']; [done| | |].
  - apply (wltb_neg_trans b r x); [|done]. apply Hb; [apply list_elem_of_here|done].
  - apply Hr. by apply list_elem_of_further.
  - apply Hb; [by apply list_elem_of_further|done].
Qed.

(** ** Scores and nodes *)

Section Queries.
Context (h : t) (query : list Z) (Hr : readable h) (Hq : len query = dimension h).

Local Abbreviation norm := (querySquaredNorm h query).
Local Abbreviation score_at := (scoreLocked h query norm).

(** The cached norms give the exact score. *)
Lemma scoreLocked_exact o : (o < count h)%nat → score_at o = score_of (metric h) query (vectorAt h o).
Proof using Hr Hq.
  intros Ho. pose proof (rd_stored _ Hr) as Hst. assert (len query = len (vectorAt h o)) as Hlen.
  { rewrite len_vectorAt; [done|by apply stored_filed| |done]. destruct (st_config _ Hst). lia. }
  unfold scoreLocked, score_of. rewrite (rd_norms _ Hr o Ho). unfold querySquaredNorm. destruct (String.eqb_spec (metric h) MetricCosine) as [E|E].
  - unfold Score. rewrite Hlen, Z.eqb_refl, E. cbn [negb]. reflexivity.
  - pose proof (prepared_score (metric h) query (vectorAt h o)) as Hp. rewrite (proj2 (String.eqb_neq _ _) E) in Hp. by rewrite Hp.
Qed.

(** The nodes a search may return. *)
Definition served (allowed : option (Z → bool)) (o : nat) : Prop := (o < count h)%nat ∧ accepts h allowed o = true.

Lemma served_contents allowed o : served allowed o →
  contents h !! id_at h o = Some (vectorAt h o) ∧ ordinals h !! id_at h o = Some o ∧ allows_id allowed (id_at h o) = true.
Proof using Hr.
  intros [Ho Ha]. unfold accepts in Ha. bool_props. apply lookup_lt_is_Some in Ho as [n Hn].
  assert (ordinals h !! id_at h o = Some o) as Hord.
  { apply (st_ordinals _ (rd_stored _ Hr)). exists n. unfold id_at, deleted_at, node_at in *. rewrite Hn in *. cbn in *. auto. }
  split; [|done]. unfold contents. by rewrite lookup_fmap, Hord.
Qed.

Lemma contents_served allowed id v : contents h !! id = Some v → allows_id allowed id = true →
  ∃ o, served allowed o ∧ id_at h o = id ∧ vectorAt h o = v.
Proof using Hr.
  unfold contents. rewrite lookup_fmap. destruct (ordinals h !! id) as [o|] eqn:Ho; [|done]. intros [= <-] Ha.
  apply (st_ordinals _ (rd_stored _ Hr)) in Ho as (n&Hn&Hd&Hid). exists o. unfold served, accepts, id_at, deleted_at, node_at. rewrite Hn. cbn.
  split; [split; [by apply lookup_lt_Some in Hn|]|done]. by rewrite Hd, Hid, Ha.
Qed.

(** Distinct nodes with their scores, as candidates. *)
Record answers (allowed : option (Z → bool)) (l : list scored) : Prop := mkAnswers {
  an_nodup : NoDup (s_ordinal <$> l);
  an_served c : c ∈ l → served allowed (s_ordinal c);
  an_score c : c ∈ l → s_score c = score_at (s_ordinal c);
}.

Lemma answers_ids allowed l : answers allowed l → NoDup (CandID <$> (candidate_of h <$> l)).
Proof using Hr.
  intros [Hnd Hs _]. rewrite <-list_fmap_compose. induction l as [|c l IH]; [constructor|]. cbn [fmap list_fmap] in *. apply NoDup_cons in Hnd as [Hni Hnd].
  apply NoDup_cons. split; [|apply IH; [done|intros; apply Hs; by apply list_elem_of_further]].
  intros (c'&E&Hin)%list_elem_of_fmap. cbn in E. apply Hni. apply list_elem_of_fmap. exists c'. split; [|done].
  destruct (served_contents allowed _ (Hs c (list_elem_of_here _ _))) as (_&Ho&_). destruct (served_contents allowed _ (Hs c' (list_elem_of_further _ _ _ Hin))) as (_&Ho'&_).
  rewrite E in Ho. congruence.
Qed.

Lemma answers_exact allowed l c : answers allowed l → c ∈ candidate_of h <$> l →
  allows_id allowed (CandID c) = true ∧ ∃ v, contents h !! CandID c = Some v ∧ CandScore c = score_of (metric h) query v.
Proof using Hr Hq.
  intros Ha (s&->&Hin)%list_elem_of_fmap. destruct (served_contents allowed _ (an_served _ _ Ha s Hin)) as (Hc&_&Hal).
  split; [done|]. exists (vectorAt h (s_ordinal s)). split; [done|]. cbn. rewrite (an_score _ _ Ha s Hin). apply scoreLocked_exact. by apply (an_served _ _ Ha s Hin).
Qed.

(** The scores of the allowed vectors are numbers. *)
Definition all_comparable (allowed : option (Z → bool)) : Prop :=
  ∀ id v, contents h !! id = Some v → allows_id allowed id = true → comparable (score_of (metric h) query v).

Lemma answers_rated allowed l : answers allowed l → all_comparable allowed → rated l.
Proof using Hr Hq.
  intros Ha Hc c Hin. rewrite (an_score _ _ Ha c Hin). destruct (an_served _ _ Ha c Hin) as [Ho Hacc]. rewrite scoreLocked_exact by done.
  destruct (served_contents allowed _ (conj Ho Hacc)) as (Hcont&_&Hal). by eapply Hc.
Qed.

(** Ranking the nodes and naming them is sorting the candidates. *)
Lemma candidates_sorted l : candidate_of h <$> sort_slice (ranks_before (id_at h)) l = sort_slice better (candidate_of h <$> l).
Proof. by apply sort_slice_fmap. Qed.

Lemma take_sorted allowed l k :
  answers allowed l → all_comparable allowed →
  top_k (by_key cand_key_ltb cand_key) k (candidate_of h <$> l) (candidate_of h <$> take k (sort_slice (ranks_before (id_at h)) l)).
Proof using Hr Hq.
  intros Ha Hc. rewrite fmap_take, candidates_sorted. rewrite (sort_slice_ext better (by_key cand_key_ltb cand_key)).
  - exact (sort_take_top_k (by_key cand_key_ltb cand_key) k (candidate_of h <$> l)).
  - intros x y (a&->&Hx)%list_elem_of_fmap (b&->&Hy)%list_elem_of_fmap. apply better_by_key; by apply (answers_rated allowed l).
Qed.

(** *** The exact scan *)

Context (k : nat) (Hk : (0 < k)%nat) (f : Z → bool).

Lemma root_replaced (worst : scored) bests c : minFixRoot (<[0%nat := c]> (worst :: bests)) ≡ₚ c :: bests.
Proof. unfold minFixRoot, ScoredHeap.fixRoot. by rewrite sink_perm. Qed.

Lemma offer_cases bests o :
  (length bests ≤ k)%nat →
  let c := mkScored o (score_at o) in
  let bests' := offer h query norm k f bests o in
  (accepts h (Some f) o = false ∧ bests' = bests) ∨
  (accepts h (Some f) o = true ∧ ((length bests < k)%nat ∧ bests' = minPush bests c ∨
    ∃ worst rest, bests = worst :: rest ∧ length bests = k ∧
      (bests' = bests ∧ (rated (c :: bests) → higher c worst = false) ∨
       bests' = minFixRoot (c :: rest) ∧ (rated (c :: bests) → higher worst c = false)))).
Proof.
  intros Hl. cbv zeta. unfold offer, accepts. cbn [allows_id]. destruct (deleted_at h o); cbn [orb negb andb]; [by left|].
  destruct (f (id_at h o)); cbn [negb]; [|by left]. right. split; [done|]. cbv zeta.
  destruct (Nat.ltb_spec (length bests) k) as [Hlt|Hge]; [by left|]. right. destruct bests as [|worst rest]; [cbn in *; lia|].
  exists worst, rest. split; [done|]. split; [lia|]. cbn [lookup list_lookup]. cbn [s_score s_ordinal].
  set (c := mkScored o (score_at o)). assert (rated (c :: worst :: rest) → comparable (s_score c) ∧ comparable (s_score worst)) as Hrated.
  { intros H. split; apply H; [apply list_elem_of_here|apply list_elem_of_further, list_elem_of_here]. }
  destruct (f32_ltb (s_score worst) (score_at o) || _) eqn:E.
  - right. split; [done|]. intros (H1&H2)%Hrated. unfold comparable, c in *. cbn in H1. unfold f32_ltb, f32_eqb, higher in *. rewrite H1, H2 in E. cbn in *.
    apply Z.ltb_ge. rewrite orb_true_iff, andb_true_iff, Z.ltb_lt, Z.eqb_eq in E. lia.
  - left. split; [done|]. intros (H1&H2)%Hrated. unfold comparable, c in *. cbn in H1. unfold f32_ltb, f32_eqb, higher in *. rewrite H1, H2 in E. cbn in *.
    by apply orb_false_iff in E as [? _].
Qed.

Lemma answers_perm allowed l l' : l ≡ₚ l' → answers allowed l → answers allowed l'.
Proof. intros Hp [Hnd Hs Hsc]. constructor; [by rewrite <-Hp|intros c; rewrite <-Hp; apply Hs|intros c; rewrite <-Hp; apply Hsc]. Qed.

Lemma answers_add allowed l o : answers allowed l → (∀ c, c ∈ l → (s_ordinal c < o)%nat) → (o < count h)%nat → accepts h allowed o = true →
  answers allowed (mkScored o (score_at o) :: l).
Proof.
  intros [Hnd Hs Hsc] Hlt Ho Ha. constructor.
  - cbn. apply NoDup_cons. split; [|done]. intros (c&E&Hin)%list_elem_of_fmap. specialize (Hlt c Hin). lia.
  - intros c [->|Hc]%elem_of_cons; [done|by apply Hs].
  - intros c [->|Hc]%elem_of_cons; [done|by apply Hsc].
Qed.

Lemma answers_tail allowed c l : answers allowed (c :: l) → answers allowed l.
Proof. intros [Hnd Hs Hsc]. cbn in Hnd. apply NoDup_cons in Hnd as [_ Hnd]. constructor; [done|intros; apply Hs|intros; apply Hsc]; by apply list_elem_of_further. Qed.

(** Every allowed node below [n], best first or not. *)
Definition scanned (n : nat) : list scored :=
  (λ o, mkScored o (score_at o)) <$> List.filter (accepts h (Some f)) (seq 0 n).

Lemma offer_all n :
  (n ≤ count h)%nat →
  let bests := foldl (offer h query norm k f) [] (seq 0 n) in
  answers (Some f) bests ∧ (length bests ≤ k)%nat ∧ (∀ c, c ∈ bests → (s_ordinal c < n)%nat) ∧
  (all_comparable (Some f) → ∃ seen, seen ≡ₚ scanned n ∧ scan_ok higher k seen bests).
Proof using Hr Hq Hk.
  induction n as [|n IH]; intros Hn; cbv zeta.
  { split; [|split; [cbn; lia|split; [intros c Hc; by apply not_elem_of_nil in Hc|]]].
    - constructor; [constructor|intros c Hc; by apply not_elem_of_nil in Hc..].
    - intros _. exists []. split; [done|]. split; [by intros i c p _ Hc|apply top_set_nil]. }
  rewrite seq_S, foldl_app. cbn [foldl]. rewrite Nat.add_0_l. destruct IH as (Ha&Hl&Hlt&Hscan); [lia|].
  set (bests := foldl _ [] (seq 0 n)) in *.
  assert (scanned (S n) ≡ₚ (if accepts h (Some f) n then [mkScored n (score_at n)] else []) ++ scanned n) as Hsn.
  { unfold scanned. rewrite seq_S, List.filter_app, fmap_app. cbn. rewrite Permutation_app_comm. by destruct (accepts h (Some f) n). }
  destruct (offer_cases bests n Hl) as [[Hacc ->]|[Hacc Hcase]]; rewrite Hacc in Hsn.
  { split; [done|]. split; [done|]. split; [intros c Hc; specialize (Hlt c Hc); lia|]. intros Hc. destruct (Hscan Hc) as (seen&Hp&Hs). exists seen. split; [by rewrite Hsn, Hp|done]. }
  pose proof (answers_add (Some f) bests n Ha Hlt ltac:(lia) Hacc) as Hadd. set (c := mkScored n (score_at n)) in *.
  assert (all_comparable (Some f) → rated (c :: bests)) as Hrated by (intros; by apply (answers_rated (Some f))).
  destruct Hcase as [[Hroom ->]|(worst&rest&Eb&Elen&[[-> Hhigh]|[-> Hhigh]])].
  - pose proof (push_perm min_settled bests c) as Hp. fold (minPush bests c) in Hp. split; [by eapply answers_perm|].
    split; [rewrite Hp; cbn; lia|]. split; [intros x; rewrite Hp; intros [->|Hx]%elem_of_cons; [cbn; lia|specialize (Hlt x Hx); lia]|].
    intros Hc. destruct (Hscan Hc) as (seen&Hps&Hs). exists (c :: seen). split; [by rewrite Hsn, Hps|].
    pose proof (heap_offer_ok higher k seen bests c Hk Hs) as Ho. unfold heap_offer in Ho. rewrite (proj2 (Nat.ltb_lt _ _)) in Ho by done.
    by rewrite minPush_heap by by apply Hrated.
  - split; [done|]. split; [done|]. split; [intros x Hx; specialize (Hlt x Hx); lia|]. intros Hc. destruct (Hscan Hc) as (seen&Hps&Hs).
    exists (c :: seen). split; [by rewrite Hsn, Hps|]. pose proof (heap_offer_ok higher k seen bests c Hk Hs) as Ho. unfold heap_offer in Ho.
    rewrite (proj2 (Nat.ltb_ge _ _)) in Ho by lia. rewrite Eb in Ho at 1. cbn [lookup list_lookup] in Ho. by rewrite (Hhigh (Hrated Hc)) in Ho.
  - pose proof (root_replaced worst rest c) as Hp. cbn [insert list_insert] in Hp. rewrite Eb in Ha, Hlt.
    split; [eapply answers_perm; [symmetry; exact Hp|]|].
    { apply answers_add; [exact (answers_tail _ _ _ Ha)|intros x Hx; apply Hlt; by apply list_elem_of_further|lia|done]. }
    split; [rewrite Hp; rewrite Eb in Elen; cbn in *; lia|].
    split; [intros x; rewrite Hp; intros [->|Hx]%elem_of_cons; [cbn; lia|specialize (Hlt x (list_elem_of_further _ _ _ Hx)); lia]|].
    intros Hc. destruct (Hscan Hc) as (seen&Hps&Hs). exists (c :: seen). split; [by rewrite Hsn, Hps|]. rewrite Eb in Hs.
    rewrite minFixRoot_heap.
    + apply (heap_replace_ok higher k seen worst rest c Hs); [rewrite <-Eb; lia|]. apply Hhigh. by apply Hrated.
    + intros x Hx. apply (Hrated Hc). rewrite Eb. apply elem_of_cons in Hx as [->|Hx]; [apply list_elem_of_here|by do 2 apply list_elem_of_further].
Qed.
End Queries.

(** ** Searches *)

Section Theorems.
Context (h : t) (query : list Z) (Hr : readable h) (Hq : len query = dimension h).

Local Abbreviation norm := (querySquaredNorm h query).

(** The entry of the base layer is a node. *)
Lemma descend_node e : entry h = Some e → (descend h query norm e < count h)%nat.
Proof.
  intros Ee. pose proof (rd_entry _ Hr) as He. rewrite Ee in He. unfold descend. generalize (layers (maxLevel h) 1) as ls. intros ls. revert e Ee He.
  assert (∀ ls e, (e < count h)%nat → (foldl (λ e layer, greedyLocked h query norm e layer) e ls < count h)%nat) as Hgen; [|intros; by apply Hgen].
  clear ls. induction ls as [|layer ls IH]; intros e He; [done|]. cbn [foldl]. apply IH. unfold greedyLocked.
  destruct (greedy_ok (id_at h) (scoreLocked h query norm) (neighborsAt h layer) (count h) (λ o, (o < count h)%nat) (fuel h) e e (rd_links _ Hr layer) He) as [Hp _].
  - apply rtc_refl.
  - unfold fuel. pose proof (room_le (id_at h) (scoreLocked h query norm) (count h) e). unfold count in *. lia.
  - exact Hp.
Qed.

(** The nodes a query finds on the base layer, best first. *)
Definition found_at (ef : Z) (allowed : option (Z → bool)) (e : nat) : list scored :=
  (searchLayerLocked h query norm [descend h query norm e] ef 0 None (accepts h allowed) (Visited ∅)).1.

Lemma found_ok ef allowed e :
  entry h = Some e → 0 < ef →
  ∃ l, found_at ef allowed e = sort_slice (ranks_before (id_at h)) l ∧ answers h query allowed l ∧
    (Z.of_nat (count h) ≤ ef → ∀ o, reached (neighborsAt h 0) (descend h query norm e) o → served h allowed o → o ∈ s_ordinal <$> l).
Proof.
  intros Ee Hef. pose proof (descend_node e Ee) as Hd. unfold found_at, searchLayerLocked.
  pose proof (search_layer_ok (id_at h) (scoreLocked h query norm) (neighborsAt h 0) (count h) (λ o, (o < count h)%nat) (rd_links _ Hr 0)
    (Z.to_nat ef) None (accepts h allowed) ltac:(lia) (descend h query norm e) (Visited ∅) Hd ltac:(done) I) as H.
  change (S (count h)) with (fuel h) in H. unfold search_layer in *. cbn [fst]. eexists. split; [reflexivity|].
  destruct H as (Hnd&_&Hel&_&Hall).
  { intros o. cbn. apply bool_decide_eq_false. set_solver. }
  split.
  - constructor; [by rewrite sort_slice_perm in Hnd| |]; intros c Hc; destruct (Hel c) as (?&?&_&?); [by rewrite sort_slice_elem|done|by rewrite sort_slice_elem|done].
  - intros Hle o Hre [_ Ha]. specialize (Hall ltac:(lia) eq_refl o Hre Ha). by rewrite sort_slice_perm in Hall.
Qed.

(** The loops of a query, without a bound on their rounds: the descent ends at
    [base], one greedy loop for each layer, and the search of the base layer
    ends with the nodes [found]. *)
Fixpoint descent_ends (ls : list nat) (entry base : nat) : Prop :=
  match ls with
  | [] => base = entry
  | layer :: ls =>
      ∃ next, greedy_ends (id_at h) (scoreLocked h query norm) (neighborsAt h layer) entry (scoreLocked h query norm entry) next
      ∧ descent_ends ls next base
  end.

Definition layer_ends (ef : Z) (allowed : option (Z → bool)) (base : nat) (found : list scored) : Prop :=
  ∃ last, explore_ends (scoreLocked h query norm) (neighborsAt h 0) (Z.to_nat ef) None (accepts h allowed)
    (enter (scoreLocked h query norm) None (accepts h allowed) (mkSearch [] [] (Visited ∅)) base) last
  ∧ found = sort_slice (ranks_before (id_at h)) (best last).

Lemma descent_terminates ls e :
  (e < count h)%nat → descent_ends ls e (foldl (λ e layer, greedyLocked h query norm e layer) e ls).
Proof.
  revert e. induction ls as [|layer ls IH]; intros e He; [done|]. cbn [foldl descent_ends].
  assert (room (id_at h) (scoreLocked h query norm) (count h) e < fuel h)%nat as Hroom.
  { unfold fuel. pose proof (room_le (id_at h) (scoreLocked h query norm) (count h) e). unfold count in *. lia. }
  exists (greedyLocked h query norm e layer). split.
  - by apply (greedy_terminates _ _ _ (count h) (λ o, (o < count h)%nat)); [apply (rd_links _ Hr layer)|..].
  - apply IH. by apply (greedy_ok (id_at h) (scoreLocked h query norm) (neighborsAt h layer) (count h) (λ o, (o < count h)%nat) (fuel h) e e
      (rd_links _ Hr layer) He (rtc_refl _ _)).
Qed.

Lemma search_terminates ef allowed e :
  entry h = Some e → 0 < ef →
  descent_ends (layers (maxLevel h) 1) e (descend h query norm e) ∧ layer_ends ef allowed (descend h query norm e) (found_at ef allowed e).
Proof.
  intros Ee Hef. pose proof (rd_entry _ Hr) as He. rewrite Ee in He. split; [by apply descent_terminates|].
  destruct (search_start (id_at h) (scoreLocked h query norm) (neighborsAt h 0) (count h) (λ o, (o < count h)%nat) (rd_links _ Hr 0)
    (Z.to_nat ef) None (accepts h allowed) ltac:(lia) (descend h query norm e) (Visited ∅) (descend_node e Ee) ltac:(done) I) as (Hs&Hp&_).
  { intros o. cbn. apply bool_decide_eq_false. set_solver. }
  eexists. split; [|reflexivity]. apply (explore_terminates (id_at h) _ _ (count h) _ (rd_links _ Hr 0) (Z.to_nat ef)); [lia|exact Hs|exact Hp].
Qed.

(** What the query answers with. *)
Lemma search_cases k efs allowed allowedCount :
  0 < k → 0 ≤ efs ≤ 10000 →
  let ef := Z.max k (if efs =? 0 then efSearch h else efs) in
  (search h query k efs allowed allowedCount = Ok [] ∧ contents h = ∅) ∨
  (∃ f, allowed = Some f ∧ 0 ≤ allowedCount ≤ Z.max ef (k * 4) ∧
     search h query k efs allowed allowedCount = Ok (exactFilteredLocked h query norm (Z.to_nat k) f)) ∨
  (∃ e, entry h = Some e ∧ (∀ f, allowed = Some f → ¬ 0 ≤ allowedCount ≤ Z.max ef (k * 4)) ∧
     search h query k efs allowed allowedCount = Ok (candidate_of h <$> take (Z.to_nat k) (found_at ef allowed e))).
Proof.
  intros Hk Hefs. cbv zeta. unfold search. rewrite Hq, Z.eqb_refl. cbn [negb]. rewrite (proj2 (Z.leb_gt k 0)) by lia.
  rewrite (proj2 (Z.ltb_ge efs 0)), (proj2 (Z.ltb_ge 10000 efs)) by lia. cbn [orb]. pose proof (rd_stored _ Hr) as Hst.
  destruct (entry h) as [e|] eqn:Ee.
  2: { left. split; [done|]. pose proof (rd_entry _ Hr) as He. rewrite Ee in He. unfold contents.
    assert (ordinals h = ∅) as ->; [|apply fmap_empty]. apply map_empty. intros id. destruct (ordinals h !! id) as [o|] eqn:Ho; [|done].
    apply (st_ordinals _ Hst) in Ho as (n&Hn&_). by rewrite He in Hn. }
  destruct (Z.eqb_spec (live h) 0) as [El|El].
  { left. split; [done|]. rewrite (st_live _ Hst) in El. unfold contents. assert (ordinals h = ∅) as ->; [|apply fmap_empty]. apply map_size_empty_inv. lia. }
  cbv zeta. set (ef := Z.max k _).
  assert (List.filter (λ c, negb (deleted_at h (s_ordinal c))) (found_at ef allowed e) = found_at ef allowed e) as Hfilter.
  { apply filter_all. intros c Hc. destruct (found_ok ef allowed e Ee ltac:(lia)) as (l&El'&Ha&_). rewrite El', sort_slice_elem in Hc.
    destruct (an_served _ _ _ _ Ha c Hc) as [_ Hacc]. unfold accepts in Hacc. by apply andb_true_iff in Hacc as [? _]. }
  unfold found_at in Hfilter. right. destruct allowed as [f|]; [|right; exists e; split; [done|]; split; [done|]; unfold found_at; by rewrite Hfilter].
  destruct (Z.leb_spec 0 allowedCount), (Z.leb_spec allowedCount (Z.max ef (k * 4))); cbn [andb]; [left; exists f; split; [done|]; split; [lia|done]|right..];
    (exists e; split; [done|]; split; [intros ? _; lia|]; unfold found_at; by rewrite Hfilter).
Qed.

(** Distinct answers, cut to the best [k]. *)
Lemma taken_ok k allowed l :
  answers h query allowed l →
  let R := candidate_of h <$> take k (sort_slice (ranks_before (id_at h)) l) in
  (length R ≤ k)%nat ∧ NoDup (CandID <$> R) ∧
  (∀ c, c ∈ R → allows_id allowed (CandID c) = true ∧ ∃ v, contents h !! CandID c = Some v ∧ CandScore c = score_of (metric h) query v) ∧
  (all_comparable h query allowed → ordered (by_key cand_key_ltb cand_key) R).
Proof.
  intros Ha. cbv zeta. assert (answers h query allowed (sort_slice (ranks_before (id_at h)) l)) as Hs by (eapply answers_perm; [symmetry; apply sort_slice_perm|done]).
  split; [rewrite length_fmap, length_take; lia|]. rewrite fmap_take. split; [|split].
  - rewrite fmap_take. eapply sublist_NoDup; [by eapply answers_ids|apply sublist_take].
  - intros c Hc. eapply (answers_exact h query Hr Hq allowed); [exact Hs|]. apply elem_of_take in Hc as (i&Hc&_). by eapply list_elem_of_lookup_2.
  - intros Hc. rewrite <-fmap_take. apply (take_sorted h query Hr Hq allowed l k Ha Hc).
Qed.

(** C15. A search of the graph answers at most [k] distinct live vectors that
    the filter allows, each with its exact score, and ordered best first when
    the scores are numbers; it does not fail, whatever the graph looks like,
    and its loops end: written without a bound on their rounds, the greedy
    loop of every upper layer and the loop over the base layer stop, in what
    the bounded ones return. *)
Theorem hnsw_search_sound k efs allowed allowedCount :
  0 < k → 0 ≤ efs ≤ 10000 →
  let ef := Z.max k (if efs =? 0 then efSearch h else efs) in
  (∃ R, search h query k efs allowed allowedCount = Ok R ∧ len R ≤ k ∧ NoDup (CandID <$> R) ∧
    (∀ c, c ∈ R → allows_id allowed (CandID c) = true ∧ ∃ v, contents h !! CandID c = Some v ∧ CandScore c = score_of (metric h) query v) ∧
    (all_comparable h query allowed → ordered (by_key cand_key_ltb cand_key) R)) ∧
  ∀ e, entry h = Some e →
    descent_ends (layers (maxLevel h) 1) e (descend h query norm e) ∧ layer_ends ef allowed (descend h query norm e) (found_at ef allowed e).
Proof.
  intros Hk Hefs. cbv zeta. split; [|intros e Ee; apply search_terminates; [done|lia]].
  destruct (search_cases k efs allowed allowedCount Hk Hefs) as [[E _]|[(f&->&_&E)|(e&Ee&_&E)]]; rewrite E.
  - exists []. split; [done|]. split; [unfold len; cbn [length Z.of_nat]; lia|]. split; [constructor|]. split; [intros c Hc; by apply not_elem_of_nil in Hc|constructor].
  - destruct (offer_all h query Hr Hq (Z.to_nat k) ltac:(lia) f (count h) (Nat.le_refl _)) as (Ha&Hl&_&_).
    destruct (taken_ok (Z.to_nat k) (Some f) _ Ha) as (H1&H2&H3&H4). rewrite take_ge in H1, H2, H3, H4 by (by rewrite length_sort_slice).
    eexists. split; [done|]. unfold exactFilteredLocked. change (length (nodes h)) with (count h). split; [unfold len; lia|done].
  - destruct (found_ok (Z.max k (if efs =? 0 then efSearch h else efs)) allowed e Ee ltac:(lia)) as (l&El&Ha&_).
    destruct (taken_ok (Z.to_nat k) allowed l Ha) as (H1&H2&H3&H4). rewrite <-El in *. eexists. split; [done|]. split; [unfold len; lia|done].
Qed.

(** Every live node is reached from the entry on the base layer. *)
Definition connected : Prop :=
  ∀ e o, entry h = Some e → (o < count h)%nat → deleted_at h o = false → reached (neighborsAt h 0) (descend h query norm e) o.

(** Strictly higher score. *)
Definition score_higher (a b : Candidate) : bool := f32_ord (CandScore b) <? f32_ord (CandScore a).

(** Listing every served node lists the allowed vectors. *)
Lemma listed_all allowed l :
  answers h query allowed l → (∀ o, served h allowed o → o ∈ s_ordinal <$> l) →
  candidate_of h <$> l ≡ₚ Index.scored (score_of (metric h) query) (allows_id allowed) (contents h).
Proof.
  intros Ha Hall. apply NoDup_Permutation.
  - apply (NoDup_fmap_1 CandID). by eapply answers_ids.
  - apply (NoDup_fmap_1 cand_key), scored_nodup.
  - intros c. rewrite scored_elem. split.
    + intros Hc. destruct (answers_exact h query Hr Hq allowed l c Ha Hc) as (Hal&v&Hv&Hs). by exists v.
    + intros (v&Hv&Hal&Hs). destruct (contents_served h Hr allowed (CandID c) v Hv Hal) as (o&Ho&Hid&Hvec).
      destruct (proj1 (list_elem_of_fmap _ _ _) (Hall o Ho)) as (s&->&Hin). apply list_elem_of_fmap. exists s. split; [|done].
      unfold candidate_of. rewrite Hid, (an_score _ _ _ _ Ha s Hin), (scoreLocked_exact h query Hr Hq) by apply Ho. rewrite Hvec, <-Hs. by destruct c.
Qed.

Lemma scanned_ok f : answers h query (Some f) (scanned h query f (count h)) ∧ ∀ o, served h (Some f) o → o ∈ s_ordinal <$> scanned h query f (count h).
Proof.
  assert (s_ordinal <$> scanned h query f (count h) = List.filter (accepts h (Some f)) (seq 0 (count h))) as E.
  { unfold scanned. rewrite <-list_fmap_compose. apply list_fmap_id. }
  split; [constructor|].
  - rewrite E. apply NoDup_ListNoDup, List.NoDup_filter, NoDup_ListNoDup, NoDup_seq.
  - intros c (o&->&Ho)%list_elem_of_fmap. apply list_elem_of_In, filter_In in Ho as [Ho Ha]. apply in_seq in Ho. split; [cbn; lia|done].
  - by intros c (o&->&Ho)%list_elem_of_fmap.
  - intros o [Ho Ha]. rewrite E. apply list_elem_of_In, filter_In. split; [apply in_seq; lia|done].
Qed.

(** Naming the nodes of a best-[k] set. *)
Lemma top_set_named seen bests k all R :
  candidate_of h <$> seen ≡ₚ all → R ≡ₚ candidate_of h <$> bests → top_set higher k seen bests → top_set score_higher k all R.
Proof.
  intros Hall HR Ht. destruct (top_set_fmap (candidate_of h) score_higher k seen bests Ht) as (Hl&rest&Hp&Hb).
  split; [by rewrite HR, <-Hall|]. exists rest. split; [by rewrite <-Hall, HR|]. intros x y Hx. apply Hb. by rewrite <-HR.
Qed.

(** C16. A search misses nothing when the filter is known to be narrow, since
    it then scans; and, on a graph whose base layer is connected, when the
    candidate bound is at least the number of nodes: its answer is then a
    best-[k] set of all the allowed vectors. *)
Theorem hnsw_search_exact k efs allowed allowedCount :
  0 < k → 0 ≤ efs ≤ 10000 → all_comparable h query allowed →
  let ef := Z.max k (if efs =? 0 then efSearch h else efs) in
  (is_Some allowed ∧ 0 ≤ allowedCount ≤ Z.max ef (k * 4)) ∨ (connected ∧ Z.of_nat (count h) ≤ ef) →
  ∃ R, search h query k efs allowed allowedCount = Ok R ∧
    top_set score_higher (Z.to_nat k) (Index.scored (score_of (metric h) query) (allows_id allowed) (contents h)) R.
Proof.
  intros Hk Hefs Hc. cbv zeta. intros Hcase.
  destruct (search_cases k efs allowed allowedCount Hk Hefs) as [[E Ec]|[(f&->&_&E)|(e&Ee&Hnot&E)]]; rewrite E; eexists; (split; [done|]).
  - rewrite Ec. unfold Index.scored. rewrite map_to_list_empty. apply top_set_nil.
  - destruct (offer_all h query Hr Hq (Z.to_nat k) ltac:(lia) f (count h) (Nat.le_refl _)) as (_&_&_&Hscan).
    destruct (Hscan Hc) as (seen&Hp&_&Hl&rest&Hrest&Hb). destruct (scanned_ok f) as [Ha Hall].
    unfold exactFilteredLocked. change (length (nodes h)) with (count h). set (bests := foldl _ [] (seq 0 (count h))) in *.
    apply (top_set_named seen bests); [by rewrite Hp; apply listed_all|by rewrite sort_slice_perm|]. split; [done|eauto].
  - destruct Hcase as [[[f Ef] Hcount]|[Hconn Hle]]; [by destruct (Hnot f Ef)|].
    destruct (found_ok (Z.max k (if efs =? 0 then efSearch h else efs)) allowed e Ee ltac:(lia)) as (l&El&Ha&Hall). rewrite El.
    rewrite <-(listed_all allowed l Ha).
    + destruct (take_sorted h query Hr Hq allowed l (Z.to_nat k) Ha Hc) as [_ Ht]. eapply top_set_coarser; [|exact Ht].
      intros x y Hxy. unfold score_higher, by_key, cand_key_ltb, cand_key in *. cbn. by rewrite Hxy.
    + intros o Hs. apply Hall; [lia| |done]. apply (Hconn e o Ee); [apply Hs|]. destruct Hs as [_ Hacc]. unfold accepts in Hacc. by apply andb_true_iff in Hacc as [Hacc%negb_true_iff _].
Qed.
End Theorems.
