(* ===== verification/HnswGraph.v ===== *)
(** * The HNSW index: the persisted topology

    Whatever bytes are loaded, a graph that loads can be searched; and a
    graph that is written loads as the same graph over the same vectors. *)
From Stdlib Require Import ZArith Lia Ascii String Sorting.Permutation FunctionalExtensionality.
From stdpp Require Import base tactics relations list gmap strings.
From S2P Require Import Prelude Wal Core Distance Float TopK Index Column Lexical Hnsw HnswSearch HnswProofs HnswIndex.
Import Hnsw.
Local Set Warnings "-clear-no-such-hyp".
Local Open Scope string_scope.
Local Open Scope Z_scope.
Local Open Scope list_scope.

(** ** Loading arbitrary bytes *)

Lemma read_le_bytes n data v rest :
  Forall is_byte data → read_le n data = Some (v, rest) → 0 ≤ v ∧ Forall is_byte rest.
Proof.
  unfold read_le. destruct (n <=? length data)%nat; [|done]. intros Hb [= <- <-]. split; [|by apply Forall_drop].
  apply Column.le_value_bound. by apply Forall_take.
Qed.

(** The links read lead to nodes of the graph. *)
Lemma read_neighbors_bound n count ordinal data ls rest :
  Forall is_byte data → read_neighbors n count ordinal data = Ok (ls, rest) → Forall (λ o, (o < count)%nat) ls ∧ Forall is_byte rest.
Proof.
  revert data ls. induction n as [|n IH]; intros data ls Hb; cbn [read_neighbors]; [by intros [= <- <-]|].
  destruct (read_le 4 data) as [[v d]|] eqn:Er; [|done]. apply read_le_bytes in Er as [Hv Hd]; [|done].
  destruct (Z.leb_spec (Z.of_nat count) v); cbn [orb]; [done|]. destruct (v =? _); [done|].
  destruct (read_neighbors n count ordinal d) as [[ls' d']|] eqn:E; [|done]. intros [= <- <-]. destruct (IH d ls' Hd E).
  split; [|done]. constructor; [lia|done].
Qed.

Lemma read_layers_bound n layer version m count ordinal packedNeighbors data offsets packedNeighbors' rest :
  Forall is_byte data → Forall (λ o, (o < count)%nat) packedNeighbors →
  read_layers n layer version m count ordinal packedNeighbors data = Ok (offsets, packedNeighbors', rest) →
  Forall (λ o, (o < count)%nat) packedNeighbors' ∧ Forall is_byte rest.
Proof.
  revert layer packedNeighbors data offsets. induction n as [|n IH]; intros layer pn data offsets Hb Hp; cbn [read_layers]; [by intros [= <- <- <-]|].
  destruct (read_le 4 data) as [[v d]|] eqn:Er; [|done]. apply read_le_bytes in Er as [_ Hd]; [|done]. destruct (_ || _); [done|].
  destruct (read_neighbors (Z.to_nat v) count ordinal d) as [[ls d']|] eqn:En; [|done]. cbn [res_bind]. apply read_neighbors_bound in En as [Hls Hd']; [|done].
  destruct (read_layers n (S layer) version m count ordinal (pn ++ ls) d') as [[[offs pn'] d2]|] eqn:El; [|done]. cbn [res_bind]. intros [= <- <- <-].
  eapply (IH (S layer)); [exact Hd'| |exact El]. by apply Forall_app.
Qed.

(** What loading keeps, node after node. *)
Record loaded (cfg : Config) (ids : list Z) (total : nat) (h : t) : Prop := mkLoaded {
  ld_config : dimension h = cfg_Dimension cfg ∧ metric h = cfg_Metric cfg ∧ m h = cfg_M cfg ∧ efConstruction h = cfg_EFConstruction cfg ∧ efSearch h = cfg_EFSearch cfg;
  ld_vectors : length (vectors h) = (count h * Z.to_nat (dimension h))%nat;
  ld_lengths : length (squaredNorms h) = count h;
  ld_norms : norms_ok h;
  ld_ids o n : nodes h !! o = Some n → ids !! o = Some (n_id n);
  ld_ordinals id o : ordinals h !! id = Some o ↔ ∃ n, nodes h !! o = Some n ∧ n_deleted n = false ∧ n_id n = id;
  ld_live : live h = Z.of_nat (size (ordinals h));
  ld_packed : ∃ offsets neighbors, packed h = Some (offsets, neighbors) ∧ Forall (λ o, (o < total)%nat) neighbors;
  ld_immutable : immutableGraph h = true;
}.

Lemma load_node_ok version total cfg ids vectors_ h data h' rest :
  0 < cfg_Dimension cfg → NoDup ids → (count h < length ids)%nat → Forall is_byte data → loaded cfg ids total h →
  load_node version total cfg ids vectors_ h (count h) data = Ok (h', rest) →
  loaded cfg ids total h' ∧ count h' = S (count h) ∧ Forall is_byte rest ∧ entry h' = entry h.
Proof.
  intros Hdim Hnd Hlt Hb [(Hd&Hm&Hmm&Hefc&Hefs) Hv Hl Hn Hids Hord Hlive (offs&nbrs&Hp&Hnb) Himm]. unfold load_node.
  destruct (read_le 8 data) as [[id d1]|] eqn:E1; [|done]. apply read_le_bytes in E1 as [_ Hd1]; [|done].
  destruct (read_le 4 d1) as [[level d2]|] eqn:E2; [|done]. apply read_le_bytes in E2 as [_ Hd2]; [|done].
  destruct (read_le 4 d2) as [[flags d3]|] eqn:E3; [|done]. apply read_le_bytes in E3 as [_ Hd3]; [|done]. cbv zeta.
  set (vector := default [] (vectors_ !! count h)).
  destruct (Z.eqb_spec id (default 0 (ids !! count h))) as [Eid|]; cbn [negb orb]; [|done].
  destruct (32 <? level); cbn [orb]; [done|]. destruct (1 <? flags); cbn [orb]; [done|].
  destruct (Z.eqb_spec (len vector) (cfg_Dimension cfg)) as [Elen|]; cbn [negb]; [|done]. rewrite Hp. change (default ([], []) (Some (offs, nbrs))) with (offs, nbrs).
  cbn iota beta. destruct (read_layers _ _ _ _ _ _ _ _) as [[[offsets pn] d4]|] eqn:El; [|done]. cbn [res_bind]. intros [= <- <-].
  apply read_layers_bound in El as [Hpn Hd4]; [|done|done]. set (deleted := flags =? 1).
  set (h' := mk _ _ _ _ _ _ _ _ _ _ _ _ _ _ _).
  destruct (lookup_lt_is_Some_2 ids (count h) Hlt) as [id0 Hid0]. rewrite Hid0 in Eid. cbn in Eid. subst id0.
  assert (count h' = S (count h)) as Ec by (unfold count, h'; cbn; rewrite length_app; cbn; lia).
  assert (length vector = Z.to_nat (dimension h)) as Hvl by (unfold len in Elen; lia).
  assert (∀ o, (o < count h)%nat → vectorAt h' o = vectorAt h o) as Hold.
  { intros o Ho. unfold vectorAt, h'. cbn. apply chunk_app. rewrite Hv. apply Nat.mul_le_mono_r. lia. }
  assert (vectorAt h' (count h) = vector) as Hlast by (unfold vectorAt, h'; cbn; by apply chunk_last).
  assert (∀ o n, nodes h' !! o = Some n → nodes h !! o = Some n ∨ o = count h ∧ n = mkNode id (Z.to_nat level) deleted []) as Hinv.
  { intros o n. unfold h'. cbn. rewrite lookup_app_Some. intros [?|[Hge Hn']]; [by left|right].
    apply list_lookup_singleton_Some in Hn' as [Hz <-]. split; [unfold count; lia|done]. }
  assert (∀ o n, nodes h !! o = Some n → nodes h' !! o = Some n) as Hkeep by (intros o n Hn'; unfold h'; cbn; rewrite lookup_app_l; [done|by apply lookup_lt_Some in Hn']).
  assert (nodes h' !! count h = Some (mkNode id (Z.to_nat level) deleted [])) as Hnode by (unfold h', count; cbn; by rewrite list_lookup_middle).
  assert (ordinals h !! id = None) as Hnew.
  { destruct (ordinals h !! id) as [o|] eqn:Ho; [|done]. apply Hord in Ho as (n&Hn'&_&Eid). pose proof (Hids o n Hn') as Ho. rewrite Eid in Ho.
    apply lookup_lt_Some in Hn'. pose proof (NoDup_lookup _ _ _ _ Hnd Ho Hid0). unfold count in *. lia. }
  split; [|done]. constructor.
  - done.
  - rewrite Ec. unfold h'. cbn. rewrite length_app, Hv, Hvl. lia.
  - rewrite Ec. unfold h'. cbn. rewrite length_app, Hl. cbn. lia.
  - intros o Ho. rewrite Ec in Ho. unfold norm_at. unfold h' at 1. cbn [squaredNorms].
    change (querySquaredNorm h' (vectorAt h' o)) with (querySquaredNorm h (vectorAt h' o)). destruct (decide (o = count h)) as [->|Hne].
    + rewrite Hlast. rewrite <-Hl. by rewrite list_lookup_middle.
    + rewrite lookup_app_l by (rewrite Hl; lia). rewrite Hold by lia. apply Hn. lia.
  - intros o n [Hn'| [-> ->]]%Hinv; [by apply Hids|done].
  - intros i o. change (ordinals h') with (if deleted then ordinals h else <[id := count h]> (ordinals h)). destruct deleted eqn:Edel.
    + rewrite Hord. split; intros (n&Hn'&?); [eauto|]. destruct (Hinv o n Hn') as [?|[-> ->]]; [eauto|by destruct H as [? _]].
    + rewrite lookup_insert_Some. split.
      * intros [[<- <-]|[Hne (n&Hn'&?)%Hord]]; [eexists; split; [exact Hnode|done]|eauto].
      * intros (n&Hn'&Hdel&Hid). destruct (Hinv o n Hn') as [Hn2|[-> ->]]; [|left; by cbn in Hid].
        assert (ordinals h !! i = Some o) as Ho by (apply Hord; eauto). right. split; [congruence|done].
  - change (ordinals h') with (if deleted then ordinals h else <[id := count h]> (ordinals h)). change (live h') with (if deleted then live h else live h + 1).
    destruct deleted; [done|]. rewrite map_size_insert_None by done. lia.
  - by exists (offs ++ [offsets]), pn.
  - done.
Qed.

Lemma load_nodes_ok k version total cfg ids vectors_ h data h' rest :
  0 < cfg_Dimension cfg → NoDup ids → (count h + k ≤ length ids)%nat → Forall is_byte data → loaded cfg ids total h →
  load_nodes k version total cfg ids vectors_ h (count h) data = Ok (h', rest) →
  loaded cfg ids total h' ∧ count h' = (count h + k)%nat ∧ entry h' = entry h.
Proof.
  intros Hdim Hnd. revert h data. induction k as [|k IH]; intros h data Hle Hb Hl; cbn [load_nodes]; [intros [= <- <-]; by rewrite Nat.add_0_r|].
  destruct (load_node version total cfg ids vectors_ h (count h) data) as [[h1 d1]|] eqn:E1; [|done]. cbn [res_bind].
  assert (count h < length ids)%nat as Hlt by lia.
  destruct (load_node_ok _ _ _ _ _ _ _ _ _ Hdim Hnd Hlt Hb Hl E1) as (Hl1&Ec1&Hb1&Ee1). rewrite <-Ec1. intros E.
  destruct (IH h1 d1) as (?&?&?); [lia|done|done|done|]. split; [done|]. split; [lia|congruence].
Qed.

(** C18. Whatever bytes a graph file holds, a graph that loads is safe to
    search: its links, its entry and its live ids stay within the nodes, its
    vectors and norms are those given, and it refuses changes. *)
Theorem loaded_graph_searchable cfg ids vectors_ data h :
  Forall is_byte data → NoDup ids → LoadGraph cfg ids vectors_ data = Ok h →
  readable h ∧ count h = length ids ∧ dimension h = cfg_Dimension cfg ∧ metric h = cfg_Metric cfg ∧ immutableGraph h = true.
Proof.
  intros Hb Hnd. unfold LoadGraph. destruct (check_header cfg ids vectors_ data) as [[]|]; [|done]. cbn [res_bind].
  unfold New. destruct (invalid_config cfg) eqn:Ecfg; [done|]. cbn [res_bind]. unfold invalid_config in Ecfg.
  repeat (apply orb_false_iff in Ecfg as [Ecfg ?]). bool_props.
  set (h0 := mk _ _ _ _ _ _ _ _ _ _ _ _ _ _ _).
  destruct (load_nodes _ _ _ _ _ _ _ _ _) as [[h1 rest]|] eqn:El; [|done]. cbn [res_bind]. destruct (negb (len rest =? 0)); [done|].
  change 0%nat with (count (loading h0 (length ids))) in El at 1. apply load_nodes_ok in El as (Hl&Ec&Ee); [|done|done|cbn; lia|by apply Forall_drop|].
  2: { constructor; cbn; try done.
    - intros o Ho. unfold count in Ho. cbn in Ho. lia.
    - intros i o. rewrite lookup_empty. split; [done|]. by intros (n&?&_).
    - by exists [], []. }
  change (count (loading h0 (length ids)) + length ids)%nat with (length ids) in Ec.
  destruct Hl as [(Hd&Hm&Hmm&Hefc&Hefs) Hv Hln Hn Hids Hord Hlive (offs&nbrs&Hp&Hnb) Himm].
  assert (∀ top lvl, match top with None => nodes h1 = [] | Some e => (e < count h1)%nat end → readable (with_top h1 top lvl)) as Hread.
  { intros top lvl Htop. constructor; [|done| |done].
    - constructor; [|done|done|done|done]. cbn. rewrite Hd, Hm, Hmm, Hefc, Hefs. split_and!; try done; (lia || by apply negb_false_iff).
    - intros layer. constructor; [done|]. intros o o' Ho. unfold neighborsAt. change (count (with_top h1 top lvl)) with (count h1).
      change (packed (with_top h1 top lvl)) with (packed h1). rewrite Hp. destruct (_ <? _)%nat; [intros Hx; by apply not_elem_of_nil in Hx|].
      intros Hin. rewrite Ec. rewrite Forall_forall in Hnb. apply Hnb. apply elem_of_take in Hin as (i&Hin&_). apply list_elem_of_lookup_2 in Hin.
      eapply elem_of_submseteq; [exact Hin|]. apply sublist_submseteq, sublist_drop. }
  unfold check_entry. cbv zeta. change (length (nodes h1)) with (count h1). destruct (Nat.eqb_spec (count h1) 0) as [Ez|Ez].
  - destruct (_ || _); [done|]. intros [= <-]. split_and!; try done. assert (h1 = with_top h1 (entry h1) (maxLevel h1)) as -> by by destruct h1.
    apply Hread. rewrite Ee. cbn. by apply nil_length_inv.
  - destruct (Z.ltb_spec (signed 64 (field data 32 40)) 0), (Z.leb_spec (Z.of_nat (count h1)) (signed 64 (field data 32 40))); cbn [orb]; try done.
    destruct (negb _); [done|]. intros [= <-]. rewrite set_entry_top. split_and!; try done. apply Hread. lia.
Qed.

(** ** Writing and loading *)

Lemma read_le_encoded n v rest : 0 ≤ v < 256 ^ Z.of_nat n → read_le n (le_bytes n v ++ rest) = Some (v, rest).
Proof.
  intros Hv. unfold read_le. assert (length (le_bytes n v ++ rest) = n + length rest)%nat as -> by (rewrite length_app, length_le_bytes; lia).
  rewrite (proj2 (Nat.leb_le _ _)) by lia. rewrite take_app_length', drop_app_length' by (by rewrite length_le_bytes).
  by rewrite le_value_bytes.
Qed.

Definition encode_ordinals (ls : list nat) : list Z := ls ≫= λ o, le_bytes 4 (u32 (Z.of_nat o)).

Lemma length_encode_ordinals ls : length (encode_ordinals ls) = (4 * length ls)%nat.
Proof. unfold encode_ordinals. induction ls as [|o ls IH]; [done|]. rewrite bind_cons, length_app, IH, length_le_bytes. cbn [length]. lia. Qed.

Lemma u32_small v : 0 ≤ v < 2 ^ 32 → u32 v = v.
Proof. intros. unfold u32. by apply Z.mod_small. Qed.

Lemma read_neighbors_encoded ls count ordinal rest :
  Z.of_nat count ≤ 2 ^ 32 → (∀ o, o ∈ ls → (o < count)%nat ∧ o ≠ ordinal) →
  read_neighbors (length ls) count ordinal (encode_ordinals ls ++ rest) = Ok (ls, rest).
Proof.
  intros Hc. induction ls as [|o ls IH]; intros Hin; [done|]. cbn [length read_neighbors]. destruct (Hin o (list_elem_of_here _ _)) as [Ho Hne].
  change (encode_ordinals (o :: ls)) with (le_bytes 4 (u32 (Z.of_nat o)) ++ encode_ordinals ls).
  rewrite <-app_assoc, u32_small by lia. rewrite read_le_encoded by lia. rewrite (proj2 (Z.leb_gt _ _)), (proj2 (Z.eqb_neq _ _)) by lia. cbn [orb].
  rewrite IH by (intros x Hx; apply Hin; by apply list_elem_of_further). cbn [res_bind]. by rewrite Nat2Z.id.
Qed.

(** The offsets of consecutive lists that start at [from]. *)
Fixpoint offsets_of (from : nat) (ls : list (list nat)) : list nat :=
  match ls with
  | [] => [from]
  | l :: ls => from :: offsets_of (from + length l) ls
  end.

Lemma read_layers_encoded ls layer version m count ordinal pn rest :
  Z.of_nat count ≤ 2 ^ 32 → 0 ≤ m →
  (∀ i l, ls !! i = Some l → len l < 2 ^ 32 ∧ len l ≤ maxLoadedNeighbors version (layer + i) m ∧ ∀ o, o ∈ l → (o < count)%nat ∧ o ≠ ordinal) →
  read_layers (length ls) layer version m count ordinal pn ((ls ≫= encode_links) ++ rest) = Ok (offsets_of (length pn) ls, pn ++ concat ls, rest).
Proof.
  intros Hc Hm. revert layer pn. induction ls as [|l ls IH]; intros layer pn Hls; cbn [length read_layers]; [cbn; by rewrite app_nil_r|].
  destruct (Hls 0%nat l eq_refl) as (H32&Hmax&Hin). rewrite Nat.add_0_r in Hmax.
  change ((l :: ls) ≫= encode_links) with ((le_bytes 4 (u32 (len l)) ++ encode_ordinals l) ++ (ls ≫= encode_links)).
  rewrite <-!app_assoc. pose proof (len_nonneg l) as Hpos. rewrite u32_small by lia. rewrite read_le_encoded by lia.
  rewrite (proj2 (Z.ltb_ge (maxLoadedNeighbors version layer m) (len l))) by done.
  assert (len (encode_ordinals l ++ (ls ≫= encode_links) ++ rest) / 4 <? len l = false) as ->.
  { apply Z.ltb_ge. apply Z.div_le_lower_bound; [lia|]. unfold len. rewrite length_app, length_encode_ordinals. lia. }
  cbn [orb]. unfold len at 1. rewrite Nat2Z.id, read_neighbors_encoded by done. cbn [res_bind].
  rewrite IH by (intros i l' Hl'; replace (S layer + i)%nat with (layer + S i)%nat by lia; by apply (Hls (S i))). cbn [res_bind offsets_of concat].
  by rewrite length_app, <-app_assoc.
Qed.

Lemma offsets_lookup from ls i l :
  ls !! i = Some l → offsets_of from ls !! i = Some (from + length (concat (take i ls)))%nat ∧
    offsets_of from ls !! S i = Some (from + length (concat (take i ls)) + length l)%nat.
Proof.
  revert from i. induction ls as [|l0 ls IH]; intros from [|i]; [done|done| |].
  - intros [= ->]. cbn. rewrite Nat.add_0_r. split; [done|]. by destruct ls.
  - intros Hl. destruct (IH (from + length l0)%nat i Hl) as [H1 H2]. cbn [offsets_of take concat].
    change ((from :: offsets_of (from + length l0) ls) !! S i) with (offsets_of (from + length l0) ls !! i).
    change ((from :: offsets_of (from + length l0) ls) !! S (S i)) with (offsets_of (from + length l0) ls !! S i).
    rewrite H1, H2, length_app. split; f_equal; lia.
Qed.

(** A list is found again at its offsets. *)
Lemma packed_slice (before : list nat) ls i l after :
  ls !! i = Some l →
  take (length l) (drop (length before + length (concat (take i ls))) (before ++ concat ls ++ after)) = l.
Proof.
  intros Hl. rewrite <-drop_drop, drop_app_length.
  rewrite <-(take_drop_middle ls i l Hl) at 2. rewrite concat_app, <-app_assoc, drop_app_length. cbn [concat]. rewrite <-app_assoc. apply take_app_length.
Qed.

(** The rows of offsets of the nodes' lists, packed one after another. *)
Fixpoint pack_rows (from : nat) (lss : list (list (list nat))) : list (list nat) :=
  match lss with
  | [] => []
  | ls :: lss => offsets_of from ls :: pack_rows (from + length (concat ls)) lss
  end.

Lemma pack_rows_snoc from lss ls :
  pack_rows from (lss ++ [ls]) = pack_rows from lss ++ [offsets_of (from + length (concat (concat lss))) ls].
Proof.
  revert from. induction lss as [|l0 lss IH]; intros from; cbn [app pack_rows concat length]; [by rewrite Nat.add_0_r|].
  rewrite IH, concat_app, length_app. cbn [app]. by rewrite Nat.add_assoc.
Qed.

Lemma pack_rows_lookup from lss o ls :
  lss !! o = Some ls → pack_rows from lss !! o = Some (offsets_of (from + length (concat (concat (take o lss)))) ls).
Proof.
  revert from o. induction lss as [|l0 lss IH]; intros from [|o]; [done|done| |].
  - intros [= ->]. cbn. by rewrite Nat.add_0_r.
  - intros Hl. cbn [pack_rows take concat]. change ((offsets_of from l0 :: pack_rows (from + length (concat l0)) lss) !! S o) with (pack_rows (from + length (concat l0)) lss !! o).
    rewrite (IH _ o Hl), concat_app, length_app. f_equal. f_equal. lia.
Qed.

Lemma pack_rows_beyond from lss o : lss !! o = None → pack_rows from lss !! o = None.
Proof. revert from o. induction lss as [|l0 lss IH]; intros from [|o]; [done|done|done|]. intros Hl. by apply IH. Qed.

(** The list of a layer is found through its row. *)
Lemma packed_list lss o ls layer l :
  lss !! o = Some ls → ls !! layer = Some l →
  (let row := default [] (pack_rows 0 lss !! o) in let from := default 0%nat (row !! layer) in
   take (default 0%nat (row !! S layer) - from) (drop from (concat (concat lss)))) = l.
Proof.
  intros Ho Hl. rewrite (pack_rows_lookup 0 lss o ls Ho). cbv zeta. cbn [default from_option id].
  destruct (offsets_lookup (0 + length (concat (concat (take o lss)))) ls layer l Hl) as [-> ->]. cbn [default from_option id].
  rewrite Nat.add_0_l. replace (_ + _ + _ - _)%nat with (length l) by lia.
  rewrite <-(take_drop_middle lss o ls Ho) at 2. rewrite concat_app, (concat_app (concat _)). cbn [concat]. rewrite concat_app. by apply packed_slice.
Qed.

(** *** The header *)

Lemma graph_header_fields h p c payload :
  let data := graph_header h p c ++ payload in
  sub_slice data 0 4 = graphMagic ∧ sub_slice data 4 6 = le_bytes 2 graphVersion ∧ sub_slice data 6 8 = [0; 0] ∧
  sub_slice data 8 12 = le_bytes 4 (u32 (dimension h)) ∧ sub_slice data 12 16 = le_bytes 4 (u32 (m h)) ∧
  sub_slice data 16 20 = le_bytes 4 (u32 (efConstruction h)) ∧ sub_slice data 20 24 = le_bytes 4 (u32 (efSearch h)) ∧
  sub_slice data 24 32 = le_bytes 8 (len (nodes h)) ∧
  sub_slice data 32 40 = le_bytes 8 (u64 (match entry h with Some entry => Z.of_nat entry | None => -1 end)) ∧
  sub_slice data 40 44 = le_bytes 4 (u32 (match entry h with Some _ => Z.of_nat (maxLevel h) | None => -1 end)) ∧
  sub_slice data 44 45 = [metricCode (metric h)] ∧ sub_slice data 48 56 = le_bytes 8 p ∧ sub_slice data 56 60 = le_bytes 4 c ∧
  sub_slice data 60 64 = [0; 0; 0; 0] ∧ slice_from data graphHeaderSize = payload ∧ len data = graphHeaderSize + len payload.
Proof. cbv zeta. split_and!; try reflexivity. rewrite len_app. reflexivity. Qed.

Lemma checksum_header h p c payload : graphChecksum (graph_header h p c ++ payload) = graphChecksum (graph_header h p 0 ++ payload).
Proof. reflexivity. Qed.

Lemma graphChecksum_bound data : Forall is_byte data → 0 ≤ graphChecksum data < 2 ^ 32.
Proof.
  intros Hd. unfold graphChecksum, sub_slice, slice_to, slice_from.
  repeat (apply crc32_bound; [|try apply Forall_take; by apply Forall_drop]). lia.
Qed.

Lemma encode_node_bytes h k : Forall is_byte (encode_node h k).
Proof.
  unfold encode_node. cbv zeta. rewrite !Forall_app. split_and!; try apply le_bytes_valid. apply Forall_bind, Forall_true. intros l.
  unfold encode_links. apply Forall_app. split; [apply le_bytes_valid|]. apply Forall_bind, Forall_true. intros. apply le_bytes_valid.
Qed.

Lemma written_bytes h p c : Forall is_byte (graph_header h p c ++ (seq 0 (count h) ≫= encode_node h)).
Proof.
  apply Forall_app. split; [|apply Forall_bind, Forall_true; intros; apply encode_node_bytes].
  unfold graph_header. rewrite !Forall_app.
  split_and!; try apply le_bytes_valid; repeat constructor; unfold is_byte; try lia; unfold metricCode; repeat case_match; lia.
Qed.

Lemma le_value_bytes_field n v data a b : sub_slice data a b = le_bytes n v → 0 ≤ v < 256 ^ Z.of_nat n → field data a b = v.
Proof. intros E Hv. unfold field. rewrite E. by apply le_value_bytes. Qed.

(** *** What loading reaches *)

Definition all_links (h : t) (k : nat) : list (list (list nat)) := node_links h <$> seq 0 k.

(** The index that the first [k] nodes of [h] load as. *)
Definition reloaded (h : t) (k : nat) : t :=
  let kept := filter (λ entry, (entry.2 < k)%nat) (ordinals h) in
  mk (dimension h) (metric h) (m h) (efConstruction h) (efSearch h) (take (k * Z.to_nat (dimension h)) (vectors h))
    (take k (squaredNorms h)) (bare <$> take k (nodes h)) (Some (pack_rows 0 (all_links h k), concat (concat (all_links h k))))
    true kept None 0 (Z.of_nat (size kept)) (mkScratch (replicate (count h) 0) 0).

Lemma all_links_S h k : all_links h (S k) = all_links h k ++ [node_links h k].
Proof. unfold all_links. by rewrite seq_S, fmap_app. Qed.

(** What the encoding needs of sizes. *)
Record writable (h : t) : Prop := mkWritable {
  wr_count : Z.of_nat (count h) < 2 ^ 32;
  wr_m : m h < 2 ^ 31;
  wr_nodes n : n ∈ nodes h → 0 ≤ n_id n < 2 ^ 64 ∧ (n_level n ≤ 32)%nat;
}.

Section Written.
Context (h : t) (Hinv : inv h) (Hw : writable h).

Let ids : list Z := n_id <$> nodes h.
Let given : list (list Z) := vectorAt h <$> seq 0 (count h).

Lemma node_links_lookup o n layer l :
  nodes h !! o = Some n → node_links h o !! layer = Some l → (layer ≤ n_level n)%nat ∧ list_ok h o layer l.
Proof.
  destruct Hinv as [[_ [Hp Hlayers Hlists] _ _ _] _]. intros Hn. unfold node_links. rewrite list_lookup_fmap_Some. intros (layer'&->&Hs).
  apply lookup_seq in Hs as [-> Hlt]. unfold neighborsAt, node_at in *. rewrite Hn in *. cbn [default from_option id Nat.add] in *.
  split; [lia|]. rewrite (proj2 (Nat.ltb_ge _ _)), Hp by lia. destruct (n_neighbors n !! layer) as [l'|] eqn:El; [by eapply Hlists|].
  apply lookup_ge_None in El. rewrite (Hlayers o n Hn) in El. lia.
Qed.

Lemma length_node_links o n : nodes h !! o = Some n → length (node_links h o) = S (n_level n).
Proof. intros Hn. unfold node_links, node_at. by rewrite length_fmap, length_seq, Hn. Qed.

Lemma layers_encoded o n pn rest :
  nodes h !! o = Some n →
  read_layers (S (n_level n)) 0 graphVersion (m h) (count h) o pn ((node_links h o ≫= encode_links) ++ rest)
  = Ok (offsets_of (length pn) (node_links h o), pn ++ concat (node_links h o), rest).
Proof.
  intros Hn. destruct Hw as [Hc Hm _]. destruct Hinv as [[[(?&?&?&?&?) _ _ _ _] _ _ _ _] _]. rewrite <-(length_node_links o n Hn).
  apply read_layers_encoded; [lia|lia|]. intros layer l Hl. destruct (node_links_lookup o n layer l Hn Hl) as [_ [Hb Hlinks]].
  cbn [Nat.add]. unfold maxLoadedNeighbors. change (2 <=? graphVersion) with true. cbn [andb]. unfold maxNeighbors in Hb.
  split_and!; [destruct layer; lia|by destruct layer|]. intros o' Ho'. destruct (Hlinks o' Ho') as [Hne (n'&Hn'&_)]. split; [|done].
  by apply lookup_lt_Some in Hn'.
Qed.

Lemma ordinals_below k n :
  nodes h !! k = Some n →
  filter (λ entry, (entry.2 < S k)%nat) (ordinals h)
  = (if n_deleted n then filter (λ entry, (entry.2 < k)%nat) (ordinals h) else <[n_id n := k]> (filter (λ entry, (entry.2 < k)%nat) (ordinals h)))
  ∧ (n_deleted n = false → filter (λ entry : Z * nat, (entry.2 < k)%nat) (ordinals h) !! n_id n = None).
Proof.
  destruct Hinv as [[[_ _ _ Hord _] _ _ _ _] _]. intros Hn.
  assert (n_deleted n = false → ordinals h !! n_id n = Some k) as Hlive by (intros; apply Hord; eauto). split.
  - apply map_eq. intros i. apply option_eq. intros o. rewrite map_lookup_filter_Some. cbn [snd]. destruct (n_deleted n) eqn:Ed.
    + rewrite map_lookup_filter_Some. cbn [snd]. split; intros [Ho ?]; (split; [done|]); [|lia].
      assert (o ≠ k); [|lia]. intros ->. apply Hord in Ho as (n'&Hn'&?&_). congruence.
    + rewrite lookup_insert_Some, map_lookup_filter_Some. cbn [snd]. specialize (Hlive eq_refl). split.
      * intros [Ho Hlt]. destruct (decide (o = k)) as [->|Hne]; [left; split; [|done]; apply Hord in Ho as (n'&Hn'&_&?); congruence|right].
        split; [congruence|]. split; [done|lia].
      * intros [[<- <-]|[? [? ?]]]; [split; [done|lia]|split; [done|lia]].
  - intros Hd. apply map_lookup_filter_None. right. intros o Ho. rewrite (Hlive Hd) in Ho. injection Ho as <-. cbn. lia.
Qed.

Lemma given_at k : (k < count h)%nat → given !! k = Some (vectorAt h k).
Proof. intros Hk. unfold given. by rewrite list_lookup_fmap, lookup_seq_lt. Qed.

Lemma length_node_vector k : (k < count h)%nat → length (vectorAt h k) = Z.to_nat (dimension h).
Proof.
  destruct Hinv as [[[_ Hv _ _ _] _ _ _ _] _]. intros Hk. unfold vectorAt. rewrite length_take, length_drop, Hv. nia.
Qed.

Context (cfg : Config).
Context (Hcfg : dimension h = cfg_Dimension cfg ∧ metric h = cfg_Metric cfg ∧ m h = cfg_M cfg ∧ efConstruction h = cfg_EFConstruction cfg ∧ efSearch h = cfg_EFSearch cfg).

Lemma load_written k rest :
  (k < count h)%nat →
  load_node graphVersion (count h) cfg ids given (reloaded h k) k (encode_node h k ++ rest) = Ok (reloaded h (S k), rest).
Proof.
  intros Hk. destruct (lookup_lt_is_Some_2 (nodes h) k Hk) as [n Hn]. destruct (Hw.(wr_nodes h) n) as [Hid Hlevel]; [by apply list_elem_of_lookup_2 in Hn|].
  destruct Hinv as [[[(Hdim&_) Hv Hlen _ _] _ _ _ _] Hnorms]. destruct Hcfg as (Ed&_&Em&_&_).
  unfold load_node, encode_node. assert (node_at h k = n) as -> by (unfold node_at; by rewrite Hn). cbv zeta. rewrite <-!app_assoc.
  rewrite read_le_encoded by (cbn; lia). rewrite u32_small, read_le_encoded by (cbn; lia).
  rewrite read_le_encoded by (destruct (n_deleted n); cbn; lia).
  rewrite given_at by done. unfold ids. rewrite list_lookup_fmap, Hn. cbn [fmap option_fmap option_map default from_option id].
  rewrite Z.eqb_refl, (proj2 (Z.ltb_ge 32 _)) by lia. rewrite (proj2 (Z.ltb_ge 1 _)) by (destruct (n_deleted n); lia).
  unfold len at 1. rewrite length_node_vector, <-Ed by done.
  assert (Z.of_nat (Z.to_nat (dimension h)) =? dimension h = true) as -> by (apply Z.eqb_eq; lia). cbn [negb orb reloaded packed default from_option id].
  rewrite Nat2Z.id, <-Em, (layers_encoded k n) by done. cbn [res_bind].
  destruct (ordinals_below k n Hn) as [Eord Hnew].
  assert ((if n_deleted n then 1 else 0) =? 1 = n_deleted n) as -> by by destruct (n_deleted n).
  unfold reloaded. rewrite Eord, all_links_S, pack_rows_snoc, !concat_app, Nat.add_0_l. cbn [concat]. rewrite app_nil_r.
  rewrite (take_S_r (nodes h) k n Hn), fmap_app.
  destruct (lookup_lt_is_Some_2 (squaredNorms h) k) as [x Hx]; [by rewrite Hlen|]. rewrite (take_S_r _ k x Hx).
  change (querySquaredNorm _ (vectorAt h k)) with (querySquaredNorm h (vectorAt h k)). rewrite <-(Hnorms k Hk). unfold norm_at. rewrite Hx.
  assert (take (k * Z.to_nat (dimension h)) (vectors h) ++ vectorAt h k = take (S k * Z.to_nat (dimension h)) (vectors h)) as Evec.
  { unfold vectorAt. cbv zeta. rewrite take_take_drop. f_equal. lia. }
  cbn [dimension metric m efConstruction efSearch vectors squaredNorms nodes immutableGraph ordinals entry maxLevel live construction default from_option id].
  rewrite Evec. do 3 f_equal. destruct (n_deleted n); [done|]. rewrite map_size_insert_None by auto. lia.
Qed.

Lemma load_written_nodes k rest :
  (k ≤ count h)%nat →
  load_nodes (count h - k) graphVersion (count h) cfg ids given (reloaded h k) k ((seq k (count h - k) ≫= encode_node h) ++ rest)
  = Ok (reloaded h (count h), rest).
Proof.
  intros Hk. remember (count h - k)%nat as left_ eqn:El. revert k Hk El. induction left_ as [|left_ IH]; intros k Hk El.
  - cbn [load_nodes seq]. replace k with (count h) by lia. done.
  - cbn [seq load_nodes]. rewrite bind_cons, <-app_assoc, load_written by lia. cbn [res_bind]. apply IH; lia.
Qed.

Lemma u32_bound v : 0 ≤ u32 v < 256 ^ Z.of_nat 4.
Proof. apply Z.mod_pos_bound. done. Qed.

Lemma marshal_data data :
  MarshalGraph h = Ok data →
  let payload := seq 0 (count h) ≫= encode_node h in
  data = graph_header h (len payload) (graphChecksum (graph_header h (len payload) 0 ++ payload)) ++ payload ∧ len payload ≤ max_int - graphHeaderSize.
Proof.
  unfold MarshalGraph. cbv zeta. fold (count h). destruct (Z.ltb_spec (max_int - graphHeaderSize) (len (seq 0 (count h) ≫= encode_node h))); [done|].
  intros E. apply (f_equal (λ r, match r with Ok d => d | Err _ => [] end)) in E. cbv beta iota in E. by subst data.
Qed.

Lemma written_checked data : MarshalGraph h = Ok data → check_header cfg ids given data = Ok tt.
Proof.
  intros [-> Hsize]%marshal_data. set (payload := seq 0 (count h) ≫= encode_node h) in *.
  set (c := graphChecksum _). pose proof (graphChecksum_bound _ (written_bytes h (len payload) 0)) as Hc. fold payload c in Hc.
  destruct (graph_header_fields h (len payload) c payload) as (E1&E2&E3&E4&E5&E6&E7&E8&_&_&E11&E12&E13&E14&_&E16).
  pose proof (checksum_header h (len payload) c payload) as Esum. fold c in Esum. set (data := graph_header h (len payload) c ++ payload) in *.
  destruct Hw as [Hcount _ _]. destruct Hcfg as (Hd&Hme&Hm&Hefc&Hefs). pose proof (len_nonneg payload). unfold count, max_int, graphHeaderSize in *.
  unfold check_header. cbv zeta. rewrite E1, (bool_decide_eq_true_2 _ eq_refl), E16, Esum.
  rewrite (le_value_bytes_field 4 _ _ _ _ E4 (u32_bound _)), (le_value_bytes_field 4 _ _ _ _ E5 (u32_bound _)),
    (le_value_bytes_field 4 _ _ _ _ E6 (u32_bound _)), (le_value_bytes_field 4 _ _ _ _ E7 (u32_bound _)).
  rewrite (le_value_bytes_field 8 _ _ _ _ E8) by (unfold len; cbn; lia). rewrite (le_value_bytes_field 8 _ _ _ _ E12), (le_value_bytes_field 4 _ _ _ _ E13) by (cbn; lia).
  unfold field. rewrite E2, E3, E11, E14. change (le_value (le_bytes 2 graphVersion)) with 2. change (le_value [0; 0]) with 0. change (le_value [0; 0; 0; 0]) with 0.
  assert (le_value [metricCode (metric h)] = metricCode (cfg_Metric cfg)) as -> by (rewrite <-Hme; cbn; lia).
  assert (len ids = len (nodes h)) as -> by (unfold ids, len; by rewrite length_fmap).
  assert (len given = len (nodes h)) as -> by (unfold given, len, count; by rewrite length_fmap, length_seq).
  rewrite <-Hd, <-Hm, <-Hefc, <-Hefs, !Z.eqb_refl. change (2 =? graphVersion) with true. cbn [negb andb orb].
  unfold max_int, graphHeaderSize. replace (64 + len payload - 64) with (len payload) by lia. rewrite Z.eqb_refl.
  rewrite (proj2 (Z.ltb_ge _ 64)) by lia. rewrite (proj2 (Z.ltb_ge _ (len (nodes h)))) by (unfold len; lia). done.
Qed.

End Written.

(** The settings of an index. *)
Definition configured (cfg : Config) (h : t) : Prop :=
  dimension h = cfg_Dimension cfg ∧ metric h = cfg_Metric cfg ∧ m h = cfg_M cfg ∧ efConstruction h = cfg_EFConstruction cfg ∧ efSearch h = cfg_EFSearch cfg.

(** The graph [h] is loaded as: its nodes and vectors, its links packed. *)
Definition frozen (h : t) : t := match entry h with Some e => set_entry (reloaded h (count h)) e (maxLevel h) | None => reloaded h (count h) end.

Lemma load_marshalled cfg h data :
  inv h → writable h → configured cfg h → MarshalGraph h = Ok data →
  LoadGraph cfg (n_id <$> nodes h) (vectorAt h <$> seq 0 (count h)) data = Ok (frozen h).
Proof.
  intros Hinv Hw Hcfg Hd. unfold LoadGraph. rewrite (written_checked h Hw cfg Hcfg data Hd). cbn [res_bind]. rewrite length_fmap. fold (count h).
  pose proof Hinv as [[[(H1&H2&H3&H4&H5) _ _ _ _] _ Hentry _ _] _]. pose proof Hcfg as (Ed&Eme&Em&Ec&Es).
  assert (New cfg = Ok (mk (dimension h) (metric h) (m h) (efConstruction h) (efSearch h) [] [] [] None false ∅ None 0 0 (mkScratch [] 0))) as ->.
  { unfold New, invalid_config. rewrite <-Ed, <-Eme, <-Em, <-Ec, <-Es, H2. rewrite (proj2 (Z.leb_gt _ _)) by done.
    rewrite (proj2 (Z.ltb_ge _ _)) by done. rewrite (proj2 (Z.ltb_ge _ _)) by done. by rewrite (proj2 (Z.ltb_ge _ _)). }
  cbn [res_bind].
  assert (loading (mk (dimension h) (metric h) (m h) (efConstruction h) (efSearch h) [] [] [] None false ∅ None 0 0 (mkScratch [] 0)) (count h) = reloaded h 0) as ->.
  { unfold loading, reloaded. cbn [dimension metric m efConstruction efSearch take Nat.mul fmap list_fmap].
    assert (filter (λ entry : Z * nat, (entry.2 < 0)%nat) (ordinals h) = ∅) as ->; [|by rewrite map_size_empty].
    apply map_eq. intros i. rewrite lookup_empty. apply map_lookup_filter_None. right. intros o _. cbn. lia. }
  destruct (marshal_data h data Hd) as [Edata _].
  set (payload := seq 0 (count h) ≫= encode_node h) in *. set (c := graphChecksum _) in Edata.
  destruct (graph_header_fields h (len payload) c payload) as (_&E2&_&_&_&_&_&_&E9&E10&_&_&_&_&E15&_).
  rewrite <-Edata in E2, E9, E10, E15. rewrite E15, (le_value_bytes_field 2 _ _ _ _ E2) by done. clear c Edata.
  pose proof (load_written_nodes h Hinv Hw cfg Hcfg 0 [] ltac:(lia)) as El. rewrite Nat.sub_0_r, app_nil_r in El. fold payload in El. rewrite El. cbn [res_bind].
  change (negb (len [] =? 0)) with false. cbv iota. unfold check_entry. cbv zeta. clear El.
  change (nodes (reloaded h (count h))) with (bare <$> take (count h) (nodes h)). rewrite take_ge, length_fmap by done. fold (count h).
  unfold frozen. unfold entry_ok in Hentry. destruct (entry h) as [e|] eqn:Ee.
  - destruct Hentry as (n&Hn&Elevel). destruct (Hw.(wr_nodes h) n) as [_ Hlevel]; [by apply list_elem_of_lookup_2 in Hn|].
    pose proof (lookup_lt_Some _ _ _ Hn) as Hlt. pose proof Hw.(wr_count h) as Hc. unfold count in *.
    rewrite u64_small in E9 by (unfold two64; lia). rewrite u32_small in E10 by lia.
    rewrite (le_value_bytes_field 8 _ _ _ _ E9), (le_value_bytes_field 4 _ _ _ _ E10) by (cbn; lia).
    unfold signed. rewrite (proj2 (Z.leb_gt _ _)), (proj2 (Z.leb_gt _ _)) by lia. rewrite (proj2 (Nat.eqb_neq _ _)) by lia.
    rewrite (proj2 (Z.ltb_ge _ _)), (proj2 (Z.leb_gt _ _)) by lia. cbn [orb]. rewrite !Nat2Z.id.
    assert (n_level (node_at (reloaded h (length (nodes h))) e) = maxLevel h) as ->; [|by rewrite Z.eqb_refl].
    unfold node_at, reloaded. cbn [nodes]. rewrite take_ge, list_lookup_fmap, Hn by done. done.
  - unfold count. rewrite Hentry. cbn [length]. unfold field. by rewrite E9, E10.
Qed.

(** *** The frozen graph searches as the one it was *)

Section Frozen.
Context (h : t) (Hinv : inv h).

Lemma frozen_nodes : nodes (frozen h) = bare <$> nodes h.
Proof. unfold frozen, reloaded, count. destruct (entry h); cbn [set_entry nodes]; by rewrite take_ge. Qed.

Lemma frozen_node o : node_at (frozen h) o = bare (node_at h o).
Proof. unfold node_at. rewrite frozen_nodes, list_lookup_fmap. by destruct (nodes h !! o). Qed.

Lemma frozen_ids : id_at (frozen h) = id_at h.
Proof. apply functional_extensionality. intros o. unfold id_at. by rewrite frozen_node. Qed.

Lemma frozen_deleted : deleted_at (frozen h) = deleted_at h.
Proof. apply functional_extensionality. intros o. unfold deleted_at. by rewrite frozen_node. Qed.

Lemma frozen_vectors : vectors (frozen h) = vectors h ∧ squaredNorms (frozen h) = squaredNorms h.
Proof.
  destruct Hinv as [[[_ Hv Hlen _ _] _ _ _ _] _]. unfold frozen. destruct (entry h); cbn [set_entry reloaded vectors squaredNorms];
    split; apply take_ge; lia.
Qed.

Lemma frozen_settings : dimension (frozen h) = dimension h ∧ metric (frozen h) = metric h ∧ efSearch (frozen h) = efSearch h ∧ entry (frozen h) = entry h.
Proof. unfold frozen. by destruct (entry h). Qed.

Lemma frozen_vector : vectorAt (frozen h) = vectorAt h.
Proof. destruct frozen_settings as [Ed _], frozen_vectors as [Ev _]. unfold vectorAt. by rewrite Ed, Ev. Qed.

Lemma frozen_norm q : querySquaredNorm (frozen h) q = querySquaredNorm h q.
Proof. destruct frozen_settings as (_&Em&_). unfold querySquaredNorm. by rewrite Em. Qed.

Lemma frozen_scores : scoreLocked (frozen h) = scoreLocked h.
Proof.
  destruct frozen_settings as (_&Em&_), frozen_vectors as [_ En]. do 3 (apply functional_extensionality; intros ?).
  unfold scoreLocked, norm_at. by rewrite Em, En, frozen_vector.
Qed.

Lemma frozen_ordinals : ordinals (frozen h) = ordinals h ∧ live (frozen h) = live h.
Proof.
  destruct Hinv as [[[_ _ _ Hord Hlive] _ _ _ _] _].
  assert (filter (λ entry : Z * nat, (entry.2 < count h)%nat) (ordinals h) = ordinals h) as E.
  { apply map_filter_id. intros i o (n&Hn&_)%Hord. by apply lookup_lt_Some in Hn. }
  unfold frozen. destruct (entry h); cbn [set_entry reloaded ordinals live]; by rewrite E.
Qed.

Lemma frozen_links : neighborsAt (frozen h) = neighborsAt h.
Proof.
  apply functional_extensionality. intros layer. apply functional_extensionality. intros o.
  assert (neighborsAt (frozen h) layer o = neighborsAt (reloaded h (count h)) layer o) as -> by (unfold frozen; by destruct (entry h)).
  destruct Hinv as [[_ [Hp Hlayers Hlists] _ _ _] _].
  assert (node_at (reloaded h (count h)) o = bare (node_at h o)) as Enode.
  { unfold node_at. cbn [reloaded nodes]. rewrite take_ge, list_lookup_fmap by done. by destruct (nodes h !! o). }
  unfold neighborsAt at 1. rewrite Enode. cbn [bare n_level reloaded packed].
  destruct (Nat.ltb_spec (n_level (node_at h o)) layer) as [Hlt|Hle]; [unfold neighborsAt; by rewrite (proj2 (Nat.ltb_lt _ _))|].
  destruct (nodes h !! o) as [n|] eqn:Hn.
  - apply packed_list with (node_links h o).
    + unfold all_links. rewrite list_lookup_fmap, lookup_seq_lt by (by apply lookup_lt_Some in Hn). done.
    + unfold node_links. rewrite list_lookup_fmap, lookup_seq_lt by lia. done.
  - rewrite pack_rows_beyond by (unfold all_links; rewrite list_lookup_fmap, lookup_seq_ge; [done|by apply lookup_ge_None in Hn]).
    unfold neighborsAt, node_at in *. rewrite Hn in *. cbn in Hle. rewrite Hp. cbn. by destruct layer.
Qed.

Lemma frozen_search query k ef allowed n : search (frozen h) query k ef allowed n = search h query k ef allowed n.
Proof.
  destruct frozen_settings as (Ed&_&Es&Ee), frozen_ordinals as [_ El].
  assert (length (nodes (frozen h)) = length (nodes h)) as Elen by (rewrite frozen_nodes; by rewrite length_fmap).
  unfold search. rewrite Ed, Es, Ee, El, !frozen_norm. destruct (entry h) as [e|] eqn:Eentry; [|done].
  assert (maxLevel (frozen h) = maxLevel h) as Emax by (unfold frozen; by rewrite Eentry).
  assert (accepts (frozen h) allowed = accepts h allowed) as Eacc.
  { apply functional_extensionality. intros o. unfold accepts. by rewrite frozen_ids, frozen_deleted. }
  assert (∀ norm e', descend (frozen h) query norm e' = descend h query norm e') as Edesc.
  { intros norm e'. unfold descend, greedyLocked, fuel. by rewrite Emax, frozen_ids, frozen_scores, frozen_links, Elen. }
  assert (candidate_of (frozen h) = candidate_of h) as Ecand by (apply functional_extensionality; intros c; unfold candidate_of; by rewrite frozen_ids).
  assert (∀ norm k f, exactFilteredLocked (frozen h) query norm k f = exactFilteredLocked h query norm k f) as Eexact.
  { intros norm k' f. unfold exactFilteredLocked. rewrite Ecand, frozen_ids, Elen.
    assert (offer (frozen h) query norm k' f = offer h query norm k' f) as ->; [|done].
    do 2 (apply functional_extensionality; intros ?). unfold offer. by rewrite frozen_ids, frozen_deleted, frozen_scores. }
  rewrite Ecand, Edesc, frozen_deleted. unfold searchLayerLocked, fuel. rewrite frozen_ids, frozen_scores, frozen_links, Elen, Eacc.
  repeat case_match; rewrite ?Eexact; reflexivity.
Qed.
End Frozen.

(** C17. A graph that is written loads over the same vectors as the same
    graph: the same live vectors and the same links, and every search answers
    as it did. *)
Theorem graph_round_trip cfg h data :
  inv h → writable h → configured cfg h → MarshalGraph h = Ok data →
  ∃ h', LoadGraph cfg (n_id <$> nodes h) (vectorAt h <$> seq 0 (count h)) data = Ok h' ∧
    contents h' = contents h ∧ (∀ layer o, neighborsAt h' layer o = neighborsAt h layer o) ∧
    (∀ query k ef allowed n, search h' query k ef allowed n = search h query k ef allowed n).
Proof.
  intros Hinv Hw Hcfg Hd. exists (frozen h). split; [by apply load_marshalled|]. destruct (frozen_ordinals h Hinv) as [Eo _]. split_and!.
  - unfold contents. by rewrite Eo, (frozen_vector h Hinv).
  - intros layer o. by rewrite (frozen_links h Hinv).
  - apply (frozen_search h Hinv).
Qed.
