(* ===== verification/HnswInstances.v ===== *)
(** * The HNSW index: a reference scheduler and concrete graphs

    One goroutine links the nodes of a batch in order: the schedule of
    [workers = 1], which keeps what every schedule must keep.  The theorems
    are applied to a graph of three vectors. *)
From Stdlib Require Import ZArith Lia Ascii String.
From stdpp Require Import base tactics relations list gmap strings.
From S2P Require Import Prelude Wal Core Distance Float TopK Index Lexical Hnsw HnswSearch HnswPool HnswProofs HnswPoolSafety HnswIndex HnswQuery HnswGraph.
Import Hnsw Pool.
Local Set Warnings "-clear-no-such-hyp".
Local Open Scope string_scope.
Local Open Scope Z_scope.
Local Open Scope list_scope.

Module OneWorker.

(** Logarithm and exponential stand for nothing here but for some function
    each: they only choose the levels of the nodes. *)
#[global] Instance identity_log : LogExp := {| math_Log := λ x, x; math_Exp := λ x, x |}.

(** The first worker links every node before the others step. *)
Definition link_in_order (h : t) (first : nat) (workers_ : Z) : t :=
  match workers (start h first workers_) with
  | [] => h
  | _ => (foldl link_next (h, mkScratch (replicate (length (nodes h)) 0) 0) (seq first (length (nodes h) - first))).1
  end.

#[global] Instance one_worker : Scheduler := {| GOMAXPROCS := 1; link_parallel := link_in_order |}.

Lemma link_in_order_runs h first workers_ e :
  stored h → links_ok h → entry_ok h → entry h = Some e → (e < first)%nat →
  ∃ picks, all_finished (run (start h first workers_) picks) = true ∧ link_in_order h first workers_ = graph (run (start h first workers_) picks).
Proof.
  intros Hst Hl He Ee Hlt. pose proof (start_ok h first workers_ e Hl He Ee Hlt) as Hp. unfold link_in_order.
  destruct (workers (start h first workers_)) as [|x ws] eqn:Ew; [exists []; unfold all_finished; cbn [run foldl]; by rewrite Ew|].
  assert (workers (start h first workers_) !! 0%nat = Some (Free, mkScratch (replicate (length (nodes h)) 0) 0)) as Hw.
  { assert (workers (start h first workers_) !! 0%nat = Some x) as Hx by by rewrite Ew. rewrite Hx. cbn [start workers] in Hx.
    by apply lookup_replicate in Hx as [-> _]. }
  destruct (free_ends h Hst 0%nat _ _ Hp Hw eq_refl) as (k&next&Hnext&E). change (graph (start h first workers_)) with h in *.
  change (next_node (start h first workers_)) with first in *. change (count h) with (length (nodes h)) in *.
  set (ended := foldl link_next _ _) in *. pose proof (pool_run_ok h _ (replicate k 0%nat) Hst Hp) as Hp1.
  assert (graph (run (start h first workers_) (replicate k 0%nat)) = ended.1) as Eg by (rewrite E; by destruct ended).
  assert (count ended.1 = count h) as Ec by (rewrite <-Eg; apply core_count; apply Hp1).
  destruct (rest_ends h Hst (length (workers (start h first workers_))) (run (start h first workers_) (replicate k 0%nat)) Hp1) as (picks&H1&H2).
  - rewrite E. by destruct ended.
  - rewrite Eg, Ec, E. by destruct ended.
  - rewrite E. destruct ended as [h' s']. cbn [workers]. intros w ph s [(<-&[= <- <-]&_)|[Hne Hw']]%list_lookup_insert_Some; [by left|right].
    pose proof (lookup_lt_Some _ _ _ Hw'). cbn [start workers] in Hw'. apply lookup_replicate in Hw' as [[= <- _] _]. done.
  - exists (replicate k 0%nat ++ picks). rewrite run_app. split; [done|]. by rewrite H2, Eg.
Qed.

#[global] Instance one_worker_spec : SchedulerSpec.
Proof. constructor. intros h first workers_ e. apply link_in_order_runs. Qed.

(** ** Three vectors on a line *)

Definition cfg : Config := mkIndexConfig 2 MetricL2 2 4 4.
Definition one_x : list Z := [f32_one; f32_zero].
Definition one_y : list Z := [f32_zero; f32_one].
Definition origin : list Z := [f32_zero; f32_zero].

Definition empty : t := mk 2 MetricL2 2 4 4 [] [] [] None false ∅ None 0 0 (mkScratch [] 0).

Definition sample : t := match UpsertBatch empty [1; 5; 9] [one_x; one_y; origin] 1 with Ok h => h | Err _ => empty end.

Lemma empty_New : New cfg = Ok empty.
Proof. reflexivity. Qed.

Lemma graph_ok :
  inv sample ∧ contents sample = put_all [(1, one_x); (5, one_y); (9, origin)] ∅ ∧ settings sample = settings empty.
Proof.
  destruct (New_inv cfg empty empty_New) as (Hi&Hc&_).
  destruct (UpsertBatch_ok empty [1; 5; 9] [one_x; one_y; origin] 1 Hi eq_refl) as (h&E&Hi2&Hc2&Hs); [repeat constructor|].
  unfold sample. rewrite E. rewrite Hc in Hc2. exact (conj Hi2 (conj Hc2 Hs)).
Qed.

Lemma graph_query : len one_x = dimension sample.
Proof. destruct graph_ok as (_&_&Hs). rewrite (settings_dimension _ _ Hs). reflexivity. Qed.

Lemma settings_configured h h' : settings h = settings h' → configured cfg h' → configured cfg h.
Proof. intros H. injection H. unfold configured. by intros -> -> -> -> ->. Qed.

Lemma graph_configured : configured cfg sample.
Proof. destruct graph_ok as (_&_&Hs). apply (settings_configured _ _ Hs). split_and!; reflexivity. Qed.

(** The scores of the three vectors for the query [one_x] are numbers. *)
Lemma graph_comparable allowed : all_comparable sample one_x allowed.
Proof.
  destruct graph_ok as (_&Hc&Hs). intros id v Hv _. destruct graph_configured as (_&Hm&_). rewrite Hm.
  rewrite Hc in Hv. unfold put_all in Hv. cbn [foldl fst snd] in Hv.
  repeat (apply lookup_insert_Some in Hv as [[_ <-]|[_ Hv]]; [reflexivity|]). rewrite lookup_empty in Hv. discriminate Hv.
Qed.

(** A vector of the wrong length, and a vector put twice, among others. *)
Definition changes : list change := [Put 1 one_x; Put 5 one_y; Drop 1; Put 5 [f32_one]; Put 5 origin].

Lemma hnsw_refines_map_witness :
  New cfg = Ok empty ∧
  let '(h, answers) := history perform empty changes in
  inv h ∧ history (expected (cfg_Dimension cfg)) ∅ changes = (contents h, answers).
Proof.
  split; [exact empty_New|]. pose proof (hnsw_refines_map cfg empty changes) as H. specialize (H empty_New). exact H.
Defined.

Lemma hnsw_search_sound_witness :
  readable sample ∧ entry sample = Some 0%nat ∧
  (∃ R, search sample one_x 2 0 None (-1) = Ok R ∧ len R ≤ 2 ∧ NoDup (CandID <$> R)) ∧
  descent_ends sample one_x (layers (maxLevel sample) 1) 0 (descend sample one_x (querySquaredNorm sample one_x) 0).
Proof.
  split; [apply inv_readable, graph_ok|]. assert (entry sample = Some 0%nat) as He by (vm_compute; reflexivity). split; [exact He|].
  destruct (hnsw_search_sound sample one_x (inv_readable _ (proj1 graph_ok)) graph_query 2 0 None (-1)) as ((R&E&Hl&Hn&_)&Hends); [lia|lia|].
  split; [|exact (proj1 (Hends 0%nat He))]. exists R. split; [exact E|]. split; [exact Hl|exact Hn].
Defined.

(** A filter known to allow two ids. *)
Definition odd_ids (id : Z) : bool := id <? 9.

Lemma hnsw_search_exact_witness :
  ∃ R, search sample one_x 2 0 (Some odd_ids) 2 = Ok R ∧
    top_set score_higher 2 (Index.scored (score_of (metric sample) one_x) odd_ids (contents sample)) R.
Proof.
  apply (hnsw_search_exact sample one_x (inv_readable _ (proj1 graph_ok)) graph_query 2 0 (Some odd_ids) 2); [lia|lia|apply graph_comparable|].
  left. split; [eexists; reflexivity|lia].
Defined.

(** ** Two workers *)

(** The three vectors stored, and the first made the entry. *)
Definition appended : t := foldl (λ h item, appendNodeLocked h item.1 item.2) empty [(1, one_x); (5, one_y); (9, origin)].
Definition unlinked : t := set_entry appended 0 (n_level (node_at appended 0)).

Lemma unlinked_ok : stored unlinked ∧ links_ok unlinked ∧ entry_ok unlinked ∧ entry unlinked = Some 0%nat.
Proof.
  destruct (New_inv cfg empty empty_New) as ((Hl&_)&_).
  destruct (append_all_ok [(1, one_x); (5, one_y); (9, origin)] empty (iv_stored _ Hl) (iv_links _ Hl) (iv_marks _ Hl)) as (H1&H2&_).
  - apply (bool_decide_unpack _). vm_compute. exact I.
  - intros id v Hin. repeat (apply elem_of_cons in Hin as [[= -> ->]|Hin]; [split; reflexivity|]). by apply not_elem_of_nil in Hin.
  - fold appended in H1, H2. assert (count appended = 3%nat) as Hc by (vm_compute; reflexivity).
    destruct (set_entry_ok appended 0 ltac:(rewrite Hc; lia) H2) as (H3&H4&H5&_). fold unlinked in H3, H4, H5.
    split; [by eapply core_stored; [symmetry|]|]. split; [exact H4|]. split; [exact H5|reflexivity].
Qed.

(** Taking turns, both return and every node is linked. *)
Definition turns : list nat := concat (replicate 20 [0; 1]%nat).

Example turns_end :
  let p := run (start unlinked 1 2) turns in
  all_finished p = true ∧ n_neighbors <$> nodes (graph p) = [[[1; 2]]; [[0]]; [[0]]]%nat.
Proof. vm_compute. split; reflexivity. Qed.

Lemma parallel_linking_safe_witness :
  core (graph (run (start unlinked 1 2) [0; 1; 0; 1; 1]%nat)) = core unlinked ∧
  ∃ more, all_finished (run (run (start unlinked 1 2) [0; 1; 0; 1; 1]%nat) more) = true.
Proof.
  destruct unlinked_ok as (Hst&Hl&He&Ee).
  pose proof (parallel_linking_safe unlinked 1 2 0 [0; 1; 0; 1; 1]%nat Hst Hl He Ee ltac:(lia)) as H. cbv zeta in H.
  destruct H as (Hc&_&_&_&Hm). split; [exact Hc|exact Hm].
Defined.

(** ** The graph as a file *)

Definition small_node (n : node) : bool := (0 <=? n_id n) && (n_id n <? 2 ^ 64) && (n_level n <=? 32)%nat.

Lemma graph_writable : writable sample.
Proof.
  assert (count sample = 3%nat) as Hc by (vm_compute; reflexivity). assert (forallb small_node (nodes sample) = true) as Hn by (vm_compute; reflexivity).
  constructor.
  - rewrite Hc. lia.
  - destruct graph_configured as (_&_&Hm&_). rewrite Hm. change (cfg_M cfg) with 2. lia.
  - intros n Hin. rewrite forallb_forall in Hn. specialize (Hn n (proj1 (list_elem_of_In _ _) Hin)). unfold small_node in Hn.
    apply andb_true_iff in Hn as [Hn Hl]. apply andb_true_iff in Hn as [H0 H1]. apply Nat.leb_le in Hl. lia.
Qed.

Definition written : list Z := match MarshalGraph sample with Ok data => data | Err _ => [] end.

Lemma written_ok : MarshalGraph sample = Ok written.
Proof.
  assert (match MarshalGraph sample with Ok _ => true | Err _ => false end = true) as H by (vm_compute; reflexivity).
  revert H. unfold written. destruct (MarshalGraph sample); [reflexivity|discriminate].
Qed.

Lemma graph_round_trip_witness :
  ∃ h', LoadGraph cfg (n_id <$> nodes sample) (vectorAt sample <$> seq 0 (count sample)) written = Ok h' ∧ contents h' = contents sample.
Proof.
  pose proof (graph_round_trip cfg sample written (proj1 graph_ok) graph_writable graph_configured) as H. specialize (H written_ok).
  destruct H as (h'&E&Hc&_). exists h'. split; [exact E|exact Hc].
Defined.

Lemma written_is_bytes : Forall is_byte written.
Proof. destruct (marshal_data sample written written_ok) as [-> _]. apply written_bytes. Qed.

Lemma loaded_graph_searchable_witness :
  ∃ h, LoadGraph cfg [1; 5; 9] [one_x; one_y; origin] written = Ok h ∧ readable h.
Proof.
  assert (match LoadGraph cfg [1; 5; 9] [one_x; one_y; origin] written with Ok _ => true | Err _ => false end = true) as H by (vm_compute; reflexivity).
  assert (NoDup [1; 5; 9]) as Hnd by (apply (bool_decide_unpack _); vm_compute; exact I).
  pose proof (loaded_graph_searchable cfg [1; 5; 9] [one_x; one_y; origin] written) as Hall.
  revert H Hall. destruct (LoadGraph cfg [1; 5; 9] [one_x; one_y; origin] written) as [h|e]; [|discriminate]. intros _ Hall. exists h. split; [reflexivity|].
  exact (proj1 (Hall h written_is_bytes Hnd eq_refl)).
Defined.

End OneWorker.
