(* ===== verification/Ownership.v ===== *)
(** * Shard ownership

    [internal/engine/ownership.go]: which shards of which collections a node
    stores.  Ownership is activated once: the assignment is validated against
    the collections, every shard that is not assigned must be empty, the
    assignment is written to [SHARD_OWNERSHIP.json], and only then the empty
    artifacts of the other shards are removed.

    The state is the engine's: its collections by name, what it owns ([None]
    before activation, when it owns everything) and the directory that holds
    the ownership file.  Texts of errors are left out, so the order in which Go
    visits the collections shows only in which shards a failing removal
    leaves. *)
From Stdlib Require Import ZArith Lia Ascii String.
From stdpp Require Import base tactics list gmap strings.
From S2P Require Import Prelude Wal Core Float Distance TopK Index Segment Shard Collection Persistence Lexical Json Column Compaction SegmentFiles Multisegment MappedIndex Sealed Checkpoint Engine.
Local Open Scope string_scope.
Local Open Scope Z_scope.
Local Open Scope list_scope.

Definition OwnershipFile : string := "SHARD_OWNERSHIP.json".

(** [None] is the nil map of a document without collections. *)
Record ownershipManifest : Set := mkOwnershipManifest {
  own_Format : Z;
  own_Collections : option (gmap string (list Z));
}.

Abbreviation ownership_map := (gmap string (gset Z)).

(** The calls that remove what an unowned shard leaves. *)
Inductive PruneStep : Set := CloseLog | RemoveLog | RemoveDirectory | RemoveLedger.

Module Node.
Section Node.
Context {I MI L : Type} `{!VectorIndex I, !MetadataIndex MI, !LexicalIndex L, !IndexBuilders I}.
Context `{!MapOrder, !Json ownershipManifest}.

Local Abbreviation state := (Engine.t I MI L).

Record t : Type := mk {
  collections : gmap string state;
  ownership : option ownership_map;
  dataPath : disk;
}.

Definition shardOwned (e : t) (collection : string) (shardID : Z) : bool :=
  match ownership e with
  | None => true
  | Some o => bool_decide (shardID ∈ (default ∅ (o !! collection) : gset Z))
  end.

(** An operation on the collection of a name. *)
Definition on_collection {A} (e : t) (name : string) (m : (Z → bool) → Engine.M (I := I) (MI := MI) (L := L) A) : t * res A :=
  match collections e !! name with
  | None => (e, Err (Sentinel ErrNotFound))
  | Some s =>
      let '(s', r) := m (shardOwned e name) s in
      (mk (<[name := s']> (collections e)) (ownership e) (dataPath e), r)
  end.

Definition DescribeCollection (e : t) (name : string) : res (CollectionConfig * Z) :=
  match collections e !! name with
  | None => Err (Sentinel ErrNotFound)
  | Some s => Ok (Collection.config (Engine.coll s), Collection.Count (Engine.coll s))
  end.

Definition ListCollections (e : t) : list CollectionConfig :=
  sort_slice (λ a b, str_ltb (Name a) (Name b)) ((λ s, Collection.config (Engine.coll s)) <$> (map_to_list (collections e)).*2).

Definition RouteShard (e : t) (name namespace id : string) : res Z :=
  match collections e !! name with
  | None => Err (Sentinel ErrNotFound)
  | Some s =>
      if String.eqb id "" then invalid "record id is required"
      else Ok (Collection.RouteShard (Engine.coll s) namespace id)
  end.

(** ** Loading *)

(** A slice of shard ids as a set, refusing duplicates. *)
Fixpoint distinct_shards (owned : gset Z) (shardIDs : list Z) : res (gset Z) :=
  match shardIDs with
  | [] => Ok owned
  | shardID :: rest =>
      if bool_decide (shardID ∈ owned) then Err (Errorf "duplicate shard in ownership")
      else distinct_shards ({[shardID]} ∪ owned) rest
  end.

Fixpoint load_entries (result : ownership_map) (entries : list (string * list Z)) : res ownership_map :=
  match entries with
  | [] => Ok result
  | (name, shardIDs) :: rest =>
      if String.eqb name "" then Err (Errorf "invalid empty collection in shard ownership")
      else
        let! owned := distinct_shards ∅ shardIDs in
        load_entries (<[name := owned]> result) rest
  end.

(** At most 2^20 bytes of the file are read; a longer document does not
    decode. *)
Definition loadOwnership (d : disk) : disk * res (option ownership_map) :=
  match readFile OwnershipFile d with
  | (d, Err e) => if is_not_exist e then (d, Ok None) else (d, Err e)
  | (d, Ok content) =>
      (d, let! manifest := json_Unmarshal (take (Z.to_nat (2 ^ 20)) content) in
          match own_Collections manifest with
          | None => Err (Errorf "invalid shard ownership manifest")
          | Some entries =>
              if negb (own_Format manifest =? 1) then Err (Errorf "invalid shard ownership manifest")
              else let! result := load_entries ∅ (range entries) in Ok (Some result)
          end)
  end.

(** ** Activation *)

Fixpoint check_shards (count : Z) (owned : gset Z) (shardIDs : list Z) : res (gset Z) :=
  match shardIDs with
  | [] => Ok owned
  | shardID :: rest =>
      if count <=? shardID then Err (Errorf "ownership shard out of range")
      else if bool_decide (shardID ∈ owned) then Err (Errorf "duplicate ownership shard")
      else check_shards count ({[shardID]} ∪ owned) rest
  end.

(** The requested sets and the manifest, collection by collection. *)
Fixpoint check_assignments (assignments : gmap string (list Z)) (requested : ownership_map) (manifest : gmap string (list Z))
    (colls : list (string * state)) : res (ownership_map * gmap string (list Z)) :=
  match colls with
  | [] => Ok (requested, manifest)
  | (name, s) :: rest =>
      match assignments !! name with
      | None => Err (Errorf "ownership missing collection")
      | Some shardIDs =>
          let! owned := check_shards (ShardCount (Collection.config (Engine.coll s))) ∅ shardIDs in
          check_assignments assignments (<[name := owned]> requested) (<[name := sort_slice Z.ltb shardIDs]> manifest) rest
      end
  end.

Definition ownershipEqual (left_ right_ : ownership_map) : bool :=
  bool_decide (size left_ = size right_)
  && forallb (λ '(name, shards),
       match right_ !! name with
       | None => false
       | Some other =>
           bool_decide (size shards = size other) && forallb (λ shardID, bool_decide (shardID ∈ other)) (elements shards)
       end) (map_to_list left_).

(** A shard that is to be pruned holds nothing. *)
Definition check_empty (shardID : Z) : Engine.M (I := I) (MI := MI) (L := L) unit :=
  let+ records := Engine.ask (λ c, Collection.ShardRecords c shardID) in
  let+ records := Engine.lift records in
  if negb (len records =? 0) then Engine.fail (Errorf "refusing to prune non-empty shard")
  else
    let+ st := Engine.get_store shardID in
    if match log st with Some l => negb (LastLSN l =? 0) | None => false end then
      Engine.fail (Errorf "refusing to prune shard with WAL history")
    else if negb (bool_decide (idempotency st = ∅)) then Engine.fail (Errorf "refusing to prune shard with idempotency history")
    else
      let+ entries := Engine.on_directory shardID readDir in
      if negb (len entries =? 0) then Engine.fail (Errorf "refusing to prune shard with segment files")
      else Engine.ret tt.

(** Its log is closed and set to nil, and its files are removed; [fault] is
    the call that fails, if one does. *)
Definition prune (fault : option PruneStep) (shardID : Z) : Engine.M (I := I) (MI := MI) (L := L) unit :=
  Engine.on_store shardID (λ st,
    let closed := mkStore (directory st) None (checkpointLSN st) (mutations st) (walDigests st) (ledger st) (idempotency st) in
    match fault with
    | Some CloseLog => match log st with Some _ => (st, Err io_error) | None => (closed, Err io_error) end
    | Some _ => (closed, Err io_error)
    | None =>
        (mkStore (directory st) None (checkpointLSN st) (mutations st) (walDigests st)
           (mkDisk (delete ledger_name (files (ledger st))) (faults (ledger st))) (idempotency st), Ok tt)
    end).

(** A pass over the unowned shards of a collection. *)
Fixpoint unowned_shards (f : Z → Engine.M (I := I) (MI := MI) (L := L) unit) (owned : gset Z) (shardIDs : list Z)
    : Engine.M (I := I) (MI := MI) (L := L) unit :=
  match shardIDs with
  | [] => Engine.ret tt
  | shardID :: rest =>
      let+ _ := if bool_decide (shardID ∈ owned) then Engine.ret tt else f shardID in
      unowned_shards f owned rest
  end.

(** The pass over every collection. *)
Fixpoint each_collection (f : string → Z → Engine.M (I := I) (MI := MI) (L := L) unit) (requested : ownership_map) (e : t)
    (names : list string) : t * res unit :=
  match names with
  | [] => (e, Ok tt)
  | name :: rest =>
      match on_collection e name (λ _ s,
              unowned_shards (f name) (default ∅ (requested !! name))
                (Z.of_nat <$> seq 0 (Z.to_nat (ShardCount (Collection.config (Engine.coll s))))) s) with
      | (e', Ok _) => each_collection f requested e' rest
      | (e', Err err) => (e', Err err)
      end
  end.

Definition ApplyShardOwnership (fault : string → Z → option PruneStep) (e : t) (assignments : gmap string (list Z)) : t * res unit :=
  if negb (Nat.eqb (size assignments) (size (collections e))) then (e, Err (Errorf "ownership must cover every collection"))
  else
    match check_assignments assignments ∅ ∅ (range (collections e)) with
    | Err err => (e, Err err)
    | Ok (requested, manifest) =>
        match ownership e with
        | Some current =>
            if ownershipEqual current requested then (e, Ok tt)
            else (e, Err (Errorf "shard ownership is immutable once activated"))
        | None =>
            match each_collection (λ _ shardID, check_empty shardID) requested e (range (collections e)).*1 with
            | (e, Err err) => (e, Err err)
            | (e, Ok _) =>
                match json_Marshal (mkOwnershipManifest 1 (Some manifest)) with
                | Err err => (e, Err err)
                | Ok payload =>
                    match writeAtomic OwnershipFile (payload ++ [10]) (dataPath e) with
                    | (d, Err err) => (mk (collections e) (ownership e) d, Err err)
                    | (d, Ok _) =>
                        each_collection (λ name shardID, prune (fault name shardID) shardID) requested
                          (mk (collections e) (Some requested) d) (range (collections e)).*1
                    end
                end
            end
        end
    end.

End Node.
Arguments t : clear implicits.
End Node.
