(* ===== verification/Replication.v ===== *)
(** * Shard replication

    [internal/api/rest/replication.go], [replication_fanout.go],
    [replica_repair.go] and the views and fences of [server.go] they rest on: a
    shard's leader commits a mutation to its own log and hands it to the other
    members of the replica set at that log position; a member accepts it from
    the planned leader of its own view only; a member that has fallen behind
    gets a snapshot; a repair pass does the same with a growing delay after
    failures.

    A handler is a function of the server's state.  A request carries what the
    handler reads of it: the fence headers, where a number is what
    [strconv.ParseUint] makes of the text ([None] when it is not one), the
    path, and the bytes of the body.  An answer is its status with the body
    the leader decodes.  What the transport makes of an exchange is the
    argument [send].  Metrics, traces, credentials and texts of errors are left
    out.  [raftTerm] is the term [raftProtocol.Status] reports and [peers] what
    discovery knows; [ready] is the outcome of [staticPlacementReady], which
    rests on the digests peers advertise. *)
From Stdlib Require Import ZArith Lia Ascii String.
From stdpp Require Import base tactics list gmap strings.
From S2P Require Import Prelude Wal Core Sha256 ClusterBase RaftStore Placement Rebalance Float Distance TopK Index Segment Shard Collection Persistence Lexical Json Column Compaction SegmentFiles Multisegment MappedIndex Sealed Checkpoint Engine Ownership.
Local Open Scope string_scope.
Local Open Scope Z_scope.
Local Open Scope list_scope.

(** ** Requests and answers *)

Record replicaAppendRequest : Set := mkReplicaAppend {
  ra_Sequence : Z;
  ra_ReplicationFactor : Z;
  ra_Records : list CoreRecord;
  ra_Operation : string;
  ra_Namespace : string;
  ra_ID : string;
}.

Record replicaSnapshotRequest : Set := mkReplicaSnapshot {
  rs_Sequence : Z;
  rs_ReplicationFactor : Z;
  rs_Records : list CoreRecord;
}.

Record request : Set := mkRequest {
  req_ClusterID : string;
  req_TargetNodeID : string;
  req_MetadataEpoch : option Z;
  req_LeaderNodeID : string;
  req_LeaderTerm : option Z;
  req_collection : string;
  req_shard : option Z;
  req_body : list Z;
}.

Inductive answer_body : Set :=
  | ErrorBody (code : string)
  | ReplicaBody (sequence shardID metadataEpoch : Z) (status : string)
  | SequenceBody (sequence shardID metadataEpoch : Z).

Record answer : Set := mkAnswer { StatusCode : Z; Body : answer_body }.

(** What the leader sees of an exchange; a body it cannot read is [None]. *)
Inductive reply : Set :=
  | Unreachable
  | Received (status : Z) (body : option answer_body).

(** The endpoints under [/v1/internal/replicas/]. *)
Inductive endpoint : Set := AppendPath | SnapshotPath | StatusPath.

Definition maxBodyBytes : Z := 16 * 2 ^ 20.

(** [decode]: one JSON value of at most [maxBodyBytes] bytes. *)
Definition decode {A} `{!Json A} (body : list Z) : option A :=
  if maxBodyBytes <? len body then None
  else match json_Unmarshal body with Ok v => Some v | Err _ => None end.

Definition failure (status : Z) (code : string) : answer := mkAnswer status (ErrorBody code).

Definition writeError (e : error) : answer :=
  if errors_Is e ErrNotFound then failure 404 "not_found"
  else if errors_Is e ErrAlreadyExists then failure 409 "already_exists"
  else if errors_Is e ErrShardNotOwned then failure 409 "shard_not_owned"
  else if errors_Is e ErrReplicationGap then failure 409 "replication_gap"
  else if errors_Is e ErrReplicationConflict then failure 409 "replication_conflict"
  else if errors_Is e ErrReplicationCompacted then failure 410 "replication_sequence_compacted"
  else if errors_Is e ErrIdempotencyConflict then failure 409 "idempotency_conflict"
  else if errors_Is e ErrInvalidArgument || errors_Is e ErrDimensionMismatch then failure 400 "invalid_argument"
  else failure 500 "internal_error".

Definition fence_code (kind : FenceErrorKind) : string :=
  match kind with
  | FenceClusterMismatch => "cluster_mismatch"
  | FenceWrongNode => "wrong_node"
  | FenceStaleEpoch => "stale_epoch"
  | FenceFutureEpoch => "future_epoch"
  end.

(** The loop over the replicas of a placement. *)
Definition is_replica (placement : ShardReplicaPlacement) (id : string) : bool :=
  existsb (λ replica, String.eqb replica id) (Replicas placement).

(** ** Acknowledgement levels *)

Definition parseAcknowledgement (value : string) : res string :=
  if String.eqb value "" then Ok "quorum"
  else if negb (String.eqb value "leader") && negb (String.eqb value "quorum") && negb (String.eqb value "all") then
    invalid "acknowledgement must be leader, quorum, or all"
  else Ok value.

Definition requiredAcknowledgements (level : string) (replicationFactor : Z) : Z :=
  if String.eqb level "leader" then 1
  else if String.eqb level "all" then replicationFactor
  else replicationFactor ÷ 2 + 1.

(** The loop of [commitLeaderShardBatch] over the answers in their order of
    arrival: it stops when enough have arrived, and a goroutine takes the
    rest. *)
Fixpoint await (required acknowledged : Z) (results : list (string * res unit)) : Z * list (string * res unit) :=
  if required <=? acknowledged then (acknowledged, results)
  else
    match results with
    | [] => (acknowledged, [])
    | (_, r) :: rest => await required (if is_ok r then acknowledged + 1 else acknowledged) rest
    end.

(** The loop of [commitLeaderShardDelete], which takes every answer. *)
Fixpoint drain (acknowledged : Z) (results : list (string * res unit)) : Z :=
  match results with
  | [] => acknowledged
  | (_, r) :: rest => drain (if is_ok r then acknowledged + 1 else acknowledged) rest
  end.

(** ** Repair delays *)

Definition second : Z := 1000000000.
Definition repair_limit : Z := 5 * 60 * second.

Record replicaRepairRetry : Set := mkRetry { Failures : Z; NextAttempt : Z }.

(** [for step := 1; step < retry.Failures && delay < 5*time.Minute; step++] *)
Fixpoint double_delay (steps : nat) (delay : Z) : Z :=
  match steps with
  | O => delay
  | S steps => if delay <? repair_limit then double_delay steps (delay * 2) else delay
  end.

Definition repair_delay (failures : Z) : Z :=
  let delay := double_delay (Z.to_nat (failures - 1)) second in
  if repair_limit <? delay then repair_limit else delay.

Notation "'let+' x := m 'in' k" := (Engine.bind m (λ x, k)) (at level 10, x name, k at level 200).

Module Server.
Section Server.
Context {I MI L : Type} `{!VectorIndex I, !MetadataIndex MI, !LexicalIndex L, !IndexBuilders I, !SealedBuilders I, !FilterFiles MI, !MapOrder}.
Context `{!Json Manifest, !Json (list storedRecord), !Json (list string), !Json persistedIndex}.
Context `{!Json walMutation, !Json (list CoreRecord), !Json idempotencyLedger, !Json ownershipManifest}.
Context `{!Json replicaAppendRequest, !Json replicaSnapshotRequest}.
Context (native : bool) (checkpointEvery : Z).

Record t : Type := mk {
  engine : Node.t I MI L;
  nodeID : string;
  clusterID : string;
  advertiseAddress : string;
  metadataEpoch : Z;
  peers : list Peer;
  staticRouting : bool;
  ready : bool;
  replicationFactor : Z;
  placementCapacity : Z;
  raftStore : option RaftStore;
  raftTerm : option Z;
  rebalanceBarriers : option RebalanceBarrierStore;
  ownershipApplied : bool;
  repairRetries : gmap string replicaRepairRetry;
}.

Definition set_engine (s : t) (e : Node.t I MI L) : t :=
  mk e (nodeID s) (clusterID s) (advertiseAddress s) (metadataEpoch s) (peers s) (staticRouting s) (ready s) (replicationFactor s)
    (placementCapacity s) (raftStore s) (raftTerm s) (rebalanceBarriers s) (ownershipApplied s) (repairRetries s).

Definition set_barriers (s : t) (b : RebalanceBarrierStore) : t :=
  mk (engine s) (nodeID s) (clusterID s) (advertiseAddress s) (metadataEpoch s) (peers s) (staticRouting s) (ready s)
    (replicationFactor s) (placementCapacity s) (raftStore s) (raftTerm s) (Some b) (ownershipApplied s) (repairRetries s).

Definition set_applied (s : t) : t :=
  mk (engine s) (nodeID s) (clusterID s) (advertiseAddress s) (metadataEpoch s) (peers s) (staticRouting s) (ready s)
    (replicationFactor s) (placementCapacity s) (raftStore s) (raftTerm s) (rebalanceBarriers s) true (repairRetries s).

Definition set_retries (s : t) (retries : gmap string replicaRepairRetry) : t :=
  mk (engine s) (nodeID s) (clusterID s) (advertiseAddress s) (metadataEpoch s) (peers s) (staticRouting s) (ready s)
    (replicationFactor s) (placementCapacity s) (raftStore s) (raftTerm s) (rebalanceBarriers s) (ownershipApplied s) retries.

(** An operation of the engine. *)
Definition on_engine {A} (s : t) (f : Node.t I MI L → Node.t I MI L * A) : t * A :=
  let '(e, r) := f (engine s) in (set_engine s e, r).

(** ** Views *)

Definition currentMetadataEpoch (s : t) : Z :=
  match raftStore s with Some r => let '(_, _, epoch) := State r in epoch | None => metadataEpoch s end.

Definition committedPlacementCapacities (s : t) : gmap string Z :=
  match raftStore s with
  | None => ∅
  | Some r =>
      match CommittedView (RaftStore.state r) with
      | None => ∅
      | Some committed =>
          match ParseCapacityManifest (CapacityManifest committed) with
          | Err _ => ∅
          | Ok capacities => foldl (λ m c, <[nc_NodeID c := nc_Capacity c]> m) ∅ capacities
          end
      end
  end.

Definition currentPlacementCapacity (s : t) : Z :=
  default (placementCapacity s) (committedPlacementCapacities s !! nodeID s).

Definition applyCommittedPeerCapacities (s : t) (ps : list Peer) : list Peer :=
  (λ p, match committedPlacementCapacities s !! peer_NodeID p with Some c => set_capacity p c | None => p end) <$> ps.

(** The peers that are voters, each voter once; what is left is missing. *)
Fixpoint pick_voters (wanted : gset string) (ps : list Peer) : list Peer * gset string :=
  match ps with
  | [] => ([], wanted)
  | p :: rest =>
      if bool_decide (peer_NodeID p ∈ wanted) then
        let '(result, missing) := pick_voters (wanted ∖ {[peer_NodeID p]}) rest in (p :: result, missing)
      else pick_voters wanted rest
  end.

Definition membershipPeers (s : t) : res (list Peer) :=
  match raftStore s with
  | None => Ok (applyCommittedPeerCapacities s (peers s))
  | Some r =>
      let voters := Voters (RaftStore.state r) in
      if len voters =? 0 then Ok (applyCommittedPeerCapacities s (peers s))
      else
        let wanted : gset string := list_to_set (List.filter (λ v, negb (String.eqb v (nodeID s))) voters) in
        let '(result, missing) := pick_voters wanted (peers s) in
        if negb (bool_decide (missing = ∅)) then Err (Errorf "one or more configured Raft voters are not discoverable")
        else Ok (applyCommittedPeerCapacities s result)
  end.

(** The replica placement of one collection as this node sees it. *)
Definition replica_table (s : t) (config : CollectionConfig) (ps : list Peer) : res ReplicaPlacementTable :=
  PlanReplicaPlacementWithCapacity (currentMetadataEpoch s) (nodeID s) (advertiseAddress s) (currentPlacementCapacity s) ps
    [config] (replicationFactor s).

Definition find_shard (shardID : Z) (shards : list ShardReplicaPlacement) : option ShardReplicaPlacement :=
  head (List.filter (λ p, srp_ShardID p =? shardID) shards).

(** ** Ownership *)

Definition assignments (s : t) (configs : list CollectionConfig) (shards : list ShardReplicaPlacement) : gmap string (list Z) :=
  foldl (λ m p, if is_replica p (nodeID s)
                then <[srp_Collection p := default [] (m !! srp_Collection p) ++ [srp_ShardID p]]> m else m)
    (foldl (λ m c, <[Name c := []]> m) ∅ configs) shards.

Definition activateLocalOwnership (fault : string → Z → option PruneStep) (s : t) : t * res unit :=
  if ownershipApplied s then (s, Ok tt)
  else
    let configs := Node.ListCollections (engine s) in
    match (let! ps := membershipPeers s in
           PlanReplicaPlacementWithCapacity (currentMetadataEpoch s) (nodeID s) (advertiseAddress s) (currentPlacementCapacity s) ps
             configs (replicationFactor s)) with
    | Err e => (s, Err e)
    | Ok table =>
        match on_engine s (λ e, Node.ApplyShardOwnership fault e (assignments s configs (rpt_Shards table))) with
        | (s, Err e) => (s, Err e)
        | (s, Ok _) => (set_applied s, Ok tt)
        end
    end.

Definition requireStaticPlacement (fault : string → Z → option PruneStep) (s : t) : t * option answer :=
  if negb (staticRouting s) then (s, None)
  else if ready s then
    match activateLocalOwnership fault s with
    | (s, Err _) => (s, Some (failure 503 "ownership_activation_failed"))
    | (s, Ok _) => (s, None)
    end
  else (s, Some (failure 503 "cluster_view_not_ready")).

(** ** Fences *)

Definition validateInternalFence (s : t) (r : request) : option answer :=
  match req_MetadataEpoch r with
  | None => Some (failure 400 "invalid_epoch")
  | Some epoch =>
      match ValidateFence (clusterID s) (nodeID s) (currentMetadataEpoch s) (req_ClusterID r) (req_TargetNodeID r) epoch with
      | Some e =>
          let status := match Kind e with FenceFutureEpoch => 503 | _ => 409 end in
          Some (failure status (fence_code (Kind e)))
      | None => None
      end
  end.

(** The checks on the sender's term. *)
Definition leader_fence (s : t) (r : request) : option answer :=
  if negb (ValidNodeID (req_LeaderNodeID r)) then Some (failure 400 "invalid_replication_leader")
  else
    match req_LeaderTerm r with
    | None => Some (failure 400 "invalid_replication_leader")
    | Some term =>
        if term =? 0 then Some (failure 400 "invalid_replication_leader")
        else
          match raftTerm s with
          | None => Some (failure 503 "raft_unavailable")
          | Some current => if negb (term =? current) then Some (failure 409 "replication_leader_fence") else None
          end
    end.

(** The sender leads the shard in this node's placement, and this node is one
    of its replicas; the collection's name, or why not. *)
Definition placement_fence (s : t) (r : request) (shardID : Z) : answer + string :=
  match Node.DescribeCollection (engine s) (req_collection r) with
  | Err e => inl (writeError e)
  | Ok (config, _) =>
      match membershipPeers s with
      | Err _ => inl (failure 503 "membership_unavailable")
      | Ok ps =>
          match replica_table s config ps with
          | Err _ => inl (failure 400 "replica_placement_unavailable")
          | Ok table =>
              match find_shard shardID (rpt_Shards table) with
              | None => inl (failure 409 "not_a_replica")
              | Some placement =>
                  if negb (String.eqb (LeaderID placement) (req_LeaderNodeID r)) then
                    inl (failure 409 "wrong_replication_leader")
                  else if negb (is_replica placement (nodeID s)) then inl (failure 409 "not_a_replica")
                  else inr (Name config)
              end
          end
      end
  end.

(** ** The members of a replica set *)

(** What both handlers check before they touch the engine: the shard and the
    collection, or the answer that refuses. *)
Definition replica_fences {A} (s : t) (r : request) (shardID : Z) (decoded : option A) (factor : A → Z) : answer + (A * string) :=
  match leader_fence s r with
  | Some a => inl a
  | None =>
      match decoded with
      | None => inl (failure 400 "invalid_json")
      | Some body =>
          if negb (factor body =? replicationFactor s) then inl (failure 409 "replication_factor_mismatch")
          else
            match placement_fence s r shardID with
            | inl a => inl a
            | inr name => inr (body, name)
            end
      end
  end.

(** The fences every internal request passes first, and its shard. *)
Definition internal_request (fault : string → Z → option PruneStep) (s : t) (r : request) : t * (answer + Z) :=
  match validateInternalFence s r with
  | Some a => (s, inl a)
  | None =>
      match requireStaticPlacement fault s with
      | (s, Some a) => (s, inl a)
      | (s, None) =>
          match req_shard r with
          | None => (s, inl (failure 400 "invalid_shard"))
          | Some shardID => (s, inr shardID)
          end
      end
  end.

Definition applied (s : t) (shardID sequence : Z) (status : string) (r : res unit) : answer :=
  match r with
  | Err e => writeError e
  | Ok _ => mkAnswer 200 (ReplicaBody sequence shardID (currentMetadataEpoch s) status)
  end.

Definition internalReplicaAppend (fault : string → Z → option PruneStep) (faults : log_faults) (s : t) (r : request) : t * answer :=
  match internal_request fault s r with
  | (s, inl a) => (s, a)
  | (s, inr shardID) =>
      match replica_fences s r shardID (decode (req_body r)) ra_ReplicationFactor with
      | inl a => (s, a)
      | inr (body, name) =>
          let run m := let '(s', e) := on_engine s (λ e, Node.on_collection e name m) in
                       (s', applied s' shardID (ra_Sequence body) "appended" e) in
          if String.eqb (ra_Operation body) "" || String.eqb (ra_Operation body) "upsert" then
            run (λ owned, Store.ApplyReplicaBatch owned faults shardID (ra_Sequence body) (ra_Records body))
          else if String.eqb (ra_Operation body) "delete" then
            if negb (len (ra_Records body) =? 0) then (s, failure 400 "invalid_replica_delete")
            else run (λ owned, Store.ApplyReplicaDelete owned faults shardID (ra_Sequence body) (ra_Namespace body) (ra_ID body))
          else (s, failure 400 "invalid_replica_operation")
      end
  end.

Definition internalReplicaSnapshot (fault : string → Z → option PruneStep) (faults : log_faults) (s : t) (r : request) : t * answer :=
  match internal_request fault s r with
  | (s, inl a) => (s, a)
  | (s, inr shardID) =>
      match replica_fences s r shardID (decode (req_body r)) rs_ReplicationFactor with
      | inl a => (s, a)
      | inr (body, name) =>
          let '(s', e) := on_engine s (λ e, Node.on_collection e name (λ owned,
                            Store.InstallReplicaSnapshot owned faults shardID (rs_Sequence body) (rs_Records body))) in
          (s', applied s' shardID (rs_Sequence body) "installed" e)
      end
  end.

Definition internalReplicaStatus (s : t) (r : request) : t * answer :=
  match validateInternalFence s r with
  | Some a => (s, a)
  | None =>
      match req_shard r with
      | None => (s, failure 400 "invalid_shard")
      | Some shardID =>
          match Node.DescribeCollection (engine s) (req_collection r) with
          | Err e => (s, writeError e)
          | Ok (config, _) =>
              match membershipPeers s with
              | Err _ => (s, failure 503 "membership_unavailable")
              | Ok ps =>
                  match replica_table s config ps with
                  | Err _ => (s, failure 503 "placement_unavailable")
                  | Ok table =>
                      if negb (existsb (λ p, (srp_ShardID p =? shardID) && is_replica p (nodeID s)) (rpt_Shards table)) then
                        (s, failure 409 "not_a_replica")
                      else
                        match on_engine s (λ e, Node.on_collection e (Name config) (λ owned, Store.ReplicaSequence owned shardID)) with
                        | (s, Err e) => (s, writeError e)
                        | (s, Ok sequence) => (s, mkAnswer 200 (SequenceBody sequence shardID (currentMetadataEpoch s)))
                        end
                  end
              end
          end
      end
  end.

(** ** Requests of a leader *)

(** The transport: a URL, what is asked for, the request. *)
Context (send : string → endpoint → request → reply).

Definition leader_request (s : t) (peer : Peer) (collection : string) (shardID term : Z) (payload : list Z) : request :=
  mkRequest (clusterID s) (peer_NodeID peer) (Some (currentMetadataEpoch s)) (nodeID s) (Some term) collection (Some shardID) payload.

(** An error code of the peer, or [""] for any other failure. *)
Definition append_code (s : t) (shardID sequence : Z) (r : reply) : option string :=
  match r with
  | Unreachable => Some ""
  | Received status body =>
      if negb (status =? 200) then
        match body with Some (ErrorBody code) => Some code | _ => Some "" end
      else
        match body with
        | Some (ReplicaBody sequence' shardID' epoch status) =>
            if negb (sequence' =? sequence) || negb (shardID' =? shardID) || negb (epoch =? currentMetadataEpoch s)
               || negb (String.eqb status "appended")
            then Some "" else None
        | _ => Some ""
        end
  end.

Definition remoteReplicaAppendOnce (s : t) (peer : Peer) (collection : string) (shardID sequence : Z) (records : list CoreRecord)
    (term : Z) : option string :=
  match json_Marshal (mkReplicaAppend sequence (replicationFactor s) records "" "" "") with
  | Err _ => Some ""
  | Ok payload => append_code s shardID sequence (send (SeedURL peer) AppendPath (leader_request s peer collection shardID term payload))
  end.

Definition remoteReplicaSnapshot (s : t) (peer : Peer) (collection : string) (shardID sequence : Z) (records : list CoreRecord)
    (term : Z) : res unit :=
  let! payload := json_Marshal (mkReplicaSnapshot sequence (replicationFactor s) records) in
  match send (SeedURL peer) SnapshotPath (leader_request s peer collection shardID term payload) with
  | Unreachable => Err (IOError "send")
  | Received status body =>
      if negb (status =? 200) then Err (Errorf "peer returned an error")
      else
        match body with
        | Some (ReplicaBody sequence' shardID' epoch status) =>
            if negb (sequence' =? sequence) || negb (shardID' =? shardID) || negb (epoch =? currentMetadataEpoch s)
               || negb (String.eqb status "installed")
            then Err (Errorf "snapshot response fence mismatch") else Ok tt
        | _ => Err (Errorf "decode snapshot response")
        end
  end.

Definition export (s : t) (collection : string) (shardID : Z) : res (Z * list CoreRecord) :=
  (Node.on_collection (engine s) collection (λ owned, Store.ExportReplicaSnapshot owned shardID)).2.

(** A member that misses earlier positions gets a snapshot instead. *)
Definition remoteReplicaAppend (s : t) (peer : Peer) (collection : string) (shardID sequence : Z) (records : list CoreRecord)
    (term : Z) : res unit :=
  match remoteReplicaAppendOnce s peer collection shardID sequence records term with
  | None => Ok tt
  | Some code =>
      if negb (String.eqb code "replication_gap") && negb (String.eqb code "replication_sequence_compacted") then
        Err (Errorf "append")
      else
        let! '(snapshotSequence, snapshotRecords) := export s collection shardID in
        if snapshotSequence <? sequence then Err (Errorf "recovery snapshot is behind append")
        else remoteReplicaSnapshot s peer collection shardID snapshotSequence snapshotRecords term
  end.

Definition remoteReplicaDelete (s : t) (peer : Peer) (collection : string) (shardID sequence : Z) (namespace id : string)
    (term : Z) : res unit :=
  let! payload := json_Marshal (mkReplicaAppend sequence (replicationFactor s) [] "delete" namespace id) in
  match send (SeedURL peer) AppendPath (leader_request s peer collection shardID term payload) with
  | Unreachable => Err (IOError "send")
  | Received status _ => if negb (status =? 200) then Err (Errorf "peer returned an error") else Ok tt
  end.

Definition remoteReplicaSequence (s : t) (peer : Peer) (collection : string) (shardID : Z) : res Z :=
  match send (SeedURL peer) StatusPath
          (mkRequest (clusterID s) (peer_NodeID peer) (Some (currentMetadataEpoch s)) "" None collection (Some shardID) []) with
  | Unreachable => Err (IOError "send")
  | Received status body =>
      if negb (status =? 200) then Err (Errorf "peer returned an error")
      else
        match body with
        | Some (SequenceBody sequence shardID' epoch) =>
            if negb (shardID' =? shardID) || negb (epoch =? currentMetadataEpoch s) then Err (Errorf "replica status fence mismatch")
            else Ok sequence
        | _ => Err (Errorf "decode")
        end
  end.

(** ** Commits of a leader *)

(** Barriers of committed plans are released; a frozen shard takes no write. *)
Definition unfrozen (fault : option PersistStep) (s : t) (collection : string) (shardID : Z) : t * res unit :=
  match rebalanceBarriers s with
  | None => (s, Ok tt)
  | Some b =>
      match ReleaseCommitted fault b (currentMetadataEpoch s) with
      | (b, Err e) => (set_barriers s b, Err (Errorf "release committed rebalance barriers"))
      | (b, Ok _) =>
          (set_barriers s b,
           match IsFrozen b collection shardID with
           | Some _ => Err (Errorf "shard writes frozen")
           | None => Ok tt
           end)
      end
  end.

Definition replication_term (s : t) : res Z :=
  if 1 <? replicationFactor s then
    match raftTerm s with
    | None => Err (Errorf "metadata Raft status is required for replicated writes")
    | Some term => if term =? 0 then Err (Errorf "metadata Raft term is not established") else Ok term
    end
  else Ok 0.

(** The shard's replicas in a placement this node leads. *)
Definition led_placement (s : t) (collection : string) (shardID : Z) : res (list Peer * ShardReplicaPlacement) :=
  let! '(config, _) := Node.DescribeCollection (engine s) collection in
  let! ps := membershipPeers s in
  let! table := replica_table s config ps in
  match find_shard shardID (rpt_Shards table) with
  | Some placement =>
      if String.eqb (LeaderID placement) (nodeID s) then Ok (ps, placement)
      else Err (Errorf "local node is not the planned shard leader")
  | None => Err (Errorf "local node is not the planned shard leader")
  end.

Definition peerByID (ps : list Peer) : gmap string Peer := foldl (λ m p, <[peer_NodeID p := p]> m) ∅ ps.

(** What every commit checks before it touches the engine. *)
Definition lead (fault : option PersistStep) (s : t) (collection : string) (shardID : Z)
    : t * res (Z * list Peer * ShardReplicaPlacement) :=
  match unfrozen fault s collection shardID with
  | (s, Err e) => (s, Err e)
  | (s, Ok _) =>
      (s, let! term := replication_term s in
          let! '(ps, placement) := led_placement s collection shardID in
          Ok (term, ps, placement))
  end.

(** A mutation committed here: what [lead] gave, with what the engine
    answered. *)
Definition commit_local {A} (fault : option PersistStep) (s : t) (collection : string) (shardID : Z)
    (m : (Z → bool) → Engine.M (I := I) (MI := MI) (L := L) A) : t * res (Z * list Peer * ShardReplicaPlacement * A) :=
  match lead fault s collection shardID with
  | (s, Err e) => (s, Err e)
  | (s, Ok led) =>
      match on_engine s (λ e, Node.on_collection e collection m) with
      | (s, Err e) => (s, Err e)
      | (s, Ok a) => (s, Ok (led, a))
      end
  end.

Definition commit_batch (fault : option PersistStep) (faults : log_faults) (s : t) (collection : string) (shardID : Z)
    (records : list CoreRecord) (key : string) (clock : nat → Z)
    : t * res (Z * list Peer * ShardReplicaPlacement * (list CoreRecord * Z)) :=
  commit_local fault s collection shardID (λ owned,
    Store.BatchUpsertShardIdempotent native owned checkpointEvery faults shardID records key clock).

Definition commit_delete (fault : option PersistStep) (faults : log_faults) (s : t) (collection : string) (shardID : Z)
    (namespace id : string) : t * res (Z * list Peer * ShardReplicaPlacement * Z) :=
  commit_local fault s collection shardID (λ owned,
    Store.DeleteShardWithSequence native owned checkpointEvery faults shardID namespace id).

(** The outcomes of the goroutines, one per other member, in the order
    [arrive] puts them in. *)
Context (arrive : list (string * res unit) → list (string * res unit)).

Definition outcomes (ps : list Peer) (placement : ShardReplicaPlacement) (call : Peer → res unit) : list (string * res unit) :=
  arrive ((λ id, (id, match peerByID ps !! id with
                      | None => Err (Errorf "not discoverable")
                      | Some peer => call peer
                      end)) <$> drop 1 (Replicas placement)).

(** A commit's results: the records, how many members have it, whether its
    fate is unknown, and the answers a goroutine still waits for with the lock
    held. *)
Record commit : Type := mkCommit {
  com_records : list CoreRecord;
  com_acknowledged : Z;
  com_ambiguous : bool;
  com_error : option error;
  com_pending : list (string * res unit);
}.

Definition refused (e : error) : commit := mkCommit [] 0 false (Some e) [].
Definition unavailable : error := Errorf "replication acknowledgement level unavailable".

Definition commitLeaderShardBatch (fault : option PersistStep) (faults : log_faults) (s : t) (collection : string) (shardID : Z)
    (records : list CoreRecord) (acknowledgement key : string) (clock : nat → Z) : t * commit :=
  match commit_batch fault faults s collection shardID records key clock with
  | (s, Err e) => (s, refused e)
  | (s, Ok (term, ps, placement, (prepared, sequence))) =>
      if replicationFactor s =? 1 then (s, mkCommit prepared 1 false None [])
      else
        let required := requiredAcknowledgements acknowledgement (replicationFactor s) in
        let '(acknowledged, pending) := await required 1
          (outcomes ps placement (λ peer, remoteReplicaAppend s peer collection shardID sequence prepared term)) in
        if acknowledged <? required then (s, mkCommit prepared acknowledged true (Some unavailable) [])
        else (s, mkCommit prepared acknowledged false None pending)
  end.

Definition commitLeaderShardDelete (fault : option PersistStep) (faults : log_faults) (s : t) (collection : string) (shardID : Z)
    (namespace id acknowledgement : string) : t * commit :=
  match commit_delete fault faults s collection shardID namespace id with
  | (s, Err e) => (s, refused e)
  | (s, Ok (term, ps, placement, sequence)) =>
      if replicationFactor s =? 1 then (s, mkCommit [] 1 false None [])
      else
        let required := requiredAcknowledgements acknowledgement (replicationFactor s) in
        let acknowledged := drain 1
          (outcomes ps placement (λ peer, remoteReplicaDelete s peer collection shardID sequence namespace id term)) in
        if acknowledged <? required then (s, mkCommit [] acknowledged true (Some unavailable) [])
        else (s, mkCommit [] acknowledged false None [])
  end.

(** ** Repair *)

Definition replicaMetricKey (collection : string) (shardID : Z) (id : string) : string :=
  collection +:+ nul +:+ EncodeJson.decimal shardID +:+ nul +:+ id.

Definition repairAttemptAllowed (s : t) (key : string) (now : Z) : bool :=
  match repairRetries s !! key with Some retry => NextAttempt retry <=? now | None => true end.

Definition recordRepairFailure (s : t) (key : string) (now : Z) : t :=
  let retry := default (mkRetry 0 0) (repairRetries s !! key) in
  let failures := if Failures retry <? 31 then Failures retry + 1 else Failures retry in
  set_retries s (<[key := mkRetry failures (now + repair_delay failures)]> (repairRetries s)).

Definition clearRepairFailure (s : t) (key : string) : t := set_retries s (delete key (repairRetries s)).

(** One follower of one shard; whether the pass counts a failure. *)
Definition repair_follower (s : t) (now : Z) (ps : list Peer) (name : string) (shardID leaderSequence term : Z) (followerID : string)
    : t * bool :=
  let retryKey := replicaMetricKey name shardID followerID in
  if negb (repairAttemptAllowed s retryKey now) then (s, false)
  else
    match (match peerByID ps !! followerID with
           | None => Err (Errorf "not discoverable")
           | Some peer =>
               let! followerSequence := remoteReplicaSequence s peer name shardID in
               if (leaderSequence <=? followerSequence) || (leaderSequence =? 0) then Ok tt
               else
                 let! '(snapshotSequence, records) := export s name shardID in
                 remoteReplicaSnapshot s peer name shardID snapshotSequence records term
           end) with
    | Err _ => (recordRepairFailure s retryKey now, true)
    | Ok _ => (clearRepairFailure s retryKey, false)
    end.

Fixpoint repair_followers (s : t) (now : Z) (ps : list Peer) (name : string) (shardID leaderSequence term : Z) (ids : list string)
    : t * bool :=
  match ids with
  | [] => (s, false)
  | id :: rest =>
      let '(s, f) := repair_follower s now ps name shardID leaderSequence term id in
      let '(s, g) := repair_followers s now ps name shardID leaderSequence term rest in
      (s, f || g)
  end.

Fixpoint repair_shards (s : t) (now : Z) (ps : list Peer) (name : string) (term : Z) (shards : list ShardReplicaPlacement) : t * bool :=
  match shards with
  | [] => (s, false)
  | placement :: rest =>
      let '(s, f) :=
        if negb (String.eqb (LeaderID placement) (nodeID s)) then (s, false)
        else
          match (Node.on_collection (engine s) name (λ owned, Store.ReplicaSequence owned (srp_ShardID placement))).2 with
          | Err _ => (s, true)
          | Ok leaderSequence =>
              repair_followers s now ps name (srp_ShardID placement) leaderSequence term (drop 1 (Replicas placement))
          end in
      let '(s, g) := repair_shards s now ps name term rest in
      (s, f || g)
  end.

Fixpoint repair_collections (s : t) (now : Z) (ps : list Peer) (term : Z) (configs : list CollectionConfig) : t * res bool :=
  match configs with
  | [] => (s, Ok false)
  | config :: rest =>
      match replica_table s config ps with
      | Err e => (s, Err e)
      | Ok table =>
          let '(s, f) := repair_shards s now ps (Name config) term (rpt_Shards table) in
          let '(s, r) := repair_collections s now ps term rest in
          (s, let! g := r in Ok (f || g))
      end
  end.

(** One pass; the clock is read once. *)
Definition RepairReplicasOnce (s : t) (now : Z) : t * res unit :=
  if (replicationFactor s <=? 1) || negb (staticRouting s && ready s) then (s, Ok tt)
  else
    match replication_term s with
    | Err e => (s, Err e)
    | Ok term =>
        match membershipPeers s with
        | Err e => (s, Err e)
        | Ok ps =>
            let '(s, r) := repair_collections s now ps term (Node.ListCollections (engine s)) in
            (s, let! failed := r in if failed then Err (Errorf "replica repair failures") else Ok tt)
        end
    end.

End Server.
Arguments t : clear implicits.
End Server.
