(* ===== verification/ReplicaNodes.v ===== *)
(** * A shard on a node

    What the requests of replication do to the shard of a server that hosts
    it: refused requests change nothing, and accepted ones do what the first
    part says of the engine. *)
From Stdlib Require Import ZArith Lia Ascii String.
From stdpp Require Import base tactics list gmap strings.
From S2P Require Import Prelude Wal Core CoreProofs Sha256 ClusterBase RaftStore Placement PlacementProofs Rebalance Distance Float Persistence TopK Index Segment SegmentProofs Shard ShardProofs Collection CollectionProofs Lexical Compaction Column Json SegmentFiles Multisegment SegmentIO ViewProofs MappedViews MappedIndex Sealed SealedProofs Checkpoint CheckpointProofs Engine EngineState EngineCheckpoint EngineMutations Ownership Replication.
Local Set Warnings "-clear-no-such-hyp".
Local Open Scope string_scope.
Local Open Scope Z_scope.
Local Open Scope list_scope.

(** ** What replication does to an engine

    A shard of a collection seen by replication: the records it holds and the
    position of its log.  Committing a batch or a deletion moves the position
    by one; applying a mutation at an exact position does the same or nothing;
    installing a snapshot replaces the records and sets the position. *)

Section Replica.
Context {I MI L : Type} `{!VectorIndex I, !VectorIndexSpec I, !MetadataIndex MI, !MetadataSpec MI,
  !LexicalIndex L, !IndexBuilders I, !IndexBuildersSpec I, !SealedBuilders I, !SealedSpec I, !FilterFiles MI, !FilterFilesSpec MI}.
Context `{!Json Manifest, !Json (list storedRecord), !Json (list string), !Json persistedIndex, !Json walMutation, !Json (list CoreRecord), !Json idempotencyLedger}.
Context `{!JsonSpec walMutation json_mutation}.
Context (cfg : CollectionConfig) (Hcfg : plain_config cfg).

Local Abbreviation collection := (Collection.t I MI L).
Local Abbreviation state := (Engine.t I MI L).

(** *** A shard at a log position *)

Record replica (i : nat) (b : Z) (s : state) (M : gmap string CoreRecord) (n : Z) : Prop := mkReplica {
  rp_inv : coll_inv (Engine.coll s) M;
  rp_budget : budget (Engine.coll s) M b;
  rp_config : Collection.config (Engine.coll s) = cfg;
  rp_stores : length (Engine.stores s) = length (Collection.shards (Engine.coll s));
  rp_count : len (Collection.shards (Engine.coll s)) = ShardCount cfg;
  rp_log : ∃ st l rs, Engine.stores s !! i = Some st ∧ log st = Some l ∧ LogInv l rs ∧ LastLSN l = n;
}.

Lemma replica_mono i a b s M n : a ≤ b → replica i a s M n → replica i b s M n.
Proof. intros Hab [H1 H2 H3 H4 H5 H6]. constructor; try done. by eapply budget_mono. Qed.

Lemma live_replica i b (s : state) M st l :
  live cfg b s M → Engine.stores s !! i = Some st → log st = Some l → replica i b s M (LastLSN l).
Proof.
  intros [H1 H2 H3 H4 H0 H5] Hst Hl. constructor; try done. destruct (H5 i st Hst) as (sh&ma&base&rs&l'&Hk).
  assert (l' = l) as -> by (pose proof (lk_open _ _ _ _ _ _ _ _ _ _ Hk); congruence).
  exists st, l, rs. split_and!; try done. apply Hk.
Qed.

(** What the shard is made of. *)
Lemma replica_at i b s M n :
  replica i b s M n →
  ∃ st l rs sh ma base, (i < length (Engine.stores s))%nat ∧ Engine.stores s !! i = Some st ∧ log st = Some l ∧ LogInv l rs ∧
    LastLSN l = n ∧ nextLSN l = n + 1 ∧ 0 ≤ n ∧ n + 1 < two64 ∧ at_shard (Engine.coll s) M i sh ma base ∧
    Z.of_nat i < len (Collection.shards (Engine.coll s)).
Proof.
  intros [H1 H2 H3 H4 H0 (st&l&rs&Hst&Hl&Hinv&Hn)]. pose proof (lookup_lt_Some _ _ _ Hst) as Hi.
  destruct (lookup_lt_is_Some_2 (Collection.shards (Engine.coll s)) i) as [sh Hsh]; [lia|].
  destruct (at_shard_exists _ M i sh H1 Hsh) as (ma&base&Hat). destruct (last_position l rs Hinv) as [E1 E2].
  pose proof (li_next _ _ Hinv). exists st, l, rs, sh, ma, base. split_and!; try done; try lia. unfold len. lia.
Qed.

Lemma replica_range i b s M n : replica i b s M n → 0 ≤ n ∧ n + 1 < two64.
Proof. intros H. by destruct (replica_at _ _ _ _ _ H) as (?&?&?&?&?&?&_&_&_&_&_&_&?&?&_). Qed.

(** The shard changed to another store and collection. *)
Lemma replica_focus i b (s : state) (c' : collection) st' l' rs' M' n' :
  (i < length (Engine.stores s))%nat → length (Engine.stores s) = length (Collection.shards (Engine.coll s)) →
  len (Collection.shards (Engine.coll s)) = ShardCount cfg →
  coll_inv c' M' → budget c' M' b → Collection.config c' = cfg → len (Collection.shards c') = len (Collection.shards (Engine.coll s)) →
  log st' = Some l' → LogInv l' rs' → LastLSN l' = n' → replica i b (focus i (Engine.stores s) c' st') M' n'.
Proof.
  intros Hi Hs Hn H1 H2 H3 H4 H5 H6 H7. constructor; unfold focus; cbn [Engine.coll Engine.stores]; try done.
  - rewrite length_insert. unfold len in H4. lia.
  - congruence.
  - exists st', l', rs'. by rewrite list_lookup_insert_eq.
Qed.

(** *** Batches *)

Lemma put_records_app (m : gmap string CoreRecord) l k : Shard.put_records m (l ++ k) = Shard.put_records (Shard.put_records m l) k.
Proof. unfold Shard.put_records. by rewrite foldl_app. Qed.

Lemma put_records_cons (m : gmap string CoreRecord) r l : Shard.put_records m (r :: l) = Shard.put_records (<[record_key r := r]> m) l.
Proof. done. Qed.

Lemma part_put n i bound items M :
  Forall (item_ok cfg n i bound) items → part n i (Shard.put_records M items) = Shard.put_records (part n i M) items.
Proof.
  intros Hi. revert M. induction Hi as [|r l Hr Hl IH]; intros M; [done|]. rewrite !put_records_cons, IH, part_insert.
  rewrite decide_True; [done|]. apply Hr.
Qed.

(** Applying the records of a batch that has been logged. *)
Lemma apply_all_ok items i (ss : list store) (st : store) (c : collection) M b sh ma base bound :
  coll_inv c M → budget c M b → b + len items + 3 < two64 → at_shard c M i sh ma base → Collection.config c = cfg →
  Forall (item_ok cfg (len (Collection.shards c)) i bound) items → Forall (λ r, Version r ≤ Collection.version c) items →
  post (Store.apply_all items) (focus i ss c st)
    (λ _ s', ∃ c' sh' ma', s' = focus i ss c' st ∧
       advanced c c' M (Shard.put_records M items) (b + len items) i sh' ma' base)
    (λ _, False).
Proof.
  revert c M b sh ma. induction items as [|r items IH]; intros c M b sh ma Hi Hb Hlt Hat Hc Hok Hv; cbn [Store.apply_all].
  { apply post_ret. exists c, sh, ma. split; [done|]. apply advanced_refl; [done| |done].
    eapply budget_mono; [|exact Hb]. change (len []) with 0. lia. }
  apply Forall_cons in Hok as [Hr Hok]. apply Forall_cons in Hv as [Hv1 Hv]. rewrite len_cons in *. pose proof (len_nonneg items).
  destruct (apply_upsert_ok c M b i sh ma base r) as (c1&s1&Happ&Ha&_); try done; [lia|rewrite Hc; apply Hr|apply Hr|].
  apply post_bind, post_coll. rewrite Happ. pose proof (advanced_len _ _ _ _ _ _ _ _ _ Ha) as El.
  pose proof (ad_config _ _ _ _ _ _ _ _ _ Ha) as Ec.
  assert (Collection.version c1 = Collection.version c) as Ev.
  { unfold Collection.ApplyUpsert in Happ. destruct (Collection.route _ _ _); [|done]. destruct (Shard.Upsert _ _). by injection Happ as <- _. }
  eapply post_mono; [apply (IH c1 (<[record_key r := r]> M) (b + 1) s1 (<[record_key r := r]> ma))| |done].
  - apply Ha.
  - apply Ha.
  - lia.
  - apply Ha.
  - congruence.
  - by rewrite El.
  - by rewrite Ev.
  - intros [] s' (c'&sh'&ma'&->&Ha'). exists c', sh', ma'. split; [done|]. rewrite put_records_cons.
    eapply advanced_trans; [exact Ha|]. by replace (b + (1 + len items)) with (b + 1 + len items) by lia.
Qed.

(** Restoring the records of a leader. *)
Lemma restore_all_ok items i (ss : list store) (st : store) (c : collection) M b sh ma base bound :
  coll_inv c M → budget c M b → b + len items + 3 < two64 → at_shard c M i sh ma base → Collection.config c = cfg →
  Forall (item_ok cfg (len (Collection.shards c)) i bound) items → bound ≤ b →
  post (Store.restore_all items) (focus i ss c st)
    (λ _ s', ∃ c' sh' ma', s' = focus i ss c' st ∧
       advanced c c' M (Shard.put_records M items) (b + len items) i sh' ma' base)
    (λ _, False).
Proof.
  revert c M b sh ma. induction items as [|r items IH]; intros c M b sh ma Hi Hb Hlt Hat Hc Hok Hbound; cbn [Store.restore_all].
  { apply post_ret. exists c, sh, ma. split; [done|]. apply advanced_refl; [done| |done].
    eapply budget_mono; [|exact Hb]. change (len []) with 0. lia. }
  apply Forall_cons in Hok as [Hr Hok]. rewrite len_cons in *. pose proof (len_nonneg items).
  destruct (restore_ok c M b i sh ma base bound r) as (c1&s1&Happ&Ha&_); try done; [lia|by rewrite Hc|destruct Hr; lia|].
  apply post_bind, post_coll. rewrite Happ. pose proof (advanced_len _ _ _ _ _ _ _ _ _ Ha) as El.
  pose proof (ad_config _ _ _ _ _ _ _ _ _ Ha) as Ec.
  eapply post_mono; [apply (IH c1 (<[record_key r := r]> M) (b + 1) s1 (<[record_key r := r]> ma))| |done].
  - apply Ha.
  - apply Ha.
  - lia.
  - apply Ha.
  - congruence.
  - by rewrite El.
  - lia.
  - intros [] s' (c'&sh'&ma'&->&Ha'). exists c', sh', ma'. split; [done|]. rewrite put_records_cons.
    eapply advanced_trans; [exact Ha|]. by replace (b + (1 + len items)) with (b + 1 + len items) by lia.
Qed.

(** *** Preparing a batch *)

(** The records [PrepareUpsert] makes of a batch's can be stored. *)
Definition batch_storable (records : list CoreRecord) : Prop :=
  Forall (λ r, named_valid r ∧
    ∀ (c c1 : collection) now stored, Collection.config c = cfg → Collection.PrepareUpsert c r now = Ok (c1, stored) →
      durable stored ∧ filter_stable stored) records.

Lemma replica_version i b s M n v :
  replica i b s M n → Collection.version (Engine.coll s) ≤ v ≤ b →
  replica i b (Engine.mk (Collection.mk (Collection.config (Engine.coll s)) (Collection.shards (Engine.coll s)) v) (Engine.stores s)) M n.
Proof.
  intros [H1 H2 H3 H4 H0 H5] Hv. constructor; cbn [Engine.coll Engine.stores]; try done.
  - destruct H1 as [Q1 Q2 Q3 Q4 Q5]. constructor; try done. intros k r Hk. cbn [Collection.version]. specialize (Q4 k r Hk). lia.
  - destruct H2 as [B1 B2 B3]. constructor; cbn [Collection.version Collection.shards]; [lia|lia|done].
Qed.

(** Only the collection's version has changed. *)
Definition versioned (s s' : state) : Prop :=
  ∃ v, Collection.version (Engine.coll s) ≤ v ∧
    s' = Engine.mk (Collection.mk (Collection.config (Engine.coll s)) (Collection.shards (Engine.coll s)) v) (Engine.stores s).

Lemma versioned_refl s : versioned s s.
Proof. exists (Collection.version (Engine.coll s)). split; [lia|]. by destruct s as [[] ?]. Qed.

Lemma versioned_trans s s1 s2 : versioned s s1 → versioned s1 s2 → versioned s s2.
Proof. intros (v&Hv&->) (w&Hw&->). exists w. cbn in *. split; [lia|done]. Qed.

(** One record of a batch, prepared. *)
Record made (s : state) (r stored : CoreRecord) : Prop := mkMade {
  md_key : record_key stored = record_key r;
  md_storable : storable cfg stored;
  md_version : Version stored ≤ Collection.version (Engine.coll s);
}.

Lemma prepare_all_ok clock records position s M i b n :
  replica i b s M n → b + len records < two64 → batch_storable records →
  post (Store.prepare_all clock position records) s
    (λ prepared s', versioned s s' ∧ replica i (b + len records) s' M n ∧ Forall2 (made s') records prepared)
    (λ s', versioned s s' ∧ replica i (b + len records) s' M n).
Proof.
  revert position s b. induction records as [|r records IH]; intros position s b Hr Hlt Hok; cbn [Store.prepare_all].
  { apply post_ret. split; [apply versioned_refl|]. split; [|constructor]. eapply replica_mono; [|exact Hr]. change (len []) with 0. lia. }
  apply Forall_cons in Hok as [[Hn Hd] Hok]. rewrite len_cons in *. pose proof (len_nonneg records).
  apply post_bind. unfold post at 1, Store.prepare. destruct (Collection.PrepareUpsert _ _ _) as [[c1 stored]|e] eqn:Ep.
  2: { split; [apply versioned_refl|]. eapply replica_mono; [|exact Hr]. lia. }
  destruct (Hd _ _ _ _ (rp_config _ _ _ _ _ Hr) Ep) as [Hdur Hfil].
  destruct (PrepareUpsert_ok _ _ _ _ _ Ep Hn) as (->&Hp&Hv&Hk). pose proof (prepare_valid _ _ _ _ _ Ep) as Hvalid.
  pose proof (bu_version _ _ _ (rp_budget _ _ _ _ _ Hr)) as Hb. rewrite u64_small in * by lia.
  set (s1 := Engine.mk _ _).
  assert (versioned s s1) as Hv1 by (eexists; split; [|reflexivity]; lia).
  assert (replica i (b + 1) s1 M n) as Hr1.
  { apply replica_version; [|lia]. eapply replica_mono; [|exact Hr]. lia. }
  assert (storable cfg stored) as Hst.
  { rewrite <-(rp_config _ _ _ _ _ Hr). constructor; try done. }
  apply post_bind. replace (b + (1 + len records)) with (b + 1 + len records) by lia.
  eapply post_mono; [apply (IH (S position) s1 (b + 1) Hr1); [lia|done]| |].
  - intros others s' (Hv2&Hr2&Hm). apply post_ret. split; [by eapply versioned_trans|]. split; [done|]. constructor; [|done].
    constructor; [done|done|]. destruct Hv2 as (w&Hw&->). cbn in *. lia.
  - intros s' (Hv2&Hr2). split; [by eapply versioned_trans|done].
Qed.

(** The mutation a batch logs. *)
Lemma batch_entry n i bound records payload lsn :
  Forall (item_ok cfg n i bound) records → 0 < len records ≤ 10000 → json_Marshal (of_records records) = Ok payload →
  let r := Wal.mkRecord lsn OperationBatchUpsert payload in
  entry_ok cfg n i bound r ∧ work r = len records ∧ ∀ m, effect r m = Shard.put_records m records.
Proof.
  intros Hi Hl Hm r. pose proof (json_roundtrip _ _ Hm) as Hu.
  assert (json_record <$> records = records) as Ej.
  { clear Hl Hm r Hu. induction Hi as [|x l Hx Hl IH]; [done|]. rewrite fmap_cons, IH.
    by rewrite (json_record_stable x (proj1 (sr_durable _ _ (im_storable _ _ _ _ _ Hx)))). }
  unfold json_mutation, of_records in Hu. cbn [mut_Record mut_Records mut_Namespace mut_ID] in Hu. rewrite Ej in Hu. split.
  - eexists. split; [exact Hu|]. by apply batch_ok.
  - split.
    + unfold work. cbn [r Wal.Payload Operation]. rewrite Hu. by rewrite Z.eqb_refl.
    + intros m. unfold effect. cbn [r Wal.Payload Operation]. by rewrite Hu.
Qed.

(** *** Commits *)

(** Logging a mutation and applying it moves the shard by one position. *)
Lemma log_append_ok faults i s M b n st operation payload :
  Engine.stores s !! i = Some st → replica i b s M n → n + 2 < two64 → Forall is_byte payload → undone faults →
  post (Store.append faults (Z.of_nat i) operation payload) s
    (λ lsn s', lsn = n + 1 ∧ ∃ l' rs', s' = focus i (Engine.stores s) (Engine.coll s) (with_log st l') ∧ LogInv l' rs' ∧ LastLSN l' = n + 1)
    (λ s', s' = s).
Proof.
  intros Hst Hr Hn Hp [Hu1 Hu2]. pose proof (focus_same i s st Hst) as Hs. destruct (replica_at _ _ _ _ _ Hr) as (st'&l&rs&sh&ma&base&Hi&Hst'&Hl&Hinv&Hlast&Hnext&Hn0&Hn1&Hat&_).
  assert (st' = st) as -> by congruence. rewrite Hs at 1.
  apply (post_append faults i (Engine.stores s) (Engine.coll s) st l rs); try done; [lia|].
  intros l' Hl' _. split; [lia|]. exists l', (rs ++ [mkRecord (nextLSN l) operation payload]). split; [done|]. split; [done|].
  destruct (last_position l' _ Hl') as [-> _]. destruct (li_last _ _ Hl') as [Hnil|E]; [by destruct rs|].
  rewrite last_lsn_snoc in E. cbn [LSN] in E. lia.
Qed.

Lemma after_off native every faults i (ss : list store) (c : collection) st k (Q : unit → state → Prop) (E : state → Prop) :
  every ≤ 0 → (i < length ss)%nat →
  (∀ st', log st' = log st → Q tt (focus i ss c st')) → post (Store.after native every faults (Z.of_nat i) k) (focus i ss c st) Q E.
Proof.
  intros He Hi HQ. unfold Store.after. apply post_bind. unfold Store.count_mutations. apply post_store; [done|].
  rewrite (proj2 (Z.ltb_ge 0 every)) by done. cbn [andb]. by apply post_ret, HQ.
Qed.

Lemma check_each_ok (check : CoreRecord → res unit) records : Store.check_each check records = Ok tt → Forall (λ r, check r = Ok tt) records.
Proof.
  induction records as [|r records IH]; cbn [Store.check_each]; [constructor|]. destruct (check r) as [[]|] eqn:E; [|done].
  cbn [res_bind]. intros H. constructor; auto.
Qed.

(** A record the checks of a batch accept belongs to the shard. *)
Lemma routed_of i b s M n r stored :
  replica i b s M n → Store.check_routed_record (Engine.coll s) (Z.of_nat i) r = Ok tt → record_key stored = record_key r →
  routed (ShardCount cfg) i (record_key stored).
Proof.
  intros Hr Hc ->. unfold Store.check_routed_record in Hc. destruct (negb _) eqn:E; [by rewrite orb_true_r in Hc|].
  bool_props. unfold routed, Collection.RouteShard in *. rewrite <-(rp_count _ _ _ _ _ Hr). unfold record_key.
  match goal with H : Collection.route_of _ _ = _ |- _ => rewrite H end. lia.
Qed.

(** The batch of a leader. *)
Lemma commit_batch_ok native owned every faults clock records s M i b n :
  replica i b s M n → owned (Z.of_nat i) = true → every ≤ 0 → undone faults → n + 2 < two64 → b + 2 * len records + 3 < two64 →
  batch_storable records →
  post (Store.BatchUpsertShardIdempotent native owned every faults (Z.of_nat i) records "" clock) s
    (λ ps s', ps.2 = n + 1 ∧ 0 < len ps.1 ≤ 10000 ∧ len ps.1 = len records ∧ Forall (item_ok cfg (ShardCount cfg) i (b + 2 * len records)) ps.1 ∧
       ∃ M', replica i (b + 2 * len records) s' M' (n + 1) ∧
         part (ShardCount cfg) i M' = Shard.put_records (part (ShardCount cfg) i M) ps.1)
    (λ s', replica i (b + 2 * len records) s' M n).
Proof.
  intros Hr How Hev Hund Hn Hlt Hok. pose proof (len_nonneg records) as Hl0.
  assert (∀ s', s' = s → replica i (b + 2 * len records) s' M n) as HE by (intros s' ->; eapply replica_mono; [|exact Hr]; lia).
  destruct (replica_at _ _ _ _ _ Hr) as (st&l&rs&sh&ma&base&Hi&Hst&Hl&Hinv&Hlast&Hnext&Hn0&Hn1&Hat&Hic).
  unfold Store.BatchUpsertShardIdempotent. apply post_bind, post_lift.
  destruct (Store.check_batch records) as [[]|e] eqn:Ecb; [|by apply HE].
  assert (0 < len records ≤ 10000) as Hlen.
  { unfold Store.check_batch in Ecb. destruct (_ || _) eqn:E; [done|]. bool_props. lia. }
  apply post_bind. unfold Store.check_shard. rewrite How. cbn [negb]. apply post_bind, post_ask. rewrite (rp_config _ _ _ _ _ Hr).
  rewrite (rp_count _ _ _ _ _ Hr) in Hic. rewrite (proj2 (Z.leb_gt _ _)) by done. apply post_ret.
  apply post_bind, post_lift. destruct (Store.idempotencyDigest records); [|by apply HE].
  cbn [String.eqb Ascii.eqb]. change ("" =? "")%string with true. cbv iota. apply post_bind, post_ret. apply post_bind.
  rewrite (focus_same i s st Hst) at 1. apply post_get; [done|]. rewrite <-(focus_same i s st Hst). cbv iota.
  apply post_bind, post_ask. apply post_bind, post_lift. destruct (Store.check_each _ records) as [[]|] eqn:Ech; [|by apply HE].
  apply check_each_ok in Ech. apply post_bind.
  eapply post_mono; [apply (prepare_all_ok clock records 0 s M i b n Hr); [lia|done]| |].
  2: { intros s' [_ Hr']. eapply replica_mono; [|exact Hr']. lia. }
  intros prepared s1 (Hv&Hr1&Hmade). change (negb true) with false. cbv iota.
  assert (len prepared = len records) as Elen by (unfold len; by rewrite (Forall2_length _ _ _ Hmade)).
  assert (Engine.stores s1 = Engine.stores s ∧ Collection.shards (Engine.coll s1) = Collection.shards (Engine.coll s)) as [Est Esh]
    by (by destruct Hv as (v&_&->)).
  assert (∀ b', b + len records ≤ b' → Forall (item_ok cfg (ShardCount cfg) i b') prepared) as Hitems.
  { intros b' Hb'. pose proof (bu_version _ _ _ (rp_budget _ _ _ _ _ Hr1)) as Hvb.
    assert (Collection.version (Engine.coll s1) ≤ b') as Hle by lia. clear - Hmade Ech Hle Hr.
    induction Hmade as [|r stored records' prepared' [Hk Hs Hver] Hm IH]; [constructor|]. apply Forall_cons in Ech as [Hc Ech].
    constructor; [|by apply IH]. constructor; [done| |lia]. by eapply routed_of. }
  assert (Forall (λ r, Version r ≤ Collection.version (Engine.coll s1)) prepared) as Hvers.
  { clear - Hmade. induction Hmade as [|r stored ? ? [_ _ H]]; constructor; done. }
  assert (∀ s', s' = s1 → replica i (b + 2 * len records) s' M n) as HE1 by (intros s' ->; eapply replica_mono; [|exact Hr1]; lia).
  apply post_bind, post_lift. destruct (json_Marshal _) as [payload|e] eqn:Em; [|by apply HE1]. apply post_bind.
  rewrite <-Est in Hst, Hi.
  eapply post_mono; [apply (log_append_ok faults i s1 M (b + len records) n st OperationBatchUpsert payload); try done| |].
  { by eapply json_bytes. } 2: { intros s' ->. by apply HE1. }
  intros sequence s2 (->&l'&rs'&->&Hl'&Elast). apply post_bind.
  destruct (replica_at _ _ _ _ _ Hr1) as (_&_&_&sh1&ma1&base1&_&_&_&_&_&_&_&_&Hat1&_).
  eapply post_mono; [eapply (apply_all_ok prepared i _ _ (Engine.coll s1) M (b + len records) sh1 ma1 base1 (b + len records))| |done].
  - apply Hr1.
  - apply Hr1.
  - lia.
  - done.
  - apply Hr1.
  - rewrite (rp_count _ _ _ _ _ Hr1). apply Hitems. lia.
  - done.
  - intros [] s3 (c'&sh'&ma'&->&Ha). apply post_bind, after_off; [done|done|]. intros st' Hst'. apply post_ret. cbn [fst snd].
    split; [done|]. split; [lia|]. split; [done|]. split; [apply Hitems; lia|]. exists (Shard.put_records M prepared).
    pose proof (advanced_len _ _ _ _ _ _ _ _ _ Ha) as El. pose proof (ad_config _ _ _ _ _ _ _ _ _ Ha) as Ec. split.
    + eapply replica_focus; try apply Hr1; [done|apply Ha| |by rewrite Ec, (rp_config _ _ _ _ _ Hr1)|done|by rewrite Hst'|done|done].
      replace (b + 2 * len records) with (b + len records + len prepared) by lia. apply Ha.
    + eapply part_put, Hitems. done.
Qed.

(** A key routed to the shard. *)
Lemma routed_key i b s M n ns id :
  replica i b s M n → Collection.RouteShard (Engine.coll s) ns id = Z.of_nat i →
  routed (len (Collection.shards (Engine.coll s))) i (key ns id).
Proof. intros _ H. unfold routed, Collection.RouteShard in *. rewrite H. lia. Qed.

(** The deletion of a leader. *)
Lemma commit_delete_ok native owned every faults ns id s M i b n :
  replica i b s M n → owned (Z.of_nat i) = true → every ≤ 0 → undone faults → n + 2 < two64 → b + 4 < two64 →
  post (Store.DeleteShardWithSequence native owned every faults (Z.of_nat i) ns id) s
    (λ sequence s', sequence = n + 1 ∧ id ≠ "" ∧ is_Some (part (ShardCount cfg) i M !! key ns id) ∧
       ∃ M', replica i (b + 1) s' M' (n + 1) ∧ part (ShardCount cfg) i M' = delete (key ns id) (part (ShardCount cfg) i M))
    (λ s', replica i (b + 1) s' M n).
Proof.
  intros Hr How Hev Hund Hn Hlt. assert (∀ s', s' = s → replica i (b + 1) s' M n) as HE by (intros s' ->; eapply replica_mono; [|exact Hr]; lia).
  destruct (replica_at _ _ _ _ _ Hr) as (st&l&rs&sh&ma&base&Hi&Hst&Hl&Hinv&Hlast&Hnext&Hn0&Hn1&Hat&Hic).
  unfold Store.DeleteShardWithSequence. destruct (String.eqb_spec id "") as [|Hid]; [apply post_lift; by apply HE|].
  apply post_bind, post_ask. apply post_bind, post_ask. rewrite (rp_config _ _ _ _ _ Hr).
  destruct (_ || _) eqn:Ec; [apply post_lift; by apply HE|]. bool_props. rewrite How. cbn [negb].
  assert (Collection.RouteShard (Engine.coll s) ns id = Z.of_nat i) as Eroute by done.
  pose proof (routed_key i b s M n ns id Hr Eroute) as Hroute.
  apply post_bind. unfold Store.check_present. apply post_bind, post_ask. rewrite (coll_Get_ok _ M) by apply Hr.
  apply post_bind, post_lift. destruct (M !! key ns id) as [r|] eqn:EM; [|by apply HE]. apply post_ret.
  apply post_bind, post_lift. destruct (json_Marshal _) as [payload|e] eqn:Em; [|by apply HE].
  unfold Store.delete_from. apply post_bind.
  eapply post_mono; [apply (log_append_ok faults i s M b n st OperationDelete payload); try done| |].
  { by eapply json_bytes. } 2: { intros s' ->. by apply HE. }
  intros sequence s2 (->&l'&rs'&->&Hl'&Elast). apply post_bind.
  destruct (remove_key_ok (Engine.coll s) M b i sh ma base ns id) as (c'&s'&ma'&e&Happ&_&He&Ha&_); try done; [apply Hr|apply Hr|lia|].
  apply post_coll. rewrite Happ, He by (by rewrite EM). apply post_bind, after_off; [done|done|]. intros st' Hst'. apply post_ret.
  split; [done|]. split; [done|]. split; [rewrite part_lookup, decide_True; [by rewrite EM|by rewrite <-(rp_count _ _ _ _ _ Hr)]|].
  exists (delete (key ns id) M). pose proof (advanced_len _ _ _ _ _ _ _ _ _ Ha) as El. pose proof (ad_config _ _ _ _ _ _ _ _ _ Ha) as Ec. split.
  - eapply replica_focus; try apply Hr; [done|apply Ha|apply Ha|by rewrite Ec, (rp_config _ _ _ _ _ Hr)|done|by rewrite Hst'|done|done].
  - rewrite part_delete, decide_True; [done|]. by rewrite <-(rp_count _ _ _ _ _ Hr).
Qed.

(** *** Members of a replica set *)

(** A mutation at an exact position: done before, or the next one. *)
Lemma replicate_ok faults i sequence operation payload k apply s M M' b b' n :
  replica i b s M n → b ≤ b' → n + 2 < two64 → Forall is_byte payload → undone faults →
  (∀ st, post apply (focus i (Engine.stores s) (Engine.coll s) st)
     (λ _ s', ∃ c' sh' ma' base', s' = focus i (Engine.stores s) c' st ∧ advanced (Engine.coll s) c' M M' b' i sh' ma' base')
     (λ _, False)) →
  post (Store.replicate faults (Z.of_nat i) sequence operation payload k apply) s
    (λ _ s', s' = s ∧ sequence ≤ n ∨ sequence = n + 1 ∧ replica i b' s' M' (n + 1))
    (λ s', s' = s).
Proof.
  intros Hr Hb Hn Hp Hund Happly.
  destruct (replica_at _ _ _ _ _ Hr) as (st&l&rs&sh&ma&base&Hi&Hst&Hl&Hinv&Hlast&Hnext&Hn0&Hn1&Hat&Hic).
  pose proof (focus_same i s st Hst) as Hs.
  unfold Store.replicate. apply post_bind. rewrite Hs at 1. unfold Store.get_log. apply (post_log _ _ _ _ l); [done|done|].
  assert (with_log st l = st) as -> by (unfold with_log; rewrite <-Hl; by destruct st).
  apply post_bind, post_get; [done|]. rewrite <-Hs. apply post_bind, post_lift. unfold Store.replica_position. rewrite Hlast.
  destruct (Z.leb_spec sequence n).
  - destruct (_ !! sequence) as [d|]; [|done]. destruct (bool_decide _); [|done]. apply post_ret. by left.
  - rewrite u64_small by lia. destruct (Z.eqb_spec sequence (n + 1)) as [->|]; [|done]. cbn [negb].
    apply post_bind. eapply post_mono; [by apply (log_append_ok faults i s M b n st operation payload)| |done].
    intros lsn s2 (->&l'&rs'&->&Hl'&Elast). rewrite Z.eqb_refl. cbn [negb]. apply post_bind.
    eapply post_mono; [apply Happly| |done]. intros [] s3 (c'&sh'&ma'&base'&->&Ha). unfold Store.retain. apply post_store; [done|].
    right. split; [done|]. pose proof (advanced_len _ _ _ _ _ _ _ _ _ Ha) as El. pose proof (ad_config _ _ _ _ _ _ _ _ _ Ha) as Ec.
    eapply replica_focus; try apply Hr; [done|apply Ha|apply Ha|by rewrite Ec, (rp_config _ _ _ _ _ Hr)|done|done|done|done].
Qed.

Lemma apply_batch_ok owned faults i sequence records s M b n :
  replica i b s M n → n + 2 < two64 → undone faults → b + len records + 3 < two64 → Forall (item_ok cfg (ShardCount cfg) i b) records →
  post (Store.ApplyReplicaBatch owned faults (Z.of_nat i) sequence records) s
    (λ _ s', s' = s ∧ sequence ≤ n ∨
       sequence = n + 1 ∧ ∃ M', replica i (b + len records) s' M' (n + 1) ∧
         part (ShardCount cfg) i M' = Shard.put_records (part (ShardCount cfg) i M) records)
    (λ s', s' = s).
Proof.
  intros Hr Hn Hund Hlt Hok. destruct (replica_at _ _ _ _ _ Hr) as (st&l&rs&sh&ma&base&Hi&Hst&Hl&Hinv&Hlast&Hnext&Hn0&Hn1&Hat&Hic).
  unfold Store.ApplyReplicaBatch. destruct (_ || _); [by apply post_lift|].
  apply post_bind. unfold Store.check_shard. destruct (owned _); [|by apply post_fail]. cbn [negb].
  apply post_bind, post_ask. destruct (_ <=? _); [by apply post_lift|]. apply post_ret.
  apply post_bind, post_ask. apply post_bind, post_lift. destruct (Store.check_each _ _); [|done].
  apply post_bind, post_lift. destruct (json_Marshal _) as [payload|] eqn:Em; [|done].
  eapply post_mono; [apply (replicate_ok faults i sequence _ payload _ _ s M (Shard.put_records M records) b (b + len records) n Hr)| |done].
  - pose proof (len_nonneg records). lia.
  - done.
  - by eapply json_bytes.
  - done.
  - intros st'. eapply post_mono; [eapply (restore_all_ok records i _ st' (Engine.coll s) M b sh ma base b)| |done].
    + apply Hr.
    + apply Hr.
    + done.
    + done.
    + apply Hr.
    + by rewrite (rp_count _ _ _ _ _ Hr).
    + done.
    + intros [] s' (c'&sh'&ma'&E&Ha). exists c', sh', ma', base. done.
  - intros [] s' [Hsame|[-> Hr']]; [by left|]. right. split; [done|]. exists (Shard.put_records M records). split; [done|]. by eapply part_put.
Qed.

Lemma apply_delete_ok owned faults i sequence ns id s M b n :
  replica i b s M n → n + 2 < two64 → undone faults → b + 4 < two64 →
  post (Store.ApplyReplicaDelete owned faults (Z.of_nat i) sequence ns id) s
    (λ _ s', s' = s ∧ sequence ≤ n ∨
       sequence = n + 1 ∧ ∃ M', replica i (b + 1) s' M' (n + 1) ∧
         part (ShardCount cfg) i M' = delete (key ns id) (part (ShardCount cfg) i M))
    (λ s', s' = s).
Proof.
  intros Hr Hn Hund Hlt. destruct (replica_at _ _ _ _ _ Hr) as (st&l&rs&sh&ma&base&Hi&Hst&Hl&Hinv&Hlast&Hnext&Hn0&Hn1&Hat&Hic).
  unfold Store.ApplyReplicaDelete. destruct (_ || _); [by apply post_lift|]. destruct (owned _); [|by apply post_fail]. cbn [negb].
  apply post_bind, post_ask. apply post_bind, post_ask. destruct (_ || _) eqn:Ec; [by apply post_lift|]. bool_props.
  pose proof (routed_key i b s M n ns id Hr ltac:(done)) as Hroute.
  apply post_bind, post_lift. destruct (json_Marshal _) as [payload|] eqn:Em; [|done].
  destruct (remove_key_ok (Engine.coll s) M b i sh ma base ns id) as (c'&s1&ma'&e&Happ&He&_&Ha&_); try done; [apply Hr|apply Hr|lia|].
  eapply post_mono; [apply (replicate_ok faults i sequence _ payload _ _ s M (delete (key ns id) M) b (b + 1) n Hr)| |done].
  - lia.
  - done.
  - by eapply json_bytes.
  - done.
  - intros st'. unfold Store.delete_if_present. apply post_coll. rewrite Happ, He. by exists c', s1, ma', base.
  - intros [] s' [Hsame|[-> Hr']]; [by left|]. right. split; [done|]. exists (delete (key ns id) M). split; [done|].
    rewrite part_delete, decide_True; [done|]. by rewrite <-(rp_count _ _ _ _ _ Hr).
Qed.

(** *** Snapshots *)

Definition same_config (c c' : collection) : Prop :=
  Collection.config c' = Collection.config c ∧ len (Collection.shards c') = len (Collection.shards c).

Lemma export_ok owned i s M b n :
  replica i b s M n → owned (Z.of_nat i) = true →
  Store.ExportReplicaSnapshot owned (Z.of_nat i) s = (s, Ok (n, sorted_records (part (ShardCount cfg) i M))).
Proof.
  intros Hr How. destruct (replica_at _ _ _ _ _ Hr) as (st&l&rs&sh&ma&base&Hi&Hst&Hl&Hinv&Hlast&Hnext&Hn0&Hn1&Hat&Hic).
  unfold Store.ExportReplicaSnapshot, Store.check_shard, Engine.bind, Engine.ask, Engine.ret, Engine.lift. rewrite How. cbn [negb].
  rewrite (rp_config _ _ _ _ _ Hr). rewrite (proj2 (Z.leb_gt _ _)) by (by rewrite <-(rp_count _ _ _ _ _ Hr)).
  unfold Collection.ShardRecords. rewrite Nat2Z.id, (as_shard _ _ _ _ _ _ Hat).
  unfold Store.get_log, Engine.on_log, Engine.on_store. rewrite Nat2Z.id, Hst, Hl. cbn [Engine.stores Engine.coll]. rewrite Hlast.
  rewrite (shard_Records_ok sh ma base (as_inv _ _ _ _ _ _ Hat)), <-(as_map _ _ _ _ _ _ Hat), (rp_count _ _ _ _ _ Hr). f_equal.
  rewrite <-Hl. replace (mkStore _ _ _ _ _ _ _) with st by (by destruct st). rewrite list_insert_id by done. by destruct s.
Qed.

(** The records [m] in place of those of shard [i]. *)
Definition replaced (N : Z) (i : nat) (m M : gmap string CoreRecord) : gmap string CoreRecord :=
  m ∪ filter (λ kr, Z.to_nat (Collection.route_of N kr.1) ≠ i) M.

Lemma replaced_lookup N i m M k :
  (∀ k r, m !! k = Some r → routed N i k) →
  replaced N i m M !! k = if decide (Z.to_nat (Collection.route_of N k) = i) then m !! k else M !! k.
Proof.
  intros Hm. unfold replaced. destruct (decide _) as [E|E].
  - destruct (m !! k) as [r|] eqn:Ek; [by rewrite (lookup_union_Some_l _ _ _ r)|]. rewrite lookup_union_r by done.
    apply map_lookup_filter_None. right. intros r _ Hne. by apply Hne.
  - rewrite lookup_union_r; [|apply eq_None_not_Some; intros [r Hr]; by apply E, (Hm k r)].
    destruct (M !! k) as [r|] eqn:Ek; [by apply map_lookup_filter_Some|]. apply map_lookup_filter_None. by left.
Qed.

Lemma replaced_part N i m M : (∀ k r, m !! k = Some r → routed N i k) → part N i (replaced N i m M) = m.
Proof.
  intros Hm. apply map_eq. intros k. rewrite part_lookup, replaced_lookup by done. destruct (decide _) as [E|E]; [done|].
  symmetry. apply eq_None_not_Some. intros [r Hr]. by apply E, (Hm k r).
Qed.

Lemma replaced_others N i m M j : (∀ k r, m !! k = Some r → routed N i k) → j ≠ i → part N j (replaced N i m M) = part N j M.
Proof.
  intros Hm Hj. apply map_eq. intros k. rewrite !part_lookup, replaced_lookup by done. destruct (decide (_ = j)) as [E|E]; [|done].
  rewrite decide_False; [done|]. congruence.
Qed.

Lemma replaced_size N i m M : Z.of_nat (size (replaced N i m M)) ≤ Z.of_nat (size m) + Z.of_nat (size M).
Proof.
  unfold replaced. assert (size (m ∪ filter (λ kr, Z.to_nat (Collection.route_of N kr.1) ≠ i) M) ≤
    size m + size (filter (λ kr, Z.to_nat (Collection.route_of N kr.1) ≠ i) M))%nat as H.
  { rewrite <-!size_dom, dom_union_L, size_union_alt. apply Nat.add_le_mono_l, subseteq_size. set_solver. }
  pose proof (map_size_filter (λ kr, Z.to_nat (Collection.route_of N kr.1) ≠ i) M). lia.
Qed.

(** The records of a snapshot installed in place of the shard's. *)
Lemma install_records_ok i (ss : list store) (c : collection) st M b sh m pqData :
  coll_inv c M → budget c M b → Collection.config c = cfg → Collection.shards c !! i = Some sh →
  len (Collection.shards c) = ShardCount cfg → shard_map cfg (ShardCount cfg) i b m → b + Z.of_nat (size m) + 1 < two64 →
  post (Engine.on_coll (λ c, Sealed.InstallRecordsShardWithPQ c (Z.of_nat i) (sorted_records m) None pqData)) (focus i ss c st)
    (λ _ s', ∃ c', s' = focus i ss c' st ∧ coll_inv c' (replaced (ShardCount cfg) i m M) ∧
       budget c' (replaced (ShardCount cfg) i m M) (b + Z.of_nat (size m)) ∧ same_config c c')
    (λ _, True).
Proof.
  intros Hi Hb Hc Hsh Hn [Hk Hm] Hlt. apply post_coll. unfold Sealed.InstallRecordsShardWithPQ. set (build := λ config, _).
  assert (∀ r, r ∈ sorted_records m ↔ m !! record_key r = Some r) as Hin by (intros r; by apply sorted_elem).
  destruct (build (Collection.config c)) as [sg|e] eqn:Eb.
  2: { unfold Sealed.install. rewrite Nat2Z.id, Hsh. destruct (Collection.check_routed _ _ _ _) as [v [e'|]]; [done|]. by rewrite Eb. }
  assert (∀ k r, m !! k = Some r → routed (ShardCount cfg) i k) as Hrouted.
  { intros k r Hr. rewrite <-(Hk k r Hr). apply (im_routed _ _ _ _ _ (Hm k r Hr)). }
  destruct (install_ok c M (replaced (ShardCount cfg) i m M) (b + Z.of_nat (size m)) i sh (sorted_records m)
    "snapshot record routed to wrong shard" build sg m) as (c'&s'&->&H1&H2&H3&H4&H5&H6); try done.
  - eapply budget_mono; [|exact Hb]. lia.
  - intros r Hr%Hin. apply Hrouted in Hr. unfold Collection.RouteShard. fold (record_key r). rewrite Hn.
    pose proof (route_bound (len (Collection.shards c)) (record_key r) (ci_count c M Hi)). unfold routed in Hr. rewrite Hn in *. lia.
  - rewrite Hc in *. assert (Shard.put_records ∅ (sorted_records m) = m) as <-.
    { etrans; [exact (put_records_union ∅ m (sorted_records m) Hk (sort_slice_perm _ _))|]. apply (right_id_L ∅ (∪)). }
    apply (NewImmutable_holds cfg (sorted_records m) None pqData sg); [| | |exact Logic.I|exact Eb].
    + unfold sorted_records. rewrite sort_slice_perm, <-list_fmap_compose. apply NoDup_fmap_2_strong; [|apply NoDup_map_to_list].
      intros [k r] [k' r'] E%elem_of_map_to_list E'%elem_of_map_to_list. simpl. intros Eq.
      pose proof (Hk k r E). pose proof (Hk k' r' E'). congruence.
    + apply Forall_forall. intros r Hr%Hin. apply (sr_prepared _ _ (im_storable _ _ _ _ _ (Hm _ _ Hr))).
    + rewrite len_sorted. pose proof (bu_version _ _ _ Hb). lia.
  - rewrite Hn. by apply replaced_part.
  - intros j Hj. rewrite Hn. by apply replaced_others.
  - intros k r. rewrite replaced_lookup by done. destruct (decide _); [apply Hk|apply (ci_keyed c M Hi)].
  - intros k r. rewrite replaced_lookup by done. destruct (decide _).
    + intros Hr. apply raised_elem, Hin. by rewrite (Hk k r Hr).
    + intros Hr. etrans; [by apply (ci_versions c M Hi k)|]. apply raised_ge.
  - pose proof (replaced_size (ShardCount cfg) i m M). pose proof (bu_size _ _ _ Hb). lia.
  - intros r Hr%Hin. pose proof (im_version _ _ _ _ _ (Hm _ _ Hr)). lia.
  - exists c'. split; [done|]. split; [done|]. split; [done|]. split; [done|]. rewrite H4. unfold len. by rewrite length_insert.
Qed.

(** A call on the segment directory changes nothing else. *)
Lemma post_any_directory {A} i (ss : list store) (c : collection) st (m : IO A) (Q : A → state → Prop) :
  (i < length ss)%nat → (∀ a d, Q a (focus i ss c (with_directory st d))) →
  post (Engine.on_directory (Z.of_nat i) m) (focus i ss c st) Q (λ _, True).
Proof. intros Hi HQ. apply post_directory; [done|]. by destruct (m (directory st)) as [d [a|e]]. Qed.

Lemma post_manifest i (ss : list store) (c : collection) st (Q : option Manifest → state → Prop) :
  (i < length ss)%nat → (∀ m d, Q m (focus i ss c (with_directory st d))) →
  post (Engine.load_manifest (Z.of_nat i)) (focus i ss c st) Q (λ _, True).
Proof.
  intros Hi HQ. unfold post, Engine.load_manifest, Engine.on_directory. rewrite on_store_focus by done.
  destruct (LoadManifest (directory st)) as [d [m|e]]; [apply HQ|]. destruct (is_not_exist e); [apply HQ|done].
Qed.

(** A snapshot that is installed replaces the shard's records and sets its
    position, which never goes back. *)
Lemma install_snapshot_ok owned faults i sequence m s M b n :
  replica i b s M n → sequence + 1 < two64 → shard_map cfg (ShardCount cfg) i b m → b + Z.of_nat (size m) + 1 < two64 →
  post (Store.InstallReplicaSnapshot owned faults (Z.of_nat i) sequence (sorted_records m)) s
    (λ _ s', n ≤ sequence ∧ ∃ M', replica i (b + Z.of_nat (size m)) s' M' sequence ∧ part (ShardCount cfg) i M' = m)
    (λ _, True).
Proof.
  intros Hr Hseq Hm Hlt. destruct (replica_at _ _ _ _ _ Hr) as (st&l&rs&sh&ma&base&Hi&Hst&Hl&Hinv&Hlast&Hnext&Hn0&Hn1&Hat&Hic).
  pose proof (focus_same i s st Hst) as Hs. destruct (plain_types _ Hcfg) as (_&_&Ed).
  unfold Store.InstallReplicaSnapshot. destruct (Z.eqb_spec sequence 0); [by apply post_lift|].
  apply post_bind. unfold Store.check_shard. destruct (owned _); [|by apply post_fail]. cbn [negb].
  apply post_bind, post_ask. destruct (_ <=? _); [by apply post_lift|]. apply post_ret. apply post_bind. rewrite Hs at 1.
  unfold Store.get_log. apply (post_log _ _ _ _ l); [done|done|].
  assert (with_log st l = st) as -> by (unfold with_log; rewrite <-Hl; by destruct st). rewrite Hlast.
  destruct (Z.ltb_spec sequence n); [by apply post_fail|]. apply post_bind, post_ask. apply post_bind, post_lift.
  destruct (Store.check_snapshot _ _ _ _); [|done]. apply post_bind, post_ask. cbn [focus Engine.coll]. rewrite (rp_config _ _ _ _ _ Hr).
  apply post_bind, post_manifest; [done|]. intros _ d1. apply post_bind, post_any_directory; [done|].
  intros [[manifest filterData] pqData] d2. set (st1 := with_directory (with_directory st d1) d2).
  apply post_bind, (post_log _ _ _ st1 l); [done|done|]. rewrite u64_small by lia.
  pose proof (reset_cases (reset_fault faults) l rs (sequence + 1) Hinv ltac:(lia)) as Hreset.
  destruct (Reset (reset_fault faults) l (sequence + 1)) as [l1 [u|e]]; [|done]. destruct Hreset as (Hl1&Hn1'&_).
  rewrite Ed. cbn [andb]. apply post_bind.
  eapply post_mono; [eapply (install_records_ok i _ (Engine.coll s) (with_log st1 l1) M b sh m pqData); try done| |done].
  - apply Hr.
  - apply Hr.
  - apply Hr.
  - apply Hat.
  - apply Hr.
  - intros [] s' (c'&->&H1&H2&H3&H4). unfold Engine.set_checkpoint, Engine.set_digests.
    apply post_bind, post_store; [done|]. apply post_bind, post_store; [done|]. apply post_bind, post_ask.
    assert (∀ st', log st' = Some l1 → replica i (b + Z.of_nat (size m)) (focus i (Engine.stores s) c' st')
      (replaced (ShardCount cfg) i m M) sequence) as HQ.
    { intros st' Hst'. destruct (last_position l1 [] Hl1) as [Elast _].
      eapply replica_focus; try apply Hr; [done|done|done|by rewrite H3, (rp_config _ _ _ _ _ Hr)|done|done|done|lia]. }
    assert (part (ShardCount cfg) i (replaced (ShardCount cfg) i m M) = m) as Hp.
    { destruct Hm as [Hk Hm]. apply replaced_part. intros k r Hkr. rewrite <-(Hk k r Hkr). apply (im_routed _ _ _ _ _ (Hm k r Hkr)). }
    destruct (Collection.ShardHasPinnedReaders _ _).
    + apply post_ret. split; [done|]. eexists. split; [by apply HQ|done].
    + apply post_any_directory; [done|]. intros _ d. split; [done|]. eexists. split; [by apply HQ|done].
Qed.

End Replica.

(** What JSON makes of the bodies of requests. *)
Definition json_append (r : replicaAppendRequest) : replicaAppendRequest :=
  mkReplicaAppend (ra_Sequence r) (ra_ReplicationFactor r) (json_record <$> ra_Records r) (json_string (ra_Operation r))
    (json_string (ra_Namespace r)) (json_string (ra_ID r)).

Definition json_snapshot (r : replicaSnapshotRequest) : replicaSnapshotRequest :=
  mkReplicaSnapshot (rs_Sequence r) (rs_ReplicationFactor r) (json_record <$> rs_Records r).

Section Nodes.
Context {I MI L : Type} `{!VectorIndex I, !VectorIndexSpec I, !MetadataIndex MI, !MetadataSpec MI,
  !LexicalIndex L, !IndexBuilders I, !IndexBuildersSpec I, !SealedBuilders I, !SealedSpec I, !FilterFiles MI, !FilterFilesSpec MI, !MapOrder}.
Context `{!Json Manifest, !Json (list storedRecord), !Json (list string), !Json persistedIndex, !Json walMutation, !Json (list CoreRecord),
  !Json idempotencyLedger, !Json ownershipManifest, !Json replicaAppendRequest, !Json replicaSnapshotRequest}.
Context `{!JsonSpec walMutation json_mutation}.
Context (cfg : CollectionConfig) (Hcfg : plain_config cfg) (i : nat).

Local Abbreviation server := (Server.t I MI L).
Local Abbreviation state := (Engine.t I MI L).
Local Abbreviation shard := (Z.of_nat i).

(** The server's copy of the shard: its engine, and where it stands. *)
Definition copy (s : server) : option state := Node.collections (Server.engine s) !! Name cfg.

Definition position (s : server) : option Z :=
  match copy s with
  | Some st => match Engine.stores st !! i with Some store => LastLSN <$> log store | None => None end
  | None => None
  end.

Definition shard_records (s : server) : res (list CoreRecord) :=
  match copy s with
  | Some st => Collection.ShardRecords (Engine.coll st) shard
  | None => Err (Sentinel ErrNotFound)
  end.

(** The server owns the shard, its ownership is settled, and the shard holds
    the records [m] at position [n]. *)
Record hosts (b : Z) (s : server) (m : gmap string CoreRecord) (n : Z) : Prop := mkHosts {
  ho_copy : ∃ st M, copy s = Some st ∧ replica cfg i b st M n ∧ part (ShardCount cfg) i M = m;
  ho_owned : Node.shardOwned (Server.engine s) (Name cfg) shard = true;
  ho_settled : Server.staticRouting s = false ∨ Server.ownershipApplied s = true;
}.

Lemma hosts_mono a b s m n : a ≤ b → hosts a s m n → hosts b s m n.
Proof.
  intros Hab [(st&M&Hc&Hr&Hm) H2 H3]. constructor; [|done..]. exists st, M. split_and!; try done. by eapply replica_mono.
Qed.

Lemma hosts_observed b s m n :
  hosts b s m n → position s = Some n ∧ shard_records s = Ok (sorted_records m) ∧ 0 ≤ n ∧ n + 1 < two64.
Proof.
  intros [(st&M&Hc&Hr&Hm) _ _]. unfold position, shard_records. rewrite Hc.
  destruct (replica_at _ _ _ _ _ _ Hr) as (store&l&rs&sh&ma&base&Hi&Hst&Hl&Hinv&Hlast&Hnext&Hn0&Hn1&Hat&Hic).
  rewrite Hst, Hl. cbn. split; [by rewrite Hlast|]. split; [|done]. unfold Collection.ShardRecords.
  rewrite Nat2Z.id, (as_shard _ _ _ _ _ _ Hat), (shard_Records_ok sh ma base (as_inv _ _ _ _ _ _ Hat)).
  rewrite <-(as_map _ _ _ _ _ _ Hat), (rp_count _ _ _ _ _ _ Hr), Hm. done.
Qed.

(** A change of the server that leaves its engine alone. *)
Lemma hosts_same b (s s' : server) m n :
  Server.engine s' = Server.engine s → Server.staticRouting s' = Server.staticRouting s →
  Server.ownershipApplied s' = Server.ownershipApplied s → hosts b s m n → hosts b s' m n.
Proof. intros E1 E2 E3 [H1 H2 H3]. constructor; [|by rewrite E1|by rewrite E2, E3]. unfold copy. by rewrite E1. Qed.

(** ** Operations of the engine *)

(** [s'] is [s] with another copy of the shard's collection. *)
Definition with_copy (s : server) (st : state) : server :=
  Server.set_engine s (Node.mk (<[Name cfg := st]> (Node.collections (Server.engine s))) (Node.ownership (Server.engine s))
    (Node.dataPath (Server.engine s))).

Lemma with_same s st : copy s = Some st → with_copy s st = s.
Proof. intros Hc. unfold with_copy. rewrite insert_id by done. by destruct s as [[] ??????????????]. Qed.

Lemma hosts_with b s m n st M' n' b' :
  hosts b s m n → replica cfg i b' st M' n' → hosts b' (with_copy s st) (part (ShardCount cfg) i M') n'.
Proof.
  intros [_ H2 H3] Hr. constructor; [|exact H2|exact H3]. exists st, M'. split_and!; try done. unfold copy. cbn.
  apply lookup_insert_eq.
Qed.

Lemma on_engine_post {A} (s : server) st (m : (Z → bool) → Engine.M (I := I) (MI := MI) (L := L) A) (Q : A → state → Prop) (E : state → Prop) :
  copy s = Some st → post (m (Node.shardOwned (Server.engine s) (Name cfg))) st Q E →
  match Server.on_engine s (λ e, Node.on_collection e (Name cfg) m) with
  | (s', Ok a) => ∃ st', s' = with_copy s st' ∧ Q a st'
  | (s', Err _) => ∃ st', s' = with_copy s st' ∧ E st'
  end.
Proof.
  intros Hc Hp. unfold Server.on_engine, Node.on_collection. unfold copy in Hc. rewrite Hc. unfold post in Hp.
  destruct (m _ st) as [st' [a|e]]; by exists st'.
Qed.

(** ** Committing *)

Lemma lead_same fault (s : server) collection shardID s' r :
  Server.lead fault s collection shardID = (s', r) →
  Server.engine s' = Server.engine s ∧ Server.staticRouting s' = Server.staticRouting s ∧
  Server.ownershipApplied s' = Server.ownershipApplied s ∧ Server.nodeID s' = Server.nodeID s ∧
  Server.replicationFactor s' = Server.replicationFactor s.
Proof.
  unfold Server.lead, Server.unfrozen. destruct (Server.rebalanceBarriers s) as [b|]; [|by intros [= <- _]].
  destruct (ReleaseCommitted _ _ _) as [b' [u|e]]; [|by intros [= <- _]]. destruct (IsFrozen _ _ _); by intros [= <- _].
Qed.

(** What a local commit leaves: the operation's effect on the shard, or the
    shard as it was. *)
Lemma commit_local_ok {A} fault (s : server) (m : (Z → bool) → Engine.M (I := I) (MI := MI) (L := L) A) s' r b b' m0 n (Q : A → gmap string CoreRecord → Prop) n' :
  Server.commit_local fault s (Name cfg) shard m = (s', r) → hosts b s m0 n → b ≤ b' →
  (∀ owned st M, replica cfg i b st M n → owned shard = true → part (ShardCount cfg) i M = m0 →
     post (m owned) st (λ a st', ∃ M', Q a (part (ShardCount cfg) i M') ∧ replica cfg i b' st' M' n') (λ st', replica cfg i b' st' M n)) →
  Server.nodeID s' = Server.nodeID s ∧
  match r with
  | Ok (_, a) => ∃ m', Q a m' ∧ hosts b' s' m' n'
  | Err _ => hosts b' s' m0 n
  end.
Proof.
  intros Hc Hh Hb Hm. unfold Server.commit_local in Hc. destruct (Server.lead fault s (Name cfg) shard) as [s1 r1] eqn:El.
  destruct (lead_same _ _ _ _ _ _ El) as (E1&E2&E3&E4&E5). pose proof (hosts_same _ _ s1 _ _ E1 E2 E3 Hh) as Hh1.
  destruct r1 as [led|e]. 2: { injection Hc as <- <-. split; [done|]. by eapply hosts_mono. }
  destruct (ho_copy _ _ _ _ Hh1) as (st&M&Hcopy&Hr&Hp).
  pose proof (on_engine_post s1 st m _ _ Hcopy (Hm _ st M Hr (ho_owned _ _ _ _ Hh1) Hp)) as Hpost.
  destruct (Server.on_engine _ _) as [s2 [a|e]]; injection Hc as <- <-.
  - destruct Hpost as (st'&->&M'&HQ&Hr'). split; [done|]. eexists. split; [exact HQ|]. by eapply hosts_with.
  - destruct Hpost as (st'&->&Hr'). split; [done|]. rewrite <-Hp. by eapply hosts_with.
Qed.

Lemma commit_batch_hosts native every fault faults (s : server) records clock s' r b m n :
  Server.commit_batch native every fault faults s (Name cfg) shard records "" clock = (s', r) → hosts b s m n →
  every ≤ 0 → undone faults → n + 2 < two64 → b + 2 * len records + 3 < two64 → batch_storable cfg (I := I) (MI := MI) (L := L) records →
  Server.nodeID s' = Server.nodeID s ∧
  match r with
  | Ok (_, (prepared, sequence)) =>
      sequence = n + 1 ∧ 0 < len prepared ≤ 10000 ∧ len prepared = len records ∧ Forall (item_ok cfg (ShardCount cfg) i (b + 2 * len records)) prepared ∧
      hosts (b + 2 * len records) s' (Shard.put_records m prepared) (n + 1)
  | Err _ => hosts (b + 2 * len records) s' m n
  end.
Proof.
  intros Hc Hh Hev Hund Hn Hlt Hok. pose proof (len_nonneg records).
  destruct (commit_local_ok fault s _ s' r b (b + 2 * len records) m n
    (λ ps m', ps.2 = n + 1 ∧ 0 < len ps.1 ≤ 10000 ∧ len ps.1 = len records ∧ Forall (item_ok cfg (ShardCount cfg) i (b + 2 * len records)) ps.1 ∧
       m' = Shard.put_records m ps.1) (n + 1) Hc Hh) as [Hid Hres]; [lia| |].
  { intros owned st M Hr How Hp. eapply post_mono; [by apply (commit_batch_ok cfg native owned every faults clock records st M i b n)| |done].
    intros ps st' (H1&H2&Hn2&H3&M'&H4&H5). exists M'. split; [|done]. rewrite H5, Hp. done. }
  split; [done|]. destruct r as [[led [prepared sequence]]|e]; [|done].
  destruct Hres as (m'&(H1&H2&Hn2&H3&->)&H4). done.
Qed.

Lemma commit_delete_hosts native every fault faults (s : server) ns id s' r b m n :
  Server.commit_delete native every fault faults s (Name cfg) shard ns id = (s', r) → hosts b s m n →
  every ≤ 0 → undone faults → n + 2 < two64 → b + 4 < two64 →
  Server.nodeID s' = Server.nodeID s ∧
  match r with
  | Ok (_, sequence) => sequence = n + 1 ∧ id ≠ "" ∧ hosts (b + 1) s' (delete (key ns id) m) (n + 1)
  | Err _ => hosts (b + 1) s' m n
  end.
Proof.
  intros Hc Hh Hev Hund Hn Hlt.
  destruct (commit_local_ok fault s _ s' r b (b + 1) m n
    (λ sequence m', sequence = n + 1 ∧ id ≠ "" ∧ m' = delete (key ns id) m) (n + 1) Hc Hh) as [Hid Hres]; [lia| |].
  { intros owned st M Hr How Hp. eapply post_mono; [by apply (commit_delete_ok cfg native owned every faults ns id st M i b n)| |done].
    intros sequence st' (H1&H2&_&M'&H4&H5). exists M'. split; [|done]. rewrite H5, Hp. done. }
  split; [done|]. destruct r as [[led sequence]|e]; [|done]. destruct Hres as (m'&(H1&H2&->)&H4). done.
Qed.

(** ** Handling requests *)

(** A mutation of a shard, and what it makes of the records. *)
Inductive mutation : Set :=
  | Put (records : list CoreRecord)
  | Remove (namespace id : string).

Definition mutate (mu : mutation) (m : gmap string CoreRecord) : gmap string CoreRecord :=
  match mu with
  | Put records => Shard.put_records m records
  | Remove ns id => delete (key ns id) m
  end.

(** The bodies that carry a mutation. *)
Definition append_body (sequence factor : Z) (mu : mutation) : replicaAppendRequest :=
  match mu with
  | Put records => mkReplicaAppend sequence factor records "" "" ""
  | Remove ns id => mkReplicaAppend sequence factor [] "delete" ns id
  end.

Definition mutation_fits (b : Z) (mu : mutation) : Prop :=
  match mu with
  | Put records => 0 < len records ≤ 10000 ∧ Forall (item_ok cfg (ShardCount cfg) i b) records
  | Remove ns id => id ≠ "" ∧ json_string ns = ns ∧ json_string id = id
  end.

Definition mutation_cost (mu : mutation) : Z := match mu with Put records => len records | Remove _ _ => 1 end.

Lemma mutation_cost_positive b mu : mutation_fits b mu → 0 < mutation_cost mu.
Proof. destruct mu; cbn; [lia|done]. Qed.

(** JSON carries a mutation that fits. *)
Lemma json_append_body b sequence factor mu : mutation_fits b mu → json_append (append_body sequence factor mu) = append_body sequence factor mu.
Proof.
  destruct mu as [records|ns id]; unfold json_append, append_body;
    cbn [ra_Sequence ra_ReplicationFactor ra_Records ra_Operation ra_Namespace ra_ID mutation_fits].
  - intros [_ Hi]. change (json_string "") with "". f_equal. induction Hi as [|x l Hx Hl IH]; [done|]. rewrite fmap_cons, IH. f_equal.
    apply json_record_stable, (sr_durable _ _ (im_storable _ _ _ _ _ Hx)).
  - intros (_&E1&E2). rewrite E1, E2. reflexivity.
Qed.

Lemma writeError_refuses e : StatusCode (writeError e) ≠ 200.
Proof. unfold writeError. by repeat destruct (errors_Is _ _). Qed.

Lemma internal_settled fault (s : server) r s' x :
  Server.internal_request fault s r = (s', x) → Server.staticRouting s = false ∨ Server.ownershipApplied s = true →
  s' = s ∧ match x with inl a => StatusCode a ≠ 200 | inr shardID => req_shard r = Some shardID end.
Proof.
  unfold Server.internal_request. intros Hc Hs. destruct (Server.validateInternalFence s r) as [a|] eqn:Ef.
  { injection Hc as <- <-. split; [done|]. revert Ef. unfold Server.validateInternalFence. destruct (req_MetadataEpoch r); [|by intros [= <-]].
    destruct (ValidateFence _ _ _ _ _ _) as [e|]; [|done]. intros [= <-]. by destruct (Kind e). }
  assert (∀ s1 o, Server.requireStaticPlacement fault s = (s1, o) → s1 = s ∧ match o with Some a => StatusCode a ≠ 200 | None => True end) as Hstatic.
  { intros s1 o. unfold Server.requireStaticPlacement. destruct (Server.staticRouting s) eqn:Er; [|by intros [= <- <-]]. cbn [negb].
    destruct (Server.ready s); [|by intros [= <- <-]]. unfold Server.activateLocalOwnership.
    destruct Hs as [?|Hs]; [congruence|]. rewrite Hs. by intros [= <- <-]. }
  destruct (Server.requireStaticPlacement fault s) as [s1 o]. destruct (Hstatic s1 o eq_refl) as [-> Ho].
  destruct o as [a|]; [by injection Hc as <- <-|]. destruct (req_shard r); injection Hc as <- <-; done.
Qed.

(** An internal request that passes is meant for this node. *)
Lemma internal_target fault (s : server) r s' shardID :
  Server.internal_request fault s r = (s', inr shardID) → req_TargetNodeID r = Server.nodeID s.
Proof.
  unfold Server.internal_request. destruct (Server.validateInternalFence s r) eqn:Ef; [done|]. intros _. revert Ef.
  unfold Server.validateInternalFence. destruct (req_MetadataEpoch r) as [epoch|]; [|done].
  destruct (ValidateFence _ _ _ _ _ _) eqn:Ev; [done|]. intros _. revert Ev. unfold ValidateFence.
  destruct (negb _); [done|]. destruct (negb _) eqn:E; [done|]. intros _. apply negb_false_iff, String.eqb_eq in E. congruence.
Qed.

Lemma leader_fence_refuses (s : server) r a : Server.leader_fence s r = Some a → StatusCode a ≠ 200.
Proof.
  unfold Server.leader_fence. repeat case_match; by intros [= <-].
Qed.

Lemma fences_ok {A} (s : server) r shardID (decoded : option A) factor :
  match Server.replica_fences s r shardID decoded factor with
  | inl a => StatusCode a ≠ 200
  | inr (body, name) => decoded = Some body ∧
      ∃ st, Node.collections (Server.engine s) !! req_collection r = Some st ∧ name = Name (Collection.config (Engine.coll st))
  end.
Proof.
  unfold Server.replica_fences. destruct (Server.leader_fence s r) as [a|] eqn:El; [by eapply leader_fence_refuses|].
  destruct decoded as [body|]; [|done]. destruct (negb _); [done|].
  unfold Server.placement_fence, Node.DescribeCollection.
  destruct (Node.collections (Server.engine s) !! req_collection r) as [st|] eqn:Est; [|apply writeError_refuses].
  destruct (Server.membershipPeers s); [|done]. destruct (Server.replica_table _ _ _); [|done].
  destruct (Server.find_shard _ _); [|done]. destruct (negb _); [done|]. destruct (negb _); [done|]. eauto.
Qed.

Lemma decode_sound {A} `{!Json A} body (x y : A) : decode body = Some x → json_Unmarshal body = Ok y → x = y.
Proof. unfold decode. destruct (_ <? _); [done|]. destruct (json_Unmarshal body); congruence. Qed.

(** The engine's operation for a mutation. *)
Definition apply_operation (owned : Z → bool) (faults : log_faults) (sequence : Z) (mu : mutation)
    : Engine.M (I := I) (MI := MI) (L := L) unit :=
  match mu with
  | Put records => Store.ApplyReplicaBatch owned faults shard sequence records
  | Remove ns id => Store.ApplyReplicaDelete owned faults shard sequence ns id
  end.

Lemma apply_operation_ok owned faults sequence mu (s : state) M b n :
  replica cfg i b s M n → n + 2 < two64 → undone faults → b + mutation_cost mu + 3 < two64 → mutation_fits b mu →
  post (apply_operation owned faults sequence mu) s
    (λ _ s', s' = s ∧ sequence ≤ n ∨
       sequence = n + 1 ∧ ∃ M', replica cfg i (b + mutation_cost mu) s' M' (n + 1) ∧
         part (ShardCount cfg) i M' = mutate mu (part (ShardCount cfg) i M))
    (λ s', s' = s).
Proof.
  intros Hr Hn Hund Hlt Hfit. destruct mu as [records|ns id].
  - by apply apply_batch_ok; [..|apply Hfit].
  - apply apply_delete_ok; [done..|]. cbn [mutation_cost] in Hlt. lia.
Qed.

(** The shard a request is for. *)
Definition for_shard (r : request) : Prop := req_collection r = Name cfg ∧ req_shard r = Some shard.

Lemma hosts_name b s m n r st :
  hosts b s m n → for_shard r → Node.collections (Server.engine s) !! req_collection r = Some st → Name (Collection.config (Engine.coll st)) = Name cfg.
Proof.
  intros [(st'&M&Hc&Hr&_) _ _] [E _] Hst. unfold copy in Hc. rewrite E, Hc in Hst. injection Hst as <-. by rewrite (rp_config _ _ _ _ _ _ Hr).
Qed.

(** What an append request answers and leaves: a member takes the mutation
    only at the position after its own. *)
Lemma append_hosts fault faults (s : server) r s' a b m n sequence factor mu :
  Server.internalReplicaAppend fault faults s r = (s', a) → hosts b s m n → for_shard r →
  json_Unmarshal (req_body r) = Ok (append_body sequence factor mu) → mutation_fits b mu →
  undone faults → n + 2 < two64 → b + mutation_cost mu + 3 < two64 →
  let b' := b + mutation_cost mu in
  Server.nodeID s' = Server.nodeID s ∧
  (StatusCode a ≠ 200 ∧ hosts b' s' m n ∨ req_TargetNodeID r = Server.nodeID s ∧
   a = mkAnswer 200 (ReplicaBody sequence shard (Server.currentMetadataEpoch s') "appended") ∧
     (sequence ≤ n ∧ hosts b' s' m n ∨ sequence = n + 1 ∧ hosts b' s' (mutate mu m) (n + 1))).
Proof.
  intros Hc Hh Hfor Hbody Hfit Hund Hn Hlt b'. pose proof (mutation_cost_positive b mu Hfit) as Hcost.
  assert (hosts b' s m n) as Hh' by (eapply hosts_mono; [|exact Hh]; lia).
  unfold Server.internalReplicaAppend in Hc. destruct (Server.internal_request fault s r) as [s0 x] eqn:Ei.
  destruct (internal_settled _ _ _ _ _ Ei (ho_settled _ _ _ _ Hh)) as [-> Hx]. destruct x as [a0|shardID].
  { injection Hc as <- <-. split; [done|]. by left. }
  pose proof (internal_target _ _ _ _ _ Ei) as Htarget. pose proof (fences_ok s r shardID (decode (req_body r)) ra_ReplicationFactor) as Hf.
  destruct (Server.replica_fences _ _ _ _ _) as [a0|[body name]]; [injection Hc as <- <-; split; [done|by left]|].
  destruct Hf as (Hd&st&Hst&->). rewrite (hosts_name _ _ _ _ _ _ Hh Hfor Hst) in Hc.
  assert (shardID = shard) as -> by (destruct Hfor; congruence). rewrite (decode_sound _ _ _ Hd Hbody) in Hc.
  destruct (ho_copy _ _ _ _ Hh) as (st'&M&Hcopy&Hr&Hp).
  match type of Hc with ?lhs = _ => assert (lhs =
    let '(s', e) := Server.on_engine s (λ e, Node.on_collection e (Name cfg) (λ owned, apply_operation owned faults sequence mu)) in
    (s', Server.applied s' shard sequence "appended" e)) as Erun by (by destruct mu) end.
  rewrite Erun in Hc. clear Erun.
  pose proof (on_engine_post s st' (λ owned, apply_operation owned faults sequence mu) _ _ Hcopy
    (apply_operation_ok _ faults sequence mu st' M b n Hr Hn Hund Hlt Hfit)) as Hpost.
  destruct (Server.on_engine _ _) as [s1 [u|e]]; injection Hc as <- <-.
  - destruct Hpost as (st1&->&Hres). split; [done|]. right. split; [done|]. split; [done|].
    destruct Hres as [[-> Hle]|(->&M'&Hr'&Hp')]; [left|right]; (split; [done|]).
    + by rewrite with_same.
    + rewrite <-Hp, <-Hp'. by eapply hosts_with.
  - destruct Hpost as (st1&->&->). rewrite with_same by done. split; [done|]. left. split; [apply writeError_refuses|done].
Qed.

(** What a snapshot request answers and leaves. *)
Lemma snapshot_hosts fault faults (s : server) r s' a b m n sequence factor m1 :
  Server.internalReplicaSnapshot fault faults s r = (s', a) → hosts b s m n → for_shard r →
  json_Unmarshal (req_body r) = Ok (mkReplicaSnapshot sequence factor (sorted_records m1)) →
  shard_map cfg (ShardCount cfg) i b m1 → sequence + 1 < two64 → b + Z.of_nat (size m1) + 1 < two64 →
  let b' := b + Z.of_nat (size m1) in
  Server.nodeID s' = Server.nodeID s ∧
  (StatusCode a ≠ 200 ∧ (Server.engine s' = Server.engine s → hosts b' s' m n) ∨ req_TargetNodeID r = Server.nodeID s ∧
   a = mkAnswer 200 (ReplicaBody sequence shard (Server.currentMetadataEpoch s') "installed") ∧ n ≤ sequence ∧ hosts b' s' m1 sequence).
Proof.
  intros Hc Hh Hfor Hbody Hm Hseq Hlt b'.
  assert (hosts b' s m n) as Hh' by (eapply hosts_mono; [|exact Hh]; lia).
  unfold Server.internalReplicaSnapshot in Hc. destruct (Server.internal_request fault s r) as [s0 x] eqn:Ei.
  destruct (internal_settled _ _ _ _ _ Ei (ho_settled _ _ _ _ Hh)) as [-> Hx]. destruct x as [a0|shardID].
  { injection Hc as <- <-. split; [done|]. by left. }
  pose proof (internal_target _ _ _ _ _ Ei) as Htarget. pose proof (fences_ok s r shardID (decode (req_body r)) rs_ReplicationFactor) as Hf.
  destruct (Server.replica_fences _ _ _ _ _) as [a0|[body name]]; [injection Hc as <- <-; split; [done|by left]|].
  destruct Hf as (Hd&st&Hst&->). rewrite (hosts_name _ _ _ _ _ _ Hh Hfor Hst) in Hc.
  assert (shardID = shard) as -> by (destruct Hfor; congruence). rewrite (decode_sound _ _ _ Hd Hbody) in Hc.
  destruct (ho_copy _ _ _ _ Hh) as (st'&M&Hcopy&Hr&Hp). cbn [rs_Sequence rs_Records] in Hc.
  pose proof (on_engine_post s st' (λ owned, Store.InstallReplicaSnapshot owned faults shard sequence (sorted_records m1)) _ _ Hcopy
    (install_snapshot_ok cfg Hcfg _ faults i sequence m1 st' M b n Hr Hseq Hm Hlt)) as Hpost.
  destruct (Server.on_engine _ _) as [s1 [u|e]]; injection Hc as <- <-.
  - destruct Hpost as (st1&->&Hle&M'&Hr'&Hp'). split; [done|]. right. split; [done|]. split; [done|]. split; [done|].
    rewrite <-Hp'. by eapply hosts_with.
  - destruct Hpost as (st1&->&_). split; [done|]. left. split; [apply writeError_refuses|]. intros Eeng. by eapply hosts_same.
Qed.

(** What the leader exports. *)
Lemma export_hosts (s : server) b m n : hosts b s m n → Server.export s (Name cfg) shard = Ok (n, sorted_records m).
Proof.
  intros [(st&M&Hc&Hr&Hp) Ho _]. unfold Server.export, Node.on_collection. unfold copy in Hc. rewrite Hc.
  rewrite (export_ok cfg _ i st M b n Hr Ho). cbn. by rewrite Hp.
Qed.

End Nodes.
