(* ===== verification/ReplicaProtocol.v ===== *)
(** * Replication over an unreliable network

    The servers that hold one shard, and the requests its leader has ever
    sent: a request may be delivered any number of times, at any time, in any
    order, or never, and its answer may be lost.  [history] records what the
    leader held at each position of its log and [mutations] what moved it
    there; neither is read by the program.  A member whose storage fails while
    it installs a snapshot leaves the world.  [spent] counts the records that
    were processed: it bounds every counter of the engines. *)
From Stdlib Require Import ZArith Lia Ascii String.
From stdpp Require Import base tactics list gmap strings.
From S2P Require Import Prelude Wal Core CoreProofs Sha256 ClusterBase RaftStore Placement PlacementProofs Rebalance Float Distance TopK Index Segment SegmentProofs Shard ShardProofs Collection CollectionProofs Persistence Lexical Json Column Compaction SegmentFiles Multisegment SegmentIO ViewProofs MappedViews MappedIndex Sealed SealedProofs Checkpoint Engine CheckpointProofs EngineState EngineCheckpoint EngineMutations Ownership Replication ReplicaNodes.
Local Set Warnings "-clear-no-such-hyp".
Local Open Scope string_scope.
Local Open Scope Z_scope.
Local Open Scope list_scope.

Section Protocol.
Context {I MI L : Type} `{!VectorIndex I, !VectorIndexSpec I, !MetadataIndex MI, !MetadataSpec MI,
  !LexicalIndex L, !IndexBuilders I, !IndexBuildersSpec I, !SealedBuilders I, !SealedSpec I, !FilterFiles MI, !FilterFilesSpec MI, !MapOrder}.
Context `{!Json Manifest, !Json (list storedRecord), !Json (list string), !Json persistedIndex, !Json walMutation, !Json (list CoreRecord),
  !Json idempotencyLedger, !Json ownershipManifest, !Json replicaAppendRequest, !Json replicaSnapshotRequest}.
Context `{!JsonSpec walMutation json_mutation, !JsonSpec replicaAppendRequest json_append, !JsonSpec replicaSnapshotRequest json_snapshot}.
Context (cfg : CollectionConfig) (Hcfg : plain_config cfg) (i : nat) (leaderID : string) (native : bool) (every : Z) (Hevery : every ≤ 0).

Local Abbreviation server := (Server.t I MI L).
Local Abbreviation shard := (Z.of_nat i).
Local Abbreviation records_map := (gmap string CoreRecord).

Record world : Type := mkWorld {
  nodes : gmap string server;
  history : gmap Z records_map;
  mutations : gmap Z mutation;
  sent : list (endpoint * request);
  answered : list (endpoint * request * answer);
  spent : Z;
}.

(** A mutation the leader committed at a position. *)
Definition committed (w : world) (s : server) (sequence : Z) (mu : mutation) (cost : Z) : world :=
  mkWorld (<[leaderID := s]> (nodes w)) (<[sequence := mutate mu (default ∅ (history w !! (sequence - 1)))]> (history w))
    (<[sequence := mu]> (mutations w)) (sent w) (answered w) (spent w + cost).

Definition moved (w : world) (id : string) (s : server) (cost : Z) : world :=
  mkWorld (<[id := s]> (nodes w)) (history w) (mutations w) (sent w) (answered w) (spent w + cost).

Definition with_sent (w : world) (ep : endpoint) (r : request) : world :=
  mkWorld (nodes w) (history w) (mutations w) ((ep, r) :: sent w) (answered w) (spent w).

Definition delivered (w : world) (nodes' : gmap string server) (ep : endpoint) (r : request) (a : answer) (cost : Z) : world :=
  mkWorld nodes' (history w) (mutations w) (sent w) ((ep, r, a) :: answered w) (spent w + cost).

(** Handling a request, and what it can cost. *)
Definition handle (fault : string → Z → option PruneStep) (faults : log_faults) (s : server) (ep : endpoint) (r : request) : server * answer :=
  match ep with
  | AppendPath => Server.internalReplicaAppend fault faults s r
  | SnapshotPath => Server.internalReplicaSnapshot fault faults s r
  | StatusPath => Server.internalReplicaStatus s r
  end.

Definition request_cost (ep : endpoint) (r : request) : Z :=
  match ep with
  | AppendPath => match json_Unmarshal (req_body r) with Ok body => Z.max 1 (len (ra_Records body)) | Err _ => 1 end
  | SnapshotPath => match json_Unmarshal (req_body r) with Ok body => len (rs_Records body) | Err _ => 1 end
  | StatusPath => 0
  end.

Inductive step : world → world → Prop :=
| batch_step w s s' fault faults records clock ps placement term prepared sequence :
    nodes w !! leaderID = Some s → undone faults → batch_storable cfg (I := I) (MI := MI) (L := L) records →
    Server.commit_batch native every fault faults s (Name cfg) shard records "" clock = (s', Ok (term, ps, placement, (prepared, sequence))) →
    step w (committed w s' sequence (Put prepared) (2 * len records + 1))
| delete_step w s s' fault faults ns id ps placement term sequence :
    nodes w !! leaderID = Some s → undone faults → json_string ns = ns → json_string id = id →
    Server.commit_delete native every fault faults s (Name cfg) shard ns id = (s', Ok (term, ps, placement, sequence)) →
    step w (committed w s' sequence (Remove ns id) 2)
| batch_failed w s s' fault faults records clock e :
    nodes w !! leaderID = Some s → undone faults → batch_storable cfg (I := I) (MI := MI) (L := L) records →
    Server.commit_batch native every fault faults s (Name cfg) shard records "" clock = (s', Err e) →
    step w (moved w leaderID s' (2 * len records + 1))
| delete_failed w s s' fault faults ns id e :
    nodes w !! leaderID = Some s → undone faults →
    Server.commit_delete native every fault faults s (Name cfg) shard ns id = (s', Err e) →
    step w (moved w leaderID s' 2)
| send_append w s peer sequence mu term payload :
    nodes w !! leaderID = Some s → mutations w !! sequence = Some mu →
    json_Marshal (append_body sequence (Server.replicationFactor s) mu) = Ok payload →
    step w (with_sent w AppendPath (Server.leader_request s peer (Name cfg) shard term payload))
| send_snapshot w s peer sequence records term payload :
    nodes w !! leaderID = Some s → Server.export s (Name cfg) shard = Ok (sequence, records) →
    json_Marshal (mkReplicaSnapshot sequence (Server.replicationFactor s) records) = Ok payload →
    step w (with_sent w SnapshotPath (Server.leader_request s peer (Name cfg) shard term payload))
| deliver w id s s' fault faults ep r a :
    nodes w !! id = Some s → (ep, r) ∈ sent w → undone faults → handle fault faults s ep r = (s', a) →
    StatusCode a = 200 ∨ ep = AppendPath ∨ Server.engine s' = Server.engine s →
    step w (delivered w (<[id := s']> (nodes w)) ep r a (request_cost ep r + 1))
| deliver_failed w id s s' fault faults r a :
    nodes w !! id = Some s → (SnapshotPath, r) ∈ sent w → undone faults → handle fault faults s SnapshotPath r = (s', a) →
    StatusCode a ≠ 200 →
    step w (delivered w (delete id (nodes w)) SnapshotPath r a 0).

(** Every node holds the same records at the same position. *)
Definition initial (n0 : Z) (m0 : records_map) (w : world) : Prop :=
  history w = {[n0 := m0]} ∧ mutations w = ∅ ∧ sent w = [] ∧ answered w = [] ∧
  shard_map cfg (ShardCount cfg) i (spent w) m0 ∧ Z.of_nat (size m0) ≤ spent w ∧ n0 ≤ spent w ∧
  ∀ id s, nodes w !! id = Some s → Server.nodeID s = id ∧ hosts cfg i (spent w) s m0 n0.

(** ** The invariant *)

(** What a request that was sent carries. *)
Inductive request_ok (w : world) : endpoint → request → Prop :=
| append_request r sequence factor mu m :
    for_shard cfg i r → json_Unmarshal (req_body r) = Ok (append_body sequence factor mu) → mutation_fits cfg i (spent w) mu →
    history w !! (sequence - 1) = Some m → history w !! sequence = Some (mutate mu m) →
    request_ok w AppendPath r
| snapshot_request r sequence factor m :
    for_shard cfg i r → json_Unmarshal (req_body r) = Ok (mkReplicaSnapshot sequence factor (sorted_records m)) →
    history w !! sequence = Some m → request_ok w SnapshotPath r.

(** The position a request is about. *)
Definition request_sequence (ep : endpoint) (r : request) : option Z :=
  match ep with
  | AppendPath => match json_Unmarshal (req_body r) with Ok body => Some (ra_Sequence body) | Err _ => None end
  | SnapshotPath => match json_Unmarshal (req_body r) with Ok body => Some (rs_Sequence body) | Err _ => None end
  | StatusPath => None
  end.

(** A node, if it is still there, is at that position or past it. *)
Definition reached (w : world) (id : string) (sequence : Z) : Prop :=
  ∀ s n, nodes w !! id = Some s → position cfg i s = Some n → sequence ≤ n.

Record inv (w : world) : Prop := mkInv {
  iv_nodes id s : nodes w !! id = Some s → Server.nodeID s = id ∧ ∃ m n, hosts cfg i (spent w) s m n ∧ history w !! n = Some m;
  iv_top : ∃ t, t ≤ spent w ∧ (∀ k m, history w !! k = Some m → k ≤ t) ∧
    ∀ s, nodes w !! leaderID = Some s → ∃ m, hosts cfg i (spent w) s m t;
  iv_history k m : history w !! k = Some m → shard_map cfg (ShardCount cfg) i (spent w) m ∧ Z.of_nat (size m) ≤ spent w;
  iv_mutations k mu : mutations w !! k = Some mu → mutation_fits cfg i (spent w) mu ∧
    ∃ m, history w !! (k - 1) = Some m ∧ history w !! k = Some (mutate mu m);
  iv_sent ep r : (ep, r) ∈ sent w → request_ok w ep r;
  iv_answered ep r a : (ep, r, a) ∈ answered w → StatusCode a = 200 → ∃ sequence epoch status,
    request_sequence ep r = Some sequence ∧ Body a = ReplicaBody sequence shard epoch status ∧ reached w (req_TargetNodeID r) sequence;
}.

Lemma fits_mono a b mu : a ≤ b → mutation_fits cfg i a mu → mutation_fits cfg i b mu.
Proof.
  intros Hab. destruct mu as [records|ns id]; [|done]. intros [Hl Hi]. split; [done|]. eapply Forall_impl; [exact Hi|].
  intros r [H1 H2 H3]. constructor; [done|done|lia].
Qed.

(** The history of [w] is part of that of [w']. *)
Definition extends (w w' : world) : Prop := (∀ k m, history w !! k = Some m → history w' !! k = Some m) ∧ spent w ≤ spent w'.

Lemma request_extends w w' ep r : extends w w' → request_ok w ep r → request_ok w' ep r.
Proof.
  intros [Hh Hs] [r' sequence factor mu m H1 H2 H3 H4 H5|r' sequence factor m H1 H2 H3].
  - eapply append_request; [done|exact H2|by eapply fits_mono|by apply Hh|by apply Hh].
  - eapply snapshot_request; [done|exact H2|by apply Hh].
Qed.

Lemma history_extends w w' m :
  extends w w' → shard_map cfg (ShardCount cfg) i (spent w) m ∧ Z.of_nat (size m) ≤ spent w →
  shard_map cfg (ShardCount cfg) i (spent w') m ∧ Z.of_nat (size m) ≤ spent w'.
Proof. intros [_ Hs] [H1 H2]. split; [by eapply shard_map_mono|lia]. Qed.

Lemma mutations_extend w w' k mu :
  extends w w' → (mutation_fits cfg i (spent w) mu ∧ ∃ m, history w !! (k - 1) = Some m ∧ history w !! k = Some (mutate mu m)) →
  mutation_fits cfg i (spent w') mu ∧ ∃ m, history w' !! (k - 1) = Some m ∧ history w' !! k = Some (mutate mu m).
Proof. intros [Hh Hs] (H1&m&H2&H3). split; [by eapply fits_mono|]. exists m. auto. Qed.

Lemma initial_inv n0 m0 w : initial n0 m0 w → inv w.
Proof.
  intros (Hh&Hmu&Hsent&Hans&Hm0&Hsize&Hn0&Hnodes).
  assert (∀ k m, history w !! k = Some m → k = n0 ∧ m = m0) as Hone by (intros k m; rewrite Hh; by intros [-> ->]%lookup_singleton_Some).
  constructor.
  - intros id s Hs. destruct (Hnodes id s Hs) as [H1 H2]. split; [done|]. exists m0, n0. split; [done|]. rewrite Hh. apply lookup_singleton_eq.
  - exists n0. split; [done|]. split; [intros k m [-> _]%Hone; done|]. intros s Hs. exists m0. by apply (Hnodes leaderID s).
  - by intros k m [_ ->]%Hone.
  - intros k mu. by rewrite Hmu.
  - intros ep r. rewrite Hsent. by intros ?%not_elem_of_nil.
  - intros ep r a. rewrite Hans. by intros ?%not_elem_of_nil.
Qed.

(** A node that only moved ahead. *)
Record ahead (w w' : world) : Prop := mkAhead {
  ah_nodes id s' : nodes w' !! id = Some s' → ∃ s, nodes w !! id = Some s ∧ Server.nodeID s' = Server.nodeID s ∧
    (s' = s ∨ ∃ m n m' n', hosts cfg i (spent w) s m n ∧ hosts cfg i (spent w') s' m' n' ∧ n ≤ n' ∧ history w' !! n' = Some m');
}.

Lemma nodes_ahead w w' id s' :
  inv w → extends w w' → ahead w w' → nodes w' !! id = Some s' →
  Server.nodeID s' = id ∧ ∃ m n, hosts cfg i (spent w') s' m n ∧ history w' !! n = Some m.
Proof.
  intros Hi [Hh Hs] Ha Hn'. destruct (ah_nodes _ _ Ha id s' Hn') as (s&Hn&Eid&Hor). destruct (iv_nodes w Hi id s Hn) as [E (m&n&H1&H2)].
  split; [congruence|]. destruct Hor as [->|(_&_&m'&n'&_&H3&_&H4)]; [|by exists m', n']. exists m, n. split; [by eapply hosts_mono|auto].
Qed.

(** The position of a node never goes back. *)
Lemma position_ahead w w' id s' n' :
  ahead w w' → nodes w' !! id = Some s' → position cfg i s' = Some n' → ∃ s n, nodes w !! id = Some s ∧ position cfg i s = Some n ∧ n ≤ n'.
Proof.
  intros Ha Hn' Hp. destruct (ah_nodes _ _ Ha id s' Hn') as (s&Hn&_&[->|(m&n&m'&n''&H1&H2&Hle&_)]); [by exists s, n'|].
  exists s, n. split; [done|]. pose proof (proj1 (hosts_observed _ _ _ _ _ _ H1)) as E1. pose proof (proj1 (hosts_observed _ _ _ _ _ _ H2)) as E2.
  split; [done|]. congruence.
Qed.

Lemma reached_ahead w w' id sequence : ahead w w' → reached w id sequence → reached w' id sequence.
Proof.
  intros Ha Hw s n Hs Hp. destruct (position_ahead w w' id s n Ha Hs Hp) as (s0&n0&H1&H2&Hle). etrans; [by eapply Hw|done].
Qed.

(** What an answer tells of its sender. *)
Definition answer_ok (w : world) (ep : endpoint) (r : request) (a : answer) : Prop :=
  StatusCode a = 200 → ∃ sequence epoch status,
    request_sequence ep r = Some sequence ∧ Body a = ReplicaBody sequence shard epoch status ∧ reached w (req_TargetNodeID r) sequence.

Lemma answer_ahead w w' ep r a : ahead w w' → answer_ok w ep r a → answer_ok w' ep r a.
Proof.
  intros Ha Hok E. destruct (Hok E) as (sequence&epoch&status&H1&H2&H3). exists sequence, epoch, status. split_and!; try done.
  by eapply reached_ahead.
Qed.

(** A step that leaves history and messages alone. *)
Lemma inv_ahead w w' :
  inv w → extends w w' → ahead w w' → history w' = history w → mutations w' = mutations w → sent w' = sent w →
  (∀ ep r a, (ep, r, a) ∈ answered w' → (ep, r, a) ∈ answered w ∨ answer_ok w' ep r a) →
  inv w'.
Proof.
  intros Hi He Ha Eh Em Es Hans. constructor.
  - intros id s Hs. by eapply nodes_ahead.
  - destruct (iv_top w Hi) as (t&H1&H2&H3). exists t. rewrite Eh. split; [destruct He; lia|]. split; [done|].
    intros s' Hs'. destruct (ah_nodes _ _ Ha _ _ Hs') as (s&Hs&_&Hor). destruct (H3 s Hs) as [m Hm].
    destruct Hor as [->|(m1&n1&m2&n2&G1&G2&Hle&G3)]; [exists m; eapply hosts_mono; [|exact Hm]; apply He|].
    pose proof (proj1 (hosts_observed _ _ _ _ _ _ Hm)). pose proof (proj1 (hosts_observed _ _ _ _ _ _ G1)).
    assert (n1 = t) as -> by congruence. rewrite Eh in G3. pose proof (H2 n2 m2 G3). assert (n2 = t) as -> by lia. by exists m2.
  - intros k m. rewrite Eh. intros H1. eapply history_extends; [exact He|by eapply (iv_history w Hi)].
  - intros k mu. rewrite Em. intros H1. eapply mutations_extend; [exact He|by apply (iv_mutations w Hi)].
  - intros ep r. rewrite Es. intros H1. eapply request_extends; [exact He|by apply (iv_sent w Hi)].
  - intros ep r a [Hin|Hnew]%Hans; [|done]. eapply answer_ahead; [exact Ha|]. exact (iv_answered w Hi ep r a Hin).
Qed.

Lemma ahead_refl w w' : nodes w' = nodes w → ahead w w'.
Proof. intros E. constructor. intros id s'. rewrite E. intros H1. exists s'. split_and!; auto. Qed.

(** One node moved ahead. *)
Lemma ahead_insert w w' id s s' m n m' n' :
  nodes w' = <[id := s']> (nodes w) → nodes w !! id = Some s → Server.nodeID s' = Server.nodeID s →
  hosts cfg i (spent w) s m n → hosts cfg i (spent w') s' m' n' → n ≤ n' → history w' !! n' = Some m' → ahead w w'.
Proof.
  intros E Hs Eid H1 H2 Hle Hh. constructor. intros id' s''. rewrite E. intros [[<- <-]|[_ H3]]%lookup_insert_Some.
  - exists s. split_and!; try done. right. by exists m, n, m', n'.
  - exists s''. split_and!; auto.
Qed.

(** The leader's node and what it holds. *)
Lemma leader_holds w s :
  inv w → nodes w !! leaderID = Some s →
  ∃ t m, hosts cfg i (spent w) s m t ∧ history w !! t = Some m ∧ t ≤ spent w ∧ 0 ≤ t ∧ ∀ k m, history w !! k = Some m → k ≤ t.
Proof.
  intros Hi Hs. destruct (iv_top w Hi) as (t&Hle&Hmax&Hlead). destruct (Hlead s Hs) as [m Hm].
  destruct (iv_nodes w Hi _ _ Hs) as [_ (m'&n&Hh&Hn)]. destruct (hosts_observed _ _ _ _ _ _ Hm) as (P1&R1&Ht&_).
  destruct (hosts_observed _ _ _ _ _ _ Hh) as (P2&_). assert (n = t) as -> by congruence. exists t, m'. done.
Qed.

(** The leader committed a mutation. *)
Lemma committed_inv w s s' sequence mu cost m t :
  inv w → nodes w !! leaderID = Some s → hosts cfg i (spent w) s m t → history w !! t = Some m → t ≤ spent w →
  (∀ k m, history w !! k = Some m → k ≤ t) → 0 < cost → Server.nodeID s' = Server.nodeID s → sequence = t + 1 →
  mutation_fits cfg i (spent w + cost) mu → hosts cfg i (spent w + cost) s' (mutate mu m) (t + 1) →
  shard_map cfg (ShardCount cfg) i (spent w + cost) (mutate mu m) → Z.of_nat (size (mutate mu m)) ≤ spent w + cost →
  inv (committed w s' sequence mu cost).
Proof.
  intros Hi Hs Hh Ht Hle Hmax Hc Eid -> Hfit Hh' Hmap Hsize. set (w' := committed w s' (t + 1) mu cost).
  assert (history w' = <[t + 1 := mutate mu m]> (history w)) as Eh.
  { unfold w'. cbn [committed history]. replace (t + 1 - 1) with t by lia. by rewrite Ht. }
  assert (extends w w') as He.
  { split; [|cbn; lia]. intros k m1 Hk. rewrite Eh, lookup_insert_ne; [done|]. specialize (Hmax k m1 Hk). lia. }
  assert (ahead w w') as Ha.
  { eapply (ahead_insert w w' leaderID s s' m t (mutate mu m) (t + 1)); try done; [lia|]. rewrite Eh. apply lookup_insert_eq. }
  constructor.
  - intros id s1 Hs1. by eapply nodes_ahead.
  - exists (t + 1). split; [cbn; lia|]. split.
    + intros k m1. rewrite Eh. intros [[<- _]|[_ Hk]]%lookup_insert_Some; [done|]. specialize (Hmax k m1 Hk). lia.
    + intros s1. cbn [w' committed nodes]. rewrite lookup_insert_eq. intros [= <-]. by exists (mutate mu m).
  - intros k m1. rewrite Eh. intros [[_ <-]|[_ Hk]]%lookup_insert_Some; [done|]. eapply history_extends; [exact He|by eapply (iv_history w Hi)].
  - intros k mu1. cbn [w' committed mutations]. intros [[<- <-]|[_ Hk]]%lookup_insert_Some.
    + split; [done|]. exists m. replace (t + 1 - 1) with t by lia. split; [by apply He|]. change (history (committed w s' (t + 1) mu cost)) with (history w').
      rewrite Eh. apply lookup_insert_eq.
    + eapply mutations_extend; [exact He|by apply (iv_mutations w Hi)].
  - intros ep r Hr. eapply request_extends; [exact He|by apply (iv_sent w Hi)].
  - intros ep r a Hin. eapply answer_ahead; [exact Ha|]. exact (iv_answered w Hi ep r a Hin).
Qed.

Lemma put_size (m : records_map) l : Z.of_nat (size (Shard.put_records m l)) ≤ Z.of_nat (size m) + len l.
Proof.
  revert m. induction l as [|r l IH]; intros m; [change (len []) with 0; cbn; lia|]. rewrite put_records_cons, len_cons.
  etrans; [apply IH|]. destruct (m !! record_key r) as [x|] eqn:E;
    [rewrite map_size_insert_Some by (by rewrite E)|rewrite map_size_insert_None by done]; lia.
Qed.

Lemma committing w s s' sequence mu cost m t :
  inv w → nodes w !! leaderID = Some s → hosts cfg i (spent w) s m t → history w !! t = Some m → t ≤ spent w →
  (∀ k m, history w !! k = Some m → k ≤ t) → mutation_cost mu ≤ cost → Server.nodeID s' = Server.nodeID s → sequence = t + 1 →
  mutation_fits cfg i (spent w + cost) mu → hosts cfg i (spent w + cost) s' (mutate mu m) (t + 1) →
  inv (committed w s' sequence mu cost).
Proof.
  intros Hi Hs Hh Ht Hle Hmax Hc Eid Eseq Hfit Hh'. destruct (iv_history w Hi t m Ht) as [Hm Hsz].
  pose proof (mutation_cost_positive cfg i _ _ Hfit) as Hpos.
  assert (shard_map cfg (ShardCount cfg) i (spent w + cost) m) as Hm' by (eapply shard_map_mono; [|exact Hm]; lia).
  eapply committed_inv; try done; [lia| |].
  - destruct mu as [records|ns id]; cbn [mutate]; [apply shard_map_put; [apply Hfit|done]|by apply shard_map_delete].
  - destruct mu as [records|ns id]; cbn [mutate mutation_cost] in *; [pose proof (put_size m records); lia|].
    pose proof (map_subseteq_size (delete (key ns id) m) m (delete_subseteq _ _)). lia.
Qed.

(** A leader whose commit fails holds what it held. *)
Lemma moved_inv w s s' cost m t :
  inv w → nodes w !! leaderID = Some s → hosts cfg i (spent w) s m t → history w !! t = Some m → 0 ≤ cost →
  Server.nodeID s' = Server.nodeID s → hosts cfg i (spent w + cost) s' m t → inv (moved w leaderID s' cost).
Proof.
  intros Hi Hs Hh Ht Hc Eid Hh'. apply (inv_ahead w); try done; [split; [done|cbn; lia]|by eapply (ahead_insert w _ leaderID s s' m t m t)|].
  intros ep r a Hin. by left.
Qed.

Lemma sent_inv w ep r : inv w → request_ok w ep r → inv (with_sent w ep r).
Proof.
  intros Hi Hr. assert (extends w (with_sent w ep r)) as He by (split; [done|cbn; lia]).
  destruct Hi as [H1 H2 H3 H4 H5 H6]. constructor; try done.
  intros ep' r'. cbn [with_sent sent]. intros [[= -> ->]|Hin]%elem_of_cons; [by eapply request_extends|].
  eapply request_extends; [exact He|auto].
Qed.

(** An answer that is new. *)
Lemma delivered_inv w nodes' ep r a cost :
  inv w → 0 ≤ cost → ahead w (delivered w nodes' ep r a cost) → answer_ok (delivered w nodes' ep r a cost) ep r a →
  inv (delivered w nodes' ep r a cost).
Proof.
  intros Hi Hc Ha Hans. apply (inv_ahead w); try done; [split; [done|cbn; lia]|].
  intros ep' r' a'. cbn [delivered answered]. intros [[= -> -> ->]|Hin]%elem_of_cons; [by right|by left].
Qed.

(** A node that handled a request and moved ahead. *)
Lemma delivered_ahead w id s s' m n m' n' sequence epoch status ep r a cost :
  inv w → nodes w !! id = Some s → Server.nodeID s' = Server.nodeID s → 0 ≤ cost → hosts cfg i (spent w) s m n →
  hosts cfg i (spent w + cost) s' m' n' → n ≤ n' → history w !! n' = Some m' →
  StatusCode a ≠ 200 ∨ req_TargetNodeID r = id ∧ sequence ≤ n' ∧ a = mkAnswer 200 (ReplicaBody sequence shard epoch status) →
  request_sequence ep r = Some sequence →
  inv (delivered w (<[id := s']> (nodes w)) ep r a (cost + 1)).
Proof.
  intros Hi Hs Eid Hc Hh G1 G2 G3 G4 Hseq. apply delivered_inv; [done|lia| |].
  - eapply (ahead_insert w _ id s s' m n m' n'); try done. eapply hosts_mono; [|exact G1]. cbn. lia.
  - intros Ha. destruct G4 as [Hne|(Et&Hle&->)]; [done|]. exists sequence, epoch, status. split_and!; try done.
    intros s1 n1. cbn [delivered nodes]. rewrite Et, lookup_insert_eq. intros [= <-] Hp.
    pose proof (proj1 (hosts_observed _ _ _ _ _ _ G1)). assert (n1 = n') as -> by congruence. done.
Qed.

Lemma deliver_append w id s s' fault faults r a :
  inv w → nodes w !! id = Some s → request_ok w AppendPath r → undone faults →
  Server.internalReplicaAppend fault faults s r = (s', a) → spent w + request_cost AppendPath r + 8 < two64 →
  inv (delivered w (<[id := s']> (nodes w)) AppendPath r a (request_cost AppendPath r + 1)).
Proof.
  intros Hi Hs Hr Hund Hc Hlt. destruct (iv_nodes w Hi id s Hs) as [Eid (m&n&Hh&Hn)].
  destruct (iv_top w Hi) as (t&Ht&Hmax&_). pose proof (Hmax n m Hn) as Hnt.
  inversion Hr as [r0 sequence factor mu m0 Hfor Hbody Hfit H1 H2|]; subst r0.
  assert (request_cost AppendPath r = mutation_cost mu) as Ecost.
  { cbn [request_cost]. rewrite Hbody. destruct mu as [records|ns id0]; cbn [append_body ra_Records mutation_cost]; [|done].
    destruct Hfit as [Hl _]. lia. }
  pose proof (mutation_cost_positive cfg i _ _ Hfit) as Hpos. rewrite Ecost in *.
  destruct (append_hosts cfg i fault faults s r s' a (spent w) m n sequence factor mu Hc Hh Hfor Hbody Hfit Hund) as [Eid' Hres]; [lia|lia|].
  assert (∃ m' n', hosts cfg i (spent w + mutation_cost mu) s' m' n' ∧ n ≤ n' ∧ history w !! n' = Some m' ∧
    (StatusCode a ≠ 200 ∨ req_TargetNodeID r = id ∧ sequence ≤ n' ∧
       a = mkAnswer 200 (ReplicaBody sequence shard (Server.currentMetadataEpoch s') "appended"))) as (m'&n'&G1&G2&G3&G4).
  { destruct Hres as [[Ha Hh']|(Htarget&Ha&[[Hle Hh']|[-> Hh']])].
    - exists m, n. split_and!; auto. lia.
    - exists m, n. split_and!; auto; [lia|]. right. split_and!; [congruence|done|done].
    - replace (n + 1 - 1) with n in H1 by lia. assert (m0 = m) as -> by congruence. exists (mutate mu m), (n + 1).
      split_and!; auto; [lia|]. right. split_and!; [congruence|lia|done]. }
  eapply (delivered_ahead w id s s' m n m' n'); try done; [lia|]. cbn [request_sequence]. rewrite Hbody. by try destruct mu.
Qed.

Lemma deliver_snapshot w id s s' fault faults r a :
  inv w → nodes w !! id = Some s → request_ok w SnapshotPath r → undone faults →
  Server.internalReplicaSnapshot fault faults s r = (s', a) → spent w + request_cost SnapshotPath r + 8 < two64 →
  StatusCode a = 200 ∨ Server.engine s' = Server.engine s →
  inv (delivered w (<[id := s']> (nodes w)) SnapshotPath r a (request_cost SnapshotPath r + 1)).
Proof.
  intros Hi Hs Hr Hund Hc Hlt Hor. destruct (iv_nodes w Hi id s Hs) as [Eid (m&n&Hh&Hn)].
  destruct (iv_top w Hi) as (t&Ht&Hmax&_). pose proof (Hmax n m Hn) as Hnt.
  inversion Hr as [|r0 sequence factor m1 Hfor Hbody H1]; subst r0. pose proof (Hmax sequence m1 H1) as Hseq.
  destruct (iv_history w Hi sequence m1 H1) as [Hm1 Hsz1].
  assert (request_cost SnapshotPath r = Z.of_nat (size m1)) as Ecost.
  { cbn [request_cost]. rewrite Hbody. cbn [rs_Records]. apply len_sorted. }
  rewrite Ecost in *.
  destruct (snapshot_hosts cfg Hcfg i fault faults s r s' a (spent w) m n sequence factor m1 Hc Hh Hfor Hbody Hm1) as [Eid' Hres]; [lia|lia|].
  assert (∃ m' n', hosts cfg i (spent w + Z.of_nat (size m1)) s' m' n' ∧ n ≤ n' ∧ history w !! n' = Some m' ∧
    (StatusCode a ≠ 200 ∨ req_TargetNodeID r = id ∧ sequence ≤ n' ∧
       a = mkAnswer 200 (ReplicaBody sequence shard (Server.currentMetadataEpoch s') "installed"))) as (m'&n'&G1&G2&G3&G4).
  { destruct Hres as [[Ha Hh']|(Htarget&Ha&Hle&Hh')].
    - exists m, n. split_and!; auto; [|lia]. apply Hh'. by destruct Hor.
    - exists m1, sequence. split_and!; auto. right. split_and!; [congruence|lia|done]. }
  eapply (delivered_ahead w id s s' m n m' n'); try done; [lia|]. cbn [request_sequence]. rewrite Hbody. by try destruct mu.
Qed.

(** ** Reachable worlds *)

Lemma json_sorted (m : records_map) b : shard_map cfg (ShardCount cfg) i b m → json_record <$> sorted_records m = sorted_records m.
Proof.
  intros [Hk Hm]. rewrite <-(list_fmap_id (sorted_records m)) at 2. apply list_fmap_ext. intros j r Hr%list_elem_of_lookup_2.
  apply sorted_elem in Hr; [|done]. apply json_record_stable, (sr_durable _ _ (im_storable _ _ _ _ _ (Hm _ _ Hr))).
Qed.

Lemma batch_inv w s s' fault faults records clock r :
  inv w → nodes w !! leaderID = Some s → undone faults → batch_storable cfg (I := I) (MI := MI) (L := L) records →
  Server.commit_batch native every fault faults s (Name cfg) shard records "" clock = (s', r) →
  spent w + (2 * len records + 1) + 8 < two64 →
  inv (match r with
       | Ok (_, (prepared, sequence)) => committed w s' sequence (Put prepared) (2 * len records + 1)
       | Err _ => moved w leaderID s' (2 * len records + 1)
       end).
Proof.
  intros Hi Hs Hund Hok Hc Hlt. destruct (leader_holds w s Hi Hs) as (t&m&Hh&Ht&Hle&Ht0&Hmax). pose proof (len_nonneg records).
  destruct (commit_batch_hosts cfg i native every fault faults s records clock s' _ (spent w) m t Hc Hh Hevery Hund) as [Eid Hres]; [lia|lia|done|].
  destruct r as [[led [prepared sequence]]|e].
  - destruct Hres as (->&Hl&Hlen&Hit&Hh'). eapply (committing w s s' (t + 1) (Put prepared) _ m t); try done.
    + cbn [mutation_cost]. lia.
    + apply (fits_mono (spent w + 2 * len records)); [lia|done].
    + eapply hosts_mono; [|exact Hh']. lia.
  - eapply (moved_inv w s s' _ m t); try done; [lia|]. eapply hosts_mono; [|exact Hres]. lia.
Qed.

Lemma delete_inv w s s' fault faults ns id r :
  inv w → nodes w !! leaderID = Some s → undone faults →
  Server.commit_delete native every fault faults s (Name cfg) shard ns id = (s', r) → spent w + 2 + 8 < two64 →
  match r with
  | Ok (_, sequence) => json_string ns = ns → json_string id = id → inv (committed w s' sequence (Remove ns id) 2)
  | Err _ => inv (moved w leaderID s' 2)
  end.
Proof.
  intros Hi Hs Hund Hc Hlt. destruct (leader_holds w s Hi Hs) as (t&m&Hh&Ht&Hle&Ht0&Hmax).
  destruct (commit_delete_hosts cfg i native every fault faults s ns id s' _ (spent w) m t Hc Hh Hevery Hund) as [Eid Hres]; [lia|lia|].
  destruct r as [[led sequence]|e].
  - destruct Hres as (->&Hid&Hh'). intros Ens Eid'. eapply (committing w s s' (t + 1) (Remove ns id) _ m t); try done.
    eapply hosts_mono; [|exact Hh']. lia.
  - eapply (moved_inv w s s' _ m t); try done. eapply hosts_mono; [|exact Hres]. lia.
Qed.

Lemma send_inv w (s : server) peer sequence mu term payload :
  inv w → mutations w !! sequence = Some mu → json_Marshal (append_body sequence (Server.replicationFactor s) mu) = Ok payload →
  inv (with_sent w AppendPath (Server.leader_request s peer (Name cfg) shard term payload)).
Proof.
  intros Hi Hmu Hp. destruct (iv_mutations w Hi _ _ Hmu) as (Hfit&m&H1&H2). apply sent_inv; [done|].
  eapply append_request; [done| |done|done|done]. cbn [Server.leader_request req_body].
  rewrite (json_roundtrip _ _ Hp). by rewrite (json_append_body cfg i (spent w)).
Qed.

Lemma snapshot_inv w s peer sequence records term payload :
  inv w → nodes w !! leaderID = Some s → Server.export s (Name cfg) shard = Ok (sequence, records) →
  json_Marshal (mkReplicaSnapshot sequence (Server.replicationFactor s) records) = Ok payload →
  inv (with_sent w SnapshotPath (Server.leader_request s peer (Name cfg) shard term payload)).
Proof.
  intros Hi Hs He Hp. destruct (leader_holds w s Hi Hs) as (t&m&Hh&Ht&_). rewrite (export_hosts cfg i s (spent w) m t Hh) in He.
  injection He as <- <-. destruct (iv_history w Hi t m Ht) as [Hm _]. apply sent_inv; [done|].
  eapply (snapshot_request w _ t (Server.replicationFactor s) m); [done| |done]. cbn [Server.leader_request req_body].
  rewrite (json_roundtrip _ _ Hp). unfold json_snapshot. cbn [rs_Sequence rs_ReplicationFactor rs_Records].
  by rewrite (json_sorted m (spent w)).
Qed.

Lemma deliver_inv w id s s' fault faults ep r a :
  inv w → nodes w !! id = Some s → (ep, r) ∈ sent w → undone faults → handle fault faults s ep r = (s', a) →
  StatusCode a = 200 ∨ ep = AppendPath ∨ Server.engine s' = Server.engine s → spent w + (request_cost ep r + 1) + 8 < two64 →
  inv (delivered w (<[id := s']> (nodes w)) ep r a (request_cost ep r + 1)).
Proof.
  intros Hi Hs Hin Hund Hc Hor Hlt. pose proof (iv_sent w Hi ep r Hin) as Hr. destruct ep; cbn [handle] in Hc.
  - eapply deliver_append; try done. lia.
  - eapply deliver_snapshot; try done; [lia|]. by destruct Hor as [?|[?|?]]; [left| |right].
  - inversion Hr.
Qed.

Lemma failed_inv w id r a : inv w → StatusCode a ≠ 200 → inv (delivered w (delete id (nodes w)) SnapshotPath r a 0).
Proof.
  intros Hi Hne. apply delivered_inv; [done|done| |by intros ?].
  constructor. intros id' s'. cbn [delivered nodes]. intros [_ H1]%lookup_delete_Some. exists s'. split_and!; auto.
Qed.

Lemma step_inv w w' : step w w' → inv w → spent w' + 8 < two64 → inv w'.
Proof.
  intros Hstep Hi Hlt.
  destruct Hstep as [w s s' fault faults records clock ps placement term prepared sequence Hs Hund Hok Hc
    |w s s' fault faults ns id ps placement term sequence Hs Hund Hns Hid Hc
    |w s s' fault faults records clock e Hs Hund Hok Hc|w s s' fault faults ns id e Hs Hund Hc
    |w s peer sequence mu term payload Hs Hmu Hp|w s peer sequence records term payload Hs He Hp
    |w id s s' fault faults ep r a Hs Hin Hund Hc Hor|w id s s' fault faults r a Hs Hin Hund Hc Hne];
    cbn [committed moved with_sent delivered spent] in Hlt.
  - exact (batch_inv _ _ _ _ _ _ _ _ Hi Hs Hund Hok Hc Hlt).
  - exact (delete_inv _ _ _ _ _ _ _ _ Hi Hs Hund Hc Hlt Hns Hid).
  - exact (batch_inv _ _ _ _ _ _ _ _ Hi Hs Hund Hok Hc Hlt).
  - exact (delete_inv _ _ _ _ _ _ _ _ Hi Hs Hund Hc Hlt).
  - by eapply send_inv.
  - by eapply snapshot_inv.
  - by eapply deliver_inv.
  - by apply failed_inv.
Qed.

Lemma request_cost_nonneg ep r : 0 ≤ request_cost ep r.
Proof. destruct ep; cbn [request_cost]; [| |done]; destruct (json_Unmarshal _) as [body|]; try lia. apply len_nonneg. Qed.

Lemma step_spent w w' : step w w' → spent w ≤ spent w'.
Proof.
  intros []; cbn [committed moved with_sent delivered spent]; try lia.
  - pose proof (len_nonneg records). lia.
  - pose proof (len_nonneg records). lia.
  - pose proof (request_cost_nonneg ep r). lia.
Qed.

Lemma reachable_inv n0 m0 w0 w : initial n0 m0 w0 → rtc step w0 w → spent w + 8 < two64 → inv w.
Proof.
  intros H0 Hr. apply initial_inv in H0. revert H0. induction Hr as [w|w w1 w2 Hs Hr IH]; intros H0 Hlt; [done|].
  apply IH; [|done]. apply (step_inv w); [done|done|]. enough (spent w1 ≤ spent w2) by lia. clear IH H0 Hlt Hs.
  induction Hr as [|a b c Hs _ IH]; [done|]. pose proof (step_spent _ _ Hs). lia.
Qed.

End Protocol.
