(* ===== verification/ReplicaTheorems.v ===== *)
(** * Agreement and durability of replicas

    What [ReplicaProtocol.v] keeps means: members of a replica set that stand
    at the same position of the log hold the same records, and a mutation that
    was acknowledged with a quorum is on a member of every majority that is
    still in service, whatever the network does to the requests.  The last part is about the fences a
    request passes and the delays of repairs. *)
From Stdlib Require Import ZArith Lia Ascii String.
From stdpp Require Import base tactics list gmap strings.
From S2P Require Import Prelude Wal Core CoreProofs Sha256 ClusterBase RaftStore Placement PlacementProofs Rebalance Distance Float Persistence TopK Index Segment SegmentProofs Shard ShardProofs Collection CollectionProofs Lexical Compaction Column Json SegmentFiles Multisegment SegmentIO ViewProofs MappedViews MappedIndex Sealed SealedProofs Checkpoint CheckpointProofs Engine EngineState EngineCheckpoint EngineMutations Ownership Replication ReplicaNodes ReplicaProtocol.
Local Set Warnings "-clear-no-such-hyp".
Local Open Scope string_scope.
Local Open Scope Z_scope.
Local Open Scope list_scope.

(** ** Quorums *)

(** Two majorities of one set meet. *)
Lemma majorities_meet {A} `{EqDecision A} (all P Q : list A) :
  NoDup P → NoDup Q → (∀ x, x ∈ P → x ∈ all) → (∀ x, x ∈ Q → x ∈ all) → len all < len P + len Q → ∃ x, x ∈ P ∧ x ∈ Q.
Proof.
  intros HP HQ IP IQ Hlen. destruct (decide (Exists (λ x, x ∈ Q) P)) as [E|E].
  { apply Exists_exists in E as (x&H1&H2). by exists x. }
  exfalso. assert (NoDup (P ++ Q)) as Hnd.
  { apply NoDup_app. split_and!; [done| |done]. intros x H1 H2. apply E, Exists_exists. by exists x. }
  assert (P ++ Q ⊆+ all) as Hsub by (apply NoDup_submseteq; [done|]; intros x [H1|H1]%elem_of_app; auto).
  apply submseteq_length in Hsub. rewrite length_app in Hsub. unfold len in Hlen. lia.
Qed.

Definition acks (results : list (string * res unit)) : Z := len (List.filter (λ x, is_ok x.2) results).

Lemma acks_cons id r l : acks ((id, r) :: l) = (if is_ok r then 1 else 0) + acks l.
Proof. unfold acks. cbn [List.filter snd]. destruct (is_ok r); [rewrite len_cons|]; lia. Qed.

Lemma acks_perm l l' : l ≡ₚ l' → acks l = acks l'.
Proof.
  intros Hp. induction Hp as [|[id r] l l' Hp IH|[id r] [id' r'] l|l1 l2 l3 H1 IH1 H2 IH2]; rewrite ?acks_cons; lia.
Qed.

(** No more members are counted than answered. *)
Lemma await_counts required acknowledged results : (await required acknowledged results).1 ≤ acknowledged + acks results.
Proof.
  revert acknowledged. induction results as [|[id r] rest IH]; intros acknowledged; cbn [await].
  - change (acks []) with 0. destruct (_ <=? _); cbn [fst]; lia.
  - rewrite acks_cons. assert (0 ≤ acks rest) as Hn by apply len_nonneg.
    destruct (_ <=? _); cbn [fst]; [destruct (is_ok r); lia|]. etrans; [apply IH|]. destruct (is_ok r); lia.
Qed.

Lemma drain_counts acknowledged results : drain acknowledged results = acknowledged + acks results.
Proof.
  revert acknowledged. induction results as [|[id r] rest IH]; intros acknowledged; cbn [drain]; [change (acks []) with 0; lia|].
  rewrite IH, acks_cons. destruct (is_ok r); lia.
Qed.

(** Anything but ["leader"] asks for more than half of a replica set. *)
Lemma required_majority level factor : level ≠ "leader" → 1 < factor → factor < 2 * requiredAcknowledgements level factor.
Proof.
  intros Hl Hf. unfold requiredAcknowledgements. rewrite (proj2 (String.eqb_neq level "leader") Hl).
  destruct (String.eqb level "all"); [lia|]. rewrite Z.quot_div_nonneg by lia. pose proof (Z.div_mod factor 2). pose proof (Z.mod_pos_bound factor 2). lia.
Qed.

Section Leading.
Context {I MI L : Type} `{!VectorIndex I, !MetadataIndex MI, !LexicalIndex L, !IndexBuilders I, !SealedBuilders I, !FilterFiles MI, !MapOrder}.
Context `{!Json Manifest, !Json (list storedRecord), !Json (list string), !Json persistedIndex, !Json walMutation, !Json (list CoreRecord),
  !Json idempotencyLedger, !Json ownershipManifest, !Json replicaAppendRequest, !Json replicaSnapshotRequest}.

Lemma peerByID_ok ps id peer : Server.peerByID ps !! id = Some peer → peer_NodeID peer = id.
Proof.
  unfold Server.peerByID. assert (∀ m : gmap string Peer, (∀ k p, m !! k = Some p → peer_NodeID p = k) →
    ∀ k p, foldl (λ m p, <[peer_NodeID p := p]> m) m ps !! k = Some p → peer_NodeID p = k) as Hm; [|by apply Hm].
  induction ps as [|p ps IH]; intros m Hm k p' Hk; cbn [foldl] in Hk; [by apply Hm|]. eapply IH; [|exact Hk].
  intros k0 p0 [[<- <-]|[_ H1]]%lookup_insert_Some; [done|by apply Hm].
Qed.

(** The replica set of a shard the server leads. *)
Record leads (s : Server.t I MI L) (placement : ShardReplicaPlacement) : Prop := mkLeads {
  le_members : len (Replicas placement) = Server.replicationFactor s;
  le_distinct : NoDup (Replicas placement);
  le_first : ∃ others, Replicas placement = Server.nodeID s :: others;
}.

Lemma find_shard_elem shardID shards placement : Server.find_shard shardID shards = Some placement → placement ∈ shards.
Proof.
  unfold Server.find_shard. destruct (List.filter _ _) as [|x l] eqn:E; [done|]. intros [= ->].
  assert (placement ∈ List.filter (λ p, srp_ShardID p =? shardID) shards) as Hin by (rewrite E; by left).
  apply list_elem_of_In, filter_In in Hin as [Hin _]. by apply list_elem_of_In.
Qed.

Lemma led_placement_ok (s : Server.t I MI L) collection shardID ps placement :
  Server.led_placement s collection shardID = Ok (ps, placement) → leads s placement.
Proof.
  unfold Server.led_placement. destruct (Node.DescribeCollection _ _) as [[config n]|]; [|done]. cbn [res_bind].
  destruct (Server.membershipPeers s) as [ps'|]; [|done]. cbn [res_bind].
  destruct (Server.replica_table s config ps') as [table|] eqn:Et; [|done]. cbn [res_bind].
  destruct (Server.find_shard shardID _) as [p|] eqn:Ef; [|done]. destruct (String.eqb (LeaderID p) (Server.nodeID s)) eqn:El; [|done].
  intros [= -> ->]. apply String.eqb_eq in El. apply find_shard_elem in Ef. apply replica_plan_ok in Et as [Hsets _].
  rewrite Forall_forall in Hsets. destruct (Hsets _ Ef) as [H1 H2 _ H4 _]. constructor; [done|done|].
  destruct (Replicas placement) as [|x l]; [done|]. injection H4 as ->. exists l. by rewrite El.
Qed.

(** A local commit led by [placement]. *)
Lemma commit_local_leads {A} fault (s : Server.t I MI L) collection shardID (m : (Z → bool) → Engine.M (I := I) (MI := MI) (L := L) A)
    s' term ps placement a :
  Server.commit_local fault s collection shardID m = (s', Ok (term, ps, placement, a)) →
  leads s' placement ∧ Server.nodeID s' = Server.nodeID s ∧ Server.replicationFactor s' = Server.replicationFactor s.
Proof.
  unfold Server.commit_local. destruct (Server.lead fault s collection shardID) as [s1 r1] eqn:El.
  destruct (lead_same _ _ _ _ _ _ El) as (E1&E2&E3&E4&E5). destruct r1 as [led|e]; [|done].
  destruct (Server.on_engine s1 _) as [s2 [x|e]] eqn:Eo; [|done]. intros [= <- -> ->].
  assert (Server.nodeID s2 = Server.nodeID s1 ∧ Server.replicationFactor s2 = Server.replicationFactor s1) as [E6 E7].
  { revert Eo. unfold Server.on_engine. destruct (Node.on_collection _ _ _) as [e r]. by intros [= <- _]. }
  split; [|split; congruence]. revert El. unfold Server.lead.
  destruct (Server.unfrozen fault s collection shardID) as [s3 [[]|e]]; [|done].
  destruct (Server.replication_term s3) as [t|]; [|done]. cbn [res_bind].
  destruct (Server.led_placement s3 collection shardID) as [[ps' p']|] eqn:Ep; [|done]. cbn [res_bind]. intros [= -> -> -> ->].
  destruct (led_placement_ok _ _ _ _ _ Ep) as [H1 H2 H3]. constructor; [by rewrite H1, E7|done|by rewrite E6].
Qed.

(** The members whose goroutines succeed. *)
Lemma outcomes_acks (arrive : list (string * res unit) → list (string * res unit)) ps placement call :
  (∀ l, arrive l ≡ₚ l) →
  acks (Server.outcomes arrive ps placement call) =
  len (List.filter (λ id, is_ok (match Server.peerByID ps !! id with None => Err (Errorf "not discoverable") | Some peer => call peer end))
         (drop 1 (Replicas placement))).
Proof.
  intros Hp. unfold Server.outcomes. rewrite (acks_perm _ _ (Hp _)). induction (drop 1 (Replicas placement)) as [|id l IH]; [done|].
  rewrite fmap_cons, acks_cons, IH. cbn [List.filter]. destruct (is_ok _); [rewrite len_cons|]; lia.
Qed.

End Leading.

Section Theorems.
Context {I MI L : Type} `{!VectorIndex I, !VectorIndexSpec I, !MetadataIndex MI, !MetadataSpec MI,
  !LexicalIndex L, !IndexBuilders I, !IndexBuildersSpec I, !SealedBuilders I, !SealedSpec I, !FilterFiles MI, !FilterFilesSpec MI, !MapOrder}.
Context `{!Json Manifest, !Json (list storedRecord), !Json (list string), !Json persistedIndex, !Json walMutation, !Json (list CoreRecord),
  !Json idempotencyLedger, !Json ownershipManifest, !Json replicaAppendRequest, !Json replicaSnapshotRequest}.
Context `{!JsonSpec walMutation json_mutation, !JsonSpec replicaAppendRequest json_append, !JsonSpec replicaSnapshotRequest json_snapshot}.
Context (cfg : CollectionConfig) (Hcfg : plain_config cfg) (i : nat) (leaderID : string) (native : bool) (every : Z) (Hevery : every ≤ 0).

Local Abbreviation server := (Server.t I MI L).
Local Abbreviation world := (world (I := I) (MI := MI) (L := L)).
Local Abbreviation shard := (Z.of_nat i).
Local Abbreviation step := (step cfg i leaderID native every).
Local Abbreviation inv := (inv cfg i leaderID).

(** A node that is where it says. *)
Lemma node_observed (w : world) id s :
  inv w → nodes w !! id = Some s →
  ∃ n m, position cfg i s = Some n ∧ history w !! n = Some m ∧ shard_records cfg i s = Ok (sorted_records m).
Proof.
  intros Hi Hs. destruct (iv_nodes _ _ _ w Hi id s Hs) as [_ (m&n&Hh&Hn)]. destruct (hosts_observed _ _ _ _ _ _ Hh) as (H1&H2&_).
  by exists n, m.
Qed.

(** The history only grows. *)
Lemma step_extends (w w' : world) : step w w' → inv w → spent w' + 8 < two64 → extends w w'.
Proof.
  intros Hs Hi Hlt. split; [|by eapply step_spent].
  assert (∀ t m sequence mu, (∀ k m, history w !! k = Some m → k ≤ t) → sequence = t + 1 →
    history w !! t = Some m → ∀ k m', history w !! k = Some m' →
    <[sequence := mutate mu (default ∅ (history w !! (sequence - 1)))]> (history w) !! k = Some m') as Hput.
  { intros t m sequence mu Hmax -> _ k m' Hk. specialize (Hmax k m' Hk). rewrite lookup_insert_ne by lia. done. }
  destruct Hs as [w s s' fault faults records clock ps placement term prepared sequence Hs Hund Hok Hc
    |w s s' fault faults ns id ps placement term sequence Hs Hund Hns Hid Hc| | | | | |]; try done; cbn [committed history spent] in *.
  - destruct (leader_holds _ _ _ w s Hi Hs) as (t&m&Hh&Ht&Hle&Ht0&Hmax). pose proof (len_nonneg records).
    destruct (commit_batch_hosts cfg i native every fault faults s records clock s' _ (spent w) m t Hc Hh Hevery Hund) as [_ Hres];
      [lia|lia|done|]. destruct Hres as [-> _]. by eapply Hput.
  - destruct (leader_holds _ _ _ w s Hi Hs) as (t&m&Hh&Ht&Hle&Ht0&Hmax).
    destruct (commit_delete_hosts cfg i native every fault faults s ns id s' _ (spent w) m t Hc Hh Hevery Hund) as [_ Hres]; [lia|lia|].
    destruct Hres as [-> _]. by eapply Hput.
Qed.

Lemma steps_spent (w w' : world) : rtc step w w' → spent w ≤ spent w'.
Proof. induction 1 as [|a b c Hs _ IH]; [done|]. pose proof (step_spent _ _ _ _ _ _ _ Hs). lia. Qed.

Lemma steps_inv (w w' : world) : rtc step w w' → inv w → spent w' + 8 < two64 → inv w' ∧ extends w w'.
Proof.
  induction 1 as [w|w w1 w2 Hs Hr IH]; intros Hi Hlt; [by split|]. pose proof (steps_spent _ _ Hr) as Hsp.
  assert (inv w1) as Hi1 by (eapply step_inv; try done; lia). destruct (IH Hi1 Hlt) as [Hi2 [E1 E2]]. split; [done|].
  destruct (step_extends w w1 Hs Hi ltac:(lia)) as [F1 F2]. split; [auto|lia].
Qed.

(** C5. Members of a replica set agree: whatever a leader commits and sends,
    and whichever requests are delivered, delayed, repeated, reordered or
    lost, every node holds exactly the records the leader had at that position
    of its log, each position being the one before it with one mutation
    applied.  Members do not crash or restart, automatic checkpoints are off
    ([every <= 0]) and failed appends are rolled back ([undone]). *)
Theorem replicas_agree n0 m0 (w0 w : world) :
  initial cfg i n0 m0 w0 → rtc step w0 w → spent w + 8 < two64 →
  (∀ id s, nodes w !! id = Some s →
     ∃ n m, position cfg i s = Some n ∧ history w !! n = Some m ∧ shard_records cfg i s = Ok (sorted_records m)) ∧
  (∀ k mu, mutations w !! k = Some mu → ∃ m, history w !! (k - 1) = Some m ∧ history w !! k = Some (mutate mu m)) ∧
  (∀ k m, history w0 !! k = Some m → history w !! k = Some m).
Proof.
  intros H0 Hr Hlt. apply (initial_inv cfg i leaderID) in H0. destruct (steps_inv w0 w Hr H0 Hlt) as [Hi [He _]].
  split_and!; [intros id s Hs; by eapply node_observed| |done].
  intros k mu Hk. exact (proj2 (iv_mutations _ _ _ w Hi k mu Hk)).
Qed.

(** What the leader hears is what members answered. *)
Definition genuine (w : world) (send : string → endpoint → request → reply) : Prop :=
  ∀ url ep r body, send url ep r = Received 200 body →
    ∃ answered_body, (ep, r, mkAnswer 200 answered_body) ∈ answered w ∧ (body = Some answered_body ∨ body = None).

Lemma heard_reached (w : world) send url ep r sequence shardID epoch status :
  inv w → genuine w send → send url ep r = Received 200 (Some (ReplicaBody sequence shardID epoch status)) →
  reached cfg i w (req_TargetNodeID r) sequence.
Proof.
  intros Hi Hg Hs. destruct (Hg _ _ _ _ Hs) as (b&Hin&[[= <-]|?]); [|done].
  destruct (iv_answered _ _ _ w Hi _ _ _ Hin eq_refl) as (n&e&st&_&E&Hw). cbn [Body] in E. by injection E as <- _ _ _.
Qed.

Lemma reached_le (w : world) id a b : reached cfg i w id a → b ≤ a → reached cfg i w id b.
Proof. intros Hw Hab s n Hs Hp. specialize (Hw s n Hs Hp). lia. Qed.

Lemma snapshot_reached (w : world) send (s : server) peer sequence records term :
  inv w → genuine w send → Server.remoteReplicaSnapshot send s peer (Name cfg) shard sequence records term = Ok tt →
  reached cfg i w (peer_NodeID peer) sequence.
Proof.
  intros Hi Hg. unfold Server.remoteReplicaSnapshot. destruct (json_Marshal _) as [payload|]; [|done]. cbn [res_bind].
  destruct (send _ _ _) as [|status body] eqn:E; [done|]. destruct (Z.eqb_spec status 200) as [->|]; [|done]. cbn [negb].
  destruct body as [[code|sequence' shardID epoch st|]|]; [done| |done|done].
  destruct (_ || _) eqn:Ef; [done|]. intros _. apply (heard_reached w) in E; [|done..].
  rewrite !orb_false_iff, negb_false_iff in Ef. destruct Ef as [[[Ef _] _] _]. apply Z.eqb_eq in Ef as ->. exact E.
Qed.

Lemma append_reached (w : world) send (s : server) peer sequence records term :
  inv w → genuine w send → Server.remoteReplicaAppend send s peer (Name cfg) shard sequence records term = Ok tt →
  reached cfg i w (peer_NodeID peer) sequence.
Proof.
  intros Hi Hg. unfold Server.remoteReplicaAppend, Server.remoteReplicaAppendOnce.
  destruct (json_Marshal _) as [payload|]; [|done].
  destruct (Server.append_code s shard sequence _) as [code|] eqn:Ea.
  - destruct (_ && _); [done|]. destruct (Server.export s (Name cfg) shard) as [[sn rs]|]; [|done]. cbn [res_bind].
    destruct (Z.ltb_spec sn sequence); [done|]. intros Hs%(snapshot_reached w); [|done..]. by eapply reached_le.
  - intros _. revert Ea. unfold Server.append_code. destruct (send _ _ _) as [|status body] eqn:E; [done|].
    destruct (Z.eqb_spec status 200) as [->|]; cbn [negb]; [|by destruct body as [[]|]].
    destruct body as [[code|sequence' shardID epoch st|]|]; [done| |done|done].
    destruct (_ || _) eqn:Ef; [done|]. intros _. apply (heard_reached w) in E; [|done..].
    rewrite !orb_false_iff, negb_false_iff in Ef. destruct Ef as [[[Ef _] _] _]. apply Z.eqb_eq in Ef as ->. exact E.
Qed.

Lemma delete_reached (w : world) send (s : server) peer sequence ns id term :
  inv w → genuine w send → Server.remoteReplicaDelete send s peer (Name cfg) shard sequence ns id term = Ok tt →
  reached cfg i w (peer_NodeID peer) sequence.
Proof.
  intros Hi Hg. unfold Server.remoteReplicaDelete. destruct (json_Marshal _) as [payload|] eqn:Ep; [|done]. cbn [res_bind].
  destruct (send _ _ _) as [|status body] eqn:E; [done|]. destruct (Z.eqb_spec status 200) as [->|]; [|done]. cbn [negb]. intros _.
  destruct (Hg _ _ _ _ E) as (b&Hin&_). destruct (iv_answered _ _ _ w Hi _ _ _ Hin eq_refl) as (n&e&st&Er&_&Hw).
  cbn [request_sequence Server.leader_request req_body] in Er. rewrite (json_roundtrip _ _ Ep) in Er. cbn in Er. injection Er as <-. exact Hw.
Qed.

(** An acknowledged mutation is on a member of every majority. *)
Lemma quorum_reached (w : world) (s : server) ps placement arrive call sequence level acknowledged Q :
  leads s placement → reached cfg i w (Server.nodeID s) sequence → (∀ l, arrive l ≡ₚ l) →
  (∀ peer, call peer = Ok tt → reached cfg i w (peer_NodeID peer) sequence) →
  acknowledged ≤ 1 + acks (Server.outcomes arrive ps placement call) →
  requiredAcknowledgements level (Server.replicationFactor s) ≤ acknowledged → level ≠ "leader" → 1 < Server.replicationFactor s →
  NoDup Q → (∀ q, q ∈ Q → q ∈ Replicas placement) → Server.replicationFactor s < 2 * len Q →
  ∃ q, q ∈ Q ∧ reached cfg i w q sequence.
Proof.
  intros [Hlen Hnd [others Eo]] Hlead Harr Hcall Hacks Hreq Hlevel Hf HQ Hsub Hmaj. rewrite (outcomes_acks arrive ps placement call Harr) in Hacks.
  pose proof (required_majority level _ Hlevel Hf) as Hr. rewrite Eo in Hacks, Hlen, Hnd, Hsub. rewrite skipn_cons, drop_0 in Hacks.
  set (ok := λ id, is_ok (match Server.peerByID ps !! id with None => Err (Errorf "not discoverable") | Some peer => call peer end)) in Hacks.
  assert (∀ x, x ∈ List.filter ok others → x ∈ others ∧ ok x = true) as Hin.
  { intros x Hx%list_elem_of_In. apply filter_In in Hx as [H1 H2]. split; [by apply list_elem_of_In|done]. }
  apply NoDup_cons in Hnd as [Hhead Hnd].
  destruct (majorities_meet (Server.nodeID s :: others) (Server.nodeID s :: List.filter ok others) Q) as (x&Hx&HxQ).
  - apply NoDup_cons. split; [by intros [? _]%Hin|]. apply NoDup_ListNoDup, List.NoDup_filter, NoDup_ListNoDup, Hnd.
  - done.
  - intros x [->|[H1 _]%Hin]%elem_of_cons; [by left|by right].
  - done.
  - rewrite (len_cons _ (List.filter ok others)). rewrite Hlen. lia.
  - exists x. split; [done|]. apply elem_of_cons in Hx as [->|[_ Hok]%Hin]; [done|]. unfold ok in Hok.
    destruct (Server.peerByID ps !! x) as [peer|] eqn:Ep; [|done]. rewrite <-(peerByID_ok _ _ _ Ep). apply Hcall.
    by destruct (call peer) as [[]|].
Qed.

(** The leader is never behind what it committed. *)
Lemma leader_reached (w : world) sequence m : inv w → history w !! sequence = Some m → reached cfg i w leaderID sequence.
Proof.
  intros Hi Hm s n Hs Hp. destruct (leader_holds _ _ _ w s Hi Hs) as (t&m'&Hh&_&_&_&Hmax).
  destruct (hosts_observed _ _ _ _ _ _ Hh) as (P&_). specialize (Hmax _ _ Hm). assert (n = t) as -> by congruence. done.
Qed.

(** The node of a living member, past a position. *)
Lemma reached_observed (w : world) q sequence :
  inv w → reached cfg i w q sequence → ∀ node, nodes w !! q = Some node →
  ∃ n m, position cfg i node = Some n ∧ sequence ≤ n ∧ history w !! n = Some m ∧ shard_records cfg i node = Ok (sorted_records m).
Proof.
  intros Hi Hr node Hn. destruct (node_observed w q node Hi Hn) as (n&m&H1&H2&H3). exists n, m. split_and!; try done. by eapply Hr.
Qed.

(** Where the mutation at [sequence] stands in a world: in the history, and
    on a member of [Q] that holds what the history says. *)
Definition survives (w : world) (sequence : Z) (mu : mutation) (Q : list string) : Prop :=
  (∃ base, history w !! (sequence - 1) = Some base ∧ history w !! sequence = Some (mutate mu base)) ∧
  ∃ q node n m, q ∈ Q ∧ nodes w !! q = Some node ∧ position cfg i node = Some n ∧ sequence ≤ n ∧
    history w !! n = Some m ∧ shard_records cfg i node = Ok (sorted_records m).

(** None of these members has left: the world drops a member whose
    installation of a snapshot failed half way. *)
Definition in_service (w : world) (Q : list string) : Prop := ∀ q, q ∈ Q → is_Some (nodes w !! q).

(** The majorities of a replica set. *)
Record majority (placement : ShardReplicaPlacement) (Q : list string) : Prop := mkMajority {
  mj_distinct : NoDup Q;
  mj_members q : q ∈ Q → q ∈ Replicas placement;
  mj_size : len (Replicas placement) < 2 * len Q;
}.

Lemma commit_survives (w w2 : world) (s s' : server) sequence mu cost ps placement arrive call level acknowledged Q :
  inv w → nodes w !! leaderID = Some s → step w (committed leaderID w s' sequence mu cost) →
  rtc step (committed leaderID w s' sequence mu cost) w2 → spent w2 + 8 < two64 →
  leads s' placement → Server.nodeID s' = Server.nodeID s → Server.replicationFactor s' = Server.replicationFactor s →
  (∀ l, arrive l ≡ₚ l) → (inv w2 → ∀ peer, call peer = Ok tt → reached cfg i w2 (peer_NodeID peer) sequence) →
  acknowledged ≤ 1 + acks (Server.outcomes arrive ps placement call) →
  requiredAcknowledgements level (Server.replicationFactor s) ≤ acknowledged → level ≠ "leader" → 1 < Server.replicationFactor s →
  majority placement Q → in_service w2 Q → survives w2 sequence mu Q.
Proof.
  intros Hi Hs Hstep Hr Hlt Hleads Hid Hfactor Harr Hcall Hn Hack Hlevel Hf [HQ Hsub Hmaj] Hin. pose proof (steps_spent _ _ Hr) as Hsp.
  destruct (steps_inv w _ (rtc_once _ _ Hstep) Hi ltac:(lia)) as [Hi1 _].
  destruct (steps_inv _ w2 Hr Hi1 Hlt) as [Hi2 [Hext _]].
  assert (mutations (committed leaderID w s' sequence mu cost) !! sequence = Some mu) as Hmu by apply lookup_insert_eq.
  destruct (iv_mutations _ _ _ _ Hi1 _ _ Hmu) as (_&base&Hb1&Hb2). apply Hext in Hb1, Hb2.
  split; [by exists base|]. destruct (iv_nodes _ _ _ w Hi _ _ Hs) as [Eid _].
  rewrite (le_members _ _ Hleads), Hfactor in Hmaj.
  destruct (quorum_reached w2 s' ps placement arrive call sequence level acknowledged Q) as (q&Hq&Hreach);
    rewrite ?Hfactor; try done; [|by apply Hcall|].
  - rewrite Hid, Eid. by eapply leader_reached.
  - destruct (Hin q Hq) as [node Hnode]. destruct (reached_observed w2 q sequence Hi2 Hreach node Hnode) as (n&m&?&?&?&?).
    by exists q, node, n, m.
Qed.

(** C6. An acknowledged batch survives: when the leader answers that a batch
    reached a quorum, or every member, then at any later time every majority
    of the replica set whose members are all still in service has a member
    that is at the batch's position or past it, and holds the records the
    leader held there; the batch is what moved the log to its position.  The
    run delivers, repeats, reorders and loses requests, and appends may fail
    as long as the log rolls them back ([undone]); no node crashes or
    restarts, automatic checkpoints are off ([every <= 0]), and a member
    leaves service when an installation of a snapshot fails half way. *)
Theorem acknowledged_batch_survives n0 m0 (w0 w w2 : world) (s s' : server) fault faults records level clock
    ps placement term prepared sequence send arrive c Q :
  initial cfg i n0 m0 w0 → rtc step w0 w → nodes w !! leaderID = Some s → undone faults →
  batch_storable cfg (I := I) (MI := MI) (L := L) records →
  Server.commit_batch native every fault faults s (Name cfg) shard records "" clock = (s', Ok (term, ps, placement, (prepared, sequence))) →
  rtc step (committed leaderID w s' sequence (Put prepared) (2 * len records + 1)) w2 → spent w2 + 8 < two64 →
  genuine w2 send → (∀ l, arrive l ≡ₚ l) →
  Server.commitLeaderShardBatch native every send arrive fault faults s (Name cfg) shard records level "" clock = (s', c) →
  Server.com_error c = None → level ≠ "leader" → 1 < Server.replicationFactor s → majority placement Q → in_service w2 Q →
  Server.com_records c = prepared ∧ survives w2 sequence (Put prepared) Q.
Proof.
  intros H0 Hr Hs Hund Hok Hc Hr2 Hlt Hg Harr Hcommit Herr Hlevel Hf HQ Hin.
  apply (initial_inv cfg i leaderID) in H0. pose proof (steps_spent _ _ Hr2) as Hsp. cbn [committed spent] in Hsp. pose proof (len_nonneg records).
  destruct (steps_inv w0 w Hr H0 ltac:(lia)) as [Hi _]. destruct (commit_local_leads _ _ _ _ _ _ _ _ _ _ Hc) as (Hleads&Hid&Hfactor).
  unfold Server.commitLeaderShardBatch in Hcommit. rewrite Hc, Hfactor in Hcommit.
  rewrite (proj2 (Z.eqb_neq (Server.replicationFactor s) 1) ltac:(lia)) in Hcommit.
  pose proof (await_counts (requiredAcknowledgements level (Server.replicationFactor s)) 1
    (Server.outcomes arrive ps placement (λ peer, Server.remoteReplicaAppend send s' peer (Name cfg) shard sequence prepared term))) as Hn.
  destruct (await _ _ _) as [acknowledged pending]. cbn [fst] in Hn.
  destruct (Z.ltb_spec acknowledged (requiredAcknowledgements level (Server.replicationFactor s))) as [?|Hack]; [by injection Hcommit as <-|].
  injection Hcommit as <-. split; [done|]. eapply commit_survives; try done; [by eapply batch_step|]. intros Hi2 peer. by apply append_reached.
Qed.

(** An acknowledged deletion survives the same way. *)
Theorem acknowledged_delete_survives n0 m0 (w0 w w2 : world) (s s' : server) fault faults ns id level
    ps placement term sequence send arrive c Q :
  initial cfg i n0 m0 w0 → rtc step w0 w → nodes w !! leaderID = Some s → undone faults →
  json_string ns = ns → json_string id = id →
  Server.commit_delete native every fault faults s (Name cfg) shard ns id = (s', Ok (term, ps, placement, sequence)) →
  rtc step (committed leaderID w s' sequence (Remove ns id) 2) w2 → spent w2 + 8 < two64 →
  genuine w2 send → (∀ l, arrive l ≡ₚ l) →
  Server.commitLeaderShardDelete native every send arrive fault faults s (Name cfg) shard ns id level = (s', c) →
  Server.com_error c = None → level ≠ "leader" → 1 < Server.replicationFactor s → majority placement Q → in_service w2 Q →
  survives w2 sequence (Remove ns id) Q.
Proof.
  intros H0 Hr Hs Hund Hns Hjid Hc Hr2 Hlt Hg Harr Hcommit Herr Hlevel Hf HQ Hin.
  apply (initial_inv cfg i leaderID) in H0. pose proof (steps_spent _ _ Hr2) as Hsp. cbn [committed spent] in Hsp.
  destruct (steps_inv w0 w Hr H0 ltac:(lia)) as [Hi _]. destruct (commit_local_leads _ _ _ _ _ _ _ _ _ _ Hc) as (Hleads&Hid&Hfactor).
  unfold Server.commitLeaderShardDelete in Hcommit. rewrite Hc, Hfactor, drain_counts in Hcommit.
  rewrite (proj2 (Z.eqb_neq (Server.replicationFactor s) 1) ltac:(lia)) in Hcommit.
  destruct (Z.ltb_spec (1 + acks (Server.outcomes arrive ps placement (λ peer, Server.remoteReplicaDelete send s' peer (Name cfg) shard sequence ns id term)))
    (requiredAcknowledgements level (Server.replicationFactor s))) as [?|Hack]; [by injection Hcommit as <-|].
  eapply commit_survives; try done; [by eapply delete_step|]. intros Hi2 peer. by apply delete_reached.
Qed.

End Theorems.

(** ** What the fences of replication promise

    A member takes a mutation or a snapshot only from the leader its own view
    plans for the shard, at its own epoch and term; members with the same view
    take them from the same leader.  Delays of repairs double up to a limit. *)

(** The plan for one shard of one collection. *)
Lemma planned_leader epoch local address capacity ps config factor table shardID placement :
  PlanReplicaPlacementWithCapacity epoch local address capacity ps [config] factor = Ok table →
  Server.find_shard shardID (rpt_Shards table) = Some placement →
  ∃ nodes, node_key <$> nodes = members local capacity ps ∧ NoDup (pn_NodeID <$> nodes) ∧
    LeaderID placement = shard_owner (Name config) shardID (sort_nodes nodes).
Proof.
  intros (Hsets & base & Eb & Hr & Es)%replica_plan_ok Hf. apply plan_ok in Eb as (nodes & En & _ & Ek & Hnd & _ & _ & _).
  exists nodes. split; [done|]. split; [done|]. rewrite <-En.
  assert (srp_ShardID placement = shardID) as Hid.
  { unfold Server.find_shard in Hf. destruct (List.filter _ _) as [|x l] eqn:E; [done|]. injection Hf as ->.
    assert (placement ∈ List.filter (λ p, srp_ShardID p =? shardID) (rpt_Shards table)) as Hin by (rewrite E; by left).
    apply list_elem_of_In, filter_In in Hin as [_ Hin]. lia. }
  apply find_shard_elem in Hf. rewrite Es in Hf. apply list_elem_of_bind in Hf as (config' & Hp & Hc).
  assert (config' = config) as -> by (apply list_elem_of_singleton; exact Hc).
  apply list_elem_of_fmap in Hp as (n & -> & _). rewrite (rs_owner _ _ _ (Hr (Name config) (u32 n))).
  cbn [replica_placement srp_Collection srp_ShardID] in *. by rewrite Hid.
Qed.

Section Fences.
Context {I MI L : Type} `{!VectorIndex I, !MetadataIndex MI, !LexicalIndex L, !IndexBuilders I, !SealedBuilders I, !FilterFiles MI, !MapOrder}.
Context `{!Json Manifest, !Json (list storedRecord), !Json (list string), !Json persistedIndex, !Json walMutation, !Json (list CoreRecord),
  !Json idempotencyLedger, !Json ownershipManifest, !Json replicaAppendRequest, !Json replicaSnapshotRequest}.

Local Abbreviation server := (Server.t I MI L).

(** The shard's ownership on this node is settled. *)
Definition settled (s : server) : Prop := Server.staticRouting s = false ∨ Server.ownershipApplied s = true.

(** What a request that was taken has shown. *)
Record fenced (s : server) (r : request) : Prop := mkFenced {
  fd_cluster : req_ClusterID r = Server.clusterID s;
  fd_target : req_TargetNodeID r = Server.nodeID s;
  fd_epoch : req_MetadataEpoch r = Some (Server.currentMetadataEpoch s);
  fd_term : ∃ term, req_LeaderTerm r = Some term ∧ Server.raftTerm s = Some term ∧ term ≠ 0;
  fd_planned : ∃ shardID config n ps table placement, req_shard r = Some shardID ∧
    Node.DescribeCollection (Server.engine s) (req_collection r) = Ok (config, n) ∧
    Server.membershipPeers s = Ok ps ∧ Server.replica_table s config ps = Ok table ∧
    Server.find_shard shardID (rpt_Shards table) = Some placement ∧
    LeaderID placement = req_LeaderNodeID r ∧ Server.nodeID s ∈ Replicas placement;
}.

Lemma internal_fence_passed (s : server) r :
  Server.validateInternalFence s r = None →
  req_ClusterID r = Server.clusterID s ∧ req_TargetNodeID r = Server.nodeID s ∧ req_MetadataEpoch r = Some (Server.currentMetadataEpoch s).
Proof.
  unfold Server.validateInternalFence. destruct (req_MetadataEpoch r) as [epoch|]; [|done].
  destruct (ValidateFence _ _ _ _ _ _) eqn:Ev; [done|]. intros _. revert Ev. unfold ValidateFence.
  destruct (String.eqb_spec (req_ClusterID r) (Server.clusterID s)); [|done].
  destruct (String.eqb_spec (req_TargetNodeID r) (Server.nodeID s)); [|done]. cbn [negb].
  destruct (Z.ltb_spec epoch (Server.currentMetadataEpoch s)); [done|].
  destruct (Z.ltb_spec (Server.currentMetadataEpoch s) epoch); [done|]. intros _. split_and!; try done. f_equal. lia.
Qed.

Lemma leader_fence_passed (s : server) r :
  Server.leader_fence s r = None → ∃ term, req_LeaderTerm r = Some term ∧ Server.raftTerm s = Some term ∧ term ≠ 0.
Proof.
  unfold Server.leader_fence. destruct (negb _); [done|]. destruct (req_LeaderTerm r) as [term|]; [|done].
  destruct (Z.eqb_spec term 0); [done|]. destruct (Server.raftTerm s) as [current|]; [|done].
  destruct (Z.eqb_spec term current) as [->|]; [|done]. intros _. by exists current.
Qed.

Lemma placement_fence_passed (s : server) r shardID name :
  Server.placement_fence s r shardID = inr name →
  ∃ config n ps table placement, Node.DescribeCollection (Server.engine s) (req_collection r) = Ok (config, n) ∧
    Server.membershipPeers s = Ok ps ∧ Server.replica_table s config ps = Ok table ∧
    Server.find_shard shardID (rpt_Shards table) = Some placement ∧
    LeaderID placement = req_LeaderNodeID r ∧ Server.nodeID s ∈ Replicas placement.
Proof.
  unfold Server.placement_fence. destruct (Node.DescribeCollection _ _) as [[config n]|] eqn:Ed; [|done].
  destruct (Server.membershipPeers s) as [ps|] eqn:Em; [|done]. destruct (Server.replica_table s config ps) as [table|] eqn:Et; [|done].
  destruct (Server.find_shard shardID _) as [placement|] eqn:Ef; [|done].
  destruct (String.eqb_spec (LeaderID placement) (req_LeaderNodeID r)) as [El|]; [|done]. cbn [negb].
  destruct (is_replica _ _) eqn:Ec; [|done]. intros _. exists config, n, ps, table, placement. split_and!; try done.
  unfold is_replica in Ec. apply existsb_exists in Ec as (x & Hx%list_elem_of_In & Ex). apply String.eqb_eq in Ex. by subst.
Qed.

(** A request that passes the cluster, node and epoch fences makes the member
    settle the ownership of its own shards first, if it has not done so. *)
Definition placed (fault : string → Z → option PruneStep) (s : server) : server := (Server.requireStaticPlacement fault s).1.

Lemma settled_placed fault (s : server) : settled s → placed fault s = s.
Proof.
  intros Hs. unfold placed, Server.requireStaticPlacement. destruct (Server.staticRouting s) eqn:Er; [|done]. cbn [negb].
  destruct (Server.ready s); [|done]. unfold Server.activateLocalOwnership. destruct Hs as [?| ->]; [congruence|done].
Qed.

(** Settling touches the engine and nothing else a fence looks at. *)
Lemma placed_alike fault (s : server) :
  ∃ e, placed fault s = s ∨ placed fault s = Server.set_engine s e ∨ placed fault s = Server.set_applied (Server.set_engine s e).
Proof.
  unfold placed, Server.requireStaticPlacement. destruct (negb _); [exists (Server.engine s); by left|].
  destruct (Server.ready s); [|exists (Server.engine s); by left]. unfold Server.activateLocalOwnership.
  destruct (Server.ownershipApplied s); [exists (Server.engine s); by left|].
  destruct (res_bind _ _) as [table|]; [|exists (Server.engine s); by left]. unfold Server.on_engine.
  destruct (Node.ApplyShardOwnership _ _ _) as [e [x|err]]; exists e; auto.
Qed.

Lemma placed_identity fault (s : server) :
  Server.clusterID (placed fault s) = Server.clusterID s ∧ Server.nodeID (placed fault s) = Server.nodeID s
  ∧ Server.currentMetadataEpoch (placed fault s) = Server.currentMetadataEpoch s.
Proof. by destruct (placed_alike fault s) as [e [->|[->| ->]]]. Qed.

Lemma internal_placed fault (s : server) r s1 x :
  Server.internal_request fault s r = (s1, x) →
  match x with inl a => StatusCode a ≠ 200 | inr shardID => req_shard r = Some shardID ∧ Server.validateInternalFence s r = None end
  ∧ (s1 = s ∧ Server.validateInternalFence s r ≠ None ∨ s1 = placed fault s ∧ Server.validateInternalFence s r = None).
Proof.
  unfold Server.internal_request. destruct (Server.validateInternalFence s r) as [a|] eqn:Ef.
  { intros [= <- <-]. split; [|by left]. revert Ef. unfold Server.validateInternalFence. destruct (req_MetadataEpoch r); [|by intros [= <-]].
    destruct (ValidateFence _ _ _ _ _ _) as [e|]; [|done]. intros [= <-]. by destruct (Kind e). }
  assert (∀ a, (Server.requireStaticPlacement fault s).2 = Some a → StatusCode a ≠ 200) as Hstatic.
  { intros a. unfold Server.requireStaticPlacement. destruct (negb _); [done|]. destruct (Server.ready s); [|by intros [= <-]].
    destruct (Server.activateLocalOwnership fault s) as [s2 [|]]; [done|by intros [= <-]]. }
  unfold placed. destruct (Server.requireStaticPlacement fault s) as [s2 [a|]]; cbn [fst snd] in *.
  - intros [= <- <-]. split; [by apply Hstatic|by right].
  - destruct (req_shard r); intros [= <- <-]; (split; [done|by right]).
Qed.

(** The part both handlers share. *)
Lemma replica_fenced {A} (s : server) r shardID (decoded : option A) factor x :
  req_shard r = Some shardID → Server.validateInternalFence s r = None → Server.replica_fences s r shardID decoded factor = inr x → fenced s r.
Proof.
  intros Hshard Hv Hf. destruct (internal_fence_passed s r Hv) as (H1 & H2 & H3). unfold Server.replica_fences in Hf.
  destruct (Server.leader_fence s r) eqn:El; [done|]. destruct decoded as [body|]; [|done]. destruct (negb _); [done|].
  destruct (Server.placement_fence s r shardID) as [|name] eqn:Ep; [done|].
  destruct (placement_fence_passed s r shardID name Ep) as (config & n & ps & table & placement & Hp).
  constructor; [done|done|done|by apply leader_fence_passed|]. by exists shardID, config, n, ps, table, placement.
Qed.

Lemma fences_refuse {A} (s : server) r shardID (decoded : option A) factor a :
  Server.replica_fences s r shardID decoded factor = inl a → StatusCode a ≠ 200.
Proof. intros E. pose proof (fences_ok s r shardID decoded factor) as Hf. by rewrite E in Hf. Qed.

(** What a request does to a member that refuses it: nothing, or no more than
    settling the member's ownership. *)
Definition refused (fault : string → Z → option PruneStep) (s s' : server) (r : request) : Prop :=
  s' = s ∨ Server.validateInternalFence s r = None ∧ s' = placed fault s.

(** A request that is answered 200 passed every fence, and one that did not
    is refused. *)
Lemma handle_fenced fault faults (s : server) ep r s' a :
  handle fault faults s ep r = (s', a) → ep ≠ StatusPath →
  (StatusCode a = 200 → fenced (placed fault s) r) ∧ (refused fault s s' r ∨ fenced (placed fault s) r).
Proof.
  intros E Hep. destruct (placed_identity fault s) as (Hcluster & Hnode & Hepoch).
  assert (Server.validateInternalFence (placed fault s) r = Server.validateInternalFence s r) as Hsame
    by (unfold Server.validateInternalFence; by rewrite Hcluster, Hnode, Hepoch).
  destruct ep; [| |done]; cbn [handle] in E; [unfold Server.internalReplicaAppend in E|unfold Server.internalReplicaSnapshot in E];
    (destruct (Server.internal_request fault s r) as [s1 [a1|shardID]] eqn:Ei; destruct (internal_placed _ _ _ _ _ Ei) as [Hx Hs1];
     [injection E as <- <-; split; [done|left; destruct Hs1 as [[-> _]|[-> ?]]; [by left|by right]]|];
     destruct Hx as [Hshard Hv]; destruct Hs1 as [[_ ?]|[-> _]]; [done|];
     destruct (Server.replica_fences _ _ _ _ _) as [a2|x] eqn:Ef;
     [injection E as <- <-; split; [by intros ?%(fences_refuse _ _ _ _ _ _ Ef)|left; by right]|];
     rewrite <-Hsame in Hv; pose proof (replica_fenced _ _ _ _ _ _ Hshard Hv Ef) as Hf; by split; [|right]).
Qed.

(** A body over the limit is refused: a member never takes a snapshot of a
    shard whose records do not fit into one request. *)
Theorem oversized_body_refused fault faults (s : server) ep r s' a :
  handle fault faults s ep r = (s', a) → settled s → ep ≠ StatusPath → maxBodyBytes < len (req_body r) → s' = s ∧ StatusCode a ≠ 200.
Proof.
  intros E Hs Hep Hlen.
  assert (∀ A `(!Json A), decode (req_body r) = None) as Hd.
  { intros A J. unfold decode. by rewrite (proj2 (Z.ltb_lt _ _) Hlen). }
  destruct ep; [| |done]; cbn [handle] in E; [unfold Server.internalReplicaAppend in E|unfold Server.internalReplicaSnapshot in E];
    (destruct (Server.internal_request fault s r) as [s1 [a1|shardID]] eqn:Ei; destruct (internal_settled fault s r s1 _ Ei Hs) as [-> Ha1];
     [by injection E as <- <-|]; rewrite Hd in E; unfold Server.replica_fences in E;
     destruct (Server.leader_fence s r) as [a2|] eqn:El; injection E as <- <-; (split; [done|]); [by eapply leader_fence_refuses|done]).
Qed.

(** Collections are kept under their names. *)
Definition well_named (s : server) : Prop :=
  ∀ name st, Node.collections (Server.engine s) !! name = Some st → Name (Collection.config (Engine.coll st)) = name.

(** What a member sees of the cluster. *)
Definition sees (s : server) (seen : list (string * Z)) : Prop :=
  ∃ ps, Server.membershipPeers s = Ok ps ∧ members (Server.nodeID s) (Server.currentPlacementCapacity s) ps ≡ₚ seen.

Lemma placed_sees fault (s : server) seen : sees s seen → sees (placed fault s) seen.
Proof. by destruct (placed_alike fault s) as [e [->|[->| ->]]]. Qed.

(** C7. One writer for a shard: a member takes a mutation or a snapshot of a
    shard only with the cluster, the node, the metadata epoch and the Raft
    term of the request equal to its own, and two members that see the same
    nodes and capacities take them from the same leader, whatever their peers'
    order or health.  A request that fails a fence leaves the member as it
    was, unless the member has not settled the ownership of its shards yet:
    then a request of its cluster, node and epoch makes it do that first
    ([placed]), and a later fence that refuses the request leaves it so. *)
Theorem single_writer fault1 faults1 (s1 s1' : server) ep1 r1 a1 fault2 faults2 (s2 s2' : server) ep2 r2 a2 seen :
  handle fault1 faults1 s1 ep1 r1 = (s1', a1) → handle fault2 faults2 s2 ep2 r2 = (s2', a2) →
  ep1 ≠ StatusPath → ep2 ≠ StatusPath →
  well_named (placed fault1 s1) → well_named (placed fault2 s2) → sees s1 seen → sees s2 seen →
  req_collection r1 = req_collection r2 → req_shard r1 = req_shard r2 →
  (refused fault1 s1 s1' r1 ∨ fenced (placed fault1 s1) r1) ∧ (settled s1 → placed fault1 s1 = s1) ∧
  (StatusCode a1 = 200 → StatusCode a2 = 200 →
    fenced (placed fault1 s1) r1 ∧ fenced (placed fault2 s2) r2 ∧ req_LeaderNodeID r1 = req_LeaderNodeID r2).
Proof.
  intros E1 E2 Hep1 Hep2 Hw1 Hw2 (ps1 & Hps1 & Hm1)%(placed_sees fault1) (ps2 & Hps2 & Hm2)%(placed_sees fault2) Hcoll Hshard.
  destruct (handle_fenced _ _ _ _ _ _ _ E1 Hep1) as [Hok1 Hsame]. destruct (handle_fenced _ _ _ _ _ _ _ E2 Hep2) as [Hok2 _].
  split; [done|]. split; [apply settled_placed|]. revert Hw1 Hw2 Hps1 Hm1 Hps2 Hm2 Hok1 Hok2.
  generalize (placed fault1 s1) (placed fault2 s2). intros t1 t2 Hw1 Hw2 Hps1 Hm1 Hps2 Hm2 Hok1 Hok2.
  intros Ha1%Hok1 Ha2%Hok2. split; [done|]. split; [done|].
  destruct (fd_planned _ _ Ha1) as (i1 & c1 & n1 & q1 & b1 & p1 & F1 & F2 & F3 & F4 & F5 & F6 & _).
  destruct (fd_planned _ _ Ha2) as (i2 & c2 & n2 & q2 & b2 & p2 & G1 & G2 & G3 & G4 & G5 & G6 & _).
  assert (q1 = ps1) as -> by congruence. assert (q2 = ps2) as -> by congruence. assert (i2 = i1) as -> by congruence.
  assert (Name c1 = Name c2) as Hname.
  { revert F2 G2. unfold Node.DescribeCollection. destruct (Node.collections (Server.engine t1) !! _) as [st1|] eqn:L1; [|done].
    destruct (Node.collections (Server.engine t2) !! _) as [st2|] eqn:L2; [|done]. intros [= <- _] [= <- _].
    by rewrite (Hw1 _ _ L1), (Hw2 _ _ L2). }
  destruct (planned_leader _ _ _ _ _ _ _ _ _ _ F4 F5) as (nodes1 & K1 & D1 & O1).
  destruct (planned_leader _ _ _ _ _ _ _ _ _ _ G4 G5) as (nodes2 & K2 & D2 & O2).
  rewrite <-F6, <-G6, O1, O2, Hname. apply owner_key; [apply sort_nodes_by_id|]. apply sort_nodes_key; [done|].
  by rewrite K1, K2, Hm1, Hm2.
Qed.

End Fences.

(** *** Repair delays *)

Lemma double_delay_stops steps delay : repair_limit ≤ delay → double_delay steps delay = delay.
Proof. intros Hd. destruct steps as [|n]; [done|]. cbn [double_delay]. by rewrite (proj2 (Z.ltb_ge _ _) Hd). Qed.

Lemma repair_delay_doubles failures : 1 ≤ failures → repair_delay failures = Z.min (2 ^ (failures - 1) * second) repair_limit.
Proof.
  intros Hf. unfold repair_delay. destruct (Z.lt_ge_cases failures 10) as [Hs|Hl].
  - assert (failures ∈ [1; 2; 3; 4; 5; 6; 7; 8; 9]) as Hin by (rewrite !elem_of_cons; lia).
    repeat (apply elem_of_cons in Hin as [->|Hin]; [reflexivity|]). by apply not_elem_of_nil in Hin.
  - replace (Z.to_nat (failures - 1)) with (9 + Z.to_nat (failures - 10))%nat by lia.
    assert (∀ n, double_delay (9 + n) second = 512 * second) as ->.
    { intros n. transitivity (double_delay n (512 * second)); [reflexivity|]. by apply double_delay_stops. }
    assert (2 ^ 9 ≤ 2 ^ (failures - 1)) as Hp by (apply Z.pow_le_mono_r; lia). unfold second, repair_limit, second in *.
    rewrite Z.min_r by lia. reflexivity.
Qed.

Section Repairs.
Context {I MI L : Type}.

(** Failures are counted to 31, and after each of them the next attempt on
    that follower waits twice as long as before, but never more than five
    minutes; other followers are not held up, and a success forgets it all. *)
Theorem repair_backoff (s : Server.t I MI L) key now f :
  f = Failures (default (mkRetry 0 0) (Server.repairRetries s !! key)) → 0 ≤ f ≤ 31 →
  (∀ later, Server.repairAttemptAllowed (Server.recordRepairFailure s key now) key later
            = (now + Z.min (2 ^ (Z.min (f + 1) 31 - 1) * second) repair_limit <=? later)) ∧
  (∀ other later, other ≠ key →
     Server.repairAttemptAllowed (Server.recordRepairFailure s key now) other later = Server.repairAttemptAllowed s other later) ∧
  (∀ later, Server.repairAttemptAllowed (Server.clearRepairFailure s key) key later = true).
Proof.
  intros -> Hf. unfold Server.repairAttemptAllowed, Server.recordRepairFailure, Server.clearRepairFailure.
  cbn [Server.set_retries Server.repairRetries]. split_and!.
  - intros later. rewrite lookup_insert_eq. cbn [NextAttempt]. generalize dependent (Failures (default (mkRetry 0 0) (Server.repairRetries s !! key))). intros f Hf.
    destruct (Z.ltb_spec f 31); rewrite repair_delay_doubles by lia; [by replace (Z.min (f + 1) 31) with (f + 1) by lia|].
    by replace (Z.min (f + 1) 31 - 1) with (f - 1) by lia.
  - intros other later Hne. by rewrite lookup_insert_ne.
  - intros later. by rewrite lookup_delete_eq.
Qed.

End Repairs.
