(* ===== verification/ReplicaInstances.v ===== *)
(** * A running replica set

    Codecs for the bodies of requests, and three servers of one empty shard:
    the leader commits a record, one member takes it, the other is never
    reached. *)
From Stdlib Require Import ZArith Lia Ascii String.
From stdpp Require Import base tactics list gmap strings countable.
From S2P Require Import Prelude Wal Core CoreProofs Sha256 ClusterBase RaftStore Placement PlacementProofs Rebalance Float Distance TopK Index Flat Segment SegmentProofs Shard ShardProofs Collection CollectionProofs Instances Persistence Lexical Json Column Compaction SegmentFiles JsonInstances Multisegment SegmentIO ViewProofs MappedViews MappedIndex Sealed SealedProofs EngineInstances Checkpoint Engine CheckpointProofs EngineState EngineCheckpoint EngineMutations EngineTheorems Ownership Replication ReplicaNodes ReplicaProtocol ReplicaTheorems.
Local Open Scope string_scope.
Local Open Scope Z_scope.
Local Open Scope list_scope.

#[global] Instance append_eq_dec : EqDecision replicaAppendRequest.
Proof. solve_decision. Defined.

Definition append_code (r : replicaAppendRequest) : positive :=
  in_row [encode (ra_Sequence r); encode (ra_ReplicationFactor r); encode (ra_Records r); encode (ra_Operation r);
   encode (ra_Namespace r); encode (ra_ID r)].

Definition append_of (p : positive) : option replicaAppendRequest :=
  match of_row p with
  | [a; b; c; d; e; f] =>
      a ← countable.decode a; b ← countable.decode b; c ← countable.decode c; d ← countable.decode d; e ← countable.decode e; f ← countable.decode f; Some (mkReplicaAppend a b c d e f)
  | _ => None
  end.

Lemma append_of_code x : append_of (append_code x) = Some x.
Proof. unfold append_of, append_code. rewrite of_in_row. destruct x. by rewrite !countable.decode_encode. Qed.

#[global] Instance append_countable : Countable replicaAppendRequest := {| encode := append_code; countable.decode := append_of; countable.decode_encode := append_of_code |}.

#[global] Instance snapshot_eq_dec : EqDecision replicaSnapshotRequest.
Proof. solve_decision. Defined.

#[global] Program Instance snapshot_countable : Countable replicaSnapshotRequest :=
  inj_countable' (λ r, (rs_Sequence r, rs_ReplicationFactor r, rs_Records r)) (λ '(a, b, c), mkReplicaSnapshot a b c) _.
Next Obligation. by intros []. Qed.

#[global] Instance ownership_eq_dec : EqDecision ownershipManifest.
Proof. solve_decision. Defined.

#[global] Program Instance ownership_countable : Countable ownershipManifest :=
  inj_countable' (λ r, (own_Format r, own_Collections r)) (λ '(a, b), mkOwnershipManifest a b) _.
Next Obligation. by intros []. Qed.

#[global] Instance request_eq_dec : EqDecision request.
Proof. solve_decision. Defined.

#[global] Instance append_json : Json replicaAppendRequest := codec json_append.
#[global] Instance append_json_spec : JsonSpec replicaAppendRequest json_append := codec_spec _.
#[global] Instance snapshot_json : Json replicaSnapshotRequest := codec json_snapshot.
#[global] Instance snapshot_json_spec : JsonSpec replicaSnapshotRequest json_snapshot := codec_spec _.
#[global] Instance ownership_json : Json ownershipManifest := codec id.

#[local] Instance listed : MapOrder := {| range := λ K _ _ A m, map_to_list m; range_perm := λ K _ _ A m, Permutation_refl _ |}.

Module Cluster.
Import Scenario Witnesses.

Local Abbreviation server := (Server.t ExactIndexes.t Reference.filter_index unit).
Local Abbreviation world := (world (I := ExactIndexes.t) (MI := Reference.filter_index) (L := unit)).

Definition id_c : string := "0000000000000000000000000000000c".
Definition ids : list string := [id_a; id_b; id_c].

(** A member of the set, on an opened collection. *)
Definition member (st : Scenario.state) (id : string) : server :=
  Server.mk (Node.mk {["docs" := st]} None (mkDisk ∅ [])) id "cluster" "addr" 5
    ((λ p, sample_peer p 0 true) <$> List.filter (λ p, negb (String.eqb p id)) ids) true true 3 1 None (Some 2) None true ∅.

Definition clock (n : nat) : Z := 7.
Definition quiet_removal (name : string) (shardID : Z) : option PruneStep := None.

(** The leader writes the record ["a"]. *)
Definition batch (st : Scenario.state) :=
  Server.commit_batch true 0 None quiet_log (member st id_a) "docs" 0 [item "a" one] "" clock.

(** What it sends to one member, and what that member makes of it. *)
Definition message (s : server) (term sequence : Z) (prepared : list CoreRecord) : res request :=
  let! payload := json_Marshal (append_body sequence 3 (ReplicaNodes.Put prepared)) in
  Ok (Server.leader_request s (sample_peer id_c 0 true) "docs" 0 term payload).

Definition taken (st : Scenario.state) (r : request) : server * answer :=
  Server.internalReplicaAppend quiet_removal quiet_log (member st id_c) r.

(** Only that message is answered. *)
Definition exchange (r : request) (a : answer) (url : string) (ep : endpoint) (r' : request) : reply :=
  match ep with
  | AppendPath => if bool_decide (r' = r) then Received 200 (Some (Body a)) else Unreachable
  | _ => Unreachable
  end.

Definition commits (st : Scenario.state) (r : request) (a : answer) : server * Server.commit :=
  Server.commitLeaderShardBatch true 0 (exchange r a) id None quiet_log (member st id_a) "docs" 0 [item "a" one] "quorum" "" clock.

Definition passes (st : Scenario.state) : bool :=
  match batch st with
  | (s, Ok (term, ps, placement, (prepared, sequence))) =>
      match message s term sequence prepared with
      | Ok r =>
          let a := (taken st r).2 in
          (sequence =? 1) && (StatusCode a =? 200) && bool_decide (Replicas placement = [id_a; id_c; id_b]) && (request_cost AppendPath r =? 1)
          && bool_decide (Server.com_error (commits st r a).2 = None)
      | Err _ => false
      end
  | _ => false
  end.

Lemma passes_ok st : open ∅ None = Ok st → passes st = true.
Proof.
  intros Ho. assert (match open ∅ None with Ok st => passes st | Err _ => false end = true) as Hp by (vm_compute; reflexivity).
  by rewrite Ho in Hp.
Qed.

(** The world before, and after the leader's write, its message and its
    delivery. *)
Definition start (st : Scenario.state) : world :=
  mkWorld (<[id_a := member st id_a]> (<[id_b := member st id_b]> {[id_c := member st id_c]})) {[0 := ∅]} ∅ [] [] 0.

Local Abbreviation steps := (rtc (step cfg 0 id_a true 0)).

(** The opened collection has one store, with an empty log. *)
Definition fresh (st : Scenario.state) : bool :=
  match Engine.stores st with [x] => match log x with Some l => LastLSN l =? 0 | None => false end | _ => false end.

Lemma fresh_ok st : open ∅ None = Ok st → fresh st = true.
Proof.
  intros Ho. assert (match open ∅ None with Ok st => fresh st | Err _ => false end = true) as Hp by (vm_compute; reflexivity).
  by rewrite Ho in Hp.
Qed.

Lemma member_hosts st id : live cfg 0 st ∅ → fresh st = true → hosts cfg 0 0 (member st id) ∅ 0.
Proof.
  intros Hl Hf. constructor; [|done|by right]. exists st, ∅. split; [done|]. split; [|apply part_empty].
  unfold fresh in Hf. destruct (Engine.stores st) as [|x [|]] eqn:Es; [done| |done]. destruct (log x) as [l|] eqn:El; [|done].
  apply Z.eqb_eq in Hf. assert (Engine.stores st !! 0%nat = Some x) as Hx by (by rewrite Es).
  pose proof (live_replica cfg 0 0 st ∅ x l Hl Hx El) as Hr. by rewrite Hf in Hr.
Qed.

Lemma start_initial st : live cfg 0 st ∅ → fresh st = true → initial cfg 0 0 ∅ (start st).
Proof.
  intros Hl Hf. unfold initial. split_and!; [done|done|done|done|apply shard_map_empty|done|done|].
  intros id s. unfold start. cbn [nodes]. rewrite !lookup_insert_Some, lookup_singleton_Some.
  intros [[<- <-]|[_ [[<- <-]|[_ [<- <-]]]]]; (split; [done|by apply member_hosts]).
Qed.

Lemma stamped_durable version now : durable (Collection.stamp (item "a" one) version now).
Proof. split; [split; vm_compute; reflexivity|]. apply Forall_singleton. cbn. unfold one. lia. Qed.

Lemma one_storable : batch_storable cfg (I := ExactIndexes.t) (MI := Reference.filter_index) (L := unit) [item "a" one].
Proof.
  apply Forall_singleton. split; [apply a_named|]. intros c c1 now stored Hc. unfold Collection.PrepareUpsert.
  destruct (Collection.validate_record c (item "a" one)); [|done]. cbn [res_bind]. rewrite Hc.
  change (PrepareNamedVectors cfg (item "a" one)) with (Ok (item "a" one) : res CoreRecord).
  cbn [res_bind]. intros E. assert (stored = Collection.stamp (item "a" one) (u64 (Collection.version c + 1)) now) as ->.
  { apply (f_equal (λ r : res (Collection.t ExactIndexes.t Reference.filter_index unit * CoreRecord), match r with Ok x => x.2 | Err _ => stored end)) in E. symmetry. exact E. }
  split; [apply stamped_durable|done].
Qed.

(** What happened: the leader's server and answer, the message, the member's
    server and answer, and the world they are in. *)
Lemma delivered_run st :
  open ∅ None = Ok st →
  ∃ s' term ps placement prepared r a c w2 sc, batch st = (s', Ok (term, ps, placement, (prepared, 1))) ∧
    Replicas placement = [id_a; id_c; id_b] ∧ Server.com_error c = None ∧ commits st r a = (s', c) ∧
    steps (committed id_a (start st) s' 1 (ReplicaNodes.Put prepared) 3) w2 ∧ spent w2 = 5 ∧
    answered w2 = [(AppendPath, r, a)] ∧ StatusCode a = 200 ∧
    nodes w2 = <[id_c := sc]> (<[id_a := s']> (nodes (start st))).
Proof.
  intros Ho. pose proof (passes_ok st Ho) as Hp. unfold passes in Hp.
  destruct (batch st) as [s' [[[[term ps] placement] [prepared sequence]]|e]] eqn:Eb; [|done].
  destruct (message s' term sequence prepared) as [r|e] eqn:Em; [|done].
  destruct (taken st r) as [sc a] eqn:Et. cbn [snd] in Hp. rewrite !andb_true_iff, !bool_decide_eq_true in Hp.
  destruct Hp as [[[[->%Z.eqb_eq Ha%Z.eqb_eq] Hpl] Hcost%Z.eqb_eq] Herr].
  exists s', term, ps, placement, prepared, r, a, (commits st r a).2.
  exists (let w := with_sent (committed id_a (start st) s' 1 (ReplicaNodes.Put prepared) 3) AppendPath r in
    delivered w (<[id_c := sc]> (nodes w)) AppendPath r a (request_cost AppendPath r + 1)). exists sc. cbv zeta.
  split; [done|]. split; [done|]. split; [done|]. split.
  - rewrite (surjective_pairing (commits st r a)). cbn [snd]. f_equal. unfold commits, Server.commitLeaderShardBatch.
    unfold batch in Eb. rewrite Eb. destruct (_ =? 1); [done|]. destruct (await _ _ _). by destruct (_ <? _).
  - assert (Server.replicationFactor s' = 3) as Ef by (by destruct (commit_local_leads _ _ _ _ _ _ _ _ _ _ Eb) as (_&_&->)).
    unfold message in Em. destruct (json_Marshal _) as [payload|] eqn:Ej; [|done]. cbn [res_bind] in Em. injection Em as <-.
    split; [|split; [|split; [|split; [exact Ha|done]]]].
    + eapply rtc_l; [|apply rtc_once].
      * eapply (send_append cfg 0 id_a true 0 _ s' (sample_peer id_c 0 true) 1 (ReplicaNodes.Put prepared) term payload);
          [apply lookup_insert_eq|apply lookup_insert_eq|by rewrite Ef].
      * eapply (deliver cfg 0 id_a true 0 _ id_c (member st id_c) sc quiet_removal quiet_log AppendPath); [done| |done|exact Et|by left].
        cbn [with_sent sent]. by left.
    + cbn [delivered with_sent committed spent]. rewrite Hcost. done.
    + done.
Qed.
Lemma batch_starts st s' term ps placement prepared :
  batch st = (s', Ok (term, ps, placement, (prepared, 1))) →
  step cfg 0 id_a true 0 (start st) (committed id_a (start st) s' 1 (ReplicaNodes.Put prepared) 3).
Proof.
  intros Eb. apply (batch_step cfg 0 id_a true 0 (start st) (member st id_a) s' None quiet_log [item "a" one] clock ps placement term prepared 1);
    [apply lookup_insert_eq|done|apply one_storable|exact Eb].
Qed.

Lemma replicas_agree_witness :
  ∃ st s' prepared w, open ∅ None = Ok st ∧ steps (committed id_a (start st) s' 1 (ReplicaNodes.Put prepared) 3) w ∧
    ∀ id s, nodes w !! id = Some s →
    ∃ n m, position cfg 0 s = Some n ∧ ReplicaProtocol.history w !! n = Some m ∧ shard_records cfg 0 s = Ok (sorted_records m).
Proof.
  destruct opened as (st&Ho&Hl). destruct (delivered_run st Ho) as (s'&term&ps&placement&prepared&r&a&c&w2&sc&Eb&_&_&_&Hsteps&Hspent&_).
  assert (steps (start st) w2) as Hrun by (eapply rtc_l; [by eapply batch_starts|exact Hsteps]).
  assert (spent w2 + 8 < two64) as Hlt by (rewrite Hspent; done).
  pose proof (replicas_agree cfg plain 0 id_a true 0 (Z.le_refl 0) 0 ∅ (start st) w2 (start_initial st Hl (fresh_ok st Ho)) Hrun Hlt) as (H1&_&_).
  exists st, s', prepared, w2. split; [exact Ho|]. split; [exact Hsteps|exact H1].
Defined.

Lemma acknowledged_batch_survives_witness :
  ∃ st s' prepared w2, open ∅ None = Ok st ∧ steps (committed id_a (start st) s' 1 (ReplicaNodes.Put prepared) 3) w2 ∧
    survives cfg 0 w2 1 (ReplicaNodes.Put prepared) [id_b; id_c].
Proof.
  destruct opened as (st&Ho&Hl).
  destruct (delivered_run st Ho) as (s'&term&ps&placement&prepared&r&a&c&w2&sc&Eb&Hpl&Herr&Hc&Hsteps&Hspent&Hans&Ha&Hnodes).
  assert (spent w2 + 8 < two64) as Hlt by (rewrite Hspent; done).
  assert (genuine w2 (exchange r a)) as Hg.
  { intros url ep r' body. unfold exchange. destruct ep; [|done|done]. case_bool_decide as E; [|done]. intros [= <-]. exists (Body a).
    split; [|by left]. rewrite Hans, E. destruct a as [status b]. cbn [StatusCode Body] in *. rewrite Ha. by left. }
  assert (majority placement [id_b; id_c]) as HQ.
  { constructor; [apply (bool_decide_eq_true_1 (NoDup [id_b; id_c])); vm_compute; reflexivity|intros q; rewrite Hpl; set_solver|by rewrite Hpl]. }
  assert (in_service w2 [id_b; id_c]) as Hin.
  { intros q Hq. rewrite Hnodes. rewrite !elem_of_cons in Hq. destruct Hq as [->|[->|Hq%not_elem_of_nil]]; [..|done]; eexists; reflexivity. }
  exists st, s', prepared, w2. split; [exact Ho|]. split; [exact Hsteps|].
  exact (proj2 (acknowledged_batch_survives cfg plain 0 id_a true 0 (Z.le_refl 0) 0 ∅ (start st) (start st) w2 (member st id_a) s' None quiet_log
    [item "a" one] "quorum" clock ps placement term prepared 1 (exchange r a) id c [id_b; id_c] (start_initial st Hl (fresh_ok st Ho))
    (rtc_refl _ _) (lookup_insert_eq _ _ _) (conj eq_refl eq_refl) one_storable Eb Hsteps Hlt Hg (λ l, reflexivity l) Hc Herr ltac:(done) eq_refl HQ Hin)).
Defined.
(** Two members, and the requests they take. *)
Definition takes (st : Scenario.state) (id : string) (r : request) : server * answer :=
  handle quiet_removal quiet_log (member st id) AppendPath r.

Definition both_take (st : Scenario.state) : bool :=
  match batch st with
  | (s, Ok (term, _, _, (prepared, sequence))) =>
      match json_Marshal (append_body sequence 3 (ReplicaNodes.Put prepared)) with
      | Ok payload =>
          forallb (λ id, StatusCode (takes st id (Server.leader_request s (sample_peer id 0 true) "docs" 0 term payload)).2 =? 200) [id_b; id_c]
      | Err _ => false
      end
  | _ => false
  end.

Lemma both_take_ok st : open ∅ None = Ok st → both_take st = true.
Proof.
  intros Ho. assert (match open ∅ None with Ok st => both_take st | Err _ => false end = true) as Hp by (vm_compute; reflexivity).
  by rewrite Ho in Hp.
Qed.

Lemma member_sees st id : id ∈ ids → sees (member st id) [(id_a, 1); (id_b, 1); (id_c, 1)].
Proof.
  unfold ids. rewrite !elem_of_cons, elem_of_nil. intros Hid. eexists. split; [reflexivity|].
  destruct Hid as [->|[->|[->|[]]]]; vm_compute; solve_Permutation.
Qed.

Lemma member_named st id : live cfg 0 st ∅ → well_named (member st id).
Proof. intros Hl name x. cbn. intros [<- <-]%lookup_singleton_Some. by rewrite (lv_config _ _ _ _ Hl). Qed.

Lemma single_writer_witness :
  ∃ st r1 r2, open ∅ None = Ok st ∧ fenced (member st id_b) r1 ∧ fenced (member st id_c) r2 ∧ req_LeaderNodeID r1 = req_LeaderNodeID r2.
Proof.
  destruct opened as (st&Ho&Hl). pose proof (both_take_ok st Ho) as Hp. unfold both_take in Hp.
  destruct (batch st) as [s' [[[[term ps] placement] [prepared sequence]]|e]]; [|done].
  destruct (json_Marshal _) as [payload|e]; [|done]. cbn [forallb] in Hp. rewrite !andb_true_iff in Hp. destruct Hp as (Hb&Hc&_).
  exists st, (Server.leader_request s' (sample_peer id_b 0 true) "docs" 0 term payload),
    (Server.leader_request s' (sample_peer id_c 0 true) "docs" 0 term payload). split; [exact Ho|].
  destruct (takes st id_b _) as [s1 a1] eqn:E1. destruct (takes st id_c _) as [s2 a2] eqn:E2. apply Z.eqb_eq in Hb, Hc.
  exact (proj2 (proj2 (single_writer _ _ _ _ _ _ _ _ _ _ _ _ _ _ _ E1 E2 ltac:(done) ltac:(done)
    (member_named st id_b Hl) (member_named st id_c Hl) (member_sees st id_b ltac:(by right; left)) (member_sees st id_c ltac:(by right; right; left))
    eq_refl eq_refl)) Hb Hc).
Defined.
End Cluster.
